(* ===== verification/_CoqProject ===== *)
-Q . S2P
Prelude.v
JsNum.v
Utf8.v
Json.v
Errors.v
Headers.v
ResponseMetadata.v
Routing.v
FederationCommon.v
RouteLifecycle.v
Vws.v
Base64.v
Envelope.v
Ndjson.v
Http2Headers.v
RouteRegistry.v
WaitQueue.v
LeasePool.v
RouteAuthorizer.v
FederationHost.v
LifecycleFlood.v
HostRoutes.v
Effects.v
BrokerRequests.v
BrokerRouting.v
Relay.v
LocalBroker.v
LocalGuest.v
BrokerSocket.v
UnauthorizedClient.v
DispatchController.v
StateError.v
HostPeers.v
HostInvariants.v
FederationPool.v
VwsOpen.v
FederationVws.v
VwsPool.v
VwsBridge.v
VerserWebsocket.v
NodeRoutes.v
NodeBroker.v
ReplayBody.v
BrokerExchange.v
BrokerRedirects.v
NodeGuest.v
MinimalHttp.v
GuestDispatch.v
UpstreamPool.v
