(* ===== verification/Prelude.v ===== *)
(** * verser2: a verification library

    verser2 routes HTTP requests and WebSockets from brokers (clients) to guests
    (servers without an open port) through a host, over HTTP/2 sessions that the
    brokers and guests open.  Hosts can be federated: each exports the routes it
    knows to its upstream and inbound hosts, and forwards requests for them.  The
    source is TypeScript; paths below are under [src/packages/], and the packages
    are [verser-common], [verser2-host], [verser2-guest-node].

    ** Parts and files

    The language and the platform.
    - [Prelude] (this file): results with exceptions, JavaScript strings as
      sequences of UTF-16 units, insertion-ordered maps and sets, stable sorting,
      shared list lemmas and tactics.
    - [JsNum], [Utf8], [Json]: numbers as exact dyadics with IEEE rounding of
      literals and decimal printing, the UTF-8 codec with replacement, objects in
      property order with [JSON.stringify] and [JSON.parse].
    - [Effects]: computations over the history of a world that can change between
      any two steps, with a weakest-precondition calculus ([wp]).
    - [StateError]: operations on a state that may throw, with [wp] and [runs]
      (the operation returns, and then ...).

    verser-common [lib/]: the wire formats and validators.
    - [Errors] (errors.ts, error-response.ts, utils.ts), [Headers] (headers.ts),
      [ResponseMetadata] (header-serialization.ts and the guest's
      header-utils.ts), [Routing] (routing.ts, registration.ts),
      [FederationCommon] (federation.ts), [RouteLifecycle] (route-lifecycle.ts),
      [Vws] (vws.ts), [Envelope] (envelope.ts, stream-readers.ts), [Ndjson]
      (ndjson.ts), [Http2Headers] (http2-headers.ts, protocol-headers.ts,
      broker-request.ts).

    verser2-host [lib/]: the host.
    - [RouteRegistry] (route-registry.ts): local, imported and degraded routes,
      selection, export, expiry.
    - [LeasePool] (lease-pool.ts): idle, active and queued guest leases; leases
      are shared objects in a heap, promises and timers are logged.
    - [RouteAuthorizer] (route-authorizer.ts): cached hop decisions; the answer of
      the callback is an event of its own.
    - [FederationHost] (federation.ts): handshake, opening of streams, VWS
      negotiation, route control frames.
    - [LifecycleFlood]: the interface [FrameHostLaws] between the frame handler
      and a host, and what follows for a network of hosts.
    - [HostRoutes] (node-http2-verser-host.ts): registry, authorizer and links of
      one host together; it discharges [FrameHostLaws].
    - [BrokerRequests], [BrokerRouting], [Relay] (broker-routing.ts, and
      handleFederatedIncomingRequestStream of federation.ts): the pure functions
      of a request; the routing functions as computations of [Effects]; the
      listeners of a request under way as machines over stream events.
    - [LocalBroker], [LocalGuest] (local-peers.ts): brokers and guests in the
      process of the host.
    - [UnauthorizedClient] (unauthorized-client.ts): the gate for sessions without
      a client certificate.
    - [HostPeers] (node-http2-verser-host.ts, degraded-route-cleanup.ts): the host
      object: admission, broker groups, degradation and restoration of routes,
      revocation, federation membership, advertisement, shutdown.  [HostInvariants]
      holds its theory.
    - [FederationPool] (node-http2-verser-host.ts): the request streams of inbound
      hosts and the requests that wait for one.
    - [VwsOpen], [FederationVws], [VwsPool], [VwsBridge] (node-http2-verser-host.ts):
      WebSockets through the host: the open frame and its way through a
      federation; the handlers of brokers and of other hosts as computations of
      [Effects]; the streams inbound hosts keep open for WebSockets; the bridges.
    - [UpstreamPool] (node-http2-verser-host.ts): the streams the host keeps open
      to its upstream hosts, for requests and for WebSockets.
    - [WaitQueue]: what the waiting queues of [LeasePool], [FederationPool] and
      [VwsPool] have in common: waiters are conserved, keep their order and an armed timer.

    verser2-guest-node [lib/]: the Node guest and broker.
    - [BrokerSocket] (broker-socket.ts, chunked-body-decoder.ts): the byte side of
      an agent socket.
    - [DispatchController] (dispatch-controller.ts).
    - [VerserWebsocket] (verser-websocket.ts): the WebSocket class of guest and
      broker, its queues, pumps and closing; [Base64] is the text form of its
      binary payloads.
    - [NodeRoutes], [NodeBroker] (http2-verser-broker.ts): the routes a broker
      knows and tells its listeners; its session, registration and closing.
    - [ReplayBody], [BrokerExchange], [BrokerRedirects] (http2-verser-broker.ts):
      the body that is kept for a redirect; one request over its stream, and the
      handshake of a WebSocket; a request with its redirects, as a computation of
      [Effects] over the two.

    - [NodeGuest] (http2-verser-node-guest.ts): the session of a guest, its
      registration, and the lease streams it keeps open for requests and for
      WebSockets.
    - [MinimalHttp] (minimal-http.ts), [GuestDispatch] (http2-verser-node-guest.ts):
      the response object of a request handler; a request over a lease stream, one
      in memory, and the answer to an opened WebSocket.

    How they interact: [HostPeers] keeps a [HostRoutes.host_routes] and changes it
    only by its operations; [HostRoutes] calls [RouteRegistry], [RouteAuthorizer]
    and the frame handler of [FederationHost]; local brokers inside [HostPeers] are
    states of [LocalBroker].  [BrokerRouting] sees the host through
    [BrokerRoutingCallbacks], whose answers the world gives; [LocalGuest] and
    [Relay] are the two ends at which such a request is served.

    ** Modelling conventions

    - An [async] function is cut at its [await]s.  In [HostPeers] what continues is
      a value of [waiting], resumed with an answer by an event; in [LeasePool],
      [RouteAuthorizer] and [UnauthorizedClient] the answer, the timer and the end
      of a stream are events of their own; in [Effects] every step may read a
      changed world.  A theorem over all event lists is thus one over all
      interleavings.
    - A [throw] is [Throw] of a [result]; what was changed before stays changed.
    - Maps and sets keep insertion order, as the source iterates over them.
    - Sessions, streams, promises and errors are known by numbers where only
      their identity matters.  What the process does to the outside (frames,
      closes, settled promises, lifecycle events) is a log.
    - Listeners of the embedding program, and policy callbacks, run as events.
      The 'message' listeners of a WebSocket are a list of answers per message;
      what they call before they return are the events in between.
    - In [Effects] a computation meets a condition at every event it logs ([wp]);
      [wp_trail] adds the duties an event leaves behind: a stream that was acquired
      is written to or its failure reported, or it is closed.
    - Values of the wire are JSON until the source reads them as something else;
      what the dispatch makes of request metadata whose fields lack their types is
      a parameter of the world ([w_untyped]).
    - The URL parser, the host-name canonicalisation, the locale order, and the
      byte text of a random generation id are parameters (class [Platform] and
      arguments); their laws are stated where they are used.

    ** What the theorems show

    - Wire formats: encoders and decoders are inverse on all valid values
      ([envelope_roundtrip], [vws_frame_roundtrip], [response_metadata_roundtrip],
      [decoder_chunked_roundtrip]); the VWS line reader refines the specification
      that reads the whole input at once ([readVwsLine_correct]).
    - Route state: the registry is well formed after any operations
      ([registry_invariant]); selection takes the least candidate
      ([selection_correct]); exports have no loop ([export_loop_free]); imports are
      announced everywhere and drop cached decisions
      ([setImportedFederatedRoutes_correct]).
    - Federation: lifecycle frames terminate in cyclic networks and reach every
      host ([lifecycle_flood_terminates], [lifecycle_flood_reaches]).
    - Authorization: no cached or late answer outlives a revocation
      ([authorizer_invariant], [revokePair_effective]); no request leaves or enters
      without the decisions for its hop ([routeBrokerRequest_safe],
      [local_dispatch_safe], [federated_incoming_safe],
      [unattributed_incoming_refused]), and no WebSocket ([broker_vws_safe],
      [federation_vws_safe]); the same theorems say what the guest or the next host
      is sent, that refusals are thrown or told, and that a stream which is no
      longer wanted is closed.
    - The host: groups of brokers and ids stay consistent
      ([broker_groups_invariant]), routes follow the guests
      ([guest_routes_invariant]), every connected broker has the current routes
      ([brokers_in_sync]), the loss of a session and the shutdown clean up
      ([session_lost], [shutdown_final]); a federated request stream serves
      one request at a time ([federation_pool_invariant]), a pooled WebSocket
      stream one WebSocket ([vws_pool_invariant]); the streams to an upstream host
      stay within their limit and their pool never hangs ([upstream_pool_correct]).
    - Unauthorized sessions: at most one request is served, within the limits, and
      the session ends ([unauthorized_service_bounded], [unauthorized_session_ends],
      [unauthorized_request_correct], [unauthorized_response_safe]).
    - WebSockets: every promise settles once or its message is still under way
      ([websocket_invariant]), messages keep their order
      ([websocket_message_order], [websocket_roundtrip]), and a socket closes once
      ([websocket_closes_once], after which only the listeners of the message under
      way still get it) and in bounded time ([websocket_close_ends]).  An
      open frame visits no host twice and stays within the hop limit
      ([vws_journey_bounded]); the bridges keep order and contents and close both
      ends ([raw_bridge_correct], [frame_bridge_correct]).
    - Requests under way: promises settle once, listeners are removed, streams are
      cancelled ([pool_invariant], [local_dispatch_settles], [local_relay_correct],
      [forward_cancellation], [lease_cancellation], [controller_ends_once]).

    - The broker of the Node package: its calls settle once and its sessions are
      kept consistently ([node_broker_correct]); what its listeners were told,
      replayed, is what it knows ([node_routes_replayed]); a request settles once
      with a response of its own ([request_once_correct]), follows at most the
      allowed redirects ([redirects_correct]) with the body it was first sent
      with ([replay_body_correct]).
    - The guest of the Node package: its lease streams stay within their limits
      and it keeps none once closed ([node_guest_correct]); a lease stream carries
      one response or one error ([lease_dispatch_correct]), however the response
      object is used ([minimal_response_correct]); in memory a request settles
      once ([routed_dispatch_correct]); a WebSocket is accepted or refused once
      ([ws_lease_correct]).

    Observations where the code and its intention differ are lemmas beside the
    definitions they concern (such as [HostInvariants.routes_outlive_guest],
    [HostRoutes.alias_echo], [BrokerSocket.refused_last_write_never_ends],
    [VwsOpen.SampleHosts.forwarded_into_a_loop],
    [FederationVws.SampleVws.lost_route_still_used]).

    ** Bounds and fuel

    Fuel appears in the JSON parser (twice the length of the text, since every
    value read leaves a strictly shorter text) and number printer (the bit length),
    both confirmed by the round trips; in the NDJSON reader (the length of what is
    pending, [ndjson_loop_spec]); and in the chunk decoder (one more than the bytes
    pending, each turn consumes one, [flush_loop_fuel]); and in the line loop of a
    socket (one more than the units pending, each turn takes a line off,
    [incoming_fuel]).  The flood of [LifecycleFlood] needs none:
    its termination is a well-founded measure.  The set of seen lifecycle ids is
    the source's, cleared at 10000 entries; the termination theorem says how far
    that bound matters.  Content lengths and chunk sizes are exact integers with
    the source's safe-integer tests.

    ** Not modelled

    - TLS option normalisation (tls.ts) and certificate parsing: wrappers of
      node:tls; what the host reads of a certificate is a parameter.
    - node:http2 itself: sessions, flow control and resets are events and flags.
    - In http2-verser-node-guest.ts: revokeRoutes, a request of the guest over
      its session.
    - The request object of minimal-http.ts and other adapters of Node streams,
      the adapters of the broker to agents, dispatchers and [fetch]
      (broker-agent.ts, broker-dispatcher.ts), and the browser-style WebSocket
      wrapper (native-websocket.ts).
    - The Bun adapter (verser2-guest-bun), the shared fetch helpers
      (verser2-guest-js-common), release scripts, and the Python guest, a
      separate implementation.
    - Type declarations and re-exports. *)
From stdpp Require Export base tactics list option numbers strings sets relations sorting.
From Stdlib Require Export ZArith Lia.
#[global] Open Scope Z_scope.
#[global] Set Default Proof Using "Type".

(** ** JavaScript strings

    A JavaScript string is a sequence of UTF-16 code units; a [Buffer] is a
    sequence of bytes.  Both are lists of integers, kept at their width by
    [wf_units] and [wf_bytes]. *)
Definition jsstring : Type := list Z.
Definition bytes : Type := list Z.

Definition is_unit (c : Z) : bool := (0 <=? c) && (c <? 65536).
Definition is_byte (c : Z) : bool := (0 <=? c) && (c <? 256).
Definition wf_units (s : jsstring) : Prop := Forall (fun c => is_unit c = true) s.
Definition wf_bytes (b : bytes) : Prop := Forall (fun c => is_byte c = true) b.

(** String literals of the source. *)
Definition js (s : string) : jsstring :=
  map (fun a => Z.of_N (Ascii.N_of_ascii a)) (String.list_ascii_of_string s).
#[global] Arguments js _%_string.

Declare Scope js_scope.
Delimit Scope js_scope with js.
Notation "s +:+ t" := (s ++ t) (at level 60, right associativity, only parsing) : js_scope.

(** [s.length], as an integer. *)
Definition len {A} (s : list A) : Z := Z.of_nat (length s).

(** ** The error monad

    [Throw e] is a thrown (or rejected) value; the code's early returns and
    [throw] statements are the binds of this monad. *)
Inductive result (E A : Type) : Type :=
  | Ok (a : A)
  | Throw (e : E).
#[global] Arguments Ok {E A} a.
#[global] Arguments Throw {E A} e.

#[global] Instance result_ret {E} : MRet (result E) := fun A a => Ok a.
#[global] Instance result_bind {E} : MBind (result E) := fun A B f m =>
  match m with Ok a => f a | Throw e => Throw e end.
#[global] Instance result_fmap {E} : FMap (result E) := fun A B f m =>
  match m with Ok a => Ok (f a) | Throw e => Throw e end.

Definition is_ok {E A} (m : result E A) : bool :=
  match m with Ok _ => true | Throw _ => false end.

(** [try { m } catch (e) { h e }] *)
Definition catch {E A} (m : result E A) (h : E -> result E A) : result E A :=
  match m with Ok a => Ok a | Throw e => h e end.

(** [if (c) throw e]; the continuation runs otherwise. *)
Definition throw_if {E} (c : bool) (e : E) : result E unit :=
  if c then Throw e else Ok tt.

(** [array.map(f)] where [f] may throw: left to right, stopping at the first
    throw. *)
Fixpoint map_res {E A B} (f : A -> result E B) (l : list A) : result E (list B) :=
  match l with
  | [] => Ok []
  | x :: l => y ← f x; k ← map_res f l; Ok (y :: k)
  end.

(** A [for ... of] loop with an accumulator and a body that may throw. *)
Fixpoint fold_res {E A S} (f : S -> A -> result E S) (s : S) (l : list A) : result E S :=
  match l with
  | [] => Ok s
  | x :: l => s' ← f s x; fold_res f s' l
  end.

(** ** ASCII case, white space, and the string methods the source uses *)
Definition is_ascii (c : Z) : bool := (0 <=? c) && (c <? 128).
Definition all_ascii (s : jsstring) : bool := forallb is_ascii s.
Definition is_upper (c : Z) : bool := (65 <=? c) && (c <=? 90).
Definition is_lower (c : Z) : bool := (97 <=? c) && (c <=? 122).
Definition is_digit (c : Z) : bool := (48 <=? c) && (c <=? 57).
Definition is_alnum (c : Z) : bool := is_upper c || is_lower c || is_digit c.
Definition ascii_lower (c : Z) : Z := if is_upper c then c + 32 else c.
Definition ascii_upper (c : Z) : Z := if is_lower c then c - 32 else c.

(** ECMAScript WhiteSpace and LineTerminator code units (what [trim] strips). *)
Definition is_space (c : Z) : bool :=
  ((9 <=? c) && (c <=? 13)) || (c =? 32) || (c =? 160) || (c =? 5760) ||
  ((8192 <=? c) && (c <=? 8202)) || (c =? 8232) || (c =? 8233) || (c =? 8239) ||
  (c =? 8287) || (c =? 12288) || (c =? 65279).

Fixpoint drop_while {A} (p : A -> bool) (l : list A) : list A :=
  match l with
  | [] => []
  | x :: l' => if p x then drop_while p l' else l
  end.

Definition trim_start (s : jsstring) : jsstring := drop_while is_space s.
Definition trim_end (s : jsstring) : jsstring := reverse (drop_while is_space (reverse s)).
Definition trim (s : jsstring) : jsstring := trim_end (trim_start s).

Definition str_eqb (s t : jsstring) : bool := bool_decide (s = t).
Definition mem_str (s : jsstring) (l : list jsstring) : bool := bool_decide (s ∈ l).

Fixpoint starts_with (p s : jsstring) : bool :=
  match p, s with
  | [], _ => true
  | _ :: _, [] => false
  | a :: p, b :: s => (a =? b) && starts_with p s
  end.
Definition ends_with (p s : jsstring) : bool := starts_with (reverse p) (reverse s).

(** [s.indexOf(sub)]: the first position, [None] for [-1]. *)
Fixpoint index_of (sub s : jsstring) : option nat :=
  if starts_with sub s then Some 0%nat
  else match s with
       | [] => None
       | _ :: s => S <$> index_of sub s
       end.
Definition includes (sub s : jsstring) : bool :=
  match index_of sub s with Some _ => true | None => false end.

(** [s.split(sep)] for a one-unit separator. *)
Fixpoint split_on (sep : Z) (s : jsstring) : list jsstring :=
  match s with
  | [] => [[]]
  | c :: s =>
      if c =? sep then [] :: split_on sep s
      else match split_on sep s with
           | [] => [[c]]
           | w :: ws => (c :: w) :: ws
           end
  end.

(** [l.join(sep)] *)
Fixpoint join (sep : jsstring) (l : list jsstring) : jsstring :=
  match l with
  | [] => []
  | [w] => w
  | w :: ws => w ++ sep ++ join sep ws
  end.

(** ** Platform services

    What the source uses of the platform and that is not code of the
    repository: the WHATWG URL parser, the locale collation behind
    [localeCompare], and the Unicode case tables beyond ASCII.  Every
    definition that uses one takes the class as an argument; witnesses use
    the concrete instance [ascii_platform]. *)
Inductive native_error : Type := GenericError | TypeError | SyntaxError | RangeError.

Class Platform := {
  (** [new URL(`http://${s}`).hostname]; [None] when the constructor throws. *)
  url_hostname : jsstring -> option jsstring;
  (** [a.localeCompare(b)], by its sign. *)
  locale_compare : jsstring -> jsstring -> comparison;
  (** [s.toLowerCase()] and [s.toUpperCase()] on a string with a unit beyond ASCII. *)
  unicode_lower : jsstring -> jsstring;
  unicode_upper : jsstring -> jsstring;
  (** The message the engine gives an error it throws itself, on an input. *)
  engine_message : native_error -> jsstring -> jsstring;
}.

Definition to_lower `{Platform} (s : jsstring) : jsstring :=
  if all_ascii s then map ascii_lower s else unicode_lower s.
Definition to_upper `{Platform} (s : jsstring) : jsstring :=
  if all_ascii s then map ascii_upper s else unicode_upper s.

(** The documented contract of [localeCompare] (ECMA-262: a consistent
    comparator; ECMA-402: canonically equivalent strings compare equal, so
    [Eq] is an equivalence that may be coarser than equality). *)
Class ConsistentCollation `{Platform} : Prop := {
  locale_refl : forall a, locale_compare a a = Eq;
  locale_antisym : forall a b, locale_compare b a = CompOpp (locale_compare a b);
  locale_trans : forall a b c,
    locale_compare a b <> Gt -> locale_compare b c <> Gt -> locale_compare a c <> Gt;
}.

(** The documented contract of the case mapping: no cased ASCII letter of the
    other case is left. *)
Class CaseMapping `{Platform} : Prop := {
  unicode_lower_spec : forall s, Forall (fun c => is_upper c = false) (unicode_lower s);
}.

(** Code-unit order: the collation of [ascii_platform]. *)
Fixpoint unit_compare (a b : jsstring) : comparison :=
  match a, b with
  | [], [] => Eq
  | [], _ :: _ => Lt
  | _ :: _, [] => Gt
  | x :: a, y :: b => match x ?= y with Eq => unit_compare a b | c => c end
  end.

(** Host names of letters, digits, [-] and [.] are their own ASCII lower case;
    anything else is left to the throwing case. *)
Definition ascii_platform : Platform := {|
  url_hostname s :=
    if negb (bool_decide (s = [])) &&
       forallb (fun c => is_alnum c || (c =? 45) || (c =? 46)) s
    then Some (map ascii_lower s) else None;
  locale_compare := unit_compare;
  unicode_lower := map ascii_lower;
  unicode_upper := map ascii_upper;
  engine_message _ s := s;
|}.

(** ** Stable sorting

    [Array.prototype.sort] is stable; with a consistent comparator its result
    is the stable sort, computed here by insertion. *)
Section StableSort.
Context {A : Type} (cmp : A -> A -> comparison).

Fixpoint insert_sorted (x : A) (l : list A) : list A :=
  match l with
  | [] => [x]
  | y :: l' => match cmp x y with Gt => y :: insert_sorted x l' | _ => x :: l end
  end.
Definition stable_sort (l : list A) : list A := foldr insert_sorted [] l.
End StableSort.

(** Lexicographic composition: [c1 || c2] on comparator results. *)
Definition then_cmp (c d : comparison) : comparison := match c with Eq => d | _ => c end.

(** ** Insertion-ordered maps: JavaScript's [Map] and [Set] *)
Section JsMap.
Context {K V : Type} `{EqDecision K}.
Implicit Types (m : list (K * V)) (k : K) (v : V).

Fixpoint map_get k m : option V :=
  match m with
  | [] => None
  | (k', v) :: m => if decide (k = k') then Some v else map_get k m
  end.

(** [m.set(k, v)]: in place when the key is present, else at the end. *)
Fixpoint map_set k v m : list (K * V) :=
  match m with
  | [] => [(k, v)]
  | (k', v') :: m => if decide (k = k') then (k', v) :: m else (k', v') :: map_set k v m
  end.

Definition map_delete k m : list (K * V) := filter (fun p => p.1 <> k) m.
Definition map_has k m : bool := match map_get k m with Some _ => true | None => false end.
Definition map_keys m : list K := m.*1.
Definition map_wf m : Prop := NoDup (map_keys m).
End JsMap.

Definition set_add `{EqDecision K} (k : K) (s : list K) : list K :=
  if decide (k ∈ s) then s else s ++ [k].
Definition set_has `{EqDecision K} (k : K) (s : list K) : bool := bool_decide (k ∈ s).

(** * Theory *)

Create HintDb verser discriminated.
Create Rewrite HintDb verser.

(** Destruct the scrutinee of a [match] or [if] in the goal or a hypothesis. *)
Ltac break_goal :=
  match goal with
  | |- context [match ?x with _ => _ end] => destruct x eqn:?
  end.
Ltac break_in H :=
  match type of H with
  | context [match ?x with _ => _ end] => destruct x eqn:?
  end.
(** Turn boolean tests into propositions. *)
Ltac bools :=
  repeat match goal with
  | H : (_ && _)%bool = true |- _ => apply andb_true_iff in H as [? ?]
  | H : (_ || _)%bool = false |- _ => apply orb_false_iff in H as [? ?]
  | H : negb _ = true |- _ => apply negb_true_iff in H
  | H : negb _ = false |- _ => apply negb_false_iff in H
  | H : bool_decide _ = true |- _ => apply bool_decide_eq_true in H
  | H : bool_decide _ = false |- _ => apply bool_decide_eq_false in H
  end.
(** ** Result monad *)
(** [injection] would also compute under [Ok]. *)
Lemma Ok_inj {E A} (a b : A) : @Ok E A a = Ok b -> a = b.
Proof. by intros [= ->]. Qed.

Lemma bind_Ok_inv {E A B} (m : result E A) (f : A -> result E B) b :
  (m ≫= f) = Ok b -> exists a, m = Ok a /\ f a = Ok b.
Proof. destruct m; simpl; [eauto | discriminate]. Qed.

Lemma fmap_Ok_inv {E A B} (m : result E A) (f : A -> B) b :
  (f <$> m) = Ok b -> exists a, m = Ok a /\ f a = b.
Proof. destruct m; simpl; [|discriminate]. intros [= <-]. eauto. Qed.

Lemma throw_if_Ok_inv {E} c (e : E) u : throw_if c e = Ok u -> c = false.
Proof. by destruct c. Qed.

Lemma catch_Ok_inv {E A} (m : result E A) h a :
  catch m h = Ok a -> m = Ok a \/ exists e, m = Throw e /\ h e = Ok a.
Proof. destruct m; simpl; [by left | right; eauto]. Qed.

(** Invert an [Ok] result of a chain of binds and guards. *)
Ltac res_inv H :=
  cbn beta iota zeta in H;
  lazymatch type of H with
  | Throw _ = Ok _ => discriminate H
  | mret _ = Ok _ => injection H as H; try subst
  | Ok _ = Ok _ => injection H as H; try subst
  | throw_if _ _ = Ok _ => apply throw_if_Ok_inv in H
  | mbind _ _ = Ok _ =>
      let a := fresh "a" in let H1 := fresh "H" in let H2 := fresh "H" in
      apply bind_Ok_inv in H as (a & H1 & H2); res_inv H1; res_inv H2
  | fmap _ _ = Ok _ =>
      let a := fresh "a" in let H1 := fresh "H" in let H2 := fresh "H" in
      apply fmap_Ok_inv in H as (a & H1 & H2); res_inv H1; try subst
  | (match ?x with _ => _ end) = Ok _ => destruct x eqn:?; res_inv H
  | _ => idtac
  end.

Lemma map_res_Ok {E A B} (f : A -> result E B) l k :
  map_res f l = Ok k <-> Forall2 (fun x y => f x = Ok y) l k.
Proof.
  split.
  - revert k. induction l as [|x l IH]; intros k H; simpl in H; res_inv H.
    + constructor.
    + constructor; auto.
  - induction 1 as [|x y l k Hf _ IH]; [done|]. simpl. by rewrite Hf, IH.
Qed.

Lemma map_res_Throw {E A B} (f : A -> result E B) l e :
  map_res f l = Throw e -> exists x, x ∈ l /\ f x = Throw e.
Proof.
  induction l as [|x l IH]; simpl; [discriminate|].
  destruct (f x) as [y|e'] eqn:Hf; simpl.
  - destruct (map_res f l) as [k|e'']; simpl; [discriminate|].
    intros [= <-]. destruct IH as (x' & ? & ?); [done|]. exists x'. split; [by right | done].
  - intros [= <-]. exists x. split; [by left | done].
Qed.

Lemma map_res_length {E A B} (f : A -> result E B) l k :
  map_res f l = Ok k -> length k = length l.
Proof. intros H%map_res_Ok. symmetry. by eapply Forall2_length. Qed.

Lemma fold_res_app {E A S} (f : S -> A -> result E S) s l1 l2 :
  fold_res f s (l1 ++ l2) = s' ← fold_res f s l1; fold_res f s' l2.
Proof. revert s. induction l1 as [|x l1 IH]; intros s; simpl; [done|]. destruct (f s x); simpl; auto. Qed.

(** A loop invariant. *)
Lemma fold_res_inv {E A S} (I : S -> Prop) (f : S -> A -> result E S) l :
  (forall s x s', I s -> x ∈ l -> f s x = Ok s' -> I s') ->
  forall s s', I s -> fold_res f s l = Ok s' -> I s'.
Proof.
  intros Hf. induction l as [|x l IH]; intros s s' Hs H; simpl in H; res_inv H; [done|].
  eapply IH; [|eapply Hf; [exact Hs|by left|done]|done]. intros. eapply Hf; eauto. by right.
Qed.

(** ** Case mapping *)
Lemma ascii_lower_not_upper c : is_upper (ascii_lower c) = false.
Proof. unfold ascii_lower. destruct (is_upper c) eqn:E; [|done]. unfold is_upper in *. lia. Qed.

Lemma map_ascii_lower_id s : Forall (fun c => is_upper c = false) s -> map ascii_lower s = s.
Proof. induction 1 as [|c s Hc Hs IH]; simpl; [done|]. unfold ascii_lower at 1. by rewrite Hc, IH. Qed.

Lemma ascii_lower_ascii c : is_ascii (ascii_lower c) = is_ascii c.
Proof.
  unfold ascii_lower, is_upper, is_ascii. destruct ((65 <=? c) && (c <=? 90)) eqn:E; [|done].
  destruct ((0 <=? c) && (c <? 128)) eqn:E2; lia.
Qed.

Lemma to_lower_not_upper `{CaseMapping} s : Forall (fun c => is_upper c = false) (to_lower s).
Proof.
  unfold to_lower. destruct (all_ascii s); [|apply unicode_lower_spec].
  apply Forall_fmap, Forall_true. intros c. apply ascii_lower_not_upper.
Qed.

Lemma to_lower_id `{Platform} s : all_ascii s = true -> Forall (fun c => is_upper c = false) s -> to_lower s = s.
Proof. intros Ha Hs. unfold to_lower. rewrite Ha. by apply map_ascii_lower_id. Qed.

#[export] Instance ascii_platform_case : @CaseMapping ascii_platform.
Proof.
  split. intros s. simpl. apply Forall_fmap, Forall_true. intros c. apply ascii_lower_not_upper.
Qed.

(** ** Lists *)
Lemma len_app {A} (s t : list A) : len (s ++ t) = len s + len t.
Proof. unfold len. rewrite length_app. lia. Qed.
Lemma len_nonneg {A} (s : list A) : 0 <= len s.
Proof. unfold len. lia. Qed.
Lemma len_cons {A} (x : A) s : len (x :: s) = 1 + len s.
Proof. unfold len. simpl. lia. Qed.
#[export] Hint Rewrite @len_app @len_cons : verser.

Lemma drop_while_head {A} (p : A -> bool) l x l' :
  drop_while p l = x :: l' -> p x = false.
Proof. induction l as [|y l IH]; simpl; [done|]. destruct (p y) eqn:E; [done|]. congruence. Qed.

Lemma drop_while_id {A} (p : A -> bool) l :
  (forall x l', l = x :: l' -> p x = false) -> drop_while p l = l.
Proof. destruct l as [|x l]; intros H; [done|]. simpl. by rewrite (H x l). Qed.

Lemma drop_while_suffix {A} (p : A -> bool) l : exists k, l = k ++ drop_while p l /\ forallb p k = true.
Proof.
  induction l as [|x l [k [IH Hk]]]; [by exists []|]. simpl.
  destruct (p x) eqn:E.
  - exists (x :: k). simpl. rewrite E, Hk. split; [congruence|done].
  - by exists [].
Qed.

Lemma drop_while_idem {A} (p : A -> bool) l : drop_while p (drop_while p l) = drop_while p l.
Proof. apply drop_while_id. intros x l'. apply drop_while_head. Qed.

Lemma forallb_reverse {A} (p : A -> bool) l : forallb p (reverse l) = forallb p l.
Proof.
  induction l as [|x l IH]; [done|]. rewrite reverse_cons, forallb_app, IH. simpl.
  rewrite andb_true_r. apply andb_comm.
Qed.

Lemma Forall_forallb {A} (p : A -> bool) l : forallb p l = true <-> Forall (fun x => p x = true) l.
Proof. rewrite forallb_forall, Forall_forall. by setoid_rewrite <- list_elem_of_In. Qed.

Lemma sublist_same_length {A} (l k : list A) : sublist l k -> (length k <= length l)%nat -> l = k.
Proof.
  induction 1 as [|x l k H IH|x l k H IH]; simpl; intros Hl; [done| |].
  - f_equal. apply IH. lia.
  - apply sublist_length in H. lia.
Qed.

Lemma filter_all_in {A} (Q : A -> Prop) `{!forall x, Decision (Q x)} (l : list A) : (forall x, x ∈ l -> Q x) -> filter Q l = l.
Proof.
  induction l as [|x l IH]; intros Hq; [done|]. rewrite filter_cons_True by (apply Hq; by left).
  f_equal. apply IH. intros y Hy. apply Hq. by right.
Qed.
Lemma filter_none_in {A} (Q : A -> Prop) `{!forall x, Decision (Q x)} (l : list A) : (forall x, x ∈ l -> ~ Q x) -> filter Q l = [].
Proof.
  induction l as [|x l IH]; intros Hq; [done|]. rewrite filter_cons_False by (apply Hq; by left).
  apply IH. intros y Hy. apply Hq. by right.
Qed.
Lemma Forall_sublist {A} (Q : A -> Prop) (l k : list A) : sublist l k -> Forall Q k -> Forall Q l.
Proof. intros Hs Hk. apply Forall_forall. intros x Hx. eapply Forall_forall in Hk; [done|]. by eapply elem_of_sublist. Qed.
Lemma sublist_map {A B} (f : A -> B) l k : sublist l k -> sublist (map f l) (map f k).
Proof. induction 1; simpl; by constructor. Qed.
Lemma StronglySorted_sublist {A} (R : A -> A -> Prop) l k : sublist l k -> StronglySorted R k -> StronglySorted R l.
Proof.
  induction 1 as [|x l k H IH|x l k H IH]; intros Hs; [constructor| |].
  - apply StronglySorted_inv in Hs as [Hs Hx]. constructor; [auto|]. by eapply Forall_sublist.
  - apply StronglySorted_inv in Hs as [Hs Hx]. auto.
Qed.

(** ** [trim] *)
Lemma trim_end_suffix s : exists k, s = trim_end s ++ k /\ forallb is_space k = true.
Proof.
  unfold trim_end. destruct (drop_while_suffix is_space (reverse s)) as (k & Hk & Hs).
  exists (reverse k). rewrite forallb_reverse. split; [|done].
  rewrite <- (reverse_involutive s) at 1. by rewrite Hk at 1; rewrite reverse_app.
Qed.

(** What [trim] removes on both sides is white space only. *)
Lemma trim_decompose s : exists pre post,
  s = pre ++ trim s ++ post /\ forallb is_space pre = true /\ forallb is_space post = true.
Proof.
  destruct (drop_while_suffix is_space s) as (pre & Hpre & Hps).
  destruct (trim_end_suffix (trim_start s)) as (post & Hpost & Hqs).
  exists pre, post. split; [|done]. unfold trim. unfold trim_start in *. congruence.
Qed.

Lemma trim_first s c s' : trim s = c :: s' -> is_space c = false.
Proof.
  unfold trim. intros H.
  destruct (trim_end_suffix (trim_start s)) as (k & Hk & _). rewrite H in Hk.
  unfold trim_start in Hk. by eapply drop_while_head.
Qed.

Lemma trim_last s s' c : trim s = s' ++ [c] -> is_space c = false.
Proof.
  unfold trim, trim_end. intros H%(f_equal reverse).
  rewrite reverse_involutive, reverse_snoc in H. by eapply drop_while_head.
Qed.

Lemma trim_fixpoint s :
  (forall c s', s = c :: s' -> is_space c = false) ->
  (forall s' c, s = s' ++ [c] -> is_space c = false) -> trim s = s.
Proof.
  intros Hf Hl. unfold trim, trim_start. rewrite (drop_while_id _ s) by done.
  unfold trim_end. rewrite (drop_while_id _ (reverse s)), reverse_involutive; [done|].
  intros x l' H. apply (Hl (reverse l')). rewrite <- (reverse_involutive s), H.
  by rewrite reverse_cons.
Qed.

Lemma trim_idem s : trim (trim s) = trim s.
Proof. apply trim_fixpoint; intros ? ? H; [by eapply trim_first | by eapply trim_last]. Qed.

Lemma trim_nil_iff s : trim s = [] <-> forallb is_space s = true.
Proof.
  split.
  - destruct (trim_decompose s) as (pre & post & Hs & Hp & Hq). intros Ht.
    rewrite Hs, Ht, !forallb_app, Hp, Hq. done.
  - intros H. unfold trim, trim_start.
    assert (drop_while is_space s = []) as ->; [|done].
    induction s as [|c s IH]; simpl in *; bools; [done|]. rewrite H. auto.
Qed.

Lemma trim_Forall (P : Z -> Prop) s : Forall P s -> Forall P (trim s).
Proof.
  destruct (trim_decompose s) as (pre & post & Hs & _). rewrite Hs at 1.
  rewrite !Forall_app. tauto.
Qed.
#[export] Hint Resolve trim_Forall : verser.

(** ** Prefixes and positions *)
Lemma starts_with_spec p s : starts_with p s = true <-> exists r, s = p ++ r.
Proof.
  revert s. induction p as [|a p IH]; intros s; simpl.
  - split; [by exists s|done].
  - destruct s as [|b s]; [split; [done|by intros [r [=]]]|].
    rewrite andb_true_iff, Z.eqb_eq, IH. split.
    + intros [-> [r ->]]. by exists r.
    + intros [r [= -> ->]]. eauto.
Qed.

Lemma starts_with_app p r : starts_with p (p ++ r) = true.
Proof. apply starts_with_spec. by exists r. Qed.

Lemma str_eqb_eq s t : str_eqb s t = true <-> s = t.
Proof. apply bool_decide_eq_true. Qed.
Lemma str_eqb_neq s t : str_eqb s t = false <-> s <> t.
Proof. apply bool_decide_eq_false. Qed.
Lemma str_eqb_refl s : str_eqb s s = true.
Proof. by apply str_eqb_eq. Qed.
#[export] Hint Rewrite str_eqb_refl : verser.
Lemma mem_str_elem s l : mem_str s l = true <-> s ∈ l.
Proof. apply bool_decide_eq_true. Qed.

Lemma index_of_single (c : Z) (s : list Z) i :
  index_of [c] s = Some i <-> s !! i = Some c /\ c ∉ take i s.
Proof.
  revert i. induction s as [|d s IH]; intros i; simpl.
  - split; [done|intros [[=] _]].
  - rewrite andb_true_r. destruct (Z.eqb_spec c d) as [->|Hne].
    + split; [intros [= <-]; split; [done|apply not_elem_of_nil]|].
      destruct i as [|i]; [done|]. intros [_ H]. simpl in H. set_solver.
    + destruct i as [|i]; simpl.
      * split; [by destruct (index_of [c] s)|]. intros [[= ->] _]. done.
      * rewrite not_elem_of_cons. destruct (index_of [c] s) as [j|] eqn:E; simpl.
        -- specialize (IH i). split; [intros [= ->]; apply IH in E || idtac; naive_solver|].
           intros (H1 & _ & H2). f_equal. assert (Some j = Some i) by (by apply IH). congruence.
        -- split; [done|]. intros (H1 & _ & H2). assert (None = Some i) by (by apply IH). done.
Qed.

Lemma index_of_single_None (c : Z) (s : list Z) : index_of [c] s = None <-> c ∉ s.
Proof.
  induction s as [|d s IH]; simpl; [split; [intros _; apply not_elem_of_nil | done]|].
  rewrite andb_true_r, not_elem_of_cons. destruct (Z.eqb_spec c d) as [->|Hne]; [naive_solver|].
  destruct (index_of [c] s); simpl; naive_solver.
Qed.

(** ** [split] and [join] *)
Lemma split_on_nonempty sep s : split_on sep s <> [].
Proof. destruct s as [|c s]; simpl; [done|]. repeat break_goal; done. Qed.

Lemma join_split sep s : join [sep] (split_on sep s) = s.
Proof.
  induction s as [|c s IH]; [done|]. simpl. destruct (Z.eqb_spec c sep) as [->|Hne].
  - destruct (split_on sep s) as [|w ws] eqn:E; [by apply split_on_nonempty in E|].
    by rewrite <- IH.
  - destruct (split_on sep s) as [|w ws] eqn:E; [by apply split_on_nonempty in E|].
    rewrite <- IH. by destruct ws.
Qed.

Lemma split_on_no_sep sep s w : w ∈ split_on sep s -> sep ∉ w.
Proof.
  revert w. induction s as [|c s IH]; simpl; intros w.
  - intros ->%list_elem_of_singleton. apply not_elem_of_nil.
  - destruct (Z.eqb_spec c sep) as [->|Hne].
    + rewrite elem_of_cons. intros [->|H]; [apply not_elem_of_nil|auto].
    + destruct (split_on sep s) as [|u us] eqn:E; [by apply split_on_nonempty in E|].
      rewrite elem_of_cons. intros [->|H].
      * rewrite not_elem_of_cons. split; [done|]. apply IH. by left.
      * apply IH. by right.
Qed.

(** ** Insertion-ordered maps *)
Section JsMapTheory.
Context {K V : Type} `{EqDecision K}.
Implicit Types (m : list (K * V)) (k : K) (v : V).

Lemma map_get_set_eq k v m : map_get k (map_set k v m) = Some v.
Proof. induction m as [|[k' v'] m IH]; simpl; repeat case_decide; simplify_eq/=; rewrite ?decide_True by done; repeat case_decide; done. Qed.

Lemma map_get_set_ne k k' v m : k <> k' -> map_get k (map_set k' v m) = map_get k m.
Proof.
  intros Hne. induction m as [|[k0 v0] m IH]; simpl.
  - by rewrite decide_False.
  - destruct (decide (k' = k0)) as [->|]; simpl; repeat case_decide; simplify_eq; auto.
Qed.

Lemma map_get_set k k' v m :
  map_get k (map_set k' v m) = if decide (k = k') then Some v else map_get k m.
Proof. case_decide; [subst; apply map_get_set_eq | by apply map_get_set_ne]. Qed.

Lemma map_get_delete k k' m :
  map_get k (map_delete k' m) = if decide (k = k') then None else map_get k m.
Proof.
  unfold map_delete. induction m as [|[k0 v0] m IH]; [by case_decide|].
  rewrite filter_cons; simpl. repeat case_decide; simplify_eq/=; rewrite ?IH;
    repeat case_decide; simplify_eq; done.
Qed.

Lemma map_keys_delete k m : map_keys (map_delete k m) = filter (fun k' => k' <> k) (map_keys m).
Proof.
  unfold map_delete, map_keys. induction m as [|[k0 v0] m IH]; [done|].
  rewrite fmap_cons, !filter_cons; simpl. case_decide; simpl; by rewrite <- IH.
Qed.

Lemma elem_of_map_keys k m : k ∈ map_keys m <-> map_get k m <> None.
Proof.
  unfold map_keys. induction m as [|[k0 v0] m IH]; simpl.
  - rewrite elem_of_nil. naive_solver.
  - rewrite elem_of_cons, IH. case_decide; naive_solver.
Qed.

Lemma map_get_None k m : map_get k m = None <-> k ∉ map_keys m.
Proof. rewrite elem_of_map_keys. destruct (map_get k m); naive_solver. Qed.

Lemma map_keys_set k v m :
  map_keys (map_set k v m) = if decide (k ∈ map_keys m) then map_keys m else map_keys m ++ [k].
Proof.
  unfold map_keys. induction m as [|[k0 v0] m IH]; csimpl; [done|].
  destruct (decide (k = k0)) as [->|Hne]; csimpl.
  - by rewrite decide_True by (by left).
  - rewrite IH. repeat case_decide; [done| | |done]; set_solver.
Qed.

Lemma map_wf_nil : map_wf ([] : list (K * V)).
Proof. constructor. Qed.

Lemma map_wf_set k v m : map_wf m -> map_wf (map_set k v m).
Proof.
  unfold map_wf. rewrite map_keys_set. case_decide; [done|]. intros Hm.
  apply NoDup_app. split; [done|]. split; [set_solver|]. apply NoDup_singleton.
Qed.

Lemma map_wf_delete k m : map_wf m -> map_wf (map_delete k m).
Proof. unfold map_wf. rewrite map_keys_delete. apply NoDup_filter. Qed.

Lemma map_get_elem k v m : map_get k m = Some v -> (k, v) ∈ m.
Proof.
  induction m as [|[k0 v0] m IH]; simpl; [done|].
  case_decide; [intros [= ->]; subst; by left | right; auto].
Qed.

Lemma map_elem_get k v m : map_wf m -> (k, v) ∈ m -> map_get k m = Some v.
Proof.
  unfold map_wf, map_keys. induction m as [|[k0 v0] m IH]; simpl; [by rewrite elem_of_nil|].
  rewrite NoDup_cons, elem_of_cons. intros [Hni Hnd] [[= -> ->]|Hin].
  - by rewrite decide_True.
  - rewrite decide_False; [auto|]. intros ->. apply Hni.
    apply list_elem_of_fmap. by exists (k0, v).
Qed.

Lemma map_elem_iff k v m : map_wf m -> (k, v) ∈ m <-> map_get k m = Some v.
Proof. split; [by apply map_elem_get | apply map_get_elem]. Qed.

(** Membership after an update, without looking at positions. *)
Lemma map_elem_set k v k' v' m :
  (k', v') ∈ map_set k v m -> (k' = k /\ v' = v) \/ (k', v') ∈ m.
Proof.
  induction m as [|[k0 v0] m IH]; simpl.
  - rewrite list_elem_of_singleton. intros [= -> ->]. by left.
  - case_decide; rewrite !elem_of_cons; naive_solver.
Qed.

Lemma map_elem_delete k k' v' m : (k', v') ∈ map_delete k m <-> k' <> k /\ (k', v') ∈ m.
Proof. unfold map_delete. by rewrite list_elem_of_filter. Qed.

Lemma map_set_append k v m : map_get k m = None -> map_set k v m = m ++ [(k, v)].
Proof.
  induction m as [|[k0 v0] m IH]; simpl; [done|]. case_decide; [done|].
  intros Hk%IH. by rewrite Hk.
Qed.

Lemma map_set_id k v m : map_get k m = Some v -> map_set k v m = m.
Proof.
  induction m as [|[k0 v0] m IH]; simpl; [done|]. case_decide; [by intros [= ->]; subst|].
  intros Hk. by rewrite IH.
Qed.

Lemma map_delete_id k m : map_get k m = None -> map_delete k m = m.
Proof.
  unfold map_delete. induction m as [|[k0 v0] m IH]; simpl; [done|].
  rewrite filter_cons. simpl. case_decide as Hk; [done|]. intros Hm.
  rewrite decide_True by congruence. f_equal. auto.
Qed.
End JsMapTheory.
#[export] Hint Resolve map_wf_nil map_wf_set map_wf_delete : verser.

(** All the items stored in the lists of a map. *)
Section MapItems.
Context {K V A : Type} `{EqDecision K} (f : V -> list A).
Implicit Types (m : list (K * V)).

Definition map_items m : list A := concat (map (fun p => f p.2) m).
Definition items_at (o : option V) : list A := match o with Some v => f v | None => [] end.

Lemma map_items_set k v m : map_items (map_set k v m) ++ items_at (map_get k m) ≡ₚ map_items m ++ f v.
Proof.
  unfold map_items. induction m as [|[k0 v0] m IH]; [simpl; by rewrite !app_nil_r|].
  cbn [map_set map_get]. case_decide as Hk; cbn [map concat snd items_at].
  - rewrite (Permutation_app_comm (f v ++ _) (f v0)), <- app_assoc. apply Permutation_app_head, Permutation_app_comm.
  - by rewrite <- !app_assoc, IH.
Qed.

Lemma map_items_delete k m : map_wf m -> map_items (map_delete k m) ++ items_at (map_get k m) ≡ₚ map_items m.
Proof.
  unfold map_wf, map_keys, map_items. induction m as [|[k0 v0] m IH]; [done|].
  intros [Hni Hnd]%NoDup_cons. unfold map_delete. rewrite filter_cons. cbn [map_get fst].
  fold (map_delete k m). case_decide as Hk; case_decide as Hk'; subst; try done; cbn [map concat snd items_at].
  - by rewrite <- app_assoc, IH.
  - rewrite map_delete_id by (by apply map_get_None). apply Permutation_app_comm.
Qed.
End MapItems.

Lemma map_delete_Forall {K V} `{EqDecision K} (Q : K * V -> Prop) k (m : list (K * V)) : Forall Q m -> Forall Q (map_delete k m).
Proof. intros H. apply Forall_forall. intros [k' v] [_ Hin]%map_elem_delete. by eapply Forall_forall in H. Qed.

Lemma map_set_Forall {K V} `{EqDecision K} (Q : K * V -> Prop) k v (m : list (K * V)) : Q (k, v) -> Forall Q m -> Forall Q (map_set k v m).
Proof. induction 2 as [|[] ? ? ? IH]; simpl; [by repeat constructor|]. case_decide; subst; by repeat constructor. Qed.

Lemma map_get_Forall {K V} `{EqDecision K} (Q : K * V -> Prop) k v (m : list (K * V)) :
  Forall Q m -> map_get k m = Some v -> Q (k, v).
Proof. intros H Hg%map_get_elem. by eapply Forall_forall in H. Qed.

Lemma set_add_elem `{EqDecision K} (k k' : K) s : k' ∈ set_add k s <-> k' = k \/ k' ∈ s.
Proof. unfold set_add. case_decide; set_solver. Qed.
Lemma set_add_NoDup `{EqDecision K} (k : K) s : NoDup s -> NoDup (set_add k s).
Proof.
  unfold set_add. case_decide; [done|]. intros. apply NoDup_app.
  split; [done|]. split; [set_solver|]. apply NoDup_singleton.
Qed.
Lemma set_has_elem `{EqDecision K} (k : K) s : set_has k s = true <-> k ∈ s.
Proof. apply bool_decide_eq_true. Qed.

(** ** Stable sorting *)
Section StableSortTheory.
Context {A : Type} (cmp : A -> A -> comparison).

Lemma insert_sorted_perm x l : insert_sorted cmp x l ≡ₚ x :: l.
Proof.
  induction l as [|y l IH]; simpl; [done|].
  destruct (cmp x y); try done. rewrite IH. apply Permutation_swap.
Qed.

Lemma stable_sort_perm l : stable_sort cmp l ≡ₚ l.
Proof.
  unfold stable_sort. induction l as [|x l IH]; simpl; [done|].
  rewrite insert_sorted_perm. by rewrite IH.
Qed.

Lemma stable_sort_elem x l : x ∈ stable_sort cmp l <-> x ∈ l.
Proof. by rewrite stable_sort_perm. Qed.

Definition cmp_le (x y : A) : Prop := cmp x y <> Gt.

Context (cmp_total : forall x y, cmp x y = Gt -> cmp y x <> Gt)
        (cmp_trans : forall x y z, cmp x y <> Gt -> cmp y z <> Gt -> cmp x z <> Gt).

(** Sorted: every element is below all those after it. *)
Fixpoint sorted_by (l : list A) : Prop :=
  match l with
  | [] => True
  | x :: l => Forall (cmp_le x) l /\ sorted_by l
  end.

Lemma insert_sorted_sorted x l : sorted_by l -> sorted_by (insert_sorted cmp x l).
Proof using cmp_total cmp_trans.
  induction l as [|y l IH]; simpl; [by repeat constructor|].
  intros [Hy Hl]. unfold cmp_le in *. destruct (cmp x y) eqn:E; simpl.
  1, 2: split; [|done]; constructor; [unfold cmp_le; congruence|];
    eapply Forall_impl; [exact Hy|]; intros z Hz; eapply cmp_trans; [|exact Hz]; congruence.
  split; [|auto]. rewrite insert_sorted_perm. constructor; [by apply cmp_total|done].
Qed.

Lemma stable_sort_sorted l : sorted_by (stable_sort cmp l).
Proof using cmp_total cmp_trans. unfold stable_sort. induction l; simpl; [done|]. by apply insert_sorted_sorted. Qed.

Lemma stable_sort_id l : sorted_by l -> stable_sort cmp l = l.
Proof.
  unfold stable_sort. induction l as [|x l IH]; simpl; [done|]. intros [Hx Hl].
  rewrite IH by done. destruct l as [|y l]; [done|]. simpl.
  apply Forall_cons in Hx as [Hxy _]. unfold cmp_le in Hxy. by destruct (cmp x y).
Qed.
End StableSortTheory.

(** ** Comparators *)
Record cmp_ok {A} (cmp : A -> A -> comparison) : Prop := {
  cmp_antisym : forall x y, cmp y x = CompOpp (cmp x y);
  cmp_trans : forall x y z, cmp x y <> Gt -> cmp y z <> Gt -> cmp x z <> Gt;
}.
#[global] Arguments cmp_antisym {A cmp}.
#[global] Arguments cmp_trans {A cmp}.

Lemma cmp_refl {A} (cmp : A -> A -> comparison) : cmp_ok cmp -> forall x, cmp x x = Eq.
Proof. intros H x. pose proof (cmp_antisym H x x). by destruct (cmp x x). Qed.

Lemma cmp_total {A} (cmp : A -> A -> comparison) : cmp_ok cmp -> forall x y, cmp x y = Gt -> cmp y x <> Gt.
Proof. intros H x y E. rewrite (cmp_antisym H x y), E. done. Qed.

(** Strict before weak, and weak before strict. *)
Lemma cmp_lt_trans {A} (cmp : A -> A -> comparison) : cmp_ok cmp -> forall x y z,
  cmp x y <> Gt -> cmp y z <> Gt -> cmp x z = Eq -> cmp x y = Eq /\ cmp y z = Eq.
Proof.
  intros H x y z Hxy Hyz Hxz.
  assert (cmp z x <> Gt) as Hzx by (rewrite (cmp_antisym H x z), Hxz; done).
  pose proof (cmp_trans H _ _ _ Hyz Hzx) as Hyx. pose proof (cmp_trans H _ _ _ Hzx Hxy) as Hzy.
  rewrite (cmp_antisym H x y) in Hyx. rewrite (cmp_antisym H y z) in Hzy.
  by destruct (cmp x y), (cmp y z).
Qed.

Lemma then_cmp_ok {A} (c d : A -> A -> comparison) : cmp_ok c -> cmp_ok d ->
  cmp_ok (fun x y => then_cmp (c x y) (d x y)).
Proof.
  intros Hc Hd. split.
  - intros x y. rewrite (cmp_antisym Hc), (cmp_antisym Hd). by destruct (c x y).
  - intros x y z Hxy Hyz.
    assert (c x y <> Gt) as Hcxy by (by destruct (c x y)).
    assert (c y z <> Gt) as Hcyz by (by destruct (c y z)).
    pose proof (cmp_trans Hc _ _ _ Hcxy Hcyz) as Hcxz. destruct (c x z) eqn:E; try done.
    destruct (cmp_lt_trans c Hc _ _ _ Hcxy Hcyz E) as [E1 E2]. rewrite E1 in Hxy. rewrite E2 in Hyz.
    simpl in *. by apply (cmp_trans Hd x y z).
Qed.

Lemma cmp_ok_proj {A B} (f : A -> B) (c : B -> B -> comparison) : cmp_ok c -> cmp_ok (fun x y => c (f x) (f y)).
Proof. intros H. split; [intros x y; apply (cmp_antisym H)|intros x y z; apply (cmp_trans H)]. Qed.

Lemma cmp_ok_Z : cmp_ok Z.compare.
Proof.
  split; [intros x y; apply Z.compare_antisym|]. intros x y z.
  destruct (Z.compare_spec x y), (Z.compare_spec y z), (Z.compare_spec x z); intros; try done; lia.
Qed.

Lemma cmp_ok_locale `{ConsistentCollation} : cmp_ok locale_compare.
Proof. split; [intros; apply locale_antisym | apply locale_trans]. Qed.

Lemma unit_compare_ok : cmp_ok unit_compare.
Proof.
  split.
  - induction x as [|a x IH]; intros [|b y]; try done. simpl. rewrite (Z.compare_antisym b a).
    destruct (b ?= a) eqn:E; simpl; auto.
  - induction x as [|a x IH]; intros [|b y] [|c z]; simpl; intros; try done; revert H H0.
    destruct (Z.compare_spec a b), (Z.compare_spec b c), (Z.compare_spec a c); subst; eauto; try done; try lia.
Qed.

Lemma unit_compare_eq s t : unit_compare s t = Eq <-> s = t.
Proof.
  split.
  - revert t. induction s as [|a s IH]; intros [|b t]; try done. simpl.
    destruct (Z.compare_spec a b) as [->| |]; try done. intros H. f_equal. auto.
  - intros ->. apply (cmp_refl _ unit_compare_ok).
Qed.

#[export] Instance ascii_collation : @ConsistentCollation ascii_platform.
Proof.
  split.
  - apply (cmp_refl _ unit_compare_ok).
  - intros a b. apply (cmp_antisym unit_compare_ok).
  - intros a b c. apply (cmp_trans unit_compare_ok).
Qed.

(** A stable sort depends on the multiset alone when the order is antisymmetric. *)
Lemma sorted_perm_eq {A} (cmp : A -> A -> comparison) l k :
  (forall x y, cmp x y = Eq -> x = y) -> cmp_ok cmp ->
  sorted_by cmp l -> sorted_by cmp k -> l ≡ₚ k -> l = k.
Proof.
  intros Heq Hok. revert k. induction l as [|x l IH]; intros k Hl Hk Hp.
  - by apply Permutation_nil in Hp.
  - destruct k as [|y k]; [by apply Permutation_sym, Permutation_nil in Hp|].
    simpl in Hl, Hk. destruct Hl as [Hx Hl], Hk as [Hy Hk].
    assert (x = y) as ->.
    { assert (x ∈ y :: k) as Hxin by (rewrite <- Hp; by left).
      assert (y ∈ x :: l) as Hyin by (rewrite Hp; by left).
      apply elem_of_cons in Hxin as [|Hxin]; [done|]. apply elem_of_cons in Hyin as [|Hyin]; [done|].
      rewrite Forall_forall in Hx, Hy. specialize (Hx _ Hyin). specialize (Hy _ Hxin).
      unfold cmp_le in *. rewrite (cmp_antisym Hok x y) in Hy. apply Heq. by destruct (cmp x y). }
    f_equal. apply IH; [done|done|]. by apply Permutation_cons_inv in Hp.
Qed.
