(* ===== verification/JsNum.v ===== *)
(** JavaScript numbers: IEEE-754 doubles, their decimal text, and the integer
    tests the source applies to them.

    A finite double is a dyadic rational, so it is kept exactly: an integer, or
    an odd numerator over a power of two.  [round_ratio] is the correctly
    rounded (nearest, ties to even) double of a ratio, used by number
    literals; [num_to_string] is ECMA-262 Number::toString for radix 10. *)
From S2P Require Import Prelude.

Inductive jsnum : Type :=
  | num_int (z : Z)
  | num_frac (m : Z) (e : positive)   (** [m / 2^e], [m] odd *)
  | num_inf (neg : bool)
  | num_nan.

#[export] Instance jsnum_eq_dec : EqDecision jsnum.
Proof. solve_decision. Defined.

Definition max_safe : Z := 2 ^ 53 - 1.

(** [Number.isInteger], [Number.isSafeInteger], [Number.isFinite] *)
Definition is_integer (n : jsnum) : bool := match n with num_int _ => true | _ => false end.
Definition is_safe_integer (n : jsnum) : bool :=
  match n with num_int z => Z.abs z <=? max_safe | _ => false end.
Definition is_finite (n : jsnum) : bool :=
  match n with num_int _ | num_frac _ _ => true | _ => false end.

(** [n < z] for an integer constant [z]. *)
Definition num_ltz (n : jsnum) (z : Z) : bool :=
  match n with
  | num_int a => a <? z
  | num_frac m e => m <? z * 2 ^ Z.pos e
  | num_inf neg => neg
  | num_nan => false
  end.

(** [n === m] *)
Definition num_eqb (n m : jsnum) : bool :=
  match n with num_nan => false | _ => bool_decide (n = m) end.

(** [q * 2^e] in lowest terms. *)
Definition norm_dyadic (q e : Z) : jsnum :=
  if 0 <=? e then num_int (q * 2 ^ e)
  else
    let d := 2 ^ (- e) in
    let g := Z.gcd q d in
    match d / g with
    | 1 => num_int (q / g)
    | d' => num_frac (q / g) (Z.to_pos (Z.log2 d'))
    end.

(** The double nearest to [n / d], for [0 <= n] and [0 < d]. *)
Definition round_ratio (n d : Z) : jsnum :=
  if n =? 0 then num_int 0
  else
    let t0 := Z.log2 n - Z.log2 d in
    let below := if 0 <=? t0 then n <? d * 2 ^ t0 else n * 2 ^ (- t0) <? d in
    let t := if below then t0 - 1 else t0 in
    let e := Z.max (t - 52) (-1074) in
    let sn := if 0 <=? e then n else n * 2 ^ (- e) in
    let sd := if 0 <=? e then d * 2 ^ e else d in
    let q := sn / sd in
    let r := sn mod sd in
    let q' := if (sd <? 2 * r) || ((2 * r =? sd) && Z.odd q) then q + 1 else q in
    if 2 ^ 53 * 2 ^ 971 <=? (if 0 <=? e then q' * 2 ^ e else 0) then num_inf false
    else norm_dyadic q' e.

Definition num_neg (n : jsnum) : jsnum :=
  match n with
  | num_int z => num_int (- z)
  | num_frac m e => num_frac (- m) e
  | num_inf b => num_inf (negb b)
  | num_nan => num_nan
  end.

(** ** Decimal digits *)
Definition digit_unit (d : Z) : Z := 48 + d.

Fixpoint digits_fuel (fuel : nat) (z : Z) (acc : jsstring) : jsstring :=
  match fuel with
  | O => acc
  | S fuel =>
      let acc := digit_unit (z mod 10) :: acc in
      if z <? 10 then acc else digits_fuel fuel (z / 10) acc
  end.

(** The decimal digits of a natural number. *)
Definition digits (z : Z) : jsstring := digits_fuel (S (Z.to_nat (Z.log2 z))) z [].

(** The number a digit string denotes. *)
Definition digits_value (s : jsstring) : Z := fold_left (fun a c => a * 10 + (c - 48)) s 0.

(** ** Number::toString *)
Section ToString.
(** The positive double [a / b] being printed. *)
Context (a b : Z).

Definition pow10 (k : Z) : Z := 10 ^ k.

(** [10^(n-1) <= a/b < 10^n] *)
Definition dec_exponent : Z :=
  let est := (Z.log2 a - Z.log2 b) * 30103 / 100000 in
  let ge k := if 0 <=? k then pow10 k * b <=? a else b <=? a * pow10 (- k) in
  if ge (est + 1) then est + 2 else if ge est then est + 1 else if ge (est - 1) then est else est - 1.

Definition reads_back (s n k : Z) : bool :=
  let p := n - k in
  let r := if 0 <=? p then round_ratio (s * pow10 p) 1 else round_ratio s (pow10 (- p)) in
  bool_decide (r = round_ratio a b).

(** The closest [k]-digit decimal that reads back as the number. *)
Definition candidate (n k : Z) : option (Z * Z) :=
  let p := k - n in
  let sn := if 0 <=? p then a * pow10 p else a in
  let sd := if 0 <=? p then b else b * pow10 (- p) in
  let lo := sn / sd in
  let near := if 2 * (sn mod sd) <? sd then lo else lo + 1 in
  let pick := if reads_back near n k then Some near
              else if reads_back lo n k then Some lo
              else if reads_back (lo + 1) n k then Some (lo + 1) else None in
  match pick with
  | Some s => if s =? pow10 k then Some (n + 1, s / 10) else Some (n, s)
  | None => None
  end.

Fixpoint shortest (fuel : nat) (n k : Z) : Z * Z * Z :=
  match fuel with
  | O => (n, k, 0)
  | S fuel => match candidate n k with
              | Some (n', s) => (n', k, s)
              | None => shortest fuel n (k + 1)
              end
  end.

Definition zeros (k : Z) : jsstring := replicate (Z.to_nat k) 48.

Definition layout (n k s : Z) : jsstring :=
  let ds := digits s in
  if (k <=? n) && (n <=? 21) then ds ++ zeros (n - k)
  else if (0 <? n) && (n <=? 21) then take (Z.to_nat n) ds ++ js "." ++ drop (Z.to_nat n) ds
  else if (-6 <? n) && (n <=? 0) then js "0." ++ zeros (- n) ++ ds
  else
    let e := n - 1 in
    let exp := js "e" ++ (if 0 <=? e then js "+" else js "-") ++ digits (Z.abs e) in
    match ds with
    | d :: (_ :: _) as rest => d :: js "." ++ drop 1 ds ++ exp
    | _ => ds ++ exp
    end.

Definition print_positive : jsstring :=
  let '(n, k, s) := shortest 17 dec_exponent 1 in layout n k s.
End ToString.

(** Integers that are exact and print without an exponent take the direct
    route; every other number goes through the shortest-digits search. *)
Definition num_to_string (x : jsnum) : jsstring :=
  match x with
  | num_nan => js "NaN"
  | num_inf neg => (if neg then js "-" else []) ++ js "Infinity"
  | num_int z =>
      (if z <? 0 then js "-" else []) ++
      (if Z.abs z <=? max_safe then digits (Z.abs z) else print_positive (Z.abs z) 1)
  | num_frac m e => (if m <? 0 then js "-" else []) ++ print_positive (Z.abs m) (2 ^ Z.pos e)
  end.

(** * Theory *)

Lemma norm_dyadic_exact n k : 0 < n -> 0 <= k -> norm_dyadic (n * 2 ^ k) (- k) = num_int n.
Proof.
  intros Hn Hk. unfold norm_dyadic. destruct (Z.leb_spec 0 (- k)).
  - assert (k = 0) as -> by lia. f_equal. lia.
  - rewrite Z.opp_involutive. assert (0 < 2 ^ k) by lia.
    assert (Z.gcd (n * 2 ^ k) (2 ^ k) = 2 ^ k) as ->.
    { rewrite Z.gcd_comm. apply Z.divide_gcd_iff; [lia|]. by apply Z.divide_factor_r. }
    rewrite Z.div_same by lia. by rewrite Z.div_mul by lia.
Qed.

(** Safe integers are doubles: rounding is the identity on them. *)
Lemma round_ratio_safe z : 0 <= z <= max_safe -> round_ratio z 1 = num_int z.
Proof.
  unfold round_ratio, max_safe. intros Hz. destruct (Z.eqb_spec z 0) as [->|Hz0]; [done|].
  change (Z.log2 1) with 0. rewrite Z.sub_0_r.
  pose proof (Z.log2_nonneg z). destruct (Z.log2_spec z) as [Hlo Hhi]; [lia|].
  assert (Z.log2 z < 53).
  { apply Z.log2_lt_pow2; lia. }
  rewrite (proj2 (Z.leb_le 0 (Z.log2 z))) by lia.
  rewrite (proj2 (Z.ltb_ge z (1 * 2 ^ Z.log2 z))) by lia. cbn zeta.
  rewrite Z.max_l by lia. set (k := 52 - Z.log2 z).
  replace (Z.log2 z - 52) with (- k) by lia.
  assert (0 <= k) by lia. rewrite Z.opp_involutive.
  assert (Hq : (if 0 <=? - k then z else z * 2 ^ k) = z * 2 ^ k).
  { destruct (Z.leb_spec 0 (- k)); [|done]. assert (k = 0) as -> by lia. lia. }
  assert (Hd : (if 0 <=? - k then 1 * 2 ^ (- k) else 1) = 1).
  { destruct (Z.leb_spec 0 (- k)); [|done]. assert (k = 0) as -> by lia. done. }
  rewrite Hq, Hd, Z.div_1_r, Z.mod_1_r. simpl (_ || _). cbv match beta.
  assert (Hb : (2 ^ 53 * 2 ^ 971 <=? (if 0 <=? - k then z * 2 ^ k * 2 ^ (- k) else 0)) = false).
  { apply Z.leb_gt. assert (2 ^ 53 <= 2 ^ 53 * 2 ^ 971) by lia.
    destruct (Z.leb_spec 0 (- k)); [|lia]. assert (k = 0) as -> by lia. change (2 ^ 0) with 1. lia. }
  rewrite Hb. apply norm_dyadic_exact; lia.
Qed.

Lemma digits_value_app s t : digits_value (s ++ t) = fold_left (fun a c => a * 10 + (c - 48)) t (digits_value s).
Proof. unfold digits_value. by rewrite fold_left_app. Qed.

Lemma digits_fuel_spec fuel z acc :
  0 <= z < 10 ^ Z.of_nat fuel -> (0 < fuel)%nat ->
  exists ds, digits_fuel fuel z acc = ds ++ acc /\ ds <> [] /\
    forallb is_digit ds = true /\ digits_value ds = z /\
    (z <> 0 -> forall c ds', ds = c :: ds' -> c <> 48) /\ (z = 0 -> ds = [48]).
Proof.
  revert z acc. induction fuel as [|fuel IH]; intros z acc Hz Hf; [lia|]. simpl.
  pose proof (Z.mod_pos_bound z 10 ltac:(lia)) as Hm.
  assert (Hd : is_digit (digit_unit (z mod 10)) = true) by (unfold is_digit, digit_unit; lia).
  destruct (Z.ltb_spec z 10) as [Hlt|Hge].
  - exists [digit_unit (z mod 10)]. rewrite Z.mod_small by lia. split_and!; try done.
    + simpl. rewrite Z.mod_small in Hd by lia. by rewrite Hd.
    + unfold digits_value, digit_unit. simpl. lia.
    + intros ? c ds' [= <- <-]. unfold digit_unit. lia.
    + by intros ->.
  - rewrite Nat2Z.inj_succ, Z.pow_succ_r in Hz by lia.
    assert (Hfuel : (0 < fuel)%nat) by (destruct fuel; [simpl in Hz; lia | lia]).
    destruct (IH (z / 10) (digit_unit (z mod 10) :: acc)) as (ds & -> & Hne & Hdig & Hval & Hnz & _);
      [split; [apply Z.div_pos; lia | apply Z.div_lt_upper_bound; lia] | done |].
    assert (z / 10 <> 0) by (pose proof (Z.div_mod z 10); lia).
    exists (ds ++ [digit_unit (z mod 10)]). split_and!.
    + by rewrite <- app_assoc.
    + by destruct ds.
    + rewrite forallb_app, Hdig. simpl. by rewrite Hd.
    + rewrite digits_value_app, Hval. unfold digit_unit. simpl. pose proof (Z.div_mod z 10). lia.
    + intros _ c ds' Heq. destruct ds as [|c' ds]; [done|]. injection Heq as <- _.
      by eapply Hnz.
    + lia.
Qed.

Lemma digits_spec z : 0 <= z ->
  digits z <> [] /\ forallb is_digit (digits z) = true /\ digits_value (digits z) = z /\
  (z <> 0 -> forall c ds', digits z = c :: ds' -> c <> 48) /\ (z = 0 -> digits z = [48]).
Proof.
  intros Hz. destruct (digits_fuel_spec (S (Z.to_nat (Z.log2 z))) z []) as (ds & Hds & ?); [|lia|].
  - split; [done|]. rewrite Nat2Z.inj_succ, Z2Nat.id by apply Z.log2_nonneg.
    destruct (Z.eq_dec z 0) as [->|Hz0]; [done|].
    destruct (Z.log2_spec z) as [_ Hhi]; [lia|]. eapply Z.lt_le_trans; [exact Hhi|].
    apply Z.pow_le_mono_l. lia.
  - unfold digits. rewrite Hds, app_nil_r. done.
Qed.
