(* ===== verification/Utf8.v ===== *)
(** UTF-8: [Buffer.from(s, 'utf8')], [Buffer.byteLength(s, 'utf8')] and
    [buffer.toString('utf8')].

    Encoding replaces a lone surrogate by U+FFFD.  Decoding follows the WHATWG
    decoder: an ill-formed sequence becomes one U+FFFD per maximal subpart, and
    decoding resumes at the offending byte. *)
From S2P Require Import Prelude.

Definition is_high (c : Z) : bool := (55296 <=? c) && (c <=? 56319).
Definition is_low (c : Z) : bool := (56320 <=? c) && (c <=? 57343).
Definition is_cont (b : Z) : bool := (128 <=? b) && (b <=? 191).

Definition repl_bytes : bytes := [239; 191; 189].
Definition repl_unit : Z := 65533.

(** The bytes of a scalar value below U+10000. *)
Definition encode_bmp (c : Z) : bytes :=
  if c <? 128 then [c]
  else if c <? 2048 then [192 + c / 64; 128 + c mod 64]
  else [224 + c / 4096; 128 + c / 64 mod 64; 128 + c mod 64].

Definition scalar_of_pair (hi lo : Z) : Z := 65536 + (hi - 55296) * 1024 + (lo - 56320).

Definition encode_astral (p : Z) : bytes :=
  [240 + p / 262144; 128 + p / 4096 mod 64; 128 + p / 64 mod 64; 128 + p mod 64].

Fixpoint utf8_encode (s : jsstring) : bytes :=
  match s with
  | [] => []
  | c :: s' =>
      if is_high c then
        match s' with
        | d :: s'' =>
            if is_low d then encode_astral (scalar_of_pair c d) ++ utf8_encode s''
            else repl_bytes ++ utf8_encode s'
        | [] => repl_bytes
        end
      else if is_low c then repl_bytes ++ utf8_encode s'
      else encode_bmp c ++ utf8_encode s'
  end.

(** [Buffer.byteLength(s, 'utf8')] *)
Definition byte_length (s : jsstring) : Z := len (utf8_encode s).

(** The allowed second byte of a three- or four-byte sequence. *)
Definition second_ok (b0 b1 : Z) : bool :=
  is_cont b1 &&
  (if b0 =? 224 then 160 <=? b1
   else if b0 =? 237 then b1 <=? 159
   else if b0 =? 240 then 144 <=? b1
   else if b0 =? 244 then b1 <=? 143
   else true).

Definition astral_units (p : Z) : jsstring :=
  [55296 + (p - 65536) / 1024; 56320 + (p - 65536) mod 1024].

Fixpoint utf8_decode (b : bytes) : jsstring :=
  match b with
  | [] => []
  | b0 :: r0 =>
      if b0 <? 128 then b0 :: utf8_decode r0
      else if (194 <=? b0) && (b0 <=? 223) then
        match r0 with
        | b1 :: r1 =>
            if is_cont b1 then (b0 - 192) * 64 + (b1 - 128) :: utf8_decode r1
            else repl_unit :: utf8_decode r0
        | [] => [repl_unit]
        end
      else if (224 <=? b0) && (b0 <=? 239) then
        match r0 with
        | b1 :: r1 =>
            if second_ok b0 b1 then
              match r1 with
              | b2 :: r2 =>
                  if is_cont b2
                  then (b0 - 224) * 4096 + (b1 - 128) * 64 + (b2 - 128) :: utf8_decode r2
                  else repl_unit :: utf8_decode r1
              | [] => [repl_unit]
              end
            else repl_unit :: utf8_decode r0
        | [] => [repl_unit]
        end
      else if (240 <=? b0) && (b0 <=? 244) then
        match r0 with
        | b1 :: r1 =>
            if second_ok b0 b1 then
              match r1 with
              | b2 :: r2 =>
                  if is_cont b2 then
                    match r2 with
                    | b3 :: r3 =>
                        if is_cont b3
                        then astral_units ((b0 - 240) * 262144 + (b1 - 128) * 4096 +
                                           (b2 - 128) * 64 + (b3 - 128)) ++ utf8_decode r3
                        else repl_unit :: utf8_decode r2
                    | [] => [repl_unit]
                    end
                  else repl_unit :: utf8_decode r1
              | [] => [repl_unit]
              end
            else repl_unit :: utf8_decode r0
        | [] => [repl_unit]
        end
      else repl_unit :: utf8_decode r0
  end.

(** No lone surrogate ([isWellFormedUnicode] of header-serialization.ts, by
    structural recursion). *)
Fixpoint well_formed_utf16 (s : jsstring) : bool :=
  match s with
  | [] => true
  | c :: s' =>
      if is_high c then
        match s' with
        | [] => false
        | d :: s'' => if is_low d then well_formed_utf16 s'' else false
        end
      else if is_low c then false
      else well_formed_utf16 s'
  end.

#[global] Arguments encode_astral : simpl never.
#[global] Arguments encode_bmp : simpl never.
#[global] Arguments repl_bytes : simpl never.

(** * Theory *)
#[local] Ltac Zify.zify_post_hook ::= Z.div_mod_to_equations.

(** Split every conditional of the goal. *)
#[local] Ltac split_ifs :=
  repeat match goal with |- context [if ?b then _ else _] => destruct b eqn:? end.

(** Two-at-a-time induction on strings, for surrogate pairs. *)
Lemma string_ind2 (P : jsstring -> Prop) :
  P [] -> (forall c s, P s -> (forall d s', s = d :: s' -> P s') -> P (c :: s)) -> forall s, P s.
Proof.
  intros Hnil Hcons s. enough (P s /\ forall d s', s = d :: s' -> P s') by tauto.
  induction s as [|c s [IH1 IH2]].
  - by split.
  - split; [by apply Hcons|]. by intros d s' [= -> ->].
Qed.

Lemma utf8_encode_app s t :
  well_formed_utf16 s = true -> utf8_encode (s ++ t) = utf8_encode s ++ utf8_encode t.
Proof.
  induction s as [|c s IH IH2] using string_ind2; [done|]. cbn [app utf8_encode well_formed_utf16].
  destruct (is_high c); [|destruct (is_low c); [done|]].
  - destruct s as [|d s]; [done|]. cbn [app utf8_encode well_formed_utf16]. destruct (is_low d); [|done].
    intros H. rewrite <- app_assoc. f_equal. by eapply IH2.
  - intros H. rewrite <- app_assoc. f_equal. by apply IH.
Qed.

Lemma well_formed_app s t :
  well_formed_utf16 s = true -> well_formed_utf16 (s ++ t) = well_formed_utf16 t.
Proof.
  induction s as [|c s IH IH2] using string_ind2; [done|]. cbn [app utf8_encode well_formed_utf16].
  destruct (is_high c); [|destruct (is_low c); [done|]].
  - destruct s as [|d s]; [done|]. cbn [app utf8_encode well_formed_utf16]. destruct (is_low d); [|done]. by eapply IH2.
  - by apply IH.
Qed.

Lemma decode_bmp c r : 0 <= c < 65536 -> is_high c = false -> is_low c = false ->
  utf8_decode (encode_bmp c ++ r) = c :: utf8_decode r.
Proof.
  unfold is_high, is_low, encode_bmp. intros Hc Hh Hl.
  destruct (Z.ltb_spec c 128); simpl; [by rewrite (proj2 (Z.ltb_lt c 128))|].
  destruct (Z.ltb_spec c 2048); simpl.
  - rewrite (proj2 (Z.ltb_ge (192 + c / 64) 128)) by lia.
    assert ((194 <=? 192 + c / 64) && (192 + c / 64 <=? 223) = true) as -> by lia.
    unfold is_cont. assert ((128 <=? 128 + c mod 64) && (128 + c mod 64 <=? 191) = true) as -> by lia.
    f_equal. lia.
  - rewrite (proj2 (Z.ltb_ge (224 + c / 4096) 128)) by lia.
    assert ((194 <=? 224 + c / 4096) && (224 + c / 4096 <=? 223) = false) as -> by lia.
    assert ((224 <=? 224 + c / 4096) && (224 + c / 4096 <=? 239) = true) as -> by lia.
    assert (second_ok (224 + c / 4096) (128 + c / 64 mod 64) = true) as ->.
    { unfold second_ok, is_cont. split_ifs; lia. }
    unfold is_cont. assert ((128 <=? 128 + c mod 64) && (128 + c mod 64 <=? 191) = true) as -> by lia.
    f_equal. lia.
Qed.

Lemma decode_astral p r : 65536 <= p < 1114112 ->
  utf8_decode (encode_astral p ++ r) = astral_units p ++ utf8_decode r.
Proof.
  intros Hp. unfold encode_astral. simpl.
  rewrite (proj2 (Z.ltb_ge (240 + p / 262144) 128)) by lia.
  assert ((194 <=? 240 + p / 262144) && (240 + p / 262144 <=? 223) = false) as -> by lia.
  assert ((224 <=? 240 + p / 262144) && (240 + p / 262144 <=? 239) = false) as -> by lia.
  assert ((240 <=? 240 + p / 262144) && (240 + p / 262144 <=? 244) = true) as -> by lia.
  assert (second_ok (240 + p / 262144) (128 + p / 4096 mod 64) = true) as ->.
  { unfold second_ok, is_cont. split_ifs; lia. }
  unfold is_cont.
  assert ((128 <=? 128 + p / 64 mod 64) && (128 + p / 64 mod 64 <=? 191) = true) as -> by lia.
  assert ((128 <=? 128 + p mod 64) && (128 + p mod 64 <=? 191) = true) as -> by lia.
  replace ((240 + p / 262144 - 240) * 262144 + (128 + p / 4096 mod 64 - 128) * 4096 +
           (128 + p / 64 mod 64 - 128) * 64 + (128 + p mod 64 - 128)) with p by lia.
  done.
Qed.

Lemma astral_units_of_pair hi lo : is_high hi = true -> is_low lo = true ->
  astral_units (scalar_of_pair hi lo) = [hi; lo] /\ 65536 <= scalar_of_pair hi lo < 1114112.
Proof. unfold is_high, is_low, astral_units, scalar_of_pair. intros. split; [|lia]. f_equal; [lia|f_equal; lia]. Qed.

(** Decoding inverts encoding on well-formed strings, with any bytes after. *)
Lemma utf8_decode_encode_app s r :
  wf_units s -> well_formed_utf16 s = true -> utf8_decode (utf8_encode s ++ r) = s ++ utf8_decode r.
Proof.
  induction s as [|c s IH IH2] using string_ind2; [done|].
  intros [Hc Hs]%Forall_cons. cbn [well_formed_utf16 utf8_encode].
  unfold is_unit in Hc. destruct (is_high c) eqn:Hh; [|destruct (is_low c) eqn:Hl; [done|]].
  - destruct s as [|d s]; [done|]. destruct (is_low d) eqn:Hd; [|done]. intros Hw.
    apply Forall_cons in Hs as [_ Hs].
    destruct (astral_units_of_pair c d) as [Hu Hp]; [done..|].
    rewrite <- app_assoc, decode_astral, Hu by done. cbn [app]. do 2 f_equal. by eapply IH2.
  - intros Hw. rewrite <- app_assoc, decode_bmp by (done || lia). cbn [app]. f_equal. by apply IH.
Qed.

Lemma utf8_decode_encode s :
  wf_units s -> well_formed_utf16 s = true -> utf8_decode (utf8_encode s) = s.
Proof.
  intros. rewrite <- (app_nil_r (utf8_encode s)), utf8_decode_encode_app by done. apply app_nil_r.
Qed.

(** Every encoded byte is a byte. *)
Lemma utf8_encode_bytes s : wf_units s -> wf_bytes (utf8_encode s).
Proof.
  induction s as [|c s IH IH2] using string_ind2; [constructor|]. intros [Hc Hs]%Forall_cons.
  assert (Hrepl : wf_bytes repl_bytes) by (repeat constructor).
  cbn [utf8_encode]. unfold is_unit in Hc. destruct (is_high c) eqn:Hh.
  - destruct s as [|d s]; [done|]. apply Forall_cons in Hs as Hs2. destruct Hs2 as [Hd Hs2].
    destruct (is_low d) eqn:Hl; apply Forall_app; split; [|by eapply IH2|done|by apply IH].
    destruct (astral_units_of_pair c d) as [_ Hp]; [done..|].
    unfold encode_astral. repeat constructor; unfold is_byte; lia.
  - destruct (is_low c) eqn:Hl; apply Forall_app; (split; [|by apply IH]); [done|].
    clear -Hc. unfold encode_bmp, wf_bytes.
    split_ifs; rewrite !Forall_cons, Forall_nil; unfold is_byte; lia.
Qed.

(** The encoding of an ASCII string is the string itself. *)
Lemma utf8_encode_ascii s : all_ascii s = true -> utf8_encode s = s.
Proof.
  induction s as [|c s IH]; [done|]. unfold all_ascii in *. cbn [forallb utf8_encode].
  unfold is_ascii. intros [Hc Hs]%andb_true_iff.
  assert (is_high c = false) as -> by (unfold is_high; lia).
  assert (is_low c = false) as -> by (unfold is_low; lia).
  unfold encode_bmp. assert ((c <? 128) = true) as -> by lia. simpl. f_equal. auto.
Qed.

Lemma utf8_decode_ascii_app s r : all_ascii s = true -> utf8_decode (s ++ r) = s ++ utf8_decode r.
Proof.
  induction s as [|c s IH]; [done|]. unfold all_ascii in *. cbn [forallb app utf8_decode].
  unfold is_ascii. intros [Hc Hs]%andb_true_iff.
  assert ((c <? 128) = true) as -> by lia. f_equal. auto.
Qed.

(** A byte below 128 in the encoding comes from that code unit: in particular a
    newline byte ends a line exactly where a newline unit does. *)
Lemma utf8_encode_low_byte s b : 0 <= b < 128 -> b ∈ utf8_encode s -> b ∈ s.
Proof.
  intros Hb. induction s as [|c s IH IH2] using string_ind2; [by rewrite elem_of_nil|].
  cbn [utf8_encode].
  assert (Hrepl : b ∉ repl_bytes) by (unfold repl_bytes; rewrite !not_elem_of_cons; split_and!; try lia; apply not_elem_of_nil).
  destruct (is_high c) eqn:Hh.
  - destruct s as [|d s]; [done|]. destruct (is_low d) eqn:Hl.
    + rewrite elem_of_app. intros [Hin|Hin].
      * exfalso. unfold encode_astral, scalar_of_pair, is_high, is_low in *.
        rewrite !elem_of_cons, elem_of_nil in Hin. lia.
      * apply (IH2 d s) in Hin; [|done]. by do 2 right.
    + rewrite elem_of_app. intros [Hin|Hin]; [done|]. right. by apply IH.
  - destruct (is_low c) eqn:Hl; rewrite elem_of_app; (intros [Hin|Hin]; [|right; by apply IH]); [done|].
    enough (b = c) as -> by by left. revert Hin. clear -Hb Hh Hl. unfold encode_bmp, is_high, is_low in *.
    split_ifs; rewrite !elem_of_cons, elem_of_nil; lia.
Qed.
