(* ===== verification/Json.v ===== *)
(** JavaScript values, plain objects with their property order, and the JSON
    codec: [JSON.stringify] and [JSON.parse].

    The codec is the language's, written out so that what the source encodes
    and decodes is computed, and its round trip proved once for the envelope,
    NDJSON, VWS and response-metadata formats built on it. *)
From S2P Require Import Prelude JsNum Utf8.

(** ** Values and objects *)

Inductive jsval : Type :=
  | JUndef
  | JNull
  | JBool (b : bool)
  | JNum (n : jsnum)
  | JStr (s : jsstring)
  | JArr (l : list jsval)
  | JObj (o : list (jsstring * jsval)).

(** A canonical array index ("0" .. "4294967294"): such keys come first, in
    numeric order, among the own properties of an object. *)
Definition is_array_index (k : jsstring) : bool :=
  match k with
  | [] => false
  | c :: k' => forallb is_digit k && ((c =? 48) && bool_decide (k' = []) || negb (c =? 48)) &&
               (digits_value k <=? 4294967294)
  end.

Section Objects.
Context {V : Type}.
Implicit Types (o : list (jsstring * V)).

Fixpoint insert_index (k : jsstring) (v : V) o : list (jsstring * V) :=
  match o with
  | [] => [(k, v)]
  | (k', v') :: o' =>
      if is_array_index k' && (digits_value k' <=? digits_value k)
      then (k', v') :: insert_index k v o'
      else (k, v) :: o
  end.

(** Definition of an own property ([CreateDataProperty]): object spread,
    [Object.fromEntries], [JSON.parse]. *)
Definition obj_set (k : jsstring) (v : V) o : list (jsstring * V) :=
  if map_has k o then map_set k v o
  else if is_array_index k then insert_index k v o
  else o ++ [(k, v)].

(** Assignment [o[k] = v] on an object that inherits from
    [Object.prototype]: the key ["__proto__"] reaches the inherited accessor
    and defines no own property. *)
Definition obj_assign (k : jsstring) (v : V) o : list (jsstring * V) :=
  if str_eqb k (js "__proto__") then o else obj_set k v o.

Definition obj_of_entries (l : list (jsstring * V)) : list (jsstring * V) :=
  fold_left (fun o p => obj_set p.1 p.2 o) l [].

End Objects.

(** The order of [Object.entries]: distinct keys, array indices first and
    ascending, the other keys as inserted. *)
Definition key_ok (k1 k2 : jsstring) : bool :=
  negb (str_eqb k1 k2) &&
  (negb (is_array_index k2) || is_array_index k1 && (digits_value k1 <=? digits_value k2)).
Fixpoint ordered_keys (l : list jsstring) : bool :=
  match l with
  | [] => true
  | k :: l => forallb (key_ok k) l && ordered_keys l
  end.
Definition ordered {V} (o : list (jsstring * V)) : Prop := ordered_keys o.*1 = true.

Definition is_undef (v : jsval) : bool := match v with JUndef => true | _ => false end.

(** Property read: [undefined] when absent. *)
Definition prop (k : jsstring) (o : list (jsstring * jsval)) : jsval := default JUndef (map_get k o).

(** ** JSON.stringify *)
Definition hex_digit (d : Z) : Z := if d <? 10 then 48 + d else 87 + d.
Definition u_escape (c : Z) : jsstring :=
  [92; 117; hex_digit (c / 4096); hex_digit (c / 256 mod 16); hex_digit (c / 16 mod 16); hex_digit (c mod 16)].

Definition escape_unit (c : Z) : jsstring :=
  if c =? 34 then [92; 34]
  else if c =? 92 then [92; 92]
  else if c =? 8 then [92; 98]
  else if c =? 12 then [92; 102]
  else if c =? 10 then [92; 110]
  else if c =? 13 then [92; 114]
  else if c =? 9 then [92; 116]
  else if c <? 32 then u_escape c
  else [c].

Fixpoint escape (s : jsstring) : jsstring :=
  match s with
  | [] => []
  | c :: s' =>
      if is_high c then
        match s' with
        | d :: s'' => if is_low d then c :: d :: escape s'' else u_escape c ++ escape s'
        | [] => u_escape c
        end
      else if is_low c then u_escape c ++ escape s'
      else escape_unit c ++ escape s'
  end.

Definition quote (s : jsstring) : jsstring := 34 :: escape s ++ [34].

(** The serialised own properties, [undefined] ones left out. *)
Fixpoint members_text (f : jsval -> jsstring) (o : list (jsstring * jsval)) : list jsstring :=
  match o with
  | [] => []
  | (k, v) :: o =>
      if is_undef v then members_text f o else (quote k ++ 58 :: f v) :: members_text f o
  end.

(** The text of a value; [undefined] is ["null"] inside an array and dropped as
    a property. *)
Fixpoint json_text (v : jsval) : jsstring :=
  match v with
  | JUndef | JNull => js "null"
  | JBool b => if b then js "true" else js "false"
  | JNum n => if is_finite n then num_to_string n else js "null"
  | JStr s => quote s
  | JArr l => 91 :: join [44] (map json_text l) ++ [93]
  | JObj o => 123 :: join [44] (members_text json_text o) ++ [125]
  end.

(** [JSON.stringify(v)]: [None] is the result [undefined]. *)
Definition json_stringify (v : jsval) : option jsstring :=
  if is_undef v then None else Some (json_text v).

(** ** JSON.parse *)
Definition is_json_space (c : Z) : bool := (c =? 32) || (c =? 9) || (c =? 10) || (c =? 13).
Definition skip_ws (s : jsstring) : jsstring := drop_while is_json_space s.

Definition hex_value (c : Z) : option Z :=
  if is_digit c then Some (c - 48)
  else if (97 <=? c) && (c <=? 102) then Some (c - 87)
  else if (65 <=? c) && (c <=? 70) then Some (c - 55)
  else None.

Definition simple_escape (c : Z) : option Z :=
  if c =? 34 then Some 34 else if c =? 92 then Some 92 else if c =? 47 then Some 47
  else if c =? 98 then Some 8 else if c =? 102 then Some 12 else if c =? 110 then Some 10
  else if c =? 114 then Some 13 else if c =? 116 then Some 9 else None.

(** The rest of a string literal after its opening quote. *)
Fixpoint parse_string (s : jsstring) : option (jsstring * jsstring) :=
  match s with
  | [] => None
  | c :: s' =>
      if c =? 34 then Some ([], s')
      else if c =? 92 then
        match s' with
        | e :: r =>
            if e =? 117 then
              match r with
              | h1 :: h2 :: h3 :: h4 :: r' =>
                  v1 ← hex_value h1; v2 ← hex_value h2; v3 ← hex_value h3; v4 ← hex_value h4;
                  '(t, rest) ← parse_string r';
                  Some (v1 * 4096 + v2 * 256 + v3 * 16 + v4 :: t, rest)
              | _ => None
              end
            else
              u ← simple_escape e; '(t, rest) ← parse_string r; Some (u :: t, rest)
        | [] => None
        end
      else if c <? 32 then None
      else '(t, rest) ← parse_string s'; Some (c :: t, rest)
  end.

Fixpoint span_digits (s : jsstring) : jsstring * jsstring :=
  match s with
  | [] => ([], [])
  | c :: s' => if is_digit c then let '(d, r) := span_digits s' in (c :: d, r) else ([], s)
  end.

Definition decimal_value (neg : bool) (ip fp : jsstring) (exp : Z) : jsnum :=
  let m := digits_value (ip ++ fp) in
  let e := exp - len fp in
  let r := if 0 <=? e then round_ratio (m * 10 ^ e) 1 else round_ratio m (10 ^ (- e)) in
  if neg then num_neg r else r.

Definition parse_exponent (s : jsstring) : option (Z * jsstring) :=
  match s with
  | c :: s' =>
      if (c =? 101) || (c =? 69) then
        let '(neg, s'') := match s' with
                           | c' :: r => if c' =? 43 then (false, r) else if c' =? 45 then (true, r) else (false, s')
                           | [] => (false, s')
                           end in
        match span_digits s'' with
        | ([], _) => None
        | (ds, r) => Some ((if neg then - digits_value ds else digits_value ds), r)
        end
      else Some (0, s)
  | [] => Some (0, s)
  end.

Definition parse_fraction (s : jsstring) : option (jsstring * jsstring) :=
  match s with
  | c :: s' =>
      if c =? 46 then
        match span_digits s' with
        | ([], _) => None
        | (ds, r) => Some (ds, r)
        end
      else Some ([], s)
  | [] => Some ([], s)
  end.

Definition parse_magnitude (neg : bool) (s : jsstring) : option (jsnum * jsstring) :=
  let '(ip, s2) := span_digits s in
  match ip with
  | [] => None
  | c :: rest =>
      if (c =? 48) && negb (bool_decide (rest = [])) then None
      else
        '(fp, s3) ← parse_fraction s2;
        '(exp, s4) ← parse_exponent s3;
        Some (decimal_value neg ip fp exp, s4)
  end.

Definition parse_number (s : jsstring) : option (jsnum * jsstring) :=
  match s with
  | c :: r => if c =? 45 then parse_magnitude true r else parse_magnitude false s
  | [] => None
  end.

Definition parse_literal (lit : jsstring) (v : jsval) (s : jsstring) : option (jsval * jsstring) :=
  if starts_with lit s then Some (v, drop (length lit) s) else None.

(** Recursive descent.  Every value read is on a strictly shorter text, so a
    fuel above twice the length of the text is enough ([parse_fuel]). *)
Fixpoint parse_value (fuel : nat) (s : jsstring) : option (jsval * jsstring) :=
  match fuel with
  | O => None
  | S fuel =>
      match skip_ws s with
      | [] => None
      | c :: r =>
          if c =? 123 then
            match skip_ws r with
            | d :: r' => if d =? 125 then Some (JObj [], r') else parse_members fuel [] (d :: r')
            | [] => None
            end
          else if c =? 91 then
            match skip_ws r with
            | d :: r' => if d =? 93 then Some (JArr [], r') else parse_elements fuel [] (d :: r')
            | [] => None
            end
          else if c =? 34 then '(t, rest) ← parse_string r; Some (JStr t, rest)
          else if c =? 116 then parse_literal (js "true") (JBool true) (c :: r)
          else if c =? 102 then parse_literal (js "false") (JBool false) (c :: r)
          else if c =? 110 then parse_literal (js "null") JNull (c :: r)
          else '(n, rest) ← parse_number (c :: r); Some (JNum n, rest)
      end
  end
with parse_members (fuel : nat) (acc : list (jsstring * jsval)) (s : jsstring) : option (jsval * jsstring) :=
  match fuel with
  | O => None
  | S fuel =>
      match skip_ws s with
      | c :: r =>
          if c =? 34 then
            '(k, r1) ← parse_string r;
            match skip_ws r1 with
            | c1 :: r2 =>
                if c1 =? 58 then
                  '(v, r3) ← parse_value fuel r2;
                  match skip_ws r3 with
                  | c2 :: r4 =>
                      if c2 =? 44 then parse_members fuel (obj_set k v acc) r4
                      else if c2 =? 125 then Some (JObj (obj_set k v acc), r4)
                      else None
                  | [] => None
                  end
                else None
            | [] => None
            end
          else None
      | [] => None
      end
  end
with parse_elements (fuel : nat) (acc : list jsval) (s : jsstring) : option (jsval * jsstring) :=
  match fuel with
  | O => None
  | S fuel =>
      '(v, r) ← parse_value fuel s;
      match skip_ws r with
      | c :: r' =>
          if c =? 44 then parse_elements fuel (acc ++ [v]) r'
          else if c =? 93 then Some (JArr (acc ++ [v]), r')
          else None
      | [] => None
      end
  end.

(** [JSON.parse(s)]: [None] is a thrown [SyntaxError]. *)
Definition json_parse (s : jsstring) : option jsval :=
  match parse_value (S (2 * length s)) s with
  | Some (v, r) => if bool_decide (skip_ws r = []) then Some v else None
  | None => None
  end.

(** [String(v)], for the values the source stringifies: primitives and arrays of
    them.  An object prints by its default [toString]. *)
Fixpoint to_str (v : jsval) : jsstring :=
  match v with
  | JUndef => js "undefined"
  | JNull => js "null"
  | JBool b => if b then js "true" else js "false"
  | JNum n => num_to_string n
  | JStr s => s
  | JArr l => join [44] (map (fun e => match e with JUndef | JNull => [] | _ => to_str e end) l)
  | JObj _ => js "[object Object]"
  end.

(** [Number(s)] and [Number(v)] *)
Definition radix_value (base : Z) (ok : Z -> bool) (s : jsstring) : jsnum :=
  match s with
  | [] => num_nan
  | _ => if forallb ok s
         then round_ratio (fold_left (fun a c => a * base + default 0 (hex_value c)) s 0) 1
         else num_nan
  end.
Definition is_hex (c : Z) : bool := match hex_value c with Some _ => true | None => false end.
Definition decimal_literal (neg : bool) (s : jsstring) : jsnum :=
  if str_eqb s (js "Infinity") then num_inf neg
  else
    let '(ip, r) := span_digits s in
    let '(fp, r') := match r with c :: r' => if c =? 46 then span_digits r' else ([], r) | [] => ([], r) end in
    match ip ++ fp with
    | [] => num_nan
    | _ => match parse_exponent r' with
           | Some (e, []) => decimal_value neg ip fp e
           | _ => num_nan
           end
    end.
Definition str_to_number (s : jsstring) : jsnum :=
  match trim s with
  | [] => num_int 0
  | c :: d :: t =>
      if (c =? 48) && ((d =? 120) || (d =? 88)) then radix_value 16 is_hex t
      else if (c =? 48) && ((d =? 111) || (d =? 79)) then radix_value 8 (fun c => (48 <=? c) && (c <=? 55)) t
      else if (c =? 48) && ((d =? 98) || (d =? 66)) then radix_value 2 (fun c => (48 <=? c) && (c <=? 49)) t
      else if c =? 45 then decimal_literal true (d :: t)
      else if c =? 43 then decimal_literal false (d :: t)
      else decimal_literal false (c :: d :: t)
  | t => decimal_literal false t
  end.
Definition to_number (v : jsval) : jsnum :=
  match v with
  | JUndef | JObj _ => num_nan
  | JNull => num_int 0
  | JBool b => num_int (if b then 1 else 0)
  | JNum n => n
  | JStr s => str_to_number s
  | JArr _ => str_to_number (to_str v)
  end.

(** Member access [v.k] and [v?.k] on a value that JSON produced; [None] is the
    [TypeError] of reading a property of [undefined] or [null].  [length] is the
    only name the source reads that arrays and strings also carry. *)
Definition js_member (k : jsstring) (v : jsval) : option jsval :=
  match v with
  | JUndef | JNull => None
  | JObj o => Some (prop k o)
  | JArr l => Some (if str_eqb k (js "length") then JNum (num_int (len l)) else JUndef)
  | JStr s => Some (if str_eqb k (js "length") then JNum (num_int (len s)) else JUndef)
  | _ => Some JUndef
  end.
Definition js_opt_member (k : jsstring) (v : jsval) : jsval := default JUndef (js_member k v).

(** [a ?? b] *)
Definition nullish (v w : jsval) : jsval := match v with JUndef | JNull => w | _ => v end.

(** The own enumerable properties object spread copies from a value. *)
Definition spread_entries (v : jsval) : list (jsstring * jsval) :=
  match v with
  | JObj o => o
  | JArr l => imap (fun i e => (digits (Z.of_nat i), e)) l
  | JStr s => imap (fun i c => (digits (Z.of_nat i), JStr [c])) s
  | _ => []
  end.
Definition obj_spread (o l : list (jsstring * jsval)) : list (jsstring * jsval) :=
  fold_left (fun o p => obj_set p.1 p.2 o) l o.

(** Values JSON carries without loss: no [undefined], safe integers, strings of
    code units, objects in property order. *)
Fixpoint json_plain (v : jsval) : bool :=
  match v with
  | JUndef => false
  | JNull | JBool _ => true
  | JNum n => is_safe_integer n
  | JStr s => forallb is_unit s
  | JArr l => forallb json_plain l
  | JObj o =>
      ordered_keys o.*1 && forallb (forallb is_unit) o.*1 && forallb (fun p => json_plain p.2) o
  end.

(** * Theory *)

(** Induction on values with hypotheses for the elements and the properties. *)
Lemma jsval_ind' (P : jsval -> Prop) :
  P JUndef -> P JNull -> (forall b, P (JBool b)) -> (forall n, P (JNum n)) -> (forall s, P (JStr s)) ->
  (forall l, Forall P l -> P (JArr l)) -> (forall o, Forall (fun p => P p.2) o -> P (JObj o)) ->
  forall v, P v.
Proof.
  intros H1 H2 H3 H4 H5 H6 H7. fix IH 1.
  intros [| |b|n|s|l|o]; [exact H1|exact H2|apply H3|apply H4|apply H5|apply H6|apply H7].
  - induction l as [|v l IHl]; constructor; [apply IH|exact IHl].
  - induction o as [|[k v] o IHo]; constructor; [apply IH|exact IHo].
Qed.

(** ** Objects *)
Section ObjectTheory.
Context {V : Type}.
Implicit Types (o : list (jsstring * V)).

Lemma map_has_get k o : map_has k o = true <-> map_get k o <> None.
Proof. unfold map_has. destruct (map_get k o); naive_solver. Qed.

Lemma map_get_insert_index k k' v o : map_get k' o = None ->
  map_get k (insert_index k' v o) = if decide (k = k') then Some v else map_get k o.
Proof.
  induction o as [|[k0 v0] o IH]; simpl; [done|]. intros Hn.
  case_decide as Hk0; [done|]. destruct (is_array_index k0 && _); simpl; [|done].
  rewrite IH by done. repeat case_decide; congruence.
Qed.

Lemma obj_get_set k k' v o :
  map_get k (obj_set k' v o) = if decide (k = k') then Some v else map_get k o.
Proof.
  unfold obj_set. destruct (map_has k' o) eqn:Hh; [apply map_get_set|].
  assert (map_get k' o = None) as Hn.
  { unfold map_has in Hh. by destruct (map_get k' o). }
  destruct (is_array_index k'); [by apply map_get_insert_index|].
  rewrite <- map_set_append by done. apply map_get_set.
Qed.

Lemma obj_get_assign k k' v o :
  map_get k (obj_assign k' v o) =
    if decide (k' = js "__proto__") then map_get k o
    else if decide (k = k') then Some v else map_get k o.
Proof.
  unfold obj_assign, str_eqb. destruct (bool_decide_reflect (k' = js "__proto__")).
  - by rewrite decide_True.
  - rewrite decide_False by done. apply obj_get_set.
Qed.

Lemma insert_index_keys_elem k k' v o : k ∈ (insert_index k' v o).*1 <-> k = k' \/ k ∈ o.*1.
Proof.
  induction o as [|[k0 v0] o IH]; csimpl; [set_solver|].
  destruct (_ && _); csimpl; set_solver.
Qed.

Lemma obj_set_keys_elem k k' v o : k ∈ (obj_set k' v o).*1 <-> k = k' \/ k ∈ o.*1.
Proof.
  change (k ∈ map_keys (obj_set k' v o) <-> k = k' \/ k ∈ map_keys o).
  rewrite !elem_of_map_keys, obj_get_set. case_decide; naive_solver.
Qed.

Lemma obj_assign_keys_elem k k' v o : k ∈ (obj_assign k' v o).*1 -> k = k' \/ k ∈ o.*1.
Proof. unfold obj_assign. destruct (str_eqb _ _); [by right|]. by rewrite obj_set_keys_elem. Qed.

(** Appending a key that belongs at the end. *)
Lemma obj_set_append k v o :
  forallb (fun k' => key_ok k' k) o.*1 = true -> obj_set k v o = o ++ [(k, v)].
Proof.
  intros Hok. unfold obj_set.
  assert (map_has k o = false) as ->.
  { destruct (map_has k o) eqn:E; [|done]. apply map_has_get, elem_of_map_keys in E.
    apply Forall_forallb in Hok. rewrite Forall_forall in Hok.
    specialize (Hok k E). unfold key_ok in Hok. by rewrite str_eqb_refl in Hok. }
  destruct (is_array_index k) eqn:Ei; [|done].
  induction o as [|[k0 v0] o IH]; [done|]. csimpl in *. bools.
  unfold key_ok in H. rewrite Ei in H. simpl in H. bools.
  replace (is_array_index k0 && (digits_value k0 <=? digits_value k))%bool with true
    by (symmetry; apply andb_true_iff; done).
  f_equal. by apply IH.
Qed.

Lemma obj_assign_append k v o : k <> js "__proto__" ->
  forallb (fun k' => key_ok k' k) o.*1 = true -> obj_assign k v o = o ++ [(k, v)].
Proof. intros Hk Hok. unfold obj_assign. rewrite (proj2 (str_eqb_neq _ _)) by done. by apply obj_set_append. Qed.

Lemma ordered_keys_app l1 l2 : ordered_keys (l1 ++ l2) = true ->
  ordered_keys l1 = true /\ ordered_keys l2 = true /\
  forall k1 k2, k1 ∈ l1 -> k2 ∈ l2 -> key_ok k1 k2 = true.
Proof.
  induction l1 as [|k l1 IH]; simpl; [by set_solver|].
  rewrite forallb_app. intros [[Ha Hb]%andb_true_iff Hc]%andb_true_iff.
  destruct IH as (IH1 & IH2 & Hk); [done|].
  rewrite Ha, IH1. split_and!; try done. intros k1 k2 [->|Hin]%elem_of_cons Hk2; [|auto].
  apply Forall_forallb in Hb. rewrite Forall_forall in Hb. auto.
Qed.

Lemma obj_of_entries_app acc l :
  ordered (acc ++ l) -> fold_left (fun o p => obj_set p.1 p.2 o) l acc = acc ++ l.
Proof.
  unfold ordered. revert acc. induction l as [|[k v] l IH]; intros acc Ho; simpl.
  - by rewrite app_nil_r.
  - rewrite obj_set_append.
    + rewrite IH by (by rewrite <- app_assoc). by rewrite <- app_assoc.
    + rewrite fmap_app in Ho. destruct (ordered_keys_app _ _ Ho) as (_ & _ & Hk).
      apply Forall_forallb, Forall_forall. intros k1 Hk1. apply Hk; [done|]. by left.
Qed.

(** Rebuilding an object from its own entries changes nothing. *)
Lemma obj_of_entries_ordered o : ordered o -> obj_of_entries o = o.
Proof. apply (obj_of_entries_app []). Qed.

Lemma key_ok_neq k1 k2 : key_ok k1 k2 = true -> k1 <> k2.
Proof. unfold key_ok. intros. bools. by apply str_eqb_neq. Qed.

Lemma ordered_NoDup o : ordered o -> map_wf o.
Proof.
  unfold ordered, map_wf, map_keys. induction o.*1 as [|k l IH]; [constructor|]. simpl.
  intros [Hk Hl]%andb_true_iff.
  constructor; [|auto]. intros Hin. apply Forall_forallb in Hk. rewrite Forall_forall in Hk.
  by apply (key_ok_neq k k); [apply Hk|].
Qed.

Lemma ordered_filter (P : jsstring * V -> Prop) `{!forall p, Decision (P p)} o : ordered o -> ordered (filter P o).
Proof.
  unfold ordered. induction o as [|[k v] o IH]; [done|]. csimpl.
  intros [Hk Ho]%andb_true_iff. rewrite filter_cons. case_decide; [|by apply IH]. csimpl.
  rewrite IH by done. rewrite andb_true_r. apply Forall_forallb, Forall_fmap, Forall_forall.
  intros p [_ Hin]%list_elem_of_filter. apply Forall_forallb in Hk. rewrite Forall_forall in Hk.
  apply Hk. by apply list_elem_of_fmap_2.
Qed.

(** Assignment keeps an object in property order. *)
Lemma insert_index_ordered k v o : is_array_index k = true -> map_get k o = None ->
  ordered o -> ordered (insert_index k v o).
Proof.
  unfold ordered. intros Hk. induction o as [|[k0 v0] o IH]; [done|]. intros Hn.
  cbn [insert_index fmap list_fmap fst ordered_keys forallb map_get] in *. case_decide as Hne; [done|].
  intros [H1 H2]%andb_true_iff.
  destruct (is_array_index k0 && (digits_value k0 <=? digits_value k)) eqn:E; csimpl.
  - rewrite IH by done. rewrite andb_true_r. apply Forall_forallb, Forall_forall. intros k' Hk'.
    apply insert_index_keys_elem in Hk' as [->|Hk'].
    + unfold key_ok. rewrite (proj2 (str_eqb_neq k0 k)) by done. rewrite E. simpl. apply orb_true_r.
    + apply Forall_forallb in H1. rewrite Forall_forall in H1. auto.
  - rewrite H1, H2. rewrite andb_true_r. apply andb_true_iff.
    assert (key_ok k k0 = true) as Hk0.
    { unfold key_ok. rewrite (proj2 (str_eqb_neq k k0)) by done. rewrite Hk. simpl.
      destruct (is_array_index k0) eqn:E0; [|done]. simpl in *. 
      lia. }
    split; [done|]. apply Forall_forallb, Forall_forall. intros k' Hk'.
    apply Forall_forallb in H1. rewrite Forall_forall in H1. specialize (H1 _ Hk').
    unfold key_ok in *. bools. apply andb_true_iff. split.
    + apply negb_true_iff, str_eqb_neq. intros ->. apply map_get_None in Hn. by apply Hn.
    + rewrite Hk. destruct (is_array_index k'); [|done]. simpl in *. bools.
      match goal with H : is_array_index k0 = true |- _ => rewrite H in * end. simpl in *. lia.
Qed.

Lemma ordered_map_set k v o : map_get k o <> None -> (map_set k v o).*1 = o.*1.
Proof.
  induction o as [|[k0 v0] o IH]; csimpl; [done|]. case_decide; csimpl; [done|]. intros Hn. by rewrite IH.
Qed.

Lemma key_ok_snoc l k : ordered_keys l = true -> k ∉ l -> is_array_index k = false ->
  ordered_keys (l ++ [k]) = true.
Proof.
  intros Ho Hk Hi. induction l as [|k0 l IH]; [done|]. simpl in *. rewrite not_elem_of_cons in Hk.
  apply andb_true_iff in Ho as [H1 H2]. rewrite forallb_app, H1, IH by tauto. simpl.
  unfold key_ok. rewrite Hi. simpl. rewrite (proj2 (str_eqb_neq k0 k)) by naive_solver. done.
Qed.

Lemma ordered_obj_set k v o : ordered o -> ordered (obj_set k v o).
Proof.
  unfold obj_set. destruct (map_has k o) eqn:Hh.
  - apply map_has_get in Hh. unfold ordered. by rewrite ordered_map_set.
  - assert (map_get k o = None) as Hn by (unfold map_has in Hh; by destruct (map_get k o)).
    destruct (is_array_index k) eqn:Hi; [by apply insert_index_ordered|].
    unfold ordered. rewrite fmap_app. intros Ho. apply key_ok_snoc; [done| |done]. by apply map_get_None.
Qed.

Lemma ordered_obj_assign k v o : ordered o -> ordered (obj_assign k v o).
Proof. unfold obj_assign. destruct (str_eqb _ _); [done|apply ordered_obj_set]. Qed.

Lemma obj_assign_proto k v o : js "__proto__" ∉ o.*1 -> js "__proto__" ∉ (obj_assign k v o).*1.
Proof.
  unfold obj_assign, str_eqb. intros Hp. destruct (bool_decide_reflect (k = js "__proto__")); [done|].
  rewrite obj_set_keys_elem. naive_solver.
Qed.

(** A property of every own property is kept when it holds of the new one. *)
Lemma insert_index_Forall (Q : jsstring * V -> Prop) k v o : Q (k, v) -> Forall Q o -> Forall Q (insert_index k v o).
Proof. induction 2 as [|[] ? ? ? IH]; simpl; [by repeat constructor|]. destruct (_ && _); by repeat constructor. Qed.
Lemma obj_set_Forall (Q : jsstring * V -> Prop) k v o : Q (k, v) -> Forall Q o -> Forall Q (obj_set k v o).
Proof.
  intros Hq Ho. unfold obj_set. destruct (map_has k o); [by apply map_set_Forall|].
  destruct (is_array_index k); [by apply insert_index_Forall|]. apply Forall_app. by repeat constructor.
Qed.
Lemma obj_assign_Forall (Q : jsstring * V -> Prop) k v o : Q (k, v) -> Forall Q o -> Forall Q (obj_assign k v o).
Proof. unfold obj_assign. destruct (str_eqb _ _); [done|]. apply obj_set_Forall. Qed.

Lemma ordered_nil : ordered (@nil (jsstring * V)).
Proof. done. Qed.

End ObjectTheory.

Lemma obj_spread_get k o l : map_wf l ->
  map_get k (obj_spread o l) = match map_get k l with Some v => Some v | None => map_get k o end.
Proof.
  unfold obj_spread, map_wf, map_keys. revert o. induction l as [|[k0 v0] l IH]; intros o; simpl; [done|].
  intros [Hni Hnd]%NoDup_cons. rewrite IH by done. rewrite obj_get_set.
  destruct (map_get k l) eqn:E; [|by case_decide].
  rewrite decide_False; [done|]. intros ->. destruct Hni. apply elem_of_map_keys. by rewrite E.
Qed.

(** A loop that assigns, under each key, a value computed from the entry. *)
Lemma assign_fold_get {V W} (f : jsstring -> V -> option W) (step : list (jsstring * W) -> jsstring * V -> list (jsstring * W)) k l acc :
  (forall acc n v, step acc (n, v) = match f n v with Some w => obj_assign n w acc | None => acc end) ->
  map_wf l -> k <> js "__proto__" ->
  map_get k (fold_left step l acc) = match map_get k l ≫= f k with Some w => Some w | None => map_get k acc end.
Proof.
  intros Hstep Hwf Hk. unfold map_wf, map_keys in Hwf. revert acc.
  induction l as [|[m v] l IH]; intros acc; [done|]. apply NoDup_cons in Hwf as [Hni Hnd].
  cbn [fold_left map_get]. rewrite IH by done. rewrite Hstep. destruct (decide (k = m)) as [<-|Hne].
  - assert (map_get k l = None) as -> by (by apply map_get_None). simpl.
    destruct (f k v); [|done]. by rewrite obj_get_assign, decide_False, decide_True.
  - destruct (map_get k l ≫= f k); [done|]. destruct (f m v); [|done].
    rewrite obj_get_assign. case_decide; [done|]. by rewrite decide_False.
Qed.

(** ** String literals *)
#[local] Ltac Zify.zify_post_hook ::= Z.div_mod_to_equations.

Lemma hex_value_digit d : 0 <= d < 16 -> hex_value (hex_digit d) = Some d.
Proof.
  unfold hex_value, hex_digit, is_digit. intros Hd. destruct (Z.ltb_spec d 10);
  repeat match goal with |- context [if ?b then _ else _] => destruct b eqn:? end; try lia; f_equal; lia.
Qed.

Lemma parse_string_u c t : 0 <= c < 65536 ->
  parse_string (u_escape c ++ t) = '(u, r) ← parse_string t; Some (c :: u, r).
Proof.
  intros Hc. unfold u_escape. cbn [app parse_string]. change (92 =? 34) with false.
  change (92 =? 92) with true. change (117 =? 117) with true. cbv match.
  rewrite !hex_value_digit by lia. simpl.
  replace (c / 4096 * 4096 + c / 256 mod 16 * 256 + c / 16 mod 16 * 16 + c mod 16) with c by lia.
  done.
Qed.

Lemma parse_string_plain c t : 32 <= c -> c <> 34 -> c <> 92 ->
  parse_string (c :: t) = '(u, r) ← parse_string t; Some (c :: u, r).
Proof.
  intros. cbn [parse_string]. rewrite (proj2 (Z.eqb_neq c 34)), (proj2 (Z.eqb_neq c 92)) by done.
  by rewrite (proj2 (Z.ltb_ge c 32)).
Qed.

Lemma parse_string_unit c t : 0 <= c < 65536 ->
  parse_string (escape_unit c ++ t) = '(u, r) ← parse_string t; Some (c :: u, r).
Proof.
  intros Hc. unfold escape_unit.
  repeat match goal with
  | |- context [if c =? ?k then _ else _] => destruct (Z.eqb_spec c k) as [->|?]; [done|]
  end.
  destruct (Z.ltb_spec c 32); [by apply parse_string_u|]. by apply parse_string_plain.
Qed.

Lemma parse_string_escape s rest : wf_units s ->
  parse_string (escape s ++ 34 :: rest) = Some (s, rest).
Proof.
  induction s as [|c s IH IH2] using string_ind2; [done|]. intros [Hc Hs]%Forall_cons.
  unfold is_unit in Hc. assert (0 <= c < 65536) by lia. cbn [escape].
  destruct (is_high c) eqn:Hh.
  - destruct s as [|d s].
    + by rewrite parse_string_u.
    + destruct (is_low d) eqn:Hl.
      * unfold is_high, is_low in *. cbn [app].
        rewrite !parse_string_plain by lia. apply Forall_cons in Hs as [_ Hs].
        by rewrite (IH2 d s).
      * rewrite <- app_assoc, parse_string_u by lia. by rewrite IH.
  - destruct (is_low c); rewrite <- app_assoc.
    + by rewrite parse_string_u, IH.
    + by rewrite parse_string_unit, IH.
Qed.

(** ** Numbers *)
Definition number_end (rest : jsstring) : bool :=
  match rest with
  | [] => true
  | c :: _ => negb (is_digit c) && negb (c =? 46) && negb (c =? 101) && negb (c =? 69)
  end.

Lemma span_digits_app ds rest : forallb is_digit ds = true -> number_end rest = true ->
  span_digits (ds ++ rest) = (ds, rest).
Proof.
  intros Hd Hr. induction ds as [|c ds IH]; simpl in *.
  - destruct rest as [|c rest]; [done|]. simpl in *. by destruct (is_digit c).
  - apply andb_true_iff in Hd as [-> Hd]. by rewrite IH.
Qed.

Lemma parse_number_end rest : number_end rest = true ->
  parse_fraction rest = Some ([], rest) /\ parse_exponent rest = Some (0, rest).
Proof.
  destruct rest as [|c rest]; [done|]. simpl. intros H.
  destruct (c =? 46), (c =? 101), (c =? 69); simpl in *; rewrite ?andb_false_r in H; done.
Qed.

Lemma decimal_value_int neg ds : 0 <= digits_value ds <= max_safe ->
  decimal_value neg ds [] 0 = num_int (if neg then - digits_value ds else digits_value ds).
Proof.
  intros Hv. unfold decimal_value. change (len (@nil Z)) with 0. rewrite Z.sub_0_r. simpl (0 <=? 0).
  cbv match. rewrite app_nil_r. change (10 ^ 0) with 1. rewrite Z.mul_1_r, round_ratio_safe by done.
  by destruct neg.
Qed.

Lemma parse_magnitude_digits neg z rest : 0 <= z <= max_safe -> number_end rest = true ->
  parse_magnitude neg (digits z ++ rest) = Some (num_int (if neg then - z else z), rest).
Proof.
  intros Hz Hr. destruct (digits_spec z) as (Hne & Hd & Hv & Hnz & H0); [lia|].
  destruct (parse_number_end rest Hr) as [Hf He].
  unfold parse_magnitude. rewrite span_digits_app by done.
  destruct (digits z) as [|c tl] eqn:Ed; [done|].
  assert ((c =? 48) && negb (bool_decide (tl = [])) = false) as ->.
  { destruct (Z.eqb_spec c 48) as [->|]; [|done]. destruct (Z.eq_dec z 0) as [->|Hz0].
    - by injection (H0 eq_refl) as ->.
    - by destruct (Hnz Hz0 48 tl eq_refl). }
  rewrite Hf. simpl. rewrite He. simpl. rewrite decimal_value_int, Hv; [done|]. by rewrite Hv.
Qed.

(** A printed safe integer starts with a minus sign or a digit. *)
Lemma num_to_string_head z : Z.abs z <= max_safe ->
  exists c t, num_to_string (num_int z) = c :: t /\ (is_digit c || (c =? 45) = true).
Proof.
  intros Hz. cbn [num_to_string]. rewrite (proj2 (Z.leb_le (Z.abs z) max_safe)) by done.
  destruct (Z.ltb_spec z 0); [by eexists 45, _|]. cbn [app].
  destruct (digits_spec (Z.abs z)) as (Hne & Hd & _); [lia|].
  destruct (digits (Z.abs z)) as [|c ds]; [done|]. exists c, ds. simpl in Hd.
  apply andb_true_iff in Hd as [-> _]. done.
Qed.

Lemma parse_number_int z rest : Z.abs z <= max_safe -> number_end rest = true ->
  parse_number (num_to_string (num_int z) ++ rest) = Some (num_int z, rest).
Proof.
  intros Hz Hr. cbn [num_to_string]. rewrite (proj2 (Z.leb_le (Z.abs z) max_safe)) by done.
  destruct (Z.ltb_spec z 0) as [Hneg|Hpos].
  - change (js "-") with [45]. cbn [app parse_number]. change (45 =? 45) with true. cbv match.
    rewrite parse_magnitude_digits by (done || lia). do 3 f_equal. lia.
  - cbn [app]. pose proof (parse_magnitude_digits false (Z.abs z) rest ltac:(lia) Hr) as Hp.
    destruct (digits_spec (Z.abs z)) as (Hne & Hd & _); [lia|].
    destruct (digits (Z.abs z)) as [|c ds]; [done|]. simpl in Hd. apply andb_true_iff in Hd as [Hd _].
    cbn [app parse_number]. unfold is_digit in Hd. rewrite (proj2 (Z.eqb_neq c 45)) by lia.
    cbn [app] in Hp. rewrite Hp. do 3 f_equal. lia.
Qed.

(** ** Values *)
Lemma skip_ws_head c t : is_json_space c = false -> skip_ws (c :: t) = c :: t.
Proof. unfold skip_ws. simpl. by intros ->. Qed.

(** The first unit of a value's text: no white space, no closing bracket. *)
Lemma json_text_head v : json_plain v = true ->
  exists c t, json_text v = c :: t /\ is_json_space c = false /\ c <> 93 /\ c <> 125.
Proof.
  destruct v as [| |b|n|s|l|o]; cbn [json_plain json_text]; intros Hp; try done.
  1: by eexists 110, _. 1: destruct b; by eexists _, _.
  2, 3, 4: by eexists _, _.
  destruct n as [z| | |]; try done. apply Z.leb_le in Hp.
  destruct (num_to_string_head z Hp) as (c & t & E & Hc). exists c, t.
  split; [done|]. unfold is_json_space, is_digit in *. lia.
Qed.

Definition reads (v : jsval) : Prop :=
  json_plain v = true -> forall fuel rest, (length (json_text v) <= fuel)%nat ->
  number_end rest = true -> parse_value fuel (json_text v ++ rest) = Some (v, rest).

Lemma join_cons2 sep w ws : ws <> [] -> join sep (w :: ws) = w ++ sep ++ join sep ws.
Proof. by destruct ws. Qed.

Lemma bind_Some {A B} (x : A) (f : A -> option B) : Some x ≫= f = f x.
Proof. done. Qed.
#[local] Ltac len_norm H := repeat first [rewrite length_app in H | progress cbn [length] in H].
#[local] Ltac parse_bind := rewrite bind_Some; cbv beta match.

Lemma parse_elements_text l acc fuel rest :
  Forall reads l -> forallb json_plain l = true -> l <> [] ->
  (S (length (join [44%Z] (map json_text l))) <= fuel)%nat ->
  parse_elements fuel acc (join [44] (map json_text l) ++ 93 :: rest) = Some (JArr (acc ++ l), rest).
Proof.
  intros Hr. revert acc fuel. induction Hr as [|v l Hv Hl IH]; intros acc fuel Hp Hne Hf; [done|].
  destruct fuel as [|fuel]; [lia|]. simpl in Hp. apply andb_true_iff in Hp as [Hpv Hpl].
  destruct l as [|v' l].
  - simpl in *. rewrite Hv by (done || lia). simpl. done.
  - cbn [map] in *. rewrite (join_cons2 _ (json_text v)) in * by done.
    rewrite !length_app in Hf. cbn [parse_elements].
    rewrite <- !app_assoc. rewrite Hv by (simpl; done || lia). parse_bind.
    cbn [app]. rewrite skip_ws_head by done. change (44 =? 44) with true. cbv match.
    rewrite IH by (done || (simpl in *; lia)). by rewrite <- app_assoc.
Qed.

Lemma parse_members_text o acc fuel rest :
  Forall (fun p => reads p.2) o -> forallb (fun p => json_plain p.2) o = true ->
  forallb (forallb is_unit) o.*1 = true -> o <> [] -> ordered (acc ++ o) ->
  (S (length (join [44%Z] (members_text json_text o))) <= fuel)%nat ->
  parse_members fuel acc (join [44] (members_text json_text o) ++ 125 :: rest) = Some (JObj (acc ++ o), rest).
Proof.
  intros Hr. revert acc fuel. induction Hr as [|[k v] o Hv Ho IH]; intros acc fuel Hp Hk Hne Hord Hf; [done|].
  destruct fuel as [|fuel]; [lia|]. csimpl in *.
  apply andb_true_iff in Hp as [Hpv Hpo]. apply andb_true_iff in Hk as [Hkk Hko].
  assert (Hwf : wf_units k) by (by apply Forall_forallb in Hkk).
  assert (is_undef v = false) as Hu by (by destruct v). rewrite Hu in *.
  assert (Hset : obj_set k v acc = acc ++ [(k, v)]).
  { apply obj_set_append. unfold ordered in Hord. rewrite fmap_app in Hord.
    destruct (ordered_keys_app _ _ Hord) as (_ & _ & Hok).
    apply Forall_forallb, Forall_forall. intros k1 Hk1. apply Hok; [done|by left]. }
  destruct o as [|[k' v'] o].
  - cbn [members_text join] in *. unfold quote in *. len_norm Hf.
    cbn [app parse_members]. rewrite skip_ws_head by done. change (34 =? 34) with true. cbv match.
    rewrite <- !app_assoc. cbn [app]. rewrite parse_string_escape by done. parse_bind.
    rewrite skip_ws_head by done. change (58 =? 58) with true. cbv match.
    rewrite Hv by (done || lia). parse_bind.
    rewrite skip_ws_head by done. change (125 =? 44) with false. change (125 =? 125) with true. cbv match.
    by rewrite Hset.
  - assert (members_text json_text ((k', v') :: o) <> []) as Hm.
    { csimpl in *. apply andb_true_iff in Hpo as [Hpv' _]. by destruct v'. }
    rewrite join_cons2 in Hf by done. rewrite join_cons2 by done.
    unfold quote in *. len_norm Hf.
    cbn [app parse_members]. rewrite skip_ws_head by done. change (34 =? 34) with true. cbv match.
    rewrite <- !app_assoc. cbn [app]. rewrite parse_string_escape by done. parse_bind.
    rewrite skip_ws_head by done. change (58 =? 58) with true. cbv match.
    rewrite Hv by (done || lia). parse_bind. cbn [app].
    rewrite skip_ws_head by done. change (44 =? 44) with true. cbv match.
    rewrite Hset, IH; [by rewrite <- app_assoc | done | done | done | by rewrite <- app_assoc |].
    simpl in *. lia.
Qed.

Lemma reads_all v : reads v.
Proof.
  induction v as [| |b|n|s|l IH|o IH] using jsval_ind'; intros Hp fuel rest Hf Hr; try done;
    (destruct fuel as [|fuel]; [exfalso; destruct (json_text_head _ Hp) as (? & ? & E & _); rewrite E in Hf; simpl in Hf; lia|]).
  - done.
  - by destruct b.
  - destruct n as [z| | |]; try done. cbn [json_text is_finite json_plain is_safe_integer] in *.
    apply Z.leb_le in Hp. destruct (num_to_string_head z Hp) as (c & t & E & Hc).
    pose proof (parse_number_int z rest Hp Hr) as Hn. rewrite E in *. cbn [app parse_value] in *.
    unfold is_digit in Hc. rewrite skip_ws_head by (unfold is_json_space; lia).
    rewrite !(proj2 (Z.eqb_neq c _)) by lia. rewrite Hn. done.
  - cbn [json_text json_plain] in *. unfold quote. cbn [app parse_value]. rewrite skip_ws_head by done.
    change (34 =? 123) with false. change (34 =? 91) with false. change (34 =? 34) with true. cbv match.
    rewrite <- app_assoc. cbn [app]. rewrite parse_string_escape; [done|]. by apply Forall_forallb.
  - cbn [json_text json_plain app parse_value] in *. rewrite skip_ws_head by done.
    change (91 =? 123) with false. change (91 =? 91) with true. cbv match.
    destruct l as [|v l]; [done|].
    destruct (json_text_head v) as (c & t & E & Hsp & Hc1 & Hc2).
    { simpl in Hp. by apply andb_true_iff in Hp as [-> _]. }
    assert (exists t', join [44] (map json_text (v :: l)) ++ 93 :: rest = c :: t') as [t' Et].
    { cbn [map]. rewrite E. destruct l; simpl; eauto. }
    rewrite <- app_assoc. cbn [app]. rewrite Et, skip_ws_head by done.
    rewrite (proj2 (Z.eqb_neq c 93)) by done. rewrite <- Et, parse_elements_text; try done.
    len_norm Hf. lia.
  - cbn [json_text json_plain app parse_value] in *. rewrite skip_ws_head by done.
    change (123 =? 123) with true. cbv match. rewrite !andb_true_iff in Hp. destruct Hp as [[Hord Hk] Hp].
    destruct o as [|[k v] o]; [done|].
    assert (exists t', join [44] (members_text json_text ((k, v) :: o)) ++ 125 :: rest = 34 :: t') as [t' Et].
    { csimpl. simpl in Hp. apply andb_true_iff in Hp as [Hpv _]. assert (is_undef v = false) as -> by (by destruct v).
      unfold quote. destruct (members_text json_text o); simpl; eauto. }
    rewrite <- app_assoc. cbn [app]. rewrite Et, skip_ws_head by done.
    change (34 =? 125) with false. cbv match. rewrite <- Et, parse_members_text; try done.
    len_norm Hf. lia.
Qed.

(** [JSON.parse(JSON.stringify(v))] is [v], for the values JSON carries. *)
Lemma json_parse_text v : json_plain v = true -> json_parse (json_text v) = Some v.
Proof.
  intros Hp. unfold json_parse. rewrite <- (app_nil_r (json_text v)) at 2.
  rewrite (reads_all v Hp); [done|lia|done].
Qed.

(** ** Enough fuel *)
Lemma skip_ws_length s : (length (skip_ws s) <= length s)%nat.
Proof.
  unfold skip_ws. destruct (drop_while_suffix is_json_space s) as (k & Hk & _).
  rewrite Hk at 2. rewrite length_app. lia.
Qed.

(** Peel a chain of option binds and tests that ended in [Some]. *)
#[local] Ltac some_inv H :=
  cbn beta iota zeta in H;
  lazymatch type of H with
  | None = Some _ => discriminate H
  | Some _ = Some _ => injection H as H; subst
  | mbind _ ?m = Some _ => let E := fresh "E" in destruct m as [[? ?]|] eqn:E; [rewrite bind_Some in H; some_inv H|discriminate H]
  | (match ?x with _ => _ end) = Some _ => let E := fresh "E" in destruct x eqn:E; some_inv H
  | _ => idtac
  end.

Lemma parse_string_shorter s t r : parse_string s = Some (t, r) -> (length r < length s)%nat.
Proof.
  revert t r. induction s as [s IH] using (induction_ltof1 _ (@length Z)). unfold ltof in IH.
  intros t r H. destruct s as [|c s']; [done|]. cbn [parse_string] in H.
  destruct (c =? 34); [by simplify_eq/=; lia|]. destruct (c =? 92).
  - destruct s' as [|e r']; [done|]. destruct (e =? 117).
    + destruct r' as [|h1 [|h2 [|h3 [|h4 r']]]]; try done.
      destruct (hex_value h1), (hex_value h2), (hex_value h3), (hex_value h4); simpl in H; try done.
      destruct (parse_string r') as [[? ?]|] eqn:E; [|done]. simplify_eq/=. apply IH in E; simpl; lia.
    + destruct (simple_escape e); [|done]. rewrite bind_Some in H.
      destruct (parse_string r') as [[? ?]|] eqn:E; [|done]. simplify_eq/=. apply IH in E; simpl; lia.
  - destruct (c <? 32); [done|]. destruct (parse_string s') as [[? ?]|] eqn:E; [|done].
    simplify_eq/=. apply IH in E; simpl; lia.
Qed.

Lemma span_digits_length s d r : span_digits s = (d, r) -> length s = (length d + length r)%nat.
Proof.
  revert d r. induction s as [|c s IH]; simpl; intros d r; [by intros [= <- <-]|].
  destruct (is_digit c); [|by intros [= <- <-]]. destruct (span_digits s) as [d' r'].
  intros [= <- <-]. simpl. rewrite (IH d' r'); done.
Qed.

Lemma parse_fraction_length s d r : parse_fraction s = Some (d, r) -> (length r <= length s)%nat.
Proof.
  unfold parse_fraction. intros H. some_inv H; simpl; try lia.
  match goal with E : span_digits _ = _ |- _ => apply span_digits_length in E; simpl in *; lia end.
Qed.

Lemma parse_exponent_length s d r : parse_exponent s = Some (d, r) -> (length r <= length s)%nat.
Proof.
  unfold parse_exponent. intros H. some_inv H; simpl; try lia;
  repeat match goal with
  | E : span_digits _ = _ |- _ => apply span_digits_length in E; simpl in *
  | E : (match ?x with _ => _ end) = _ |- _ => destruct x; simplify_eq/=
  end; lia.
Qed.

Lemma parse_number_shorter s n r : parse_number s = Some (n, r) -> (length r < length s)%nat.
Proof.
  assert (forall neg s, parse_magnitude neg s = Some (n, r) -> (length r < length s)%nat) as Hm.
  { intros neg s0. unfold parse_magnitude. destruct (span_digits s0) as [ip s2] eqn:Es.
    apply span_digits_length in Es. destruct ip as [|c ip]; [done|].
    destruct (_ && _); [done|]. destruct (parse_fraction s2) as [[fp s3]|] eqn:Ef; [|done]. simpl.
    destruct (parse_exponent s3) as [[ex s4]|] eqn:Ee; [|done]. simpl. intros [= _ ->].
    apply parse_fraction_length in Ef. apply parse_exponent_length in Ee. simpl in Es. lia. }
  unfold parse_number. destruct s as [|c s]; [done|].
  destruct (c =? 45); intros H; apply Hm in H; simpl in *; lia.
Qed.

Lemma parse_literal_shorter lit v s x r : lit <> [] -> parse_literal lit v s = Some (x, r) ->
  (length r < length s)%nat.
Proof.
  unfold parse_literal. intros Hl. destruct (starts_with lit s) eqn:E; [|done]. intros [= _ <-].
  apply starts_with_spec in E as [t ->]. rewrite drop_app_length, length_app.
  destruct lit; simpl; [done|lia].
Qed.

#[local] Ltac shorter_step :=
  match goal with
  | E : skip_ws ?s = ?x |- _ =>
      lazymatch goal with L : (length x <= length s)%nat |- _ => fail | _ => idtac end;
      assert (length x <= length s)%nat by (rewrite <- E; apply skip_ws_length)
  | E : parse_string _ = Some _ |- _ => apply parse_string_shorter in E
  | E : parse_number _ = Some _ |- _ => apply parse_number_shorter in E
  | E : parse_literal _ _ _ = Some _ |- _ => apply parse_literal_shorter in E; [|vm_compute; discriminate]
  end.

(** Reading a value consumes text. *)
Lemma parse_shorter fuel :
  (forall s v r, parse_value fuel s = Some (v, r) -> (length r < length s)%nat) /\
  (forall a s v r, parse_members fuel a s = Some (v, r) -> (length r < length s)%nat) /\
  (forall a s v r, parse_elements fuel a s = Some (v, r) -> (length r < length s)%nat).
Proof.
  induction fuel as [|fuel (IHv & IHm & IHe)]; [split_and!; intros; done|].
  split_and!; intros; cbn [parse_value parse_members parse_elements] in *;
    match goal with H : _ = Some _ |- _ => some_inv H end;
    repeat match goal with
    | E : parse_value _ _ = Some _ |- _ => apply IHv in E
    | E : parse_members _ _ _ = Some _ |- _ => apply IHm in E
    | E : parse_elements _ _ _ = Some _ |- _ => apply IHe in E
    end;
    repeat shorter_step; simpl in *; lia.
Qed.

#[local] Ltac shorter_ws E :=
  match type of E with
  | skip_ws ?s = _ => pose proof (skip_ws_length s) as Hws; rewrite E in Hws; cbn [length] in Hws; let H' := fresh "L" in rename Hws into H'
  end.

(** Any two sufficient fuels give the same result. *)
Lemma parse_fuel fuel : forall fuel', 
  (forall s, (2 * length s < fuel)%nat -> (2 * length s < fuel')%nat -> parse_value fuel s = parse_value fuel' s) /\
  (forall a s, (2 * length s < fuel)%nat -> (2 * length s < fuel')%nat -> parse_members fuel a s = parse_members fuel' a s) /\
  (forall a s, (2 * length s + 1 < fuel)%nat -> (2 * length s + 1 < fuel')%nat ->
    parse_elements fuel a s = parse_elements fuel' a s).
Proof.
  induction fuel as [|fuel IH]; intros fuel'; [split_and!; intros; lia|].
  destruct fuel' as [|fuel']; [split_and!; intros; lia|].
  destruct (IH fuel') as (IHv & IHm & IHe).
  split_and!; intros; cbn [parse_value parse_members parse_elements].
  - destruct (skip_ws s) as [|c r] eqn:Es; [reflexivity|]. shorter_ws Es.
    destruct (skip_ws r) as [|d r'] eqn:Er; [reflexivity|]. shorter_ws Er. simpl in *.
    rewrite IHm, IHe by (simpl; lia). done.
  - destruct (skip_ws s) as [|c r] eqn:Es; [reflexivity|]. shorter_ws Es. simpl in *.
    destruct (c =? 34); [|reflexivity]. destruct (parse_string r) as [[k r1]|] eqn:Ek; [|reflexivity].
    apply parse_string_shorter in Ek. rewrite !bind_Some; cbv beta match. destruct (skip_ws r1) as [|c1 r2] eqn:E1; [reflexivity|]. shorter_ws E1. simpl in *.
    destruct (c1 =? 58); [|reflexivity]. rewrite IHv by lia.
    destruct (parse_value fuel' r2) as [[v r3]|] eqn:Ev; [|reflexivity]. apply (proj1 (parse_shorter _)) in Ev.
    rewrite !bind_Some; cbv beta match. destruct (skip_ws r3) as [|c2 r4] eqn:E3; [reflexivity|]. shorter_ws E3. simpl in *.
    rewrite IHm by lia. done.
  - rewrite IHv by lia. destruct (parse_value fuel' s) as [[v r]|] eqn:Ev; [|reflexivity].
    apply (proj1 (parse_shorter _)) in Ev. rewrite !bind_Some; cbv beta match.
    destruct (skip_ws r) as [|c r'] eqn:Er; [reflexivity|]. shorter_ws Er. simpl in *.
    rewrite IHe by lia. done.
Qed.

Lemma json_parse_fuel fuel s : (2 * length s < fuel)%nat ->
  json_parse s = '(v, r) ← parse_value fuel s; if bool_decide (skip_ws r = []) then Some v else None.
Proof.
  intros Hf. unfold json_parse. destruct (parse_fuel (S (2 * length s)) fuel) as (Hv & _).
  rewrite Hv by lia. by destruct (parse_value fuel s) as [[v r]|].
Qed.

(** ** The text of a value holds no control unit and no lone surrogate *)
Definition text_ok (t : jsstring) : Prop :=
  Forall (fun c => 32 <= c < 65536) t /\ well_formed_utf16 t = true.

Lemma text_ok_nil : text_ok [].
Proof. by split. Qed.

Lemma text_ok_app s t : text_ok s -> text_ok t -> text_ok (s ++ t).
Proof. intros [Hs Ws] [Ht Wt]. split; [by apply Forall_app|]. by rewrite well_formed_app. Qed.

Lemma text_ok_cons c t : 32 <= c < 55296 -> text_ok t -> text_ok (c :: t).
Proof.
  intros Hc Ht. apply (text_ok_app [c]); [|done]. split; [repeat constructor; lia|].
  cbn [well_formed_utf16]. assert (is_high c = false) as -> by (unfold is_high; lia).
  assert (is_low c = false) as -> by (unfold is_low; lia). done.
Qed.

Lemma text_ok_ascii t : Forall (fun c => 32 <= c < 128) t -> text_ok t.
Proof. induction 1; [apply text_ok_nil|]. apply text_ok_cons; [lia|done]. Qed.

Lemma text_ok_literal t : forallb (fun c => (32 <=? c) && (c <? 128)) t = true -> text_ok t.
Proof. intros H%Forall_forallb. apply text_ok_ascii. eapply Forall_impl; [exact H|]. intros c Hc. cbv beta in *. lia. Qed.
#[local] Ltac solve_ascii := apply text_ok_literal; reflexivity.

Lemma text_ok_units t : text_ok t -> wf_units t.
Proof. intros [H _]. eapply Forall_impl; [exact H|]. intros c Hc. cbv beta in *. unfold is_unit. lia. Qed.

Lemma text_ok_not_elem c t : c < 32 -> text_ok t -> c ∉ t.
Proof. intros Hc [H _] Hin. rewrite Forall_forall in H. specialize (H c Hin). lia. Qed.

Lemma hex_digit_ascii d : 0 <= d < 16 -> 32 <= hex_digit d < 128.
Proof. unfold hex_digit. intros. destruct (Z.ltb_spec d 10); lia. Qed.

Lemma text_ok_u_escape c : 0 <= c < 65536 -> text_ok (u_escape c).
Proof.
  intros Hc. apply text_ok_ascii. unfold u_escape.
  repeat (constructor; [first [lia | apply hex_digit_ascii; lia]|]). constructor.
Qed.

Lemma text_ok_escape_unit c : 0 <= c < 65536 -> is_high c = false -> is_low c = false ->
  text_ok (escape_unit c).
Proof.
  intros Hc Hh Hl. unfold escape_unit.
  repeat match goal with
  | |- context [if c =? ?k then _ else _] => destruct (Z.eqb_spec c k) as [->|?];
      [solve_ascii|]
  end.
  destruct (Z.ltb_spec c 32); [by apply text_ok_u_escape|].
  split; [repeat constructor; lia|]. cbn. by rewrite Hh, Hl.
Qed.

Lemma text_ok_escape s : wf_units s -> text_ok (escape s).
Proof.
  induction s as [|c s IH IH2] using string_ind2; [intros _; apply text_ok_nil|].
  intros [Hc Hs]%Forall_cons. unfold is_unit in Hc. assert (0 <= c < 65536) by lia. cbn [escape].
  destruct (is_high c) eqn:Hh; [destruct s as [|d s]|destruct (is_low c) eqn:Hl].
  - by apply text_ok_u_escape.
  - destruct (is_low d) eqn:Hl; [|apply text_ok_app; [by apply text_ok_u_escape|by apply IH]].
    apply Forall_cons in Hs as [Hd Hs]. apply (text_ok_app [c; d]); [|by eapply IH2].
    split; [unfold is_high, is_low in *; repeat constructor; lia|]. cbn. by rewrite Hh, Hl.
  - apply text_ok_app; [by apply text_ok_u_escape|by apply IH].
  - apply text_ok_app; [by apply text_ok_escape_unit|by apply IH].
Qed.

Lemma text_ok_quote s : wf_units s -> text_ok (quote s).
Proof.
  intros Hs. apply text_ok_cons; [lia|]. apply text_ok_app; [by apply text_ok_escape|].
  solve_ascii.
Qed.

Lemma text_ok_join ws : Forall text_ok ws -> text_ok (join [44] ws).
Proof.
  induction 1 as [|w ws Hw Hws IH]; [apply text_ok_nil|]. destruct ws as [|w' ws]; [done|].
  rewrite join_cons2 by done. apply text_ok_app; [done|]. by apply text_ok_cons.
Qed.

Lemma text_ok_digits z : 0 <= z -> text_ok (digits z).
Proof.
  intros Hz. destruct (digits_spec z Hz) as (_ & Hd & _). apply text_ok_ascii.
  apply Forall_forallb in Hd. eapply Forall_impl; [exact Hd|]. intros c Hc. cbv beta in *. unfold is_digit in Hc. lia.
Qed.

(** What lets a newline frame a document: no newline, and nothing UTF-8 would
    replace. *)
Lemma json_text_ok v : json_plain v = true -> text_ok (json_text v).
Proof.
  induction v as [| |b|n|s|l IH|o IH] using jsval_ind'; cbn [json_plain json_text]; intros Hp; try done.
  1: solve_ascii.
  1: destruct b; solve_ascii.
  - destruct n as [z| | |]; try done. cbn [is_finite is_safe_integer num_to_string] in *. rewrite Hp.
    apply text_ok_app; [|apply text_ok_digits; lia].
    destruct (z <? 0); [|apply text_ok_nil]. solve_ascii.
  - by apply text_ok_quote, Forall_forallb.
  - apply text_ok_cons; [lia|]. apply text_ok_app; [|solve_ascii].
    apply text_ok_join. induction IH as [|v l Hv Hl IHl]; simpl in *; constructor.
    + apply Hv. by apply andb_true_iff in Hp as [-> _].
    + apply IHl. by apply andb_true_iff in Hp as [_ ->].
  - apply andb_true_iff in Hp as [[_ Hk]%andb_true_iff Hp].
    apply text_ok_cons; [lia|]. apply text_ok_app; [|solve_ascii].
    apply text_ok_join. induction IH as [|[k v] o Hv Ho IHo]; csimpl in *; [constructor|].
    apply andb_true_iff in Hp as [Hpv Hpo]. apply andb_true_iff in Hk as [Hkk Hko].
    destruct (is_undef v); [by apply IHo|]. constructor; [|by apply IHo].
    apply (text_ok_app (quote k)); [by apply text_ok_quote, Forall_forallb|]. apply text_ok_cons; [lia|by apply Hv].
Qed.
#[export] Hint Resolve json_text_ok text_ok_units : verser.

(** A parsed text is a value, never [undefined]. *)
Lemma parse_defined fuel :
  (forall s v r, parse_value fuel s = Some (v, r) -> v <> JUndef) /\
  (forall acc s v r, parse_members fuel acc s = Some (v, r) -> v <> JUndef) /\
  (forall acc s v r, parse_elements fuel acc s = Some (v, r) -> v <> JUndef).
Proof.
  induction fuel as [|fuel (IHv & IHm & IHe)]; [done|].
  repeat split.
  - intros s v r. cbn [parse_value]. unfold parse_literal. destruct (skip_ws s) as [|c t]; [done|].
    repeat (match goal with |- context[if ?b then _ else _] => destruct b end); intros Hp.
    all: try (destruct (parse_string t) as [[? ?]|]); try (destruct (parse_number (c :: t)) as [[? ?]|]); cbn in Hp.
    all: repeat case_match; simplify_eq; eauto; done.
  - intros acc s v r. cbn [parse_members]. destruct (skip_ws s) as [|c t]; [done|]. intros Hp. case_match; [|done].
    destruct (parse_string t) as [[k r1]|]; [|done]. cbn in Hp. destruct (skip_ws r1) as [|c1 r2]; [done|]. case_match; [|done].
    destruct (parse_value fuel r2) as [[x r3]|]; [|done]. cbn in Hp. repeat case_match; simplify_eq; eauto; done.
  - intros acc s v r. cbn [parse_elements]. intros Hp. destruct (parse_value fuel s) as [[x r1]|]; [|done]. cbn in Hp.
    repeat case_match; simplify_eq; eauto; done.
Qed.
Lemma json_parse_defined s v : json_parse s = Some v -> v <> JUndef.
Proof.
  unfold json_parse. destruct (parse_value _ s) as [[w r]|] eqn:E; [|done]. case_bool_decide; [|done].
  intros [= <-]. by eapply (proj1 (parse_defined _)).
Qed.
