(* ===== verification/Errors.v ===== *)
(** Typed errors and the small validators of verser-common: [errors.ts],
    [error-response.ts], [utils.ts] and the error-code type of [types.ts]. *)
From S2P Require Import Prelude JsNum Utf8 Json.

(** ** Data *)
Inductive VerserErrorCode : Type :=
  | missing_guest | disconnected_target | timeout | stream_failure | protocol_error
  | local_handler_failure | invalid_registration | certificate_verification_failure
  | upstream_unavailable | route_loop | authorization_denied | unsafe_retry
  | revocation_failed | websocket_negotiation_failed.

#[export] Instance VerserErrorCode_eq_dec : EqDecision VerserErrorCode.
Proof. solve_decision. Defined.

(** The string of each code. *)
Definition code_name (c : VerserErrorCode) : jsstring :=
  match c with
  | missing_guest => js "missing-guest"
  | disconnected_target => js "disconnected-target"
  | timeout => js "timeout"
  | stream_failure => js "stream-failure"
  | protocol_error => js "protocol-error"
  | local_handler_failure => js "local-handler-failure"
  | invalid_registration => js "invalid-registration"
  | certificate_verification_failure => js "certificate-verification-failure"
  | upstream_unavailable => js "upstream-unavailable"
  | route_loop => js "route-loop"
  | authorization_denied => js "authorization-denied"
  | unsafe_retry => js "unsafe-retry"
  | revocation_failed => js "revocation-failed"
  | websocket_negotiation_failed => js "websocket-negotiation-failed"
  end.

Definition VerserErrorContext : Type := list (jsstring * jsval).

Record VerserError := {
  ve_code : VerserErrorCode;
  ve_message : jsstring;
  ve_context : VerserErrorContext;
}.

(** What the source throws: typed errors, native errors it constructs, plain
    errors carrying a WebSocket [closeCode], and errors the engine throws on an
    input. *)
Inductive exn : Type :=
  | VerserErr (e : VerserError)
  | NativeErr (k : native_error) (message : jsstring)
  | ClosingErr (message : jsstring) (closeCode : Z)
  | EngineErr (k : native_error) (input : jsstring).

(** ** [errors.ts] *)
Definition defined_entries (o : VerserErrorContext) : VerserErrorContext :=
  filter (fun p => is_undef p.2 = false) o.

Definition contextSuffix (context : VerserErrorContext) : jsstring :=
  let contextPairs := map (fun p => p.1 ++ js "=" ++ to_str p.2) (defined_entries context) in
  match contextPairs with [] => [] | _ => js " (" ++ join (js ", ") contextPairs end.
Definition formatVerserErrorMessage (code : VerserErrorCode) (message : jsstring) (context : VerserErrorContext) : jsstring :=
  js "[" ++ code_name code ++ js "] " ++ message ++ contextSuffix context.

Definition createVerserError (code : VerserErrorCode) (message : jsstring) (context : VerserErrorContext) : VerserError :=
  {| ve_code := code; ve_message := formatVerserErrorMessage code message context; ve_context := context |}.

(** [throw createVerserError(code, message, context)] *)
Definition verr (code : VerserErrorCode) (message : string) (context : VerserErrorContext) : exn :=
  VerserErr (createVerserError code (js message) context).
#[global] Arguments verr code message%_string context.
Definition verr_js (code : VerserErrorCode) (message : jsstring) (context : VerserErrorContext) : exn :=
  VerserErr (createVerserError code message context).
(** [throw new TypeError(message)] *)
Definition terr (message : jsstring) : exn := NativeErr TypeError message.

(** [v === s] for a string [s]. *)
Definition is_str (s : jsstring) (v : jsval) : bool :=
  match v with JStr t => str_eqb t s | _ => false end.

Section Messages.
Context {P : Platform}.

Definition getErrorMessage (e : exn) : jsstring :=
  match e with
  | VerserErr e => ve_message e
  | NativeErr _ m | ClosingErr m _ => m
  | EngineErr k i => engine_message k i
  end.

Definition toVerserError (error : exn) (guestId : option jsstring) : VerserError :=
  match error with
  | VerserErr e =>
      match guestId with
      | Some g =>
          if is_str g (prop (js "guestId") (ve_context e)) then e
          else {| ve_code := ve_code e; ve_message := ve_message e;
                  ve_context := obj_assign (js "guestId") (JStr g) (ve_context e) |}
      | None => e
      end
  | _ => createVerserError protocol_error (getErrorMessage error)
           (match guestId with Some g => [(js "guestId", JStr g)] | None => [] end)
  end.
End Messages.

(** ** [error-response.ts] *)
Definition toVerserHttpErrorResponse (error : VerserError) : jsval :=
  JObj [(js "error", JObj [(js "code", JStr (code_name (ve_code error)));
                           (js "message", JStr (ve_message error));
                           (js "context", JObj (obj_of_entries (defined_entries (ve_context error))))])].

Definition known_codes : list VerserErrorCode :=
  [missing_guest; disconnected_target; timeout; stream_failure; protocol_error; local_handler_failure;
   invalid_registration; certificate_verification_failure; upstream_unavailable; route_loop;
   authorization_denied; unsafe_retry; revocation_failed; websocket_negotiation_failed].

Definition toVerserErrorCode (code : jsval) : VerserErrorCode :=
  match code with
  | JStr s => match find (fun c => str_eqb s (code_name c)) known_codes with
              | Some c => c
              | None => local_handler_failure
              end
  | _ => local_handler_failure
  end.

Definition verserErrorFromResponseBody (body : bytes) (targetId : jsstring) : result exn VerserError :=
  let text := utf8_decode body in
  match json_parse text with
  | None => Throw (EngineErr SyntaxError text)
  | Some parsed =>
      match js_member (js "error") parsed with
      | None => Throw (EngineErr TypeError text)
      | Some error =>
          let code := toVerserErrorCode (js_opt_member (js "code") error) in
          let message := to_str (nullish (js_opt_member (js "message") error) (JStr (js "Broker request failed"))) in
          let context := nullish (js_opt_member (js "context") error) (JObj []) in
          Ok (createVerserError code message (obj_spread [(js "targetId", JStr targetId)] (spread_entries context)))
      end
  end.

(** ** [utils.ts] *)
Definition isRecord (v : jsval) : bool := match v with JObj _ => true | _ => false end.

Definition requireNonEmpty (value : jsstring) (label : string) : result exn jsstring :=
  let normalizedValue := trim value in
  if len normalizedValue =? 0 then
    Throw (verr_js invalid_registration (js label ++ js " must not be empty") [(js "field", JStr (js label))])
  else Ok normalizedValue.

Definition requireStatusInRange (low : Z) (message : string) (value : jsnum) : result exn jsnum :=
  if negb (is_integer value) || num_ltz value low || negb (num_ltz value 600) then
    Throw (verr protocol_error message [(js "statusCode", JNum value)])
  else Ok value.
Definition requireValidStatusCode : jsnum -> result exn jsnum :=
  requireStatusInRange 100 "HTTP status code must be between 100 and 599".
Definition requireFinalResponseStatusCode : jsnum -> result exn jsnum :=
  requireStatusInRange 200 "Response status code must be final (200-599)".

(** The punctuation of a header token: [!#$%&'*+-.^_`|~]. *)
Definition token_punct (c : Z) : bool := mem_str [c] (map (fun c => [c]) (js "!#$%&'*+-.^_`|~")).
Definition isValidHttpHeaderName (name : jsstring) : bool :=
  negb (bool_decide (name = [])) && forallb (fun c => token_punct c || is_digit c || is_lower c) name.

(** The [/u] flag reads surrogate pairs as one code point: no token character
    is one, so the test is unit by unit all the same. *)
Definition envelopeTypeNameFromCode (code : Z) (envelopeTypes : list (jsstring * Z)) : result exn jsstring :=
  match find (fun p => p.2 =? code) envelopeTypes with
  | Some (name, _) => Ok name
  | None => Throw (verr protocol_error "Unknown envelope type" [(js "envelopeType", JNum (num_int code))])
  end.

(** * Theory *)
Lemma find_code c : find (fun c' => str_eqb (code_name c) (code_name c')) known_codes = Some c.
Proof. by destruct c. Qed.

Lemma toVerserErrorCode_name c : toVerserErrorCode (JStr (code_name c)) = c.
Proof. unfold toVerserErrorCode. by rewrite find_code. Qed.
#[export] Hint Rewrite toVerserErrorCode_name : verser.
Lemma toVerserErrorCode_unknown v : (forall c, v <> JStr (code_name c)) -> toVerserErrorCode v = local_handler_failure.
Proof.
  intros H. destruct v as [| | | |s| |]; try done. unfold toVerserErrorCode. destruct (find (fun c => str_eqb s (code_name c)) known_codes) as [c|] eqn:E; [|done].
  apply find_some in E as [_ E%str_eqb_eq]. by destruct (H c); rewrite E.
Qed.

Lemma requireNonEmpty_Ok value label v :
  requireNonEmpty value label = Ok v <-> v = trim value /\ v <> [].
Proof.
  unfold requireNonEmpty, len. destruct (trim value) as [|c t]; simpl; [naive_solver|].
  split; [intros [= <-]; done|]. by intros [-> _].
Qed.

Lemma requireNonEmpty_trimmed s label : trim s <> [] -> requireNonEmpty (trim s) label = Ok (trim s).
Proof. intros H. apply requireNonEmpty_Ok. by rewrite trim_idem. Qed.

Lemma requireStatusInRange_Ok low m n v :
  requireStatusInRange low m n = Ok v <-> exists z, n = num_int z /\ v = n /\ low <= z <= 599.
Proof.
  unfold requireStatusInRange. split.
  - destruct n as [z| | |]; simpl; try done. intros H.
    destruct (_ || _) eqn:E in H; [done|]. injection H as <-. exists z. bools. split_and!; [done..|lia|lia].
  - intros (z & -> & -> & Hz). simpl. by rewrite (proj2 (Z.ltb_ge _ _)), (proj2 (Z.ltb_lt z 600)) by lia.
Qed.

Lemma defined_entries_get k o : map_wf o -> map_get k (defined_entries o) =
  match map_get k o with Some JUndef => None | v => v end.
Proof.
  unfold defined_entries, map_wf, map_keys, VerserErrorContext in *. induction o as [|[k0 v0] o IH]; [done|].
  intros [Hni Hnd]%NoDup_cons. rewrite filter_cons. cbn [map_get fst snd].
  case_decide as Hu; cbn [map_get]; case_decide as Hk; try (by apply IH).
  - by destruct v0.
  - subst. destruct v0; try done. rewrite IH by done.
    destruct (map_get k0 o) eqn:E; [|done]. destruct Hni. apply (elem_of_map_keys k0 o). congruence.
Qed.

Lemma toVerserHttpErrorResponse_plain e :
  ordered (ve_context e) -> Forall (fun p => wf_units p.1) (ve_context e) ->
  Forall (fun p => is_undef p.2 || json_plain p.2 = true) (ve_context e) -> wf_units (ve_message e) ->
  json_plain (toVerserHttpErrorResponse e) = true /\
  obj_of_entries (defined_entries (ve_context e)) = defined_entries (ve_context e).
Proof.
  intros Ho Hk Hv Hm. unfold toVerserHttpErrorResponse.
  assert (Hod : ordered (defined_entries (ve_context e))) by (by apply ordered_filter).
  rewrite obj_of_entries_ordered by done. split; [|done].
  cbn [json_plain forallb fmap list_fmap fst snd].
  repeat (apply andb_true_iff; split); try reflexivity; try done.
  - by destruct (ve_code e).
  - by apply Forall_forallb.
  - apply Forall_forallb, Forall_fmap. unfold defined_entries. apply Forall_forall.
    intros [k v] [_ Hin]%list_elem_of_filter. rewrite Forall_forall in Hk.
    by apply Forall_forallb, (Hk _ Hin).
  - apply Forall_forallb, Forall_forall. unfold defined_entries.
    intros [k v] [Hu Hin]%list_elem_of_filter. rewrite Forall_forall in Hv.
    specialize (Hv _ Hin). cbn [fst snd] in *. by rewrite Hu in Hv.
Qed.

(** An error answered as an HTTP error body reads back with the same code,
    every defined context field, and the target filled in when the context has
    none; its message is the original one under a second code prefix. *)
Theorem error_response_roundtrip e targetId :
  ordered (ve_context e) -> Forall (fun p => wf_units p.1) (ve_context e) ->
  Forall (fun p => is_undef p.2 || json_plain p.2 = true) (ve_context e) -> wf_units (ve_message e) ->
  exists e', verserErrorFromResponseBody (utf8_encode (json_text (toVerserHttpErrorResponse e))) targetId = Ok e' /\
    ve_code e' = ve_code e /\
    ve_message e' = formatVerserErrorMessage (ve_code e) (ve_message e) (ve_context e') /\
    forall k, map_get k (ve_context e') =
      match map_get k (ve_context e) with
      | Some JUndef | None => if decide (k = js "targetId") then Some (JStr targetId) else None
      | Some v => Some v
      end.
Proof.
  intros Ho Hk Hv Hm. destruct (toVerserHttpErrorResponse_plain e Ho Hk Hv Hm) as [Hp He].
  destruct (json_text_ok _ Hp) as [Hu Hw]. eexists. unfold verserErrorFromResponseBody.
  rewrite utf8_decode_encode by eauto with verser. rewrite json_parse_text by done.
  split; [reflexivity|]. split; [apply toVerserErrorCode_name|]. split.
  - cbn [ve_message createVerserError]. f_equal. apply toVerserErrorCode_name.
  - intros k. cbn [ve_context createVerserError]. rewrite He. cbn [nullish js_opt_member js_member from_option default].
    change (prop (js "context") _) with (JObj (defined_entries (ve_context e))). cbn [nullish spread_entries].
    rewrite obj_spread_get; [|by apply ordered_NoDup, ordered_filter].
    pose proof (defined_entries_get k _ (ordered_NoDup _ Ho)) as Hg.
    match type of Hg with _ = ?r => match goal with |- match ?m with _ => _ end = _ => assert (m = r) as -> by exact Hg end end.
    by destruct (map_get k (ve_context e)) as [[]|].
Qed.

Definition sample_error : VerserError :=
  createVerserError route_loop (js "loop") [(js "hostId", JStr (js "h1")); (js "hop", JUndef); (js "n", JNum (num_int 3))].

Lemma error_response_roundtrip_witness :
  exists e', verserErrorFromResponseBody (utf8_encode (json_text (toVerserHttpErrorResponse sample_error))) (js "g") = Ok e' /\
    ve_code e' = route_loop.
Proof.
  destruct (error_response_roundtrip sample_error (js "g")) as (e' & H & Hc & _).
  - reflexivity.
  - repeat constructor.
  - apply Forall_forallb. reflexivity.
  - apply Forall_forallb. vm_compute. reflexivity.
  - exists e'. split; [exact H|exact Hc].
Defined.
