(* ===== verification/Headers.v ===== *)
(** Header validation, normalisation and hop-by-hop sanitising
    (verser-common [headers.ts]). *)
From S2P Require Import Prelude JsNum Utf8 Json Errors.

(** ** Data *)

(** [VerserHeaders]: a record of header values, in property order.  A value is a
    string, number, boolean, null, undefined or an array of those. *)
Definition VerserHeaders : Type := list (jsstring * jsval).
Definition HeaderRecord : Type := list (jsstring * jsstring).
Definition VerserHeaderPair : Type := jsstring * jsstring.

(** [VerserHeaderInput]: a record, a flat name/value array, or an iterable of
    pairs. *)
Inductive VerserHeaderInput : Type :=
  | HeaderObject (o : list (jsstring * jsval))
  | HeaderArray (l : list jsval)
  | HeaderIterable (l : list (jsstring * jsval)).

Definition FORBIDDEN_HTTP1_HEADERS : list jsstring := [js "connection"; js "upgrade"; js "keep-alive"].
Definition HOP_BY_HOP_HEADERS : list jsstring :=
  [js "connection"; js "keep-alive"; js "proxy-authenticate"; js "proxy-authorization";
   js "te"; js "trailer"; js "transfer-encoding"; js "upgrade"].
Definition VERSER_RESPONSE_METADATA_HEADER : jsstring := js "x-verser-response-metadata".
Definition VERSER_RESPONSE_METADATA_MAX_STATUS_TEXT_BYTES : Z := 1024.

(** ** Validation *)
Definition is_token_unit (c : Z) : bool := token_punct c || is_alnum c.
Definition isValidHeaderName (headerName : jsstring) : bool :=
  negb (bool_decide (headerName = [])) && forallb is_token_unit headerName.

Definition isValidHeaderValue (headerValue : jsstring) : bool :=
  forallb (fun code => negb ((255 <? code) || ((0 <=? code) && (code <=? 8)) ||
                             ((10 <=? code) && (code <=? 31)) || (code =? 127))) headerValue.

Definition isLatin1 (value : jsstring) : bool := forallb (fun code => negb (255 <? code)) value.

(** The strings of a header value: one, or one per array entry. *)
Definition value_strings (value : jsval) : list jsstring :=
  match value with JArr l => map to_str l | _ => [to_str value] end.
(** [Array.isArray(value) ? values : values[0]] *)
Definition value_of_strings (value : jsval) (values : list jsstring) : jsval :=
  match value with
  | JArr _ => JArr (map JStr values)
  | _ => JStr (default [] (head values))
  end.

Definition is_nullish (v : jsval) : bool := match v with JUndef | JNull => true | _ => false end.

Section Headers.
Context {P : Platform}.

Definition validateLocalHeaders (headers : VerserHeaders) : result exn VerserHeaders :=
  fold_res (fun validatedHeaders '(name, value) =>
    if is_nullish value then Ok validatedHeaders
    else
      let values := value_strings value in
      let normalizedName := to_lower name in
      _ ← throw_if (negb (isValidHeaderName normalizedName))
            (terr (js "Invalid local HTTP header name: " ++ name));
      _ ← throw_if (mem_str normalizedName FORBIDDEN_HTTP1_HEADERS)
            (terr (js "Forbidden local HTTP header: " ++ normalizedName));
      _ ← throw_if (existsb (fun entry => negb (isValidHeaderValue entry)) values)
            (terr (js "Invalid local HTTP header value for " ++ name));
      Ok (obj_assign normalizedName (value_of_strings value values) validatedHeaders))
    [] headers.

Definition validateVerserStatusText (statusText : jsval) : result exn jsstring :=
  match statusText with
  | JStr s =>
      if (VERSER_RESPONSE_METADATA_MAX_STATUS_TEXT_BYTES <? byte_length s) ||
         negb (isValidHeaderValue s) || negb (isLatin1 s)
      then Throw (verr protocol_error "Invalid response metadata status text" [])
      else Ok s
  | _ => Throw (verr protocol_error "Invalid response metadata status text" [])
  end.

Definition validateRuntimeNeutralHeaders (headers : HeaderRecord) : result exn HeaderRecord :=
  fold_res (fun validatedHeaders '(headerName, headerValue) =>
    _ ← throw_if (negb (isValidHeaderName headerName))
          (terr (js "Invalid local HTTP header name: " ++ headerName));
    _ ← throw_if (negb (isValidHeaderValue headerValue))
          (terr (js "Invalid local HTTP header value for " ++ headerName));
    Ok (obj_assign headerName headerValue validatedHeaders))
    [] headers.

(** ** Normalisation *)
Definition flattenHeaderValue (value : jsval) : option jsstring :=
  match value with
  | JUndef | JNull => None
  | JArr l => Some (join [44] (map to_str l))
  | _ => Some (to_str value)
  end.

Definition assign_flattened (normalizedHeaders : HeaderRecord) (p : jsstring * jsval) : HeaderRecord :=
  match flattenHeaderValue p.2 with
  | Some flattenedValue => obj_assign (to_lower p.1) flattenedValue normalizedHeaders
  | None => normalizedHeaders
  end.

(** The [index += 2] loop: entries whose name is not a string are skipped. *)
Fixpoint array_header_pairs (l : list jsval) : list (jsstring * jsval) :=
  match l with
  | [] => []
  | [JStr name] => [(name, JUndef)]
  | [_] => []
  | JStr name :: value :: l => (name, value) :: array_header_pairs l
  | _ :: _ :: l => array_header_pairs l
  end.

Definition normalizeHeaders (headers : option VerserHeaderInput) : result exn HeaderRecord :=
  match headers with
  | None => Ok []
  | Some (HeaderArray l) =>
      validateRuntimeNeutralHeaders (fold_left assign_flattened (array_header_pairs l) [])
  | Some (HeaderIterable l) => validateRuntimeNeutralHeaders (fold_left assign_flattened l [])
  | Some (HeaderObject o) => validateRuntimeNeutralHeaders (fold_left assign_flattened o [])
  end.

(** [normalizeRequestHeaders] of verser-common; the guest's copy joins arrays
    with [", "] ([separator]). *)
Definition normalize_outgoing (separator : jsstring) (headers : VerserHeaders) : HeaderRecord :=
  fold_left (fun normalizedHeaders '(key, value) =>
    match value with
    | JStr s => obj_assign key s normalizedHeaders
    | JNum n => obj_assign key (num_to_string n) normalizedHeaders
    | JArr l => obj_assign key (join separator (map (fun e => if is_nullish e then [] else to_str e) l)) normalizedHeaders
    | _ => normalizedHeaders
    end) headers [].
Definition normalizeRequestHeaders (headers : option VerserHeaders) : HeaderRecord :=
  normalize_outgoing [44] (default [] headers).

Definition validateVerserHeaders (headers : VerserHeaders) : result exn VerserHeaders :=
  fold_res (fun validatedHeaders '(name, value) =>
    let normalizedName := to_lower name in
    _ ← throw_if (negb (isValidHttpHeaderName normalizedName))
          (verr protocol_error "Invalid header name" [(js "header", JStr name)]);
    _ ← throw_if (mem_str normalizedName FORBIDDEN_HTTP1_HEADERS)
          (verr protocol_error "Forbidden header for routed metadata" [(js "header", JStr normalizedName)]);
    let values := value_strings value in
    _ ← throw_if (existsb (fun entry => negb (isValidHeaderValue entry)) values)
          (verr protocol_error "Invalid header value" [(js "header", JStr normalizedName)]);
    Ok (obj_assign normalizedName (value_of_strings value values) validatedHeaders))
    [] headers.

(** [normalizeHeaderPairs], on the pairs the type admits.  A raw JSON pair is
    checked by [header_pair_of] first. *)
Definition normalize_header_pair (pair : VerserHeaderPair) : result exn VerserHeaderPair :=
  let '(name, value) := pair in
  let normalizedName := to_lower name in
  _ ← throw_if (negb (isValidHeaderName normalizedName))
        (verr_js protocol_error (js "Invalid header name: " ++ name) [(js "header", JStr name)]);
  _ ← throw_if (negb (isValidHeaderValue value))
        (verr_js protocol_error (js "Invalid header value for " ++ name) [(js "header", JStr name)]);
  Ok (normalizedName, value).

Definition header_pair_of (pair : jsval) : option VerserHeaderPair :=
  match pair with JArr [JStr name; JStr value] => Some (name, value) | _ => None end.

Definition normalizeHeaderPairs (headerPairs : list jsval) : result exn (list VerserHeaderPair) :=
  map_res (fun pair =>
    match header_pair_of pair with
    | None => Throw (verr protocol_error "Invalid header pair" [])
    | Some p => normalize_header_pair p
    end) headerPairs.

Definition lower_pair (p : VerserHeaderPair) : VerserHeaderPair := (to_lower p.1, p.2).

Definition pair_value (p : VerserHeaderPair) : jsval := JArr [JStr p.1; JStr p.2].

(** The tokens a [Connection] value nominates. *)
Definition connection_tokens_of (value : jsstring) : list jsstring :=
  filter (fun t => t <> []) (map (fun token => to_lower (trim token)) (split_on 44 value)).

Definition pair_connection_tokens (pairs : list VerserHeaderPair) : list jsstring :=
  concat (map (fun p => if str_eqb p.1 (js "connection") then connection_tokens_of p.2 else []) pairs).

(** A field that must not cross to HTTP/2. *)
Definition removed_field (connectionTokens : list jsstring) (name : jsstring) : bool :=
  mem_str name HOP_BY_HOP_HEADERS || mem_str name connectionTokens ||
  str_eqb name VERSER_RESPONSE_METADATA_HEADER.

Definition require_latin1 (p : VerserHeaderPair) : result exn unit :=
  throw_if (negb (isLatin1 p.2))
    (verr_js protocol_error (js "Invalid response header value for " ++ p.1) [(js "header", JStr p.1)]).

(** The argument as it arrives: pairs that were read from JSON may be malformed. *)
Definition sanitize_pair_values (headerPairs : list jsval) : result exn (list VerserHeaderPair) :=
  normalizedPairs ← normalizeHeaderPairs headerPairs;
  _ ← map_res require_latin1 normalizedPairs;
  let connectionTokens := pair_connection_tokens normalizedPairs in
  Ok (filter (fun p => removed_field connectionTokens p.1 = false) normalizedPairs).
Definition sanitizeHttp2ResponseHeaderPairs (headerPairs : list VerserHeaderPair) : result exn (list VerserHeaderPair) :=
  sanitize_pair_values (map pair_value headerPairs).

Definition record_connection_tokens (headers : VerserHeaders) : list jsstring :=
  concat (map (fun '(name, value) =>
    if str_eqb (to_lower name) (js "connection") && negb (is_nullish value)
    then connection_tokens_of (match value with JArr l => join [44] (map to_str l) | _ => to_str value end)
    else []) headers).

Definition sanitizeHttp2ResponseHeaders (headers : VerserHeaders) : HeaderRecord :=
  let connectionTokens := record_connection_tokens headers in
  fold_left (fun sanitized '(name, value) =>
    match flattenHeaderValue value with
    | None => sanitized
    | Some text =>
        if removed_field connectionTokens (to_lower name) then sanitized
        else obj_assign name text sanitized
    end) headers [].
End Headers.

(** * Theory *)
#[export] Hint Resolve ordered_nil : verser.

Lemma token_unit_ascii c : is_token_unit c = true -> is_ascii c = true.
Proof.
  unfold is_token_unit, token_punct, is_alnum, is_upper, is_lower, is_digit, is_ascii.
  intros [H|H]%orb_true_iff; [|lia]. apply mem_str_elem in H.
  assert (forallb (fun s => match s with [c] => (0 <=? c) && (c <? 128) | _ => true end)
            (map (fun c => [c]) (js "!#$%&'*+-.^_`|~")) = true) as Hall by reflexivity.
  apply Forall_forallb in Hall. rewrite Forall_forall in Hall. apply (Hall _ H).
Qed.

Lemma valid_name_ascii n : isValidHeaderName n = true -> all_ascii n = true.
Proof.
  unfold isValidHeaderName, all_ascii. intros [_ H]%andb_true_iff.
  apply Forall_forallb. apply Forall_forallb in H. eapply Forall_impl; [exact H|].
  intros c. apply token_unit_ascii.
Qed.

Lemma all_ascii_units s : all_ascii s = true -> wf_units s.
Proof.
  intros H%Forall_forallb. eapply Forall_impl; [exact H|]. unfold is_ascii, is_unit. intros c Hc.
  cbv beta in *. lia.
Qed.

Lemma valid_name_nonempty n : isValidHeaderName n = true -> n <> [].
Proof. unfold isValidHeaderName. intros [H _]%andb_true_iff. bools. done. Qed.

(** A header name in the form the normalisers produce. *)
Definition normal_name (n : jsstring) : Prop :=
  isValidHeaderName n = true /\ Forall (fun c => is_upper c = false) n.

Section HeadersTheory.
Context {P : Platform} {C : CaseMapping}.

Lemma normal_name_lower n : normal_name n -> to_lower n = n.
Proof. intros [Hv Hl]. apply to_lower_id; [by apply valid_name_ascii|done]. Qed.

Lemma lower_normal_name n : isValidHeaderName (to_lower n) = true -> normal_name (to_lower n).
Proof using C. split; [done|apply to_lower_not_upper]. Qed.

(** ** The validating copy is the identity *)
Lemma neutral_loop l acc :
  Forall (fun p => isValidHeaderName p.1 = true /\ isValidHeaderValue p.2 = true /\ p.1 <> js "__proto__") l ->
  ordered (acc ++ l) ->
  fold_res (fun validatedHeaders '(headerName, headerValue) =>
    _ ← throw_if (negb (isValidHeaderName headerName))
          (terr (js "Invalid local HTTP header name: " ++ headerName));
    _ ← throw_if (negb (isValidHeaderValue headerValue))
          (terr (js "Invalid local HTTP header value for " ++ headerName));
    Ok (obj_assign headerName headerValue validatedHeaders)) acc l = Ok (acc ++ l).
Proof.
  intros Hl. revert acc. induction Hl as [|[n v] l (Hn & Hv & Hp) Hl IH]; intros acc Ho; simpl in *.
  - by rewrite app_nil_r.
  - rewrite Hn, Hv. simpl. rewrite obj_assign_append; [|done|].
    + rewrite IH by (by rewrite <- app_assoc). by rewrite <- app_assoc.
    + unfold ordered in Ho. rewrite fmap_app in Ho. destruct (ordered_keys_app _ _ Ho) as (_ & _ & Hk).
      apply Forall_forallb, Forall_forall. intros k1 Hk1. apply Hk; [done|]. by left.
Qed.

Lemma validateRuntimeNeutralHeaders_Ok h r :
  ordered h -> js "__proto__" ∉ h.*1 ->
  validateRuntimeNeutralHeaders h = Ok r <->
  r = h /\ Forall (fun p => isValidHeaderName p.1 = true /\ isValidHeaderValue p.2 = true) h.
Proof.
  intros Ho Hp. split.
  - intros H. assert (Forall (fun p => isValidHeaderName p.1 = true /\ isValidHeaderValue p.2 = true) h) as Hall.
    { unfold validateRuntimeNeutralHeaders in H. revert H. generalize ([] : HeaderRecord). clear Ho Hp.
      induction h as [|[n v] h IH]; intros acc H; [constructor|]. simpl in H. res_inv H.
      bools. constructor; [done|]. by eapply IH. }
    split; [|done]. unfold validateRuntimeNeutralHeaders in H. rewrite neutral_loop in H; [by injection H|..|done].
    rewrite Forall_forall in *. intros [n v] Hin. destruct (Hall _ Hin). split_and!; [done..|].
    intros Hn. apply Hp. apply list_elem_of_fmap. exists (n, v). auto.
  - intros [-> Hall]. unfold validateRuntimeNeutralHeaders. rewrite neutral_loop; [done| |done].
    rewrite Forall_forall in *. intros [n v] Hin. destruct (Hall _ Hin). split_and!; [done..|].
    intros Hn. apply Hp. apply list_elem_of_fmap. exists (n, v). auto.
Qed.

(** ** Normalisation *)
Definition input_entries (h : VerserHeaderInput) : list (jsstring * jsval) :=
  match h with HeaderObject o => o | HeaderArray l => array_header_pairs l | HeaderIterable l => l end.

Definition flattened (h : VerserHeaderInput) : HeaderRecord := fold_left assign_flattened (input_entries h) [].

Lemma normalizeHeaders_unfold h : normalizeHeaders (Some h) = validateRuntimeNeutralHeaders (flattened h).
Proof. by destruct h. Qed.

Lemma assign_flattened_ordered l acc :
  ordered acc -> js "__proto__" ∉ acc.*1 ->
  ordered (fold_left assign_flattened l acc) /\ js "__proto__" ∉ (fold_left assign_flattened l acc).*1.
Proof.
  revert acc. induction l as [|[n v] l IH]; intros acc Ho Hp; [done|]. simpl. unfold assign_flattened at 2 4. simpl.
  destruct (flattenHeaderValue v) as [t|]; [|by apply IH]. apply IH; [by apply ordered_obj_assign|].
  intros Hin. by apply obj_assign_proto in Hin.
Qed.

Lemma assign_flattened_upper l acc :
  Forall (fun p : jsstring * jsstring => Forall (fun c => is_upper c = false) p.1) acc ->
  Forall (fun p : jsstring * jsstring => Forall (fun c => is_upper c = false) p.1) (fold_left assign_flattened l acc).
Proof using C.
  revert acc. induction l as [|[n v] l IH]; intros acc Ha; [done|]. simpl. apply IH.
  unfold assign_flattened. destruct (flattenHeaderValue _); [|done].
  apply obj_assign_Forall; [apply to_lower_not_upper|done].
Qed.

(** The value a name ends up with: the last one given for it. *)
Definition last_for (n : jsstring) (l : list (jsstring * jsval)) : option jsstring :=
  last (omap (fun p => if decide (to_lower p.1 = n) then flattenHeaderValue p.2 else None) l).

Lemma assign_flattened_get n l acc : n <> js "__proto__" ->
  map_get n (fold_left assign_flattened l acc) =
    match last_for n l with Some v => Some v | None => map_get n acc end.
Proof.
  intros Hn. unfold last_for. revert acc. induction l as [|[m v] l IH]; intros acc; [done|].
  cbn [fold_left omap list_omap]. rewrite IH. unfold assign_flattened. cbn [fst snd].
  destruct (flattenHeaderValue v) as [t|] eqn:Ev.
  - rewrite obj_get_assign. destruct (decide (to_lower m = n)) as [<-|Hne].
    + rewrite last_cons, decide_False, decide_True by done. by destruct (last _).
    + destruct (last _); [done|]. case_decide; [done|]. by rewrite decide_False.
  - by case_decide.
Qed.

(** A header input of any of the three shapes normalises exactly when all
    its flattened names and values are valid; the result then holds, under each
    lower-case name, the last value given for it. *)
Theorem normalizeHeaders_correct h :
  (forall r, normalizeHeaders (Some h) = Ok r <->
     r = flattened h /\
     Forall (fun p => normal_name p.1 /\ isValidHeaderValue p.2 = true) (flattened h)) /\
  forall n, n <> js "__proto__" -> map_get n (flattened h) = last_for n (input_entries h).
Proof using C.
  split.
  - intros r. rewrite normalizeHeaders_unfold.
    destruct (assign_flattened_ordered (input_entries h) []) as [Ho Hp]; [done|apply not_elem_of_nil|].
    rewrite validateRuntimeNeutralHeaders_Ok by done. apply and_iff_compat_l.
    pose proof (assign_flattened_upper (input_entries h) [] ltac:(constructor)) as Hu.
    unfold normal_name, flattened in *. rewrite !Forall_forall in *. naive_solver.
  - intros n Hn. unfold flattened. rewrite assign_flattened_get by done. by destruct (last_for _ _).
Qed.

(** ** Header pairs *)
Lemma header_pair_of_value p : header_pair_of (pair_value p) = Some p.
Proof. by destruct p. Qed.

Lemma normalizeHeaderPairs_values l :
  normalizeHeaderPairs (map pair_value l) = map_res normalize_header_pair l.
Proof.
  unfold normalizeHeaderPairs. induction l as [|p l IH]; [done|]. cbn [map map_res].
  by rewrite header_pair_of_value, IH.
Qed.

Definition normal_pair (p : VerserHeaderPair) : Prop := normal_name p.1 /\ isValidHeaderValue p.2 = true.

Lemma normalize_header_pair_Ok p q : normalize_header_pair p = Ok q ->
  q = lower_pair p /\ normal_pair q.
Proof using C.
  destruct p as [n v]. simpl. intros H. res_inv H. bools. split; [done|]. split; [|done].
  by apply lower_normal_name.
Qed.

Lemma normalize_header_pair_id p : normal_pair p -> normalize_header_pair p = Ok p.
Proof.
  destruct p as [n v]. intros [Hn Hv]. simpl in *. rewrite (normal_name_lower n Hn).
  destruct Hn as [-> _]. by rewrite Hv.
Qed.

Lemma normalizeHeaderPairs_Ok l k : map_res normalize_header_pair l = Ok k ->
  k = map lower_pair l /\ Forall normal_pair k.
Proof using C.
  intros H%map_res_Ok. induction H as [|p q l k Hq Hl [IH1 IH2]]; [done|].
  apply normalize_header_pair_Ok in Hq as [-> Hn]. simpl. split; [by f_equal|]. by constructor.
Qed.

Lemma normalize_pairs_id l : Forall normal_pair l -> map_res normalize_header_pair l = Ok l.
Proof.
  intros H. apply map_res_Ok. induction H; constructor; [by apply normalize_header_pair_id|done].
Qed.

Lemma latin1_check (l : list VerserHeaderPair) :
  (exists u, map_res require_latin1 l = Ok u) <-> Forall (fun p => isLatin1 p.2 = true) l.
Proof.
  induction l as [|p l [IH1 IH2]]; simpl.
  - split; [by constructor|]. by eexists.
  - split.
    + intros [u H]. apply bind_Ok_inv in H as (a & Hp%throw_if_Ok_inv & H). res_inv H. bools. constructor; [done|]. apply IH1. eauto.
    + intros [Hp Hl]%Forall_cons. destruct (IH2 Hl) as [u ->]. unfold require_latin1. rewrite Hp. simpl. eauto.
Qed.

Lemma valid_value_latin1 v : isValidHeaderValue v = true -> isLatin1 v = true.
Proof.
  unfold isValidHeaderValue, isLatin1. intros H%Forall_forallb. apply Forall_forallb.
  eapply Forall_impl; [exact H|]. intros c Hc. cbv beta in *. lia.
Qed.

Lemma sanitize_pairs_Ok l out :
  sanitizeHttp2ResponseHeaderPairs l = Ok out <->
  exists k, map_res normalize_header_pair l = Ok k /\
    out = filter (fun p => removed_field (pair_connection_tokens k) p.1 = false) k.
Proof using C.
  unfold sanitizeHttp2ResponseHeaderPairs, sanitize_pair_values. rewrite normalizeHeaderPairs_values.
  destruct (map_res normalize_header_pair l) as [k|e] eqn:E; simpl; [|naive_solver].
  destruct (normalizeHeaderPairs_Ok _ _ E) as [_ Hk].
  assert (Forall (fun p : VerserHeaderPair => isLatin1 p.2 = true) k) as Hl.
  { eapply Forall_impl; [exact Hk|]. intros p [_ Hv]. by apply valid_value_latin1. }
  apply latin1_check in Hl as [u ->]. simpl. naive_solver.
Qed.

(** What sanitising leaves nominates nothing. *)
Lemma sanitized_no_tokens toks (k : list VerserHeaderPair) :
  pair_connection_tokens (filter (fun p => removed_field toks p.1 = false) k) = [].
Proof.
  unfold pair_connection_tokens. induction k as [|p k IH]; [done|]. rewrite filter_cons.
  case_decide as Hp; [|done]. simpl.
  destruct (str_eqb p.1 (js "connection")) eqn:E; [|exact IH].
  apply str_eqb_eq in E. rewrite E in Hp. unfold removed_field in Hp. by vm_compute in Hp.
Qed.

Lemma pair_tokens_elem (k : list VerserHeaderPair) t :
  t ∈ pair_connection_tokens k <-> exists v, (js "connection", v) ∈ k /\ t ∈ connection_tokens_of v.
Proof.
  unfold pair_connection_tokens. rewrite list_elem_of_In, in_concat. setoid_rewrite in_map_iff.
  setoid_rewrite <- list_elem_of_In. split.
  - intros (x & ([n v] & <- & Hin) & Ht). simpl in Ht.
    destruct (str_eqb n (js "connection")) eqn:E; [|by apply elem_of_nil in Ht].
    apply str_eqb_eq in E as ->. eauto.
  - intros (v & Hin & Ht). exists (connection_tokens_of v). split; [|done]. by exists (js "connection", v).
Qed.

Lemma removed_field_false toks n : removed_field toks n = false <->
  n ∉ HOP_BY_HOP_HEADERS /\ n <> VERSER_RESPONSE_METADATA_HEADER /\ n ∉ toks.
Proof. unfold removed_field, mem_str. rewrite !orb_false_iff, !bool_decide_eq_false, str_eqb_neq. tauto. Qed.

Lemma removed_field_nil toks n : removed_field toks n = false -> removed_field [] n = false.
Proof. rewrite !removed_field_false. intros (? & ? & _). split_and!; [done..|apply not_elem_of_nil]. Qed.

(** Pairs that sanitise are pairs. *)
Lemma sanitize_values_pairs l out : sanitize_pair_values l = Ok out ->
  exists k, l = map pair_value k /\ sanitizeHttp2ResponseHeaderPairs k = Ok out.
Proof.
  intros H. assert (exists k, l = map pair_value k) as [k ->]; [|by exists k].
  unfold sanitize_pair_values in H. apply bind_Ok_inv in H as (n & Hn & _).
  unfold normalizeHeaderPairs in Hn. apply map_res_Ok in Hn. induction Hn as [|v q l n Hv _ [k ->]]; [by exists []|].
  destruct v as [| | | | |l'|]; try done. destruct l' as [|[| | | |a| |] [|[| | | |b| |] [|? ?]]]; try done.
  by exists ((a, b) :: k).
Qed.

Lemma sanitize_pairs_facts l out : sanitizeHttp2ResponseHeaderPairs l = Ok out ->
  sublist out (map lower_pair l) /\ Forall normal_pair out /\
  sanitizeHttp2ResponseHeaderPairs out = Ok out.
Proof using C.
  intros (k & Hk & ->)%sanitize_pairs_Ok. destruct (normalizeHeaderPairs_Ok _ _ Hk) as [-> Hn].
  split; [apply sublist_filter|]. 
  assert (Forall normal_pair (filter (fun p => removed_field (pair_connection_tokens (map lower_pair l)) p.1 = false)
    (map lower_pair l))) as Hno.
  { apply Forall_forall. intros p [_ Hin]%list_elem_of_filter. by eapply Forall_forall. }
  split; [done|]. apply sanitize_pairs_Ok. eexists. split; [by apply normalize_pairs_id|].
  rewrite sanitized_no_tokens. rewrite list_filter_filter. apply list_filter_iff.
  intros p. split; [|tauto]. intros Hp. split; [|done]. by eapply removed_field_nil.
Qed.

(** Sanitising response header pairs fails exactly when a pair is not a
    valid header; otherwise it keeps, in order and with lower-case names, the
    pairs that are neither hop-by-hop, nor nominated by a [Connection] field,
    nor Verser's own metadata header, and sanitising again changes nothing. *)
Theorem sanitize_pairs_correct l :
  match sanitizeHttp2ResponseHeaderPairs l with
  | Ok out =>
      let normalized := map lower_pair l in
      sublist out normalized /\
      (forall p, p ∈ out <-> p ∈ normalized /\
         p.1 ∉ HOP_BY_HOP_HEADERS /\ p.1 <> VERSER_RESPONSE_METADATA_HEADER /\
         (forall v, (js "connection", v) ∈ normalized -> p.1 ∉ connection_tokens_of v)) /\
      Forall normal_pair out /\
      sanitizeHttp2ResponseHeaderPairs out = Ok out
  | Throw _ =>
      exists p, p ∈ l /\ (isValidHeaderName (to_lower p.1) = false \/ isValidHeaderValue p.2 = false)
  end.
Proof using C.
  destruct (sanitizeHttp2ResponseHeaderPairs l) as [out|e] eqn:E.
  - destruct (sanitize_pairs_facts _ _ E) as (Hs & Hn & Hi). split_and!; try done.
    apply sanitize_pairs_Ok in E as (k & Hk & ->). destruct (normalizeHeaderPairs_Ok _ _ Hk) as [-> _].
    intros p. rewrite list_elem_of_filter, removed_field_false.
    setoid_rewrite pair_tokens_elem. naive_solver.
  - unfold sanitizeHttp2ResponseHeaderPairs, sanitize_pair_values in E. rewrite normalizeHeaderPairs_values in E.
    destruct (map_res normalize_header_pair l) as [k|e'] eqn:Hk; simpl in E.
    + destruct (normalizeHeaderPairs_Ok _ _ Hk) as [_ Hn]. destruct (proj2 (latin1_check k)) as [u Hu]; [|by rewrite Hu in E].
      eapply Forall_impl; [exact Hn|]. intros p [_ Hv]. by apply valid_value_latin1.
    + apply map_res_Throw in Hk as ([n v] & Hin & Hp). exists (n, v). split; [done|]. simpl in Hp |- *.
      destruct (isValidHeaderName (to_lower n)); [right|by left]. by destruct (isValidHeaderValue v).
Qed.

(** ** Header records *)
Lemma record_tokens_elem (headers : VerserHeaders) t :
  t ∈ record_connection_tokens headers <->
  exists n v text, (n, v) ∈ headers /\ to_lower n = js "connection" /\
    flattenHeaderValue v = Some text /\ t ∈ connection_tokens_of text.
Proof.
  unfold record_connection_tokens. rewrite list_elem_of_In, in_concat. setoid_rewrite in_map_iff.
  setoid_rewrite <- list_elem_of_In. split.
  - intros (x & ([n v] & <- & Hin) & Ht).
    destruct (str_eqb (to_lower n) (js "connection")) eqn:E; [|by apply elem_of_nil in Ht].
    apply str_eqb_eq in E. destruct v; simpl in Ht; try (by apply elem_of_nil in Ht); by eexists n, _, _.
  - intros (n & v & text & Hin & Hn & Hf & Ht). exists (connection_tokens_of text). split; [|done].
    exists (n, v). split; [|done]. rewrite Hn, str_eqb_refl. destruct v; simplify_eq/=; done.
Qed.

(** A sanitised response header record has no hop-by-hop field, no field a
    [Connection] header nominates and not the metadata header, in any letter
    case; every other field keeps its flattened value. *)
Theorem sanitize_record_correct headers n :
  map_wf headers -> n <> js "__proto__" ->
  map_get n (sanitizeHttp2ResponseHeaders headers) =
    if decide (to_lower n ∈ HOP_BY_HOP_HEADERS \/ to_lower n = VERSER_RESPONSE_METADATA_HEADER \/
               to_lower n ∈ record_connection_tokens headers) then None
    else v ← map_get n headers; flattenHeaderValue v.
Proof.
  intros Hwf Hn. unfold sanitizeHttp2ResponseHeaders. generalize (record_connection_tokens headers). intros toks.
  rewrite (assign_fold_get (fun m v => if removed_field toks (to_lower m) then None else flattenHeaderValue v)); [|..|done|done].
  - destruct (removed_field toks (to_lower n)) eqn:E.
    + rewrite decide_True; [by destruct (map_get n headers)|].
      apply not_false_iff_true in E. rewrite removed_field_false in E.
      destruct (decide (to_lower n ∈ HOP_BY_HOP_HEADERS)); [by left|].
      destruct (decide (to_lower n = VERSER_RESPONSE_METADATA_HEADER)); [by right; left|].
      destruct (decide (to_lower n ∈ toks)); [by right; right|]. tauto.
    + pose proof (proj1 (removed_field_false _ _) E) as Hr. rewrite decide_False by tauto. destruct (map_get n headers) as [v|]; cbn [mbind option_bind]; [|done]. by destruct (flattenHeaderValue v).
  - intros acc m v. by destruct (flattenHeaderValue v), (removed_field toks (to_lower m)).
Qed.

(** ** Envelope headers *)
Lemma value_strings_valid v : existsb (fun entry => negb (isValidHeaderValue entry)) (value_strings v) = false ->
  Forall (fun s => isValidHeaderValue s = true) (value_strings v).
Proof.
  intros H. apply Forall_forall. intros x Hx. destruct (isValidHeaderValue x) eqn:E; [done|].
  assert (existsb (fun entry => negb (isValidHeaderValue entry)) (value_strings v) = true); [|congruence].
  apply existsb_exists. exists x. by rewrite <- list_elem_of_In, E.
Qed.

(** The form of a validated record: every name a lower-case token that may
    cross, every value a string, or an array of strings, of valid units. *)
Definition routed_value (v : jsval) : Prop :=
  match v with
  | JStr s => isValidHeaderValue s = true
  | JArr l => Forall (fun e => exists s, e = JStr s /\ isValidHeaderValue s = true) l
  | _ => False
  end.
Definition routed_header (p : jsstring * jsval) : Prop :=
  isValidHeaderName p.1 = true /\ Forall (fun c => is_upper c = false) p.1 /\
  p.1 ∉ FORBIDDEN_HTTP1_HEADERS /\ routed_value p.2.

Lemma value_of_strings_routed v : Forall (fun s => isValidHeaderValue s = true) (value_strings v) ->
  routed_value (value_of_strings v (value_strings v)).
Proof.
  destruct v; simpl; try (by intros [? _]%Forall_cons).
  intros H. apply Forall_fmap. eapply Forall_impl; [exact H|]. simpl. eauto.
Qed.

Lemma http_name_valid n : isValidHttpHeaderName n = true -> isValidHeaderName n = true.
Proof.
  unfold isValidHttpHeaderName, isValidHeaderName. intros [-> H]%andb_true_iff. simpl.
  apply Forall_forallb. apply Forall_forallb in H. eapply Forall_impl; [exact H|].
  intros c Hc. cbv beta in *. unfold is_token_unit, is_alnum. 
  destruct (token_punct c), (is_digit c), (is_lower c), (is_upper c); done.
Qed.

(** Headers admitted into a routed envelope, or through the local API
    boundary, have lower-case token names, none of them forbidden, and string
    values without control units. *)
Theorem validated_headers_safe headers r :
  validateVerserHeaders headers = Ok r \/ validateLocalHeaders headers = Ok r ->
  ordered r /\ Forall routed_header r.
Proof using C.
  intros H.
  assert (forall name value (acc : VerserHeaders), isValidHeaderName (to_lower name) = true ->
    mem_str (to_lower name) FORBIDDEN_HTTP1_HEADERS = false ->
    existsb (fun entry => negb (isValidHeaderValue entry)) (value_strings value) = false ->
    ordered acc /\ Forall routed_header acc ->
    ordered (obj_assign (to_lower name) (value_of_strings value (value_strings value)) acc) /\
    Forall routed_header (obj_assign (to_lower name) (value_of_strings value (value_strings value)) acc)) as Hstep.
  { intros name value acc Hn Hf Hv [Ho Ha]. split; [by apply ordered_obj_assign|].
    apply obj_assign_Forall; [|done]. split_and!; simpl; [done|apply to_lower_not_upper| |].
    - by apply bool_decide_eq_false in Hf.
    - by apply value_of_strings_routed, value_strings_valid. }
  destruct H as [H|H]; revert H; apply (fold_res_inv (fun acc : VerserHeaders => ordered acc /\ Forall routed_header acc));
    try (by split; constructor); intros acc [name value] acc' Ha _ H; cbv beta match in H.
  - res_inv H. bools. apply Hstep; try done. by apply http_name_valid.
  - destruct (is_nullish value); [by injection H as <-|]. res_inv H. bools. by apply Hstep.
Qed.
End HeadersTheory.

(** ** Witnesses *)
Definition sample_headers : VerserHeaders :=
  [(js "Connection", JStr (js "close, X-Drop")); (js "X-Keep", JArr [JStr (js "a"); JNum (num_int 2)]);
   (js "x-drop", JStr (js "1"))].
Definition sample_pairs : list VerserHeaderPair :=
  [(js "Connection", js "close, X-Drop"); (js "X-Keep", js "a"); (js "x-drop", js "1"); (js "X-Keep", js "b")].

Lemma normalizeHeaders_correct_witness :
  exists r, normalizeHeaders (P := ascii_platform) (Some (HeaderObject sample_headers)) = Ok r /\
    map_get (js "x-keep") r = Some (js "a,2").
Proof.
  destruct (normalizeHeaders_correct (P := ascii_platform) (HeaderObject sample_headers)) as [H1 H2].
  eexists. split; [apply (proj2 (H1 _))|].
  - split; [reflexivity|]. apply Forall_forall. intros p Hp. vm_compute in Hp.
    repeat (apply elem_of_cons in Hp as [->|Hp]; [split; [split; [reflexivity|]|reflexivity]; repeat constructor|]).
    by apply elem_of_nil in Hp.
  - rewrite H2; [reflexivity|by vm_compute].
Defined.

Lemma sanitize_pairs_correct_witness :
  sanitizeHttp2ResponseHeaderPairs (P := ascii_platform) sample_pairs = Ok [(js "x-keep", js "a"); (js "x-keep", js "b")] /\
  sanitizeHttp2ResponseHeaderPairs (P := ascii_platform) [(js "x-keep", js "a"); (js "x-keep", js "b")] =
    Ok [(js "x-keep", js "a"); (js "x-keep", js "b")].
Proof.
  pose proof (sanitize_pairs_correct (P := ascii_platform) sample_pairs) as H.
  assert (sanitizeHttp2ResponseHeaderPairs (P := ascii_platform) sample_pairs =
    Ok [(js "x-keep", js "a"); (js "x-keep", js "b")]) as E by (vm_compute; reflexivity).
  rewrite E in H. destruct H as (_ & _ & _ & H). by split.
Defined.

Lemma sanitize_record_correct_witness :
  map_get (js "X-Keep") (sanitizeHttp2ResponseHeaders (P := ascii_platform) sample_headers) = Some (js "a,2") /\
  map_get (js "x-drop") (sanitizeHttp2ResponseHeaders (P := ascii_platform) sample_headers) = None.
Proof.
  assert (map_wf sample_headers) as Hwf by (apply ordered_NoDup; reflexivity).
  split.
  - rewrite (sanitize_record_correct (P := ascii_platform) sample_headers (js "X-Keep")); [reflexivity|done|by vm_compute].
  - rewrite (sanitize_record_correct (P := ascii_platform) sample_headers (js "x-drop")); [reflexivity|done|by vm_compute].
Defined.

Lemma validated_headers_safe_witness :
  exists r, validateVerserHeaders (P := ascii_platform) [(js "X-A", JArr [JStr (js "1")])] = Ok r /\ Forall routed_header r.
Proof.
  destruct (validated_headers_safe (P := ascii_platform) [(js "X-A", JArr [JStr (js "1")])]
    [(js "x-a", JArr [JStr (js "1")])]) as [_ H].
  - left. vm_compute. reflexivity.
  - eexists. split; [vm_compute; reflexivity|exact H].
Defined.
