(* ===== verification/ResponseMetadata.v ===== *)
(** Header maps and response metadata on the wire (verser-common
    [header-serialization.ts]) and the guest's header projections (guest-node
    [header-utils.ts]). *)
From S2P Require Import Prelude JsNum Utf8 Json Errors Headers.

Definition VERSER_RESPONSE_METADATA_VERSION : Z := 1.
Definition VERSER_RESPONSE_METADATA_MAX_BYTES : Z := 4096.
Definition VERSER_RESPONSE_METADATA_MAX_HEADER_PAIRS : Z := 64.

Record VerserResponseMetadata := {
  rm_requestId : jsstring;
  rm_statusCode : jsnum;
  rm_statusText : option jsstring;
  rm_headers : list VerserHeaderPair;
}.

Inductive VerserResponseClassification : Type :=
  | application_response (metadata : option VerserResponseMetadata)
  | transport_error.

Definition protocolError (message : string) : exn := verr protocol_error message [].
#[global] Arguments protocolError message%_string.

Definition isWellFormedUnicode (value : jsstring) : bool := well_formed_utf16 value.

Definition assertMetadataByteLength (value : jsstring) : result exn unit :=
  throw_if (VERSER_RESPONSE_METADATA_MAX_BYTES <? byte_length value)
    (protocolError "Response metadata exceeds maximum encoded bytes").

(** ** Flattening *)
Definition flattenVerserHeaders (headers : VerserHeaders) : HeaderRecord :=
  fold_left (fun flattenedHeaders '(name, value) =>
    obj_assign name (match value with
                     | JStr s => s
                     | JArr l => join [44] (map (fun e => if is_nullish e then [] else to_str e) l)
                     | v => to_str v
                     end) flattenedHeaders) headers [].

Definition header_map_value (name : jsstring) (rawValue : jsval) : result exn jsval :=
  let invalid := verr_js protocol_error (js "Invalid header value for " ++ name) [] in
  match rawValue with
  | JStr s => if isValidHeaderValue s then Ok rawValue else Throw invalid
  | JArr l =>
      if bool_decide (length l = 0%nat) ||
         existsb (fun entry => match entry with JStr s => negb (isValidHeaderValue s) | _ => true end) l
      then Throw invalid else Ok rawValue
  | _ => Throw invalid
  end.

Definition decodeHeaderMap (value : jsstring) : result exn VerserHeaders :=
  match json_parse value with
  | None => Throw (protocolError "Invalid request header map JSON")
  | Some (JObj parsed) =>
      entries ← map_res (fun '(name, rawValue) =>
        _ ← throw_if (negb (isValidHeaderName name)) (verr_js protocol_error (js "Invalid header name: " ++ name) []);
        v ← header_map_value name rawValue;
        Ok (name, v)) parsed;
      Ok (obj_of_entries entries)
  | Some _ => Throw (protocolError "Request header map must be an object")
  end.

Section Metadata.
Context {P : Platform}.

Definition flattenVerserHeaderPairs (headerPairs : list VerserHeaderPair) : result exn HeaderRecord :=
  l ← normalizeHeaderPairs (map pair_value headerPairs); Ok (obj_of_entries l).

(** ** Response metadata *)
Definition allowedKeys : list jsstring :=
  [js "version"; js "requestId"; js "statusCode"; js "statusText"; js "headers"].

Definition metadata_request_id (v : jsval) : result exn jsstring :=
  match v with
  | JStr s =>
      if negb (isWellFormedUnicode s) || bool_decide (trim s = []) then
        Throw (protocolError "Response metadata requestId must be a non-empty string")
      else Ok s
  | _ => Throw (protocolError "Response metadata requestId must be a non-empty string")
  end.

Definition metadata_status_code (v : jsval) : result exn jsnum :=
  let e := protocolError "Response metadata statusCode must be a final status (200-599)" in
  match v with
  | JNum n => catch (requireFinalResponseStatusCode n) (fun _ => Throw e)
  | _ => Throw e
  end.

Definition metadata_status_text (v : jsval) : result exn (option jsstring) :=
  let e := protocolError "Invalid response metadata status text" in
  match v with
  | JUndef => Ok None
  | JStr s =>
      if negb (isWellFormedUnicode s) then Throw e
      else catch (Some <$> validateVerserStatusText v) (fun _ => Throw e)
  | _ => Throw e
  end.

Definition metadata_raw_pair (pair : jsval) : result exn VerserHeaderPair :=
  match header_pair_of pair with
  | Some (name, value) =>
      if isWellFormedUnicode value then Ok (name, value)
      else Throw (protocolError "Invalid response metadata header pair")
  | None => Throw (protocolError "Invalid response metadata header pair")
  end.

Definition metadata_header_pairs (v : jsval) : result exn (list VerserHeaderPair) :=
  match v with
  | JArr l =>
      if VERSER_RESPONSE_METADATA_MAX_HEADER_PAIRS <? len l then
        Throw (protocolError "Invalid response metadata header pairs")
      else
        rawPairs ← map_res metadata_raw_pair l;
        catch (normalizeHeaderPairs (map pair_value rawPairs))
          (fun _ => Throw (protocolError "Invalid response metadata header pair"))
  | _ => Throw (protocolError "Invalid response metadata header pairs")
  end.

Definition validateResponseMetadata (value : jsval) (sanitize : bool) : result exn VerserResponseMetadata :=
  match value with
  | JObj record =>
      _ ← throw_if (existsb (fun key => negb (mem_str key allowedKeys)) record.*1)
            (protocolError "Response metadata has unknown fields");
      _ ← throw_if (match prop (js "version") record with
                    | JNum n => negb (num_eqb n (num_int VERSER_RESPONSE_METADATA_VERSION))
                    | _ => true
                    end) (protocolError "Unsupported response metadata version");
      requestId ← metadata_request_id (prop (js "requestId") record);
      statusCode ← metadata_status_code (prop (js "statusCode") record);
      statusText ← metadata_status_text (prop (js "statusText") record);
      normalizedHeaders ← metadata_header_pairs (prop (js "headers") record);
      sanitizedHeaders ← sanitizeHttp2ResponseHeaderPairs normalizedHeaders;
      _ ← throw_if (negb sanitize && negb (len sanitizedHeaders =? len normalizedHeaders))
            (protocolError "Response metadata contains forbidden header pair");
      Ok {| rm_requestId := requestId; rm_statusCode := statusCode; rm_statusText := statusText;
            rm_headers := if sanitize then sanitizedHeaders else normalizedHeaders |}
  | _ => Throw (protocolError "Response metadata must be an object")
  end.

(** The object the validator returns, in its property order. *)
Definition metadata_json (m : VerserResponseMetadata) : jsval :=
  JObj ([(js "version", JNum (num_int VERSER_RESPONSE_METADATA_VERSION));
         (js "requestId", JStr (rm_requestId m));
         (js "statusCode", JNum (rm_statusCode m))] ++
        match rm_statusText m with Some t => [(js "statusText", JStr t)] | None => [] end ++
        [(js "headers", JArr (map pair_value (rm_headers m)))]).

Definition encodeVerserResponseMetadata (metadata : jsval) : result exn jsstring :=
  validated ← validateResponseMetadata metadata true;
  let encoded := json_text (metadata_json validated) in
  _ ← assertMetadataByteLength encoded;
  Ok encoded.

Definition decodeVerserResponseMetadata (value : jsstring) : result exn VerserResponseMetadata :=
  _ ← assertMetadataByteLength value;
  match json_parse value with
  | None => Throw (protocolError "Invalid response metadata JSON")
  | Some parsed => validateResponseMetadata parsed false
  end.

Definition classifyVerserResponseMetadata (outerStatusCode : Z) (expectedRequestId : jsstring)
    (metadataValues : option (list jsstring)) : result exn VerserResponseClassification :=
  match metadataValues with
  | None | Some [] => Ok (if outerStatusCode <? 400 then application_response None else transport_error)
  | Some [value] =>
      metadata ← decodeVerserResponseMetadata value;
      _ ← throw_if (negb (str_eqb (rm_requestId metadata) expectedRequestId))
            (protocolError "Response metadata requestId mismatch");
      _ ← throw_if (negb (num_eqb (rm_statusCode metadata) (num_int outerStatusCode)))
            (protocolError "Response metadata statusCode mismatch");
      Ok (application_response (Some metadata))
  | Some _ => Throw (protocolError "Response metadata header must occur once")
  end.
End Metadata.

(** ** The guest's projections ([header-utils.ts]) *)
Definition guest_normalizeRequestHeaders (headers : option VerserHeaders) : HeaderRecord :=
  normalize_outgoing (js ", ") (default [] headers).

Definition toHeaderPairs (headers : HeaderRecord) (headerPairs : option (list VerserHeaderPair)) : list VerserHeaderPair :=
  match headerPairs with Some l => l | None => headers end.

(** [Buffer.from(s, 'latin1')] keeps the low byte of each unit. *)
Definition latin1_bytes (s : jsstring) : bytes := map (fun c => Z.land c 255) s.
Definition toRawHeaderList (headers : HeaderRecord) (headerPairs : option (list VerserHeaderPair)) : list bytes :=
  concat (map (fun '(name, value) => [latin1_bytes name; latin1_bytes value]) (toHeaderPairs headers headerPairs)).

(** The null-prototype object: every name is an own property. *)
Definition toIncomingHeaders (headers : HeaderRecord) (headerPairs : option (list VerserHeaderPair)) : VerserHeaders :=
  fold_left (fun incoming '(name, value) =>
    obj_set name (match prop name incoming with
                  | JUndef => JStr value
                  | JArr l => JArr (l ++ [JStr value])
                  | existing => JArr [existing; JStr value]
                  end) incoming) (toHeaderPairs headers headerPairs) [].

(** * Theory *)
Lemma latin1_well_formed v : isLatin1 v = true -> well_formed_utf16 v = true.
Proof.
  unfold isLatin1. induction v as [|c v IH]; [done|]. cbn [forallb well_formed_utf16].
  intros [Hc Hv]%andb_true_iff. assert (is_high c = false) as -> by (unfold is_high; lia).
  assert (is_low c = false) as -> by (unfold is_low; lia). auto.
Qed.

(** The strings are strings of code units. *)
Definition metadata_units (m : VerserResponseMetadata) : Prop :=
  wf_units (rm_requestId m) /\ (forall t, rm_statusText m = Some t -> wf_units t) /\
  Forall (fun p => wf_units p.2) (rm_headers m).

Section MetadataTheory.
Context {P : Platform} {C : CaseMapping}.

(** What a validated metadata record satisfies. *)
Record metadata_ok (m : VerserResponseMetadata) : Prop := {
  ok_id_wf : well_formed_utf16 (rm_requestId m) = true;
  ok_id_nonblank : trim (rm_requestId m) <> [];
  ok_status : exists z, rm_statusCode m = num_int z /\ 200 <= z <= 599;
  ok_text : forall t, rm_statusText m = Some t ->
    byte_length t <= VERSER_RESPONSE_METADATA_MAX_STATUS_TEXT_BYTES /\ isValidHeaderValue t = true;
  ok_count : len (rm_headers m) <= VERSER_RESPONSE_METADATA_MAX_HEADER_PAIRS;
  ok_pairs : Forall normal_pair (rm_headers m);
  ok_sanitized : sanitizeHttp2ResponseHeaderPairs (rm_headers m) = Ok (rm_headers m);
}.

Lemma metadata_request_id_Ok v s : metadata_request_id v = Ok s <->
  v = JStr s /\ well_formed_utf16 s = true /\ trim s <> [].
Proof.
  unfold metadata_request_id, isWellFormedUnicode. split.
  - destruct v as [| | | |t| |]; try done. destruct (well_formed_utf16 t) eqn:Ew; [|done]. simpl.
    destruct (bool_decide_reflect (trim t = [])); naive_solver.
  - intros (-> & -> & Ht). simpl. by rewrite bool_decide_false.
Qed.

Lemma metadata_status_code_Ok v n : metadata_status_code v = Ok n <->
  v = JNum n /\ exists z, n = num_int z /\ 200 <= z <= 599.
Proof.
  unfold metadata_status_code, requireFinalResponseStatusCode. split.
  - destruct v as [| | |k| | |]; try done. intros [H|(e & _ & ?)]%catch_Ok_inv; [|done].
    apply requireStatusInRange_Ok in H. naive_solver.
  - intros (-> & z & -> & Hz).
    by rewrite (proj2 (requireStatusInRange_Ok 200 _ (num_int z) (num_int z))) by eauto.
Qed.

Lemma validateVerserStatusText_Ok s t : validateVerserStatusText (JStr s) = Ok t <->
  t = s /\ byte_length s <= VERSER_RESPONSE_METADATA_MAX_STATUS_TEXT_BYTES /\ isValidHeaderValue s = true.
Proof.
  unfold validateVerserStatusText. split.
  - destruct (_ || _) eqn:E; [done|]. intros [= <-]. bools. split_and!; [done|lia|done].
  - intros (-> & Hb & Hv). rewrite Hv, (valid_value_latin1 _ Hv).
    by rewrite (proj2 (Z.ltb_ge _ _)) by done.
Qed.

Lemma metadata_status_text_Ok v o : metadata_status_text v = Ok o <->
  v = match o with Some t => JStr t | None => JUndef end /\
  forall t, o = Some t -> byte_length t <= VERSER_RESPONSE_METADATA_MAX_STATUS_TEXT_BYTES /\ isValidHeaderValue t = true.
Proof.
  unfold metadata_status_text, isWellFormedUnicode. split.
  - destruct v as [| | | |s| |]; try done; [intros [= <-]; by split|].
    destruct (well_formed_utf16 s); [|done]. simpl. intros [H|(e & _ & ?)]%catch_Ok_inv; [|done].
    apply fmap_Ok_inv in H as (t & Ht & <-). apply validateVerserStatusText_Ok in Ht as (-> & Hb & Hv).
    split; [done|]. by intros t [= <-].
  - intros [-> Ho]. destruct o as [t|]; [|done]. destruct (Ho t eq_refl) as [Hb Hv].
    rewrite (latin1_well_formed t) by (by apply valid_value_latin1). cbn [negb].
    by rewrite (proj2 (validateVerserStatusText_Ok t t)) by done.
Qed.

Lemma metadata_header_pairs_Ok v k : metadata_header_pairs v = Ok k ->
  Forall normal_pair k /\ len k <= VERSER_RESPONSE_METADATA_MAX_HEADER_PAIRS.
Proof using C.
  unfold metadata_header_pairs. destruct v as [| | | | |l|]; try done.
  destruct (Z.ltb_spec VERSER_RESPONSE_METADATA_MAX_HEADER_PAIRS (len l)) as [|Hlen]; [done|].
  intros (raw & Hraw & H)%bind_Ok_inv. apply catch_Ok_inv in H as [H|(e & _ & ?)]; [|done].
  rewrite normalizeHeaderPairs_values in H. destruct (normalizeHeaderPairs_Ok _ _ H) as [-> Hn].
  split; [done|]. unfold len in *. apply map_res_length in Hraw. rewrite length_map. unfold VerserHeaderPair in *. lia.
Qed.

Lemma metadata_raw_pair_value p : well_formed_utf16 p.2 = true -> metadata_raw_pair (pair_value p) = Ok p.
Proof. destruct p as [n v]. unfold metadata_raw_pair, isWellFormedUnicode. simpl. by intros ->. Qed.

Lemma metadata_header_pairs_values k : Forall normal_pair k -> len k <= VERSER_RESPONSE_METADATA_MAX_HEADER_PAIRS ->
  metadata_header_pairs (JArr (map pair_value k)) = Ok k.
Proof.
  intros Hk Hlen. unfold metadata_header_pairs, len in *. rewrite length_map.
  rewrite (proj2 (Z.ltb_ge _ _)) by done.
  assert (map_res metadata_raw_pair (map pair_value k) = Ok k) as ->.
  { clear Hlen. induction Hk as [|[n v] k [_ Hv] Hk IH]; [done|]. cbn [map map_res].
    rewrite metadata_raw_pair_value, IH; [done|]. by apply latin1_well_formed, valid_value_latin1. }
  simpl. by rewrite normalizeHeaderPairs_values, normalize_pairs_id.
Qed.

Lemma validateResponseMetadata_ok v sanitize m :
  validateResponseMetadata v sanitize = Ok m -> metadata_ok m.
Proof using C.
  unfold validateResponseMetadata. destruct v as [| | | | | |record]; try done. intros H.
  apply bind_Ok_inv in H as (_ & _ & H). apply bind_Ok_inv in H as (_ & _ & H).
  apply bind_Ok_inv in H as (rid & [_ [Hw Hb]]%metadata_request_id_Ok & H).
  apply bind_Ok_inv in H as (code & [_ Hcode]%metadata_status_code_Ok & H).
  apply bind_Ok_inv in H as (text & [_ Htext]%metadata_status_text_Ok & H).
  apply bind_Ok_inv in H as (norm & Hnorm & H). apply bind_Ok_inv in H as (san & Hsan & H).
  apply bind_Ok_inv in H as (_ & Hlen%throw_if_Ok_inv & H). injection H as <-.
  destruct (metadata_header_pairs_Ok _ _ Hnorm) as [Hn Hl].
  pose proof (sanitize_pairs_facts _ _ Hsan) as (Hsub & Hsn & Hidem).
  assert (map lower_pair norm = norm) as Hid.
  { clear -Hn C. induction Hn as [|[n v] l [Hp _] Hl IH]; [done|]. simpl in *. unfold lower_pair at 1. simpl. by rewrite normal_name_lower, IH. }
  rewrite Hid in Hsub. pose proof (sublist_length _ _ Hsub) as Hle.
  destruct sanitize; simpl in *.
  - split; simpl; try done. unfold len in *. lia.
  - bools. apply Z.eqb_eq in Hlen. unfold len in *.
    assert (san = norm) as -> by (apply sublist_same_length; [done|lia]). split; done.
Qed.

Lemma metadata_json_prop m k : prop k (match metadata_json m with JObj o => o | _ => [] end) =
  if decide (k = js "version") then JNum (num_int 1)
  else if decide (k = js "requestId") then JStr (rm_requestId m)
  else if decide (k = js "statusCode") then JNum (rm_statusCode m)
  else if decide (k = js "statusText") then match rm_statusText m with Some t => JStr t | None => JUndef end
  else if decide (k = js "headers") then JArr (map pair_value (rm_headers m)) else JUndef.
Proof.
  unfold prop, metadata_json. destruct (rm_statusText m); cbn [map_get app];
    repeat case_decide; subst; try done;
    match goal with H : js _ = js _ |- _ => vm_compute in H; discriminate H end.
Qed.

(** The validator accepts, unchanged, what it produced. *)
Lemma validate_metadata_json m : metadata_ok m -> validateResponseMetadata (metadata_json m) false = Ok m.
Proof.
  intros [Hw Hb Hs Ht Hc Hp Hz].
  pose proof (metadata_json_prop m) as Hprop.
  destruct (metadata_json m) as [| | | | | |record] eqn:E; try done.
  unfold validateResponseMetadata.
  assert (existsb (fun key => negb (mem_str key allowedKeys)) record.*1 = false) as ->.
  { unfold metadata_json in E. injection E as <-. destruct (rm_statusText m); reflexivity. }
  rewrite (Hprop (js "version")), (Hprop (js "requestId")), (Hprop (js "statusCode")),
    (Hprop (js "statusText")), (Hprop (js "headers")).
  cbn [throw_if mbind result_bind]. clear Hprop E.
  repeat match goal with |- context [if decide (?a = ?b) then _ else _] =>
    (rewrite (decide_True (P := a = b)) by reflexivity) || (rewrite (decide_False (P := a = b)) by (by vm_compute)) end.
  rewrite (proj2 (metadata_request_id_Ok _ (rm_requestId m))) by done.
  rewrite (proj2 (metadata_status_code_Ok _ (rm_statusCode m))) by done.
  rewrite (proj2 (metadata_status_text_Ok _ (rm_statusText m))) by done.
  rewrite metadata_header_pairs_values by done.
  change (num_eqb _ _) with true. cbn [throw_if mbind result_bind negb]. rewrite Hz.
  cbn [throw_if mbind result_bind negb]. rewrite Z.eqb_refl. by destruct m.
Qed.

(** Validating a record whose pairs are already sanitised keeps every field. *)
Lemma validate_sanitized_json m m' : Forall normal_pair (rm_headers m) ->
  sanitizeHttp2ResponseHeaderPairs (rm_headers m) = Ok (rm_headers m) ->
  validateResponseMetadata (metadata_json m) true = Ok m' -> m' = m.
Proof.
  intros Hn Hz. pose proof (metadata_json_prop m) as Hprop.
  destruct (metadata_json m) as [| | | | | |record] eqn:E; try done. clear E. unfold validateResponseMetadata. intros H.
  apply bind_Ok_inv in H as (_ & _ & H). apply bind_Ok_inv in H as (_ & _ & H).
  apply bind_Ok_inv in H as (rid & [Hid _]%metadata_request_id_Ok & H).
  apply bind_Ok_inv in H as (code & [Hcode _]%metadata_status_code_Ok & H).
  apply bind_Ok_inv in H as (text & [Htext _]%metadata_status_text_Ok & H).
  apply bind_Ok_inv in H as (norm & Hnorm & H). apply bind_Ok_inv in H as (san & Hsan & H).
  apply bind_Ok_inv in H as (_ & _ & H). injection H as <-.
  rewrite (Hprop (js "requestId")) in Hid. rewrite (Hprop (js "statusCode")) in Hcode.
  rewrite (Hprop (js "statusText")) in Htext. rewrite (Hprop (js "headers")) in Hnorm. clear Hprop.
  repeat match goal with H : context [if decide (?a = ?b) then _ else _] |- _ =>
    (rewrite (decide_True (P := a = b)) in H by reflexivity) || (rewrite (decide_False (P := a = b)) in H by (by vm_compute)) end.
  injection Hid as Hid. injection Hcode as Hcode.
  assert (norm = rm_headers m) as ->.
  { unfold metadata_header_pairs in Hnorm. destruct (Z.ltb_spec VERSER_RESPONSE_METADATA_MAX_HEADER_PAIRS (len (map pair_value (rm_headers m)))) as [|Hl]; [done|].
    assert (metadata_header_pairs (JArr (map pair_value (rm_headers m))) = Ok (rm_headers m)) as Hk
      by (apply metadata_header_pairs_values; [done|]; unfold len in *; rewrite length_map in Hl; exact Hl).
    unfold metadata_header_pairs in Hk. rewrite (proj2 (Z.ltb_ge _ _) Hl) in Hk. rewrite Hk in Hnorm. by injection Hnorm. }
  rewrite Hz in Hsan. injection Hsan as <-. destruct m as [i c o k]. cbn in *.
  destruct o, text; by simplify_eq.
Qed.

Lemma metadata_json_plain m : metadata_ok m -> metadata_units m -> json_plain (metadata_json m) = true.
Proof.
  intros [Hw Hb (z & Hz & Hr) Ht Hc Hp _] (Hui & Hut & Huh).
  assert (forallb json_plain (map pair_value (rm_headers m)) = true) as Hh.
  { apply Forall_forallb, Forall_fmap, Forall_forall. intros [n v] Hin. rewrite Forall_forall in Hp, Huh.
    destruct (Hp _ Hin) as [[Hn _] _]. specialize (Huh _ Hin). simpl in *.
    apply valid_name_ascii, all_ascii_units in Hn. by rewrite !(proj2 (Forall_forallb _ _)). }
  apply Forall_forallb in Hui.
  assert (json_plain (JNum (rm_statusCode m)) = true) as Hn.
  { rewrite Hz. cbn [json_plain is_safe_integer]. unfold max_safe. lia. }
  unfold metadata_json. destruct (rm_statusText m) as [t|] eqn:Et.
  - specialize (Hut t eq_refl). apply Forall_forallb in Hut.
    cbn [json_plain app forallb fmap list_fmap fst snd] in *. by rewrite Hui, Hn, Hut, Hh.
  - cbn [json_plain app forallb fmap list_fmap fst snd] in *. by rewrite Hui, Hn, Hh.
Qed.

(** What was encoded decodes to the validated record. *)
Lemma encoded_decodes v s : encodeVerserResponseMetadata v = Ok s ->
  exists m, validateResponseMetadata v true = Ok m /\ metadata_ok m /\
    (metadata_units m -> decodeVerserResponseMetadata s = Ok m).
Proof using C.
  unfold encodeVerserResponseMetadata. intros (m & Hv & H)%bind_Ok_inv. apply bind_Ok_inv in H as (u & Hlen & H).
  apply Ok_inj in H as <-. pose proof (validateResponseMetadata_ok _ _ _ Hv) as Hok. exists m. split_and!; [done..|].
  intros Hu. unfold decodeVerserResponseMetadata. rewrite Hlen. cbn [mbind result_bind].
  rewrite json_parse_text by (by apply metadata_json_plain). by apply validate_metadata_json.
Qed.

(** C40: metadata that validates and fits the size limit is encoded, and decodes
    back to itself: what the host writes in the reserved header is read by the
    broker as the same metadata, and meets every constraint of the format. *)
Theorem response_metadata_roundtrip v m :
  validateResponseMetadata v true = Ok m -> metadata_units m ->
  byte_length (json_text (metadata_json m)) <= VERSER_RESPONSE_METADATA_MAX_BYTES ->
  exists s, encodeVerserResponseMetadata v = Ok s /\ decodeVerserResponseMetadata s = Ok m /\ metadata_ok m.
Proof using C.
  intros Hv Hu Hlen. pose proof (validateResponseMetadata_ok _ _ _ Hv) as Hok.
  exists (json_text (metadata_json m)). unfold encodeVerserResponseMetadata, decodeVerserResponseMetadata, assertMetadataByteLength.
  rewrite Hv. cbn [mbind result_bind]. rewrite (proj2 (Z.ltb_ge _ _)) by exact Hlen.
  cbn [mbind result_bind throw_if]. split; [reflexivity|]. split; [|exact Hok].
  rewrite json_parse_text by (by apply metadata_json_plain). by apply validate_metadata_json.
Qed.

(** The classification of a final response fails closed: without metadata it
    follows the outer status; with metadata it is an application response only
    when a single well-formed value agrees with the request and the outer
    status, and anything else is refused. *)
Theorem classification_correct status requestId values :
  match classifyVerserResponseMetadata status requestId values with
  | Ok transport_error => 400 <= status /\ (values = None \/ values = Some [])
  | Ok (application_response None) => status < 400 /\ (values = None \/ values = Some [])
  | Ok (application_response (Some m)) =>
      exists text, values = Some [text] /\ decodeVerserResponseMetadata text = Ok m /\
        metadata_ok m /\ rm_requestId m = requestId /\ rm_statusCode m = num_int status /\ 200 <= status <= 599
  | Throw _ => exists text rest, values = Some (text :: rest)
  end.
Proof using C.
  unfold classifyVerserResponseMetadata. destruct values as [[|t [|t' l]]|]; simpl.
  1, 4: destruct (Z.ltb_spec status 400); auto. 2: by eauto.
  destruct (decodeVerserResponseMetadata t) as [m|e] eqn:Hd; simpl; [|by eauto].
  destruct (str_eqb (rm_requestId m) requestId) eqn:Hid; simpl; [|by eauto].
  destruct (num_eqb (rm_statusCode m) (num_int status)) eqn:Hs; simpl; [|by eauto].
  exists t. apply str_eqb_eq in Hid.
  assert (metadata_ok m) as Hok.
  { unfold decodeVerserResponseMetadata in Hd. apply bind_Ok_inv in Hd as (_ & _ & Hd).
    destruct (json_parse t); [|done]. by eapply validateResponseMetadata_ok. }
  destruct (ok_status _ Hok) as (z & Hz & Hr). rewrite Hz in *. simpl in Hs. bools. by simplify_eq.
Qed.
End MetadataTheory.

(** ** Witnesses *)
Definition sample_metadata : jsval :=
  JObj [(js "version", JNum (num_int 1)); (js "requestId", JStr (js "r-1")); (js "statusCode", JNum (num_int 404));
        (js "statusText", JStr (js "Not Found"));
        (js "headers", JArr [JArr [JStr (js "Set-Cookie"); JStr (js "a=1")]; JArr [JStr (js "te"); JStr (js "x")];
                             JArr [JStr (js "Set-Cookie"); JStr (js "b=2")]])].
Definition sample_validated : VerserResponseMetadata :=
  {| rm_requestId := js "r-1"; rm_statusCode := num_int 404; rm_statusText := Some (js "Not Found");
     rm_headers := [(js "set-cookie", js "a=1"); (js "set-cookie", js "b=2")] |}.

Lemma response_metadata_roundtrip_witness :
  exists s, encodeVerserResponseMetadata (P := ascii_platform) sample_metadata = Ok s /\
    decodeVerserResponseMetadata (P := ascii_platform) s = Ok sample_validated /\ metadata_ok (P := ascii_platform) sample_validated.
Proof.
  apply (response_metadata_roundtrip (P := ascii_platform) sample_metadata sample_validated).
  - vm_compute. reflexivity.
  - split_and!; [|intros t [= <-]|]; repeat constructor.
  - vm_compute. discriminate.
Defined.

Lemma classification_correct_witness :
  classifyVerserResponseMetadata (P := ascii_platform) 500 (js "r") None = Ok transport_error /\ 400 <= 500.
Proof.
  pose proof (classification_correct (P := ascii_platform) 500 (js "r") None) as H.
  change (classifyVerserResponseMetadata (P := ascii_platform) 500 (js "r") None) with (Ok (E := exn) transport_error) in *.
  split; [reflexivity|exact (proj1 H)].
Defined.
