(* ===== verification/Routing.v ===== *)
(** Identifiers, routed domains, envelope records and registration
    (verser-common [routing.ts], [registration.ts]). *)
From S2P Require Import Prelude JsNum Utf8 Json Errors Headers ResponseMetadata.

Inductive VerserPeerRole : Type := role_broker | role_guest.
#[export] Instance VerserPeerRole_eq_dec : EqDecision VerserPeerRole.
Proof. solve_decision. Defined.

Record RoutedDomainRegistration := { rd_targetId : jsstring; rd_domain : jsstring }.
#[export] Instance RoutedDomainRegistration_eq_dec : EqDecision RoutedDomainRegistration.
Proof. solve_decision. Defined.

Record RoutedRequestEnvelope := {
  rq_requestId : jsstring; rq_sourceId : jsstring; rq_targetId : jsstring;
  rq_routeDomain : option jsstring; rq_method : jsstring; rq_path : jsstring;
  rq_headers : HeaderRecord; rq_timeoutMs : option jsnum;
}.
Record RoutedResponseEnvelope := {
  rs_requestId : jsstring; rs_statusCode : jsnum; rs_headers : HeaderRecord;
  rs_statusText : option jsstring; rs_headerPairs : option (list VerserHeaderPair);
}.

(** ** [routing.ts] *)
Definition createGuestId (value : jsstring) : result exn jsstring := requireNonEmpty value "guest id".
Definition createPeerId (value : jsstring) : result exn jsstring := requireNonEmpty value "peer id".

Definition createRoutedDomainRegistration (r : RoutedDomainRegistration) : result exn RoutedDomainRegistration :=
  targetId ← createGuestId (rd_targetId r);
  domain ← requireNonEmpty (rd_domain r) "routed domain";
  Ok {| rd_targetId := targetId; rd_domain := domain |}.

(** [s.replace(/^c/, '')] and [s.replace(/c$/, '')] *)
Definition strip_first (c : Z) (s : jsstring) : jsstring :=
  match s with d :: t => if d =? c then t else s | [] => [] end.
Definition strip_last (c : Z) (s : jsstring) : jsstring := reverse (strip_first c (reverse s)).

Definition resolveRouteForHostname (routes : list RoutedDomainRegistration) (hostname : jsstring) : option RoutedDomainRegistration :=
  find (fun route => str_eqb (rd_domain route) hostname) routes.
(** A [URL] is known to the model by its [hostname]. *)
Definition resolveRouteForUrl (routes : list RoutedDomainRegistration) (url_hostname : jsstring) : option RoutedDomainRegistration :=
  resolveRouteForHostname routes url_hostname.

Section Routing.
Context {P : Platform}.

Definition normalizeVerserRouteDomain (value : jsstring) : jsstring :=
  let trimmed := to_lower (trim value) in
  if len trimmed =? 0 then []
  else match url_hostname trimmed with
       | Some hostname => strip_last 46 (strip_last 93 (strip_first 91 hostname))
       | None => strip_last 46 trimmed
       end.

Definition createRoutedRequestEnvelope (e : RoutedRequestEnvelope) : result exn RoutedRequestEnvelope :=
  requestId ← requireNonEmpty (rq_requestId e) "request id";
  sourceId ← createPeerId (rq_sourceId e);
  targetId ← createGuestId (rq_targetId e);
  method ← requireNonEmpty (rq_method e) "request method";
  path ← requireNonEmpty (rq_path e) "request path";
  Ok {| rq_requestId := requestId; rq_sourceId := sourceId; rq_targetId := targetId;
        rq_routeDomain := rq_routeDomain e; rq_method := method; rq_path := path;
        rq_headers := rq_headers e; rq_timeoutMs := rq_timeoutMs e |}.

Definition createRoutedResponseEnvelope (e : RoutedResponseEnvelope) : result exn RoutedResponseEnvelope :=
  headerPairs ← match rs_headerPairs e with
                | None => Ok None
                | Some l => Some <$> sanitizeHttp2ResponseHeaderPairs l
                end;
  requestId ← requireNonEmpty (rs_requestId e) "request id";
  statusCode ← requireFinalResponseStatusCode (rs_statusCode e);
  headers ← match headerPairs with None => Ok (rs_headers e) | Some l => flattenVerserHeaderPairs l end;
  statusText ← match rs_statusText e with
               | None => Ok None
               | Some t => Some <$> validateVerserStatusText (JStr t)
               end;
  Ok {| rs_requestId := requestId; rs_statusCode := statusCode; rs_headers := headers;
        rs_statusText := statusText; rs_headerPairs := headerPairs |}.

(** ** [registration.ts] *)
Record VerserRegistrationRequest := {
  rr_peerId : jsstring; rr_role : VerserPeerRole; rr_routedDomains : jsval; rr_brokerDomain : option jsstring;
}.

Definition role_of (v : jsval) : option VerserPeerRole :=
  if is_str (js "broker") v then Some role_broker
  else if is_str (js "guest") v then Some role_guest else None.
Definition role_name (r : VerserPeerRole) : jsstring :=
  match r with role_broker => js "broker" | role_guest => js "guest" end.

Definition or_empty (v : jsval) : jsstring := to_str (nullish v (JStr [])).

Definition parseRegistrationRequest (body : jsstring) : result exn VerserRegistrationRequest :=
  match json_parse body with
  | None => Throw (EngineErr SyntaxError body)
  | Some parsed =>
      match js_member (js "role") parsed with
      | None => Throw (EngineErr TypeError body)
      | Some rolev =>
          match role_of rolev with
          | None => Throw (verr invalid_registration "Registration role must be broker or guest"
                             [(js "role", JStr (or_empty rolev))])
          | Some role =>
              let peerId := or_empty (js_opt_member (js "peerId") parsed) in
              let domainv := js_opt_member (js "brokerDomain") parsed in
              _ ← throw_if (match parsed with JObj o => map_has (js "brokerHopDomain") o | _ => false end)
                    (verr invalid_registration "brokerHopDomain is not supported; use brokerDomain"
                       [(js "peerId", JStr peerId)]);
              let hasBrokerDomain := negb (is_nullish domainv) in
              _ ← throw_if (hasBrokerDomain && negb (bool_decide (role = role_broker)))
                    (verr invalid_registration "brokerDomain is only valid for broker registrations"
                       [(js "role", JStr (role_name role))]);
              brokerDomain ←
                (if hasBrokerDomain then
                   match domainv with
                   | JStr d =>
                       let brokerDomain := normalizeVerserRouteDomain d in
                       if len brokerDomain =? 0 then
                         Throw (verr invalid_registration "brokerDomain must be a non-empty domain"
                                  [(js "peerId", JStr peerId)])
                       else Ok (Some brokerDomain)
                   | _ => Throw (verr invalid_registration "brokerDomain must be a string"
                                   [(js "peerId", JStr peerId)])
                   end
                 else Ok None);
              Ok {| rr_peerId := peerId; rr_role := role;
                    rr_routedDomains := nullish (js_opt_member (js "routedDomains") parsed) (JArr []);
                    rr_brokerDomain := brokerDomain |}
          end
      end
  end.

Definition parseRegistrationResponse (body peerId contextIdField : jsstring) : result exn jsval :=
  match json_parse body with
  | Some v => Ok v
  | None => Throw (verr protocol_error "Host returned invalid registration JSON"
                     (obj_of_entries [(contextIdField, JStr peerId);
                                      (js "cause", JStr (getErrorMessage (EngineErr SyntaxError body)))]))
  end.

Definition route_json (r : RoutedDomainRegistration) : jsval :=
  JObj [(js "targetId", JStr (rd_targetId r)); (js "domain", JStr (rd_domain r))].
Definition createBrokerRoutesControlFrame (routes : list RoutedDomainRegistration) : jsval :=
  JObj [(js "type", JStr (js "routes")); (js "routes", JArr (map route_json routes))].
End Routing.

(** * Theory *)
Lemma requireNonEmpty_idem value label v : requireNonEmpty value label = Ok v -> requireNonEmpty v label = Ok v.
Proof. rewrite !requireNonEmpty_Ok. intros [-> Hv]. by rewrite trim_idem. Qed.

Lemma requireNonEmpty_error value label e : requireNonEmpty value label = Throw e ->
  forallb is_space value = true /\ exists v, e = VerserErr v /\ ve_code v = invalid_registration.
Proof.
  unfold requireNonEmpty. destruct (len (trim value) =? 0) eqn:E; [|done]. intros [= <-].
  split; [|by eexists]. apply trim_nil_iff. apply Z.eqb_eq in E. unfold len in E. by destruct (trim value).
Qed.

Lemma createRoutedDomainRegistration_Ok r r' : createRoutedDomainRegistration r = Ok r' <->
  rd_targetId r' = trim (rd_targetId r) /\ rd_domain r' = trim (rd_domain r) /\
  rd_targetId r' <> [] /\ rd_domain r' <> [].
Proof.
  unfold createRoutedDomainRegistration, createGuestId. split.
  - intros (t & [-> Ht]%requireNonEmpty_Ok & H)%bind_Ok_inv.
    apply bind_Ok_inv in H as (d & [-> Hd]%requireNonEmpty_Ok & H). by injection H as <-.
  - intros (Ht & Hd & Hnt & Hnd). rewrite (proj2 (requireNonEmpty_Ok (rd_targetId r) _ (rd_targetId r'))) by done. cbn [mbind result_bind].
    rewrite (proj2 (requireNonEmpty_Ok (rd_domain r) _ (rd_domain r'))) by done. by destruct r'.
Qed.

Section RoutingTheory.
Context {P : Platform}.

Lemma role_of_Some v r : role_of v = Some r <-> v = JStr (role_name r).
Proof.
  unfold role_of, is_str. destruct v as [| | | |s| |]; try (split; intros H; discriminate H).
  destruct (str_eqb s (js "broker")) eqn:E1; [apply str_eqb_eq in E1; subst s|].
  - split; [by intros [= <-]|]. by destruct r.
  - destruct (str_eqb s (js "guest")) eqn:E2; [apply str_eqb_eq in E2; subst s|].
    + split; [by intros [= <-]|]. by destruct r.
    + apply str_eqb_neq in E1, E2. split; [done|]. intros [= ->]. by destruct r.
Qed.

(** The broker domain a registration body yields. *)
Definition broker_domain_spec (role : VerserPeerRole) (v : jsval) (d : option jsstring) : Prop :=
  match d with
  | None => is_nullish v = true
  | Some d => role = role_broker /\ d <> [] /\ exists s, v = JStr s /\ d = normalizeVerserRouteDomain s
  end.

(** A registration body is accepted exactly when it is a JSON object with a
    known role and without the legacy field, whose broker domain, if any, is a
    string with a non-empty normal form and comes from a broker; the request it
    yields is determined by those fields. *)
Theorem parseRegistrationRequest_correct body req :
  parseRegistrationRequest body = Ok req <->
  exists o, json_parse body = Some (JObj o) /\
    prop (js "role") o = JStr (role_name (rr_role req)) /\
    map_has (js "brokerHopDomain") o = false /\
    rr_peerId req = or_empty (prop (js "peerId") o) /\
    rr_routedDomains req = nullish (prop (js "routedDomains") o) (JArr []) /\
    broker_domain_spec (rr_role req) (prop (js "brokerDomain") o) (rr_brokerDomain req).
Proof.
  unfold parseRegistrationRequest. split.
  - destruct (json_parse body) as [parsed|]; [|done].
    destruct (js_member (js "role") parsed) as [rolev|] eqn:Er; [|done].
    destruct (role_of rolev) as [role|] eqn:Hr; [|done].
    assert (exists o, parsed = JObj o) as [o ->].
    { apply role_of_Some in Hr as ->. destruct parsed; simplify_eq/=; eauto. }
    apply role_of_Some in Hr as ->. injection Er as Er. intros H. exists o. split; [done|].
    apply bind_Ok_inv in H as (_ & Hh%throw_if_Ok_inv & H).
    apply bind_Ok_inv in H as (_ & Hb%throw_if_Ok_inv & H).
    apply bind_Ok_inv in H as (d & Hd & H). injection H as <-. cbn [rr_role rr_peerId rr_routedDomains rr_brokerDomain].
    split_and!; try done. unfold js_opt_member in *. cbn [js_member from_option default id] in *.
    destruct (is_nullish (prop (js "brokerDomain") o)) eqn:En; cbn [negb andb] in Hd, Hb;
      [injection Hd as <-; exact En|].
    destruct (prop (js "brokerDomain") o) as [| | | |s| |]; try done.
    destruct (Z.eqb_spec (len (normalizeVerserRouteDomain s)) 0) as [|Hl]; [done|].
    injection Hd as <-. apply negb_false_iff in Hb. apply bool_decide_eq_true in Hb as ->. simpl. split_and!; [done| |eauto].
    intros E. by rewrite E in Hl.
  - intros (o & -> & Hr & Hh & Hp & Hd & Hb). cbn [js_member]. rewrite Hr.
    rewrite (proj2 (role_of_Some _ _) eq_refl). rewrite Hh. cbn [throw_if mbind result_bind].
    unfold js_opt_member in *. cbn [js_member from_option default id] in *.
    destruct req as [peerId role domains [d|]]; cbn [rr_role rr_peerId rr_routedDomains rr_brokerDomain] in *.
    + destruct Hb as (-> & Hne & s & -> & Hs). cbn [is_nullish negb].
      rewrite bool_decide_true by done. cbn [negb andb throw_if mbind result_bind].
      rewrite <- Hs. destruct (Z.eqb_spec (len d) 0) as [Hl|Hl]; [|by rewrite Hp, Hd].
      unfold len in Hl. by destruct d.
    + simpl in Hb. rewrite Hb. cbn [negb andb throw_if mbind result_bind]. by rewrite Hp, Hd.
Qed.

(** Registering a routed domain trims both fields and refuses blank ones;
    what it returns is accepted again unchanged. *)
Theorem routed_domain_correct r :
  match createRoutedDomainRegistration r with
  | Ok r' => rd_targetId r' = trim (rd_targetId r) /\ rd_domain r' = trim (rd_domain r) /\
             createRoutedDomainRegistration r' = Ok r'
  | Throw e => (forallb is_space (rd_targetId r) = true \/ forallb is_space (rd_domain r) = true) /\
               exists v, e = VerserErr v /\ ve_code v = invalid_registration
  end.
Proof.
  destruct (createRoutedDomainRegistration r) as [r'|e] eqn:E.
  - pose proof (proj1 (createRoutedDomainRegistration_Ok _ _) E) as (Ht & Hd & Hnt & Hnd).
    split_and!; [done..|]. apply createRoutedDomainRegistration_Ok.
    rewrite Ht, Hd, !trim_idem. by rewrite <- Ht, <- Hd.
  - unfold createRoutedDomainRegistration, createGuestId in E.
    destruct (requireNonEmpty (rd_targetId r) _) as [t|e1] eqn:E1; simpl in E.
    + destruct (requireNonEmpty (rd_domain r) _) as [d|e2] eqn:E2; simpl in E; [done|].
      injection E as ->. apply requireNonEmpty_error in E2 as [Hs He]. split; [by right|done].
    + injection E as ->. apply requireNonEmpty_error in E1 as [Hs He]. split; [by left|done].
Qed.
End RoutingTheory.

(** Normalising a routed domain strips one trailing dot per application. *)
Lemma normalizeVerserRouteDomain_not_idempotent :
  normalizeVerserRouteDomain (P := ascii_platform) (js "a..") = js "a." /\
  normalizeVerserRouteDomain (P := ascii_platform) (js "a.") = js "a".
Proof. by split. Qed.

Lemma parseRegistrationRequest_correct_witness :
  exists req, parseRegistrationRequest (P := ascii_platform)
    (json_text (JObj [(js "peerId", JStr (js "b1")); (js "role", JStr (js "broker")); (js "brokerDomain", JStr (js "Hop.Example."))])) = Ok req /\
    rr_brokerDomain req = Some (js "hop.example").
Proof.
  eexists {| rr_peerId := js "b1"; rr_role := role_broker; rr_routedDomains := JArr []; rr_brokerDomain := Some (js "hop.example") |}.
  split; [|done]. apply (parseRegistrationRequest_correct (P := ascii_platform)).
  eexists. split; [vm_compute; reflexivity|]. split_and!; try reflexivity.
  split; [reflexivity|]. split; [by vm_compute|].
  eexists. split; [reflexivity|]. vm_compute. reflexivity.
Defined.
