(* ===== verification/FederationCommon.v ===== *)
(** The federation protocol's records and their validators (verser-common
    [federation.ts]): VWS open/accept/error frames, the host handshake and
    federated route registrations. *)
From S2P Require Import Prelude JsNum Utf8 Json Errors Headers ResponseMetadata Routing.

Definition FEDERATION_VWS_VERSION : Z := 1.
Definition FEDERATION_VWS_PATH : jsstring := js "/verser/host/federation/websocket".

Inductive VerserFederatedRouteSource : Type := source_local | source_upstream.
#[export] Instance VerserFederatedRouteSource_eq_dec : EqDecision VerserFederatedRouteSource.
Proof. solve_decision. Defined.
Definition source_name (s : VerserFederatedRouteSource) : jsstring :=
  match s with source_local => js "local" | source_upstream => js "upstream" end.

Record FederatedRouteRegistration := {
  fr_targetId : jsstring; fr_domain : jsstring;
  fr_originHostId : jsstring; fr_nextHopHostId : jsstring;
  fr_hopCount : Z; fr_viaHostIds : list jsstring; fr_source : VerserFederatedRouteSource;
}.
#[export] Instance FederatedRouteRegistration_eq_dec : EqDecision FederatedRouteRegistration.
Proof. solve_decision. Defined.

Record VerserHostFederationHandshake := {
  hs_protocolVersion : Z; hs_hostId : jsstring; hs_maxHopCount : option Z;
  hs_importRoutes : option bool; hs_exportRoutes : option bool;
}.

Record FederationVwsOpen := {
  vo_sourceId : jsstring; vo_targetId : jsstring; vo_domain : jsstring; vo_path : jsstring;
  vo_protocol : option jsstring; vo_originHostId : jsstring; vo_viaHostIds : list jsstring; vo_hopCount : Z;
}.
Record FederationVwsError := { fe_message : jsstring; fe_code : VerserErrorCode }.

Definition nonempty_string (v : jsval) (message : string) : result exn jsstring :=
  match v with
  | JStr (c :: s) => Ok (c :: s)
  | _ => Throw (protocolError message)
  end.
#[global] Arguments nonempty_string v message%_string.

(** The integer of a valid hop count: [Number.isInteger(v) && v >= 0]. *)
Definition isValidHopCount (v : jsval) : option Z :=
  match v with JNum (num_int z) => if 0 <=? z then Some z else None | _ => None end.

Definition optional_string (v : jsval) (message : string) : result exn (option jsstring) :=
  match v with
  | JUndef => Ok None
  | JStr s => Ok (Some s)
  | _ => Throw (protocolError message)
  end.
#[global] Arguments optional_string v message%_string.

(** [requireNonEmpty(v, label)] on an unchecked value: [v.trim()] is a
    [TypeError] unless [v] is a string. *)
Definition require_string (v : jsval) (label : string) : result exn jsstring :=
  match v with JStr s => requireNonEmpty s label | _ => Throw (EngineErr TypeError (to_str v)) end.
#[global] Arguments require_string v label%_string.

Definition createVerserHostId (v : jsval) : result exn jsstring :=
  match v with
  | JStr s => requireNonEmpty s "host id"
  | _ => Throw (verr protocol_error "host id must be a string" [(js "field", JStr (js "host id"))])
  end.

Definition createFederationVwsOpen (input : jsval) : result exn FederationVwsOpen :=
  match input with
  | JObj o =>
      sourceId ← nonempty_string (prop (js "sourceId") o) "Federation VWS open source id is required";
      targetId ← nonempty_string (prop (js "targetId") o) "Federation VWS open target id is required";
      domain ← nonempty_string (prop (js "domain") o) "Federation VWS open domain is required";
      path ← nonempty_string (prop (js "path") o) "Federation VWS open path is required";
      match isValidHopCount (prop (js "hopCount") o), prop (js "viaHostIds") o with
      | Some hopCount, JArr via =>
          protocol ← optional_string (prop (js "protocol") o) "Federation VWS protocol must be a string";
          originHostId ← createVerserHostId (prop (js "originHostId") o);
          viaHostIds ← map_res createVerserHostId via;
          Ok {| vo_sourceId := sourceId; vo_targetId := targetId; vo_domain := domain; vo_path := path;
                vo_protocol := protocol; vo_originHostId := originHostId; vo_viaHostIds := viaHostIds;
                vo_hopCount := hopCount |}
      | _, _ => Throw (protocolError "Federation VWS route metadata is invalid")
      end
  | _ => Throw (protocolError "Federation VWS open source id is required")
  end.

Definition createFederationVwsAccept (protocol : jsval) : result exn (option jsstring) :=
  optional_string protocol "Federation VWS accepted protocol must be a string".

Definition createFederationVwsError (message : jsval) (code : VerserErrorCode) : result exn FederationVwsError :=
  m ← nonempty_string message "Federation VWS error message is required";
  Ok {| fe_message := m; fe_code := code |}.

Definition createFederationVwsNegotiationFailure (context : VerserErrorContext) : exn :=
  verr websocket_negotiation_failed "Federation VWS negotiation response was not received" context.

Definition numericContextValue (v : jsval) : jsval := match v with JNum _ => v | _ => JUndef end.

Definition assertOptionalBoolean (v : jsval) (field : string) : result exn (option bool) :=
  match v with
  | JUndef => Ok None
  | JBool b => Ok (Some b)
  | _ => Throw (verr_js protocol_error (js "Federation " ++ js field ++ js " must be a boolean") [(js "field", JStr (js field))])
  end.
#[global] Arguments assertOptionalBoolean v field%_string.

Definition createVerserHostFederationHandshake (handshake : jsval) : result exn VerserHostFederationHandshake :=
  match handshake with
  | JObj o =>
      let typev := prop (js "type") o in
      _ ← throw_if (negb (is_undef typev) && negb (is_str (js "verser-host-federation-handshake") typev))
            (verr protocol_error "Federation handshake type is invalid" [(js "type", JStr (to_str typev))]);
      let versionv := prop (js "protocolVersion") o in
      match versionv with
      | JNum (num_int version) =>
          if version <? 1 then
            Throw (verr protocol_error "Federation protocol version must be positive"
                     [(js "protocolVersion", numericContextValue versionv)])
          else
            importRoutes ← assertOptionalBoolean (prop (js "importRoutes") o) "importRoutes";
            exportRoutes ← assertOptionalBoolean (prop (js "exportRoutes") o) "exportRoutes";
            hostId ← createVerserHostId (prop (js "hostId") o);
            maxHopCount ←
              (match prop (js "maxHopCount") o with
               | JUndef => Ok None
               | v => let n := to_number v in
                      match isValidHopCount (JNum n) with
                      | Some z => Ok (Some z)
                      | None => Throw (verr protocol_error "Federation max hop count must be non-negative"
                                         [(js "maxHopCount", JNum n)])
                      end
               end);
            Ok {| hs_protocolVersion := version; hs_hostId := hostId; hs_maxHopCount := maxHopCount;
                  hs_importRoutes := importRoutes; hs_exportRoutes := exportRoutes |}
      | _ => Throw (verr protocol_error "Federation protocol version must be positive"
                      [(js "protocolVersion", numericContextValue versionv)])
      end
  | _ => Throw (protocolError "Federation handshake must be an object")
  end.

Definition source_of (v : jsval) : option VerserFederatedRouteSource :=
  if is_str (js "local") v then Some source_local
  else if is_str (js "upstream") v then Some source_upstream else None.

Definition createFederatedRouteRegistration (registration : jsval) : result exn FederatedRouteRegistration :=
  match registration with
  | JObj o =>
      match isValidHopCount (prop (js "hopCount") o) with
      | None => Throw (verr protocol_error "Federated route hop count must be non-negative"
                         [(js "hopCount", numericContextValue (prop (js "hopCount") o))])
      | Some hopCount =>
          match source_of (prop (js "source") o) with
          | None => Throw (verr protocol_error "Federated route source must be local or upstream"
                             [(js "source", JStr (to_str (prop (js "source") o)))])
          | Some source =>
              match prop (js "viaHostIds") o with
              | JArr via =>
                  targetId ← require_string (prop (js "targetId") o) "guest id";
                  domain ← require_string (prop (js "domain") o) "routed domain";
                  originHostId ← createVerserHostId (prop (js "originHostId") o);
                  nextHopHostId ← createVerserHostId (prop (js "nextHopHostId") o);
                  viaHostIds ← map_res createVerserHostId via;
                  Ok {| fr_targetId := targetId; fr_domain := domain; fr_originHostId := originHostId;
                        fr_nextHopHostId := nextHopHostId; fr_hopCount := hopCount;
                        fr_viaHostIds := viaHostIds; fr_source := source |}
              | _ => Throw (verr protocol_error "Federated route viaHostIds must be an array"
                              [(js "field", JStr (js "viaHostIds"))])
              end
          end
      end
  | _ => Throw (protocolError "Federated route registration must be an object")
  end.

Definition isFederatedRouteLoop (route : FederatedRouteRegistration) (hostId : jsstring) : result exn bool :=
  normalizedHostId ← createVerserHostId (JStr hostId);
  Ok (str_eqb (fr_originHostId route) normalizedHostId || mem_str normalizedHostId (fr_viaHostIds route)).

Definition exceedsFederatedRouteHopLimit (route : FederatedRouteRegistration) (maxHopCount : jsnum) : result exn bool :=
  match isValidHopCount (JNum maxHopCount) with
  | None => Throw (verr protocol_error "Federation max hop count must be non-negative" [(js "maxHopCount", JNum maxHopCount)])
  | Some limit => Ok (limit <? fr_hopCount route)
  end.

(** The object a registration is, in the property order of its constructor. *)
Definition federated_route_json (r : FederatedRouteRegistration) : jsval :=
  JObj [(js "targetId", JStr (fr_targetId r)); (js "domain", JStr (fr_domain r));
        (js "originHostId", JStr (fr_originHostId r)); (js "nextHopHostId", JStr (fr_nextHopHostId r));
        (js "hopCount", JNum (num_int (fr_hopCount r)));
        (js "viaHostIds", JArr (map JStr (fr_viaHostIds r)));
        (js "source", JStr (source_name (fr_source r)))].

Definition createFederatedRoutesControlFrame (routes : list jsval) : result exn jsval :=
  rs ← map_res createFederatedRouteRegistration routes;
  Ok (JObj [(js "type", JStr (js "federated-routes")); (js "routes", JArr (map federated_route_json rs))]).

(** * Theory *)
Definition trimmed_id (s : jsstring) : Prop := trim s = s /\ s <> [].

Lemma createVerserHostId_Ok v s : createVerserHostId v = Ok s -> trimmed_id s /\ exists t, v = JStr t /\ s = trim t.
Proof.
  unfold createVerserHostId. destruct v; try done. intros [-> Hs]%requireNonEmpty_Ok. split; [|eauto].
  split; [apply trim_idem|done].
Qed.

Lemma createVerserHostId_id s : trimmed_id s -> createVerserHostId (JStr s) = Ok s.
Proof. intros [Ht Hn]. apply requireNonEmpty_Ok. by rewrite Ht. Qed.

Lemma require_string_Ok v label s : require_string v label = Ok s -> trimmed_id s.
Proof.
  unfold require_string. destruct v; try done. intros [-> Hs]%requireNonEmpty_Ok.
  split; [apply trim_idem|done].
Qed.
Lemma require_string_id s label : trimmed_id s -> require_string (JStr s) label = Ok s.
Proof. intros [Ht Hn]. apply requireNonEmpty_Ok. by rewrite Ht. Qed.

Lemma isValidHopCount_Some v z : isValidHopCount v = Some z <-> v = JNum (num_int z) /\ 0 <= z.
Proof.
  unfold isValidHopCount. destruct v as [| | |[k| | |]| | |]; try (split; [done|by intros [[=] _]]).
  destruct (Z.leb_spec 0 k); split; try done; try (intros [= ->]; split; [done|lia]).
  - intros [[= ->] _]. done.
  - intros [[= ->] ?]. lia.
Qed.

(** The invariant of every registration the validator returns. *)
Record federated_route_ok (r : FederatedRouteRegistration) : Prop := {
  fro_target : trimmed_id (fr_targetId r);
  fro_domain : trimmed_id (fr_domain r);
  fro_origin : trimmed_id (fr_originHostId r);
  fro_next : trimmed_id (fr_nextHopHostId r);
  fro_hops : 0 <= fr_hopCount r;
  fro_via : Forall trimmed_id (fr_viaHostIds r);
}.

Lemma map_host_ids_Ok l k : map_res createVerserHostId l = Ok k -> Forall trimmed_id k.
Proof.
  intros H%map_res_Ok. induction H as [|v s l k Hv _ IH]; constructor; [|done].
  by apply createVerserHostId_Ok in Hv as [? _].
Qed.
Lemma map_host_ids_id l : Forall trimmed_id l -> map_res createVerserHostId (map JStr l) = Ok l.
Proof.
  intros H. apply map_res_Ok. induction H; simpl; constructor; [by apply createVerserHostId_id|done].
Qed.

Lemma source_of_name s : source_of (JStr (source_name s)) = Some s.
Proof. by destruct s. Qed.

Lemma federated_route_validated v r : createFederatedRouteRegistration v = Ok r -> federated_route_ok r.
Proof.
  unfold createFederatedRouteRegistration. destruct v as [| | | | | |o]; try done.
  destruct (isValidHopCount _) as [h|] eqn:Hh; [|done]. apply isValidHopCount_Some in Hh as [_ Hh].
  destruct (source_of _) as [src|]; [|done]. destruct (prop (js "viaHostIds") o) as [| | | | |via|]; try done.
  intros (t & Ht%require_string_Ok & H)%bind_Ok_inv. apply bind_Ok_inv in H as (d & Hd%require_string_Ok & H).
  apply bind_Ok_inv in H as (og & [Hog _]%createVerserHostId_Ok & H).
  apply bind_Ok_inv in H as (nx & [Hnx _]%createVerserHostId_Ok & H).
  apply bind_Ok_inv in H as (vs & Hvs%map_host_ids_Ok & H). by injection H as <-.
Qed.

Lemma federated_route_reread r : federated_route_ok r -> createFederatedRouteRegistration (federated_route_json r) = Ok r.
Proof.
  intros [Ht Hd Ho Hn Hh Hv]. unfold createFederatedRouteRegistration, federated_route_json.
  change (prop (js "hopCount") _) with (JNum (num_int (fr_hopCount r))).
  rewrite (proj2 (isValidHopCount_Some _ (fr_hopCount r))) by done.
  change (prop (js "source") _) with (JStr (source_name (fr_source r))). rewrite source_of_name.
  change (prop (js "viaHostIds") _) with (JArr (map JStr (fr_viaHostIds r))).
  change (prop (js "targetId") _) with (JStr (fr_targetId r)). rewrite require_string_id by done.
  change (prop (js "domain") _) with (JStr (fr_domain r)). cbn [mbind result_bind]. rewrite require_string_id by done.
  change (prop (js "originHostId") _) with (JStr (fr_originHostId r)).
  change (prop (js "nextHopHostId") _) with (JStr (fr_nextHopHostId r)).
  cbn [mbind result_bind]. rewrite !createVerserHostId_id by done. cbn [mbind result_bind].
  rewrite map_host_ids_id by done. by destruct r.
Qed.

(** A federated route registration that validates has trimmed non-empty ids
    and a non-negative hop count, and re-validates to itself: the frame built
    from validated routes is accepted by the receiving host route by route. *)
Theorem federated_registration_correct v r :
  createFederatedRouteRegistration v = Ok r ->
  federated_route_ok r /\ createFederatedRouteRegistration (federated_route_json r) = Ok r /\
  createFederatedRoutesControlFrame [federated_route_json r] = createFederatedRoutesControlFrame [v].
Proof.
  intros H. pose proof (federated_route_validated _ _ H) as Hok. pose proof (federated_route_reread _ Hok) as Hr.
  split_and!; [done..|]. unfold createFederatedRoutesControlFrame. cbn [map_res]. by rewrite H, Hr.
Qed.

Definition sample_route_json : jsval :=
  JObj [(js "targetId", JStr (js " g1 ")); (js "domain", JStr (js "a.example")); (js "originHostId", JStr (js "h1"));
        (js "nextHopHostId", JStr (js "h2")); (js "hopCount", JNum (num_int 2));
        (js "viaHostIds", JArr [JStr (js "h1"); JStr (js "h2 ")]); (js "source", JStr (js "upstream"))].

Lemma federated_registration_correct_witness :
  exists r, createFederatedRouteRegistration sample_route_json = Ok r /\ fr_targetId r = js "g1" /\ federated_route_ok r.
Proof.
  eexists. split; [vm_compute; reflexivity|]. split; [reflexivity|].
  eapply (federated_registration_correct sample_route_json). vm_compute. reflexivity.
Defined.

(** The loop test is membership of the trimmed host id in the origin and the
    via list; the hop test is strict. *)
Theorem federated_loop_and_hop_tests r hostId limit :
  trimmed_id hostId -> 0 <= limit ->
  isFederatedRouteLoop r hostId = Ok (bool_decide (hostId ∈ fr_originHostId r :: fr_viaHostIds r)) /\
  exceedsFederatedRouteHopLimit r (num_int limit) = Ok (limit <? fr_hopCount r).
Proof.
  intros Hid Hl. unfold isFederatedRouteLoop, exceedsFederatedRouteHopLimit. split.
  - rewrite createVerserHostId_id by done. simpl. f_equal. apply eq_true_iff_eq.
    rewrite orb_true_iff, str_eqb_eq, mem_str_elem, bool_decide_eq_true, elem_of_cons. naive_solver.
  - by rewrite (proj2 (isValidHopCount_Some _ limit)).
Qed.
