(* ===== verification/RouteLifecycle.v ===== *)
(** Route lifecycle events, generations and guest revocation records
    (verser-common [route-lifecycle.ts]). *)
From S2P Require Import Prelude JsNum Utf8 Json Errors.

Inductive VerserRouteLifecycleEventType : Type := ev_added | ev_removed | ev_changed | ev_degraded.
Inductive VerserRouteEventReason : Type :=
  | rs_registered | rs_revoked | rs_disconnected | rs_reconnected | rs_restored | rs_timeout | rs_updated.
#[export] Instance event_type_eq_dec : EqDecision VerserRouteLifecycleEventType.
Proof. solve_decision. Defined.
#[export] Instance event_reason_eq_dec : EqDecision VerserRouteEventReason.
Proof. solve_decision. Defined.

Definition event_type_name (t : VerserRouteLifecycleEventType) : jsstring :=
  match t with
  | ev_added => js "added" | ev_removed => js "removed" | ev_changed => js "changed" | ev_degraded => js "degraded"
  end.
Definition event_reason_name (r : VerserRouteEventReason) : jsstring :=
  match r with
  | rs_registered => js "registered" | rs_revoked => js "revoked" | rs_disconnected => js "disconnected"
  | rs_reconnected => js "reconnected" | rs_restored => js "restored" | rs_timeout => js "timeout"
  | rs_updated => js "updated"
  end.
Definition VALID_EVENT_TYPES : list VerserRouteLifecycleEventType := [ev_added; ev_removed; ev_changed; ev_degraded].
Definition VALID_EVENT_REASONS : list VerserRouteEventReason :=
  [rs_registered; rs_revoked; rs_disconnected; rs_reconnected; rs_restored; rs_timeout; rs_updated].

Record VerserRouteGeneration := { rg_generationId : jsstring; rg_sessionId : option jsstring }.
Record VerserRouteLifecycleEvent := {
  le_type : VerserRouteLifecycleEventType; le_targetId : jsstring; le_domain : jsstring;
  le_reason : option VerserRouteEventReason; le_generation : option VerserRouteGeneration;
}.

(** The unvalidated input of the constructor: arbitrary strings. *)
Record generation_input := { gi_generationId : option jsstring; gi_sessionId : option jsstring }.
Record event_input := {
  ei_type : jsstring; ei_targetId : jsstring; ei_domain : jsstring;
  ei_reason : option jsstring; ei_generation : option generation_input;
}.

(** [fresh] is the generated id [`gen-${Date.now()}-${random}`]. *)
Definition createVerserRouteGeneration (fresh : jsstring) (options : generation_input) : result exn VerserRouteGeneration :=
  let generationId := default fresh (gi_generationId options) in
  if len (trim generationId) =? 0 then
    Throw (verr protocol_error "generationId must be a non-empty string" [(js "field", JStr (js "generationId"))])
  else
    Ok {| rg_generationId := trim generationId;
          rg_sessionId := match gi_sessionId options with
                          | Some s => if 0 <? len (trim s) then Some (trim s) else None
                          | None => None
                          end |}.

Definition createRouteLifecycleEvent (fresh : jsstring) (event : event_input) : result exn VerserRouteLifecycleEvent :=
  match find (fun t => str_eqb (event_type_name t) (ei_type event)) VALID_EVENT_TYPES with
  | None => Throw (verr protocol_error "Invalid route lifecycle event type" [(js "type", JStr (ei_type event))])
  | Some type =>
      reason ← match ei_reason event with
               | None => Ok None
               | Some r => match find (fun t => str_eqb (event_reason_name t) r) VALID_EVENT_REASONS with
                           | Some reason => Ok (Some reason)
                           | None => Throw (verr protocol_error "Invalid route lifecycle event reason" [(js "reason", JStr r)])
                           end
               end;
      targetId ← requireNonEmpty (ei_targetId event) "route lifecycle event targetId";
      domain ← requireNonEmpty (ei_domain event) "route lifecycle event domain";
      generation ← match ei_generation event with
                   | None => Ok None
                   | Some g => Some <$> createVerserRouteGeneration fresh g
                   end;
      Ok {| le_type := type; le_targetId := targetId; le_domain := domain; le_reason := reason;
            le_generation := generation |}
  end.

Definition generation_json (g : VerserRouteGeneration) : jsval :=
  JObj ((js "generationId", JStr (rg_generationId g)) ::
        match rg_sessionId g with Some s => [(js "sessionId", JStr s)] | None => [] end).
Definition event_json (e : VerserRouteLifecycleEvent) : jsval :=
  JObj ([(js "type", JStr (event_type_name (le_type e))); (js "targetId", JStr (le_targetId e));
         (js "domain", JStr (le_domain e))] ++
        match le_reason e with Some r => [(js "reason", JStr (event_reason_name r))] | None => [] end ++
        match le_generation e with Some g => [(js "generation", generation_json g)] | None => [] end).

Definition createBrokerRouteLifecycleControlFrame (fresh : jsstring) (events : list event_input) : result exn jsval :=
  es ← map_res (createRouteLifecycleEvent fresh) events;
  Ok (JObj [(js "type", JStr (js "route-lifecycle")); (js "events", JArr (map event_json es))]).

(** ** Guest revocation *)
Inductive revocation_status : Type := status_ack | status_partial | status_error.
Definition status_name (s : revocation_status) : jsstring :=
  match s with status_ack => js "ack" | status_partial => js "partial" | status_error => js "error" end.
Record VerserGuestDomainRevocationResult := { dr_domain : jsstring; dr_error : option jsstring }.
Record VerserGuestRevocationResponse := {
  gr_status : revocation_status; gr_message : option jsstring;
  gr_failedDomains : option (list VerserGuestDomainRevocationResult);
}.

Definition createGuestRevocationRequest (domains : jsval) : result exn (list jsstring) :=
  match domains with
  | JArr (d :: ds) =>
      map_res (fun v => match v with
                        | JStr s => requireNonEmpty s "revocation domain"
                        | _ => Throw (EngineErr TypeError (to_str v))
                        end) (d :: ds)
  | _ => Throw (verr revocation_failed "Revocation request must include at least one domain"
                  [(js "domains", JStr (to_str domains))])
  end.

Definition createGuestRevocationResponse (status : jsstring) (message : option jsstring)
    (failed : option (list VerserGuestDomainRevocationResult)) : result exn VerserGuestRevocationResponse :=
  match find (fun s => str_eqb (status_name s) status) [status_ack; status_partial; status_error] with
  | None => Throw (verr protocol_error "Invalid revocation response status" [(js "status", JStr status)])
  | Some s =>
      failedDomains ← match failed with
                      | Some (d :: ds) =>
                          Some <$> map_res (fun fd => domain ← requireNonEmpty (dr_domain fd) "revocation failure domain";
                                              Ok {| dr_domain := domain; dr_error := dr_error fd |}) (d :: ds)
                      | _ => Ok None
                      end;
      Ok {| gr_status := s; gr_message := message; gr_failedDomains := failedDomains |}
  end.

(** * Theory *)

(** The input a validated event is read back from. *)
Definition event_reread (e : VerserRouteLifecycleEvent) : event_input :=
  {| ei_type := event_type_name (le_type e); ei_targetId := le_targetId e; ei_domain := le_domain e;
     ei_reason := event_reason_name <$> le_reason e;
     ei_generation := (fun g => {| gi_generationId := Some (rg_generationId g); gi_sessionId := rg_sessionId g |}) <$> le_generation e |}.

Lemma find_event_type t : find (fun t' => str_eqb (event_type_name t') (event_type_name t)) VALID_EVENT_TYPES = Some t.
Proof. by destruct t. Qed.
Lemma find_event_reason r : find (fun r' => str_eqb (event_reason_name r') (event_reason_name r)) VALID_EVENT_REASONS = Some r.
Proof. by destruct r. Qed.

Lemma nonblank_len s : (len (trim s) =? 0) = false <-> trim s <> [].
Proof. rewrite Z.eqb_neq. unfold len. destruct (trim s); simpl; naive_solver lia. Qed.

Lemma generation_reread fresh fresh' g r : createVerserRouteGeneration fresh g = Ok r ->
  createVerserRouteGeneration fresh' {| gi_generationId := Some (rg_generationId r); gi_sessionId := rg_sessionId r |} = Ok r.
Proof.
  unfold createVerserRouteGeneration. destruct (_ =? 0) eqn:E; [done|]. intros [= <-]. simpl.
  rewrite trim_idem, E. do 2 f_equal. destruct (gi_sessionId g) as [s|]; [|done].
  destruct (0 <? len (trim s)) eqn:Es; [|done]. by rewrite trim_idem, Es.
Qed.

(** A validated lifecycle event has non-blank trimmed ids, and reading it
    back yields the same event, with no fresh generation id drawn. *)
Theorem lifecycle_event_roundtrip fresh fresh' ev e :
  createRouteLifecycleEvent fresh ev = Ok e ->
  le_targetId e = trim (ei_targetId ev) /\ le_targetId e <> [] /\
  le_domain e = trim (ei_domain ev) /\ le_domain e <> [] /\
  createRouteLifecycleEvent fresh' (event_reread e) = Ok e.
Proof.
  unfold createRouteLifecycleEvent. destruct (find _ VALID_EVENT_TYPES) as [t|]; [|done]. intros H.
  apply bind_Ok_inv in H as (rs & Hr & H).
  apply bind_Ok_inv in H as (tg & [-> Ht]%requireNonEmpty_Ok & H).
  apply bind_Ok_inv in H as (d & [-> Hd]%requireNonEmpty_Ok & H).
  apply bind_Ok_inv in H as (g & Hg & H). injection H as <-. cbn [le_targetId le_domain].
  split_and!; [done..|]. cbn [event_reread ei_type ei_reason ei_targetId ei_domain ei_generation le_type le_reason le_targetId le_domain le_generation].
  rewrite find_event_type.
  assert (forall o : option VerserRouteEventReason,
    match event_reason_name <$> o with
    | None => Ok None
    | Some r => match find (fun t0 => str_eqb (event_reason_name t0) r) VALID_EVENT_REASONS with
                | Some reason => Ok (Some reason)
                | None => Throw (verr protocol_error "Invalid route lifecycle event reason" [(js "reason", JStr r)])
                end
    end = Ok o) as -> by (intros [r|]; cbn [fmap option_fmap option_map]; [by rewrite find_event_reason|done]).
  cbn [mbind result_bind].
  rewrite !requireNonEmpty_trimmed by done. cbn [mbind result_bind]. destruct (ei_generation ev) as [gi|].
  - apply fmap_Ok_inv in Hg as (g' & Hg & <-). cbn [fmap option_fmap option_map].
    by rewrite (generation_reread _ fresh' _ _ Hg).
  - by injection Hg as <-.
Qed.

Lemma lifecycle_event_roundtrip_witness :
  exists e, createRouteLifecycleEvent (js "gen-1") {| ei_type := js "added"; ei_targetId := js " g"; ei_domain := js "d ";
      ei_reason := Some (js "registered"); ei_generation := Some {| gi_generationId := None; gi_sessionId := Some (js " ") |} |} = Ok e /\
    createRouteLifecycleEvent (js "gen-2") (event_reread e) = Ok e.
Proof.
  eexists. split; [vm_compute; reflexivity|].
  eapply (lifecycle_event_roundtrip (js "gen-1") (js "gen-2")
    {| ei_type := js "added"; ei_targetId := js " g"; ei_domain := js "d ";
       ei_reason := Some (js "registered"); ei_generation := Some {| gi_generationId := None; gi_sessionId := Some (js " ") |} |}).
  vm_compute. reflexivity.
Defined.
