(* ===== verification/Vws.v ===== *)
(** The Verser WebSocket frame codec and line reader (verser-common [vws.ts]). *)
From S2P Require Import Prelude JsNum Utf8 Json Errors.

Definition VWS_MAX_FRAME_BYTES : Z := 1 * 1024 * 1024.

Inductive VwsFrameType : Type := f_open | f_accept | f_text | f_binary | f_ping | f_pong | f_close | f_error.
Definition frame_types : list VwsFrameType := [f_open; f_accept; f_text; f_binary; f_ping; f_pong; f_close; f_error].
Definition frame_type_name (t : VwsFrameType) : jsstring :=
  match t with
  | f_open => js "open" | f_accept => js "accept" | f_text => js "text" | f_binary => js "binary"
  | f_ping => js "ping" | f_pong => js "pong" | f_close => js "close" | f_error => js "error"
  end.

(** ** Codec *)
Definition encodeVwsFrame (frame : jsval) : jsstring := json_text frame ++ [10].

Definition plainError (message : string) : exn := NativeErr GenericError (js message).
#[global] Arguments plainError message%_string.
Definition vwsProtocolError (message : jsstring) : exn := ClosingErr message 1002.

Definition is_base64_unit (c : Z) : bool := is_alnum c || (c =? 43) || (c =? 47).
(** [/^(?:[A-Za-z0-9+/]{4})*(?:[A-Za-z0-9+/]{2}==|[A-Za-z0-9+/]{3}=)?$/] *)
Fixpoint is_base64 (s : jsstring) : bool :=
  match s with
  | [] => true
  | a :: b :: c :: d :: t =>
      is_base64_unit a && is_base64_unit b &&
      (is_base64_unit c && is_base64_unit d && is_base64 t ||
       bool_decide (t = []) && (d =? 61) && (is_base64_unit c || (c =? 61)))
  | _ => false
  end.

Definition is_string (v : jsval) : bool := match v with JStr _ => true | _ => false end.
Definition string_or_undef (v : jsval) : bool := is_string v || is_undef v.

Definition valid_close_code (code : Z) : bool :=
  ((1000 <=? code) && (code <=? 1014) && negb (existsb (Z.eqb code) [1004; 1005; 1006])) ||
  ((3000 <=? code) && (code <=? 4999)).

Definition optionalString (obj : list (jsstring * jsval)) (name : jsstring) : result exn unit :=
  throw_if (negb (string_or_undef (prop name obj))) (vwsProtocolError (js "Invalid VWS " ++ name)).

(** The [switch] on the frame type. *)
Definition validate_frame (obj : list (jsstring * jsval)) (type : jsstring) : result exn unit :=
  match find (fun t => str_eqb (frame_type_name t) type) frame_types with
  | Some f_open =>
      _ ← throw_if (negb (is_string (prop (js "domain") obj)) || negb (string_or_undef (prop (js "path") obj)))
            (vwsProtocolError (js "Invalid VWS open frame"));
      optionalString obj (js "protocol")
  | Some f_accept => optionalString obj (js "protocol")
  | Some f_text => throw_if (negb (is_string (prop (js "data") obj))) (vwsProtocolError (js "Invalid VWS text frame"))
  | Some f_binary =>
      throw_if (match prop (js "data") obj with JStr d => negb (is_base64 d) | _ => true end)
        (vwsProtocolError (js "Invalid VWS binary frame"))
  | Some f_ping | Some f_pong => optionalString obj (js "data")
  | Some f_close =>
      match prop (js "code") obj with
      | JNum (num_int code) =>
          _ ← throw_if (negb (string_or_undef (prop (js "reason") obj))) (vwsProtocolError (js "Invalid VWS close frame"));
          _ ← throw_if (negb (valid_close_code code)) (vwsProtocolError (js "Invalid VWS close code"));
          throw_if (match prop (js "reason") obj with JStr r => 123 <? byte_length r | _ => false end)
            (vwsProtocolError (js "VWS close reason exceeds 123 UTF-8 bytes"))
      | _ => Throw (vwsProtocolError (js "Invalid VWS close frame"))
      end
  | Some f_error => throw_if (negb (is_string (prop (js "message") obj))) (vwsProtocolError (js "Invalid VWS error frame"))
  | None => Throw (vwsProtocolError (js "Unknown VWS frame type"))
  end.

Definition decodeVwsFrame (line : jsstring) : result exn jsval :=
  if VWS_MAX_FRAME_BYTES <? byte_length line then
    Throw (ClosingErr (js "VWS frame exceeds maximum allowed size") 1009)
  else
    let trimmed := trim_end line in
    match json_parse trimmed with
    | None => Throw (EngineErr SyntaxError trimmed)
    | Some (JObj obj) =>
        match prop (js "type") obj with
        | JStr type => _ ← validate_frame obj type; Ok (JObj obj)
        | _ => Throw (plainError "Invalid VWS frame: missing or non-string type")
        end
    | Some (JArr _) => Throw (plainError "Invalid VWS frame: missing or non-string type")
    | Some _ => Throw (plainError "Invalid VWS frame: expected a JSON object")
    end.

(** ** Line reader

    [readVwsLine] is a machine over the stream's events: it settles once, and
    detaches its listeners when it does. *)
Inductive vws_event : Type :=
  | ev_data (chunk : bytes)
  | ev_end
  | ev_error (e : exn)
  | ev_close.

Record line_reader := {
  lr_chunks : bytes;                           (** the concatenated [chunks] *)
  lr_settled : option (result exn jsstring);
  lr_unshifted : bytes;                        (** given back to the stream *)
}.
Definition line_reader_init : line_reader := {| lr_chunks := []; lr_settled := None; lr_unshifted := [] |}.

Section LineReader.
Context (maxBytes : Z).

Definition settle (r : result exn jsstring) (st : line_reader) : line_reader :=
  {| lr_chunks := lr_chunks st; lr_settled := Some r; lr_unshifted := lr_unshifted st |}.

Definition oversize : exn :=
  ClosingErr (js "VWS frame exceeds maximum allowed size (" ++ num_to_string (num_int maxBytes) ++ js " bytes)") 1009.

Definition onData (next : bytes) (st : line_reader) : line_reader :=
  match index_of [10] next with
  | None =>
      let st' := {| lr_chunks := lr_chunks st ++ next; lr_settled := None; lr_unshifted := lr_unshifted st |} in
      if maxBytes <? len (lr_chunks st') then settle (Throw oversize) st' else st'
  | Some idx =>
      if maxBytes <? len (lr_chunks st) + Z.of_nat idx then settle (Throw oversize) st
      else
        {| lr_chunks := lr_chunks st;
           lr_settled := Some (Ok (utf8_decode (lr_chunks st ++ take idx next)));
           lr_unshifted := drop (S idx) next |}
  end.

Definition vws_step (st : line_reader) (ev : vws_event) : line_reader :=
  match lr_settled st with
  | Some _ => st
  | None =>
      match ev with
      | ev_data chunk => onData chunk st
      | ev_end =>
          if 0 <? len (lr_chunks st) then settle (Ok (utf8_decode (lr_chunks st))) st
          else settle (Throw (plainError "Stream ended before VWS frame")) st
      | ev_error e => settle (Throw e) st
      | ev_close => settle (Throw (plainError "Stream closed before VWS frame")) st
      end
  end.

Definition readVwsLine (evs : list vws_event) : line_reader := fold_left vws_step evs line_reader_init.
End LineReader.

(** * Theory *)

(** ** Frames *)
Lemma find_frame_type t : find (fun t' => str_eqb (frame_type_name t') (frame_type_name t)) frame_types = Some t.
Proof. by destruct t. Qed.

Lemma json_text_obj_last o : exists t, json_text (JObj o) = t ++ [125].
Proof. cbn [json_text]. eexists (123 :: _). reflexivity. Qed.

Lemma trim_end_frame t : trim_end ((t ++ [125]) ++ [10]) = t ++ [125].
Proof.
  unfold trim_end. rewrite !reverse_app. change (reverse [10]) with [10]. change (reverse [125]) with [125].
  cbn [app drop_while]. change (is_space 10) with true. change (is_space 125) with false. cbv match.
  by rewrite reverse_cons, reverse_involutive.
Qed.

Lemma trim_end_object o : trim_end (json_text (JObj o)) = json_text (JObj o).
Proof.
  destruct (json_text_obj_last o) as [t ->]. unfold trim_end. rewrite reverse_app. change (reverse [125]) with [125].
  cbn [app drop_while]. change (is_space 125) with false. cbv match. by rewrite reverse_cons, reverse_involutive.
Qed.

Lemma wf_units_forallb s : wf_units s -> forallb is_unit s = true.
Proof. intros H. apply forallb_forall. intros c Hc. unfold wf_units in H. rewrite Forall_forall in H. by apply H, list_elem_of_In. Qed.

(** A frame object the decoder admits. *)
Definition frame_ok (o : list (jsstring * jsval)) : Prop :=
  exists type, prop (js "type") o = JStr type /\ validate_frame o type = Ok tt.

(** A frame read back from its line, the newline taken off. *)
Lemma decode_line o : frame_ok o -> json_plain (JObj o) = true -> byte_length (json_text (JObj o)) <= VWS_MAX_FRAME_BYTES ->
  decodeVwsFrame (json_text (JObj o)) = Ok (JObj o).
Proof.
  intros (type & Ht & Hv) Hp Hlen. unfold decodeVwsFrame. rewrite (proj2 (Z.ltb_ge _ _)) by exact Hlen.
  rewrite trim_end_object, json_parse_text by exact Hp. by rewrite Ht, Hv.
Qed.

(** C38: every admissible frame within the size limit survives the wire: its
    encoded line holds no newline but the last, and decodes to the same frame. *)
Theorem vws_frame_roundtrip o :
  frame_ok o -> json_plain (JObj o) = true -> byte_length (encodeVwsFrame (JObj o)) <= VWS_MAX_FRAME_BYTES ->
  10 ∉ json_text (JObj o) /\ decodeVwsFrame (encodeVwsFrame (JObj o)) = Ok (JObj o).
Proof.
  intros (type & Ht & Hv) Hp Hlen. split; [by apply text_ok_not_elem, json_text_ok|].
  unfold decodeVwsFrame. rewrite (proj2 (Z.ltb_ge _ _)) by exact Hlen.
  unfold encodeVwsFrame. destruct (json_text_obj_last o) as [t Et]. rewrite Et, trim_end_frame, <- Et.
  rewrite json_parse_text by exact Hp. rewrite Ht, Hv. reflexivity.
Qed.

(** A decoded close frame carries an integer code that RFC 6455 lets an
    endpoint send, and a reason of at most 123 bytes. *)
Theorem vws_close_frame_safe line o :
  decodeVwsFrame line = Ok (JObj o) -> prop (js "type") o = JStr (js "close") ->
  exists code, prop (js "code") o = JNum (num_int code) /\
    ((1000 <= code <= 1014 /\ code <> 1004 /\ code <> 1005 /\ code <> 1006) \/ 3000 <= code <= 4999) /\
    (prop (js "reason") o = JUndef \/ exists r, prop (js "reason") o = JStr r /\ byte_length r <= 123).
Proof.
  intros H Ht. unfold decodeVwsFrame in H. destruct (_ <? _); [done|].
  destruct (json_parse _) as [[| | | | | |obj]|]; try done.
  destruct (prop (js "type") obj) as [| | | |ty| |] eqn:Ety; try done.
  apply bind_Ok_inv in H as ([] & Hv & H). injection H as ->. rewrite Ety in Ht. injection Ht as ->.
  unfold validate_frame in Hv. change (js "close") with (frame_type_name f_close) in Hv.
  rewrite find_frame_type in Hv. destruct (prop (js "code") o) as [| | |[code| | |]| | |]; try done.
  exists code. split; [done|].
  apply bind_Ok_inv in Hv as (_ & Hr%throw_if_Ok_inv & Hv). apply bind_Ok_inv in Hv as (_ & Hc%throw_if_Ok_inv & Hv).
  apply throw_if_Ok_inv in Hv. split.
  - unfold valid_close_code in Hc. cbn [existsb] in Hc. lia.
  - unfold string_or_undef, is_string, is_undef in Hr. destruct (prop (js "reason") o); try done; [by left|].
    right. eexists. split; [done|]. by apply Z.ltb_ge.
Qed.

(** ** The line reader *)
Section LineReaderTheory.
Context (maxBytes : Z).

Lemma vws_settled st evs r : lr_settled st = Some r -> fold_left (vws_step maxBytes) evs st = st.
Proof. intros Hs. induction evs as [|ev evs IH]; [done|]. simpl. unfold vws_step at 2. by rewrite Hs. Qed.

(** What the bytes received determine, however they were cut into chunks. *)
Definition line_of (b : bytes) : option (result exn jsstring * bytes) :=
  match index_of [10] b with
  | Some idx => if maxBytes <? Z.of_nat idx then Some (Throw (oversize maxBytes), [])
                else Some (Ok (utf8_decode (take idx b)), drop (S idx) b)
  | None => if maxBytes <? len b then Some (Throw (oversize maxBytes), []) else None
  end.

Lemma index_of_app_None c s t : index_of [c] s = None ->
  index_of [c] (s ++ t) = (fun i => (length s + i)%nat) <$> index_of [c] t.
Proof.
  induction s as [|d s IH]; [intros _; cbn [app]; by destruct (index_of [c] t)|].
  cbn [app index_of starts_with]. rewrite !andb_true_r. destruct (c =? d); [done|].
  intros H. destruct (index_of [c] s) eqn:E; [done|]. rewrite IH by done.
  by destruct (index_of [c] t).
Qed.
Lemma index_of_app_Some c s t i : index_of [c] s = Some i -> index_of [c] (s ++ t) = Some i.
Proof.
  rewrite !index_of_single. intros [Hi Hn]. pose proof (lookup_lt_Some _ _ _ Hi).
  split; [by rewrite lookup_app_l|]. by rewrite take_app_le by lia.
Qed.

Lemma onData_spec st next : lr_settled st = None -> lr_unshifted st = [] ->
  index_of [10] (lr_chunks st) = None -> len (lr_chunks st) <= maxBytes ->
  match line_of (lr_chunks st ++ next) with
  | Some (r, rest) => lr_settled (onData maxBytes next st) = Some r /\
      match r with Ok _ => lr_unshifted (onData maxBytes next st) = rest | Throw _ => True end
  | None => onData maxBytes next st =
      {| lr_chunks := lr_chunks st ++ next; lr_settled := None; lr_unshifted := [] |} /\
      index_of [10] (lr_chunks st ++ next) = None /\ len (lr_chunks st ++ next) <= maxBytes
  end.
Proof.
  intros Hs Hu Hn Hl. unfold line_of, onData. rewrite index_of_app_None by done.
  destruct (index_of [10] next) as [i|]; simpl.
  - rewrite Nat2Z.inj_add. fold (len (lr_chunks st)).
    destruct (maxBytes <? len (lr_chunks st) + Z.of_nat i); [done|]. simpl.
    rewrite take_app_add, drop_app_ge by lia. split; [done|]. f_equal. lia.
  - destruct (Z.ltb_spec maxBytes (len (lr_chunks st ++ next))); [done|]. by rewrite Hu.
Qed.

Lemma line_of_app b t r rest : line_of b = Some (r, rest) ->
  line_of (b ++ t) = Some (r, match r with Ok _ => rest ++ t | Throw _ => [] end).
Proof.
  unfold line_of. destruct (index_of [10] b) as [i|] eqn:E.
  - rewrite (index_of_app_Some _ _ _ _ E). destruct (maxBytes <? Z.of_nat i); [by intros [= <- <-]|].
    apply index_of_single in E as [Hi _]. apply lookup_lt_Some in Hi.
    intros [= <- <-]. rewrite take_app_le by lia. rewrite drop_app_le by lia. done.
  - destruct (Z.ltb_spec maxBytes (len b)) as [Hm|]; [|done]. intros [= <- <-].
    rewrite index_of_app_None by done. destruct (index_of [10] t) as [i|]; simpl.
    + by rewrite (proj2 (Z.ltb_lt _ _)) by (unfold len in *; lia).
    + by rewrite (proj2 (Z.ltb_lt _ _)) by (rewrite len_app; pose proof (len_nonneg t); lia).
Qed.

Definition reader_waiting (b : bytes) (st : line_reader) : Prop :=
  st = {| lr_chunks := b; lr_settled := None; lr_unshifted := [] |} /\
  index_of [10] b = None /\ len b <= maxBytes.

Lemma line_of_waiting b : index_of [10] b = None -> len b <= maxBytes -> line_of b = None.
Proof. unfold line_of. intros ->. by rewrite <- Z.ltb_ge; intros ->. Qed.

Lemma read_chunks b st chunks : reader_waiting b st ->
  match line_of (b ++ concat chunks) with
  | Some (r, rest) =>
      exists k, fold_left (vws_step maxBytes) (map ev_data (take k chunks)) st =
                fold_left (vws_step maxBytes) (map ev_data chunks) st /\
        lr_settled (fold_left (vws_step maxBytes) (map ev_data chunks) st) = Some r /\
        match r with
        | Ok _ => lr_unshifted (fold_left (vws_step maxBytes) (map ev_data chunks) st) ++ concat (drop k chunks) = rest
        | Throw _ => True
        end
  | None => reader_waiting (b ++ concat chunks) (fold_left (vws_step maxBytes) (map ev_data chunks) st)
  end.
Proof.
  revert b st. induction chunks as [|c chunks IH]; intros b st (-> & Hn & Hl).
  - simpl. rewrite app_nil_r, line_of_waiting by done. done.
  - set (st0 := {| lr_chunks := b; lr_settled := None; lr_unshifted := [] |}).
    pose proof (onData_spec st0 c eq_refl eq_refl Hn Hl) as Hd.
    cbn [concat map fold_left]. rewrite app_assoc. change (vws_step maxBytes st0 (ev_data c)) with (onData maxBytes c st0).
    change (lr_chunks st0) with b in Hd. destruct (line_of (b ++ c)) as [[r rest]|] eqn:El.
    + destruct Hd as [Hs Hr]. rewrite (line_of_app _ (concat chunks) _ _ El).
      rewrite (vws_settled (onData maxBytes c st0) _ r) by done. exists 1%nat.
      cbn [take drop map fold_left]. change (take 0 chunks) with (@nil bytes). cbn [map fold_left].
      split; [done|]. split; [done|]. destruct r; [|done]. by rewrite Hr.
    + destruct Hd as (Heq & Hn' & Hl'). rewrite Heq.
      specialize (IH (b ++ c) _ (conj eq_refl (conj Hn' Hl'))).
      destruct (line_of ((b ++ c) ++ concat chunks)) as [[r rest]|]; [|done].
      destruct IH as (k & Hk & Hs & Hr). exists (S k). split_and!; [|exact Hs|exact Hr].
      cbn [take firstn map fold_left]. change (vws_step maxBytes st0 (ev_data c)) with (onData maxBytes c st0). by rewrite Heq.
Qed.

(** C37: the line reader's outcome depends on the bytes alone and not on their
    division into chunks: the first line when it is within the limit, with every
    byte after its newline left on the stream; the size error when the limit is
    passed first; the unfinished line when the stream ends after it. *)
Theorem readVwsLine_correct chunks : 0 <= maxBytes ->
  match line_of (concat chunks) with
  | Some (r, rest) =>
      exists k, readVwsLine maxBytes (map ev_data (take k chunks)) = readVwsLine maxBytes (map ev_data chunks) /\
        lr_settled (readVwsLine maxBytes (map ev_data chunks)) = Some r /\
        match r with
        | Ok line => lr_unshifted (readVwsLine maxBytes (map ev_data chunks)) ++ concat (drop k chunks) = rest
        | Throw _ => True
        end
  | None =>
      lr_settled (readVwsLine maxBytes (map ev_data chunks ++ [ev_end])) =
        Some (if decide (concat chunks = []) then Throw (plainError "Stream ended before VWS frame")
              else Ok (utf8_decode (concat chunks)))
  end.
Proof.
  intros Hm. assert (reader_waiting [] line_reader_init) as Hw by (split_and!; done).
  pose proof (read_chunks _ _ chunks Hw) as H. cbn [app] in H. unfold readVwsLine in *.
  destruct (line_of (concat chunks)) as [[r rest]|]; [done|].
  destruct H as (H & _). rewrite fold_left_app, H. cbn [fold_left vws_step lr_settled lr_chunks].
  destruct (concat chunks) as [|x b]; [done|]. rewrite decide_False by done. done.
Qed.
End LineReaderTheory.

Definition sample_frame : list (jsstring * jsval) :=
  [(js "type", JStr (js "close")); (js "code", JNum (num_int 1000)); (js "reason", JStr (js "bye"))].

Lemma vws_frame_roundtrip_witness :
  decodeVwsFrame (encodeVwsFrame (JObj sample_frame)) = Ok (JObj sample_frame).
Proof.
  refine (proj2 (vws_frame_roundtrip sample_frame _ _ _)).
  - eexists. split; [reflexivity|]. vm_compute. reflexivity.
  - vm_compute. reflexivity.
  - vm_compute. discriminate.
Defined.

Lemma vws_close_frame_safe_witness :
  exists code, prop (js "code") sample_frame = JNum (num_int code) /\
    ((1000 <= code <= 1014 /\ code <> 1004 /\ code <> 1005 /\ code <> 1006) \/ 3000 <= code <= 4999).
Proof.
  destruct (vws_close_frame_safe (encodeVwsFrame (JObj sample_frame)) sample_frame) as (code & H1 & H2 & _).
  - vm_compute. reflexivity.
  - reflexivity.
  - by exists code.
Defined.

Lemma readVwsLine_correct_witness :
  lr_settled (readVwsLine 8 (map ev_data [js "ab"; js "c" ++ [10] ++ js "d"; js "ef"])) = Some (Ok (js "abc")) /\
  lr_unshifted (readVwsLine 8 (map ev_data [js "ab"; js "c" ++ [10] ++ js "d"; js "ef"])) = js "d".
Proof.
  pose proof (readVwsLine_correct 8 [js "ab"; js "c" ++ [10] ++ js "d"; js "ef"] ltac:(lia)) as H.
  destruct H as (k & _ & Hs & _). split; [exact Hs|reflexivity].
Defined.
