(* ===== verification/Base64.v ===== *)
(** Base64 of a [Buffer]: [toString('base64')] and [Buffer.from(s, 'base64')] on
    the texts that pass the pattern of the VWS frames ([Vws.is_base64]). *)
From S2P Require Import Prelude JsNum Utf8 Json Errors Vws.

(** The unit of a 6-bit value, and the value of a unit. *)
Definition b64_unit (n : Z) : Z :=
  if n <? 26 then 65 + n else if n <? 52 then 71 + n else if n <? 62 then n - 4 else if n =? 62 then 43 else 47.
Definition b64_value (c : Z) : Z :=
  if c =? 43 then 62 else if c =? 47 then 63 else if c <? 65 then c + 4 else if c <? 97 then c - 65 else c - 71.
Fixpoint base64_encode (b : bytes) : jsstring :=
  match b with
  | [] => []
  | [x] => [b64_unit (x / 4); b64_unit (x mod 4 * 16); 61; 61]
  | [x; y] => [b64_unit (x / 4); b64_unit (x mod 4 * 16 + y / 16); b64_unit (y mod 16 * 4); 61]
  | x :: y :: z :: b =>
      b64_unit (x / 4) :: b64_unit (x mod 4 * 16 + y / 16) :: b64_unit (y mod 16 * 4 + z / 64) :: b64_unit (z mod 64) :: base64_encode b
  end.
Fixpoint base64_decode (s : jsstring) : bytes :=
  match s with
  | a :: b :: c :: d :: s =>
      if c =? 61 then [b64_value a * 4 + b64_value b / 16]
      else if d =? 61 then [b64_value a * 4 + b64_value b / 16; b64_value b mod 16 * 16 + b64_value c / 4]
      else b64_value a * 4 + b64_value b / 16 :: b64_value b mod 16 * 16 + b64_value c / 4 :: b64_value c mod 4 * 64 + b64_value d :: base64_decode s
  | _ => []
  end.

(** * Theory *)
Lemma b64_value_unit n : 0 <= n < 64 -> b64_value (b64_unit n) = n /\ is_base64_unit (b64_unit n) = true /\ b64_unit n <> 61.
Proof.
  intros Hn. unfold b64_unit, is_base64_unit, is_alnum, is_upper, is_lower, is_digit, b64_value.
  repeat match goal with |- context [if ?b then _ else _] => destruct b eqn:?; try lia end.
Qed.
(** Induction on bytes three at a time. *)
Lemma bytes_ind3 (Q : bytes -> Prop) : Q [] -> (forall x, Q [x]) -> (forall x y, Q [x; y]) -> (forall x y z b, Q b -> Q (x :: y :: z :: b)) -> forall b, Q b.
Proof.
  intros H0 H1 H2 H3. fix IH 1. intros [|x [|y [|z b]]]; [exact H0|apply H1|apply H2|apply H3, IH].
Qed.
Lemma wf_byte_range b : wf_bytes b -> Forall (fun x => 0 <= x < 256) b.
Proof. intros H. eapply Forall_impl; [exact H|]. intros x Hx. unfold is_byte in Hx. lia. Qed.

(** Bytes survive the text, and the text passes the pattern. *)
Lemma base64_roundtrip b : wf_bytes b -> base64_decode (base64_encode b) = b /\ is_base64 (base64_encode b) = true.
Proof.
  intros Hb%wf_byte_range. induction b as [|x|x y|x y z b IH] using bytes_ind3; [done| | |].
  - apply Forall_cons in Hb as [Hx _].
    destruct (b64_value_unit (x / 4)) as (V1 & B1 & N1); [Z.to_euclidean_division_equations; lia|].
    destruct (b64_value_unit (x mod 4 * 16)) as (V2 & B2 & N2); [Z.to_euclidean_division_equations; lia|].
    cbn [base64_encode base64_decode is_base64]. rewrite V1, V2, B1, B2. split; [|done]. cbn. f_equal. Z.to_euclidean_division_equations; lia.
  - apply Forall_cons in Hb as [Hx Hb]. apply Forall_cons in Hb as [Hy _].
    destruct (b64_value_unit (x / 4)) as (V1 & B1 & N1); [Z.to_euclidean_division_equations; lia|].
    destruct (b64_value_unit (x mod 4 * 16 + y / 16)) as (V2 & B2 & N2); [Z.to_euclidean_division_equations; lia|].
    destruct (b64_value_unit (y mod 16 * 4)) as (V3 & B3 & N3); [Z.to_euclidean_division_equations; lia|].
    cbn [base64_encode base64_decode is_base64]. rewrite V1, V2, V3, B1, B2, B3, (proj2 (Z.eqb_neq _ _) N3). split; [|done]. cbn.
    f_equal; [|f_equal]; Z.to_euclidean_division_equations; lia.
  - apply Forall_cons in Hb as [Hx Hb]. apply Forall_cons in Hb as [Hy Hb]. apply Forall_cons in Hb as [Hz Hb].
    destruct (b64_value_unit (x / 4)) as (V1 & B1 & N1); [Z.to_euclidean_division_equations; lia|].
    destruct (b64_value_unit (x mod 4 * 16 + y / 16)) as (V2 & B2 & N2); [Z.to_euclidean_division_equations; lia|].
    destruct (b64_value_unit (y mod 16 * 4 + z / 64)) as (V3 & B3 & N3); [Z.to_euclidean_division_equations; lia|].
    destruct (b64_value_unit (z mod 64)) as (V4 & B4 & N4); [Z.to_euclidean_division_equations; lia|].
    destruct (IH Hb) as [Hd He]. cbn [base64_encode base64_decode is_base64].
    rewrite V1, V2, V3, V4, B1, B2, B3, B4, He, Hd, (proj2 (Z.eqb_neq _ _) N3), (proj2 (Z.eqb_neq _ _) N4). split; [|done].
    f_equal; [|f_equal; [|f_equal]]; Z.to_euclidean_division_equations; lia.
Qed.
Lemma b64_unit_unit n : 0 <= n < 64 -> is_unit (b64_unit n) = true.
Proof.
  intros Hn. unfold b64_unit, is_unit. repeat match goal with |- context [if ?b then _ else _] => destruct b eqn:?; try lia end.
Qed.
Lemma base64_units b : wf_bytes b -> forallb is_unit (base64_encode b) = true.
Proof.
  intros Hb%wf_byte_range. induction b as [|x|x y|x y z b IH] using bytes_ind3; [done| | |]; cbn [base64_encode forallb].
  - apply Forall_cons in Hb as [Hx _]. by rewrite !b64_unit_unit by (Z.to_euclidean_division_equations; lia).
  - apply Forall_cons in Hb as [Hx Hb]. apply Forall_cons in Hb as [Hy _]. by rewrite !b64_unit_unit by (Z.to_euclidean_division_equations; lia).
  - apply Forall_cons in Hb as [Hx Hb]. apply Forall_cons in Hb as [Hy Hb]. apply Forall_cons in Hb as [Hz Hb].
    rewrite !b64_unit_unit by (Z.to_euclidean_division_equations; lia). by rewrite IH.
Qed.
