(* ===== verification/Envelope.v ===== *)
(** Binary envelopes and their readers (verser-common [envelope.ts],
    [stream-readers.ts], the envelope part of [constants.ts]). *)
From S2P Require Import Prelude JsNum Utf8 Json Errors Headers.

Definition VERSER_ENVELOPE_VERSION : Z := 1.
Definition VERSER_ENVELOPE_PREFIX_BYTES : Z := 6.
Definition DEFAULT_MAX_ENVELOPE_METADATA_BYTES : Z := 64 * 1024.

Inductive VerserEnvelopeTypeName : Type := env_request | env_response | env_error.
#[export] Instance VerserEnvelopeTypeName_eq_dec : EqDecision VerserEnvelopeTypeName.
Proof. solve_decision. Defined.
Definition type_name (t : VerserEnvelopeTypeName) : jsstring :=
  match t with env_request => js "request" | env_response => js "response" | env_error => js "error" end.
Definition VERSER_ENVELOPE_TYPES (t : VerserEnvelopeTypeName) : Z :=
  match t with env_request => 1 | env_response => 2 | env_error => 3 end.

(** [envelopeTypeNameFromCode(code, VERSER_ENVELOPE_TYPES)] *)
Definition envelope_type_of (code : Z) : result exn VerserEnvelopeTypeName :=
  match find (fun t => VERSER_ENVELOPE_TYPES t =? code) [env_request; env_response; env_error] with
  | Some t => Ok t
  | None => Throw (verr protocol_error "Unknown envelope type" [(js "envelopeType", JNum (num_int code))])
  end.

(** Big-endian 32-bit words. *)
Definition uint32_be (n : Z) : bytes :=
  [Z.land (Z.shiftr n 24) 255; Z.land (Z.shiftr n 16) 255; Z.land (Z.shiftr n 8) 255; Z.land n 255].
Definition read_uint32_be (b0 b1 b2 b3 : Z) : Z := b0 * 16777216 + b1 * 65536 + b2 * 256 + b3.

Record ParsedVerserEnvelope := {
  pe_type : VerserEnvelopeTypeName;
  pe_metadata : list (jsstring * jsval);
  pe_bodyRemainder : bytes;
}.

(** [writeUInt32BE] throws a [RangeError] beyond 32 bits. *)
Definition encodeVerserEnvelope (type : VerserEnvelopeTypeName) (metadata : jsval) : result exn bytes :=
  let encoded := utf8_encode (json_text metadata) in
  if 2 ^ 32 <=? len encoded then Throw (EngineErr RangeError [])
  else Ok ([VERSER_ENVELOPE_VERSION; VERSER_ENVELOPE_TYPES type] ++ uint32_be (len encoded) ++ encoded).

Definition parseEnvelopeMetadata (metadataBytes : bytes) (type : VerserEnvelopeTypeName) : result exn (list (jsstring * jsval)) :=
  match json_parse (utf8_decode metadataBytes) with
  | Some (JObj o) => Ok o
  | Some _ => Throw (verr protocol_error "Envelope metadata must be a JSON object" [(js "type", JStr (type_name type))])
  | None => Throw (verr protocol_error "Invalid envelope metadata JSON" [(js "type", JStr (type_name type))])
  end.

(** ** The push parser *)
Section Parser.
Context (maxMetadataBytes : Z).

Definition maxPendingEnvelopeBytes : Z := VERSER_ENVELOPE_PREFIX_BYTES + maxMetadataBytes.

(** [push(chunk)] on the accumulated buffer: the outcome, and the buffer left.
    A throw leaves the bytes buffered. *)
Definition push (buffered chunk : bytes) : result exn (option ParsedVerserEnvelope) * bytes :=
  let buffered := buffered ++ chunk in
  match buffered with
  | version :: typeCode :: b0 :: b1 :: b2 :: b3 :: rest =>
      if negb (version =? VERSER_ENVELOPE_VERSION) then
        (Throw (verr protocol_error "Invalid envelope version" [(js "version", JNum (num_int version))]), buffered)
      else
        match envelope_type_of typeCode with
        | Throw e => (Throw e, buffered)
        | Ok type =>
            let metadataLength := read_uint32_be b0 b1 b2 b3 in
            if maxMetadataBytes <? metadataLength then
              (Throw (verr protocol_error "Envelope metadata length exceeds limit"
                        [(js "metadataLength", JNum (num_int metadataLength));
                         (js "maxMetadataBytes", JNum (num_int maxMetadataBytes))]), buffered)
            else if len rest <? metadataLength then (Ok None, buffered)
            else
              match parseEnvelopeMetadata (take (Z.to_nat metadataLength) rest) type with
              | Ok metadata =>
                  (Ok (Some {| pe_type := type; pe_metadata := metadata;
                               pe_bodyRemainder := drop (Z.to_nat metadataLength) rest |}), [])
              | Throw error =>
                  ((if maxPendingEnvelopeBytes <? len buffered then
                      Throw (verr protocol_error "Pending envelope input exceeds limit"
                               [(js "bufferedBytes", JNum (num_int (len buffered)));
                                (js "maxPendingEnvelopeBytes", JNum (num_int maxPendingEnvelopeBytes));
                                (js "maxMetadataBytes", JNum (num_int maxMetadataBytes))])
                    else Throw error), buffered)
              end
        end
  | _ => (Ok None, buffered)
  end.

(** Push chunks until an envelope or an error comes out. *)
Fixpoint feed (buffered : bytes) (chunks : list bytes) : result exn (option (ParsedVerserEnvelope * list bytes)) :=
  match chunks with
  | [] => Ok None
  | c :: cs =>
      match push buffered c with
      | (Ok None, b) => feed b cs
      | (Ok (Some p), _) => Ok (Some (p, cs))
      | (Throw e, _) => Throw e
      end
  end.
End Parser.

(** ** Streams

    A readable stream is the buffers its [read()] will hand out, and what
    happens after them. *)
Inductive stream_end : Type := st_end | st_error (e : exn) | st_close.
Record readable := { st_chunks : list bytes; st_ending : stream_end }.

Definition wait_failure (context : VerserErrorContext) (ending : stream_end) : exn :=
  match ending with
  | st_end => verr protocol_error "Lease stream ended before metadata" context
  | st_error e => e
  | st_close => verr protocol_error "Lease stream closed before metadata" context
  end.

(** The loop of [readExactly]: the bytes read and the chunks left; a chunk
    longer than what remains is split and its rest given back. *)
Fixpoint read_loop (chunks : list bytes) (remaining : nat) : option (bytes * list bytes) :=
  match remaining with
  | O => Some ([], chunks)
  | _ =>
      match chunks with
      | [] => None
      | c :: cs =>
          if (remaining <? length c)%nat then Some (take remaining c, drop remaining c :: cs)
          else '(b, rest) ← read_loop cs (remaining - length c)%nat; Some (c ++ b, rest)
      end
  end.

Definition readExactly (stream : readable) (byteCount : Z) (context : VerserErrorContext) : result exn (bytes * readable) :=
  match read_loop (st_chunks stream) (Z.to_nat byteCount) with
  | Some (b, rest) => Ok (b, {| st_chunks := rest; st_ending := st_ending stream |})
  | None => Throw (wait_failure context (st_ending stream))
  end.

Definition unshift (b : bytes) (stream : readable) : readable :=
  {| st_chunks := b :: st_chunks stream; st_ending := st_ending stream |}.

Definition readVerserEnvelopeFromStream (maxMetadataBytes : Z) (context : VerserErrorContext) (stream : readable)
    : result exn (ParsedVerserEnvelope * readable) :=
  '(prefix, stream) ← readExactly stream 2 context;
  '(lengthBytes, stream) ← readExactly stream 4 context;
  let metadataLength := match lengthBytes with [b0; b1; b2; b3] => read_uint32_be b0 b1 b2 b3 | _ => 0 end in
  _ ← throw_if (maxMetadataBytes <? metadataLength)
        (verr protocol_error "Envelope metadata length exceeds limit"
           (obj_spread context [(js "metadataLength", JNum (num_int metadataLength));
                                (js "maxMetadataBytes", JNum (num_int maxMetadataBytes))]));
  '(metadataBytes, stream) ← readExactly stream metadataLength context;
  match push maxMetadataBytes [] (prefix ++ lengthBytes ++ metadataBytes) with
  | (Throw e, _) => Throw e
  | (Ok None, _) => Throw (verr protocol_error "Lease stream metadata parser did not complete" context)
  | (Ok (Some parsed), _) =>
      Ok (parsed, if 0 <? len (pe_bodyRemainder parsed) then unshift (pe_bodyRemainder parsed) stream else stream)
  end.

(** ** Lease metadata *)
Definition assertResponseEnvelopeRequestId (metadata : list (jsstring * jsval)) (requestId targetId : jsstring) : result exn unit :=
  let found := prop (js "requestId") metadata in
  throw_if (negb (is_str requestId found))
    (verr protocol_error "Response envelope requestId mismatch"
       [(js "requestId", JStr requestId); (js "targetId", JStr targetId); (js "responseRequestId", found)]).

Definition readLeaseResponseMetadataFromStream (maxMetadataBytes : Z) (requestId targetId : jsstring) (stream : readable)
    : result exn (list (jsstring * jsval) * readable) :=
  let context := [(js "requestId", JStr requestId); (js "targetId", JStr targetId)] in
  '(parsed, stream) ← readVerserEnvelopeFromStream maxMetadataBytes context stream;
  let metadata := pe_metadata parsed in
  match pe_type parsed with
  | env_response =>
      _ ← assertResponseEnvelopeRequestId metadata requestId targetId;
      Ok (metadata, stream)
  | env_error =>
      _ ← assertResponseEnvelopeRequestId metadata requestId targetId;
      let code := if is_str (js "local-handler-failure") (prop (js "code") metadata)
                  then local_handler_failure else protocol_error in
      Throw (verr_js code (to_str (prop (js "message") metadata))
               (obj_spread (obj_of_entries (spread_entries (nullish (prop (js "context") metadata) (JObj []))))
                  [(js "targetId", JStr targetId); (js "requestId", JStr requestId)]))
  | env_request =>
      Throw (verr protocol_error "Lease stream returned a non-response envelope"
               [(js "targetId", JStr targetId); (js "requestId", JStr requestId)])
  end.

Section LeaseRequest.
Context {P : Platform}.

Definition header_entries (v : jsval) : result exn VerserHeaders :=
  match v with
  | JUndef | JNull => Throw (EngineErr TypeError (to_str v))
  | _ => Ok (spread_entries v)
  end.

Definition readLeaseRequestMetadataFromStream (maxMetadataBytes : Z) (guestId leaseId : jsstring) (stream : readable)
    : result exn (list (jsstring * jsval) * readable) :=
  let context := [(js "guestId", JStr guestId); (js "leaseId", JStr leaseId)] in
  '(parsed, stream) ← readVerserEnvelopeFromStream maxMetadataBytes context stream;
  match pe_type parsed with
  | env_request =>
      let metadata := pe_metadata parsed in
      entries ← header_entries (prop (js "headers") metadata);
      headers ← validateVerserHeaders entries;
      Ok (obj_set (js "headers") (JObj headers) metadata, stream)
  | _ => Throw (verr protocol_error "Lease stream received a non-request envelope" context)
  end.
End LeaseRequest.

(** * Theory *)
#[local] Ltac Zify.zify_post_hook ::= Z.div_mod_to_equations.

Lemma uint32_be_land n : 0 <= n < 2 ^ 32 ->
  uint32_be n = [n / 16777216 mod 256; n / 65536 mod 256; n / 256 mod 256; n mod 256].
Proof.
  intros Hn. unfold uint32_be. rewrite !Z.shiftr_div_pow2 by lia. change 255 with (Z.ones 8).
  rewrite !Z.land_ones by lia. reflexivity.
Qed.

Lemma read_write_uint32 n b0 b1 b2 b3 : 0 <= n < 2 ^ 32 -> uint32_be n = [b0; b1; b2; b3] ->
  read_uint32_be b0 b1 b2 b3 = n.
Proof. intros Hn. rewrite uint32_be_land by done. intros [= <- <- <- <-]. unfold read_uint32_be. lia. Qed.

Lemma envelope_type_of_code t : envelope_type_of (VERSER_ENVELOPE_TYPES t) = Ok t.
Proof. by destruct t. Qed.

Lemma encode_length type v b : encodeVerserEnvelope type v = Ok b ->
  exists m, m = utf8_encode (json_text v) /\ len m < 2 ^ 32 /\
    b = [VERSER_ENVELOPE_VERSION; VERSER_ENVELOPE_TYPES type] ++ uint32_be (len m) ++ m.
Proof.
  unfold encodeVerserEnvelope. destruct (Z.leb_spec (2 ^ 32) (len (utf8_encode (json_text v)))); [done|].
  intros [= <-]. eauto.
Qed.

Lemma parse_encoded_metadata type o : json_plain (JObj o) = true ->
  parseEnvelopeMetadata (utf8_encode (json_text (JObj o))) type = Ok o.
Proof.
  intros Hp. unfold parseEnvelopeMetadata. destruct (json_text_ok _ Hp) as [Hu Hw].
  rewrite utf8_decode_encode by eauto with verser. by rewrite json_parse_text.
Qed.

(** An encoded envelope, with any bytes after it. *)
Lemma push_encoded maxb type o b body :
  json_plain (JObj o) = true -> encodeVerserEnvelope type (JObj o) = Ok b ->
  byte_length (json_text (JObj o)) <= maxb ->
  forall b0 c, b0 ++ c = b ++ body ->
  push maxb b0 c = (Ok (Some {| pe_type := type; pe_metadata := o; pe_bodyRemainder := body |}), []).
Proof.
  intros Hp Hb Hmax b0 c Hc. destruct (encode_length _ _ _ Hb) as (m & Hm & Hlt & ->).
  unfold push. rewrite Hc. pose proof (len_nonneg m) as Hnn.
  destruct (uint32_be (len m)) as [|x0 [|x1 [|x2 [|x3 [|]]]]] eqn:Eu; try done.
  cbn [app]. change (negb (VERSER_ENVELOPE_VERSION =? VERSER_ENVELOPE_VERSION)) with false. cbv match.
  rewrite envelope_type_of_code. rewrite (read_write_uint32 (len m)) by done.
  unfold byte_length in Hmax. rewrite <- Hm in Hmax.
  rewrite (proj2 (Z.ltb_ge maxb (len m))) by done.
  rewrite (proj2 (Z.ltb_ge (len (m ++ body)) (len m))) by (rewrite len_app; pose proof (len_nonneg body); lia).
  unfold len at 1 2 3. rewrite Nat2Z.id, take_app_length, drop_app_length.
  by rewrite Hm, parse_encoded_metadata.
Qed.

(** A strict prefix of an encoded envelope neither completes nor fails. *)
Lemma push_prefix maxb type o b b0 c :
  encodeVerserEnvelope type (JObj o) = Ok b -> byte_length (json_text (JObj o)) <= maxb ->
  (exists more, more <> [] /\ b = (b0 ++ c) ++ more) -> push maxb b0 c = (Ok None, b0 ++ c).
Proof.
  intros Hb Hmax (more & Hne & Hpre). destruct (encode_length _ _ _ Hb) as (m & Hm & Hlt & Heq).
  unfold push. pose proof (len_nonneg m) as Hnn.
  destruct (b0 ++ c) as [|v [|t [|y0 [|y1 [|y2 [|y3 rest]]]]]] eqn:Ebc; try done.
  rewrite Heq in Hpre. destruct (uint32_be (len m)) as [|x0 [|x1 [|x2 [|x3 [|]]]]] eqn:Eu; try done.
  cbn [app] in Hpre. injection Hpre as <- <- <- <- <- <- Hrest.
  change (negb (VERSER_ENVELOPE_VERSION =? VERSER_ENVELOPE_VERSION)) with false. cbv match.
  rewrite envelope_type_of_code. rewrite (read_write_uint32 (len m)) by done.
  unfold byte_length in Hmax. rewrite <- Hm in Hmax.
  rewrite (proj2 (Z.ltb_ge maxb (len m))) by done.
  rewrite (proj2 (Z.ltb_lt (len rest) (len m))); [done|].
  rewrite Hrest, len_app. destruct more; [done|]. rewrite len_cons. pose proof (len_nonneg more). lia.
Qed.

(** C30: an encoded envelope followed by a body, delivered in chunks of any sizes,
    is parsed exactly once, when its last byte arrives; the metadata is the one
    encoded, and the body bytes are handed on without loss or reordering.  This
    holds when the metadata is plain JSON (nothing [JSON.stringify] would drop or
    change) and its text takes at most the bytes the reader allows: the encoder
    has no such limit (lemma [oversized_refused]). *)
Theorem envelope_roundtrip maxb type o b body chunks :
  json_plain (JObj o) = true -> encodeVerserEnvelope type (JObj o) = Ok b ->
  byte_length (json_text (JObj o)) <= maxb -> concat chunks = b ++ body ->
  exists p unread, feed maxb [] chunks = Ok (Some (p, unread)) /\
    pe_type p = type /\ pe_metadata p = o /\ pe_bodyRemainder p ++ concat unread = body.
Proof.
  intros Hp Hb Hmax Hc.
  assert (b <> []) as Hbne by (destruct (encode_length _ _ _ Hb) as (m & _ & _ & ->); done).
  assert (forall b0, (exists more, more <> [] /\ b = b0 ++ more) -> b0 ++ concat chunks = b ++ body ->
    exists p unread, feed maxb b0 chunks = Ok (Some (p, unread)) /\
      pe_type p = type /\ pe_metadata p = o /\ pe_bodyRemainder p ++ concat unread = body) as Hgen;
    [|apply Hgen; [by exists b|done]].
  clear Hc. induction chunks as [|c cs IH]; intros b0 (more & Hne & Hb0) Hc; cbn [feed concat] in *.
  - exfalso. rewrite app_nil_r in Hc. subst b. apply (f_equal length) in Hc. rewrite !length_app in Hc.
    destruct more; simpl in *; [done|lia].
  - rewrite app_assoc in Hc. destruct (decide (length b <= length (b0 ++ c))%nat) as [Hlen|Hlen].
    + assert (exists r, b0 ++ c = b ++ r) as [r Hr].
      { exists (drop (length b) (b0 ++ c)). apply (f_equal (take (length b))) in Hc as Ht.
        rewrite take_app_length, take_app_le in Ht by done. rewrite <- Ht at 1. symmetry. apply take_drop. }
      rewrite (push_encoded maxb type o b r Hp Hb Hmax b0 c Hr). eexists _, _. split; [done|].
      split_and!; [done..|]. simpl. rewrite Hr, <- app_assoc in Hc. by apply app_inv_head in Hc.
    + assert (exists r, r <> [] /\ b = (b0 ++ c) ++ r) as Hr.
      { exists (drop (length (b0 ++ c)) b). split.
        - intros E. apply (f_equal length) in E. rewrite length_drop in E. simpl in E. lia.
        - apply (f_equal (take (length (b0 ++ c)))) in Hc as Ht.
          rewrite take_app_length, take_app_le in Ht by lia. rewrite Ht at 1. symmetry. apply take_drop. }
      rewrite (push_prefix maxb type o b b0 c Hb Hmax Hr). by apply IH.
Qed.

(** ** Streams *)
Lemma read_loop_spec chunks n :
  match read_loop chunks n with
  | Some (b, rest) => b = take n (concat chunks) /\ concat rest = drop n (concat chunks) /\ (n <= length (concat chunks))%nat
  | None => (length (concat chunks) < n)%nat
  end.
Proof.
  revert n. induction chunks as [|c cs IH]; intros [|n]; cbn [read_loop concat]; try done; try (simpl; lia).
  - split_and!; try done. lia.
  - destruct (Nat.ltb_spec (S n) (length c)) as [Hlt|Hge].
    + rewrite take_app_le, drop_app_le, length_app by lia. split_and!; try done. lia.
    + specialize (IH (S n - length c)%nat). destruct (read_loop cs (S n - length c)) as [[b rest]|]; cbn [mbind option_bind].
      * destruct IH as (-> & -> & Hle). rewrite take_app_ge, drop_app_ge, length_app by lia. split_and!; try done. lia.
      * rewrite length_app. lia.
Qed.

(** [readExactly] returns the next [n] bytes however they are chunked, and
    leaves the rest; it fails, with the context it was given, exactly when the
    stream holds fewer. *)
Theorem readExactly_correct stream n context : 0 <= n ->
  match readExactly stream n context with
  | Ok (b, rest) => b = take (Z.to_nat n) (concat (st_chunks stream)) /\ len b = n /\
      b ++ concat (st_chunks rest) = concat (st_chunks stream) /\ st_ending rest = st_ending stream
  | Throw e => len (concat (st_chunks stream)) < n /\ e = wait_failure context (st_ending stream)
  end.
Proof.
  intros Hn. unfold readExactly. pose proof (read_loop_spec (st_chunks stream) (Z.to_nat n)) as H.
  destruct (read_loop _ _) as [[b rest]|].
  - destruct H as (-> & Hr & Hle). split_and!; [done| |cbn [st_chunks]; rewrite Hr; apply take_drop|done].
    unfold len. rewrite length_take. lia.
  - split; [|done]. unfold len. lia.
Qed.

Lemma readExactly_app stream a b context : concat (st_chunks stream) = a ++ b ->
  exists stream', readExactly stream (len a) context = Ok (a, stream') /\ concat (st_chunks stream') = b.
Proof.
  intros Hs. unfold readExactly. pose proof (read_loop_spec (st_chunks stream) (Z.to_nat (len a))) as H.
  unfold len in *. rewrite Nat2Z.id, Hs, take_app_length, drop_app_length in *.
  destruct (read_loop _ _) as [[x rest]|].
  - destruct H as (-> & Hr & _). by eexists.
  - rewrite length_app in H. lia.
Qed.

Lemma stream_envelope maxb context type o b body stream :
  json_plain (JObj o) = true -> encodeVerserEnvelope type (JObj o) = Ok b ->
  byte_length (json_text (JObj o)) <= maxb -> concat (st_chunks stream) = b ++ body ->
  exists stream', readVerserEnvelopeFromStream maxb context stream =
    Ok ({| pe_type := type; pe_metadata := o; pe_bodyRemainder := [] |}, stream') /\
    concat (st_chunks stream') = body.
Proof.
  intros Hp Hb Hmax Hs. destruct (encode_length _ _ _ Hb) as (m & Hm & Hlt & Heq).
  pose proof (len_nonneg m) as Hnn. unfold byte_length in Hmax. rewrite <- Hm in Hmax.
  unfold readVerserEnvelopeFromStream. rewrite Heq, <- !app_assoc in Hs.
  destruct (readExactly_app stream [VERSER_ENVELOPE_VERSION; VERSER_ENVELOPE_TYPES type] _ context Hs) as (s1 & H1 & Hs1).
  change (len [VERSER_ENVELOPE_VERSION; VERSER_ENVELOPE_TYPES type]) with 2 in H1. rewrite H1. cbn [mbind result_bind].
  destruct (readExactly_app s1 _ _ context Hs1) as (s2 & H2 & Hs2).
  change (len (uint32_be (len m))) with 4 in H2. rewrite H2. cbn [mbind result_bind].
  destruct (uint32_be (len m)) as [|x0 [|x1 [|x2 [|x3 [|]]]]] eqn:Eu; try done.
  rewrite (read_write_uint32 (len m)) by done. rewrite (proj2 (Z.ltb_ge maxb (len m))) by done.
  cbn [throw_if mbind result_bind].
  destruct (readExactly_app s2 _ _ context Hs2) as (s3 & H3 & Hs3). rewrite H3. cbn [mbind result_bind].
  rewrite (push_encoded maxb type o b [] Hp Hb) with (b0 := []); [|by unfold byte_length; rewrite <- Hm| ].
  - eexists. split; [reflexivity|exact Hs3].
  - rewrite Heq, app_nil_r. reflexivity.
Qed.

(** What a host makes of the envelope a guest answers a lease with. *)
Definition lease_response_outcome (type : VerserEnvelopeTypeName) (o : list (jsstring * jsval)) (requestId targetId : jsstring)
    : result VerserErrorCode (list (jsstring * jsval)) :=
  match type with
  | env_request => Throw protocol_error
  | env_response => if is_str requestId (prop (js "requestId") o) then Ok o else Throw protocol_error
  | env_error =>
      if is_str requestId (prop (js "requestId") o) && is_str (js "local-handler-failure") (prop (js "code") o)
      then Throw local_handler_failure else Throw protocol_error
  end.

(** Reading a lease response from a stream that holds an encoded envelope and
    a body yields the response metadata when it answers this request, leaving the
    stream at the first body byte; an error envelope, another request's id or a
    request envelope is refused with the code the protocol assigns. *)
Theorem lease_response_correct maxb type o b body requestId targetId stream :
  json_plain (JObj o) = true -> encodeVerserEnvelope type (JObj o) = Ok b ->
  byte_length (json_text (JObj o)) <= maxb -> concat (st_chunks stream) = b ++ body ->
  match lease_response_outcome type o requestId targetId with
  | Ok metadata => exists stream', readLeaseResponseMetadataFromStream maxb requestId targetId stream = Ok (metadata, stream') /\
                     concat (st_chunks stream') = body
  | Throw code => exists e, readLeaseResponseMetadataFromStream maxb requestId targetId stream = Throw (VerserErr e) /\
                    ve_code e = code
  end.
Proof.
  intros Hp Hb Hmax Hs. unfold readLeaseResponseMetadataFromStream, lease_response_outcome, assertResponseEnvelopeRequestId.
  destruct (stream_envelope maxb [(js "requestId", JStr requestId); (js "targetId", JStr targetId)]
    type o b body stream Hp Hb Hmax Hs) as (s' & -> & Hs').
  cbn [mbind result_bind pe_type pe_metadata]. destruct type.
  - by eexists.
  - destruct (is_str requestId _); cbn [negb throw_if mbind result_bind]; eexists; by split.
  - destruct (is_str requestId _); cbn [negb throw_if mbind result_bind andb]; [|by eexists].
    destruct (is_str (js "local-handler-failure") _); by eexists.
Qed.

(** What the encoder makes of larger metadata, the reader refuses. *)
Lemma oversized_refused maxb type o b : encodeVerserEnvelope type (JObj o) = Ok b -> maxb < byte_length (json_text (JObj o)) ->
  exists e, feed maxb [] [b] = Throw (VerserErr e) /\ ve_code e = protocol_error.
Proof.
  intros Hb Hmax. destruct (encode_length _ _ _ Hb) as (m & Hm & Hlt & ->). cbn [feed]. unfold push. pose proof (len_nonneg m).
  destruct (uint32_be (len m)) as [|x0 [|x1 [|x2 [|x3 [|]]]]] eqn:Eu; try done.
  cbn [app]. change (negb (VERSER_ENVELOPE_VERSION =? VERSER_ENVELOPE_VERSION)) with false. cbv match.
  rewrite envelope_type_of_code. rewrite (read_write_uint32 (len m)) by done.
  unfold byte_length in Hmax. rewrite <- Hm in Hmax. rewrite (proj2 (Z.ltb_lt maxb (len m))) by done. by eexists.
Qed.

Definition sample_envelope : list (jsstring * jsval) :=
  [(js "requestId", JStr (js "r1")); (js "statusCode", JNum (num_int 200)); (js "headers", JObj [])].
Definition sample_envelope_bytes : bytes :=
  match encodeVerserEnvelope env_response (JObj sample_envelope) with Ok b => b | Throw _ => [] end.

Lemma envelope_roundtrip_witness :
  exists p unread, feed 1000 [] [take 3 sample_envelope_bytes; drop 3 sample_envelope_bytes ++ [7]; [8]] = Ok (Some (p, unread)) /\
    pe_metadata p = sample_envelope /\ pe_bodyRemainder p ++ concat unread = [7; 8].
Proof.
  destruct (envelope_roundtrip 1000 env_response sample_envelope sample_envelope_bytes [7; 8]
    [take 3 sample_envelope_bytes; drop 3 sample_envelope_bytes ++ [7]; [8]]) as (p & u & H1 & _ & H2 & H3).
  - vm_compute. reflexivity.
  - vm_compute. reflexivity.
  - vm_compute. discriminate.
  - vm_compute. reflexivity.
  - by exists p, u.
Defined.

Lemma readExactly_correct_witness :
  exists rest, readExactly {| st_chunks := [[1]; [2; 3; 4]]; st_ending := st_end |} 2 [] = Ok ([1; 2], rest) /\
    [1; 2] ++ concat (st_chunks rest) = [1; 2; 3; 4].
Proof.
  pose proof (readExactly_correct {| st_chunks := [[1]; [2; 3; 4]]; st_ending := st_end |} 2 [] ltac:(lia)) as H.
  eexists. split; [reflexivity|]. exact (proj1 (proj2 (proj2 H))).
Defined.

Lemma lease_response_correct_witness :
  exists stream', readLeaseResponseMetadataFromStream 1000 (js "r1") (js "g")
      {| st_chunks := [sample_envelope_bytes; [9]]; st_ending := st_end |} = Ok (sample_envelope, stream') /\
    concat (st_chunks stream') = [9].
Proof.
  pose proof (lease_response_correct 1000 env_response sample_envelope sample_envelope_bytes [9] (js "r1") (js "g")
    {| st_chunks := [sample_envelope_bytes; [9]]; st_ending := st_end |}) as H.
  apply H.
  - vm_compute. reflexivity.
  - vm_compute. reflexivity.
  - vm_compute. discriminate.
  - vm_compute. reflexivity.
Defined.
