(* ===== verification/Ndjson.v ===== *)
(** Newline-delimited JSON control frames (verser-common [ndjson.ts]). *)
From S2P Require Import Prelude JsNum Utf8 Json Errors.

Definition json_line (value : jsval) : jsstring := json_text value ++ [10].
Definition encodeJsonLine (value : jsval) : bytes := utf8_encode (json_line value).

(** The reader's state, and what it has done: the frames handed to [onFrame],
    the error reported, and whether it destroyed the stream. *)
Record ndjson := {
  nd_pending : jsstring;
  nd_frames : list jsval;
  nd_error : option VerserError;   (** reported and the stream destroyed *)
}.
Definition ndjson_init : ndjson := {| nd_pending := []; nd_frames := []; nd_error := None |}.

Section Reader.
Context {P : Platform}.
(** [onFrame]: it may throw, and a throw is handled like a parse error. *)
Context (onFrame : jsval -> option exn).

Definition ndjson_failure (cause : exn) : VerserError :=
  createVerserError protocol_error (js "Invalid NDJSON control frame") [(js "cause", JStr (getErrorMessage cause))].

(** One iteration of the [while] loop, on a complete line. *)
Definition ndjson_line (line rest : jsstring) (st : ndjson) : ndjson :=
  match line with
  | [] => {| nd_pending := rest; nd_frames := nd_frames st; nd_error := None |}
  | _ =>
      match json_parse line with
      | None => {| nd_pending := rest; nd_frames := nd_frames st;
                   nd_error := Some (ndjson_failure (EngineErr SyntaxError line)) |}
      | Some frame =>
          {| nd_pending := rest; nd_frames := nd_frames st ++ [frame]; nd_error := ndjson_failure <$> onFrame frame |}
      end
  end.

(** The loop: each iteration shortens [pending], so its length is enough
    fuel ([ndjson_loop_fuel]). *)
Fixpoint ndjson_loop (fuel : nat) (st : ndjson) : ndjson :=
  match fuel with
  | O => st
  | S fuel =>
      match index_of [10] (nd_pending st) with
      | None => st
      | Some lineBreak =>
          let st' := ndjson_line (take lineBreak (nd_pending st)) (drop (S lineBreak) (nd_pending st)) st in
          match nd_error st' with Some _ => st' | None => ndjson_loop fuel st' end
      end
  end.

(** A ['data'] event with decoded text; a destroyed stream emits none. *)
Definition ndjson_data (st : ndjson) (chunk : jsstring) : ndjson :=
  match nd_error st with
  | Some _ => st
  | None =>
      let st' := {| nd_pending := nd_pending st ++ chunk; nd_frames := nd_frames st; nd_error := None |} in
      ndjson_loop (length (nd_pending st')) st'
  end.

Definition readNdjsonLines (chunks : list jsstring) : ndjson := fold_left ndjson_data chunks ndjson_init.

(** * Theory *)

(** What the text received determines: the frames of its complete lines, up to
    the first one that fails. *)
Fixpoint frames_of (lines : list jsstring) : list jsval * option VerserError :=
  match lines with
  | [] => ([], None)
  | line :: lines =>
      match line with
      | [] => frames_of lines
      | _ =>
          match json_parse line with
          | None => ([], Some (ndjson_failure (EngineErr SyntaxError line)))
          | Some f =>
              match onFrame f with
              | Some e => ([f], Some (ndjson_failure e))
              | None => let '(fs, e) := frames_of lines in (f :: fs, e)
              end
          end
      end
  end.

Lemma split_on_index s i : index_of [10] s = Some i ->
  split_on 10 s = take i s :: split_on 10 (drop (S i) s).
Proof.
  revert i. induction s as [|c s IH]; intros i; [done|]. cbn [index_of starts_with]. rewrite andb_true_r.
  cbn [split_on]. rewrite (Z.eqb_sym c 10). destruct (10 =? c); [by intros [= <-]|].
  destruct (index_of [10] s) as [j|] eqn:E; [|done]. intros [= <-]. by rewrite (IH j).
Qed.

Lemma split_on_none s : index_of [10] s = None -> split_on 10 s = [s].
Proof.
  induction s as [|c s IH]; [done|]. cbn [index_of starts_with split_on]. rewrite andb_true_r, (Z.eqb_sym c 10).
  destruct (10 =? c); [done|]. intros H. rewrite IH; [done|]. by destruct (index_of [10] s).
Qed.

(** The complete lines of a text, and the unfinished one. *)
Definition complete (s : jsstring) : list jsstring := removelast (split_on 10 s).
Definition unfinished (s : jsstring) : jsstring := List.last (split_on 10 s) [].

Lemma complete_index s i : index_of [10] s = Some i ->
  complete s = take i s :: complete (drop (S i) s) /\ unfinished s = unfinished (drop (S i) s).
Proof.
  intros H. unfold complete, unfinished. rewrite (split_on_index s i H).
  pose proof (split_on_nonempty 10 (drop (S i) s)). by destruct (split_on 10 (drop (S i) s)).
Qed.

(** The reader state that the text [s] leads to. *)
Definition ndjson_reached (s : jsstring) (st : ndjson) : Prop :=
  (nd_frames st, nd_error st) = frames_of (complete s) /\
  (nd_error st = None -> nd_pending st = unfinished s).

Lemma ndjson_loop_spec fuel st : nd_error st = None -> (length (nd_pending st) <= fuel)%nat ->
  let st' := ndjson_loop fuel st in
  nd_frames st' = nd_frames st ++ (frames_of (complete (nd_pending st))).1 /\
  nd_error st' = (frames_of (complete (nd_pending st))).2 /\
  (nd_error st' = None -> nd_pending st' = unfinished (nd_pending st)).
Proof.
  revert st. induction fuel as [|fuel IH]; intros st Herr Hf; cbn [ndjson_loop].
  - assert (nd_pending st = []) as -> by (destruct (nd_pending st); simpl in *; [done|lia]).
    simpl. rewrite app_nil_r. split_and!; [done|done|]. intros _. destruct st as [[|] ? ?]; simpl in *; [done|lia].
  - destruct (index_of [10] (nd_pending st)) as [i|] eqn:Ei.
    + destruct (complete_index _ _ Ei) as [-> ->].
      apply index_of_single in Ei as [Hi _]. apply lookup_lt_Some in Hi.
      set (line := take i (nd_pending st)). set (rest := drop (S i) (nd_pending st)).
      assert (length rest <= fuel)%nat as Hr by (unfold rest; rewrite length_drop; lia).
      unfold ndjson_line. cbn [frames_of]. destruct line as [|c line'].
      * cbn [nd_error]. by apply IH.
      * destruct (json_parse (c :: line')) as [f|]; [|cbn; by rewrite app_nil_r].
        destruct (onFrame f) as [e|]; [done|]. cbn [fmap option_fmap option_map nd_error].
        specialize (IH {| nd_pending := rest; nd_frames := nd_frames st ++ [f]; nd_error := None |} eq_refl Hr).
        destruct IH as (H1 & H2 & H3). cbn [nd_frames nd_pending] in *.
        destruct (frames_of (complete rest)) as [fs e]. simpl in *. by rewrite H1, <- app_assoc.
    + unfold complete, unfinished. rewrite split_on_none by done. simpl. by rewrite app_nil_r.
Qed.

Lemma split_on_app s t : split_on 10 (s ++ t) =
  removelast (split_on 10 s) ++ split_on 10 (List.last (split_on 10 s) [] ++ t).
Proof.
  induction s as [|c s IH]; [done|]. cbn [app split_on]. destruct (c =? 10) eqn:E.
  - rewrite IH. pose proof (split_on_nonempty 10 s). by destruct (split_on 10 s).
  - pose proof (split_on_nonempty 10 s) as Hn. destruct (split_on 10 s) as [|w [|w' ws]] eqn:Es; [done| |].
    + simpl in *. rewrite IH, E. done.
    + rewrite IH. cbn [removelast List.last app]. done.
Qed.

Lemma list_last_app {A} (l1 l2 : list A) d : l2 <> [] -> List.last (l1 ++ l2) d = List.last l2 d.
Proof.
  intros Hn. induction l1 as [|x l1 IH]; [done|]. cbn [app List.last]. rewrite IH.
  destruct (l1 ++ l2) eqn:E; [|done]. by apply app_eq_nil in E as [_ ->].
Qed.

Lemma complete_app s t : complete (s ++ t) = complete s ++ complete (unfinished s ++ t) /\
  unfinished (s ++ t) = unfinished (unfinished s ++ t).
Proof.
  unfold complete, unfinished. rewrite split_on_app. set (u := List.last (split_on 10 s) []).
  pose proof (split_on_nonempty 10 (u ++ t)) as Hn. split.
  - by apply removelast_app.
  - by apply list_last_app.
Qed.

Lemma frames_of_app l1 l2 : frames_of (l1 ++ l2) =
  match (frames_of l1).2 with
  | Some e => frames_of l1
  | None => ((frames_of l1).1 ++ (frames_of l2).1, (frames_of l2).2)
  end.
Proof.
  induction l1 as [|line l1 IH]; [by simpl; destruct (frames_of l2)|]. cbn [app frames_of].
  destruct line as [|c line]; [done|]. destruct (json_parse _) as [f|]; [|done].
  destruct (onFrame f); [done|]. rewrite IH. destruct (frames_of l1) as [fs [e|]]; [done|].
  by destruct (frames_of l2).
Qed.

Lemma ndjson_data_reached s st chunk : ndjson_reached s st -> ndjson_reached (s ++ chunk) (ndjson_data st chunk).
Proof.
  intros [Hf Hp]. unfold ndjson_reached, ndjson_data. destruct (complete_app s chunk) as [-> ->].
  rewrite frames_of_app, <- Hf. simpl. destruct (nd_error st) as [e|] eqn:He; [by rewrite He|].
  rewrite <- (Hp eq_refl).
  destruct (ndjson_loop_spec (length (nd_pending st ++ chunk))
    {| nd_pending := nd_pending st ++ chunk; nd_frames := nd_frames st; nd_error := None |} eq_refl ltac:(done))
    as (H1 & H2 & H3).
  cbn [nd_frames nd_pending nd_error] in *. by rewrite H1, H2 in *.
Qed.

Lemma readNdjsonLines_reached chunks : ndjson_reached (concat chunks) (readNdjsonLines chunks).
Proof.
  unfold readNdjsonLines.
  enough (forall st s, ndjson_reached s st -> ndjson_reached (s ++ concat chunks) (fold_left ndjson_data chunks st)) as H
    by (by apply (H ndjson_init [])).
  induction chunks as [|c chunks IH]; intros st s H; cbn [concat fold_left]; [by rewrite app_nil_r|].
  rewrite app_assoc. apply IH. by apply ndjson_data_reached.
Qed.

(** What the reader delivers depends on the text alone and not on its
    division into chunks: the parsed complete lines in order, up to the first
    that does not parse or that the consumer rejects, at which the stream is
    destroyed; the unfinished line is kept back. *)
Theorem readNdjsonLines_correct chunks :
  let st := readNdjsonLines chunks in
  (nd_frames st, nd_error st) = frames_of (complete (concat chunks)) /\
  (nd_error st = None -> nd_pending st = unfinished (concat chunks)).
Proof. apply readNdjsonLines_reached. Qed.

Lemma split_json_lines vs tail : Forall (fun v => json_plain v = true) vs -> index_of [10] tail = None ->
  split_on 10 (concat (map json_line vs) ++ tail) = map json_text vs ++ [tail].
Proof.
  intros Hvs Ht. induction Hvs as [|v vs Hv _ IH]; [by apply split_on_none|].
  cbn [map concat app]. unfold json_line at 1. rewrite <- !app_assoc. cbn [app].
  assert (index_of [10] (json_text v ++ 10 :: concat (map json_line vs) ++ tail) = Some (length (json_text v))) as Hi.
  { apply index_of_single. split; [by rewrite list_lookup_middle|]. rewrite take_app_length.
    by apply text_ok_not_elem, json_text_ok. }
  rewrite (split_on_index _ _ Hi), take_app_length. f_equal.
  change (10 :: concat (map json_line vs) ++ tail) with ([10] ++ (concat (map json_line vs) ++ tail)).
  rewrite app_assoc. rewrite drop_app_length' by (rewrite length_app; simpl; lia). exact IH.
Qed.

(** Control frames written one per line are delivered to the consumer in
    order, exactly as sent, for every division of the text into chunks; nothing
    is left over. *)
Theorem ndjson_roundtrip vs chunks :
  Forall (fun v => json_plain v = true) vs -> (forall v, v ∈ vs -> onFrame v = None) ->
  concat chunks = concat (map json_line vs) ->
  readNdjsonLines chunks = {| nd_pending := []; nd_frames := vs; nd_error := None |}.
Proof.
  intros Hvs Hacc Hc. destruct (readNdjsonLines_reached chunks) as [Hf Hp].
  rewrite Hc, <- (app_nil_r (concat (map json_line vs))) in Hf, Hp.
  unfold complete, unfinished in *. rewrite split_json_lines in * by done.
  rewrite removelast_last in Hf. rewrite List.last_last in Hp.
  assert (frames_of (map json_text vs) = (vs, None)) as Hvf.
  { clear -Hvs Hacc. induction Hvs as [|v vs Hv _ IH]; [done|]. cbn [map frames_of].
    destruct (json_text_head v Hv) as (c & t & E & _). rewrite json_parse_text by done. rewrite E.
    rewrite Hacc by (by left). rewrite IH; [done|]. intros w Hw. apply Hacc. by right. }
  rewrite Hvf in Hf. destruct (readNdjsonLines chunks) as [p f e]. simpl in *. simplify_eq. by rewrite Hp.
Qed.
End Reader.

Lemma readNdjsonLines_decodes vs : Forall (fun v => json_plain v = true) vs ->
  utf8_decode (concat (map encodeJsonLine vs)) = concat (map json_line vs).
Proof.
  induction 1 as [|v vs Hv _ IH]; [done|]. cbn [map concat]. destruct (json_text_ok v Hv) as [Hu Hw].
  unfold encodeJsonLine at 1. rewrite utf8_decode_encode_app; [by rewrite IH| |].
  - apply Forall_app. split; [by eapply text_ok_units|by repeat constructor].
  - unfold json_line. by rewrite well_formed_app.
Qed.

Definition sample_lines : list jsval := [JObj [(js "type", JStr (js "routes"))]; JArr [JNum (num_int 1)]].

Lemma ndjson_roundtrip_witness :
  readNdjsonLines (P := ascii_platform) (fun _ => None)
    [take 5 (concat (map json_line sample_lines)); drop 5 (concat (map json_line sample_lines))] =
  {| nd_pending := []; nd_frames := sample_lines; nd_error := None |}.
Proof.
  apply (ndjson_roundtrip (P := ascii_platform) (fun _ => None) sample_lines).
  - repeat constructor.
  - done.
  - vm_compute. reflexivity.
Defined.
