(* ===== verification/Http2Headers.v ===== *)
(** HTTP/2 pseudo-headers, the lease timeout header and broker requests
    (verser-common [http2-headers.ts], [protocol-headers.ts],
    [broker-request.ts], [body.ts]). *)
From S2P Require Import Prelude JsNum Utf8 Json Errors Headers.

(** ** [http2-headers.ts] *)
Definition toHttp2RequestHeaders (method path : jsstring) : HeaderRecord := [(js ":method", method); (js ":path", path)].

Definition header_text (headers : VerserHeaders) (name : jsstring) : jsstring :=
  to_str (nullish (prop name headers) (JStr [])).
Definition fromHttp2RequestHeaders (headers : VerserHeaders) : result exn (jsstring * jsstring) :=
  method ← requireNonEmpty (header_text headers (js ":method")) "HTTP/2 :method";
  path ← requireNonEmpty (header_text headers (js ":path")) "HTTP/2 :path";
  Ok (method, path).

Definition toHttp2ResponseHeaders (statusCode : jsnum) : VerserHeaders := [(js ":status", JNum statusCode)].
Definition fromHttp2ResponseHeaders (headers : VerserHeaders) : result exn jsnum :=
  requireValidStatusCode (to_number (prop (js ":status") headers)).

Definition stripHttp2PseudoHeaders (headers : VerserHeaders) : HeaderRecord :=
  fold_left (fun normalizedHeaders '(key, value) =>
    if starts_with (js ":") key || is_undef value then normalizedHeaders
    else obj_assign key (to_str value) normalizedHeaders) headers [].

(** ** [protocol-headers.ts] *)
Definition VERSER_LEASE_ACQUIRE_TIMEOUT_HEADER : jsstring := js "x-verser-lease-acquire-timeout-ms".
Definition parseLeaseAcquireTimeoutMs (headers : VerserHeaders) : jsnum :=
  let value := to_number (nullish (prop VERSER_LEASE_ACQUIRE_TIMEOUT_HEADER headers) (JNum (num_int 5000))) in
  if negb (is_finite value) || num_ltz value 0 then num_int 5000 else value.

(** ** [body.ts]: what a request body is, and what it becomes *)
Inductive request_body : Type :=
  | body_null
  | body_string (s : jsstring)
  | body_bytes (b : bytes)            (** a [Buffer] or [Uint8Array] *)
  | body_readable                     (** a [Readable], owned by the caller *)
  | body_iterable                     (** a sync or async iterable *)
  | body_other.
Inductive normalized_body : Type :=
  | nb_undefined | nb_buffers (l : list bytes) | nb_readable | nb_wrapped.

Definition normalizeBrokerRequestBody (body : request_body) : result exn normalized_body :=
  match body with
  | body_null => Ok nb_undefined
  | body_string s => Ok (nb_buffers [utf8_encode s])
  | body_bytes b => Ok (nb_buffers [b])
  | body_readable => Ok nb_readable
  | body_iterable => Ok nb_wrapped
  | body_other => Throw (NativeErr GenericError (js "Verser Dispatcher does not support this request body type"))
  end.

(** ** [broker-request.ts] *)
Record VerserCommonBrokerRequest := {
  cb_targetId : jsstring; cb_method : jsstring; cb_path : jsstring;
  cb_headers : option VerserHeaderInput; cb_body : option request_body;
  cb_aborted : option exn;            (** [signal.reason] of an aborted signal *)
}.
Record NormalizedBrokerRequest := {
  nr_targetId : jsstring; nr_method : jsstring; nr_path : jsstring;
  nr_headers : HeaderRecord; nr_body : normalized_body;
}.

Section BrokerRequest.
Context {P : Platform}.

Definition normalizeBrokerRequestMethod (method : jsstring) : result exn jsstring :=
  requireNonEmpty (to_upper (trim method)) "request method".

Definition normalizeBrokerRequestPath (path : jsstring) : jsstring :=
  let normalizedPath := trim path in
  if str_eqb normalizedPath (js "*") then normalizedPath
  else if len normalizedPath =? 0 then js "/"
  else if starts_with (js "/") normalizedPath then normalizedPath
  else js "/" ++ normalizedPath.

Definition createCommonBrokerRequest (r : VerserCommonBrokerRequest) : result exn NormalizedBrokerRequest :=
  match cb_aborted r with
  | Some reason => Throw reason
  | None =>
      body ← match cb_body r with None => Ok nb_undefined | Some b => normalizeBrokerRequestBody b end;
      method ← normalizeBrokerRequestMethod (cb_method r);
      headers ← normalizeHeaders (cb_headers r);
      targetId ← requireNonEmpty (cb_targetId r) "target id";
      Ok {| nr_targetId := targetId; nr_method := method; nr_path := normalizeBrokerRequestPath (cb_path r);
            nr_headers := headers; nr_body := body |}
  end.
End BrokerRequest.

(** * Theory *)

(** The lease-acquisition timeout a request carries is a finite non-negative
    number whatever the header says: its own value when that is one, else 5000. *)
Theorem lease_timeout_correct headers :
  let t := parseLeaseAcquireTimeoutMs headers in
  is_finite t = true /\ num_ltz t 0 = false /\
  (t = num_int 5000 \/ t = to_number (prop VERSER_LEASE_ACQUIRE_TIMEOUT_HEADER headers)).
Proof.
  unfold parseLeaseAcquireTimeoutMs.
  destruct (negb (is_finite _) || _) eqn:E; [split_and!; auto|].
  apply orb_false_iff in E as [Ef En]. apply negb_false_iff in Ef. split_and!; [done|done|].
  destruct (prop _ headers); simpl; auto.
Qed.

(** Every path a broker request is normalised to is ["*"] or absolute, and
    normalising it again changes nothing. *)
Theorem request_path_correct path :
  let p := normalizeBrokerRequestPath path in
  (p = js "*" \/ exists t, p = 47 :: t) /\ normalizeBrokerRequestPath p = p.
Proof.
  unfold normalizeBrokerRequestPath.
  destruct (str_eqb (trim path) (js "*")) eqn:Es.
  { apply str_eqb_eq in Es. rewrite Es. split; [by left|done]. }
  destruct (Z.eqb_spec (len (trim path)) 0) as [Hl|Hl]; [split; [right; by eexists|done]|].
  destruct (starts_with (js "/") (trim path)) eqn:Ew.
  - rewrite trim_idem, Es, Ew. destruct (Z.eqb_spec (len (trim path)) 0); [done|]. split; [|done].
    right. apply starts_with_spec in Ew as [t ->]. by exists t.
  - split; [right; by eexists|].
    assert (trim (js "/" ++ trim path) = js "/" ++ trim path) as ->.
    { apply trim_fixpoint; [by intros c s' [= <- _]|]. intros s' c Hc.
      destruct (trim path) as [|x t] eqn:Et using rev_ind; [done|]. clear IHt.
      rewrite app_assoc in Hc. apply app_inj_tail in Hc as [_ <-]. by eapply trim_last. }
    destruct (str_eqb (js "/" ++ trim path) (js "*")) eqn:E1; [apply str_eqb_eq in E1; vm_compute in E1; discriminate E1|].
    rewrite starts_with_app. rewrite (proj2 (Z.eqb_neq _ _)); [done|].
    rewrite len_app. pose proof (len_nonneg (trim path)). change (len (js "/")) with 1. lia.
Qed.
