(* ===== verification/RouteRegistry.v ===== *)
(** The host's route registry (verser2-host [route-registry.ts]): local,
    imported and degraded routes, selection, export, revocation and expiry. *)
From S2P Require Import Prelude JsNum Utf8 Json Errors Headers ResponseMetadata Routing FederationCommon RouteLifecycle.

(** ** State *)
Record HostRouteRegistryOptions := { ro_hostId : jsstring; ro_maxFederationHopCount : Z }.

Record DegradedRouteEntry := {
  de_routes : list FederatedRouteRegistration; de_degradedAt : Z; de_generation : VerserRouteGeneration;
}.

Record HostRouteRegistry := {
  localRoutes : list (jsstring * list FederatedRouteRegistration);
  importedRoutes : list (jsstring * list FederatedRouteRegistration);
  degradedRoutes : list (jsstring * DegradedRouteEntry);
  routeGenerationCounter : Z;
}.
Definition registry_init : HostRouteRegistry :=
  {| localRoutes := []; importedRoutes := []; degradedRoutes := []; routeGenerationCounter := 0 |}.

Definition set_local (m : list (jsstring * list FederatedRouteRegistration)) (reg : HostRouteRegistry) : HostRouteRegistry :=
  {| localRoutes := m; importedRoutes := importedRoutes reg; degradedRoutes := degradedRoutes reg;
     routeGenerationCounter := routeGenerationCounter reg |}.
Definition set_imported (m : list (jsstring * list FederatedRouteRegistration)) (reg : HostRouteRegistry) : HostRouteRegistry :=
  {| localRoutes := localRoutes reg; importedRoutes := m; degradedRoutes := degradedRoutes reg;
     routeGenerationCounter := routeGenerationCounter reg |}.
Definition set_degraded (m : list (jsstring * DegradedRouteEntry)) (reg : HostRouteRegistry) : HostRouteRegistry :=
  {| localRoutes := localRoutes reg; importedRoutes := importedRoutes reg; degradedRoutes := m;
     routeGenerationCounter := routeGenerationCounter reg |}.
Definition next_generation (reg : HostRouteRegistry) : HostRouteRegistry :=
  {| localRoutes := localRoutes reg; importedRoutes := importedRoutes reg; degradedRoutes := degradedRoutes reg;
     routeGenerationCounter := routeGenerationCounter reg + 1 |}.

Record StoredRouteCandidate := { sc_ownerId : jsstring; sc_route : FederatedRouteRegistration }.
#[export] Instance StoredRouteCandidate_eq_dec : EqDecision StoredRouteCandidate.
Proof. solve_decision. Defined.

(** ** Identity, fingerprints and order *)
Definition route_key (targetId domain : jsstring) : jsstring := targetId ++ [0] ++ domain.
Definition routeIdentity (route : FederatedRouteRegistration) : jsstring := route_key (fr_targetId route) (fr_domain route).

Definition routeFingerprint (route : FederatedRouteRegistration) : jsstring :=
  join [0] [fr_targetId route; fr_domain route; fr_originHostId route; fr_nextHopHostId route;
            num_to_string (num_int (fr_hopCount route)); join [44] (fr_viaHostIds route); source_name (fr_source route)].
Definition routeSetKey (routes : list FederatedRouteRegistration) : jsstring :=
  json_text (JArr (map JStr (stable_sort unit_compare (map routeFingerprint routes)))).

Definition sourceRank (s : VerserFederatedRouteSource) : Z := match s with source_local => 0 | source_upstream => 1 end.

Definition appendHostId (hostIds : list jsstring) (hostId : jsstring) : list jsstring :=
  if mem_str hostId hostIds then hostIds else hostIds ++ [hostId].

Section Registry.
Context {P : Platform} (options : HostRouteRegistryOptions).

Definition compareCandidates (left right : StoredRouteCandidate) : comparison :=
  let l := sc_route left in
  let r := sc_route right in
  then_cmp (sourceRank (fr_source l) ?= sourceRank (fr_source r))
    (then_cmp (fr_hopCount l ?= fr_hopCount r)
      (then_cmp (locale_compare (fr_targetId l) (fr_targetId r))
        (then_cmp (locale_compare (fr_domain l) (fr_domain r))
          (then_cmp (locale_compare (fr_nextHopHostId l) (fr_nextHopHostId r))
            (locale_compare (sc_ownerId left) (sc_ownerId right)))))).

Definition select_step (selected : list (jsstring * StoredRouteCandidate)) (candidate : StoredRouteCandidate) :=
  let key := routeIdentity (sc_route candidate) in
  if map_has key selected then selected else map_set key candidate selected.
Definition selectCandidates (candidates : list StoredRouteCandidate) : list StoredRouteCandidate :=
  stable_sort compareCandidates (fold_left select_step (stable_sort compareCandidates candidates) []).*2.

Definition owned (m : list (jsstring * list FederatedRouteRegistration)) : list StoredRouteCandidate :=
  concat (map (fun '(ownerId, routes) => map (fun route => {| sc_ownerId := ownerId; sc_route := route |}) routes) m).
Definition getLocalCandidates (reg : HostRouteRegistry) : list StoredRouteCandidate := owned (localRoutes reg).
Definition getActiveCandidates (reg : HostRouteRegistry) : list StoredRouteCandidate :=
  getLocalCandidates reg ++ owned (importedRoutes reg).
Definition getSelectedCandidates (reg : HostRouteRegistry) : list StoredRouteCandidate :=
  selectCandidates (getActiveCandidates reg).

(** ** Operations *)

(** The route a local registration becomes. *)
Definition local_route (r : RoutedDomainRegistration) : result exn FederatedRouteRegistration :=
  r' ← createRoutedDomainRegistration r;
  createFederatedRouteRegistration (federated_route_json
    {| fr_targetId := rd_targetId r'; fr_domain := rd_domain r'; fr_originHostId := ro_hostId options;
       fr_nextHopHostId := ro_hostId options; fr_hopCount := 0; fr_viaHostIds := [ro_hostId options];
       fr_source := source_local |}).

Definition setLocalRoutes (peerId : jsstring) (routes : list RoutedDomainRegistration) (reg : HostRouteRegistry)
    : result exn unit * HostRouteRegistry :=
  match map_res local_route routes with
  | Throw e => (Throw e, reg)
  | Ok l => (Ok tt, set_local (map_set peerId l (localRoutes reg)) reg)
  end.

Definition removeLocalRoutes (peerId : jsstring) (reg : HostRouteRegistry) : HostRouteRegistry :=
  set_local (map_delete peerId (localRoutes reg)) reg.

Definition getImportedRouteRejection (route : FederatedRouteRegistration) : result exn (option VerserError) :=
  loop ← isFederatedRouteLoop route (ro_hostId options);
  if (loop : bool) then
    Ok (Some (createVerserError route_loop (js "Federated route would revisit this Host")
          [(js "targetId", JStr (fr_targetId route)); (js "domain", JStr (fr_domain route));
           (js "hostId", JStr (ro_hostId options))]))
  else
    exceeds ← exceedsFederatedRouteHopLimit route (num_int (ro_maxFederationHopCount options));
    if (exceeds : bool) then
      Ok (Some (createVerserError route_loop (js "Federated route exceeds maximum hop count")
            [(js "targetId", JStr (fr_targetId route)); (js "domain", JStr (fr_domain route));
             (js "hopCount", JNum (num_int (fr_hopCount route)));
             (js "maxHopCount", JNum (num_int (ro_maxFederationHopCount options)))]))
    else Ok None.

Definition with_source (s : VerserFederatedRouteSource) (r : FederatedRouteRegistration) : FederatedRouteRegistration :=
  {| fr_targetId := fr_targetId r; fr_domain := fr_domain r; fr_originHostId := fr_originHostId r;
     fr_nextHopHostId := fr_nextHopHostId r; fr_hopCount := fr_hopCount r; fr_viaHostIds := fr_viaHostIds r;
     fr_source := s |}.

Definition import_step (acc : list FederatedRouteRegistration * list (FederatedRouteRegistration * VerserError))
    (routeInput : FederatedRouteRegistration)
    : result exn (list FederatedRouteRegistration * list (FederatedRouteRegistration * VerserError)) :=
  let '(accepted, rejected) := acc in
  route ← createFederatedRouteRegistration (federated_route_json (with_source source_upstream routeInput));
  routeError ← getImportedRouteRejection route;
  match routeError with
  | None => Ok (accepted ++ [route], rejected)
  | Some error => Ok (accepted, rejected ++ [(route, error)])
  end.

Definition setImportedRoutes (upstreamId : jsstring) (routes : list FederatedRouteRegistration) (reg : HostRouteRegistry)
    : result exn (list (FederatedRouteRegistration * VerserError) * bool) * HostRouteRegistry :=
  match fold_res import_step ([], []) routes with
  | Throw e => (Throw e, reg)
  | Ok (accepted, rejected) =>
      let changed := negb (str_eqb (routeSetKey (default [] (map_get upstreamId (importedRoutes reg)))) (routeSetKey accepted)) in
      (Ok (rejected, changed), set_imported (map_set upstreamId accepted (importedRoutes reg)) reg)
  end.

Definition removeImportedRoutes (upstreamId : jsstring) (reg : HostRouteRegistry) : HostRouteRegistry :=
  set_imported (map_delete upstreamId (importedRoutes reg)) reg.

Definition same_route (targetId domain : jsstring) (route : FederatedRouteRegistration) : bool :=
  str_eqb (fr_targetId route) targetId && str_eqb (fr_domain route) domain.

Definition removeImportedRoute (upstreamId targetId domain : jsstring) (reg : HostRouteRegistry) : bool * HostRouteRegistry :=
  match map_get upstreamId (importedRoutes reg) with
  | None | Some [] => (false, reg)
  | Some routes =>
      let remaining := filter (fun route => same_route targetId domain route = false) routes in
      if (length remaining =? length routes)%nat then (false, reg)
      else match remaining with
           | [] => (true, set_imported (map_delete upstreamId (importedRoutes reg)) reg)
           | _ => (true, set_imported (map_set upstreamId remaining (importedRoutes reg)) reg)
           end
  end.

Definition clear (reg : HostRouteRegistry) : HostRouteRegistry := registry_init.

Definition revokeRoutes (peerId : jsstring) (domains : list jsstring) (reg : HostRouteRegistry)
    : (list jsstring * list jsstring) * HostRouteRegistry :=
  match map_get peerId (localRoutes reg) with
  | None => (([], domains), reg)
  | Some peerRoutes =>
      let revoked := map fr_domain (filter (fun route => mem_str (fr_domain route) domains = true) peerRoutes) in
      let remaining := filter (fun route => mem_str (fr_domain route) domains = false) peerRoutes in
      let notFound := filter (fun domain => mem_str domain revoked = false) domains in
      ((revoked, notFound),
       match remaining with
       | [] => set_local (map_delete peerId (localRoutes reg)) reg
       | _ => set_local (map_set peerId remaining (localRoutes reg)) reg
       end)
  end.

Definition setDegraded (now : Z) (peerId : jsstring) (reg : HostRouteRegistry) : result exn unit * HostRouteRegistry :=
  match map_get peerId (localRoutes reg) with
  | None => (Ok tt, reg)
  | Some peerRoutes =>
      if map_has peerId (degradedRoutes reg) then (Ok tt, reg)
      else
        let reg := next_generation reg in
        match createVerserRouteGeneration []
                {| gi_generationId := Some (js "gen-" ++ num_to_string (num_int (routeGenerationCounter reg)));
                   gi_sessionId := Some peerId |} with
        | Throw e => (Throw e, reg)
        | Ok generation =>
            let entry := {| de_routes := peerRoutes; de_degradedAt := now; de_generation := generation |} in
            let reg := set_degraded (map_set peerId entry (degradedRoutes reg)) reg in
            (Ok tt, set_local (map_delete peerId (localRoutes reg)) reg)
        end
  end.

Definition restoreRoutes (peerId : jsstring) (reg : HostRouteRegistry) : result exn bool * HostRouteRegistry :=
  match map_get peerId (degradedRoutes reg) with
  | None => (Ok false, reg)
  | Some degraded =>
      let reg := next_generation reg in
      match map_res (fun route => createFederatedRouteRegistration (federated_route_json route)) (de_routes degraded) with
      | Throw e => (Throw e, reg)
      | Ok routes =>
          let reg := set_local (map_set peerId routes (localRoutes reg)) reg in
          (Ok true, set_degraded (map_delete peerId (degradedRoutes reg)) reg)
      end
  end.

(** ** Queries *)
Definition getRouteGeneration (peerId domain : jsstring) (reg : HostRouteRegistry) : option VerserRouteGeneration :=
  degraded ← map_get peerId (degradedRoutes reg);
  _ ← find (fun r => str_eqb (fr_domain r) domain) (de_routes degraded);
  Some (de_generation degraded).
Definition currentGeneration (reg : HostRouteRegistry) : Z := routeGenerationCounter reg.
Definition hasDegradedRoutes (peerId : jsstring) (reg : HostRouteRegistry) : bool := map_has peerId (degradedRoutes reg).
Definition hasAnyDegradedRoutes (reg : HostRouteRegistry) : bool := 0 <? len (degradedRoutes reg).
Definition getDegradedEntries (reg : HostRouteRegistry) : list (jsstring * DegradedRouteEntry) := degradedRoutes reg.

Definition broker_route (r : FederatedRouteRegistration) : RoutedDomainRegistration :=
  {| rd_targetId := fr_targetId r; rd_domain := fr_domain r |}.
Definition getDegradedBrokerRoutes (reg : HostRouteRegistry) : list RoutedDomainRegistration :=
  concat (map (fun p => map broker_route (de_routes p.2)) (degradedRoutes reg)).
Definition getDegradedBrokerRoutesForPeer (peerId : jsstring) (reg : HostRouteRegistry) : list RoutedDomainRegistration :=
  match map_get peerId (degradedRoutes reg) with
  | None => []
  | Some entry => map broker_route (de_routes entry)
  end.

Definition expired (now timeoutMs : Z) (p : jsstring * DegradedRouteEntry) : bool := timeoutMs <=? now - de_degradedAt p.2.
Definition removeExpiredDegradedRoutes (now timeoutMs : Z) (reg : HostRouteRegistry)
    : (list jsstring * Z * list (jsstring * jsstring)) * HostRouteRegistry :=
  let expiredEntries := filter (fun p => expired now timeoutMs p = true) (degradedRoutes reg) in
  let expiredPeers := expiredEntries.*1 in
  let expiredRoutes := fold_left (fun n p => n + len (de_routes p.2)) expiredEntries 0 in
  let expiredRouteEntries := concat (map (fun p => map (fun route => (p.1, fr_domain route)) (de_routes p.2)) expiredEntries) in
  ((expiredPeers, expiredRoutes, expiredRouteEntries),
   set_degraded (fold_left (fun m peerId => map_delete peerId m) expiredPeers (degradedRoutes reg)) reg).

Definition merge_step (acc : list jsstring * list RoutedDomainRegistration) (route : RoutedDomainRegistration) :=
  let '(seen, merged) := acc in
  let key := route_key (rd_targetId route) (rd_domain route) in
  if set_has key seen then acc else (set_add key seen, merged ++ [route]).
Definition getBrokerRoutes (reg : HostRouteRegistry) : list RoutedDomainRegistration :=
  let active := map (fun candidate => broker_route (sc_route candidate)) (getSelectedCandidates reg) in
  let degraded := getDegradedBrokerRoutes reg in
  (fold_left merge_step (active ++ degraded) ([], [])).2.

Definition getCandidates (targetId domain : option jsstring) (reg : HostRouteRegistry) : list FederatedRouteRegistration :=
  map sc_route (stable_sort compareCandidates
    (filter (fun candidate =>
       match targetId with None => true | Some t => str_eqb (fr_targetId (sc_route candidate)) t end &&
       match domain with None => true | Some d => str_eqb (fr_domain (sc_route candidate)) d end = true)
      (getActiveCandidates reg))).

Definition exportable (peerHostId : option jsstring) (route : FederatedRouteRegistration) : bool :=
  match peerHostId with
  | None => true
  | Some p => negb (str_eqb (fr_originHostId route) p) && negb (mem_str p (fr_viaHostIds route))
  end && (fr_hopCount route + 1 <=? ro_maxFederationHopCount options).
Definition exported_route (route : FederatedRouteRegistration) : FederatedRouteRegistration :=
  {| fr_targetId := fr_targetId route; fr_domain := fr_domain route; fr_originHostId := fr_originHostId route;
     fr_nextHopHostId := ro_hostId options; fr_hopCount := fr_hopCount route + 1;
     fr_viaHostIds := appendHostId (fr_viaHostIds route) (ro_hostId options); fr_source := fr_source route |}.
Definition getFederatedRoutesForExport (peerHostId : option jsstring) (reg : HostRouteRegistry)
    : result exn (list FederatedRouteRegistration) :=
  map_res (fun candidate => createFederatedRouteRegistration (federated_route_json (exported_route (sc_route candidate))))
    (filter (fun candidate => exportable peerHostId (sc_route candidate) = true) (getSelectedCandidates reg)).
End Registry.

(** [createHostRouteRegistry] checks and defaults the options. *)
Definition createHostRouteRegistry (hostId : option jsstring) (maxFederationHopCount : option jsnum)
    : result exn (HostRouteRegistryOptions * HostRouteRegistry) :=
  id ← createVerserHostId (JStr (default (js "host-local") hostId));
  let limit := default (num_int 8) maxFederationHopCount in
  match isValidHopCount (JNum limit) with
  | Some z => Ok ({| ro_hostId := id; ro_maxFederationHopCount := z |}, registry_init)
  | None => Throw (verr protocol_error "maxFederationHopCount must be non-negative" [(js "maxFederationHopCount", JNum limit)])
  end.

(** * Theory *)

(** ** Selection *)
Section Selection.
Context {P : Platform} {C : ConsistentCollation}.

Lemma compareCandidates_ok : cmp_ok compareCandidates.
Proof using C.
  unfold compareCandidates.
  repeat apply then_cmp_ok.
  - apply (cmp_ok_proj (fun c => sourceRank (fr_source (sc_route c)))), cmp_ok_Z.
  - apply (cmp_ok_proj (fun c => fr_hopCount (sc_route c))), cmp_ok_Z.
  - apply (cmp_ok_proj (fun c => fr_targetId (sc_route c))), cmp_ok_locale.
  - apply (cmp_ok_proj (fun c => fr_domain (sc_route c))), cmp_ok_locale.
  - apply (cmp_ok_proj (fun c => fr_nextHopHostId (sc_route c))), cmp_ok_locale.
  - apply (cmp_ok_proj sc_ownerId), cmp_ok_locale.
Qed.

Definition identity_of (c : StoredRouteCandidate) : jsstring := routeIdentity (sc_route c).

Lemma select_get l acc k : map_get k (fold_left select_step l acc) =
  match map_get k acc with Some c => Some c | None => find (fun c => str_eqb (identity_of c) k) l end.
Proof.
  revert acc. induction l as [|c l IH]; intros acc; cbn [fold_left find]; [by case_match|].
  rewrite IH. unfold select_step. fold (identity_of c). destruct (map_has (identity_of c) acc) eqn:Hh.
  - destruct (map_get k acc) eqn:E; [done|]. destruct (str_eqb (identity_of c) k) eqn:Ek; [|done].
    apply str_eqb_eq in Ek as <-. unfold map_has in Hh. by rewrite E in Hh.
  - rewrite map_get_set. case_decide as Hk.
    + subst. unfold map_has in Hh. destruct (map_get _ acc); [done|]. by rewrite str_eqb_refl.
    + rewrite (proj2 (str_eqb_neq (identity_of c) k)) by done. done.
Qed.

Definition keyed (m : list (jsstring * StoredRouteCandidate)) : Prop :=
  map_wf m /\ Forall (fun p => p.1 = identity_of p.2) m.

Lemma select_keyed l acc : keyed acc -> keyed (fold_left select_step l acc).
Proof.
  revert acc. induction l as [|c l IH]; intros acc [Hw Hk]; [done|]. cbn [fold_left]. apply IH.
  unfold select_step. fold (identity_of c). destruct (map_has _ acc) eqn:Hh; [done|].
  split; [by apply map_wf_set|]. by apply map_set_Forall.
Qed.

Lemma find_sorted l c : sorted_by compareCandidates l -> c ∈ l ->
  exists s, find (fun c' => str_eqb (identity_of c') (identity_of c)) l = Some s /\
    s ∈ l /\ identity_of s = identity_of c /\ compareCandidates s c <> Gt.
Proof using C.
  induction l as [|x l IH]; [by intros _ ?%elem_of_nil|]. simpl. intros [Hx Hl] Hin.
  destruct (str_eqb (identity_of x) (identity_of c)) eqn:E.
  - apply str_eqb_eq in E. exists x. split_and!; [done|by left|done|].
    apply elem_of_cons in Hin as [->|Hin].
    + by rewrite (cmp_refl _ compareCandidates_ok).
    + rewrite Forall_forall in Hx. by apply Hx.
  - apply str_eqb_neq in E. apply elem_of_cons in Hin as [->|Hin]; [done|].
    destruct (IH Hl Hin) as (s & ? & ? & ? & ?). exists s. split_and!; try done. by right.
Qed.

Lemma selected_map l : let m := fold_left select_step (stable_sort compareCandidates l) [] in
  keyed m /\ forall k, map_get k m = find (fun c => str_eqb (identity_of c) k) (stable_sort compareCandidates l).
Proof.
  split; [apply select_keyed; split; constructor|]. intros k. by rewrite select_get.
Qed.

Lemma keyed_values m : keyed m -> m.*1 = map identity_of m.*2.
Proof.
  intros [_ Hk]. induction Hk as [|[k c] m Hkc Hm IH]; [done|]. csimpl in *. by rewrite Hkc, IH.
Qed.

Lemma stable_sort_selected l : sorted_by compareCandidates (stable_sort compareCandidates l).
Proof using C. apply stable_sort_sorted; [apply cmp_total|apply cmp_trans]; apply compareCandidates_ok. Qed.

Lemma selectCandidates_NoDup l : NoDup (map identity_of (selectCandidates l)).
Proof.
  unfold selectCandidates. destruct (selected_map l) as [Hk _].
  assert (map identity_of (stable_sort compareCandidates (fold_left select_step (stable_sort compareCandidates l) []).*2)
    ≡ₚ (fold_left select_step (stable_sort compareCandidates l) []).*1) as ->.
  { rewrite keyed_values by done. apply Permutation_map, stable_sort_perm. }
  apply Hk.
Qed.

Lemma selectCandidates_elem l s : s ∈ selectCandidates l <->
  find (fun c => str_eqb (identity_of c) (identity_of s)) (stable_sort compareCandidates l) = Some s.
Proof.
  unfold selectCandidates. rewrite stable_sort_elem. destruct (selected_map l) as [[Hw Hk] Hg].
  set (m := fold_left select_step (stable_sort compareCandidates l) []) in *.
  rewrite <- Hg, <- (map_elem_iff _ _ _ Hw). rewrite list_elem_of_fmap. split.
  - intros ([k c] & -> & Hin). rewrite Forall_forall in Hk. specialize (Hk _ Hin). simpl in *. by rewrite <- Hk.
  - intros Hin. by exists (identity_of s, s).
Qed.

Lemma find_elem {A} (p : A -> bool) l x : find p l = Some x -> x ∈ l /\ p x = true.
Proof. intros H. apply find_some in H as [Hin Hp]. split; [by apply list_elem_of_In|done]. Qed.

Lemma selected_active reg s : s ∈ getSelectedCandidates reg -> s ∈ getActiveCandidates reg.
Proof using C.
  intros Hs%selectCandidates_elem%find_elem. destruct Hs as [Hs _]. by apply stable_sort_elem in Hs.
Qed.

Lemma selected_covers reg c : c ∈ getActiveCandidates reg ->
  exists s, s ∈ getSelectedCandidates reg /\ identity_of s = identity_of c /\ compareCandidates s c <> Gt.
Proof using C.
  intros Hc. destruct (find_sorted (stable_sort compareCandidates (getActiveCandidates reg)) c) as (s & Hf & Hin & Hid & Hle);
    [apply stable_sort_selected|by apply stable_sort_elem|].
  exists s. split; [|done]. apply selectCandidates_elem. by rewrite Hid.
Qed.

(** C28: the selection keeps exactly one candidate per route identity: one of the
    candidates with that identity, and none of them is ordered before it; local
    routes come before upstream ones and shorter paths before longer; the result
    is sorted by the same order. *)
Theorem selection_correct reg :
  NoDup (map identity_of (getSelectedCandidates reg)) /\
  sorted_by compareCandidates (getSelectedCandidates reg) /\
  (forall s, s ∈ getSelectedCandidates reg -> s ∈ getActiveCandidates reg) /\
  (forall c, c ∈ getActiveCandidates reg -> exists s,
     s ∈ getSelectedCandidates reg /\ identity_of s = identity_of c /\ compareCandidates s c <> Gt /\
     (fr_source (sc_route c) = source_local -> fr_source (sc_route s) = source_local) /\
     (fr_source (sc_route s) = fr_source (sc_route c) -> fr_hopCount (sc_route s) <= fr_hopCount (sc_route c))).
Proof using C.
  split_and!.
  - apply selectCandidates_NoDup.
  - apply stable_sort_selected.
  - intros s. apply selected_active.
  - intros c Hc. destruct (selected_covers reg c Hc) as (s & Hin & Hid & Hle). exists s. split_and!; [done..| |].
    + intros Hl. unfold compareCandidates in Hle. rewrite Hl in Hle. by destruct (fr_source (sc_route s)).
    + intros Heq. unfold compareCandidates in Hle. rewrite Heq, Z.compare_refl in Hle. simpl in Hle.
      destruct (Z.compare_spec (fr_hopCount (sc_route s)) (fr_hopCount (sc_route c))); simpl in *; [lia|lia|done].
Qed.
End Selection.

(** ** The registry invariant *)
Section Invariant.
Context {P : Platform} (options : HostRouteRegistryOptions).
Context (Hhost : trimmed_id (ro_hostId options)) (Hmax : 0 <= ro_maxFederationHopCount options).
Implicit Types (reg : HostRouteRegistry) (r : FederatedRouteRegistration).

Record route_on_host r : Prop := {
  roh_ok : federated_route_ok r;
  roh_origin : fr_originHostId r = ro_hostId options;
  roh_next : fr_nextHopHostId r = ro_hostId options;
  roh_hops : fr_hopCount r = 0;
  roh_via : fr_viaHostIds r = [ro_hostId options];
  roh_source : fr_source r = source_local;
}.
Record route_imported r : Prop := {
  ri_ok : federated_route_ok r;
  ri_origin : fr_originHostId r <> ro_hostId options;
  ri_via : ro_hostId options ∉ fr_viaHostIds r;
  ri_hops : fr_hopCount r <= ro_maxFederationHopCount options;
  ri_source : fr_source r = source_upstream;
}.
Record registry_ok reg : Prop := {
  rok_local_wf : map_wf (localRoutes reg);
  rok_imported_wf : map_wf (importedRoutes reg);
  rok_degraded_wf : map_wf (degradedRoutes reg);
  rok_local : Forall (fun p => Forall route_on_host p.2) (localRoutes reg);
  rok_imported : Forall (fun p => Forall route_imported p.2) (importedRoutes reg);
  rok_degraded : Forall (fun p => Forall route_on_host (de_routes p.2)) (degradedRoutes reg);
  rok_counter : 0 <= routeGenerationCounter reg;
}.

Lemma registry_init_ok : registry_ok registry_init.
Proof. split; try constructor. done. Qed.

Lemma local_route_Ok d r : local_route options d = Ok r ->
  route_on_host r /\ fr_targetId r = trim (rd_targetId d) /\ fr_domain r = trim (rd_domain d).
Proof using Hhost.
  unfold local_route. intros (d' & Hd & H)%bind_Ok_inv.
  apply createRoutedDomainRegistration_Ok in Hd as (Ht & Hdo & Hnt & Hnd).
  rewrite federated_route_reread in H.
  - injection H as <-. split; [|done]. split; try done. split; cbn [fr_targetId fr_domain fr_originHostId fr_nextHopHostId fr_hopCount fr_viaHostIds]; try done.
    + rewrite Ht in *. by split; [apply trim_idem|].
    + rewrite Hdo in *. by split; [apply trim_idem|].
    + by apply Forall_singleton.
  - split; cbn [fr_targetId fr_domain fr_originHostId fr_nextHopHostId fr_hopCount fr_viaHostIds]; try done.
    + rewrite Ht in *. by split; [apply trim_idem|].
    + rewrite Hdo in *. by split; [apply trim_idem|].
    + by apply Forall_singleton.
Qed.

Lemma local_routes_Ok l k : map_res (local_route options) l = Ok k -> Forall route_on_host k.
Proof using Hhost.
  intros H%map_res_Ok. induction H as [|d r l k Hd _ IH]; constructor; [|done]. by apply local_route_Ok in Hd as [? _].
Qed.

Lemma setLocalRoutes_ok peer l reg : registry_ok reg -> registry_ok (setLocalRoutes options peer l reg).2.
Proof using Hhost.
  intros [? ? ? ? ? ? ?]. unfold setLocalRoutes. destruct (map_res _ l) as [k|e] eqn:E; simpl; [|by split].
  split; simpl; try done; [by apply map_wf_set|]. apply map_set_Forall; [|done]. by eapply local_routes_Ok.
Qed.

Lemma removeLocalRoutes_ok peer reg : registry_ok reg -> registry_ok (removeLocalRoutes peer reg).
Proof. intros [? ? ? ? ? ? ?]. split; simpl; try done; [by apply map_wf_delete|by apply map_delete_Forall]. Qed.

(** Rejection, decided. *)
Definition rejects r : bool :=
  bool_decide (ro_hostId options ∈ fr_originHostId r :: fr_viaHostIds r) || (ro_maxFederationHopCount options <? fr_hopCount r).

Lemma getImportedRouteRejection_spec r : exists o, getImportedRouteRejection options r = Ok o /\
  match o with None => rejects r = false | Some e => rejects r = true /\ ve_code e = route_loop end.
Proof using Hhost Hmax.
  unfold getImportedRouteRejection, rejects.
  assert (isFederatedRouteLoop r (ro_hostId options) = Ok (bool_decide (ro_hostId options ∈ fr_originHostId r :: fr_viaHostIds r))) as ->.
  { unfold isFederatedRouteLoop. rewrite createVerserHostId_id by done. simpl. f_equal. apply eq_true_iff_eq.
    rewrite orb_true_iff, str_eqb_eq, mem_str_elem, bool_decide_eq_true, elem_of_cons. naive_solver. }
  cbn [mbind result_bind]. destruct (bool_decide _) eqn:Eb; [by eexists|].
  unfold exceedsFederatedRouteHopLimit. rewrite (proj2 (isValidHopCount_Some _ (ro_maxFederationHopCount options))) by done.
  cbn [mbind result_bind]. destruct (ro_maxFederationHopCount options <? fr_hopCount r); by eexists.
Qed.

(** The route an import input is validated to. *)
Definition import_route r : result exn FederatedRouteRegistration :=
  createFederatedRouteRegistration (federated_route_json (with_source source_upstream r)).

Lemma with_source_id r : fr_source r = source_upstream -> with_source source_upstream r = r.
Proof. destruct r. simpl. by intros ->. Qed.

Lemma import_route_source r r' : import_route r = Ok r' -> fr_source r' = source_upstream.
Proof.
  unfold import_route, createFederatedRouteRegistration. destruct (federated_route_json _) as [| | | | | |o] eqn:E; try done.
  assert (prop (js "source") o = JStr (source_name source_upstream)) as Hs by (by injection E as <-).
  destruct (isValidHopCount _); [|done]. rewrite Hs. rewrite source_of_name.
  destruct (prop (js "viaHostIds") o); try done. intros H. res_inv H. done.
Qed.

Lemma import_step_eq acc rej x : import_step options (acc, rej) x =
  route ← import_route x;
  routeError ← getImportedRouteRejection options route;
  match routeError with
  | None => Ok (acc ++ [route], rej)
  | Some error => Ok (acc, rej ++ [(route, error)])
  end.
Proof. done. Qed.

(** What an import does to a list of inputs: validate each, then split by
    rejection, keeping the order. *)
Lemma import_fold l acc rej res : fold_res (import_step options) (acc, rej) l = Ok res ->
  exists rs es, map_res import_route l = Ok rs /\
    res = (acc ++ filter (fun r => rejects r = false) rs, rej ++ es) /\
    es.*1 = filter (fun r => rejects r = true) rs /\ Forall (fun p => ve_code p.2 = route_loop) es.
Proof using Hhost Hmax.
  revert acc rej. induction l as [|x l IH]; intros acc rej H; cbn [fold_res map_res] in *.
  - injection H as <-. exists [], []. by rewrite !app_nil_r.
  - rewrite import_step_eq in H.
    destruct (import_route x) as [r|e]; cbn [mbind result_bind] in *; [|done].
    destruct (getImportedRouteRejection_spec r) as (o & Ho & Hspec). rewrite Ho in H. cbn [mbind result_bind] in H.
    destruct o as [er|]; cbn [mbind result_bind] in H.
    + destruct (IH _ _ H) as (rs & es & Hrs & -> & He & Hc). rewrite Hrs. destruct Hspec as [Hr Hcode].
      exists (r :: rs), ((r, er) :: es). split; [done|]. rewrite filter_cons_False by congruence.
      rewrite (filter_cons_True _ r) by done. csimpl. rewrite He, <- app_assoc. split_and!; try done. by constructor.
    + destruct (IH _ _ H) as (rs & es & Hrs & -> & He & Hc). rewrite Hrs.
      exists (r :: rs), es. split; [done|]. rewrite filter_cons_True by done.
      rewrite (filter_cons_False _ r) by congruence. by rewrite <- app_assoc.
Qed.

Lemma import_fold_ok l : match map_res import_route l with
  | Ok _ => is_ok (fold_res (import_step options) ([], []) l) = true
  | Throw e => fold_res (import_step options) ([], []) l = Throw e
  end.
Proof using Hhost Hmax.
  generalize (@nil FederatedRouteRegistration) (@nil (FederatedRouteRegistration * VerserError)).
  induction l as [|x l IH]; intros acc rej; cbn [fold_res map_res]; [done|].
  rewrite import_step_eq. destruct (import_route x) as [r|e]; cbn [mbind result_bind]; [|done].
  destruct (getImportedRouteRejection_spec r) as (o & -> & _). cbn [mbind result_bind].
  specialize (IH (match o with None => acc ++ [r] | Some _ => acc end) (match o with None => rej | Some er => rej ++ [(r, er)] end)).
  by destruct o; cbn [mbind result_bind] in *; destruct (map_res import_route l).
Qed.

Lemma import_validated l rs : map_res import_route l = Ok rs ->
  Forall (fun r => federated_route_ok r /\ fr_source r = source_upstream) rs.
Proof.
  intros H%map_res_Ok. induction H as [|x r l rs Hx _ IH]; constructor; [|done].
  split; [by eapply federated_route_validated|by eapply import_route_source].
Qed.

Lemma accepted_imported rs : Forall (fun r => federated_route_ok r /\ fr_source r = source_upstream) rs ->
  Forall route_imported (filter (fun r => rejects r = false) rs).
Proof.
  intros H. apply Forall_forall. intros r [Hr Hin]%list_elem_of_filter. rewrite Forall_forall in H.
  destruct (H _ Hin) as [Hok Hs]. unfold rejects in Hr. bools. rewrite not_elem_of_cons in *.
  split; try done; naive_solver lia.
Qed.

Lemma setImportedRoutes_ok up l reg : registry_ok reg -> registry_ok (setImportedRoutes options up l reg).2.
Proof using Hhost Hmax.
  intros [? ? ? ? ? ? ?]. unfold setImportedRoutes. destruct (fold_res _ _ l) as [[a rj]|e] eqn:E; simpl; [|by split].
  destruct (import_fold _ _ _ _ E) as (rs & es & Hrs & Heq & _). injection Heq as -> _.
  split; simpl; try done; [by apply map_wf_set|]. apply map_set_Forall; [|done]. simpl.
  by eapply accepted_imported, import_validated.
Qed.

Lemma removeImportedRoutes_ok up reg : registry_ok reg -> registry_ok (removeImportedRoutes up reg).
Proof. intros [? ? ? ? ? ? ?]. split; simpl; try done; [by apply map_wf_delete|by apply map_delete_Forall]. Qed.

Lemma Forall_filter_sub {A} (Q : A -> Prop) (p : A -> bool) b l : Forall Q l -> Forall Q (filter (fun x => p x = b) l).
Proof. intros H. apply Forall_forall. intros x [_ Hin]%list_elem_of_filter. by eapply Forall_forall in H. Qed.

Lemma removeImportedRoute_ok up t d reg : registry_ok reg -> registry_ok (removeImportedRoute up t d reg).2.
Proof.
  intros Hok. pose proof Hok as [? ? ? ? Hi ? ?]. unfold removeImportedRoute.
  destruct (map_get up (importedRoutes reg)) as [[|r0 rs]|] eqn:Eg; [done| |done].
  pose proof (map_get_Forall _ _ _ _ Hi Eg) as Hr. simpl in Hr.
  destruct (_ =? _)%nat; [done|].
  pose proof (Forall_filter_sub _ (same_route t d) false _ Hr) as Hf.
  destruct (filter _ (r0 :: rs)) as [|x l]; (split; simpl; try done);
    [by apply map_wf_delete|by apply map_delete_Forall|by apply map_wf_set|by apply map_set_Forall].
Qed.

Lemma revokeRoutes_ok peer ds reg : registry_ok reg -> registry_ok (revokeRoutes peer ds reg).2.
Proof.
  intros Hok. pose proof Hok as [? ? ? Hl ? ? ?]. unfold revokeRoutes.
  destruct (map_get peer (localRoutes reg)) as [rs|] eqn:Eg; [|done].
  pose proof (map_get_Forall _ _ _ _ Hl Eg) as Hr. simpl in Hr.
  pose proof (Forall_filter_sub _ (fun r => mem_str (fr_domain r) ds) false _ Hr) as Hf. cbn [snd].
  destruct (filter _ rs) as [|x l]; (split; simpl; try done);
    [by apply map_wf_delete|by apply map_delete_Forall|by apply map_wf_set|by apply map_set_Forall].
Qed.

(** The generation id drawn when a peer is degraded is never blank. *)
Lemma generation_never_throws n s : exists g,
  createVerserRouteGeneration [] {| gi_generationId := Some (js "gen-" ++ num_to_string (num_int n)); gi_sessionId := s |} = Ok g.
Proof.
  unfold createVerserRouteGeneration. cbn [gi_generationId default from_option id].
  destruct (len (trim _) =? 0) eqn:E; [|by eexists].
  exfalso. apply Z.eqb_eq in E. unfold len in E.
  assert (trim (js "gen-" ++ num_to_string (num_int n)) = []) as Ht by (by destruct (trim _)).
  apply trim_nil_iff in Ht. simpl in Ht. done.
Qed.

Lemma setDegraded_ok now peer reg : registry_ok reg -> registry_ok (setDegraded now peer reg).2.
Proof.
  intros Hok. pose proof Hok as [? ? ? Hl ? ? ?]. unfold setDegraded.
  destruct (map_get peer (localRoutes reg)) as [rs|] eqn:Eg; [|done].
  destruct (map_has peer (degradedRoutes reg)); [done|].
  destruct (generation_never_throws (routeGenerationCounter (next_generation reg)) (Some peer)) as [g ->].
  split; simpl; try done; [by apply map_wf_delete|by apply map_wf_set|by apply map_delete_Forall| |lia].
  apply map_set_Forall; [|done]. simpl. by apply (map_get_Forall _ _ _ _ Hl Eg).
Qed.

Lemma reread_routes rs : Forall route_on_host rs ->
  map_res (fun r => createFederatedRouteRegistration (federated_route_json r)) rs = Ok rs.
Proof.
  intros H. apply map_res_Ok. induction H as [|r rs Hr _ IH]; constructor; [|done].
  by apply federated_route_reread, Hr.
Qed.

Lemma restoreRoutes_ok peer reg : registry_ok reg -> registry_ok (restoreRoutes peer reg).2.
Proof.
  intros Hok. pose proof Hok as [? ? ? ? ? Hd ?]. unfold restoreRoutes.
  destruct (map_get peer (degradedRoutes reg)) as [e|] eqn:Eg; [|done].
  pose proof (map_get_Forall _ _ _ _ Hd Eg) as Hr. simpl in Hr. rewrite reread_routes by done.
  split; simpl; try done; [by apply map_wf_set|by apply map_wf_delete|by apply map_set_Forall|by apply map_delete_Forall|lia].
Qed.

Lemma fold_delete_elem {V} ks (m : list (jsstring * V)) p :
  p ∈ fold_left (fun m k => map_delete k m) ks m <-> p ∈ m /\ p.1 ∉ ks.
Proof.
  revert m. induction ks as [|k ks IH]; intros m; cbn [fold_left].
  - split; [intros; split; [done|apply not_elem_of_nil]|tauto].
  - rewrite IH. destruct p as [k' v]. rewrite map_elem_delete, not_elem_of_cons. simpl. naive_solver.
Qed.
Lemma fold_delete_wf {V} ks (m : list (jsstring * V)) : map_wf m -> map_wf (fold_left (fun m k => map_delete k m) ks m).
Proof. revert m. induction ks as [|k ks IH]; intros m Hm; [done|]. cbn [fold_left]. by apply IH, map_wf_delete. Qed.

Lemma removeExpired_ok now t reg : registry_ok reg -> registry_ok (removeExpiredDegradedRoutes now t reg).2.
Proof.
  intros [? ? ? ? ? Hd ?]. split; simpl; try done; [by apply fold_delete_wf|].
  apply Forall_forall. intros p [Hin _]%fold_delete_elem. by eapply Forall_forall in Hd.
Qed.

(** ** The registry's steps and reachable states *)
Inductive registry_step : HostRouteRegistry -> HostRouteRegistry -> Prop :=
  | step_set_local peer l reg : registry_step reg (setLocalRoutes options peer l reg).2
  | step_remove_local peer reg : registry_step reg (removeLocalRoutes peer reg)
  | step_set_imported up l reg : registry_step reg (setImportedRoutes options up l reg).2
  | step_remove_imported up reg : registry_step reg (removeImportedRoutes up reg)
  | step_remove_one up t d reg : registry_step reg (removeImportedRoute up t d reg).2
  | step_clear reg : registry_step reg (clear reg)
  | step_revoke peer ds reg : registry_step reg (revokeRoutes peer ds reg).2
  | step_degrade now peer reg : registry_step reg (setDegraded now peer reg).2
  | step_restore peer reg : registry_step reg (restoreRoutes peer reg).2
  | step_expire now t reg : registry_step reg (removeExpiredDegradedRoutes now t reg).2.

Lemma registry_step_ok reg reg' : registry_step reg reg' -> registry_ok reg -> registry_ok reg'.
Proof using Hhost Hmax.
  intros []; [apply setLocalRoutes_ok|apply removeLocalRoutes_ok|apply setImportedRoutes_ok
    |apply removeImportedRoutes_ok|apply removeImportedRoute_ok|intros; apply registry_init_ok
    |apply revokeRoutes_ok|apply setDegraded_ok|apply restoreRoutes_ok|apply removeExpired_ok].
Qed.

(** C9: in every state the registry can reach, local and degraded routes are this
    host's own (zero hops, through this host alone), imported routes never pass
    through this host nor exceed the hop limit, all ids are trimmed and
    non-empty, and no map holds a key twice. *)
Theorem registry_invariant reg : rtc registry_step registry_init reg -> registry_ok reg.
Proof using Hhost Hmax.
  intros H. cut (registry_ok registry_init); [|apply registry_init_ok].
  induction H; [done|]. intros Hx. eauto using registry_step_ok.
Qed.
End Invariant.

(** ** Functional behaviour *)
Section Behaviour.
Context {P : Platform} {C : ConsistentCollation} (options : HostRouteRegistryOptions).
Context (Hhost : trimmed_id (ro_hostId options)) (Hmax : 0 <= ro_maxFederationHopCount options).
Implicit Types (reg : HostRouteRegistry) (r : FederatedRouteRegistration).

(** An import validates every route or changes nothing; otherwise it stores,
    in order, exactly the routes that neither loop through this host nor exceed
    the hop limit, reports the others with code [route-loop], and touches no
    other upstream, local or degraded route. *)
Theorem import_correct up l reg :
  match setImportedRoutes options up l reg with
  | (Throw e, reg') => reg' = reg /\ map_res import_route l = Throw e
  | (Ok (rejected, changed), reg') =>
      exists rs, map_res import_route l = Ok rs /\
        map_get up (importedRoutes reg') = Some (filter (fun r => rejects options r = false) rs) /\
        rejected.*1 = filter (fun r => rejects options r = true) rs /\
        Forall (fun p => ve_code p.2 = route_loop) rejected /\
        (forall up', up' <> up -> map_get up' (importedRoutes reg') = map_get up' (importedRoutes reg)) /\
        localRoutes reg' = localRoutes reg /\ degradedRoutes reg' = degradedRoutes reg
  end.
Proof using Hhost Hmax.
  unfold setImportedRoutes. pose proof (import_fold_ok options Hhost Hmax l) as Hok.
  destruct (fold_res (import_step options) ([], []) l) as [[a rj]|e] eqn:E.
  - destruct (import_fold options Hhost Hmax _ _ _ _ E) as (rs & es & Hrs & Heq & He & Hc). injection Heq as -> ->.
    exists rs. cbn [importedRoutes set_imported localRoutes degradedRoutes]. split_and!; try done.
    + by rewrite map_get_set_eq.
    + intros up' Hne. by rewrite map_get_set_ne.
  - split; [done|]. destruct (map_res import_route l); [done|]. by injection Hok as ->.
Qed.

Lemma str_eqb_iff s t b : (s = t <-> b = true) -> str_eqb s t = b.
Proof.
  intros H. destruct b; [by apply str_eqb_eq, H|]. apply str_eqb_neq. intros E%H. done.
Qed.

(** [changed] reports whether the stored set differs: it is false exactly when
    the new routes are a permutation of the old ones, up to fingerprint. *)
Theorem import_change_detection up l reg rejected changed reg' :
  setImportedRoutes options up l reg = (Ok (rejected, changed), reg') ->
  let before := default [] (map_get up (importedRoutes reg)) in
  let after := default [] (map_get up (importedRoutes reg')) in
  Forall (fun r => wf_units (routeFingerprint r)) (before ++ after) ->
  changed = false <-> map routeFingerprint before ≡ₚ map routeFingerprint after.
Proof.
  unfold setImportedRoutes. destruct (fold_res _ _ l) as [[a rj]|e]; [|done]. intros [= <- <- <-].
  cbn [importedRoutes set_imported]. rewrite map_get_set_eq. cbn [default from_option id].
  set (before := default [] (map_get up (importedRoutes reg))). intros [Hb Ha]%Forall_app.
  rewrite negb_false_iff, str_eqb_eq. unfold routeSetKey.
  assert (forall k, Forall (fun r => wf_units (routeFingerprint r)) k ->
    json_plain (JArr (map JStr (stable_sort unit_compare (map routeFingerprint k)))) = true) as Hplain.
  { intros k Hk. cbn [json_plain]. apply Forall_forallb, Forall_fmap. apply Forall_forall. intros s Hs.
    apply stable_sort_elem, list_elem_of_fmap in Hs as (r & -> & Hr). cbn.
    rewrite Forall_forall in Hk. by apply Forall_forallb, Hk. }
  split.
  - intros E. apply (f_equal json_parse) in E. rewrite !json_parse_text in E by auto.
    injection E as E. assert (Inj (=) (=) JStr) as Hinj by (by intros ?? [= ->]).
    apply (inj (fmap JStr)) in E.
    rewrite <- (stable_sort_perm unit_compare (map routeFingerprint before)), E. apply stable_sort_perm.
  - intros Hp. do 3 f_equal. apply (sorted_perm_eq unit_compare).
    + intros x y. apply unit_compare_eq.
    + apply unit_compare_ok.
    + apply stable_sort_sorted; [apply cmp_total|apply cmp_trans]; apply unit_compare_ok.
    + apply stable_sort_sorted; [apply cmp_total|apply cmp_trans]; apply unit_compare_ok.
    + by rewrite !stable_sort_perm.
Qed.

(** ** Export *)
Lemma owned_elem m c : c ∈ owned m <-> exists rs, (sc_ownerId c, rs) ∈ m /\ sc_route c ∈ rs.
Proof.
  unfold owned. rewrite list_elem_of_In, in_concat. setoid_rewrite in_map_iff. setoid_rewrite <- list_elem_of_In. split.
  - intros (x & ([o rs] & <- & Hin) & Hx). apply list_elem_of_fmap in Hx as (r & -> & Hr). by exists rs.
  - intros (rs & Hin & Hr). exists (map (fun route => {| sc_ownerId := sc_ownerId c; sc_route := route |}) rs).
    split; [by exists (sc_ownerId c, rs)|]. apply list_elem_of_fmap. exists (sc_route c). split; [by destruct c|done].
Qed.

Lemma active_ok reg c : registry_ok options reg -> c ∈ getActiveCandidates reg ->
  route_on_host options (sc_route c) \/ route_imported options (sc_route c).
Proof.
  intros [_ _ _ Hl Hi _ _]. unfold getActiveCandidates, getLocalCandidates.
  rewrite elem_of_app, !owned_elem. intros [(rs & Hin & Hr)|(rs & Hin & Hr)]; [left|right].
  - rewrite Forall_forall in Hl. specialize (Hl _ Hin). simpl in Hl. by eapply Forall_forall in Hl.
  - rewrite Forall_forall in Hi. specialize (Hi _ Hin). simpl in Hi. by eapply Forall_forall in Hi.
Qed.

Lemma active_route_ok reg c : registry_ok options reg -> c ∈ getActiveCandidates reg -> federated_route_ok (sc_route c).
Proof. intros Hok Hc. by destruct (active_ok reg c Hok Hc) as [[]|[]]. Qed.

Lemma appendHostId_elem l h x : x ∈ appendHostId l h <-> x ∈ l \/ x = h.
Proof.
  unfold appendHostId. destruct (mem_str h l) eqn:E; [apply mem_str_elem in E; naive_solver|].
  rewrite elem_of_app, list_elem_of_singleton. tauto.
Qed.

Lemma exported_ok r : federated_route_ok r -> federated_route_ok (exported_route options r).
Proof using Hhost.
  intros [? ? ? ? ? Hv]. split; cbn [exported_route fr_targetId fr_domain fr_originHostId fr_nextHopHostId fr_hopCount fr_viaHostIds]; try done; [lia|].
  apply Forall_forall. intros x [Hx| ->]%appendHostId_elem; [|done]. by eapply Forall_forall in Hv.
Qed.

Lemma export_Ok reg peer : registry_ok options reg ->
  getFederatedRoutesForExport options peer reg =
    Ok (map (fun c => exported_route options (sc_route c))
          (filter (fun c => exportable options peer (sc_route c) = true) (getSelectedCandidates reg))).
Proof using C Hhost.
  intros Hok. unfold getFederatedRoutesForExport.
  assert (forall l, Forall (fun c => federated_route_ok (sc_route c)) l ->
    map_res (fun c => createFederatedRouteRegistration (federated_route_json (exported_route options (sc_route c)))) l =
    Ok (map (fun c => exported_route options (sc_route c)) l)) as H.
  { induction 1 as [|c l Hc _ IH]; [done|]. cbn [map_res map].
    rewrite federated_route_reread by (by apply exported_ok). cbn [mbind result_bind]. by rewrite IH. }
  apply H. apply Forall_forall. intros c [_ Hc]%list_elem_of_filter.
  apply (active_route_ok reg); [done|]. by apply selected_active.
Qed.

Lemma exported_elem reg peer r :
  r ∈ map (fun c => exported_route options (sc_route c))
    (filter (fun c => exportable options (Some peer) (sc_route c) = true) (getSelectedCandidates reg)) <->
  exists c, c ∈ getSelectedCandidates reg /\ r = exported_route options (sc_route c) /\
     peer <> fr_originHostId (sc_route c) /\ peer ∉ fr_viaHostIds (sc_route c) /\
     fr_hopCount (sc_route c) < ro_maxFederationHopCount options.
Proof using Type.
  rewrite list_elem_of_fmap. setoid_rewrite list_elem_of_filter. unfold exportable.
  setoid_rewrite andb_true_iff. setoid_rewrite andb_true_iff. setoid_rewrite negb_true_iff.
  setoid_rewrite str_eqb_neq. setoid_rewrite Z.leb_le.
  split; intros (c & H); exists c; unfold mem_str in *; rewrite bool_decide_eq_false in *; naive_solver lia.
Qed.

Lemma exported_elsewhere peer r : peer <> fr_originHostId r -> peer ∉ fr_viaHostIds r -> peer <> ro_hostId options ->
  peer ∉ fr_originHostId (exported_route options r) :: fr_viaHostIds (exported_route options r).
Proof using Type.
  intros H1 H2 Hne. cbn [exported_route fr_originHostId fr_viaHostIds].
  rewrite not_elem_of_cons, appendHostId_elem. naive_solver.
Qed.

(** Exporting never fails; what a peer is told of is the selected routes it
    did not originate and has not carried and that stay within the hop limit,
    each with this host as next hop and in the via list, one hop further. *)
Theorem export_correct reg peer : registry_ok options reg ->
  exists rs, getFederatedRoutesForExport options (Some peer) reg = Ok rs /\
    (forall r, r ∈ rs <-> exists c, c ∈ getSelectedCandidates reg /\ r = exported_route options (sc_route c) /\
       peer <> fr_originHostId (sc_route c) /\ peer ∉ fr_viaHostIds (sc_route c) /\
       fr_hopCount (sc_route c) < ro_maxFederationHopCount options) /\
    (forall r, r ∈ rs -> fr_nextHopHostId r = ro_hostId options /\ ro_hostId options ∈ fr_viaHostIds r /\
       1 <= fr_hopCount r <= ro_maxFederationHopCount options /\ federated_route_ok r /\
       (peer <> ro_hostId options -> peer ∉ fr_originHostId r :: fr_viaHostIds r)).
Proof using C Hhost.
  intros Hok. eexists. split; [by apply export_Ok|].
  split; [intros r; apply exported_elem|]. intros r (c & Hc & -> & Hp1 & Hp2 & Hh)%exported_elem.
  pose proof (active_route_ok reg c Hok (selected_active reg c Hc)) as Hro.
  split_and!; [done| | | |by apply exported_ok|by apply exported_elsewhere].
  - cbn. apply appendHostId_elem. by right.
  - cbn. pose proof (fro_hops _ Hro). lia.
  - cbn. lia.
Qed.

(** ** Paths through the federation *)
(** A route on the wire: its via list names, without repetition and starting at
    the origin, the hosts it went through, one per hop. *)
Definition well_traveled r : Prop :=
  NoDup (fr_viaHostIds r) /\ len (fr_viaHostIds r) = fr_hopCount r /\ head (fr_viaHostIds r) = Some (fr_originHostId r).

Lemma on_host_traveled r : route_on_host options r -> well_traveled (exported_route options r).
Proof.
  intros [_ Ho _ Hh Hv _]. unfold well_traveled. cbn [exported_route fr_originHostId fr_viaHostIds fr_hopCount].
  assert (appendHostId (fr_viaHostIds r) (ro_hostId options) = [ro_hostId options]) as ->.
  { rewrite Hv. unfold appendHostId, mem_str. by rewrite bool_decide_true by (by left). }
  rewrite Ho, Hh. split_and!; [apply NoDup_singleton|done|done].
Qed.

Lemma imported_traveled r : route_imported options r -> well_traveled r -> well_traveled (exported_route options r).
Proof.
  intros [_ _ Hv _ _] (Hn & Hl & Hh). unfold well_traveled.
  cbn [exported_route fr_originHostId fr_viaHostIds fr_hopCount]. unfold appendHostId.
  destruct (mem_str (ro_hostId options) (fr_viaHostIds r)) eqn:E; [by apply mem_str_elem in E|]. split_and!.
  - apply NoDup_app. split; [done|]. split; [|apply NoDup_singleton]. intros x Hx ->%list_elem_of_singleton. done.
  - rewrite len_app. change (len [ro_hostId options]) with 1. lia.
  - by destruct (fr_viaHostIds r).
Qed.

(** C29: no loop survives the federation: when the routes a host has imported are
    well travelled, so is every route it exports, and the peer it is exported to
    never has to reject it as a loop, only for its own hop limit; so a route is
    carried at most once by each host. *)
Theorem export_loop_free reg peer r rs :
  registry_ok options reg -> Forall (fun p => Forall well_traveled p.2) (importedRoutes reg) ->
  ro_hostId peer <> ro_hostId options ->
  getFederatedRoutesForExport options (Some (ro_hostId peer)) reg = Ok rs -> r ∈ rs ->
  well_traveled r /\ rejects peer r = (ro_maxFederationHopCount peer <? fr_hopCount r).
Proof using C Hhost.
  intros Hok Ht Hne Hrs Hr. rewrite export_Ok in Hrs by done. injection Hrs as <-.
  apply exported_elem in Hr as (c & Hc & -> & Hp1 & Hp2 & _).
  split; [|unfold rejects; rewrite bool_decide_false; [done|by apply exported_elsewhere; [| |congruence]]].
  apply selected_active in Hc.
  unfold getActiveCandidates, getLocalCandidates in Hc. apply elem_of_app in Hc as [Hc|Hc];
    apply owned_elem in Hc as (l & Hin & Hcl); destruct Hok as [_ _ _ Hl Hi _ _].
  - rewrite Forall_forall in Hl. specialize (Hl _ Hin). simpl in Hl. rewrite Forall_forall in Hl. by apply on_host_traveled, Hl.
  - rewrite Forall_forall in Hi, Ht. specialize (Hi _ Hin). specialize (Ht _ Hin). simpl in *.
    rewrite Forall_forall in Hi, Ht. apply imported_traveled; auto.
Qed.

(** ** Revocation *)

(** Revoking domains of a peer removes exactly its routes for those domains,
    answers for each requested domain whether it was found, and leaves every
    other peer's routes alone. *)
Theorem revoke_correct peer domains reg :
  let '((revoked, notFound), reg') := revokeRoutes peer domains reg in
  let before := default [] (map_get peer (localRoutes reg)) in
  default [] (map_get peer (localRoutes reg')) = filter (fun r => fr_domain r ∉ domains) before /\
  (forall d, d ∈ revoked <-> d ∈ domains /\ exists r, r ∈ before /\ fr_domain r = d) /\
  (forall d, d ∈ notFound <-> d ∈ domains /\ d ∉ revoked) /\
  (forall p, p <> peer -> map_get p (localRoutes reg') = map_get p (localRoutes reg)) /\
  importedRoutes reg' = importedRoutes reg /\ degradedRoutes reg' = degradedRoutes reg.
Proof.
  unfold revokeRoutes. destruct (map_get peer (localRoutes reg)) as [rs|] eqn:Eg; cbn [default from_option id].
  - set (revoked := map fr_domain (filter (fun route => mem_str (fr_domain route) domains = true) rs)).
    set (remaining := filter (fun route => mem_str (fr_domain route) domains = false) rs).
    assert (remaining = filter (fun r => fr_domain r ∉ domains) rs) as Hrem.
    { apply list_filter_iff. intros r. unfold mem_str. by rewrite bool_decide_eq_false. }
    split_and!.
    + rewrite <- Hrem. destruct remaining; cbn [localRoutes set_local];
        [by rewrite map_get_delete, decide_True|by rewrite map_get_set_eq].
    + intros d. unfold revoked. rewrite list_elem_of_fmap. setoid_rewrite list_elem_of_filter. setoid_rewrite mem_str_elem. naive_solver.
    + intros d. rewrite list_elem_of_filter. unfold mem_str. rewrite bool_decide_eq_false. tauto.
    + intros p Hp. destruct remaining; cbn [localRoutes set_local];
        [by rewrite map_get_delete, decide_False|by rewrite map_get_set_ne].
    + by destruct remaining.
    + by destruct remaining.
  - rewrite Eg. cbn [default from_option id]. split_and!; try done.
    + intros d. split; [by intros ?%elem_of_nil|]. by intros [_ (r & ?%elem_of_nil & _)].
    + intros d. split; [|tauto]. intros. split; [done|apply not_elem_of_nil].
Qed.

(** ** Degradation *)

(** Degrading a peer and restoring it is the identity on its routes: they
    leave the active set, stay listed as degraded under a fresh generation, and
    come back unchanged; nothing of another peer moves. *)
Theorem degrade_restore_correct now peer reg rs :
  registry_ok options reg -> map_get peer (localRoutes reg) = Some rs -> map_get peer (degradedRoutes reg) = None ->
  exists reg1 reg2 g, setDegraded now peer reg = (Ok tt, reg1) /\
    map_get peer (localRoutes reg1) = None /\
    map_get peer (degradedRoutes reg1) = Some {| de_routes := rs; de_degradedAt := now; de_generation := g |} /\
    restoreRoutes peer reg1 = (Ok true, reg2) /\
    (forall p, map_get p (localRoutes reg2) = map_get p (localRoutes reg)) /\
    (forall p, map_get p (degradedRoutes reg2) = map_get p (degradedRoutes reg)) /\
    importedRoutes reg2 = importedRoutes reg /\
    routeGenerationCounter reg2 = routeGenerationCounter reg + 2.
Proof.
  intros Hok Hl Hd. unfold setDegraded, restoreRoutes. rewrite Hl. unfold map_has. rewrite Hd.
  destruct (generation_never_throws (routeGenerationCounter (next_generation reg)) (Some peer)) as [g ->].
  eexists _, _, g. split; [reflexivity|].
  cbn [localRoutes degradedRoutes importedRoutes set_local set_degraded next_generation routeGenerationCounter].
  rewrite map_get_delete, map_get_set_eq, decide_True by done. split; [done|]. split; [done|].
  cbn [de_routes]. rewrite (reread_routes options) by exact (map_get_Forall _ _ _ _ (rok_local _ _ Hok) Hl).
  split; [reflexivity|]. cbn [localRoutes degradedRoutes importedRoutes set_local set_degraded next_generation routeGenerationCounter].
  split_and!; [| |done|lia].
  - intros p. rewrite map_get_set, map_get_delete. case_decide; [by subst|done].
  - intros p. rewrite map_get_delete, map_get_set. case_decide; [by subst|done].
Qed.

(** Expiry removes exactly the peers that have been degraded for the timeout
    or longer, reports them with all their domains, and keeps the others. *)
Theorem expire_correct now timeout reg : registry_ok options reg ->
  let '((peers, count, entries), reg') := removeExpiredDegradedRoutes now timeout reg in
  (forall p, map_get p (degradedRoutes reg') =
     match map_get p (degradedRoutes reg) with
     | Some e => if timeout <=? now - de_degradedAt e then None else Some e
     | None => None
     end) /\
  (forall p, p ∈ peers <-> exists e, map_get p (degradedRoutes reg) = Some e /\ timeout <= now - de_degradedAt e) /\
  (forall p d, (p, d) ∈ entries <-> exists e r, map_get p (degradedRoutes reg) = Some e /\
     timeout <= now - de_degradedAt e /\ r ∈ de_routes e /\ fr_domain r = d) /\
  count = len entries /\
  localRoutes reg' = localRoutes reg /\ importedRoutes reg' = importedRoutes reg.
Proof.
  intros [_ _ Hw _ _ _ _]. unfold removeExpiredDegradedRoutes. cbn [degradedRoutes set_degraded localRoutes importedRoutes].
  set (m := degradedRoutes reg) in *. set (ex := filter (fun p => expired now timeout p = true) m).
  assert (forall p e, (p, e) ∈ ex <-> map_get p m = Some e /\ timeout <= now - de_degradedAt e) as Hex.
  { intros p e. unfold ex, expired. rewrite list_elem_of_filter, (map_elem_iff _ _ _ Hw). cbn [snd]. rewrite Z.leb_le. tauto. }
  assert (forall p, p ∈ ex.*1 <-> exists e, map_get p m = Some e /\ timeout <= now - de_degradedAt e) as Hpe.
  { intros p. rewrite list_elem_of_fmap. split; [intros ([q e] & -> & H%Hex); eauto|].
    intros (e & He). exists (p, e). split; [done|]. by apply Hex. }
  split_and!; try done.
  - intros p. pose proof (fold_delete_wf ex.*1 m Hw) as Hw'.
    destruct (map_get p (fold_left _ _ m)) as [e|] eqn:E.
    + apply (map_elem_iff _ _ _ Hw') in E. apply fold_delete_elem in E as [Hin Hni]. cbn [fst] in Hni.
      apply (map_elem_iff _ _ _ Hw) in Hin. rewrite Hin. destruct (Z.leb_spec timeout (now - de_degradedAt e)); [|done].
      destruct Hni. apply Hpe. eauto.
    + destruct (map_get p m) as [e|] eqn:Em; [|done]. destruct (Z.leb_spec timeout (now - de_degradedAt e)) as [|Hlt]; [done|].
      exfalso. apply map_get_None in E. apply E. unfold map_keys. apply list_elem_of_fmap. exists (p, e). split; [done|].
      apply fold_delete_elem. split; [by apply map_elem_iff|]. cbn [fst]. rewrite Hpe. intros (e' & He' & Ht).
      rewrite Em in He'. injection He' as <-. lia.
  - intros p d. rewrite list_elem_of_In, in_concat. setoid_rewrite in_map_iff. setoid_rewrite <- list_elem_of_In. split.
    + intros (x & ([q e] & <- & Hq%Hex) & Hx). apply list_elem_of_fmap in Hx as (r & [= -> ->] & Hr). naive_solver.
    + intros (e & r & He & Ht & Hr & <-). exists (map (fun route => (p, fr_domain route)) (de_routes e)).
      split; [exists (p, e); split; [done|by apply Hex]|]. apply list_elem_of_fmap. by exists r.
  - clear. rewrite <- (Z.add_0_l (len _)). generalize 0. induction ex as [|[p e] ex IH]; intros n; cbn [fold_left map concat]; [unfold len; simpl; lia|].
    rewrite IH, len_app. unfold len at 3. rewrite length_map. unfold len. cbn [snd]. lia.
Qed.
End Behaviour.

(** ** What brokers are told *)
Section BrokerRoutes.
Context {P : Platform} {C : ConsistentCollation}.

Definition rd_key (r : RoutedDomainRegistration) : jsstring := route_key (rd_targetId r) (rd_domain r).

(** Route keys separate routes whose target ids hold no NUL. *)
Lemma rd_key_inj r r' : 0 ∉ rd_targetId r -> 0 ∉ rd_targetId r' -> rd_key r = rd_key r' -> r = r'.
Proof.
  unfold rd_key, route_key. destruct r as [t d], r' as [t' d']. cbn [rd_targetId rd_domain app].
  unfold jsstring in *. revert t'. induction t as [|x t IH]; intros [|y t'] Hn Hn' E; cbn [app] in E.
  - injection E as ->. done.
  - injection E as <- _. by destruct Hn'; left.
  - injection E as -> _. by destruct Hn; left.
  - injection E as -> E. rewrite not_elem_of_cons in Hn, Hn'.
    specialize (IH t' (proj2 Hn) (proj2 Hn') E). by injection IH as -> ->.
Qed.

Lemma merge_fold l seen merged :
  (forall k, k ∈ seen <-> k ∈ map rd_key merged) -> NoDup (map rd_key merged) ->
  let out := (fold_left merge_step l (seen, merged)).2 in
  NoDup (map rd_key out) /\
  (forall r, r ∈ out -> r ∈ merged \/ r ∈ l) /\
  (forall r, r ∈ merged \/ r ∈ l -> exists r', r' ∈ out /\ rd_key r' = rd_key r).
Proof.
  revert seen merged. induction l as [|x l IH]; intros seen merged Hs Hn; cbn [fold_left].
  - split_and!; [done|by left|]. intros r [Hr|Hr%elem_of_nil]; [by exists r|done].
  - cbn [merge_step]. fold (rd_key x). destruct (set_has (rd_key x) seen) eqn:Eh.
    + apply set_has_elem, Hs, list_elem_of_fmap in Eh as (r0 & Hk & Hr0).
      destruct (IH seen merged Hs Hn) as (H1 & H2 & H3). split_and!; [done| |].
      * intros r Hr. destruct (H2 r Hr); [by left|right; by right].
      * intros r [Hr|Hr]; [by apply H3; left|]. apply elem_of_cons in Hr as [->|Hr]; [|by apply H3; right].
        destruct (H3 r0) as (r' & Hr' & Hk'); [by left|]. exists r'. split; [done|]. congruence.
    + assert (rd_key x ∉ seen) as Hx by (intros Hin%set_has_elem; congruence).
      destruct (IH (set_add (rd_key x) seen) (merged ++ [x])) as (H1 & H2 & H3).
      * intros k. rewrite set_add_elem, map_app, elem_of_app, Hs. cbn [map]. rewrite list_elem_of_singleton. tauto.
      * rewrite map_app. apply NoDup_app. split; [done|]. cbn [map]. split; [|apply NoDup_singleton].
        intros k Hk ->%list_elem_of_singleton. by apply Hx, Hs.
      * split_and!; [done| |].
        -- intros r Hr. destruct (H2 r Hr) as [Hin|Hin]; [|right; by right].
           apply elem_of_app in Hin as [Hin| ->%list_elem_of_singleton]; [by left|right; by left].
        -- intros r Hr. apply H3. rewrite elem_of_app, list_elem_of_singleton. rewrite elem_of_cons in Hr. tauto.
Qed.

(** The route list sent to brokers names each (target, domain) pair once, and
    names exactly the pairs of the active and the degraded routes. *)
Theorem broker_routes_correct reg :
  (forall r, r ∈ map (fun c => broker_route (sc_route c)) (getActiveCandidates reg) ++ getDegradedBrokerRoutes reg ->
     0 ∉ rd_targetId r) ->
  NoDup (getBrokerRoutes reg) /\
  forall r, r ∈ getBrokerRoutes reg <->
    (exists c, c ∈ getActiveCandidates reg /\ r = broker_route (sc_route c)) \/ r ∈ getDegradedBrokerRoutes reg.
Proof using C.
  intros Hnul. unfold getBrokerRoutes.
  set (active := map (fun candidate => broker_route (sc_route candidate)) (getSelectedCandidates reg)).
  destruct (merge_fold (active ++ getDegradedBrokerRoutes reg) [] []) as (H1 & H2 & H3); [done|constructor|].
  pose proof (selected_active reg) as Hsub. pose proof (selected_covers reg) as Hall.
  assert (forall r, r ∈ active -> exists c, c ∈ getActiveCandidates reg /\ r = broker_route (sc_route c)) as Hact.
  { intros r (c & -> & Hc)%list_elem_of_fmap. exists c. auto. }
  assert (forall r, (exists c, c ∈ getActiveCandidates reg /\ r = broker_route (sc_route c)) \/ r ∈ getDegradedBrokerRoutes reg ->
    0 ∉ rd_targetId r) as Hnul'.
  { intros r Hr. apply Hnul. rewrite elem_of_app, list_elem_of_fmap. naive_solver. }
  split; [by eapply NoDup_fmap_1|]. intros r. split.
  - intros [?%elem_of_nil|[Hr|Hr]%elem_of_app]%H2; [done|left; auto|by right].
  - intros Hr. assert (exists r0, r0 ∈ active ++ getDegradedBrokerRoutes reg /\ rd_key r0 = rd_key r) as (r0 & Hr0 & Hk0).
    { destruct Hr as [(c & Hc & ->)|Hr]; [|exists r; split; [apply elem_of_app; by right|done]].
      destruct (Hall c Hc) as (s & Hs & Hid & _). exists (broker_route (sc_route s)).
      split; [|exact Hid]. apply elem_of_app. left. apply list_elem_of_fmap. by exists s. }
    destruct (H3 r0) as (r' & Hr' & Hk'); [by right|].
    assert (r' = r) as ->; [|done]. apply rd_key_inj; [|by apply Hnul'|congruence]. apply Hnul'.
    destruct (H2 r' Hr') as [?%elem_of_nil|[Hx|Hx]%elem_of_app]; [done|left; auto|by right].
Qed.
End BrokerRoutes.

(** Ids with an embedded NUL can share an identity. *)
Lemma route_identity_collision :
  route_key (js "a" ++ [0] ++ js "b") (js "c") = route_key (js "a") (js "b" ++ [0] ++ js "c").
Proof. done. Qed.

(** ** Witnesses *)
Definition sample_options : HostRouteRegistryOptions := {| ro_hostId := js "h1"; ro_maxFederationHopCount := 4 |}.
Definition sample_peer_options : HostRouteRegistryOptions := {| ro_hostId := js "h3"; ro_maxFederationHopCount := 1 |}.
Definition sample_import : FederatedRouteRegistration :=
  {| fr_targetId := js "g2"; fr_domain := js "b.example"; fr_originHostId := js "h2"; fr_nextHopHostId := js "h2";
     fr_hopCount := 1; fr_viaHostIds := [js "h2"]; fr_source := source_upstream |}.
Definition sample_loop : FederatedRouteRegistration :=
  {| fr_targetId := js "g9"; fr_domain := js "c.example"; fr_originHostId := js "h1"; fr_nextHopHostId := js "h2";
     fr_hopCount := 2; fr_viaHostIds := [js "h1"; js "h2"]; fr_source := source_upstream |}.

Definition sample_registry : HostRouteRegistry :=
  (setImportedRoutes sample_options (js "h2") [sample_import; sample_loop]
    (setLocalRoutes sample_options (js "g1") [{| rd_targetId := js "g1"; rd_domain := js "a.example" |};
                                              {| rd_targetId := js "g1"; rd_domain := js "a2.example" |}] registry_init).2).2.

Lemma sample_host : trimmed_id (ro_hostId sample_options).
Proof. by split. Qed.

Lemma registry_invariant_witness : registry_ok sample_options sample_registry.
Proof.
  apply (registry_invariant sample_options sample_host); [cbn; lia|].
  eapply rtc_l; [apply (step_set_local sample_options (js "g1") [{| rd_targetId := js "g1"; rd_domain := js "a.example" |};
    {| rd_targetId := js "g1"; rd_domain := js "a2.example" |}])|].
  eapply rtc_l; [apply (step_set_imported sample_options (js "h2") [sample_import; sample_loop])|]. apply rtc_refl.
Defined.

Lemma sample_registry_ok : registry_ok sample_options sample_registry.
Proof.
  unfold sample_registry. apply setImportedRoutes_ok; [apply sample_host|cbn; lia|].
  apply setLocalRoutes_ok; [apply sample_host|]. apply registry_init_ok.
Qed.

Lemma selection_correct_witness :
  exists s, s ∈ getSelectedCandidates (P := ascii_platform) sample_registry /\ fr_domain (sc_route s) = js "b.example".
Proof.
  destruct (selection_correct (P := ascii_platform) sample_registry) as (_ & _ & _ & H).
  destruct (H {| sc_ownerId := js "h2"; sc_route := sample_import |}) as (s & Hs & Hid & _).
  - apply (bool_decide_unpack _). vm_compute. exact I.
  - exists s. split; [exact Hs|]. vm_compute in Hs.
    repeat (apply elem_of_cons in Hs as [->|Hs]; [vm_compute in Hid |- *; first [reflexivity|discriminate Hid]|]).
    by apply elem_of_nil in Hs.
Defined.

Lemma import_correct_witness :
  exists rejected changed reg', setImportedRoutes sample_options (js "h2") [sample_import; sample_loop] registry_init = (Ok (rejected, changed), reg') /\
    map_get (js "h2") (importedRoutes reg') = Some [sample_import] /\ Forall (fun p => ve_code p.2 = route_loop) rejected.
Proof.
  pose proof (import_correct sample_options sample_host ltac:(cbn; lia) (js "h2") [sample_import; sample_loop] registry_init) as H.
  destruct (setImportedRoutes sample_options (js "h2") [sample_import; sample_loop] registry_init) as [[[rejected changed]|e] reg'] eqn:E.
  - destruct H as (rs & Hrs & Hg & _ & Hc & _). exists rejected, changed, reg'. split; [reflexivity|]. split; [|exact Hc].
    rewrite Hg. vm_compute in Hrs. injection Hrs as <-. vm_compute. reflexivity.
  - destruct H as [_ H]. vm_compute in H. discriminate H.
Defined.

Lemma import_change_detection_witness :
  exists rejected changed reg', setImportedRoutes sample_options (js "h2") [sample_loop; sample_import] sample_registry = (Ok (rejected, changed), reg') /\
    changed = false.
Proof.
  destruct (setImportedRoutes sample_options (js "h2") [sample_loop; sample_import] sample_registry) as [[[rejected changed]|e] reg'] eqn:E;
    [|vm_compute in E; discriminate E].
  exists rejected, changed, reg'. split; [reflexivity|].
  apply (import_change_detection sample_options (js "h2") [sample_loop; sample_import] sample_registry rejected changed reg' E).
  - assert (reg' = (setImportedRoutes sample_options (js "h2") [sample_loop; sample_import] sample_registry).2) as -> by (by rewrite E).
    apply (bool_decide_unpack _). vm_compute. exact I.
  - assert (reg' = (setImportedRoutes sample_options (js "h2") [sample_loop; sample_import] sample_registry).2) as -> by (by rewrite E).
    vm_compute. reflexivity.
Defined.

Lemma export_correct_witness :
  exists rs, getFederatedRoutesForExport (P := ascii_platform) sample_options (Some (js "h3")) sample_registry = Ok rs /\
    forall r, r ∈ rs -> fr_nextHopHostId r = js "h1" /\ 1 <= fr_hopCount r <= 4.
Proof.
  destruct (export_correct (P := ascii_platform) sample_options sample_host sample_registry (js "h3") sample_registry_ok)
    as (rs & H & _ & Hp).
  exists rs. split; [exact H|]. intros r Hr. destruct (Hp r Hr) as (Hn & _ & Hh & _). by split.
Defined.

Lemma export_loop_free_witness :
  exists rs r, getFederatedRoutesForExport (P := ascii_platform) sample_options (Some (js "h3")) sample_registry = Ok rs /\
    r ∈ rs /\ well_traveled r /\ rejects sample_peer_options r = (1 <? fr_hopCount r).
Proof.
  eexists _, (exported_route sample_options sample_import). split; [vm_compute; reflexivity|].
  assert (exported_route sample_options sample_import ∈ default []
    (match getFederatedRoutesForExport (P := ascii_platform) sample_options (Some (js "h3")) sample_registry with Ok l => Some l | Throw _ => None end)) as Hin
    by (apply (bool_decide_unpack _); vm_compute; exact I).
  split; [exact Hin|].
  eapply (export_loop_free (P := ascii_platform) sample_options sample_host sample_registry sample_peer_options);
    [apply sample_registry_ok| |by vm_compute|vm_compute; reflexivity|exact Hin].
  repeat constructor; apply (bool_decide_unpack _); vm_compute; exact I.
Defined.

Lemma degrade_restore_correct_witness :
  exists reg1 reg2, setDegraded 7 (js "g1") sample_registry = (Ok tt, reg1) /\ restoreRoutes (js "g1") reg1 = (Ok true, reg2) /\
    routeGenerationCounter reg2 = 2.
Proof.
  destruct (degrade_restore_correct sample_options 7 (js "g1") sample_registry
    (default [] (map_get (js "g1") (localRoutes sample_registry)))) as (reg1 & reg2 & g & H1 & _ & _ & H2 & _ & _ & _ & H3).
  - apply sample_registry_ok.
  - vm_compute. reflexivity.
  - vm_compute. reflexivity.
  - exists reg1, reg2. split_and!; [exact H1|exact H2|exact H3].
Defined.

Lemma expire_correct_witness :
  let reg := (setDegraded 100 (js "g1") sample_registry).2 in
  map_get (js "g1") (degradedRoutes (removeExpiredDegradedRoutes 5100 5000 reg).2) = None /\
  map_get (js "g1") (degradedRoutes (removeExpiredDegradedRoutes 5099 5000 reg).2) <> None.
Proof.
  intros reg. assert (registry_ok sample_options reg) as Hok by (apply setDegraded_ok, sample_registry_ok).
  pose proof (expire_correct sample_options 5100 5000 reg Hok) as H1.
  pose proof (expire_correct sample_options 5099 5000 reg Hok) as H2.
  destruct (removeExpiredDegradedRoutes 5100 5000 reg) as [[[p1 c1] e1] r1].
  destruct (removeExpiredDegradedRoutes 5099 5000 reg) as [[[p2 c2] e2] r2].
  cbn [snd]. destruct H1 as (H1 & _). destruct H2 as (H2 & _). rewrite H1, H2. split; [reflexivity|]. vm_compute. discriminate.
Defined.

Lemma broker_routes_correct_witness : NoDup (getBrokerRoutes (P := ascii_platform) sample_registry).
Proof.
  apply (broker_routes_correct (P := ascii_platform) sample_registry).
  assert (Forall (fun r => 0 ∉ rd_targetId r)
    (map (fun c => broker_route (sc_route c)) (getActiveCandidates sample_registry) ++ getDegradedBrokerRoutes sample_registry)) as H
    by (apply (bool_decide_unpack _); vm_compute; exact I).
  intros r Hr. rewrite Forall_forall in H. exact (H r Hr).
Defined.
