(* ===== verification/WaitQueue.v ===== *)
(** Waiting queues: a map from a group to its queue of waiters, the armed timers
    of the waiters, and what was settled, in order.  Every waiter has a number;
    numbers are given in order.  The pools of the host (guest leases, federated
    request streams, federated WebSockets) keep their promises this way. *)
From S2P Require Import Prelude.

Lemma filter_not_in (l : list nat) x : x ∉ l -> filter (fun t => t <> x) l = l.
Proof.
  intros Hx. induction l as [|y l IH]; [done|]. rewrite not_elem_of_cons in Hx.
  rewrite filter_cons_True by naive_solver. f_equal. apply IH. tauto.
Qed.

Section WaitQueue.
Context {A R : Type} (aid : A -> nat) (agroup : A -> jsstring).
Definition ids (l : list A) : list nat := map aid l.

Record queue_ok (q : list (jsstring * list A)) (timers : list nat)
    (settled : list (nat * R)) (next : nat) : Prop := {
  qo_wf : map_wf q;
  qo_conserve : map_items ids q ++ settled.*1 ≡ₚ seq 0 next;
  qo_timers : timers ≡ₚ map_items ids q;
  qo_lists : Forall (fun p => Forall (fun a => agroup a = p.1) p.2 /\ StronglySorted lt (ids p.2)) q;
}.

Lemma queue_init : queue_ok [] [] [] 0.
Proof. split; [constructor|done|done|constructor]. Qed.

(** The queue of a group is stored again, or its key dropped when it is empty. *)
Definition put_queue (g : jsstring) (l : list A) (q : list (jsstring * list A)) : list (jsstring * list A) :=
  match l with [] => map_delete g q | _ => map_set g l q end.
Lemma put_queue_get g l g' (q : list (jsstring * list A)) :
  default [] (map_get g' (put_queue g l q)) = if decide (g' = g) then l else default [] (map_get g' q).
Proof. unfold put_queue. destruct l as [|x l]; [rewrite map_get_delete|rewrite map_get_set]; by case_decide. Qed.
Lemma put_queue_idem g l (q : list (jsstring * list A)) : map_wf q -> put_queue g l (put_queue g l q) = put_queue g l q.
Proof.
  intros Hw. destruct l as [|x l]; cbn [put_queue].
  - apply map_delete_id. rewrite map_get_delete. by destruct (decide (g = g)).
  - clear Hw. induction q as [|[k v] q IH]; cbn [map_set]; [by rewrite decide_True|]. destruct (decide (g = k)) as [->|Hk]; cbn [map_set].
    + by rewrite decide_True.
    + rewrite decide_False by done. by rewrite IH.
Qed.

Section QueueTheory.
Context {q : list (jsstring * list A)} {timers : list nat}
  {settled : list (nat * R)} {next : nat} (H : queue_ok q timers settled next).

Lemma queue_NoDup : NoDup (map_items ids q ++ settled.*1).
Proof using H. rewrite (qo_conserve _ _ _ _ H). apply NoDup_seq. Qed.

Lemma queue_fresh : next ∉ map_items ids q ++ settled.*1.
Proof using H. rewrite (qo_conserve _ _ _ _ H), elem_of_seq. lia. Qed.

(** A new acquisition settled at once. *)
Lemma queue_settle_new x : queue_ok q (filter (fun t => t <> next) timers) (settled ++ [(next, x)]) (S next).
Proof using H.
  pose proof queue_fresh as Hf. destruct H as [Hw Hc Ht Hl]. split; try done.
  - rewrite fmap_app, app_assoc, Hc. cbn [fmap list_fmap fst]. by rewrite seq_S.
  - rewrite filter_not_in; [done|]. rewrite Ht. intros Hin. apply Hf, elem_of_app. by left.
Qed.

(** A new acquisition put at the end of a guest's queue. *)
Lemma queue_push g a : aid a = next -> agroup a = g ->
  queue_ok (map_set g (default [] (map_get g q) ++ [a]) q) (timers ++ [next]) settled (S next).
Proof using H.
  intros Ha Hg. pose proof queue_fresh as Hf. destruct H as [Hw Hc Ht Hl].
  assert (map_items ids (map_set g (default [] (map_get g q) ++ [a]) q) ≡ₚ map_items ids q ++ [next]) as Hq.
  { pose proof (map_items_set ids g (default [] (map_get g q) ++ [a]) q) as Hi.
    unfold ids in Hi at 4. rewrite map_app, app_assoc in Hi. cbn [map] in Hi. rewrite Ha in Hi.
    apply (Permutation_app_inv_r (items_at ids (map_get g q))). rewrite Hi.
    destruct (map_get g q) as [l|]; cbn; rewrite <- ?app_assoc, ?app_nil_r; [|done].
    apply Permutation_app_head, Permutation_app_comm. }
  split.
  - by apply map_wf_set.
  - rewrite Hq, <- app_assoc, (Permutation_app_comm [next]), app_assoc, Hc, seq_S. done.
  - by rewrite Hq, Ht.
  - apply map_set_Forall; [|done]. cbn [fst snd].
    destruct (map_get g q) as [l|] eqn:Eg; cbn [default from_option id app].
    + destruct (map_get_Forall _ _ _ _ Hl Eg) as [Hk Hs]. cbn [fst snd] in *. split; [by apply Forall_app; split; [|constructor]|].
      unfold ids. rewrite map_app. apply StronglySorted_app_2; [|done|by repeat constructor].
      intros x y Hx. cbn. rewrite list_elem_of_singleton, Ha. intros ->.
      assert (x ∈ seq 0 next) as Hx'; [|apply elem_of_seq in Hx'; lia].
      rewrite <- Hc. apply elem_of_app. left. unfold map_items.
      apply list_elem_of_In, in_concat. exists (ids l). split; [|by apply list_elem_of_In].
      apply in_map_iff. exists (g, l). split; [done|]. by apply list_elem_of_In, map_get_elem.
    + split; [by constructor|]. cbn. by repeat constructor.
Qed.

(** Waiters leave a guest's queue and are settled. *)
Lemma queue_take g l out keep xs : map_get g q = Some l -> l ≡ₚ out ++ keep -> sublist keep l ->
  xs.*1 = ids out ->
  queue_ok (map_set g keep q) (filter (fun t => t ∉ ids out) timers) (settled ++ xs) next.
Proof using H.
  intros Eg Hl Hsub Hxs. pose proof queue_NoDup as Hnd. destruct H as [Hw Hc Ht Hls].
  assert (map_items ids (map_set g keep q) ++ ids out ≡ₚ map_items ids q) as Hq.
  { pose proof (map_items_set ids g keep q) as Hi. rewrite Eg in Hi. cbn [items_at] in Hi.
    assert (ids l ≡ₚ ids out ++ ids keep) as Hil by (unfold ids; by rewrite Hl, map_app).
    rewrite Hil, app_assoc in Hi. by apply Permutation_app_inv_r in Hi. }
  split.
  - by apply map_wf_set.
  - rewrite fmap_app, Hxs, <- Hc, <- Hq, <- !app_assoc. apply Permutation_app_head, Permutation_app_comm.
  - rewrite Ht, <- Hq, filter_app.
    assert (NoDup (map_items ids (map_set g keep q) ++ ids out)) as Hn by (rewrite Hq; by apply NoDup_app in Hnd as [? _]).
    apply NoDup_app in Hn as (_ & Hdis & _).
    rewrite (filter_all_in (fun t => t ∉ ids out)), filter_none_in; [by rewrite app_nil_r|naive_solver|done].
  - destruct (map_get_Forall _ _ _ _ Hls Eg) as [Hk Hs]. apply map_set_Forall; [|done]. cbn [fst snd] in *.
    split; [by eapply Forall_sublist|]. eapply StronglySorted_sublist; [|exact Hs]. unfold ids. by apply sublist_map.
Qed.
Lemma queue_drop g l xs :
  map_get g q = Some l -> xs.*1 = ids l ->
  queue_ok (map_delete g q) (filter (fun t => t ∉ ids l) timers) (settled ++ xs) next.
Proof using H.
  intros Eg Hxs.
  destruct (queue_take g l l [] xs Eg) as [Hw Hc Ht Hl]; [by rewrite app_nil_r|apply sublist_nil_l|done|].
  assert (map_items ids (map_delete g q) ≡ₚ map_items ids (map_set g [] q)) as Hi.
  { pose proof (map_items_delete ids g q (qo_wf _ _ _ _ H)) as Hd. pose proof (map_items_set ids g [] q) as Hs.
    rewrite <- Hd in Hs. cbn [ids map] in Hs. rewrite app_nil_r in Hs. by apply Permutation_app_inv_r in Hs. }
  split; [apply map_wf_delete, H|by rewrite Hi|by rewrite Hi|apply map_delete_Forall, H].
Qed.

Lemma queue_put g l out keep xs : map_get g q = Some l -> l ≡ₚ out ++ keep -> sublist keep l ->
  xs.*1 = ids out ->
  queue_ok (put_queue g keep q) (filter (fun t => t ∉ ids out) timers) (settled ++ xs) next.
Proof using H.
  intros Eg Hl Hsub Hxs. pose proof (queue_take g l out keep xs Eg Hl Hsub Hxs) as Hk.
  destruct keep as [|x keep]; [|exact Hk]. destruct Hk as [Hw Hc Ht Hls].
  assert (map_items ids (map_delete g q) ≡ₚ map_items ids (map_set g [] q)) as Hi.
  { pose proof (map_items_delete ids g q (qo_wf _ _ _ _ H)) as Hd. pose proof (map_items_set ids g [] q) as Hs.
    rewrite <- Hd in Hs. cbn [ids map] in Hs. rewrite app_nil_r in Hs. by apply Permutation_app_inv_r in Hs. }
  split; cbn [put_queue]; [apply map_wf_delete, H|by rewrite Hi|by rewrite Hi|apply map_delete_Forall, H].
Qed.

(** The first waiter leaves its queue and is put back. *)
Lemma queue_put_back g w rest : map_get g q = Some (w :: rest) ->
  queue_ok (map_set g (w :: rest) (put_queue g rest q)) timers settled next.
Proof using H.
  intros Eg. destruct H as [Hw Hc Ht Hl].
  assert (map_wf (put_queue g rest q) /\ Forall (fun p => Forall (fun a => agroup a = p.1) p.2 /\ StronglySorted lt (ids p.2)) (put_queue g rest q) /\
    map_items ids (put_queue g rest q) ++ ids (w :: rest) ≡ₚ map_items ids q ++ ids rest) as (Hw' & Hl' & Hi).
  { destruct (map_get_Forall _ _ _ _ Hl Eg) as [Hk Hs]. cbn [fst snd] in *. apply Forall_cons in Hk as [_ Hk]. apply StronglySorted_inv in Hs as [Hs _].
    destruct rest as [|x rest]; cbn [put_queue].
    - split; [by apply map_wf_delete|]. split; [by apply map_delete_Forall|]. pose proof (map_items_delete ids g q Hw) as Hd.
      rewrite Eg in Hd. by rewrite app_nil_r.
    - split; [by apply map_wf_set|]. split; [by apply map_set_Forall|]. pose proof (map_items_set ids g (x :: rest) q) as Hd. by rewrite Eg in Hd. }
  assert (map_items ids (map_set g (w :: rest) (put_queue g rest q)) ≡ₚ map_items ids q) as Hq.
  { pose proof (map_items_set ids g (w :: rest) (put_queue g rest q)) as Hi'. rewrite Hi in Hi'.
    assert (items_at ids (map_get g (put_queue g rest q)) = ids rest) as Ei.
    { pose proof (put_queue_get g rest g q) as Ep. rewrite decide_True in Ep by done. revert Ep.
      generalize (map_get g (put_queue g rest q)). intros [l|] Ep; cbn in Ep |- *; by rewrite <- Ep. }
    rewrite Ei in Hi'. by apply Permutation_app_inv_r in Hi'. }
  split; [by apply map_wf_set|by rewrite Hq|by rewrite Hq|].
  apply map_set_Forall; [|done]. by pose proof (map_get_Forall _ _ _ _ Hl Eg).
Qed.
Lemma queue_put_same g : queue_ok (put_queue g (default [] (map_get g q)) q) timers settled next.
Proof using H.
  destruct (map_get g q) as [[|x l]|] eqn:Eg; cbn [default from_option id put_queue].
  - pose proof (queue_drop g [] [] Eg eq_refl) as Hd. cbn in Hd. rewrite app_nil_r in Hd.
    rewrite filter_all_in in Hd by (intros; apply not_elem_of_nil). done.
  - rewrite map_set_id by done. done.
  - by rewrite map_delete_id.
Qed.
(** The queue of a group is stored as it is, or an empty one is. *)
Lemma queue_touch g : queue_ok (map_set g (default [] (map_get g q)) q) timers settled next.
Proof using H.
  destruct (map_get g q) as [l|] eqn:Eg; cbn [default from_option id].
  - by rewrite map_set_id.
  - destruct H as [Hw Hc Ht Hl]. pose proof (map_items_set ids g [] q) as Hi. rewrite Eg in Hi. cbn in Hi. rewrite !app_nil_r in Hi.
    split; [by apply map_wf_set|by rewrite Hi|by rewrite Hi|]. apply map_set_Forall; [|done]. by repeat constructor.
Qed.

(** A waiter of a queue is of its group and was not settled; no number occurs twice. *)
Lemma queue_waiting g l a : map_get g q = Some l -> a ∈ l -> agroup a = g /\ aid a ∉ settled.*1.
Proof using H.
  intros Eg Ha. destruct (map_get_Forall _ _ _ _ (qo_lists _ _ _ _ H) Eg) as [Hk _]. rewrite Forall_forall in Hk. split; [by apply Hk|]. intros Hin.
  pose proof queue_NoDup as Hn. apply NoDup_app in Hn as (_ & Hd & _). apply (Hd (aid a)); [|done].
  unfold map_items. apply list_elem_of_In, in_concat. exists (ids l). split.
  - apply in_map_iff. exists (g, l). split; [done|]. by apply list_elem_of_In, map_get_elem.
  - apply list_elem_of_In. unfold ids. apply list_elem_of_fmap. by exists a.
Qed.
Lemma queue_ids_NoDup g : NoDup (ids (default [] (map_get g q))).
Proof using H.
  destruct (map_get g q) as [l|] eqn:Eg; [|constructor]. destruct (map_get_Forall _ _ _ _ (qo_lists _ _ _ _ H) Eg) as [_ Hs]. cbn [snd] in Hs.
  cbn [default from_option id]. revert Hs. generalize (ids l). intros ns Hs. induction Hs as [|n ns Hs IH Hn]; constructor; [|done].
  intros Hin. eapply Forall_forall in Hn; [|exact Hin]. lia.
Qed.
End QueueTheory.

End WaitQueue.
Lemma split_waiter {A} (aid : A -> nat) a l : NoDup (ids aid l) -> a ∈ l -> l ≡ₚ [a] ++ filter (fun c => aid c <> aid a) l.
Proof.
  intros Hn Hw. induction l as [|x l IH]; [by apply elem_of_nil in Hw|]. cbn [ids map] in Hn. apply NoDup_cons in Hn as [Hx Hn].
  rewrite filter_cons. apply elem_of_cons in Hw as [->|Hw].
  - rewrite decide_False by tauto. cbn. f_equiv. rewrite filter_all_in; [done|].
    intros y Hy E. apply Hx. rewrite <- E. unfold ids. apply list_elem_of_fmap. by exists y.
  - rewrite decide_True. 2:{ intros E. apply Hx. rewrite E. unfold ids. apply list_elem_of_fmap. by exists a. }
    rewrite (IH Hn Hw) at 1. cbn. apply Permutation_swap.
Qed.
Lemma ids_single {A} (aid : A -> nat) a (l : list nat) : filter (fun t => t ∉ ids aid [a]) l = filter (fun t => t <> aid a) l.
Proof. apply list_filter_iff. intros x. cbn. rewrite list_elem_of_singleton. done. Qed.
#[global] Arguments qo_wf {A R aid agroup}.
#[global] Arguments qo_conserve {A R aid agroup}.
#[global] Arguments qo_timers {A R aid agroup}.
#[global] Arguments qo_lists {A R aid agroup}.
#[global] Arguments queue_init {A R} aid agroup.
#[global] Arguments queue_NoDup {A R aid agroup q timers settled next} H.
#[global] Arguments queue_fresh {A R aid agroup q timers settled next} H.
#[global] Arguments queue_settle_new {A R aid agroup q timers settled next} H x.
#[global] Arguments queue_push {A R aid agroup q timers settled next} H g a.
#[global] Arguments queue_take {A R aid agroup q timers settled next} H g l out keep xs.
#[global] Arguments queue_drop {A R aid agroup q timers settled next} H g l xs.
#[global] Arguments put_queue {A} g l q.
#[global] Arguments queue_put {A R aid agroup q timers settled next} H g l out keep xs.
#[global] Arguments queue_put_back {A R aid agroup q timers settled next} H g w rest.
#[global] Arguments queue_put_same {A R aid agroup q timers settled next} H g.
#[global] Arguments queue_touch {A R aid agroup q timers settled next} H g.
#[global] Arguments queue_waiting {A R aid agroup q timers settled next} H g l a.
#[global] Arguments queue_ids_NoDup {A R aid agroup q timers settled next} H g.
