(* ===== verification/LeasePool.v ===== *)
(** The pool of guest lease streams (verser2-host [lease-pool.ts]).

    Leases are mutable objects shared between the pool and their streams, so
    they live in a heap and the pool holds addresses.  A promise is an
    acquisition id; [lp_settled] records, in order, how each was settled, and
    [lp_timers] which acquisition timers are armed. *)
From S2P Require Import Prelude JsNum Utf8 Json Errors WaitQueue.

(** ** State *)
Record GuestLeaseStream := {
  gl_guestId : jsstring;
  gl_leaseId : jsstring;
  gl_closed : bool;   (** [stream.closed || stream.rstCode !== NGHTTP2_NO_ERROR] *)
  gl_active : bool;
}.
Record QueuedLeaseAcquisition := { qa_id : nat; qa_guestId : jsstring; qa_requestId : jsstring; qa_timeoutMs : Z }.
Inductive settlement : Type := resolved (lease : nat) | rejected (e : exn).

Record LeasePool := {
  lp_heap : list GuestLeaseStream;
  idleLeases : list (jsstring * list nat);
  activeLeases : list (jsstring * nat);
  queuedLeaseAcquisitions : list (jsstring * list QueuedLeaseAcquisition);
  lp_timers : list nat;
  lp_settled : list (nat * settlement);
  lp_next : nat;
}.
Definition pool_init : LeasePool :=
  {| lp_heap := []; idleLeases := []; activeLeases := []; queuedLeaseAcquisitions := [];
     lp_timers := []; lp_settled := []; lp_next := 0 |}.

Definition with_heap h st := {| lp_heap := h; idleLeases := idleLeases st; activeLeases := activeLeases st;
  queuedLeaseAcquisitions := queuedLeaseAcquisitions st; lp_timers := lp_timers st; lp_settled := lp_settled st; lp_next := lp_next st |}.
Definition with_idle m st := {| lp_heap := lp_heap st; idleLeases := m; activeLeases := activeLeases st;
  queuedLeaseAcquisitions := queuedLeaseAcquisitions st; lp_timers := lp_timers st; lp_settled := lp_settled st; lp_next := lp_next st |}.
Definition with_active m st := {| lp_heap := lp_heap st; idleLeases := idleLeases st; activeLeases := m;
  queuedLeaseAcquisitions := queuedLeaseAcquisitions st; lp_timers := lp_timers st; lp_settled := lp_settled st; lp_next := lp_next st |}.
Definition with_queued m st := {| lp_heap := lp_heap st; idleLeases := idleLeases st; activeLeases := activeLeases st;
  queuedLeaseAcquisitions := m; lp_timers := lp_timers st; lp_settled := lp_settled st; lp_next := lp_next st |}.

(** [clearTimeout] (or the timer firing) and settling the promise. *)
Definition settle (id : nat) (s : settlement) (st : LeasePool) : LeasePool :=
  {| lp_heap := lp_heap st; idleLeases := idleLeases st; activeLeases := activeLeases st;
     queuedLeaseAcquisitions := queuedLeaseAcquisitions st;
     lp_timers := filter (fun t => t <> id) (lp_timers st);
     lp_settled := lp_settled st ++ [(id, s)]; lp_next := lp_next st |}.
Definition arm (id : nat) (st : LeasePool) : LeasePool :=
  {| lp_heap := lp_heap st; idleLeases := idleLeases st; activeLeases := activeLeases st;
     queuedLeaseAcquisitions := queuedLeaseAcquisitions st;
     lp_timers := lp_timers st ++ [id]; lp_settled := lp_settled st; lp_next := lp_next st |}.
Definition fresh_id (st : LeasePool) : LeasePool :=
  {| lp_heap := lp_heap st; idleLeases := idleLeases st; activeLeases := activeLeases st;
     queuedLeaseAcquisitions := queuedLeaseAcquisitions st;
     lp_timers := lp_timers st; lp_settled := lp_settled st; lp_next := S (lp_next st) |}.

(** ** Heap access *)
Definition isClosed (st : LeasePool) (lease : nat) : bool :=
  match lp_heap st !! lease with Some l => gl_closed l | None => true end.
Definition lease_key (l : GuestLeaseStream) : jsstring := gl_guestId l ++ js ":" ++ gl_leaseId l.
Definition set_active (b : bool) (l : GuestLeaseStream) : GuestLeaseStream :=
  {| gl_guestId := gl_guestId l; gl_leaseId := gl_leaseId l; gl_closed := gl_closed l; gl_active := b |}.
Definition set_closed (l : GuestLeaseStream) : GuestLeaseStream :=
  {| gl_guestId := gl_guestId l; gl_leaseId := gl_leaseId l; gl_closed := true; gl_active := gl_active l |}.
Definition update_lease (f : GuestLeaseStream -> GuestLeaseStream) (lease : nat) (st : LeasePool) : LeasePool :=
  with_heap (alter f lease (lp_heap st)) st.
(** [lease.stream.close(NGHTTP2_CANCEL)] *)
Definition close_stream (st : LeasePool) (lease : nat) : LeasePool := update_lease set_closed lease st.

(** [lease.active = true; this.activeLeases.set(key, lease)] *)
Definition activate (lease : nat) (st : LeasePool) : LeasePool :=
  match lp_heap st !! lease with
  | Some l => let st := update_lease (set_active true) lease st in
              with_active (map_set (lease_key l) lease (activeLeases st)) st
  | None => st
  end.

Definition idle_of (guestId : jsstring) (st : LeasePool) : list nat := default [] (map_get guestId (idleLeases st)).
Definition queued_of (guestId : jsstring) (st : LeasePool) : list QueuedLeaseAcquisition :=
  default [] (map_get guestId (queuedLeaseAcquisitions st)).
(** Store a mutated idle array, or drop the key when it became empty. *)
Definition put_idle (guestId : jsstring) (l : list nat) (st : LeasePool) : LeasePool :=
  with_idle (match l with [] => map_delete guestId (idleLeases st) | _ => map_set guestId l (idleLeases st) end) st.

(** ** Operations *)
Definition addIdleLease (lease : nat) (st : LeasePool) : LeasePool :=
  match lp_heap st !! lease with
  | None => st
  | Some l =>
      if isClosed st lease then st
      else
        match queued_of (gl_guestId l) st with
        | queued :: rest =>
            let st := with_queued (map_set (gl_guestId l) rest (queuedLeaseAcquisitions st)) st in
            settle (qa_id queued) (resolved lease) (activate lease st)
        | [] => with_idle (map_set (gl_guestId l) (idle_of (gl_guestId l) st ++ [lease]) (idleLeases st)) st
        end
  end.

Definition acquireLease (guestId requestId : jsstring) (timeoutMs : Z) (st : LeasePool) : LeasePool :=
  let id := lp_next st in
  let st := fresh_id st in
  match drop_while (isClosed st) (idle_of guestId st) with
  | lease :: rest => settle id (resolved lease) (activate lease (put_idle guestId rest st))
  | [] =>
      let st := arm id (put_idle guestId [] st) in
      let acquisition := {| qa_id := id; qa_guestId := guestId; qa_requestId := requestId; qa_timeoutMs := timeoutMs |} in
      with_queued (map_set guestId (queued_of guestId st ++ [acquisition]) (queuedLeaseAcquisitions st)) st
  end.

(** [undefined] is [false]: no acquisition is made. *)
Definition tryAcquireLease (guestId requestId : jsstring) (timeoutMs : Z) (st : LeasePool) : bool * LeasePool :=
  match drop_while (isClosed st) (idle_of guestId st) with
  | [] => (false, put_idle guestId [] st)
  | open => (true, acquireLease guestId requestId timeoutMs (put_idle guestId open st))
  end.

Definition removeLease (lease : nat) (st : LeasePool) : LeasePool :=
  match lp_heap st !! lease with
  | None => st
  | Some l =>
      let remainingIdleLeases := filter (fun candidate => candidate <> lease) (idle_of (gl_guestId l) st) in
      let st := put_idle (gl_guestId l) remainingIdleLeases st in
      let st := update_lease (set_active false) lease st in
      with_active (map_delete (lease_key l) (activeLeases st)) st
  end.

Definition owned_by (guestId : jsstring) (st : LeasePool) (p : jsstring * nat) : bool :=
  match lp_heap st !! p.2 with Some l => str_eqb (gl_guestId l) guestId | None => false end.
Definition closeGuestLeases (guestId : jsstring) (st : LeasePool) : LeasePool :=
  let st := fold_left close_stream (idle_of guestId st) st in
  let st := with_idle (map_delete guestId (idleLeases st)) st in
  let mine := filter (fun p => owned_by guestId st p = true) (activeLeases st) in
  let rest := filter (fun p => owned_by guestId st p = false) (activeLeases st) in
  with_active rest (fold_left close_stream mine.*2 st).

Definition closeAllLeases (st : LeasePool) : LeasePool :=
  let st := fold_left close_stream (concat (idleLeases st).*2) st in
  let st := fold_left close_stream (activeLeases st).*2 st in
  with_active [] (with_idle [] st).

Definition disconnected (guestId reason : jsstring) (a : QueuedLeaseAcquisition) : exn :=
  verr disconnected_target "Guest disconnected while waiting for a lease"
    [(js "targetId", JStr guestId); (js "requestId", JStr (qa_requestId a)); (js "reason", JStr reason)].
Definition failQueuedLeaseAcquisitions (guestId reason : jsstring) (st : LeasePool) : LeasePool :=
  let queued := queued_of guestId st in
  let st := with_queued (map_delete guestId (queuedLeaseAcquisitions st)) st in
  fold_left (fun st a => settle (qa_id a) (rejected (disconnected guestId reason a)) st) queued st.
Definition failAllQueuedLeaseAcquisitions (reason : jsstring) (st : LeasePool) : LeasePool :=
  fold_left (fun st guestId => failQueuedLeaseAcquisitions guestId reason st) (map_keys (queuedLeaseAcquisitions st)) st.

(** The timer callback of an acquisition. *)
Definition timed_out (a : QueuedLeaseAcquisition) : exn :=
  verr Errors.timeout "Timed out waiting for a Guest lease stream"
    [(js "targetId", JStr (qa_guestId a)); (js "requestId", JStr (qa_requestId a)); (js "timeoutMs", JNum (num_int (qa_timeoutMs a)))].
Definition removeQueuedLeaseAcquisition (a : QueuedLeaseAcquisition) (st : LeasePool) : LeasePool :=
  with_queued (map_set (qa_guestId a) (filter (fun c => qa_id c <> qa_id a) (queued_of (qa_guestId a) st)) (queuedLeaseAcquisitions st)) st.
Definition onTimeout (a : QueuedLeaseAcquisition) (st : LeasePool) : LeasePool :=
  settle (qa_id a) (rejected (timed_out a)) (removeQueuedLeaseAcquisition a st).

(** ** Steps

    What the host and its environment do: a lease object is created and offered
    once; its stream closes and is removed; acquisitions are made, time out (only
    while their timer is armed) or are failed. *)
Inductive pool_step : LeasePool -> LeasePool -> Prop :=
  | step_offer guestId leaseId closed st :
      pool_step st (addIdleLease (length (lp_heap st))
        (with_heap (lp_heap st ++ [{| gl_guestId := guestId; gl_leaseId := leaseId; gl_closed := closed; gl_active := false |}]) st))
  | step_acquire g r t st : pool_step st (acquireLease g r t st)
  | step_try g r t st : pool_step st (tryAcquireLease g r t st).2
  | step_remove lease st : pool_step st (removeLease lease st)
  | step_stream_closes lease st : pool_step st (close_stream st lease)
  | step_close_guest g st : pool_step st (closeGuestLeases g st)
  | step_close_all st : pool_step st (closeAllLeases st)
  | step_fail g reason st : pool_step st (failQueuedLeaseAcquisitions g reason st)
  | step_fail_all reason st : pool_step st (failAllQueuedLeaseAcquisitions reason st)
  | step_timeout a q st : map_get (qa_guestId a) (queuedLeaseAcquisitions st) = Some q -> a ∈ q ->
      qa_id a ∈ lp_timers st -> pool_step st (onTimeout a st).

(** * Theory *)

(** ** The waiting queues and their promises *)
Abbreviation ids := (WaitQueue.ids qa_id).
Abbreviation queue_ok := (WaitQueue.queue_ok (R := settlement) qa_id qa_guestId).

(** ** The pool invariant *)
Definition resolved_leases (s : list (nat * settlement)) : list nat :=
  omap (fun p => match p.2 with resolved a => Some a | rejected _ => None end) s.

Definition idle_entry (heap : list GuestLeaseStream) (g : jsstring) (a : nat) : Prop :=
  exists l, heap !! a = Some l /\ gl_guestId l = g /\ gl_active l = false.
Definition active_entry (heap : list GuestLeaseStream) (p : jsstring * nat) : Prop :=
  exists l, heap !! p.2 = Some l /\ lease_key l = p.1 /\ gl_active l = true.

(** What holds of the leases, whatever the queues. *)
Record lease_ok (st : LeasePool) : Prop := {
  po_idle_wf : map_wf (idleLeases st);
  po_idle : Forall (fun p => p.2 <> [] /\ Forall (idle_entry (lp_heap st) p.1) p.2) (idleLeases st);
  po_exclusive : NoDup (map_items id (idleLeases st) ++ resolved_leases (lp_settled st));
  po_bounded : Forall (fun a => a < length (lp_heap st))%nat (resolved_leases (lp_settled st));
  po_active : Forall (active_entry (lp_heap st)) (activeLeases st);
}.
Record pool_ok (st : LeasePool) : Prop := {
  po_queue : queue_ok (queuedLeaseAcquisitions st) (lp_timers st) (lp_settled st) (lp_next st);
  po_lease : lease_ok st;
  po_wait : forall g, queued_of g st <> [] -> idle_of g st = [];
}.

Lemma pool_init_ok : pool_ok pool_init.
Proof. split; [apply queue_init|split; constructor|done]. Qed.

Lemma idle_in_items st g a : a ∈ idle_of g st -> a ∈ map_items id (idleLeases st).
Proof.
  unfold idle_of, map_items. destruct (map_get g (idleLeases st)) as [l|] eqn:E; [|by intros ?%elem_of_nil].
  cbn. intros Ha. apply list_elem_of_In, in_concat. exists l. split; [|by apply list_elem_of_In].
  apply in_map_iff. exists (g, l). split; [done|]. by apply list_elem_of_In, map_get_elem.
Qed.

Lemma idle_of_entry st g a : lease_ok st -> a ∈ idle_of g st -> idle_entry (lp_heap st) g a.
Proof.
  intros Hok. unfold idle_of. destruct (map_get g (idleLeases st)) as [l|] eqn:E; [|by intros ?%elem_of_nil].
  cbn. intros Ha. destruct (map_get_Forall _ _ _ _ (po_idle _ Hok) E) as [_ Hl]. cbn in Hl. by eapply Forall_forall in Hl.
Qed.

(** Replacing a guest's idle list by a part of it. *)
Lemma put_idle_items g l out st : lease_ok st -> idle_of g st ≡ₚ out ++ l ->
  map_items id (idleLeases (put_idle g l st)) ++ out ≡ₚ map_items id (idleLeases st).
Proof.
  intros Hok Hl. unfold idle_of in Hl.
  assert (items_at id (map_get g (idleLeases st)) = default [] (map_get g (idleLeases st))) as Hi
    by (by destruct (map_get g (idleLeases st))).
  destruct l as [|x l]; cbn [put_idle idleLeases with_idle].
  - rewrite app_nil_r in Hl. etrans; [|apply (map_items_delete id g _ (po_idle_wf _ Hok))]. by rewrite Hi, Hl.
  - apply (Permutation_app_inv_r (x :: l)). rewrite <- app_assoc.
    rewrite <- (map_items_set id g (x :: l)). by rewrite Hi, Hl.
Qed.

Lemma put_idle_of g l st g' : idle_of g' (put_idle g l st) = if decide (g' = g) then l else idle_of g' st.
Proof.
  unfold idle_of, put_idle. destruct l as [|x l]; cbn [idleLeases with_idle];
    [rewrite map_get_delete|rewrite map_get_set]; by case_decide.
Qed.

Lemma put_idle_ok g l out st : lease_ok st -> idle_of g st ≡ₚ out ++ l -> lease_ok (put_idle g l st).
Proof.
  intros Hok Hl. pose proof (put_idle_items g l out st Hok Hl) as Hi.
  assert (l <> [] -> Forall (idle_entry (lp_heap st) g) l) as Hent.
  { intros _. apply Forall_forall. intros a Ha. apply idle_of_entry; [done|]. rewrite Hl. apply elem_of_app. by right. }
  destruct Hok as [Hw He Hx Hb Ha]. split; try done.
  - destruct l; cbn; [by apply map_wf_delete|by apply map_wf_set].
  - destruct l; cbn [put_idle idleLeases with_idle lp_heap]; [by apply map_delete_Forall|].
    apply map_set_Forall; [|done]. split; [done|by apply Hent].
  - cbn [lp_settled put_idle with_idle]. rewrite <- Hi in Hx. rewrite <- app_assoc in Hx.
    rewrite (Permutation_app_comm out), app_assoc in Hx. by apply NoDup_app in Hx as [? _].
Qed.

(** Heap updates that keep the owner and the activity of every lease. *)
Lemma heap_update_ok f a st : (forall l, gl_guestId (f l) = gl_guestId l /\ gl_leaseId (f l) = gl_leaseId l /\ gl_active (f l) = gl_active l) ->
  lease_ok st -> lease_ok (update_lease f a st).
Proof.
  intros Hf [Hw He Hx Hb Ha].
  assert (forall b l, lp_heap st !! b = Some l -> exists l', alter f a (lp_heap st) !! b = Some l' /\
    gl_guestId l' = gl_guestId l /\ gl_leaseId l' = gl_leaseId l /\ gl_active l' = gl_active l) as Hlk.
  { intros b l Hl. destruct (decide (a = b)) as [->|Hne].
    - rewrite list_lookup_alter_eq, Hl. exists (f l). split; [done|apply Hf].
    - rewrite list_lookup_alter_ne by done. eauto. }
  split; try done; cbn [update_lease with_heap lp_heap idleLeases activeLeases lp_settled].
  - eapply Forall_impl; [exact He|]. intros [g l] [Hn Hl]. split; [done|]. eapply Forall_impl; [exact Hl|].
    intros b (x & Hb' & Hg & Hac). destruct (Hlk b x Hb') as (x' & ? & ? & ? & ?). exists x'. split_and!; congruence.
  - by rewrite length_alter.
  - eapply Forall_impl; [exact Ha|]. intros p (x & Hb' & Hk & Hac). destruct (Hlk _ x Hb') as (x' & ? & Hg & Hi & ?).
    exists x'. split_and!; [done|by unfold lease_key in *; rewrite Hg, Hi|congruence].
Qed.

Lemma close_stream_ok a st : lease_ok st -> lease_ok (close_stream st a).
Proof. by apply heap_update_ok. Qed.

Lemma close_streams_ok l st : lease_ok st -> lease_ok (fold_left close_stream l st).
Proof. revert st. induction l as [|a l IH]; intros st H; [done|]. cbn [fold_left]. by apply IH, close_stream_ok. Qed.

(** Handing out a lease that is not idle. *)
Lemma activate_ok a st : lease_ok st -> a ∉ map_items id (idleLeases st) -> lease_ok (activate a st).
Proof.
  intros Hok Hni. unfold activate. destruct (lp_heap st !! a) as [l|] eqn:El; [|done].
  pose proof Hok as [Hw He Hx Hb Ha]. split; try done;
    cbn [update_lease with_active with_heap lp_heap idleLeases activeLeases lp_settled].
  - apply Forall_forall. intros [g k] Hin. eapply Forall_forall in He as Hk; [|exact Hin]. destruct Hk as [Hn Hk].
    split; [done|]. cbn [fst snd] in *. apply Forall_forall. intros b Hbk. eapply Forall_forall in Hk as Hent; [|exact Hbk].
    destruct Hent as (x & Hxb & ? & ?). exists x. split; [|done]. rewrite list_lookup_alter_ne; [done|].
    intros ->. apply Hni. apply (idle_in_items st g). unfold idle_of.
    by rewrite (map_elem_get _ _ _ Hw Hin).
  - by rewrite length_alter.
  - apply map_set_Forall.
    + exists (set_active true l). cbn [fst snd]. by rewrite list_lookup_alter_eq, El.
    + eapply Forall_impl; [exact Ha|]. intros p (x & Hxp & Hk & Hac). destruct (decide (a = p.2)) as [->|Hne].
      * rewrite El in Hxp. injection Hxp as ->. exists (set_active true x). by rewrite list_lookup_alter_eq, El.
      * exists x. by rewrite list_lookup_alter_ne.
Qed.

Lemma activate_fields a st : idleLeases (activate a st) = idleLeases st /\
  queuedLeaseAcquisitions (activate a st) = queuedLeaseAcquisitions st /\ lp_timers (activate a st) = lp_timers st /\
  lp_settled (activate a st) = lp_settled st /\ lp_next (activate a st) = lp_next st /\
  length (lp_heap (activate a st)) = length (lp_heap st).
Proof.
  unfold activate. destruct (lp_heap st !! a); [|done]. split_and!; try done. cbn. apply length_alter.
Qed.

(** A lease that is neither idle nor handed out yet is handed to acquisition [id]. *)
Lemma settle_resolved_ok id a st : lease_ok st -> (a < length (lp_heap st))%nat ->
  a ∉ map_items Datatypes.id (idleLeases st) -> a ∉ resolved_leases (lp_settled st) -> lease_ok (settle id (resolved a) st).
Proof.
  intros [Hw He Hx Hb Ha] Hlt Hni Hnr. split; try done; cbn [settle lp_settled idleLeases lp_heap activeLeases].
  - unfold resolved_leases. rewrite omap_app. cbn. rewrite app_assoc. apply NoDup_app. split; [done|].
    split; [|apply NoDup_singleton]. intros x Hin ->%list_elem_of_singleton. apply elem_of_app in Hin as [|]; done.
  - unfold resolved_leases. rewrite omap_app. apply Forall_app. split; [done|]. by constructor.
Qed.

Lemma settle_rejected_ok id e st : lease_ok st -> lease_ok (settle id (rejected e) st).
Proof.
  intros [Hw He Hx Hb Ha]. split; try done; cbn [settle lp_settled idleLeases lp_heap activeLeases];
    unfold resolved_leases in *; rewrite omap_app; cbn; by rewrite app_nil_r.
Qed.

Lemma lease_ok_fields st st' : lp_heap st' = lp_heap st -> idleLeases st' = idleLeases st ->
  activeLeases st' = activeLeases st -> lp_settled st' = lp_settled st -> lease_ok st -> lease_ok st'.
Proof. intros H1 H2 H3 H4 [Hw He Hx Hb Ha]. split; rewrite ?H1, ?H2, ?H3, ?H4; done. Qed.

Lemma filter_neq_notin (id : nat) (l : list nat) : filter (fun t => t <> id) l = filter (fun t => t ∉ [id]) l.
Proof. apply list_filter_iff. intros t. rewrite list_elem_of_singleton. done. Qed.

Lemma addIdleLease_ok g lid closed st : pool_ok st ->
  pool_ok (addIdleLease (length (lp_heap st))
    (with_heap (lp_heap st ++ [{| gl_guestId := g; gl_leaseId := lid; gl_closed := closed; gl_active := false |}]) st)).
Proof.
  intros [Hq Hl Hwait]. set (a := length (lp_heap st)). set (l := {| gl_guestId := g; gl_leaseId := lid; gl_closed := closed; gl_active := false |}).
  set (st1 := with_heap (lp_heap st ++ [l]) st).
  assert (lp_heap st1 !! a = Some l) as Ha by (by apply list_lookup_middle).
  assert (forall b x, lp_heap st !! b = Some x -> lp_heap st1 !! b = Some x) as Hold by (intros; by apply lookup_app_l_Some).
  assert (a ∉ map_items id (idleLeases st)) as Hni.
  { intros Hin. unfold map_items in Hin. apply list_elem_of_In, in_concat in Hin as (x & Hx & Hin).
    apply in_map_iff in Hx as ([g' k] & <- & Hk). apply list_elem_of_In in Hk, Hin. cbn in Hin.
    destruct (proj1 (Forall_forall _ _) (po_idle _ Hl) _ Hk) as [_ Hent].
    eapply Forall_forall in Hent; [|exact Hin]. destruct Hent as (y & Hy & _). apply lookup_lt_Some in Hy. lia. }
  assert (a ∉ resolved_leases (lp_settled st)) as Hnr.
  { intros Hin. eapply Forall_forall in Hin; [|exact (po_bounded _ Hl)]. cbn in Hin. lia. }
  assert (lease_ok st1) as Hl1.
  { destruct Hl as [Hw He Hx Hb Hac]. split; try done; cbn [st1 with_heap lp_heap idleLeases activeLeases lp_settled].
    - eapply Forall_impl; [exact He|]. intros p [Hn Hp]. split; [done|]. eapply Forall_impl; [exact Hp|].
      intros b (x & Hxb & ?). exists x. split; [by apply Hold|done].
    - eapply Forall_impl; [exact Hb|]. intros b Hlt. cbn in *. rewrite length_app. lia.
    - eapply Forall_impl; [exact Hac|]. intros p (x & Hxb & ?). exists x. split; [by apply Hold|done]. }
  unfold addIdleLease. rewrite Ha. unfold isClosed. rewrite Ha. cbn [gl_closed gl_guestId l].
  destruct closed; [by split|]. change (queued_of g st1) with (queued_of g st).
  destruct (queued_of g st) as [|w rest] eqn:Eq.
  - split; [done| |].
    + destruct Hl1 as [Hw He Hx Hb Hac]. split; try done; cbn [with_idle lp_heap idleLeases activeLeases lp_settled].
      * by apply map_wf_set.
      * apply map_set_Forall; [|done]. cbn [fst snd]. split; [by destruct (idle_of g st1)|].
        apply Forall_app. split; [|apply Forall_singleton; by exists l].
        apply Forall_forall. intros b Hb'. by apply (idle_of_entry st1); [split|].
      * change (idleLeases st1) with (idleLeases st). change (lp_settled st1) with (lp_settled st).
        assert (map_items id (map_set g (idle_of g st1 ++ [a]) (idleLeases st)) ≡ₚ map_items id (idleLeases st) ++ [a]) as ->.
        { apply (Permutation_app_inv_r (items_at id (map_get g (idleLeases st)))).
          rewrite map_items_set. change (idle_of g st1) with (idle_of g st). unfold idle_of. unfold Datatypes.id at 2.
          destruct (map_get g (idleLeases st)); cbn; rewrite <- ?app_assoc, ?app_nil_r; [|done].
          apply Permutation_app_head, Permutation_app_comm. }
        rewrite <- app_assoc, (Permutation_app_comm [a]), app_assoc. apply NoDup_app. split; [apply Hl|].
        split; [|apply NoDup_singleton]. intros x Hin ->%list_elem_of_singleton. by apply elem_of_app in Hin as [|].
    + intros g' Hg'. change (queued_of g' st <> []) in Hg'. assert (g' <> g) by (intros ->; congruence).
      change (default [] (map_get g' (map_set g (idle_of g st1 ++ [a]) (idleLeases st1))) = []).
      rewrite map_get_set_ne by done. by apply Hwait.
  - assert (map_get g (queuedLeaseAcquisitions st) = Some (w :: rest)) as Eg.
    { unfold queued_of in Eq. destruct (map_get g (queuedLeaseAcquisitions st)); cbn in Eq; [by subst|done]. }
    set (st2 := with_queued (map_set g rest (queuedLeaseAcquisitions st1)) st1).
    assert (lease_ok (activate a st2)) as Hl2 by (apply activate_ok; [by apply (lease_ok_fields st1)|exact Hni]).
    destruct (activate_fields a st2) as (F1 & F2 & F3 & F4 & F5 & F6).
    split.
    + cbn [settle queuedLeaseAcquisitions lp_timers lp_settled lp_next]. rewrite F2, F3, F4, F5, filter_neq_notin.
      apply (queue_take Hq g (w :: rest) [w] rest [(qa_id w, resolved a)]); [done|done|by apply sublist_cons|done].
    + apply settle_resolved_ok; [done| | |].
      * rewrite F6. cbn. rewrite length_app. cbn. lia.
      * by rewrite F1.
      * by rewrite F4.
    + intros g' Hg'. unfold idle_of. cbn [settle idleLeases]. rewrite F1. change (idle_of g' st = []). apply Hwait.
      intros Hn. apply Hg'. unfold queued_of. cbn [settle queuedLeaseAcquisitions]. rewrite F2. cbn.
      rewrite map_get_set. case_decide; [|exact Hn]. subst g'. congruence.
Qed.

(** Taking the closed leases off the front of the idle list. *)
Lemma idle_split g st : exists out, idle_of g st = out ++ drop_while (isClosed st) (idle_of g st).
Proof. destruct (drop_while_suffix (isClosed st) (idle_of g st)) as (k & Hk & _). by exists k. Qed.

Lemma idle_head_fresh g a rest out st : lease_ok st -> idle_of g st ≡ₚ out ++ a :: rest ->
  (a < length (lp_heap st))%nat /\ a ∉ map_items id (idleLeases (put_idle g rest st)) /\ a ∉ resolved_leases (lp_settled st).
Proof.
  intros Hok Hi. assert (a ∈ idle_of g st) as Ha by (rewrite Hi; apply elem_of_app; right; by left). split_and!.
  - destruct (idle_of_entry _ _ _ Hok Ha) as (x & Hx & _). by apply lookup_lt_Some in Hx.
  - pose proof (put_idle_items g rest (out ++ [a]) st Hok) as Hp. rewrite <- app_assoc in Hp. specialize (Hp Hi).
    pose proof (po_exclusive _ Hok) as Hx. apply NoDup_app in Hx as [Hx _]. rewrite <- Hp in Hx.
    apply NoDup_app in Hx as (_ & Hd & _). intros Hin. apply (Hd _ Hin). rewrite elem_of_app. right. by left.
  - pose proof (po_exclusive _ Hok) as Hx. apply NoDup_app in Hx as (_ & Hd & _). apply Hd. by apply (idle_in_items st g).
Qed.

Lemma wait_put_idle g l st : pool_ok st -> (idle_of g st = [] -> l = []) ->
  forall g', queued_of g' st <> [] -> idle_of g' (put_idle g l st) = [].
Proof.
  intros Hok Hl g' Hg'. rewrite put_idle_of. pose proof (po_wait _ Hok g' Hg') as Hw. case_decide; [subst; by apply Hl|done].
Qed.

Lemma acquireLease_ok g r t st : pool_ok st -> pool_ok (acquireLease g r t st).
Proof.
  intros Hok. pose proof Hok as [Hq Hl Hwait]. unfold acquireLease. set (st1 := fresh_id st).
  change (idle_of g st1) with (idle_of g st).
  assert (drop_while (isClosed st1) (idle_of g st) = drop_while (isClosed st) (idle_of g st)) as -> by done.
  destruct (idle_split g st) as [out Hout]. destruct (drop_while (isClosed st) (idle_of g st)) as [|a rest] eqn:Ed.
  - split.
    + cbn [with_queued arm queuedLeaseAcquisitions lp_timers lp_settled lp_next put_idle with_idle st1 fresh_id].
      by apply (queue_push Hq g).
    + assert (lease_ok (put_idle g [] st)) as Hp by (apply (put_idle_ok g [] out); [done|by rewrite Hout]).
      by apply (lease_ok_fields (put_idle g [] st)).
    + intros g' Hg'.
      change (idle_of g' (put_idle g [] st) = []). rewrite put_idle_of. case_decide as Eg; [done|]. apply Hwait.
      intros Hn. apply Hg'. unfold queued_of. cbn. rewrite map_get_set_ne by done. exact Hn.
  - assert (lease_ok (put_idle g rest st)) as Hp
      by (apply (put_idle_ok g rest (out ++ [a])); [done|rewrite Hout at 1; by rewrite <- app_assoc]).
    destruct (idle_head_fresh g a rest out st Hl) as (Hlt & Hni & Hnr); [by rewrite Hout at 1|].
    assert (lease_ok (put_idle g rest st1)) as Hp1 by (apply (lease_ok_fields (put_idle g rest st)); try done; by destruct rest).
    assert (idleLeases (put_idle g rest st1) = idleLeases (put_idle g rest st)) as Ei by done.
    destruct (activate_fields a (put_idle g rest st1)) as (F1 & F2 & F3 & F4 & F5 & F6).
    split.
    + cbn [settle queuedLeaseAcquisitions lp_timers lp_settled lp_next]. rewrite F2, F3, F4, F5.
      cbn [put_idle with_idle queuedLeaseAcquisitions lp_timers lp_settled lp_next st1 fresh_id]. by apply queue_settle_new.
    + apply settle_resolved_ok; rewrite ?F1, ?F4, ?F6, ?Ei; [|done..].
      apply activate_ok; [done|]. by rewrite Ei.
    + intros g' Hg'. unfold idle_of. cbn [settle idleLeases]. rewrite F1, Ei.
      change (idle_of g' (put_idle g rest st) = []). apply (wait_put_idle g rest st); [done| |].
      * intros He. rewrite He in Hout. by destruct out.
      * intros Hn. apply Hg'. unfold queued_of. cbn [settle queuedLeaseAcquisitions]. rewrite F2. exact Hn.
Qed.

Lemma put_idle_pool_ok g l out st : pool_ok st -> idle_of g st = out ++ l -> pool_ok (put_idle g l st).
Proof.
  intros Hok Ho. split; [apply Hok|apply (put_idle_ok g l out); [apply Hok|by rewrite Ho]|].
  intros g' Hg'. apply (wait_put_idle g l st); [done| |exact Hg']. intros He. rewrite He in Ho. by destruct out, l.
Qed.

Lemma tryAcquireLease_ok g r t st : pool_ok st -> pool_ok (tryAcquireLease g r t st).2.
Proof.
  intros Hok. unfold tryAcquireLease. destruct (idle_split g st) as [out Hout].
  destruct (drop_while (isClosed st) (idle_of g st)) as [|a rest]; cbn [snd]; [|apply acquireLease_ok];
    by apply (put_idle_pool_ok _ _ out).
Qed.

Lemma removeLease_ok a st : pool_ok st -> pool_ok (removeLease a st).
Proof.
  intros Hok. unfold removeLease. destruct (lp_heap st !! a) as [l|] eqn:El; [|done]. set (g := gl_guestId l).
  pose proof Hok as [Hq Hl Hwait].
  assert (idle_of g st ≡ₚ filter (fun c => ~ c <> a) (idle_of g st) ++ filter (fun c => c <> a) (idle_of g st)) as Hp.
  { clear. induction (idle_of g st) as [|b k IH]; [done|]. rewrite !filter_cons.
    destruct (decide (~ b <> a)), (decide (b <> a)); try tauto; cbn; [by rewrite <- IH|].
    rewrite IH at 1. by rewrite Permutation_middle. }
  set (rem := filter (fun c => c <> a) (idle_of g st)) in *.
  assert (lease_ok (put_idle g rem st)) as Hl1 by (by eapply put_idle_ok).
  split; [done| |].
  - destruct Hl1 as [Hw He Hx Hb Ha]. split; try done;
      cbn [with_active update_lease with_heap lp_heap idleLeases activeLeases lp_settled].
    + apply Forall_forall. intros p Hin. eapply Forall_forall in He as [Hn Hk]; [|exact Hin]. split; [done|].
      apply Forall_forall. intros b Hbk. eapply Forall_forall in Hk as (x & Hxb & Hg & Hac); [|exact Hbk].
      change (lp_heap (put_idle g rem st)) with (lp_heap st) in *.
      destruct (decide (a = b)) as [->|Hne].
      * exists (set_active false x). by rewrite list_lookup_alter_eq, Hxb.
      * exists x. by rewrite list_lookup_alter_ne.
    + by rewrite length_alter.
    + change (activeLeases (put_idle g rem st)) with (activeLeases st) in *.
      apply Forall_forall. intros p Hin. unfold map_delete in Hin. apply list_elem_of_filter in Hin as [Hne Hin].
      eapply Forall_forall in Ha as (x & Hxp & Hk & Hac); [|exact Hin].
      change (lp_heap (put_idle g rem st)) with (lp_heap st) in *.
      assert (a <> p.2) as Hap by (intros ->; rewrite El in Hxp; injection Hxp as ->; by apply Hne).
      exists x. by rewrite list_lookup_alter_ne.
  - intros g' Hg'. apply (wait_put_idle g rem st Hok); [|exact Hg']. intros He. unfold rem. by rewrite He.
Qed.

Lemma close_streams_fields l st : idleLeases (fold_left close_stream l st) = idleLeases st /\
  activeLeases (fold_left close_stream l st) = activeLeases st /\
  queuedLeaseAcquisitions (fold_left close_stream l st) = queuedLeaseAcquisitions st /\
  lp_timers (fold_left close_stream l st) = lp_timers st /\
  lp_settled (fold_left close_stream l st) = lp_settled st /\ lp_next (fold_left close_stream l st) = lp_next st.
Proof. revert st. induction l as [|a l IH]; intros st; [done|]. cbn [fold_left].
  destruct (IH (close_stream st a)) as (-> & -> & -> & -> & -> & ->). done.
Qed.

Lemma close_streams_pool_ok l st : pool_ok st -> pool_ok (fold_left close_stream l st).
Proof.
  intros [Hq Hl Hw]. destruct (close_streams_fields l st) as (F1 & F2 & F3 & F4 & F5 & F6). split.
  - by rewrite F3, F4, F5, F6.
  - by apply close_streams_ok.
  - intros g. unfold queued_of, idle_of. rewrite F1, F3. apply Hw.
Qed.

Lemma drop_idle_ok g st : pool_ok st -> pool_ok (with_idle (map_delete g (idleLeases st)) st).
Proof. intros Hok. apply (put_idle_pool_ok g [] (idle_of g st)); [done|by rewrite app_nil_r]. Qed.

Lemma with_active_ok m st : pool_ok st -> (forall p, p ∈ m -> p ∈ activeLeases st) -> pool_ok (with_active m st).
Proof.
  intros [Hq [Hw He Hx Hb Ha] Hwait] Hm. split; [done| |done]. split; try done.
  apply Forall_forall. intros p Hp. by eapply Forall_forall in Ha; [|by apply Hm].
Qed.

Lemma closeGuestLeases_ok g st : pool_ok st -> pool_ok (closeGuestLeases g st).
Proof.
  intros Hok. unfold closeGuestLeases. cbn zeta.
  set (st1 := with_idle _ (fold_left close_stream (idle_of g st) st)).
  assert (pool_ok st1) as H1 by (by apply drop_idle_ok, close_streams_pool_ok).
  apply with_active_ok; [by apply close_streams_pool_ok|]. intros p [_ Hp]%list_elem_of_filter.
  destruct (close_streams_fields (filter (fun p => owned_by g st1 p = true) (activeLeases st1)).*2 st1) as (_ & -> & _). done.
Qed.

Lemma closeAllLeases_ok st : pool_ok st -> pool_ok (closeAllLeases st).
Proof.
  intros Hok. unfold closeAllLeases. cbn zeta. apply with_active_ok; [|by intros p ?%elem_of_nil].
  set (st1 := fold_left close_stream _ (fold_left close_stream _ st)).
  assert (pool_ok st1) as [Hq [Hw He Hx Hb Ha] Hwait] by (by do 2 apply close_streams_pool_ok).
  split; [done| |done]. split; try done; [constructor..|].
  cbn [with_idle idleLeases lp_settled map_items concat map app]. by apply NoDup_app in Hx as (_ & _ & ?).
Qed.

(** Failing a guest's waiters. *)
Definition fail_one (g reason : jsstring) (st : LeasePool) (a : QueuedLeaseAcquisition) : LeasePool :=
  settle (qa_id a) (rejected (disconnected g reason a)) st.
Definition failures (g reason : jsstring) (l : list QueuedLeaseAcquisition) : list (nat * settlement) :=
  map (fun a => (qa_id a, rejected (disconnected g reason a))) l.

Lemma fail_fold g reason l st : let st' := fold_left (fail_one g reason) l st in
  lp_heap st' = lp_heap st /\ idleLeases st' = idleLeases st /\ activeLeases st' = activeLeases st /\
  queuedLeaseAcquisitions st' = queuedLeaseAcquisitions st /\ lp_next st' = lp_next st /\
  lp_timers st' = filter (fun t => t ∉ ids l) (lp_timers st) /\ lp_settled st' = lp_settled st ++ failures g reason l.
Proof.
  revert st. induction l as [|a l IH]; intros st; cbn zeta.
  - split_and!; try done; [|by cbn; rewrite app_nil_r]. cbn. symmetry. apply filter_all_in. by intros x _ ?%elem_of_nil.
  - cbn [fold_left]. destruct (IH (fail_one g reason st a)) as (-> & -> & -> & -> & -> & -> & ->). split_and!; try done.
    + cbn [fail_one settle lp_timers]. rewrite list_filter_filter. apply list_filter_iff. intros t.
      unfold ids. cbn [map]. rewrite not_elem_of_cons. tauto.
    + cbn. by rewrite <- app_assoc.
Qed.

Lemma fail_settled_ok l st : lease_ok st -> forall g reason, lease_ok (fold_left (fail_one g reason) l st).
Proof. revert st. induction l as [|a l IH]; intros st H g reason; [done|]. cbn [fold_left]. by apply IH, settle_rejected_ok. Qed.

Lemma queued_of_get g st : queued_of g st <> [] -> map_get g (queuedLeaseAcquisitions st) = Some (queued_of g st).
Proof. unfold queued_of. by destruct (map_get g (queuedLeaseAcquisitions st)). Qed.

Lemma failQueued_ok g reason st : pool_ok st -> pool_ok (failQueuedLeaseAcquisitions g reason st).
Proof.
  intros [Hq Hl Hwait]. unfold failQueuedLeaseAcquisitions. cbn zeta.
  set (st1 := with_queued (map_delete g (queuedLeaseAcquisitions st)) st). set (l := queued_of g st).
  change (pool_ok (fold_left (fail_one g reason) l st1)).
  destruct (fail_fold g reason l st1) as (F1 & F2 & F3 & F4 & F5 & F6 & F7). split.
  - rewrite F4, F5, F6, F7. subst st1. cbn [with_queued queuedLeaseAcquisitions lp_timers lp_settled lp_next].
    destruct (map_get g (queuedLeaseAcquisitions st)) as [l0|] eqn:Eg.
    + assert (l = l0) as -> by (subst l; unfold queued_of; by rewrite Eg).
      apply (queue_drop Hq); [done|]. unfold failures, ids. rewrite <- list_fmap_compose. done.
    + assert (l = []) as -> by (subst l; unfold queued_of; by rewrite Eg).
      rewrite (map_delete_id g _ Eg), app_nil_r, filter_all_in; [done|]. by intros x _ ?%elem_of_nil.
  - apply fail_settled_ok. by apply (lease_ok_fields st).
  - intros g' Hg'. unfold idle_of. rewrite F2. change (idle_of g' st = []). apply Hwait. intros Hn. apply Hg'.
    unfold queued_of. rewrite F4. cbn. rewrite map_get_delete. by case_decide.
Qed.

Lemma failAllQueued_ok reason st : pool_ok st -> pool_ok (failAllQueuedLeaseAcquisitions reason st).
Proof.
  unfold failAllQueuedLeaseAcquisitions. generalize (map_keys (queuedLeaseAcquisitions st)). intros l.
  revert st. induction l as [|g l IH]; intros st H; [done|]. cbn [fold_left]. by apply IH, failQueued_ok.
Qed.

Lemma onTimeout_ok a q st : map_get (qa_guestId a) (queuedLeaseAcquisitions st) = Some q -> a ∈ q -> pool_ok st ->
  pool_ok (onTimeout a st).
Proof.
  intros Eg Ha [Hq Hl Hwait].
  assert (queued_of (qa_guestId a) st = q) as Eq by (unfold queued_of; by rewrite Eg).
  assert (NoDup (ids q)) as Hnd.
  { destruct (map_get_Forall _ _ _ _ (qo_lists _ _ _ _ Hq) Eg) as [_ Hs]. cbn [snd] in Hs. revert Hs.
    generalize (ids q). intros k. induction 1 as [|x k _ IH Hx]; constructor; [|done].
    intros Hin. eapply Forall_forall in Hx; [|exact Hin]. lia. }
  assert (q ≡ₚ [a] ++ filter (fun c => qa_id c <> qa_id a) q) as Hp.
  { clear -Ha Hnd. induction q as [|b q IH]; [by apply elem_of_nil in Ha|]. cbn in Hnd.
    apply NoDup_cons in Hnd as [Hb Hnd]. rewrite filter_cons. apply elem_of_cons in Ha as [->|Ha].
    - rewrite decide_False by tauto. cbn. constructor. rewrite filter_all_in; [done|].
      intros c Hc Heq. apply Hb. rewrite <- Heq. apply list_elem_of_In, in_map, list_elem_of_In, Hc.
    - rewrite decide_True by (intros Heq; apply Hb; rewrite Heq; by apply list_elem_of_In, in_map, list_elem_of_In).
      cbn. rewrite (IH Ha Hnd) at 1. apply perm_swap. }
  split.
  - cbn [onTimeout settle removeQueuedLeaseAcquisition with_queued queuedLeaseAcquisitions lp_timers lp_settled lp_next].
    rewrite Eq, filter_neq_notin.
    apply (queue_take Hq _ q [a] _ [(qa_id a, rejected (timed_out a))]); [done|done|apply sublist_filter|done].
  - apply settle_rejected_ok. by apply (lease_ok_fields st).
  - intros g' Hg'. change (idle_of g' st = []). apply Hwait. intros Hn. apply Hg'. unfold queued_of. cbn.
    rewrite map_get_set. case_decide; [|exact Hn]. subst g'. rewrite Eq in Hn. rewrite Hn in Ha. by apply elem_of_nil in Ha.
Qed.

Lemma pool_step_ok st st' : pool_step st st' -> pool_ok st -> pool_ok st'.
Proof.
  destruct 1; intros Hok; auto using addIdleLease_ok, acquireLease_ok, tryAcquireLease_ok, removeLease_ok,
    closeGuestLeases_ok, closeAllLeases_ok, failQueued_ok, failAllQueued_ok.
  - by apply (close_streams_pool_ok [lease]).
  - by eapply onTimeout_ok.
Qed.

Lemma pool_reachable_ok st : rtc pool_step pool_init st -> pool_ok st.
Proof. apply (rtc_ind_r (fun st => pool_ok st)); [apply pool_init_ok|]. intros y z _ Hs. by apply pool_step_ok. Qed.

(** ** What the operations do *)

Lemma isClosed_mono l st a : isClosed st a = true -> isClosed (fold_left close_stream l st) a = true.
Proof.
  revert st. induction l as [|b l IH]; intros st H; [done|]. cbn [fold_left]. apply IH.
  unfold isClosed, close_stream, update_lease in *. cbn. destruct (decide (b = a)) as [->|Hne].
  - rewrite list_lookup_alter_eq. by destruct (lp_heap st !! a).
  - by rewrite list_lookup_alter_ne.
Qed.

Lemma close_streams_closes l st a : a ∈ l -> isClosed (fold_left close_stream l st) a = true.
Proof.
  revert st. induction l as [|b l IH]; intros st Ha; [by apply elem_of_nil in Ha|]. cbn [fold_left].
  apply elem_of_cons in Ha as [->|Ha]; [|by apply IH]. apply isClosed_mono.
  unfold isClosed, close_stream, update_lease. cbn. rewrite list_lookup_alter_eq. by destruct (lp_heap st !! b).
Qed.

Lemma activate_some a st l : lp_heap st !! a = Some l ->
  lp_heap (activate a st) !! a = Some (set_active true l) /\ map_get (lease_key l) (activeLeases (activate a st)) = Some a.
Proof.
  intros Ha. unfold activate. rewrite Ha. cbn. rewrite list_lookup_alter_eq, Ha, map_get_set_eq. done.
Qed.

Lemma failAll_queued reason l st :
  queuedLeaseAcquisitions (fold_left (fun st g => failQueuedLeaseAcquisitions g reason st) l st) =
  filter (fun p => p.1 ∉ l) (queuedLeaseAcquisitions st).
Proof.
  revert st. induction l as [|g l IH]; intros st; cbn [fold_left].
  - symmetry. apply filter_all_in. by intros p _ ?%elem_of_nil.
  - rewrite IH. unfold failQueuedLeaseAcquisitions. cbn zeta.
    destruct (fail_fold g reason (queued_of g st) (with_queued (map_delete g (queuedLeaseAcquisitions st)) st)) as (_ & _ & _ & F & _).
    unfold fail_one in F. rewrite F. cbn [with_queued queuedLeaseAcquisitions]. unfold map_delete.
    rewrite list_filter_filter. apply list_filter_iff. intros p. rewrite not_elem_of_cons. tauto.
Qed.

(** C10: Whatever the order in which leases are offered, close, time out and are
    asked for: every acquisition ever made is either waiting in one queue or
    settled exactly once; timers are armed for the waiting ones and no other; a
    lease is handed to at most one acquisition and is then no longer idle; an
    idle lease belongs to its guest and is inactive; nobody waits while the
    guest has an idle lease; and waiters stand in the order they asked. *)
Theorem pool_invariant st : rtc pool_step pool_init st ->
  map_items ids (queuedLeaseAcquisitions st) ++ (lp_settled st).*1 ≡ₚ seq 0 (lp_next st) /\
  lp_timers st ≡ₚ map_items ids (queuedLeaseAcquisitions st) /\
  NoDup (map_items id (idleLeases st) ++ resolved_leases (lp_settled st)) /\
  (forall g a, a ∈ idle_of g st -> exists l, lp_heap st !! a = Some l /\ gl_guestId l = g /\ gl_active l = false) /\
  (forall key a, map_get key (activeLeases st) = Some a -> exists l, lp_heap st !! a = Some l /\ lease_key l = key /\ gl_active l = true) /\
  (forall g, queued_of g st <> [] -> idle_of g st = []) /\
  (forall g, StronglySorted lt (ids (queued_of g st)) /\ Forall (fun a => qa_guestId a = g) (queued_of g st)).
Proof.
  intros H%pool_reachable_ok. pose proof H as [[Hw Hc Ht Hls] Hl Hwait]. split_and!; try done.
  - apply Hl.
  - intros g a Ha. by apply idle_of_entry.
  - intros key a Hk. by apply (map_get_Forall _ _ _ _ (po_active _ Hl)) in Hk.
  - intros g. unfold queued_of. destruct (map_get g (queuedLeaseAcquisitions st)) as [q|] eqn:E; [|repeat constructor].
    by destruct (map_get_Forall _ _ _ _ Hls E).
Qed.

(** An open lease offered while its guest has waiters goes to the waiter who
    asked first: his promise alone is resolved, with that lease, now active, his
    timer is disarmed, and the others keep their places.  Without a waiter it
    joins the end of the idle list, and a closed one changes nothing. *)
Theorem addIdleLease_correct st g leaseId closed : rtc pool_step pool_init st ->
  let l := {| gl_guestId := g; gl_leaseId := leaseId; gl_closed := closed; gl_active := false |} in
  let a := length (lp_heap st) in
  let st1 := with_heap (lp_heap st ++ [l]) st in
  let st' := addIdleLease a st1 in
  if closed then st' = st1
  else match queued_of g st with
       | [] => idle_of g st' = idle_of g st ++ [a] /\ lp_settled st' = lp_settled st /\ lp_timers st' = lp_timers st
       | w :: rest =>
           Forall (fun v => qa_id w < qa_id v)%nat rest /\
           lp_settled st' = lp_settled st ++ [(qa_id w, resolved a)] /\ qa_id w ∉ lp_timers st' /\
           queued_of g st' = rest /\ (forall g', g' <> g -> queued_of g' st' = queued_of g' st) /\
           lp_heap st' !! a = Some (set_active true l) /\ map_get (lease_key l) (activeLeases st') = Some a /\
           idle_of g st' = []
       end.
Proof.
  intros Hr l a st1 st'. pose proof (pool_reachable_ok _ Hr) as Hok.
  assert (lp_heap st1 !! a = Some l) as Ha by (by apply list_lookup_middle).
  assert (st' = addIdleLease a st1) as Est by done. unfold addIdleLease in Est. rewrite Ha in Est. unfold isClosed in Est.
  rewrite Ha in Est. cbn [gl_closed gl_guestId l] in Est. change (queued_of g st1) with (queued_of g st) in Est.
  destruct closed; [done|]. destruct (queued_of g st) as [|w rest] eqn:Eq.
  - rewrite Est. unfold idle_of. cbn. by rewrite map_get_set_eq.
  - assert (queued_of g st <> []) as Hne by (by rewrite Eq). rewrite Est. split_and!.
    + pose proof (queued_of_get g st Hne) as Hg. rewrite Eq in Hg.
      destruct (map_get_Forall _ _ _ _ (qo_lists _ _ _ _ (po_queue _ Hok)) Hg) as [_ Hs]. cbn in Hs.
      apply StronglySorted_inv in Hs as [_ Hs]. unfold ids in Hs. by rewrite Forall_map in Hs.
    + destruct (activate_fields a (with_queued (map_set g rest (queuedLeaseAcquisitions st1)) st1)) as (_ & _ & _ & F & _).
      cbn [settle lp_settled]. by rewrite F.
    + cbn [settle lp_timers]. intros [Hx _]%list_elem_of_filter. done.
    + unfold queued_of. cbn [settle queuedLeaseAcquisitions].
      destruct (activate_fields a (with_queued (map_set g rest (queuedLeaseAcquisitions st1)) st1)) as (_ & -> & _).
      cbn. by rewrite map_get_set_eq.
    + intros g' Hg'. unfold queued_of. cbn [settle queuedLeaseAcquisitions].
      destruct (activate_fields a (with_queued (map_set g rest (queuedLeaseAcquisitions st1)) st1)) as (_ & -> & _).
      cbn. by rewrite map_get_set_ne.
    + by apply (activate_some a (with_queued (map_set g rest (queuedLeaseAcquisitions st1)) st1)).
    + by apply (activate_some a (with_queued (map_set g rest (queuedLeaseAcquisitions st1)) st1)).
    + unfold idle_of. cbn [settle idleLeases].
      destruct (activate_fields a (with_queued (map_set g rest (queuedLeaseAcquisitions st1)) st1)) as (-> & _).
      by apply (po_wait _ Hok g).
Qed.

(** An acquisition is resolved at once with the first open lease of its
    guest's idle list, after dropping the closed ones in front of it; when no
    open lease is idle it waits behind the earlier requests with a timer armed.
    [tryAcquireLease] does the same when there is an open lease and otherwise
    asks for nothing. *)
Theorem acquireLease_correct st g r t : rtc pool_step pool_init st ->
  let st' := acquireLease g r t st in
  let try := tryAcquireLease g r t st in
  match drop_while (isClosed st) (idle_of g st) with
  | a :: rest =>
      isClosed st a = false /\ idle_of g st' = rest /\ lp_settled st' = lp_settled st ++ [(lp_next st, resolved a)] /\
      (forall l, lp_heap st !! a = Some l -> lp_heap st' !! a = Some (set_active true l) /\
        map_get (lease_key l) (activeLeases st') = Some a) /\
      queuedLeaseAcquisitions st' = queuedLeaseAcquisitions st /\
      try.1 = true /\ lp_settled try.2 = lp_settled st' /\ idle_of g try.2 = rest
  | [] =>
      idle_of g st' = [] /\ lp_settled st' = lp_settled st /\ lp_next st ∈ lp_timers st' /\
      queued_of g st' = queued_of g st ++ [{| qa_id := lp_next st; qa_guestId := g; qa_requestId := r; qa_timeoutMs := t |}] /\
      try.1 = false /\ lp_next try.2 = lp_next st /\ queuedLeaseAcquisitions try.2 = queuedLeaseAcquisitions st
  end.
Proof.
  intros Hr%pool_reachable_ok st' try. subst st' try. unfold tryAcquireLease.
  destruct (drop_while (isClosed st) (idle_of g st)) as [|a rest] eqn:Ed.
  - assert (forall st1, isClosed st1 = isClosed st -> idle_of g st1 = idle_of g st -> drop_while (isClosed st1) (idle_of g st1) = []) as Hd
      by (by intros st1 -> ->).
    unfold acquireLease. cbn zeta. rewrite (Hd (fresh_id st)) by done. split_and!; try done.
    + change (idle_of g (put_idle g [] (fresh_id st)) = []). rewrite put_idle_of. by rewrite decide_True.
    + cbn. apply elem_of_app. right. by left.
    + unfold queued_of. cbn. by rewrite map_get_set_eq.
  - pose proof (drop_while_head _ _ _ _ Ed) as Hc.
    assert (idle_of g (put_idle g (a :: rest) st) = a :: rest) as Hi by (rewrite put_idle_of; by rewrite decide_True).
    assert (drop_while (isClosed st) (a :: rest) = a :: rest) as Hdw by (cbn; by rewrite Hc).
    assert (forall st1, lp_heap st1 = lp_heap st -> lp_settled st1 = lp_settled st -> lp_next st1 = lp_next st ->
      drop_while (isClosed st1) (idle_of g st1) = a :: rest ->
      idle_of g (acquireLease g r t st1) = rest /\
      lp_settled (acquireLease g r t st1) = lp_settled st ++ [(lp_next st, resolved a)] /\
      (forall l, lp_heap st !! a = Some l -> lp_heap (acquireLease g r t st1) !! a = Some (set_active true l) /\
        map_get (lease_key l) (activeLeases (acquireLease g r t st1)) = Some a) /\
      queuedLeaseAcquisitions (acquireLease g r t st1) = queuedLeaseAcquisitions st1) as Hacq.
    { intros st1 H1 H2 H3 Hd. unfold acquireLease. cbn zeta.
      change (drop_while (isClosed (fresh_id st1)) (idle_of g (fresh_id st1))) with (drop_while (isClosed st1) (idle_of g st1)).
      rewrite Hd. destruct (activate_fields a (put_idle g rest (fresh_id st1))) as (F1 & F2 & F3 & F4 & F5 & F6). split_and!.
      - unfold idle_of. cbn [settle idleLeases]. rewrite F1. change (idle_of g (put_idle g rest (fresh_id st1)) = rest).
        rewrite put_idle_of. by rewrite decide_True.
      - cbn [settle lp_settled]. rewrite F4. cbn. by rewrite H2, H3.
      - intros l Hl. apply activate_some. cbn. by rewrite H1.
      - cbn [settle queuedLeaseAcquisitions]. by rewrite F2. }
    destruct (Hacq st) as (A1 & A2 & A3 & A4); [done..|].
    destruct (Hacq (put_idle g (a :: rest) st)) as (B1 & B2 & _ & _); [done..|by rewrite Hi|].
    cbn [fst snd]. rewrite A2, B2. done.
Qed.

(** Shutting the host down (close every lease, then fail every waiter) leaves
    no promise pending and no timer armed: every acquisition ever made is settled
    exactly once, the pool is empty and every lease that was idle or active is closed. *)
Theorem shutdown_correct st reason : rtc pool_step pool_init st ->
  let st' := failAllQueuedLeaseAcquisitions reason (closeAllLeases st) in
  (lp_settled st').*1 ≡ₚ seq 0 (lp_next st) /\ lp_timers st' = [] /\ queuedLeaseAcquisitions st' = [] /\
  idleLeases st' = [] /\ activeLeases st' = [] /\
  (forall g a, a ∈ idle_of g st -> isClosed st' a = true) /\
  (forall key a, map_get key (activeLeases st) = Some a -> isClosed st' a = true).
Proof.
  intros Hr%pool_reachable_ok st'.
  assert (pool_ok st') as [[_ Hc Ht _] _ _] by (by apply failAllQueued_ok, closeAllLeases_ok).
  assert (queuedLeaseAcquisitions st' = []) as Hq.
  { subst st'. unfold failAllQueuedLeaseAcquisitions. rewrite failAll_queued. apply filter_none_in.
    intros p Hp Hn. apply Hn. unfold map_keys. by apply list_elem_of_fmap_2. }
  assert (forall l st1, let st2 := fold_left (fun st g => failQueuedLeaseAcquisitions g reason st) l st1 in
    lp_heap st2 = lp_heap st1 /\ idleLeases st2 = idleLeases st1 /\ activeLeases st2 = activeLeases st1 /\ lp_next st2 = lp_next st1) as Hf.
  { induction l as [|g l IH]; intros st1; [done|]. cbn [fold_left]. cbn zeta.
    destruct (IH (failQueuedLeaseAcquisitions g reason st1)) as (-> & -> & -> & ->).
    by destruct (fail_fold g reason (queued_of g st1) (with_queued (map_delete g (queuedLeaseAcquisitions st1)) st1)) as (? & ? & ? & _ & ? & _). }
  destruct (Hf (map_keys (queuedLeaseAcquisitions (closeAllLeases st))) (closeAllLeases st)) as (Fh & Fi & Fa & Fn).
  fold (failAllQueuedLeaseAcquisitions reason (closeAllLeases st)) in Fh, Fi, Fa, Fn. fold st' in Fh, Fi, Fa, Fn.
  set (ls := concat (idleLeases st).*2). set (as_ := (activeLeases st).*2).
  assert (forall a, a ∈ ls \/ a ∈ as_ -> isClosed st' a = true) as Hclosed.
  { intros a Ha. unfold isClosed. rewrite Fh.
    assert (closeAllLeases st = with_active [] (with_idle [] (fold_left close_stream as_ (fold_left close_stream ls st)))) as ->.
    { unfold closeAllLeases. cbn zeta. fold ls. by destruct (close_streams_fields ls st) as (_ & -> & _). }
    change (isClosed (fold_left close_stream as_ (fold_left close_stream ls st)) a = true).
    destruct Ha; [by apply isClosed_mono, close_streams_closes|by apply close_streams_closes]. }
  rewrite Hq in Hc, Ht. cbn [map_items map concat app] in Hc, Ht. rewrite Fn in Hc.
  assert (lp_next (closeAllLeases st) = lp_next st) as Hnx.
  { unfold closeAllLeases. cbn zeta. cbn [with_active with_idle lp_next]. fold ls.
    rewrite (proj2 (proj2 (proj2 (proj2 (proj2 (close_streams_fields _ _)))))).
    by rewrite (proj2 (proj2 (proj2 (proj2 (proj2 (close_streams_fields _ _)))))). }
  rewrite Hnx in Hc. split_and!; try done.
  - by apply Permutation_nil_r in Ht.
  - intros g a Ha. apply Hclosed. left. apply (idle_in_items st g) in Ha. unfold map_items in Ha. exact Ha.
  - intros key a Ha. apply Hclosed. right. apply map_get_elem in Ha. apply list_elem_of_fmap. by exists (key, a).
Qed.

(** ** A concrete run: a request waits, a lease arrives for it, a second lease
    stays idle, and a request for another guest waits. *)
Definition offer (g n : jsstring) (st : LeasePool) : LeasePool :=
  addIdleLease (length (lp_heap st))
    (with_heap (lp_heap st ++ [{| gl_guestId := g; gl_leaseId := n; gl_closed := false; gl_active := false |}]) st).
Definition sample_pool : LeasePool :=
  acquireLease (js "h") (js "r2") 50
    (offer (js "g") (js "2") (offer (js "g") (js "1") (acquireLease (js "g") (js "r1") 1000 pool_init))).

Lemma sample_pool_reachable : rtc pool_step pool_init sample_pool.
Proof.
  refine (rtc_r _ _ _ (rtc_r _ _ _ (rtc_r _ _ _ (rtc_once _ _ (step_acquire _ _ _ _)) (step_offer _ _ false _))
    (step_offer _ _ false _)) (step_acquire _ _ _ _)).
Qed.

Lemma pool_invariant_witness : rtc pool_step pool_init sample_pool /\ NoDup (map_items id (idleLeases sample_pool) ++ resolved_leases (lp_settled sample_pool)).
Proof.
  split; [apply sample_pool_reachable|].
  destruct (pool_invariant sample_pool sample_pool_reachable) as (_ & _ & H & _). exact H.
Defined.

Lemma addIdleLease_correct_witness : rtc pool_step pool_init sample_pool /\
  queued_of (js "h") sample_pool = [{| qa_id := 1; qa_guestId := js "h"; qa_requestId := js "r2"; qa_timeoutMs := 50 |}] /\
  lp_settled (addIdleLease (length (lp_heap sample_pool)) (with_heap (lp_heap sample_pool ++
    [{| gl_guestId := js "h"; gl_leaseId := js "1"; gl_closed := false; gl_active := false |}]) sample_pool))
  = lp_settled sample_pool ++ [(1%nat, resolved (length (lp_heap sample_pool)))].
Proof.
  assert (queued_of (js "h") sample_pool = [{| qa_id := 1; qa_guestId := js "h"; qa_requestId := js "r2"; qa_timeoutMs := 50 |}]) as E
    by (vm_compute; reflexivity).
  pose proof (addIdleLease_correct sample_pool (js "h") (js "1") false sample_pool_reachable) as H. cbv zeta iota in H.
  rewrite E in H. destruct H as (_ & H & _). split; [apply sample_pool_reachable|]. split; [exact E|exact H].
Defined.

Lemma acquireLease_correct_witness : rtc pool_step pool_init sample_pool /\
  drop_while (isClosed sample_pool) (idle_of (js "g") sample_pool) = [1%nat] /\
  lp_settled (acquireLease (js "g") (js "r3") 10 sample_pool) = lp_settled sample_pool ++ [(lp_next sample_pool, resolved 1)].
Proof.
  assert (drop_while (isClosed sample_pool) (idle_of (js "g") sample_pool) = [1%nat]) as E by (vm_compute; reflexivity).
  pose proof (acquireLease_correct sample_pool (js "g") (js "r3") 10 sample_pool_reachable) as H. cbv zeta in H.
  rewrite E in H. destruct H as (_ & _ & H & _). split; [apply sample_pool_reachable|]. split; [exact E|exact H].
Defined.

Lemma shutdown_correct_witness : rtc pool_step pool_init sample_pool /\
  (lp_settled (failAllQueuedLeaseAcquisitions (js "close") (closeAllLeases sample_pool))).*1 ≡ₚ seq 0 (lp_next sample_pool).
Proof.
  split; [apply sample_pool_reachable|].
  destruct (shutdown_correct sample_pool (js "close") sample_pool_reachable) as (H & _). exact H.
Defined.
