(* ===== verification/RouteAuthorizer.v ===== *)
(** Hop-local federation route authorization (verser2-host [route-authorizer.ts],
    and the option defaults of [constants.ts] and [node-http2-verser-host.ts]).

    A pending promise is a decision id, the address of its entry; [ra_settled]
    records how each decision was settled.  The callback's answer arrives as an
    event of its own ([completeDecision]), so that any other operation can come
    between a question and its answer. *)
From S2P Require Import Prelude JsNum Utf8 Json Errors Headers ResponseMetadata Routing.

(** ** Options *)
Definition DEFAULT_ROUTE_AUTHORIZATION_CACHE_TTL_MS : Z := 60000.
Definition defaultRouteAuthorizationNegativeCacheTtlMs (allowTtlMs : Z) : Z := allowTtlMs / 10.

Record FederatedRouteAuthorizerOptions := { allowTtlMs : Z; denyTtlMs : Z }.

Definition validateAuthorizationTtl (value : jsnum) (field : string) : result exn Z :=
  match value with
  | num_int z =>
      if z <? 0 then Throw (verr_js protocol_error (js field ++ js " must be a finite non-negative integer")
                              [(js "field", JStr (js field)); (js "value", JNum value)])
      else Ok z
  | _ => Throw (verr_js protocol_error (js field ++ js " must be a finite non-negative integer")
                  [(js "field", JStr (js field)); (js "value", if is_finite value then JNum value else JUndef)])
  end.

Definition resolveRouteAuthorizationTtls (allow deny : option jsnum) : result exn FederatedRouteAuthorizerOptions :=
  a ← validateAuthorizationTtl (default (num_int DEFAULT_ROUTE_AUTHORIZATION_CACHE_TTL_MS) allow) "routeAuthorizationCacheTtlMs";
  d ← validateAuthorizationTtl (default (num_int (defaultRouteAuthorizationNegativeCacheTtlMs a)) deny) "routeAuthorizationNegativeCacheTtlMs";
  Ok {| allowTtlMs := a; denyTtlMs := d |}.

(** ** Results of the callback *)
Inductive route_decision : Type := allow | deny.
#[export] Instance route_decision_eq_dec : EqDecision route_decision.
Proof. solve_decision. Defined.
Definition decision_of (v : jsval) : option route_decision :=
  if is_str (js "allow") v then Some allow else if is_str (js "deny") v then Some deny else None.

Record NormalizedAuthorizationResult := { nr_decision : route_decision; nr_expiresAt : option jsnum }.

(** The double nearest to the sum of two non-negative integers. *)
Definition add_ms (now ms : Z) : jsnum := round_ratio (now + ms) 1.

Definition invalid_decision (context : VerserErrorContext) : exn :=
  verr protocol_error "Route authorizer returned a missing or invalid decision" context.

(** The override of a [cacheTtlMs] member; [None] when it is absent or [undefined]. *)
Definition override_expiry (raw : jsval) (now : Z) : result exn (option (option jsnum)) :=
  match raw with
  | JUndef => Ok None
  | JNum (num_inf false) => Ok (Some (Some (num_inf false)))
  | JNum n =>
      match n with
      | num_int z =>
          if negb (is_safe_integer n) || (z <? 0)
          then Throw (verr protocol_error "Route authorizer cacheTtlMs must be 0, a positive safe integer, or Number.POSITIVE_INFINITY" [])
          else if z =? 0 then Ok (Some None)
          else
            let expiresAt := add_ms now z in
            if is_safe_integer expiresAt then Ok (Some (Some expiresAt))
            else Throw (verr protocol_error "Route authorizer cacheTtlMs must produce a safe representable expiry" [])
      | _ => Throw (verr protocol_error "Route authorizer cacheTtlMs must be 0, a positive safe integer, or Number.POSITIVE_INFINITY" [])
      end
  | _ => Throw (verr protocol_error "Route authorizer cacheTtlMs must be 0, a positive safe integer, or Number.POSITIVE_INFINITY" [])
  end.

Definition class_expiry (d : route_decision) (options : FederatedRouteAuthorizerOptions) (now : Z) : option jsnum :=
  let classTtlMs := match d with allow => allowTtlMs options | deny => denyTtlMs options end in
  if classTtlMs =? 0 then None else Some (add_ms now classTtlMs).

Definition normalizeAuthorizationResult (outcome : jsval) (options : FederatedRouteAuthorizerOptions) (now : Z)
    : result exn NormalizedAuthorizationResult :=
  match decision_of outcome, outcome with
  | Some d, _ => Ok {| nr_decision := d; nr_expiresAt := class_expiry d options now |}
  | None, JObj o =>
      match decision_of (prop (js "decision") o) with
      | None => Throw (invalid_decision [(js "decision",
                  match prop (js "decision") o with JStr s => JStr s | _ => JUndef end)])
      | Some d =>
          override ← override_expiry (prop (js "cacheTtlMs") o) now;
          Ok {| nr_decision := d; nr_expiresAt := match override with Some e => e | None => class_expiry d options now end |}
      end
  | None, _ => Throw (invalid_decision [])
  end.

(** ** State *)
Record VerserFederatedRouteAuthorizationPair := { previousAdvertisedDomain : jsstring; nextSelectedDomain : jsstring }.

Record PendingDecision := {
  pd_key : jsstring;
  pd_question : VerserFederatedRouteAuthorizationPair;   (** what the callback is asked *)
  pd_generation : Z;
  pd_revoked : bool;
}.
Definition revoke_entry (e : PendingDecision) : PendingDecision :=
  {| pd_key := pd_key e; pd_question := pd_question e; pd_generation := pd_generation e; pd_revoked := true |}.

Record FederatedRouteAuthorizer := {
  allowedPairs : list (jsstring * jsnum);
  deniedPairs : list (jsstring * jsnum);
  pendingDecisions : list (jsstring * nat);
  generation : Z;
  ra_decisions : list PendingDecision;
  ra_settled : list (nat * result exn bool);
}.
Definition authorizer_init : FederatedRouteAuthorizer :=
  {| allowedPairs := []; deniedPairs := []; pendingDecisions := []; generation := 0; ra_decisions := []; ra_settled := [] |}.

(** [expiresAt <= now] *)
Definition expired (expiresAt : jsnum) (now : Z) : bool :=
  match expiresAt with
  | num_int z => z <=? now
  | num_frac m e => m <=? now * 2 ^ Z.pos e
  | num_inf neg => neg
  | num_nan => false
  end.

Definition isLive (cache : list (jsstring * jsnum)) (key : jsstring) (now : Z) : bool * list (jsstring * jsnum) :=
  match map_get key cache with
  | None => (false, cache)
  | Some expiresAt => if expired expiresAt now then (false, map_delete key cache) else (true, cache)
  end.

Definition insert_expiry (cache : list (jsstring * jsnum)) (key : jsstring) (expiresAt : option jsnum) : list (jsstring * jsnum) :=
  match expiresAt with None => cache | Some e => map_set key e cache end.

Definition liveCount (cache : list (jsstring * jsnum)) (now : Z) : Z :=
  len (filter (fun p => expired p.2 now = false) cache).

Definition with_caches (a d : list (jsstring * jsnum)) (st : FederatedRouteAuthorizer) : FederatedRouteAuthorizer :=
  {| allowedPairs := a; deniedPairs := d; pendingDecisions := pendingDecisions st; generation := generation st;
     ra_decisions := ra_decisions st; ra_settled := ra_settled st |}.
Definition settle_decision (d : nat) (r : result exn bool) (st : FederatedRouteAuthorizer) : FederatedRouteAuthorizer :=
  {| allowedPairs := allowedPairs st; deniedPairs := deniedPairs st; pendingDecisions := pendingDecisions st;
     generation := generation st; ra_decisions := ra_decisions st; ra_settled := ra_settled st ++ [(d, r)] |}.
Definition with_pending (m : list (jsstring * nat)) (l : list PendingDecision) (st : FederatedRouteAuthorizer) : FederatedRouteAuthorizer :=
  {| allowedPairs := allowedPairs st; deniedPairs := deniedPairs st; pendingDecisions := m; generation := generation st;
     ra_decisions := l; ra_settled := ra_settled st |}.

(** ** Operations *)
(** A promise already settled, or the promise of a decision. *)
Inductive hop_answer : Type := answered (b : bool) | awaits (d : nat).

Section Authorizer.
Context {P : Platform}.

Definition federatedRouteAuthorizationPairKey (pair : VerserFederatedRouteAuthorizationPair) : jsstring :=
  normalizeVerserRouteDomain (previousAdvertisedDomain pair) ++ [0] ++ normalizeVerserRouteDomain (nextSelectedDomain pair).

Definition question (pair : VerserFederatedRouteAuthorizationPair) : VerserFederatedRouteAuthorizationPair :=
  {| previousAdvertisedDomain := normalizeVerserRouteDomain (previousAdvertisedDomain pair);
     nextSelectedDomain := normalizeVerserRouteDomain (nextSelectedDomain pair) |}.

Definition authorizeHop (pair : VerserFederatedRouteAuthorizationPair) (now : Z) (st : FederatedRouteAuthorizer)
    : hop_answer * FederatedRouteAuthorizer :=
  let key := federatedRouteAuthorizationPairKey pair in
  let (allowed, allows) := isLive (allowedPairs st) key now in
  let st := with_caches allows (deniedPairs st) st in
  if allowed then (answered true, st)
  else
    let (denied, denies) := isLive (deniedPairs st) key now in
    let st := with_caches (allowedPairs st) denies st in
    if denied then (answered false, st)
    else match map_get key (pendingDecisions st) with
         | Some pending => (awaits pending, st)
         | None =>
             let d := length (ra_decisions st) in
             let entry := {| pd_key := key; pd_question := question pair; pd_generation := generation st; pd_revoked := false |} in
             (awaits d, with_pending (map_set key d (pendingDecisions st)) (ra_decisions st ++ [entry]) st)
         end.

(** The rest of the asynchronous body, from the moment the callback of
    decision [d] returned a value or threw. *)
Definition completeDecision (options : FederatedRouteAuthorizerOptions) (d : nat) (outcome : result exn jsval) (now : Z)
    (st : FederatedRouteAuthorizer) : FederatedRouteAuthorizer :=
  match ra_decisions st !! d with
  | None => st
  | Some entry =>
      let key := pd_key entry in
      let st1 :=
        match v ← outcome; normalizeAuthorizationResult v options now with
        | Throw error => settle_decision d (Throw error) st
        | Ok r =>
            if pd_revoked entry || negb (pd_generation entry =? generation st) then settle_decision d (Ok false) st
            else match nr_decision r with
                 | allow => settle_decision d (Ok true)
                              (with_caches (insert_expiry (allowedPairs st) key (nr_expiresAt r)) (deniedPairs st) st)
                 | deny => settle_decision d (Ok false)
                              (with_caches (allowedPairs st) (insert_expiry (deniedPairs st) key (nr_expiresAt r)) st)
                 end
        end in
      if decide (map_get key (pendingDecisions st1) = Some d)
      then with_pending (map_delete key (pendingDecisions st1)) (ra_decisions st1) st1
      else st1
  end.

Definition revokePair (pair : VerserFederatedRouteAuthorizationPair) (st : FederatedRouteAuthorizer)
    : bool * FederatedRouteAuthorizer :=
  let key := federatedRouteAuthorizationPairKey pair in
  let pending := map_get key (pendingDecisions st) in
  let st1 := match pending with
             | Some d => with_pending (map_delete key (pendingDecisions st)) (alter revoke_entry d (ra_decisions st)) st
             | None => st
             end in
  let removedAllow := map_has key (allowedPairs st1) in
  let removedDeny := map_has key (deniedPairs st1) in
  (removedAllow || removedDeny || bool_decide (is_Some pending),
   with_caches (map_delete key (allowedPairs st1)) (map_delete key (deniedPairs st1)) st1).

Definition invalidate (st : FederatedRouteAuthorizer) : FederatedRouteAuthorizer :=
  {| allowedPairs := []; deniedPairs := []; pendingDecisions := pendingDecisions st; generation := generation st + 1;
     ra_decisions := ra_decisions st; ra_settled := ra_settled st |}.

Definition cachedAllowCount (st : FederatedRouteAuthorizer) (now : Z) : Z := liveCount (allowedPairs st) now.
Definition cachedDenyCount (st : FederatedRouteAuthorizer) (now : Z) : Z := liveCount (deniedPairs st) now.
Definition pendingDecisionCount (st : FederatedRouteAuthorizer) : Z := len (pendingDecisions st).

(** [authorizeFederatedHopPair]: without a configured authorizer every hop is allowed. *)
Definition authorizeFederatedHopPair (previous next : jsstring) (now : Z) (authorizer : option FederatedRouteAuthorizer)
    : hop_answer * option FederatedRouteAuthorizer :=
  match authorizer with
  | None => (answered true, None)
  | Some st => let (a, st) := authorizeHop {| previousAdvertisedDomain := previous; nextSelectedDomain := next |} now st in (a, Some st)
  end.

Inductive authorizer_step (options : FederatedRouteAuthorizerOptions) : FederatedRouteAuthorizer -> FederatedRouteAuthorizer -> Prop :=
  | step_authorize pair now st : authorizer_step options st (authorizeHop pair now st).2
  | step_complete d outcome now st : d ∉ (ra_settled st).*1 ->
      authorizer_step options st (completeDecision options d outcome now st)
  | step_revoke pair st : authorizer_step options st (revokePair pair st).2
  | step_invalidate st : authorizer_step options st (invalidate st).
End Authorizer.

(** * Theory *)

(** A decision whose answer may still take effect. *)
Definition current (st : FederatedRouteAuthorizer) (d : nat) (e : PendingDecision) : Prop :=
  ra_decisions st !! d = Some e /\ pd_revoked e = false /\ pd_generation e = generation st.

Record authorizer_ok (st : FederatedRouteAuthorizer) : Prop := {
  ao_wf : map_wf (pendingDecisions st);
  ao_generation : forall d e, ra_decisions st !! d = Some e -> pd_generation e <= generation st;
  ao_pending : forall key d, map_get key (pendingDecisions st) = Some d ->
    d ∉ (ra_settled st).*1 /\ exists e, ra_decisions st !! d = Some e /\ pd_key e = key /\ pd_revoked e = false;
  ao_single : forall d e, ra_decisions st !! d = Some e -> d ∉ (ra_settled st).*1 -> pd_revoked e = false ->
    map_get (pd_key e) (pendingDecisions st) = Some d;
  ao_once : NoDup (ra_settled st).*1;
  ao_known : forall d, d ∈ (ra_settled st).*1 -> (d < length (ra_decisions st))%nat;
  ao_allowed : forall key x, map_get key (allowedPairs st) = Some x ->
    exists d e, current st d e /\ pd_key e = key /\ (d, Ok true) ∈ ra_settled st;
  ao_denied : forall key x, map_get key (deniedPairs st) = Some x ->
    exists d e, current st d e /\ pd_key e = key /\ (d, Ok false) ∈ ra_settled st;
  ao_undecided : forall d e, current st d e -> d ∉ (ra_settled st).*1 ->
    map_get (pd_key e) (allowedPairs st) = None /\ map_get (pd_key e) (deniedPairs st) = None;
  ao_exclusive : forall key x, map_get key (allowedPairs st) = Some x -> map_get key (deniedPairs st) = None;
}.

Lemma authorizer_init_ok : authorizer_ok authorizer_init.
Proof. split; cbn; try done; try constructor; by intros ? ?%elem_of_nil. Qed.

(** A cache that lost entries. *)
Definition cache_le (m m' : list (jsstring * jsnum)) : Prop := forall k x, map_get k m = Some x -> map_get k m' = Some x.
Lemma cache_le_refl m : cache_le m m. Proof. by intros ? ?. Qed.
Lemma cache_le_delete k m : cache_le (map_delete k m) m.
Proof. intros k' x. rewrite map_get_delete. by case_decide. Qed.
Lemma cache_le_None m m' k : cache_le m m' -> map_get k m' = None -> map_get k m = None.
Proof. intros H Hn. destruct (map_get k m) as [x|] eqn:E; [|done]. apply H in E. congruence. Qed.
#[local] Hint Resolve cache_le_refl cache_le_delete : core.

Lemma isLive_spec cache key now : match isLive cache key now with
  | (true, c) => c = cache /\ exists x, map_get key cache = Some x /\ expired x now = false
  | (false, c) => cache_le c cache /\ map_get key c = None
  end.
Proof.
  unfold isLive. destruct (map_get key cache) as [x|] eqn:E; [|done].
  destruct (expired x now) eqn:Ex; [|eauto]. split; [auto|]. rewrite map_get_delete. by rewrite decide_True.
Qed.

Lemma with_caches_ok a d st : authorizer_ok st -> cache_le a (allowedPairs st) -> cache_le d (deniedPairs st) ->
  authorizer_ok (with_caches a d st).
Proof.
  intros [] Ha Hd. split; try done; cbn [with_caches allowedPairs deniedPairs]; eauto.
  - intros dn e Hc Hs. destruct (ao_undecided0 dn e Hc Hs). eauto using cache_le_None.
  - intros key x Hx. eauto using cache_le_None.
Qed.

Lemma start_decision_ok st e : authorizer_ok st -> pd_revoked e = false -> pd_generation e = generation st ->
  map_get (pd_key e) (pendingDecisions st) = None ->
  map_get (pd_key e) (allowedPairs st) = None -> map_get (pd_key e) (deniedPairs st) = None ->
  authorizer_ok (with_pending (map_set (pd_key e) (length (ra_decisions st)) (pendingDecisions st)) (ra_decisions st ++ [e]) st).
Proof.
  intros Hok Hr Hg Hp Ha Hd. pose proof Hok as [].
  assert (length (ra_decisions st) ∉ (ra_settled st).*1) as Hnew by (intros H%ao_known0; lia).
  assert (forall d x, ra_decisions st !! d = Some x -> (ra_decisions st ++ [e]) !! d = Some x) as Hold
    by (intros d x Hx; by apply lookup_app_l_Some).
  assert (forall d x, (ra_decisions st ++ [e]) !! d = Some x ->
    ra_decisions st !! d = Some x \/ d = length (ra_decisions st) /\ x = e) as Hinv.
  { intros d x Hx. apply lookup_app_Some in Hx as [?|[Hl Hx]]; [by left|right].
    apply list_lookup_singleton_Some in Hx as [Hi ->]. split; [lia|done]. }
  split; try done; cbn [with_pending pendingDecisions ra_decisions ra_settled allowedPairs deniedPairs generation].
  - by apply map_wf_set.
  - intros d x [Hx|[-> ->]]%Hinv; [eauto|lia].
  - intros key d. rewrite map_get_set. case_decide as Hk.
    + intros [= <-]. split; [done|]. exists e. subst key. by rewrite list_lookup_middle.
    + intros Hx. destruct (ao_pending0 key d Hx) as [Hs (x & Hx' & ?)]. eauto.
  - intros d x [Hx|[-> ->]]%Hinv Hs Hrev; rewrite map_get_set.
    + specialize (ao_single0 d x Hx Hs Hrev). case_decide as Hk; [rewrite Hk in ao_single0; congruence|done].
    + by rewrite decide_True.
  - intros d Hs. apply ao_known0 in Hs. rewrite length_app. lia.
  - intros key x Hx. destruct (ao_allowed0 key x Hx) as (d & y & [Hy ?] & ?). exists d, y. split; [split; auto|done].
  - intros key x Hx. destruct (ao_denied0 key x Hx) as (d & y & [Hy ?] & ?). exists d, y. split; [split; auto|done].
  - intros d x [[Hx|[-> ->]]%Hinv [Hrv Hgn]] Hs; [|done]. apply (ao_undecided0 d x); [by split_and!|done].
Qed.

(** Settling decision [d], whatever it answers; its pending entry goes. *)
Lemma settle_ok st d e r a dn : authorizer_ok st -> ra_decisions st !! d = Some e -> d ∉ (ra_settled st).*1 ->
  cache_le a (allowedPairs st) \/
    (current st d e /\ r = Ok true /\ dn = deniedPairs st /\ exists x, a = map_set (pd_key e) x (allowedPairs st)) ->
  cache_le dn (deniedPairs st) \/
    (current st d e /\ r = Ok false /\ a = allowedPairs st /\ exists x, dn = map_set (pd_key e) x (deniedPairs st)) ->
  let st1 := settle_decision d r (with_caches a dn st) in
  authorizer_ok (if decide (map_get (pd_key e) (pendingDecisions st1) = Some d)
    then with_pending (map_delete (pd_key e) (pendingDecisions st1)) (ra_decisions st1) st1 else st1).
Proof.
  intros Hok He Hs Ha Hd st1. pose proof Hok as [].
  set (p := if decide (map_get (pd_key e) (pendingDecisions st) = Some d) then map_delete (pd_key e) (pendingDecisions st)
            else pendingDecisions st).
  assert ((if decide (map_get (pd_key e) (pendingDecisions st1) = Some d)
    then with_pending (map_delete (pd_key e) (pendingDecisions st1)) (ra_decisions st1) st1 else st1)
    = with_pending p (ra_decisions st) st1) as ->.
  { subst p st1. cbn [settle_decision with_caches pendingDecisions ra_decisions]. by case_decide. }
  assert (forall k d', map_get k p = Some d' <-> map_get k (pendingDecisions st) = Some d' /\ d' <> d) as Hp.
  { intros k d'. subst p. case_decide as Hc.
    - rewrite map_get_delete. case_decide as Hk; [subst k; split; [done|]; intros [? ?]; congruence|].
      split; [|tauto]. intros Hx. split; [done|]. intros ->. destruct (ao_pending0 _ _ Hx) as [_ (y & Hy & Hyk & _)].
      congruence.
    - split; [|tauto]. intros Hx. split; [done|]. intros ->. destruct (ao_pending0 _ _ Hx) as [_ (y & Hy & Hyk & _)].
      assert (y = e) as -> by congruence. subst k. done. }
  assert (forall d', d' ∉ (ra_settled st ++ [(d, r)]).*1 <-> d' ∉ (ra_settled st).*1 /\ d' <> d) as Hset.
  { intros d'. rewrite fmap_app, elem_of_app. cbn. rewrite list_elem_of_singleton. tauto. }
  assert (forall d' x k, d' ∉ (ra_settled st).*1 -> current st d' x -> pd_key x = k -> current st d e -> pd_key e = k -> d' = d) as Huniq.
  { intros d' x k Hd' (Hx & Hxr & _) Hxk (_ & Her & _) Hek.
    pose proof (ao_single0 _ _ Hx Hd' Hxr) as E1. pose proof (ao_single0 _ _ He Hs Her) as E2. congruence. }
  split; cbn [with_pending settle_decision with_caches pendingDecisions ra_decisions ra_settled allowedPairs deniedPairs generation st1].
  - subst p. case_decide; [by apply map_wf_delete|done].
  - done.
  - intros k d' [Hx Hne]%Hp. destruct (ao_pending0 _ _ Hx) as [Hns Hex]. split; [by apply Hset|done].
  - intros d' x Hx [Hns Hne]%Hset Hr. apply Hp. eauto.
  - rewrite fmap_app. apply NoDup_app. split; [done|]. split; [|apply NoDup_singleton].
    intros x Hx ->%list_elem_of_singleton. done.
  - intros d'. rewrite fmap_app, elem_of_app. cbn. rewrite list_elem_of_singleton.
    intros [?| ->]; [auto|]. by apply lookup_lt_Some in He.
  - intros k x Hx. destruct Ha as [Ha|(Hc & -> & _ & y & ->)].
    + destruct (ao_allowed0 k x (Ha _ _ Hx)) as (d' & z & ? & ? & ?). exists d', z. rewrite elem_of_app. auto.
    + rewrite map_get_set in Hx. case_decide as Hk.
      * exists d, e. rewrite elem_of_app. split_and!; [done|done|]. right. by left.
      * destruct (ao_allowed0 k x Hx) as (d' & z & ? & ? & ?). exists d', z. rewrite elem_of_app. auto.
  - intros k x Hx. destruct Hd as [Hd|(Hc & -> & _ & y & ->)].
    + destruct (ao_denied0 k x (Hd _ _ Hx)) as (d' & z & ? & ? & ?). exists d', z. rewrite elem_of_app. auto.
    + rewrite map_get_set in Hx. case_decide as Hk.
      * exists d, e. rewrite elem_of_app. split_and!; [done|done|]. right. by left.
      * destruct (ao_denied0 k x Hx) as (d' & z & ? & ? & ?). exists d', z. rewrite elem_of_app. auto.
  - intros d' x Hx [Hns Hne]%Hset. destruct (ao_undecided0 d' x Hx Hns) as [Hna Hnd]. split.
    + destruct Ha as [Ha|(Hc & -> & _ & y & ->)]; [by eapply cache_le_None|].
      rewrite map_get_set_ne; [done|]. intros Hk. apply Hne. by eapply Huniq.
    + destruct Hd as [Hd|(Hc & -> & _ & y & ->)]; [by eapply cache_le_None|].
      rewrite map_get_set_ne; [done|]. intros Hk. apply Hne. by eapply Huniq.
  - intros k x Hx. destruct Ha as [Ha|(Hc & -> & -> & y & ->)].
    + destruct Hd as [Hd|(Hc & _ & -> & y & ->)]; [eauto using cache_le_None|].
      rewrite map_get_set. case_decide as Hk; [|eauto]. subst k. destruct (ao_undecided0 d e Hc Hs). congruence.
    + rewrite map_get_set in Hx. case_decide as Hk; [|eauto]. subst k. by destruct (ao_undecided0 d e Hc Hs).
Qed.

Section AuthorizerTheory.
Context {P : Platform} (options : FederatedRouteAuthorizerOptions).

Lemma authorizeHop_ok pair now st : authorizer_ok st -> authorizer_ok (authorizeHop pair now st).2.
Proof using Type.
  intros Hok. unfold authorizeHop. set (key := federatedRouteAuthorizationPairKey pair).
  pose proof (isLive_spec (allowedPairs st) key now) as Ha. destruct (isLive (allowedPairs st) key now) as [[|] a]; cbn zeta;
    cbn [snd with_caches allowedPairs deniedPairs].
  { destruct Ha as [-> _]. by apply with_caches_ok. }
  destruct Ha as [Ha Han]. pose proof (isLive_spec (deniedPairs st) key now) as Hd.
  destruct (isLive (deniedPairs st) key now) as [[|] d]; cbn [snd].
  { destruct Hd as [-> _]. apply with_caches_ok; [by apply with_caches_ok|auto..]. }
  destruct Hd as [Hd Hdn].
  set (st2 := with_caches _ d (with_caches a _ st)).
  assert (authorizer_ok st2) as H2 by (apply with_caches_ok; [by apply with_caches_ok|auto..]).
  destruct (map_get key (pendingDecisions st2)) as [p|] eqn:Ep; cbn [snd]; [done|].
  by apply (start_decision_ok st2 {| pd_key := key; pd_question := question pair; pd_generation := generation st; pd_revoked := false |}).
Qed.

Lemma with_caches_same st : with_caches (allowedPairs st) (deniedPairs st) st = st.
Proof using Type. by destruct st. Qed.

Lemma completeDecision_ok d outcome now st : authorizer_ok st -> d ∉ (ra_settled st).*1 ->
  authorizer_ok (completeDecision options d outcome now st).
Proof using Type.
  intros Hok Hs. unfold completeDecision. destruct (ra_decisions st !! d) as [e|] eqn:He; [|done]. cbn zeta.
  assert (forall r, authorizer_ok (if decide (map_get (pd_key e) (pendingDecisions (settle_decision d r st)) = Some d)
    then with_pending (map_delete (pd_key e) (pendingDecisions (settle_decision d r st))) (ra_decisions (settle_decision d r st)) (settle_decision d r st)
    else settle_decision d r st)) as Hplain.
  { intros r. pose proof (settle_ok st d e r (allowedPairs st) (deniedPairs st) Hok He Hs) as H.
    rewrite with_caches_same in H. apply H; left; auto. }
  destruct (v ← outcome; normalizeAuthorizationResult v options now) as [n|x]; [|by apply Hplain].
  destruct (pd_revoked e || negb (pd_generation e =? generation st)) eqn:Ec; [by apply Hplain|].
  bools. apply Z.eqb_eq in H0.
  assert (current st d e) as Hc by done.
  destruct (nr_decision n), (nr_expiresAt n) as [x|]; cbn [insert_expiry]; apply settle_ok; try done;
    solve [left; auto | right; split_and!; eauto].
Qed.

Lemma revokePair_ok pair st : authorizer_ok st -> authorizer_ok (revokePair pair st).2.
Proof using Type.
  intros Hok. unfold revokePair. set (key := federatedRouteAuthorizationPairKey pair). cbn zeta. cbn [snd].
  destruct (map_get key (pendingDecisions st)) as [d|] eqn:Ep; [|by apply with_caches_ok].
  pose proof Hok as []. destruct (ao_pending0 _ _ Ep) as [Hns (e & He & Hk & Hr)].
  assert (forall d' x, alter revoke_entry d (ra_decisions st) !! d' = Some x -> pd_revoked x = false ->
    d' <> d /\ ra_decisions st !! d' = Some x) as Hinv.
  { intros d' x Hx Hxr. destruct (decide (d = d')) as [->|Hne]; [|rewrite list_lookup_alter_ne in Hx by done; auto].
    rewrite list_lookup_alter_eq in Hx. destruct (ra_decisions st !! d') as [y|]; [|done]. injection Hx as <-. done. }
  assert (forall d' x, ra_decisions st !! d' = Some x -> d' <> d -> alter revoke_entry d (ra_decisions st) !! d' = Some x) as Hold
    by (intros d' x Hx Hne; by rewrite list_lookup_alter_ne).
  assert (forall d' x, ra_decisions st !! d' = Some x -> d' ∈ (ra_settled st).*1 ->
    alter revoke_entry d (ra_decisions st) !! d' = Some x) as Hset by (intros d' x Hx Hd; apply Hold; [done|by intros ->]).
  split; try done; cbn [with_caches with_pending pendingDecisions ra_decisions ra_settled allowedPairs deniedPairs generation].
  - by apply map_wf_delete.
  - intros d' x Hx. destruct (decide (d = d')) as [->|Hne]; [|rewrite list_lookup_alter_ne in Hx by done; eauto].
    rewrite list_lookup_alter_eq, He in Hx. injection Hx as <-. cbn. eauto.
  - intros k d'. rewrite map_get_delete. case_decide as Hkk; [done|]. intros Hx.
    destruct (ao_pending0 _ _ Hx) as [Hs (x & Hx' & Hxk & Hxr)]. split; [done|]. exists x. split; [|done].
    apply Hold; [done|]. intros ->. congruence.
  - intros d' x Hx Hs Hxr. destruct (Hinv _ _ Hx Hxr) as [Hne Hx']. rewrite map_get_delete.
    pose proof (ao_single0 _ _ Hx' Hs Hxr) as Hp. case_decide as Hkk; [congruence|done].
  - intros d' Hs. rewrite length_alter. auto.
  - intros k x. rewrite map_get_delete. case_decide; [done|]. intros Hx.
    destruct (ao_allowed0 k x Hx) as (d' & y & [Hy ?] & ? & Hin). exists d', y. split; [|done].
    split; [|done]. apply Hset; [done|]. apply list_elem_of_fmap. by exists (d', Ok true).
  - intros k x. rewrite map_get_delete. case_decide; [done|]. intros Hx.
    destruct (ao_denied0 k x Hx) as (d' & y & [Hy ?] & ? & Hin). exists d', y. split; [|done].
    split; [|done]. apply Hset; [done|]. apply list_elem_of_fmap. by exists (d', Ok false).
  - intros d' x (Hx & Hxr & Hxg) Hs. destruct (Hinv _ _ Hx Hxr) as [Hne Hx'].
    destruct (ao_undecided0 d' x) as [? ?]; [by split_and!|done|]. eauto using cache_le_None.
  - intros k x. rewrite !map_get_delete. case_decide; [done|]. apply ao_exclusive0.
Qed.

Lemma invalidate_ok st : authorizer_ok st -> authorizer_ok (invalidate st).
Proof using Type.
  intros []. split; try done; cbn [invalidate pendingDecisions ra_decisions ra_settled generation allowedPairs deniedPairs].
  intros d e He. specialize (ao_generation0 d e He). lia.
Qed.

Lemma authorizer_step_ok st st' : authorizer_step options st st' -> authorizer_ok st -> authorizer_ok st'.
Proof using Type.
  destruct 1; eauto using authorizeHop_ok, completeDecision_ok, revokePair_ok, invalidate_ok.
Qed.

Lemma authorizer_reachable_ok st : rtc (authorizer_step options) authorizer_init st -> authorizer_ok st.
Proof using Type.
  apply (rtc_ind_r (fun st => authorizer_ok st)); [apply authorizer_init_ok|]. intros y z _ Hs. by apply authorizer_step_ok.
Qed.

(** ** Decisions that can no longer take effect *)
(** [st'] comes later than [st]: decisions are only added, only become stale,
    and a settled one stays settled. *)
Definition stale (st : FederatedRouteAuthorizer) (d : nat) : Prop :=
  exists e, ra_decisions st !! d = Some e /\ (pd_revoked e = true \/ pd_generation e <> generation st).

Record later (st st' : FederatedRouteAuthorizer) : Prop := {
  la_length : (length (ra_decisions st) <= length (ra_decisions st'))%nat;
  la_key : forall d e, ra_decisions st !! d = Some e -> exists e', ra_decisions st' !! d = Some e' /\ pd_key e' = pd_key e;
  la_settled : ra_settled st `prefix_of` ra_settled st';
  la_stale : forall d, stale st d -> stale st' d;
  la_true : forall d, (d, Ok true) ∈ ra_settled st' -> (d, Ok true) ∈ ra_settled st \/ ~ stale st d;
}.

Lemma later_trans st1 st2 st3 : later st1 st2 -> later st2 st3 -> later st1 st3.
Proof using Type.
  intros [] []. split; [lia| |by etrans|auto|].
  - intros d e He. destruct (la_key0 d e He) as (e' & He' & <-). destruct (la_key1 d e' He') as (e2 & ? & ?). eauto.
  - intros d [H|H]%la_true1; [auto|]. right. eauto.
Qed.

(** Only [completeDecision] settles, and it never settles a stale decision [true]. *)
Lemma same_settled_later st st' : (length (ra_decisions st) <= length (ra_decisions st'))%nat ->
  (forall d e, ra_decisions st !! d = Some e -> exists e', ra_decisions st' !! d = Some e' /\ pd_key e' = pd_key e /\
    pd_generation e' = pd_generation e /\ (pd_revoked e = true -> pd_revoked e' = true)) ->
  generation st <= generation st' -> (forall d e, ra_decisions st !! d = Some e -> pd_generation e <= generation st) ->
  ra_settled st' = ra_settled st -> later st st'.
Proof using Type.
  intros Hl He Hg Hb Hs. split; [done| |by rewrite Hs| |].
  - intros d e H. destruct (He d e H) as (e' & ? & ? & _). eauto.
  - intros d (e & H & Hc). destruct (He d e H) as (e' & ? & ? & Hg' & Hr). exists e'. split; [done|].
    destruct Hc as [Hc|Hc]; [auto|right]. specialize (Hb d e H). lia.
  - rewrite Hs. auto.
Qed.

Lemma unchanged_later st st' : authorizer_ok st -> ra_decisions st' = ra_decisions st -> generation st' = generation st ->
  ra_settled st' = ra_settled st -> later st st'.
Proof using Type.
  intros Hok Hd Hg Hs. apply same_settled_later; rewrite ?Hd, ?Hg, ?Hs; [done| |done|apply Hok|done]. eauto.
Qed.

Lemma completeDecision_settles d outcome now st e : ra_decisions st !! d = Some e ->
  exists r, ra_settled (completeDecision options d outcome now st) = ra_settled st ++ [(d, r)] /\
    ra_decisions (completeDecision options d outcome now st) = ra_decisions st /\
    generation (completeDecision options d outcome now st) = generation st /\
    r = match v ← outcome; normalizeAuthorizationResult v options now with
        | Throw error => Throw error
        | Ok n => Ok (negb (pd_revoked e || negb (pd_generation e =? generation st)) && match nr_decision n with allow => true | deny => false end)
        end.
Proof using Type.
  intros He. unfold completeDecision. rewrite He. cbn zeta.
  destruct (v ← outcome; normalizeAuthorizationResult v options now) as [n|x].
  - destruct (pd_revoked e || negb (pd_generation e =? generation st)); [case_decide; eauto|].
    destruct (nr_decision n); case_decide; eauto.
  - case_decide; eauto.
Qed.

Lemma step_later st st' : authorizer_step options st st' -> authorizer_ok st -> later st st'.
Proof using Type.
  intros Hstep Hok. pose proof (ao_generation _ Hok) as Hb. destruct Hstep as [pair now st|d outcome now st Hs|pair st|st].
  - unfold authorizeHop. destruct (isLive (allowedPairs st) (federatedRouteAuthorizationPairKey pair) now) as [[|] a]; cbn zeta;
      [by apply unchanged_later|]. cbn [deniedPairs with_caches].
    destruct (isLive (deniedPairs st) (federatedRouteAuthorizationPairKey pair) now) as [[|] b]; [by apply unchanged_later|].
    destruct (map_get _ _) as [p|]; [by apply unchanged_later|].
    apply same_settled_later; cbn; try done; [rewrite length_app; lia|].
    intros d e He. exists e. split; [|auto]. by apply lookup_app_l_Some.
  - destruct (ra_decisions st !! d) as [e|] eqn:He.
    2: { unfold completeDecision. rewrite He. by apply unchanged_later. }
    destruct (completeDecision_settles d outcome now st e He) as (r & E1 & E2 & E3 & Hr).
    split; rewrite ?E1, ?E2; eauto using prefix_app_r.
    + intros d' (x & Hx & Hc). exists x. rewrite E2, E3. done.
    + intros d'. rewrite elem_of_app, list_elem_of_singleton. intros [H|[= -> Hrt]]; [auto|]. right.
      rewrite Hr in Hrt. intros (x & Hx & Hc). assert (x = e) as -> by congruence.
      destruct (v ← outcome; normalizeAuthorizationResult v options now); [|done]. injection Hrt as Hrt.
      symmetry in Hrt. bools. destruct Hc as [Hc|Hc]; [congruence|]. by apply Z.eqb_eq in H1.
  - unfold revokePair. cbn zeta. cbn [snd].
    destruct (map_get _ _) as [p|]; [|by apply unchanged_later].
    apply same_settled_later; cbn [with_caches with_pending ra_decisions generation ra_settled]; try done; [by rewrite length_alter|].
    intros d e He. destruct (decide (p = d)) as [->|Hne].
    + rewrite list_lookup_alter_eq, He. by exists (revoke_entry e).
    + rewrite list_lookup_alter_ne by done. eauto.
  - apply same_settled_later; cbn; try done; [eauto|lia].
Qed.

Lemma steps_later st st' : rtc (authorizer_step options) st st' -> authorizer_ok st -> later st st' /\ authorizer_ok st'.
Proof using Type.
  induction 1 as [st|st1 st2 st3 Hs _ IH]; intros Hok.
  - split; [|done]. by apply unchanged_later.
  - destruct (IH (authorizer_step_ok _ _ Hs Hok)) as [H1 H2]. split; [|done]. eapply later_trans; [|done]. by apply step_later.
Qed.

(** ** Where cached answers come from *)
Definition cache (b : bool) (st : FederatedRouteAuthorizer) : list (jsstring * jsnum) :=
  if b then allowedPairs st else deniedPairs st.

Lemma step_cache st st' b k x : authorizer_step options st st' -> map_get k (cache b st') = Some x ->
  map_get k (cache b st) = Some x \/
  exists d e, current st d e /\ d ∉ (ra_settled st).*1 /\ pd_key e = k /\ ra_settled st' = ra_settled st ++ [(d, Ok b)].
Proof using Type.
  intros Hstep. destruct Hstep as [pair now st|d outcome now st Hs|pair st|st].
  - intros Hx. left. revert Hx. unfold authorizeHop.
    pose proof (isLive_spec (allowedPairs st) (federatedRouteAuthorizationPairKey pair) now) as Ha.
    destruct (isLive (allowedPairs st) (federatedRouteAuthorizationPairKey pair) now) as [[|] a]; cbn zeta.
    { destruct Ha as [-> _]. by destruct b. }
    cbn [deniedPairs with_caches].
    pose proof (isLive_spec (deniedPairs st) (federatedRouteAuthorizationPairKey pair) now) as Hd.
    destruct (isLive (deniedPairs st) (federatedRouteAuthorizationPairKey pair) now) as [[|] dn].
    { destruct Hd as [-> _], Ha as [Ha _]. destruct b; [exact (Ha k x)|done]. }
    destruct Ha as [Ha _], Hd as [Hd _].
    destruct (map_get (federatedRouteAuthorizationPairKey pair) (pendingDecisions _)) as [p|]; (destruct b; [exact (Ha k x)|exact (Hd k x)]).
  - unfold completeDecision. destruct (ra_decisions st !! d) as [e|] eqn:He; [|by left]. cbn zeta.
    destruct (v ← outcome; normalizeAuthorizationResult v options now) as [n|err]; [|case_decide; left; by destruct b].
    destruct (pd_revoked e || negb (pd_generation e =? generation st)) eqn:Ec; [case_decide; left; by destruct b|].
    bools. apply Z.eqb_eq in H0.
    assert (current st d e) as Hc by done.
    destruct (nr_decision n), (nr_expiresAt n) as [y|], b; case_decide; cbn; try (by left); rewrite map_get_set;
      (case_decide; [subst k; intros _; right; exists d, e; by split_and!|by left]).
  - intros Hx. left. revert Hx. unfold revokePair. cbn zeta. cbn [snd].
    destruct (map_get _ (pendingDecisions st)), b; cbn; exact (cache_le_delete _ _ k x).
  - by destruct b.
Qed.

(** Every decision among the first [n] about the keys of [K] is over or stale. *)
Definition barrier (n : nat) (K : jsstring -> Prop) (st : FederatedRouteAuthorizer) : Prop :=
  (n <= length (ra_decisions st))%nat /\
  forall d e, (d < n)%nat -> ra_decisions st !! d = Some e -> K (pd_key e) -> d ∈ (ra_settled st).*1 \/ stale st d.
Definition fresh_caches (n : nat) (K : jsstring -> Prop) (st : FederatedRouteAuthorizer) : Prop :=
  forall b k x, K k -> map_get k (cache b st) = Some x ->
    exists d e, (n <= d)%nat /\ ra_decisions st !! d = Some e /\ pd_key e = k /\ (d, Ok b) ∈ ra_settled st.

Lemma barrier_later n K st st' : later st st' -> barrier n K st -> barrier n K st'.
Proof using Type.
  intros Hl [Hn Hb]. pose proof Hl as []. split; [lia|]. intros d e Hd He Hk.
  destruct (lookup_lt_is_Some_2 (ra_decisions st) d) as [e0 He0]; [lia|].
  destruct (la_key0 d e0 He0) as (e' & He' & Hkk). assert (e' = e) as -> by congruence. rewrite Hkk in Hk.
  destruct (Hb d e0 Hd He0 Hk) as [Hs|Hs]; [left|right; auto]. destruct la_settled0 as [k ->].
  rewrite fmap_app, elem_of_app. by left.
Qed.

Lemma fresh_caches_step n K st st' : authorizer_ok st -> authorizer_step options st st' -> barrier n K st ->
  fresh_caches n K st -> fresh_caches n K st'.
Proof using Type.
  intros Hok Hstep [Hn Hb] Hf b k x Hk Hx. pose proof (step_later _ _ Hstep Hok) as [].
  destruct (step_cache _ _ _ _ _ Hstep Hx) as [Hx'|(d & e & (He & Her & Heg) & Hs & <- & Hse)].
  - destruct (Hf b k x Hk Hx') as (d & e & Hd & He & <- & Hin). destruct (la_key0 d e He) as (e' & ? & ?).
    exists d, e'. split_and!; try done. destruct la_settled0 as [l ->]. apply elem_of_app. by left.
  - destruct (la_key0 d e He) as (e' & ? & ?). exists d, e'. split_and!; try done.
    + apply Nat.nlt_ge. intros Hlt. destruct (Hb d e Hlt He Hk) as [?|(y & Hy & Hc)]; [done|].
      assert (y = e) as -> by congruence. destruct Hc; congruence.
    + rewrite Hse. apply elem_of_app. right. by left.
Qed.

Lemma barrier_reached n K st st' : authorizer_ok st -> rtc (authorizer_step options) st st' ->
  barrier n K st -> fresh_caches n K st -> authorizer_ok st' /\ barrier n K st' /\ fresh_caches n K st'.
Proof using Type.
  intros Hok Hsteps. revert Hok. induction Hsteps as [st|st1 st2 st3 Hs _ IH]; [done|]. intros Hok Hb Hf.
  apply IH; [by eapply authorizer_step_ok|eapply barrier_later; [by eapply step_later|done]|by eapply fresh_caches_step].
Qed.

Lemma authorizeHop_answered pair now st b st' : authorizeHop pair now st = (answered b, st') ->
  exists x, map_get (federatedRouteAuthorizationPairKey pair) (cache b st) = Some x /\ expired x now = false.
Proof using Type.
  unfold authorizeHop.
  pose proof (isLive_spec (allowedPairs st) (federatedRouteAuthorizationPairKey pair) now) as Ha.
  destruct (isLive (allowedPairs st) (federatedRouteAuthorizationPairKey pair) now) as [[|] a]; cbn zeta.
  { intros [= <- _]. by destruct Ha. }
  cbn [deniedPairs with_caches].
  pose proof (isLive_spec (deniedPairs st) (federatedRouteAuthorizationPairKey pair) now) as Hd.
  destruct (isLive (deniedPairs st) (federatedRouteAuthorizationPairKey pair) now) as [[|] dn].
  { intros [= <- _]. by destruct Hd. }
  by destruct (map_get (federatedRouteAuthorizationPairKey pair) (pendingDecisions _)).
Qed.

Lemma settled_once st d r1 r2 : authorizer_ok st -> (d, r1) ∈ ra_settled st -> (d, r2) ∈ ra_settled st -> r1 = r2.
Proof using Type.
  intros Hok. pose proof (ao_once _ Hok) as Hnd. revert Hnd. generalize (ra_settled st). intros l. induction l as [|[d0 r0] l IH]; cbn;
    [by intros _ ?%elem_of_nil|]. intros [Hni Hnd]%NoDup_cons.
  assert (forall r, (d0, r) ∈ l -> False) as Hno by (intros r Hr; apply Hni; apply list_elem_of_fmap; by exists (d0, r)).
  intros [H1|H1]%elem_of_cons [H2|H2]%elem_of_cons; [congruence|injection H1 as -> ->; by apply Hno in H2|
    injection H2 as -> ->; by apply Hno in H1|auto].
Qed.

Lemma barrier_true n K st st' d e : authorizer_ok st -> rtc (authorizer_step options) st st' -> barrier n K st ->
  (d < n)%nat -> ra_decisions st' !! d = Some e -> K (pd_key e) -> (d, Ok true) ∈ ra_settled st' -> (d, Ok true) ∈ ra_settled st.
Proof using Type.
  intros Hok Hsteps [Hn Hb] Hd He Hk Ht. destruct (steps_later _ _ Hsteps Hok) as [[] Hok'].
  destruct (lookup_lt_is_Some_2 (ra_decisions st) d) as [e0 He0]; [lia|].
  destruct (la_key0 d e0 He0) as (e' & He' & Hkk). assert (e' = e) as -> by congruence. rewrite Hkk in Hk.
  destruct (la_true0 d Ht) as [|Hns]; [done|]. destruct (Hb d e0 Hd He0 Hk) as [Hs|Hs]; [|done].
  apply list_elem_of_fmap in Hs as ([d' r] & Hdd & Hin). cbn in Hdd. subst d'. destruct la_settled0 as [l El].
  assert (r = Ok true) as -> by (apply (settled_once st' d); [done| |done]; rewrite El; apply elem_of_app; by left). done.
Qed.
End AuthorizerTheory.

(** Goals about one cache lookup. *)
Ltac by_cache := first
  [ by rewrite map_get_set_eq
  | by left | by right
  | by intros (? & [=] & _)
  | intros (? & [= <-] & ?); congruence ].

Section AuthorizerClaims.
Context {P : Platform} (options : FederatedRouteAuthorizerOptions).

(** C31: Over every interleaving of questions, answers, revocations and
    invalidations: each decision is settled at most once; at most one decision
    that was not revoked is open per pair, and it is the one later requests
    join; a cached answer was given by a settled decision of that pair which
    is still of the current generation and was not revoked; no pair is cached
    both allowed and denied. *)
Theorem authorizer_invariant st : rtc (authorizer_step options) authorizer_init st ->
  NoDup (ra_settled st).*1 /\
  (forall d e, ra_decisions st !! d = Some e -> d ∉ (ra_settled st).*1 -> pd_revoked e = false ->
     map_get (pd_key e) (pendingDecisions st) = Some d) /\
  (forall b key x, map_get key (cache b st) = Some x ->
     exists d e, current st d e /\ pd_key e = key /\ (d, Ok b) ∈ ra_settled st) /\
  (forall key x y, map_get key (cache true st) = Some x -> map_get key (cache false st) = Some y -> False).
Proof using Type.
  intros Hok%authorizer_reachable_ok. split_and!.
  - apply Hok.
  - apply Hok.
  - intros [|] key x Hx; [by eapply ao_allowed|by eapply ao_denied].
  - intros key x y Hx Hy. cbn in *. pose proof (ao_exclusive _ Hok _ _ Hx). congruence.
Qed.

(** C25: After a pair is revoked, whatever happens next: an answer served for
    that pair without asking comes from a decision started after the
    revocation, and no decision started before it ever becomes an allow. *)
Theorem revokePair_effective pair st st' : rtc (authorizer_step options) authorizer_init st ->
  rtc (authorizer_step options) (revokePair pair st).2 st' ->
  let n := length (ra_decisions st) in
  let key := federatedRouteAuthorizationPairKey pair in
  (forall now b st'', authorizeHop pair now st' = (answered b, st'') ->
     exists d e, (n <= d)%nat /\ ra_decisions st' !! d = Some e /\ pd_key e = key /\ (d, Ok b) ∈ ra_settled st') /\
  (forall d e, (d < n)%nat -> ra_decisions st' !! d = Some e -> pd_key e = key ->
     (d, Ok true) ∈ ra_settled st' -> (d, Ok true) ∈ ra_settled st).
Proof using Type.
  intros Hok%authorizer_reachable_ok Hsteps n key.
  assert (authorizer_ok (revokePair pair st).2) as Hok1 by (by apply revokePair_ok).
  assert (ra_settled (revokePair pair st).2 = ra_settled st) as Hset
    by (unfold revokePair; cbn zeta; cbn [snd]; by destruct (map_get _ (pendingDecisions st))).
  assert (length (ra_decisions (revokePair pair st).2) = n) as Hlen.
  { unfold revokePair; cbn zeta; cbn [snd]. destruct (map_get _ (pendingDecisions st)); [apply length_alter|done]. }
  assert (map_get key (pendingDecisions (revokePair pair st).2) = None) as Hpend.
  { unfold revokePair; cbn zeta; cbn [snd]. destruct (map_get _ (pendingDecisions st)) eqn:E; [|exact E]. cbn.
    rewrite map_get_delete. by rewrite decide_True. }
  assert (barrier n (fun k => k = key) (revokePair pair st).2) as Hb.
  { split; [lia|]. intros d e _ He Hk. destruct (decide (d ∈ (ra_settled (revokePair pair st).2).*1)) as [|Hns]; [by left|right].
    exists e. split; [done|]. left. destruct (pd_revoked e) eqn:Er; [done|].
    pose proof (ao_single _ Hok1 d e He Hns Er) as Hp. rewrite Hk in Hp. congruence. }
  assert (fresh_caches n (fun k => k = key) (revokePair pair st).2) as Hf.
  { intros b k x -> Hx. exfalso. revert Hx. unfold revokePair. cbn zeta. cbn [snd].
    destruct b, (map_get _ (pendingDecisions st)); cbn [cache with_caches allowedPairs deniedPairs with_pending]; rewrite map_get_delete, decide_True; done. }
  split.
  - intros now b st'' Ha. destruct (authorizeHop_answered pair now st' b st'' Ha) as (x & Hx & _).
    destruct (barrier_reached options n _ _ _ Hok1 Hsteps Hb Hf) as (_ & _ & Hf'). by eapply Hf'.
  - intros d e Hd He Hk Ht. rewrite <- Hset. by eapply (barrier_true options n (fun k => k = key)).
Qed.

(** After an invalidation the same holds of every pair: nothing decided or
    asked before it is served from a cache or turns into an allow. *)
Theorem invalidate_effective st st' : rtc (authorizer_step options) authorizer_init st ->
  rtc (authorizer_step options) (invalidate st) st' ->
  let n := length (ra_decisions st) in
  (forall pair now b st'', authorizeHop pair now st' = (answered b, st'') ->
     exists d e, (n <= d)%nat /\ ra_decisions st' !! d = Some e /\
       pd_key e = federatedRouteAuthorizationPairKey pair /\ (d, Ok b) ∈ ra_settled st') /\
  (forall d, (d < n)%nat -> (d, Ok true) ∈ ra_settled st' -> (d, Ok true) ∈ ra_settled st).
Proof using Type.
  intros Hok%authorizer_reachable_ok Hsteps n.
  assert (authorizer_ok (invalidate st)) as Hok1 by (by apply invalidate_ok).
  assert (barrier n (fun _ => True) (invalidate st)) as Hb.
  { split; [done|]. intros d e _ He _. right. exists e. split; [done|]. right. cbn in *.
    pose proof (ao_generation _ Hok d e He). lia. }
  assert (fresh_caches n (fun _ => True) (invalidate st)) as Hf by (by intros [|] k x _).
  split.
  - intros pair now b st'' Ha. destruct (authorizeHop_answered pair now st' b st'' Ha) as (x & Hx & _).
    destruct (barrier_reached options n _ _ _ Hok1 Hsteps Hb Hf) as (_ & _ & Hf'). by eapply Hf'.
  - intros d Hd Ht. destruct (steps_later options _ _ Hsteps Hok1) as [[Hl _ _ _ _] _].
    destruct (lookup_lt_is_Some_2 (ra_decisions st') d) as [e He]; [cbn in Hl; lia|].
    by eapply (barrier_true options n (fun _ => True) (invalidate st)).
Qed.

(** What an answer does.  A callback that throws, or returns something that
    is not a decision, rejects every request that waits and changes no cache;
    an answer to a revoked or outdated question denies and changes no cache; a
    current one settles as it says and is cached under the pair with the
    expiry computed now, unless its lifetime is zero.  The open question is
    closed in every case. *)
Theorem completeDecision_correct st d e outcome now : rtc (authorizer_step options) authorizer_init st ->
  ra_decisions st !! d = Some e -> d ∉ (ra_settled st).*1 ->
  let st' := completeDecision options d outcome now st in
  map_get (pd_key e) (pendingDecisions st') <> Some d /\ ra_decisions st' = ra_decisions st /\
  match v ← outcome; normalizeAuthorizationResult v options now with
  | Throw err => ra_settled st' = ra_settled st ++ [(d, Throw err)] /\ forall b, cache b st' = cache b st
  | Ok r =>
      if pd_revoked e || negb (pd_generation e =? generation st)
      then ra_settled st' = ra_settled st ++ [(d, Ok false)] /\ forall b, cache b st' = cache b st
      else let b := match nr_decision r with allow => true | deny => false end in
           ra_settled st' = ra_settled st ++ [(d, Ok b)] /\
           map_get (pd_key e) (cache b st') = nr_expiresAt r /\ map_get (pd_key e) (cache (negb b) st') = None /\
           forall b' k, k <> pd_key e -> map_get k (cache b' st') = map_get k (cache b' st)
  end.
Proof using Type.
  intros Hok%authorizer_reachable_ok He Hs st'.
  destruct (completeDecision_settles options d outcome now st e He) as (r & E1 & E2 & _ & Hr).
  fold st' in E1, E2. split; [|split; [done|]].
  - intros Hp. assert (authorizer_ok st') as Hok' by (by apply completeDecision_ok).
    destruct (ao_pending _ Hok' _ _ Hp) as [Hns _]. apply Hns. rewrite E1, fmap_app. apply elem_of_app. right. by left.
  - rewrite E1, Hr. clear E1 E2 Hr. subst st'. unfold completeDecision. rewrite He. cbn zeta.
    destruct (v ← outcome; normalizeAuthorizationResult v options now) as [n|err].
    2: { split; [done|]. intros [|]; case_decide; done. }
    destruct (pd_revoked e || negb (pd_generation e =? generation st)) eqn:Ec.
    { split; [done|]. intros [|]; case_decide; done. }
    assert (current st d e) as Hc by (bools; apply Z.eqb_eq in H0; done).
    destruct (ao_undecided _ Hok d e Hc Hs) as [Hna Hnd].
    split; [done|].
    destruct (nr_decision n), (nr_expiresAt n) as [y|]; case_decide; cbn; rewrite ?map_get_set_eq; split_and!; try done;
      intros [|] k Hk; cbn; by rewrite ?map_get_set_ne by done.
Qed.

(** A request for a pair: a live allow or deny answers at once and asks
    nobody; otherwise it joins the open question of the pair, and only when
    there is none is the callback asked, once, about the normalized domains.
    Expired entries are dropped. *)
Theorem authorizeHop_correct st pair now : rtc (authorizer_step options) authorizer_init st ->
  let key := federatedRouteAuthorizationPairKey pair in
  let '(a, st') := authorizeHop pair now st in
  let live b := exists x, map_get key (cache b st) = Some x /\ expired x now = false in
  ra_settled st' = ra_settled st /\
  match a with
  | answered b => live b /\ ra_decisions st' = ra_decisions st
  | awaits d => ~ live true /\ ~ live false /\ map_get key (pendingDecisions st') = Some d /\
      map_get key (cache true st') = None /\ map_get key (cache false st') = None /\
      (map_get key (pendingDecisions st) = Some d /\ ra_decisions st' = ra_decisions st \/
       map_get key (pendingDecisions st) = None /\ ra_decisions st' = ra_decisions st ++
         [{| pd_key := key; pd_question := question pair; pd_generation := generation st; pd_revoked := false |}] /\
       d = length (ra_decisions st))
  end.
Proof using Type.
  intros Hok%authorizer_reachable_ok key. unfold authorizeHop. fold key.
  unfold isLive at 1. destruct (map_get key (allowedPairs st)) as [x|] eqn:Ea.
  - destruct (expired x now) eqn:Ex; cbn zeta; cbn [fst snd].
    2: { split; [done|]. split; [|done]. by exists x. }
    cbn [deniedPairs with_caches]. pose proof (ao_exclusive _ Hok _ _ Ea) as Ed. unfold isLive. rewrite Ed.
    destruct (map_get key (pendingDecisions (with_caches _ _ _))) as [p|] eqn:Ep; cbn in Ep |- *; (split; [done|]);
      rewrite map_get_delete, decide_True, Ea, Ed by done; split_and!; try done; by_cache.
  - cbn zeta. cbn [deniedPairs with_caches]. unfold isLive. destruct (map_get key (deniedPairs st)) as [x|] eqn:Ed.
    + destruct (expired x now) eqn:Ex; cbn zeta; cbn [fst snd].
      2: { split; [done|]. split; [|done]. by exists x. }
      destruct (map_get key (pendingDecisions (with_caches _ _ _))) as [p|] eqn:Ep; cbn in Ep |- *; (split; [done|]);
        rewrite map_get_delete, decide_True, Ea, Ed by done; split_and!; try done; by_cache.
      + destruct (map_get key (pendingDecisions (with_caches _ _ _))) as [p|] eqn:Ep; cbn in Ep |- *; (split; [done|]);
        rewrite Ea, Ed by done; split_and!; try done; by_cache.
  Qed.

Lemma complete_current st d e v r now : authorizer_ok st -> current st d e -> d ∉ (ra_settled st).*1 ->
  normalizeAuthorizationResult v options now = Ok r ->
  let b := match nr_decision r with allow => true | deny => false end in
  let st' := completeDecision options d (Ok v) now st in
  map_get (pd_key e) (cache b st') = nr_expiresAt r /\ map_get (pd_key e) (cache (negb b) st') = None /\
  map_get (pd_key e) (pendingDecisions st') = None /\ ra_decisions st' = ra_decisions st.
Proof using Type.
  intros Hok Hc Hs Hr b st'. pose proof Hc as (He & Hrv & Hg). destruct (ao_undecided _ Hok d e Hc Hs) as [Hna Hnd].
  pose proof (ao_single _ Hok d e He Hs Hrv) as Hp.
  subst b st'. unfold completeDecision. rewrite He. cbn zeta. cbn [mbind result_bind]. rewrite Hr, Hrv, Hg, Z.eqb_refl.
  cbn [orb negb].
  destruct (nr_decision r), (nr_expiresAt r) as [y|]; cbn [settle_decision with_caches pendingDecisions insert_expiry];
    rewrite decide_True by done;
    cbn [with_pending cache settle_decision with_caches pendingDecisions allowedPairs deniedPairs ra_decisions negb];
    rewrite ?map_get_set_eq, ?map_get_delete, ?decide_True by done; done.
Qed.

(** How long an answer lasts.  An answer to a current question serves every
    later request for the pair until its expiry, and from then on (or at once,
    when its lifetime is zero) the next request asks the callback again. *)
Theorem answer_lifetime st d e v r now pair t : rtc (authorizer_step options) authorizer_init st ->
  current st d e -> d ∉ (ra_settled st).*1 -> federatedRouteAuthorizationPairKey pair = pd_key e ->
  normalizeAuthorizationResult v options now = Ok r ->
  (authorizeHop pair t (completeDecision options d (Ok v) now st)).1 =
  match nr_expiresAt r with
  | Some x => if expired x t then awaits (length (ra_decisions st))
              else answered (match nr_decision r with allow => true | deny => false end)
  | None => awaits (length (ra_decisions st))
  end.
Proof using Type.
  intros Hok%authorizer_reachable_ok Hc Hs Hk Hr.
  destruct (complete_current st d e v r now Hok Hc Hs Hr) as (H1 & H2 & H3 & H4). rewrite <- Hk in H1, H2, H3.
  set (st' := completeDecision options d (Ok v) now st) in *. unfold authorizeHop.
  destruct (nr_decision r); cbn [cache negb] in H1, H2; unfold isLive; rewrite ?H1, ?H2; cbn zeta; cbn [deniedPairs with_caches];
    rewrite ?H1, ?H2; destruct (nr_expiresAt r) as [x|]; try (destruct (expired x t)); cbn [fst with_caches pendingDecisions];
    rewrite ?H1, ?H2, ?H3; cbn [fst with_caches ra_decisions]; by rewrite ?H4.
Qed.
End AuthorizerClaims.

(** ** Lifetimes *)
Lemma add_ms_safe now z : 0 <= now + z <= max_safe -> add_ms now z = num_int (now + z).
Proof. apply round_ratio_safe. Qed.

Lemma add_ms_unsafe now z : 0 <= now <= max_safe -> 0 <= z <= max_safe -> max_safe < now + z ->
  is_safe_integer (add_ms now z) = false.
Proof.
  unfold add_ms, max_safe. intros H1 H2 H3. set (n := now + z) in *.
  assert (2 ^ 53 <= n < 2 ^ 54) as Hn by lia. clearbody n. clear -Hn.
  assert (Z.log2 n = 53) as Hl by (apply Z.log2_unique; lia).
  unfold round_ratio. rewrite (proj2 (Z.eqb_neq n 0)) by lia. rewrite Hl. cbn [Z.log2 Z.sub Z.leb Z.compare].
  change (53 - 0) with 53. change (0 <=? 53) with true. cbv iota.
  rewrite (proj2 (Z.ltb_ge n (1 * 2 ^ 53))) by lia. change (Z.max (53 - 52) (-1074)) with 1. change (0 <=? 1) with true. cbv iota zeta.
  set (q' := if (1 * 2 ^ 1 <? 2 * (n mod (1 * 2 ^ 1))) || (2 * (n mod (1 * 2 ^ 1)) =? 1 * 2 ^ 1) && Z.odd (n / (1 * 2 ^ 1))
    then n / (1 * 2 ^ 1) + 1 else n / (1 * 2 ^ 1)).
  assert (2 ^ 52 <= q' <= 2 ^ 53) as Hq.
  { subst q'. change (1 * 2 ^ 1) with 2. assert (2 ^ 52 <= n / 2 < 2 ^ 53) by (split; [apply Z.div_le_lower_bound|apply Z.div_lt_upper_bound]; lia).
    destruct (_ || _); lia. }
  rewrite (proj2 (Z.leb_gt _ _)); [|change (2 ^ 1) with 2; nia].
  unfold norm_dyadic. change (0 <=? 1) with true. cbv iota. unfold is_safe_integer, max_safe. apply Z.leb_gt. lia.
Qed.

Definition decision_name (d : route_decision) : jsstring := match d with allow => js "allow" | deny => js "deny" end.
Definition decision_object (d : route_decision) (ttl : jsval) : jsval :=
  JObj [(js "decision", JStr (decision_name d)); (js "cacheTtlMs", ttl)].

(** Normalization of a callback's result.  A bare decision lasts the
    lifetime configured for its class; [0] disables caching, a positive safe
    integer whose sum with the clock is safe sets the expiry to that sum,
    infinity never expires, and every other lifetime, a sum that is not safe
    included, is rejected; so is anything that is not a decision. *)
Theorem normalizeAuthorizationResult_correct options now : 0 <= now <= max_safe ->
  0 <= allowTtlMs options -> 0 <= denyTtlMs options -> now + allowTtlMs options <= max_safe -> now + denyTtlMs options <= max_safe ->
  (forall d, let ttl := match d with allow => allowTtlMs options | deny => denyTtlMs options end in
    normalizeAuthorizationResult (JStr (decision_name d)) options now =
      Ok {| nr_decision := d; nr_expiresAt := if ttl =? 0 then None else Some (num_int (now + ttl)) |} /\
    normalizeAuthorizationResult (decision_object d JUndef) options now = normalizeAuthorizationResult (JStr (decision_name d)) options now) /\
    (forall d z, match normalizeAuthorizationResult (decision_object d (JNum (num_int z))) options now with
    | Ok r => 0 <= z /\ now + z <= max_safe /\ nr_decision r = d /\ nr_expiresAt r = if z =? 0 then None else Some (num_int (now + z))
    | Throw _ => z < 0 \/ max_safe < now + z
    end) /\
    (forall d, normalizeAuthorizationResult (decision_object d (JNum (num_inf false))) options now =
    Ok {| nr_decision := d; nr_expiresAt := Some (num_inf false) |}) /\
    (forall v, decision_of v = None -> (forall o, v = JObj o -> decision_of (prop (js "decision") o) = None) ->
    exists c, normalizeAuthorizationResult v options now = Throw (invalid_decision c)) /\
    (forall e t, expired (num_int e) t = (e <=? t)) /\ (forall t, expired (num_inf false) t = false).
Proof.
  intros Hn Ha Hd Has Hds. split_and!; try done.
  - intros d ttl. assert (class_expiry d options now = if ttl =? 0 then None else Some (num_int (now + ttl))) as E.
    { unfold class_expiry. fold ttl. destruct (ttl =? 0); [done|]. rewrite add_ms_safe; [done|]. destruct d; unfold ttl; lia. }
    rewrite <- E. by destruct d.
  - intros d z. assert (normalizeAuthorizationResult (decision_object d (JNum (num_int z))) options now =
      (override ← override_expiry (JNum (num_int z)) now;
       Ok {| nr_decision := d; nr_expiresAt := match override with Some e => e | None => class_expiry d options now end |})) as ->
      by (by destruct d).
    cbn [override_expiry is_safe_integer]. destruct (Z.leb_spec (Z.abs z) max_safe) as [Hz|Hz]; cbn [negb orb].
    2: { cbn. destruct (Z.ltb_spec z 0); [by left|]. right. lia. }
    destruct (Z.ltb_spec z 0); [by left|]. destruct (Z.eqb_spec z 0) as [->|Hz0]; [cbn; split_and!; [lia|lia|done|done]|].
    destruct (Z.le_gt_cases (now + z) max_safe) as [Hs|Hs].
    + rewrite add_ms_safe by lia. cbn [is_safe_integer]. rewrite (proj2 (Z.leb_le _ _)) by lia. cbn. by split_and!.
    + rewrite add_ms_unsafe by lia. cbn. right. done.
  - intros d. by destruct d.
  - intros v Hv Ho. unfold normalizeAuthorizationResult. rewrite Hv. destruct v; eauto. rewrite (Ho _ eq_refl). eauto.
Qed.

Section AuthorizerFindings.
Context {P : Platform} (options : FederatedRouteAuthorizerOptions).

(** A request made after an invalidation while a question for its pair is
    still open asks nothing: it joins the outdated question, and is refused
    (or fails) whatever the callback answers, an allow included. *)
Theorem outdated_question_denies st d e pair t outcome now : rtc (authorizer_step options) authorizer_init st ->
  current st d e -> d ∉ (ra_settled st).*1 -> federatedRouteAuthorizationPairKey pair = pd_key e ->
  let '(a, st') := authorizeHop pair t (invalidate st) in
  a = awaits d /\ ra_decisions st' = ra_decisions st /\
  (d, Ok true) ∉ ra_settled (completeDecision options d outcome now st') /\
  (forall r, normalizeAuthorizationResult r options now = Ok {| nr_decision := allow; nr_expiresAt := None |} ->
     (d, Ok false) ∈ ra_settled (completeDecision options d (Ok r) now st')).
Proof using Type.
  intros Hok%authorizer_reachable_ok (He & Hrv & Hg) Hs Hk.
  assert (authorizeHop pair t (invalidate st) = (awaits d, invalidate st)) as ->.
  { unfold authorizeHop. cbn [invalidate allowedPairs deniedPairs isLive map_get with_caches pendingDecisions].
    rewrite Hk, (ao_single _ Hok d e He Hs Hrv). done. }
  split_and!; [done..| |].
  - destruct (completeDecision_settles options d outcome now (invalidate st) e He) as (r & -> & _ & _ & Hr).
    cbn [invalidate ra_settled generation] in *. rewrite elem_of_app, list_elem_of_singleton. intros [H|[= H]].
    + apply Hs. apply list_elem_of_fmap. by exists (d, Ok true).
    + rewrite Hr in H. destruct (v ← outcome; normalizeAuthorizationResult v options now); [|done]. injection H as H.
      rewrite Hg, (proj2 (Z.eqb_neq _ _)), orb_true_r in H by lia. done.
  - intros v Hv. destruct (completeDecision_settles options d (Ok v) now (invalidate st) e He) as (r & -> & _ & _ & Hr).
    apply elem_of_app. right. rewrite Hr. cbn [mbind result_bind]. rewrite Hv. cbn [generation invalidate nr_decision].
    rewrite Hg, (proj2 (Z.eqb_neq _ _)), orb_true_r by lia. by left.
Qed.

(** The key joins the domains with a NUL, which a domain that no URL parser
    accepts keeps: two different pairs can share a cached decision. *)
Lemma pair_key_collision : (forall s, url_hostname s = None) -> exists p q,
  question p <> question q /\ federatedRouteAuthorizationPairKey p = federatedRouteAuthorizationPairKey q.
Proof using Type.
  intros Hn. exists {| previousAdvertisedDomain := js "a" ++ [0] ++ js "b"; nextSelectedDomain := js "c" |},
    {| previousAdvertisedDomain := js "a"; nextSelectedDomain := js "b" ++ [0] ++ js "c" |}.
  unfold question, federatedRouteAuthorizationPairKey, normalizeVerserRouteDomain. cbn [previousAdvertisedDomain nextSelectedDomain].
  rewrite !Hn. split; [|done]. vm_compute. done.
Qed.
End AuthorizerFindings.

(** ** A concrete run *)
Definition sample_options : FederatedRouteAuthorizerOptions := {| allowTtlMs := 60000; denyTtlMs := 6000 |}.
Definition sample_pair : VerserFederatedRouteAuthorizationPair := {| previousAdvertisedDomain := js "A.example"; nextSelectedDomain := js "b.example" |}.
Definition sample_asked `{Platform} : FederatedRouteAuthorizer := (authorizeHop sample_pair 5 authorizer_init).2.
Definition sample_allowed `{Platform} : FederatedRouteAuthorizer := completeDecision sample_options 0 (Ok (JStr (js "allow"))) 10 sample_asked.
Definition sample_entry `{Platform} : PendingDecision :=
  {| pd_key := federatedRouteAuthorizationPairKey sample_pair; pd_question := question sample_pair; pd_generation := 0; pd_revoked := false |}.

Section Witnesses.
#[local] Existing Instance ascii_platform.

Lemma sample_asked_reachable : rtc (authorizer_step sample_options) authorizer_init sample_asked.
Proof. apply rtc_once. apply (step_authorize sample_options sample_pair 5). Qed.
Lemma sample_allowed_reachable : rtc (authorizer_step sample_options) authorizer_init sample_allowed.
Proof.
  refine (rtc_r _ _ _ sample_asked_reachable (step_complete _ 0 (Ok (JStr (js "allow"))) 10 sample_asked _)). vm_compute. by intros ?%elem_of_nil.
Qed.
Lemma sample_current : current sample_asked 0 sample_entry.
Proof. by vm_compute. Qed.
Lemma sample_unsettled : 0%nat ∉ (ra_settled sample_asked).*1.
Proof. vm_compute. by intros ?%elem_of_nil. Qed.

Lemma authorizer_invariant_witness : rtc (authorizer_step sample_options) authorizer_init sample_allowed /\ NoDup (ra_settled sample_allowed).*1.
Proof. split; [apply sample_allowed_reachable|]. destruct (authorizer_invariant sample_options sample_allowed sample_allowed_reachable) as (H & _). exact H. Defined.

Lemma revokePair_effective_witness : rtc (authorizer_step sample_options) (revokePair sample_pair sample_asked).2 (revokePair sample_pair sample_asked).2 /\
  forall now b st'', authorizeHop sample_pair now (revokePair sample_pair sample_asked).2 = (answered b, st'') ->
    exists d e, (1 <= d)%nat /\ ra_decisions (revokePair sample_pair sample_asked).2 !! d = Some e /\
      pd_key e = federatedRouteAuthorizationPairKey sample_pair /\ (d, Ok b) ∈ ra_settled (revokePair sample_pair sample_asked).2.
Proof.
  split; [apply rtc_refl|].
  destruct (revokePair_effective sample_options sample_pair sample_asked (revokePair sample_pair sample_asked).2 sample_asked_reachable (rtc_refl _ _)) as (H & _).
  exact H.
Defined.

Lemma invalidate_effective_witness : rtc (authorizer_step sample_options) (invalidate sample_allowed) (invalidate sample_allowed) /\
  forall d, (d < length (ra_decisions sample_allowed))%nat -> (d, Ok true) ∈ ra_settled (invalidate sample_allowed) -> (d, Ok true) ∈ ra_settled sample_allowed.
Proof.
  split; [apply rtc_refl|].
  destruct (invalidate_effective sample_options sample_allowed (invalidate sample_allowed) sample_allowed_reachable (rtc_refl _ _)) as (_ & H).
  exact H.
Defined.

Lemma completeDecision_correct_witness : current sample_asked 0 sample_entry /\ map_get (pd_key sample_entry) (pendingDecisions sample_allowed) <> Some 0%nat.
Proof.
  split; [apply sample_current|].
  destruct (completeDecision_correct sample_options sample_asked 0 sample_entry (Ok (JStr (js "allow"))) 10 sample_asked_reachable
    (proj1 sample_current) sample_unsettled) as (H & _). exact H.
Defined.

Lemma authorizeHop_correct_witness : rtc (authorizer_step sample_options) authorizer_init sample_allowed /\
  ra_settled (authorizeHop sample_pair 20 sample_allowed).2 = ra_settled sample_allowed.
Proof.
  split; [apply sample_allowed_reachable|].
  pose proof (authorizeHop_correct sample_options sample_allowed sample_pair 20 sample_allowed_reachable) as H. cbn zeta in H.
  destruct (authorizeHop sample_pair 20 sample_allowed) as [a st']. destruct H as [H _]. exact H.
Defined.

Lemma answer_lifetime_witness :
  normalizeAuthorizationResult (JStr (js "allow")) sample_options 10 = Ok {| nr_decision := allow; nr_expiresAt := Some (num_int 60010) |} /\
  (authorizeHop sample_pair 60009 sample_allowed).1 = answered true /\ (authorizeHop sample_pair 60010 sample_allowed).1 = awaits 1.
Proof.
  assert (normalizeAuthorizationResult (JStr (js "allow")) sample_options 10 = Ok {| nr_decision := allow; nr_expiresAt := Some (num_int 60010) |}) as E
    by (vm_compute; reflexivity).
  split; [exact E|]. split.
  - exact (answer_lifetime sample_options sample_asked 0 sample_entry _ _ 10 sample_pair 60009 sample_asked_reachable sample_current sample_unsettled eq_refl E).
  - exact (answer_lifetime sample_options sample_asked 0 sample_entry _ _ 10 sample_pair 60010 sample_asked_reachable sample_current sample_unsettled eq_refl E).
Defined.

Lemma normalizeAuthorizationResult_correct_witness : 0 <= 10 <= max_safe /\
  normalizeAuthorizationResult (decision_object deny (JNum (num_inf false))) sample_options 10 = Ok {| nr_decision := deny; nr_expiresAt := Some (num_inf false) |}.
Proof.
  split; [by unfold max_safe; lia|].
  refine (proj1 (proj2 (proj2 (normalizeAuthorizationResult_correct sample_options 10 _ _ _ _ _))) deny); vm_compute; done.
Defined.

Lemma outdated_question_denies_witness : current sample_asked 0 sample_entry /\
  (authorizeHop sample_pair 30 (invalidate sample_asked)).1 = awaits 0.
Proof.
  split; [apply sample_current|].
  pose proof (outdated_question_denies sample_options sample_asked 0 sample_entry sample_pair 30 (Ok (JStr (js "allow"))) 40
    sample_asked_reachable sample_current sample_unsettled eq_refl) as H.
  destruct (authorizeHop sample_pair 30 (invalidate sample_asked)) as [a st']. destruct H as [H _]. exact H.
Defined.
End Witnesses.
