(* ===== verification/FederationHost.v ===== *)
(** Host-to-host links (verser2-host [federation.ts], [utils.ts], [http2-io.ts]):
    the handshake, the opening of federation streams, the VWS negotiation, and
    the handling of the control frames a route stream carries. *)
From S2P Require Import Prelude JsNum Utf8 Json Errors Headers ResponseMetadata Routing FederationCommon Vws Ndjson.

Definition UPSTREAM_HANDSHAKE_TIMEOUT_MS : Z := 1000.
Definition FEDERATION_DISPATCH_REQUEST_PATH : jsstring := js "/verser/host/federation/dispatch-request".

(** Incoming HTTP/2 headers, as the object Node gives. *)
Definition IncomingHttpHeaders : Type := list (jsstring * jsval).
Definition status_code (headers : IncomingHttpHeaders) : jsnum :=
  to_number (nullish (prop (js ":status") headers) (JNum (num_int 0))).
Definition status_ok (statusCode : jsnum) : bool := negb (num_ltz statusCode 200) && num_ltz statusCode 300.

(** ** Waiting for an answer

    A promise together with what settling it did to the stream.  Settling
    removes every listener, so later events find none. *)
Inductive handshake_event : Type :=
  | hs_timeout | hs_response (headers : IncomingHttpHeaders) | hs_error (message : jsstring) | hs_aborted | hs_close.
Record waiting (A : Type) := { w_result : option (result exn A); w_cancelled : bool }.
#[global] Arguments w_result {A} _.
#[global] Arguments w_cancelled {A} _.
#[global] Arguments Build_waiting {A} _ _.
Definition waiting_init {A} : waiting A := {| w_result := None; w_cancelled := false |}.
Definition settled_with {A} (r : result exn A) (cancelled : bool) : waiting A := {| w_result := Some r; w_cancelled := cancelled |}.

Definition upstream_unavailable_error (message : string) (upstreamId : jsstring) (more : VerserErrorContext) : exn :=
  verr upstream_unavailable message ((js "upstreamId", JStr upstreamId) :: more).
#[global] Arguments upstream_unavailable_error message%_string _ _.

Definition handshake_step (upstreamId : jsstring) (st : waiting IncomingHttpHeaders) (e : handshake_event) : waiting IncomingHttpHeaders :=
  match w_result st with
  | Some _ => st
  | None =>
      match e with
      | hs_timeout => settled_with (Throw (upstream_unavailable_error "Upstream federation handshake timed out" upstreamId [])) true
      | hs_response headers => settled_with (Ok headers) false
      | hs_error m => settled_with (Throw (upstream_unavailable_error "Upstream federation handshake failed" upstreamId [(js "cause", JStr m)])) false
      | hs_aborted => settled_with (Throw (upstream_unavailable_error "Upstream federation handshake was aborted" upstreamId [])) false
      | hs_close => settled_with (Throw (upstream_unavailable_error "Upstream federation handshake closed early" upstreamId [])) false
      end
  end.
Definition waitForUpstreamHandshakeResponse (upstreamId : jsstring) (evs : list handshake_event) : waiting IncomingHttpHeaders :=
  fold_left (handshake_step upstreamId) evs waiting_init.

(** [None] is the timer, [Some r] the promise settling. *)
Definition handshake_timeout_step {A} (upstreamId : jsstring) (st : waiting A) (e : option (result exn A)) : waiting A :=
  match w_result st, e with
  | Some _, _ => st
  | None, None => settled_with (Throw (upstream_unavailable_error "Upstream federation handshake timed out" upstreamId [])) true
  | None, Some r => settled_with r false
  end.
Definition withUpstreamHandshakeTimeout {A} (upstreamId : jsstring) (evs : list (option (result exn A))) : waiting A :=
  fold_left (handshake_timeout_step upstreamId) evs waiting_init.

(** ** The handshake *)
Definition getUpstreamRejectionReason (body : jsstring) : jsval :=
  let rejected := JStr (js "Upstream Host federation rejected") in
  match json_parse body ≫= (fun parsed => js_member (js "reason") parsed ≫= fun reason => Some (parsed, reason)) with
  | Some (parsed, reason) =>
      let error := js_opt_member (js "error") parsed in
      nullish reason (nullish (js_opt_member (js "message") error) (nullish (js_opt_member (js "status") parsed) rejected))
  | None => match trim body with [] => rejected | t => JStr t end
  end.

Section Handshake.
Context {P : Platform}.

Definition getUpstreamHandshakeHostId (body upstreamId : jsstring) : result exn jsstring :=
  let invalid cause := Throw (verr protocol_error "Upstream federation response has invalid Host ID"
                                [(js "upstreamId", JStr upstreamId); (js "cause", JStr (getErrorMessage cause))]) in
  let missing := Throw (verr protocol_error "Upstream federation response missing Host ID" [(js "upstreamId", JStr upstreamId)]) in
  match json_parse body with
  | None => invalid (EngineErr SyntaxError body)
  | Some parsed =>
      match js_member (js "hostId") parsed with
      | None => invalid (EngineErr TypeError body)
      | Some (JStr hostId) => catch (createVerserHostId (JStr hostId)) invalid
      | Some _ => missing
      end
  end.

(** The object [JSON.stringify] writes: members that are [undefined] are dropped. *)
Definition handshake_json (h : VerserHostFederationHandshake) : jsval :=
  JObj ([(js "type", JStr (js "verser-host-federation-handshake")); (js "protocolVersion", JNum (num_int (hs_protocolVersion h)));
         (js "hostId", JStr (hs_hostId h))] ++
        match hs_maxHopCount h with Some z => [(js "maxHopCount", JNum (num_int z))] | None => [] end ++
        match hs_importRoutes h with Some b => [(js "importRoutes", JBool b)] | None => [] end ++
        match hs_exportRoutes h with Some b => [(js "exportRoutes", JBool b)] | None => [] end).

(** What [sendUpstreamHandshake] writes, and what it makes of the answer. *)
Definition upstream_handshake_request (localHostId : jsstring) (maxHopCount : option jsnum) : result exn jsstring :=
  h ← createVerserHostFederationHandshake
    (JObj [(js "hostId", JStr localHostId); (js "protocolVersion", JNum (num_int 1));
           (js "maxHopCount", match maxHopCount with Some n => JNum n | None => JUndef end);
           (js "importRoutes", JBool true); (js "exportRoutes", JBool true)]);
  Ok (json_text (handshake_json h)).
Definition upstream_handshake_outcome (upstreamId : jsstring) (headers : IncomingHttpHeaders) (body : jsstring) : result exn jsstring :=
  let statusCode := status_code headers in
  if status_ok statusCode then getUpstreamHandshakeHostId body upstreamId
  else Throw (verr_js authorization_denied (to_str (getUpstreamRejectionReason body))
                [(js "upstreamId", JStr upstreamId); (js "statusCode", JNum statusCode)]).
(** The answer and the body arrive together ([Promise.all]); [evs] are the
    timer and that promise. *)
Definition sendUpstreamHandshake (upstreamId localHostId : jsstring) (maxHopCount : option jsnum)
    (evs : list (option (result exn (IncomingHttpHeaders * jsstring)))) : waiting jsstring :=
  match upstream_handshake_request localHostId maxHopCount with
  | Throw e => settled_with (Throw e) false
  | Ok _ =>
      let w := withUpstreamHandshakeTimeout upstreamId evs in
      {| w_result := (fun r => p ← r; upstream_handshake_outcome upstreamId p.1 p.2) <$> w_result w; w_cancelled := w_cancelled w |}
  end.
End Handshake.

(** ** Opening federation streams: the request headers, and the check of the answer *)
Definition stream_request (path localHostId : jsstring) (more : HeaderRecord) : HeaderRecord :=
  [(js ":method", js "POST"); (js ":path", path)] ++ more ++ [(js "x-verser-host-id", localHostId)].
(** The stream is cancelled when the answer is not a success. *)
Definition open_outcome (rejected : jsnum -> exn) (w : waiting IncomingHttpHeaders) : waiting unit :=
  match w_result w with
  | None => {| w_result := None; w_cancelled := w_cancelled w |}
  | Some (Throw e) => settled_with (Throw e) (w_cancelled w)
  | Some (Ok headers) =>
      let statusCode := status_code headers in
      if num_ltz statusCode 200 || negb (num_ltz statusCode 300) && match statusCode with num_nan => false | _ => true end
      then settled_with (Throw (rejected statusCode)) true
      else settled_with (Ok tt) (w_cancelled w)
  end.
Definition rejected_stream (message : string) (upstreamId : jsstring) (more : VerserErrorContext) (statusCode : jsnum) : exn :=
  verr upstream_unavailable message (obj_spread [(js "upstreamId", JStr upstreamId); (js "statusCode", JNum statusCode)] more).
#[global] Arguments rejected_stream message%_string _ _ _.

Definition openUpstreamRouteStream (upstreamId localHostId : jsstring) (evs : list handshake_event) : HeaderRecord * waiting unit :=
  (stream_request (js "/verser/host/federation/routes") localHostId [],
   open_outcome (rejected_stream "Upstream federation route stream rejected" upstreamId []) (waitForUpstreamHandshakeResponse upstreamId evs)).

Definition openUpstreamRequestStream (upstreamId localHostId : jsstring) (pool : option jsval) (evs : list handshake_event) : HeaderRecord * waiting unit :=
  (stream_request (js "/verser/host/federation/request") localHostId
     match pool with Some v => [(js "x-verser-upstream-pool", json_text v)] | None => [] end,
   open_outcome (rejected_stream "Upstream federation request stream rejected" upstreamId []) (waitForUpstreamHandshakeResponse upstreamId evs)).

Inductive vws_mode : Type := mode_open | mode_acquire.
Definition openUpstreamFederationVwsStream (upstreamId localHostId : jsstring) (mode : vws_mode) (evs : list handshake_event) : HeaderRecord * waiting unit :=
  (stream_request FEDERATION_VWS_PATH localHostId
     ([(js "content-type", js "application/x-ndjson"); (js "x-verser-federation-vws-version", num_to_string (num_int FEDERATION_VWS_VERSION))] ++
      match mode with mode_acquire => [(js "x-verser-federation-vws-mode", js "acquire")] | mode_open => [] end),
   open_outcome (fun statusCode =>
       verr (if num_eqb statusCode (num_int 403) then authorization_denied else websocket_negotiation_failed)
         "Upstream federation VWS stream rejected" [(js "upstreamId", JStr upstreamId); (js "statusCode", JNum statusCode)])
     (waitForUpstreamHandshakeResponse upstreamId evs)).

Definition openUpstreamDispatchRequestStream (upstreamId localHostId : jsstring) (extraContext : VerserErrorContext) (evs : list handshake_event)
    : HeaderRecord * waiting unit :=
  (stream_request FEDERATION_DISPATCH_REQUEST_PATH localHostId [],
   open_outcome (rejected_stream "Upstream federation dispatch request stream rejected" upstreamId extraContext)
     (waitForUpstreamHandshakeResponse upstreamId evs)).

(** ** The VWS negotiation *)
(** An error of this host, or the one the peer's error frame describes: its
    code is whatever the peer sent. *)
Inductive negotiation_failure : Type :=
  | own_error (e : exn)
  | peer_error (code : jsval) (message : jsval) (context : VerserErrorContext).

Inductive negotiation_event : Type := ne_abort | ne_timeout | ne_line (line : result exn jsstring).

Section Negotiation.
Context {P : Platform}.

Definition closing_code (e : exn) : option Z := match e with ClosingErr _ c => Some c | _ => None end.

Definition negotiation_step (context : VerserErrorContext) (st : waiting jsstring) (e : negotiation_event) : waiting jsstring :=
  match w_result st with
  | Some _ => st
  | None =>
      match e with
      | ne_abort => settled_with (Throw (verr stream_failure "Federation VWS negotiation was cancelled" context)) true
      | ne_timeout => settled_with (Throw (createFederationVwsNegotiationFailure context)) true
      | ne_line (Ok line) => settled_with (Ok line) false
      | ne_line (Throw error) =>
          if bool_decide (closing_code error = Some 1009)
          then settled_with (Throw (verr_js protocol_error (getErrorMessage error)
                                      (obj_set (js "cause") (JStr (getErrorMessage error)) context))) false
          else settled_with (Throw (createFederationVwsNegotiationFailure context)) false
      end
  end.

Definition negotiation_outcome (context : VerserErrorContext) (response : jsstring) : result negotiation_failure jsval :=
  match decodeVwsFrame response with
  | Throw error => Throw (own_error (verr_js protocol_error (getErrorMessage error) context))
  | Ok frame =>
      let version := js_opt_member (js "version") frame in
      if negb (match version with JNum n => num_eqb n (num_int FEDERATION_VWS_VERSION) | _ => false end)
      then Throw (own_error (verr protocol_error "Federation VWS protocol version mismatch"
             (obj_set (js "version") (match version with JNum n => JNum n | _ => JUndef end) context)))
      else
        let type := js_opt_member (js "type") frame in
        if is_str (js "error") type
        then Throw (peer_error (nullish (js_opt_member (js "code") frame) (JStr (js "protocol-error"))) (js_opt_member (js "message") frame) context)
        else if negb (is_str (js "accept") type)
        then Throw (own_error (verr protocol_error "Expected federation VWS accept response" context))
        else Ok (js_opt_member (js "protocol") frame)
  end.

Definition readFederationVwsNegotiation (context : VerserErrorContext) (evs : list negotiation_event)
    : option (result negotiation_failure jsval) * bool :=
  let w := fold_left (negotiation_step context) evs waiting_init in
  ((fun r => match r with Ok line => negotiation_outcome context line | Throw e => Throw (own_error e) end) <$> w_result w, w_cancelled w).
End Negotiation.

(** ** [utils.ts], [http2-io.ts] *)
Section HostUtils.
Context {P : Platform}.
Definition host_toVerserError (error : exn) : VerserError :=
  match error with VerserErr e => e | _ => createVerserError protocol_error (getErrorMessage error) [] end.

(** A server stream, as far as these helpers see it. *)
Record server_stream := { ss_gone : bool; ss_headersSent : option Z; ss_written : bytes; ss_ended : bool }.
Definition respond (status : Z) (st : server_stream) : server_stream :=
  match ss_headersSent st with
  | Some _ => st
  | None => {| ss_gone := ss_gone st; ss_headersSent := Some status; ss_written := ss_written st; ss_ended := ss_ended st |}
  end.
Definition write (data : bytes) (fin : bool) (st : server_stream) : server_stream :=
  {| ss_gone := ss_gone st; ss_headersSent := ss_headersSent st; ss_written := ss_written st ++ data; ss_ended := fin || ss_ended st |}.
Definition writeJsonLine (value : jsval) (st : server_stream) : server_stream := write (encodeJsonLine value) false (respond 200 st).
Definition sendError (error : VerserError) (st : server_stream) : server_stream :=
  if ss_gone st then st else write (utf8_encode (json_text (toVerserHttpErrorResponse error))) true (respond 502 st).
End HostUtils.

(** ** Control frames of a route stream *)
(** Equality of a [Set] (SameValueZero) on values that JSON produced: two
    objects are never the same. *)
Definition same_value (v w : jsval) : bool :=
  match v, w with
  | JStr a, JStr b => str_eqb a b
  | JNum a, JNum b => bool_decide (a = b)
  | JBool a, JBool b => Bool.eqb a b
  | JNull, JNull | JUndef, JUndef => true
  | _, _ => false
  end.
Definition seen_has (v : jsval) (seen : list jsval) : bool := existsb (same_value v) seen.
Definition SEEN_LIMIT : Z := 10000.
(** The bounded set: it is cleared when it has reached the limit. *)
Definition seen_add (v : jsval) (seen : list jsval) : list jsval :=
  let seen := if SEEN_LIMIT <=? len seen then [] else seen in
  if seen_has v seen then seen else seen ++ [v].

(** What the handler needs of its host: the set of ids it has seen, and the
    callbacks, each of which may throw. *)
Class FederatedRouteFrameCallbacks (S : Type) := {
  seenFederationLifecycleEventIds : S -> list jsval;
  set_seen : list jsval -> S -> S;
  cb_setImportedRoutes : jsstring -> list jsval -> S -> option exn * S;
  cb_advertiseRouteLifecycleEvents : list jsval -> bool -> S -> option exn * S;
  cb_forwardLifecycleEventsExcluding : jsstring -> jsval -> S -> option exn * S;
  cb_removeImportedRoute : jsstring -> jsval -> jsval -> S -> option exn * S;
}.

(** Running effects in order, until one throws. *)
Fixpoint run_effects {S} (fs : list (S -> option exn * S)) (st : S) : option exn * S :=
  match fs with
  | [] => (None, st)
  | f :: fs => match f st with (None, st') => run_effects fs st' | r => r end
  end.

Definition lifecycle_event_ok (rawEvent : jsval) : bool :=
  match rawEvent with
  | JObj o => map_has (js "type") o && match prop (js "type") o with JStr _ => true | _ => false end &&
              map_has (js "targetId") o && map_has (js "domain") o
  | _ => false
  end.

Section FrameHandler.
Context {S : Type} `{FederatedRouteFrameCallbacks S}.

Definition removals (ownerId : jsstring) (events : list jsval) : list (S -> option exn * S) :=
  map (fun event => cb_removeImportedRoute ownerId (js_opt_member (js "targetId") event) (js_opt_member (js "domain") event))
    (filter (fun event => is_str (js "removed") (js_opt_member (js "type") event) = true) events).

Definition handle_lifecycle (ownerId : jsstring) (frame : jsval) (o : list (jsstring * jsval)) (st : S) : option exn * S :=
  match prop (js "events") o with
  | JArr events =>
      if forallb lifecycle_event_ok events
      then run_effects (cb_advertiseRouteLifecycleEvents events true :: cb_forwardLifecycleEventsExcluding ownerId frame ::
                        removals ownerId events) st
      else (Some (verr protocol_error "Invalid federated route-lifecycle event" [(js "ownerId", JStr ownerId)]), st)
  | _ => (Some (verr protocol_error "Invalid federated route-lifecycle control frame: missing events array"
                  [(js "ownerId", JStr ownerId)]), st)
  end.

Definition handleFederatedRouteFrame (ownerId : jsstring) (frame : jsval) (st : S) : option exn * S :=
  match frame with
  | JObj o =>
      if negb (map_has (js "type") o)
      then (Some (verr protocol_error "Invalid federated routes control frame" [(js "ownerId", JStr ownerId)]), st)
      else
        let type := prop (js "type") o in
        if is_str (js "federated-routes") type then
          match prop (js "routes") o with
          | JArr routes => cb_setImportedRoutes ownerId routes st
          | _ => (Some (verr protocol_error "Invalid federated routes control frame: missing routes array"
                          [(js "ownerId", JStr ownerId)]), st)
          end
        else if is_str (js "route-lifecycle") type then
          match prop (js "_eid") o with
          | JUndef => handle_lifecycle ownerId frame o st
          | eid =>
              let seen := seenFederationLifecycleEventIds st in
              if seen_has eid seen then (None, st)
              else handle_lifecycle ownerId frame o (set_seen (seen_add eid seen) st)
          end
        else (Some (verr protocol_error "Invalid federated routes control frame"
                      [(js "ownerId", JStr ownerId); (js "type", JStr (to_str type))]), st)
  | _ => (Some (verr protocol_error "Invalid federated routes control frame" [(js "ownerId", JStr ownerId)]), st)
  end.
End FrameHandler.

(** ** Forwarding and tagging *)
(** A link that can carry control frames: the remote host's id, and whether its
    route stream is present and open. *)
Record route_link := { rl_remoteHostId : jsstring; rl_open : bool }.
#[export] Instance route_link_eq_dec : EqDecision route_link.
Proof. solve_decision. Defined.

(** The links written to, upstream ones first. *)
Definition forwardFederatedLifecycleEventsExcluding (excludedOwnerId : jsstring) (upstreamLinks inboundFederationHosts : list route_link)
    : list route_link :=
  let wanted link := rl_open link && negb (str_eqb (rl_remoteHostId link) excludedOwnerId) in
  filter (fun link => wanted link = true) upstreamLinks ++ filter (fun link => wanted link = true) inboundFederationHosts.

Definition lifecycle_eid (hostId : jsstring) (n : Z) : jsstring := hostId ++ js ":" ++ num_to_string (num_int n).
Definition tagFederatedLifecycleFrame (frame : list (jsstring * jsval)) (hostId : jsstring) (seenIds : list jsval) (counter : Z)
    : list (jsstring * jsval) * list jsval * Z :=
  let nextCounter := counter + 1 in
  let eid := JStr (lifecycle_eid hostId nextCounter) in
  (obj_assign (js "_eid") eid frame, seen_add eid seenIds, nextCounter).

(** ** Route snapshots *)
Definition writeFederatedRoutes (routes : list FederatedRouteRegistration) : result exn bytes :=
  encodeJsonLine <$> createFederatedRoutesControlFrame (map federated_route_json routes).

(** * Theory *)

(** The first event decides. *)
Lemma handshake_settled up st evs : w_result st <> None -> fold_left (handshake_step up) evs st = st.
Proof.
  intros Hs. induction evs as [|e evs IH]; [done|]. cbn [fold_left].
  assert (handshake_step up st e = st) as -> by (unfold handshake_step; by destruct (w_result st)). done.
Qed.

Section HandshakeTheory.
Context {P : Platform}.

Lemma handshake_reread h : trimmed_id (hs_hostId h) -> 1 <= hs_protocolVersion h ->
  match hs_maxHopCount h with Some z => 0 <= z | None => True end ->
  createVerserHostFederationHandshake (handshake_json h) = Ok h.
Proof using Type.
  intros Hid Hv Hm. unfold createVerserHostFederationHandshake, handshake_json.
  destruct h as [v id m i x]. cbn [hs_protocolVersion hs_hostId hs_maxHopCount hs_importRoutes hs_exportRoutes] in *.
  set (o := _ ++ _).
  assert (prop (js "type") o = JStr (js "verser-host-federation-handshake")) as -> by done.
  assert (prop (js "protocolVersion") o = JNum (num_int v)) as -> by done.
  assert (prop (js "hostId") o = JStr id) as -> by done.
  assert (prop (js "maxHopCount") o = match m with Some z => JNum (num_int z) | None => JUndef end) as -> by (by destruct m, i, x).
  assert (prop (js "importRoutes") o = match i with Some b => JBool b | None => JUndef end) as -> by (by destruct m, i, x).
  assert (prop (js "exportRoutes") o = match x with Some b => JBool b | None => JUndef end) as -> by (by destruct m, i, x).
  cbn [is_undef is_str negb andb]. rewrite str_eqb_refl. cbn [negb throw_if mbind result_bind].
  rewrite (proj2 (Z.ltb_ge v 1)) by lia.
  destruct i as [i|], x as [x|]; cbn [assertOptionalBoolean mbind result_bind]; rewrite createVerserHostId_id by done; cbn [mbind result_bind];
    (destruct m as [z|]; cbn [to_number mbind result_bind]; [|done]);
    by rewrite (proj2 (isValidHopCount_Some _ z)).
Qed.

(** The handshake a host sends is one the other side accepts: the text
    parses, and re-validates to the sender's trimmed id, protocol version 1,
    its hop limit, and both route directions. *)
Theorem handshake_roundtrip localHostId maxHopCount text :
  wf_units localHostId -> (forall z, maxHopCount = Some (num_int z) -> z <= max_safe) ->
  upstream_handshake_request localHostId maxHopCount = Ok text ->
  exists v h, json_parse text = Some v /\ createVerserHostFederationHandshake v = Ok h /\
    hs_hostId h = trim localHostId /\ hs_hostId h <> [] /\ hs_protocolVersion h = 1 /\
    hs_maxHopCount h = match maxHopCount with Some (num_int z) => Some z | _ => None end /\
    hs_importRoutes h = Some true /\ hs_exportRoutes h = Some true.
Proof using Type.
  intros Hwf Hmax H. unfold upstream_handshake_request in H. apply bind_Ok_inv in H as (h & Hh & H). apply Ok_inj in H. subst text.
  assert (trimmed_id (hs_hostId h) /\ hs_hostId h = trim localHostId /\ hs_protocolVersion h = 1 /\
    hs_maxHopCount h = match maxHopCount with Some (num_int z) => Some z | _ => None end /\
    match hs_maxHopCount h with Some z => 0 <= z | None => True end /\
    hs_importRoutes h = Some true /\ hs_exportRoutes h = Some true) as (Hid & Het & Hv & Hm & Hm0 & Hi & Hx).
  { unfold createVerserHostFederationHandshake in Hh.
    set (o := [(js "hostId", JStr localHostId); (js "protocolVersion", JNum (num_int 1));
      (js "maxHopCount", match maxHopCount with Some n => JNum n | None => JUndef end); (js "importRoutes", JBool true); (js "exportRoutes", JBool true)]) in Hh.
    change (prop (js "type") o) with JUndef in Hh. change (prop (js "protocolVersion") o) with (JNum (num_int 1)) in Hh.
    change (prop (js "importRoutes") o) with (JBool true) in Hh. change (prop (js "exportRoutes") o) with (JBool true) in Hh.
    change (prop (js "hostId") o) with (JStr localHostId) in Hh.
    change (prop (js "maxHopCount") o) with (match maxHopCount with Some n => JNum n | None => JUndef end) in Hh.
    cbn [is_undef negb andb throw_if mbind result_bind assertOptionalBoolean] in Hh. change (1 <? 1) with false in Hh. cbv iota in Hh.
    destruct (createVerserHostId (JStr localHostId)) as [id|] eqn:Eid; [|done]. cbn [mbind result_bind] in Hh.
    apply createVerserHostId_Ok in Eid as [Hid (t & [= <-] & Ht)].
    destruct maxHopCount as [n|]; cbn [to_number mbind result_bind] in Hh; [|by injection Hh as <-].
    destruct (isValidHopCount (JNum n)) as [z|] eqn:En; [|done]. injection Hh as <-.
    apply isValidHopCount_Some in En as [[= ->] Hz]. done. }
  exists (handshake_json h), h. split.
  - apply json_parse_text. assert (forallb is_unit (hs_hostId h) = true) as Hw by (rewrite Het; apply forallb_forall, List.Forall_forall; by apply trim_Forall).
    unfold handshake_json. rewrite Hv, Hm, Hi, Hx.
    destruct maxHopCount as [[z| | |]|]; cbn [json_plain app fmap list_fmap fst snd forallb]; rewrite Hw; [|vm_compute; reflexivity..].
    assert (is_safe_integer (num_int z) = true) as ->; [|vm_compute; reflexivity]. cbn. apply Z.leb_le. rewrite Hm in Hm0. pose proof (Hmax z eq_refl). lia.
  - split_and!; try done; [|apply Hid]. apply handshake_reread; [done|lia|done].
Qed.

(** The outcome of the VWS negotiation is decided once, by the first of the
    abort signal, the timer and the peer's line; only the first two cancel the
    stream; a line is a success exactly when it is a valid frame of protocol
    version 1 and of type accept. *)
Theorem negotiation_correct context evs :
  readFederationVwsNegotiation context evs =
  match evs with
  | [] => (None, false)
  | ne_abort :: _ => (Some (Throw (own_error (verr stream_failure "Federation VWS negotiation was cancelled" context))), true)
  | ne_timeout :: _ => (Some (Throw (own_error (createFederationVwsNegotiationFailure context))), true)
  | ne_line (Throw e) :: _ =>
      (Some (Throw (own_error (if bool_decide (closing_code e = Some 1009)
         then verr_js protocol_error (getErrorMessage e) (obj_set (js "cause") (JStr (getErrorMessage e)) context)
         else createFederationVwsNegotiationFailure context))), false)
  | ne_line (Ok line) :: _ => (Some (negotiation_outcome context line), false)
  end /\
  forall line p, negotiation_outcome context line = Ok p <->
    exists o, decodeVwsFrame line = Ok (JObj o) /\ prop (js "version") o = JNum (num_int FEDERATION_VWS_VERSION) /\
      prop (js "type") o = JStr (js "accept") /\ prop (js "protocol") o = p.
Proof using Type.
  split.
  - assert (forall (st : waiting jsstring) es, w_result st <> None -> fold_left (negotiation_step context) es st = st) as Hs.
    { intros st es Hst. induction es as [|e es IH]; [done|]. cbn [fold_left].
      assert (negotiation_step context st e = st) as -> by (unfold negotiation_step; by destruct (w_result st)). done. }
    unfold readFederationVwsNegotiation. destruct evs as [|[| |[line|e]] evs]; [done|..]; cbn [fold_left negotiation_step waiting_init w_result];
      try case_bool_decide; by rewrite Hs.
  - intros line p. unfold negotiation_outcome. destruct (decodeVwsFrame line) as [f|e] eqn:Ed; [|naive_solver].
    assert (exists o, f = JObj o) as [o ->].
    { unfold decodeVwsFrame in Ed. destruct (_ <? _); [done|]. destruct (json_parse _) as [[| | | | | |o]|]; try done.
      destruct (prop (js "type") o); try done. res_inv Ed. eauto. }
    change (js_opt_member (js "version") (JObj o)) with (prop (js "version") o).
    change (js_opt_member (js "type") (JObj o)) with (prop (js "type") o).
    change (js_opt_member (js "protocol") (JObj o)) with (prop (js "protocol") o).
    split.
    + intros H. exists o. split; [done|]. destruct (prop (js "version") o) as [| | |n| | |]; try done.
      destruct (num_eqb n (num_int FEDERATION_VWS_VERSION)) eqn:En; [|done]. cbn [negb] in H.
      destruct (is_str (js "error") (prop (js "type") o)); [done|].
      destruct (is_str (js "accept") (prop (js "type") o)) eqn:Ea; [|done]. cbn [negb] in H. injection H as <-.
      destruct (prop (js "type") o) as [| | | |t| |]; try done. cbn in Ea. apply str_eqb_eq in Ea as ->.
      unfold num_eqb in En. destruct n; try done; apply bool_decide_eq_true in En; split_and!; [congruence|done|done].
    + intros (o' & [= <-] & Hv & Ht & <-). rewrite Hv, Ht. done.
Qed.
End HandshakeTheory.

Lemma handshake_roundtrip_witness :
  exists text v h, upstream_handshake_request (js " h1 ") (Some (num_int 3)) = Ok text /\ json_parse text = Some v /\
    createVerserHostFederationHandshake v = Ok h /\ hs_hostId h = js "h1".
Proof.
  assert (exists text, upstream_handshake_request (js " h1 ") (Some (num_int 3)) = Ok text) as [text E] by (eexists; vm_compute; reflexivity).
  destruct (handshake_roundtrip (js " h1 ") (Some (num_int 3)) text) as (v & h & H1 & H2 & H3 & _).
  - apply (bool_decide_unpack _). vm_compute. exact I.
  - intros z [= <-]. vm_compute. discriminate.
  - exact E.
  - exists text, v, h. split_and!; [exact E|exact H1|exact H2|]. rewrite H3. vm_compute. reflexivity.
Defined.
