(* ===== verification/LifecycleFlood.v ===== *)
(** Propagation of route lifecycle frames through a federation of hosts.

    [FrameHostLaws] is what the frame handler relies on of a host
    (verser2-host [node-http2-verser-host.ts], [forwardFederationEventsToPeers]):
    forwarding a tagged frame writes it to every open link but the excluded one
    and touches nothing else the flood can see.  Against that interface: frames
    in flight between hosts, delivered one at a time in any order, are finitely
    many however cyclic the topology, and reach every connected host. *)
From S2P Require Import Prelude JsNum Utf8 Json Errors Headers ResponseMetadata Routing FederationCommon Vws Ndjson FederationHost.

Class FrameHostLaws (S : Type) `{FederatedRouteFrameCallbacks S} := {
  (** What a host has written to its route streams: (remote host id, frame). *)
  fh_sent : S -> list (jsstring * jsval);
  (** The remote host ids of its open links, one per link. *)
  fh_links : S -> list jsstring;
  fh_set_seen l s : seenFederationLifecycleEventIds (set_seen l s) = l /\ fh_sent (set_seen l s) = fh_sent s /\
    fh_links (set_seen l s) = fh_links s;
  fh_advertise events s : let s' := (cb_advertiseRouteLifecycleEvents events true s).2 in
    seenFederationLifecycleEventIds s' = seenFederationLifecycleEventIds s /\ fh_sent s' = fh_sent s /\ fh_links s' = fh_links s;
  fh_forward owner frame s : js_opt_member (js "_eid") frame <> JUndef ->
    let r := cb_forwardLifecycleEventsExcluding owner frame s in
    r.1 = None /\ seenFederationLifecycleEventIds r.2 = seenFederationLifecycleEventIds s /\ fh_links r.2 = fh_links s /\
    fh_sent r.2 = fh_sent s ++ map (fun peer => (peer, frame)) (filter (fun peer => peer <> owner) (fh_links s));
  fh_remove owner t d s : let r := cb_removeImportedRoute owner t d s in
    r.1 = None /\ seenFederationLifecycleEventIds r.2 = seenFederationLifecycleEventIds s /\ fh_sent r.2 = fh_sent s /\
    fh_links r.2 = fh_links s;
}.

(** A lifecycle frame tagged with an id. *)
Definition tagged_frame (f : jsval) (eid : jsstring) : Prop :=
  exists o, f = JObj o /\ prop (js "type") o = JStr (js "route-lifecycle") /\ prop (js "_eid") o = JStr eid.

(** Ids already seen, all of them among [E]. *)
Definition seen_within (E : list jsstring) (seen : list jsval) : Prop :=
  exists l, seen = map JStr l /\ NoDup l /\ l ⊆ E.

Lemma seen_has_strings e l : seen_has (JStr e) (map JStr l) = bool_decide (e ∈ l).
Proof.
  apply eq_true_iff_eq. rewrite bool_decide_eq_true. unfold seen_has. rewrite existsb_exists. split.
  - intros (v & Hv & Hs). apply in_map_iff in Hv as (x & <- & Hx). cbn in Hs. apply str_eqb_eq in Hs as ->. by apply list_elem_of_In.
  - intros He. exists (JStr e). split; [apply in_map; by apply list_elem_of_In|]. cbn. by apply str_eqb_eq.
Qed.

Lemma seen_add_within E e l : NoDup E -> len E <= SEEN_LIMIT -> e ∈ E -> NoDup l -> l ⊆ E -> e ∉ l ->
  seen_add (JStr e) (map JStr l) = map JStr (l ++ [e]).
Proof.
  intros HE Hlen He Hl Hsub Hne. unfold seen_add.
  assert (len (map JStr l) < SEEN_LIMIT) as Hlt.
  { assert (length (l ++ [e]) <= length E)%nat as Hle.
    { apply (submseteq_length (A:=jsstring)). apply NoDup_submseteq; [|intros x; rewrite elem_of_app, list_elem_of_singleton; set_solver].
      apply NoDup_app. split; [done|]. split; [by intros x Hx ->%list_elem_of_singleton|apply NoDup_singleton]. }
    rewrite length_app in Hle. cbn in Hle. unfold len in *. rewrite length_map. lia. }
  rewrite (proj2 (Z.leb_gt _ _)) by done. rewrite seen_has_strings, bool_decide_eq_false_2 by done. by rewrite map_app.
Qed.

Section OneHost.
Context {S : Type} `{FrameHostLaws S}.

Lemma removals_quiet owner events s : let r := run_effects (removals owner events) s in
  r.1 = None /\ seenFederationLifecycleEventIds r.2 = seenFederationLifecycleEventIds s /\ fh_sent r.2 = fh_sent s /\ fh_links r.2 = fh_links s.
Proof using Type.
  unfold removals. generalize (filter (fun event => is_str (js "removed") (js_opt_member (js "type") event) = true) events).
  intros l. revert s. induction l as [|ev l IH]; intros s; [done|]. cbn [map run_effects].
  pose proof (fh_remove owner (js_opt_member (js "targetId") ev) (js_opt_member (js "domain") ev) s) as (H1 & H2 & H3 & H4).
  destruct (cb_removeImportedRoute owner _ _ s) as [[x|] s']; [done|]. cbn [fst snd] in *.
  destruct (IH s') as (-> & -> & -> & ->). by rewrite H2, H3, H4.
Qed.

(** A tagged frame: a duplicate changes nothing; a new one is remembered, and
    either every other link gets it, or (when it is malformed or a callback
    throws before) none does. *)
Lemma tagged_frame_effect E owner f e s l : NoDup E -> len E <= SEEN_LIMIT -> e ∈ E -> tagged_frame f e ->
  seenFederationLifecycleEventIds s = map JStr l -> NoDup l -> l ⊆ E ->
  let r := handleFederatedRouteFrame owner f s in
  fh_links r.2 = fh_links s /\
  if bool_decide (e ∈ l) then r = (None, s)
  else seenFederationLifecycleEventIds r.2 = map JStr (l ++ [e]) /\
       (r.1 <> None /\ fh_sent r.2 = fh_sent s \/
        r.1 = None /\ fh_sent r.2 = fh_sent s ++ map (fun peer => (peer, f)) (filter (fun peer => peer <> owner) (fh_links s))).
Proof using Type.
  intros HE Hlen He (o & -> & Hty & Heid) Hs Hl Hsub. cbn zeta. unfold handleFederatedRouteFrame.
  assert (map_has (js "type") o = true) as ->.
  { unfold map_has. unfold prop in Hty. destruct (map_get (js "type") o); [done|]. by cbn in Hty. }
  cbn [negb]. rewrite Hty, Heid. change (is_str (js "federated-routes") (JStr (js "route-lifecycle"))) with false.
  change (is_str (js "route-lifecycle") (JStr (js "route-lifecycle"))) with true. cbv iota. rewrite Hs, seen_has_strings.
  destruct (decide (e ∈ l)) as [Hin|Hin]; [by rewrite bool_decide_eq_true_2|]. rewrite bool_decide_eq_false_2 by done.
  rewrite (seen_add_within E) by done. destruct (fh_set_seen (map JStr (l ++ [e])) s) as (S1 & S2 & S3).
  set (s1 := set_seen (map JStr (l ++ [e])) s) in *. unfold handle_lifecycle.
  destruct (prop (js "events") o) as [| | | | |events|]; try (cbn [fst snd]; split; [done|]; split; [done|]; left; done).
  destruct (forallb lifecycle_event_ok events); [|cbn [fst snd]; split; [done|]; split; [done|]; left; done].
  cbn [run_effects]. destruct (fh_advertise events s1) as (A1 & A2 & A3).
  destruct (cb_advertiseRouteLifecycleEvents events true s1) as [[x|] s2]; cbn [snd] in *.
  { split; [congruence|]. split; [congruence|]. left. split; [done|congruence]. }
  assert (js_opt_member (js "_eid") (JObj o) <> JUndef) as Hne by (change (js_opt_member (js "_eid") (JObj o)) with (prop (js "_eid") o); rewrite Heid; done).
  destruct (fh_forward owner (JObj o) s2 Hne) as (F1 & F2 & F3 & F4).
  destruct (cb_forwardLifecycleEventsExcluding owner (JObj o) s2) as [[x|] s3]; [done|]. cbn [fst snd] in *.
  destruct (removals_quiet owner events s3) as (R1 & R2 & R3 & R4).
  destruct (run_effects (removals owner events) s3) as [x s4]. cbn [fst snd] in *. subst x.
  split; [congruence|]. split; [congruence|]. right. split; [done|]. rewrite R3, F4. by rewrite A2, S2, A3, S3.
Qed.
End OneHost.

(** ** The network

    [owner b a]: the id under which host [b] handles the frames of host [a]. *)
Record network (S : Type) := { n_hosts : list (jsstring * S); n_flight : list (jsstring * jsstring * jsval) }.
#[global] Arguments n_hosts {S} _.
#[global] Arguments n_flight {S} _.
#[global] Arguments Build_network {S} _ _.

Section Network.
Context {S : Type} `{FrameHostLaws S} (owner : jsstring -> jsstring -> jsstring).

(** What host [b] wrote between two of its states, addressed. *)
Definition written (b : jsstring) (s s' : S) : list (jsstring * jsstring * jsval) :=
  map (fun p => (b, p.1, p.2)) (drop (length (fh_sent s)) (fh_sent s')).

(** One frame in flight arrives; frames may overtake each other. *)
Inductive net_step : network S -> network S -> Prop :=
  | net_deliver a b f hosts l1 l2 s : map_get b hosts = Some s ->
      let s' := (handleFederatedRouteFrame (owner b a) f s).2 in
      net_step {| n_hosts := hosts; n_flight := l1 ++ (a, b, f) :: l2 |}
               {| n_hosts := map_set b s' hosts; n_flight := l1 ++ l2 ++ written b s s' |}.

(** Number of steps. *)
Inductive net_run : nat -> network S -> network S -> Prop :=
  | run_done n : net_run 0 n n
  | run_more k n1 n2 n3 : net_step n1 n2 -> net_run k n2 n3 -> net_run (Datatypes.S k) n1 n3.

(** Only frames tagged with ids of [E] travel, between known hosts; hosts have
    seen only ids of [E]. *)
Record net_ok (E : list jsstring) (n : network S) : Prop := {
  no_wf : map_wf (n_hosts n);
  no_seen : Forall (fun p => seen_within E (seenFederationLifecycleEventIds p.2)) (n_hosts n);
  no_flight : Forall (fun m => exists e, e ∈ E /\ tagged_frame m.2 e) (n_flight n);
}.

(** Frames that can still be written: the links of each host, once for each
    id it has not seen. *)
Definition host_budget (E : list jsstring) (s : S) : nat :=
  length (fh_links s) * (length E - length (seenFederationLifecycleEventIds s)).
Definition net_budget (E : list jsstring) (n : network S) : nat :=
  length (n_flight n) + sum_list_with (fun p => host_budget E p.2) (n_hosts n).

Lemma sum_map_set (g : jsstring * S -> nat) b s' hosts s : map_get b hosts = Some s ->
  (sum_list_with g (map_set b s' hosts) + g (b, s) = sum_list_with g hosts + g (b, s'))%nat.
Proof using Type.
  induction hosts as [|[b' s0] hosts IH]; [done|]. cbn [map_get map_set]. case_decide as Hb.
  - intros [= ->]. subst b'. cbn. lia.
  - intros Hg. specialize (IH Hg). cbn. lia.
Qed.

Lemma step_budget E n n' : NoDup E -> len E <= SEEN_LIMIT -> net_step n n' -> net_ok E n ->
  net_ok E n' /\ (net_budget E n' < net_budget E n)%nat.
Proof using Type.
  intros HE Hlen Hstep [Hwf Hseen Hfl]. destruct Hstep as [a b f hosts l1 l2 s Hb s']. cbn [n_hosts n_flight] in *.
  destruct (map_get_Forall _ _ _ _ Hseen Hb) as (l & Hs & Hl & Hsub). cbn [snd] in Hs.
  apply Forall_app in Hfl as [Hf1 Hf2]. apply Forall_cons in Hf2 as [(e & He & Hf) Hf2]. cbn [snd] in Hf.
  pose proof (tagged_frame_effect E (owner b a) f e s l HE Hlen He Hf Hs Hl Hsub) as [Hlk Hr].
  change ((handleFederatedRouteFrame (owner b a) f s).2) with s' in Hlk, Hr.
  assert (length (map JStr l) <= length E)%nat as Hle.
  { rewrite length_map. apply (submseteq_length (A:=jsstring)). by apply NoDup_submseteq. }
  case_bool_decide as Hin.
  - assert (s' = s) as -> by (subst s'; by rewrite Hr). split.
    + split; cbn; [by apply map_wf_set|apply map_set_Forall; [by exists l|done]|].
      unfold written. rewrite drop_all. cbn. rewrite app_nil_r. by apply Forall_app.
    + unfold net_budget. cbn [n_flight n_hosts]. unfold written. rewrite drop_all. cbn [map]. rewrite app_nil_r.
      pose proof (sum_map_set (fun p => host_budget E p.2) b s hosts s Hb). rewrite !length_app. cbn [length]. lia.
  - destruct Hr as [Hse Hr].
    assert (length (map JStr (l ++ [e])) <= length E)%nat as Hle'.
    { rewrite length_map. apply (submseteq_length (A:=jsstring)). apply NoDup_submseteq.
      - apply NoDup_app. split; [done|]. split; [by intros x Hx ->%list_elem_of_singleton|apply NoDup_singleton].
      - intros x. rewrite elem_of_app, list_elem_of_singleton. set_solver. }
    assert (exists peers, written b s s' = map (fun peer => (b, peer, f)) peers /\ (length peers <= length (fh_links s))%nat) as (peers & Hw & Hp).
    { unfold written. destruct Hr as [[_ ->]|[_ ->]].
      - exists []. rewrite drop_ge by done; split; [done|cbn; lia].
      - exists (filter (fun peer => peer <> owner b a) (fh_links s)). rewrite drop_app_length, map_map. split; [done|]. apply length_filter. }
    split.
    + split; cbn [n_hosts n_flight]; [by apply map_wf_set| |].
      * apply map_set_Forall; [|done]. cbn [snd]. exists (l ++ [e]). split; [done|]. split.
        -- apply NoDup_app. split; [done|]. split; [by intros x Hx ->%list_elem_of_singleton|apply NoDup_singleton].
        -- intros x. rewrite elem_of_app, list_elem_of_singleton. set_solver.
      * apply Forall_app. split; [done|]. apply Forall_app. split; [done|]. rewrite Hw. apply Forall_forall.
        intros m (peer & -> & _)%list_elem_of_fmap. by exists e.
    + unfold net_budget. cbn [n_flight n_hosts]. rewrite !length_app, Hw, length_map. cbn [length].
      pose proof (sum_map_set (fun p => host_budget E p.2) b s' hosts s Hb) as Hsum. cbn [snd] in Hsum.
      assert (host_budget E s' + length (fh_links s) = host_budget E s)%nat as Hbud.
      { unfold host_budget. rewrite Hlk, Hse, Hs, !length_map, length_app in *. cbn [length] in *. nia. }
      lia.
Qed.

Lemma run_budget E k n n' : NoDup E -> len E <= SEEN_LIMIT -> net_run k n n' -> net_ok E n ->
  net_ok E n' /\ (k + net_budget E n' <= net_budget E n)%nat.
Proof using Type.
  intros HE Hlen. induction 1 as [n|k n1 n2 n3 Hs _ IH]; intros Hok; [split; [done|lia]|].
  destruct (step_budget E _ _ HE Hlen Hs Hok) as [Hok2 Hb]. destruct (IH Hok2) as [Hok3 Hb3]. split; [done|lia].
Qed.

(** ** Reaching every host *)
Definition has_seen (e : jsstring) (n : network S) (b : jsstring) : Prop :=
  exists s, map_get b (n_hosts n) = Some s /\ JStr e ∈ seenFederationLifecycleEventIds s.
Definition linked (n : network S) (b c : jsstring) : Prop := exists s, map_get b (n_hosts n) = Some s /\ c ∈ fh_links s.
(** No host refuses the frame. *)
Definition accepted (f : jsval) : Prop := forall o s, (handleFederatedRouteFrame o f s).1 = None.
(** Host [b] handles [f], tagged [e], in this step: it had not seen [e]. *)
Definition handles (e : jsstring) (f : jsval) (b : jsstring) (n n' : network S) : Prop :=
  exists a s, (a, b, f) ∈ n_flight n /\ map_get b (n_hosts n) = Some s /\ JStr e ∉ seenFederationLifecycleEventIds s /\
    map_get b (n_hosts n') = Some (handleFederatedRouteFrame (owner b a) f s).2.

Lemma tagged_same f e e' : tagged_frame f e -> tagged_frame f e' -> e = e'.
Proof using Type. intros (o & -> & _ & H1) (o' & [= <-] & _ & H2). congruence. Qed.

(** No host forgets what it has seen, and what it sees for the first time it handles. *)
Lemma step_seen E e n n' : NoDup E -> len E <= SEEN_LIMIT -> net_step n n' -> net_ok E n -> forall x,
  (has_seen e n x -> has_seen e n' x) /\ (has_seen e n' x -> has_seen e n x \/ exists f, tagged_frame f e /\ handles e f x n n').
Proof using Type.
  intros HE Hlen Hstep [Hwf Hseen Hfl] x. destruct Hstep as [a b f hosts l1 l2 s Hb s']. cbn [n_hosts n_flight] in *.
  destruct (map_get_Forall _ _ _ _ Hseen Hb) as (l & Hs & Hl & Hsub). cbn [snd] in Hs.
  apply Forall_app in Hfl as [_ Hf2]. apply Forall_cons in Hf2 as [(e' & He & Hf) _]. cbn [snd] in Hf.
  pose proof (tagged_frame_effect E (owner b a) f e' s l HE Hlen He Hf Hs Hl Hsub) as [_ Hr].
  change ((handleFederatedRouteFrame (owner b a) f s).2) with s' in Hr.
  unfold has_seen, handles. cbn [n_hosts n_flight]. destruct (decide (x = b)) as [->|Hne]; [rewrite map_get_set_eq, Hb|rewrite map_get_set_ne by done; split; auto].
  assert (s' = s \/ e' ∉ l /\ seenFederationLifecycleEventIds s' = map JStr (l ++ [e'])) as [Es|[Hin Es]].
  { case_bool_decide; [left; subst s'; by rewrite Hr|right]. by destruct Hr. }
  - rewrite Es. split; [done|]. by left.
  - split.
    + intros (y & [= <-] & Hy). exists s'. split; [done|]. rewrite Es, map_app, <- Hs. apply elem_of_app. by left.
    + intros (y & [= <-] & Hy). rewrite Es, map_app, <- Hs in Hy. apply elem_of_app in Hy as [Hy|Hy%list_elem_of_singleton]; [left; by exists s|].
      injection Hy as ->. right. exists f. split; [done|]. exists a, s. split; [apply elem_of_app; right; by left|]. split_and!; try done.
      rewrite Hs. by intros (z & [= <-] & Hz)%list_elem_of_fmap.
Qed.
Lemma run_seen E e k n n' b : NoDup E -> len E <= SEEN_LIMIT -> net_run k n n' -> net_ok E n -> has_seen e n b -> has_seen e n' b.
Proof using Type.
  intros HE Hlen. induction 1 as [n|k n1 n2 n3 Hs _ IH]; intros Hok Hb; [done|]. apply IH; [by eapply step_budget|].
  by apply (step_seen E e n1 n2 HE Hlen Hs Hok b).
Qed.

(** Whoever has seen [e] has sent [f] over each of its links: the other end has
    seen it, or it is on its way. *)
Record spreading (e : jsstring) (f : jsval) (n : network S) : Prop := {
  sp_links : forall b c, has_seen e n b -> linked n b c -> has_seen e n c \/ (b, c, f) ∈ n_flight n;
  sp_sender : forall a b g, (a, b, g) ∈ n_flight n -> tagged_frame g e -> g = f /\ has_seen e n a;
}.

(** A host's alias for a peer is not the id of another of its links. *)
Definition aliases_ok (n : network S) : Prop := forall a b c, linked n b c -> c = owner b a -> c = a.

Lemma step_spreading E e f n n' : NoDup E -> len E <= SEEN_LIMIT -> net_step n n' -> net_ok E n -> tagged_frame f e -> accepted f ->
  aliases_ok n -> spreading e f n -> spreading e f n' /\ aliases_ok n' /\ (forall b c, linked n' b c <-> linked n b c).
Proof using Type.
  intros HE Hlen Hstep Hok Hfe Hacc Hal [Hsl Hss]. pose proof (step_seen E e n n' HE Hlen Hstep Hok) as Hseen'. destruct Hok as [Hwf Hseen Hfl].
  destruct Hstep as [a b g hosts l1 l2 s Hb s']. cbn [n_hosts n_flight] in Hseen, Hfl.
  destruct (map_get_Forall _ _ _ _ Hseen Hb) as (l & Hs & Hl & Hsub). cbn [snd] in Hs.
  apply Forall_app in Hfl as [_ Hf2]. apply Forall_cons in Hf2 as [(e' & He & Hg) _]. cbn [snd] in Hg.
  pose proof (tagged_frame_effect E (owner b a) g e' s l HE Hlen He Hg Hs Hl Hsub) as [Hlk Hr].
  change ((handleFederatedRouteFrame (owner b a) g s).2) with s' in Hlk, Hr.
  set (n := {| n_hosts := hosts; n_flight := l1 ++ (a, b, g) :: l2 |}) in *.
  set (n' := {| n_hosts := map_set b s' hosts; n_flight := l1 ++ l2 ++ written b s s' |}) in *.
  assert (forall x c, linked n' x c <-> linked n x c) as Hlinked.
  { intros x c. unfold linked. cbn [n n' n_hosts]. destruct (decide (x = b)) as [->|Hne];
      [rewrite map_get_set_eq, Hb|by rewrite map_get_set_ne by done].
    split; intros (y & [= <-] & Hc); eexists; (split; [done|]); [by rewrite <- Hlk|by rewrite Hlk]. }
  assert (forall m, m ∈ n_flight n' -> m ∈ n_flight n \/ m ∈ written b s s') as Hfl'.
  { intros m. cbn [n n' n_flight]. rewrite !elem_of_app, elem_of_cons. tauto. }
  assert (forall m, m ∈ n_flight n -> m ∈ n_flight n' \/ m = (a, b, g)) as Hkeep.
  { intros m. cbn [n n' n_flight]. rewrite !elem_of_app, elem_of_cons. tauto. }
  assert ((a, b, g) ∈ n_flight n) as Hin by (apply elem_of_app; right; by left).
  assert (forall m, m ∈ written b s s' -> exists peer, m = (b, peer, g) /\ e' ∉ l) as Hwr.
  { intros m. unfold written. case_bool_decide as Hl'; [assert (s' = s) as Es by (subst s'; by rewrite Hr); rewrite Es; rewrite drop_ge by done; by intros ?%elem_of_nil|].
    destruct Hr as [_ [[_ ->]|[_ ->]]]; [rewrite drop_ge by done; by intros ?%elem_of_nil|]. rewrite drop_app_length, map_map. intros (peer & -> & _)%list_elem_of_fmap. eauto. }
  assert (has_seen e' n' b) as Hbe.
  { unfold has_seen. cbn [n' n_hosts]. rewrite map_get_set_eq. exists s'. split; [done|].
    case_bool_decide as Hl'; [assert (s' = s) as -> by (subst s'; by rewrite Hr); rewrite Hs; by apply list_elem_of_fmap_2|].
    destruct Hr as [-> _]. rewrite map_app. apply elem_of_app. right. by left. }
  split; [|split; [intros x y c Hxc; apply Hal; by apply Hlinked|done]]. split.
  - intros x c Hx Hxc%Hlinked. destruct (proj2 (Hseen' x) Hx) as [Hold|(h & Hh & Hnew)].
    + destruct (Hsl x c Hold Hxc) as [Hc|Hc]; [left; by apply Hseen'|]. destruct (Hkeep _ Hc) as [Hc'|[= -> -> <-]]; [by right|].
      left. by rewrite (tagged_same f e e').
    + (* [x] has just seen it, so [x] is [b] and it has written [f] to its links *)
      destruct Hnew as (a' & s0 & _ & Hx0 & Hno & Hx').
      assert (x = b) as ->. { destruct (decide (x = b)) as [|Hne]; [done|]. exfalso. destruct Hx as (y & Hy & Hye). cbn [n n' n_hosts] in *.
        rewrite map_get_set_ne in Hy by done. rewrite Hx0 in Hy. injection Hy as <-. done. }
      cbn [n n_hosts] in Hx0. rewrite Hb in Hx0. injection Hx0 as <-.
      assert (e' = e /\ e' ∉ l) as [-> Hel].
      { destruct Hx as (y & Hy & Hye). cbn [n' n_hosts] in Hy. rewrite map_get_set_eq in Hy. injection Hy as <-. case_bool_decide as Hl'.
        - exfalso. assert (s' = s) as Es by (subst s'; by rewrite Hr). by rewrite Es in Hye.
        - destruct Hr as [Es _]. rewrite Es, map_app, <- Hs in Hye. apply elem_of_app in Hye as [?|Hye%list_elem_of_singleton]; [done|]. by injection Hye as ->. }
      destruct (Hss a b g Hin Hg) as [-> Ha]. rewrite bool_decide_eq_false_2 in Hr by done.
      destruct (decide (c = owner b a)) as [Hc|Hc]; [left; apply Hseen'; by rewrite (Hal a b c Hxc Hc)|right].
      cbn [n' n_flight]. rewrite !elem_of_app. right. right. destruct Hr as [_ [[Hno' _]|[_ Hsent]]]; [by destruct Hno'|].
      unfold written. rewrite Hsent, drop_app_length, map_map. apply list_elem_of_fmap. exists c. split; [done|].
      apply list_elem_of_filter. split; [done|]. destruct Hxc as (y & Hy & Hyc). cbn [n n_hosts] in Hy. congruence.
  - intros x y h Hh Htag. destruct (Hfl' _ Hh) as [Hh'|Hh'].
    + destruct (Hss x y h Hh' Htag) as [-> Hx]. split; [done|by apply Hseen'].
    + destruct (Hwr _ Hh') as (peer & [= -> -> ->] & _). assert (e' = e) as -> by by eapply tagged_same. split; [by apply (Hss a b g Hin)|done].
Qed.

Lemma run_spreading E e f k n n' : NoDup E -> len E <= SEEN_LIMIT -> net_run k n n' -> net_ok E n -> tagged_frame f e -> accepted f ->
  aliases_ok n -> spreading e f n -> spreading e f n' /\ (forall b c, linked n' b c <-> linked n b c).
Proof using Type.
  intros HE Hlen Hrun Hok Hfe Hacc Hal Hsp. revert Hok Hal Hsp. induction Hrun as [n|k n1 n2 n3 Hs _ IH]; intros Hok Hal Hsp; [done|].
  destruct (step_spreading E e f n1 n2 HE Hlen Hs Hok Hfe Hacc Hal Hsp) as (Hsp2 & Hal2 & Hl2).
  destruct (step_budget E n1 n2 HE Hlen Hs Hok) as [Hok2 _].
  destruct (IH Hok2 Hal2 Hsp2) as (Hsp3 & Hl3). split; [done|]. intros b c. by rewrite Hl3.
Qed.
(** Whatever is seen at the end and was not at the start was handled on the way. *)
Lemma run_handles E e f k n n' b : NoDup E -> len E <= SEEN_LIMIT -> net_run k n n' -> net_ok E n -> tagged_frame f e -> accepted f ->
  aliases_ok n -> spreading e f n -> has_seen e n' b -> has_seen e n b \/
  exists k1 n1 n2 k2, net_run k1 n n1 /\ net_step n1 n2 /\ net_run k2 n2 n' /\ handles e f b n1 n2.
Proof using Type.
  intros HE Hlen Hrun Hok Hfe Hacc Hal Hsp. revert Hok Hal Hsp. induction Hrun as [n|k n1 n2 n3 Hs Hrun IH]; intros Hok Hal Hsp Hb; [by left|].
  destruct (step_spreading E e f n1 n2 HE Hlen Hs Hok Hfe Hacc Hal Hsp) as (Hsp2 & Hal2 & _).
  destruct (step_budget E n1 n2 HE Hlen Hs Hok) as [Hok2 _].
  destruct (IH Hok2 Hal2 Hsp2 Hb) as [Hb2|(k1 & m1 & m2 & k2 & H1 & H2 & H3 & H4)].
  - destruct (proj2 (step_seen E e n1 n2 HE Hlen Hs Hok b) Hb2) as [|(g & Hg & Hh)]; [by left|right].
    exists 0%nat, n1, n2, k. split; [constructor|]. split_and!; [done|done|]. destruct Hh as (a & s & Hin & Hrest).
    destruct (sp_sender _ _ _ Hsp a b g Hin Hg) as [-> _]. by exists a, s.
  - right. exists (Datatypes.S k1), m1, m2, k2. split; [by econstructor|done].
Qed.

(** Host [h] tags an event with a fresh id and writes it to its links. *)
Definition originates (e : jsstring) (f : jsval) (h : jsstring) (n n' : network S) : Prop :=
  exists s s', map_get h (n_hosts n) = Some s /\ seenFederationLifecycleEventIds s' = seenFederationLifecycleEventIds s ++ [JStr e] /\
    fh_links s' = fh_links s /\ fh_sent s' = fh_sent s ++ map (fun peer => (peer, f)) (fh_links s) /\
    n' = {| n_hosts := map_set h s' (n_hosts n); n_flight := n_flight n ++ written h s s' |}.
(** Nobody knows the id. *)
Record fresh_id (e : jsstring) (n : network S) : Prop := {
  fi_seen : forall b, ~ has_seen e n b;
  fi_flight : forall m, m ∈ n_flight n -> ~ tagged_frame m.2 e;
}.
Lemma originates_spreading E e f h n n' : NoDup E -> e ∈ E -> net_ok E n -> fresh_id e n -> tagged_frame f e -> originates e f h n n' ->
  net_ok E n' /\ spreading e f n' /\ has_seen e n' h /\ (forall b, has_seen e n' b -> b = h) /\ (forall b c, linked n' b c <-> linked n b c).
Proof using Type.
  clear owner. intros HE He [Hwf Hseen Hfl] [Hf1 Hf2] Hf (s & s' & Hh & Hse & Hlk & Hsent & ->).
  destruct (map_get_Forall _ _ _ _ Hseen Hh) as (l & Hs & Hl & Hsub). cbn [snd] in Hs.
  assert (e ∉ l) as Hel. { intros Hel. apply (Hf1 h). exists s. split; [done|]. rewrite Hs. by apply list_elem_of_fmap_2. }
  set (n' := {| n_hosts := map_set h s' (n_hosts n); n_flight := n_flight n ++ written h s s' |}).
  assert (written h s s' = map (fun peer => (h, peer, f)) (fh_links s)) as Hw by (unfold written; by rewrite Hsent, drop_app_length, map_map).
  assert (forall b, has_seen e n' b <-> b = h) as Hseen'.
  { intros b. unfold has_seen. cbn [n' n_hosts]. destruct (decide (b = h)) as [->|Hne].
    - rewrite map_get_set_eq. split; [done|]. intros _. exists s'. split; [done|]. rewrite Hse. apply elem_of_app. right. by left.
    - rewrite map_get_set_ne by done. split; [intros Hb; by destruct (Hf1 b)|done]. }
  assert (forall b c, linked n' b c <-> linked n b c) as Hlinked.
  { intros b c. unfold linked. cbn [n' n_hosts]. destruct (decide (b = h)) as [->|Hne]; [rewrite map_get_set_eq, Hh|by rewrite map_get_set_ne by done].
    split; intros (y & [= <-] & Hc); eexists; (split; [done|]); [by rewrite <- Hlk|by rewrite Hlk]. }
  split_and!; [..|by apply Hseen'|by intros b Hb%Hseen'|done].
  - split; cbn [n' n_hosts n_flight]; [by apply map_wf_set| |].
    + apply map_set_Forall; [|done]. cbn [snd]. exists (l ++ [e]). rewrite Hse, Hs, map_app. split; [done|]. split.
      * apply NoDup_app. split; [done|]. split; [by intros x Hx ->%list_elem_of_singleton|apply NoDup_singleton].
      * intros x. rewrite elem_of_app, list_elem_of_singleton. set_solver.
    + apply Forall_app. split; [done|]. rewrite Hw. apply Forall_forall. intros m (peer & -> & _)%list_elem_of_fmap. by exists e.
  - split.
    + intros b c ->%Hseen' (y & Hy & Hc)%Hlinked. right. rewrite Hh in Hy. injection Hy as <-. cbn [n' n_flight]. apply elem_of_app. right.
      rewrite Hw. apply list_elem_of_fmap. by exists c.
    + intros a b g [Hg|Hg]%elem_of_app Htag; [by destruct (Hf2 _ Hg)|]. rewrite Hw in Hg. apply list_elem_of_fmap in Hg as (peer & [= -> -> ->] & _).
      split; [done|by apply Hseen'].
Qed.
End Network.

Section FloodClaims.
Context {S : Type} `{FrameHostLaws S} (owner : jsstring -> jsstring -> jsstring) (E : list jsstring).
Context (HE : NoDup E) (Hlen : len E <= SEEN_LIMIT).

(** C8: However cyclic the federation and whatever the order of arrival, the
    frames tagged with at most 10000 ids die out: a run delivers no more frames
    than are in flight plus, for each host and id it has not seen, its links.
    No host forgets an id it has seen, and a frame with an id its host has seen
    changes nothing, so none handles the same event twice. *)
Theorem lifecycle_flood_terminates n k n' : net_ok E n -> net_run owner k n n' ->
  (k + length (n_flight n') <= length (n_flight n) +
     sum_list_with (fun p => length (fh_links p.2) * (length E - length (seenFederationLifecycleEventIds p.2))) (n_hosts n))%nat /\
  net_ok E n' /\
  (forall e b, has_seen e n b -> has_seen e n' b) /\
  (forall a b f s e, (a, b, f) ∈ n_flight n' -> tagged_frame f e -> map_get b (n_hosts n') = Some s ->
     JStr e ∈ seenFederationLifecycleEventIds s -> handleFederatedRouteFrame (owner b a) f s = (None, s)).
Proof using HE Hlen.
  intros Hok Hrun. destruct (run_budget owner E k n n' HE Hlen Hrun Hok) as [Hok' Hb]. split; [unfold net_budget, host_budget in Hb; lia|].
  split; [done|]. split; [intros e b; by apply (run_seen owner E e k)|]. intros a b f s e Hin Hf Hb' He. destruct Hok' as [_ Hseen Hfl].
  destruct (map_get_Forall _ _ _ _ Hseen Hb') as (l & Hs & Hl & Hsub). cbn [snd] in Hs. rewrite Hs in He.
  apply list_elem_of_fmap in He as (x & [= <-] & Hel).
  pose proof (tagged_frame_effect E (owner b a) f e s l HE Hlen (Hsub _ Hel) Hf Hs Hl Hsub) as [_ Hr].
  by rewrite bool_decide_eq_true_2 in Hr.
Qed.

(** C32: A host tags an event with an id nobody has seen and writes it to its
    links, in a network where at most 10000 ids travel. Once nothing is in flight,
    every host connected to it has seen the id, and every one but itself has been
    delivered that frame at some point of the run, while it had not seen the id,
    and has handled it. This holds for a frame that no host refuses, and when no
    host calls a peer by a name that is the id of another of its links. *)
Theorem lifecycle_flood_reaches n0 n k n' e f h b :
  net_ok E n0 -> e ∈ E -> fresh_id e n0 -> tagged_frame f e -> accepted f -> aliases_ok owner n0 ->
  originates e f h n0 n -> net_run owner k n n' -> n_flight n' = [] -> rtc (linked n0) h b ->
  has_seen e n' b /\ (b <> h -> exists k1 n1 n2 k2, net_run owner k1 n n1 /\ net_step owner n1 n2 /\ net_run owner k2 n2 n' /\ handles owner e f b n1 n2).
Proof using HE Hlen.
  intros Hok0 He Hfresh Hf Hacc Hal0 Ho Hrun Hq Hpath.
  destruct (originates_spreading E e f h n0 n HE He Hok0 Hfresh Hf Ho) as (Hok & Hsp & Hh & Honly & Hl0).
  assert (aliases_ok owner n) as Hal by (intros x y c Hxc; apply Hal0; by apply Hl0).
  destruct (run_spreading owner E e f k n n' HE Hlen Hrun Hok Hf Hacc Hal Hsp) as (Hsp' & Hl).
  assert (has_seen e n' b) as Hb.
  { apply (run_seen owner E e k n n' h HE Hlen Hrun Hok) in Hh. revert Hh. clear Ho Honly Hsp Hok Hrun. induction Hpath as [x|x y z Hxy _ IH]; [done|]. intros Hx. apply IH.
    apply Hl0, Hl in Hxy. destruct (sp_links _ _ _ Hsp' x y Hx Hxy) as [|Hy]; [done|]. rewrite Hq in Hy. by apply elem_of_nil in Hy. }
  split; [done|]. intros Hne. destruct (run_handles owner E e f k n n' b HE Hlen Hrun Hok Hf Hacc Hal Hsp Hb) as [Hb0|]; [|done].
  by destruct Hne; apply Honly.
Qed.
End FloodClaims.
