(* ===== verification/HostRoutes.v ===== *)
(** The routing side of a host (verser2-host [node-http2-verser-host.ts]): its
    registry, its route authorizer and its federation links together, with the
    advertisement of routes and of lifecycle events to brokers and peers.

    Streams are logs: [hr_sent] holds the frames written to federation route
    streams, [hr_broker_log] those written to every connected broker. *)
From S2P Require Import Prelude JsNum Utf8 Json Errors Headers ResponseMetadata Routing FederationCommon RouteLifecycle Vws Ndjson RouteRegistry RouteAuthorizer FederationHost LifecycleFlood.

(** ** Values that come from the network unvalidated *)
Definition type_error {A} (input : jsval) : result exn A := Throw (EngineErr TypeError (to_str input)).
(** [value.trim()] on any value. *)
Definition require_text (v : jsval) (label : string) : result exn jsstring :=
  match v with JStr s => requireNonEmpty s label | _ => type_error v end.
#[global] Arguments require_text v label%_string.

Definition raw_generation (fresh : jsstring) (v : jsval) : result exn VerserRouteGeneration :=
  match nullish (js_opt_member (js "generationId") v) (JStr fresh) with
  | JStr g =>
      _ ← throw_if (len (trim g) =? 0)
            (verr protocol_error "generationId must be a non-empty string" [(js "field", JStr (js "generationId"))]);
      match js_opt_member (js "sessionId") v with
      | JUndef => Ok {| rg_generationId := trim g; rg_sessionId := None |}
      | JStr s => Ok {| rg_generationId := trim g; rg_sessionId := if 0 <? len (trim s) then Some (trim s) else None |}
      | other => type_error other
      end
  | _ => Throw (verr protocol_error "generationId must be a non-empty string" [(js "field", JStr (js "generationId"))])
  end.

Definition raw_event (fresh : jsstring) (event : jsval) : result exn VerserRouteLifecycleEvent :=
  let member k := js_opt_member (js k) event in
  match find (fun t => is_str (event_type_name t) (member "type")) VALID_EVENT_TYPES with
  | None => Throw (verr protocol_error "Invalid route lifecycle event type" [(js "type", JStr (to_str (member "type")))])
  | Some type =>
      reason ← (match member "reason" with
                | JUndef => Ok None
                | r => match find (fun t => is_str (event_reason_name t) r) VALID_EVENT_REASONS with
                       | Some reason => Ok (Some reason)
                       | None => Throw (verr protocol_error "Invalid route lifecycle event reason" [(js "reason", JStr (to_str r))])
                       end
                end);
      targetId ← require_text (member "targetId") "route lifecycle event targetId";
      domain ← require_text (member "domain") "route lifecycle event domain";
      generation ← (match member "generation" with
                    | JUndef => Ok None
                    | g => Some <$> raw_generation fresh g
                    end);
      Ok {| le_type := type; le_targetId := targetId; le_domain := domain; le_reason := reason; le_generation := generation |}
  end.
Definition raw_lifecycle_frame (fresh : jsstring) (events : list jsval) : result exn (list (jsstring * jsval)) :=
  es ← map_res (raw_event fresh) events;
  Ok [(js "type", JStr (js "route-lifecycle")); (js "events", JArr (map event_json es))].

(** ** State *)
Record host_routes := {
  hr_registry : HostRouteRegistry;
  hr_authorizer : option FederatedRouteAuthorizer;
  upstreamLinks : list (jsstring * route_link);           (** by upstream id *)
  inboundFederationHosts : list (jsstring * route_link);  (** by host id *)
  hr_seen : list jsval;
  federationLifecycleEventIdCounter : Z;
  hr_sent : list (jsstring * jsval);
  hr_broker_log : list jsval;
  hr_errors : list VerserError;
}.
Definition hr_with (registry : HostRouteRegistry) (authorizer : option FederatedRouteAuthorizer) (seen : list jsval) (counter : Z)
    (sent : list (jsstring * jsval)) (log : list jsval) (errors : list VerserError) (st : host_routes) : host_routes :=
  {| hr_registry := registry; hr_authorizer := authorizer; upstreamLinks := upstreamLinks st; inboundFederationHosts := inboundFederationHosts st;
     hr_seen := seen; federationLifecycleEventIdCounter := counter; hr_sent := sent; hr_broker_log := log; hr_errors := errors |}.
Definition hr_set_registry reg st := hr_with reg (hr_authorizer st) (hr_seen st) (federationLifecycleEventIdCounter st) (hr_sent st) (hr_broker_log st) (hr_errors st) st.
Definition hr_set_authorizer a st := hr_with (hr_registry st) a (hr_seen st) (federationLifecycleEventIdCounter st) (hr_sent st) (hr_broker_log st) (hr_errors st) st.
Definition hr_set_seen seen st := hr_with (hr_registry st) (hr_authorizer st) seen (federationLifecycleEventIdCounter st) (hr_sent st) (hr_broker_log st) (hr_errors st) st.
Definition hr_set_counter n st := hr_with (hr_registry st) (hr_authorizer st) (hr_seen st) n (hr_sent st) (hr_broker_log st) (hr_errors st) st.
Definition hr_send l st := hr_with (hr_registry st) (hr_authorizer st) (hr_seen st) (federationLifecycleEventIdCounter st) (hr_sent st ++ l) (hr_broker_log st) (hr_errors st) st.
Definition hr_log f st := hr_with (hr_registry st) (hr_authorizer st) (hr_seen st) (federationLifecycleEventIdCounter st) (hr_sent st) (hr_broker_log st ++ [f]) (hr_errors st) st.
Definition hr_report es st := hr_with (hr_registry st) (hr_authorizer st) (hr_seen st) (federationLifecycleEventIdCounter st) (hr_sent st) (hr_broker_log st) (hr_errors st ++ es) st.

Definition all_links (st : host_routes) : list route_link := (upstreamLinks st).*2 ++ (inboundFederationHosts st).*2.
Definition open_links (st : host_routes) : list jsstring := map rl_remoteHostId (filter (fun l => rl_open l = true) (all_links st)).

Section Host.
Context {P : Platform} (options : HostRouteRegistryOptions) (hostId : option jsstring) (fresh : jsstring).

Definition invalidateRouteAuthorizations (st : host_routes) : host_routes :=
  hr_set_authorizer (invalidate <$> hr_authorizer st) st.

Definition advertiseRoutes (st : host_routes) : host_routes :=
  hr_log (createBrokerRoutesControlFrame (getBrokerRoutes (hr_registry st))) st.

Definition route_snapshot (peer : jsstring) (st : host_routes) : result exn jsval :=
  routes ← getFederatedRoutesForExport options (Some peer) (hr_registry st);
  createFederatedRoutesControlFrame (map federated_route_json routes).
Definition advertise_link (link : route_link) (st : host_routes) : option exn * host_routes :=
  if rl_open link
  then match route_snapshot (rl_remoteHostId link) st with
       | Ok frame => (None, hr_send [(rl_remoteHostId link, frame)] st)
       | Throw e => (Some e, st)
       end
  else (None, st).
Definition advertiseFederatedRoutes (st : host_routes) : option exn * host_routes :=
  run_effects (map advertise_link (all_links st)) st.

(** [HostRouteRegistry.setImportedRoutes] on what the frame holds. *)
Definition import_input (routeInput : jsval) : jsval :=
  JObj (obj_set (js "source") (JStr (js "upstream")) (spread_entries routeInput)).
Definition import_raw_step (acc : list FederatedRouteRegistration * list (FederatedRouteRegistration * VerserError)) (routeInput : jsval)
    : result exn (list FederatedRouteRegistration * list (FederatedRouteRegistration * VerserError)) :=
  let '(accepted, rejected) := acc in
  route ← createFederatedRouteRegistration (import_input routeInput);
  routeError ← getImportedRouteRejection options route;
  match routeError with
  | None => Ok (accepted ++ [route], rejected)
  | Some error => Ok (accepted, rejected ++ [(route, error)])
  end.
Definition setImportedRoutes_raw (upstreamId : jsstring) (routes : list jsval) (reg : HostRouteRegistry)
    : result exn (list (FederatedRouteRegistration * VerserError) * bool) * HostRouteRegistry :=
  match fold_res import_raw_step ([], []) routes with
  | Throw e => (Throw e, reg)
  | Ok (accepted, rejected) =>
      let changed := negb (str_eqb (routeSetKey (default [] (map_get upstreamId (importedRoutes reg)))) (routeSetKey accepted)) in
      (Ok (rejected, changed), set_imported (map_set upstreamId accepted (importedRoutes reg)) reg)
  end.

Definition setImportedFederatedRoutes (upstreamId : jsstring) (routes : list jsval) (st : host_routes) : option exn * host_routes :=
  match setImportedRoutes_raw upstreamId routes (hr_registry st) with
  | (Throw e, reg) => (Some e, hr_set_registry reg st)
  | (Ok (rejected, changed), reg) =>
      let st := hr_report rejected.*2 (hr_set_registry reg st) in
      if changed then advertiseFederatedRoutes (advertiseRoutes (invalidateRouteAuthorizations st)) else (None, st)
  end.

Definition removeImportedFederatedRoutes (upstreamId : jsstring) (st : host_routes) : option exn * host_routes :=
  let st := hr_set_registry (removeImportedRoutes upstreamId (hr_registry st)) st in
  advertiseFederatedRoutes (advertiseRoutes (invalidateRouteAuthorizations st)).

(** The frame is tagged unless it carries an id already. *)
Definition forwardFederationEventsToPeers (excludedOwnerId : jsstring) (frame : list (jsstring * jsval)) (st : host_routes) : host_routes :=
  let '(frame, st) :=
    match prop (js "_eid") frame with
    | JUndef =>
        let '(tagged, seen, counter) := tagFederatedLifecycleFrame frame (default (js "host") hostId) (hr_seen st) (federationLifecycleEventIdCounter st) in
        (tagged, hr_set_counter counter (hr_set_seen seen st))
    | _ => (frame, st)
    end in
  hr_send (map (fun link => (rl_remoteHostId link, JObj frame))
             (forwardFederatedLifecycleEventsExcluding excludedOwnerId (upstreamLinks st).*2 (inboundFederationHosts st).*2)) st.

Definition advertiseRouteLifecycleEvents (events : list jsval) (skipFederation : bool) (st : host_routes) : option exn * host_routes :=
  match events with
  | [] => (None, st)
  | _ =>
      match raw_lifecycle_frame fresh events with
      | Throw e => (Some e, st)
      | Ok frame =>
          let st := hr_log (JObj frame) st in
          (None, if skipFederation then st else forwardFederationEventsToPeers [] frame st)
      end
  end.

Definition host_removeImportedRoute (ownerId : jsstring) (targetId domain : jsval) (st : host_routes) : host_routes :=
  match targetId, domain with
  | JStr t, JStr d =>
      let '(removed, reg) := removeImportedRoute ownerId t d (hr_registry st) in
      let st := hr_set_registry reg st in
      if removed then invalidateRouteAuthorizations st else st
  | _, _ => st
  end.

(** [getFederatedRouteFrameCallbacks] *)
#[export] Instance host_callbacks : FederatedRouteFrameCallbacks host_routes := {
  seenFederationLifecycleEventIds := hr_seen;
  set_seen := hr_set_seen;
  cb_setImportedRoutes := setImportedFederatedRoutes;
  cb_advertiseRouteLifecycleEvents := advertiseRouteLifecycleEvents;
  cb_forwardLifecycleEventsExcluding owner frame st :=
    match frame with JObj o => (None, forwardFederationEventsToPeers owner o st) | _ => (None, st) end;
  cb_removeImportedRoute owner t d st := (None, host_removeImportedRoute owner t d st);
}.
End Host.

(** * Theory *)
Lemma open_targets owner (links : list route_link) (f : jsval) :
  map (fun link => (rl_remoteHostId link, f)) (filter (fun link => rl_open link && negb (str_eqb (rl_remoteHostId link) owner) = true) links) =
  map (fun peer => (peer, f)) (filter (fun peer => peer <> owner) (map rl_remoteHostId (filter (fun l => rl_open l = true) links))).
Proof.
  induction links as [|l links IH]; [done|]. rewrite !filter_cons. destruct (rl_open l) eqn:Eo; cbn [andb].
  - rewrite (decide_True (P:=true = true)) by done. cbn [map]. rewrite filter_cons.
    destruct (decide (rl_remoteHostId l = owner)) as [He|He].
    + rewrite (proj2 (str_eqb_eq _ _) He). cbn [negb].
      rewrite (decide_False (P:=false = true)) by done. by rewrite decide_False by tauto.
    + rewrite (proj2 (str_eqb_neq _ _) He). cbn [negb].
      rewrite !decide_True by done. cbn [map]. by rewrite IH.
  - rewrite !decide_False by done. done.
Qed.

Lemma opt_member_obj k f : js_opt_member k f <> JUndef -> k <> js "length" -> exists o, f = JObj o /\ prop k o <> JUndef.
Proof.
  intros H Hk. destruct f as [| | | |s|l|o]; try done; [..|by exists o];
    cbn [js_opt_member js_member default] in H; unfold str_eqb in H; rewrite bool_decide_eq_false_2 in H; done.
Qed.

Section HostTheory.
Context {P : Platform} (options : HostRouteRegistryOptions) (hostId : option jsstring) (fresh : jsstring).

Lemma forward_tagged owner o st : prop (js "_eid") o <> JUndef ->
  forwardFederationEventsToPeers hostId owner o st =
  hr_send (map (fun peer => (peer, JObj o)) (filter (fun peer => peer <> owner) (open_links st))) st.
Proof using Type.
  intros He. unfold forwardFederationEventsToPeers. destruct (prop (js "_eid") o) eqn:E; try done; f_equal;
    unfold forwardFederatedLifecycleEventsExcluding, open_links, all_links; rewrite map_app, !open_targets;
    by rewrite filter_app, map_app, filter_app, map_app.
Qed.

#[export] Instance host_laws : @FrameHostLaws host_routes (host_callbacks options hostId fresh).
Proof using Type.
  refine {| fh_sent := hr_sent; fh_links := open_links |}.
  - done.
  - intros events s. cbn. unfold advertiseRouteLifecycleEvents. destruct events; [done|]. by destruct (raw_lifecycle_frame _ _).
  - intros owner frame s He. apply opt_member_obj in He as (o & -> & Ho); [|by vm_compute]. cbn. by rewrite forward_tagged.
  - intros owner t d s. cbn. unfold host_removeImportedRoute. destruct t, d; try done.
    destruct (removeImportedRoute _ _ _ _) as [[|] reg]; done.
Defined.

(** ** Advertising to the peers *)
Definition exported (peer : jsstring) (reg : HostRouteRegistry) : list FederatedRouteRegistration :=
  map (fun c => exported_route options (sc_route c))
    (filter (fun c => exportable options (Some peer) (sc_route c) = true) (getSelectedCandidates reg)).
Definition snapshot_frame (peer : jsstring) (reg : HostRouteRegistry) : jsval :=
  JObj [(js "type", JStr (js "federated-routes")); (js "routes", JArr (map federated_route_json (exported peer reg)))].

Context {C : ConsistentCollation} (Hhost : trimmed_id (ro_hostId options)).

Lemma routes_frame_ok l : Forall federated_route_ok l ->
  createFederatedRoutesControlFrame (map federated_route_json l) =
  Ok (JObj [(js "type", JStr (js "federated-routes")); (js "routes", JArr (map federated_route_json l))]).
Proof using Type.
  intros Hl. unfold createFederatedRoutesControlFrame.
  assert (map_res createFederatedRouteRegistration (map federated_route_json l) = Ok l) as ->; [|done].
  apply map_res_Ok. induction Hl as [|r l Hr _ IH]; cbn; constructor; [by apply federated_route_reread|done].
Qed.

Lemma snapshot_ok peer st : registry_ok options (hr_registry st) ->
  route_snapshot options peer st = Ok (snapshot_frame peer (hr_registry st)).
Proof using C Hhost.
  intros Hok. unfold route_snapshot. rewrite export_Ok by done. cbn [mbind result_bind].
  rewrite routes_frame_ok; [done|]. apply Forall_forall. intros r (c & -> & [_ Hc]%list_elem_of_filter)%list_elem_of_fmap.
  apply exported_ok; [done|]. apply (active_route_ok options (hr_registry st)); [done|by apply selected_active].
Qed.

Definition snapshots (st : host_routes) : list (jsstring * jsval) :=
  map (fun peer => (peer, snapshot_frame peer (hr_registry st))) (open_links st).

Lemma advertise_links links st : registry_ok options (hr_registry st) ->
  run_effects (map (advertise_link options) links) st =
  (None, hr_send (map (fun peer => (peer, snapshot_frame peer (hr_registry st)))
                    (map rl_remoteHostId (filter (fun l => rl_open l = true) links))) st).
Proof using C Hhost.
  revert st. induction links as [|l links IH]; intros st Hok.
  - cbn. unfold hr_send. rewrite app_nil_r. by destruct st.
  - cbn [map run_effects]. unfold advertise_link at 1. rewrite filter_cons. destruct (rl_open l) eqn:Eo.
    + rewrite snapshot_ok by done. rewrite IH by done. rewrite decide_True by done. cbn [map].
      unfold hr_send, hr_with. cbn [hr_sent]. by rewrite <- app_assoc.
    + rewrite decide_False by done. by apply IH.
Qed.

Lemma advertiseFederatedRoutes_ok st : registry_ok options (hr_registry st) ->
  advertiseFederatedRoutes options st = (None, hr_send (snapshots st) st).
Proof using C Hhost. apply advertise_links. Qed.

(** The raw import is the registry's import, read from the frame. *)
Definition raw_route (v : jsval) : result exn FederatedRouteRegistration := createFederatedRouteRegistration (import_input v).

Lemma raw_route_valid v r : raw_route v = Ok r -> federated_route_ok r /\ fr_source r = source_upstream.
Proof using Type.
  unfold raw_route. intros H. split; [by eapply federated_route_validated|].
  revert H. unfold import_input, createFederatedRouteRegistration.
  assert (prop (js "source") (obj_set (js "source") (JStr (js "upstream")) (spread_entries v)) = JStr (source_name source_upstream)) as ->
    by (unfold prop; rewrite obj_get_set; by rewrite decide_True).
  rewrite source_of_name. destruct (isValidHopCount _); [|done]. destruct (prop (js "viaHostIds") _); try done.
  intros H. by res_inv H.
Qed.

Lemma raw_step_typed acc v r : raw_route v = Ok r -> import_raw_step options acc v = import_step options acc r.
Proof using Type.
  intros H. pose proof (raw_route_valid v r H) as [Hok Hs]. destruct acc as [a rj]. unfold import_raw_step, import_step, raw_route in *.
  rewrite H. assert (with_source source_upstream r = r) as -> by (destruct r; cbn in *; by subst). by rewrite federated_route_reread.
Qed.

Lemma raw_fold_typed l acc res : fold_res (import_raw_step options) acc l = Ok res ->
  exists rs, map_res raw_route l = Ok rs /\ fold_res (import_step options) acc rs = Ok res.
Proof using Type.
  revert acc. induction l as [|v l IH]; intros acc H; [by exists []|]. cbn [fold_res map_res] in *.
  destruct (raw_route v) as [r|e] eqn:Ev.
  - rewrite (raw_step_typed acc v r Ev) in H. apply bind_Ok_inv in H as (acc' & Ha & H).
    destruct (IH _ H) as (rs & Hrs & Hf). exists (r :: rs). cbn [mbind result_bind fold_res]. by rewrite Hrs, Ha.
  - destruct acc as [a rj]. unfold import_raw_step, raw_route in *. by rewrite Ev in H.
Qed.

Lemma raw_import_typed up l reg x reg' : setImportedRoutes_raw options up l reg = (Ok x, reg') ->
  exists rs, map_res raw_route l = Ok rs /\ setImportedRoutes options up rs reg = (Ok x, reg').
Proof using Type.
  unfold setImportedRoutes_raw, setImportedRoutes. destruct (fold_res (import_raw_step options) ([], []) l) as [[a rj]|e] eqn:E; [|done].
  destruct (raw_fold_typed _ _ _ E) as (rs & Hrs & Hf). intros H. exists rs. by rewrite Hf.
Qed.

Context (Hmax : 0 <= ro_maxFederationHopCount options).

Lemma raw_import_ok up l reg : registry_ok options reg -> registry_ok options (setImportedRoutes_raw options up l reg).2.
Proof using Hhost Hmax.
  intros Hok. destruct (setImportedRoutes_raw options up l reg) as [[x|e] reg'] eqn:E; cbn [snd].
  - destruct (raw_import_typed _ _ _ _ _ E) as (rs & _ & Ht). pose proof (setImportedRoutes_ok options Hhost Hmax up rs reg Hok) as H.
    by rewrite Ht in H.
  - unfold setImportedRoutes_raw in E. destruct (fold_res _ _ _) as [[a rj]|e']; [done|]. by injection E as _ <-.
Qed.

(** A snapshot of a peer's routes.  When one of its routes is malformed
    nothing changes.  Otherwise its accepted routes become the peer's imported
    routes and each rejected one is reported; when that changes the set, every
    cached hop authorization is dropped, the brokers get the new route list, and
    every open route stream gets exactly the routes this host may tell that
    peer; when it does not, nobody is told anything. *)
Theorem setImportedFederatedRoutes_correct up l st : registry_ok options (hr_registry st) ->
  let '(thrown, st') := setImportedFederatedRoutes options up l st in
  match thrown with
  | Some e => st' = st /\ map_res raw_route l = Throw e
  | None => exists rs rejected changed,
      map_res raw_route l = Ok rs /\
      setImportedRoutes options up rs (hr_registry st) = (Ok (rejected, changed), hr_registry st') /\
      registry_ok options (hr_registry st') /\ hr_errors st' = hr_errors st ++ rejected.*2 /\
      if changed
      then hr_authorizer st' = invalidate <$> hr_authorizer st /\
           hr_broker_log st' = hr_broker_log st ++ [createBrokerRoutesControlFrame (getBrokerRoutes (hr_registry st'))] /\
           hr_sent st' = hr_sent st ++ map (fun peer => (peer, snapshot_frame peer (hr_registry st'))) (open_links st)
      else hr_authorizer st' = hr_authorizer st /\ hr_broker_log st' = hr_broker_log st /\ hr_sent st' = hr_sent st
  end.
Proof using C Hhost Hmax.
  intros Hok. unfold setImportedFederatedRoutes. pose proof (raw_import_ok up l (hr_registry st) Hok) as Hok'.
  destruct (setImportedRoutes_raw options up l (hr_registry st)) as [[[rejected changed]|e] reg] eqn:E; cbn [snd] in Hok'.
  - destruct (raw_import_typed _ _ _ _ _ E) as (rs & Hrs & Ht). destruct changed.
    + set (st1 := advertiseRoutes _). rewrite advertiseFederatedRoutes_ok by done.
      exists rs, rejected, true. split_and!; done.
    + exists rs, rejected, false. split_and!; done.
  - unfold setImportedRoutes_raw in E. destruct (fold_res (import_raw_step options) ([], []) l) as [[a rj]|e'] eqn:Ef; [done|].
    injection E as <- <-. split; [by destruct st|]. clear -Hhost Hmax Ef. revert Ef. generalize (@nil FederatedRouteRegistration, @nil (FederatedRouteRegistration * VerserError)).
    induction l as [|v l IH]; intros acc Ef; [done|]. cbn [fold_res map_res] in *. destruct (raw_route v) as [r|e] eqn:Ev.
    + rewrite (raw_step_typed acc v r Ev) in Ef. cbn [mbind result_bind]. destruct (import_step options acc r) as [acc'|e''] eqn:Es; cbn in Ef.
      * by rewrite (IH _ Ef).
      * exfalso. destruct acc as [a rj]. unfold import_step in Es. pose proof (raw_route_valid v r Ev) as [Hr Hs].
        assert (with_source source_upstream r = r) as Hw by (destruct r; cbn in *; by subst).
        rewrite Hw, federated_route_reread in Es by done. cbn [mbind result_bind] in Es.
        destruct (getImportedRouteRejection_spec options Hhost Hmax r) as (o & Ho & _). rewrite Ho in Es. by destruct o.
    + destruct acc as [a rj]. unfold import_raw_step, raw_route in *. rewrite Ev in Ef. cbn in Ef. cbn. congruence.
Qed.
End HostTheory.

(** ** Lifecycle frames *)
Lemma str_eqb_sym s t : str_eqb s t = str_eqb t s.
Proof. apply eq_true_iff_eq. rewrite !str_eqb_eq. naive_solver. Qed.

Lemma removeImportedRoute_spec up t d reg :
  let r := removeImportedRoute up t d reg in
  default [] (map_get up (importedRoutes r.2)) = filter (fun x => same_route t d x = false) (default [] (map_get up (importedRoutes reg))) /\
  (forall o, o <> up -> map_get o (importedRoutes r.2) = map_get o (importedRoutes reg)) /\
  (r.1 = false -> r.2 = reg).
Proof.
  unfold removeImportedRoute. destruct (map_get up (importedRoutes reg)) as [[|x l]|] eqn:E; cbn zeta; cbn [fst snd]; [by rewrite E|..|by rewrite E].
  set (rem := filter (fun x => same_route t d x = false) (x :: l)).
  destruct (length rem =? length (x :: l))%nat eqn:El.
  - cbn [fst snd]. rewrite E. split; [|done]. cbn [default from_option id]. apply Nat.eqb_eq in El. symmetry.
    apply sublist_same_length; [apply sublist_filter|by rewrite <- El].
  - destruct rem as [|y rem'] eqn:Er; cbn [fst snd set_imported importedRoutes].
    + rewrite map_get_delete, decide_True by done. split; [done|]. split; [|done]. intros o Ho. by rewrite map_get_delete, decide_False.
    + rewrite map_get_set_eq. split; [done|]. split; [|done]. intros o Ho. by rewrite map_get_set_ne.
Qed.

(** The (target, domain) pairs of the removal events. *)
Definition removed_by (events : list jsval) (r : FederatedRouteRegistration) : bool :=
  existsb (fun ev => is_str (js "removed") (js_opt_member (js "type") ev) &&
    is_str (fr_targetId r) (js_opt_member (js "targetId") ev) && is_str (fr_domain r) (js_opt_member (js "domain") ev)) events.

Section Lifecycle.
Context {P : Platform} (options : HostRouteRegistryOptions) (hostId : option jsstring) (fresh : jsstring).
#[local] Existing Instance host_callbacks.
Let H : FederatedRouteFrameCallbacks host_routes := host_callbacks options hostId fresh.
#[local] Existing Instance H.

Definition only_removed (owner : jsstring) (events : list jsval) (st st' : host_routes) : Prop :=
  default [] (map_get owner (importedRoutes (hr_registry st'))) =
    filter (fun r => removed_by events r = false) (default [] (map_get owner (importedRoutes (hr_registry st)))) /\
  (forall o, o <> owner -> map_get o (importedRoutes (hr_registry st')) = map_get o (importedRoutes (hr_registry st))) /\
  (hr_registry st' = hr_registry st /\ hr_authorizer st' = hr_authorizer st \/
   exists k, hr_authorizer st' = Nat.iter (S k) invalidate <$> hr_authorizer st) /\
  hr_sent st' = hr_sent st /\ hr_broker_log st' = hr_broker_log st /\ hr_seen st' = hr_seen st.

Lemma host_remove_one owner ev st : lifecycle_event_ok ev = true -> is_str (js "removed") (js_opt_member (js "type") ev) = true ->
  only_removed owner [ev] st (host_removeImportedRoute owner (js_opt_member (js "targetId") ev) (js_opt_member (js "domain") ev) st).
Proof using Type.
  intros _ Hty. unfold only_removed, removed_by. cbn [existsb]. rewrite Hty.
  set (tv := js_opt_member (js "targetId") ev). set (dv := js_opt_member (js "domain") ev).
  unfold host_removeImportedRoute.
  assert ((forall t, tv <> JStr t) \/ (forall d, dv <> JStr d) -> forall r, (true && is_str (fr_targetId r) tv && is_str (fr_domain r) dv || false) = false) as Hno.
  { intros Hn r. destruct Hn as [Hn|Hn]; [destruct tv|destruct dv]; cbn; rewrite ?andb_false_r; try done; naive_solver. }
  destruct tv as [| | | |t| |]; try (rewrite filter_all_in by (intros r _; apply Hno; left; done); by split_and!; [| |left|..]).
  destruct dv as [| | | |d| |]; try (rewrite filter_all_in by (intros r _; apply Hno; right; done); by split_and!; [| |left|..]).
  pose proof (removeImportedRoute_spec owner t d (hr_registry st)) as (H1 & H2 & H3).
  destruct (removeImportedRoute owner t d (hr_registry st)) as [b reg]. cbn [fst snd] in *.
  assert (hr_registry (if b then invalidateRouteAuthorizations (hr_set_registry reg st) else hr_set_registry reg st) = reg) as Hreg by (by destruct b).
  rewrite Hreg, H1. split; [|split; [done|split; [|by destruct b]]].
  - apply list_filter_iff. intros r. cbn. unfold same_route. by rewrite orb_false_r, (str_eqb_sym t), (str_eqb_sym d).
  - destruct b; [right; by exists 0%nat|left]. by rewrite H3.
Qed.

Lemma only_removed_app owner l1 l2 st1 st2 st3 : only_removed owner l1 st1 st2 -> only_removed owner l2 st2 st3 ->
  only_removed owner (l1 ++ l2) st1 st3.
Proof using Type.
  intros (A1 & A2 & A3 & A4 & A5 & A6) (B1 & B2 & B3 & B4 & B5 & B6). unfold only_removed. rewrite B1, A1, B4, A4, B5, A5, B6, A6. split_and!; try done.
  - rewrite list_filter_filter. apply list_filter_iff. intros r. unfold removed_by. rewrite existsb_app, orb_false_iff. tauto.
  - intros o Ho. by rewrite B2, A2.
  - destruct A3 as [[E1 E2]|[k E]], B3 as [[E3 E4]|[j E']].
    + left. split; congruence.
    + right. exists j. by rewrite E', E2.
    + right. exists k. by rewrite E4, E.
    + right. exists (j + S k)%nat. rewrite E', E.
      destruct (hr_authorizer st1) as [a|]; [|done]. cbn [fmap option_fmap option_map]. f_equal. by rewrite <- Nat.iter_add.
Qed.

Lemma host_removals owner events st : forallb lifecycle_event_ok events = true ->
  exists st', run_effects (removals owner events) st = (None, st') /\ only_removed owner events st st'.
Proof using Type.
  revert st. induction events as [|ev events IH]; intros st Hev.
  - exists st. split; [done|]. unfold only_removed. rewrite filter_all_in by done. split_and!; try done. by left.
  - cbn [forallb] in Hev. bools. unfold removals. rewrite filter_cons. destruct (decide _) as [Hr|Hr].
    + cbn [map run_effects cb_removeImportedRoute H host_callbacks].
      destruct (IH (host_removeImportedRoute owner (js_opt_member (js "targetId") ev) (js_opt_member (js "domain") ev) st)) as (st' & Hrun & Ho); [done|].
      exists st'. split; [exact Hrun|]. apply (only_removed_app owner [ev] events _ _ _ (host_remove_one owner ev st ltac:(done) Hr) Ho).
    + destruct (IH st) as (st' & Hrun & Ho); [done|]. exists st'. split; [exact Hrun|].
      apply (only_removed_app owner [ev] events st st st'); [|done]. unfold only_removed, removed_by. apply not_true_is_false in Hr.
      cbn [existsb]. rewrite Hr, filter_all_in by done. split_and!; try done. by left.
Qed.

(** A new lifecycle frame of a peer: the brokers get its events, validated;
    every open link whose remote id is not the peer's gets the frame itself;
    exactly the routes of the peer that a removal event names are dropped, and
    when any is, every cached hop authorization goes with it. *)
Theorem lifecycle_frame_correct owner o e events frame st :
  prop (js "type") o = JStr (js "route-lifecycle") -> prop (js "_eid") o = JStr e -> seen_has (JStr e) (hr_seen st) = false ->
  prop (js "events") o = JArr events -> forallb lifecycle_event_ok events = true -> events <> [] ->
  raw_lifecycle_frame fresh events = Ok frame ->
  exists st', handleFederatedRouteFrame owner (JObj o) st = (None, st') /\
    JStr e ∈ hr_seen st' /\ hr_broker_log st' = hr_broker_log st ++ [JObj frame] /\
    hr_sent st' = hr_sent st ++ map (fun peer => (peer, JObj o)) (filter (fun peer => peer <> owner) (open_links st)) /\
    default [] (map_get owner (importedRoutes (hr_registry st'))) =
      filter (fun r => removed_by events r = false) (default [] (map_get owner (importedRoutes (hr_registry st)))) /\
    (forall p, p <> owner -> map_get p (importedRoutes (hr_registry st')) = map_get p (importedRoutes (hr_registry st))) /\
    (hr_registry st' = hr_registry st \/ exists k, hr_authorizer st' = Nat.iter (S k) invalidate <$> hr_authorizer st).
Proof using Type.
  intros Hty Heid Hnew Hev Hok Hne Hfr. unfold handleFederatedRouteFrame.
  assert (map_has (js "type") o = true) as ->.
  { unfold map_has. unfold prop in Hty. destruct (map_get (js "type") o); [done|]. by cbn in Hty. }
  cbn [negb]. rewrite Hty, Heid. change (is_str (js "federated-routes") (JStr (js "route-lifecycle"))) with false.
  change (is_str (js "route-lifecycle") (JStr (js "route-lifecycle"))) with true. cbv iota.
  change (seenFederationLifecycleEventIds st) with (hr_seen st). rewrite Hnew. unfold handle_lifecycle. rewrite Hev, Hok.
  set (st1 := set_seen (seen_add (JStr e) (hr_seen st)) st).
  cbn [run_effects cb_advertiseRouteLifecycleEvents cb_forwardLifecycleEventsExcluding H host_callbacks].
  assert (advertiseRouteLifecycleEvents hostId fresh events true st1 = (None, hr_log (JObj frame) st1)) as ->.
  { unfold advertiseRouteLifecycleEvents. rewrite Hfr. by destruct events. }
  rewrite forward_tagged by (by rewrite Heid).
  set (st2 := hr_send _ (hr_log (JObj frame) st1)).
  destruct (host_removals owner events st2 Hok) as (st' & -> & (A1 & A2 & A3 & A4 & A5 & A6)). exists st'. split; [done|].
  assert (JStr e ∈ hr_seen st1) as Hin.
  { subst st1. cbn. unfold seen_add. destruct (SEEN_LIMIT <=? len (hr_seen st)); cbn [seen_has existsb]; [by left|].
    rewrite Hnew. apply elem_of_app. right. by left. }
  split_and!; [by rewrite A6|by rewrite A5|by rewrite A4|done|done|].
  destruct A3 as [[-> _]|[k ->]]; [by left|right; by exists k].
Qed.

(** An event this host originates is tagged with its id and a fresh number,
    goes to every open link, and is discarded when it comes back through a
    cycle, whoever relays it. *)
Theorem own_event_discarded o st : prop (js "type") o = JStr (js "route-lifecycle") -> prop (js "_eid") o = JUndef ->
  [] ∉ open_links st ->
  let n := federationLifecycleEventIdCounter st + 1 in
  let st' := forwardFederationEventsToPeers hostId [] o st in
  exists o', prop (js "_eid") o' = JStr (lifecycle_eid (default (js "host") hostId) n) /\ (forall k, k <> js "_eid" -> prop k o' = prop k o) /\
    hr_sent st' = hr_sent st ++ map (fun peer => (peer, JObj o')) (open_links st) /\ federationLifecycleEventIdCounter st' = n /\
    forall owner, handleFederatedRouteFrame owner (JObj o') st' = (None, st').
Proof using Type.
  intros Hty He Hemp n st'. set (eid := lifecycle_eid (default (js "host") hostId) n).
  exists (obj_assign (js "_eid") (JStr eid) o).
  assert (forall k, prop k (obj_assign (js "_eid") (JStr eid) o) = if decide (k = js "_eid") then JStr eid else prop k o) as Hprop.
  { intros k. unfold prop. rewrite obj_get_assign. rewrite decide_False by (by vm_compute). by case_decide. }
  assert (st' = hr_send (map (fun peer => (peer, JObj (obj_assign (js "_eid") (JStr eid) o))) (open_links st))
    (hr_set_counter n (hr_set_seen (seen_add (JStr eid) (hr_seen st)) st))) as Est.
  { subst st'. unfold forwardFederationEventsToPeers. rewrite He. cbn [tagFederatedLifecycleFrame]. fold n eid. f_equal.
    unfold forwardFederatedLifecycleEventsExcluding, open_links, all_links.
    rewrite map_app, !open_targets. cbn [hr_set_counter hr_set_seen hr_with upstreamLinks inboundFederationHosts].
    unfold open_links, all_links in Hemp. rewrite filter_app, !map_app, not_elem_of_app in *. destruct Hemp as [E1 E2].
    by rewrite !(filter_all_in (fun peer : jsstring => peer <> [])) by (by intros x Hx ->). }
  split_and!.
  - by rewrite Hprop, decide_True.
  - intros k Hk. by rewrite Hprop, decide_False.
  - by rewrite Est.
  - by rewrite Est.
  - intros owner. unfold handleFederatedRouteFrame.
    assert (map_has (js "type") (obj_assign (js "_eid") (JStr eid) o) = true) as ->.
    { unfold map_has. rewrite obj_get_assign. rewrite decide_False by (by vm_compute). rewrite decide_False by (by vm_compute).
      unfold prop in Hty. destruct (map_get (js "type") o); [done|]. by cbn in Hty. }
    cbn [negb]. rewrite (Hprop (js "type")), (Hprop (js "_eid")), (decide_True (P:=js "_eid" = js "_eid")) by done.
    rewrite (decide_False (P:=js "type" = js "_eid")) by (by vm_compute). rewrite Hty.
    change (is_str (js "federated-routes") (JStr (js "route-lifecycle"))) with false.
    change (is_str (js "route-lifecycle") (JStr (js "route-lifecycle"))) with true. cbv iota.
    assert (seen_has (JStr eid) (seenFederationLifecycleEventIds st') = true) as ->; [|done].
    change (seenFederationLifecycleEventIds st') with (hr_seen st'). rewrite Est. cbn [hr_send hr_with hr_seen hr_set_counter hr_set_seen].
    unfold seen_add. destruct (SEEN_LIMIT <=? len (hr_seen st)).
    + cbn. by rewrite str_eqb_refl.
    + destruct (seen_has (JStr eid) (hr_seen st)) eqn:Es; [done|]. unfold seen_has. rewrite existsb_app. cbn. by rewrite str_eqb_refl, orb_true_r.
Qed.

(** The frames of an upstream link are handled under the name this host gave
    the link, but a frame is kept from its sender by the sender's own host id:
    under another name the frame goes straight back to where it came from. *)
Lemma alias_echo upstreamId remote o st : upstreamLinks st = [(upstreamId, {| rl_remoteHostId := remote; rl_open := true |})] ->
  inboundFederationHosts st = [] -> upstreamId <> remote -> prop (js "_eid") o <> JUndef ->
  hr_sent (forwardFederationEventsToPeers hostId upstreamId o st) = hr_sent st ++ [(remote, JObj o)].
Proof using Type.
  intros Hu Hi Hne He. rewrite forward_tagged by done. unfold open_links, all_links. rewrite Hu, Hi. cbn [hr_send hr_with hr_sent].
  f_equal. cbn [fmap list_fmap snd app]. rewrite filter_cons_True by done. cbn [map rl_remoteHostId].
  rewrite filter_cons_True by done. done.
Qed.
End Lifecycle.

(** ** Hosts of a network: each with its own options and id *)
Record host_node := { hn_options : HostRouteRegistryOptions; hn_hostId : option jsstring; hn_routes : host_routes }.
Definition on_routes (n : host_node) (r : option exn * host_routes) : option exn * host_node :=
  (r.1, {| hn_options := hn_options n; hn_hostId := hn_hostId n; hn_routes := r.2 |}).

Section Nodes.
Context {P : Platform} (fresh : jsstring).

#[export] Instance node_callbacks : FederatedRouteFrameCallbacks host_node := {
  seenFederationLifecycleEventIds n := hr_seen (hn_routes n);
  set_seen l n := (on_routes n (None, hr_set_seen l (hn_routes n))).2;
  cb_setImportedRoutes up l n := on_routes n (setImportedFederatedRoutes (hn_options n) up l (hn_routes n));
  cb_advertiseRouteLifecycleEvents evs skip n := on_routes n (advertiseRouteLifecycleEvents (hn_hostId n) fresh evs skip (hn_routes n));
  cb_forwardLifecycleEventsExcluding owner frame n :=
    on_routes n (match frame with JObj o => (None, forwardFederationEventsToPeers (hn_hostId n) owner o (hn_routes n)) | _ => (None, hn_routes n) end);
  cb_removeImportedRoute owner t d n := on_routes n (None, host_removeImportedRoute owner t d (hn_routes n));
}.

#[export] Instance node_laws : @FrameHostLaws host_node node_callbacks.
Proof using Type.
  refine {| fh_sent := fun n => hr_sent (hn_routes n); fh_links := fun n => open_links (hn_routes n) |}.
  - done.
  - intros events n. exact (@fh_advertise _ _ (host_laws (hn_options n) (hn_hostId n) fresh) events (hn_routes n)).
  - intros owner frame n He. exact (@fh_forward _ _ (host_laws (hn_options n) (hn_hostId n) fresh) owner frame (hn_routes n) He).
  - intros owner t d n. exact (@fh_remove _ _ (host_laws (hn_options n) (hn_hostId n) fresh) owner t d (hn_routes n)).
Defined.

(** A frame whose events validate is never refused. *)
Lemma node_accepts o events frame : prop (js "type") o = JStr (js "route-lifecycle") -> prop (js "_eid") o <> JUndef ->
  prop (js "events") o = JArr events -> forallb lifecycle_event_ok events = true -> raw_lifecycle_frame fresh events = Ok frame ->
  accepted (JObj o).
Proof using Type.
  intros Hty He Hev Hok Hfr owner n. unfold handleFederatedRouteFrame.
  destruct (map_has (js "type") o) eqn:Eh.
  2: { unfold map_has in Eh. unfold prop in Hty. destruct (map_get (js "type") o); [done|]. by cbn in Hty. }
  cbn [negb]. rewrite Hty. change (is_str (js "federated-routes") (JStr (js "route-lifecycle"))) with false.
  change (is_str (js "route-lifecycle") (JStr (js "route-lifecycle"))) with true. cbv iota.
  assert (forall m : host_node, (handle_lifecycle owner (JObj o) o m).1 = None) as Hh.
  { intros m. unfold handle_lifecycle. rewrite Hev, Hok. cbn [run_effects].
    destruct (cb_advertiseRouteLifecycleEvents events true m) as [x m1] eqn:Ea.
    assert (x = None) as ->.
    { cbn [cb_advertiseRouteLifecycleEvents node_callbacks] in Ea. unfold advertiseRouteLifecycleEvents in Ea. rewrite Hfr in Ea.
      unfold on_routes in Ea. by destruct events; injection Ea as <-. }
    cbn [cb_forwardLifecycleEventsExcluding node_callbacks on_routes fst snd].
    destruct (removals_quiet owner events (on_routes m1 (None, forwardFederationEventsToPeers (hn_hostId m1) owner o (hn_routes m1))).2) as (Hr & _).
    exact Hr. }
  destruct (prop (js "_eid") o); try done; (case_match; [done|apply Hh]).
Qed.
(** Advertising events of its own, a host tags them and writes them to its links:
    what [lifecycle_flood_reaches] starts from. *)
Lemma node_originates events frame (n : host_node) e h net : events <> [] -> raw_lifecycle_frame fresh events = Ok frame ->
  e = lifecycle_eid (default (js "host") (hn_hostId n)) (federationLifecycleEventIdCounter (hn_routes n) + 1) ->
  len (hr_seen (hn_routes n)) < SEEN_LIMIT -> seen_has (JStr e) (hr_seen (hn_routes n)) = false -> [] ∉ fh_links n ->
  map_get h (n_hosts net) = Some n ->
  let n' := (cb_advertiseRouteLifecycleEvents events false n).2 in
  originates e (JObj (obj_assign (js "_eid") (JStr e) frame)) h net
    {| n_hosts := map_set h n' (n_hosts net); n_flight := n_flight net ++ written h n n' |}.
Proof using Type.
  intros Hne Hfr He Hlen Hno Hlinks Hn n'. exists n, n'. split; [done|].
  assert (hn_routes n' = hr_send (map (fun peer => (peer, JObj (obj_assign (js "_eid") (JStr e) frame))) (open_links (hn_routes n)))
    (hr_set_counter (federationLifecycleEventIdCounter (hn_routes n) + 1) (hr_set_seen (hr_seen (hn_routes n) ++ [JStr e]) (hr_log (JObj frame) (hn_routes n))))) as E.
  { unfold n'. cbn [cb_advertiseRouteLifecycleEvents node_callbacks on_routes snd hn_routes]. unfold advertiseRouteLifecycleEvents.
    destruct events as [|ev events]; [done|]. rewrite Hfr. cbn [snd]. unfold forwardFederationEventsToPeers.
    assert (prop (js "_eid") frame = JUndef) as ->.
    { unfold raw_lifecycle_frame in Hfr. apply bind_Ok_inv in Hfr as (es & _ & [= <-]). done. }
    unfold tagFederatedLifecycleFrame. cbn zeta. change (federationLifecycleEventIdCounter (hr_log (JObj frame) (hn_routes n))) with (federationLifecycleEventIdCounter (hn_routes n)).
    change (hr_seen (hr_log (JObj frame) (hn_routes n))) with (hr_seen (hn_routes n)). rewrite <- He.
    assert (seen_add (JStr e) (hr_seen (hn_routes n)) = hr_seen (hn_routes n) ++ [JStr e]) as ->.
    { unfold seen_add. rewrite (proj2 (Z.leb_gt _ _)) by done. by rewrite Hno. }
    f_equal. unfold forwardFederatedLifecycleEventsExcluding. set (f := JObj _). 
    change (inboundFederationHosts (hr_set_counter _ _)) with (inboundFederationHosts (hn_routes n)).
    change (upstreamLinks (hr_set_counter _ _)) with (upstreamLinks (hn_routes n)).
    rewrite map_app, !open_targets, <- map_app, <- filter_app, <- map_app, <- filter_app. change (_ ++ _) with (all_links (hn_routes n)).
    fold (open_links (hn_routes n)). f_equal. apply filter_all_in. intros peer Hp ->. by apply Hlinks. }
  unfold seenFederationLifecycleEventIds, fh_links, fh_sent. cbn [node_callbacks node_laws]. rewrite E. by split_and!.
Qed.
End Nodes.

(** ** A triangle of hosts *)
Definition sample_node (id : string) (peers : list string) (seen : list jsval) : host_node :=
  {| hn_options := {| ro_hostId := js id; ro_maxFederationHopCount := 4 |}; hn_hostId := Some (js id);
     hn_routes := {| hr_registry := registry_init; hr_authorizer := Some authorizer_init; upstreamLinks := [];
       inboundFederationHosts := map (fun p => (js p, {| rl_remoteHostId := js p; rl_open := true |})) peers;
       hr_seen := seen; federationLifecycleEventIdCounter := 0; hr_sent := []; hr_broker_log := []; hr_errors := [] |} |}.
Definition sample_event : jsval :=
  JObj [(js "type", JStr (js "removed")); (js "targetId", JStr (js "g1")); (js "domain", JStr (js "a.example"))].
Definition sample_frame : list (jsstring * jsval) :=
  [(js "type", JStr (js "route-lifecycle")); (js "events", JArr [sample_event]); (js "_eid", JStr (js "a:1"))].
Definition sample_start : network host_node :=
  {| n_hosts := [(js "a", sample_node "a" ["b"; "c"]%string []); (js "b", sample_node "b" ["a"; "c"]%string []);
                 (js "c", sample_node "c" ["a"; "b"]%string [])];
     n_flight := [] |}.
Definition same_owner (b a : jsstring) : jsstring := a.

Section Samples.
Context {S : Type} `{FrameHostLaws S} (owner : jsstring -> jsstring -> jsstring).
(** Delivering the first frame in flight, [k] times. *)
Fixpoint deliver_first (k : nat) (n : network S) : option (network S) :=
  match k with
  | O => Some n
  | Datatypes.S k =>
      match n_flight n with
      | (a, b, f) :: rest =>
          match map_get b (n_hosts n) with
          | Some s => let s' := (handleFederatedRouteFrame (owner b a) f s).2 in
              deliver_first k {| n_hosts := map_set b s' (n_hosts n); n_flight := rest ++ written b s s' |}
          | None => None
          end
      | [] => None
      end
  end.
Lemma deliver_first_run k n n' : deliver_first k n = Some n' -> net_run owner k n n'.
Proof.
  revert n. induction k as [|k IH]; intros n Hd; [injection Hd as <-; constructor|]. cbn in Hd.
  destruct n as [hosts flight]. cbn [n_flight n_hosts] in Hd. destruct flight as [|[[a b] f] rest]; [done|].
  destruct (map_get b hosts) as [s|] eqn:Eb; [|done]. econstructor; [|by apply IH].
  exact (net_deliver owner a b f hosts [] rest s Eb).
Qed.
End Samples.

Section HostWitnesses.
#[local] Existing Instance ascii_platform.
#[local] Instance sample_callbacks : FederatedRouteFrameCallbacks host_node := node_callbacks (js "gen-1").
#[local] Instance sample_laws : FrameHostLaws host_node := node_laws (js "gen-1").

(** Host [a] advertises the event: it tags it and writes it to [b] and [c]. *)
Definition sample_network : network host_node :=
  let s := sample_node "a" ["b"; "c"]%string [] in
  let s' := (cb_advertiseRouteLifecycleEvents [sample_event] false s).2 in
  {| n_hosts := map_set (js "a") s' (n_hosts sample_start); n_flight := n_flight sample_start ++ written (js "a") s s' |}.
Definition sample_settled : network host_node := default sample_network (deliver_first same_owner 4 sample_network).

Lemma sample_run : net_run same_owner 4 sample_network sample_settled.
Proof. apply deliver_first_run. vm_compute. reflexivity. Qed.

Lemma sample_tagged : tagged_frame (JObj sample_frame) (js "a:1").
Proof. by exists sample_frame. Qed.

Lemma sample_net_ok : net_ok [js "a:1"] sample_network.
Proof.
  split.
  - apply (bool_decide_unpack _). vm_compute. exact I.
  - repeat constructor; [exists [js "a:1"]|exists []|exists []]; (split; [done|split; [repeat constructor; set_solver|set_solver]]).
  - repeat constructor; (exists (js "a:1"); split; [by left|apply sample_tagged]).
Qed.
Lemma sample_start_ok : net_ok [js "a:1"] sample_start.
Proof.
  split; [apply (bool_decide_unpack _); vm_compute; exact I| |constructor].
  repeat constructor; exists []; (split; [done|split; [constructor|set_solver]]).
Qed.
Lemma sample_fresh : fresh_id (js "a:1") sample_start.
Proof.
  split; [|by intros m ?%elem_of_nil]. intros b (s & Hs & He). cbn [sample_start n_hosts map_get] in Hs.
  repeat case_decide; simplify_eq; by apply elem_of_nil in He.
Qed.
Lemma sample_originates : originates (js "a:1") (JObj sample_frame) (js "a") sample_start sample_network.
Proof.
  replace (JObj sample_frame) with (JObj (obj_assign (js "_eid") (JStr (js "a:1")) [(js "type", JStr (js "route-lifecycle")); (js "events", JArr [sample_event])])) by (by vm_compute).
  apply (node_originates (js "gen-1") [sample_event] _ (sample_node "a" ["b"; "c"]%string [])); try (vm_compute; done).
  intros H. apply (bool_decide_unpack _ : bool_decide ([] ∉ fh_links (sample_node "a" ["b"; "c"]%string [])) -> _) in H; [done|vm_compute; exact I].
Qed.
Lemma sample_accepted : accepted (JObj sample_frame).
Proof. eapply (node_accepts (js "gen-1") sample_frame [sample_event]); vm_compute; reflexivity || discriminate. Qed.

Lemma lifecycle_flood_terminates_witness : net_run same_owner 4 sample_network sample_settled /\ n_flight sample_settled = [] /\
  net_ok [js "a:1"] sample_settled.
Proof.
  split; [apply sample_run|]. split; [vm_compute; reflexivity|].
  refine (proj1 (proj2 (lifecycle_flood_terminates same_owner [js "a:1"] _ _ sample_network 4 sample_settled sample_net_ok sample_run)));
    [apply NoDup_singleton|vm_compute; discriminate].
Defined.

Lemma lifecycle_flood_reaches_witness : n_flight sample_settled = [] /\ has_seen (js "a:1") sample_settled (js "c").
Proof.
  split; [vm_compute; reflexivity|].
  refine (proj1 (lifecycle_flood_reaches same_owner [js "a:1"] _ _ sample_start sample_network 4 sample_settled (js "a:1") (JObj sample_frame) (js "a") (js "c")
    sample_start_ok _ sample_fresh sample_tagged sample_accepted _ sample_originates sample_run _ _)).
  - apply NoDup_singleton.
  - vm_compute. discriminate.
  - by left.
  - by intros a b c _ ->.
  - vm_compute. reflexivity.
  - apply rtc_once. eexists. split; [vm_compute; reflexivity|]. right. by left.
Defined.

Definition sample_routes : host_routes :=
  {| hr_registry := registry_init; hr_authorizer := Some authorizer_init;
     upstreamLinks := [(js "h3", {| rl_remoteHostId := js "h3"; rl_open := true |})];
     inboundFederationHosts := [(js "h2", {| rl_remoteHostId := js "h2"; rl_open := true |})];
     hr_seen := []; federationLifecycleEventIdCounter := 0; hr_sent := []; hr_broker_log := []; hr_errors := [] |}.

Lemma setImportedFederatedRoutes_correct_witness :
  exists st', setImportedFederatedRoutes RouteRegistry.sample_options (js "h2") [federated_route_json sample_import] sample_routes = (None, st') /\
    registry_ok RouteRegistry.sample_options (hr_registry st') /\ length (hr_sent st') = 2%nat.
Proof.
  pose proof (setImportedFederatedRoutes_correct RouteRegistry.sample_options sample_host ltac:(vm_compute; discriminate)
    (js "h2") [federated_route_json sample_import] sample_routes (registry_init_ok _)) as H.
  assert (forall x, (setImportedFederatedRoutes RouteRegistry.sample_options (js "h2") [federated_route_json sample_import] sample_routes).1 = Some x -> False) as Hno
    by (intros x; vm_compute; discriminate).
  assert (length (hr_sent (setImportedFederatedRoutes RouteRegistry.sample_options (js "h2") [federated_route_json sample_import] sample_routes).2) = 2%nat) as Hlen
    by (vm_compute; reflexivity).
  destruct (setImportedFederatedRoutes _ _ _ _) as [[x|] st']; [by destruct (Hno x)|].
  destruct H as (rs & rejected & changed & _ & _ & Hok & _). exists st'. split; [reflexivity|]. split; [exact Hok|exact Hlen].
Defined.

Lemma lifecycle_frame_correct_witness :
  exists st', @handleFederatedRouteFrame _ (host_callbacks RouteRegistry.sample_options (Some (js "h1")) (js "gen-1")) (js "h2") (JObj sample_frame) sample_routes = (None, st') /\
    hr_sent st' = [(js "h3", JObj sample_frame)].
Proof.
  destruct (lifecycle_frame_correct RouteRegistry.sample_options (Some (js "h1")) (js "gen-1") (js "h2") sample_frame (js "a:1") [sample_event]
    [(js "type", JStr (js "route-lifecycle")); (js "events", JArr [sample_event])] sample_routes)
    as (st' & H1 & _ & _ & H2 & _); try (vm_compute; reflexivity || discriminate).
  exists st'. split; [exact H1|]. rewrite H2. vm_compute. reflexivity.
Defined.

Lemma own_event_discarded_witness :
  prop (js "_eid") [(js "type", JStr (js "route-lifecycle")); (js "events", JArr [sample_event])] = JUndef /\
  federationLifecycleEventIdCounter (forwardFederationEventsToPeers (Some (js "h1")) []
    [(js "type", JStr (js "route-lifecycle")); (js "events", JArr [sample_event])] sample_routes) = 1.
Proof.
  split; [vm_compute; reflexivity|].
  destruct (own_event_discarded RouteRegistry.sample_options (Some (js "h1")) (js "gen-1")
    [(js "type", JStr (js "route-lifecycle")); (js "events", JArr [sample_event])] sample_routes) as (o' & _ & _ & _ & H & _);
    [vm_compute; reflexivity|vm_compute; reflexivity| |exact H].
  apply (bool_decide_unpack _). vm_compute. exact I.
Defined.
End HostWitnesses.
