(* ===== verification/Effects.v ===== *)
(** Computations with effects: asynchronous code as a function of everything
    that has happened so far.

    A computation is given the history of events and returns its outcome with
    the events it adds.  What the outside world answers (a callback, an awaited
    promise, the state of a stream) is a function of the history at the moment of
    asking; a theorem that holds for every such world holds for every
    interleaving of the other activities of the process. *)
From S2P Require Import Prelude Json Errors.

Definition eio (X Ev A : Type) : Type := list Ev -> result X A * list Ev.
(** The errors are those of the source, unless a component has its own. *)
Abbreviation io := (eio exn).

Section Io.
Context {X Ev : Type}.
Implicit Types h t : list Ev.

#[export] Instance io_ret : MRet (eio X Ev) := fun A a h => (Ok a, []).
#[export] Instance io_bind : MBind (eio X Ev) := fun A B k m h =>
  let '(r, t) := m h in
  match r with
  | Ok a => let '(r', t') := k a (h ++ t) in (r', t ++ t')
  | Throw e => (Throw e, t)
  end.
#[export] Instance io_fmap : FMap (eio X Ev) := fun A B f m h => let '(r, t) := m h in (f <$> r, t).

(** A computation without effects. *)
Definition io_lift {A} (r : result X A) : eio X Ev A := fun h => (r, []).
Definition io_throw {A} (e : X) : eio X Ev A := io_lift (Throw e).
(** Reading what is there now. *)
Definition io_read {A} (f : list Ev -> A) : eio X Ev A := fun h => (Ok (f h), []).
Definition io_do (e : Ev) : eio X Ev unit := fun h => (Ok tt, [e]).
(** Awaiting an answer of the world; the event records it. *)
Definition io_await {A} (f : list Ev -> result X A) (event : result X A -> Ev) : eio X Ev A := fun h => (f h, [event (f h)]).
(** [try { m } catch (e) { handler e }] *)
Definition io_catch {A} (m : eio X Ev A) (handler : X -> eio X Ev A) : eio X Ev A := fun h =>
  let '(r, t) := m h in
  match r with
  | Ok a => (Ok a, t)
  | Throw e => let '(r', t') := handler e (h ++ t) in (r', t ++ t')
  end.
(** A read that may throw. *)
Definition io_ask {A} (f : list Ev -> result X A) : eio X Ev A := fun h => (f h, []).
(** The outcome of [m] as a value. *)
Definition io_try {A} (m : eio X Ev A) : eio X Ev (result X A) := fun h => let '(r, t) := m h in (Ok r, t).
Definition io_when (b : bool) (m : eio X Ev unit) : eio X Ev unit := if b then m else mret tt.

(** ** Specifications *)
(** Every event is allowed at the history it happens in. *)
Definition allowed (Q : list Ev -> Ev -> Prop) h t : Prop := forall t1 e t2, t = t1 ++ e :: t2 -> Q (h ++ t1) e.

(** Started in history [h], [m] does only what [Q] allows, and ends as [Post] says. *)
Definition wp {A} (Q : list Ev -> Ev -> Prop) (m : eio X Ev A) (Post : result X A -> list Ev -> Prop) h : Prop :=
  allowed Q h (m h).2 /\ Post (m h).1 (h ++ (m h).2).
End Io.

(** * Theory *)
Section IoTheory.
Context {X Ev : Type}.
Implicit Types (h t : list Ev) (Q : list Ev -> Ev -> Prop).

Lemma allowed_nil Q h : allowed Q h [].
Proof. intros t1 e t2 E. by destruct t1. Qed.

Lemma allowed_one Q h e : Q h e -> allowed Q h [e].
Proof.
  intros H t1 e' t2 E. destruct t1 as [|x t1]; [|by destruct t1]. injection E as <- <-. by rewrite app_nil_r.
Qed.

Lemma allowed_app Q h t t' : allowed Q h t -> allowed Q (h ++ t) t' -> allowed Q h (t ++ t').
Proof.
  intros H1 H2 t1 e t2 E. apply app_eq_inv in E as [(k & -> & E)|(k & -> & E)].
  - destruct k as [|x k].
    + cbn [app] in E. specialize (H2 [] e t2 (eq_sym E)). rewrite !app_nil_r in H2. exact H2.
    + injection E as <- _. by apply (H1 t1 e k).
  - rewrite app_assoc. by apply (H2 k e t2).
Qed.

Lemma allowed_mono Q Q' h t : (forall h e, Q h e -> Q' h e) -> allowed Q h t -> allowed Q' h t.
Proof. intros H H1 t1 e t2 E. by eapply H, H1. Qed.

Lemma allowed_elem Q h t e : allowed Q h t -> e ∈ t -> exists t1 t2, t = t1 ++ e :: t2 /\ Q (h ++ t1) e.
Proof. intros H (t1 & t2 & ->)%list_elem_of_split. exists t1, t2. split; [done|]. by eapply H. Qed.

Section Rules.
Context (Q : list Ev -> Ev -> Prop).

Lemma wp_ret {A} (a : A) Post h : Post (Ok a) h -> wp Q (mret a : eio X Ev A) Post h.
Proof. intros H. split; [apply allowed_nil|]. by rewrite app_nil_r. Qed.

Lemma wp_lift {A} (r : result X A) Post h : Post r h -> wp Q (io_lift r) Post h.
Proof. intros H. split; [apply allowed_nil|]. by rewrite app_nil_r. Qed.

Lemma wp_throw {A} e (Post : result X A -> list Ev -> Prop) h : Post (Throw e) h -> wp Q (io_throw e) Post h.
Proof. apply wp_lift. Qed.

Lemma wp_read {A} (f : list Ev -> A) Post h : Post (Ok (f h)) h -> wp Q (io_read f : eio X Ev A) Post h.
Proof. intros H. split; [apply allowed_nil|]. by rewrite app_nil_r. Qed.

Lemma wp_ask {A} (f : list Ev -> result X A) Post h : Post (f h) h -> wp Q (io_ask f) Post h.
Proof. intros H. split; [apply allowed_nil|]. by rewrite app_nil_r. Qed.

Lemma wp_do e Post h : Q h e -> Post (Ok tt) (h ++ [e]) -> wp Q (io_do e : eio X Ev unit) Post h.
Proof. intros H1 H2. split; [by apply allowed_one|done]. Qed.

Lemma wp_await {A} (f : list Ev -> result X A) ev Post h :
  Q h (ev (f h)) -> Post (f h) (h ++ [ev (f h)]) -> wp Q (io_await f ev) Post h.
Proof. intros H1 H2. split; [by apply allowed_one|done]. Qed.

Lemma wp_bind {A B} (m : eio X Ev A) (k : A -> eio X Ev B) Post h :
  wp Q m (fun r h' => match r with Ok a => wp Q (k a) Post h' | Throw e => Post (Throw e) h' end) h ->
  wp Q (x ← m; k x) Post h.
Proof.
  unfold wp, mbind, io_bind. destruct (m h) as [[a|e] t]; cbn [fst snd]; intros [H1 H2]; [|done].
  destruct (k a (h ++ t)) as [r' t'] eqn:E. cbn [fst snd] in *. destruct H2 as [H2 H3]. split.
  - by apply allowed_app.
  - by rewrite app_assoc.
Qed.

Lemma wp_fmap {A B} (f : A -> B) (m : eio X Ev A) Post h :
  wp Q m (fun r h' => Post (f <$> r) h') h -> wp Q (f <$> m) Post h.
Proof. unfold wp, fmap at 3 4. unfold io_fmap. destruct (m h) as [r t] eqn:E. cbn [fst snd]. unfold fmap, io_fmap. rewrite E. done. Qed.

Lemma wp_catch {A} (m : eio X Ev A) (hd : X -> eio X Ev A) Post h :
  wp Q m (fun r h' => match r with Ok a => Post (Ok a) h' | Throw e => wp Q (hd e) Post h' end) h ->
  wp Q (io_catch m hd) Post h.
Proof.
  unfold wp, io_catch. destruct (m h) as [[a|e] t]; cbn [fst snd]; intros [H1 H2]; [done|].
  destruct (hd e (h ++ t)) as [r' t'] eqn:E. cbn [fst snd] in *. destruct H2 as [H2 H3]. split.
  - by apply allowed_app.
  - by rewrite app_assoc.
Qed.

Lemma wp_try {A} (m : eio X Ev A) Post h : wp Q m (fun r h' => Post (Ok r) h') h -> wp Q (io_try m) Post h.
Proof. unfold wp, io_try. by destruct (m h). Qed.

Lemma wp_when b (m : eio X Ev unit) Post h : (b = true -> wp Q m Post h) -> (b = false -> Post (Ok tt) h) -> wp Q (io_when b m) Post h.
Proof. intros H1 H2. destruct b; [by apply H1|]. by apply wp_ret, H2. Qed.

Lemma wp_mono {A} (m : eio X Ev A) (Post Post' : result X A -> list Ev -> Prop) h :
  wp Q m Post h -> (forall r t, Post r (h ++ t) -> Post' r (h ++ t)) -> wp Q m Post' h.
Proof. intros [H1 H2] H. split; [done|]. by apply H. Qed.

(** What follows happens later. *)
Lemma wp_prefix {A} (m : eio X Ev A) Post h : wp Q m Post h -> wp Q m (fun r h' => h `prefix_of` h' /\ Post r h') h.
Proof. intros [H1 H2]. split; [done|]. split; [by eexists|done]. Qed.

(** A computation specified beforehand. *)
Lemma wp_call {A} (m : eio X Ev A) (Post Post' : result X A -> list Ev -> Prop) h :
  wp Q m Post h -> (forall r h', h `prefix_of` h' -> Post r h' -> Post' r h') -> wp Q m Post' h.
Proof. intros H1 H2. eapply wp_mono; [by apply wp_prefix|]. intros r t [? ?]. by apply H2. Qed.
End Rules.

Lemma wp_weaken {A} Q Q' (m : eio X Ev A) Post h : (forall h e, Q h e -> Q' h e) -> wp Q m Post h -> wp Q' m Post h.
Proof. intros H [H1 H2]. split; [by eapply allowed_mono|done]. Qed.
(** Whatever is done is done later. *)
Lemma wp_from {A} Q (m : eio X Ev A) Post h : wp (fun h' e => h `prefix_of` h' -> Q h' e) m Post h -> wp Q m Post h.
Proof. intros [H1 H2]. split; [|done]. intros t1 e t2 E. apply (H1 t1 e t2 E). by eexists. Qed.
(** Two specifications of the same run. *)
Lemma wp_and {A} Q Q' (m : eio X Ev A) Post Post' h :
  wp Q m Post h -> wp Q' m Post' h -> wp (fun h e => Q h e /\ Q' h e) m (fun r h' => Post r h' /\ Post' r h') h.
Proof. intros [H1 H2] [H3 H4]. split; [|done]. intros t1 e t2 E. split; eauto. Qed.
(** What was added consists of allowed events. *)
Lemma wp_trail {A} Q (m : eio X Ev A) Post h :
  wp Q m Post h -> wp Q m (fun r h' => Post r h' /\ exists t, h' = h ++ t /\ Forall (fun e => exists hx, Q hx e) t) h.
Proof.
  intros [H1 H2]. split; [done|]. split; [done|]. eexists. split; [done|]. apply Forall_forall. intros e He.
  destruct (allowed_elem _ _ _ _ H1 He) as (t1 & t2 & _ & H). eauto.
Qed.

(** ** Duties
    Some events oblige a computation: after [h ++ [x]], [duty h x] says what may
    come next and how it may end. *)
Section Duty.
Context (obliges : Ev -> bool) (duty : Ev -> list Ev -> Ev -> Prop) (start : list Ev).
(** [x] is the last event since [start] and obliges. *)
Definition obliged (x : Ev) h : Prop := obliges x = true /\ exists t, h = start ++ t ++ [x].
Definition dutiful h e : Prop := forall x, obliged x h -> duty x h e.
Definition quiet h : Prop := forall x, ~ obliged x h.
Lemma quiet_start : quiet start.
Proof. intros x [_ [t E]]. apply (f_equal length) in E. rewrite !length_app in E. cbn in E. lia. Qed.
Lemma quiet_snoc h e : obliges e = false -> quiet (h ++ [e]).
Proof. intros H x [Hx [t E]]. rewrite app_assoc in E. apply app_inj_tail in E as [_ ->]. congruence. Qed.
Lemma quiet_dutiful h e : quiet h -> dutiful h e.
Proof. intros H x Hx. by destruct (H x). Qed.
Lemma obliged_snoc h e x : obliged x (h ++ [e]) -> x = e /\ obliges e = true.
Proof. intros [Hx [t E]]. rewrite app_assoc in E. apply app_inj_tail in E as [_ ->]. done. Qed.
(** A computation that takes up no obligation. *)
Lemma wp_still {A} (m : eio X Ev A) (Post : result X A -> list Ev -> Prop) h :
  quiet h -> wp (fun _ e => obliges e = false) m Post h -> wp dutiful m (fun r h' => quiet h' /\ Post r h') h.
Proof.
  intros Hq [H1 H2]. assert (forall t1 t2, (m h).2 = t1 ++ t2 -> quiet (h ++ t1)) as Hall.
  { intros t1 t2 E. destruct t1 as [|x t1 _] using rev_ind; [by rewrite app_nil_r|]. rewrite app_assoc. apply quiet_snoc.
    apply (H1 t1 x t2). by rewrite E, <- app_assoc. }
  split; [|split; [apply (Hall _ []); by rewrite app_nil_r|done]]. intros t1 e t2 E. by eapply quiet_dutiful, Hall.
Qed.
End Duty.
End IoTheory.

(** Symbolic execution: one rule per construct of the monad. *)
Ltac wp_step :=
  cbv beta match;
  lazymatch goal with
  | |- wp _ (mret _) _ _ => apply wp_ret
  | |- wp _ (io_lift _) _ _ => apply wp_lift
  | |- wp _ (io_throw _) _ _ => apply wp_throw
  | |- wp _ (io_read _) _ _ => apply wp_read
  | |- wp _ (io_ask _) _ _ => apply wp_ask
  | |- wp _ (io_do _) _ _ => apply wp_do
  | |- wp _ (io_await _ _) _ _ => apply wp_await
  | |- wp _ (mbind _ _) _ _ => apply wp_bind
  | |- wp _ (_ <$> _) _ _ => apply wp_fmap
  | |- wp _ (io_catch _ _) _ _ => apply wp_catch
  | |- wp _ (io_try _) _ _ => apply wp_try
  | |- wp _ (io_when _ _) _ _ => apply wp_when; intros ?
  | |- wp _ (if ?b then _ else _) _ _ => destruct b eqn:?
  | |- wp _ (match ?x with _ => _ end) _ _ => destruct x eqn:?
  | |- match ?x with _ => _ end => destruct x eqn:?
  end.
Ltac wp_steps := repeat wp_step.
