(* ===== verification/BrokerRequests.v ===== *)
(** What the host computes for one routed broker request (verser2-host
    [broker-routing.ts], the functions without effects): domains and authorities,
    the route domain, the headers a guest sees, the request envelope, the
    response metadata read back and the response sent to the broker. *)
From S2P Require Import Prelude JsNum Utf8 Json Errors Headers ResponseMetadata Routing FederationCommon Envelope Http2Headers.

Section Requests.
Context {P : Platform}.

(** ** Domains *)
Definition normalizeRequestedDomain (value : jsstring) : jsstring :=
  let authority := trim value in
  match url_hostname authority with
  | Some hostname => strip_last 46 (strip_last 93 (strip_first 91 (to_lower hostname)))
  | None => strip_last 46 (to_lower authority)
  end.

(** [/:(\d+)$/] *)
Definition trailing_port (s : jsstring) : option jsstring :=
  let '(digits, rest) := span_digits (reverse s) in
  match digits, rest with
  | _ :: _, 58 :: _ => Some (reverse digits)
  | _, _ => None
  end.
(** [/^\[[^\]]+\]:(\d+)$/] *)
Definition bracketed_port (s : jsstring) : option jsstring :=
  match s with
  | 91 :: inside =>
      match index_of [93] inside with
      | Some (S n) =>
          match drop (S (S n)) inside with
          | 58 :: port => match port with [] => None | _ => if forallb is_digit port then Some port else None end
          | _ => None
          end
      | _ => None
      end
  | _ => None
  end.
Definition normalizeAuthority (value : jsstring) : jsstring :=
  let authority := trim value in
  let explicitPort := if starts_with (js "[") authority then bracketed_port authority else trailing_port authority in
  match url_hostname authority with
  | Some parsed =>
      let hostname := strip_last 93 (strip_first 91 (to_lower parsed)) in
      match explicitPort with None => hostname | Some port => hostname ++ js ":" ++ port end
  | None => strip_last 46 (to_lower authority)
  end.

Definition headerValue (headers : VerserHeaders) (name : jsstring) : option jsstring :=
  match find (fun p => str_eqb (to_lower p.1) name) headers with
  | Some (_, JStr s) => Some s
  | Some (_, JArr (JStr s :: _)) => Some s
  | _ => None
  end.

(** [a ?? b] on optional strings. *)
Definition or_else {A} (a b : option A) : option A := match a with Some _ => a | None => b end.
Definition requested_host (headers : VerserHeaders) : option jsstring :=
  or_else (headerValue headers (js "host")) (headerValue headers (js ":authority")).

(** [[...new Set(candidates.map(c => normalizeRequestedDomain(c.domain)))]] *)
Definition candidate_domains (candidates : list FederatedRouteRegistration) : list jsstring :=
  fold_left (fun s c => set_add (normalizeRequestedDomain (fr_domain c)) s) candidates [].
Definition has_domain (candidates : list FederatedRouteRegistration) (domain : jsstring) : bool :=
  existsb (fun candidate => str_eqb (normalizeRequestedDomain (fr_domain candidate)) domain) candidates.

Definition resolveRouteDomain (targetId : jsstring) (explicitDomain : option jsstring) (requestedHeaders : VerserHeaders)
    (candidates : list FederatedRouteRegistration) : result exn jsstring :=
  match or_else explicitDomain (requested_host requestedHeaders) with
  | None =>
      match candidate_domains candidates with
      | [] => Throw (verr missing_guest "Target Guest has no active route" [(js "targetId", JStr targetId)])
      | [domain] => Ok domain
      | _ => Throw (verr missing_guest "Target-only request is ambiguous; routeDomain is required" [(js "targetId", JStr targetId)])
      end
  | Some requested =>
      let normalized := normalizeRequestedDomain requested in
      if has_domain candidates normalized then Ok normalized
      else Throw (verr missing_guest "Target Guest route is not available"
                    [(js "targetId", JStr targetId); (js "domain", JStr normalized)])
  end.

Definition rewriteGuestHeaders (requestedHeaders : VerserHeaders) (routeDomain : option jsstring) : VerserHeaders :=
  match routeDomain with
  | None => requestedHeaders
  | Some routeDomain =>
      let rewritten := obj_assign (js "host") (JStr routeDomain)
        (obj_of_entries (filter (fun p => to_lower p.1 <> js "x-forwarded-host") requestedHeaders)) in
      match requested_host requestedHeaders with
      | Some originalHost =>
          if str_eqb (normalizeAuthority originalHost) (normalizeAuthority routeDomain) then rewritten
          else obj_assign (js "x-forwarded-host") (JStr originalHost) rewritten
      | None => rewritten
      end
  end.

(** ** The request envelope *)
Definition opt_json (o : option jsstring) : jsval := match o with Some s => JStr s | None => JUndef end.
Definition record_json (r : HeaderRecord) : jsval := JObj (map (fun p => (p.1, JStr p.2)) r).
Definition header_text_or (headers : VerserHeaders) (name : string) (d : jsstring) : jsstring :=
  to_str (nullish (prop (js name) headers) (JStr d)).

(** The metadata of a request; [route] lists [routeDomain] when the path sends it. *)
Definition request_metadata (requestId sourceId targetId : jsstring) (route : list (jsstring * jsval))
    (method path : jsstring) (headers : VerserHeaders) : result exn jsval :=
  validated ← validateVerserHeaders headers;
  Ok (JObj ([(js "requestId", JStr requestId); (js "sourceId", JStr sourceId); (js "targetId", JStr targetId)] ++ route ++
            [(js "method", JStr method); (js "path", JStr path); (js "headers", record_json (flattenVerserHeaders validated))])).

(** ** The response metadata of a federated host *)
Definition readFederatedResponseMetadata (requestId targetId : jsstring) (stream : readable)
    : result exn (list (jsstring * jsval) * readable) :=
  let context := [(js "requestId", JStr requestId); (js "targetId", JStr targetId)] in
  '(parsed, stream) ← readVerserEnvelopeFromStream DEFAULT_MAX_ENVELOPE_METADATA_BYTES context stream;
  let metadata := pe_metadata parsed in
  match pe_type parsed with
  | env_response => _ ← assertResponseEnvelopeRequestId metadata requestId targetId; Ok (metadata, stream)
  | env_error =>
      _ ← assertResponseEnvelopeRequestId metadata requestId targetId;
      Throw (verr_js (toVerserErrorCode (prop (js "code") metadata)) (to_str (prop (js "message") metadata))
               (obj_spread (obj_of_entries (spread_entries (nullish (prop (js "context") metadata) (JObj []))))
                  [(js "targetId", JStr targetId); (js "requestId", JStr requestId)]))
  | env_request =>
      Throw (verr protocol_error "Federated request returned a non-response envelope"
               [(js "targetId", JStr targetId); (js "requestId", JStr requestId)])
  end.

(** ** The response *)
(** [createRoutedResponseEnvelope] on fields that came from the wire. *)
Definition final_status (v : jsval) : result exn jsnum :=
  match v with
  | JNum n => requireFinalResponseStatusCode n
  | _ => Throw (verr protocol_error "Response status code must be final (200-599)" [(js "statusCode", v)])
  end.
Definition pair_values (v : jsval) : result exn (list jsval) :=
  match v with JArr l => Ok l | _ => Throw (EngineErr TypeError (to_str v)) end.
Definition routed_response (requestId : jsstring) (statusCode statusText headerPairs : jsval)
    : result exn RoutedResponseEnvelope :=
  l ← pair_values headerPairs;
  pairs ← sanitize_pair_values l;
  requestId ← requireNonEmpty requestId "request id";
  statusCode ← final_status statusCode;
  headers ← flattenVerserHeaderPairs pairs;
  statusText ← match statusText with JUndef => Ok None | _ => Some <$> validateVerserStatusText statusText end;
  Ok {| rs_requestId := requestId; rs_statusCode := statusCode; rs_headers := headers;
        rs_statusText := statusText; rs_headerPairs := Some pairs |}.

(** The canonical form of a response: [headerPairs] when it has them, else the
    entries of its sanitised legacy headers. *)
Definition canonical_response (requestId : jsstring) (response : list (jsstring * jsval)) : result exn RoutedResponseEnvelope :=
  entries ← header_entries (prop (js "headers") response);
  validated ← validateVerserHeaders (map (fun p => (p.1, JStr p.2)) (sanitizeHttp2ResponseHeaders entries));
  let legacy := flattenVerserHeaders validated in
  routed_response requestId (prop (js "statusCode") response) (prop (js "statusText") response)
    (nullish (prop (js "headerPairs") response) (JArr (map pair_value legacy))).

Definition metadata_input (requestId : jsstring) (canonical : RoutedResponseEnvelope) : jsval :=
  JObj ([(js "version", JNum (num_int 1)); (js "requestId", JStr requestId); (js "statusCode", JNum (rs_statusCode canonical))] ++
        match rs_statusText canonical with Some t => [(js "statusText", JStr t)] | None => [] end ++
        [(js "headers", JArr (map pair_value (default [] (rs_headerPairs canonical))))]).

(** The header block written to the broker. *)
Definition respondToRemoteBroker (requestId : jsstring) (response : list (jsstring * jsval)) : result exn (list (jsstring * jsval)) :=
  canonical ← canonical_response requestId response;
  metadata ← encodeVerserResponseMetadata (metadata_input requestId canonical);
  Ok (obj_set VERSER_RESPONSE_METADATA_HEADER (JStr metadata)
        (obj_spread [(js ":status", JNum (rs_statusCode canonical))] (map (fun p => (p.1, JStr p.2)) (rs_headers canonical)))).

(** What a local broker is given for the metadata of a response. *)
Definition local_response (metadata : list (jsstring * jsval)) : result exn RoutedResponseEnvelope :=
  match prop (js "requestId") metadata with
  | JStr requestId => canonical_response requestId metadata
  | other => Throw (EngineErr TypeError (to_str other))
  end.
End Requests.

(** * Theory *)
Section RequestsTheory.
Context {P : Platform}.

Lemma candidate_domains_elem cs d : d ∈ candidate_domains cs <-> exists c, c ∈ cs /\ normalizeRequestedDomain (fr_domain c) = d.
Proof.
  unfold candidate_domains. assert (forall acc : list jsstring,
    d ∈ fold_left (fun s c => set_add (normalizeRequestedDomain (fr_domain c)) s) cs acc <->
    d ∈ acc \/ exists c, c ∈ cs /\ normalizeRequestedDomain (fr_domain c) = d) as H; [|rewrite H; set_solver].
  induction cs as [|c cs IH]; intros acc; cbn [fold_left]; [set_solver|].
  rewrite IH, set_add_elem. set_solver.
Qed.

Lemma candidate_domains_NoDup cs : NoDup (candidate_domains cs).
Proof.
  unfold candidate_domains. assert (forall acc : list jsstring, NoDup acc ->
    NoDup (fold_left (fun s c => set_add (normalizeRequestedDomain (fr_domain c)) s) cs acc)) as H; [|apply H; constructor].
  induction cs as [|c cs IH]; intros acc Hacc; [done|]. by apply IH, set_add_NoDup.
Qed.

Lemma has_domain_spec cs d : has_domain cs d = true <-> d ∈ candidate_domains cs.
Proof.
  rewrite candidate_domains_elem. unfold has_domain. rewrite existsb_exists. setoid_rewrite <- list_elem_of_In.
  by setoid_rewrite str_eqb_eq.
Qed.

(** The route domain of a request is the normal form of a candidate's domain:
    the one asked for explicitly, else by the host header, else by the authority,
    else the only one there is. A request is refused, as for a missing guest,
    exactly when what it asks for has no candidate, or when it asks for nothing
    and the candidates have no domain or several. *)
Theorem resolveRouteDomain_correct targetId explicitDomain headers candidates :
  let requested := or_else explicitDomain (or_else (headerValue headers (js "host")) (headerValue headers (js ":authority"))) in
  match resolveRouteDomain targetId explicitDomain headers candidates with
  | Ok d => d ∈ candidate_domains candidates /\
      match requested with
      | Some r => d = normalizeRequestedDomain r
      | None => forall c, c ∈ candidates -> normalizeRequestedDomain (fr_domain c) = d
      end
  | Throw e => (exists v, e = VerserErr v /\ ve_code v = missing_guest) /\
      match requested with
      | Some r => forall c, c ∈ candidates -> normalizeRequestedDomain (fr_domain c) <> normalizeRequestedDomain r
      | None => candidates = [] \/ exists c c', c ∈ candidates /\ c' ∈ candidates /\
                  normalizeRequestedDomain (fr_domain c) <> normalizeRequestedDomain (fr_domain c')
      end
  end.
Proof.
  intros requested. unfold resolveRouteDomain, requested_host. fold requested. clearbody requested.
  pose proof (candidate_domains_elem candidates) as He. destruct requested as [r|].
  - destruct (has_domain candidates (normalizeRequestedDomain r)) eqn:E.
    + split; [by apply has_domain_spec|done].
    + split; [by eexists|]. intros c Hc Heq. apply not_true_iff_false in E. apply E, has_domain_spec, He. eauto.
  - pose proof (candidate_domains_NoDup candidates) as Hnd.
    destruct (candidate_domains candidates) as [|d [|d' l]] eqn:E.
    + split; [by eexists|]. left. destruct candidates as [|c cs]; [done|]. exfalso.
      eapply not_elem_of_nil, (He (normalizeRequestedDomain (fr_domain c))). exists c. split; [by left|done].
    + split; [by left|]. intros c Hc. apply list_elem_of_singleton, He. eauto.
    + split; [by eexists|]. right. destruct (proj1 (He d)) as (c & Hc & <-); [by left|].
      destruct (proj1 (He d')) as (c' & Hc' & <-); [by right; left|]. exists c, c'. split_and!; [done..|].
      intros Heq. rewrite Heq in Hnd. apply NoDup_cons in Hnd as [Hn _]. apply Hn. by left.
Qed.

(** ** The headers a guest sees *)
Definition plain_value (v : jsval) : jsval := value_of_strings v (value_strings v).
(** The value a validated record has under a lower-case name. *)
Definition final_for (n : jsstring) (l : VerserHeaders) : option jsval :=
  last (omap (fun p => if decide (to_lower p.1 = n) then Some (plain_value p.2) else None) l).

Lemma validated_get l r n : n <> js "__proto__" -> validateVerserHeaders l = Ok r -> map_get n r = final_for n l.
Proof.
  intros Hn. unfold validateVerserHeaders, final_for. 
  match goal with |- fold_res ?f _ _ = _ -> _ =>
    assert (forall acc : VerserHeaders, fold_res f acc l = Ok r -> map_get n r =
      match last (omap (fun p => if decide (to_lower p.1 = n) then Some (plain_value p.2) else None) l) with
      | Some v => Some v | None => map_get n acc end) as H end; [|intros H0; rewrite (H _ H0); by destruct (last _)].
  induction l as [|[m v] l IH]; intros acc H; cbn [fold_res] in H; [by apply Ok_inj in H as <-|].
  apply bind_Ok_inv in H as (acc' & Hs & H). rewrite (IH _ H). apply bind_Ok_inv in Hs as (? & _ & Hs).
  apply bind_Ok_inv in Hs as (? & _ & Hs). apply bind_Ok_inv in Hs as (? & _ & Hs). apply Ok_inj in Hs as <-.
  rewrite obj_get_assign. cbn [omap list_omap fst snd]. destruct (decide (to_lower m = n)) as [<-|Hne].
  - rewrite last_cons, decide_False, decide_True by done. by destruct (last _).
  - destruct (last _); [done|]. case_decide; [done|]. by rewrite decide_False.
Qed.

Lemma final_for_none n l : (forall p, p ∈ l -> to_lower p.1 <> n) -> final_for n l = None.
Proof.
  unfold final_for. induction l as [|p l IH]; intros H; [done|]. cbn [omap list_omap].
  rewrite decide_False by (apply H; by left). apply IH. intros q Hq. apply H. by right.
Qed.

(** One spelling of a name: what the record has under it is what counts. *)
Lemma final_for_unique n k l : to_lower k = n -> map_wf l -> (forall p, p ∈ l -> to_lower p.1 = n -> p.1 = k) ->
  final_for n l = plain_value <$> map_get k l.
Proof.
  intros Hk Hwf. unfold map_wf, map_keys in Hwf. induction l as [|[m v] l IH]; intros H; [done|].
  apply NoDup_cons in Hwf as [Hni Hnd]. cbn [map_get].
  assert (forall p, p ∈ l -> to_lower p.1 = n -> p.1 = k) as H' by (intros p Hp; apply H; by right).
  destruct (decide (k = m)) as [<-|Hne].
  - unfold final_for. cbn [omap list_omap fst snd]. rewrite decide_True by done. rewrite last_cons.
    fold (final_for n l). rewrite final_for_none; [done|]. intros p Hp E.
    apply Hni, list_elem_of_fmap. exists p. by rewrite (H' p Hp E).
  - unfold final_for. cbn [omap list_omap fst snd]. rewrite decide_False; [by apply IH|].
    intros E. apply Hne. symmetry. apply (H (m, v)); [by left|done].
Qed.

Lemma final_for_set_other n k v l : to_lower k <> n -> is_array_index k = false -> final_for n (obj_set k v l) = final_for n l.
Proof.
  intros Hk Hi. unfold obj_set. rewrite Hi. unfold final_for. destruct (map_has k l) eqn:E.
  - f_equal. clear E. induction l as [|[m w] l IH]; csimpl.
    + by rewrite decide_False.
    + destruct (decide (k = m)) as [->|]; csimpl; [by rewrite !decide_False by done|].
      destruct (decide (to_lower m = n)); [by f_equal|done].
  - f_equal. rewrite omap_app. csimpl. rewrite decide_False by done. by rewrite app_nil_r.
Qed.

Lemma final_for_filter n x (l : list (jsstring * jsval)) : n <> x -> final_for n (filter (fun p => to_lower p.1 <> x) l) = final_for n l.
Proof.
  intros Hne. unfold final_for. f_equal. induction l as [|p l IH]; [done|]. rewrite filter_cons.
  case_decide as Hx; csimpl; [by rewrite IH|]. rewrite (decide_False (P := to_lower p.1 = n)); [done|].
  intros E. congruence.
Qed.

Lemma final_for_set_same n k v l : to_lower k = n -> ordered l -> (forall p, p ∈ l -> to_lower p.1 = n -> p.1 = k) ->
  final_for n (obj_set k v l) = Some (plain_value v).
Proof.
  intros Hk Ho Hu. rewrite (final_for_unique n k); [|done|by apply ordered_NoDup, ordered_obj_set|].
  - by rewrite obj_get_set, decide_True.
  - intros p Hp E. apply (list_elem_of_fmap_2 fst) in Hp. apply obj_set_keys_elem in Hp as [->|(q & Eq & Hq)%list_elem_of_fmap]; [done|].
    rewrite Eq in *. by apply Hu.
Qed.

Definition HOST : jsstring := js "host".
Definition FORWARDED : jsstring := js "x-forwarded-host".
Definition guest_base (d : jsstring) (headers : VerserHeaders) : VerserHeaders :=
  obj_set HOST (JStr d) (filter (fun p : jsstring * jsval => to_lower p.1 <> FORWARDED) headers).

Lemma rewrite_guest_base headers d : ordered headers ->
  rewriteGuestHeaders headers (Some d) =
    match or_else (headerValue headers HOST) (headerValue headers (js ":authority")) with
    | Some h => if decide (normalizeAuthority h = normalizeAuthority d) then guest_base d headers
                else obj_set FORWARDED (JStr h) (guest_base d headers)
    | None => guest_base d headers
    end.
Proof.
  intros Ho. unfold rewriteGuestHeaders. fold HOST FORWARDED. rewrite obj_of_entries_ordered by (by apply ordered_filter).
  change (obj_assign HOST ?v ?o) with (obj_set HOST v o). fold (guest_base d headers).
  unfold requested_host. fold HOST. destruct (or_else _ _) as [h|]; [|done].
  change (obj_assign FORWARDED ?v ?o) with (obj_set FORWARDED v o).
  destruct (str_eqb (normalizeAuthority h) (normalizeAuthority d)) eqn:E.
  - apply str_eqb_eq in E. by rewrite decide_True.
  - apply str_eqb_neq in E. by rewrite decide_False.
Qed.

Lemma guest_base_keys d headers p : p ∈ guest_base d headers -> p.1 = HOST \/ exists q, q ∈ headers /\ q.1 = p.1 /\ to_lower p.1 <> FORWARDED.
Proof.
  intros Hp. apply (list_elem_of_fmap_2 fst) in Hp. apply obj_set_keys_elem in Hp as [|(q & -> & [Hl Hq]%list_elem_of_filter)%list_elem_of_fmap]; eauto.
Qed.

Lemma guest_base_final d headers n : ordered headers ->
  (forall p, p ∈ headers -> to_lower p.1 = HOST -> p.1 = HOST) ->
  final_for n (guest_base d headers) =
    if decide (n = HOST) then Some (JStr d) else if decide (n = FORWARDED) then None else final_for n headers.
Proof.
  intros Ho Hhost. case_decide as H1; [|case_decide as H2].
  - subst n. unfold guest_base. rewrite (final_for_set_same _ HOST); [done|reflexivity|by apply ordered_filter|].
    intros p [_ Hp]%list_elem_of_filter. by apply Hhost.
  - subst n. apply final_for_none. intros p Hp E. destruct (guest_base_keys _ _ _ Hp) as [Ep|(q & _ & _ & Hq)]; [|done].
    rewrite Ep in E. vm_compute in E. discriminate E.
  - unfold guest_base. rewrite final_for_set_other; [by apply final_for_filter| |reflexivity].
    intros E. apply H1. rewrite <- E. reflexivity.
Qed.

Lemma guest_forwarded_final d headers h n : ordered headers ->
  final_for n (obj_set FORWARDED (JStr h) (guest_base d headers)) =
    if decide (n = FORWARDED) then Some (JStr h) else final_for n (guest_base d headers).
Proof.
  intros Ho. assert (ordered (guest_base d headers)) as Hb by by apply ordered_obj_set, ordered_filter.
  case_decide as H1.
  - subst n. rewrite (final_for_set_same _ FORWARDED); [done|reflexivity|done|].
    intros p Hp E. destruct (guest_base_keys _ _ _ Hp) as [Ep|(q & _ & _ & Hq)]; [|done].
    rewrite Ep in E. vm_compute in E. discriminate E.
  - apply final_for_set_other; [|reflexivity]. intros E. apply H1. rewrite <- E. reflexivity.
Qed.

(** What the guest sees of a request to a selected route domain, when the
    broker spelled its host header in lower case: the host is the route domain;
    the original host is passed on in x-forwarded-host exactly when it is another
    authority, and what the broker itself sent under that name never is; every
    other header is the broker's. *)
Theorem guest_headers_correct headers d r : ordered headers ->
  (forall p, p ∈ headers -> to_lower p.1 = HOST -> p.1 = HOST) ->
  validateVerserHeaders (rewriteGuestHeaders headers (Some d)) = Ok r ->
  map_get HOST r = Some (JStr d) /\
  map_get FORWARDED r =
    match or_else (headerValue headers HOST) (headerValue headers (js ":authority")) with
    | Some h => if decide (normalizeAuthority h = normalizeAuthority d) then None else Some (JStr h)
    | None => None
    end /\
  forall n, n <> HOST -> n <> FORWARDED -> n <> js "__proto__" -> map_get n r = final_for n headers.
Proof.
  intros Ho Hhost Hr. rewrite (rewrite_guest_base _ _ Ho) in Hr.
  assert (forall n, n <> js "__proto__" -> map_get n r =
    match or_else (headerValue headers HOST) (headerValue headers (js ":authority")) with
    | Some h => if decide (normalizeAuthority h = normalizeAuthority d) then final_for n (guest_base d headers)
                else if decide (n = FORWARDED) then Some (JStr h) else final_for n (guest_base d headers)
    | None => final_for n (guest_base d headers)
    end) as Hget.
  { intros n Hn. rewrite (validated_get _ _ _ Hn Hr). destruct (or_else _ _); [|done].
    case_decide; [done|]. by apply guest_forwarded_final. }
  split_and!; [rewrite Hget by done|rewrite Hget by done|intros n H1 H2 H3; rewrite Hget by done];
    rewrite guest_base_final by done; destruct (or_else _ _); repeat case_decide; done.
Qed.

(** Two spellings of the host: the second one overrides the route domain, and
    nothing says so to the guest. *)
Lemma host_in_two_cases d evil : isValidHeaderValue d = true -> isValidHeaderValue evil = true ->
  validateVerserHeaders (rewriteGuestHeaders [(HOST, JStr d); (js "Host", JStr evil)] (Some d)) = Ok [(HOST, JStr evil)].
Proof.
  intros Hd He. rewrite rewrite_guest_base by reflexivity.
  assert (or_else (headerValue [(HOST, JStr d); (js "Host", JStr evil)] HOST)
    (headerValue [(HOST, JStr d); (js "Host", JStr evil)] (js ":authority")) = Some d) as -> by reflexivity.
  rewrite decide_True by done.
  assert (guest_base d [(HOST, JStr d); (js "Host", JStr evil)] = [(HOST, JStr d); (js "Host", JStr evil)]) as -> by reflexivity.
  unfold validateVerserHeaders. cbn [fold_res value_strings existsb to_str].
  change (to_lower HOST) with HOST. change (to_lower (js "Host")) with HOST. rewrite Hd, He. reflexivity.
Qed.

(** A remote broker's request for a guest of this process is rewritten on entry
    and again at its dispatch: the second time the host already is the route
    domain, and the original host is lost. *)
Lemma rewritten_twice d o : isValidHeaderValue d = true -> isValidHeaderValue o = true -> normalizeAuthority o <> normalizeAuthority d ->
  exists r, validateVerserHeaders (rewriteGuestHeaders [(HOST, JStr o)] (Some d)) = Ok r /\ map_get FORWARDED r = Some (JStr o) /\
    rewriteGuestHeaders (map (fun p => (p.1, JStr p.2)) (flattenVerserHeaders r)) (Some d) = [(HOST, JStr d)].
Proof.
  intros Hd Ho Hne. exists [(HOST, JStr d); (FORWARDED, JStr o)]. split_and!; [|done|].
  - rewrite rewrite_guest_base by reflexivity.
    assert (or_else (headerValue [(HOST, JStr o)] HOST) (headerValue [(HOST, JStr o)] (js ":authority")) = Some o) as -> by reflexivity.
    rewrite decide_False by done.
    assert (obj_set FORWARDED (JStr o) (guest_base d [(HOST, JStr o)]) = [(HOST, JStr d); (FORWARDED, JStr o)]) as -> by reflexivity.
    unfold validateVerserHeaders. cbn [fold_res value_strings existsb to_str].
    change (to_lower HOST) with HOST. change (to_lower FORWARDED) with FORWARDED. rewrite Hd, Ho. reflexivity.
  - assert (map (fun p => (p.1, JStr p.2)) (flattenVerserHeaders [(HOST, JStr d); (FORWARDED, JStr o)]) = [(HOST, JStr d); (FORWARDED, JStr o)]) as -> by reflexivity.
    rewrite rewrite_guest_base by reflexivity.
    assert (or_else (headerValue [(HOST, JStr d); (FORWARDED, JStr o)] HOST) (headerValue [(HOST, JStr d); (FORWARDED, JStr o)] (js ":authority")) = Some d) as -> by reflexivity.
    by rewrite decide_True.
Qed.
End RequestsTheory.

Lemma is_str_iff s v : is_str s v = true <-> v = JStr s.
Proof. destruct v; cbn; try done. rewrite str_eqb_eq. split; [by intros ->|by intros [= ->]]. Qed.

Section ResponseTheory.
Context {P : Platform} {C : CaseMapping}.

Lemma obj_of_entries_keys {V} (l : list (jsstring * V)) :
  ordered (obj_of_entries l) /\ forall k, k ∈ (obj_of_entries l).*1 -> k ∈ l.*1.
Proof.
  unfold obj_of_entries. assert (forall acc : list (jsstring * V), ordered acc ->
    ordered (fold_left (fun o p => obj_set p.1 p.2 o) l acc) /\
    forall k, k ∈ (fold_left (fun o p => obj_set p.1 p.2 o) l acc).*1 -> k ∈ acc.*1 \/ k ∈ l.*1) as H.
  { induction l as [|[k v] l IH]; intros acc Ha; [by split; [|left]|]. cbn [fold_left fst snd].
    destruct (IH (obj_set k v acc)) as [H1 H2]; [by apply ordered_obj_set|]. split; [done|].
    intros k' Hk'. csimpl. rewrite elem_of_cons. apply H2 in Hk' as [Hk'%obj_set_keys_elem|]; [|by auto]. naive_solver. }
  destruct (H [] ordered_nil) as [H1 H2]. split; [done|]. intros k Hk. apply H2 in Hk as [Hk|]; [|done]. by apply elem_of_nil in Hk.
Qed.

Lemma json_record_keys (l : HeaderRecord) : (map (fun p => (p.1, JStr p.2)) l).*1 = l.*1.
Proof. induction l as [|p l IH]; [done|]. csimpl. by rewrite IH. Qed.
Lemma json_record_get n (l : HeaderRecord) : map_get n (map (fun p => (p.1, JStr p.2)) l) = JStr <$> map_get n l.
Proof. induction l as [|[k v] l IH]; [done|]. cbn [map map_get fst snd]. by case_decide. Qed.

(** What a canonical response satisfies. *)
Lemma routed_response_Ok rid code text pairs r : routed_response rid code text pairs = Ok r ->
  exists k, rs_headerPairs r = Some k /\ Forall normal_pair k /\ sanitizeHttp2ResponseHeaderPairs k = Ok k /\
    rs_headers r = obj_of_entries k /\ (exists z, rs_statusCode r = num_int z /\ 200 <= z <= 599).
Proof using C.
  unfold routed_response. intros (l & _ & H)%bind_Ok_inv. apply bind_Ok_inv in H as (k & Hk & H).
  apply bind_Ok_inv in H as (i & _ & H). apply bind_Ok_inv in H as (c & Hc & H).
  apply bind_Ok_inv in H as (hs & Hh & H). apply bind_Ok_inv in H as (t & _ & H). apply Ok_inj in H as <-.
  cbn [rs_headerPairs rs_headers rs_statusCode]. exists k.
  apply sanitize_values_pairs in Hk as (k0 & -> & Hk). apply sanitize_pairs_facts in Hk as (_ & Hn & Hz).
  split_and!; [done..| |].
  - unfold flattenVerserHeaderPairs in Hh. apply bind_Ok_inv in Hh as (l & Hl & Hh). apply Ok_inj in Hh as <-.
    rewrite normalizeHeaderPairs_values, normalize_pairs_id in Hl by done. by apply Ok_inj in Hl as <-.
  - unfold final_status in Hc. destruct code; try done. apply requireStatusInRange_Ok in Hc. naive_solver.
Qed.

Lemma response_record_wf k (r : RoutedResponseEnvelope) : rs_headers r = obj_of_entries k -> map_wf (map (fun p => (p.1, JStr p.2)) (rs_headers r)).
Proof. intros ->. unfold map_wf, map_keys. rewrite json_record_keys. apply ordered_NoDup, obj_of_entries_keys. Qed.

Lemma no_pseudo_header k : Forall normal_pair k -> js ":status" ∉ map_keys (obj_of_entries k).
Proof.
  intros Hn Hin. apply (proj2 (obj_of_entries_keys k)) in Hin. apply list_elem_of_fmap in Hin as (p & E & Hp).
  rewrite Forall_forall in Hn. destruct (Hn p Hp) as [[Hv _] _]. rewrite <- E in Hv. vm_compute in Hv. discriminate Hv.
Qed.

(** The strings are strings of code units. *)
Definition response_units (r : RoutedResponseEnvelope) : Prop :=
  (forall t, rs_statusText r = Some t -> wf_units t) /\ forall k, rs_headerPairs r = Some k -> Forall (fun p => wf_units p.2) k.

Lemma classify_own m text z : decodeVerserResponseMetadata text = Ok m -> rm_statusCode m = num_int z ->
  classifyVerserResponseMetadata z (rm_requestId m) (Some [text]) = Ok (application_response (Some m)).
Proof.
  intros Hd Hc. unfold classifyVerserResponseMetadata. rewrite Hd. cbn [mbind result_bind].
  rewrite str_eqb_refl, Hc. cbn [negb throw_if mbind result_bind]. unfold num_eqb. by rewrite (bool_decide_true (num_int z = num_int z)).
Qed.

(** The response a host sends to a remote broker carries metadata that the
    broker accepts: it classifies the response as the application's answer to
    this very request, with the status of the response and the sanitised header
    pairs in order; the outer headers are those pairs, last one winning, and hold
    no hop-by-hop field. *)
Theorem respondToRemoteBroker_correct rid response r h : wf_units rid -> canonical_response rid response = Ok r ->
  response_units r -> respondToRemoteBroker rid response = Ok h ->
  exists z text m, rs_statusCode r = num_int z /\
    prop (js ":status") h = JNum (num_int z) /\ prop VERSER_RESPONSE_METADATA_HEADER h = JStr text /\
    classifyVerserResponseMetadata z rid (Some [text]) = Ok (application_response (Some m)) /\
    rs_headerPairs r = Some (rm_headers m) /\ rm_statusText m = rs_statusText r /\
    forall n, n <> js ":status" -> n <> VERSER_RESPONSE_METADATA_HEADER ->
      map_get n h = JStr <$> map_get n (obj_of_entries (rm_headers m)) /\ (n ∈ HOP_BY_HOP_HEADERS -> map_get n h = None).
Proof using C.
  intros Hrid Hr [Hut Huh]. unfold respondToRemoteBroker. rewrite Hr. cbn [mbind result_bind].
  intros (text & Ht & H)%bind_Ok_inv. apply Ok_inj in H as <-. unfold canonical_response in Hr. apply bind_Ok_inv in Hr as (es & _ & Hr).
  apply bind_Ok_inv in Hr as (vs & _ & Hr). apply routed_response_Ok in Hr as (k & Hk & Hn & Hz & Hh & z & Hc & Hrange).
  apply encoded_decodes in Ht as (m & Hv & Hok & Hdec).
  set (m0 := {| rm_requestId := rid; rm_statusCode := rs_statusCode r; rm_statusText := rs_statusText r; rm_headers := k |}).
  assert (metadata_input rid r = metadata_json m0) as Em by (unfold metadata_input; by rewrite Hk).
  rewrite Em in Hv. apply validate_sanitized_json in Hv as ->; [|done..].
  assert (forall n, n <> js ":status" -> n <> VERSER_RESPONSE_METADATA_HEADER ->
    map_get n (obj_set VERSER_RESPONSE_METADATA_HEADER (JStr text) (obj_spread [(js ":status", JNum (rs_statusCode r))]
      (map (fun p => (p.1, JStr p.2)) (rs_headers r)))) = JStr <$> map_get n (obj_of_entries k)) as Hget.
  { intros n H1 H2. rewrite obj_get_set, decide_False by done. rewrite obj_spread_get by (by eapply response_record_wf).
    rewrite json_record_get, Hh. cbn [map_get]. rewrite decide_False by done. by destruct (map_get n _). }
  exists z, text, m0. cbn [m0 rm_headers rm_statusText]. split_and!; try done.
  - unfold prop. rewrite obj_get_set, decide_False by (by vm_compute). rewrite obj_spread_get by (by eapply response_record_wf).
    rewrite json_record_get, Hh. replace (map_get (js ":status") (obj_of_entries k)) with (@None jsstring); [by rewrite <- Hc|].
    symmetry. apply map_get_None. by apply no_pseudo_header.
  - unfold prop. by rewrite obj_get_set, decide_True.
  - apply (classify_own m0); [|done]. apply Hdec. split_and!; [done|exact Hut|by apply Huh].
  - intros n H1 H2. split; [by apply Hget|]. intros Hhop. rewrite Hget by done.
    replace (map_get n (obj_of_entries k)) with (@None jsstring); [done|]. symmetry. apply map_get_None. intros Hin.
    apply (proj2 (obj_of_entries_keys k)) in Hin. apply list_elem_of_fmap in Hin as (p & -> & Hp).
    apply sanitize_pairs_Ok in Hz as (k' & _ & ->). apply list_elem_of_filter in Hp as [Hp _].
    by apply removed_field_false in Hp as [? _].
Qed.
End ResponseTheory.

(** C35: What a host makes of the answer of another host.  A federation stream that
    holds an envelope encoded by [encodeVerserEnvelope], whose metadata is plain
    JSON of at most 64 KiB (the encoder refuses no size, the reader does), and a
    body yields the response metadata when it answers this request, and is left at
    the first body byte.  An error envelope for this request is rethrown with the
    code the other host gave when it is a known one, else as a local handler failure.
    Another request's answer or error, and a request, are protocol errors. *)
Theorem federated_response_correct type o b body requestId targetId stream :
  json_plain (JObj o) = true -> encodeVerserEnvelope type (JObj o) = Ok b ->
  byte_length (json_text (JObj o)) <= DEFAULT_MAX_ENVELOPE_METADATA_BYTES -> concat (st_chunks stream) = b ++ body ->
  let refused code := exists e, readFederatedResponseMetadata requestId targetId stream = Throw (VerserErr e) /\ ve_code e = code in
  (prop (js "requestId") o = JStr requestId ->
   match type with
   | env_response => exists stream', readFederatedResponseMetadata requestId targetId stream = Ok (o, stream') /\ concat (st_chunks stream') = body
   | env_error => (forall code, prop (js "code") o = JStr (code_name code) -> refused code) /\
                  ((forall code, prop (js "code") o <> JStr (code_name code)) -> refused local_handler_failure)
   | env_request => refused protocol_error
   end) /\
  (prop (js "requestId") o <> JStr requestId -> refused protocol_error).
Proof.
  intros Hp Hb Hmax Hs. unfold readFederatedResponseMetadata, assertResponseEnvelopeRequestId.
  destruct (stream_envelope DEFAULT_MAX_ENVELOPE_METADATA_BYTES [(js "requestId", JStr requestId); (js "targetId", JStr targetId)]
    type o b body stream Hp Hb Hmax Hs) as (s' & -> & Hs').
  cbn [mbind result_bind pe_type pe_metadata]. split; intros Hid.
  - apply is_str_iff in Hid. rewrite Hid. destruct type; cbn [negb throw_if mbind result_bind]; [by eexists..|].
    split; [intros code Hc|intros Hc]; (eexists; split; [done|]); cbn [ve_code createVerserError].
    + rewrite Hc. apply toVerserErrorCode_name.
    + by apply toVerserErrorCode_unknown.
  - rewrite <- is_str_iff in Hid. apply not_true_iff_false in Hid. rewrite Hid. destruct type; cbn [negb throw_if mbind result_bind]; by eexists.
Qed.

(** ** Witnesses *)
Definition sample_request_headers : VerserHeaders :=
  [(js "host", JStr (js "a.example:8080")); (js "X-Forwarded-Host", JStr (js "forged")); (js "x-trace", JArr [JStr (js "1"); JStr (js "2")])].
Lemma guest_headers_correct_witness : exists r,
  validateVerserHeaders (P := ascii_platform) (rewriteGuestHeaders (P := ascii_platform) sample_request_headers (Some (js "a.example"))) = Ok r /\
  map_get HOST r = Some (JStr (js "a.example")) /\ map_get FORWARDED r = Some (JStr (js "a.example:8080")).
Proof.
  destruct (validateVerserHeaders (P := ascii_platform) (rewriteGuestHeaders (P := ascii_platform) sample_request_headers (Some (js "a.example"))))
    as [r|e] eqn:E; [|vm_compute in E; discriminate E].
  destruct (guest_headers_correct (P := ascii_platform) sample_request_headers (js "a.example") r eq_refl) as (H1 & H2 & _); [|exact E|].
  - intros p Hp. unfold sample_request_headers in Hp. rewrite !elem_of_cons, elem_of_nil in Hp.
    destruct Hp as [->|[->|[->|[]]]]; vm_compute; intros H; done.
  - exists r. split; [reflexivity|]. split; [exact H1|]. rewrite H2. vm_compute. reflexivity.
Defined.

Definition sample_response : list (jsstring * jsval) :=
  [(js "requestId", JStr (js "r-1")); (js "statusCode", JNum (num_int 200)); (js "statusText", JStr (js "OK"));
   (js "headers", JObj [(js "x-a", JStr (js "1")); (js "Connection", JStr (js "x-b")); (js "x-b", JStr (js "2"))])].
Lemma respondToRemoteBroker_correct_witness : exists h text m,
  respondToRemoteBroker (P := ascii_platform) (js "r-1") sample_response = Ok h /\
  prop VERSER_RESPONSE_METADATA_HEADER h = JStr text /\
  classifyVerserResponseMetadata (P := ascii_platform) 200 (js "r-1") (Some [text]) = Ok (application_response (Some m)) /\
  rm_headers m = [(js "x-a", js "1")].
Proof.
  destruct (respondToRemoteBroker (P := ascii_platform) (js "r-1") sample_response) as [h|e] eqn:E; [|vm_compute in E; discriminate E].
  destruct (canonical_response (P := ascii_platform) (js "r-1") sample_response) as [r|e] eqn:Er; [|vm_compute in Er; discriminate Er].
  assert (rs_statusText r = Some (js "OK") /\ rs_headerPairs r = Some [(js "x-a", js "1")] /\ rs_statusCode r = num_int 200) as (Et & Ep & Ec).
  { vm_compute in Er. apply Ok_inj in Er as <-. vm_compute. auto. }
  destruct (respondToRemoteBroker_correct (P := ascii_platform) (js "r-1") sample_response r h) as (z & text & m & Hz & _ & Hm & Hc & Hk & _);
    [repeat constructor|exact Er| |exact E|].
  - split; [rewrite Et; intros t [= <-]|rewrite Ep; intros k [= <-]]; repeat constructor.
  - exists h, text, m. rewrite Ec in Hz. injection Hz as <-. rewrite Ep in Hk. injection Hk as <-. auto.
Defined.

Lemma federated_response_correct_witness : exists e,
  readFederatedResponseMetadata (js "r1") (js "g")
    {| st_chunks := [take 7 sample_envelope_bytes; drop 7 sample_envelope_bytes]; st_ending := st_end |} = Ok (sample_envelope, e) /\
  concat (st_chunks e) = [].
Proof.
  apply (proj1 (federated_response_correct env_response sample_envelope sample_envelope_bytes [] (js "r1") (js "g")
    {| st_chunks := [take 7 sample_envelope_bytes; drop 7 sample_envelope_bytes]; st_ending := st_end |} ltac:(vm_compute; reflexivity)
    ltac:(vm_compute; reflexivity) ltac:(vm_compute; discriminate) ltac:(cbn [st_chunks concat]; rewrite !app_nil_r; apply take_drop)) eq_refl).
Defined.
