(* ===== verification/BrokerRouting.v ===== *)
(** Routing a broker's request (verser2-host [broker-routing.ts], and the
    incoming side of a federation stream in [federation.ts]).

    The functions are computations of [Effects]: what the host answers through
    its callbacks, and what the streams and sessions are like, depends on the
    whole history, so between two steps anything else may happen. *)
From S2P Require Import Prelude JsNum Utf8 Json Errors Headers ResponseMetadata Routing FederationCommon Envelope Http2Headers FederationHost Effects BrokerRequests.

(** ** Peers, requests, events *)
Record PeerInfo := {
  pi_role : jsstring; pi_transport : option jsstring; pi_session : option nat; pi_localGuest : bool;
}.
(** A request stream of a remote broker. *)
Record broker_stream := { bs_session : option nat; bs_headers : IncomingHttpHeaders }.

(** Where bytes come from and go to. *)
Inductive endpoint : Type := ep_broker | ep_body | ep_stream (s : nat).

Record LocalDispatchRequest := {
  ld_requestId : jsstring; ld_sourceId : jsstring; ld_targetId : jsstring; ld_routeDomain : option jsstring;
  ld_method : jsstring; ld_path : jsstring; ld_headers : VerserHeaders; ld_body : endpoint;
  ld_leaseAcquireTimeoutMs : jsnum; ld_context : option jsval; ld_previousHopDomain : option jsstring;
}.
Record VerserLocalBrokerResponse := { lr_envelope : RoutedResponseEnvelope; lr_body : endpoint }.

Inductive lifecycle : Type := lc_requestStarted | lc_requestCompleted | lc_error (e : VerserError).
Inductive routing_event : Type :=
  | ev_lease (queue : bool) (guestId requestId : jsstring) (timeoutMs : jsnum) (answer : result exn (option nat))
  | ev_authorize (previous next : jsstring) (answer : result exn bool)
  | ev_federated (hostId : jsstring) (timeoutMs : jsnum) (answer : result exn (option nat))
  | ev_write (stream : nat) (data : bytes)
  | ev_end (stream : nat) (data : bytes)
  | ev_pipe (source destination : endpoint)
  | ev_close (stream : nat)                    (** with [NGHTTP2_CANCEL] *)
  | ev_read (stream : nat)                     (** its response metadata is awaited *)
  | ev_respond (headers : list (jsstring * jsval))
  | ev_guest (request : LocalDispatchRequest)  (** handed to the listener of an attached guest *)
  | ev_lifecycle (peer : option jsstring) (l : lifecycle)
  | ev_track (peer : jsstring) | ev_untrack (peer : jsstring)
  | ev_untrack_with (body : endpoint) (peers : list jsstring).  (** when the body ends, closes or fails *)
Abbreviation history := (list routing_event).
Abbreviation routing := (io routing_event).

(** What the host promises to the routing functions. *)
Class BrokerRoutingCallbacks := {
  br_getPeer : history -> jsstring -> option nat -> option PeerInfo;
  br_getRouteCandidates : history -> jsstring -> list FederatedRouteRegistration;
  br_tryAcquireLease : history -> jsstring -> jsstring -> jsnum -> result exn (option nat);
  br_acquireLease : history -> jsstring -> jsstring -> jsnum -> result exn nat;
  br_tryAcquireFederatedRequestStream : history -> jsstring -> jsnum -> result exn (option nat);
  br_routeAuthorizerEnabled : history -> bool;
  br_authorizeFederatedHop : history -> jsstring -> jsstring -> result exn bool;
  br_getBrokerDomain : history -> jsstring -> option nat -> option jsstring;
  br_getEgressSourceId : history -> jsstring;
  br_dispatchGuest : history -> LocalDispatchRequest -> result exn VerserLocalBrokerResponse;
}.
(** The streams and sessions of the process. *)
Class RoutingWorld := {
  w_gone : history -> bool;                 (** the broker stream is closed, destroyed, aborted or marked closed *)
  w_session_closed : history -> bool;
  w_stream_closed : history -> nat -> bool;
  w_incoming : history -> nat -> readable;
  w_aborted : history -> bool;              (** the signal of a local dispatch *)
  w_request_id : history -> jsstring;       (** [`req-${Date.now()}`] *)
  (** What the dispatch does with request metadata whose fields do not have their declared types. *)
  w_untyped : list (jsstring * jsval) -> option jsval -> routing VerserLocalBrokerResponse;
}.

Section Routing.
Context {P : Platform} {B : BrokerRoutingCallbacks} {W : RoutingWorld}.

Definition peer_targets (targetId : jsstring) : VerserErrorContext := [(js "targetId", JStr targetId)].
Definition request_targets (requestId targetId : jsstring) : VerserErrorContext :=
  [(js "requestId", JStr requestId); (js "targetId", JStr targetId)].

(** ** Authorization of one federation hop *)
Inductive FederationHopOutcome : Type := hop_not_required | hop_allowed | hop_denied | hop_route_lost.

Definition evaluateFederationHop (previousAdvertisedDomain : option jsstring) (targetId nextSelectedDomain : jsstring)
    : routing FederationHopOutcome :=
  enabled ← io_read br_routeAuthorizerEnabled;
  if negb enabled then mret hop_not_required
  else
    let previous := match previousAdvertisedDomain with None => [] | Some d => normalizeRequestedDomain d end in
    let selected := normalizeRequestedDomain nextSelectedDomain in
    if len previous =? 0 then mret hop_denied
    else
      allowed ← io_await (fun h => br_authorizeFederatedHop h previous selected) (ev_authorize previous selected);
      if negb allowed then mret hop_denied
      else
        candidates ← io_read (fun h => br_getRouteCandidates h targetId);
        mret (if has_domain candidates selected then hop_allowed else hop_route_lost).

Definition assertFederationHopAllowed (previousAdvertisedDomain : option jsstring) (targetId nextSelectedDomain : jsstring)
    : routing unit :=
  outcome ← evaluateFederationHop previousAdvertisedDomain targetId nextSelectedDomain;
  let context := [(js "targetId", JStr targetId); (js "domain", JStr (normalizeRequestedDomain nextSelectedDomain))] in
  match outcome with
  | hop_denied => io_throw (verr authorization_denied "Federation route authorization denied" context)
  | hop_route_lost => io_throw (verr missing_guest "Federation route was removed during authorization" context)
  | _ => mret tt
  end.

(** ** Who asks *)
Definition source_id (stream : broker_stream) : jsstring := header_text_or (bs_headers stream) "x-verser-source-id" [].
Definition request_source (stream : broker_stream) (h : history) : option PeerInfo :=
  if 0 <? len (source_id stream) then br_getPeer h (source_id stream) (bs_session stream) else None.
Definition is_session_broker (stream : broker_stream) (source : option PeerInfo) : bool :=
  match source with
  | None => false
  | Some s => str_eqb (pi_role s) (js "broker") && bool_decide (pi_transport s = Some (js "h2")) &&
              bool_decide (pi_session s = bs_session stream)
  end.

Definition not_registered (stream : broker_stream) : exn :=
  verr authorization_denied "Request source is not a Broker registered on this HTTP/2 session" [(js "sourceId", JStr (source_id stream))].

Definition resolveRemoteBrokerDomain (stream : broker_stream) : routing jsstring :=
  source ← io_read (request_source stream);
  if negb (is_session_broker stream source) then io_throw (not_registered stream)
  else
    brokerDomain ← io_read (fun h => br_getBrokerDomain h (source_id stream) (bs_session stream));
    match brokerDomain with
    | Some d => mret d
    | None => io_throw (verr authorization_denied "Broker has no registered domain for federation route authorization"
                          [(js "sourceId", JStr (source_id stream))])
    end.

Definition isRemoteBrokerRequestLive (stream : broker_stream) (h : history) : bool :=
  negb (w_gone h) && bool_decide (is_Some (bs_session stream)) && negb (w_session_closed h) &&
  is_session_broker stream (request_source stream h).

Definition assertRemoteBrokerSession (stream : broker_stream) : routing unit :=
  live ← io_read (isRemoteBrokerRequestLive stream);
  if negb live then io_throw (not_registered stream) else mret tt.

(** ** Forwarding over a stream *)
Definition requested_headers (stream : broker_stream) : result exn VerserHeaders :=
  decodeHeaderMap (header_text_or (bs_headers stream) "x-verser-headers" (js "{}")).
Definition request_method (stream : broker_stream) : jsstring :=
  to_str (nullish (prop (js "x-verser-method") (bs_headers stream)) (nullish (prop (js ":method") (bs_headers stream)) (JStr (js "GET")))).
Definition request_path (stream : broker_stream) : jsstring := header_text_or (bs_headers stream) "x-verser-path" (js "/").

(** [if (!stream.closed) stream.close(NGHTTP2_CANCEL)] *)
Definition close_open (s : nat) : routing unit :=
  closed ← io_read (fun h => w_stream_closed h s); io_when (negb closed) (io_do (ev_close s)).
Definition await_response {A} (s : nat) (read : readable -> result exn (A * readable)) : routing A :=
  fst <$> io_await (fun h => read (w_incoming h s)) (fun _ => ev_read s).
Definition write_request (s : nat) (metadata : result exn jsval) : routing unit :=
  m ← io_lift metadata;
  b ← io_lift (encodeVerserEnvelope env_request m);
  io_do (ev_write s b).
(** A response handed on inside the process has validated fields. *)
Definition response_fields (e : RoutedResponseEnvelope) : list (jsstring * jsval) :=
  [(js "requestId", JStr (rs_requestId e)); (js "statusCode", JNum (rs_statusCode e)); (js "headers", record_json (rs_headers e))] ++
  match rs_statusText e with Some t => [(js "statusText", JStr t)] | None => [] end ++
  match rs_headerPairs e with Some l => [(js "headerPairs", JArr (map pair_value l))] | None => [] end.
Definition respond_remote (requestId : jsstring) (response : list (jsstring * jsval)) : routing unit :=
  hs ← io_lift (respondToRemoteBroker requestId response); io_do (ev_respond hs).

Definition routeH2BrokerRequestOverFederationStream (stream : broker_stream) (requestStream : nat)
    (requestId targetId : jsstring) (routeDomain : option jsstring) (egressSourceId : jsstring) : routing unit :=
  _ ← write_request requestStream
        (headers ← requested_headers stream;
         request_metadata requestId egressSourceId targetId [(js "routeDomain", opt_json routeDomain)]
           (request_method stream) (request_path stream) headers);
  _ ← io_do (ev_pipe ep_broker (ep_stream requestStream));
  responseMetadata ← await_response requestStream (readFederatedResponseMetadata requestId targetId);
  _ ← respond_remote requestId responseMetadata;
  io_do (ev_pipe (ep_stream requestStream) ep_broker).

Definition routeBrokerRequestOverLease (stream : broker_stream) (lease : nat) (requestId targetId : jsstring)
    (routeDomain : option jsstring) : routing unit :=
  requestedHeaders ← io_lift (requested_headers stream);
  _ ← write_request lease
        (request_metadata requestId (source_id stream) targetId [] (request_method stream) (request_path stream)
           (rewriteGuestHeaders requestedHeaders routeDomain));
  _ ← io_do (ev_pipe ep_broker (ep_stream lease));
  responseMetadata ← await_response lease
    (readLeaseResponseMetadataFromStream DEFAULT_MAX_ENVELOPE_METADATA_BYTES requestId targetId);
  _ ← respond_remote requestId responseMetadata;
  io_do (ev_pipe (ep_stream lease) ep_broker).

Definition disconnected (r : LocalDispatchRequest) : exn :=
  verr disconnected_target "Local peer disconnected during request"
    (request_targets (ld_requestId r) (ld_targetId r) ++ [(js "sourceId", JStr (ld_sourceId r))]).

Definition local_metadata (r : LocalDispatchRequest) (sourceId : jsstring) : result exn jsval :=
  request_metadata (ld_requestId r) sourceId (ld_targetId r) [(js "routeDomain", opt_json (ld_routeDomain r))]
    (ld_method r) (ld_path r) (ld_headers r).

Definition routeLocalRequestToH2Guest (r : LocalDispatchRequest) : routing VerserLocalBrokerResponse :=
  lease ← io_await (fun h => br_acquireLease h (ld_targetId r) (ld_requestId r) (ld_leaseAcquireTimeoutMs r))
            (fun a => ev_lease true (ld_targetId r) (ld_requestId r) (ld_leaseAcquireTimeoutMs r) (Some <$> a));
  aborted ← io_read w_aborted;
  if (aborted : bool) then _ ← close_open lease; io_throw (disconnected r)
  else
    _ ← write_request lease (local_metadata r (ld_sourceId r));
    _ ← io_do (ev_pipe (ld_body r) (ep_stream lease));
    metadata ← await_response lease
      (readLeaseResponseMetadataFromStream DEFAULT_MAX_ENVELOPE_METADATA_BYTES (ld_requestId r) (ld_targetId r));
    envelope ← io_lift (local_response metadata);
    mret {| lr_envelope := envelope; lr_body := ep_stream lease |}.

Definition routeLocalRequestOverFederationStream (r : LocalDispatchRequest) (requestStream : nat) (egressSourceId : jsstring)
    : routing VerserLocalBrokerResponse :=
  _ ← write_request requestStream (local_metadata r egressSourceId);
  _ ← io_do (ev_pipe (ld_body r) (ep_stream requestStream));
  metadata ← await_response requestStream (readFederatedResponseMetadata (ld_requestId r) (ld_targetId r));
  envelope ← io_lift (local_response metadata);
  mret {| lr_envelope := envelope; lr_body := ep_stream requestStream |}.

(** ** The candidates of a federated target *)
Record candidate_state := {
  hadUpstreamCandidate : bool; hadDeniedCandidate : bool;
  previousHopDomain : option jsstring; hopDomainResolved : bool;
  unavailableCandidates : list FederatedRouteRegistration;
}.
Definition candidates_start (previous : option jsstring) : candidate_state :=
  {| hadUpstreamCandidate := false; hadDeniedCandidate := false; previousHopDomain := previous;
     hopDomainResolved := bool_decide (is_Some previous); unavailableCandidates := [] |}.
Definition seen_candidate (previous : option jsstring) (resolved : bool) (st : candidate_state) : candidate_state :=
  {| hadUpstreamCandidate := true; hadDeniedCandidate := hadDeniedCandidate st; previousHopDomain := previous;
     hopDomainResolved := hopDomainResolved st || resolved; unavailableCandidates := unavailableCandidates st |}.
Definition refused (hop : FederationHopOutcome) : bool := match hop with hop_denied | hop_route_lost => true | _ => false end.
Definition refused_candidate (hop : FederationHopOutcome) (st : candidate_state) : candidate_state :=
  {| hadUpstreamCandidate := hadUpstreamCandidate st;
     hadDeniedCandidate := hadDeniedCandidate st || match hop with hop_denied => true | _ => false end;
     previousHopDomain := previousHopDomain st; hopDomainResolved := hopDomainResolved st;
     unavailableCandidates := unavailableCandidates st |}.
Definition tried_candidate (c : FederatedRouteRegistration) (st : candidate_state) : candidate_state :=
  {| hadUpstreamCandidate := hadUpstreamCandidate st; hadDeniedCandidate := hadDeniedCandidate st;
     previousHopDomain := previousHopDomain st; hopDomainResolved := hopDomainResolved st;
     unavailableCandidates := unavailableCandidates st ++ [c] |}.

(** The candidate is for another domain than the request. *)
Definition other_domain (requestedDomain : option jsstring) (c : FederatedRouteRegistration) : bool :=
  match requestedDomain with Some d => negb (str_eqb (normalizeRequestedDomain (fr_domain c)) d) | None => false end.
Definition upstream_candidates (h : history) (targetId : jsstring) : list FederatedRouteRegistration :=
  filter (fun c => fr_source c = source_upstream) (br_getRouteCandidates h targetId).
Definition ambiguous (requestedDomain : option jsstring) (candidates : list FederatedRouteRegistration) : bool :=
  match requestedDomain with None => 1 <? len (candidate_domains candidates) | Some _ => false end.
Definition ambiguous_request (targetId : jsstring) : exn :=
  verr missing_guest "Target-only request is ambiguous; routeDomain is required" (peer_targets targetId).

(** What is left to say when no candidate took the request: an error, or that
    there is no upstream candidate at all. *)
Definition candidates_verdict (targetId : jsstring) (candidates : list FederatedRouteRegistration) (st : candidate_state) : result exn unit :=
  let joined f := JStr (join (js ",") (map f (unavailableCandidates st))) in
  if hadDeniedCandidate st then
    Throw (verr authorization_denied "Federation route authorization denied for every resolved candidate"
             [(js "targetId", JStr targetId); (js "direction", JStr (js "federated-candidates"));
              (js "deniedCount", JNum (num_int (len candidates)))])
  else if hadUpstreamCandidate st then
    Throw (verr upstream_unavailable "No federated route candidates are available"
             [(js "targetId", JStr targetId); (js "direction", JStr (js "federated-candidates"));
              (js "candidateCount", JNum (num_int (len (unavailableCandidates st))));
              (js "nextHopHostIds", joined fr_nextHopHostId); (js "originHostIds", joined fr_originHostId);
              (js "domains", joined fr_domain)])
  else Ok tt.

Definition acquire_federated (c : FederatedRouteRegistration) (timeoutMs : jsnum) : routing (option nat) :=
  io_await (fun h => br_tryAcquireFederatedRequestStream h (fr_nextHopHostId c) timeoutMs)
    (ev_federated (fr_nextHopHostId c) timeoutMs).

(** The loop of [tryRouteH2BrokerRequestToFederatedHost]: [None] when it
    returned [true], the final state when the candidates ran out. *)
Fixpoint h2_candidates (stream : broker_stream) (requestId targetId : jsstring) (requestedDomain : option jsstring)
    (cs : list FederatedRouteRegistration) (st : candidate_state) : routing (option candidate_state) :=
  match cs with
  | [] => mret (Some st)
  | candidate :: cs =>
      let continue := h2_candidates stream requestId targetId requestedDomain cs in
      if other_domain requestedDomain candidate then continue st
      else
        enabled ← io_read br_routeAuthorizerEnabled;
        previous ← (if enabled && negb (hopDomainResolved st) then Some <$> resolveRemoteBrokerDomain stream
                    else mret (previousHopDomain st));
        let st := seen_candidate previous enabled st in
        hop ← evaluateFederationHop previous targetId (fr_domain candidate);
        live ← io_read (isRemoteBrokerRequestLive stream);
        if negb live then mret None
        else if refused hop then continue (refused_candidate hop st)
        else
          acquired ← acquire_federated candidate (parseLeaseAcquireTimeoutMs (bs_headers stream));
          live ← io_read (isRemoteBrokerRequestLive stream);
          if negb live then _ ← match acquired with Some s => close_open s | None => mret tt end; mret None
          else match acquired with
               | None => continue (tried_candidate candidate st)
               | Some s =>
                   egress ← io_read br_getEgressSourceId;
                   _ ← routeH2BrokerRequestOverFederationStream stream s requestId targetId (Some (fr_domain candidate)) egress;
                   mret None
               end
  end.

Definition route_domain_header (stream : broker_stream) : jsval := prop (js "x-verser-route-domain") (bs_headers stream).

Definition tryRouteH2BrokerRequestToFederatedHost (stream : broker_stream) (requestId targetId : jsstring) : routing bool :=
  requestedHeaders ← io_lift (requested_headers stream);
  let requestedDomain := normalizeRequestedDomain <$>
    match route_domain_header stream with JUndef | JNull => requested_host requestedHeaders | v => Some (to_str v) end in
  candidates ← io_read (fun h => upstream_candidates h targetId);
  if ambiguous requestedDomain candidates then io_throw (ambiguous_request targetId)
  else
    final ← h2_candidates stream requestId targetId requestedDomain candidates (candidates_start None);
    match final with
    | None => mret true
    | Some st => _ ← io_lift (candidates_verdict targetId candidates st); mret false
    end.

(** [{ ...request, routeDomain }] *)
Definition to_host (r : LocalDispatchRequest) (routeDomain : jsstring) : LocalDispatchRequest :=
  {| ld_requestId := ld_requestId r; ld_sourceId := ld_sourceId r; ld_targetId := ld_targetId r;
     ld_routeDomain := Some routeDomain; ld_method := ld_method r; ld_path := ld_path r;
     ld_headers := ld_headers r; ld_body := ld_body r; ld_leaseAcquireTimeoutMs := ld_leaseAcquireTimeoutMs r;
     ld_context := ld_context r; ld_previousHopDomain := ld_previousHopDomain r |}.
(** The same loop for a request that started in this process. *)
Fixpoint local_candidates (r : LocalDispatchRequest) (requestedDomain : option jsstring)
    (cs : list FederatedRouteRegistration) (st : candidate_state) : routing (VerserLocalBrokerResponse + candidate_state) :=
  match cs with
  | [] => mret (inr st)
  | candidate :: cs =>
      let continue := local_candidates r requestedDomain cs in
      if other_domain requestedDomain candidate then continue st
      else
        enabled ← io_read br_routeAuthorizerEnabled;
        previous ← (if enabled && negb (hopDomainResolved st) then
                      d ← io_read (fun h => br_getBrokerDomain h (ld_sourceId r) None);
                      match d with
                      | Some _ => mret d
                      | None => io_throw (verr authorization_denied "Broker has no registered domain for federation route authorization"
                                            [(js "sourceId", JStr (ld_sourceId r)); (js "targetId", JStr (ld_targetId r))])
                      end
                    else mret (previousHopDomain st));
        let st := seen_candidate previous enabled st in
        hop ← evaluateFederationHop previous (ld_targetId r) (fr_domain candidate);
        if refused hop then continue (refused_candidate hop st)
        else
          acquired ← acquire_federated candidate (ld_leaseAcquireTimeoutMs r);
          match acquired with
          | None => continue (tried_candidate candidate st)
          | Some s =>
              egress ← io_read br_getEgressSourceId;
              inl <$> routeLocalRequestOverFederationStream (to_host r (fr_domain candidate)) s egress
          end
  end.

Definition tryRouteLocalRequestToFederatedHost (r : LocalDispatchRequest) : routing (option VerserLocalBrokerResponse) :=
  let requestedDomain := normalizeRequestedDomain <$> or_else (ld_routeDomain r) (requested_host (ld_headers r)) in
  candidates ← io_read (fun h => upstream_candidates h (ld_targetId r));
  if ambiguous requestedDomain candidates then io_throw (ambiguous_request (ld_targetId r))
  else
    final ← local_candidates r requestedDomain candidates (candidates_start (ld_previousHopDomain r));
    match final with
    | inl response => mret (Some response)
    | inr st => _ ← io_lift (candidates_verdict (ld_targetId r) candidates st); mret None
    end.

(** ** Dispatch in this process *)
Definition is_guest (target : option PeerInfo) : bool :=
  match target with Some t => str_eqb (pi_role t) (js "guest") | None => false end.

Definition routeLocalRequestToAttachedGuest (r : LocalDispatchRequest) : routing VerserLocalBrokerResponse :=
  io_await (fun h => br_dispatchGuest h r) (fun _ => ev_guest r).

(** [{ ...request, routeDomain, headers: rewriteGuestHeaders(...) }] *)
Definition to_guest (r : LocalDispatchRequest) (routeDomain : jsstring) : LocalDispatchRequest :=
  {| ld_requestId := ld_requestId r; ld_sourceId := ld_sourceId r; ld_targetId := ld_targetId r;
     ld_routeDomain := Some routeDomain; ld_method := ld_method r; ld_path := ld_path r;
     ld_headers := rewriteGuestHeaders (ld_headers r) (Some routeDomain); ld_body := ld_body r;
     ld_leaseAcquireTimeoutMs := ld_leaseAcquireTimeoutMs r; ld_context := ld_context r;
     ld_previousHopDomain := ld_previousHopDomain r |}.
Definition dispatch_to_guest (r : LocalDispatchRequest) (target : PeerInfo) : routing VerserLocalBrokerResponse :=
  candidates ← io_read (fun h => br_getRouteCandidates h (ld_targetId r));
  routeDomain ← io_lift (resolveRouteDomain (ld_targetId r) (ld_routeDomain r) (ld_headers r) candidates);
  _ ← match ld_previousHopDomain r with
      | Some previous => assertFederationHopAllowed (Some previous) (ld_targetId r) routeDomain
      | None => mret tt
      end;
  let local := to_guest r routeDomain in
  _ ← io_do (ev_lifecycle (Some (ld_targetId r)) lc_requestStarted);
  response ← (if bool_decide (pi_transport target = Some (js "local")) then
                if pi_localGuest target then routeLocalRequestToAttachedGuest local
                else io_throw (verr disconnected_target "Target local Guest is not attached" (peer_targets (ld_targetId r)))
              else routeLocalRequestToH2Guest local);
  _ ← io_do (ev_lifecycle (Some (ld_targetId r)) lc_requestCompleted);
  mret response.

Definition routeLocalRequestDispatch (r : LocalDispatchRequest) : routing VerserLocalBrokerResponse :=
  target ← io_read (fun h => br_getPeer h (ld_targetId r) None);
  _ ← io_do (ev_track (ld_sourceId r));
  _ ← io_do (ev_track (ld_targetId r));
  io_catch
    (response ← (match (if is_guest target then target else None) with
                 | Some t => dispatch_to_guest r t
                 | None =>
                     forwarded ← tryRouteLocalRequestToFederatedHost r;
                     match forwarded with
                     | Some response => mret response
                     | None => io_throw (verr missing_guest "Target Guest is not registered" (peer_targets (ld_targetId r)))
                     end
                 end);
     _ ← io_do (ev_untrack_with (lr_body response) [ld_sourceId r; ld_targetId r]);
     mret response)
    (fun error =>
       let verserError := host_toVerserError error in
       _ ← io_do (ev_lifecycle (Some (ld_targetId r)) (lc_error verserError));
       _ ← io_do (ev_untrack (ld_sourceId r));
       _ ← io_do (ev_untrack (ld_targetId r));
       io_throw (VerserErr verserError)).

(** ** The entry points *)
Definition remote_request (stream : broker_stream) (requestId targetId : jsstring) (validated : VerserHeaders) : LocalDispatchRequest :=
  {| ld_requestId := requestId; ld_sourceId := source_id stream; ld_targetId := targetId; ld_routeDomain := None;
     ld_method := request_method stream; ld_path := request_path stream;
     ld_headers := map (fun p => (p.1, JStr p.2)) (flattenVerserHeaders validated);
     ld_body := ep_broker; ld_leaseAcquireTimeoutMs := parseLeaseAcquireTimeoutMs (bs_headers stream);
     ld_context := None; ld_previousHopDomain := None |}.
Definition routeH2BrokerRequestToLocalGuest (stream : broker_stream) (requestId targetId : jsstring) (routeDomain : option jsstring)
    : routing unit :=
  requestedHeaders ← io_lift (requested_headers stream);
  validated ← io_lift (validateVerserHeaders (rewriteGuestHeaders requestedHeaders routeDomain));
  response ← routeLocalRequestDispatch (remote_request stream requestId targetId validated);
  _ ← respond_remote requestId (response_fields (lr_envelope response));
  io_do (ev_pipe (lr_body response) ep_broker).

(** A lease that arrives when the request is no longer wanted is closed. *)
Definition use_lease (stream : broker_stream) (lease : nat) (requestId targetId : jsstring) (routeDomain : jsstring) : routing unit :=
  live ← io_read (isRemoteBrokerRequestLive stream);
  if negb live then close_open lease
  else routeBrokerRequestOverLease stream lease requestId targetId (Some routeDomain).

Definition routeBrokerRequest (stream : broker_stream) : routing unit :=
  _ ← assertRemoteBrokerSession stream;
  let targetId := header_text_or (bs_headers stream) "x-verser-target-id" [] in
  fallback ← io_read w_request_id;
  let requestId := header_text_or (bs_headers stream) "x-verser-request-id" fallback in
  target ← io_read (fun h => br_getPeer h targetId None);
  match target with
  | None =>
      forwarded ← tryRouteH2BrokerRequestToFederatedHost stream requestId targetId;
      if (forwarded : bool) then mret tt
      else io_throw (verr missing_guest "Target Guest is not registered" (peer_targets targetId))
  | Some t =>
      if negb (is_guest target) then io_throw (verr missing_guest "Target peer is not a Guest" (peer_targets targetId))
      else
        requestedHeaders ← io_lift (requested_headers stream);
        candidates ← io_read (fun h => br_getRouteCandidates h targetId);
        routeDomain ← io_lift (resolveRouteDomain targetId
          (match route_domain_header stream with JUndef => None | v => Some (to_str v) end) requestedHeaders candidates);
        guestId ← io_lift (createPeerId targetId);
        if bool_decide (pi_transport t = Some (js "local"))
        then routeH2BrokerRequestToLocalGuest stream requestId guestId (Some routeDomain)
        else
          let timeoutMs := parseLeaseAcquireTimeoutMs (bs_headers stream) in
          lease ← io_await (fun h => br_tryAcquireLease h guestId requestId timeoutMs) (ev_lease false guestId requestId timeoutMs);
          match lease with
          | Some lease => use_lease stream lease requestId targetId routeDomain
          | None =>
              live ← io_read (isRemoteBrokerRequestLive stream);
              if negb live then mret tt
              else
                queuedLease ← io_await (fun h => br_acquireLease h guestId requestId timeoutMs)
                                (fun a => ev_lease true guestId requestId timeoutMs (Some <$> a));
                use_lease stream queuedLease requestId targetId routeDomain
          end
  end.

(** [routeLocalBrokerRequest]: the counter of the local broker goes up with each
    request it makes while open. *)
Record VerserLocalBrokerRequest := {
  lb_targetId : jsstring; lb_routeDomain : option jsstring; lb_method : jsstring; lb_path : jsstring;
  lb_headers : option VerserHeaders; lb_leaseAcquireTimeoutMs : jsval;
}.
Definition routeLocalBrokerRequest (sourceId : jsstring) (closed : bool) (requestCounter : Z) (request : VerserLocalBrokerRequest)
    : Z * routing VerserLocalBrokerResponse :=
  if closed then (requestCounter, io_throw (verr disconnected_target "Local Broker is closed" []))
  else
    let requestCounter := requestCounter + 1 in
    (requestCounter,
     targetId ← io_lift (createPeerId (lb_targetId request));
     headers ← io_lift (validateLocalHeaders (default [] (lb_headers request)));
     routeLocalRequestDispatch
       {| ld_requestId := sourceId ++ js "-" ++ num_to_string (num_int requestCounter); ld_sourceId := sourceId; ld_targetId := targetId;
          ld_routeDomain := lb_routeDomain request; ld_method := lb_method request; ld_path := lb_path request;
          ld_headers := map (fun p => (p.1, JStr p.2)) (flattenVerserHeaders headers); ld_body := ep_body;
          ld_leaseAcquireTimeoutMs := parseLeaseAcquireTimeoutMs [(VERSER_LEASE_ACQUIRE_TIMEOUT_HEADER, lb_leaseAcquireTimeoutMs request)];
          ld_context := None; ld_previousHopDomain := None |}).

(** ** The incoming side of a federation stream *)
(** The request of the metadata; its wire type promises strings. *)
Definition federated_request (metadata : list (jsstring * jsval)) (stream : nat) (context : option jsval) : option LocalDispatchRequest :=
  match prop (js "requestId") metadata, prop (js "sourceId") metadata, prop (js "targetId") metadata,
        prop (js "method") metadata, prop (js "path") metadata, prop (js "headers") metadata with
  | JStr requestId, JStr sourceId, JStr targetId, JStr method, JStr path, JObj headers =>
      match prop (js "routeDomain") metadata with
      | JUndef | JNull | JStr _ =>
          let routeDomain := match prop (js "routeDomain") metadata with JStr d => Some d | _ => None end in
          Some {| ld_requestId := requestId; ld_sourceId := sourceId; ld_targetId := targetId; ld_routeDomain := routeDomain;
                  ld_method := method; ld_path := path; ld_headers := headers; ld_body := ep_stream stream;
                  ld_leaseAcquireTimeoutMs := num_int UPSTREAM_HANDSHAKE_TIMEOUT_MS; ld_context := context;
                  ld_previousHopDomain := Some (default [] routeDomain) |}
      | _ => None
      end
  | _, _, _, _, _, _ => None
  end.

Definition inbound_context (inboundLink : option (jsstring * option jsval)) : option jsval :=
  (fun l : jsstring * option jsval =>
     JObj [(js "federation", JObj ((js "hostId", JStr l.1) ::
             match l.2 with Some c => [(js "authorizationContext", c)] | None => [] end))]) <$> inboundLink.

Definition response_envelope (e : RoutedResponseEnvelope) : result exn bytes :=
  e ← createRoutedResponseEnvelope e; encodeVerserEnvelope env_response (JObj (response_fields e)).
(** [requestId] and [targetId] are what the metadata holds. *)
Definition error_envelope (requestId targetId : jsval) (e : VerserError) : result exn bytes :=
  encodeVerserEnvelope env_error
    (JObj [(js "requestId", requestId); (js "targetId", targetId);
           (js "code", JStr (code_name (ve_code e))); (js "message", JStr (ve_message e)); (js "context", JObj (ve_context e))]).
Definition with_headers (r : LocalDispatchRequest) (headers : VerserHeaders) : LocalDispatchRequest :=
  {| ld_requestId := ld_requestId r; ld_sourceId := ld_sourceId r; ld_targetId := ld_targetId r; ld_routeDomain := ld_routeDomain r;
     ld_method := ld_method r; ld_path := ld_path r;
     ld_headers := map (fun p => (p.1, JStr p.2)) (flattenVerserHeaders headers); ld_body := ld_body r;
     ld_leaseAcquireTimeoutMs := ld_leaseAcquireTimeoutMs r; ld_context := ld_context r; ld_previousHopDomain := ld_previousHopDomain r |}.
Definition dispatch_federated (r : LocalDispatchRequest) : routing VerserLocalBrokerResponse :=
  headers ← io_lift (validateVerserHeaders (ld_headers r));
  routeLocalRequestDispatch (with_headers r headers).

(** What happens once the request metadata is read. *)
Definition serve_federated_request (stream : nat) (requestId targetId : jsval) (dispatch : routing VerserLocalBrokerResponse) : routing unit :=
  io_catch
    (response ← dispatch;
     b ← io_lift (response_envelope (lr_envelope response));
     _ ← io_do (ev_write stream b);
     io_do (ev_pipe (lr_body response) (ep_stream stream)))
    (fun error =>
       let verserError := host_toVerserError error in
       _ ← io_do (ev_lifecycle None (lc_error verserError));
       closed ← io_read (fun h => w_stream_closed h stream);
       if (closed : bool) then mret tt
       else match requestId, targetId with
            | JUndef, _ | _, JUndef => io_do (ev_close stream)
            | _, _ => b ← io_lift (error_envelope requestId targetId verserError); io_do (ev_end stream b)
            end).

(** Metadata that does not arrive: the stream is cancelled. *)
Definition handleFederatedIncomingRequestStream (stream : nat) (peerHostId localHostId : jsstring)
    (inboundLink : option (jsstring * option jsval)) : routing unit :=
  metadata ← io_read (fun h => readLeaseRequestMetadataFromStream DEFAULT_MAX_ENVELOPE_METADATA_BYTES localHostId peerHostId (w_incoming h stream));
  match metadata with
  | Throw error =>
      _ ← io_do (ev_lifecycle None (lc_error (host_toVerserError error)));
      close_open stream
  | Ok (m, _) =>
      let context := inbound_context inboundLink in
      serve_federated_request stream (prop (js "requestId") m) (prop (js "targetId") m)
        (match federated_request m stream context with
         | Some r => dispatch_federated r
         | None => w_untyped m context
         end)
  end.
End Routing.

(** * Theory *)
Section RoutingTheory.
Context {P : Platform} {B : BrokerRoutingCallbacks} {W : RoutingWorld}.
Implicit Types h : history.

(** Reading, writing and piping belong together: the body is piped to the stream
    the request was just written to, its response is then awaited, answered, and
    the response body piped back. *)
Definition relays (body : endpoint) h (e : routing_event) : Prop :=
  match e with
  | ev_pipe a b => (exists h0 s data, h = h0 ++ [ev_write s data] /\ a = body /\ b = ep_stream s) \/
                   (exists h0 s hs, h = (h0 ++ [ev_read s]) ++ [ev_respond hs] /\ a = ep_stream s /\ b = ep_broker)
  | ev_read s => exists h0 a, h = h0 ++ [ev_pipe a (ep_stream s)]
  | ev_respond _ => exists h0 s, h = h0 ++ [ev_read s]
  | _ => False
  end.
(** A stream that is acquired obliges: it is written to next, or the failure is
    reported; when it is no longer wanted it is closed, unless it was. *)
Definition acquired (e : routing_event) : option nat :=
  match e with ev_lease _ _ _ _ (Ok (Some s)) | ev_federated _ _ (Ok (Some s)) => Some s | _ => None end.
Definition acquires (e : routing_event) : bool := match acquired e with Some _ => true | None => false end.
Definition reports (e : routing_event) : bool := match e with ev_lifecycle _ (lc_error _) => true | _ => false end.
Definition stream_duty (unwanted : routing_event -> history -> bool) (x : routing_event) h e : Prop :=
  forall s, acquired x = Some s ->
    if unwanted x h then e = ev_close s \/ w_stream_closed h s = true /\ reports e = true
    else (exists b, e = ev_write s b) \/ reports e = true.
Definition stream_end (unwanted : routing_event -> history -> bool) (start : history) (failed : bool) h : Prop :=
  forall x s, obliged acquires start x h -> acquired x = Some s ->
    if unwanted x h then w_stream_closed h s = true else failed = true.
Definition not_live (stream : broker_stream) (_ : routing_event) h : bool := negb (isRemoteBrokerRequestLive stream h).
Definition aborted_lease (x : routing_event) h : bool := match x with ev_lease _ _ _ _ _ => w_aborted h | _ => false end.

(** The decision under which a hop may be taken in history [h]: the authorizer
    is off, or its allow for exactly this pair is the last thing that happened
    and the route is still there. *)
Definition hop_cleared (previous : option jsstring) (targetId domain : jsstring) h : Prop :=
  br_routeAuthorizerEnabled h = false \/
  exists h0 d, previous = Some d /\ normalizeRequestedDomain d <> [] /\
    h = h0 ++ [ev_authorize (normalizeRequestedDomain d) (normalizeRequestedDomain domain) (Ok true)] /\
    has_domain (br_getRouteCandidates h targetId) (normalizeRequestedDomain domain) = true.

Lemma evaluate_spec (Q : history -> routing_event -> Prop) previous targetId domain h :
  (forall d a, previous = Some d -> normalizeRequestedDomain d <> [] ->
     Q h (ev_authorize (normalizeRequestedDomain d) (normalizeRequestedDomain domain) a)) ->
  wp Q (evaluateFederationHop previous targetId domain) (fun r h' =>
    match r with Ok hop => refused hop = false -> hop_cleared previous targetId domain h' | Throw _ => True end) h.
Proof.
  intros HQ. unfold evaluateFederationHop. do 3 wp_step; [wp_step; intros _; left; by apply negb_true_iff|].
  destruct previous as [d|]; [|change (len [] =? 0) with true; by wp_step].
  destruct (len (normalizeRequestedDomain d) =? 0) eqn:E; [by wp_step|].
  assert (normalizeRequestedDomain d <> []) as Hd by (intros E'; by rewrite E' in E).
  do 2 wp_step; [by apply HQ|]. destruct (br_authorizeFederatedHop _ _ _) as [[|]|e] eqn:Ea; cbn [negb]; [|by wp_step|done].
  do 3 wp_step. destruct (has_domain _ _) eqn:Eh; [|done]. intros _. right. exists h, d. auto.
Qed.

(** ** A remote broker's request to another host *)
(** The broker's own domain, established while it was a broker of the session
    the request came on. *)
Definition authentic (stream : broker_stream) (d : jsstring) h : Prop :=
  exists h', h' `prefix_of` h /\ is_session_broker stream (request_source stream h') = true /\
    br_getBrokerDomain h' (source_id stream) (bs_session stream) = Some d.

Lemma authentic_later stream d h h' : h `prefix_of` h' -> authentic stream d h -> authentic stream d h'.
Proof. intros H (h0 & H0 & ? & ?). exists h0. split; [by etrans|done]. Qed.

(** What forwarding to another host may do, and when. *)
Definition h2_allowed (stream : broker_stream) (requestId targetId : jsstring) (cs : list FederatedRouteRegistration) h (e : routing_event) : Prop :=
  match e with
  | ev_authorize p _ _ => exists d, authentic stream d h /\ p = normalizeRequestedDomain d /\ p <> []
  | ev_federated host timeoutMs _ => isRemoteBrokerRequestLive stream h = true /\ timeoutMs = parseLeaseAcquireTimeoutMs (bs_headers stream) /\
      exists c previous, c ∈ cs /\ host = fr_nextHopHostId c /\ hop_cleared previous targetId (fr_domain c) h /\
        (forall d, previous = Some d -> authentic stream d h)
  | ev_write s b => isRemoteBrokerRequestLive stream h = true /\
      exists h0 c timeoutMs headers m, c ∈ cs /\ h = h0 ++ [ev_federated (fr_nextHopHostId c) timeoutMs (Ok (Some s))] /\
        requested_headers stream = Ok headers /\
        request_metadata requestId (br_getEgressSourceId h) targetId [(js "routeDomain", JStr (fr_domain c))]
          (request_method stream) (request_path stream) headers = Ok m /\ encodeVerserEnvelope env_request m = Ok b
  | ev_close s => isRemoteBrokerRequestLive stream h = false /\
      exists h0 host timeoutMs, h = h0 ++ [ev_federated host timeoutMs (Ok (Some s))]
  | ev_pipe _ _ | ev_read _ | ev_respond _ => relays ep_broker h e
  | _ => False
  end.

Lemma forward_spec stream s requestId targetId c timeoutMs cs h0 :
  let h := h0 ++ [ev_federated (fr_nextHopHostId c) timeoutMs (Ok (Some s))] in
  c ∈ cs -> isRemoteBrokerRequestLive stream h = true ->
  wp (h2_allowed stream requestId targetId cs)
    (routeH2BrokerRequestOverFederationStream stream s requestId targetId (Some (fr_domain c)) (br_getEgressSourceId h)) (fun _ _ => True) h.
Proof.
  intros h Hc Hl. unfold routeH2BrokerRequestOverFederationStream, write_request, respond_remote, await_response.
  do 3 wp_step. destruct (x ← requested_headers stream; _) as [m|e] eqn:Em; [|done].
  apply bind_Ok_inv in Em as (headers & Eh & Em). do 2 wp_step. destruct (encodeVerserEnvelope _ _) as [b|e] eqn:Eb; [|done].
  wp_step; [split; [done|]; exists h0, c, timeoutMs, headers, m; auto|].
  do 2 wp_step; [left; eauto 6|]. do 3 wp_step; [cbn; eauto|]. destruct (fst <$> _) as [response|e]; [|done].
  do 3 wp_step. destruct (respondToRemoteBroker _ _); [|done]. wp_step; [cbn; eauto|]. by wp_step; [right; eauto 6|].
Qed.

Lemma close_open_spec (Q : history -> routing_event -> Prop) s h :
  Q h (ev_close s) -> wp Q (close_open s) (fun _ _ => True) h.
Proof. intros H. unfold close_open. do 3 wp_step; [by wp_step|done]. Qed.

Lemma resolve_domain_spec (Q : history -> routing_event -> Prop) stream h :
  wp Q (resolveRemoteBrokerDomain stream) (fun r h' => match r with Ok d => authentic stream d h' | Throw _ => True end) h.
Proof.
  unfold resolveRemoteBrokerDomain. do 2 wp_step. destruct (is_session_broker _ _) eqn:E; cbn [negb]; [|by wp_step].
  do 2 wp_step. destruct (br_getBrokerDomain _ _ _) eqn:Ed; [|by wp_step]. wp_step. exists h. auto.
Qed.

Definition domain_known stream (st : candidate_state) h : Prop := forall d, previousHopDomain st = Some d -> authentic stream d h.
Definition eligible (requestedDomain : option jsstring) (cs : list FederatedRouteRegistration) : bool :=
  existsb (fun c => negb (other_domain requestedDomain c)) cs.

Lemma h2_candidates_spec stream requestId targetId requestedDomain all cs st h :
  (forall c, c ∈ cs -> c ∈ all) -> domain_known stream st h ->
  wp (h2_allowed stream requestId targetId all) (h2_candidates stream requestId targetId requestedDomain cs st)
    (fun r _ => match r with
                | Ok (Some st') => hadUpstreamCandidate st' = hadUpstreamCandidate st || eligible requestedDomain cs
                | _ => True
                end) h.
Proof.
  revert st h. induction cs as [|c cs IH]; intros st h Hall Hknown; cbn [h2_candidates].
  { wp_step. by rewrite orb_false_r. }
  assert (forall x, x ∈ cs -> x ∈ all) as Hall' by (intros x Hx; apply Hall; by right).
  assert (c ∈ all) as Hc by (apply Hall; by left).
  cbn [eligible existsb]. destruct (other_domain requestedDomain c); cbn [negb orb]; [by apply IH|].
  do 2 wp_step. set (enabled := br_routeAuthorizerEnabled h). clearbody enabled.
  wp_step. eapply (wp_call _ _ (fun r h' => match r with Ok p => forall d, p = Some d -> authentic stream d h' | Throw _ => True end)).
  { wp_step; [|by wp_step]. wp_step. eapply wp_call; [apply resolve_domain_spec|]. intros [d|e] h' _ Hd; [|done]. cbn. by intros d' [= <-]. }
  intros [previous|e] h1 Hh1 Hprev; [|done].
  assert (domain_known stream (seen_candidate previous enabled st) h1) as Hk1 by (intros d Hd; by apply Hprev).
  wp_step. eapply wp_call.
  { apply evaluate_spec. intros d a Hd Hne. exists d. auto. }
  intros [hop|e] h2 Hh2 Hhop; [|done].
  assert (forall d, previous = Some d -> authentic stream d h2) as Hprev2 by (intros d Hd; eapply authentic_later; [exact Hh2|auto]).
  do 2 wp_step. destruct (isRemoteBrokerRequestLive stream h2) eqn:El2; cbn [negb]; [|by wp_step].
  destruct (refused hop) eqn:Er.
  { eapply wp_call; [apply IH; [done|]|]; [intros d Hd; by apply Hprev2|].
    intros [[st'|]|e] h' _ H; try done. cbn in H. by rewrite H, !orb_true_r. }
  unfold acquire_federated. do 2 wp_step.
  { split_and!; [done|done|]. exists c, previous. auto. }
  destruct (br_tryAcquireFederatedRequestStream _ _ _) as [acquired|e] eqn:Ea; [|done].
  do 2 wp_step. match goal with |- context [if negb (isRemoteBrokerRequestLive stream ?x) then _ else _] =>
    destruct (isRemoteBrokerRequestLive stream x) eqn:El3 end; cbn [negb].
  - destruct acquired as [s|].
    + do 3 wp_step. eapply wp_call; [by apply forward_spec|]. intros [u|e] h' _ _; [by wp_step|done].
    + eapply wp_call; [apply IH; [done|]|].
      * intros d Hd. eapply authentic_later; [|by apply Hprev2]. by eexists.
      * intros [[st'|]|e] h' _ H; try done. cbn in H. by rewrite H, !orb_true_r.
  - destruct acquired as [s|].
    + wp_step. eapply wp_call; [apply close_open_spec|].
      * split; [done|]. by exists h2, (fr_nextHopHostId c), (parseLeaseAcquireTimeoutMs (bs_headers stream)).
      * intros [u|e] h' _ _; [by wp_step|done].
    + do 3 wp_step. done.
Qed.

(** Forwarding a remote broker's request to another host, whatever else
    happens meanwhile. A stream to another host is asked for only while the
    request is live, for an upstream candidate, and with the authorizer off or
    right after its allow for the pair of the broker's own domain, read while it
    was a broker of this session, and the candidate's domain, the candidate
    still being there. The request is written only to the stream that was just
    acquired, under this host's own identity and the candidate's domain. A stream
    that comes too late is closed. [false] means that no candidate was eligible. *)
Theorem federated_forwarding_safe stream requestId targetId h :
  let cs := upstream_candidates h targetId in
  wp (h2_allowed stream requestId targetId cs) (tryRouteH2BrokerRequestToFederatedHost stream requestId targetId)
    (fun r _ => r = Ok false ->
       exists requested, forallb (other_domain requested) cs = true) h.
Proof.
  intros cs. unfold tryRouteH2BrokerRequestToFederatedHost. do 2 wp_step. destruct (requested_headers stream) as [headers|e]; [|done].
  cbv zeta. do 2 wp_step. fold cs. set (requested := normalizeRequestedDomain <$> _). clearbody requested.
  wp_step; [by wp_step|]. wp_step. eapply wp_call.
  { apply (h2_candidates_spec stream requestId targetId requested cs); [done|]. intros d [=]. }
  intros [[st|]|e] h' _ H; [|by wp_step|done]. cbn in H. do 2 wp_step.
  destruct (candidates_verdict targetId cs st) as [u|e] eqn:Ev; [|done]. wp_step. intros _. exists requested.
  unfold candidates_verdict in Ev. destruct (hadDeniedCandidate st); [done|]. destruct (hadUpstreamCandidate st); [done|].
  symmetry in H. unfold eligible in H. rewrite <- not_true_iff_false, existsb_exists in H. apply forallb_forall.
  intros c Hc. destruct (other_domain requested c) eqn:E; [done|]. exfalso. apply H. exists c. by rewrite E.
Qed.

(** ** A request that started in this process, or came from another host *)
(** Where the domain of the previous hop comes from: the request's baton, or
    the registration of the local broker when there is none. *)
Definition hop_source (r : LocalDispatchRequest) (d : jsstring) h : Prop :=
  match ld_previousHopDomain r with
  | Some p => d = p
  | None => exists h', h' `prefix_of` h /\ br_getBrokerDomain h' (ld_sourceId r) None = Some d
  end.
Lemma hop_source_later r d h h' : h `prefix_of` h' -> hop_source r d h -> hop_source r d h'.
Proof.
  unfold hop_source. destruct (ld_previousHopDomain r); [done|]. intros H (h0 & H0 & ?). exists h0. split; [by etrans|done].
Qed.

Definition started (r : LocalDispatchRequest) : routing_event := ev_lifecycle (Some (ld_targetId r)) lc_requestStarted.
(** A guest may be handed the request, under route domain [d], in history [h]. *)
Definition guest_cleared (r : LocalDispatchRequest) (d : jsstring) h : Prop :=
  (exists h', h' `prefix_of` h /\ d ∈ candidate_domains (br_getRouteCandidates h' (ld_targetId r))) /\
  forall p, ld_previousHopDomain r = Some p -> hop_cleared (Some p) (ld_targetId r) d h.

(** The request under another route domain and with other headers: nothing else
    of it changes. *)
Definition with_route (r : LocalDispatchRequest) (routeDomain : option jsstring) (headers : VerserHeaders) : LocalDispatchRequest :=
  {| ld_requestId := ld_requestId r; ld_sourceId := ld_sourceId r; ld_targetId := ld_targetId r; ld_routeDomain := routeDomain;
     ld_method := ld_method r; ld_path := ld_path r; ld_headers := headers; ld_body := ld_body r;
     ld_leaseAcquireTimeoutMs := ld_leaseAcquireTimeoutMs r; ld_context := ld_context r; ld_previousHopDomain := ld_previousHopDomain r |}.
Definition local_allowed (r : LocalDispatchRequest) h (e : routing_event) : Prop :=
  match e with
  | ev_authorize p _ _ => exists d, hop_source r d h /\ p = normalizeRequestedDomain d /\ p <> []
  | ev_guest r' => exists h0 d, h = h0 ++ [started r] /\ guest_cleared r d h0 /\ r' = with_route r (Some d) (rewriteGuestHeaders (ld_headers r) (Some d))
  | ev_lease q g requestId timeoutMs _ => q = true /\ g = ld_targetId r /\ requestId = ld_requestId r /\ timeoutMs = ld_leaseAcquireTimeoutMs r /\
      exists h0 d, h = h0 ++ [started r] /\ guest_cleared r d h0
  | ev_federated host timeoutMs _ => timeoutMs = ld_leaseAcquireTimeoutMs r /\
      exists c previous, host = fr_nextHopHostId c /\ fr_source c = source_upstream /\
      hop_cleared previous (ld_targetId r) (fr_domain c) h /\ (forall d, previous = Some d -> hop_source r d h)
  | ev_write s b => exists m, encodeVerserEnvelope env_request m = Ok b /\
      ((exists h0 c previous timeoutMs, fr_source c = source_upstream /\ hop_cleared previous (ld_targetId r) (fr_domain c) h0 /\
          h = h0 ++ [ev_federated (fr_nextHopHostId c) timeoutMs (Ok (Some s))] /\
          local_metadata (with_route r (Some (fr_domain c)) (ld_headers r)) (br_getEgressSourceId h) = Ok m) \/
       (exists h0 d timeoutMs, guest_cleared r d h0 /\ w_aborted h = false /\
          h = (h0 ++ [started r]) ++ [ev_lease true (ld_targetId r) (ld_requestId r) timeoutMs (Ok (Some s))] /\
          local_metadata (with_route r (Some d) (rewriteGuestHeaders (ld_headers r) (Some d))) (ld_sourceId r) = Ok m))
  | ev_close s => w_aborted h = true /\ exists h0 timeoutMs, h = h0 ++ [ev_lease true (ld_targetId r) (ld_requestId r) timeoutMs (Ok (Some s))]
  | ev_pipe _ _ | ev_read _ => relays (ld_body r) h e
  | ev_lifecycle p lc_requestStarted => p = Some (ld_targetId r) /\ exists d, guest_cleared r d h
  | ev_lifecycle p _ => p = Some (ld_targetId r)
  | ev_track p | ev_untrack p => p = ld_sourceId r \/ p = ld_targetId r
  | ev_untrack_with _ ps => ps = [ld_sourceId r; ld_targetId r]
  | ev_end _ _ | ev_respond _ => False
  end.
(** What is reported and released at the end. *)
Definition concludes (e : routing_event) : bool :=
  match e with ev_lifecycle _ (lc_error _) | ev_untrack _ | ev_untrack_with _ _ => true | _ => false end.
Definition local_tried (r : LocalDispatchRequest) h (e : routing_event) : Prop := local_allowed r h e /\ concludes e = false.

Lemma over_federation_spec r c previous s timeoutMs h0 :
  let h := h0 ++ [ev_federated (fr_nextHopHostId c) timeoutMs (Ok (Some s))] in
  fr_source c = source_upstream -> hop_cleared previous (ld_targetId r) (fr_domain c) h0 ->
  wp (local_tried r) (routeLocalRequestOverFederationStream (to_host r (fr_domain c)) s (br_getEgressSourceId h)) (fun _ _ => True) h.
Proof.
  intros h Hc Hp. unfold routeLocalRequestOverFederationStream, write_request, await_response.
  do 3 wp_step. destruct (local_metadata _ _) as [m|e] eqn:Em; [|done]. do 2 wp_step.
  destruct (encodeVerserEnvelope _ _) as [b|e] eqn:Eb; [|done].
  wp_step; [split; [|done]; exists m; split; [done|]; left; by exists h0, c, previous, timeoutMs|].
  do 2 wp_step; [split; [left; eauto 6|done]|]. do 3 wp_step; [split; [cbn; eauto|done]|]. destruct (fst <$> _) as [response|e]; [|done].
  do 2 wp_step. destruct (local_response response); [|done]. by wp_step.
Qed.

Lemma h2_guest_spec r d h0 :
  guest_cleared r d h0 -> wp (local_tried r) (routeLocalRequestToH2Guest (to_guest r d)) (fun _ _ => True) (h0 ++ [started r]).
Proof.
  intros Hg. unfold routeLocalRequestToH2Guest. do 2 wp_step; [split; [split_and!; [done..|by exists h0, d]|done]|].
  cbn [to_guest ld_targetId ld_requestId ld_leaseAcquireTimeoutMs ld_sourceId].
  destruct (br_acquireLease _ _ _ _) as [lease|e] eqn:El; [|done]. cbn [fmap result_fmap]. do 2 wp_step.
  match goal with |- context [w_aborted ?x] => destruct (w_aborted x) eqn:Ea end.
  - wp_step. eapply wp_call; [apply close_open_spec; split; [split; [exact Ea|eauto]|done]|]. intros [u|e] h' _ _; [by wp_step|done].
  - unfold write_request, await_response. do 3 wp_step. destruct (local_metadata _ _) as [m|e] eqn:Em; [|done]. do 2 wp_step.
    destruct (encodeVerserEnvelope _ _) as [b|e] eqn:Eb; [|done].
    wp_step; [split; [|done]; exists m; split; [done|]; right; by exists h0, d, (ld_leaseAcquireTimeoutMs r)|].
    do 2 wp_step; [split; [left; eauto 6|done]|]. do 3 wp_step; [split; [cbn; eauto|done]|]. destruct (fst <$> _) as [response|e]; [|done].
    do 2 wp_step. destruct (local_response response); [|done]. by wp_step.
Qed.

Definition hop_known r (st : candidate_state) h : Prop :=
  (forall d, previousHopDomain st = Some d -> hop_source r d h) /\
  (hopDomainResolved st = false -> ld_previousHopDomain r = None).

Lemma local_candidates_spec r requestedDomain cs st h :
  (forall c, c ∈ cs -> fr_source c = source_upstream) -> hop_known r st h ->
  wp (local_tried r) (local_candidates r requestedDomain cs st) (fun _ _ => True) h.
Proof.
  revert st h. induction cs as [|c cs IH]; intros st h Hall [Hk Hres]; cbn [local_candidates]; [by wp_step|].
  assert (forall x, x ∈ cs -> fr_source x = source_upstream) as Hall' by (intros x Hx; apply Hall; by right).
  assert (fr_source c = source_upstream) as Hc by (apply Hall; by left).
  destruct (other_domain requestedDomain c); [by apply IH|].
  do 2 wp_step. set (enabled := br_routeAuthorizerEnabled h). clearbody enabled.
  wp_step. eapply (wp_call _ _ (fun r' h' => match r' with
    | Ok p => (forall d, p = Some d -> hop_source r d h') | Throw _ => True end)).
  { destruct (enabled && negb (hopDomainResolved st)) eqn:Eres; [|by wp_step]. do 2 wp_step.
    destruct (br_getBrokerDomain _ _ _) as [d|] eqn:Ed; [|by wp_step]. wp_step. intros d' [= <-].
    apply andb_true_iff in Eres as [_ Eres%negb_true_iff]. unfold hop_source. rewrite Hres by done. by exists h. }
  intros [previous|e] h1 Hh1 Hprev; [|done]. wp_step. eapply wp_call.
  { apply evaluate_spec. intros d a Hd Hne. split; [|done]. exists d. auto. }
  intros [hop|e] h2 Hh2 Hhop; [|done].
  assert (forall d, previous = Some d -> hop_source r d h2) as Hprev2 by (intros d Hd; eapply hop_source_later; [exact Hh2|auto]).
  assert (hopDomainResolved st || enabled = false -> ld_previousHopDomain r = None) as Hres2
    by (intros E; apply orb_false_iff in E as [E _]; auto).
  destruct (refused hop) eqn:Er; [apply IH; [done|split; [exact Hprev2|exact Hres2]]|].
  unfold acquire_federated. do 2 wp_step; [split; [split; [done|]; exists c, previous; auto|done]|].
  destruct (br_tryAcquireFederatedRequestStream _ _ _) as [[s|]|e] eqn:Ea; [| |done].
  - do 3 wp_step. eapply wp_call; [by eapply over_federation_spec; [|apply Hhop]|]. done.
  - apply IH; [done|]. split; [|exact Hres2]. intros d Hd. eapply hop_source_later; [|by apply Hprev2]. by eexists.
Qed.

Lemma try_local_spec r h : wp (local_tried r) (tryRouteLocalRequestToFederatedHost r) (fun _ _ => True) h.
Proof.
  unfold tryRouteLocalRequestToFederatedHost. cbv zeta. do 2 wp_step. wp_step; [by wp_step|]. wp_step.
  eapply wp_call; [apply local_candidates_spec|].
  - unfold upstream_candidates. by intros c [? _]%list_elem_of_filter.
  - unfold hop_known, hop_source, candidates_start. cbn. destruct (ld_previousHopDomain r); [|done]. split; [naive_solver|done].
  - intros [[response|st]|e] h' _ _; [by wp_step| |done]. do 2 wp_step. destruct (candidates_verdict _ _ _); [by wp_step|done].
Qed.

Lemma assert_hop_spec r previous domain h :
  ld_previousHopDomain r = Some previous ->
  wp (local_tried r) (assertFederationHopAllowed (Some previous) (ld_targetId r) domain)
    (fun res h' => match res with Ok _ => hop_cleared (Some previous) (ld_targetId r) domain h' | Throw _ => True end) h.
Proof.
  intros Hp. unfold assertFederationHopAllowed. wp_step. eapply wp_call.
  { apply evaluate_spec. intros d a [= <-] Hne. split; [|done]. exists previous. unfold hop_source. by rewrite Hp. }
  intros [[]|e] h' _ H; [..|done]; try (wp_step; by apply H); by wp_step.
Qed.

Lemma resolveRouteDomain_elem targetId explicit headers cs d :
  resolveRouteDomain targetId explicit headers cs = Ok d -> d ∈ candidate_domains cs.
Proof.
  unfold resolveRouteDomain. destruct (or_else _ _).
  - destruct (has_domain _ _) eqn:E; [|done]. intros [= <-]. by apply has_domain_spec.
  - destruct (candidate_domains _) as [|d0 [|]] eqn:E; try done. intros [= <-]. by left.
Qed.

Lemma dispatch_to_guest_spec r t h : wp (local_tried r) (dispatch_to_guest r t) (fun _ _ => True) h.
Proof.
  unfold dispatch_to_guest. do 3 wp_step. wp_step.
  destruct (resolveRouteDomain _ _ _ _) as [d|e] eqn:Ed; [|done]. wp_step.
  apply resolveRouteDomain_elem in Ed as Hd.
  eapply (wp_call _ _ (fun res h' => match res with Ok _ => forall p, ld_previousHopDomain r = Some p -> hop_cleared (Some p) (ld_targetId r) d h' | Throw _ => True end)).
  { destruct (ld_previousHopDomain r) as [p|] eqn:Ep; [|by wp_step]. eapply wp_call; [by apply assert_hop_spec|].
    intros [u|e] h' _ H; [|done]. by intros p' [= <-]. }
  intros [u|e] h1 Hh1 Hcl; [|done].
  assert (guest_cleared r d h1) as Hg by (split; [by exists h|done]).
  do 2 wp_step; [split; [split; [done|by exists d]|done]|]. wp_step. eapply (wp_call _ _ (fun _ _ => True)).
  { destruct (bool_decide _); [destruct (pi_localGuest t); [|by wp_step]|].
    - unfold routeLocalRequestToAttachedGuest. wp_step; [|done]. split; [|done]. exists h1, d. auto.
    - by apply (h2_guest_spec r d h1). }
  intros [response|e] h' _ _; [|done]. do 2 wp_step; [done|]. by wp_step.
Qed.

(** The part of the dispatch that is tried. *)
Lemma dispatch_spec r target h :
  wp (local_tried r) (match (if is_guest target then target else None) with
    | Some t => dispatch_to_guest r t
    | None =>
        forwarded ← tryRouteLocalRequestToFederatedHost r;
        match forwarded with
        | Some response => mret response
        | None => io_throw (verr missing_guest "Target Guest is not registered" (peer_targets (ld_targetId r)))
        end
    end) (fun _ _ => True) h.
Proof.
  destruct (if is_guest _ then _ else _) as [t|]; [apply dispatch_to_guest_spec|]. wp_step.
  eapply wp_call; [apply try_local_spec|]. intros [[response|]|e] h' _ _; [by wp_step..|done].
Qed.

Lemma local_dispatch_spec r h : wp (local_allowed r) (routeLocalRequestDispatch r) (fun res h' => exists t, Forall (fun e => concludes e = false) t /\
    match res with
    | Ok response => h' = h ++ t ++ [ev_untrack_with (lr_body response) [ld_sourceId r; ld_targetId r]]
    | Throw e => exists v, e = VerserErr v /\
        h' = h ++ t ++ [ev_lifecycle (Some (ld_targetId r)) (lc_error v); ev_untrack (ld_sourceId r); ev_untrack (ld_targetId r)]
    end) h.
Proof.
  unfold routeLocalRequestDispatch. do 2 wp_step. do 2 wp_step; [by left|]. do 2 wp_step; [by right|]. wp_step. wp_step.
  eapply wp_call; [eapply wp_weaken; [|apply wp_trail, dispatch_spec]; by intros ? ? []|].
  intros [response|e] h' _ [_ (t & -> & Ht)].
  all: assert (Forall (fun e => concludes e = false) (ev_track (ld_sourceId r) :: ev_track (ld_targetId r) :: t)) as Ht'
    by (do 2 (constructor; [done|]); eapply Forall_impl; [exact Ht|]; by intros ? (? & _ & ?)).
  - do 2 wp_step; [done|]. wp_step. eexists. split; [exact Ht'|]. by rewrite <- !app_assoc.
  - cbv zeta. do 2 wp_step; [done|]. do 2 wp_step; [by left|]. do 2 wp_step; [by right|]. wp_step.
    eexists. split; [exact Ht'|]. exists (host_toVerserError e). by rewrite <- !app_assoc.
Qed.

(** ** What is done with acquired streams *)
Section Duties.
Context (unwanted : routing_event -> history -> bool) (start : history).
Abbreviation obeys := (dutiful acquires (stream_duty unwanted) start).
Abbreviation idle := (quiet acquires start).
(** Nothing is left to do, or it failed. *)
Definition done_or_failed {A} (r : result exn A) h : Prop := match r with Ok _ => idle h | Throw _ => stream_end unwanted start true h end.
Lemma idle_end failed h : idle h -> stream_end unwanted start failed h.
Proof. intros H x s Hx. by destruct (H x). Qed.
Lemma idle_done {A} (r : result exn A) h : idle h -> done_or_failed r h.
Proof. intros H. destruct r; [done|by apply idle_end]. Qed.
Lemma report_obeys h e : reports e = true -> stream_end unwanted start true h -> obeys h e.
Proof. intros He H x Hx s Hs. specialize (H x s Hx Hs). destruct (unwanted x h); auto. Qed.
Lemma evaluate_idle previous targetId domain h : idle h ->
  wp obeys (evaluateFederationHop previous targetId domain) (fun _ h' => idle h') h.
Proof.
  intros Hq. eapply wp_call; [apply wp_still; [exact Hq|by apply evaluate_spec]|]. by intros r h' _ [H _].
Qed.
Lemma obliged_unique x y h : obliged acquires start x h -> obliged acquires start y h -> x = y.
Proof. intros [_ [t1 ->]] [_ [t2 E]]. rewrite !app_assoc in E. by apply app_inj_tail in E as [_ ->]. Qed.
(** A stream that is wanted gets the request. *)
Lemma write_obeys {A} x s h metadata (rest : routing A) : obliged acquires start x h -> acquired x = Some s -> unwanted x h = false ->
  (forall h', wp (fun _ e => acquires e = false) rest (fun _ _ => True) h') ->
  wp obeys (_ ← write_request s metadata; rest) done_or_failed h.
Proof.
  intros Hx Hs Hu Hrest. assert (stream_end unwanted start true h) as Hend.
  { intros y s' Hy Hs'. by rewrite (obliged_unique _ _ _ Hy Hx), Hu. }
  unfold write_request. do 3 wp_step. destruct metadata as [m|e]; [|done]. do 2 wp_step. destruct (encodeVerserEnvelope _ _) as [b|e]; [|done].
  wp_step. { intros y Hy s' Hs'. rewrite (obliged_unique _ _ _ Hy Hx) in *. rewrite Hu. left. rewrite Hs in Hs'. injection Hs' as <-. by exists b. }
  eapply wp_call; [apply wp_still; [by apply quiet_snoc|apply Hrest]|]. intros r h' _ [H _]. by apply idle_done.
Qed.
(** One that is not is closed. *)
Lemma close_obeys x s h : obliged acquires start x h -> acquired x = Some s -> unwanted x h = true ->
  wp obeys (close_open s) (fun _ h' => forall failed, stream_end unwanted start failed h') h.
Proof.
  intros Hx Hs Hu. unfold close_open. do 3 wp_step.
  - wp_step; [|intros failed; by apply idle_end, quiet_snoc]. intros y Hy s' Hs'. rewrite (obliged_unique _ _ _ Hy Hx) in *. rewrite Hu. left. congruence.
  - intros failed y s' Hy Hs'. rewrite (obliged_unique _ _ _ Hy Hx) in *. rewrite Hu. rewrite Hs in Hs'. injection Hs' as <-. by apply negb_false_iff.
Qed.
Lemma obliged_last x h t : h = start ++ t -> acquires x = true -> obliged acquires start x (h ++ [x]).
Proof. intros -> H. split; [done|]. exists t. by rewrite app_assoc. Qed.
End Duties.

Section LocalDuties.
Context (start : history) (r : LocalDispatchRequest).
Abbreviation obeys := (dutiful acquires (stream_duty aborted_lease) start).
Abbreviation idle := (quiet acquires start).
Abbreviation finished := (done_or_failed aborted_lease start).
Lemma h2_guest_duty r' h t : h = start ++ t -> idle h -> wp obeys (routeLocalRequestToH2Guest r') finished h.
Proof.
  intros Ht Hq. unfold routeLocalRequestToH2Guest. do 2 wp_step; [by apply quiet_dutiful|].
  destruct (br_acquireLease _ _ _ _) as [lease|e]; cbn [fmap result_fmap]; [|by apply idle_end, quiet_snoc].
  set (x := ev_lease _ _ _ _ _). assert (obliged acquires start x (h ++ [x])) as Hx by by eapply obliged_last.
  do 2 wp_step. destruct (w_aborted _) eqn:Ea.
  - wp_step. eapply wp_call; [by eapply close_obeys|]. intros [u|e] h' _ H; [wp_step; by apply H|by apply H].
  - eapply write_obeys; [exact Hx|done..|]. intros h'. unfold await_response. do 2 wp_step; [done|]. do 3 wp_step; [done|].
    destruct (fst <$> _); [|done]. do 2 wp_step. destruct (local_response _); [|done]. by wp_step.
Qed.
Lemma local_candidates_duty requestedDomain cs st h t : h = start ++ t -> idle h -> wp obeys (local_candidates r requestedDomain cs st) finished h.
Proof.
  revert st h t. induction cs as [|c cs IH]; intros st h t Ht Hq; cbn [local_candidates]; [by wp_step|].
  destruct (other_domain requestedDomain c); [by eapply IH|]. do 2 wp_step. wp_step.
  eapply (wp_call _ _ (fun _ h' => idle h')).
  { wp_step; [|by wp_step]. do 2 wp_step. wp_step; [by wp_step|]. wp_step. done. }
  intros [previous|e] h1 [t1 ->] Hq1; [|by apply idle_end]. wp_step. eapply wp_call; [by apply evaluate_idle|].
  intros [hop|e] h2 [t2 ->] Hq2; [|by apply idle_end]. subst h. rewrite <- !app_assoc in *.
  destruct (refused hop); [by eapply IH|]. unfold acquire_federated. do 2 wp_step; [by apply quiet_dutiful|].
  destruct (br_tryAcquireFederatedRequestStream _ _ _) as [[s|]|e].
  - do 2 wp_step. wp_step. eapply wp_call.
    { unfold routeLocalRequestOverFederationStream. eapply write_obeys; [by eapply obliged_last|done..|].
      intros h'. unfold await_response. do 2 wp_step; [done|]. do 3 wp_step; [done|].
      destruct (fst <$> _); [|done]. do 2 wp_step. destruct (local_response _); [|done]. by wp_step. }
    by intros [response|e] h' _ H.
  - eapply IH; [by rewrite <- app_assoc|]. by apply quiet_snoc.
  - by apply idle_end, quiet_snoc.
Qed.
Lemma dispatch_duty target h t : h = start ++ t -> idle h ->
  wp obeys (match (if is_guest target then target else None) with
    | Some t => dispatch_to_guest r t
    | None =>
        forwarded ← tryRouteLocalRequestToFederatedHost r;
        match forwarded with
        | Some response => mret response
        | None => io_throw (verr missing_guest "Target Guest is not registered" (peer_targets (ld_targetId r)))
        end
    end) finished h.
Proof.
  intros Ht Hq. destruct (if is_guest target then target else None) as [p|].
  - unfold dispatch_to_guest. do 3 wp_step. wp_step. destruct (resolveRouteDomain _ _ _ _) as [d|e]; [|by apply idle_end]. wp_step.
    eapply (wp_call _ _ (fun _ h' => idle h')).
    { destruct (ld_previousHopDomain r) as [previous|]; [|by wp_step]. unfold assertFederationHopAllowed. wp_step.
      eapply wp_call; [by apply evaluate_idle|]. intros [[]|e] h' _ H; by try wp_step. }
    intros [u|e] h1 [t1 ->] Hq1; [|by apply idle_end]. do 2 wp_step; [by apply quiet_dutiful|]. wp_step.
    eapply (wp_call _ _ finished).
    { destruct (bool_decide _); [destruct (pi_localGuest p)|].
      - unfold routeLocalRequestToAttachedGuest. wp_step; [by apply quiet_dutiful, quiet_snoc|]. by apply idle_done, quiet_snoc.
      - wp_step. by apply idle_end, quiet_snoc.
      - subst h. eapply h2_guest_duty; [by rewrite <- !app_assoc|by apply quiet_snoc]. }
    intros [response|e] h2 _ H; [|done]. do 2 wp_step; [by apply quiet_dutiful|]. wp_step. by apply quiet_snoc.
  - wp_step. eapply (wp_call _ _ finished).
    { unfold tryRouteLocalRequestToFederatedHost. cbv zeta. do 2 wp_step. wp_step; [wp_step; by apply idle_end|]. wp_step.
      eapply wp_call; [by eapply local_candidates_duty|]. intros [[response|st]|e] h' _ H; [by wp_step| |done].
      do 2 wp_step. destruct (candidates_verdict _ _ _); [by wp_step|by apply idle_end]. }
    intros [[response|]|e] h' _ H; [by wp_step|wp_step; by apply idle_end|done].
Qed.
Lemma local_dispatch_duty h t : h = start ++ t -> idle h -> wp obeys (routeLocalRequestDispatch r) (fun _ h' => idle h') h.
Proof.
  intros Ht Hq. unfold routeLocalRequestDispatch. do 2 wp_step. do 2 wp_step; [by apply quiet_dutiful|].
  do 2 wp_step; [by apply quiet_dutiful, quiet_snoc|]. wp_step. wp_step.
  eapply wp_call; [eapply dispatch_duty; [by rewrite Ht, <- !app_assoc|by apply quiet_snoc]|].
  intros [response|e] h' _ H.
  - do 2 wp_step; [by apply quiet_dutiful|]. wp_step. by apply quiet_snoc.
  - cbv zeta. do 2 wp_step; [by apply report_obeys|]. do 2 (do 2 wp_step; [by apply quiet_dutiful, quiet_snoc|]). wp_step. by apply quiet_snoc.
Qed.
End LocalDuties.

(** C2: Dispatch of a request inside the process, whatever else happens meanwhile.
    A guest gets the request (directly or over a lease of its own), with nothing
    changed but the route domain, which was one of its candidates', and the headers
    rewritten for it; it is asked for right after the start is announced; when the
    request came from another host, only with the authorizer off or right after
    its allow for the pair of the incoming domain and that route domain. Other
    hosts are asked under the rules of federation and get the request under the
    candidate's domain. A stream that arrives is written to next, or the failure is
    reported; a lease that arrives after the request was aborted is closed. Every
    failure is an error of this program, reported once and last, with both
    controllers released; a response releases them with its body. *)
Theorem local_dispatch_safe r h :
  wp (fun h' e => local_allowed r h' e /\ dutiful acquires (stream_duty aborted_lease) h h' e) (routeLocalRequestDispatch r) (fun res h' =>
    exists t, Forall (fun e => concludes e = false) t /\
    match res with
    | Ok response => h' = h ++ t ++ [ev_untrack_with (lr_body response) [ld_sourceId r; ld_targetId r]]
    | Throw e => exists v, e = VerserErr v /\
        h' = h ++ t ++ [ev_lifecycle (Some (ld_targetId r)) (lc_error v); ev_untrack (ld_sourceId r); ev_untrack (ld_targetId r)]
    end) h.
Proof.
  eapply wp_call; [apply wp_and; [apply local_dispatch_spec|eapply local_dispatch_duty; [by rewrite app_nil_r|apply quiet_start]]|].
  by intros res h' _ [H _].
Qed.
(** ** Entering with a remote broker's request *)
(** The lease was the last thing that happened. *)
Definition just_leased (requestId : jsstring) (s : nat) h : Prop :=
  exists h0 q g timeoutMs a, h = h0 ++ [ev_lease q g requestId timeoutMs a] /\ a = Ok (Some s).
Definition lease_allowed (stream : broker_stream) (requestId targetId : jsstring) h (e : routing_event) : Prop :=
  match e with
  | ev_lease _ g r timeoutMs _ => createPeerId targetId = Ok g /\ r = requestId /\ timeoutMs = parseLeaseAcquireTimeoutMs (bs_headers stream) /\
      isRemoteBrokerRequestLive stream h = true
  | ev_write s b => isRemoteBrokerRequestLive stream h = true /\ just_leased requestId s h /\
      exists h0 d headers m, h0 `prefix_of` h /\ d ∈ candidate_domains (br_getRouteCandidates h0 targetId) /\
        requested_headers stream = Ok headers /\
        request_metadata requestId (source_id stream) targetId [] (request_method stream) (request_path stream)
          (rewriteGuestHeaders headers (Some d)) = Ok m /\ encodeVerserEnvelope env_request m = Ok b
  | ev_close s => isRemoteBrokerRequestLive stream h = false /\ just_leased requestId s h
  | ev_pipe _ _ | ev_read _ | ev_respond _ => relays ep_broker h e
  | _ => False
  end.

Lemma use_lease_spec stream requestId targetId s d h h0 :
  h0 `prefix_of` h -> d ∈ candidate_domains (br_getRouteCandidates h0 targetId) -> just_leased requestId s h ->
  wp (lease_allowed stream requestId targetId) (use_lease stream s requestId targetId d) (fun _ _ => True) h.
Proof.
  intros Hh Hd Hs. unfold use_lease. do 2 wp_step. destruct (isRemoteBrokerRequestLive stream h) eqn:El; cbn [negb].
  - unfold routeBrokerRequestOverLease, write_request, respond_remote, await_response. do 2 wp_step.
    destruct (requested_headers stream) as [headers|e] eqn:Eh; [|done].
    do 3 wp_step. destruct (request_metadata _ _ _ _ _ _ _) as [m|e] eqn:Em; [|done].
    do 2 wp_step. destruct (encodeVerserEnvelope _ _) as [b|e] eqn:Eb; [|done].
    wp_step; [split_and!; [done|done|]; exists h0, d, headers, m; auto|].
    do 2 wp_step; [left; eauto 6|]. do 3 wp_step; [cbn; eauto|]. destruct (fst <$> _) as [response|e]; [|done].
    do 3 wp_step. destruct (respondToRemoteBroker _ _); [|done]. wp_step; [cbn; eauto|]. by wp_step; [right; eauto 6|].
  - apply close_open_spec. done.
Qed.

(** What the request of a live broker may do, by the kind of its target. *)
Definition to_local_guest (target : option PeerInfo) : bool :=
  match target with Some t => bool_decide (pi_transport t = Some (js "local")) | None => false end.
(** The response of a guest in this process goes back to the broker. *)
Definition answers_remote h (e : routing_event) : Prop :=
  match e with
  | ev_respond _ => exists h0 body ps, h = h0 ++ [ev_untrack_with body ps]
  | ev_pipe a b => exists h0 ps hs, h = (h0 ++ [ev_untrack_with a ps]) ++ [ev_respond hs] /\ b = ep_broker
  | _ => False
  end.
(** The request of a broker's stream for a guest of this process. *)
Definition from_broker (stream : broker_stream) (requestId targetId : jsstring) (validated : VerserHeaders) (r : LocalDispatchRequest) : Prop :=
  ld_requestId r = requestId /\ ld_sourceId r = source_id stream /\ ld_targetId r = targetId /\ ld_routeDomain r = None /\
  ld_method r = request_method stream /\ ld_path r = request_path stream /\
  ld_headers r = map (fun p => (p.1, JStr p.2)) (flattenVerserHeaders validated) /\ ld_body r = ep_broker /\
  ld_leaseAcquireTimeoutMs r = parseLeaseAcquireTimeoutMs (bs_headers stream) /\ ld_context r = None /\ ld_previousHopDomain r = None.
Definition remote_allowed (stream : broker_stream) h0 h (e : routing_event) : Prop :=
  let targetId := header_text_or (bs_headers stream) "x-verser-target-id" [] in
  let requestId := header_text_or (bs_headers stream) "x-verser-request-id" (w_request_id h0) in
  match br_getPeer h0 targetId None with
  | None => h2_allowed stream requestId targetId (upstream_candidates h0 targetId) h e
  | Some t =>
      is_guest (Some t) = true /\
      if to_local_guest (Some t) then
        exists g d headers validated r, createPeerId targetId = Ok g /\ d ∈ candidate_domains (br_getRouteCandidates h0 targetId) /\
          requested_headers stream = Ok headers /\ validateVerserHeaders (rewriteGuestHeaders headers (Some d)) = Ok validated /\
          from_broker stream requestId g validated r /\ (local_allowed r h e \/ answers_remote h e)
      else lease_allowed stream requestId targetId h e
  end.
(** When a stream that arrives is not wanted. *)
Definition remote_unwanted (stream : broker_stream) h0 : routing_event -> history -> bool :=
  if to_local_guest (br_getPeer h0 (header_text_or (bs_headers stream) "x-verser-target-id" []) None) then aborted_lease else not_live stream.

Section RemoteDuties.
Context (start : history) (stream : broker_stream).
Abbreviation obeys := (dutiful acquires (stream_duty (not_live stream)) start).
Abbreviation idle := (quiet acquires start).
Abbreviation finished := (fun r h' => stream_end (not_live stream) start (negb (is_ok r)) h').
Lemma relay_idle {A} s (read : readable -> result exn (A * readable)) requestId (fields : A -> list (jsstring * jsval)) h :
  wp (fun _ e => acquires e = false) (_ ← io_do (ev_pipe ep_broker (ep_stream s)); m ← await_response s read;
    _ ← respond_remote requestId (fields m); io_do (ev_pipe (ep_stream s) ep_broker)) (fun _ _ => True) h.
Proof.
  unfold await_response, respond_remote. do 2 wp_step; [done|]. do 3 wp_step; [done|]. destruct (fst <$> _); [|done].
  do 3 wp_step. destruct (respondToRemoteBroker _ _); [|done]. do 2 (wp_step; try done).
Qed.
Lemma h2_candidates_duty requestId targetId requestedDomain cs st h t : h = start ++ t -> idle h ->
  wp obeys (h2_candidates stream requestId targetId requestedDomain cs st)
    (fun r h' => match r with Ok (Some _) => idle h' | _ => finished r h' end) h.
Proof.
  revert st h t. induction cs as [|c cs IH]; intros st h t Ht Hq; cbn [h2_candidates]; [by wp_step|].
  destruct (other_domain requestedDomain c); [by eapply IH|]. do 2 wp_step. wp_step.
  eapply (wp_call _ _ (fun _ h' => idle h')).
  { wp_step; [|by wp_step]. wp_step. unfold resolveRemoteBrokerDomain. do 2 wp_step. wp_step; [by wp_step|].
    do 2 wp_step. wp_step; by wp_step. }
  intros [previous|e] h1 [t1 ->] Hq1; [|by apply idle_end]. wp_step. eapply wp_call; [by apply evaluate_idle|].
  intros [hop|e] h2 [t2 ->] Hq2; [|by apply idle_end]. subst h. rewrite <- !app_assoc in *.
  do 2 wp_step. wp_step; [wp_step; by apply idle_end|]. destruct (refused hop); [by eapply IH|].
  unfold acquire_federated. do 2 wp_step; [by apply quiet_dutiful|].
  destruct (br_tryAcquireFederatedRequestStream _ _ _) as [[s|]|e]; [| |by apply idle_end, quiet_snoc].
  - set (x := ev_federated _ _ _). assert (obliged acquires start x ((start ++ t ++ t1 ++ t2) ++ [x])) as Hx by by eapply obliged_last.
    do 2 wp_step. match goal with |- context [if negb ?b then _ else _] => destruct b eqn:El end; cbn [negb].
    + do 2 wp_step. wp_step. eapply wp_call.
      { unfold routeH2BrokerRequestOverFederationStream. eapply write_obeys; [exact Hx|done|by unfold not_live; rewrite El|]. intros h'. apply (relay_idle s _ requestId (fun m => m)). }
      intros [u|e] h' _ H; [wp_step; by apply idle_end|done].
    + wp_step. eapply wp_call; [eapply close_obeys; [exact Hx|done|by unfold not_live; rewrite El]|].
      intros [u|e] h' _ H; [wp_step|]; by apply H.
  - do 2 wp_step. wp_step; [do 3 wp_step; by apply idle_end, quiet_snoc|]. eapply IH; [by rewrite <- app_assoc|by apply quiet_snoc].
Qed.
Lemma try_h2_duty requestId targetId h t : h = start ++ t -> idle h -> wp obeys (tryRouteH2BrokerRequestToFederatedHost stream requestId targetId) finished h.
Proof.
  intros Ht Hq. unfold tryRouteH2BrokerRequestToFederatedHost. do 2 wp_step. destruct (requested_headers stream); [|by apply idle_end]. cbv zeta.
  do 2 wp_step. wp_step; [wp_step; by apply idle_end|]. wp_step. eapply wp_call; [by eapply h2_candidates_duty|].
  intros [[st|]|e] h' _ H; [|by wp_step|done]. do 2 wp_step. destruct (candidates_verdict _ _ _); [wp_step|]; by apply idle_end.
Qed.
Lemma use_lease_duty x s requestId targetId d h : obliged acquires start x h -> acquired x = Some s ->
  wp obeys (use_lease stream s requestId targetId d) finished h.
Proof.
  intros Hx Hs. unfold use_lease. do 2 wp_step. destruct (isRemoteBrokerRequestLive stream h) eqn:El; cbn [negb].
  - unfold routeBrokerRequestOverLease. do 2 wp_step. destruct (requested_headers stream).
    + eapply wp_call; [eapply write_obeys; [exact Hx|exact Hs|by unfold not_live; rewrite El|]; intros h'; apply (relay_idle s _ requestId (fun m => m))|].
      intros [u|e] h' _ H; [by apply idle_end|done].
    + intros y s' Hy Hs'. unfold not_live. by rewrite El.
  - eapply wp_call; [eapply close_obeys; [exact Hx|done|by unfold not_live; rewrite El]|].
    intros r h' _ H. by apply H.
Qed.
End RemoteDuties.

Lemma routeBrokerRequest_allowed stream h :
  wp (fun h' e => isRemoteBrokerRequestLive stream h = true /\ remote_allowed stream h h' e) (routeBrokerRequest stream)
    (fun r h' => isRemoteBrokerRequestLive stream h = false -> r = Throw (not_registered stream) /\ h' = h) h.
Proof.
  unfold routeBrokerRequest, assertRemoteBrokerSession. do 3 wp_step.
  destruct (isRemoteBrokerRequestLive stream h) eqn:Hl; cbn [negb]; [|by wp_step].
  wp_step. eapply (wp_call _ _ (fun _ _ => True)); [|by intros].
  do 2 wp_step. cbv zeta. do 2 wp_step. set (targetId := header_text_or _ "x-verser-target-id" []).
  set (requestId := header_text_or _ "x-verser-request-id" _).
  apply (wp_weaken (remote_allowed stream h)); [by split|].
  destruct (br_getPeer h targetId None) as [t|] eqn:Et.
  2:{ eapply wp_weaken; [|wp_step; eapply wp_call; [apply federated_forwarding_safe|]].
      - intros h' e He. unfold remote_allowed. fold targetId. rewrite Et. exact He.
      - intros [[|]|e] h' _ _; [by wp_step..|done]. }
  destruct (is_guest (Some t)) eqn:Eg; cbn [negb]; [|by wp_step].
  do 2 wp_step. destruct (requested_headers stream) as [headers|e] eqn:Eh; [|done]. do 4 wp_step.
  destruct (resolveRouteDomain _ _ _ _) as [d|e] eqn:Ed; [|done]. apply resolveRouteDomain_elem in Ed. do 2 wp_step.
  destruct (createPeerId targetId) as [g|e] eqn:Ep; [|done]. cbv zeta. destruct (bool_decide _) eqn:Etr.
  - unfold routeH2BrokerRequestToLocalGuest, respond_remote. do 2 wp_step. rewrite Eh. do 2 wp_step.
    destruct (validateVerserHeaders _) as [hs|e] eqn:Ev; [|done]. wp_step.
    assert (forall h' e, local_allowed (remote_request stream requestId g hs) h' e \/ answers_remote h' e -> remote_allowed stream h h' e) as Hr.
    { intros h' e He. unfold remote_allowed, to_local_guest. fold targetId requestId. rewrite Et, Etr. split; [done|]. by exists g, d, headers, hs, (remote_request stream requestId g hs). }
    eapply wp_call; [eapply wp_weaken; [|apply local_dispatch_spec]; intros h' e He; apply Hr; by left|].
    intros [response|e] h' _ (t' & _ & Ht'); [|done]. do 3 wp_step. destruct (respondToRemoteBroker _ _); [|done].
    rewrite !app_assoc in Ht'. subst h'. wp_step; [apply Hr; right; cbn; eauto|]. wp_step; [apply Hr; right; cbn; eauto 6|done].
  - eapply wp_weaken; [intros h' e He; unfold remote_allowed, to_local_guest; fold targetId requestId; rewrite Et, Etr; split; [done|exact He]|].
    do 2 wp_step; [by split_and!|]. destruct (br_tryAcquireLease _ _ _ _) as [[lease|]|e] eqn:El; [| |done].
    + eapply use_lease_spec; [by eexists|exact Ed|]. unfold just_leased. eauto 10.
    + do 2 wp_step. match goal with |- context [if negb ?b then _ else _] => destruct b eqn:El2 end; cbn [negb]; [|by wp_step].
      do 2 wp_step; [by split_and!|]. destruct (br_acquireLease _ _ _ _) as [lease|e] eqn:El3; [|done].
      eapply use_lease_spec; [|exact Ed|].
      * rewrite <- app_assoc. by eexists.
      * unfold just_leased. eauto 10.
Qed.

Lemma routeBrokerRequest_duty stream h :
  wp (dutiful acquires (stream_duty (remote_unwanted stream h)) h) (routeBrokerRequest stream)
    (fun r h' => stream_end (remote_unwanted stream h) h (negb (is_ok r)) h') h.
Proof.
  pose proof (quiet_start acquires h) as Hq. unfold routeBrokerRequest, assertRemoteBrokerSession. do 3 wp_step.
  wp_step; [wp_step; by apply idle_end|]. do 3 wp_step. cbv zeta. do 2 wp_step.
  unfold remote_unwanted. destruct (br_getPeer h _ None) as [t|].
  2:{ cbn [to_local_guest]. wp_step. eapply wp_call; [eapply try_h2_duty; [by rewrite app_nil_r|done]|]. intros [[|]|e] h' _ H; [by wp_step| |done].
      wp_step. intros x s Hx Hs. specialize (H x s Hx Hs). by destruct (not_live stream x h'). }
  destruct (is_guest (Some t)); cbn [negb]; [|wp_step; by apply idle_end].
  do 2 wp_step. destruct (requested_headers stream); [|by apply idle_end]. do 4 wp_step.
  destruct (resolveRouteDomain _ _ _ _) as [d|e]; [|by apply idle_end]. do 2 wp_step.
  destruct (createPeerId _) as [g|e]; [|by apply idle_end]. cbv zeta. unfold to_local_guest. destruct (bool_decide _).
  - unfold routeH2BrokerRequestToLocalGuest, respond_remote. do 2 wp_step. destruct (requested_headers stream); [|by apply idle_end]. do 2 wp_step.
    destruct (validateVerserHeaders _) as [hs|e]; [|by apply idle_end]. wp_step.
    eapply wp_call; [eapply local_dispatch_duty; [by rewrite app_nil_r|done]|].
    intros [response|e] h' _ H; [|by apply idle_end]. do 3 wp_step. destruct (respondToRemoteBroker _ _); [|by apply idle_end].
    wp_step; [by apply quiet_dutiful|]. wp_step; [by apply quiet_dutiful, quiet_snoc|by apply idle_end, quiet_snoc].
  - do 2 wp_step; [by apply quiet_dutiful|]. destruct (br_tryAcquireLease _ _ _ _) as [[lease|]|e]; [| |by apply idle_end, quiet_snoc].
    + eapply use_lease_duty; [apply (obliged_last _ _ _ []); [by rewrite app_nil_r|done]|done].
    + do 2 wp_step. wp_step; [wp_step; by apply idle_end, quiet_snoc|]. do 2 wp_step; [by apply quiet_dutiful, quiet_snoc|].
      destruct (br_acquireLease _ _ _ _) as [lease|e]; cbn [fmap result_fmap]; [|by apply idle_end, quiet_snoc].
      eapply use_lease_duty; [by eapply obliged_last|done].
Qed.


(** ** A request that comes from another host *)
(** Answering on the stream the request came on, and reporting. *)
Definition answers (stream : nat) (e : routing_event) : Prop :=
  match e with
  | ev_write s _ | ev_end s _ | ev_close s => s = stream
  | ev_pipe _ destination => destination = ep_stream stream
  | ev_lifecycle None (lc_error _) => True
  | _ => False
  end.
(** The request of the metadata, with its headers validated, is what is dispatched. *)
Definition incoming_allowed (stream : nat) (r : LocalDispatchRequest) h (e : routing_event) : Prop :=
  (exists headers, validateVerserHeaders (ld_headers r) = Ok headers /\
     local_allowed (with_route r (ld_routeDomain r) (map (fun p => (p.1, JStr p.2)) (flattenVerserHeaders headers))) h e) \/ answers stream e.
Definition names (v : jsval) : bool := match v with JUndef => false | _ => true end.
(** How a stream is answered: the envelope and the body of the response, or the
    failure is reported and, unless the stream is closed, told or, when the metadata
    has no ids to tell it with, the stream cancelled. *)
Definition answered (stream : nat) (requestId targetId : jsval) h (r : result exn unit) h' : Prop :=
  exists t,
    (r = Ok tt /\ exists response b, response_envelope (lr_envelope response) = Ok b /\
       h' = h ++ t ++ [ev_write stream b; ev_pipe (lr_body response) (ep_stream stream)]) \/
    exists v, let h1 := h ++ t ++ [ev_lifecycle None (lc_error v)] in
      if w_stream_closed h1 stream then r = Ok tt /\ h' = h1
      else if names requestId && names targetId then
        match error_envelope requestId targetId v with
        | Ok b => r = Ok tt /\ h' = h1 ++ [ev_end stream b]
        | Throw e => r = Throw e /\ h' = h1
        end
      else r = Ok tt /\ h' = h1 ++ [ev_close stream].

(** [r] is the request that typed metadata [m] describes. *)
Definition from_metadata (m : list (jsstring * jsval)) (stream : nat) (context : option jsval) (r : LocalDispatchRequest) : Prop :=
  prop (js "requestId") m = JStr (ld_requestId r) /\ prop (js "sourceId") m = JStr (ld_sourceId r) /\ prop (js "targetId") m = JStr (ld_targetId r) /\
  prop (js "method") m = JStr (ld_method r) /\ prop (js "path") m = JStr (ld_path r) /\ prop (js "headers") m = JObj (ld_headers r) /\
  match prop (js "routeDomain") m with JStr d => ld_routeDomain r = Some d | JUndef | JNull => ld_routeDomain r = None | _ => False end /\
  ld_previousHopDomain r = Some (default [] (ld_routeDomain r)) /\ ld_body r = ep_stream stream /\
  ld_leaseAcquireTimeoutMs r = num_int UPSTREAM_HANDSHAKE_TIMEOUT_MS /\ ld_context r = context.
Lemma from_metadata_request m stream context r : from_metadata m stream context r -> federated_request m stream context = Some r.
Proof.
  intros (E1 & E2 & E3 & E4 & E5 & E6 & E7 & E8 & E9 & E10 & E11). unfold federated_request. rewrite E1, E2, E3, E4, E5, E6. destruct r.
  cbn [ld_requestId ld_sourceId ld_targetId ld_routeDomain ld_method ld_path ld_headers ld_body ld_leaseAcquireTimeoutMs ld_context ld_previousHopDomain] in *. subst.
  destruct (prop (js "routeDomain") m); try done; by subst.
Qed.

Lemma dispatch_federated_spec stream r h : wp (incoming_allowed stream r) (dispatch_federated r) (fun _ _ => True) h.
Proof.
  unfold dispatch_federated. do 2 wp_step. destruct (validateVerserHeaders _) as [hs|e] eqn:Ev; [|done].
  eapply wp_call; [eapply wp_weaken; [|apply (local_dispatch_spec (with_headers r hs))]; intros h' e He; left; by exists hs|done].
Qed.
Lemma serve_spec (Q : history -> routing_event -> Prop) stream requestId targetId dispatch h :
  wp Q dispatch (fun _ _ => True) h -> (forall h' e, answers stream e -> Q h' e) ->
  wp Q (serve_federated_request stream requestId targetId dispatch) (answered stream requestId targetId h) h.
Proof.
  intros Hd HQ. unfold serve_federated_request. wp_step.
  eapply (wp_call _ _ (fun r h' => exists t, match r with
    | Ok _ => exists response b, response_envelope (lr_envelope response) = Ok b /\ h' = h ++ t ++ [ev_write stream b; ev_pipe (lr_body response) (ep_stream stream)]
    | Throw _ => h' = h ++ t end)).
  - wp_step. eapply wp_call; [exact Hd|]. intros [response|e] h' [t ->] _; [|by exists t].
    do 2 wp_step. destruct (response_envelope _) as [b|e] eqn:Eb; [|by exists t]. do 2 wp_step; [by apply HQ|].
    wp_step; [by apply HQ|]. exists t, response, b. split; [done|]. by rewrite <- !app_assoc.
  - intros [u|e] h' _ [t Ht]; [exists t; left; destruct u; auto|]. subst h'. cbv zeta. do 2 wp_step; [by apply HQ|]. do 2 wp_step.
    assert (forall r h', (let h1 := h ++ t ++ [ev_lifecycle None (lc_error (host_toVerserError e))] in
      if w_stream_closed h1 stream then r = Ok tt /\ h' = h1
      else if names requestId && names targetId then
        match error_envelope requestId targetId (host_toVerserError e) with
        | Ok b => r = Ok tt /\ h' = h1 ++ [ev_end stream b]
        | Throw e => r = Throw e /\ h' = h1
        end
      else r = Ok tt /\ h' = h1 ++ [ev_close stream]) -> answered stream requestId targetId h r h') as Hans
      by (intros r h' H; exists t; right; by exists (host_toVerserError e)).
    rewrite <- app_assoc. wp_step; [wp_step; apply Hans; cbv zeta; by rewrite Heqb|].
    destruct (names requestId && names targetId) eqn:En.
    + assert (forall A (x y : A), match requestId, targetId with JUndef, _ | _, JUndef => x | _, _ => y end = y) as Hm by (intros; by destruct requestId, targetId).
      rewrite Hm. do 2 wp_step. destruct (error_envelope _ _ _) as [b|x] eqn:Ee.
      * wp_step; [by apply HQ|]. apply Hans. cbv zeta. by rewrite Heqb.
      * apply Hans. cbv zeta. by rewrite Heqb.
    + assert (forall A (x y : A), match requestId, targetId with JUndef, _ | _, JUndef => x | _, _ => y end = x) as Hm by (intros; by destruct requestId, targetId).
      rewrite Hm. wp_step; [by apply HQ|]. apply Hans. cbv zeta. by rewrite Heqb.
Qed.


(** The events that hand a request on. *)
Definition hands_on (e : routing_event) : bool :=
  match e with ev_guest _ | ev_lease _ _ _ _ _ | ev_federated _ _ _ => true | _ => false end.

(** With the authorizer on, a request from another host whose previous hop
    names no domain, as when its metadata has no route domain, reaches no guest
    and no other host: every attempt is denied, even if the authorizer would
    allow it. *)
Theorem unattributed_incoming_refused stream requestId targetId r p h :
  (forall h', br_routeAuthorizerEnabled h' = true) ->
  ld_previousHopDomain r = Some p -> normalizeRequestedDomain p = [] ->
  wp (fun _ e => hands_on e = false) (serve_federated_request stream requestId targetId (dispatch_federated r)) (fun _ _ => True) h.
Proof.
  intros Hon Hr Hp. eapply wp_call; [eapply wp_weaken; [|apply (serve_spec (incoming_allowed stream r)); [apply dispatch_federated_spec|by right]]|done].
  assert (forall d targetId domain h', d = p -> ~ hop_cleared (Some d) targetId domain h') as Hno.
  { intros d targetId' domain h' -> [H|(h0 & d' & [= <-] & H & _)]; [by rewrite Hon in H|done]. }
  intros h' e [(hs & _ & H)|H]; [|by destruct e]. destruct e; try done; cbn in H.
  - destruct H as (_ & _ & _ & _ & h0 & d & _ & _ & Hc). by edestruct Hno; [|apply Hc].
  - destruct H as (_ & c & [d|] & _ & _ & Hc & Hs).
    + specialize (Hs d eq_refl). unfold hop_source in Hs. cbn in Hs. rewrite Hr in Hs. by edestruct Hno.
    + destruct Hc as [Hc|(h0 & d & [=] & _)]. by rewrite Hon in Hc.
  - destruct H as (h0 & d & _ & (_ & Hc) & _). by edestruct Hno; [|apply Hc].
Qed.
End RoutingTheory.

(** * Witnesses *)
(** A host with the authorizer on that allows everything, one guest of this
    process, and a request that came from another host without a route domain. *)
Module Sample.
Definition guest : PeerInfo := {| pi_role := js "guest"; pi_transport := Some (js "local"); pi_session := None; pi_localGuest := true |}.
Definition route : FederatedRouteRegistration :=
  {| fr_domain := js "a.example"; fr_targetId := js "g"; fr_originHostId := js "h"; fr_nextHopHostId := js "h";
     fr_hopCount := 0; fr_viaHostIds := []; fr_source := source_local |}.
Definition request (previous : jsstring) : LocalDispatchRequest :=
  {| ld_requestId := js "r-1"; ld_sourceId := js "b"; ld_targetId := js "g"; ld_routeDomain := Some (js "a.example");
     ld_method := js "GET"; ld_path := js "/"; ld_headers := [(js "host", JStr (js "o.example"))]; ld_body := ep_stream 0;
     ld_leaseAcquireTimeoutMs := num_int 100; ld_context := None; ld_previousHopDomain := Some previous |}.
Definition response : VerserLocalBrokerResponse :=
  {| lr_envelope := {| rs_requestId := js "r-1"; rs_statusCode := num_int 200; rs_headers := []; rs_statusText := None; rs_headerPairs := None |};
     lr_body := ep_body |}.
Definition callbacks : BrokerRoutingCallbacks := {|
  br_getPeer := fun _ _ _ => Some guest; br_getRouteCandidates := fun _ _ => [route];
  br_tryAcquireLease := fun _ _ _ _ => Ok None; br_acquireLease := fun _ _ _ _ => Throw (verr disconnected_target "none" []);
  br_tryAcquireFederatedRequestStream := fun _ _ _ => Ok None; br_routeAuthorizerEnabled := fun _ => true;
  br_authorizeFederatedHop := fun _ _ _ => Ok true; br_getBrokerDomain := fun _ _ _ => Some (js "b.example");
  br_getEgressSourceId := fun _ => js "h"; br_dispatchGuest := fun _ _ => Ok response |}.
Definition world : RoutingWorld := {|
  w_gone := fun _ => false; w_session_closed := fun _ => false; w_stream_closed := fun _ _ => false;
  w_incoming := fun _ _ => {| st_chunks := []; st_ending := st_end |}; w_aborted := fun _ => false; w_request_id := fun _ => js "req-0"; w_untyped := fun _ _ => io_throw (EngineErr TypeError []) |}.
#[local] Existing Instances callbacks world.

Lemma unattributed_incoming_refused_witness :
  wp (fun _ e => hands_on e = false) (serve_federated_request (P := ascii_platform) 0%nat (JStr (js "r-1")) (JStr (js "g")) (dispatch_federated (P := ascii_platform) (request []))) (fun _ _ => True) [].
Proof. by apply (unattributed_incoming_refused (P := ascii_platform) 0%nat (JStr (js "r-1")) (JStr (js "g")) (request []) []). Defined.

(** With a domain the same request reaches the guest, once, after the question. *)
Definition step_name (e : routing_event) : string :=
  match e with
  | ev_authorize _ _ _ => "authorize" | ev_guest _ => "guest" | ev_lifecycle _ _ => "report" | ev_track _ => "track"
  | ev_untrack_with _ _ => "untrack with body" | ev_write _ _ => "write" | ev_pipe _ _ => "pipe" | _ => "other"
  end.
Example attributed_incoming :
  map step_name (serve_federated_request (P := ascii_platform) 0%nat (JStr (js "r-1")) (JStr (js "g")) (dispatch_federated (P := ascii_platform) (request (js "b.example"))) []).2 =
  ["track"; "track"; "authorize"; "report"; "guest"; "report"; "untrack with body"; "write"; "pipe"].
Proof. vm_compute. reflexivity. Qed.
End Sample.
