(* ===== verification/Relay.v ===== *)
(** What happens to the streams of a routed request while it is under way
    (verser2-host [broker-routing.ts]): the listeners that pass a cancellation on,
    and the relay of a federated response body to its local consumer.

    Each is a machine over the events of its streams; its state is the set of
    flags and installed listeners.  [closed] is Node's flag, set by [close()] at
    once, before the 'close' event is emitted. *)
From S2P Require Import Prelude JsNum Utf8 Json Errors ResponseMetadata Routing Effects BrokerRequests BrokerRouting.

(** ** Machines over flags *)
Section Machine.
Context {Event Effect State : Type} (step : State -> Event -> State * list Effect).
Fixpoint run (s : State) (l : list Event) : State * list Effect :=
  match l with [] => (s, []) | e :: l => let '(s, t) := step s e in let '(s, t') := run s l in (s, t ++ t') end.

(** An invariant over the state and the effects so far. *)
Lemma run_inv (I : State -> list Effect -> Prop) :
  (forall s log e s' t, I s log -> step s e = (s', t) -> I s' (log ++ t)) ->
  forall l s log s' t, I s log -> run s l = (s', t) -> I s' (log ++ t).
Proof.
  intros Hstep l. induction l as [|e l IH]; intros s log s' t Hs E; cbn in E.
  - injection E as <- <-. by rewrite app_nil_r.
  - destruct (step s e) as [s1 t1] eqn:E1. destruct (run s1 l) as [s2 t2] eqn:E2. injection E as <- <-.
    rewrite app_assoc. eapply IH; [|exact E2]. by eapply Hstep.
Qed.
End Machine.

Section Flags.
Context {F : Type} `{EqDecision F}.
Definition on (l : list F) (s : F -> bool) : F -> bool := fun f => bool_decide (f ∈ l) || s f.
Definition off (l : list F) (s : F -> bool) : F -> bool := fun f => negb (bool_decide (f ∈ l)) && s f.
Definition flags (l : list F) : F -> bool := fun f => bool_decide (f ∈ l).
End Flags.
(** Reading a flag of an updated state. *)
Ltac flag_cases :=
  unfold on, off, flags in *;
  repeat match goal with
  | |- context [bool_decide (?a ∈ ?l)] => let b := eval vm_compute in (bool_decide (a ∈ l)) in change (bool_decide (a ∈ l)) with b
  | H : context [bool_decide (?a ∈ ?l)] |- _ => let b := eval vm_compute in (bool_decide (a ∈ l)) in change (bool_decide (a ∈ l)) with b in H
  end; cbn [orb andb negb] in *.

(** Going through the cases of a step [E : step s e = (s', t)]. *)
Ltac split_step E :=
  flag_cases; cbv beta iota zeta in E;
  repeat (match type of E with
          | context [match ?x with _ => _ end] =>
              lazymatch x with context [match _ with _ => _ end] => fail | _ => destruct x eqn:? end
          end; flag_cases; cbv beta iota zeta in E);
  injection E as <- <-.

(** What the flags known so far say. *)
Ltac flag_facts :=
  repeat match goal with
  | H : ?s ?f = ?b, H' : context [?s ?f] |- _ => lazymatch b with true => idtac | false => idtac end; tryif constr_eq H H' then fail else rewrite H in H'
  | H : ?s ?f = ?b |- context [?s ?f] => lazymatch b with true => idtac | false => idtac end; rewrite H
  | H : ?P -> _ |- _ => let H' := fresh in assert P as H' by (assumption || reflexivity); specialize (H H'); clear H'
  | H : _ || _ = false |- _ => apply orb_false_iff in H as [? ?]
  | H : ?b && ?c = true |- _ => apply andb_true_iff in H as [? ?]
  end; cbn [orb andb negb] in *.

(** ** A remote broker's request over a federation stream *)
Module Forward.
Inductive flag : Type :=
  | completed | waiting                            (** for the response metadata *)
  | broker_closed | broker_ended | request_closed
  | on_aborted | on_close | on_error               (** cancelForwarding, each once *)
  | on_error_destroy                               (** the broker stream's error destroys the request stream *)
  | on_request_error | on_finish.                  (** installed with the response *)
#[export] Instance flag_eq_dec : EqDecision flag.
Proof. solve_decision. Defined.
Abbreviation state := (flag -> bool).
Inductive event : Type :=
  | aborted | close | error (e : exn) | finish     (** emitted by the broker stream *)
  | closing | ending                               (** its flags [closed] and [writableEnded] are set *)
  | response (outcome : result exn (list (jsstring * jsval)))  (** what [respond] is given, or why there is nothing *)
  | request_error | request_closing.               (** the request stream emits 'error', is closed *)
Inductive effect : Type :=
  | cancel_request | destroy_request (e : exn) | cancel_broker
  | respond (headers : list (jsstring * jsval)) | pipe_back | thrown (e : exn).

Definition start : state := flags [waiting; on_aborted; on_close; on_error; on_error_destroy].

Definition cancelForwarding (s : state) : state * list effect :=
  if negb (s completed) && negb (s request_closed) then (on [request_closed] s, [cancel_request]) else (s, []).
Definition cleanupCancellation (s : state) : state := off [on_aborted; on_close; on_error] s.

Definition step (s : state) (ev : event) : state * list effect :=
  match ev with
  | aborted => if s on_aborted then cancelForwarding (off [on_aborted] s) else (s, [])
  | close => let s := on [broker_closed] s in if s on_close then cancelForwarding (off [on_close] s) else (s, [])
  | error e =>
      let '(s, t) := if s on_error then cancelForwarding (off [on_error] s) else (s, []) in
      if s on_error_destroy then (on [request_closed] (off [on_error_destroy] s), t ++ [destroy_request e]) else (s, t)
  | closing => (on [broker_closed] s, [])
  | ending => (on [broker_ended] s, [])
  | request_closing => (on [request_closed] s, [])
  | response outcome =>
      if s waiting then
        let s := off [waiting] s in
        let '(s, t) := match outcome with
                       | Ok headers => (on [on_request_error; on_finish] s, [respond headers; pipe_back])
                       | Throw e => (s, [thrown e])
                       end in
        (if s broker_ended || s broker_closed then cleanupCancellation s else s, t)
      else (s, [])
  | request_error =>
      if s on_request_error then
        let s := off [on_request_error] s in
        if s broker_closed then (s, []) else (on [broker_closed] s, [cancel_broker])
      else (s, [])
  | finish => if s on_finish then (cleanupCancellation (on [completed] (off [on_finish] s)), []) else (s, [])
  end.

(** *** Theory *)
Fixpoint cancels (t : list effect) : nat :=
  match t with [] => 0 | cancel_request :: t => S (cancels t) | _ :: t => cancels t end.
Lemma forward_cancels_app t k : cancels (t ++ k) = (cancels t + cancels k)%nat.
Proof. induction t as [|[] t IH]; cbn; rewrite ?IH; done. Qed.

Record inv (s : state) (log : list effect) : Prop := {
  i_once : (cancels log <= 1)%nat;
  i_open : s request_closed = false -> cancels log = 0%nat;
  i_aborted : s on_aborted = false -> s completed || s request_closed || (negb (s waiting) && (s broker_closed || s broker_ended)) = true;
  i_close : s on_close = false -> s completed || s request_closed || (negb (s waiting) && (s broker_closed || s broker_ended)) = true;
  i_error : s on_error_destroy = false -> s request_closed = true;
}.

(** The cancellation has gone through, or is no longer due. *)
Definition resolved (s : state) : bool := s completed || s request_closed || (negb (s waiting) && (s broker_closed || s broker_ended)).

Lemma forward_step_inv s log e s' t : inv s log -> step s e = (s', t) -> inv s' (log ++ t).
Proof.
  intros [Ho Hn Ha Hc He] E. destruct e; cbn [step] in E; unfold cancelForwarding, cleanupCancellation in E; split_step E.
  all: split; flag_cases; rewrite ?forward_cancels_app, ?app_nil_r.
  all: cbn [cancels]; intros; flag_facts; try done; try lia.
  all: destruct (s completed), (s request_closed), (s waiting), (s broker_closed), (s broker_ended); cbn [negb andb orb] in *; try done; lia.
Qed.

Lemma forward_step_off s e s' t : step s e = (s', t) ->
  (s on_aborted = false \/ e = aborted -> s' on_aborted = false) /\
  (s on_close = false \/ e = close -> s' on_close = false) /\
  (s on_error_destroy = false \/ (exists x, e = error x) -> s' on_error_destroy = false).
Proof.
  intros E. destruct e; cbn [step] in E; unfold cancelForwarding, cleanupCancellation in E; split_step E; split_and!; flag_cases; try done; naive_solver.
Qed.

Lemma forward_run_off l s s' t : run step s l = (s', t) ->
  (s on_aborted = false \/ aborted ∈ l -> s' on_aborted = false) /\
  (s on_close = false \/ close ∈ l -> s' on_close = false) /\
  (s on_error_destroy = false \/ (exists x, error x ∈ l) -> s' on_error_destroy = false).
Proof.
  revert s t. induction l as [|e l IH]; intros s t E; cbn in E.
  - injection E as <- <-. setoid_rewrite elem_of_nil. naive_solver.
  - destruct (step s e) as [s1 t1] eqn:E1. destruct (run step s1 l) as [s2 t2] eqn:E2. injection E as <- <-.
    destruct (forward_step_off _ _ _ _ E1) as (H1 & H2 & H3). destruct (IH _ _ E2) as (H4 & H5 & H6).
    setoid_rewrite elem_of_cons. naive_solver.
Qed.

Lemma completed_quiet s : s completed = true -> forall e, cancels (step s e).2 = 0%nat.
Proof.
  intros Hc e. destruct (step s e) as [s' t] eqn:E. cbn [snd].
  destruct e; cbn [step] in E; unfold cancelForwarding in E; flag_cases; rewrite ?Hc in E; split_step E; done.
Qed.

(** A remote broker's request over a federation stream, over any events of
    the two streams: the request stream is cancelled at most once, and never
    after the response has gone out; when the broker's stream fails, the request
    stream is closed, and when it aborts or closes, the request stream is closed
    unless the response is complete or the exchange was already over. *)
Theorem forward_cancellation l s t :
  run step start l = (s, t) ->
  (cancels t <= 1)%nat /\
  (aborted ∈ l \/ close ∈ l -> s completed = true \/ s request_closed = true \/ (s waiting = false /\ (s broker_closed = true \/ s broker_ended = true))) /\
  ((exists x, error x ∈ l) -> s request_closed = true) /\
  (s completed = true -> forall e, cancels (step s e).2 = 0%nat).
Proof.
  intros E. assert (inv start []) as Hi by (split; unfold start; flag_cases; cbn; try done; lia).
  pose proof (run_inv step inv forward_step_inv l _ _ _ _ Hi E) as [Ho Hn Ha Hc He]. destruct (forward_run_off _ _ _ _ E) as (H1 & H2 & H3).
  split_and!; [done| |auto|by apply completed_quiet]. intros H. assert (resolved s = true) as Hr by (destruct H; [apply Ha, H1|apply Hc, H2]; by right).
  unfold resolved in Hr. destruct (s completed), (s request_closed), (s waiting), (s broker_closed), (s broker_ended); try done; auto.
Qed.

(** The exchange that is over too early: the broker's stream is being closed
    when the response fails, its listeners are removed before 'close', and the
    request stream stays open. *)
Lemma closing_before_failure e : (run step start [closing; response (Throw e); close]).1 request_closed = false.
Proof. reflexivity. Qed.

Lemma forward_cancellation_witness :
  cancels (run step start [aborted; close; error (terr [])]).2 = 1%nat /\ (run step start [aborted; close; error (terr [])]).1 request_closed = true.
Proof.
  destruct (run step start [aborted; close; error (terr [])]) as [s t] eqn:E.
  destruct (forward_cancellation _ s t E) as (_ & _ & H & _). split; [by injection E as <- <-|]. apply H. exists (terr []). set_solver.
Defined.
End Forward.

(** ** A remote broker's request over a guest's lease *)
Module Lease.
Inductive flag : Type :=
  | completed | waiting | broker_closed | lease_closed
  | on_aborted | on_error                                      (** cancelLease, each once *)
  | on_lease_error | on_lease_close | on_finish | on_late_error.  (** installed with the response *)
#[export] Instance flag_eq_dec : EqDecision flag.
Proof. solve_decision. Defined.
Abbreviation state := (flag -> bool).
Inductive event : Type :=
  | aborted | error | finish | closing                           (** of the broker stream *)
  | response (outcome : result exn (list (jsstring * jsval)))
  | lease_error | lease_close | lease_closing.                   (** of the lease *)
Inductive effect : Type :=
  | cancel_lease | unpipe | close_broker                         (** with [NGHTTP2_INTERNAL_ERROR] *)
  | respond (headers : list (jsstring * jsval)) | pipe_back | thrown (e : exn).

Definition start : state := flags [waiting; on_aborted; on_error].
Definition cleanupCancellation (s : state) : state := off [on_aborted; on_error] s.
Definition cancelLease (s : state) : state * list effect :=
  if s completed || s lease_closed then (s, [])
  else (on [lease_closed] (cleanupCancellation s), [unpipe; cancel_lease]).

Definition step (s : state) (ev : event) : state * list effect :=
  match ev with
  | aborted => if s on_aborted then cancelLease (off [on_aborted] s) else (s, [])
  | error =>
      let '(s, t) := if s on_error then cancelLease (off [on_error] s) else (s, []) in
      if s on_late_error then (cleanupCancellation (on [completed] (off [on_late_error] s)), t) else (s, t)
  | closing => (on [broker_closed] s, [])
  | lease_closing => (on [lease_closed] s, [])
  | response outcome =>
      if s waiting then
        match outcome with
        | Throw e => (off [waiting] s, [thrown e])
        | Ok headers => (on [on_lease_error; on_lease_close; on_finish; on_late_error] (off [waiting] s), [respond headers; pipe_back])
        end
      else (s, [])
  | lease_error =>
      if s on_lease_error then
        let s := on [completed] (off [on_lease_error] s) in
        if s broker_closed then (s, []) else (on [broker_closed] s, [close_broker])
      else (s, [])
  | lease_close => let s := on [lease_closed] s in
                   if s on_lease_close then (cleanupCancellation (on [completed] (off [on_lease_close] s)), []) else (s, [])
  | finish => if s on_finish then (cleanupCancellation (on [completed] (off [on_finish] s)), []) else (s, [])
  end.

Fixpoint cancels (t : list effect) : nat :=
  match t with [] => 0 | cancel_lease :: t => S (cancels t) | _ :: t => cancels t end.
Lemma lease_cancels_app t k : cancels (t ++ k) = (cancels t + cancels k)%nat.
Proof. induction t as [|[] t IH]; cbn; rewrite ?IH; done. Qed.

Record inv (s : state) (log : list effect) : Prop := {
  i_once : (cancels log <= 1)%nat;
  i_open : s lease_closed = false -> cancels log = 0%nat;
  i_off : s on_aborted = false \/ s on_error = false -> s completed || s lease_closed = true;
}.
Lemma lease_step_inv s log e s' t : inv s log -> step s e = (s', t) -> inv s' (log ++ t).
Proof.
  intros [Ho Hn Ha] E. destruct e; cbn [step] in E; unfold cancelLease, cleanupCancellation in E; split_step E.
  all: split; flag_cases; rewrite ?lease_cancels_app, ?app_nil_r.
  all: destruct (s completed) eqn:?, (s lease_closed) eqn:?;
    cbn [negb andb orb cancels] in *; try discriminate; try rewrite (Hn eq_refl); try lia; naive_solver.
Qed.

Lemma lease_step_off s e s' t : step s e = (s', t) ->
  (s on_aborted = false \/ e = aborted -> s' on_aborted = false) /\ (s on_error = false \/ e = error -> s' on_error = false).
Proof.
  intros E. destruct e; cbn [step] in E; unfold cancelLease, cleanupCancellation in E; split_step E; split_and!; flag_cases; try done; naive_solver.
Qed.
Lemma lease_run_off l s s' t : run step s l = (s', t) ->
  (s on_aborted = false \/ aborted ∈ l -> s' on_aborted = false) /\ (s on_error = false \/ error ∈ l -> s' on_error = false).
Proof.
  revert s t. induction l as [|e l IH]; intros s t E; cbn in E.
  - injection E as <- <-. rewrite !elem_of_nil. naive_solver.
  - destruct (step s e) as [s1 t1] eqn:E1. destruct (run step s1 l) as [s2 t2] eqn:E2. injection E as <- <-.
    destruct (lease_step_off _ _ _ _ E1) as (H1 & H2). destruct (IH _ _ E2) as (H4 & H5). rewrite !elem_of_cons. naive_solver.
Qed.

(** A remote broker's request over a lease, over any events of the two
    streams: the lease is cancelled at most once and not after completion, and
    once the broker's stream has aborted or failed, the lease is closed or the
    exchange was complete. *)
Theorem lease_cancellation l s t :
  run step start l = (s, t) ->
  (cancels t <= 1)%nat /\
  (aborted ∈ l \/ error ∈ l -> s completed = true \/ s lease_closed = true) /\
  (s completed = true -> forall e, cancels (step s e).2 = 0%nat).
Proof.
  intros E. assert (inv start []) as Hi by (split; unfold start; flag_cases; cbn; try done; [lia|naive_solver]).
  pose proof (run_inv step inv lease_step_inv l _ _ _ _ Hi E) as [Ho Hn Ha]. destruct (lease_run_off _ _ _ _ E) as (H1 & H2).
  split_and!; [done| |].
  - intros H. apply orb_true_iff, Ha. destruct H; auto.
  - intros Hc e. destruct (step s e) as [s' k] eqn:Ek. cbn [snd].
    destruct e; cbn [step] in Ek; unfold cancelLease in Ek; flag_cases; rewrite ?Hc in Ek; split_step Ek; done.
Qed.

Lemma lease_cancellation_witness :
  cancels (run step start [response (Ok []); aborted; error; finish]).2 = 1%nat /\
  (run step start [response (Ok []); aborted; error; finish]).1 lease_closed = true.
Proof.
  destruct (run step start [response (Ok []); aborted; error; finish]) as [s t] eqn:E.
  destruct (lease_cancellation _ s t E) as (_ & H & _).
  assert (s completed = true \/ s lease_closed = true) as Hs by (apply H; left; set_solver).
  injection E as <- <-. split; [done|]. destruct Hs as [Hs|Hs]; [done|exact Hs].
Defined.
End Lease.

(** ** A local request over a federation stream *)
Module LocalRelay.
Inductive flag : Type :=
  | waiting | settled | responseBodyActive | bodyEnded | bodyErrored
  | request_closed | body_destroyed | draining
  | on_abort | on_request_body_error
  | on_data | on_end | on_error | on_close                       (** of the request stream, installed with the response *)
  | on_body_end | on_body_close | on_body_error.
#[export] Instance flag_eq_dec : EqDecision flag.
Proof. solve_decision. Defined.
Abbreviation state := (flag -> bool).
Inductive event : Type :=
  | abort (reason : option exn)                                  (** [signal.reason], when it is an [Error] *)
  | request_body_error (e : exn)                                 (** of the request's own body *)
  | response (outcome : result exn RoutedResponseEnvelope)
  | data (chunk : bytes) (full : bool) | finish | error (cause : jsstring) | close (rstCode : option Z) | closing  (** of the request stream *)
  | body_end | body_close | body_error | drain.                  (** of the response body handed out *)
Inductive effect : Type :=
  | cancel_request | destroy_request (e : exn) | unpipe | destroy_request_body (reason : option exn)
  | write (chunk : bytes) | end_body | destroy_body (e : exn) | pause | resume
  | resolved (response : RoutedResponseEnvelope) | thrown (e : exn).

Section Steps.
Context (r : LocalDispatchRequest).
Definition stream_failure_of (message : string) (details : VerserErrorContext) : exn :=
  verr stream_failure message (request_targets (ld_requestId r) (ld_targetId r) ++ details).

(** [body.destroy(error)], which does nothing a second time. *)
Definition destroy (s : state) (e : exn) : state * list effect :=
  if s body_destroyed then (s, []) else (on [body_destroyed] s, [destroy_body e]).
Definition abortFederatedRequest (s : state) (reason : option exn) : state * list effect :=
  if s settled || s request_closed then (s, [])
  else
    let '(s, t) := destroy (on [request_closed] s) (default (stream_failure_of "Federated request was cancelled" []) reason) in
    (s, [unpipe; destroy_request_body reason; cancel_request] ++ t).
Definition cleanup (s : state) : state * list effect :=
  (on [settled] (off [on_abort; on_data; on_end; on_error; on_close; on_request_body_error] s), [unpipe]).
Definition cancel_open (s : state) : state * list effect :=
  if s request_closed then (s, []) else (on [request_closed] s, [cancel_request]).
(** One handler after another. *)
Definition andThen (m : state * list effect) (k : state -> state * list effect) : state * list effect :=
  let '(s, t) := m in let '(s, t') := k s in (s, t ++ t').

Definition start : state := flags [waiting; on_abort; on_request_body_error].

Definition step (s : state) (ev : event) : state * list effect :=
  match ev with
  | abort reason => if s on_abort then abortFederatedRequest (off [on_abort] s) reason else (s, [])
  | request_body_error e =>
      if s on_request_body_error then (on [request_closed] (off [on_request_body_error] s), [destroy_request e]) else (s, [])
  | response outcome =>
      if s waiting then
        let s := off [waiting] s in
        match outcome with
        | Ok envelope =>
            (on [responseBodyActive; on_data; on_end; on_error; on_close; on_body_end; on_body_close; on_body_error] s, [resolved envelope])
        | Throw e => (if s settled then s else on [settled] (off [on_abort] s), [thrown e])
        end
      else (s, [])
  | data chunk full => if s on_data then (if full : bool then on [draining] s else s, write chunk :: if full : bool then [pause] else []) else (s, [])
  | drain => if s draining then (off [draining] s, [resume]) else (s, [])
  | finish => if s on_end then (off [on_end] s, [end_body]) else (s, [])
  | error cause =>
      if s on_error then destroy (off [on_error] s) (stream_failure_of "Federated response stream failed" [(js "cause", JStr cause)]) else (s, [])
  | close rstCode =>
      let s := on [request_closed] s in
      if s on_close then
        let s := off [on_close] s in
        match rstCode with
        | Some code => if negb (code =? 0) then
                         destroy s (stream_failure_of "Federated response stream was reset" [(js "rstCode", JStr (num_to_string (num_int code)))])
                       else (s, [end_body])
        | None => (s, [end_body])
        end
      else (s, [])
  | closing => (on [request_closed] s, [])
  | body_end => if s on_body_end then cleanup (on [bodyEnded] (off [on_body_end] s)) else (s, [])
  | body_close =>
      if s on_body_close then
        let s := off [on_body_close] s in
        andThen (if negb (s bodyEnded) && negb (s bodyErrored) then cancel_open s else (s, [])) cleanup
      else (s, [])
  | body_error =>
      if s on_body_error then andThen (cancel_open (on [bodyErrored] (off [on_body_error] s))) cleanup else (s, [])
  end.
End Steps.

Fixpoint cancels (t : list effect) : nat :=
  match t with [] => 0 | cancel_request :: t => S (cancels t) | _ :: t => cancels t end.
Lemma relay_cancels_app t k : cancels (t ++ k) = (cancels t + cancels k)%nat.
Proof. induction t as [|[] t IH]; cbn; rewrite ?IH; done. Qed.
Fixpoint writes (t : list effect) : list bytes :=
  match t with [] => [] | write chunk :: t => chunk :: writes t | _ :: t => writes t end.
Lemma relay_writes_app t k : writes (t ++ k) = writes t ++ writes k.
Proof. induction t as [|[] t IH]; cbn; rewrite ?IH; done. Qed.
Fixpoint chunks (l : list event) : list bytes :=
  match l with [] => [] | data chunk _ :: l => chunk :: chunks l | _ :: l => chunks l end.
(** What reaches the consumer of the body. *)
Definition relayed (e : effect) : bool := match e with write _ | end_body | destroy_body _ => true | _ => false end.

Record inv (s : state) (log : list effect) : Prop := {
  i_once : (cancels log <= 1)%nat;
  i_open : s request_closed = false -> cancels log = 0%nat;
  i_abort : s on_abort = false -> s settled || s request_closed = true;
  i_settled : s settled = true -> s on_data || s on_end || s on_error || s on_close || s on_abort = false;
  i_waiting : s waiting = true -> s settled || s responseBodyActive || s on_data || s on_end || s on_error || s on_close ||
                s on_body_end || s on_body_close || s on_body_error = false;
  i_close : s responseBodyActive = true -> s on_body_close = false -> s bodyEnded || s bodyErrored || s request_closed = true;
  i_error : s responseBodyActive = true -> s on_body_error = false -> s request_closed = true;
  i_unsettled : s responseBodyActive = true -> s on_body_end = false \/ s on_body_close = false \/ s on_body_error = false -> s settled = true;
}.

Lemma relay_step_inv r s log e s' t : inv s log -> step r s e = (s', t) -> inv s' (log ++ t).
Proof.
  intros [Ho Hn Ha Hs Hw Hc He Hu] E. destruct e; cbn [step] in E;
    unfold andThen, cancel_open, abortFederatedRequest, cleanup, destroy in E; split_step E.
  all: split; flag_cases; rewrite ?relay_cancels_app, ?app_nil_r; cbn [cancels].
  all: intros; flag_facts; try done; try lia.
  all: by destruct (s bodyEnded), (s bodyErrored).
Qed.

(** Once an abort or an event of the body has been handled, it stays so. *)
Lemma relay_step_off r s e s' t : step r s e = (s', t) -> (s waiting = true -> s on_body_close || s on_body_error = false) ->
  (s on_abort = false \/ (exists x, e = abort x) -> s' on_abort = false) /\
  (s waiting = false -> s' waiting = false) /\
  (s waiting = false -> s on_body_close = false \/ e = body_close -> s' on_body_close = false) /\
  (s waiting = false -> s on_body_error = false \/ e = body_error -> s' on_body_error = false) /\
  (s waiting = false -> s on_data = false -> s' on_data = false) /\
  (s waiting = false -> s responseBodyActive = true -> s' responseBodyActive = true).
Proof.
  intros E Hw. destruct e; cbn [step] in E; unfold andThen, cancel_open, abortFederatedRequest, cleanup, destroy in E; split_step E;
    split_and!; flag_cases; try done; try naive_solver.
Qed.

Lemma active_not_waiting s log : inv s log -> s responseBodyActive = true -> s waiting = false.
Proof. intros Hi Ha. destruct (s waiting) eqn:E; [|done]. pose proof (i_waiting _ _ Hi E) as H. rewrite Ha in H. by rewrite orb_true_r in H. Qed.

Lemma settled_quiet r s log e : inv s log -> s settled = true -> Forall (fun x => relayed x = false) (step r s e).2.
Proof.
  intros Hi Hs. pose proof (i_settled _ _ Hi Hs) as H. pose proof (i_waiting _ _ Hi) as Hw. rewrite Hs in Hw.
  assert (s waiting = false) as Hw' by (destruct (s waiting); [by specialize (Hw eq_refl)|done]).
  rewrite !orb_false_iff in H. destruct H as [[[[H1 H2] H3] H4] H5]. destruct (step r s e) as [s' t] eqn:E. cbn [snd].
  destruct e; cbn [step] in E; unfold andThen, cancel_open, cleanup in E; rewrite ?H1, ?H2, ?H3, ?H5, ?Hw' in E; flag_cases; rewrite ?H4 in E; split_step E;
    by repeat constructor.
Qed.

Lemma run_active r l s log s' t : inv s log -> s responseBodyActive = true -> run (step r) s l = (s', t) ->
  inv s' (log ++ t) /\ s' responseBodyActive = true /\
  (s on_abort = false \/ (exists x, abort x ∈ l) -> s' on_abort = false) /\
  (s on_body_close = false \/ body_close ∈ l -> s' on_body_close = false) /\
  (s on_body_error = false \/ body_error ∈ l -> s' on_body_error = false) /\
  (s on_data = false -> s' on_data = false) /\ (s' on_data = true -> writes t = chunks l).
Proof.
  revert s log t. induction l as [|e l IH]; intros s log t Hi Ha E; cbn in E.
  - injection E as <- <-. rewrite app_nil_r. setoid_rewrite elem_of_nil. naive_solver.
  - destruct (step r s e) as [s1 t1] eqn:E1. destruct (run (step r) s1 l) as [s2 t2] eqn:E2. injection E as <- <-.
    pose proof (active_not_waiting _ _ Hi Ha) as Hw.
    destruct (relay_step_off _ _ _ _ _ E1 ltac:(congruence)) as (H1 & H2 & H3 & H4 & H5 & H6).
    pose proof (relay_step_inv _ _ _ _ _ _ Hi E1) as Hi1. destruct (IH _ _ _ Hi1 (H6 Hw Ha) E2) as (K1 & K2 & K3 & K4 & K5 & K6 & K7).
    rewrite app_assoc. setoid_rewrite elem_of_cons. split_and!; [done|done| | | | |].
    + intros [H|(x & [Hx|H])]; apply K3; [left; apply H1; auto|left; apply H1; eauto|eauto].
    + intros [H|[Hx|H]]; apply K4; auto.
    + intros [H|[Hx|H]]; apply K5; auto.
    + intros H. apply K6. auto.
    + intros Hd. rewrite relay_writes_app, K7 by done. destruct (s on_data) eqn:Ed; [|by rewrite K6 in Hd by auto].
      clear - E1 Ed Hw. destruct e; cbn [step] in E1; unfold andThen, cancel_open, abortFederatedRequest, cleanup, destroy in E1; rewrite ?Ed, ?Hw in E1; split_step E1; done.
Qed.

(** A response body relayed from another host to its consumer in this
    process, over any events of both sides. While the relay is on, the consumer
    gets exactly the chunks that arrive, in order. The request stream is
    cancelled at most once; an abort, and a consumer that gives the body up
    before its end, close it; once the exchange is settled nothing more is
    relayed. *)
Theorem local_relay_correct r l1 s1 t1 l2 s2 t2 :
  run (step r) start l1 = (s1, t1) -> s1 responseBodyActive = true -> run (step r) s1 l2 = (s2, t2) ->
  (cancels (t1 ++ t2) <= 1)%nat /\
  (s2 on_data = true -> writes t2 = chunks l2) /\
  ((exists reason, abort reason ∈ l2) -> s2 settled = true \/ s2 request_closed = true) /\
  (body_close ∈ l2 -> s2 settled = true /\ (s2 bodyEnded = true \/ s2 bodyErrored = true \/ s2 request_closed = true)) /\
  (body_error ∈ l2 -> s2 settled = true /\ s2 request_closed = true) /\
  (s2 settled = true -> forall e, Forall (fun x => relayed x = false) (step r s2 e).2).
Proof.
  intros E1 Ha E2. assert (inv start []) as Hi by (split; unfold start; flag_cases; cbn; try done; lia).
  pose proof (run_inv (step r) inv (relay_step_inv r) l1 _ _ _ _ Hi E1) as Hi1.
  destruct (run_active _ _ _ _ _ _ Hi1 Ha E2) as (Hi2 & Ha2 & H1 & H2 & H3 & _ & H5). cbn [app] in Hi2.
  split_and!; [apply Hi2|done| | | |intros Hs e; by eapply settled_quiet].
  - intros H. apply orb_true_iff, (i_abort _ _ Hi2), H1. by right.
  - intros H. assert (s2 on_body_close = false) as Hc by auto. split; [apply (i_unsettled _ _ Hi2 Ha2); auto|].
    pose proof (i_close _ _ Hi2 Ha2 Hc) as Hx. rewrite !orb_true_iff in Hx. tauto.
  - intros H. assert (s2 on_body_error = false) as Hc by auto. split; [apply (i_unsettled _ _ Hi2 Ha2); auto|].
    by apply (i_error _ _ Hi2 Ha2).
Qed.

Definition sample_envelope : RoutedResponseEnvelope :=
  {| rs_requestId := js "r-1"; rs_statusCode := num_int 200; rs_headers := []; rs_statusText := None; rs_headerPairs := None |}.
Definition sample_before : list event := [response (Ok sample_envelope)].
Definition sample_after : list event := [data [1; 2] false; data [3] true; body_close].
Lemma local_relay_correct_witness :
  (cancels ((run (step (Sample.request [])) start sample_before).2 ++
            (run (step (Sample.request [])) (run (step (Sample.request [])) start sample_before).1 sample_after).2) <= 1)%nat /\
  (run (step (Sample.request [])) (run (step (Sample.request [])) start sample_before).1 sample_after).1 settled = true /\
  writes (run (step (Sample.request [])) (run (step (Sample.request [])) start sample_before).1 (take 2 sample_after)).2 = [[1; 2]; [3]].
Proof.
  destruct (run (step (Sample.request [])) start sample_before) as [s1 t1] eqn:E1. cbn [fst snd].
  destruct (run (step (Sample.request [])) s1 sample_after) as [s2 t2] eqn:E2.
  destruct (run (step (Sample.request [])) s1 (take 2 sample_after)) as [s3 t3] eqn:E3. cbn [fst snd].
  assert (s1 responseBodyActive = true) as Ha by (injection E1 as <- _; reflexivity).
  destruct (local_relay_correct _ _ _ _ _ _ _ E1 Ha E2) as (H1 & _ & _ & H4 & _).
  destruct (local_relay_correct _ _ _ _ _ _ _ E1 Ha E3) as (_ & H3 & _).
  split; [exact H1|]. split; [apply H4; unfold sample_after; set_solver|].
  apply H3. injection E1 as <- _. injection E3 as <- _. reflexivity.
Defined.
End LocalRelay.
