(* ===== verification/LocalBroker.v ===== *)
(** The state of an in-process broker (verser2-host [local-peers.ts]): its route
    snapshot and the promises that wait for a domain.

    Every operation gives the next state and its effects in order.  Settling a
    promise runs none of the code that awaits it, and the notification of the
    listeners is the last effect of its operation: what a listener does is an
    operation of its own. *)
From S2P Require Import Prelude JsNum Utf8 Json Errors Routing RouteLifecycle.

(** ** State *)
(** A waiter is the number of its promise. *)
Record LocalBrokerState := {
  lbs_routes : list RoutedDomainRegistration;
  lbs_routeWaiters : list (jsstring * list nat);
  lbs_requestCounter : Z;
  lbs_closed : bool;
  lbs_promises : nat;
}.

Inductive broker_effect : Type :=
  | be_resolve (waiter : nat)
  | be_reject (waiter : nat) (error : exn)
  | be_unlisten
  | be_change (routes : list RoutedDomainRegistration) (event : VerserRouteLifecycleEvent).  (** the listeners see this snapshot *)

Definition with_routes (b : LocalBrokerState) (routes : list RoutedDomainRegistration) : LocalBrokerState :=
  {| lbs_routes := routes; lbs_routeWaiters := lbs_routeWaiters b; lbs_requestCounter := lbs_requestCounter b;
     lbs_closed := lbs_closed b; lbs_promises := lbs_promises b |}.
Definition with_waiters (b : LocalBrokerState) (waiters : list (jsstring * list nat)) : LocalBrokerState :=
  {| lbs_routes := lbs_routes b; lbs_routeWaiters := waiters; lbs_requestCounter := lbs_requestCounter b;
     lbs_closed := lbs_closed b; lbs_promises := lbs_promises b |}.

Definition createLocalBrokerState (routes : list RoutedDomainRegistration) : LocalBrokerState :=
  {| lbs_routes := routes; lbs_routeWaiters := []; lbs_requestCounter := 0; lbs_closed := false; lbs_promises := 0 |}.

(** ** Operations *)
Definition waiters_of (domain : jsstring) (waiters : list (jsstring * list nat)) : list nat := default [] (map_get domain waiters).

(** Resolving everyone who waits for a domain. *)
Definition resolve_domain (b : LocalBrokerState) (domain : jsstring) : LocalBrokerState * list broker_effect :=
  (with_waiters b (map_delete domain (lbs_routeWaiters b)), map be_resolve (waiters_of domain (lbs_routeWaiters b))).

Fixpoint resolve_routes (b : LocalBrokerState) (routes : list RoutedDomainRegistration) : LocalBrokerState * list broker_effect :=
  match routes with
  | [] => (b, [])
  | route :: routes =>
      let '(b, e) := resolve_domain b (rd_domain route) in
      let '(b, e') := resolve_routes b routes in (b, e ++ e')
  end.

Definition updateLocalBrokerRoutes (b : LocalBrokerState) (routes : list RoutedDomainRegistration) : LocalBrokerState * list broker_effect :=
  if lbs_closed b then (b, []) else resolve_routes (with_routes b routes) routes.

Inductive wait_result : Type := wait_rejected (error : exn) | wait_resolved | wait_pending (waiter : nat).

Definition waitForLocalBrokerRoute (b : LocalBrokerState) (domain : jsstring) : LocalBrokerState * wait_result :=
  if lbs_closed b then (b, wait_rejected (verr disconnected_target "Local Broker is closed" []))
  else if existsb (fun route => str_eqb (rd_domain route) domain) (lbs_routes b) then (b, wait_resolved)
  else
    ({| lbs_routes := lbs_routes b;
        lbs_routeWaiters := map_set domain (waiters_of domain (lbs_routeWaiters b) ++ [lbs_promises b]) (lbs_routeWaiters b);
        lbs_requestCounter := lbs_requestCounter b; lbs_closed := lbs_closed b; lbs_promises := S (lbs_promises b) |},
     wait_pending (lbs_promises b)).

Definition closeLocalBrokerState (b : LocalBrokerState) (reason : jsstring) : LocalBrokerState * list broker_effect :=
  if lbs_closed b then (b, [])
  else
    let error := verr disconnected_target "Local Broker is closed" [(js "reason", JStr reason)] in
    ({| lbs_routes := []; lbs_routeWaiters := []; lbs_requestCounter := lbs_requestCounter b; lbs_closed := true;
        lbs_promises := lbs_promises b |},
     be_unlisten :: map (fun w => be_reject w error) (concat (map snd (lbs_routeWaiters b)))).

Definition event_route (e : VerserRouteLifecycleEvent) : RoutedDomainRegistration := {| rd_targetId := le_targetId e; rd_domain := le_domain e |}.
Definition same_registration (k r : RoutedDomainRegistration) : bool := str_eqb (rd_targetId r) (rd_targetId k) && str_eqb (rd_domain r) (rd_domain k).
(** [routes[existingIndex] = …] or [routes.push(…)] *)
Fixpoint put_route (k : RoutedDomainRegistration) (routes : list RoutedDomainRegistration) : list RoutedDomainRegistration :=
  match routes with
  | [] => [k]
  | r :: routes => if same_registration k r then k :: routes else r :: put_route k routes
  end.
Definition drop_route (k : RoutedDomainRegistration) (routes : list RoutedDomainRegistration) : list RoutedDomainRegistration :=
  filter (fun r => same_registration k r = false) routes.
(** [routes.push(…)] unless it is there. *)
Definition add_route (k : RoutedDomainRegistration) (routes : list RoutedDomainRegistration) : list RoutedDomainRegistration :=
  if existsb (same_registration k) routes then routes else routes ++ [k].

Definition emitLocalBrokerRouteChange (b : LocalBrokerState) (event : VerserRouteLifecycleEvent) : LocalBrokerState * list broker_effect :=
  if lbs_closed b then (b, [])
  else
    let '(b, e) := match le_type event with
                   | ev_added | ev_changed => resolve_domain (with_routes b (put_route (event_route event) (lbs_routes b))) (le_domain event)
                   | ev_removed => (with_routes b (drop_route (event_route event) (lbs_routes b)), [])
                   | ev_degraded => (with_routes b (add_route (event_route event) (lbs_routes b)), [])
                   end in
    (b, e ++ [be_change (lbs_routes b) event]).

(** The life of a broker: what its host and its user do, one after another. *)
Inductive broker_op : Type :=
  | bo_update (routes : list RoutedDomainRegistration) | bo_wait (domain : jsstring)
  | bo_close (reason : jsstring) | bo_change (event : VerserRouteLifecycleEvent).
Definition broker_step (b : LocalBrokerState) (op : broker_op) : LocalBrokerState * list broker_effect :=
  match op with
  | bo_update routes => updateLocalBrokerRoutes b routes
  | bo_wait domain => (fst (waitForLocalBrokerRoute b domain), [])
  | bo_close reason => closeLocalBrokerState b reason
  | bo_change event => emitLocalBrokerRouteChange b event
  end.
Fixpoint broker_run (b : LocalBrokerState) (ops : list broker_op) : LocalBrokerState * list broker_effect :=
  match ops with
  | [] => (b, [])
  | op :: ops => let '(b, e) := broker_step b op in let '(b, e') := broker_run b ops in (b, e ++ e')
  end.

(** * Theory *)
Definition settles (e : broker_effect) : list nat := match e with be_resolve w | be_reject w _ => [w] | _ => [] end.
Definition settled (l : list broker_effect) : list nat := concat (map settles l).
Definition pending (b : LocalBrokerState) : list nat := concat (map snd (lbs_routeWaiters b)).
Definition available (b : LocalBrokerState) (domain : jsstring) : Prop := domain ∈ map rd_domain (lbs_routes b).

Lemma settled_app l k : settled (l ++ k) = settled l ++ settled k.
Proof. unfold settled. by rewrite map_app, concat_app. Qed.
Lemma settled_resolve l : settled (map be_resolve l) = l.
Proof. induction l as [|w l IH]; [done|]. unfold settled in *. cbn. by rewrite IH. Qed.
Lemma settled_reject l e : settled (map (fun w => be_reject w e) l) = l.
Proof. induction l as [|w l IH]; [done|]. unfold settled in *. cbn. by rewrite IH. Qed.

(** Every promise made is either pending or settled, exactly once. *)
Definition accounted (b : LocalBrokerState) (done : list nat) : Prop := pending b ++ done ≡ₚ seq 0 (lbs_promises b).
Record broker_inv (b : LocalBrokerState) (done : list nat) : Prop := {
  bi_wf : map_wf (lbs_routeWaiters b);
  bi_accounted : accounted b done;
  bi_closed : lbs_closed b = true -> lbs_routes b = [] /\ lbs_routeWaiters b = [];
}.
(** Nobody waits for a domain that is there. *)
Definition none_stuck (b : LocalBrokerState) : Prop := forall d, available b d -> d ∉ map_keys (lbs_routeWaiters b).

Lemma resolve_domain_inv b d done b' e : broker_inv b done -> resolve_domain b d = (b', e) ->
  broker_inv b' (done ++ settled e).
Proof.
  intros [Hwf Hacc Hcl] [= <- <-]. split; cbn.
  - by apply map_wf_delete.
  - unfold accounted, pending in *. cbn. rewrite settled_resolve, <- Hacc.
    rewrite <- (map_items_delete (fun l => l) d (lbs_routeWaiters b)) by done.
    unfold map_items, items_at, waiters_of. assert (forall m : list (jsstring * list nat), map (fun p => p.2) m = map snd m) as Hm by done.
    destruct (map_get d _); cbn; rewrite ?Hm; solve_Permutation.
  - intros H. destruct (Hcl H) as [H1 H2]. rewrite H1, H2. done.
Qed.

Lemma with_routes_inv b routes done : lbs_closed b = false -> broker_inv b done -> broker_inv (with_routes b routes) done.
Proof. intros Ho [Hwf Hacc _]. split; [done|done|]. cbn. by rewrite Ho. Qed.

Lemma resolve_routes_inv routes b done b' e : broker_inv b done -> resolve_routes b routes = (b', e) ->
  broker_inv b' (done ++ settled e) /\ lbs_closed b' = lbs_closed b /\ lbs_routes b' = lbs_routes b /\ lbs_promises b' = lbs_promises b /\
  forall d, d ∈ map_keys (lbs_routeWaiters b') <-> d ∈ map_keys (lbs_routeWaiters b) /\ d ∉ map rd_domain routes.
Proof.
  revert b done b' e. induction routes as [|r routes IH]; intros b done b' e Hb E; cbn in E.
  - injection E as <- <-. rewrite app_nil_r. split_and!; try done. intros d. cbn. rewrite elem_of_nil. naive_solver.
  - destruct (resolve_routes _ _) as [b2 e2] eqn:E2. injection E as <- <-.
    assert (broker_inv (with_waiters b (map_delete (rd_domain r) (lbs_routeWaiters b))) (done ++ settled (map be_resolve (waiters_of (rd_domain r) (lbs_routeWaiters b))))) as H1
      by (eapply resolve_domain_inv; [exact Hb|done]).
    edestruct IH as (H2 & H3 & H4 & H5 & H6); [exact H1|exact E2|].
    rewrite settled_app, app_assoc. split_and!; [done|exact H3|exact H4|exact H5|]. intros d. rewrite H6. cbn [lbs_routeWaiters with_waiters map].
    rewrite map_keys_delete, list_elem_of_filter, not_elem_of_cons. naive_solver.
Qed.

Lemma pending_add d w (m : list (jsstring * list nat)) :
  concat (map snd (map_set d (waiters_of d m ++ [w]) m)) ≡ₚ w :: concat (map snd m).
Proof.
  pose proof (map_items_set (fun l : list nat => l) d (waiters_of d m ++ [w]) m) as H.
  apply (Permutation_app_inv_r (items_at (fun l : list nat => l) (map_get d m))).
  change (concat (map snd ?k)) with (map_items (fun l : list nat => l) k). rewrite H.
  unfold waiters_of, items_at. destruct (map_get d m); cbn [default]; solve_Permutation.
Qed.

Lemma wait_inv b d done : broker_inv b done -> broker_inv (fst (waitForLocalBrokerRoute b d)) done.
Proof.
  intros Hb. unfold waitForLocalBrokerRoute. destruct (lbs_closed b) eqn:Ho; [done|].
  destruct (existsb _ _); [done|]. destruct Hb as [Hwf Hacc _]. split; cbn; [by apply map_wf_set| |by rewrite ?Ho].
  unfold accounted, pending in *. cbn [lbs_routeWaiters lbs_promises].
  rewrite seq_S, <- Hacc, pending_add. cbn [plus]. solve_Permutation.
Qed.

Lemma broker_step_inv b op done b' e : broker_inv b done -> broker_step b op = (b', e) -> broker_inv b' (done ++ settled e).
Proof.
  intros Hb E. destruct op as [routes|d|reason|event]; cbn in E.
  - unfold updateLocalBrokerRoutes in E. destruct (lbs_closed b) eqn:Ho; [injection E as <- <-; by rewrite app_nil_r|].
    edestruct resolve_routes_inv as (H & _); [|exact E|exact H]. by apply with_routes_inv.
  - injection E as <- <-. rewrite app_nil_r. by apply wait_inv.
  - unfold closeLocalBrokerState in E. destruct (lbs_closed b) eqn:Ho; [injection E as <- <-; by rewrite app_nil_r|].
    injection E as <- <-. destruct Hb as [Hwf Hacc _]. split; [constructor| |done].
    unfold accounted, pending in *. cbn [lbs_routeWaiters lbs_promises map concat app].
    change (settled (be_unlisten :: ?l)) with (settled l). rewrite settled_reject, <- Hacc. solve_Permutation.
  - unfold emitLocalBrokerRouteChange in E. destruct (lbs_closed b) eqn:Ho; [injection E as <- <-; by rewrite app_nil_r|].
    destruct (le_type event); cbn in E; injection E as <- <-; rewrite ?settled_app, ?app_nil_r; cbn [settled map concat settles app];
      rewrite ?app_nil_r; try (by apply with_routes_inv);
      (eapply (resolve_domain_inv (with_routes b (put_route (event_route event) (lbs_routes b)))); [by apply with_routes_inv|done]).
Qed.

Lemma same_registration_eq k r : same_registration k r = true <-> r = k.
Proof. destruct k, r. unfold same_registration. cbn. rewrite andb_true_iff, !str_eqb_eq. split; [by intros [-> ->]|by intros [= -> ->]]. Qed.
Lemma put_route_elem k routes r : r ∈ put_route k routes <-> r ∈ routes \/ r = k.
Proof.
  induction routes as [|x routes IH]; cbn.
  - rewrite list_elem_of_singleton, elem_of_nil. naive_solver.
  - destruct (same_registration k x) eqn:E; rewrite !elem_of_cons.
    + apply same_registration_eq in E. subst. naive_solver.
    + rewrite IH. naive_solver.
Qed.
Lemma drop_route_elem k routes r : r ∈ drop_route k routes <-> r ∈ routes /\ r <> k.
Proof. unfold drop_route. rewrite list_elem_of_filter, <- (same_registration_eq k). destruct (same_registration k r); naive_solver. Qed.
Lemma add_route_elem k routes r : r ∈ add_route k routes <-> r ∈ routes \/ r = k.
Proof.
  unfold add_route. destruct (existsb _ _) eqn:Ex.
  - apply existsb_exists in Ex as (x & Hx%list_elem_of_In & ->%same_registration_eq). naive_solver.
  - by rewrite elem_of_app, list_elem_of_singleton.
Qed.

Lemma none_stuck_step b op done : none_stuck b -> broker_inv b done ->
  match op with bo_change event => le_type event <> ev_degraded | _ => True end -> none_stuck (broker_step b op).1.
Proof.
  intros Hn Hb Hop d. destruct op as [routes|d0|reason|event]; cbn [broker_step fst].
  - unfold updateLocalBrokerRoutes. destruct (lbs_closed b) eqn:Ho; [by apply Hn|].
    destruct (resolve_routes _ _) as [b' e] eqn:E. edestruct resolve_routes_inv as (_ & _ & Hr & _ & Hk); [by apply with_routes_inv|exact E|].
    cbn [fst]. unfold available. rewrite Hr, Hk. cbn. naive_solver.
  - unfold waitForLocalBrokerRoute. destruct (lbs_closed b); [by apply Hn|]. destruct (existsb _ _) eqn:Ex; [by apply Hn|].
    intros Ha Hd. cbn [fst lbs_routeWaiters] in Hd. rewrite map_keys_set in Hd.
    assert (d = d0 \/ d ∈ map_keys (lbs_routeWaiters b)) as [->|Hd'] by (case_decide; set_solver); [|by apply (Hn d Ha)].
    rewrite <- not_true_iff_false, existsb_exists in Ex. apply Ex. unfold available in Ha. cbn in Ha.
    apply list_elem_of_fmap in Ha as (r & -> & Hr). exists r. split; [by apply list_elem_of_In|apply str_eqb_refl].
  - unfold closeLocalBrokerState. destruct (lbs_closed b); [by apply Hn|]. intros _ H. by apply elem_of_nil in H.
  - unfold emitLocalBrokerRouteChange. destruct (lbs_closed b); [by apply Hn|].
    assert (d ∈ map rd_domain (put_route (event_route event) (lbs_routes b)) ->
      d ∉ map_keys (map_delete (le_domain event) (lbs_routeWaiters b))) as Hput.
    { intros (r & -> & Hr)%list_elem_of_fmap. rewrite map_keys_delete, list_elem_of_filter. intros [Hne Hk].
      apply put_route_elem in Hr as [Hr| ->]; [|done]. apply (Hn (rd_domain r)); [by apply list_elem_of_fmap_2|done]. }
    destruct (le_type event); cbn; try done; try (by apply Hput).
    intros (r & -> & [Hr _]%drop_route_elem)%list_elem_of_fmap. apply Hn. by apply list_elem_of_fmap_2.
Qed.

Lemma broker_run_inv ops b done b' e : broker_inv b done -> broker_run b ops = (b', e) ->
  broker_inv b' (done ++ settled e) /\
  (none_stuck b -> (forall event, bo_change event ∈ ops -> le_type event <> ev_degraded) -> none_stuck b').
Proof.
  revert b done e. induction ops as [|op ops IH]; intros b done e Hb E; cbn in E.
  - injection E as <- <-. by rewrite app_nil_r.
  - destruct (broker_step b op) as [b1 e1] eqn:E1. destruct (broker_run b1 ops) as [b2 e2] eqn:E2. injection E as <- <-.
    pose proof (broker_step_inv _ _ _ _ _ Hb E1) as H1. destruct (IH _ _ _ H1 E2) as [H2 H3].
    rewrite settled_app, app_assoc. split; [done|]. intros Hn Hops. apply H3; [|intros event He; apply Hops; by right].
    replace b1 with (broker_step b op).1 by (by rewrite E1). eapply none_stuck_step; [exact Hn|exact Hb|].
    destruct op; try done. apply Hops. by left.
Qed.

Lemma created_inv routes : broker_inv (createLocalBrokerState routes) [].
Proof. split; [apply map_wf_nil|by unfold accounted, pending|done]. Qed.

(** The waiting promises of a broker, over any life of it. Each promise is
    pending or settled, never both, and is settled at most once; closing leaves
    none pending and no route. As long as no event marks a route degraded,
    nobody waits for a domain that is in the snapshot. *)
Theorem local_waiters_correct routes ops b effects :
  broker_run (createLocalBrokerState routes) ops = (b, effects) ->
  NoDup (settled effects) /\
  (forall w, (w < lbs_promises b)%nat <-> w ∈ pending b \/ w ∈ settled effects) /\
  (forall w, w ∈ pending b -> w ∉ settled effects) /\
  (lbs_closed b = true -> pending b = [] /\ lbs_routes b = []) /\
  ((forall event, bo_change event ∈ ops -> le_type event <> ev_degraded) ->
   forall d, d ∈ map rd_domain (lbs_routes b) -> waiters_of d (lbs_routeWaiters b) = []).
Proof.
  intros E. destruct (broker_run_inv _ _ _ _ _ (created_inv routes) E) as [[Hwf Hacc Hcl] Hn]. cbn in *.
  assert (NoDup (pending b ++ settled effects)) as Hnd by (rewrite Hacc; apply NoDup_seq).
  apply NoDup_app in Hnd as (_ & Hnd & Hnd2). split_and!; [done| |done| |].
  - intros w. rewrite <- elem_of_app, Hacc, elem_of_seq. lia.
  - intros H. destruct (Hcl H) as [-> H2]. unfold pending. by rewrite H2.
  - intros Hops d Hd. unfold waiters_of. destruct (map_get d _) eqn:Eg; [|done]. exfalso.
    apply (Hn ltac:(intros ? ?; set_solver) Hops d Hd). apply elem_of_map_keys. by rewrite Eg.
Qed.

(** A degraded event adds a missing route, but whoever waits for its domain
    stays pending, though a new wait would be resolved at once. *)
Lemma degraded_strands_waiter t d : exists b w,
  broker_run (createLocalBrokerState []) [bo_wait d; bo_change {| le_type := ev_degraded; le_targetId := t; le_domain := d; le_reason := None; le_generation := None |}]
    = (b, [be_change (lbs_routes b) {| le_type := ev_degraded; le_targetId := t; le_domain := d; le_reason := None; le_generation := None |}]) /\
  w ∈ pending b /\ (waitForLocalBrokerRoute b d).2 = wait_resolved.
Proof.
  eexists _, 0%nat. split; [reflexivity|]. split; [unfold pending; cbn; left|].
  cbn. by rewrite str_eqb_refl.
Qed.

(** One lifecycle event on an open broker: the snapshot gains exactly the
    route of an added, changed or degraded event and loses exactly the route of a
    removed one, an added or changed route resolves everyone who waits for its
    domain, and the listeners are told last, with the new snapshot. *)
Theorem emitLocalBrokerRouteChange_correct b event b' effects :
  lbs_closed b = false -> emitLocalBrokerRouteChange b event = (b', effects) ->
  let key := {| rd_targetId := le_targetId event; rd_domain := le_domain event |} in
  (forall r, r ∈ lbs_routes b' <-> if decide (le_type event = ev_removed) then r ∈ lbs_routes b /\ r <> key else r ∈ lbs_routes b \/ r = key) /\
  effects = map be_resolve (if decide (le_type event = ev_added \/ le_type event = ev_changed) then waiters_of (le_domain event) (lbs_routeWaiters b) else [])
            ++ [be_change (lbs_routes b') event].
Proof.
  intros Ho E key. unfold emitLocalBrokerRouteChange in E. rewrite Ho in E.
  destruct (le_type event) eqn:Et; cbn in E; injection E as <- <-; cbn [lbs_routes with_routes with_waiters];
    (split; [intros r|done]); rewrite ?decide_True, ?decide_False by naive_solver;
    [apply put_route_elem|apply drop_route_elem|apply put_route_elem|apply add_route_elem].
Qed.

(** ** Witnesses *)
Definition sample_event (t : VerserRouteLifecycleEventType) : VerserRouteLifecycleEvent :=
  {| le_type := t; le_targetId := js "g"; le_domain := js "a.example"; le_reason := None; le_generation := None |}.
Definition sample_ops : list broker_op :=
  [bo_wait (js "a.example"); bo_wait (js "b.example"); bo_wait (js "a.example"); bo_change (sample_event ev_added);
   bo_wait (js "c.example"); bo_update [{| rd_targetId := js "g"; rd_domain := js "c.example" |}]].
Lemma local_waiters_correct_witness :
  settled (broker_run (createLocalBrokerState []) sample_ops).2 = [0; 2; 3]%nat /\
  NoDup (settled (broker_run (createLocalBrokerState []) sample_ops).2) /\
  waiters_of (js "c.example") (lbs_routeWaiters (broker_run (createLocalBrokerState []) sample_ops).1) = [].
Proof.
  destruct (broker_run (createLocalBrokerState []) sample_ops) as [b e] eqn:E.
  destruct (local_waiters_correct [] sample_ops b e E) as (H1 & _ & _ & _ & H5).
  vm_compute in E. injection E as <- <-. split; [reflexivity|]. split; [exact H1|]. apply H5; [|by left].
  intros event. unfold sample_ops. rewrite !elem_of_cons, elem_of_nil. intros [?|[?|[?|[[= ->]|[?|[?|[]]]]]]]; done.
Defined.

Definition sample_broker : LocalBrokerState :=
  {| lbs_routes := []; lbs_routeWaiters := [(js "a.example", [0%nat])]; lbs_requestCounter := 0; lbs_closed := false; lbs_promises := 1 |}.
Lemma emitLocalBrokerRouteChange_correct_witness :
  exists b', emitLocalBrokerRouteChange sample_broker (sample_event ev_added) = (b', [be_resolve 0; be_change (lbs_routes b') (sample_event ev_added)]) /\
    {| rd_targetId := js "g"; rd_domain := js "a.example" |} ∈ lbs_routes b'.
Proof.
  destruct (emitLocalBrokerRouteChange sample_broker (sample_event ev_added)) as [b' e] eqn:E.
  destruct (emitLocalBrokerRouteChange_correct sample_broker (sample_event ev_added) b' e eq_refl E) as [H1 H2].
  exists b'. split; [by rewrite H2|]. apply H1. right. reflexivity.
Defined.
