(* ===== verification/LocalGuest.v ===== *)
(** An in-process guest (verser2-host [local-peers.ts]): the response object a
    guest's handler writes to, and the promise of its dispatch.

    Node's [validateHeaderName] and [validateHeaderValue] are its token and field
    content tests; event listeners run where the source emits, in the order of
    the effects. *)
From S2P Require Import Prelude JsNum Utf8 Json Errors Headers ResponseMetadata Routing Effects BrokerRequests BrokerRouting.

(** [string | string[]] *)
Inductive stored_value : Type := one (s : jsstring) | many (l : list jsstring).
Definition stored_list (v : stored_value) : list jsstring := match v with one s => [s] | many l => l end.

(** The map of a response and its pairs, in emission order. *)
Abbreviation header_state := (list (jsstring * stored_value) * list VerserHeaderPair)%type.

Section LocalGuest.
Context {P : Platform}.

(** ** Header values *)
Definition header_char (c : Z) : bool := (c =? 9) || ((32 <=? c) && (c <=? 126)) || ((128 <=? c) && (c <=? 255)).
Definition validateHeaderName (name : jsstring) : result exn unit :=
  throw_if (negb (isValidHeaderName name)) (terr (js "Header name must be a valid HTTP token [" ++ 34 :: name ++ 34 :: js "]")).
Definition validateHeaderValue (name value : jsstring) : result exn unit :=
  throw_if (negb (forallb header_char value)) (terr (js "Invalid character in header content [" ++ 34 :: name ++ 34 :: js "]")).

Definition normalizeResponseHeaderValues (name : jsstring) (value : jsval) : result exn (jsstring * list jsstring) :=
  _ ← validateHeaderName name;
  let values := value_strings value in
  _ ← map_res (validateHeaderValue name) values;
  Ok (to_lower name, values).
Definition normalizeResponseHeader (name : jsstring) (value : jsval) : result exn (jsstring * stored_value) :=
  '(normalizedName, values) ← normalizeResponseHeaderValues name value;
  Ok (normalizedName, match value with JArr _ => many values | _ => one (default [] (head values)) end).

Definition removeResponseHeaderPairs (pairs : list VerserHeaderPair) (name : jsstring) : list VerserHeaderPair :=
  filter (fun p => p.1 <> name) pairs.
Definition pairs_of (name : jsstring) (values : list jsstring) : list VerserHeaderPair := map (fun item => (name, item)) values.
Definition setResponseHeader (s : header_state) (name : jsstring) (value : stored_value) : header_state :=
  (map_set name value s.1, removeResponseHeaderPairs s.2 name ++ pairs_of name (stored_list value)).
Definition appended (existing : option stored_value) (values : list jsstring) : stored_value :=
  match existing with
  | None => match values with [v] => one v | _ => many values end
  | Some e => many (stored_list e ++ values)
  end.
Definition appendResponseHeader (s : header_state) (name : jsstring) (value : stored_value) : header_state :=
  (map_set name (appended (map_get name s.1) (stored_list value)) s.1, s.2 ++ pairs_of name (stored_list value)).

(** ** The response of a local guest *)
Record LocalServerResponse := {
  sr_requestId : jsstring;
  sr_statusCode : jsnum; sr_statusMessage : option jsstring;
  sr_headers : list (jsstring * stored_value); sr_headerPairs : list VerserHeaderPair;
  sr_started : bool; sr_commitFailed : bool; sr_canonicalResponse : option RoutedResponseEnvelope;
}.
Definition response_init (requestId : jsstring) : LocalServerResponse :=
  {| sr_requestId := requestId; sr_statusCode := num_int 200; sr_statusMessage := None; sr_headers := []; sr_headerPairs := [];
     sr_started := false; sr_commitFailed := false; sr_canonicalResponse := None |}.
(** The status and the headers of a response change together. *)
Definition with_head (r : LocalServerResponse) (statusCode : jsnum) (statusMessage : option jsstring) (s : header_state) : LocalServerResponse :=
  {| sr_requestId := sr_requestId r; sr_statusCode := statusCode; sr_statusMessage := statusMessage;
     sr_headers := s.1; sr_headerPairs := s.2; sr_started := sr_started r; sr_commitFailed := sr_commitFailed r;
     sr_canonicalResponse := None |}.
Definition header_state_of (r : LocalServerResponse) : header_state := (sr_headers r, sr_headerPairs r).

Definition setHeader (r : LocalServerResponse) (name : jsstring) (value : jsval) : result exn LocalServerResponse :=
  '(normalizedName, normalizedValue) ← normalizeResponseHeader name value;
  Ok (with_head r (sr_statusCode r) (sr_statusMessage r) (setResponseHeader (header_state_of r) normalizedName normalizedValue)).
Definition getHeader (r : LocalServerResponse) (name : jsstring) : option stored_value := map_get (to_lower name) (sr_headers r).
Definition appendHeader (r : LocalServerResponse) (name : jsstring) (value : jsval) : result exn LocalServerResponse :=
  '(normalizedName, values) ← normalizeResponseHeaderValues name value;
  Ok (with_head r (sr_statusCode r) (sr_statusMessage r)
        (map_set normalizedName (appended (getHeader r normalizedName) values) (sr_headers r),
         sr_headerPairs r ++ pairs_of normalizedName values)).

Inductive ResponseHeaders : Type := rh_pairs (l : list (jsstring * jsval)) | rh_record (l : list (jsstring * jsval)).
Inductive head_argument : Type := ha_none | ha_text (s : jsstring) | ha_headers (h : ResponseHeaders).

Definition write_pair (acc : header_state * list jsstring) (p : jsstring * jsval) : result exn (header_state * list jsstring) :=
  let '(s, replaced) := acc in
  '(normalizedName, normalizedValue) ← normalizeResponseHeader p.1 p.2;
  Ok (if set_has normalizedName replaced then (appendResponseHeader s normalizedName normalizedValue, replaced)
      else (setResponseHeader s normalizedName normalizedValue, set_add normalizedName replaced)).
Definition write_entry (s : header_state) (p : jsstring * jsval) : result exn header_state :=
  '(normalizedName, normalizedValue) ← normalizeResponseHeader p.1 p.2;
  Ok (setResponseHeader s normalizedName normalizedValue).
Definition write_headers (s : header_state) (headers : ResponseHeaders) : result exn header_state :=
  match headers with
  | rh_pairs l => fst <$> fold_res write_pair (s, []) l
  | rh_record l => fold_res write_entry s l
  end.

Definition writeHead (r : LocalServerResponse) (statusCode : jsnum) (statusMessageOrHeaders : head_argument) (headers : option ResponseHeaders)
    : result exn LocalServerResponse :=
  let responseHeaders := match statusMessageOrHeaders with
                         | ha_headers h => default h headers
                         | _ => default (rh_record []) headers
                         end in
  _ ← requireFinalResponseStatusCode statusCode;
  _ ← match statusMessageOrHeaders with ha_text t => validateHeaderValue (js "statusMessage") t | _ => Ok tt end;
  next ← write_headers (header_state_of r) responseHeaders;
  Ok (with_head r statusCode (match statusMessageOrHeaders with ha_text t => Some t | _ => sr_statusMessage r end) next).

(** [this.statusCode = …], [this.statusMessage = …] *)
Definition set_status (r : LocalServerResponse) (statusCode : jsnum) (statusMessage : option jsstring) : LocalServerResponse :=
  {| sr_requestId := sr_requestId r; sr_statusCode := statusCode; sr_statusMessage := statusMessage;
     sr_headers := sr_headers r; sr_headerPairs := sr_headerPairs r; sr_started := sr_started r; sr_commitFailed := sr_commitFailed r;
     sr_canonicalResponse := sr_canonicalResponse r |}.

(** Events it emits and what it does to its body stream. *)
Inductive response_effect : Type :=
  | re_response | re_error (error : exn) | re_finish
  | re_write (data : bytes) | re_end | re_destroy (error : exn).

Definition create_canonical (r : LocalServerResponse) (requestId : jsstring) : result exn RoutedResponseEnvelope :=
  _ ← match sr_statusMessage r with Some m => validateHeaderValue (js "statusMessage") m | None => Ok tt end;
  createRoutedResponseEnvelope
    {| rs_requestId := requestId; rs_statusCode := sr_statusCode r; rs_headers := [];
       rs_statusText := sr_statusMessage r; rs_headerPairs := Some (sr_headerPairs r) |}.
Definition with_commit (r : LocalServerResponse) (started commitFailed : bool) (canonical : option RoutedResponseEnvelope) : LocalServerResponse :=
  {| sr_requestId := sr_requestId r; sr_statusCode := sr_statusCode r; sr_statusMessage := sr_statusMessage r;
     sr_headers := sr_headers r; sr_headerPairs := sr_headerPairs r; sr_started := started; sr_commitFailed := commitFailed;
     sr_canonicalResponse := canonical |}.

(** [commitResponse] with [start]: the flag says whether the response is on its way. *)
Definition commitResponse (r : LocalServerResponse) : LocalServerResponse * list response_effect * bool :=
  if sr_commitFailed r then (r, [], false)
  else if sr_started r then (r, [], true)
  else match create_canonical r (sr_requestId r) with
       | Ok envelope => (with_commit r true false (Some envelope), [re_response], true)
       | Throw error => (with_commit r false true (sr_canonicalResponse r), [re_error error], false)
       end.
Definition write (r : LocalServerResponse) (chunk : bytes) : LocalServerResponse * list response_effect :=
  let '(r, e, ok) := commitResponse r in (r, e ++ if ok : bool then [re_write chunk] else []).
Definition flushHeaders (r : LocalServerResponse) : LocalServerResponse * list response_effect := fst (commitResponse r).
Definition end_response (r : LocalServerResponse) (chunk : option bytes) : LocalServerResponse * list response_effect :=
  if sr_commitFailed r then (r, [])
  else
    let '(r, e, ok) := match chunk with
                       | Some c => let '(r, e) := write r c in (r, e, negb (sr_commitFailed r))
                       | None => commitResponse r
                       end in
    (r, e ++ if ok : bool then [re_end; re_finish] else []).
Definition fail (error : exn) : list response_effect := [re_destroy error; re_error error].
Definition toBrokerResponse (r : LocalServerResponse) : result exn RoutedResponseEnvelope :=
  match sr_canonicalResponse r with Some e => Ok e | None => create_canonical r (sr_requestId r) end.

(** What a handler does with its response, call by call; a call that throws
    leaves the response as it is. *)
Inductive response_op : Type :=
  | ro_setHeader (name : jsstring) (value : jsval) | ro_appendHeader (name : jsstring) (value : jsval)
  | ro_writeHead (statusCode : jsnum) (argument : head_argument) (headers : option ResponseHeaders)
  | ro_status (statusCode : jsnum) (statusMessage : option jsstring)
  | ro_write (chunk : bytes) | ro_flushHeaders | ro_end (chunk : option bytes).
Definition or_unchanged (r : LocalServerResponse) (m : result exn LocalServerResponse) : LocalServerResponse * list response_effect :=
  match m with Ok r' => (r', []) | Throw _ => (r, []) end.
Definition response_step (r : LocalServerResponse) (op : response_op) : LocalServerResponse * list response_effect :=
  match op with
  | ro_setHeader name value => or_unchanged r (setHeader r name value)
  | ro_appendHeader name value => or_unchanged r (appendHeader r name value)
  | ro_writeHead statusCode argument headers => or_unchanged r (writeHead r statusCode argument headers)
  | ro_status statusCode statusMessage => (set_status r statusCode statusMessage, [])
  | ro_write chunk => write r chunk
  | ro_flushHeaders => flushHeaders r
  | ro_end chunk => end_response r chunk
  end.
Fixpoint response_run (r : LocalServerResponse) (ops : list response_op) : LocalServerResponse * list response_effect :=
  match ops with
  | [] => (r, [])
  | op :: ops => let '(r, e) := response_step r op in let '(r, e') := response_run r ops in (r, e ++ e')
  end.
End LocalGuest.

(** * Theory *)
Section ResponseTheory.
Context {P : Platform}.

Lemma valid_name_lower n : isValidHeaderName n = true -> normal_name (to_lower n).
Proof.
  intros H. pose proof (valid_name_ascii n H) as Ha. pose proof (valid_name_nonempty n H) as Hne. unfold to_lower. rewrite Ha. unfold isValidHeaderName in H.
  apply andb_true_iff in H as [_ H]. split; [|apply Forall_fmap, Forall_true; intros c; apply ascii_lower_not_upper].
  unfold isValidHeaderName. apply andb_true_iff. split; [apply negb_true_iff, bool_decide_eq_false; intros E; apply Hne; by apply fmap_nil_inv in E|].
  apply Forall_forallb, Forall_fmap. apply Forall_forallb in H. eapply Forall_impl; [exact H|].
  intros c Hc. cbv beta in Hc. unfold compose, ascii_lower. destruct (is_upper c) eqn:Eu; [|done].
  unfold is_token_unit, is_alnum. assert (is_lower (c + 32) = true) as -> by (unfold is_upper, is_lower in *; lia). by rewrite !orb_true_r.
Qed.

Lemma header_chars_valid v : forallb header_char v = true -> isValidHeaderValue v = true.
Proof.
  unfold isValidHeaderValue. rewrite !Forall_forallb. intros H. eapply Forall_impl; [exact H|]. intros c. cbv beta. unfold header_char. lia.
Qed.

Lemma normalize_values_Ok name value n values : normalizeResponseHeaderValues name value = Ok (n, values) ->
  n = to_lower name /\ values = value_strings value /\ normal_name n /\ Forall (fun v => isValidHeaderValue v = true) values.
Proof.
  unfold normalizeResponseHeaderValues. intros (u & Hn%throw_if_Ok_inv & (us & Hv%map_res_Ok & H)%bind_Ok_inv)%bind_Ok_inv.
  injection H as <- <-. apply negb_false_iff in Hn. split_and!; try done; [by apply valid_name_lower|].
  apply Forall_forall. intros v Hin. apply list_elem_of_lookup in Hin as [i Hi].
  destruct (Forall2_lookup_l _ _ _ _ _ Hv Hi) as (w & _ & Hw%throw_if_Ok_inv). by apply header_chars_valid, negb_false_iff.
Qed.

Lemma normalize_header_Ok name value n v : normalizeResponseHeader name value = Ok (n, v) ->
  n = to_lower name /\ stored_list v = value_strings value /\ normal_name n /\ Forall (fun v => isValidHeaderValue v = true) (stored_list v).
Proof.
  unfold normalizeResponseHeader. intros ([n' values] & H & Hv)%bind_Ok_inv. injection Hv as <- <-.
  apply normalize_values_Ok in H as (-> & -> & Hn & Hv).
  by destruct value.
Qed.

(** The map and the pairs of a response say the same. *)
Definition values_for (n : jsstring) (pairs : list VerserHeaderPair) : list jsstring := map snd (filter (fun p => p.1 = n) pairs).
Definition stored_for (n : jsstring) (m : list (jsstring * stored_value)) : list jsstring := from_option stored_list [] (map_get n m).
Record headers_inv (s : header_state) : Prop := {
  hi_wf : map_wf s.1;
  hi_agree : forall n, values_for n s.2 = stored_for n s.1;
  hi_normal : Forall normal_pair s.2;
}.

Lemma values_for_app n k l : values_for n (k ++ l) = values_for n k ++ values_for n l.
Proof. unfold values_for. by rewrite filter_app, map_app. Qed.
Lemma values_for_pairs_of n m l : values_for n (pairs_of m l) = if decide (n = m) then l else [].
Proof.
  unfold values_for, pairs_of. induction l as [|v l IH]; [by case_decide|]. cbn [map]. rewrite filter_cons. cbn [fst].
  case_decide as Hm; case_decide as Hn; try congruence; [|exact IH]. cbn [map snd]. f_equal. exact IH.
Qed.
Lemma values_for_removed n m l : values_for n (removeResponseHeaderPairs l m) = if decide (n = m) then [] else values_for n l.
Proof.
  unfold values_for, removeResponseHeaderPairs. rewrite list_filter_filter. case_decide as Hn.
  - subst. rewrite filter_none_in; [done|]. naive_solver.
  - f_equal. apply list_filter_iff. naive_solver.
Qed.

Lemma set_header_inv s n v : headers_inv s -> normal_name n -> Forall (fun v => isValidHeaderValue v = true) (stored_list v) ->
  headers_inv (setResponseHeader s n v).
Proof.
  intros [Hwf Ha Hn] Hname Hv. split; cbn [fst snd setResponseHeader].
  - by apply map_wf_set.
  - intros m. rewrite values_for_app, values_for_pairs_of, values_for_removed. unfold stored_for. rewrite map_get_set, Ha. unfold stored_for.
    case_decide; [done|]. by rewrite app_nil_r.
  - apply Forall_app. split; [rewrite Forall_forall in Hn |- *; intros p [_ Hp]%list_elem_of_filter; auto|]. unfold pairs_of. apply Forall_fmap.
    eapply Forall_impl; [exact Hv|]. by split.
Qed.

Lemma appended_list e values : stored_list (appended e values) = from_option stored_list [] e ++ values.
Proof. destruct e; [done|]. by destruct values as [|? []]. Qed.

Lemma append_header_inv s n values : headers_inv s -> normal_name n -> Forall (fun v => isValidHeaderValue v = true) values ->
  headers_inv (map_set n (appended (map_get n s.1) values) s.1, s.2 ++ pairs_of n values).
Proof.
  intros [Hwf Ha Hn] Hname Hv. split; cbn [fst snd].
  - by apply map_wf_set.
  - intros m. rewrite values_for_app, values_for_pairs_of. unfold stored_for. rewrite map_get_set, Ha. unfold stored_for.
    case_decide as E; [subst; cbn; by rewrite appended_list|]. by rewrite app_nil_r.
  - apply Forall_app. split; [done|]. unfold pairs_of. apply Forall_fmap. eapply Forall_impl; [exact Hv|]. by split.
Qed.

(** ** Writing the head *)
(** The pairs a list of headers stands for. *)
Definition given_pairs (l : list (jsstring * jsval)) : list VerserHeaderPair :=
  concat (map (fun p => pairs_of (to_lower p.1) (value_strings p.2)) l).
Definition given_names (l : list (jsstring * jsval)) : list jsstring := map (fun p => to_lower p.1) l.

Lemma write_pair_spec l s replaced s' replaced' :
  headers_inv s -> fold_res write_pair (s, replaced) l = Ok (s', replaced') ->
  headers_inv s' /\
  s'.2 = filter (fun p => p.1 ∉ given_names l \/ p.1 ∈ replaced) s.2 ++ given_pairs l.
Proof.
  revert s replaced. induction l as [|[name value] l IH]; intros s replaced Hs E.
  - injection E as <- <-. split; [done|]. rewrite app_nil_r. symmetry. apply filter_all_in. intros p _. left. apply not_elem_of_nil.
  - cbn [fold_res] in E. apply bind_Ok_inv in E as ([s1 r1] & E1 & E). unfold write_pair in E1. cbn [fst snd] in E1.
    apply bind_Ok_inv in E1 as ([n v] & Hn & E1). apply Ok_inj in E1.
    apply normalize_header_Ok in Hn as (-> & Hv & Hname & Hval).
    destruct (set_has (to_lower name) replaced) eqn:Er; injection E1 as <- <-.
    + apply set_has_elem in Er. edestruct IH as [H1 H2]; [|exact E|].
      { unfold appendResponseHeader. by apply append_header_inv. }
      split; [done|]. rewrite H2. unfold appendResponseHeader. cbn [snd]. rewrite Hv, filter_app.
      rewrite (filter_all_in _ (pairs_of _ _)) by (intros p (x & -> & _)%list_elem_of_fmap; by right).
      rewrite <- app_assoc. f_equal. apply list_filter_iff. intros p. cbn. rewrite not_elem_of_cons. split; [|tauto].
      intros [H|H]; [|by right]. destruct (decide (p.1 = to_lower name)) as [E'|E']; [rewrite E'; by right|by left].
    + assert (to_lower name ∉ replaced) as Hr by (intros Hx; apply set_has_elem in Hx; congruence).
      edestruct IH as [H1 H2]; [|exact E|]; [by apply set_header_inv|].
      split; [done|]. rewrite H2. unfold setResponseHeader, removeResponseHeaderPairs. cbn [snd]. rewrite Hv, filter_app.
      rewrite (filter_all_in _ (pairs_of _ _)) by (intros p (x & -> & _)%list_elem_of_fmap; right; apply set_add_elem; by left).
      rewrite <- app_assoc, list_filter_filter. f_equal. apply list_filter_iff. intros p. rewrite set_add_elem. cbn.
      rewrite not_elem_of_cons. destruct (decide (p.1 = to_lower name)) as [E'|E']; [rewrite E'|]; naive_solver.
Qed.

(** For a record of headers the last spelling of a name counts. *)
Fixpoint last_spellings (l : list (jsstring * jsval)) : list (jsstring * jsval) :=
  match l with
  | [] => []
  | p :: l => if bool_decide (to_lower p.1 ∈ given_names l) then last_spellings l else p :: last_spellings l
  end.

Lemma last_spellings_names l n : n ∈ given_names (last_spellings l) <-> n ∈ given_names l.
Proof.
  induction l as [|p l IH]; [done|]. cbn [last_spellings]. case_bool_decide; cbn; rewrite ?elem_of_cons, ?IH; naive_solver.
Qed.

Lemma write_entry_spec l s s' :
  headers_inv s -> fold_res write_entry s l = Ok s' ->
  headers_inv s' /\ s'.2 = filter (fun p => p.1 ∉ given_names l) s.2 ++ given_pairs (last_spellings l).
Proof.
  revert s. induction l as [|[name value] l IH]; intros s Hs E.
  - injection E as <-. split; [done|]. rewrite app_nil_r. symmetry. apply filter_all_in. intros p _. apply not_elem_of_nil.
  - cbn [fold_res] in E. apply bind_Ok_inv in E as (s1 & E1 & E). unfold write_entry in E1. cbn [fst snd] in E1.
    apply bind_Ok_inv in E1 as ([n v] & Hn & E1). apply Ok_inj in E1. subst s1.
    apply normalize_header_Ok in Hn as (-> & Hv & Hname & Hval).
    edestruct IH as [H1 H2]; [|exact E|]; [by apply set_header_inv|].
    split; [done|]. rewrite H2. unfold setResponseHeader, removeResponseHeaderPairs. cbn [snd last_spellings fst]. rewrite Hv, filter_app, list_filter_filter.
    case_bool_decide as Hin.
    + rewrite (filter_none_in _ (pairs_of _ _)) by (intros p (x & -> & _)%list_elem_of_fmap; naive_solver). rewrite app_nil_r.
      f_equal. apply list_filter_iff. intros p. cbn. rewrite not_elem_of_cons. naive_solver.
    + rewrite (filter_all_in _ (pairs_of _ _)) by (intros p (x & -> & _)%list_elem_of_fmap; done).
      unfold given_pairs. cbn [map concat fst snd]. rewrite <- app_assoc. f_equal. apply list_filter_iff. intros p. cbn. rewrite not_elem_of_cons. naive_solver.
Qed.

Definition response_headers (argument : head_argument) (headers : option ResponseHeaders) : ResponseHeaders :=
  match argument, headers with
  | _, Some h => h
  | ha_headers h, None => h
  | _, None => rh_record []
  end.
Definition headers_names (h : ResponseHeaders) : list jsstring := match h with rh_pairs l | rh_record l => given_names l end.
Definition headers_pairs (h : ResponseHeaders) : list VerserHeaderPair :=
  match h with rh_pairs l => given_pairs l | rh_record l => given_pairs (last_spellings l) end.

Lemma write_headers_spec s h s' : headers_inv s -> write_headers s h = Ok s' ->
  headers_inv s' /\ s'.2 = filter (fun p => p.1 ∉ headers_names h) s.2 ++ headers_pairs h.
Proof.
  intros Hs E. destruct h as [l|l]; cbn [write_headers headers_names headers_pairs] in *.
  - apply fmap_Ok_inv in E as ([s1 r1] & E & <-). apply write_pair_spec in E as [H1 H2]; [|done]. split; [done|].
    cbn [fst]. rewrite H2. f_equal. apply list_filter_iff. intros p. rewrite elem_of_nil. naive_solver.
  - by apply write_entry_spec.
Qed.

(** [writeHead] against its specification: the given headers replace every
    earlier header of the same name, the others keep their order, and repeated
    names of a pair list are kept in order while a record counts the last
    spelling; the map and the pairs still agree. A call that throws has changed
    nothing. *)
Theorem writeHead_correct r statusCode argument headers :
  headers_inv (header_state_of r) ->
  match writeHead r statusCode argument headers with
  | Ok r' =>
      headers_inv (header_state_of r') /\ sr_statusCode r' = statusCode /\
      sr_headerPairs r' = filter (fun p => p.1 ∉ headers_names (response_headers argument headers)) (sr_headerPairs r)
                          ++ headers_pairs (response_headers argument headers)
  | Throw _ => (response_step r (ro_writeHead statusCode argument headers)).1 = r
  end.
Proof.
  intros Hr. destruct (writeHead r statusCode argument headers) as [r'|e] eqn:E.
  - unfold writeHead in E. apply bind_Ok_inv in E as (c & Hc & E). apply bind_Ok_inv in E as (u & Hu & E).
    apply bind_Ok_inv in E as (s' & Hs & E). apply Ok_inj in E. subst r'.
    assert (match argument with ha_headers h => default h headers | _ => default (rh_record []) headers end = response_headers argument headers) as Eh
      by (by destruct argument, headers). rewrite Eh in Hs.
    apply write_headers_spec in Hs as [H1 H2]; [|done]. unfold header_state_of in *. cbn in *. by destruct s'.
  - cbn. by rewrite E.
Qed.

(** ** The life of a response *)
(** The head and the promise of a response go out once: first nothing, then
    either a failure, after which nothing more is emitted, or the head, after
    which only the body follows. *)
Definition body_effect (e : response_effect) : Prop := match e with re_write _ | re_end | re_finish => True | _ => False end.
Record response_inv (r : LocalServerResponse) (log : list response_effect) : Prop := {
  ri_headers : headers_inv (header_state_of r);
  ri_log : if sr_started r then sr_commitFailed r = false /\ exists body, log = re_response :: body /\ Forall body_effect body
           else if sr_commitFailed r then exists e, log = [re_error e]
           else log = [];
}.

Lemma with_head_inv r log code message s : response_inv r log -> headers_inv s -> response_inv (with_head r code message s) log.
Proof. intros [Hh Hl] Hs. split; [by destruct s|exact Hl]. Qed.

Lemma or_unchanged_inv r log m r' e : response_inv r log -> (forall x, m = Ok x -> response_inv x log) ->
  or_unchanged r m = (r', e) -> response_inv r' (log ++ e).
Proof. intros Hr Hm. unfold or_unchanged. destruct m; intros [= <- <-]; rewrite app_nil_r; auto. Qed.

Lemma commit_inv r log r' e ok : response_inv r log -> commitResponse r = (r', e, ok) ->
  response_inv r' (log ++ e) /\ (ok = true -> sr_started r' = true) /\ (ok = false -> sr_commitFailed r' = true).
Proof.
  intros [Hh Hl]. unfold commitResponse. destruct (sr_commitFailed r) eqn:Ef.
  - intros [= <- <- <-]. rewrite app_nil_r. split_and!; try done. split; [done|]. by rewrite Ef.
  - destruct (sr_started r) eqn:Es.
    + intros [= <- <- <-]. rewrite app_nil_r. split_and!; try done. split; [done|]. by rewrite Es, Ef.
    + subst log. destruct (create_canonical r (sr_requestId r)) as [c|x]; intros [= <- <- <-].
      * split_and!; try done. split; [done|]. cbn. split; [done|]. by exists [].
      * split_and!; try done. split; [done|]. cbn. by exists x.
Qed.

Lemma body_inv r log body : response_inv r log -> sr_started r = true -> Forall body_effect body -> response_inv r (log ++ body).
Proof.
  intros [Hh Hl] Hs Hb. split; [done|]. rewrite Hs in *. destruct Hl as (Hf & body0 & -> & H0). split; [done|].
  exists (body0 ++ body). split; [done|]. by apply Forall_app.
Qed.

Lemma write_inv r log chunk r' e : response_inv r log -> write r chunk = (r', e) ->
  response_inv r' (log ++ e) /\ (sr_commitFailed r' = false -> sr_started r' = true).
Proof.
  intros Hr. unfold write. destruct (commitResponse r) as [[r1 e1] ok] eqn:E. intros [= <- <-].
  edestruct commit_inv as (H1 & H2 & H3); [exact Hr|exact E|]. rewrite app_assoc. destruct ok.
  - split; [|auto]. apply body_inv; [done|auto|]. by repeat constructor.
  - rewrite app_nil_r. split; [done|]. rewrite H3; done.
Qed.

Lemma response_step_inv r log op r' e : response_inv r log -> response_step r op = (r', e) -> response_inv r' (log ++ e).
Proof.
  intros Hr E. pose proof (ri_headers _ _ Hr) as Hh. destruct op as [name value|name value|code a hs|code m|chunk| |chunk]; cbn in E.
  - eapply or_unchanged_inv; [done| |exact E]. intros x ([n v] & H & Hx)%bind_Ok_inv. apply Ok_inj in Hx as <-.
    apply normalize_header_Ok in H as (-> & Hv & Hn & Hval). apply with_head_inv; [done|]. by apply set_header_inv.
  - eapply or_unchanged_inv; [done| |exact E]. intros x ([n v] & H & Hx)%bind_Ok_inv. apply Ok_inj in Hx as <-.
    apply normalize_values_Ok in H as (-> & -> & Hn & Hval). apply with_head_inv; [done|].
    unfold getHeader. rewrite (normal_name_lower _ Hn). by apply (append_header_inv (header_state_of r)).
  - eapply or_unchanged_inv; [done| |exact E]. intros x Hx. unfold writeHead in Hx.
    apply bind_Ok_inv in Hx as (c & _ & Hx). apply bind_Ok_inv in Hx as (u & _ & Hx). apply bind_Ok_inv in Hx as (s & Hs & Hx).
    apply Ok_inj in Hx as <-. apply write_headers_spec in Hs as [H1 _]; [|done]. by apply with_head_inv.
  - injection E as <- <-. rewrite app_nil_r. destruct Hr as [? Hl]. by split.
  - by eapply write_inv.
  - unfold flushHeaders in E. destruct (commitResponse r) as [[r1 e1] ok] eqn:E1. injection E as <- <-.
    eapply commit_inv in E1 as (H & _); [|exact Hr]. done.
  - unfold end_response in E. destruct (sr_commitFailed r) eqn:Ef; [injection E as <- <-; by rewrite app_nil_r|].
    destruct chunk as [c|].
    + destruct (write r c) as [r1 e1] eqn:E1. edestruct write_inv as [H1 H2]; [exact Hr|exact E1|]. injection E as <- <-. rewrite app_assoc.
      destruct (sr_commitFailed r1); cbn; [by rewrite app_nil_r|]. apply body_inv; [done|auto|]. by repeat constructor.
    + destruct (commitResponse r) as [[r1 e1] ok] eqn:E1. edestruct commit_inv as (H1 & H2 & _); [exact Hr|exact E1|].
      injection E as <- <-. rewrite app_assoc. destruct ok; [|by rewrite app_nil_r]. apply body_inv; [done|auto|]. by repeat constructor.
Qed.

Lemma response_run_inv ops r log r' e : response_inv r log -> response_run r ops = (r', e) -> response_inv r' (log ++ e).
Proof.
  revert r log e. induction ops as [|op ops IH]; intros r log e Hr E; cbn in E.
  - injection E as <- <-. by rewrite app_nil_r.
  - destruct (response_step r op) as [r1 e1] eqn:E1. destruct (response_run r1 ops) as [r2 e2] eqn:E2. injection E as <- <-.
    rewrite app_assoc. eapply IH; [|exact E2]. by eapply response_step_inv.
Qed.

Lemma response_init_inv requestId : response_inv (response_init requestId) [].
Proof. split; [split; [apply map_wf_nil|done|constructor]|done]. Qed.

(** C36: The response of a local guest, whatever its handler calls: its header
    map and its pairs agree name by name, every name is a lower-case token and
    every value valid; the head is announced at most once and before the body,
    and when announcing it fails, that is reported once and nothing follows. *)
Theorem local_response_invariant requestId ops r effects :
  response_run (response_init requestId) ops = (r, effects) ->
  map_wf (sr_headers r) /\
  (forall n, normal_name n -> from_option stored_list [] (getHeader r n) = values_for n (sr_headerPairs r)) /\
  Forall normal_pair (sr_headerPairs r) /\
  (effects = [] \/ (exists e, effects = [re_error e]) \/ exists body, effects = re_response :: body /\ Forall body_effect body).
Proof.
  intros E. destruct (response_run_inv _ _ _ _ _ (response_init_inv requestId) E) as [[Hwf Ha Hn] Hl]. split_and!; [done| |done|].
  - intros n Hname. unfold getHeader. rewrite (normal_name_lower n Hname). symmetry. apply Ha.
  - cbn in Hl. destruct (sr_started r); [naive_solver|]. destruct (sr_commitFailed r); eauto.
Qed.
End ResponseTheory.

(** * The dispatch to a local guest *)
Section Dispatch.
Context {P : Platform}.

(** ** Errors *)
Definition createDisconnectedError (r : LocalDispatchRequest) : exn := disconnected r.
(** [reason] is the reason of the request's abort signal. *)
Definition createRequestAbortError (r : LocalDispatchRequest) (reason : option exn) : exn :=
  match reason with
  | Some (VerserErr e) => if bool_decide (ve_code e = stream_failure) then VerserErr e else createDisconnectedError r
  | _ => createDisconnectedError r
  end.
(** [code] is the [code] property of the error object. *)
Definition NGHTTP2_REFUSED_STREAM : Z := 7.
Definition NGHTTP2_CANCEL : Z := 8.
Definition isHttp2CancelError (code : jsval) : bool :=
  match code with
  | JNum n => num_eqb n (num_int NGHTTP2_CANCEL) || num_eqb n (num_int NGHTTP2_REFUSED_STREAM) || num_eqb n (num_int 20)
  | JStr s => str_eqb s (js "ERR_HTTP2_STREAM_ERROR")
  | _ => false
  end.
Definition createLocalHandlerError (r : LocalDispatchRequest) (error : exn) : exn :=
  match error with
  | VerserErr e => if bool_decide (ve_code e = protocol_error) then error
                   else verr_js local_handler_failure (getErrorMessage error)
                          [(js "targetId", JStr (ld_targetId r)); (js "requestId", JStr (ld_requestId r)); (js "path", JStr (ld_path r))]
  | _ => verr_js local_handler_failure (getErrorMessage error)
           [(js "targetId", JStr (ld_targetId r)); (js "requestId", JStr (ld_requestId r)); (js "path", JStr (ld_path r))]
  end.
(** What the request's own body does to the request when it fails. *)
Definition request_body_error (r : LocalDispatchRequest) (aborted : bool) (reason : option exn) (error : exn) (code : jsval) : exn :=
  if aborted || isHttp2CancelError code then createRequestAbortError r reason else error.
Definition request_stream_error (r : LocalDispatchRequest) (error : exn) : exn :=
  match error with VerserErr _ => error | _ => verr_js stream_failure (getErrorMessage error) (request_targets (ld_requestId r) (ld_targetId r)) end.

(** ** The promise *)
(** Which listeners are installed; a [once] listener is gone after its event. *)
Record dispatch_state := {
  ds_settled : bool;
  ds_requestError : bool;    (** failRequestStream on the request's 'error' *)
  ds_abort : bool;           (** abort on the signal *)
  ds_response : bool;        (** resolveResponse on 'response' *)
  ds_error : bool;           (** the listener on the response's 'error' *)
  ds_requestAbort : bool;    (** the request's own abort listener *)
  ds_called : bool;          (** the handler was called: it has the request and the response *)
  ds_res : LocalServerResponse;
}.
Inductive dispatch_effect : Type :=
  | df_handler                                                          (** the handler is called *)
  | df_resolve (response : RoutedResponseEnvelope) | df_reject (error : exn)
  | df_destroyRequest (error : exn) | df_requestError (error : exn)     (** delivered to the handler *)
  | df_body (effect : response_effect)
  | df_uncaught (error : exn).       (** an 'error' event nobody listens to, or a throw out of a listener *)

Definition ds_set (s : dispatch_state) (settled requestError abort response error requestAbort : bool) (res : LocalServerResponse) : dispatch_state :=
  {| ds_settled := settled; ds_requestError := requestError; ds_abort := abort; ds_response := response; ds_error := error;
     ds_requestAbort := requestAbort; ds_called := ds_called s; ds_res := res |}.
Definition with_res (s : dispatch_state) (res : LocalServerResponse) : dispatch_state :=
  ds_set s (ds_settled s) (ds_requestError s) (ds_abort s) (ds_response s) (ds_error s) (ds_requestAbort s) res.

Definition rejectBeforeResponse (s : dispatch_state) (error : exn) : dispatch_state * list dispatch_effect :=
  if ds_settled s then (s, [])
  else (ds_set s true false false (ds_response s) (ds_error s) false (ds_res s), [df_reject error]).
Definition resolveResponse (s : dispatch_state) : dispatch_state * list dispatch_effect :=
  if ds_settled s then (s, [])
  else
    (ds_set s true false false (ds_response s) (ds_error s) (ds_requestAbort s) (ds_res s),
     [match toBrokerResponse (ds_res s) with Ok response => df_resolve response | Throw e => df_uncaught e end]).

Section Handlers.
Context (request : LocalDispatchRequest).

(** An effect of the response: what it does to its body, and the listeners of its events. *)
Definition response_event (s : dispatch_state) (e : response_effect) : dispatch_state * list dispatch_effect :=
  match e with
  | re_response =>
      if ds_response s then
        resolveResponse (ds_set s (ds_settled s) (ds_requestError s) (ds_abort s) false (ds_error s) (ds_requestAbort s) (ds_res s))
      else (s, [])
  | re_error error =>
      if ds_error s then
        let s := ds_set s (ds_settled s) (ds_requestError s) (ds_abort s) (ds_response s) false (ds_requestAbort s) (ds_res s) in
        if sr_started (ds_res s) then (s, []) else rejectBeforeResponse s (createLocalHandlerError request error)
      else (s, [df_uncaught error])
  | _ => (s, [df_body e])
  end.
Fixpoint response_events (s : dispatch_state) (l : list response_effect) : dispatch_state * list dispatch_effect :=
  match l with
  | [] => (s, [])
  | e :: l => let '(s, t) := response_event s e in let '(s, t') := response_events s l in (s, t ++ t')
  end.

Definition failRequestStream (s : dispatch_state) (error : exn) : dispatch_state * list dispatch_effect :=
  let streamError := request_stream_error request error in
  if sr_started (ds_res s) then response_events s (fail streamError) else rejectBeforeResponse s streamError.
(** The request emits 'error'. *)
Definition on_request_error (s : dispatch_state) (error : exn) : dispatch_state * list dispatch_effect :=
  if ds_requestError s then
    failRequestStream (ds_set s (ds_settled s) false (ds_abort s) (ds_response s) (ds_error s) (ds_requestAbort s) (ds_res s)) error
  else (s, []).

Definition abort (s : dispatch_state) (reason : option exn) : dispatch_state * list dispatch_effect :=
  let error := createRequestAbortError request reason in
  let '(s, t) := if sr_started (ds_res s) then response_events s (fail error) else rejectBeforeResponse s error in
  (s, df_destroyRequest error :: t).

(** The signal aborts: the request's own listener runs first; [ended] says that
    the request was read to its end or destroyed. *)
Definition on_request_abort (s : dispatch_state) (ended : bool) (reason : option exn) : dispatch_state * list dispatch_effect :=
  if ds_requestAbort s then
    let error := createRequestAbortError request reason in
    let s := ds_set s (ds_settled s) (ds_requestError s) (ds_abort s) (ds_response s) (ds_error s) false (ds_res s) in
    if ended then let '(s, t) := on_request_error s error in (s, df_requestError error :: t)
    else (s, [df_destroyRequest error])
  else (s, []).
Definition on_abort (s : dispatch_state) (ended : bool) (reason : option exn) : dispatch_state * list dispatch_effect :=
  let '(s, t) := on_request_abort s ended reason in
  if ds_abort s then
    let '(s, t') := abort (ds_set s (ds_settled s) (ds_requestError s) false (ds_response s) (ds_error s) (ds_requestAbort s) (ds_res s)) reason in
    (s, t ++ t')
  else (s, t).

(** The handler throws. *)
Definition on_throw (s : dispatch_state) (error : exn) : dispatch_state * list dispatch_effect :=
  let verserError := createLocalHandlerError request error in
  if sr_started (ds_res s) then
    let '(s, t) := response_events s (fail verserError) in
    let '(s, t') := resolveResponse s in (s, t ++ t')
  else rejectBeforeResponse s verserError.

Inductive dispatch_event : Type :=
  | de_call (op : response_op)          (** the handler uses its response *)
  | de_requestError (error : exn)
  | de_abort (ended : bool) (reason : option exn)
  | de_throw (error : exn)
  | de_bodyDone.                        (** the response body ends, closes or fails *)
Definition dispatch_step (s : dispatch_state) (e : dispatch_event) : dispatch_state * list dispatch_effect :=
  match e with
  | de_call op => if negb (ds_called s) then (s, []) else let '(res, t) := response_step (ds_res s) op in response_events (with_res s res) t
  | de_requestError error => on_request_error s error
  | de_abort ended reason => on_abort s ended reason
  | de_throw error => if negb (ds_called s) then (s, []) else on_throw s error
  | de_bodyDone => (ds_set s (ds_settled s) (ds_requestError s) (ds_abort s) (ds_response s) (ds_error s) false (ds_res s), [])
  end.
Fixpoint dispatch_run (s : dispatch_state) (l : list dispatch_event) : dispatch_state * list dispatch_effect :=
  match l with
  | [] => (s, [])
  | e :: l => let '(s, t) := dispatch_step s e in let '(s, t') := dispatch_run s l in (s, t ++ t')
  end.

(** With the signal aborted beforehand no other listener is installed and the
    handler is not called; the request's own abort listener never fires then. *)
Definition dispatchLocalGuestRequest (aborted : bool) (reason : option exn) : dispatch_state * list dispatch_effect :=
  let s := {| ds_settled := false; ds_requestError := true; ds_abort := false; ds_response := false; ds_error := false;
              ds_requestAbort := true; ds_called := false; ds_res := response_init (ld_requestId request) |} in
  if aborted then abort s reason
  else
    ({| ds_settled := false; ds_requestError := true; ds_abort := true; ds_response := true; ds_error := true; ds_requestAbort := true;
        ds_called := true; ds_res := ds_res s |}, [df_handler]).
End Handlers.
End Dispatch.

(** ** Theory of the dispatch *)
Section DispatchTheory.
Context {P : Platform}.

Definition body_effects (t : list response_effect) : Prop := Forall body_effect t.
Lemma body_nil : body_effects [].
Proof. constructor. Qed.
#[local] Hint Resolve body_nil : core.
(** What one call on the response does to its phase. *)
Inductive response_shape (r r' : LocalServerResponse) : list response_effect -> Prop :=
  | shape_body t : sr_started r' = sr_started r -> sr_commitFailed r' = sr_commitFailed r -> body_effects t -> response_shape r r' t
  | shape_start t c : sr_started r = false -> sr_commitFailed r = false -> sr_started r' = true -> sr_commitFailed r' = false ->
      sr_canonicalResponse r' = Some c -> create_canonical r (sr_requestId r) = Ok c -> body_effects t -> response_shape r r' (re_response :: t)
  | shape_fail e : sr_started r = false -> sr_commitFailed r = false -> sr_started r' = false -> sr_commitFailed r' = true ->
      create_canonical r (sr_requestId r) = Throw e -> response_shape r r' [re_error e].

Lemma commit_shape r r' t ok : commitResponse r = (r', t, ok) -> sr_started r && sr_commitFailed r = false ->
  response_shape r r' t /\ sr_commitFailed r' = negb ok.
Proof.
  unfold commitResponse. destruct (sr_commitFailed r) eqn:Ef.
  - intros [= <- <- <-] _. split; [by apply shape_body|done].
  - destruct (sr_started r) eqn:Es; [intros [= <- <- <-] _; split; [by apply shape_body|done]|].
    destruct (create_canonical r (sr_requestId r)) as [c|e] eqn:Ec; intros [= <- <- <-] _; (split; [|done]); [by eapply shape_start|by eapply shape_fail].
Qed.

Lemma shape_then_body r r' t k : response_shape r r' t -> (sr_commitFailed r' = true -> k = []) -> body_effects k -> response_shape r r' (t ++ k).
Proof.
  intros H Hk Hb. destruct H as [t H1 H2 H3|t c H1 H2 H3 H4 H5 H6 H7|e H1 H2 H3 H4 H5].
  - apply shape_body; [done..|]. by apply Forall_app.
  - cbn. eapply shape_start; try done. by apply Forall_app.
  - rewrite Hk, app_nil_r by done. by apply shape_fail.
Qed.

Lemma write_shape r chunk r' t : write r chunk = (r', t) -> sr_started r && sr_commitFailed r = false -> response_shape r r' t.
Proof.
  unfold write. destruct (commitResponse r) as [[r1 t1] ok] eqn:E. intros [= <- <-] Hr. edestruct commit_shape as [H1 H2]; [exact E|done|].
  apply shape_then_body; [done| |destruct ok; by repeat constructor]. rewrite H2. by destruct ok.
Qed.

Lemma response_step_shape r op r' t : response_step r op = (r', t) -> sr_started r && sr_commitFailed r = false -> response_shape r r' t.
Proof.
  assert (forall m, (forall x, m = Ok x -> sr_started x = sr_started r /\ sr_commitFailed x = sr_commitFailed r) ->
    forall r' t, or_unchanged r m = (r', t) -> response_shape r r' t) as Hu.
  { intros m Hm ? ?. unfold or_unchanged. destruct m as [x|e]; intros [= <- <-]; [destruct (Hm x eq_refl)|]; by apply shape_body. }
  intros E Hr. destruct op as [name value|name value|code a hs|code m|chunk| |chunk]; cbn in E.
  1-3: eapply Hu; [|exact E]; intros x Hx; try (apply bind_Ok_inv in Hx as ([n v] & _ & Hx); by apply Ok_inj in Hx as <-).
  - unfold writeHead in Hx. apply bind_Ok_inv in Hx as (c & _ & Hx). apply bind_Ok_inv in Hx as (u & _ & Hx).
    apply bind_Ok_inv in Hx as (s & _ & Hx). by apply Ok_inj in Hx as <-.
  - injection E as <- <-. by apply shape_body.
  - by eapply write_shape.
  - unfold flushHeaders in E. destruct (commitResponse r) as [[r1 t1] ok] eqn:E1. injection E as <- <-. by eapply commit_shape in E1 as [H _].
  - unfold end_response in E. destruct (sr_commitFailed r) eqn:Ef; [injection E as <- <-; by apply shape_body|].
    assert (sr_started r && sr_commitFailed r = false) as Hr' by (by rewrite Ef, andb_false_r).
    destruct chunk as [c|].
    + destruct (write r c) as [r1 t1] eqn:E1. injection E as <- <-. apply shape_then_body; [by eapply write_shape| |].
      * intros H. by rewrite H.
      * destruct (negb _); by repeat constructor.
    + destruct (commitResponse r) as [[r1 t1] ok] eqn:E1. injection E as <- <-. edestruct commit_shape as [H1 H2]; [exact E1|done|].
      apply shape_then_body; [done| |destruct ok; by repeat constructor]. rewrite H2. by destruct ok.
Qed.

Context (request : LocalDispatchRequest).
Definition settling (e : dispatch_effect) : bool := match e with df_resolve _ | df_reject _ => true | _ => false end.
Definition calls_handler (e : dispatch_effect) : bool := match e with df_handler => true | _ => false end.
Definition uncaught (e : dispatch_effect) : bool := match e with df_uncaught _ => true | _ => false end.
Definition outcomes (t : list dispatch_effect) : list dispatch_effect := filter (fun e => settling e = true) t.

(** Nothing but the start of the dispatch calls the handler. *)
Definition keeps (s : dispatch_state) (p : dispatch_state * list dispatch_effect) : Prop :=
  ds_called p.1 = ds_called s /\ Forall (fun e => calls_handler e = false) p.2.
Lemma keeps_nil s s' : ds_called s' = ds_called s -> keeps s (s', []).
Proof. by split. Qed.
Lemma keeps_app s s1 t1 p : keeps s (s1, t1) -> keeps s1 p -> keeps s (let '(s2, t2) := p in (s2, t1 ++ t2)).
Proof. destruct p as [s2 t2]. intros [H1 H2] [H3 H4]. cbn in *. split; [cbn; congruence|]. by apply Forall_app. Qed.
Lemma rejectBeforeResponse_keeps s e : keeps s (rejectBeforeResponse s e).
Proof. unfold rejectBeforeResponse. destruct (ds_settled s); [by apply keeps_nil|]. split; [done|]. by repeat constructor. Qed.
Lemma resolveResponse_keeps s : keeps s (resolveResponse s).
Proof. unfold resolveResponse. destruct (ds_settled s); [by apply keeps_nil|]. split; [done|]. destruct (toBrokerResponse _); by repeat constructor. Qed.
Lemma response_event_keeps s e : keeps s (response_event request s e).
Proof.
  destruct e; cbn [response_event]; try (split; [done|]; by repeat constructor).
  - destruct (ds_response s); [apply (resolveResponse_keeps (ds_set s _ _ _ _ _ _ _))|by apply keeps_nil].
  - destruct (ds_error s); [|split; [done|]; by repeat constructor]. cbv zeta. destruct (sr_started _); [by apply keeps_nil|apply (rejectBeforeResponse_keeps (ds_set s _ _ _ _ _ _ _))].
Qed.
Lemma response_events_keeps l : forall s, keeps s (response_events request s l).
Proof.
  induction l as [|e l IH]; intros s; cbn [response_events]; [by apply keeps_nil|].
  pose proof (response_event_keeps s e) as H1. destruct (response_event request s e) as [s1 t1]. by eapply keeps_app.
Qed.
Lemma request_error_keeps s e : keeps s (on_request_error request s e).
Proof.
  unfold on_request_error, failRequestStream. destruct (ds_requestError s); [|by apply keeps_nil]. cbv zeta.
  destruct (sr_started _); [apply (response_events_keeps _ (ds_set s _ _ _ _ _ _ _))|apply (rejectBeforeResponse_keeps (ds_set s _ _ _ _ _ _ _))].
Qed.
Lemma signal_keeps s reason : keeps s (abort request s reason).
Proof.
  unfold abort. cbv zeta. set (error := createRequestAbortError request reason).
  assert (keeps s (if sr_started (ds_res s) then response_events request s (fail error) else rejectBeforeResponse s error)) as [H1 H2]
    by (destruct (sr_started _); [apply response_events_keeps|apply rejectBeforeResponse_keeps]).
  destruct (if sr_started (ds_res s) then _ else _) as [s' t]. split; [done|]. by constructor.
Qed.
Lemma request_abort_keeps s ended reason : keeps s (on_request_abort request s ended reason).
Proof.
  unfold on_request_abort. destruct (ds_requestAbort s); [|by apply keeps_nil]. cbv zeta. destruct ended; [|split; [done|]; by repeat constructor].
  set (s0 := ds_set s _ _ _ _ _ _ _). destruct (request_error_keeps s0 (createRequestAbortError request reason)) as [H1 H2].
  destruct (on_request_error request s0 _) as [s' t]. split; [done|]. by constructor.
Qed.
Lemma dispatch_step_keeps s e : keeps s (dispatch_step request s e).
Proof.
  destruct e as [op|error|ended reason|error|]; cbn [dispatch_step].
  - destruct (negb _); [by apply keeps_nil|]. destruct (response_step (ds_res s) op) as [res t]. apply (response_events_keeps t (with_res s res)).
  - apply request_error_keeps.
  - unfold on_abort. pose proof (request_abort_keeps s ended reason) as H1. destruct (on_request_abort request s ended reason) as [s1 t1].
    destruct (ds_abort s1); [|done]. apply (keeps_app s s1 t1); [done|]. apply (signal_keeps (ds_set s1 _ _ _ _ _ _ _)).
  - destruct (negb _); [by apply keeps_nil|]. unfold on_throw. cbv zeta. destruct (sr_started _); [|apply rejectBeforeResponse_keeps].
    pose proof (response_events_keeps (fail (createLocalHandlerError request error)) s) as H1. destruct (response_events request s _) as [s1 t1].
    apply (keeps_app s s1 t1); [done|]. apply resolveResponse_keeps.
  - by apply keeps_nil.
Qed.
Lemma dispatch_run_keeps l : forall s, keeps s (dispatch_run request s l).
Proof.
  induction l as [|e l IH]; intros s; cbn [dispatch_run]; [by apply keeps_nil|].
  pose proof (dispatch_step_keeps s e) as H1. destruct (dispatch_step request s e) as [s1 t1]. by eapply keeps_app.
Qed.

Record dispatch_inv (s : dispatch_state) (thrown : bool) (log : list dispatch_effect) : Prop := {
  di_log : length (outcomes log) = if ds_settled s then 1%nat else 0%nat;
  di_caught : Forall (fun e => uncaught e = false) log;
  di_open : ds_settled s = false -> ds_requestError s = true /\ ds_abort s = true /\ ds_response s = true /\ ds_error s = true /\
              sr_started (ds_res s) = false /\ sr_commitFailed (ds_res s) = false;
  di_settled : ds_settled s = true -> ds_requestError s = false /\ ds_abort s = false;
  di_phase : sr_started (ds_res s) && sr_commitFailed (ds_res s) = false;
  di_error : ds_error s = false -> sr_commitFailed (ds_res s) = true \/ (sr_started (ds_res s) = true /\ thrown = true);
}.

Lemma outcomes_app l k : outcomes (l ++ k) = outcomes l ++ outcomes k.
Proof. apply filter_app. Qed.

(** Settling and the flags that go with it. *)
Lemma reject_inv s error s' t thrown log :
  dispatch_inv s thrown log -> rejectBeforeResponse s error = (s', t) ->
  dispatch_inv s' thrown (log ++ t) /\ ds_settled s' = true /\ (ds_settled s = false -> t = [df_reject error]).
Proof.
  intros [Hl Hc Ho Hs Hp He] E. unfold rejectBeforeResponse in E. destruct (ds_settled s) eqn:Es; injection E as <- <-.
  - rewrite app_nil_r. split_and!; try done. split; rewrite ?Es; done.
  - split_and!; try done. split; cbn; try done.
    + rewrite outcomes_app, length_app, Hl. reflexivity.
    + apply Forall_app. split; [done|]. by repeat constructor.
Qed.

Lemma body_events_inv s body s' t thrown log :
  dispatch_inv s thrown log -> body_effects body -> response_events request s body = (s', t) ->
  dispatch_inv s' thrown (log ++ t) /\ s' = s /\ outcomes t = [].
Proof.
  intros Hi Hb. revert log t Hi s'. induction Hb as [|e body He Hb IH]; intros log t Hi s' E; cbn in E.
  - injection E as <- <-. by rewrite app_nil_r.
  - assert (response_event request s e = (s, [df_body e])) as Ee by (by destruct e). rewrite Ee in E.
    destruct (response_events request s body) as [s2 t2] eqn:E2. injection E as <- <-.
    assert (dispatch_inv s thrown (log ++ [df_body e])) as Hi'.
    { destruct Hi as [Hl Hc Ho Hs Hp Hx]. split; try done.
      - by rewrite outcomes_app, app_nil_r.
      - apply Forall_app. split; [done|]. by repeat constructor. }
    destruct (IH _ _ Hi' _ eq_refl) as (H1 & H2 & H3). rewrite <- app_assoc in H1. split_and!; done.
Qed.

(** What one call on the response says to the promise. *)
Lemma call_inv s op res t s' k thrown log :
  dispatch_inv s thrown log -> response_step (ds_res s) op = (res, t) -> response_events request (with_res s res) t = (s', k) ->
  dispatch_inv s' thrown (log ++ k) /\ (ds_settled s = true -> ds_settled s' = true) /\
  (ds_settled s = false ->
   match create_canonical (ds_res s) (sr_requestId (ds_res s)) with
   | Ok c => if sr_started (ds_res s') then outcomes k = [df_resolve c] else outcomes k = []
   | Throw e => if sr_commitFailed (ds_res s') then outcomes k = [df_reject (createLocalHandlerError request e)] else outcomes k = []
   end).
Proof.
  intros Hi Hr Hk. pose proof Hi as [Hl Hc Ho Hs Hp He].
  destruct (response_step_shape _ _ _ _ Hr Hp) as [t H1 H2 H3|t c H1 H2 H3 H4 H5 H6 H7|e H1 H2 H3 H4 H5].
  - assert (dispatch_inv (with_res s res) thrown log) as Hi' by (split; cbn; rewrite ?H1, ?H2; done).
    destruct (body_events_inv _ _ _ _ _ _ Hi' H3 Hk) as (Hi2 & -> & Hout). split_and!; [done|done|]. intros Hu.
    destruct (Ho Hu) as (_ & _ & _ & _ & Hst & Hcf). cbn. rewrite H1, H2, Hst, Hcf, Hout. by destruct (create_canonical _ _).
  - cbn [response_events response_event] in Hk.
    assert (exists s1 k1, (if ds_response (with_res s res) then resolveResponse (ds_set (with_res s res) (ds_settled s) (ds_requestError s) (ds_abort s) false (ds_error s) (ds_requestAbort s) res) else (with_res s res, []))
      = (s1, k1) /\ dispatch_inv s1 thrown (log ++ k1) /\ ds_settled s1 = true /\ ds_res s1 = res /\ (ds_settled s = false -> outcomes k1 = [df_resolve c])) as (s1 & k1 & E1 & Hi1 & Hset & Hres & Hout).
    { cbn [ds_response with_res ds_set]. unfold resolveResponse. cbn [ds_settled ds_set ds_res]. destruct (ds_settled s) eqn:Es.
      - exists (if ds_response s then ds_set (with_res s res) true (ds_requestError s) (ds_abort s) false (ds_error s) (ds_requestAbort s) res else with_res s res), [].
        split; [by destruct (ds_response s)|]. rewrite app_nil_r.
        split_and!; try by destruct (ds_response s). split; destruct (ds_response s); cbn; rewrite ?Es, ?H3, ?H4; try done; intros Hx; destruct (He Hx) as [Hy|[Hy _]]; congruence.
      - destruct (Ho eq_refl) as (_ & _ & -> & Herr & _ & _). unfold toBrokerResponse. cbn. rewrite H5. eexists _, _. split; [reflexivity|].
        split_and!; try done. split; cbn; rewrite ?H3, ?H4, ?Herr; try done.
        + by rewrite outcomes_app, length_app, Hl.
        + apply Forall_app. split; [done|]. by repeat constructor. }
    change (ds_res (with_res s res)) with res in Hk. cbn [ds_settled with_res ds_set ds_requestError ds_abort ds_error ds_requestAbort] in Hk, E1. rewrite E1 in Hk.
    destruct (response_events request s1 t) as [s2 k2] eqn:E2. injection Hk as <- <-.
    destruct (body_events_inv _ _ _ _ _ _ Hi1 H7 E2) as (Hi2 & -> & Hout2). rewrite app_assoc. split_and!; [done|done|].
    intros Hu. rewrite H6, Hres, H3, outcomes_app, Hout2, app_nil_r. by apply Hout.
  - assert (ds_error s = true) as Herr by (destruct (ds_error s); [done|]; destruct (He eq_refl) as [?|[? _]]; congruence).
    cbn [response_events response_event] in Hk. cbn [ds_error with_res ds_set ds_res] in Hk. rewrite Herr, H3 in Hk.
    unfold rejectBeforeResponse in Hk. cbn [ds_settled ds_set with_res] in Hk. destruct (ds_settled s) eqn:Es; injection Hk as <- <-.
    + rewrite app_nil_r. split_and!; try done. split; cbn; rewrite ?Es, ?H3, ?H4; try done; auto.
    + split_and!; try done.
      * split; cbn; rewrite ?H3, ?H4; try done; auto.
        -- by rewrite outcomes_app, length_app, Hl.
        -- apply Forall_app. split; [done|]. by repeat constructor.
      * intros _. rewrite H5. cbn. by rewrite H4.
Qed.

(** A listener that rejects the promise: nothing, when it is gone. *)
Definition settles_with (s s' : dispatch_state) (k : list dispatch_effect) (error : exn) : Prop :=
  ds_settled s' = true /\ (ds_settled s = false -> outcomes k = [df_reject error]).

Lemma flags_inv s thrown log requestAbort : dispatch_inv s thrown log ->
  dispatch_inv (ds_set s (ds_settled s) (ds_requestError s) (ds_abort s) (ds_response s) (ds_error s) requestAbort (ds_res s)) thrown log.
Proof. by intros []. Qed.

Lemma request_error_inv s error s' k thrown log :
  dispatch_inv s thrown log -> on_request_error request s error = (s', k) ->
  dispatch_inv s' thrown (log ++ k) /\ settles_with s s' k (request_stream_error request error).
Proof.
  intros Hi E. pose proof Hi as [Hl Hc Ho Hs Hp He]. unfold on_request_error in E.
  destruct (ds_settled s) eqn:Es.
  - destruct (Hs eq_refl) as [H1 _]. rewrite H1 in E. injection E as <- <-. rewrite app_nil_r. split; [done|]. split; congruence.
  - destruct (Ho eq_refl) as (H1 & H2 & H3 & H4 & H5 & H6). rewrite H1 in E. unfold failRequestStream, rejectBeforeResponse in E.
    cbn [ds_res ds_set ds_settled] in E. rewrite H5 in E. injection E as <- <-. split; [|done].
    split; cbn; rewrite ?H4, ?H5, ?H6; try done.
    + by rewrite outcomes_app, length_app, Hl.
    + apply Forall_app. split; [done|]. by repeat constructor.
Qed.

Lemma silent_inv s e thrown log : dispatch_inv s thrown log -> settling e = false -> uncaught e = false -> dispatch_inv s thrown (log ++ [e]).
Proof.
  intros [Hl Hc Ho Hs Hp He] H1 H2. split; try done.
  - rewrite outcomes_app. unfold outcomes at 2. rewrite filter_cons_False by (by rewrite H1). by rewrite app_nil_r.
  - apply Forall_app. split; [done|]. by repeat constructor.
Qed.

Lemma abort_error_stream reason : request_stream_error request (createRequestAbortError request reason) = createRequestAbortError request reason.
Proof. unfold createRequestAbortError. destruct reason as [[]|]; try done. by case_bool_decide. Qed.

Lemma abort_inv s ended reason s' k thrown log :
  dispatch_inv s thrown log -> on_abort request s ended reason = (s', k) ->
  dispatch_inv s' thrown (log ++ k) /\ settles_with s s' k (createRequestAbortError request reason).
Proof.
  intros Hi E. unfold on_abort in E. destruct (on_request_abort request s ended reason) as [s1 k1] eqn:E1.
  assert (dispatch_inv s1 thrown (log ++ k1) /\
    ((ds_settled s1 = true /\ (ds_settled s = false -> outcomes k1 = [df_reject (createRequestAbortError request reason)])) \/
     (ds_settled s1 = ds_settled s /\ outcomes k1 = []))) as [Hi1 Hk1].
  { unfold on_request_abort in E1. destruct (ds_requestAbort s); [|injection E1 as <- <-; rewrite app_nil_r; auto].
    apply (flags_inv _ _ _ false) in Hi. destruct ended.
    - destruct (on_request_error request _ _) as [s2 k2] eqn:E2. injection E1 as <- <-.
      apply (silent_inv _ (df_requestError (createRequestAbortError request reason))) in Hi; [|done..].
      destruct (request_error_inv _ _ _ _ _ _ Hi E2) as [H1 [H2 H3]]. rewrite <- app_assoc in H1. split; [done|]. left. split; [done|].
      intros Hu. rewrite abort_error_stream in H3. cbn [outcomes]. unfold outcomes. rewrite filter_cons_False by done. by apply H3.
    - injection E1 as <- <-. split; [|by right]. by apply silent_inv. }
  pose proof Hi1 as [Hl Hc Ho Hs Hp He]. destruct (ds_settled s1) eqn:Es1.
  - destruct (Hs eq_refl) as [_ Ha]. rewrite Ha in E. injection E as <- <-. split; [done|]. split; [done|].
    destruct Hk1 as [[_ H]|[H _]]; [done|]. intros Hu. congruence.
  - destruct (Ho eq_refl) as (H1 & H2 & H3 & H4 & H5 & H6). rewrite H2 in E. unfold abort, rejectBeforeResponse in E.
    cbn [ds_res ds_set ds_settled] in E. rewrite H5 in E. injection E as <- <-. rewrite app_assoc.
    destruct Hk1 as [[Hx _]|[_ Hk1]]; [congruence|]. split; [|split; [done|]].
    + apply (silent_inv _ (df_destroyRequest (createRequestAbortError request reason))) in Hi1; [|done..].
      replace ((log ++ k1) ++ [df_destroyRequest _; df_reject _]) with
        (((log ++ k1) ++ [df_destroyRequest (createRequestAbortError request reason)]) ++ [df_reject (createRequestAbortError request reason)]) by (by rewrite <- app_assoc).
      eapply (reject_inv s1) in Hi1 as (Hi2 & _); [|unfold rejectBeforeResponse; by rewrite Es1]. 
      destruct Hi2 as [? ? ? ? ? ?]. split; done.
    + intros _. by rewrite outcomes_app, Hk1.
Qed.

Lemma throw_inv s error s' k log :
  dispatch_inv s false log -> on_throw request s error = (s', k) ->
  dispatch_inv s' true (log ++ k) /\ settles_with s s' k (createLocalHandlerError request error).
Proof.
  intros Hi E. pose proof Hi as [Hl Hc Ho Hs Hp He]. unfold on_throw in E. destruct (sr_started (ds_res s)) eqn:Est.
  - assert (ds_settled s = true) as Es by (destruct (ds_settled s); [done|]; destruct (Ho eq_refl) as (_ & _ & _ & _ & ? & _); congruence).
    assert (ds_error s = true) as Herr.
    { destruct (ds_error s); [done|]. destruct (He eq_refl) as [Hx|[_ Hx]]; [|done]. by rewrite Hx in Hp. }
    cbn [response_events response_event fail] in E. rewrite Herr in E. cbn [ds_res ds_set] in E. rewrite Est in E.
    unfold resolveResponse in E. cbn [ds_settled ds_set] in E. rewrite Es in E. injection E as <- <-. cbn [app].
    split; [|split; [done|by rewrite Es]]. apply (silent_inv _ (df_body (re_destroy (createLocalHandlerError request error)))) in Hi; [|done..].
    destruct Hi as [H1 H2 H3 H4 H5 H6]. split; cbn; rewrite Es in *; try done; auto.
  - assert (dispatch_inv s true log) as Hi' by (destruct Hi; split; try done; intros Hx; destruct (He Hx) as [|[? _]]; [by left|congruence]).
    edestruct reject_inv as (H1 & H2 & H3); [exact Hi'|exact E|]. split; [done|]. split; [done|]. intros Hu. by rewrite (H3 Hu).
Qed.

Definition is_throw (e : dispatch_event) : bool := match e with de_throw _ => true | _ => false end.
(** The events that settle the promise whatever the response is. *)
Definition decisive (e : dispatch_event) : option exn :=
  match e with
  | de_requestError error => Some (request_stream_error request error)
  | de_abort _ reason => Some (createRequestAbortError request reason)
  | de_throw error => Some (createLocalHandlerError request error)
  | _ => None
  end.

Lemma dispatch_step_inv s e s' k thrown log :
  ds_called s = true -> dispatch_inv s thrown log -> (is_throw e = true -> thrown = false) -> dispatch_step request s e = (s', k) ->
  dispatch_inv s' (thrown || is_throw e) (log ++ k) /\ (ds_settled s = true -> ds_settled s' = true) /\
  match decisive e with Some error => settles_with s s' k error | None => True end.
Proof.
  intros Hcd Hi Ht E. destruct e as [op|error|ended reason|error|]; cbn [dispatch_step is_throw decisive] in *; rewrite ?Hcd in E; cbn [negb] in E; rewrite ?orb_false_r, ?orb_true_r.
  - destruct (response_step (ds_res s) op) as [res t] eqn:Er. by destruct (call_inv _ _ _ _ _ _ _ _ Hi Er E) as (H1 & H2 & _).
  - destruct (request_error_inv _ _ _ _ _ _ Hi E) as [H1 H2]. split_and!; [done|by destruct H2|done].
  - destruct (abort_inv _ _ _ _ _ _ _ Hi E) as [H1 H2]. split_and!; [done|by destruct H2|done].
  - rewrite Ht in Hi by done. destruct (throw_inv _ _ _ _ _ Hi E) as [H1 H2]. split_and!; [done|by destruct H2|done].
  - injection E as <- <-. rewrite app_nil_r. split; [by apply flags_inv|done].
Qed.

Lemma dispatch_run_inv l s s' k thrown log :
  ds_called s = true -> dispatch_inv s thrown log -> (length (filter (fun e => is_throw e = true) l) + (if thrown then 1 else 0) <= 1)%nat ->
  dispatch_run request s l = (s', k) ->
  (exists thrown', dispatch_inv s' thrown' (log ++ k)) /\
  (ds_settled s = true \/ (exists e, e ∈ l /\ decisive e <> None) -> ds_settled s' = true).
Proof.
  revert s k thrown log. induction l as [|e l IH]; intros s k thrown log Hcd Hi Hn E; cbn [dispatch_run] in E.
  - injection E as <- <-. rewrite app_nil_r. split; [eauto|]. intros [H|(e & He & _)]; [done|by apply elem_of_nil in He].
  - destruct (dispatch_step request s e) as [s1 k1] eqn:E1. destruct (dispatch_run request s1 l) as [s2 k2] eqn:E2. injection E as <- <-.
    rewrite filter_cons in Hn.
    pose proof (proj1 (dispatch_step_keeps s e)) as Hcd'. rewrite E1 in Hcd'. cbn in Hcd'. rewrite Hcd in Hcd'.
    destruct (dispatch_step_inv _ _ _ _ _ _ Hcd Hi ltac:(intros H; rewrite decide_True in Hn by done; cbn in Hn; destruct thrown; [lia|done]) E1) as (H1 & H2 & H3).
    edestruct IH as [H4 H5]; [exact Hcd'|exact H1| |exact E2|].
    { destruct (is_throw e); [rewrite decide_True in Hn by done|rewrite decide_False in Hn by done]; cbn in Hn; destruct thrown; cbn; lia. }
    rewrite app_assoc. split; [done|]. intros [H|(x & [->|Hx]%elem_of_cons & Hd)]; apply H5; [left; auto| |right; eauto].
    left. destruct (decisive e); [|done]. by destruct H3.
Qed.

Lemma dispatch_start_inv s t reason : dispatchLocalGuestRequest request false reason = (s, t) -> ds_called s = true /\ dispatch_inv s false [] /\ t = [df_handler].
Proof. intros [= <- <-]. split; [done|]. split; [|done]. split; cbn; try done. Qed.

(** C33: The promise of a dispatch to a local guest, over any sequence of calls of
    the handler, failures of the request, aborts and at most one throw. The handler
    is called once, when the dispatch starts. The promise is settled at most once
    and no error goes uncaught; a failure, an abort, a throw, a response head or a
    head that cannot be made settle it. With the signal aborted beforehand the
    request is destroyed and the promise rejected at once with the error of the
    abort; the handler is never called and no listener is left, so that nothing
    that happens later does anything. *)
Theorem local_dispatch_settles reason l s t :
  dispatch_run request (dispatchLocalGuestRequest request false reason).1 l = (s, t) ->
  (length (filter (fun e => is_throw e = true) l) <= 1)%nat ->
  ((dispatchLocalGuestRequest request false reason).2 = [df_handler] /\ df_handler ∉ t) /\
  length (outcomes t) = (if ds_settled s then 1%nat else 0%nat) /\ Forall (fun e => uncaught e = false) t /\
  ((exists e, e ∈ l /\ decisive e <> None) \/ sr_started (ds_res s) = true \/ sr_commitFailed (ds_res s) = true -> ds_settled s = true) /\
  ((dispatchLocalGuestRequest request true reason).2 =
     [df_destroyRequest (createRequestAbortError request reason); df_reject (createRequestAbortError request reason)] /\
   forall later, dispatch_run request (dispatchLocalGuestRequest request true reason).1 later = ((dispatchLocalGuestRequest request true reason).1, [])).
Proof.
  intros E Hn. split; [split; [done|]|].
  { pose proof (proj2 (dispatch_run_keeps l (dispatchLocalGuestRequest request false reason).1)) as Hk. rewrite E in Hk. intros Hin.
    rewrite Forall_forall in Hk. by specialize (Hk _ Hin). }
  destruct (dispatchLocalGuestRequest request false reason) as [s0 t0] eqn:E0. apply dispatch_start_inv in E0 as (Hcd & H0 & _).
  destruct (dispatch_run_inv l s0 s t false [] Hcd H0 ltac:(cbn; lia) E) as [[th [Hl Hc Ho Hs Hp He]] Hd]. split_and!; try done.
  - intros [H|H]; [by apply Hd; right|]. destruct (ds_settled s); [done|]. destruct (Ho eq_refl) as (_ & _ & _ & _ & H5 & H6).
    destruct H; congruence.
  - induction later as [|e later IH]; [done|]. cbn [dispatch_run].
    assert (dispatch_step request (dispatchLocalGuestRequest request true reason).1 e = ((dispatchLocalGuestRequest request true reason).1, [])) as -> by by destruct e.
    by rewrite IH.
Qed.

(** What settles it. As long as the promise is pending, a failure of the
    request, an abort and a throw reject it with their own error, a call that
    starts the response resolves it with that response, a call that cannot make
    its head rejects it, and nothing else settles it. *)
Theorem local_dispatch_outcome reason l s t e s' k :
  dispatch_run request (dispatchLocalGuestRequest request false reason).1 l = (s, t) ->
  (length (filter (fun e => is_throw e = true) l) = 0)%nat -> ds_settled s = false ->
  dispatch_step request s e = (s', k) ->
  match decisive e, e with
  | Some error, _ => outcomes k = [df_reject error] /\ ds_settled s' = true
  | None, de_call op =>
      match create_canonical (ds_res s) (sr_requestId (ds_res s)) with
      | Ok c => outcomes k = (if sr_started (ds_res s') then [df_resolve c] else [])
      | Throw x => outcomes k = if sr_commitFailed (ds_res s') then [df_reject (createLocalHandlerError request x)] else []
      end
  | None, _ => outcomes k = []
  end.
Proof.
  intros E Hn Hu Ek. destruct (dispatchLocalGuestRequest request false reason) as [s0 t0] eqn:E0. apply dispatch_start_inv in E0 as (Hcd & H0 & _).
  destruct (dispatch_run_inv l s0 s t false [] Hcd H0 ltac:(cbn; lia) E) as [[th Hi] _].
  assert (ds_called s = true) as Hcs by (pose proof (proj1 (dispatch_run_keeps l s0)) as Hk; cbn [fst] in E; rewrite E in Hk; cbn in Hk; congruence).
  assert (dispatch_inv s false t) as Hi'.
  { destruct Hi as [Hl Hc Ho Hs Hp He]. split; try done. intros Hx. destruct (Ho Hu) as (_ & _ & _ & H4 & _). congruence. }
  destruct e as [op|error|ended reason'|error|]; cbn [decisive].
  - cbn [dispatch_step] in Ek. rewrite Hcs in Ek. cbn [negb] in Ek. destruct (response_step (ds_res s) op) as [res k0] eqn:Er.
    destruct (call_inv _ _ _ _ _ _ _ _ Hi' Er Ek) as (_ & _ & H). specialize (H Hu).
    destruct (create_canonical _ _); [destruct (sr_started _)|destruct (sr_commitFailed _)]; done.
  - destruct (request_error_inv _ _ _ _ _ _ Hi' Ek) as [_ [H1 H2]]. by rewrite H2.
  - destruct (abort_inv _ _ _ _ _ _ _ Hi' Ek) as [_ [H1 H2]]. by rewrite H2.
  - cbn [dispatch_step] in Ek. rewrite Hcs in Ek. destruct (throw_inv _ _ _ _ _ Hi' Ek) as [_ [H1 H2]]. by rewrite H2.
  - by injection Ek as <- <-.
Qed.
End DispatchTheory.

(** ** Witnesses *)
Module GuestSample.
Definition pairs : list (jsstring * jsval) :=
  [(js "X-A", JStr (js "1")); (js "x-b", JArr [JStr (js "2"); JNum (num_int 3)]); (js "x-A", JBool true)].
Definition setup : list response_op := [ro_setHeader (js "x-a") (JStr (js "old")); ro_appendHeader (js "x-c") (JStr (js "kept"))].
Definition before : LocalServerResponse :=
  (response_run (P := ascii_platform) (response_init (js "r-1")) setup).1.
Lemma writeHead_correct_witness : exists r,
  writeHead (P := ascii_platform) before (num_int 201) (ha_headers (rh_pairs pairs)) None = Ok r /\
  sr_headerPairs r = [(js "x-c", js "kept"); (js "x-a", js "1"); (js "x-b", js "2"); (js "x-b", js "3"); (js "x-a", js "true")].
Proof.
  assert (headers_inv (header_state_of before)) as Hi.
  { apply (ri_headers _ ([] ++ [])).
    apply (response_run_inv (P := ascii_platform) setup (response_init (js "r-1")) [] before []); [apply (response_init_inv (js "r-1"))|]. vm_compute. reflexivity. }
  pose proof (writeHead_correct (P := ascii_platform) before (num_int 201) (ha_headers (rh_pairs pairs)) None Hi) as H.
  destruct (writeHead (P := ascii_platform) before (num_int 201) (ha_headers (rh_pairs pairs)) None) as [r|e] eqn:E.
  - exists r. split; [done|]. destruct H as (_ & _ & H). rewrite H. vm_compute. reflexivity.
  - vm_compute in E. discriminate E.
Defined.

Definition calls : list response_op :=
  [ro_setHeader (js "X-A") (JStr (js "1")); ro_setHeader (js "bad name") (JStr (js "1")); ro_write [104; 105]; ro_setHeader (js "late") (JStr (js "x")); ro_end None].
Lemma local_response_invariant_witness :
  (response_run (P := ascii_platform) (response_init (js "r-1")) calls).2 = [re_response; re_write [104; 105]; re_end; re_finish] /\
  map_wf (sr_headers (response_run (P := ascii_platform) (response_init (js "r-1")) calls).1).
Proof.
  split; [vm_compute; reflexivity|].
  destruct (response_run (P := ascii_platform) (response_init (js "r-1")) calls) as [r e] eqn:E.
  exact (proj1 (local_response_invariant (P := ascii_platform) (js "r-1") calls r e E)).
Defined.

Definition request : LocalDispatchRequest := Sample.request (js "b.example").
Definition start := (dispatchLocalGuestRequest (P := ascii_platform) request false None).1.
Definition events : list dispatch_event := [de_call (ro_write [104]); de_abort true None; de_throw (terr (js "late")); de_requestError (terr (js "x"))].
Lemma local_dispatch_settles_witness :
  length (outcomes (dispatch_run (P := ascii_platform) request start events).2) = 1%nat /\
  ds_settled (dispatch_run (P := ascii_platform) request start events).1 = true.
Proof.
  destruct (dispatch_run (P := ascii_platform) request start events) as [s t] eqn:E.
  destruct (local_dispatch_settles (P := ascii_platform) request None events s t E) as (_ & H1 & _ & H3 & _); [vm_compute; reflexivity || lia|].
  assert (ds_settled s = true) as Hs.
  { apply H3. left. exists (de_abort true None). split; [unfold events; set_solver|done]. }
  cbn [fst snd]. split; [by rewrite H1, Hs|exact Hs].
Defined.

Lemma local_dispatch_outcome_witness :
  outcomes (dispatch_step (P := ascii_platform) request start (de_throw (terr (js "boom")))).2 =
    [df_reject (createLocalHandlerError (P := ascii_platform) request (terr (js "boom")))].
Proof.
  destruct (dispatch_step (P := ascii_platform) request start (de_throw (terr (js "boom")))) as [s' k] eqn:E.
  exact (proj1 (local_dispatch_outcome (P := ascii_platform) request None [] start [] (de_throw (terr (js "boom"))) s' k eq_refl eq_refl eq_refl E)).
Defined.
End GuestSample.
