(* ===== verification/BrokerSocket.v ===== *)
(** The byte side of an HTTP agent socket (verser2-guest-node
    [broker-socket.ts], [chunked-body-decoder.ts], with helpers of
    [header-utils.ts] and [utils.ts]): an HTTP/1.1 request text is cut into head
    and body, and the body goes to a stream.

    The stream's answer to a write, whether it takes more, is a function of how
    many writes it has seen.  Content lengths are exact integers (a JS number is
    exact below 2^53). *)
From S2P Require Import Prelude JsNum Utf8 Json Errors Headers ResponseMetadata.

Definition DEFAULT_MAX_REQUEST_HEADER_BYTES : Z := 64 * 1024.
Definition DEFAULT_MAX_CHUNK_SIZE_LINE_BYTES : Z := 1024.
Definition DEFAULT_MAX_CHUNK_DECODER_PENDING_BYTES : Z := 64 * 1024.
Definition CRLF : bytes := [13; 10].
Definition MAX_SAFE_INTEGER : Z := 2 ^ 53 - 1.

(** The body stream: what was written, and whether it was ended. *)
Record body_stream := { bd_writes : list bytes; bd_ended : bool }.
Definition body_empty : body_stream := {| bd_writes := []; bd_ended := false |}.
Definition body_end (b : body_stream) : body_stream := {| bd_writes := bd_writes b; bd_ended := true |}.

Section Socket.
Context (accepts : nat -> bool).
Definition body_write (b : body_stream) (data : bytes) : body_stream * bool :=
  ({| bd_writes := bd_writes b ++ [data]; bd_ended := bd_ended b |}, accepts (length (bd_writes b))).

(** ** The chunked decoder *)
Record ChunkedBodyDecoderOptions := { maxChunkSizeLineBytes : Z; maxPendingBytes : Z }.
Record ChunkedBodyDecoder := { cd_output : body_stream; cd_pending : bytes; cd_expected : option Z }.

(** The test of a size line: hex digits, then nothing or an extension after a
    semicolon, without line ends. *)
Fixpoint span_hex (s : jsstring) : jsstring * jsstring :=
  match s with
  | c :: r => if is_hex c then let '(h, t) := span_hex r in (c :: h, t) else ([], s)
  | [] => ([], [])
  end.
Definition line_char (c : Z) : bool := negb ((c =? 10) || (c =? 13) || (c =? 8232) || (c =? 8233)).
Definition valid_size_text (t : jsstring) : bool :=
  let '(digits, rest) := span_hex t in
  (0 <? len digits) && match rest with [] => true | c :: r => (c =? 59) && forallb line_char r end.
(** [Number.parseInt(t, 16)] of a valid text *)
Definition hex_number (digits : jsstring) : Z := fold_left (fun n c => n * 16 + default 0 (hex_value c)) digits 0.
Definition parse_size (t : jsstring) : Z := hex_number (fst (span_hex t)).
Definition ascii_decode (b : bytes) : jsstring := map (fun c => c mod 128) b.

Definition with_pending (d : ChunkedBodyDecoder) (pending : bytes) (expected : option Z) : ChunkedBodyDecoder :=
  {| cd_output := cd_output d; cd_pending := pending; cd_expected := expected |}.
Section Decoder.
Context (options : ChunkedBodyDecoderOptions).

Definition assertPendingWithinLimit (d : ChunkedBodyDecoder) : result exn unit :=
  throw_if (negb (len (cd_pending d) <=? maxPendingBytes options))
    (verr protocol_error "Chunk decoder pending bytes exceed limit"
       [(js "pendingBytes", JNum (num_int (len (cd_pending d)))); (js "maxPendingBytes", JNum (num_int (maxPendingBytes options)))]).
Definition line_too_long (n : Z) : exn :=
  verr protocol_error "Chunk size line bytes exceed limit"
    [(js "lineBytes", JNum (num_int n)); (js "maxChunkSizeLineBytes", JNum (num_int (maxChunkSizeLineBytes options)))].
Definition invalid_size (sizeText : jsstring) : exn := verr protocol_error "Invalid chunk size line" [(js "sizeText", JStr sizeText)].

(** Reading the size line: nothing yet, the end of the body, or a size. *)
Inductive size_line : Type := sl_wait | sl_end | sl_size (d : ChunkedBodyDecoder) (size : Z).
Definition read_size (d : ChunkedBodyDecoder) : ChunkedBodyDecoder * result exn size_line :=
  match cd_expected d with
  | Some size => (d, Ok (sl_size d size))
  | None =>
      match index_of CRLF (cd_pending d) with
      | None => (d, if maxChunkSizeLineBytes options <? len (cd_pending d) then Throw (line_too_long (len (cd_pending d))) else Ok sl_wait)
      | Some lineEnd =>
          if maxChunkSizeLineBytes options <? Z.of_nat lineEnd then (d, Throw (line_too_long (Z.of_nat lineEnd)))
          else
            let sizeText := ascii_decode (take lineEnd (cd_pending d)) in
            if negb (valid_size_text sizeText) then (d, Throw (invalid_size sizeText))
            else
              let size := parse_size sizeText in
              let d := with_pending d (drop (lineEnd + 2) (cd_pending d)) None in
              if MAX_SAFE_INTEGER <? size then (d, Throw (invalid_size sizeText))
              else if size =? 0 then
                ({| cd_output := body_end (cd_output d); cd_pending := []; cd_expected := None |}, Ok sl_end)
              else let d := with_pending d (cd_pending d) (Some size) in (d, Ok (sl_size d size))
      end
  end.

(** Every round consumes bytes: the pending bytes bound the rounds. *)
Fixpoint flush_loop (fuel : nat) (d : ChunkedBodyDecoder) : ChunkedBodyDecoder * result exn bool :=
  match fuel with
  | O => (d, Ok true)
  | S fuel =>
      if len (cd_pending d) =? 0 then (d, Ok true)
      else
        let '(d, line) := read_size d in
        match line with
        | Throw e => (d, Throw e)
        | Ok sl_wait | Ok sl_end => (d, Ok true)
        | Ok (sl_size d size) =>
            if len (cd_pending d) <? size + 2 then (d, (fun _ => true) <$> assertPendingWithinLimit d)
            else
              let '(output, accepted) := body_write (cd_output d) (take (Z.to_nat size) (cd_pending d)) in
              let d := {| cd_output := output; cd_pending := drop (Z.to_nat (size + 2)) (cd_pending d); cd_expected := None |} in
              if accepted then flush_loop fuel d else (d, Ok false)
        end
  end.
Definition flush (d : ChunkedBodyDecoder) : ChunkedBodyDecoder * result exn bool := flush_loop (S (length (cd_pending d))) d.
Definition decoder_write (d : ChunkedBodyDecoder) (chunk : bytes) : ChunkedBodyDecoder * result exn bool :=
  let d := with_pending d (cd_pending d ++ chunk) (cd_expected d) in
  match assertPendingWithinLimit d with
  | Throw e => (d, Throw e)
  | Ok _ => flush d
  end.
End Decoder.

(** ** The request head *)
(** The number after a header name, and whether a word follows one: the name at
    any place, in any case of its ASCII letters. *)
Fixpoint starts_with_nocase (p s : jsstring) : option jsstring :=
  match p, s with
  | [], _ => Some s
  | a :: p, c :: s => if ascii_lower a =? ascii_lower c then starts_with_nocase p s else None
  | _ :: _, [] => None
  end.
Fixpoint find_header_number (name text : jsstring) : option jsstring :=
  match (match starts_with_nocase name text with Some r => Some (fst (span_digits (drop_while is_space r))) | None => None end) with
  | Some (c :: digits) => Some (c :: digits)
  | _ => match text with [] => None | _ :: text => find_header_number name text end
  end.
Fixpoint has_header_word (name word text : jsstring) : bool :=
  match starts_with_nocase name text with Some r => bool_decide (is_Some (starts_with_nocase word (drop_while is_space r))) | None => false end ||
  match text with [] => false | _ :: text => has_header_word name word text end.
Definition decimal_number (digits : jsstring) : Z := fold_left (fun n c => n * 10 + (c - 48)) digits 0.
Definition parseContentLength (headerText : jsstring) : Z :=
  match find_header_number (js "content-length:") headerText with Some digits => decimal_number digits | None => 0 end.
Definition is_chunked (headerText : jsstring) : bool := has_header_word (js "transfer-encoding:") (js "chunked") headerText.

(** ** The socket *)
Record socket_limits := { maxRequestHeaderBytes : Z; decoder_options : ChunkedBodyDecoderOptions }.
Definition default_limits : socket_limits :=
  {| maxRequestHeaderBytes := DEFAULT_MAX_REQUEST_HEADER_BYTES;
     decoder_options := {| maxChunkSizeLineBytes := DEFAULT_MAX_CHUNK_SIZE_LINE_BYTES; maxPendingBytes := DEFAULT_MAX_CHUNK_DECODER_PENDING_BYTES |} |}.
Record VerserBrokerSocket := {
  sk_requestBuffer : bytes;
  sk_bodyStream : option body_stream;
  sk_chunkDecoder : option (bytes * option Z);
  sk_expectedBodyBytes : Z; sk_receivedBodyBytes : Z;
  sk_forwardingStarted : bool;
}.
Definition socket_init : VerserBrokerSocket :=
  {| sk_requestBuffer := []; sk_bodyStream := None; sk_chunkDecoder := None; sk_expectedBodyBytes := 0; sk_receivedBodyBytes := 0;
     sk_forwardingStarted := false |}.
Definition with_body (s : VerserBrokerSocket) (body : body_stream) (decoder : option (bytes * option Z)) (received : Z) : VerserBrokerSocket :=
  {| sk_requestBuffer := sk_requestBuffer s; sk_bodyStream := Some body; sk_chunkDecoder := decoder;
     sk_expectedBodyBytes := sk_expectedBodyBytes s; sk_receivedBodyBytes := received; sk_forwardingStarted := sk_forwardingStarted s |}.

Section Requests.
Context (limits : socket_limits).

Definition writeBodyBytes (s : VerserBrokerSocket) (chunk : bytes) : VerserBrokerSocket * result exn bool :=
  match sk_bodyStream s with
  | None => (s, Ok true)
  | Some body =>
      match sk_chunkDecoder s with
      | Some (pending, expected) =>
          let '(d, r) := decoder_write (decoder_options limits) {| cd_output := body; cd_pending := pending; cd_expected := expected |} chunk in
          (with_body s (cd_output d) (Some (cd_pending d, cd_expected d)) (sk_receivedBodyBytes s), r)
      | None =>
          if 0 <? sk_expectedBodyBytes s then
            let toWrite := take (Z.to_nat (sk_expectedBodyBytes s - sk_receivedBodyBytes s)) chunk in
            let received := sk_receivedBodyBytes s + len toWrite in
            let '(body, accepted) := if 0 <? len toWrite then body_write body toWrite else (body, true) in
            if negb accepted then (with_body s body None received, Ok false)
            else (with_body s (if sk_expectedBodyBytes s <=? received then body_end body else body) None received, Ok true)
          else
            let '(body, accepted) := body_write body chunk in (with_body s body None (sk_receivedBodyBytes s), Ok accepted)
      end
  end.

Definition consumeRequestBytes (s : VerserBrokerSocket) (chunk : bytes) : VerserBrokerSocket * result exn bool :=
  match sk_bodyStream s with
  | Some _ => writeBodyBytes s chunk
  | None =>
      let requestBuffer := sk_requestBuffer s ++ chunk in
      let buffered b := {| sk_requestBuffer := b; sk_bodyStream := None; sk_chunkDecoder := None; sk_expectedBodyBytes := sk_expectedBodyBytes s;
                           sk_receivedBodyBytes := sk_receivedBodyBytes s; sk_forwardingStarted := sk_forwardingStarted s |} in
      if maxRequestHeaderBytes limits <? len requestBuffer then
        (buffered requestBuffer, Throw (verr protocol_error "Request header bytes exceed limit"
           [(js "headerBytes", JNum (num_int (len requestBuffer))); (js "maxRequestHeaderBytes", JNum (num_int (maxRequestHeaderBytes limits)))]))
      else
        match index_of (CRLF ++ CRLF) requestBuffer with
        | None => (buffered requestBuffer, Ok true)
        | Some separatorIndex =>
            let headerText := take separatorIndex requestBuffer in
            let firstBodyChunk := drop (separatorIndex + 4) requestBuffer in
            let s := {| sk_requestBuffer := []; sk_bodyStream := Some body_empty;
                        sk_chunkDecoder := if is_chunked headerText then Some ([], None) else None;
                        sk_expectedBodyBytes := parseContentLength headerText; sk_receivedBodyBytes := sk_receivedBodyBytes s;
                        sk_forwardingStarted := true |} in
            let '(s, accepted) := if 0 <? len firstBodyChunk then writeBodyBytes s firstBodyChunk else (s, Ok true) in
            match accepted with
            | Throw e => (s, Throw e)
            | Ok _ =>
                (if (0 <? sk_expectedBodyBytes s) || is_chunked headerText then s
                 else with_body s (body_end (default body_empty (sk_bodyStream s))) (sk_chunkDecoder s) (sk_receivedBodyBytes s), accepted)
            end
        end
  end.

(** The body stream drained: the held bytes are flushed, and the write is done
    unless the stream is full again. *)
Definition on_drain (s : VerserBrokerSocket) : VerserBrokerSocket * result exn bool :=
  match sk_bodyStream s, sk_chunkDecoder s with
  | Some body, Some (pending, expected) =>
      let '(d, r) := flush (decoder_options limits) {| cd_output := body; cd_pending := pending; cd_expected := expected |} in
      (with_body s (cd_output d) (Some (cd_pending d, cd_expected d)) (sk_receivedBodyBytes s), r)
  | _, _ => (s, Ok true)
  end.
(** A [_write] as the socket's user sees it: its callback comes when the bytes
    were accepted, after as many drains as it takes. *)
Fixpoint socket_settle (drains : nat) (r : VerserBrokerSocket * result exn bool) : VerserBrokerSocket * result exn bool :=
  match r, drains with
  | (s, Ok false), S drains => socket_settle drains (on_drain s)
  | _, _ => r
  end.
Definition held_bytes (s : VerserBrokerSocket) : nat := match sk_chunkDecoder s with Some (pending, _) => length pending | None => 0 end.
Definition socket_write (s : VerserBrokerSocket) (chunk : bytes) : VerserBrokerSocket * result exn bool :=
  let r := consumeRequestBytes s chunk in socket_settle (S (held_bytes r.1)) r.
Fixpoint socket_write_all (s : VerserBrokerSocket) (chunks : list bytes) : VerserBrokerSocket * result exn bool :=
  match chunks with
  | [] => (s, Ok true)
  | chunk :: chunks => match socket_write s chunk with (s, Ok true) => socket_write_all s chunks | r => r end
  end.
(** [_final]: no more bytes will come. *)
Definition socket_final (s : VerserBrokerSocket) : VerserBrokerSocket :=
  match sk_bodyStream s with
  | Some body => with_body s (body_end body) (sk_chunkDecoder s) (sk_receivedBodyBytes s)
  | None => s
  end.
End Requests.
End Socket.

(** ** The response head *)
Definition latin1_encode (s : jsstring) : bytes := map (fun c => c mod 256) s.
Definition serializeHttpResponseHead (statusCode : jsnum) (headers : HeaderRecord) (statusText : option jsstring)
    (headerPairs : option (list VerserHeaderPair)) : bytes :=
  let rawPairs := default headers headerPairs in
  let headerLines := map (fun p : jsstring * jsstring => p.1 ++ js ": " ++ p.2) rawPairs in
  let reasonPhrase := default [] statusText in
  let allLines := (js "HTTP/1.1 " ++ num_to_string statusCode ++ js " " ++ reasonPhrase) :: headerLines in
  latin1_encode (join CRLF allLines ++ CRLF ++ CRLF).

(** The socket's way with the decoder: a write that is not accepted waits for a
    drain, which flushes, until the stream accepts. *)
Section Feeding.
Context (accepts : nat -> bool) (options : ChunkedBodyDecoderOptions).
Fixpoint settle (drains : nat) (r : ChunkedBodyDecoder * result exn bool) : ChunkedBodyDecoder * result exn bool :=
  match r, drains with
  | (d, Ok false), S drains => settle drains (flush accepts options d)
  | _, _ => r
  end.
Definition decoder_feed (d : ChunkedBodyDecoder) (chunk : bytes) : ChunkedBodyDecoder * result exn bool :=
  settle (length (cd_pending d ++ chunk)) (decoder_write accepts options d chunk).
Fixpoint decoder_feed_all (d : ChunkedBodyDecoder) (chunks : list bytes) : ChunkedBodyDecoder * result exn bool :=
  match chunks with
  | [] => (d, Ok true)
  | chunk :: chunks => match decoder_feed d chunk with (d, Ok true) => decoder_feed_all d chunks | r => r end
  end.
(** Any writes and drains at all, up to the first throw. *)
Inductive decoder_input : Type := din_write (chunk : bytes) | din_drain.
Definition input_bytes (i : decoder_input) : Z := match i with din_write chunk => len chunk | din_drain => 0 end.
Fixpoint decoder_run (d : ChunkedBodyDecoder) (inputs : list decoder_input) : ChunkedBodyDecoder * result exn unit :=
  match inputs with
  | [] => (d, Ok tt)
  | i :: inputs =>
      match (match i with din_write chunk => decoder_write accepts options d chunk | din_drain => flush accepts options d end) with
      | (d, Ok _) => decoder_run d inputs
      | (d, Throw e) => (d, Throw e)
      end
  end.
End Feeding.
Definition decoder_init : ChunkedBodyDecoder := {| cd_output := body_empty; cd_pending := []; cd_expected := None |}.

(** * Theory of the decoder *)
(** ** What the chunked text of a list of chunks is *)
Definition LAST_CHUNK : bytes := js "0" ++ CRLF ++ CRLF.
Definition crlf_chunk (line data : bytes) : bytes := line ++ CRLF ++ data ++ CRLF.
Definition size_line_of (line data : bytes) : Prop :=
  valid_size_text (ascii_decode line) = true /\ parse_size (ascii_decode line) = len data /\ 0 < len data <= MAX_SAFE_INTEGER.
(** A chunk of at most [bound] bytes, its size line within the limit. *)
Definition chunk_within (options : ChunkedBodyDecoderOptions) (bound : Z) (line data : bytes) : Prop :=
  size_line_of line data /\ len line < maxChunkSizeLineBytes options /\ len (crlf_chunk line data) <= bound.
Inductive chunked (options : ChunkedBodyDecoderOptions) (bound : Z) : list bytes -> bytes -> Prop :=
  | chunked_nil : chunked options bound [] []
  | chunked_cons line data cs text : chunk_within options bound line data -> chunked options bound cs text ->
      chunked options bound (data :: cs) (crlf_chunk line data ++ text).
(** What the rest of the text is while a size line or its data is awaited. *)
Definition awaits (options : ChunkedBodyDecoderOptions) (bound : Z) (expected : option Z) (rest : bytes) (cs : list bytes) : Prop :=
  match expected with
  | None => chunked options bound cs rest
  | Some n => exists data cs' text, cs = data :: cs' /\ rest = data ++ CRLF ++ text /\ len data = n /\ 0 < n /\ n + 2 <= bound /\ chunked options bound cs' text
  end.

Lemma span_hex_app t : t = (span_hex t).1 ++ (span_hex t).2 /\ Forall (fun c => is_hex c = true) (span_hex t).1.
Proof.
  induction t as [|c t [IH1 IH2]]; [done|]. cbn [span_hex]. destruct (is_hex c) eqn:E; [|done].
  destruct (span_hex t) as [h r]. cbn [fst snd] in *. split; [by rewrite IH1 at 1|by constructor].
Qed.

Lemma valid_size_no_cr line : valid_size_text (ascii_decode line) = true -> 13 ∉ line.
Proof.
  unfold valid_size_text. destruct (span_hex (ascii_decode line)) as [h r] eqn:E. intros [_ Hr]%andb_true_iff Hin.
  destruct (span_hex_app (ascii_decode line)) as [Happ Hh]. rewrite E in Happ, Hh. cbn [fst snd] in *.
  assert (13 ∈ ascii_decode line) as H13.
  { unfold ascii_decode. apply list_elem_of_fmap. by exists 13. }
  rewrite Happ in H13. apply elem_of_app in H13 as [H|H].
  - rewrite Forall_forall in Hh. by specialize (Hh _ H).
  - destruct r as [|c r]; [by apply elem_of_nil in H|]. apply andb_true_iff in Hr as [Hc Hr]. apply elem_of_cons in H as [<-|H]; [done|].
    apply Forall_forallb in Hr. rewrite Forall_forall in Hr. by specialize (Hr _ H).
Qed.

Lemma index_of_Some (sub s : list Z) i : index_of sub s = Some i -> exists pre post, s = pre ++ sub ++ post /\ length pre = i.
Proof.
  revert i. induction s as [|c s IH]; intros i; cbn [index_of].
  - destruct (starts_with sub []) eqn:E; [|done]. intros [= <-]. apply starts_with_spec in E as [r E]. by exists [], r.
  - destruct (starts_with sub (c :: s)) eqn:E; [intros [= <-]; apply starts_with_spec in E as [r E]; by exists [], r|].
    intros (j & Hj & ->)%fmap_Some. destruct (IH _ Hj) as (pre & post & -> & <-). by exists (c :: pre), post.
Qed.

Lemma starts_with_app_l sub : forall s t, (length sub <= length s)%nat -> starts_with sub (s ++ t) = starts_with sub s.
Proof. induction sub as [|a sub IH]; intros [|c s] t H; cbn in *; try done; try lia. rewrite IH by lia. done. Qed.

Lemma index_of_app_l (sub s t : list Z) i : index_of sub s = Some i -> index_of sub (s ++ t) = Some i.
Proof.
  intros H. destruct (index_of_Some _ _ _ H) as (pre & post & Es & _).
  assert (length sub <= length s)%nat as Hl by (rewrite Es, !length_app; lia). clear pre post Es. revert i H Hl.
  induction s as [|c s IH]; intros i H Hl.
  - destruct sub; [|cbn in Hl; lia]. destruct t; exact H.
  - cbn [app index_of] in *. change (c :: s ++ t) with ((c :: s) ++ t). rewrite starts_with_app_l by done.
    destruct (starts_with sub (c :: s)); [done|]. apply fmap_Some in H as (j & Hj & ->).
    destruct (index_of_Some _ _ _ Hj) as (pre & post & Es & _). rewrite (IH j Hj); [done|]. rewrite Es, !length_app. lia.
Qed.

Lemma index_of_crlf line r : 13 ∉ line -> index_of CRLF (line ++ CRLF ++ r) = Some (length line).
Proof.
  induction line as [|c line IH]; intros H; [done|]. apply not_elem_of_cons in H as [Hc H].
  change (index_of CRLF ((c :: line) ++ CRLF ++ r)) with
    (if (13 =? c) && starts_with [10] (line ++ CRLF ++ r) then Some 0%nat else S <$> index_of CRLF (line ++ CRLF ++ r)).
  assert ((13 =? c) = false) as -> by lia. cbn [andb]. by rewrite IH.
Qed.

Lemma hex_number_nonneg digits : 0 <= hex_number digits.
Proof.
  unfold hex_number. assert (forall n, 0 <= n -> 0 <= fold_left (fun n c => n * 16 + default 0 (hex_value c)) digits n) as H; [|by apply H].
  induction digits as [|c digits IH]; intros n Hn; [done|]. cbn [fold_left]. apply IH.
  assert (0 <= default 0 (hex_value c)); [|lia]. unfold hex_value, is_digit. repeat case_match; cbn; lia.
Qed.

Section DecoderTheory.
Context (options : ChunkedBodyDecoderOptions).
Implicit Types (accepts : nat -> bool) (d : ChunkedBodyDecoder).
Definition always : nat -> bool := fun _ => true.

(** ** One round *)
(** A size that is being waited for is positive. *)
Definition expecting (d : ChunkedBodyDecoder) : Prop := forall n, cd_expected d = Some n -> 0 < n.

Lemma read_size_spec d d' r : expecting d -> read_size options d = (d', r) ->
  expecting d' /\ (length (cd_pending d') <= length (cd_pending d))%nat /\
  forall x size, r = Ok (sl_size x size) -> x = d' /\ 0 < size /\ cd_expected d' = Some size.
Proof.
  intros Hx. unfold read_size. destruct (cd_expected d) as [size|] eqn:Ee.
  { intros [= <- <-]. split_and!; [done|done|]. intros ? ? [= <- <-]. auto. }
  destruct (index_of CRLF (cd_pending d)) as [i|] eqn:Ei; [|intros [= <- <-]; split_and!; [done|done|by case_match]].
  destruct (_ <? _); [by intros [= <- <-]|]. destruct (negb _); [by intros [= <- <-]|]. cbv zeta.
  assert (expecting (with_pending d (drop (i + 2) (cd_pending d)) None)) as Hnone by done.
  assert (length (drop (i + 2) (cd_pending d)) <= length (cd_pending d))%nat as Hlen by (rewrite length_drop; lia).
  destruct (_ <? _); [by intros [= <- <-]|]. destruct (parse_size _ =? 0) eqn:Ez; intros [= <- <-]; cbn.
  { split_and!; [done|lia|done]. }
  assert (0 < parse_size (ascii_decode (take i (cd_pending d)))).
  { pose proof (hex_number_nonneg (span_hex (ascii_decode (take i (cd_pending d)))).1). unfold parse_size in *. lia. }
  split_and!; [by intros n [= <-]|done|]. intros ? ? [= <- <-]. done.
Qed.

(** ** The fuel is enough *)
Lemma flush_loop_fuel accepts fuel1 : forall fuel2 d, expecting d ->
  (length (cd_pending d) < fuel1)%nat -> (length (cd_pending d) < fuel2)%nat -> flush_loop accepts options fuel1 d = flush_loop accepts options fuel2 d.
Proof.
  induction fuel1 as [|fuel1 IH]; intros fuel2 d Hx H1 H2; [lia|]. destruct fuel2 as [|fuel2]; [lia|]. cbn [flush_loop].
  destruct (len (cd_pending d) =? 0) eqn:E0; [done|]. destruct (read_size options d) as [d' r] eqn:Er.
  destruct (read_size_spec _ _ _ Hx Er) as (Hx' & Hl & Hs). destruct r as [[| |x size]|e]; try done.
  destruct (Hs _ _ eq_refl) as (-> & Hpos & _). destruct (_ <? _) eqn:Elt; [done|].
  destruct (body_write _ _ _) as [output accepted]. destruct accepted; [|done]. unfold len in *.
  apply IH; [done| |]; cbn; rewrite length_drop; lia.
Qed.

(** ** Backpressure changes nothing *)
Lemma settle_done accepts n d r : r <> Ok false -> settle accepts options n (d, r) = (d, r).
Proof. by destruct n, r as [[|]|]. Qed.

Lemma flush_settled accepts n : forall m d, expecting d -> (length (cd_pending d) < n)%nat -> (length (cd_pending d) <= m)%nat ->
  settle accepts options m (flush_loop accepts options n d) = flush_loop always options n d.
Proof.
  induction n as [|n IH]; intros m d Hx Hn Hm; [lia|]. cbn [flush_loop].
  destruct (len (cd_pending d) =? 0) eqn:E0; [by apply settle_done|]. destruct (read_size options d) as [d' r] eqn:Er.
  destruct (read_size_spec _ _ _ Hx Er) as (Hx' & Hl & Hs). destruct r as [[| |x size]|e]; try (by apply settle_done).
  destruct (Hs _ _ eq_refl) as (-> & Hpos & _). destruct (_ <? _) eqn:Elt.
  { apply settle_done. unfold assertPendingWithinLimit. by destruct (negb _). }
  cbn [body_write]. unfold len in *. set (d2 := {| cd_output := _; cd_pending := _; cd_expected := _ |}).
  assert (length (cd_pending d2) + 2 <= length (cd_pending d))%nat as Hd2 by (cbn; rewrite length_drop; lia).
  destruct (accepts _); [apply IH; [done|lia|lia]|]. destruct m as [|m]; [lia|]. cbn [settle always]. unfold flush.
  rewrite (flush_loop_fuel accepts (S (length (cd_pending d2))) n d2) by (done || lia). apply IH; [done|lia|lia].
Qed.

Lemma decoder_feed_always accepts d chunk : expecting d -> decoder_feed accepts options d chunk = decoder_write always options d chunk.
Proof.
  intros Hx. unfold decoder_feed, decoder_write. destruct (assertPendingWithinLimit _ _); [|by apply settle_done].
  by apply flush_settled; [|cbn; lia|cbn; lia].
Qed.

(** ** Bounds *)
Definition decoder_bounded (received : Z) (d : ChunkedBodyDecoder) : Prop :=
  expecting d /\ len (cd_pending d) <= maxPendingBytes options /\
  Forall (fun w => 0 < len w /\ len w + 2 <= maxPendingBytes options) (bd_writes (cd_output d)) /\
  len (concat (bd_writes (cd_output d))) + len (cd_pending d) <= received.

Lemma read_size_bounded received d d' r : decoder_bounded received d -> read_size options d = (d', r) -> is_ok r = true -> decoder_bounded received d'.
Proof.
  intros (Hx & Hp & Hw & Ht) Er _. destruct (read_size_spec _ _ _ Hx Er) as (Hx' & Hl & _).
  assert (bd_writes (cd_output d') = bd_writes (cd_output d)) as Ho.
  { revert Er. unfold read_size. repeat case_match; by intros [= <- _]. }
  unfold decoder_bounded, len in *. rewrite Ho. split_and!; [done|lia|done|lia].
Qed.

Lemma flush_loop_bounded accepts received n : forall d d' b, decoder_bounded received d -> flush_loop accepts options n d = (d', Ok b) -> decoder_bounded received d'.
Proof.
  induction n as [|n IH]; intros d d' b Hd; cbn [flush_loop]; [by intros [= <- _]|].
  destruct (_ =? 0); [by intros [= <- _]|]. destruct (read_size options d) as [d1 r] eqn:Er.
  destruct (read_size_spec _ _ _ (proj1 Hd) Er) as (_ & _ & Hs).
  destruct r as [line|e]; [|done]. pose proof (read_size_bounded _ _ _ _ Hd Er eq_refl) as Hd1.
  destruct line as [| |x size]; [by intros [= <- _]|by intros [= <- _]|]. destruct (Hs _ _ eq_refl) as (-> & Hpos & _).
  destruct (_ <? _) eqn:Elt; [by intros [= <- _]|]. cbn [body_write]. set (d2 := {| cd_output := _; cd_pending := _; cd_expected := _ |}).
  assert (decoder_bounded received d2) as Hd2.
  { destruct Hd1 as (_ & Hp & Hw & Ht). unfold decoder_bounded, len in *. cbn. rewrite length_drop. split_and!; [done|lia| |].
    - apply Forall_app. split; [done|]. apply Forall_singleton. rewrite length_take. lia.
    - rewrite concat_app. cbn [concat]. rewrite app_nil_r, length_app, length_take. lia. }
  destruct (accepts _); [by apply IH|by intros [= <- _]].
Qed.

Lemma decoder_run_bounded accepts inputs : forall received d d', decoder_bounded received d ->
  decoder_run accepts options d inputs = (d', Ok tt) -> decoder_bounded (received + foldr (fun i n => input_bytes i + n) 0 inputs) d'.
Proof.
  induction inputs as [|i inputs IH]; intros received d d' Hd; cbn [decoder_run foldr]; [intros [= <-]; by rewrite Z.add_0_r|].
  destruct (match i with din_write chunk => _ | din_drain => _ end) as [d1 [b|e]] eqn:Ei; [|done].
  assert (decoder_bounded (received + input_bytes i) d1) as Hd1.
  { destruct i as [chunk|]; [|rewrite Z.add_0_r; by eapply flush_loop_bounded]. unfold decoder_write in Ei. cbn [input_bytes].
    destruct (assertPendingWithinLimit _ _) as [[]|e] eqn:Ea; [|done]. eapply flush_loop_bounded; [|exact Ei]. destruct Hd as (Hx & Hp & Hw & Ht).
    unfold assertPendingWithinLimit, throw_if in Ea. cbn in Ea. destruct (_ <=? _) eqn:El; [|done]. unfold decoder_bounded, len in *. cbn.
    pose proof (length_app (cd_pending d) chunk). split_and!; [done|lia|done|lia]. }
  intros H. rewrite Z.add_assoc. by eapply IH.
Qed.

(** C34: The chunked decoder is bounded: after any sequence of writes and drains
    it takes without throwing, and whatever the body stream answers, at most
    [maxPendingBytes] bytes are held, every write to the body is a non-empty
    piece that with its line end fits in [maxPendingBytes], and what was written
    and what is held together are no more than what was received. *)
Theorem decoder_bounds accepts inputs d : 0 <= maxPendingBytes options -> decoder_run accepts options decoder_init inputs = (d, Ok tt) ->
  len (cd_pending d) <= maxPendingBytes options /\
  Forall (fun w => 0 < len w /\ len w + 2 <= maxPendingBytes options) (bd_writes (cd_output d)) /\
  len (concat (bd_writes (cd_output d))) + len (cd_pending d) <= foldr (fun i n => input_bytes i + n) 0 inputs.
Proof.
  intros H0 H. destruct (decoder_run_bounded accepts inputs 0 decoder_init d) as (_ & H1 & H2 & H3); [|done|done].
  split_and!; [done|done|constructor|done].
Qed.

(** ** Decoding is the inverse of the chunked encoding *)
Section RoundTrip.
Context (bound : Z).
Abbreviation awaits := (awaits options bound).

Lemma read_size_awaits d rest cs : awaits (cd_expected d) (cd_pending d ++ rest) cs -> cd_pending d <> [] ->
  (read_size options d = (d, Ok sl_wait) /\ cd_expected d = None /\ len (cd_pending d) < bound /\ rest <> []) \/
  exists data cs' pending, read_size options d = (with_pending d pending (Some (len data)), Ok (sl_size (with_pending d pending (Some (len data))) (len data))) /\
    cs = data :: cs' /\ awaits (Some (len data)) (pending ++ rest) cs /\ (length pending <= length (cd_pending d))%nat.
Proof.
  intros Ha Hp. destruct d as [output pending expected]; cbn in *. unfold read_size; cbn. destruct expected as [n|].
  { destruct Ha as (data & cs' & text & -> & E & <- & H). right. exists data, cs', pending. by split_and!; [|done|exists data, cs', text; naive_solver|]. }
  cbn in Ha. inversion Ha as [E|line data cs' text (Hl & Hline & Hcrlf) Hc E1 E2]; [by destruct pending|].
  subst cs. destruct Hl as (Hv & Hs & Hd). pose proof (valid_size_no_cr _ Hv) as Hcr. unfold crlf_chunk in *. rewrite <- !app_assoc in E2.
  assert (len line + len data + 4 <= bound) as Hb by (unfold len in *; rewrite !length_app in Hcrlf; cbn in Hcrlf; lia).
  destruct (index_of CRLF pending) as [i|] eqn:Ei.
  - right. exists data, cs', (drop (i + 2) pending). destruct (index_of_Some _ _ _ Ei) as (pre & post & Ep & Hpre).
    pose proof (index_of_crlf line (data ++ CRLF ++ text) Hcr) as Hi.
    rewrite E2, (index_of_app_l CRLF pending rest i Ei) in Hi. injection Hi as Hil.
    assert (pre = line) as ->.
    { rewrite Ep, <- !app_assoc in E2. by apply (app_inj_1 line pre) in E2 as [-> _]; [|congruence]. }
    subst pending i. rewrite <- !app_assoc in E2. apply app_inv_head in E2. apply app_inv_head in E2.
    rewrite (take_app_length' line) by done. assert (drop (length line + 2) (line ++ CRLF ++ post) = post) as ->.
    { rewrite app_assoc. apply drop_app_length'. rewrite length_app. done. }
    assert ((maxChunkSizeLineBytes options <? Z.of_nat (length line)) = false) as -> by (unfold len in *; lia).
    rewrite Hv. cbn [negb]. rewrite Hs. assert ((MAX_SAFE_INTEGER <? len data) = false) as -> by lia.
    assert ((len data =? 0) = false) as -> by lia. split_and!; [done|done| |rewrite !length_app; lia].
    exists data, cs', text. split_and!; [done|by rewrite <- E2|done|lia|unfold len in *; lia|done].
  - left. assert (length pending <= length line + 1)%nat as Hlp.
    { destruct (decide (length pending <= length line + 1)%nat) as [|Hgt]; [done|]. exfalso.
      apply (f_equal (take (length pending))) in E2. rewrite take_app_length in E2. rewrite app_assoc in E2.
      rewrite take_app_ge in E2 by (rewrite length_app; cbn; lia). rewrite <- app_assoc in E2. rewrite <- E2 in Ei.
      by rewrite (index_of_crlf line _ Hcr) in Ei. }
    assert ((maxChunkSizeLineBytes options <? len pending) = false) as -> by (unfold len in *; lia).
    split_and!; [done|done|unfold len in *; lia|]. intros ->. rewrite app_nil_r in E2. apply (f_equal length) in E2.
    rewrite !length_app in E2. cbn in E2. lia.
Qed.

Lemma flush_awaits n : 0 < bound -> forall d rest cs, (length (cd_pending d) < n)%nat -> len (cd_pending d) <= maxPendingBytes options ->
  awaits (cd_expected d) (cd_pending d ++ rest) cs ->
  exists sent cs' d', flush_loop always options n d = (d', Ok true) /\ cs = sent ++ cs' /\
    bd_writes (cd_output d') = bd_writes (cd_output d) ++ sent /\ bd_ended (cd_output d') = bd_ended (cd_output d) /\
    awaits (cd_expected d') (cd_pending d' ++ rest) cs' /\ len (cd_pending d') < bound /\ (rest = [] -> cd_pending d' = [] /\ cd_expected d' = None).
Proof.
  intros Hbound. induction n as [|n IH]; intros d rest cs Hn Hm Ha; [lia|]. cbn [flush_loop]. destruct (len (cd_pending d) =? 0) eqn:E0.
  { exists [], cs, d. rewrite !app_nil_r. assert (cd_pending d = []) as Hp by (unfold len in E0; apply nil_length_inv; lia).
    split_and!; try done; [by rewrite Hp|]. intros ->. split; [done|]. rewrite Hp in Ha. destruct (cd_expected d) as [m|]; [|done]. exfalso.
    destruct Ha as (data & ? & ? & _ & E & _). by destruct data. }
  assert (cd_pending d <> []) as Hp by (intros E; by rewrite E in E0).
  destruct (read_size_awaits _ _ _ Ha Hp) as [(-> & He & Hb & Hr)|(data & cs' & pending & -> & -> & Hw & Hl)].
  { exists [], cs, d. rewrite app_nil_r. by split_and!. }
  cbn [cd_pending with_pending]. destruct Hw as (data' & cs'' & text & [= <- <-] & E & _ & Hpos & Hb & Hc).
  destruct (len pending <? len data + 2) eqn:Elt.
  { exists [], (data :: cs'), (with_pending d pending (Some (len data))). unfold assertPendingWithinLimit. cbn.
    assert ((len pending <=? maxPendingBytes options) = true) as -> by (unfold len in *; lia). cbn. rewrite app_nil_r. split_and!; try done.
    - by exists data, cs', text.
    - lia.
    - intros ->. exfalso. rewrite app_nil_r in E. apply (f_equal length) in E. rewrite !length_app in E. change (length CRLF) with 2%nat in E. unfold len in *. lia. }
  assert (exists post, pending = data ++ CRLF ++ post /\ post ++ rest = text) as (post & -> & <-).
  { rewrite app_assoc in E. apply app_eq_inv in E as [(k & E1 & E2)|(k & E1 & E2)].
    - exists k. by rewrite E1, <- app_assoc.
    - exists []. apply (f_equal length) in E1 as El. rewrite !length_app in El. change (length CRLF) with 2%nat in El.
      assert (k = []) as -> by (apply nil_length_inv; unfold len in *; lia). rewrite app_nil_r in E1. split; [by rewrite <- E1|done]. }
  assert (take (Z.to_nat (len data)) (data ++ CRLF ++ post) = data) as -> by (apply take_app_length'; unfold len; lia).
  assert (drop (Z.to_nat (len data + 2)) (data ++ CRLF ++ post) = post) as ->.
  { rewrite app_assoc. apply drop_app_length'. rewrite length_app. unfold len. cbn. lia. }
  cbn [body_write always with_pending cd_output]. set (d2 := {| cd_output := _; cd_pending := _; cd_expected := _ |}).
  rewrite !length_app in Hl. cbn in Hl.
  destruct (IH d2 rest cs') as (sent & cs3 & d' & -> & -> & Hd & Hd2); [cbn; lia|cbn; unfold len in *; lia|done|].
  exists (data :: sent), cs3, d'. split; [done|]. split; [done|]. rewrite Hd. cbn. rewrite <- app_assoc. done.
Qed.

Lemma feed_all_awaits accepts room pieces : 0 < bound -> bound + room <= maxPendingBytes options + 1 -> forall d cs,
  Forall (fun p => len p <= room) pieces -> len (cd_pending d) < bound -> expecting d -> awaits (cd_expected d) (cd_pending d ++ concat pieces) cs ->
  (concat pieces = [] -> cd_pending d = [] /\ cd_expected d = None) ->
  exists d', decoder_feed_all accepts options d pieces = (d', Ok true) /\ bd_writes (cd_output d') = bd_writes (cd_output d) ++ cs /\
    bd_ended (cd_output d') = bd_ended (cd_output d) /\ cd_pending d' = [] /\ cd_expected d' = None.
Proof.
  intros Hbound Hroom. induction pieces as [|p pieces IH]; intros d cs Hp Hb Hx Ha Hend; cbn [decoder_feed_all concat] in *.
  { destruct (Hend eq_refl) as [H1 H2]. rewrite H1, H2 in Ha. inversion Ha as [E|line data cs' text Hl Hc E1 E2]; subst; [|by destruct line].
    exists d. by rewrite app_nil_r. }
  apply Forall_cons in Hp as [Hp Hps]. rewrite decoder_feed_always by done. unfold decoder_write.
  set (d1 := with_pending d _ _). assert (len (cd_pending d1) <= maxPendingBytes options) as Hm by (cbn; unfold len in *; rewrite length_app; lia).
  unfold assertPendingWithinLimit. assert ((len (cd_pending d1) <=? maxPendingBytes options) = true) as -> by lia. cbn [negb throw_if].
  destruct (flush_awaits (S (length (cd_pending d1))) Hbound d1 (concat pieces) cs) as (sent & cs' & d2 & E & -> & Hw & He & Ha2 & Hb2 & Hend2); [lia|done|by cbn; rewrite <- app_assoc|].
  unfold flush. rewrite E. destruct (IH d2 cs' Hps Hb2) as (d' & -> & Hw' & He' & H); [|done|done|].
  { intros n En. rewrite En in Ha2. by destruct Ha2 as (? & ? & ? & _ & _ & _ & ? & _). }
  exists d'. split; [done|]. rewrite Hw', Hw, He', He, app_assoc. done.
Qed.
End RoundTrip.

(** Chunked decoding is the inverse of chunked encoding, under any
    splitting and any backpressure: when a chunked text (any size lines with
    extensions, any non-empty chunks) arrives in pieces of at most [room] bytes,
    its chunks take at most [bound] bytes, and the two fit in the pending limit,
    then whatever the stream answers to each write the body gets exactly the
    chunks, in order, and nothing is held back; the last chunk ends the body. *)
Theorem decoder_chunked_roundtrip accepts bound room (cs : list bytes) (text : bytes) (pieces : list bytes) :
  chunked options bound cs text -> concat pieces = text -> Forall (fun p => len p <= room) pieces ->
  0 < bound -> bound + room <= maxPendingBytes options + 1 -> 5 <= maxPendingBytes options -> 1 <= maxChunkSizeLineBytes options ->
  exists d, decoder_feed_all accepts options decoder_init pieces = (d, Ok true) /\ cd_output d = {| bd_writes := cs; bd_ended := false |} /\
    cd_pending d = [] /\ cd_expected d = None /\
    decoder_feed_all accepts options decoder_init (pieces ++ [LAST_CHUNK]) =
      ({| cd_output := {| bd_writes := cs; bd_ended := true |}; cd_pending := []; cd_expected := None |}, Ok true).
Proof.
  intros Hc Ht Hp Hb Hroom H5 H1.
  destruct (feed_all_awaits bound accepts room pieces Hb Hroom decoder_init cs Hp) as (d & E & Hw & He & Hpe & Hex); [done|done|by rewrite Ht|done|].
  destruct d as [[w e] pending expected]; cbn in Hw, He, Hpe, Hex; subst.
  exists {| cd_output := {| bd_writes := cs; bd_ended := false |}; cd_pending := []; cd_expected := None |}. split_and!; [done|done|done|done|].
  assert (forall pieces d d', decoder_feed_all accepts options d pieces = (d', Ok true) -> decoder_feed_all accepts options d (pieces ++ [LAST_CHUNK]) =
    decoder_feed_all accepts options d' [LAST_CHUNK]) as Happ.
  { clear. induction pieces as [|p pieces IH]; intros d d' H; cbn [decoder_feed_all app] in *; [by injection H as ->|].
    destruct (decoder_feed _ _ d p) as [d1 [[|]|]]; try done. by apply IH. }
  etrans; [exact (Happ _ _ _ E)|]. cbn [decoder_feed_all]. rewrite decoder_feed_always by done. unfold decoder_write, assertPendingWithinLimit.
  cbn [with_pending cd_pending cd_expected cd_output app]. change (len (LAST_CHUNK)) with 5.
  assert ((5 <=? maxPendingBytes options) = true) as -> by lia. cbn [negb throw_if]. unfold flush. cbn [flush_loop]. unfold read_size.
  cbn [with_pending cd_pending cd_expected cd_output app]. change (len (LAST_CHUNK) =? 0) with false.
  change (index_of CRLF (LAST_CHUNK)) with (Some 1%nat). cbn iota.
  change (Z.of_nat 1) with 1.
  assert ((maxChunkSizeLineBytes options <? 1) = false) as -> by lia. done.
Qed.
End DecoderTheory.

(** * Theory of the socket *)
Lemma concat_snoc (l : list bytes) (x : bytes) : concat (l ++ [x]) = concat l ++ x.
Proof. rewrite concat_app. cbn. by rewrite app_nil_r. Qed.

Section SocketTheory.
Context (accepts : nat -> bool) (limits : socket_limits).
Implicit Types (s : VerserBrokerSocket).

(** While a body of a declared length is received: what was written is the
    prefix of the bytes that came, up to the length, and it is ended when the
    length was reached and the last write was accepted. *)
Definition receiving (expected : Z) (received : bytes) (s : VerserBrokerSocket) : Prop :=
  exists body, sk_bodyStream s = Some body /\ sk_chunkDecoder s = None /\ sk_expectedBodyBytes s = expected /\
    concat (bd_writes body) = take (Z.to_nat expected) received /\ sk_receivedBodyBytes s = len (concat (bd_writes body)) /\
    ((forall n, accepts n = true) -> bd_ended body = (expected <=? len received)).

Lemma receiving_bytes expected received chunk s s' r : 0 < expected -> receiving expected received s ->
  writeBodyBytes accepts limits s chunk = (s', r) -> receiving expected (received ++ chunk) s' /\ exists b, r = Ok b.
Proof.
  intros Hpos (body & Hb & Hd & He & Hw & Hr & Hend). unfold writeBodyBytes. rewrite Hb, Hd, He, Hr. assert ((0 <? expected) = true) as -> by lia.
  set (toWrite := take _ chunk).
  assert (concat (bd_writes body) ++ toWrite = take (Z.to_nat expected) (received ++ chunk)) as Htake.
  { rewrite Hw, take_app. unfold toWrite. rewrite Hw. f_equal. f_equal. unfold len. rewrite length_take. lia. }
  assert (len (concat (bd_writes body) ++ toWrite) = len (concat (bd_writes body)) + len toWrite) as Hlen by (unfold len; rewrite length_app; lia).
  assert ((expected <=? len (concat (bd_writes body)) + len toWrite) = (expected <=? len (received ++ chunk))) as Hge.
  { rewrite <- Hlen, Htake. unfold len. rewrite length_take. clear -Hpos. apply Bool.eq_iff_eq_true. rewrite !Z.leb_le. lia. }
  clearbody toWrite.
  assert ((expected <=? len received) = true -> (expected <=? len (received ++ chunk)) = true) as Hmono by (unfold len; rewrite length_app, !Z.leb_le; clear; lia).
  rewrite Hge. assert (forall b, (expected <=? len (received ++ chunk)) = b -> (forall n, accepts n = true) -> (b || bd_ended body) = b) as Hend'.
  { intros b <- Hacc. rewrite (Hend Hacc). destruct (expected <=? len received), (expected <=? len (received ++ chunk)); try done. discriminate Hmono; done. }
  assert (0 < len toWrite \/ toWrite = []) as [Hlt|Hnil] by (destruct toWrite; unfold len; cbn; [by right|left; lia]).
  - assert ((0 <? len toWrite) = true) as -> by lia. cbn [body_write]. destruct (accepts (length (bd_writes body))) eqn:Ea; cbn [negb].
    + destruct (expected <=? len (received ++ chunk)) eqn:Ex; intros [= <- <-]; (split; [|eauto]); eexists; (split_and!; [done|done|done| | |]); cbn [body_end bd_writes bd_ended with_body sk_receivedBodyBytes];
        rewrite ?concat_snoc, ?Ex; try done. intros Hacc. by apply (Hend' false).
    + intros [= <- <-]. split; [|eauto]. eexists. split_and!; [done|done|done| | |]; cbn [bd_writes bd_ended with_body sk_receivedBodyBytes]; rewrite ?concat_snoc; try done.
      intros Hacc. by rewrite Hacc in Ea.
  - subst toWrite. rewrite app_nil_r in *. assert ((0 <? len (@nil Z)) = false) as -> by done. cbn [negb].
    assert (len (concat (bd_writes body)) + len (@nil Z) = len (concat (bd_writes body))) as -> by (unfold len; cbn; lia).
    destruct (expected <=? len (received ++ chunk)) eqn:Ex; intros [= <- <-]; (split; [|eauto]); eexists; (split_and!; [done|done|done| | |]); cbn [body_end bd_writes bd_ended with_body sk_receivedBodyBytes];
      rewrite ?Ex; try done. intros Hacc. by apply (Hend' false).
Qed.

Lemma plain_write s chunk s' b : consumeRequestBytes accepts limits s chunk = (s', Ok b) -> sk_chunkDecoder s' = None -> socket_write accepts limits s chunk = (s', Ok true).
Proof.
  intros E Hd. unfold socket_write. rewrite E. cbn [fst]. unfold held_bytes. rewrite Hd. destruct b; [done|]. cbn [socket_settle]. unfold on_drain. rewrite Hd.
  by destruct (sk_bodyStream s').
Qed.

Lemma receiving_all expected pieces : 0 < expected -> forall received s, receiving expected received s ->
  exists s', socket_write_all accepts limits s pieces = (s', Ok true) /\ receiving expected (received ++ concat pieces) s'.
Proof.
  intros Hpos. induction pieces as [|p pieces IH]; intros received s Hs; cbn [socket_write_all concat]; [exists s; by rewrite app_nil_r|].
  destruct (consumeRequestBytes accepts limits s p) as [s1 r] eqn:E. pose proof E as E2. unfold consumeRequestBytes in E2.
  destruct Hs as (body & Hb & Hs). rewrite Hb in E2. destruct (receiving_bytes expected received p s s1 r Hpos) as [H1 [b ->]]; [by exists body|done|].
  rewrite (plain_write _ _ _ _ E) by (by destruct H1 as (? & ? & ? & _)). destruct (IH _ _ H1) as (s' & E' & Hs'). exists s'. by rewrite app_assoc.
Qed.

(** The head: up to the blank line, and no blank line before. *)
Definition request_head (head : bytes) : Prop := index_of (CRLF ++ CRLF) (head ++ CRLF ++ CRLF) = Some (length head).
Definition reading_head (buffer : bytes) (s : VerserBrokerSocket) : Prop :=
  s = {| sk_requestBuffer := buffer; sk_bodyStream := None; sk_chunkDecoder := None; sk_expectedBodyBytes := 0; sk_receivedBodyBytes := 0; sk_forwardingStarted := false |}.

Lemma head_found head buffer rest body : request_head head -> buffer ++ rest = head ++ CRLF ++ CRLF ++ body ->
  match index_of (CRLF ++ CRLF) buffer with
  | None => len buffer < len head + 4
  | Some i => i = length head /\ exists post, buffer = head ++ CRLF ++ CRLF ++ post /\ body = post ++ rest
  end.
Proof.
  intros Hh E. assert (index_of (CRLF ++ CRLF) (head ++ CRLF ++ CRLF ++ body) = Some (length head)) as Hi.
  { pose proof (index_of_app_l _ _ body _ Hh) as H. by rewrite <- !app_assoc in H. }
  assert (len head + 4 <= len buffer -> exists post, buffer = head ++ CRLF ++ CRLF ++ post /\ body = post ++ rest) as Hlong.
  { intros Hl. rewrite !(app_assoc head), !(app_assoc (head ++ CRLF)) in E. apply app_eq_inv in E as [(k & E1 & E2)|(k & E1 & E2)].
    - exists k. by rewrite E1, <- !app_assoc.
    - exists []. apply (f_equal length) in E1 as El. rewrite !length_app in El. change (length CRLF) with 2%nat in El.
      assert (k = []) as -> by (apply nil_length_inv; unfold len in *; lia). rewrite app_nil_r in E1. by rewrite <- E1, app_nil_r, <- !app_assoc. }
  destruct (index_of (CRLF ++ CRLF) buffer) as [i|] eqn:Eb.
  - rewrite <- E, (index_of_app_l _ _ rest _ Eb) in Hi. injection Hi as ->. split; [done|]. apply Hlong.
    destruct (index_of_Some _ _ _ Eb) as (pre & post & -> & Hp). unfold len. rewrite !length_app. cbn. lia.
  - destruct (decide (len buffer < len head + 4)) as [|H]; [done|]. destruct Hlong as (post & -> & _); [lia|].
    pose proof (index_of_app_l _ _ post _ Hh) as H2. rewrite <- !app_assoc in H2. congruence.
Qed.

Lemma reading_step head body rest buffer p s s1 r : request_head head -> is_chunked head = false -> 0 < parseContentLength head ->
  len (buffer ++ p) <= maxRequestHeaderBytes limits -> (buffer ++ p) ++ rest = head ++ CRLF ++ CRLF ++ body ->
  reading_head buffer s -> consumeRequestBytes accepts limits s p = (s1, r) ->
  (exists b, r = Ok b) /\ sk_chunkDecoder s1 = None /\
  ((reading_head (buffer ++ p) s1 /\ len (buffer ++ p) < len head + 4) \/ exists post, body = post ++ rest /\ receiving (parseContentLength head) post s1).
Proof.
  intros Hh Hch Hpos Hlim E ->. pose proof (head_found head (buffer ++ p) rest body Hh E) as Hf.
  unfold consumeRequestBytes. cbn [sk_bodyStream sk_requestBuffer sk_expectedBodyBytes sk_receivedBodyBytes sk_forwardingStarted].
  assert ((maxRequestHeaderBytes limits <? len (buffer ++ p)) = false) as -> by lia.
  destruct (index_of (CRLF ++ CRLF) (buffer ++ p)) as [i|]; [|intros [= <- <-]; split_and!; [eauto|done|by left]].
  destruct Hf as (-> & post & -> & ->). rewrite (take_app_length' head) by done.
  assert (drop (length head + 4) (head ++ CRLF ++ CRLF ++ post) = post) as ->.
  { rewrite !app_assoc. apply drop_app_length'. rewrite !length_app. change (length CRLF) with 2%nat. lia. }
  rewrite Hch. set (s0 := {| sk_requestBuffer := _; sk_bodyStream := _; sk_chunkDecoder := _; sk_expectedBodyBytes := _; sk_receivedBodyBytes := _; sk_forwardingStarted := _ |}).
  assert (receiving (parseContentLength head) [] s0) as H0.
  { exists body_empty. split_and!; try done; [by rewrite take_nil|]. intros _. cbn. symmetry. apply Z.leb_gt. done. }
  destruct (if 0 <? len post then _ else _) as [s2 r2] eqn:Ew.
  assert (receiving (parseContentLength head) post s2 /\ exists b, r2 = Ok b) as [H2 [b ->]].
  { destruct (0 <? len post) eqn:E0; [by eapply (receiving_bytes _ [] post s0)|]. injection Ew as <- <-.
    assert (post = []) as -> by (apply nil_length_inv; unfold len in E0; lia). eauto. }
  pose proof H2 as (body2 & _ & Hd & He & _). rewrite He. assert ((0 <? parseContentLength head) = true) as -> by lia. cbn [orb].
  intros [= <- <-]. split_and!; [eauto|done|]. right. by exists post.
Qed.

Lemma reading_all head body room pieces : request_head head -> is_chunked head = false -> 0 < parseContentLength head ->
  len head + 3 + room <= maxRequestHeaderBytes limits -> Forall (fun p => len p <= room) pieces -> forall buffer s,
  reading_head buffer s -> len buffer < len head + 4 -> buffer ++ concat pieces = head ++ CRLF ++ CRLF ++ body ->
  exists s', socket_write_all accepts limits s pieces = (s', Ok true) /\ receiving (parseContentLength head) body s'.
Proof.
  intros Hh Hch Hpos Hroom Hp. induction Hp as [|p pieces Hp _ IH]; intros buffer s Hs Hb E; cbn [socket_write_all concat] in *.
  { apply (f_equal length) in E. rewrite !length_app in E. cbn in E. unfold len in *. lia. }
  destruct (consumeRequestBytes accepts limits s p) as [s1 r] eqn:Ec. rewrite app_assoc in E.
  assert (len (buffer ++ p) <= maxRequestHeaderBytes limits) as Hlim by (unfold len in *; rewrite length_app; lia).
  destruct (reading_step head body _ buffer p s s1 r Hh Hch Hpos Hlim E Hs Ec) as ([b ->] & Hd & H). rewrite (plain_write _ _ _ _ Ec Hd).
  destruct H as [[H1 H2]|(post & -> & H1)]; [by eapply IH|by apply receiving_all].
Qed.

(** A request of a declared length is cut the same way however it arrives:
    for every splitting of head, blank line and body into pieces (the head and
    one piece fit in the header limit), and whatever the body stream answers,
    the body stream gets the first content-length bytes of the body, and when it
    takes every write it is ended exactly when the whole length arrived. *)
Theorem socket_body_correct head body room pieces :
  request_head head -> is_chunked head = false -> 0 < parseContentLength head ->
  len head + 3 + room <= maxRequestHeaderBytes limits -> Forall (fun p => len p <= room) pieces -> concat pieces = head ++ CRLF ++ CRLF ++ body ->
  exists s b, socket_write_all accepts limits socket_init pieces = (s, Ok true) /\ sk_bodyStream s = Some b /\
    concat (bd_writes b) = take (Z.to_nat (parseContentLength head)) body /\
    ((forall n, accepts n = true) -> bd_ended b = (parseContentLength head <=? len body)).
Proof.
  intros Hh Hch Hpos Hroom Hp E.
  destruct (reading_all head body room pieces Hh Hch Hpos Hroom Hp [] socket_init) as (s & Es & b & Hb & _ & _ & Hw & _ & Hend); [done|unfold len; cbn; lia|done|].
  by exists s, b.
Qed.
End SocketTheory.

(** * Witnesses and observations *)
Definition sample_options : ChunkedBodyDecoderOptions := {| maxChunkSizeLineBytes := 16; maxPendingBytes := 24 |}.
Definition sample_limits : socket_limits := {| maxRequestHeaderBytes := 64; decoder_options := sample_options |}.
Definition second_refused (n : nat) : bool := negb (n =? 1)%nat.
Definition sample_text : bytes := js "3;a=b" ++ CRLF ++ js "abc" ++ CRLF ++ js "2" ++ CRLF ++ js "de" ++ CRLF.
Definition sample_pieces : list bytes := [js "3;a"; js "=b" ++ [13]; 10 :: js "abc" ++ CRLF ++ js "2"; CRLF ++ js "de" ++ CRLF].

Lemma decoder_chunked_roundtrip_witness :
  exists d, decoder_feed_all second_refused sample_options decoder_init sample_pieces = (d, Ok true) /\
    cd_output d = {| bd_writes := [js "abc"; js "de"]; bd_ended := false |} /\ cd_pending d = [] /\ cd_expected d = None /\
    decoder_feed_all second_refused sample_options decoder_init (sample_pieces ++ [LAST_CHUNK]) =
      ({| cd_output := {| bd_writes := [js "abc"; js "de"]; bd_ended := true |}; cd_pending := []; cd_expected := None |}, Ok true).
Proof.
  apply (decoder_chunked_roundtrip sample_options second_refused 14 11 [js "abc"; js "de"] sample_text sample_pieces).
  - apply (chunked_cons sample_options 14 (js "3;a=b") (js "abc") [js "de"] (js "2" ++ CRLF ++ js "de" ++ CRLF)).
    + by repeat split.
    + apply (chunked_cons sample_options 14 (js "2") (js "de") [] []); [by repeat split|constructor].
  - reflexivity.
  - repeat constructor; vm_compute; discriminate.
  - lia.
  - vm_compute. discriminate.
  - vm_compute. discriminate.
  - vm_compute. discriminate.
Defined.

Lemma decoder_bounds_witness :
  exists d, decoder_run second_refused sample_options decoder_init [din_write (js "3" ++ CRLF ++ js "abc" ++ CRLF ++ js "2" ++ CRLF ++ js "d"); din_drain] = (d, Ok tt) /\
    len (cd_pending d) <= 24.
Proof.
  eexists. split; [vm_compute; reflexivity|].
  refine (proj1 (decoder_bounds sample_options second_refused [din_write (js "3" ++ CRLF ++ js "abc" ++ CRLF ++ js "2" ++ CRLF ++ js "d"); din_drain] _ _ _)).
  - vm_compute. discriminate.
  - vm_compute. reflexivity.
Defined.

Definition sample_head : bytes := js "POST / HTTP/1.1" ++ CRLF ++ js "Content-Length: 4".
Definition sample_request : list bytes := [js "POST / HTTP/1.1" ++ CRLF ++ js "Content"; js "-Length: 4" ++ CRLF ++ [13]; 10 :: js "ab"; js "cdef"].
Lemma socket_body_correct_witness :
  exists s b, socket_write_all always sample_limits socket_init sample_request = (s, Ok true) /\ sk_bodyStream s = Some b /\
    concat (bd_writes b) = js "abcd" /\ ((forall n, always n = true) -> bd_ended b = true).
Proof.
  apply (socket_body_correct always sample_limits sample_head (js "abcdef") 25 sample_request); try (vm_compute; reflexivity).
  - vm_compute. discriminate.
  - repeat constructor; vm_compute; discriminate.
Defined.

(** What the definitions show on inputs the code does not seem to mean. *)
Definition refuse_all (n : nat) : bool := false.
Lemma refused_last_write_never_ends :
  exists s b, socket_write_all refuse_all sample_limits socket_init sample_request = (s, Ok true) /\ sk_bodyStream s = Some b /\
    concat (bd_writes b) = js "abcd" /\ bd_ended b = false.
Proof. eexists _, _. split; [vm_compute; reflexivity|]. by split. Qed.

Lemma split_last_chunk_rejected :
  exists d e, decoder_feed_all always sample_options decoder_init [js "0" ++ CRLF; CRLF] = (d, Throw e) /\ bd_ended (cd_output d) = true.
Proof. eexists _, _. split; [vm_compute; reflexivity|done]. Qed.

Lemma header_limit_counts_body :
  len (sample_head ++ CRLF ++ CRLF) <= maxRequestHeaderBytes sample_limits /\
  exists s e, consumeRequestBytes always sample_limits socket_init (sample_head ++ CRLF ++ CRLF ++ js "012345678901234567890123456789") = (s, Throw e).
Proof. split; [vm_compute; discriminate|]. eexists _, _. vm_compute. reflexivity. Qed.

Lemma content_length_unanchored : parseContentLength (js "POST / HTTP/1.1" ++ CRLF ++ js "X-Content-Length: 5") = 5.
Proof. vm_compute. reflexivity. Qed.

Lemma chunk_end_unchecked :
  exists d, decoder_feed_all always sample_options decoder_init [js "3" ++ CRLF ++ js "abcXY"] = (d, Ok true) /\ bd_writes (cd_output d) = [js "abc"] /\ cd_pending d = [].
Proof. eexists. split; [vm_compute; reflexivity|done]. Qed.
