(* ===== verification/UnauthorizedClient.v ===== *)
(** The gate for sessions without a client certificate (verser2-host
    [unauthorized-client.ts]): one bounded request is read, the configured
    handler answers it once, and the session is closed.

    Each session is a state machine over the events of its streams, its timers
    and its handler; an awaited promise and the code that continues after it are
    one step.  Whether [stream.respond] and [session.goaway] throw is up to the
    platform. *)
From S2P Require Import Prelude JsNum Utf8 Json Errors Headers.

Record UnauthorizedClientGateOptions := {
  maxRequestBodyBytes : Z; maxResponseBodyBytes : Z; requestTimeoutMs : Z; handlerTimeoutMs : Z;
}.
Definition UNAUTHORIZED_CLIENT_HARD_CLOSE_TIMEOUT_MS : Z := 250.

(** [isAuthorizedClientSession]: what the TLS socket says, and the raw peer
    certificate when there is one. *)
Definition isAuthorizedClientSession (authorized : bool) (raw : option bytes) : bool :=
  authorized && match raw with Some raw => 0 <? len raw | None => false end.

(** What a handler may return. *)
Inductive handler_headers : Type := hh_undefined | hh_plain (headers : VerserHeaders) | hh_other.
Inductive handler_body : Type := hb_undefined | hb_string (s : jsstring) | hb_buffer (b : bytes) | hb_other.
Inductive handler_result : Type :=
  | hr_undefined
  | hr_not_object
  | hr_object (statusCode : jsval) (headers : handler_headers) (body : handler_body).

Record request_context := { rq_method : jsstring; rq_path : jsstring; rq_headers : VerserHeaders; rq_body : bytes }.
Definition http2_headers : Type := list (jsstring * jsval).

(** An [UnauthorizedClientFailure] is known by its status; any other error is
    answered with 500. *)
Inductive failure : Type := client_failure (statusCode : Z) (message : jsstring) | other_failure.
Definition failure_status (f : failure) : Z := match f with client_failure statusCode _ => statusCode | other_failure => 500 end.

(** ** Streams and sessions of the platform *)
Record stream_facts := { st_closed : bool; st_destroyed : bool; st_headersSent : bool }.
Definition stream_open : stream_facts := {| st_closed := false; st_destroyed := false; st_headersSent := false |}.
Inductive effect : Type :=
  | ef_goaway
  | ef_handler (context : request_context)
  | ef_respond (stream : nat) (headers : http2_headers)
  | ef_end (stream : nat) (body : option bytes)
  | ef_refuse (stream : nat)
  | ef_abort
  | ef_session_close
  | ef_arm_hard_close
  | ef_session_destroy.

(** Where the one served request is. *)
Inductive stage : Type :=
  | sg_idle
  | sg_reading (stream : nat) (headers : http2_headers) (chunks : list bytes) (totalBytes : Z)
  | sg_handling (stream : nat)
  | sg_done.

(** An [UnauthorizedClientSession] with the session it belongs to. *)
Record client := {
  cl_tracked : bool; cl_claimed : bool; cl_closing : bool; cl_aborted : bool; cl_hardCloseTimer : bool;
  cl_stage : stage;
  cl_session_closed : bool; cl_session_destroyed : bool;
  cl_streams : list (nat * stream_facts);
  cl_log : list effect;
}.
Definition tracked_client : client :=
  {| cl_tracked := true; cl_claimed := false; cl_closing := false; cl_aborted := false; cl_hardCloseTimer := false; cl_stage := sg_idle;
     cl_session_closed := false; cl_session_destroyed := false; cl_streams := []; cl_log := [] |}.
Definition set_flags (c : client) (tracked claimed closing aborted timer : bool) : client :=
  {| cl_tracked := tracked; cl_claimed := claimed; cl_closing := closing; cl_aborted := aborted; cl_hardCloseTimer := timer; cl_stage := cl_stage c;
     cl_session_closed := cl_session_closed c; cl_session_destroyed := cl_session_destroyed c; cl_streams := cl_streams c; cl_log := cl_log c |}.
Definition set_stage (c : client) (s : stage) : client :=
  {| cl_tracked := cl_tracked c; cl_claimed := cl_claimed c; cl_closing := cl_closing c; cl_aborted := cl_aborted c; cl_hardCloseTimer := cl_hardCloseTimer c; cl_stage := s;
     cl_session_closed := cl_session_closed c; cl_session_destroyed := cl_session_destroyed c; cl_streams := cl_streams c; cl_log := cl_log c |}.
Definition set_session (c : client) (closed destroyed : bool) : client :=
  {| cl_tracked := cl_tracked c; cl_claimed := cl_claimed c; cl_closing := cl_closing c; cl_aborted := cl_aborted c; cl_hardCloseTimer := cl_hardCloseTimer c; cl_stage := cl_stage c;
     cl_session_closed := closed; cl_session_destroyed := destroyed; cl_streams := cl_streams c; cl_log := cl_log c |}.
Definition set_stream (c : client) (s : nat) (f : stream_facts) : client :=
  {| cl_tracked := cl_tracked c; cl_claimed := cl_claimed c; cl_closing := cl_closing c; cl_aborted := cl_aborted c; cl_hardCloseTimer := cl_hardCloseTimer c; cl_stage := cl_stage c;
     cl_session_closed := cl_session_closed c; cl_session_destroyed := cl_session_destroyed c; cl_streams := map_set s f (cl_streams c); cl_log := cl_log c |}.
Definition emit (c : client) (e : effect) : client :=
  {| cl_tracked := cl_tracked c; cl_claimed := cl_claimed c; cl_closing := cl_closing c; cl_aborted := cl_aborted c; cl_hardCloseTimer := cl_hardCloseTimer c; cl_stage := cl_stage c;
     cl_session_closed := cl_session_closed c; cl_session_destroyed := cl_session_destroyed c; cl_streams := cl_streams c; cl_log := cl_log c ++ [e] |}.
Definition stream_of (c : client) (s : nat) : stream_facts := default stream_open (map_get s (cl_streams c)).

Section Gate.
Context {P : Platform} (gate : UnauthorizedClientGateOptions).
(** Whether [stream.respond] throws, by its argument. *)
Context (respond_throws : http2_headers -> bool).

Definition isReservedUnauthorizedClientPath (path : jsstring) : bool := str_eqb path (js "/verser") || starts_with (js "/verser/") path.

Definition refuseUnauthorizedClientStream (c : client) (s : nat) : client :=
  let f := stream_of c s in
  if st_closed f || st_destroyed f then c
  else emit (set_stream c s {| st_closed := true; st_destroyed := st_destroyed f; st_headersSent := st_headersSent f |}) (ef_refuse s).

Definition abort (c : client) : client :=
  if cl_aborted c then c else emit (set_flags c (cl_tracked c) (cl_claimed c) (cl_closing c) true (cl_hardCloseTimer c)) ef_abort.

Definition closeUnauthorizedClientSession (c : client) : client :=
  if cl_closing c then c
  else
    let c := abort (set_flags c (cl_tracked c) (cl_claimed c) true (cl_aborted c) (cl_hardCloseTimer c)) in
    if cl_session_destroyed c then c
    else
      let c := if cl_session_closed c then c else emit (set_session c true (cl_session_destroyed c)) ef_session_close in
      emit (set_flags c (cl_tracked c) (cl_claimed c) (cl_closing c) (cl_aborted c) true) ef_arm_hard_close.

(** The pseudo-header value as the handler's context has it. *)
Definition header_text (name : jsstring) (headers : http2_headers) : jsstring := to_str (nullish (prop name headers) (JStr [])).
Definition getUnauthorizedClientRequestHeaders (headers : http2_headers) : VerserHeaders :=
  fold_left (fun ordinaryHeaders '(name, value) =>
    if starts_with (js ":") name || is_undef value then ordinaryHeaders
    else obj_assign name (match value with JArr l => JArr (map (fun e => JStr (to_str e)) l) | _ => JStr (to_str value) end) ordinaryHeaders) headers [].

(** ** The response *)
Definition fail500 {A} (message : string) : failure + A := inl (client_failure 500 (js message)).
#[local] Arguments fail500 {A} message%_string.
Definition valid_status (statusCode : jsval) : option jsnum :=
  match statusCode with
  | JNum n => if negb (is_safe_integer n) || num_ltz n 100 || negb (num_ltz n 600) then None else Some n
  | _ => None
  end.
Definition response_body (body : handler_body) : option bytes :=
  match body with
  | hb_undefined => Some []
  | hb_string s => Some (utf8_encode s)
  | hb_buffer b => Some b
  | hb_other => None
  end.
(** From the body on: its size, then the headers. *)
Definition checked_response (status : jsnum) (headers : VerserHeaders) (body : handler_body) : failure + (http2_headers * bytes) :=
  match response_body body with
  | None => fail500 "Unauthorized client handler returned an invalid body"
  | Some body =>
      if maxResponseBodyBytes gate <? len body then fail500 "Unauthorized client response body exceeds the configured limit"
      else
        match validateVerserHeaders headers with
        | Throw _ => inl other_failure
        | Ok validated =>
            let responseHeaders := filter (fun p => p.1 <> js "content-length") (sanitizeHttp2ResponseHeaders validated) in
            inr ((js ":status", JNum status) :: map (fun p => (p.1, JStr p.2)) responseHeaders ++
                   [(js "content-length", JStr (num_to_string (num_int (len body))))], body)
        end
  end.
Definition response_of (result : handler_result) : failure + (http2_headers * bytes) :=
  match result with
  | hr_undefined | hr_not_object => fail500 "Unauthorized client handler returned an invalid result"
  | hr_object statusCode headers body =>
      match valid_status statusCode with
      | None => fail500 "Unauthorized client handler returned an invalid status code"
      | Some status =>
          match headers with
          | hh_other => fail500 "Unauthorized client handler returned invalid headers"
          | hh_undefined => checked_response status [] body
          | hh_plain headers => checked_response status headers body
          end
      end
  end.
Definition can_answer (f : stream_facts) : bool := negb (st_closed f || st_destroyed f || st_headersSent f).
Definition respond (c : client) (s : nat) (headers : http2_headers) (body : option bytes) : client :=
  let f := stream_of c s in
  emit (emit (set_stream c s {| st_closed := st_closed f; st_destroyed := st_destroyed f; st_headersSent := true |}) (ef_respond s headers)) (ef_end s body).
Definition writeUnauthorizedClientResponse (c : client) (s : nat) (result : handler_result) : client * option failure :=
  match response_of result with
  | inl f => (c, Some f)
  | inr (headers, body) =>
      if negb (can_answer (stream_of c s)) then (c, None)
      else if respond_throws headers then (c, Some other_failure)
      else (respond c s headers (Some body), None)
  end.
Definition failure_headers (statusCode : Z) : http2_headers :=
  [(js ":status", JNum (num_int statusCode)); (js "content-length", JStr (js "0"))].
Definition sendUnauthorizedClientFailure (c : client) (s : nat) (statusCode : Z) : client :=
  if negb (can_answer (stream_of c s)) then c
  else if respond_throws (failure_headers statusCode) then refuseUnauthorizedClientStream c s
  else respond c s (failure_headers statusCode) None.

(** ** The first stream *)
(** The [catch] and the [finally] of [handleUnauthorizedClientFirstStream]. *)
Definition first_stream_failed (c : client) (s : nat) (f : failure) : client :=
  let facts := stream_of c s in
  if negb (cl_session_closed c) && negb (cl_session_destroyed c) && negb (st_closed facts) && negb (st_destroyed facts) then
    let c := sendUnauthorizedClientFailure c s (failure_status f) in
    if failure_status f =? 408 then refuseUnauthorizedClientStream c s else c
  else c.
Definition first_stream_done (c : client) : client := closeUnauthorizedClientSession (set_stage c sg_done).
Definition fail_first_stream (c : client) (s : nat) (f : failure) : client := first_stream_done (first_stream_failed c s f).

(** The body was read: the handler is called, unless the session was aborted. *)
Definition request_read (c : client) (s : nat) (headers : http2_headers) (body : bytes) : client :=
  if cl_aborted c then first_stream_done c
  else set_stage (emit c (ef_handler {| rq_method := header_text (js ":method") headers; rq_path := header_text (js ":path") headers;
                                         rq_headers := getUnauthorizedClientRequestHeaders headers; rq_body := body |})) (sg_handling s).
(** The handler's promise settled: [None] when it rejected. *)
Definition handler_settled (c : client) (s : nat) (result : option handler_result) : client :=
  match result with
  | None => fail_first_stream c s (client_failure 500 (js "Unauthorized client handler failed"))
  | Some result =>
      if cl_aborted c then first_stream_done c
      else match result with
           | hr_undefined => first_stream_done (refuseUnauthorizedClientStream c s)
           | _ =>
               let '(c, failed) := writeUnauthorizedClientResponse c s result in
               match failed with Some f => fail_first_stream c s f | None => first_stream_done c end
           end
  end.

Definition handleUnauthorizedClientFirstStream (c : client) (s : nat) (headers : http2_headers) : client :=
  if cl_aborted c then fail_first_stream c s (client_failure 408 (js "Unauthorized client request was cancelled"))
  else set_stage c (sg_reading s headers [] 0).

(** [handleStream]: whether the gate took the stream. *)
Definition handleStream (c : client) (s : nat) (headers : http2_headers) (goaway_throws : bool) : client * bool :=
  if negb (cl_tracked c) then (c, false)
  else if cl_claimed c then (refuseUnauthorizedClientStream c s, true)
  else
    let c := set_flags c (cl_tracked c) true (cl_closing c) (cl_aborted c) (cl_hardCloseTimer c) in
    if isReservedUnauthorizedClientPath (header_text (js ":path") headers) then (closeUnauthorizedClientSession (refuseUnauthorizedClientStream c s), true)
    else if goaway_throws then (closeUnauthorizedClientSession c, true)
    else (handleUnauthorizedClientFirstStream (emit c ef_goaway) s headers, true).

(** The controller's abort reaches the reader or the handler's promise. *)
Definition on_abort (c : client) : client :=
  match cl_stage c with
  | sg_reading s _ _ _ => fail_first_stream c s (client_failure 408 (js "Unauthorized client request was cancelled"))
  | sg_handling s => fail_first_stream c s (client_failure 408 (js "Unauthorized client handler was cancelled"))
  | _ => c
  end.
(** The session's close: it is forgotten and what runs for it is aborted. *)
Definition handleSessionClose (c : client) : client * bool :=
  if negb (cl_tracked c) then (c, false)
  else
    let aborted := cl_aborted c in
    let c := abort (set_flags c false (cl_claimed c) (cl_closing c) (cl_aborted c) false) in
    (if aborted then c else on_abort c, true).

(** ** Events *)
Inductive event : Type :=
  | ev_stream (s : nat) (headers : http2_headers) (goaway_throws : bool)
  | ev_data (chunk : bytes) | ev_end | ev_aborted | ev_error | ev_close
  | ev_request_timeout
  | ev_handler (result : option handler_result)
  | ev_handler_timeout
  | ev_hard_close
  | ev_session_close
  (** the platform: a stream or the session closes by itself *)
  | ev_stream_facts (s : nat) (closed destroyed : bool)
  | ev_session_facts (closed destroyed : bool).

Definition read_failure (c : client) (statusCode : Z) (message : string) : client :=
  match cl_stage c with sg_reading s _ _ _ => fail_first_stream c s (client_failure statusCode (js message)) | _ => c end.
#[local] Arguments read_failure c statusCode message%_string.

Definition client_step (c : client) (e : event) : client :=
  match e with
  | ev_stream s headers goaway_throws => fst (handleStream c s headers goaway_throws)
  | ev_data chunk =>
      match cl_stage c with
      | sg_reading s headers chunks totalBytes =>
          let totalBytes := totalBytes + len chunk in
          if maxRequestBodyBytes gate <? totalBytes then read_failure c 413 "Unauthorized client request body exceeds the configured limit"
          else set_stage c (sg_reading s headers (chunks ++ [chunk]) totalBytes)
      | _ => c
      end
  | ev_end => match cl_stage c with sg_reading s headers chunks _ => request_read c s headers (concat chunks) | _ => c end
  | ev_aborted => read_failure c 400 "Unauthorized client request was aborted"
  | ev_error => read_failure c 400 "Unauthorized client request failed"
  | ev_close => read_failure c 400 "Unauthorized client request closed before completion"
  | ev_request_timeout => read_failure c 408 "Unauthorized client request timed out"
  | ev_handler result => match cl_stage c with sg_handling s => handler_settled c s result | _ => c end
  | ev_handler_timeout =>
      match cl_stage c with
      | sg_handling s => fail_first_stream (abort c) s (client_failure 500 (js "Unauthorized client handler timed out"))
      | _ => c
      end
  | ev_hard_close =>
      if cl_hardCloseTimer c then
        let c := set_flags c (cl_tracked c) (cl_claimed c) (cl_closing c) (cl_aborted c) false in
        if cl_session_destroyed c then c else emit (set_session c (cl_session_closed c) true) ef_session_destroy
      else c
  | ev_session_close => fst (handleSessionClose c)
  | ev_stream_facts s closed destroyed =>
      let f := stream_of c s in
      set_stream c s {| st_closed := st_closed f || closed; st_destroyed := st_destroyed f || destroyed; st_headersSent := st_headersSent f |}
  | ev_session_facts closed destroyed => set_session c (cl_session_closed c || closed) (cl_session_destroyed c || destroyed)
  end.
Definition client_run (c : client) (events : list event) : client := fold_left client_step events c.

(** ** The gate: its sessions *)
Definition UnauthorizedClientGate : Type := list (nat * client).
Definition trackSession (g : UnauthorizedClientGate) (session : nat) : UnauthorizedClientGate := map_set session tracked_client g.
Definition hasSession (g : UnauthorizedClientGate) (session : nat) : bool := match map_get session g with Some c => cl_tracked c | None => false end.
Inductive gate_event : Type := ge_track (session : nat) | ge_event (session : nat) (e : event).
Definition gate_step (g : UnauthorizedClientGate) (e : gate_event) : UnauthorizedClientGate :=
  match e with
  | ge_track session => trackSession g session
  | ge_event session e => match map_get session g with Some c => map_set session (client_step c e) g | None => g end
  end.
Definition gate_run (events : list gate_event) : UnauthorizedClientGate := fold_left gate_step events [].
End Gate.

(** * Theory *)
Definition is_handler (e : effect) : bool := match e with ef_handler _ => true | _ => false end.
Definition is_respond (e : effect) : bool := match e with ef_respond _ _ => true | _ => false end.
Definition count (p : effect -> bool) (l : list effect) : nat := length (List.filter p l).
#[global] Arguments count : simpl never.
Lemma count_app p l k : count p (l ++ k) = (count p l + count p k)%nat.
Proof. unfold count. by rewrite List.filter_app, length_app. Qed.
Lemma count_cons p e l : count p (e :: l) = ((if p e then 1 else 0) + count p l)%nat.
Proof. unfold count. cbn. by destruct (p e). Qed.
Lemma count_nil p : count p [] = 0%nat.
Proof. done. Qed.

Section Theory.
Context {P : Platform} (gate : UnauthorizedClientGateOptions) (respond_throws : http2_headers -> bool).
Abbreviation step := (client_step gate respond_throws).

(** What the gate may do: call the handler with a request within the bound that
    is not for the protocol, and answer within the bound. *)
Definition effect_ok (e : effect) : Prop :=
  match e with
  | ef_handler q => len (rq_body q) <= maxRequestBodyBytes gate /\ isReservedUnauthorizedClientPath (rq_path q) = false
  | ef_end _ (Some body) => len body <= maxResponseBodyBytes gate
  | _ => True
  end.

(** The same client but for streams and harmless effects. *)
Record quiet (c c' : client) : Prop := {
  q_tracked : cl_tracked c' = cl_tracked c; q_claimed : cl_claimed c' = cl_claimed c; q_closing : cl_closing c' = cl_closing c;
  q_aborted : cl_aborted c' = cl_aborted c; q_timer : cl_hardCloseTimer c' = cl_hardCloseTimer c; q_stage : cl_stage c' = cl_stage c;
  q_closed : cl_session_closed c' = cl_session_closed c; q_destroyed : cl_session_destroyed c' = cl_session_destroyed c;
  q_handlers : count is_handler (cl_log c') = count is_handler (cl_log c);
  q_log : Forall effect_ok (cl_log c) -> Forall effect_ok (cl_log c');
}.
Definition answers (c : client) : nat := count is_respond (cl_log c).
Definition calls (c : client) : nat := count is_handler (cl_log c).

Lemma refuse_quiet c s : quiet c (refuseUnauthorizedClientStream c s) /\ answers (refuseUnauthorizedClientStream c s) = answers c.
Proof.
  unfold refuseUnauthorizedClientStream, answers. destruct (_ || _); [by split|]. cbn. rewrite count_app, count_cons, count_nil. cbn. split; [|lia].
  split; try done; cbn; [rewrite count_app, count_cons, count_nil; cbn; lia|]. intros H. apply Forall_app. by split; [|repeat constructor].
Qed.

Lemma respond_quiet c s headers body : (forall b, body = Some b -> len b <= maxResponseBodyBytes gate) ->
  quiet c (respond c s headers body) /\ answers (respond c s headers body) = S (answers c).
Proof.
  intros Hb. unfold respond, answers. cbn. rewrite !count_app, !count_cons, !count_nil. cbn. split; [|lia]. split; try done; cbn.
  - rewrite !count_app, !count_cons, !count_nil. cbn. lia.
  - intros H. rewrite !Forall_app. split_and!; [done|by repeat constructor|]. constructor; [|constructor]. destruct body; [by apply Hb|done].
Qed.

Lemma quiet_trans c1 c2 c3 : quiet c1 c2 -> quiet c2 c3 -> quiet c1 c3.
Proof. intros [] []. split; try congruence. auto. Qed.
Lemma quiet_refl c : quiet c c.
Proof. by split. Qed.

Lemma response_of_bound result headers body : response_of gate result = inr (headers, body) -> len body <= maxResponseBodyBytes gate.
Proof.
  unfold response_of, checked_response, fail500. intros H. repeat case_match; try discriminate H; injection H as <- <-; lia.
Qed.

Lemma send_failure_quiet c s statusCode : quiet c (sendUnauthorizedClientFailure respond_throws c s statusCode) /\
  (answers (sendUnauthorizedClientFailure respond_throws c s statusCode) <= S (answers c))%nat.
Proof.
  unfold sendUnauthorizedClientFailure. destruct (negb _); [split; [apply quiet_refl|lia]|]. destruct (respond_throws _).
  - destruct (refuse_quiet c s) as [? ->]. by split; [|lia].
  - destruct (respond_quiet c s (failure_headers statusCode) (@None bytes) ltac:(done)) as [H1 H2]. split; [done|lia].
Qed.

Lemma failed_quiet c s f : quiet c (first_stream_failed respond_throws c s f) /\ (answers (first_stream_failed respond_throws c s f) <= S (answers c))%nat.
Proof.
  unfold first_stream_failed. destruct (_ && _); [|split; [apply quiet_refl|lia]].
  destruct (send_failure_quiet c s (failure_status f)) as [H1 H2]. destruct (_ =? 408); [|done].
  destruct (refuse_quiet (sendUnauthorizedClientFailure respond_throws c s (failure_status f)) s) as [H3 ->]. split; [by eapply quiet_trans|done].
Qed.

Lemma write_quiet c s result c' f : writeUnauthorizedClientResponse gate respond_throws c s result = (c', f) ->
  quiet c c' /\ match f with Some _ => answers c' = answers c | None => (answers c' <= S (answers c))%nat end.
Proof.
  unfold writeUnauthorizedClientResponse. destruct (response_of gate result) as [e|[headers body]] eqn:E.
  { intros [= <- <-]. split; [apply quiet_refl|done]. }
  destruct (negb _); [intros [= <- <-]; split; [apply quiet_refl|lia]|]. destruct (respond_throws _); intros [= <- <-]; [split; [apply quiet_refl|done]|].
  destruct (respond_quiet c s headers (Some body)) as [H1 H2]; [intros b [= <-]; by eapply response_of_bound|]. split; [done|lia].
Qed.

(** ** The invariant *)
Definition closing_ok (c : client) : Prop :=
  cl_closing c = true -> cl_aborted c = true /\ (cl_session_closed c = true \/ cl_session_destroyed c = true) /\
    (cl_hardCloseTimer c = true \/ cl_session_destroyed c = true \/ cl_tracked c = false).
Record client_inv (c : client) : Prop := {
  i_stage : match cl_stage c with
            | sg_idle => calls c = 0%nat /\ answers c = 0%nat /\ (cl_claimed c = true -> cl_closing c = true)
            | sg_reading _ headers chunks total => cl_claimed c = true /\ calls c = 0%nat /\ answers c = 0%nat /\ total = len (concat chunks) /\
                total <= maxRequestBodyBytes gate /\ isReservedUnauthorizedClientPath (header_text (js ":path") headers) = false
            | sg_handling _ => cl_claimed c = true /\ calls c = 1%nat /\ answers c = 0%nat
            | sg_done => cl_claimed c = true /\ (calls c <= 1)%nat /\ (answers c <= 1)%nat /\ cl_closing c = true
            end;
  i_log : Forall effect_ok (cl_log c);
  i_closing : closing_ok c;
}.

Lemma quiet_closing c c' : quiet c c' -> closing_ok c -> closing_ok c'.
Proof. intros []. unfold closing_ok. by rewrite q_closing0, q_aborted0, q_closed0, q_destroyed0, q_timer0, q_tracked0. Qed.

(** What closing leaves: everything but the flags, and the flags as promised. *)
Lemma close_facts c : let c' := closeUnauthorizedClientSession c in
  cl_stage c' = cl_stage c /\ cl_claimed c' = cl_claimed c /\ calls c' = calls c /\ answers c' = answers c /\
  (Forall effect_ok (cl_log c) -> Forall effect_ok (cl_log c')) /\ cl_closing c' = true /\ (closing_ok c -> closing_ok c').
Proof.
  cbn zeta. unfold closeUnauthorizedClientSession, abort, calls, answers, closing_ok. destruct (cl_closing c) eqn:Ec; [by rewrite Ec|].
  cbn. destruct (cl_aborted c) eqn:Ea; cbn; destruct (cl_session_destroyed c) eqn:Ed; cbn; destruct (cl_session_closed c) eqn:Es; cbn;
    rewrite ?count_app, ?count_cons, ?count_nil; cbn;
    (split_and!; [done|done|lia|lia| |done|intros _ _; split_and!; auto]; rewrite ?Forall_app; intros H; split_and?; try done; by repeat constructor).
Qed.

Lemma done_inv c : cl_claimed c = true -> (calls c <= 1)%nat -> (answers c <= 1)%nat -> Forall effect_ok (cl_log c) -> closing_ok c -> client_inv (first_stream_done c).
Proof.
  intros H0 H1 H2 H3 H4. unfold first_stream_done. destruct (close_facts (set_stage c sg_done)) as (Hs & Hk & Hc & Ha & Hl & Hcl & Hok). split.
  - rewrite Hs, Hk, Hc, Ha. done.
  - by apply Hl.
  - by apply Hok.
Qed.

Lemma fail_inv c s f : cl_claimed c = true -> (calls c <= 1)%nat -> answers c = 0%nat -> Forall effect_ok (cl_log c) -> closing_ok c -> client_inv (fail_first_stream respond_throws c s f).
Proof.
  intros H0 H1 H2 H3 H4. unfold fail_first_stream. destruct (failed_quiet c s f) as [Hq Ha]. apply done_inv.
  - by rewrite (q_claimed _ _ Hq).
  - unfold calls in *. rewrite (q_handlers _ _ Hq). done.
  - lia.
  - by apply (q_log _ _ Hq).
  - by eapply quiet_closing.
Qed.

Lemma quiet_inv c c' : quiet c c' -> answers c' = answers c -> client_inv c -> client_inv c'.
Proof.
  intros Hq Ha [H1 H2 H3]. split; [|by apply (q_log _ _ Hq)|by eapply quiet_closing].
  destruct Hq. unfold calls in *. by rewrite q_stage0, Ha, q_handlers0, q_claimed0, q_closing0.
Qed.

Lemma stage_facts c : client_inv c -> match cl_stage c with sg_reading _ _ _ _ | sg_handling _ => cl_claimed c = true /\ (calls c <= 1)%nat /\ answers c = 0%nat | _ => True end.
Proof. intros [H _ _]. destruct (cl_stage c); [done|destruct H as (? & ? & ? & _)|destruct H as (? & ? & ?)|done]; (split_and!; [done|lia|lia]). Qed.

Lemma settled_inv c s result : client_inv c -> cl_stage c = sg_handling s -> client_inv (handler_settled gate respond_throws c s result).
Proof.
  intros Hi Hs. pose proof (stage_facts c Hi) as Hf. rewrite Hs in Hf. destruct Hf as (H0 & H1 & H2). destruct Hi as [_ H3 H4]. unfold handler_settled.
  destruct result as [result|]; [|by apply fail_inv]. destruct (cl_aborted c); [apply done_inv; [done|done|lia|done|done]|].
  assert (client_inv (let '(c, failed) := writeUnauthorizedClientResponse gate respond_throws c s result in
    match failed with Some f => fail_first_stream respond_throws c s f | None => first_stream_done c end)) as Hw.
  { destruct (writeUnauthorizedClientResponse gate respond_throws c s result) as [c' [f|]] eqn:Ew; destruct (write_quiet _ _ _ _ _ Ew) as [Hq Ha];
      (assert (calls c' <= 1)%nat by (unfold calls in *; by rewrite (q_handlers _ _ Hq)));
      [apply fail_inv|apply done_inv]; try done; try lia; try (by rewrite (q_claimed _ _ Hq)); try (by apply (q_log _ _ Hq)); by eapply quiet_closing. }
  destruct result; [|done|done]. destruct (refuse_quiet c s) as [Hq Ha]. apply done_inv; [by rewrite (q_claimed _ _ Hq)| |lia|by apply (q_log _ _ Hq)|by eapply quiet_closing].
  unfold calls in *. by rewrite (q_handlers _ _ Hq).
Qed.

Lemma abort_keeps c : calls (abort c) = calls c /\ answers (abort c) = answers c /\ cl_stage (abort c) = cl_stage c /\ cl_claimed (abort c) = cl_claimed c /\
  (Forall effect_ok (cl_log c) -> Forall effect_ok (cl_log (abort c))) /\ (closing_ok c -> closing_ok (abort c)).
Proof.
  unfold abort, calls, answers, closing_ok. destruct (cl_aborted c) eqn:E; [rewrite E; split_and!; auto|]. cbn. rewrite !count_app, !count_cons, !count_nil. cbn.
  split_and!; [lia|lia|done|done| |intros H1 H2; split; [done|by apply H1]]. intros H. apply Forall_app. by split; [|repeat constructor].
Qed.

Lemma read_failure_inv c statusCode message : client_inv c -> client_inv (read_failure respond_throws c statusCode message).
Proof.
  intros Hi. pose proof (stage_facts c Hi) as Hf. unfold read_failure. destruct (cl_stage c); try done. destruct Hf as (? & ? & ?). destruct Hi. by apply fail_inv.
Qed.

Lemma handle_stream_inv c s headers goaway_throws : 0 <= maxRequestBodyBytes gate -> client_inv c ->
  client_inv (handleStream respond_throws c s headers goaway_throws).1.
Proof.
  intros Hmax Hi. unfold handleStream. destruct (cl_tracked c) eqn:Et; cbn [negb fst]; [|done]. destruct (cl_claimed c) eqn:Ek; cbn [fst].
  { destruct (refuse_quiet c s) as [Hq Ha]. by eapply quiet_inv. }
  destruct Hi as [Hs Hl Hc]. destruct (cl_stage c) eqn:Es; try (destruct Hs as (? & _); congruence). destruct Hs as (H1 & H2 & _).
  set (c1 := set_flags _ _ _ _ _ _). assert (closing_ok c1) as Hc1 by (revert Hc; unfold closing_ok; cbn; by rewrite Et).
  assert (forall c2, quiet c1 c2 -> answers c2 = 0%nat -> client_inv (closeUnauthorizedClientSession c2)) as Hclose.
  { intros c2 Hq Ha. destruct (close_facts c2) as (Hs2 & Hk2 & Hc2 & Ha2 & Hl2 & Hcl2 & Hok2). split.
    - rewrite Hs2, (q_stage _ _ Hq), Hc2, Ha2. cbn. rewrite Es. split_and!; [|done|done]. unfold calls. by rewrite (q_handlers _ _ Hq).
    - by apply Hl2, (q_log _ _ Hq).
    - apply Hok2. by eapply quiet_closing. }
  destruct (isReservedUnauthorizedClientPath _) eqn:Er; cbn [fst].
  { destruct (refuse_quiet c1 s) as [Hq Ha]. apply Hclose; [done|]. by rewrite Ha. }
  destruct goaway_throws; cbn [fst]; [apply Hclose; [apply quiet_refl|done]|].
  unfold handleUnauthorizedClientFirstStream.
  assert (calls (emit c1 ef_goaway) = 0%nat /\ answers (emit c1 ef_goaway) = 0%nat /\ Forall effect_ok (cl_log (emit c1 ef_goaway))) as (Hg1 & Hg2 & Hg3).
  { unfold calls, answers in *. cbn. rewrite !count_app, !count_cons, !count_nil. cbn. split_and!; [lia|lia|]. apply Forall_app. by split; [|repeat constructor]. }
  destruct (cl_aborted _) eqn:Eb; [apply fail_inv; [done|lia|done|done|done]|]. split; [|done|done]. cbn. split_and!; try done. 
Qed.

Lemma step_inv c e : 0 <= maxRequestBodyBytes gate -> client_inv c -> client_inv (step c e).
Proof.
  intros Hmax Hi. pose proof (stage_facts c Hi) as Hf. destruct e as [s headers g|chunk| | | | | |result| | | |s closed destroyed|closed destroyed]; cbn [client_step].
  - by apply handle_stream_inv.
  - destruct (cl_stage c) as [|s headers chunks total| |] eqn:Es; try done. destruct (_ <? _) eqn:El; [by apply read_failure_inv|].
    destruct Hi as [Hs Hl Hc]. rewrite Es in Hs. destruct Hs as (? & ? & ? & -> & ? & ?). split; [|done|done]. cbn. split_and!; try done; [|lia].
    rewrite concat_app. unfold len. rewrite length_app. cbn. rewrite app_nil_r. lia.
  - destruct (cl_stage c) as [|s headers chunks total| |] eqn:Es; try done. destruct Hi as [Hs Hl Hc]. rewrite Es in Hs.
    destruct Hs as (H1 & H2 & H3 & -> & H4 & H5). unfold request_read. destruct (cl_aborted c); [apply done_inv; [done|lia|lia|done|done]|].
    split; [|cbn; apply Forall_app; by split; [|repeat constructor]|done]. unfold calls, answers in *. cbn. rewrite !count_app, !count_cons, !count_nil. cbn.
    split_and!; [done|lia|lia].
  - by apply read_failure_inv.
  - by apply read_failure_inv.
  - by apply read_failure_inv.
  - by apply read_failure_inv.
  - destruct (cl_stage c) as [| |s|] eqn:Es; try done. by apply settled_inv.
  - destruct (cl_stage c) as [| |s|] eqn:Es; try done. destruct Hf as (H0 & H1 & H2). destruct Hi as [_ Hl Hc].
    destruct (abort_keeps c) as (Ha1 & Ha2 & Ha3 & Ha4 & Ha5 & Ha6). apply fail_inv; [by rewrite Ha4|lia|lia|by apply Ha5|by apply Ha6].
  - destruct (cl_hardCloseTimer c) eqn:Et; [|done]. destruct Hi as [Hs Hl Hc]. destruct (cl_session_destroyed _) eqn:Ed; cbn in Ed.
    + split; [exact Hs|done|]. intros H. destruct (Hc H) as (? & ? & _). cbn. auto.
    + split; [|cbn; apply Forall_app; by split; [|repeat constructor]|].
      * unfold calls, answers in *. cbn. rewrite !count_app, !count_cons, !count_nil. cbn. rewrite !Nat.add_0_r. exact Hs.
      * intros H. destruct (Hc H) as (? & ? & _). cbn. auto.
  - unfold handleSessionClose. destruct (cl_tracked c); cbn [negb fst]; [|done]. set (c1 := set_flags _ _ _ _ _ _).
    destruct (abort_keeps c1) as (Ha1 & Ha2 & Ha3 & Ha4 & Ha5 & Ha6). destruct Hi as [Hs Hl Hc].
    assert (closing_ok c1) as Hc1 by (intros H; destruct (Hc H) as (? & ? & _); cbn; auto).
    assert (client_inv (abort c1)) as Hi1.
    { split; [|by apply Ha5|by apply Ha6]. rewrite Ha1, Ha2, Ha3, Ha4. unfold abort. destruct (cl_aborted c1); exact Hs. }
    destruct (cl_aborted c); [done|]. pose proof (stage_facts _ Hi1) as Hf1. destruct Hi1 as [Hs1 Hl1 Hc1']. unfold on_abort.
    destruct (cl_stage (abort c1)) eqn:Es1; try (destruct Hf1 as (? & ? & ?); by apply fail_inv); (split; [by rewrite Es1|done|done]).
  - split; [exact (i_stage _ Hi)|exact (i_log _ Hi)|exact (i_closing _ Hi)].
  - destruct Hi as [Hs Hl Hc]. split; [exact Hs|exact Hl|]. intros H. destruct (Hc H) as (? & Hcl & Ht). cbn. rewrite !orb_true_iff. split_and!; tauto.
Qed.

Lemma client_run_inv events c : 0 <= maxRequestBodyBytes gate -> client_inv c -> client_inv (client_run gate respond_throws c events).
Proof. intros Hmax. unfold client_run. revert c. induction events as [|e events IH]; intros c Hi; cbn; [done|]. by apply IH, step_inv. Qed.

Lemma tracked_inv : client_inv tracked_client.
Proof. split; [done|constructor|done]. Qed.

(** ** Sessions do not affect each other *)
Lemma gate_step_get g e session :
  map_get session (gate_step gate respond_throws g e) =
    match e with
    | ge_track session' => if decide (session = session') then Some tracked_client else map_get session g
    | ge_event session' e => if decide (session = session') then (fun c => step c e) <$> map_get session g else map_get session g
    end.
Proof.
  destruct e as [session'|session' e]; cbn [gate_step].
  - unfold trackSession. rewrite map_get_set. by destruct (decide _).
  - destruct (decide (session = session')) as [<-|Hne].
    + destruct (map_get session g) eqn:E; cbn; [by rewrite map_get_set, decide_True|done].
    + destruct (map_get session' g) eqn:E; [by rewrite map_get_set, decide_False|done].
Qed.

Lemma gate_inv events session c : 0 <= maxRequestBodyBytes gate -> map_get session (gate_run gate respond_throws events) = Some c -> client_inv c.
Proof.
  intros Hmax. unfold gate_run. assert (forall g, (forall s c, map_get s g = Some c -> client_inv c) ->
    forall s c, map_get s (fold_left (gate_step gate respond_throws) events g) = Some c -> client_inv c) as H; [|by apply H].
  induction events as [|e events IH]; intros g Hg; cbn [fold_left]; [done|]. apply IH. intros s c'. rewrite gate_step_get.
  destruct e as [s'|s' e]; (destruct (decide _); [|by apply Hg]).
  - intros [= <-]. apply tracked_inv.
  - intros (c0 & Hc0 & ->)%fmap_Some. by apply step_inv; [|eapply Hg].
Qed.

(** C27: Whatever happens on the sessions without a certificate (any events in any
    order on any number of them), each session costs the host at most one call
    of the handler and one answer; the handler sees only a request within the
    body limit that is not for the protocol, and an answered body is within its
    limit. *)
Theorem unauthorized_service_bounded events session c : 0 <= maxRequestBodyBytes gate ->
  map_get session (gate_run gate respond_throws events) = Some c -> (calls c <= 1)%nat /\ (answers c <= 1)%nat /\ Forall effect_ok (cl_log c).
Proof.
  intros Hmax Hg. destruct (gate_inv _ _ _ Hmax Hg) as [Hs Hl _]. destruct (cl_stage c).
  - destruct Hs as (? & ? & _). split_and!; [lia|lia|done].
  - destruct Hs as (_ & ? & ? & _). split_and!; [lia|lia|done].
  - destruct Hs as (_ & ? & ?). split_and!; [lia|lia|done].
  - destruct Hs as (_ & ? & ? & _). by split_and!.
Qed.

(** ** The session ends *)
Lemma fail_stage c s f : cl_stage (fail_first_stream respond_throws c s f) = sg_done.
Proof. unfold fail_first_stream, first_stream_done, closeUnauthorizedClientSession, abort. by repeat case_match. Qed.

Lemma timeouts_settle c : let c' := step (step c ev_request_timeout) ev_handler_timeout in cl_stage c' = sg_idle \/ cl_stage c' = sg_done.
Proof.
  cbn [client_step]. unfold read_failure. destruct (cl_stage c) eqn:E; rewrite ?E, ?fail_stage; rewrite ?fail_stage; auto.
Qed.

Lemma hard_close_facts c : let c' := step c ev_hard_close in
  cl_claimed c' = cl_claimed c /\ cl_closing c' = cl_closing c /\ cl_hardCloseTimer c' = false.
Proof. cbn zeta. cbn [client_step]. by repeat case_match. Qed.

(** A session without a certificate that opened a stream is closed: after any
    events, once the request timeout, the handler timeout and the hard close
    have come, the session is closing, its controller is aborted, the session is
    closed or destroyed, and it is destroyed unless its close was already seen. *)
Theorem unauthorized_session_ends events : 0 <= maxRequestBodyBytes gate ->
  let c := client_run gate respond_throws tracked_client (events ++ [ev_request_timeout; ev_handler_timeout; ev_hard_close]) in
  cl_claimed c = true ->
  cl_closing c = true /\ cl_aborted c = true /\ (cl_session_closed c = true \/ cl_session_destroyed c = true) /\
  (cl_session_destroyed c = true \/ cl_tracked c = false).
Proof.
  intros Hmax c Hk. subst c. unfold client_run in *. rewrite fold_left_app in *. cbn [fold_left] in *.
  set (c0 := fold_left _ events _) in *. set (c2 := step (step c0 ev_request_timeout) ev_handler_timeout) in *.
  assert (client_inv c2) as Hi by (apply step_inv, step_inv; [done|done|by apply client_run_inv; [|apply tracked_inv]]).
  assert (client_inv (step c2 ev_hard_close)) as Hi3 by (by apply step_inv).
  assert (cl_closing (step c2 ev_hard_close) = true) as Hc.
  { destruct (hard_close_facts c2) as (E1 & E2 & _).
    rewrite E2. rewrite E1 in Hk. destruct Hi as [Hs _ _]. destruct (timeouts_settle c0) as [E|E]; fold c2 in E; rewrite E in Hs; [|apply Hs].
    by apply Hs. }
  destruct (i_closing _ Hi3 Hc) as (Ha & Hd & Ht). destruct (hard_close_facts c2) as (_ & _ & E). split_and!; [done|done|done|].
  destruct Ht as [Ht|Ht]; [congruence|done].
Qed.

(** ** One request *)
Lemma reading_run s headers bodies : forall c chunks total, cl_stage c = sg_reading s headers chunks total -> total = len (concat chunks) ->
  len (concat chunks) + len (concat bodies) <= maxRequestBodyBytes gate ->
  client_run gate respond_throws c (map ev_data bodies) = set_stage c (sg_reading s headers (chunks ++ bodies) (len (concat (chunks ++ bodies)))).
Proof.
  unfold client_run. induction bodies as [|b bodies IH]; intros c chunks total Hs -> Hle; cbn [map fold_left].
  { rewrite app_nil_r, <- Hs. by destruct c. }
  assert (len (concat (b :: bodies)) = len b + len (concat bodies)) as Hb by (unfold len; cbn; rewrite length_app; lia).
  assert (len (concat (chunks ++ [b])) = len (concat chunks) + len b) as Hcb by (rewrite concat_app; unfold len; rewrite length_app; cbn; rewrite app_nil_r; lia).
  cbn [client_step]. rewrite Hs. assert ((maxRequestBodyBytes gate <? len (concat chunks) + len b) = false) as -> by (unfold len in *; lia).
  rewrite (IH _ (chunks ++ [b]) (len (concat chunks) + len b)); [|done|lia|lia]. rewrite <- app_assoc. done.
Qed.

(** The one request of a session without a certificate: a body within the
    limit reaches the handler whole, in whatever pieces it came, with the
    request's method, path and ordinary headers; the handler's answer is sent
    with its status, its headers and the length of its body, and the session is
    closed after it. *)
Theorem unauthorized_request_correct s headers bodies result response body :
  isReservedUnauthorizedClientPath (header_text (js ":path") headers) = false ->
  len (concat bodies) <= maxRequestBodyBytes gate ->
  response_of gate result = inr (response, body) -> respond_throws response = false ->
  cl_log (client_run gate respond_throws tracked_client ([ev_stream s headers false] ++ map ev_data bodies ++ [ev_end; ev_handler (Some result)])) =
    [ef_goaway;
     ef_handler {| rq_method := header_text (js ":method") headers; rq_path := header_text (js ":path") headers;
                   rq_headers := getUnauthorizedClientRequestHeaders headers; rq_body := concat bodies |};
     ef_respond s response; ef_end s (Some body); ef_abort; ef_session_close; ef_arm_hard_close].
Proof.
  intros Hr Hb Hres Hthrow. unfold client_run. rewrite !fold_left_app. cbn [fold_left].
  set (c1 := set_stage (emit (set_flags tracked_client true true false false false) ef_goaway) (sg_reading s headers [] 0)).
  assert (step tracked_client (ev_stream s headers false) = c1) as ->.
  { cbn [client_step]. unfold handleStream. cbn [tracked_client cl_tracked cl_claimed negb]. by rewrite Hr. }
  pose proof (reading_run s headers bodies c1 [] 0 eq_refl eq_refl) as Hrun. unfold client_run in Hrun. rewrite Hrun by exact Hb. cbn [client_step].
  cbn [app set_stage cl_stage]. unfold request_read. cbn [cl_aborted c1 set_stage emit set_flags cl_stage cl_log app]. unfold handler_settled. cbn [cl_aborted].
  destruct result as [| |statusCode h b]; [by cbn in Hres|by cbn in Hres|]. unfold writeUnauthorizedClientResponse. rewrite Hres. cbn [stream_of cl_streams map_get default].
  cbn [can_answer stream_open st_closed st_destroyed st_headersSent orb negb]. rewrite Hthrow. reflexivity.
Qed.

(** ** What may be answered *)
Lemma sanitized_names headers : Forall (fun p => isValidHeaderName p.1 = true) headers ->
  Forall (fun p => isValidHeaderName p.1 = true /\ to_lower p.1 ∉ HOP_BY_HOP_HEADERS /\ to_lower p.1 <> VERSER_RESPONSE_METADATA_HEADER) (sanitizeHttp2ResponseHeaders headers).
Proof.
  unfold sanitizeHttp2ResponseHeaders. generalize (record_connection_tokens headers). intros toks Hh.
  match goal with |- Forall ?Q _ => assert (forall acc, Forall Q acc -> Forall Q (fold_left (fun sanitized '(name, value) =>
    match flattenHeaderValue value with
    | None => sanitized
    | Some text => if removed_field toks (to_lower name) then sanitized else obj_assign name text sanitized
    end) headers acc)) as H; [|by apply H] end.
  induction Hh as [|[name value] headers Hn _ IH]; intros acc Ha; [done|]. cbn [fold_left]. apply IH.
  destruct (flattenHeaderValue value); [|done]. destruct (removed_field toks (to_lower name)) eqn:E; [done|]. apply obj_assign_Forall; [|done].
  apply removed_field_false in E as (? & ? & _). done.
Qed.

(** An answer that is sent has an integer status from 100 to 599, a body
    within the limit, its length as the only content-length, and otherwise only
    fields with valid names that are neither hop-by-hop nor the metadata header:
    whatever value the handler returns. *)
Theorem unauthorized_response_safe {HC : CaseMapping} result headers body : response_of gate result = inr (headers, body) ->
  exists n rest, 100 <= n <= 599 /\ len body <= maxResponseBodyBytes gate /\
    headers = (js ":status", JNum (num_int n)) :: map (fun p => (p.1, JStr p.2)) rest ++ [(js "content-length", JStr (num_to_string (num_int (len body))))] /\
    Forall (fun p => isValidHeaderName p.1 = true /\ to_lower p.1 ∉ HOP_BY_HOP_HEADERS /\ to_lower p.1 <> VERSER_RESPONSE_METADATA_HEADER /\ p.1 <> js "content-length") rest.
Proof.
  unfold response_of, fail500. destruct result as [| |statusCode h b]; [done|done|]. destruct (valid_status statusCode) as [status|] eqn:Es; [|done].
  assert (exists z, status = num_int z /\ 100 <= z <= 599) as (z & -> & Hz).
  { unfold valid_status in Es. destruct statusCode as [| | |n| | |]; try done. destruct n as [z| | |]; try (cbn in Es; done).
    destruct (_ || _) eqn:Eb in Es; [done|]. injection Es as <-. cbn in Eb. exists z. split; [done|lia]. }
  intros H. assert (exists given, checked_response gate (num_int z) given b = inr (headers, body)) as [given Hc] by (destruct h; by eauto).
  clear H. unfold checked_response, fail500 in Hc. destruct (response_body b) as [sent|]; [|done]. destruct (_ <? _) eqn:El; [done|].
  destruct (validateVerserHeaders given) as [validated|] eqn:Ev; [|done]. injection Hc as <- <-. eexists z, _. split_and!; [lia|lia|lia|reflexivity|].
  destruct (validated_headers_safe given validated (or_introl Ev)) as [_ Hr].
  apply Forall_forall. intros p [Hne Hp]%list_elem_of_filter. pose proof (sanitized_names validated (Forall_impl _ _ _ Hr (fun p H => proj1 H))) as Hs.
  rewrite Forall_forall in Hs. by destruct (Hs p Hp) as (? & ? & ?).
Qed.
End Theory.

(** ** Witnesses *)
Section Witnesses.
#[local] Existing Instance ascii_platform.
Definition sample_gate : UnauthorizedClientGateOptions :=
  {| maxRequestBodyBytes := 8; maxResponseBodyBytes := 16; requestTimeoutMs := 1000; handlerTimeoutMs := 1000 |}.
Definition respond_ok (h : http2_headers) : bool := false.
Definition sample_headers : http2_headers := [(js ":method", JStr (js "POST")); (js ":path", JStr (js "/help")); (js "x-a", JArr [JStr (js "1"); JStr (js "2")])].
Definition sample_result : handler_result := hr_object (JNum (num_int 401)) (hh_plain [(js "Content-Type", JStr (js "text/plain")); (js "te", JStr (js "x"))]) (hb_string (js "no")).
Definition sample_response : http2_headers :=
  [(js ":status", JNum (num_int 401)); (js "content-type", JStr (js "text/plain")); (js "content-length", JStr (js "2"))].

Lemma unauthorized_request_correct_witness :
  cl_log (client_run sample_gate respond_ok tracked_client
    ([ev_stream 1 sample_headers false] ++ map ev_data [js "ab"; js "cde"] ++ [ev_end; ev_handler (Some sample_result)])) =
    [ef_goaway;
     ef_handler {| rq_method := js "POST"; rq_path := js "/help"; rq_headers := [(js "x-a", JArr [JStr (js "1"); JStr (js "2")])]; rq_body := js "abcde" |};
     ef_respond 1 sample_response; ef_end 1 (Some (js "no")); ef_abort; ef_session_close; ef_arm_hard_close].
Proof.
  apply (unauthorized_request_correct sample_gate respond_ok 1 sample_headers [js "ab"; js "cde"] sample_result sample_response (js "no"));
    vm_compute; first [reflexivity | discriminate].
Defined.

Lemma unauthorized_response_safe_witness :
  exists n rest, 100 <= n <= 599 /\ len (js "no") <= 16 /\
    sample_response = (js ":status", JNum (num_int n)) :: map (fun p => (p.1, JStr p.2)) rest ++ [(js "content-length", JStr (num_to_string (num_int (len (js "no")))))] /\
    Forall (fun p => isValidHeaderName p.1 = true /\ to_lower p.1 ∉ HOP_BY_HOP_HEADERS /\ to_lower p.1 <> VERSER_RESPONSE_METADATA_HEADER /\ p.1 <> js "content-length") rest.
Proof. apply (unauthorized_response_safe sample_gate sample_result sample_response (js "no")). vm_compute. reflexivity. Defined.

Lemma unauthorized_session_ends_witness :
  cl_session_destroyed (client_run sample_gate respond_ok tracked_client ([ev_stream 1 sample_headers false; ev_data (js "a")] ++ [ev_request_timeout; ev_handler_timeout; ev_hard_close])) = true.
Proof.
  destruct (unauthorized_session_ends sample_gate respond_ok [ev_stream 1 sample_headers false; ev_data (js "a")]) as (_ & _ & _ & [H|H]);
    [vm_compute; discriminate|vm_compute; reflexivity|exact H|vm_compute in H; discriminate H].
Defined.

Lemma unauthorized_service_bounded_witness : exists c,
  map_get 7%nat (gate_run sample_gate respond_ok [ge_track 7; ge_event 7 (ev_stream 1 sample_headers false); ge_event 7 ev_end; ge_event 7 (ev_stream 3 sample_headers false); ge_event 7 ev_end]) = Some c /\
  (calls c <= 1)%nat.
Proof.
  eexists. split; [vm_compute; reflexivity|].
  eapply (unauthorized_service_bounded sample_gate respond_ok [ge_track 7; ge_event 7 (ev_stream 1 sample_headers false); ge_event 7 ev_end; ge_event 7 (ev_stream 3 sample_headers false); ge_event 7 ev_end] 7%nat);
    [vm_compute; discriminate|vm_compute; reflexivity].
Defined.
End Witnesses.
