(* ===== verification/DispatchController.v ===== *)
(** The controller of one dispatched request (verser2-guest-node
    [dispatch-controller.ts]): one terminal state, one failure notification, the
    cleanups of the request run once.

    Callbacks of the handler may call the controller again: [invoke] and
    [emitBodySent] take what their callback does as a list of operations.  The
    failure notification is the last thing [abort] does, so what it does with
    the controller comes as the operations that follow. *)
From S2P Require Import Prelude.

Inductive terminal_state : Type := active | failed | completed.
(** Errors, streams and cleanup callbacks are known by their identity. *)
Inductive effect : Type :=
  | ef_signal_abort (reason : nat)
  | ef_cleanup (callback : nat)
  | ef_destroy_request (body reason : nat)
  | ef_destroy_response (body : nat)
  | ef_onResponseError (reason : nat)
  | ef_onError (reason : nat)
  | ef_pause (body : nat)
  | ef_resume (body : nat)
  | ef_onBodySent (chunk total : Z).
Record dispatch_handler := { h_onResponseError : bool; h_onError : bool; h_onBodySent : bool }.

Record VerserDispatchController := {
  terminalState : terminal_state;
  responseBody : option nat; requestBody : option nat;
  listening : list nat;
  pausedState : bool;
  abortReason : option nat;
  failureNotified : bool;
  totalBytesSent : Z;
  cleanupCallbacks : list nat;
  signal_reason : option nat;
  ctl_log : list effect;
}.
Definition controller_init : VerserDispatchController :=
  {| terminalState := active; responseBody := None; requestBody := None; listening := []; pausedState := false; abortReason := None; failureNotified := false;
     totalBytesSent := 0; cleanupCallbacks := []; signal_reason := None; ctl_log := [] |}.
Definition aborted (c : VerserDispatchController) : bool := match terminalState c with failed => true | _ => false end.
Definition is_active (c : VerserDispatchController) : bool := match terminalState c with active => true | _ => false end.

Definition log (e : list effect) (c : VerserDispatchController) : VerserDispatchController :=
  {| terminalState := terminalState c; responseBody := responseBody c; requestBody := requestBody c; listening := listening c; pausedState := pausedState c;
     abortReason := abortReason c; failureNotified := failureNotified c; totalBytesSent := totalBytesSent c; cleanupCallbacks := cleanupCallbacks c;
     signal_reason := signal_reason c; ctl_log := ctl_log c ++ e |}.
Definition with_terminal (t : terminal_state) (reason : option nat) (c : VerserDispatchController) : VerserDispatchController :=
  {| terminalState := t; responseBody := responseBody c; requestBody := requestBody c; listening := listening c; pausedState := pausedState c;
     abortReason := reason; failureNotified := failureNotified c; totalBytesSent := totalBytesSent c; cleanupCallbacks := cleanupCallbacks c;
     signal_reason := signal_reason c; ctl_log := ctl_log c |}.
Definition with_bodies (response request : option nat) (l : list nat) (c : VerserDispatchController) : VerserDispatchController :=
  {| terminalState := terminalState c; responseBody := response; requestBody := request; listening := l; pausedState := pausedState c;
     abortReason := abortReason c; failureNotified := failureNotified c; totalBytesSent := totalBytesSent c; cleanupCallbacks := cleanupCallbacks c;
     signal_reason := signal_reason c; ctl_log := ctl_log c |}.
Definition with_paused (p : bool) (c : VerserDispatchController) : VerserDispatchController :=
  {| terminalState := terminalState c; responseBody := responseBody c; requestBody := requestBody c; listening := listening c; pausedState := p;
     abortReason := abortReason c; failureNotified := failureNotified c; totalBytesSent := totalBytesSent c; cleanupCallbacks := cleanupCallbacks c;
     signal_reason := signal_reason c; ctl_log := ctl_log c |}.
Definition with_cleanups (l : list nat) (c : VerserDispatchController) : VerserDispatchController :=
  {| terminalState := terminalState c; responseBody := responseBody c; requestBody := requestBody c; listening := listening c; pausedState := pausedState c;
     abortReason := abortReason c; failureNotified := failureNotified c; totalBytesSent := totalBytesSent c; cleanupCallbacks := l;
     signal_reason := signal_reason c; ctl_log := ctl_log c |}.
Definition with_signal (reason : nat) (c : VerserDispatchController) : VerserDispatchController :=
  {| terminalState := terminalState c; responseBody := responseBody c; requestBody := requestBody c; listening := listening c; pausedState := pausedState c;
     abortReason := abortReason c; failureNotified := failureNotified c; totalBytesSent := totalBytesSent c; cleanupCallbacks := cleanupCallbacks c;
     signal_reason := Some reason; ctl_log := ctl_log c |}.
Definition with_notified (c : VerserDispatchController) : VerserDispatchController :=
  {| terminalState := terminalState c; responseBody := responseBody c; requestBody := requestBody c; listening := listening c; pausedState := pausedState c;
     abortReason := abortReason c; failureNotified := true; totalBytesSent := totalBytesSent c; cleanupCallbacks := cleanupCallbacks c;
     signal_reason := signal_reason c; ctl_log := ctl_log c |}.
Definition with_sent (total : Z) (c : VerserDispatchController) : VerserDispatchController :=
  {| terminalState := terminalState c; responseBody := responseBody c; requestBody := requestBody c; listening := listening c; pausedState := pausedState c;
     abortReason := abortReason c; failureNotified := failureNotified c; totalBytesSent := total; cleanupCallbacks := cleanupCallbacks c;
     signal_reason := signal_reason c; ctl_log := ctl_log c |}.

Section Controller.
Context (handler : dispatch_handler).
(** A cleanup may dispose of other cleanups while it runs (and may throw, which
    is ignored). *)
Context (disposes : nat -> list nat).

(** The loop over the set: a callback that was deleted meanwhile is not visited. *)
Fixpoint run_cleanups (l left : list nat) : list nat :=
  match l with
  | [] => []
  | callback :: l =>
      if set_has callback left then callback :: run_cleanups l (filter (fun x => x ∉ disposes callback) left)
      else run_cleanups l left
  end.
Definition cleanup (c : VerserDispatchController) : VerserDispatchController :=
  with_cleanups [] (log (map ef_cleanup (run_cleanups (cleanupCallbacks c) (cleanupCallbacks c))) c).

Definition notifyFailure (error : nat) (c : VerserDispatchController) : VerserDispatchController :=
  if failureNotified c then c
  else
    let c := with_notified c in
    if h_onResponseError handler then log [ef_onResponseError error] c
    else if h_onError handler then log [ef_onError error] c else c.
Definition complete (c : VerserDispatchController) : VerserDispatchController :=
  if negb (is_active c) then c else cleanup (with_terminal completed (abortReason c) c).
Definition abort (reason : nat) (c : VerserDispatchController) : VerserDispatchController :=
  if negb (is_active c) then c
  else
    let c := cleanup (log [ef_signal_abort reason] (with_signal reason (with_terminal failed (Some reason) c))) in
    let c := log (match requestBody c with Some body => [ef_destroy_request body reason] | None => [] end) c in
    let c := log (match responseBody c with Some body => [ef_destroy_response body] | None => [] end) c in
    notifyFailure reason c.
Definition attachResponseBody (body : nat) (c : VerserDispatchController) : VerserDispatchController :=
  let c := with_bodies (Some body) (requestBody c) (listening c) c in
  if pausedState c then log [ef_pause body] c else c.
Definition attachRequestBody (body : nat) (c : VerserDispatchController) : VerserDispatchController :=
  if negb (is_active c) then c else with_bodies (responseBody c) (Some body) (set_add body (listening c)) c.
(** The listeners of a request body. *)
Definition onBodyError (body error : nat) (c : VerserDispatchController) : VerserDispatchController :=
  if set_has body (listening c) && is_active c then abort error c else c.
Definition onBodyClose (body : nat) (c : VerserDispatchController) : VerserDispatchController :=
  with_bodies (responseBody c) (requestBody c) (filter (fun b => b <> body) (listening c)) c.
Definition onTerminal (callback : nat) (c : VerserDispatchController) : VerserDispatchController :=
  if negb (is_active c) then log [ef_cleanup callback] c else with_cleanups (set_add callback (cleanupCallbacks c)) c.
(** What [onTerminal] returned. *)
Definition dispose (callback : nat) (c : VerserDispatchController) : VerserDispatchController :=
  with_cleanups (filter (fun x => x <> callback) (cleanupCallbacks c)) c.
Definition pause (c : VerserDispatchController) : VerserDispatchController :=
  log (match responseBody c with Some body => [ef_pause body] | None => [] end) (with_paused true c).
Definition resume (c : VerserDispatchController) : VerserDispatchController :=
  log (match responseBody c with Some body => [ef_resume body] | None => [] end) (with_paused false c).
(** A callback that throws [error] after what it did. *)
Definition after_callback (throws : option nat) (c : VerserDispatchController) : VerserDispatchController :=
  match throws with Some error => abort error c | None => c end.

(** What is done with a controller. *)
Inductive op : Type :=
  | op_attachResponseBody (body : nat)
  | op_attachRequestBody (body : nat)
  | op_bodyError (body error : nat)
  | op_bodyClose (body : nat)
  | op_onTerminal (callback : nat)
  | op_dispose (callback : nat)
  | op_complete
  | op_abort (reason : nat)
  | op_pause
  | op_resume
  | op_invoke (callback : list op) (throws : option nat)
  | op_emitBodySent (bytes : Z) (callback : list op) (throws : option nat).

Fixpoint perform (o : op) (c : VerserDispatchController) {struct o} : VerserDispatchController :=
  let run := fix run l c := match l with [] => c | o :: l => run l (perform o c) end in
  match o with
  | op_attachResponseBody body => attachResponseBody body c
  | op_attachRequestBody body => attachRequestBody body c
  | op_bodyError body error => onBodyError body error c
  | op_bodyClose body => onBodyClose body c
  | op_onTerminal callback => onTerminal callback c
  | op_dispose callback => dispose callback c
  | op_complete => complete c
  | op_abort reason => abort reason c
  | op_pause => pause c
  | op_resume => resume c
  (** [invoke] *)
  | op_invoke callback throws => after_callback throws (run callback c)
  (** [emitBodySent] *)
  | op_emitBodySent bytes callback throws =>
      if negb (is_active c) then c
      else
        let c := with_sent (totalBytesSent c + bytes) c in
        if h_onBodySent handler then after_callback throws (run callback (log [ef_onBodySent bytes (totalBytesSent c)] c)) else c
  end.
Fixpoint perform_all (l : list op) (c : VerserDispatchController) : VerserDispatchController :=
  match l with [] => c | o :: l => perform_all l (perform o c) end.
End Controller.

(** * Theory *)
Section Theory.
Context (handler : dispatch_handler) (disposes : nat -> list nat).
Implicit Types (c : VerserDispatchController).

(** Induction on operations with the operations of their callbacks. *)
Lemma op_nested_ind (Q : op -> Prop) :
  (forall o, match o with op_invoke l _ | op_emitBodySent _ l _ => Forall Q l | _ => True end -> Q o) -> forall o, Q o.
Proof.
  intros H. fix IH 1. intros o. apply H.
  destruct o as [| | | | | | | | | |l t|n l t]; try exact I; induction l as [|o l IHl]; constructor; auto.
Qed.

Lemma perform_run l c :
  (fix run l c := match l with [] => c | o :: l => run l (perform handler disposes o c) end) l c = perform_all handler disposes l c.
Proof. revert c. induction l as [|o l IH]; intros c; cbn; [done|]. apply IH. Qed.

(** A property that every operation of the class preserves is preserved by [perform]. *)
Lemma perform_preserves (R : VerserDispatchController -> VerserDispatchController -> Prop) :
  (forall c, R c c) -> (forall a b c, R a b -> R b c -> R a c) ->
  (forall c body, R c (attachResponseBody body c)) -> (forall c body, R c (attachRequestBody body c)) -> (forall c body, R c (onBodyClose body c)) ->
  (forall c x, R c (onTerminal x c)) -> (forall c x, R c (dispose x c)) -> (forall c, R c (complete disposes c)) -> (forall c e, R c (abort handler disposes e c)) ->
  (forall c, R c (pause c)) -> (forall c, R c (resume c)) ->
  (forall c n, is_active c = true -> R c (with_sent (totalBytesSent c + n) c)) ->
  (forall c n, is_active c = true -> R c (log [ef_onBodySent n (totalBytesSent c + n)] (with_sent (totalBytesSent c + n) c))) ->
  forall o c, R c (perform handler disposes o c).
Proof.
  intros Hrefl Htrans H1 H2 H3 H4 H5 H6 H7 H8 H9 H10 H11. induction o as [o IH] using op_nested_ind. intros c.
  assert (forall l c, Forall (fun o => forall c, R c (perform handler disposes o c)) l -> R c (perform_all handler disposes l c)) as Hall.
  { clear -Hrefl Htrans. induction l as [|o l IHl]; intros c Hl; cbn; [done|]. apply Forall_cons in Hl as [Ho Hl]. eapply Htrans; [apply Ho|by apply IHl]. }
  assert (forall t c, R c (after_callback handler disposes t c)) as Hafter by (intros [e|] c'; cbn; auto).
  destruct o as [| |b e| | | | | | | |l t|n l t]; cbn [perform]; auto; rewrite ?perform_run.
  - unfold onBodyError. destruct (_ && _); auto.
  - eapply Htrans; [by apply Hall|apply Hafter].
  - destruct (is_active c) eqn:Ea; cbn [negb]; [|done]. destruct (h_onBodySent handler); [|by apply H10].
    eapply Htrans; [by apply (H11 c n)|]. eapply Htrans; [by apply Hall|apply Hafter].
Qed.

(** ** One terminal state *)
Definition is_failure (e : effect) : bool :=
  match e with ef_signal_abort _ | ef_destroy_request _ _ | ef_destroy_response _ | ef_onResponseError _ | ef_onError _ => true | _ => false end.
Definition is_cleanup (e : effect) : bool := match e with ef_cleanup _ => true | _ => false end.
Definition failures c : list effect := List.filter is_failure (ctl_log c).
Definition cleanups c : list effect := List.filter is_cleanup (ctl_log c).
Definition notification (reason : nat) : list effect :=
  if h_onResponseError handler then [ef_onResponseError reason] else if h_onError handler then [ef_onError reason] else [].

(** What is true of a controller in each of its states. *)
Definition controller_ok c : Prop :=
  match terminalState c with
  | active => failures c = [] /\ cleanups c = [] /\ abortReason c = None /\ signal_reason c = None /\ failureNotified c = false
  | completed => failures c = [] /\ cleanupCallbacks c = [] /\ abortReason c = None /\ signal_reason c = None
  | failed => exists reason request response, abortReason c = Some reason /\ signal_reason c = Some reason /\ cleanupCallbacks c = [] /\
      failures c = ef_signal_abort reason :: match request with Some body => [ef_destroy_request body reason] | None => [] end ++
        match response with Some body => [ef_destroy_response body] | None => [] end ++ notification reason
  end.
Definition evolves c c' : Prop :=
  (controller_ok c -> controller_ok c') /\ (terminalState c <> active -> terminalState c' = terminalState c /\ abortReason c' = abortReason c).

Lemma failures_log l c : failures (log l c) = failures c ++ List.filter is_failure l.
Proof. unfold failures. cbn. apply List.filter_app. Qed.
Lemma cleanups_log l c : cleanups (log l c) = cleanups c ++ List.filter is_cleanup l.
Proof. unfold cleanups. cbn. apply List.filter_app. Qed.
Lemma no_failures_cleanup l : List.filter is_failure (map ef_cleanup l) = [].
Proof. induction l; cbn; auto. Qed.

Lemma filter_cleanups l : List.filter is_cleanup (map ef_cleanup l) = map ef_cleanup l.
Proof. induction l as [|x l IH]; [done|]. cbn. by rewrite IH. Qed.

(** Changes of the rest of the state, and harmless effects. *)
Lemma evolves_quiet c c' : terminalState c' = terminalState c -> abortReason c' = abortReason c -> signal_reason c' = signal_reason c ->
  failureNotified c' = failureNotified c -> failures c' = failures c -> (terminalState c = active -> cleanups c' = cleanups c) ->
  (terminalState c <> active -> cleanupCallbacks c = [] -> cleanupCallbacks c' = []) -> evolves c c'.
Proof.
  intros E1 E2 E3 E4 E5 E6 E7. split; [|auto]. unfold controller_ok. rewrite E1, E2, E3, E4, E5.
  destruct (terminalState c); [by rewrite E6| |].
  - intros (r & q & p & ? & ? & Hc & ?). exists r, q, p. split_and!; [done|done|by apply E7|done].
  - intros (? & Hc & ? & ?). split_and!; [done|by apply E7|done|done].
Qed.

Lemma notify_facts e c : let c' := notifyFailure handler e c in
  terminalState c' = terminalState c /\ abortReason c' = abortReason c /\ signal_reason c' = signal_reason c /\ cleanupCallbacks c' = cleanupCallbacks c /\
  cleanups c' = cleanups c /\ (failureNotified c = false -> failures c' = failures c ++ notification e).
Proof.
  cbn zeta. unfold notifyFailure, notification. destruct (failureNotified c) eqn:En; [by split_and!|].
  destruct (h_onResponseError handler), (h_onError handler); rewrite ?failures_log, ?cleanups_log, ?app_nil_r; by split_and!.
Qed.

Lemma abort_evolves e c : evolves c (abort handler disposes e c).
Proof.
  unfold abort, is_active. destruct (terminalState c) eqn:Et; cbn [negb]; [|by split|by split]. split; [|congruence].
  unfold controller_ok at 1. rewrite Et. intros (Hf & Hc & Ha & Hs & Hn).
  set (c1 := log _ (log _ (cleanup _ _))). destruct (notify_facts e c1) as (E1 & E2 & E3 & E4 & _ & E5).
  unfold controller_ok. rewrite E1, E2, E3, E4, (E5 Hn). exists e, (requestBody c), (responseBody c). split_and!; [done|done|done|]. unfold c1.
  rewrite !failures_log. unfold cleanup. unfold failures. cbn [ctl_log with_cleanups log with_signal with_terminal cleanupCallbacks requestBody responseBody].
  rewrite !List.filter_app. fold (failures c). rewrite Hf, no_failures_cleanup. cbn.
  destruct (requestBody c), (responseBody c); reflexivity.
Qed.

Lemma complete_evolves c : evolves c (complete disposes c).
Proof.
  unfold complete, is_active. destruct (terminalState c) eqn:Et; cbn [negb]; [|by split|by split]. split; [|congruence].
  unfold controller_ok at 1. rewrite Et. intros (Hf & Hc & Ha & Hs & Hn). unfold controller_ok. cbn. split_and!; [|done|done|done].
  unfold failures. cbn. rewrite List.filter_app, no_failures_cleanup, app_nil_r. exact Hf.
Qed.

Lemma perform_evolves o c : evolves c (perform handler disposes o c).
Proof.
  apply perform_preserves; clear.
  - by split.
  - intros a b c [H1 H2] [H3 H4]. split; [auto|]. intros Ha. destruct (H2 Ha) as [E1 E2]. rewrite <- E1 in Ha. destruct (H4 Ha). split; congruence.
  - intros c body. unfold attachResponseBody. destruct (pausedState _); apply evolves_quiet; try done.
    + by rewrite failures_log, app_nil_r.
    + intros _. by rewrite cleanups_log, app_nil_r.
  - intros c body. unfold attachRequestBody. destruct (negb _); apply evolves_quiet; done.
  - intros c body. apply evolves_quiet; done.
  - intros c x. unfold onTerminal, is_active. destruct (terminalState c) eqn:Et; apply evolves_quiet; try done; rewrite ?Et; try done; try (intros; congruence); cbn [negb]; by rewrite failures_log, app_nil_r.
  - intros c x. apply evolves_quiet; try done. intros _ H. cbn. by rewrite H.
  - apply complete_evolves.
  - intros c e. apply abort_evolves.
  - intros c. unfold pause. apply evolves_quiet; try done; [rewrite failures_log|intros _; rewrite cleanups_log]; destruct (responseBody _); by rewrite app_nil_r.
  - intros c. unfold resume. apply evolves_quiet; try done; [rewrite failures_log|intros _; rewrite cleanups_log]; destruct (responseBody _); by rewrite app_nil_r.
  - intros c n _. by apply evolves_quiet.
  - intros c n _. apply evolves_quiet; try done; [by rewrite failures_log, app_nil_r|intros _; by rewrite cleanups_log, app_nil_r].
Qed.

Lemma perform_all_evolves l c : evolves c (perform_all handler disposes l c).
Proof.
  revert c. induction l as [|o l IH]; intros c; [by split|]. cbn [perform_all]. destruct (perform_evolves o c) as [H1 H2], (IH (perform handler disposes o c)) as [H3 H4].
  split; [auto|]. intros Ha. destruct (H2 Ha) as [E1 E2]. rewrite <- E1 in Ha. destruct (H4 Ha). split; congruence.
Qed.

Lemma reached_ok l : controller_ok (perform_all handler disposes l controller_init).
Proof. destruct (perform_all_evolves l controller_init) as [H _]. by apply H. Qed.

(** A dispatched request ends once: whatever is done with its controller, in
    any order and from inside callbacks, it is active with nothing cleaned up
    and nothing failed, or completed without any failure effect, or failed with
    one reason, which aborted the signal, destroyed the bodies attached then and
    was notified exactly once; a terminal state and its reason never change. *)
Theorem controller_ends_once before after :
  let c := perform_all handler disposes before controller_init in
  let c' := perform_all handler disposes after c in
  controller_ok c /\ controller_ok c' /\ (terminalState c <> active -> terminalState c' = terminalState c /\ abortReason c' = abortReason c).
Proof.
  cbn zeta. destruct (perform_all_evolves after (perform_all handler disposes before controller_init)) as [H1 H2].
  pose proof (reached_ok before). auto.
Qed.

(** ** The cleanups *)
Lemma run_cleanups_spec l : forall left, NoDup l -> let ran := run_cleanups disposes l left in
  NoDup ran /\ (forall x, x ∈ ran -> x ∈ l /\ x ∈ left) /\ (forall x, x ∈ l -> x ∈ left -> x ∈ ran \/ exists y, y ∈ ran /\ x ∈ disposes y).
Proof.
  induction l as [|x l IH]; intros left Hl; cbn [run_cleanups].
  { split_and!; [constructor|by intros x Hx%elem_of_nil|by intros x Hx%elem_of_nil]. }
  apply NoDup_cons in Hl as [Hx Hl]. unfold set_has. case_bool_decide as Hin.
  - destruct (IH (filter (fun y => y ∉ disposes x) left) Hl) as (H1 & H2 & H3). split_and!.
    + apply NoDup_cons. split; [|done]. intros H. by destruct (H2 _ H).
    + intros y [->|Hy]%elem_of_cons; [split; [by left|done]|]. destruct (H2 _ Hy) as [? Hf]. apply list_elem_of_filter in Hf as [_ ?]. split; [by right|done].
    + intros y [->|Hy]%elem_of_cons Hyl; [left; by left|]. destruct (decide (y ∈ disposes x)); [right; exists x; split; [by left|done]|].
      destruct (H3 y Hy) as [?|(z & ? & ?)]; [by apply list_elem_of_filter|left; by right|right; exists z; split; [by right|done]].
  - destruct (IH left Hl) as (H1 & H2 & H3). split_and!; [done| |].
    + intros y Hy. destruct (H2 _ Hy). split; [by right|done].
    + intros y [->|Hy]%elem_of_cons Hyl; [done|]. by apply H3.
Qed.

Lemma perform_all_nodup l c : NoDup (cleanupCallbacks c) -> NoDup (cleanupCallbacks (perform_all handler disposes l c)).
Proof.
  assert (forall o c, NoDup (cleanupCallbacks c) -> NoDup (cleanupCallbacks (perform handler disposes o c))) as H.
  { intros o c0. apply (perform_preserves (fun a b => NoDup (cleanupCallbacks a) -> NoDup (cleanupCallbacks b))); clear; try (intros; cbn; by auto).
    - intros c body H. unfold attachResponseBody. by destruct (pausedState _).
    - intros c body H. unfold attachRequestBody. by destruct (negb _).
    - intros c x H. unfold onTerminal. destruct (negb _); [done|]. cbn. unfold set_add. case_decide; [done|]. apply NoDup_app. split_and!; [done| |apply NoDup_singleton].
      by intros y Hy ->%list_elem_of_singleton.
    - intros c x H. cbn. by apply NoDup_filter.
    - intros c H. unfold complete. destruct (negb _); [done|]. constructor.
    - intros c e H. unfold abort, notifyFailure. repeat case_match; try done; constructor. }
  revert c. induction l as [|o l IH]; intros c Hc; cbn; auto.
Qed.

(** Ending a request, by completion or by failure, runs its cleanups: of the
    cleanups registered and not disposed of when an active controller ends,
    each runs at most once, and each runs unless another one that ran disposed of
    it; none is kept, and one registered later runs at once. *)
Theorem controller_cleanups_run ops e x :
  let c := perform_all handler disposes ops controller_init in
  terminalState c = active ->
  forall c', c' = complete disposes c \/ c' = abort handler disposes e c ->
  exists ran, cleanups c' = map ef_cleanup ran /\ NoDup ran /\ (forall y, y ∈ ran -> y ∈ cleanupCallbacks c) /\
    (forall y, y ∈ cleanupCallbacks c -> y ∈ ran \/ exists z, z ∈ ran /\ y ∈ disposes z) /\
    cleanupCallbacks c' = [] /\ cleanups (onTerminal x c') = cleanups c' ++ [ef_cleanup x].
Proof.
  intros c Ha c' Hc'. pose proof (reached_ok ops) as Hok. fold c in Hok. unfold controller_ok in Hok. rewrite Ha in Hok. destruct Hok as (_ & Hcl & _).
  exists (run_cleanups disposes (cleanupCallbacks c) (cleanupCallbacks c)).
  destruct (run_cleanups_spec (cleanupCallbacks c) (cleanupCallbacks c)) as (H1 & H2 & H3); [apply perform_all_nodup; constructor|].
  assert (List.filter is_cleanup (map ef_cleanup (run_cleanups disposes (cleanupCallbacks c) (cleanupCallbacks c))) =
    map ef_cleanup (run_cleanups disposes (cleanupCallbacks c) (cleanupCallbacks c))) as Hmap by apply filter_cleanups.
  assert (cleanups c' = map ef_cleanup (run_cleanups disposes (cleanupCallbacks c) (cleanupCallbacks c)) /\ cleanupCallbacks c' = [] /\ is_active c' = false) as (E1 & E2 & E3).
  { destruct Hc' as [-> | ->].
    - unfold complete, is_active. rewrite Ha. cbn. split_and!; [|done|done]. unfold cleanups in *. cbn. by rewrite List.filter_app, Hcl, Hmap.
    - unfold abort, is_active. rewrite Ha. cbn [negb]. set (c1 := log _ (log _ (cleanup _ _))).
      assert (cleanupCallbacks c1 = [] /\ terminalState c1 = failed) as [Hc2 Hc3] by done.
      assert (cleanups c1 = map ef_cleanup (run_cleanups disposes (cleanupCallbacks c) (cleanupCallbacks c))) as Hc1.
      { unfold c1, cleanup. rewrite !cleanups_log. unfold cleanups in *. cbn [ctl_log with_cleanups log with_signal with_terminal cleanupCallbacks requestBody responseBody].
        rewrite !List.filter_app, Hcl, Hmap. cbn. destruct (requestBody c), (responseBody c); cbn; by rewrite ?app_nil_r. }
      destruct (notify_facts e c1) as (E1 & _ & _ & E4 & E5 & _). clearbody c1.
      split_and!; [by rewrite E5|by rewrite E4|by rewrite E1, Hc3]. }
  split_and!; [done|done|intros y Hy; by destruct (H2 y Hy)|intros y Hy; by apply H3|done|].
  unfold onTerminal. rewrite E3. cbn [negb]. by rewrite cleanups_log.
Qed.
End Theory.

(** ** Witnesses *)
Definition sample_handler : dispatch_handler := {| h_onResponseError := false; h_onError := true; h_onBodySent := true |}.
Definition sample_ops : list op := [op_attachRequestBody 1; op_onTerminal 10; op_onTerminal 11; op_emitBodySent 5 [op_onTerminal 12] None; op_attachResponseBody 2].
Definition sample_disposes (x : nat) : list nat := if decide (x = 10)%nat then [11%nat] else [].

(** A callback that throws fails the request: its signal and bodies, then one notification. *)
Example throwing_callback :
  ctl_log (perform_all sample_handler sample_disposes (sample_ops ++ [op_invoke [op_pause] (Some 99%nat); op_abort 98; op_onTerminal 13]) controller_init) =
    [ef_onBodySent 5 5; ef_pause 2; ef_signal_abort 99; ef_cleanup 10; ef_cleanup 12; ef_destroy_request 1 99; ef_destroy_response 2; ef_onError 99; ef_cleanup 13].
Proof. vm_compute. reflexivity. Qed.

Lemma controller_cleanups_run_witness :
  exists ran, cleanups (complete sample_disposes (perform_all sample_handler sample_disposes sample_ops controller_init)) = map ef_cleanup ran /\ NoDup ran.
Proof.
  destruct (controller_cleanups_run sample_handler sample_disposes sample_ops 7%nat 8%nat eq_refl _ (or_introl eq_refl)) as (ran & H1 & H2 & _).
  exists ran. split; [exact H1|exact H2].
Defined.
