(* ===== verification/StateError.v ===== *)
(** Stateful code that may throw: the synchronous handlers of the host, the
    guests and the brokers, each run to its end (or to its [await]) at once.

    What a handler changed before it threw stays changed, as in the source. *)
From S2P Require Import Prelude Json Errors.

Definition sm (S A : Type) : Type := S -> result exn A * S.

Section Monad.
Context {S : Type}.
#[export] Instance sm_ret : MRet (sm S) := fun A a s => (Ok a, s).
#[export] Instance sm_bind : MBind (sm S) := fun A B k m s =>
  let '(r, s') := m s in match r with Ok a => k a s' | Throw e => (Throw e, s') end.

Definition sm_throw {A} (e : exn) : sm S A := fun s => (Throw e, s).
Definition sm_lift {A} (r : result exn A) : sm S A := fun s => (r, s).
Definition sm_get {A} (f : S -> A) : sm S A := fun s => (Ok (f s), s).
Definition sm_modify (f : S -> S) : sm S unit := fun s => (Ok tt, f s).
Definition sm_when (b : bool) (m : sm S unit) : sm S unit := if b then m else mret tt.
Definition sm_guard (b : bool) (e : exn) : sm S unit := if b then sm_throw e else mret tt.
Definition sm_if {A} (c : S -> bool) (yes no : sm S A) : sm S A := fun s => if c s then yes s else no s.
Fixpoint sm_each {A} (f : A -> sm S unit) (l : list A) : sm S unit :=
  match l with [] => mret tt | x :: l => _ ← f x; sm_each f l end.
(** An operation on a part of the state. *)
Definition sm_part {T A} (get : S -> T) (set : T -> S -> S) (m : sm T A) : sm S A := fun s =>
  let '(r, t) := m (get s) in (r, set t s).
(** [try { m } catch (e) { handler e }] *)
Definition sm_catch {A} (m : sm S A) (handler : exn -> sm S A) : sm S A := fun s =>
  let '(r, s') := m s in match r with Ok a => (Ok a, s') | Throw e => handler e s' end.

(** ** Specifications *)
Definition wp {A} (m : sm S A) (Post : result exn A -> S -> Prop) (s : S) : Prop := Post (m s).1 (m s).2.
End Monad.

(** * Theory *)
Section Rules.
Context {S : Type}.
Implicit Types (s : S).

Lemma swp_ret {A} (a : A) Post s : Post (Ok a) s -> wp (mret a) Post s.
Proof. done. Qed.
Lemma swp_throw {A} e (Post : result exn A -> S -> Prop) s : Post (Throw e) s -> wp (sm_throw e) Post s.
Proof. done. Qed.
Lemma swp_lift {A} (r : result exn A) Post s : Post r s -> wp (sm_lift r) Post s.
Proof. done. Qed.
Lemma swp_get {A} (f : S -> A) Post s : Post (Ok (f s)) s -> wp (sm_get f) Post s.
Proof. done. Qed.
Lemma swp_modify f Post s : Post (Ok tt) (f s) -> wp (sm_modify f) Post s.
Proof. done. Qed.

Lemma swp_bind {A B} (m : sm S A) (k : A -> sm S B) Post s :
  wp m (fun r s' => match r with Ok a => wp (k a) Post s' | Throw e => Post (Throw e) s' end) s -> wp (x ← m; k x) Post s.
Proof. unfold wp, mbind, sm_bind. by destruct (m s) as [[a|e] s']. Qed.

Lemma swp_mono {A} (m : sm S A) (Post Post' : result exn A -> S -> Prop) s : (forall r s', Post r s' -> Post' r s') -> wp m Post s -> wp m Post' s.
Proof. intros H. apply H. Qed.

Lemma swp_when b m (Post : result exn unit -> S -> Prop) s : (b = true -> wp m Post s) -> (b = false -> Post (Ok tt) s) -> wp (sm_when b m) Post s.
Proof. intros H1 H2. destruct b; [by apply H1|by apply H2]. Qed.

Lemma swp_guard b e (Post : result exn unit -> S -> Prop) s : (b = true -> Post (Throw e) s) -> (b = false -> Post (Ok tt) s) -> wp (sm_guard b e) Post s.
Proof. intros H1 H2. destruct b; [by apply H1|by apply H2]. Qed.

Lemma swp_if {A} c (m n : sm S A) Post s : (c s = true -> wp m Post s) -> (c s = false -> wp n Post s) -> wp (sm_if c m n) Post s.
Proof. unfold wp, sm_if. destruct (c s); auto. Qed.

Lemma swp_catch {A} (m : sm S A) h Post s :
  wp m (fun r s' => match r with Ok a => Post (Ok a) s' | Throw e => wp (h e) Post s' end) s -> wp (sm_catch m h) Post s.
Proof. unfold wp, sm_catch. by destruct (m s) as [[a|e] s']. Qed.

Lemma swp_part {T A} get set (m : sm T A) Post s : wp m (fun r t => Post r (set t s)) (get s) -> wp (sm_part get set m) Post s.
Proof. unfold wp, sm_part. by destruct (m (get s)). Qed.

(** A loop with an invariant of its own. *)
Lemma swp_each {A} (f : A -> sm S unit) (l : list A) (I : S -> Prop) (Post : result exn unit -> S -> Prop) s :
  I s -> (forall x s, x ∈ l -> I s -> wp (f x) (fun r s' => match r with Ok _ => I s' | Throw e => Post (Throw e) s' end) s) ->
  (forall s, I s -> Post (Ok tt) s) -> wp (sm_each f l) Post s.
Proof.
  intros Hs Hf Hp. revert s Hs. induction l as [|x l IH]; intros s Hs; cbn [sm_each]; [by apply swp_ret, Hp|].
  apply swp_bind. eapply swp_mono; [|apply Hf; [by left|exact Hs]]. intros [[]|e] s' H; [|exact H]. apply IH; [|exact H].
  intros y s0 Hy. apply Hf. by right.
Qed.

(** A relation every part of a handler keeps. *)
Definition keeps (R : S -> S -> Prop) {A} (m : sm S A) : Prop := forall s, R s (m s).2.
Section Keeps.
Context (R : S -> S -> Prop) (Hrefl : forall s, R s s) (Htrans : forall a b c, R a b -> R b c -> R a c).
#[local] Set Default Proof Using "Type*".
Lemma keeps_ret {A} (a : A) : keeps R (mret a).
Proof. intros s. apply Hrefl. Qed.
Lemma keeps_throw {A} e : keeps R (@sm_throw S A e).
Proof. intros s. apply Hrefl. Qed.
Lemma keeps_lift {A} (r : result exn A) : keeps R (sm_lift r).
Proof. intros s. apply Hrefl. Qed.
Lemma keeps_get {A} (f : S -> A) : keeps R (sm_get f).
Proof. intros s. apply Hrefl. Qed.
Lemma keeps_modify f : (forall s, R s (f s)) -> keeps R (sm_modify f).
Proof. intros H s. apply H. Qed.
Lemma keeps_bind {A B} (m : sm S A) (k : A -> sm S B) : keeps R m -> (forall a, keeps R (k a)) -> keeps R (x ← m; k x).
Proof.
  intros Hm Hk s. unfold mbind, sm_bind. specialize (Hm s). destruct (m s) as [[a|e] s']; [|exact Hm]. eapply Htrans; [exact Hm|apply Hk].
Qed.
Lemma keeps_when b m : (b = true -> keeps R m) -> keeps R (sm_when b m).
Proof. intros H. destruct b; [by apply H|apply keeps_ret]. Qed.
Lemma keeps_guard b e : keeps R (sm_guard b e).
Proof. destruct b; [apply keeps_throw|apply keeps_ret]. Qed.
Lemma keeps_if {A} c (m n : sm S A) : keeps R m -> keeps R n -> keeps R (sm_if c m n).
Proof. intros Hm Hn s. unfold sm_if. destruct (c s); [apply Hm|apply Hn]. Qed.
Lemma keeps_each {A} (f : A -> sm S unit) l : (forall x, x ∈ l -> keeps R (f x)) -> keeps R (sm_each f l).
Proof.
  intros Hf. induction l as [|x l IH]; cbn [sm_each]; [apply keeps_ret|]. apply keeps_bind; [apply Hf; by left|]. intros _. apply IH. intros y Hy. apply Hf. by right.
Qed.
Lemma keeps_catch {A} (m : sm S A) h : keeps R m -> (forall e, keeps R (h e)) -> keeps R (sm_catch m h).
Proof.
  intros Hm Hh s. unfold sm_catch. specialize (Hm s). destruct (m s) as [[a|e] s']; [exact Hm|]. eapply Htrans; [exact Hm|apply Hh].
Qed.
End Keeps.

(** A computation that returns: its value and final state satisfy [Q]. *)
Definition runs {A} (m : sm S A) s (Q : A -> S -> Prop) : Prop := exists a s', m s = (Ok a, s') /\ Q a s'.
Lemma runs_ret {A} (a : A) s (Q : A -> S -> Prop) : Q a s -> runs (mret a) s Q.
Proof. intros H. by exists a, s. Qed.
Lemma runs_get {A} (f : S -> A) s (Q : A -> S -> Prop) : Q (f s) s -> runs (sm_get f) s Q.
Proof. intros H. by exists (f s), s. Qed.
Lemma runs_modify f s (Q : unit -> S -> Prop) : Q tt (f s) -> runs (sm_modify f) s Q.
Proof. intros H. by exists tt, (f s). Qed.
Lemma runs_lift {A} (r : result exn A) a s (Q : A -> S -> Prop) : r = Ok a -> Q a s -> runs (sm_lift r) s Q.
Proof. intros -> H. by exists a, s. Qed.
Lemma runs_bind {A B} (m : sm S A) (k : A -> sm S B) s (Q : B -> S -> Prop) :
  runs m s (fun a s' => runs (k a) s' Q) -> runs (x ← m; k x) s Q.
Proof. intros (a & s' & Hm & b & s'' & Hk & HQ). exists b, s''. split; [|exact HQ]. unfold mbind, sm_bind. by rewrite Hm. Qed.
Lemma runs_when b m s (Q : unit -> S -> Prop) : (b = true -> runs m s Q) -> (b = false -> Q tt s) -> runs (sm_when b m) s Q.
Proof. destruct b; intros H1 H2; [by apply H1|]. by apply runs_ret, H2. Qed.
Lemma runs_if {A} c (m n : sm S A) s (Q : A -> S -> Prop) : (c s = true -> runs m s Q) -> (c s = false -> runs n s Q) -> runs (sm_if c m n) s Q.
Proof. unfold runs, sm_if. destruct (c s); auto. Qed.
Lemma runs_mono {A} (m : sm S A) s (Q Q' : A -> S -> Prop) : (forall a s', Q a s' -> Q' a s') -> runs m s Q -> runs m s Q'.
Proof. intros H (a & s' & Hm & HQ). exists a, s'. auto. Qed.
Lemma runs_wp {A} (m : sm S A) s (Q : A -> S -> Prop) (Post : result exn A -> S -> Prop) :
  runs m s Q -> (forall a s', Q a s' -> Post (Ok a) s') -> wp m Post s.
Proof. intros (a & s' & Hm & HQ) H. unfold wp. rewrite Hm. by apply H. Qed.
Lemma runs_each {A} (f : A -> sm S unit) (l : list A) (I : list A -> S -> Prop) s (Q : unit -> S -> Prop) :
  I l s -> (forall x k s, I (x :: k) s -> runs (f x) s (fun _ s' => I k s')) -> (forall s, I [] s -> Q tt s) -> runs (sm_each f l) s Q.
Proof.
  intros Hs Hf Hq. revert s Hs. induction l as [|x l IH]; intros t Ht; cbn [sm_each]; [by apply runs_ret, Hq|].
  apply runs_bind. eapply runs_mono; [|by apply Hf]. intros [] s' H. by apply IH.
Qed.
Lemma runs_part {T A} get set (m : sm T A) s a t (Q : A -> S -> Prop) : m (get s) = (Ok a, t) -> Q a (set t s) -> runs (sm_part get set m) s Q.
Proof. intros Hm HQ. exists a, (set t s). unfold sm_part. by rewrite Hm. Qed.
End Rules.
