(* ===== verification/HostPeers.v ===== *)
(** The peers of a host (verser2-host [node-http2-verser-host.ts]): admission of
    remote and local peers, broker groups, degradation and restoration of guest
    routes, revocation, federation membership and shutdown, with the
    advertisement of every change to the brokers and the federated hosts.

    A handler is an operation on the state of the host; one that awaits is cut at
    the [await]: what continues is kept in [ho_waiting] and resumed with the
    answer, so that anything can happen in between.  Listeners of lifecycle
    events and callbacks run as operations of their own. *)
From S2P Require Import Prelude JsNum Utf8 Json Errors Headers ResponseMetadata Routing FederationCommon RouteLifecycle Vws Ndjson RouteRegistry RouteAuthorizer FederationHost LifecycleFlood HostRoutes LocalBroker StateError.

(** ** State *)
Inductive transport : Type := tr_h2 | tr_local.
#[export] Instance transport_eq_dec : EqDecision transport.
Proof. solve_decision. Defined.
(** Sessions and streams are known by numbers. *)
Record RegisteredPeer := {
  rp_role : VerserPeerRole; rp_transport : transport;
  rp_session : option nat; rp_controlStream : option nat;
  rp_localBroker : option LocalBrokerState;
  rp_brokerDomain : option jsstring; rp_brokerFingerprint : option jsstring; rp_brokerRegistrationKey : option jsstring;
}.
(** [VerserHostRegistrationRequest], as its type has it. *)
Record HostRegistration := { hg_peerId : jsstring; hg_role : VerserPeerRole; hg_routedDomains : list jsstring; hg_brokerDomain : option jsstring }.
Record upstream_link := { ul_session : nat; ul_closing : bool }.

(** What is written to a control stream. *)
Inductive control_line : Type :=
  | ln_registered (routes : list RoutedDomainRegistration)
  | ln_routes (routes : list RoutedDomainRegistration)
  | ln_lifecycle (frame : list (jsstring * jsval)).
Definition line_json (l : control_line) : jsval :=
  match l with
  | ln_registered routes => JObj [(js "status", JStr (js "registered")); (js "routes", JArr (map route_json routes))]
  | ln_routes routes => createBrokerRoutesControlFrame routes
  | ln_lifecycle frame => JObj frame
  end.
Inductive lifecycle_name : Type := lc_connected | lc_disconnected | lc_registered | lc_routeAdvertised | lc_error | lc_closed | lc_routeDegraded | lc_routeRestored.
Inductive host_effect : Type :=
  | he_lifecycle (name : lifecycle_name) (peerId : option jsstring) (role : option VerserPeerRole) (reason : option jsstring)
  | he_error (peerId : option jsstring) (error : exn)
  | he_line (stream : nat) (line : control_line)
  | he_respond (stream : nat) (status : Z)
  | he_end (stream : nat) (body : jsval)
  | he_close_stream (stream : nat) | he_close_session (session : nat) | he_destroy_session (session : nat)
  | he_broker (peerId : jsstring) (effects : list broker_effect)
  | he_closeGuestLeases (peerId : jsstring) | he_failLeaseAcquisitions (peerId reason : jsstring)
  | he_closeAllLeases | he_failAllAcquisitions (reason : jsstring)
  | he_abortLocalRequests (peerId : jsstring) | he_abortAllLocalRequests
  | he_failHostWaiters (hostId : jsstring) | he_failAllHostWaiters
  | he_addIdleLease (guestId leaseId : jsstring) (stream : nat).

(** What waits for an answer. *)
Inductive waiting : Type :=
  | wt_register (generation : Z) (peerId : jsstring) (registration : HostRegistration) (stream session : nat)
  | wt_localGuest (generation : Z) (peerId : jsstring) (domains : list jsstring)
  | wt_localBroker (generation : Z) (peerId : jsstring) (brokerDomain : option jsstring)
  | wt_handshakeBody (generation : Z) (stream : nat) (session : option nat)
  | wt_handshake (generation : Z) (hostId : jsstring) (stream session : nat) (reservation : nat)
  | wt_upstream (upstreamId : jsstring) (session : nat) (pooled : bool)
  | wt_upstreamPool (upstreamId : jsstring) (session : nat)
  | wt_revocation (peerId : jsstring) (stream : nat)
  | wt_closeLink (upstreamId : jsstring) (rest : list jsstring) (running : bool) (reason : jsstring).

Record host := {
  ho_routes : host_routes;
  ho_peers : list (jsstring * RegisteredPeer);
  ho_remote : list (jsstring * list (nat * RegisteredPeer));   (** remoteBrokerSessions *)
  ho_generation : Z;
  ho_cleanupTimer : bool;
  ho_running : bool;
  ho_wsIdleLeases : list (jsstring * list nat);
  ho_upstreams : list (jsstring * upstream_link);
  ho_inbound : list (jsstring * nat);                          (** inboundFederationHosts, with the session *)
  ho_pendingUpstream : list jsstring;
  ho_pendingInbound : list (jsstring * nat);
  ho_sessions : list nat;
  ho_closedStreams : list nat; ho_deadSessions : list nat; ho_headersSent : list nat;
  ho_waiting : list (nat * waiting); ho_next : nat;
  ho_log : list host_effect;
}.
Definition upd_routes (f : host_routes -> host_routes) (h : host) : host :=
  {| ho_routes := f (ho_routes h); ho_peers := ho_peers h; ho_remote := ho_remote h; ho_generation := ho_generation h; ho_cleanupTimer := ho_cleanupTimer h;
     ho_running := ho_running h; ho_wsIdleLeases := ho_wsIdleLeases h; ho_upstreams := ho_upstreams h; ho_inbound := ho_inbound h;
     ho_pendingUpstream := ho_pendingUpstream h; ho_pendingInbound := ho_pendingInbound h; ho_sessions := ho_sessions h; ho_closedStreams := ho_closedStreams h;
     ho_deadSessions := ho_deadSessions h; ho_headersSent := ho_headersSent h; ho_waiting := ho_waiting h; ho_next := ho_next h; ho_log := ho_log h |}.
Definition upd_peers (f : list (jsstring * RegisteredPeer) -> list (jsstring * RegisteredPeer)) (h : host) : host :=
  {| ho_routes := ho_routes h; ho_peers := f (ho_peers h); ho_remote := ho_remote h; ho_generation := ho_generation h; ho_cleanupTimer := ho_cleanupTimer h;
     ho_running := ho_running h; ho_wsIdleLeases := ho_wsIdleLeases h; ho_upstreams := ho_upstreams h; ho_inbound := ho_inbound h;
     ho_pendingUpstream := ho_pendingUpstream h; ho_pendingInbound := ho_pendingInbound h; ho_sessions := ho_sessions h; ho_closedStreams := ho_closedStreams h;
     ho_deadSessions := ho_deadSessions h; ho_headersSent := ho_headersSent h; ho_waiting := ho_waiting h; ho_next := ho_next h; ho_log := ho_log h |}.
Definition upd_remote (f : list (jsstring * list (nat * RegisteredPeer)) -> list (jsstring * list (nat * RegisteredPeer))) (h : host) : host :=
  {| ho_routes := ho_routes h; ho_peers := ho_peers h; ho_remote := f (ho_remote h); ho_generation := ho_generation h; ho_cleanupTimer := ho_cleanupTimer h;
     ho_running := ho_running h; ho_wsIdleLeases := ho_wsIdleLeases h; ho_upstreams := ho_upstreams h; ho_inbound := ho_inbound h;
     ho_pendingUpstream := ho_pendingUpstream h; ho_pendingInbound := ho_pendingInbound h; ho_sessions := ho_sessions h; ho_closedStreams := ho_closedStreams h;
     ho_deadSessions := ho_deadSessions h; ho_headersSent := ho_headersSent h; ho_waiting := ho_waiting h; ho_next := ho_next h; ho_log := ho_log h |}.
Definition upd_flags (generation : Z) (timer running : bool) (h : host) : host :=
  {| ho_routes := ho_routes h; ho_peers := ho_peers h; ho_remote := ho_remote h; ho_generation := generation; ho_cleanupTimer := timer;
     ho_running := running; ho_wsIdleLeases := ho_wsIdleLeases h; ho_upstreams := ho_upstreams h; ho_inbound := ho_inbound h;
     ho_pendingUpstream := ho_pendingUpstream h; ho_pendingInbound := ho_pendingInbound h; ho_sessions := ho_sessions h; ho_closedStreams := ho_closedStreams h;
     ho_deadSessions := ho_deadSessions h; ho_headersSent := ho_headersSent h; ho_waiting := ho_waiting h; ho_next := ho_next h; ho_log := ho_log h |}.
Definition upd_ws (f : list (jsstring * list nat) -> list (jsstring * list nat)) (h : host) : host :=
  {| ho_routes := ho_routes h; ho_peers := ho_peers h; ho_remote := ho_remote h; ho_generation := ho_generation h; ho_cleanupTimer := ho_cleanupTimer h;
     ho_running := ho_running h; ho_wsIdleLeases := f (ho_wsIdleLeases h); ho_upstreams := ho_upstreams h; ho_inbound := ho_inbound h;
     ho_pendingUpstream := ho_pendingUpstream h; ho_pendingInbound := ho_pendingInbound h; ho_sessions := ho_sessions h; ho_closedStreams := ho_closedStreams h;
     ho_deadSessions := ho_deadSessions h; ho_headersSent := ho_headersSent h; ho_waiting := ho_waiting h; ho_next := ho_next h; ho_log := ho_log h |}.
Definition upd_federation (upstreams : list (jsstring * upstream_link)) (inbound : list (jsstring * nat)) (pendingUp : list jsstring) (pendingIn : list (jsstring * nat)) (h : host) : host :=
  {| ho_routes := ho_routes h; ho_peers := ho_peers h; ho_remote := ho_remote h; ho_generation := ho_generation h; ho_cleanupTimer := ho_cleanupTimer h;
     ho_running := ho_running h; ho_wsIdleLeases := ho_wsIdleLeases h; ho_upstreams := upstreams; ho_inbound := inbound;
     ho_pendingUpstream := pendingUp; ho_pendingInbound := pendingIn; ho_sessions := ho_sessions h; ho_closedStreams := ho_closedStreams h;
     ho_deadSessions := ho_deadSessions h; ho_headersSent := ho_headersSent h; ho_waiting := ho_waiting h; ho_next := ho_next h; ho_log := ho_log h |}.
Definition upd_streams (closed dead sent : list nat) (h : host) : host :=
  {| ho_routes := ho_routes h; ho_peers := ho_peers h; ho_remote := ho_remote h; ho_generation := ho_generation h; ho_cleanupTimer := ho_cleanupTimer h;
     ho_running := ho_running h; ho_wsIdleLeases := ho_wsIdleLeases h; ho_upstreams := ho_upstreams h; ho_inbound := ho_inbound h;
     ho_pendingUpstream := ho_pendingUpstream h; ho_pendingInbound := ho_pendingInbound h; ho_sessions := ho_sessions h; ho_closedStreams := closed;
     ho_deadSessions := dead; ho_headersSent := sent; ho_waiting := ho_waiting h; ho_next := ho_next h; ho_log := ho_log h |}.
Definition upd_sessions (l : list nat) (h : host) : host :=
  {| ho_routes := ho_routes h; ho_peers := ho_peers h; ho_remote := ho_remote h; ho_generation := ho_generation h; ho_cleanupTimer := ho_cleanupTimer h;
     ho_running := ho_running h; ho_wsIdleLeases := ho_wsIdleLeases h; ho_upstreams := ho_upstreams h; ho_inbound := ho_inbound h;
     ho_pendingUpstream := ho_pendingUpstream h; ho_pendingInbound := ho_pendingInbound h; ho_sessions := l; ho_closedStreams := ho_closedStreams h;
     ho_deadSessions := ho_deadSessions h; ho_headersSent := ho_headersSent h; ho_waiting := ho_waiting h; ho_next := ho_next h; ho_log := ho_log h |}.
Definition upd_waiting (w : list (nat * waiting)) (next : nat) (h : host) : host :=
  {| ho_routes := ho_routes h; ho_peers := ho_peers h; ho_remote := ho_remote h; ho_generation := ho_generation h; ho_cleanupTimer := ho_cleanupTimer h;
     ho_running := ho_running h; ho_wsIdleLeases := ho_wsIdleLeases h; ho_upstreams := ho_upstreams h; ho_inbound := ho_inbound h;
     ho_pendingUpstream := ho_pendingUpstream h; ho_pendingInbound := ho_pendingInbound h; ho_sessions := ho_sessions h; ho_closedStreams := ho_closedStreams h;
     ho_deadSessions := ho_deadSessions h; ho_headersSent := ho_headersSent h; ho_waiting := w; ho_next := next; ho_log := ho_log h |}.
Definition add_log (l : list host_effect) (h : host) : host :=
  {| ho_routes := ho_routes h; ho_peers := ho_peers h; ho_remote := ho_remote h; ho_generation := ho_generation h; ho_cleanupTimer := ho_cleanupTimer h;
     ho_running := ho_running h; ho_wsIdleLeases := ho_wsIdleLeases h; ho_upstreams := ho_upstreams h; ho_inbound := ho_inbound h;
     ho_pendingUpstream := ho_pendingUpstream h; ho_pendingInbound := ho_pendingInbound h; ho_sessions := ho_sessions h; ho_closedStreams := ho_closedStreams h;
     ho_deadSessions := ho_deadSessions h; ho_headersSent := ho_headersSent h; ho_waiting := ho_waiting h; ho_next := ho_next h; ho_log := ho_log h ++ l |}.
Definition registry (h : host) : HostRouteRegistry := hr_registry (ho_routes h).
Definition upd_registry (f : HostRouteRegistry -> HostRouteRegistry) : host -> host := upd_routes (fun st => hr_set_registry (f (hr_registry st)) st).
Definition emit (l : list host_effect) : sm host unit := sm_modify (add_log l).
Definition emitLifecycle (name : lifecycle_name) (peerId : option jsstring) (role : option VerserPeerRole) (reason : option jsstring) : sm host unit :=
  emit [he_lifecycle name peerId role reason].
Definition on_registry {A} (f : HostRouteRegistry -> result exn A * HostRouteRegistry) : sm host A :=
  sm_part registry (fun reg => upd_registry (fun _ => reg)) f.
Definition on_host_routes (f : host_routes -> option exn * host_routes) : sm host unit :=
  sm_part ho_routes (fun st => upd_routes (fun _ => st)) (fun st => let '(e, st) := f st in (match e with Some e => Throw e | None => Ok tt end, st)).
Definition stream_open (h : host) (s : nat) : bool := negb (set_has s (ho_closedStreams h)).
Definition session_live (h : host) (s : nat) : bool := negb (set_has s (ho_deadSessions h)).
Definition await_with (w : waiting) : sm host unit := sm_modify (fun h => upd_waiting (ho_waiting h ++ [(ho_next h, w)]) (S (ho_next h)) h).
Definition with_localBroker (p : RegisteredPeer) (b : LocalBrokerState) : RegisteredPeer :=
  {| rp_role := rp_role p; rp_transport := rp_transport p; rp_session := rp_session p; rp_controlStream := rp_controlStream p; rp_localBroker := Some b;
     rp_brokerDomain := rp_brokerDomain p; rp_brokerFingerprint := rp_brokerFingerprint p; rp_brokerRegistrationKey := rp_brokerRegistrationKey p |}.

(** ** Answering a stream *)
Definition respond (s : nat) (status : Z) : sm host unit :=
  sm_modify (fun h => add_log [he_respond s status] (upd_streams (ho_closedStreams h) (ho_deadSessions h) (set_add s (ho_headersSent h)) h)).
Definition headers_unsent (h : host) (s : nat) : bool := negb (set_has s (ho_headersSent h)).
Definition respond_json (s : nat) (status : Z) (body : jsval) : sm host unit :=
  unsent ← sm_get (fun h : host => headers_unsent h s && stream_open h s);
  _ ← sm_when unsent (respond s status);
  open ← sm_get (fun h : host => stream_open h s);
  sm_when open (emit [he_end s body]).
Definition writeJsonLine (s : nat) (line : control_line) : sm host unit :=
  unsent ← sm_get (fun h : host => headers_unsent h s);
  _ ← sm_when unsent (respond s 200);
  emit [he_line s line].
Definition close_session (s : nat) : sm host unit :=
  sm_modify (fun h => add_log [he_close_session s] (upd_streams (ho_closedStreams h) (set_add s (ho_deadSessions h)) (ho_headersSent h) h)).
Definition destroy_session (s : nat) : sm host unit :=
  sm_modify (fun h => add_log [he_destroy_session s] (upd_streams (ho_closedStreams h) (set_add s (ho_deadSessions h)) (ho_headersSent h) h)).

Section Host.
Context {P : Platform} (options : HostRouteRegistryOptions) (hostId : option jsstring) (fresh : jsstring).
(** Whether [tls.clientAuth] names a CA; what a session's certificate says: the
    DNS names, and the fingerprint of an authorized socket. *)
Context (mtls : bool) (dnsNames : nat -> list jsstring) (fingerprint : nat -> option jsstring).
Context (degradedRouteTimeoutMs : Z).

Definition sendError (s : nat) (error : VerserError) : sm host unit :=
  open ← sm_get (fun h : host => stream_open h s);
  sm_when open (unsent ← sm_get (fun h : host => headers_unsent h s); _ ← sm_when unsent (respond s 502); emit [he_end s (toVerserHttpErrorResponse error)]).
(** The [catch] of the server's stream listener. *)
Definition serve_stream (s : nat) (m : sm host unit) : sm host unit :=
  sm_catch m (fun e => let verserError := host_toVerserError e in _ ← emit [he_error None (VerserErr verserError)]; sendError s verserError).

(** ** Advertisement *)
Definition invalidateRouteAuthorizations : sm host unit := sm_modify (upd_routes HostRoutes.invalidateRouteAuthorizations).

Definition on_local_broker (f : LocalBrokerState -> LocalBrokerState * list broker_effect) (p : jsstring * RegisteredPeer) : (jsstring * RegisteredPeer) * list host_effect :=
  match rp_role p.2, rp_transport p.2, rp_localBroker p.2 with
  | role_broker, tr_local, Some b =>
      let '(b, effects) := f b in
      ((p.1, with_localBroker p.2 b), [he_broker p.1 effects; he_lifecycle lc_routeAdvertised (Some p.1) (Some role_broker) None])
  | _, _, _ => (p, [])
  end.
Definition update_local_brokers (f : LocalBrokerState -> LocalBrokerState * list broker_effect) (h : host) : host :=
  add_log (concat (map (fun p => (on_local_broker f p).2) (ho_peers h))) (upd_peers (map (fun p => (on_local_broker f p).1)) h).
(** The open control streams of the remote brokers. *)
Definition open_control (h : host) (m : nat * RegisteredPeer) : list nat :=
  match rp_controlStream m.2 with Some c => if stream_open h c then [c] else [] | None => [] end.
Definition remote_controls (h : host) : list (jsstring * nat) :=
  concat (map (fun g => map (fun c => (g.1, c)) (concat (map (open_control h) g.2))) (ho_remote h)).
Definition write_brokers (line : control_line) (h : host) : host :=
  add_log (concat (map (fun pc => [he_line pc.2 line; he_lifecycle lc_routeAdvertised (Some pc.1) (Some role_broker) None]) (remote_controls h))) h.

Definition getRoutedDomains (h : host) : list RoutedDomainRegistration := getBrokerRoutes (registry h).
Definition advertiseRoutes : sm host unit := sm_modify (fun h =>
  let routes := getRoutedDomains h in
  upd_routes HostRoutes.advertiseRoutes (write_brokers (ln_routes routes) (update_local_brokers (fun b => updateLocalBrokerRoutes b routes) h))).
Definition advertiseFederatedRoutes : sm host unit := on_host_routes (HostRoutes.advertiseFederatedRoutes options).
Fixpoint emit_changes (b : LocalBrokerState) (events : list VerserRouteLifecycleEvent) : LocalBrokerState * list broker_effect :=
  match events with
  | [] => (b, [])
  | event :: events => let '(b, e) := emitLocalBrokerRouteChange b event in let '(b, e') := emit_changes b events in (b, e ++ e')
  end.
Definition advertiseRouteLifecycleEvents (events : list VerserRouteLifecycleEvent) : sm host unit :=
  match events with
  | [] => mret tt
  | _ =>
      frame ← sm_lift (raw_lifecycle_frame fresh (map event_json events));
      _ ← sm_modify (fun h => write_brokers (ln_lifecycle frame) (update_local_brokers (fun b => emit_changes b events) h));
      on_host_routes (HostRoutes.advertiseRouteLifecycleEvents hostId fresh (map event_json events) false)
  end.
Definition route_event (type : VerserRouteLifecycleEventType) (targetId domain : jsstring) (reason : VerserRouteEventReason) (generation : option VerserRouteGeneration)
    : result exn VerserRouteLifecycleEvent :=
  createRouteLifecycleEvent fresh {| ei_type := event_type_name type; ei_targetId := targetId; ei_domain := domain; ei_reason := Some (event_reason_name reason);
    ei_generation := (fun g => {| gi_generationId := Some (rg_generationId g); gi_sessionId := rg_sessionId g |}) <$> generation |}.

(** ** Degraded routes *)
Definition checkInterval : Z := Z.max 100 (degradedRouteTimeoutMs / 10).
Definition startDegradedRouteCleanupTimer : sm host unit := sm_modify (fun h => upd_flags (ho_generation h) true (ho_running h) h).
Definition stopDegradedRouteCleanupTimer : sm host unit := sm_modify (fun h => upd_flags (ho_generation h) false (ho_running h) h).
Definition no_degraded (h : host) : bool := negb (hasAnyDegradedRoutes (registry h)).

(** [DegradedRouteCleanup.check]: the generations are captured before the removal. *)
Definition captured_generations (reg : HostRouteRegistry) : list (jsstring * list (jsstring * VerserRouteGeneration)) :=
  concat (map (fun peerId =>
    let domainMap := fold_left (fun m r => match getRouteGeneration peerId (rd_domain r) reg with Some g => map_set (rd_domain r) g m | None => m end)
                       (getDegradedBrokerRoutesForPeer peerId reg) [] in
    if 0 <? len domainMap then [(peerId, domainMap)] else []) (getDegradedEntries reg).*1).
Definition cleanup_check (now : Z) : sm host unit :=
  genCache ← sm_get (fun h : host => captured_generations (registry h));
  expired ← on_registry (fun reg => let '(r, reg) := removeExpiredDegradedRoutes now degradedRouteTimeoutMs reg in (Ok r, reg));
  let '(expiredPeers, _, expiredRouteEntries) := expired in
  _ ← sm_when (0 <? len expiredPeers) invalidateRouteAuthorizations;
  if len expiredPeers =? 0 then (none ← sm_get no_degraded; sm_when none stopDegradedRouteCleanupTimer)
  else
    events ← sm_lift (map_res (fun entry : jsstring * jsstring =>
      route_event ev_removed entry.1 entry.2 rs_timeout (peerGen ← map_get entry.1 genCache; map_get entry.2 peerGen)) expiredRouteEntries);
    _ ← advertiseRouteLifecycleEvents events;
    _ ← advertiseRoutes;
    _ ← advertiseFederatedRoutes;
    none ← sm_get no_degraded;
    sm_when none stopDegradedRouteCleanupTimer.

(** Idle WebSocket leases of a guest. *)
Definition clearWsIdleLeases (peerId : jsstring) : sm host unit := sm_modify (fun h =>
  match map_get peerId (ho_wsIdleLeases h) with
  | None => h
  | Some leases =>
      let live := filter (fun s => stream_open h s = true) leases in
      add_log (map he_close_stream live) (upd_streams (fold_left (fun l s => set_add s l) live (ho_closedStreams h)) (ho_deadSessions h) (ho_headersSent h)
        (upd_ws (map_delete peerId) h))
  end).

(** What both ways of losing a guest do: its routes are degraded, and told so. *)
Definition degrade_routes (now : Z) (peerId reason : jsstring) (transport : transport) : sm host unit :=
  _ ← clearWsIdleLeases peerId;
  _ ← on_registry (RouteRegistry.setDegraded now peerId);
  _ ← invalidateRouteAuthorizations;
  _ ← emit [he_closeGuestLeases peerId; he_failLeaseAcquisitions peerId reason];
  _ ← sm_when (bool_decide (transport = tr_local)) (emit [he_abortLocalRequests peerId]);
  degradedRoutes ← sm_get (fun h : host => getDegradedBrokerRoutesForPeer peerId (registry h));
  _ ← sm_when (0 <? len degradedRoutes)
        (reg ← sm_get registry;
         events ← sm_lift (map_res (fun r => route_event ev_degraded peerId (rd_domain r) rs_disconnected (getRouteGeneration peerId (rd_domain r) reg)) degradedRoutes);
         _ ← advertiseRouteLifecycleEvents events;
         startDegradedRouteCleanupTimer);
  emitLifecycle lc_routeDegraded (Some peerId) (Some role_guest) (Some reason).

Definition detachLocalPeer (now : Z) (peerId reason : jsstring) : sm host unit :=
  found ← sm_get (fun h : host => map_get peerId (ho_peers h));
  match found with
  | Some peer =>
      if negb (bool_decide (rp_transport peer = tr_local)) then mret tt
      else
        let guest := bool_decide (rp_role peer = role_guest) in
        _ ← sm_modify (upd_peers (map_delete peerId));
        _ ← sm_when guest (degrade_routes now peerId reason tr_local);
        _ ← (match rp_localBroker peer with
             | Some b => emit [he_broker peerId (closeLocalBrokerState b reason).2; he_abortLocalRequests peerId]
             | None => mret tt
             end);
        _ ← emitLifecycle lc_disconnected (Some peerId) (Some (rp_role peer)) (Some reason);
        sm_when guest (_ ← advertiseRoutes; advertiseFederatedRoutes)
  | None => mret tt
  end.

(** ** Registered routes of a guest *)
Definition registrations (peerId : jsstring) (domains : list jsstring) : result exn (list RoutedDomainRegistration) :=
  map_res (fun domain => createRoutedDomainRegistration {| rd_targetId := peerId; rd_domain := domain |}) domains.
Definition set_of (l : list jsstring) : list jsstring := fold_left (fun s x => set_add x s) l [].
Definition set_new_routes (peerId : jsstring) (newDomains : list jsstring) : sm host unit :=
  routes ← sm_lift (registrations peerId newDomains);
  on_registry (setLocalRoutes options peerId routes).
Definition added_events (peerId : jsstring) (domains : list jsstring) : result exn (list VerserRouteLifecycleEvent) :=
  map_res (fun domain => route_event ev_added peerId domain rs_registered None) domains.
(** The guest is back: what it registers now replaces what was degraded. *)
Definition restore_guest (peerId : jsstring) (newDomains : list jsstring) (degraded : list RoutedDomainRegistration) (transport : transport) : sm host unit :=
  let newDomainSet := set_of newDomains in
  let oldDegradedSet := set_of (map rd_domain degraded) in
  let removedDegraded := filter (fun d => d ∉ newDomainSet) oldDegradedSet in
  let addedNew := filter (fun d => d ∉ oldDegradedSet) newDomainSet in
  _ ← on_registry (restoreRoutes peerId);
  _ ← sm_modify (upd_registry (removeLocalRoutes peerId));
  _ ← sm_when (0 <? len newDomains) (set_new_routes peerId newDomains);
  none ← sm_get no_degraded;
  _ ← sm_when none stopDegradedRouteCleanupTimer;
  reg ← sm_get registry;
  removed ← sm_lift (map_res (fun d => route_event ev_removed peerId d rs_reconnected None) removedDegraded);
  restored ← sm_lift (map_res (fun d => route_event ev_changed peerId d rs_restored
      (if decide (transport = tr_local) then getRouteGeneration peerId d reg else None)) (filter (fun d => d ∈ newDomainSet) oldDegradedSet));
  added ← sm_lift (added_events peerId addedNew);
  _ ← advertiseRouteLifecycleEvents (removed ++ restored ++ added);
  emitLifecycle lc_routeRestored (Some peerId) (Some role_guest)
    (Some (if decide (transport = tr_local) then js "local-guest-reconnect" else js "guest-reconnect")).
Definition register_guest_routes (peerId : jsstring) (newDomains : list jsstring) (transport : transport) : sm host unit :=
  degraded ← sm_get (fun h : host => getDegradedBrokerRoutesForPeer peerId (registry h));
  if 0 <? len degraded then restore_guest peerId newDomains degraded transport
  else
    _ ← set_new_routes peerId newDomains;
    sm_when (bool_decide (transport = tr_local) && (0 <? len newDomains))
      (events ← sm_lift (added_events peerId newDomains); advertiseRouteLifecycleEvents events).

(** ** Admission *)
Definition isFederationPeerIdInUse (h : host) (peerId : jsstring) : bool :=
  map_has peerId (ho_inbound h) || map_has peerId (ho_pendingInbound h) || map_has peerId (ho_upstreams h) || set_has peerId (ho_pendingUpstream h).
Definition getPeerForSession (h : host) (peerId : jsstring) (session : nat) : option RegisteredPeer :=
  match (members ← map_get peerId (ho_remote h); map_get session members) with
  | Some p => Some p
  | None => p ← map_get peerId (ho_peers h); if decide (rp_session p = Some session) then Some p else None
  end.
Definition getRegisteredBrokerDomain (h : host) (peerId : jsstring) (session : option nat) : option jsstring :=
  p ← (match session with None => map_get peerId (ho_peers h) | Some s => getPeerForSession h peerId s end);
  if decide (rp_role p = role_broker) then rp_brokerDomain p else None.
Definition in_registration (peerId : jsstring) (message : string) : exn := verr invalid_registration message [(js "peerId", JStr peerId)].
#[local] Arguments in_registration peerId message%_string.

Definition getAuthenticatedBrokerFingerprint (session : nat) : option jsstring :=
  if negb mtls then None else match fingerprint session with Some f => if 0 <? len f then Some f else None | None => None end.
Definition createBrokerRegistrationKey (peerId : jsstring) (registration : HostRegistration) (brokerDomain : option jsstring) : jsstring :=
  json_text (JObj [(js "peerId", JStr peerId); (js "role", JStr (role_name (hg_role registration)));
                   (js "routedDomains", JArr (map JStr (hg_routedDomains registration)));
                   (js "brokerDomain", match brokerDomain with Some d => JStr d | None => JNull end)]).
Definition assertBrokerDomainCertificate (session : nat) (peerId brokerDomain : jsstring) : result exn unit :=
  throw_if (mtls && negb (existsb (fun dnsName => str_eqb (normalizeVerserRouteDomain dnsName) brokerDomain) (dnsNames session)))
    (verr certificate_verification_failure "Broker domain is not bound to an exact DNS SAN on the client certificate"
       [(js "peerId", JStr peerId); (js "brokerDomain", JStr brokerDomain)]).

(** The answer of the registration policy; no policy allows. *)
Inductive decision : Type := dc_allow | dc_reject (reason : option jsstring).

Definition registerPeer (stream : nat) (session : option nat) (registration : HostRegistration) : sm host unit :=
  generation ← sm_get ho_generation;
  peerId ← sm_lift (createPeerId (hg_peerId registration));
  used ← sm_get (fun h : host => isFederationPeerIdInUse h peerId);
  _ ← sm_guard used (in_registration peerId "Peer ID is already used by federation");
  currentPeer ← sm_get (fun h : host => map_get peerId (ho_peers h));
  let mayJoinRemoteBroker p := bool_decide (hg_role registration = role_broker) && bool_decide (rp_role p = role_broker) && bool_decide (rp_transport p = tr_h2) in
  _ ← sm_guard (match currentPeer with Some p => negb (mayJoinRemoteBroker p) | None => false end) (in_registration peerId "Peer is already registered");
  match session with
  | None => sm_throw (verr protocol_error "Registration stream does not have an HTTP/2 session" [])
  | Some session => await_with (wt_register generation peerId registration stream session)
  end.

(** May a broker join the group that its id has already? *)
Definition refuses_member (registration : HostRegistration) (existing peer : RegisteredPeer) (members : option (list (nat * RegisteredPeer))) (session : nat) : bool :=
  negb (bool_decide (hg_role registration = role_broker)) || negb (bool_decide (rp_role existing = role_broker)) ||
  negb (bool_decide (rp_transport existing = tr_h2)) ||
  match members with None => true | Some m => map_has session m end ||
  negb (bool_decide (is_Some (rp_brokerFingerprint peer))) || negb (bool_decide (is_Some (rp_brokerFingerprint existing))) ||
  negb (bool_decide (rp_brokerRegistrationKey peer = rp_brokerRegistrationKey existing)).
Definition publish_peer (peerId : jsstring) (registration : HostRegistration) (peer : RegisteredPeer) (session : nat) : sm host unit :=
  existingPeer ← sm_get (fun h : host => map_get peerId (ho_peers h));
  match existingPeer with
  | Some existing =>
      members ← sm_get (fun h : host => map_get peerId (ho_remote h));
      _ ← sm_guard (refuses_member registration existing peer members session) (in_registration peerId "Peer is already registered");
      sm_modify (upd_remote (map_set peerId (map_set session peer (default [] members))))
  | None =>
      _ ← sm_modify (upd_peers (map_set peerId peer));
      sm_when (bool_decide (hg_role registration = role_broker)) (sm_modify (upd_remote (map_set peerId [(session, peer)])))
  end.
Definition registered_json (routes : list RoutedDomainRegistration) : jsval := line_json (ln_registered routes).
Definition admit_peer (peerId : jsstring) (registration : HostRegistration) (stream session : nat) : sm host unit :=
  let broker := bool_decide (hg_role registration = role_broker) in
  let brokerDomain := if broker then hg_brokerDomain registration else None in
  _ ← sm_lift (match brokerDomain with Some d => assertBrokerDomainCertificate session peerId d | None => Ok tt end);
  let peer := {| rp_role := hg_role registration; rp_transport := tr_h2; rp_session := Some session;
                 rp_controlStream := if broker then Some stream else None; rp_localBroker := None; rp_brokerDomain := brokerDomain;
                 rp_brokerFingerprint := if broker then getAuthenticatedBrokerFingerprint session else None;
                 rp_brokerRegistrationKey := if broker then Some (createBrokerRegistrationKey peerId registration brokerDomain) else None |} in
  _ ← publish_peer peerId registration peer session;
  _ ← emitLifecycle lc_registered (Some peerId) (Some (hg_role registration)) None;
  _ ← sm_when (negb broker) (_ ← invalidateRouteAuthorizations; register_guest_routes peerId (hg_routedDomains registration) tr_h2);
  routes ← sm_get getRoutedDomains;
  if broker then writeJsonLine stream (ln_registered routes)
  else
    unsent ← sm_get (fun h : host => headers_unsent h stream);
    _ ← sm_when unsent (respond stream 200);
    _ ← emit [he_end stream (registered_json routes)];
    _ ← advertiseRoutes;
    advertiseFederatedRoutes.
Definition registerPeer_decided (generation : Z) (peerId : jsstring) (registration : HostRegistration) (stream session : nat) (answer : decision) : sm host unit :=
  match answer with
  | dc_reject reason =>
      let reason := default (js "registration rejected by client certificate policy") reason in
      _ ← emit [he_error (Some peerId) (verr_js invalid_registration reason [(js "peerId", JStr peerId); (js "role", JStr (role_name (hg_role registration)))])];
      _ ← respond_json stream 403 (JObj [(js "status", JStr (js "closed")); (js "reason", JStr reason)]);
      close_session session
  | dc_allow =>
      sm_if (fun h => negb (generation =? ho_generation h) || negb (session_live h session) || negb (stream_open h stream)) (mret tt)
        (used ← sm_get (fun h : host => isFederationPeerIdInUse h peerId);
         _ ← sm_guard used (in_registration peerId "Peer ID is already used by federation");
         admit_peer peerId registration stream session)
  end.

(** [authorizeLocalRegistration] and [assertAdmissionGeneration], then the check
    that the id is still free. *)
Definition local_admission (generation : Z) (peerId : jsstring) (role : VerserPeerRole) (answer : decision) : sm host unit :=
  _ ← (match answer with
       | dc_allow => mret tt
       | dc_reject reason =>
           let error := verr_js invalid_registration (default (js "registration rejected by local peer policy") reason)
                          [(js "peerId", JStr peerId); (js "role", JStr (role_name role))] in
           _ ← emit [he_error (Some peerId) error]; sm_throw error
       end);
  stale ← sm_get (fun h : host => negb (generation =? ho_generation h));
  _ ← sm_guard stale (verr disconnected_target "Host shutdown invalidated the pending peer registration" [(js "peerId", JStr peerId)]);
  taken ← sm_get (fun h : host => map_has peerId (ho_peers h));
  sm_guard taken (in_registration peerId "Peer is already registered").
Definition local_request (id : jsstring) (k : Z -> jsstring -> sm host unit) : sm host unit :=
  generation ← sm_get ho_generation;
  peerId ← sm_lift (createPeerId id);
  taken ← sm_get (fun h : host => map_has peerId (ho_peers h));
  _ ← sm_guard taken (in_registration peerId "Peer is already registered");
  k generation peerId.
Definition local_peer (role : VerserPeerRole) (broker : option LocalBrokerState) (brokerDomain : option jsstring) : RegisteredPeer :=
  {| rp_role := role; rp_transport := tr_local; rp_session := None; rp_controlStream := None; rp_localBroker := broker; rp_brokerDomain := brokerDomain;
     rp_brokerFingerprint := None; rp_brokerRegistrationKey := None |}.

(** The request listener of a server, when it has one, or a function. *)
Inductive local_listener : Type := ll_server (has_listener : bool) | ll_function.
Definition extractLocalGuestListener (peerId : jsstring) (serverOrListener : local_listener) : result exn unit :=
  throw_if (match serverOrListener with ll_server has => negb has | ll_function => false end)
    (verr local_handler_failure "Attached HTTP server has no request listener" [(js "guestId", JStr peerId)]).
Definition attachLocalGuest (guestId : jsstring) (domains : list jsstring) : sm host unit :=
  local_request guestId (fun generation peerId => await_with (wt_localGuest generation peerId domains)).
Definition attachLocalGuest_decided (generation : Z) (peerId : jsstring) (newDomains : list jsstring) (listener : local_listener) (answer : decision) : sm host unit :=
  _ ← local_admission generation peerId role_guest answer;
  _ ← emitLifecycle lc_connected (Some peerId) (Some role_guest) None;
  _ ← sm_lift (extractLocalGuestListener peerId listener);
  _ ← sm_modify (upd_peers (map_set peerId (local_peer role_guest None None)));
  _ ← invalidateRouteAuthorizations;
  _ ← register_guest_routes peerId newDomains tr_local;
  _ ← emitLifecycle lc_registered (Some peerId) (Some role_guest) None;
  _ ← advertiseRoutes;
  advertiseFederatedRoutes.
(** The options of a local broker: its domain, and whether the legacy name is there. *)
Definition attachLocalBroker (brokerId : jsstring) (legacyName : bool) (domain : option jsstring) : sm host unit :=
  local_request brokerId (fun generation peerId =>
    _ ← sm_guard legacyName (in_registration peerId "brokerHopDomain is not supported; use brokerDomain");
    brokerDomain ← sm_lift (match domain with
      | None => Ok None
      | Some d => let d := normalizeVerserRouteDomain d in
                  if len d =? 0 then Throw (in_registration peerId "brokerDomain must be a non-empty domain") else Ok (Some d)
      end);
    await_with (wt_localBroker generation peerId brokerDomain)).
Definition attachLocalBroker_decided (generation : Z) (peerId : jsstring) (brokerDomain : option jsstring) (answer : decision) : sm host unit :=
  _ ← local_admission generation peerId role_broker answer;
  routes ← sm_get getRoutedDomains;
  _ ← emitLifecycle lc_connected (Some peerId) (Some role_broker) None;
  _ ← sm_modify (upd_peers (map_set peerId (local_peer role_broker (Some (createLocalBrokerState routes)) brokerDomain)));
  emitLifecycle lc_registered (Some peerId) (Some role_broker) None.

(** ** The handles of local peers *)
Definition revoked_events (peerId : jsstring) (revoked : list jsstring) : result exn (list VerserRouteLifecycleEvent) :=
  map_res (fun domain => route_event ev_removed peerId domain rs_revoked None) revoked.
Definition announce_revoked (peerId : jsstring) (revoked : list jsstring) : sm host unit :=
  _ ← invalidateRouteAuthorizations;
  events ← sm_lift (revoked_events peerId revoked);
  _ ← advertiseRouteLifecycleEvents events;
  _ ← advertiseRoutes;
  advertiseFederatedRoutes.
Definition revoke (peerId : jsstring) (domains : list jsstring) : sm host (list jsstring * list jsstring) :=
  on_registry (fun reg => let '(r, reg) := RouteRegistry.revokeRoutes peerId domains reg in (Ok r, reg)).
(** [close] and [revokeRoutes] of a guest's handle: [closed] is the handle's own. *)
Definition guestHandle_close (closed : bool) (now : Z) (peerId reason : jsstring) : sm host unit :=
  if closed then mret tt else detachLocalPeer now peerId reason.
Definition guestHandle_revokeRoutes (closed : bool) (peerId : jsstring) (domains : list jsstring) : sm host (list jsstring * list jsstring) :=
  if closed then mret ([], domains)
  else
    result ← revoke peerId domains;
    _ ← sm_when (0 <? len result.1) (announce_revoked peerId result.1);
    mret result.
Definition brokerHandle_close (now : Z) (peerId reason : jsstring) : sm host unit :=
  found ← sm_get (fun h : host => p ← map_get peerId (ho_peers h); b ← rp_localBroker p; Some (p, b));
  match found with
  | Some (p, b) =>
      if lbs_closed b then mret tt
      else
        let '(b, effects) := closeLocalBrokerState b reason in
        _ ← sm_modify (upd_peers (map_set peerId (with_localBroker p b)));
        _ ← emit [he_broker peerId effects; he_abortLocalRequests peerId];
        detachLocalPeer now peerId reason
  | None => mret tt
  end.

(** ** Losing a session *)
Definition detachRemoteBrokerSession (peerId : jsstring) (session : nat) : sm host unit :=
  found ← sm_get (fun h : host => members ← map_get peerId (ho_remote h); _ ← map_get session members; Some (map_delete session members));
  match found with
  | None => mret tt
  | Some remaining =>
      main ← sm_get (fun h : host => match map_get peerId (ho_peers h) with Some p => bool_decide (rp_session p = Some session) | None => false end);
      _ ← (match remaining with
           | [] => _ ← sm_modify (upd_remote (map_delete peerId)); sm_when main (sm_modify (upd_peers (map_delete peerId)))
           | (_, promoted) :: _ => _ ← sm_modify (upd_remote (map_set peerId remaining)); sm_when main (sm_modify (upd_peers (map_set peerId promoted)))
           end);
      emitLifecycle lc_disconnected (Some peerId) (Some role_broker) None
  end.
Definition getPeerMember (h : host) (peerId : jsstring) (session : nat) : option RegisteredPeer := members ← map_get peerId (ho_remote h); map_get session members.
(** The [close] listener of a broker's control stream, and what it schedules. *)
Definition handleRemoteBrokerControlClose (peerId : jsstring) (session controlStream : nat) : sm host unit :=
  proceed ← sm_get (fun h : host => ho_running h && session_live h session &&
    match getPeerMember h peerId session with Some m => bool_decide (rp_controlStream m = Some controlStream) | None => false end);
  sm_when proceed (detachRemoteBrokerSession peerId session).
Definition destroy_detached_session (session : nat) : sm host unit :=
  live ← sm_get (fun h : host => ho_running h && session_live h session);
  sm_when live (destroy_session session).
Definition trackSession (session : nat) : sm host unit :=
  _ ← sm_modify (fun h => upd_sessions (set_add session (ho_sessions h)) h);
  emitLifecycle lc_connected None None None.
Definition removeSessionPeers (now : Z) (session : nat) : sm host unit :=
  remoteIds ← sm_get (fun h : host => (ho_remote h).*1);
  _ ← sm_each (fun peerId => detachRemoteBrokerSession peerId session) remoteIds;
  peers ← sm_get ho_peers;
  let lost := filter (fun p => rp_session p.2 = Some session /\ ~ (rp_role p.2 = role_broker /\ rp_transport p.2 = tr_h2)) peers in
  _ ← sm_each (fun p =>
        _ ← sm_modify (upd_peers (map_delete p.1));
        _ ← sm_when (bool_decide (rp_role p.2 = role_guest)) (degrade_routes now p.1 (js "guest-disconnect") tr_h2);
        emitLifecycle lc_disconnected (Some p.1) (Some (rp_role p.2)) None) lost;
  sm_when (existsb (fun p => bool_decide (rp_role p.2 = role_guest)) lost) (_ ← advertiseRoutes; advertiseFederatedRoutes).
(** The [close] listener of a session. *)
Definition session_closed (now : Z) (session : nat) : sm host unit :=
  _ ← sm_modify (fun h => upd_sessions (filter (fun s => s <> session) (ho_sessions h)) (upd_streams (ho_closedStreams h) (set_add session (ho_deadSessions h)) (ho_headersSent h) h));
  removeSessionPeers now session.

(** ** Streams of a guest *)
Definition no_peer (message : string) (targetId : jsstring) : exn := verr disconnected_target message [(js "targetId", JStr targetId)].
#[local] Arguments no_peer message%_string targetId.
Definition guest_peer (peerId : jsstring) (missing : exn) : sm host RegisteredPeer :=
  found ← sm_get (fun h : host => map_get peerId (ho_peers h));
  match found with
  | Some p => if decide (rp_role p = role_guest) then mret p else sm_throw missing
  | None => sm_throw missing
  end.
Definition with_control (p : RegisteredPeer) (stream : nat) : RegisteredPeer :=
  {| rp_role := rp_role p; rp_transport := rp_transport p; rp_session := rp_session p; rp_controlStream := Some stream; rp_localBroker := rp_localBroker p;
     rp_brokerDomain := rp_brokerDomain p; rp_brokerFingerprint := rp_brokerFingerprint p; rp_brokerRegistrationKey := rp_brokerRegistrationKey p |}.
Definition attachGuestControlStream (stream : nat) (peerId : jsstring) : sm host unit :=
  peer ← guest_peer peerId (no_peer "Guest control stream has no registered peer" peerId);
  _ ← sm_modify (upd_peers (map_set peerId (with_control peer stream)));
  respond stream 200.
Definition attachGuestLeaseStream (stream : nat) (peerIdHeader leaseIdHeader : jsstring) : sm host unit :=
  guestId ← sm_lift (createPeerId peerIdHeader);
  let leaseId := trim leaseIdHeader in
  _ ← guest_peer guestId (no_peer "Guest lease stream has no registered peer" guestId);
  _ ← sm_guard (len leaseId =? 0) (verr protocol_error "Guest lease stream requires a lease id" [(js "targetId", JStr guestId)]);
  _ ← respond stream 200;
  emit [he_addIdleLease guestId leaseId stream].
Definition MAX_WS_IDLE_LEASES_PER_GUEST : Z := 4.
Definition attachGuestWsLeaseStream (stream : nat) (session : option nat) (peerIdHeader : jsstring) : sm host unit :=
  guestId ← sm_lift (createPeerId peerIdHeader);
  peer ← guest_peer guestId (no_peer "Guest WebSocket lease stream has no registered peer" guestId);
  _ ← sm_guard (negb (bool_decide (rp_transport peer = tr_h2)) || negb (bool_decide (rp_session peer = session)))
        (no_peer "WebSocket lease stream rejected: session mismatch" guestId);
  leases ← sm_get (fun h : host => default [] (map_get guestId (ho_wsIdleLeases h)));
  _ ← sm_guard (MAX_WS_IDLE_LEASES_PER_GUEST <=? len leases)
        (verr timeout "Guest WebSocket lease capacity exceeded" [(js "targetId", JStr guestId); (js "limit", JNum (num_int MAX_WS_IDLE_LEASES_PER_GUEST))]);
  _ ← respond stream 200;
  sm_modify (upd_ws (map_set guestId (leases ++ [stream]))).
(** [removeLease], on close or error. *)
Definition removeWsLease (guestId : jsstring) (stream : nat) : sm host unit := sm_modify (upd_ws (fun m =>
  match map_get guestId m with
  | None => m
  | Some arr => match filter (fun s => s <> stream) arr with [] => map_delete guestId m | arr => map_set guestId arr m end
  end)).

(** ** Revocation by a guest *)
Definition failed_json (f : VerserGuestDomainRevocationResult) : jsval :=
  JObj ((js "domain", JStr (dr_domain f)) :: match dr_error f with Some e => [(js "error", JStr e)] | None => [] end).
Definition revocation_json (r : VerserGuestRevocationResponse) : jsval :=
  JObj ((js "status", JStr (status_name (gr_status r))) :: match gr_message r with Some m => [(js "message", JStr m)] | None => [] end ++
        match gr_failedDomains r with Some l => [(js "failedDomains", JArr (map failed_json l))] | None => [] end).
Definition revocation_answer (stream : nat) (status : Z) (name : string) (message : option jsstring) (failed : option (list VerserGuestDomainRevocationResult)) : sm host unit :=
  response ← sm_lift (createGuestRevocationResponse (js name) message failed);
  respond_json stream status (revocation_json response).
#[local] Arguments revocation_answer stream status name%_string message failed.
Definition handleGuestRevocation (stream : nat) (session : option nat) (peerIdHeader : jsstring) : sm host unit :=
  let peerId := trim peerIdHeader in
  found ← sm_get (fun h : host => if 0 <? len peerId then map_get peerId (ho_peers h) else None);
  match found with
  | Some peer =>
      if negb (bool_decide (rp_role peer = role_guest)) then revocation_answer stream 403 "error" (Some (js "Only registered Guests can revoke routes")) None
      else if negb (bool_decide (rp_transport peer = tr_h2)) || negb (bool_decide (rp_session peer = session))
      then revocation_answer stream 403 "error" (Some (js "Revocation request rejected: session mismatch")) None
      else await_with (wt_revocation peerId stream)
  | None => revocation_answer stream 403 "error" (Some (js "Only registered Guests can revoke routes")) None
  end.
Definition not_found (domain : jsstring) : VerserGuestDomainRevocationResult :=
  {| dr_domain := domain; dr_error := Some (js "Domain is not registered for this Guest") |}.
(** [JSON.parse(text).domains ?? []] *)
Definition revocation_domains (text : jsstring) : result exn (list jsstring) :=
  match json_parse text with
  | None => Throw (EngineErr SyntaxError text)
  | Some parsed => match js_member (js "domains") parsed with
                   | None => Throw (EngineErr TypeError text)
                   | Some v => createGuestRevocationRequest (nullish v (JArr []))
                   end
  end.
(** The body was read, or reading it failed. *)
Definition guestRevocation_read (peerId : jsstring) (stream : nat) (body : result exn jsstring) : sm host unit :=
  match text ← body; revocation_domains text with
  | Throw e => revocation_answer stream 400 "error" (Some (getErrorMessage e)) None
  | Ok domains =>
      result ← revoke peerId domains;
      let '(revoked, missing) := result in
      if len revoked =? len domains then _ ← revocation_answer stream 200 "ack" None None; sm_when (0 <? len revoked) (announce_revoked peerId revoked)
      else if 0 <? len revoked then
        _ ← revocation_answer stream 200 "partial" (Some (js "Some domains were not found")) (Some (map not_found missing));
        announce_revoked peerId revoked
      else revocation_answer stream 404 "error" (Some (js "None of the requested domains are registered for this Guest")) (Some (map not_found missing))
  end.

(** ** Imported routes *)
Definition imported_changed : sm host unit :=
  _ ← invalidateRouteAuthorizations;
  _ ← advertiseRoutes;
  advertiseFederatedRoutes.
Definition setImportedFederatedRoutes (upstreamId : jsstring) (routes : list jsval) : sm host (list VerserError) :=
  update ← on_registry (setImportedRoutes_raw options upstreamId routes);
  let errors := (fst update).*2 in
  _ ← emit (map (fun e => he_error None (VerserErr e)) errors);
  _ ← sm_when (snd update) imported_changed;
  mret errors.
Definition removeImportedFederatedRoutes (upstreamId : jsstring) : sm host unit :=
  _ ← sm_modify (upd_registry (removeImportedRoutes upstreamId));
  imported_changed.

(** ** Federation membership *)
Definition set_links (upstreams inbound : list (jsstring * route_link)) (st : host_routes) : host_routes :=
  {| hr_registry := hr_registry st; hr_authorizer := hr_authorizer st; upstreamLinks := upstreams; inboundFederationHosts := inbound;
     hr_seen := hr_seen st; federationLifecycleEventIdCounter := federationLifecycleEventIdCounter st; hr_sent := hr_sent st;
     hr_broker_log := hr_broker_log st; hr_errors := hr_errors st |}.
Definition getFederationHostId : result exn jsstring :=
  match hostId with
  | Some id => if len (trim id) =? 0 then Throw (verr invalid_registration "Host federation requires a configured hostId" []) else createVerserHostId (JStr id)
  | None => Throw (verr invalid_registration "Host federation requires a configured hostId" [])
  end.
Definition same {A} (x : A) : A := x.
Definition set_federation (f : list (jsstring * upstream_link) -> list (jsstring * upstream_link)) (g : list (jsstring * nat) -> list (jsstring * nat))
    (p : list jsstring -> list jsstring) (q : list (jsstring * nat) -> list (jsstring * nat)) : sm host unit :=
  sm_modify (fun h => upd_federation (f (ho_upstreams h)) (g (ho_inbound h)) (p (ho_pendingUpstream h)) (q (ho_pendingInbound h)) h).
Definition set_inbound_link (hostId : jsstring) (open : bool) : sm host unit :=
  sm_modify (upd_routes (fun st => set_links (upstreamLinks st) (map_set hostId {| rl_remoteHostId := hostId; rl_open := open |} (inboundFederationHosts st)) st)).
Definition host_id_taken (id : jsstring) (message : string) : exn := verr invalid_registration message [(js "hostId", JStr id)].
#[local] Arguments host_id_taken id message%_string.

Definition handleHostFederationStream (stream : nat) (session : option nat) : sm host unit :=
  generation ← sm_get ho_generation;
  _ ← sm_lift getFederationHostId;
  await_with (wt_handshakeBody generation stream session).
Definition handshake_read (generation : Z) (stream : nat) (session : option nat) (body : result exn jsstring) : sm host unit :=
  handshake ← sm_lift (match (text ← body; match json_parse text with Some v => createVerserHostFederationHandshake v | None => Throw (EngineErr SyntaxError text) end) with
                       | Ok hs => Ok hs
                       | Throw e => Throw (verr protocol_error "Invalid Host federation handshake" [(js "cause", JStr (getErrorMessage e))])
                       end);
  let id := hs_hostId handshake in
  taken ← sm_get (fun h : host => map_has id (ho_peers h) || isFederationPeerIdInUse h id);
  _ ← sm_guard taken (host_id_taken id "Federated Host identity is already in use");
  match session with
  | None => sm_throw (verr protocol_error "Host federation stream has no HTTP/2 session" [])
  | Some session =>
      reservation ← sm_get ho_next;
      _ ← set_federation same same same (map_set id reservation);
      await_with (wt_handshake generation id stream session reservation)
  end.
Definition handshake_decided (generation : Z) (id : jsstring) (stream session reservation : nat) (answer : decision) : sm host unit :=
  localHostId ← sm_lift getFederationHostId;
  _ ← sm_modify (fun h => if decide (map_get id (ho_pendingInbound h) = Some reservation)
                          then upd_federation (ho_upstreams h) (ho_inbound h) (ho_pendingUpstream h) (map_delete id (ho_pendingInbound h)) h else h);
  match answer with
  | dc_reject reason =>
      let reason := default (js "Host federation rejected by policy") reason in
      _ ← emit [he_error (Some id) (verr_js authorization_denied reason [(js "hostId", JStr id)])];
      _ ← respond_json stream 403 (JObj [(js "status", JStr (js "closed")); (js "reason", JStr reason)]);
      close_session session
  | dc_allow =>
      sm_if (fun h => negb (generation =? ho_generation h) || negb (session_live h session) || negb (stream_open h stream)) (mret tt)
        (taken ← sm_get (fun h : host => map_has id (ho_peers h));
         _ ← sm_guard taken (host_id_taken id "Federated Host identity is already in use");
         connected ← sm_get (fun h : host => map_has id (ho_inbound h));
         _ ← sm_guard connected (host_id_taken id "Federated Host is already connected");
         _ ← set_federation same (map_set id session) same same;
         _ ← set_inbound_link id false;
         _ ← emitLifecycle lc_registered (Some id) None None;
         unsent ← sm_get (fun h : host => headers_unsent h stream);
         _ ← sm_when unsent (respond stream 200);
         emit [he_end stream (JObj [(js "status", JStr (js "registered")); (js "hostId", JStr localHostId)])])
  end.
Definition removeInboundFederationHost (id : jsstring) : sm host unit :=
  sm_if (fun h => map_has id (ho_inbound h))
    (_ ← set_federation same (map_delete id) same same;
     _ ← sm_modify (upd_routes (fun st => set_links (upstreamLinks st) (map_delete id (inboundFederationHosts st)) st));
     _ ← emit [he_failHostWaiters id];
     _ ← removeImportedFederatedRoutes id;
     emitLifecycle lc_disconnected (Some id) None None)
    (mret tt).
(** The route stream of a federated host: its frames are handled by
    [handleFederatedRouteFrame], the current routes are written to it. *)
Definition handleHostFederationRouteStream (stream : nat) (session : option nat) (hostIdHeader : jsstring) : sm host unit :=
  let id := trim hostIdHeader in
  linked ← sm_get (fun h : host => (0 <? len id) && bool_decide (map_get id (ho_inbound h) = session /\ is_Some session));
  _ ← sm_guard (negb linked) (verr disconnected_target "Federated Host route stream is not registered" [(js "hostId", JStr id)]);
  _ ← set_inbound_link id true;
  _ ← respond stream 200;
  on_host_routes (HostRoutes.advertise_link options {| rl_remoteHostId := id; rl_open := true |}).

Definition upstream_taken (h : host) (id : jsstring) : bool :=
  map_has id (ho_upstreams h) || set_has id (ho_pendingUpstream h) || map_has id (ho_peers h) || map_has id (ho_inbound h) || map_has id (ho_pendingInbound h).
(** [connectUpstream], with the session it opens and whether a pool is configured.
    [connected] is what [normalizeClientTlsOptions] and [http2.connect] did: they
    run before the [try], so that a throw leaves the id pending. *)
Definition connectUpstream (upstreamId : jsstring) (session : nat) (pooled : bool) (connected : result exn unit) : sm host unit :=
  _ ← sm_lift getFederationHostId;
  upstreamId ← sm_lift (createPeerId upstreamId);
  taken ← sm_get (fun h : host => upstream_taken h upstreamId);
  _ ← sm_guard taken (verr invalid_registration "Upstream is already connected" [(js "upstreamId", JStr upstreamId)]);
  _ ← set_federation same same (set_add upstreamId) same;
  _ ← sm_lift connected;
  await_with (wt_upstream upstreamId session pooled).
Definition upstream_settled (upstreamId : jsstring) : sm host unit := set_federation same same (filter (fun x => x <> upstreamId)) same.
Definition upstream_failed {A} (upstreamId : jsstring) (session : nat) (e : exn) : sm host A :=
  _ ← destroy_session session;
  _ ← upstream_settled upstreamId;
  sm_throw (VerserErr (host_toVerserError e)).
Definition upstream_ready (upstreamId : jsstring) (session : nat) : sm host unit :=
  _ ← sm_catch (_ ← emitLifecycle lc_connected (Some upstreamId) None None; advertiseFederatedRoutes) (upstream_failed upstreamId session);
  upstream_settled upstreamId.
(** The connection, the handshake and the streams succeeded, or one failed. *)
Definition upstream_connected (upstreamId : jsstring) (session : nat) (pooled : bool) (answer : result exn jsstring) : sm host unit :=
  match answer with
  | Throw e => upstream_failed upstreamId session e
  | Ok remoteHostId =>
      _ ← set_federation (map_set upstreamId {| ul_session := session; ul_closing := false |}) same same same;
      _ ← sm_modify (upd_routes (fun st => set_links (map_set upstreamId {| rl_remoteHostId := remoteHostId; rl_open := true |} (upstreamLinks st)) (inboundFederationHosts st) st));
      if pooled then await_with (wt_upstreamPool upstreamId session) else upstream_ready upstreamId session
  end.
Definition handleUpstreamSessionClose (upstreamId : jsstring) : sm host unit :=
  link ← sm_get (fun h : host => map_get upstreamId (ho_upstreams h));
  match link with
  | None => mret tt
  | Some link =>
      _ ← set_federation (map_delete upstreamId) same same same;
      _ ← sm_modify (upd_routes (fun st => set_links (map_delete upstreamId (upstreamLinks st)) (inboundFederationHosts st) st));
      _ ← removeImportedFederatedRoutes upstreamId;
      emitLifecycle (if ul_closing link then lc_closed else lc_disconnected) (Some upstreamId) None None
  end.
Definition handleUpstreamRouteStreamClose (upstreamId : jsstring) : sm host unit :=
  link ← sm_get (fun h : host => map_get upstreamId (ho_upstreams h));
  match link with
  | None => mret tt
  | Some link =>
      live ← sm_get (fun h : host => session_live h (ul_session link));
      _ ← sm_when live (destroy_session (ul_session link));
      handleUpstreamSessionClose upstreamId
  end.
(** Closing the route stream of a link. *)
Definition map_alter_open (id : jsstring) (links : list (jsstring * route_link)) : list (jsstring * route_link) :=
  map (fun p => if decide (p.1 = id) then (p.1, {| rl_remoteHostId := rl_remoteHostId p.2; rl_open := false |}) else p) links.
(** [closeUpstreamLink] up to its [await]; [handleUpstreamSessionClose] follows. *)
Definition closeUpstreamLink (upstreamId : jsstring) : sm host unit :=
  link ← sm_get (fun h : host => map_get upstreamId (ho_upstreams h));
  match link with
  | None => mret tt
  | Some link =>
      _ ← set_federation (map_set upstreamId {| ul_session := ul_session link; ul_closing := true |}) same same same;
      _ ← removeImportedFederatedRoutes upstreamId;
      _ ← sm_modify (upd_routes (fun st => set_links (map_alter_open upstreamId (upstreamLinks st)) (inboundFederationHosts st) st));
      destroy_session (ul_session link)
  end.

(** ** Shutdown *)
Definition set_of_nat (l : list nat) : list nat := fold_left (fun s x => set_add x s) l [].
Definition close_rest (running : bool) (reason : jsstring) : sm host unit :=
  _ ← sm_when running
    (h ← sm_get (fun h : host => h);
     let controls := set_of_nat (concat (map (fun p => match rp_controlStream p.2 with Some c => [c] | None => [] end) (ho_peers h ++ map (fun m => ([], m.2)) (concat (map snd (ho_remote h)))))) in
     _ ← emit (concat (map (fun p => match rp_localBroker p.2 with Some b => [he_broker p.1 (closeLocalBrokerState b reason).2] | None => [] end) (ho_peers h)));
     _ ← emit (map he_close_stream controls ++ [he_abortAllLocalRequests; he_closeAllLeases; he_failAllAcquisitions reason; he_failAllHostWaiters]);
     _ ← sm_each destroy_session (ho_sessions h);
     _ ← sm_modify (fun h => upd_sessions [] (upd_remote (fun _ => []) (upd_peers (fun _ => []) h)));
     _ ← set_federation same (fun _ => []) same same;
     sm_modify (upd_routes (fun st => set_links (upstreamLinks st) [] st)));
  _ ← sm_modify (upd_registry clear);
  emitLifecycle lc_closed None None (Some reason).
Fixpoint close_links (links : list jsstring) (running : bool) (reason : jsstring) : sm host unit :=
  match links with
  | [] => close_rest running reason
  | upstreamId :: links =>
      sm_if (fun h => map_has upstreamId (ho_upstreams h))
        (_ ← closeUpstreamLink upstreamId; await_with (wt_closeLink upstreamId links running reason))
        (close_links links running reason)
  end.
Definition close (reason : jsstring) : sm host unit :=
  running ← sm_get ho_running;
  _ ← sm_modify (fun h => upd_flags (ho_generation h + 1) false false h);
  _ ← set_federation same same same (fun _ => []);
  _ ← invalidateRouteAuthorizations;
  _ ← emit [he_failAllHostWaiters];
  links ← sm_get (fun h : host => (ho_upstreams h).*1);
  close_links links running reason.

(** ** Steps *)
Inductive answer : Type :=
  | an_decision (d : decision) (listener : local_listener)
  | an_body (text : result exn jsstring)
  | an_connected (remoteHostId : result exn jsstring)
  | an_done.
Definition answers (w : waiting) (a : answer) : bool :=
  match w, a with
  | (wt_register _ _ _ _ _ | wt_localGuest _ _ _ | wt_localBroker _ _ _ | wt_handshake _ _ _ _ _), an_decision _ _ => true
  | (wt_revocation _ _ | wt_handshakeBody _ _ _), an_body _ => true
  | wt_upstream _ _ _, an_connected _ => true
  | (wt_upstreamPool _ _ | wt_closeLink _ _ _ _), an_done => true
  | _, _ => false
  end.
Definition resume (w : waiting) (a : answer) : sm host unit :=
  match w, a with
  | wt_register generation peerId registration stream session, an_decision d _ =>
      serve_stream stream (registerPeer_decided generation peerId registration stream session d)
  | wt_localGuest generation peerId domains, an_decision d listener => attachLocalGuest_decided generation peerId domains listener d
  | wt_localBroker generation peerId brokerDomain, an_decision d _ => attachLocalBroker_decided generation peerId brokerDomain d
  | wt_revocation peerId stream, an_body text => serve_stream stream (guestRevocation_read peerId stream text)
  | wt_handshakeBody generation stream session, an_body text => serve_stream stream (handshake_read generation stream session text)
  | wt_handshake generation id stream session reservation, an_decision d _ => serve_stream stream (handshake_decided generation id stream session reservation d)
  | wt_upstream upstreamId session pooled, an_connected r => upstream_connected upstreamId session pooled r
  | wt_upstreamPool upstreamId session, an_done => upstream_ready upstreamId session
  | wt_closeLink upstreamId rest running reason, an_done => _ ← handleUpstreamSessionClose upstreamId; close_links rest running reason
  | _, _ => mret tt
  end.

Inductive host_event : Type :=
  | hv_start
  | hv_session (session : nat) | hv_sessionClosed (now : Z) (session : nat)
  | hv_register (stream : nat) (session : option nat) (registration : HostRegistration)
  | hv_localGuest (guestId : jsstring) (domains : list jsstring) | hv_localBroker (brokerId : jsstring) (legacyName : bool) (domain : option jsstring)
  | hv_resume (waiter : nat) (a : answer)
  | hv_streamClosed (stream : nat) | hv_controlClosed (peerId : jsstring) (session stream : nat) | hv_destroyDetached (session : nat)
  | hv_control (stream : nat) (peerId : jsstring) | hv_lease (stream : nat) (peerId leaseId : jsstring)
  | hv_wsLease (stream : nat) (session : option nat) (peerId : jsstring) | hv_wsLeaseClosed (guestId : jsstring) (stream : nat)
  | hv_revocation (stream : nat) (session : option nat) (peerId : jsstring)
  | hv_guestClose (closed : bool) (now : Z) (peerId reason : jsstring) | hv_guestRevoke (closed : bool) (peerId : jsstring) (domains : list jsstring)
  | hv_brokerClose (now : Z) (peerId reason : jsstring)
  | hv_imported (ownerId : jsstring) (routes : list jsval) | hv_removeImported (ownerId : jsstring)
  | hv_handshake (stream : nat) (session : option nat) | hv_routeStream (stream : nat) (session : option nat) (hostId : jsstring) | hv_inboundClosed (hostId : jsstring)
  | hv_connectUpstream (upstreamId : jsstring) (session : nat) (pooled : bool) (connected : result exn unit)
  | hv_upstreamClosed (upstreamId : jsstring) | hv_upstreamRouteClosed (upstreamId : jsstring) | hv_closeUpstream (upstreamId : jsstring)
  | hv_cleanup (now : Z)
  | hv_close (reason : jsstring).
Definition host_step (e : host_event) : sm host unit :=
  match e with
  | hv_start => sm_modify (fun h => upd_flags (ho_generation h) (ho_cleanupTimer h) true h)
  | hv_session s => trackSession s
  | hv_sessionClosed now s => session_closed now s
  | hv_register stream session registration => serve_stream stream (registerPeer stream session registration)
  | hv_localGuest id domains => attachLocalGuest id domains
  | hv_localBroker id legacyName domain => attachLocalBroker id legacyName domain
  | hv_resume n a =>
      w ← sm_get (fun h : host => map_get n (ho_waiting h));
      match w with
      | Some w => if answers w a then _ ← sm_modify (fun h => upd_waiting (map_delete n (ho_waiting h)) (ho_next h) h); resume w a else mret tt
      | None => mret tt
      end
  | hv_streamClosed s => sm_modify (fun h => upd_streams (set_add s (ho_closedStreams h)) (ho_deadSessions h) (ho_headersSent h) h)
  | hv_controlClosed peerId session stream => handleRemoteBrokerControlClose peerId session stream
  | hv_destroyDetached session => destroy_detached_session session
  | hv_control stream peerId => serve_stream stream (attachGuestControlStream stream peerId)
  | hv_lease stream peerId leaseId => serve_stream stream (attachGuestLeaseStream stream peerId leaseId)
  | hv_wsLease stream session peerId => serve_stream stream (attachGuestWsLeaseStream stream session peerId)
  | hv_wsLeaseClosed guestId stream => removeWsLease guestId stream
  | hv_revocation stream session peerId => serve_stream stream (handleGuestRevocation stream session peerId)
  | hv_guestClose closed now peerId reason => guestHandle_close closed now peerId reason
  | hv_guestRevoke closed peerId domains => _ ← guestHandle_revokeRoutes closed peerId domains; mret tt
  | hv_brokerClose now peerId reason => brokerHandle_close now peerId reason
  | hv_imported ownerId routes => _ ← setImportedFederatedRoutes ownerId routes; mret tt
  | hv_removeImported ownerId => removeImportedFederatedRoutes ownerId
  | hv_handshake stream session => serve_stream stream (handleHostFederationStream stream session)
  | hv_routeStream stream session id => serve_stream stream (handleHostFederationRouteStream stream session id)
  | hv_inboundClosed id => removeInboundFederationHost id
  | hv_connectUpstream id session pooled connected => connectUpstream id session pooled connected
  | hv_upstreamClosed id => handleUpstreamSessionClose id
  | hv_upstreamRouteClosed id => handleUpstreamRouteStreamClose id
  | hv_closeUpstream id => closeUpstreamLink id
  | hv_cleanup now => sm_if ho_cleanupTimer (cleanup_check now) (mret tt)
  | hv_close reason => close reason
  end.
(** A history of the host: an exception of one handler reaches its caller only. *)
Fixpoint host_run (events : list host_event) (h : host) : host :=
  match events with [] => h | e :: events => host_run events (host_step e h).2 end.
End Host.

Definition host_init (routes : host_routes) : host :=
  {| ho_routes := routes; ho_peers := []; ho_remote := []; ho_generation := 0; ho_cleanupTimer := false; ho_running := false; ho_wsIdleLeases := [];
     ho_upstreams := []; ho_inbound := []; ho_pendingUpstream := []; ho_pendingInbound := []; ho_sessions := []; ho_closedStreams := []; ho_deadSessions := [];
     ho_headersSent := []; ho_waiting := []; ho_next := 0; ho_log := [] |}.
