(* ===== verification/HostInvariants.v ===== *)
(** What the peers of a host keep (theory of [HostPeers]): the groups of remote
    brokers, the routes that follow the guests, and the snapshot of every broker.

    A handler is proved with the rules of [StateError]: [runs] for the parts that
    return, [wp] for those that may throw. *)
From S2P Require Import Prelude JsNum Utf8 Json Errors Headers ResponseMetadata Routing FederationCommon RouteLifecycle Vws Ndjson RouteRegistry RouteAuthorizer FederationHost LifecycleFlood HostRoutes LocalBroker StateError HostPeers.

(** ** The peers and the groups of remote brokers *)
Definition remote_broker (p : RegisteredPeer) : Prop := rp_role p = role_broker /\ rp_transport p = tr_h2.
(** A peer of a session, or a local one: a local broker is open. *)
Definition peer_shape (p : RegisteredPeer) : Prop :=
  match rp_transport p with
  | tr_h2 => is_Some (rp_session p) /\ rp_localBroker p = None
  | tr_local => rp_session p = None /\
      match rp_localBroker p with Some b => rp_role p = role_broker /\ lbs_closed b = false | None => rp_role p = role_guest end
  end.
Definition member_ok (m : nat * RegisteredPeer) : Prop := remote_broker m.2 /\ rp_session m.2 = Some m.1 /\ rp_localBroker m.2 = None.
(** The sessions of one broker id: one of them is the registered peer, and when
    there are several each was authenticated and registered alike. *)
Record group_ok (peers : list (jsstring * RegisteredPeer)) (id : jsstring) (ms : list (nat * RegisteredPeer)) : Prop := {
  go_wf : map_wf ms;
  go_members : Forall member_ok ms;
  go_leader : exists s p, map_get id peers = Some p /\ map_get s ms = Some p;
  go_alike : forall s p s' p', map_get s ms = Some p -> map_get s' ms = Some p' -> s <> s' ->
    is_Some (rp_brokerFingerprint p) /\ rp_brokerRegistrationKey p = rp_brokerRegistrationKey p';
}.
Record members_ok (h : host) : Prop := {
  mo_peers : map_wf (ho_peers h);
  mo_remote : map_wf (ho_remote h);
  mo_shape : Forall (fun p => trimmed_id p.1 /\ peer_shape p.2) (ho_peers h);
  mo_groups : forall id ms, map_get id (ho_remote h) = Some ms -> group_ok (ho_peers h) id ms;
  mo_brokers : forall id p, map_get id (ho_peers h) = Some p -> remote_broker p -> is_Some (map_get id (ho_remote h));
  mo_federation : forall id p, map_get id (ho_peers h) = Some p -> rp_transport p = tr_h2 -> isFederationPeerIdInUse h id = false;
}.

(** ** What waits *)
Definition domains_valid (domains : list jsstring) : Prop := domains <> [] /\ Forall (fun d => trim d <> []) domains.
Definition waiting_valid (w : waiting) : Prop :=
  match w with
  | wt_register _ id r _ _ => trimmed_id id /\ (hg_role r = role_guest -> domains_valid (hg_routedDomains r))
  | wt_localGuest _ id domains => trimmed_id id /\ domains_valid domains
  | wt_localBroker _ id _ => trimmed_id id
  | wt_closeLink _ _ running _ => running = true
  | _ => True
  end.
Definition upstream_of (w : nat * waiting) : option jsstring :=
  match w.2 with wt_upstream id _ _ | wt_upstreamPool id _ => Some id | _ => None end.
Record waiting_ok (h : host) : Prop := {
  wo_wf : map_wf (ho_waiting h);
  wo_next : Forall (fun w => (w.1 < ho_next h)%nat) (ho_waiting h);
  wo_valid : Forall (fun w => waiting_valid w.2) (ho_waiting h);
  wo_pending : forall id, id ∈ omap upstream_of (ho_waiting h) -> id ∈ ho_pendingUpstream h;
  wo_once : NoDup (omap upstream_of (ho_waiting h));
}.

(** ** Routes and guests *)
Definition is_guest (h : host) (id : jsstring) : Prop := exists p, map_get id (ho_peers h) = Some p /\ rp_role p = role_guest.
Section Registry.
Context {P : Platform} (options : HostRouteRegistryOptions).
Record routes_ok (h : host) : Prop := {
  ro_registry : registry_ok options (registry h);
  ro_local : Forall (fun p => trimmed_id p.1) (localRoutes (registry h));
  ro_degraded : Forall (fun p => trimmed_id p.1 /\ trim (rg_generationId (de_generation p.2)) <> []) (degradedRoutes (registry h));
}.
Record sound (h : host) : Prop := { so_members : members_ok h; so_waiting : waiting_ok h; so_routes : routes_ok h }.
(** The guests of the host are those with local routes, but for [ids]; no one
    else has local routes, and no connected guest has degraded ones. *)
Record follow (ids : list jsstring) (h : host) : Prop := {
  fo_local : forall id rs, map_get id (localRoutes (registry h)) = Some rs -> rs <> [] /\ (id ∉ ids -> is_guest h id);
  fo_degraded : forall id e, map_get id (degradedRoutes (registry h)) = Some e -> de_routes e <> [] /\ (id ∉ ids -> ~ is_guest h id);
}.
Definition closing (h : host) : Prop := Exists (fun w => match w.2 with wt_closeLink _ _ _ _ => True | _ => False end) (ho_waiting h).
(** Degraded routes are watched, unless the host shuts down. *)
Definition watched (h : host) : Prop := degradedRoutes (registry h) <> [] -> ho_cleanupTimer h = true \/ closing h.

(** ** What the brokers know *)
Definition snapshot_of (c : nat) (e : host_effect) : option (list RoutedDomainRegistration) :=
  match e with he_line c' (ln_registered rs | ln_routes rs) => if decide (c' = c) then Some rs else None | _ => None end.
(** The last route list written to a stream. *)
Definition last_snapshot (c : nat) (log : list host_effect) : option (list RoutedDomainRegistration) := last (omap (snapshot_of c) log).
(** Imports that the registry reports as unchanged are not told. *)
Definition same_export (reg reg' : HostRouteRegistry) : Prop :=
  localRoutes reg = localRoutes reg' /\ degradedRoutes reg = degradedRoutes reg' /\
  forall owner, routeSetKey (default [] (map_get owner (importedRoutes reg))) = routeSetKey (default [] (map_get owner (importedRoutes reg'))).
Definition current (h : host) (routes : list RoutedDomainRegistration) : Prop := exists reg, same_export reg (registry h) /\ routes = getBrokerRoutes reg.
Record in_sync (h : host) : Prop := {
  sy_remote : forall id c, (id, c) ∈ remote_controls h -> exists routes, last_snapshot c (ho_log h) = Some routes /\ current h routes;
  sy_local : forall id p b, map_get id (ho_peers h) = Some p -> rp_localBroker p = Some b -> current h (lbs_routes b);
}.
(** Everything but the timer, which a shutdown stops. *)
Record intact (h : host) : Prop := { in_sound : sound h; in_follow : follow [] h; in_synced : in_sync h }.
Record settled_host (h : host) : Prop := { se_sound : sound h; se_follow : follow [] h; se_watched : watched h; se_sync : in_sync h }.

(** ** Changes that none of this sees *)
Record similar (a b : host) : Prop := {
  sim_registry : registry b = registry a; sim_peers : ho_peers b = ho_peers a; sim_remote : ho_remote b = ho_remote a;
  sim_inbound : ho_inbound b = ho_inbound a; sim_pendingInbound : ho_pendingInbound b = ho_pendingInbound a;
  sim_upstreams : ho_upstreams b = ho_upstreams a; sim_pendingUpstream : ho_pendingUpstream b = ho_pendingUpstream a;
  sim_timer : ho_cleanupTimer b = ho_cleanupTimer a; sim_waiting : ho_waiting b = ho_waiting a; sim_next : ho_next b = ho_next a;
  sim_streams : forall s, stream_open b s = true -> stream_open a s = true;
  sim_log : forall c, last_snapshot c (ho_log b) = last_snapshot c (ho_log a);
}.
End Registry.

(** * Theory *)
#[local] Arguments map_delete : simpl never.
#[local] Arguments map_set : simpl never.
Lemma map_get_map {V} (f : jsstring * V -> jsstring * V) k (m : list (jsstring * V)) : (forall p, (f p).1 = p.1) ->
  map_get k (map f m) = (fun v => (f (k, v)).2) <$> map_get k m.
Proof.
  intros Hf. induction m as [|[k' v] m IH]; [done|]. cbn [map map_get]. specialize (Hf (k', v)). destruct (f (k', v)) as [k1 v1] eqn:E. cbn in Hf.
  subst k1. case_decide as Hk; [|done]. subst. cbn. by rewrite E.
Qed.

Lemma similar_refl h : similar h h.
Proof. by split. Qed.
Lemma similar_trans a b c : similar a b -> similar b c -> similar a c.
Proof. intros [] []. split; try congruence; auto. Qed.

Lemma last_snapshot_app c l k : last_snapshot c (l ++ k) = match last_snapshot c k with Some rs => Some rs | None => last_snapshot c l end.
Proof. unfold last_snapshot. rewrite omap_app, last_app. done. Qed.
Lemma no_snapshot c l : Forall (fun e => snapshot_of c e = None) l -> last_snapshot c l = None.
Proof. unfold last_snapshot. induction 1 as [|e l He _ IH]; [done|]. cbn. by rewrite He. Qed.

Section Similar.
Context {P : Platform} (options : HostRouteRegistryOptions).

Lemma similar_guest a b id : similar a b -> is_guest b id <-> is_guest a id.
Proof. intros []. unfold is_guest. by rewrite sim_peers0. Qed.
Lemma similar_sound a b : similar a b -> sound options a -> sound options b.
Proof.
  intros [] [[] [] []]. split; split; unfold isFederationPeerIdInUse in *; rewrite ?sim_registry0, ?sim_peers0, ?sim_remote0, ?sim_inbound0, ?sim_pendingInbound0,
    ?sim_upstreams0, ?sim_pendingUpstream0, ?sim_waiting0, ?sim_next0; assumption.
Qed.
Lemma similar_follow ids a b : similar a b -> follow ids a -> follow ids b.
Proof. intros Hs [H1 H2]. pose proof (sim_registry _ _ Hs) as Hr. split; intros id x; rewrite Hr, (similar_guest _ _ _ Hs); auto. Qed.
Lemma similar_watched a b : similar a b -> watched a -> watched b.
Proof. intros [] H. unfold watched, closing in *. by rewrite sim_registry0, sim_timer0, sim_waiting0. Qed.

Lemma remote_controls_elem h id c : (id, c) ∈ remote_controls h <->
  exists ms m, (id, ms) ∈ ho_remote h /\ m ∈ ms /\ rp_controlStream m.2 = Some c /\ stream_open h c = true.
Proof.
  unfold remote_controls. rewrite list_elem_of_In, in_concat. setoid_rewrite in_map_iff. setoid_rewrite <- list_elem_of_In. split.
  - intros (x & ([g ms] & <- & Hg) & Hx). apply list_elem_of_fmap in Hx as (c' & [= -> ->] & Hc).
    rewrite list_elem_of_In, in_concat in Hc. setoid_rewrite in_map_iff in Hc. destruct Hc as (y & (m & <- & Hm) & Hy).
    unfold open_control in Hy. destruct (rp_controlStream m.2) as [c1|] eqn:E; [|done]. destruct (stream_open h c1) eqn:Eo; [|done].
    destruct Hy as [->|[]]. apply list_elem_of_In in Hm. eauto 10.
  - intros (ms & m & Hg & Hm & Hc & Ho). eexists. split; [exists (id, ms); by split|]. apply list_elem_of_fmap. exists c. split; [done|].
    rewrite list_elem_of_In, in_concat. exists [c]. split; [|by left]. apply in_map_iff. exists m. split; [|by apply list_elem_of_In].
    unfold open_control. by rewrite Hc, Ho.
Qed.

Lemma similar_sync a b : similar a b -> in_sync a -> in_sync b.
Proof.
  intros Hs [H1 H2]. pose proof (sim_registry _ _ Hs) as Hr. split.
  - intros id c (ms & m & Hg & Hm & Hc & Ho)%remote_controls_elem. rewrite (sim_log _ _ Hs). unfold current. rewrite Hr. eapply (H1 id), remote_controls_elem.
    rewrite (sim_remote _ _ Hs) in Hg. exists ms, m. split_and!; try done. by apply (sim_streams _ _ Hs).
  - intros id p b'. rewrite (sim_peers _ _ Hs). unfold current. rewrite Hr. apply H2.
Qed.
Lemma similar_settled a b : similar a b -> settled_host options a -> settled_host options b.
Proof. intros Hs []. split; eauto using similar_sound, similar_follow, similar_watched, similar_sync. Qed.

(** ** Operations that nothing of this sees *)
Definition quiet (m : sm host unit) : Prop := forall h, exists h', m h = (Ok tt, h') /\ similar h h'.
Lemma quiet_runs m h (Q : unit -> host -> Prop) : quiet m -> (forall h', similar h h' -> Q tt h') -> runs m h Q.
Proof. intros H HQ. destruct (H h) as (h' & E & Hs). exists tt, h'. auto. Qed.
Lemma wp_quiet m h (Post : result exn unit -> host -> Prop) : quiet m -> (forall h', similar h h' -> Post (Ok tt) h') -> wp m Post h.
Proof. intros H HQ. destruct (H h) as (h' & E & Hs). unfold wp. rewrite E. by apply HQ. Qed.
Lemma quiet_keeps m : quiet m -> keeps similar m.
Proof. intros H h. destruct (H h) as (h' & -> & Hs). exact Hs. Qed.
Lemma quiet_modify f : (forall h, similar h (f h)) -> quiet (sm_modify f).
Proof. intros H h. exists (f h). by split. Qed.
Lemma quiet_bind m n : quiet m -> quiet n -> quiet (_ ← m; n).
Proof.
  intros Hm Hn h. destruct (Hm h) as (h' & E & Hs). destruct (Hn h') as (h'' & E' & Hs'). exists h''.
  unfold mbind, sm_bind. rewrite E. split; [exact E'|by eapply similar_trans].
Qed.
Lemma quiet_get {A} (f : host -> A) k : (forall a, quiet (k a)) -> quiet (x ← sm_get f; k x).
Proof. intros H h. apply (H (f h) h). Qed.
Lemma quiet_when b m : quiet m -> quiet (sm_when b m).
Proof. intros H. destruct b; [exact H|]. intros h. exists h. split; [done|apply similar_refl]. Qed.
Lemma quiet_ret : quiet (mret tt).
Proof. intros h. exists h. split; [done|apply similar_refl]. Qed.

Definition no_line (e : host_effect) : bool := match e with he_line _ (ln_registered _ | ln_routes _) => false | _ => true end.
Lemma no_line_snapshot c e : no_line e = true -> snapshot_of c e = None.
Proof. destruct e; try done. by destruct line. Qed.
Lemma similar_log l h : Forall (fun e => no_line e = true) l -> similar h (add_log l h).
Proof.
  intros Hl. split; try done. intros c. cbn [add_log ho_log]. rewrite last_snapshot_app, no_snapshot; [done|].
  eapply Forall_impl; [exact Hl|]. intros e. apply no_line_snapshot.
Qed.
Lemma similar_streams c d s h : (forall x, x ∈ ho_closedStreams h -> x ∈ c) -> similar h (upd_streams c d s h).
Proof.
  intros Hc. split; try done. intros x. unfold stream_open. cbn [ho_closedStreams upd_streams]. destruct (set_has x (ho_closedStreams h)) eqn:E; [|done].
  apply set_has_elem, Hc, set_has_elem in E. by rewrite E.
Qed.
Lemma quiet_emit l : Forall (fun e => no_line e = true) l -> quiet (emit l).
Proof. intros H. apply quiet_modify. intros h. by apply similar_log. Qed.
Lemma quiet_lifecycle name id role reason : quiet (emitLifecycle name id role reason).
Proof. apply quiet_emit. by constructor. Qed.
Lemma quiet_respond s status : quiet (respond s status).
Proof. apply quiet_modify. intros h. eapply similar_trans; [|apply similar_log; by constructor]. by apply similar_streams. Qed.
Lemma quiet_respond_json s status body : quiet (respond_json s status body).
Proof.
  apply quiet_get. intros u. apply quiet_bind; [apply quiet_when, quiet_respond|]. apply quiet_get. intros o. apply quiet_when, quiet_emit. by constructor.
Qed.
Lemma quiet_close_session s : quiet (close_session s).
Proof. apply quiet_modify. intros h. eapply similar_trans; [|apply similar_log; by constructor]. by apply similar_streams. Qed.
Lemma quiet_destroy_session s : quiet (destroy_session s).
Proof. apply quiet_modify. intros h. eapply similar_trans; [|apply similar_log; by constructor]. by apply similar_streams. Qed.
Lemma quiet_sendError s e : quiet (sendError s e).
Proof.
  apply quiet_get. intros o. apply quiet_when, quiet_get. intros u. apply quiet_bind; [apply quiet_when, quiet_respond|]. apply quiet_emit. by constructor.
Qed.
Lemma quiet_invalidate : quiet invalidateRouteAuthorizations.
Proof. apply quiet_modify. by intros h. Qed.
Lemma quiet_ws f : quiet (sm_modify (upd_ws f)).
Proof. apply quiet_modify. by intros h. Qed.
Lemma closing_streams (l k : list nat) s : s ∈ k -> s ∈ fold_left (fun l s => set_add s l) l k.
Proof. revert k. induction l as [|x l IH]; intros k H; [done|]. cbn. apply IH, set_add_elem. by right. Qed.
Lemma quiet_clearWs id : quiet (clearWsIdleLeases id).
Proof.
  apply quiet_modify. intros h. destruct (map_get id (ho_wsIdleLeases h)) as [ls|]; [|apply similar_refl].
  eapply similar_trans; [|apply similar_log].
  - apply (similar_trans _ (upd_ws (map_delete id) h)); [done|]. apply similar_streams. intros x. apply closing_streams.
  - apply Forall_forall. intros e (s & -> & _)%list_elem_of_fmap. done.
Qed.
End Similar.
Create HintDb quiet.
#[export] Hint Resolve quiet_emit quiet_lifecycle quiet_respond quiet_respond_json quiet_close_session quiet_destroy_session quiet_sendError quiet_invalidate
  quiet_ws quiet_clearWs quiet_when quiet_ret quiet_bind : quiet.
(** The fields a record of facts is about did not change. *)
Ltac carry H := solve [destruct H; split; assumption].
Ltac quiet_tac := solve [auto 6 with quiet | apply quiet_emit; repeat constructor].

Section Advertising.
Context {P : Platform} (options : HostRouteRegistryOptions) (hostId : option jsstring) (fresh : jsstring).

(** ** Telling the local brokers *)
Implicit Types (f : LocalBrokerState -> LocalBrokerState * list broker_effect).
Definition keeps_open f : Prop := forall b, lbs_closed (fst (f b)) = lbs_closed b.
Lemma olb_key f p : ((on_local_broker f p).1).1 = p.1.
Proof. unfold on_local_broker. repeat case_match; done. Qed.
Lemma olb_same f id p : rp_transport p = tr_h2 \/ rp_localBroker p = None -> ((on_local_broker f (id, p)).1).2 = p.
Proof. intros [E|E]; unfold on_local_broker; cbn [snd fst]; rewrite E; by repeat case_match. Qed.
Lemma olb_role f id p : rp_role ((on_local_broker f (id, p)).1).2 = rp_role p /\ rp_transport ((on_local_broker f (id, p)).1).2 = rp_transport p.
Proof. unfold on_local_broker. repeat case_match; cbn in *; by rewrite ?H, ?H0. Qed.
Lemma olb_shape f id p : keeps_open f -> peer_shape p -> peer_shape ((on_local_broker f (id, p)).1).2.
Proof.
  intros Hf. unfold on_local_broker, peer_shape. cbn [snd fst]. destruct (rp_role p) eqn:Er; [|cbn [snd fst]; by rewrite Er].
  destruct (rp_transport p) eqn:Et; [cbn [snd fst]; by rewrite Er, Et|]. destruct (rp_localBroker p) as [b|] eqn:Eb; [|cbn [snd fst]; by rewrite Er, Et, Eb].
  specialize (Hf b). destruct (f b) as [b' e]. cbn in Hf |- *. rewrite Et, Er. intros (? & _ & ?). split_and!; congruence.
Qed.
Lemma olb_broker f id p b : peer_shape p -> rp_localBroker ((on_local_broker f (id, p)).1).2 = Some b ->
  exists b0, rp_localBroker p = Some b0 /\ lbs_closed b0 = false /\ b = fst (f b0).
Proof.
  unfold peer_shape, on_local_broker. cbn [snd fst]. destruct (rp_transport p) eqn:Et.
  - intros [_ E]. rewrite E. destruct (rp_role p); cbn; by rewrite E.
  - destruct (rp_localBroker p) as [b0|] eqn:Eb.
    + intros (_ & Er & Hc). rewrite Er. destruct (f b0) as [b1 e] eqn:Ef. cbn. intros [= <-]. exists b0. by rewrite Ef.
    + intros (_ & Er). rewrite Er. cbn. by rewrite Eb.
Qed.

Lemma updated_peer f h id : map_get id (ho_peers (update_local_brokers f h)) = (fun p => ((on_local_broker f (id, p)).1).2) <$> map_get id (ho_peers h).
Proof. cbn [update_local_brokers add_log ho_peers upd_peers]. apply (map_get_map (fun p => (on_local_broker f p).1)). intros p. apply olb_key. Qed.
Lemma update_guest f h id : is_guest (update_local_brokers f h) id <-> is_guest h id.
Proof.
  unfold is_guest. rewrite updated_peer. destruct (map_get id (ho_peers h)) as [p|]; cbn; [|naive_solver].
  pose proof (olb_role f id p) as [Hr _]. split; intros (q & [= <-] & Hq); eexists; (split; [done|]); congruence.
Qed.
Lemma update_keys f h : map_keys (ho_peers (update_local_brokers f h)) = map_keys (ho_peers h).
Proof.
  unfold map_keys. cbn.
  induction (ho_peers h) as [|p l IH]; [done|]. csimpl. by rewrite olb_key, IH.
Qed.
Lemma update_members f h : keeps_open f -> members_ok h -> members_ok (update_local_brokers f h).
Proof.
  intros Hf [H1 H2 H3 H4 H5 H6]. split.
  - unfold map_wf. by rewrite update_keys.
  - done.
  - cbn. apply Forall_forall. intros q (p & -> & Hp)%list_elem_of_fmap. rewrite Forall_forall in H3. destruct (H3 p Hp) as [Hv Hs].
    rewrite olb_key. split; [done|]. destruct p as [id p]. by apply olb_shape.
  - intros id ms Hms. destruct (H4 id ms Hms) as [G1 G2 (s & p & Hp & Hs) G4]. split; try done. exists s, p. split; [|done].
    rewrite updated_peer, Hp. cbn. f_equal. apply olb_same. left. eapply map_get_Forall in G2 as [[_ Ht] _]; [|exact Hs]. done.
  - intros id q. rewrite updated_peer. destruct (map_get id (ho_peers h)) as [p|] eqn:E; [|done]. cbn. intros [= <-] [Hr Ht]. destruct (olb_role f id p) as [Hr' Ht'].
    apply (H5 id p E). split; congruence.
  - intros id q. rewrite updated_peer. destruct (map_get id (ho_peers h)) as [p|] eqn:E; [|done]. cbn. intros [= <-] Ht. destruct (olb_role f id p) as [_ Ht'].
    apply (H6 id p E). congruence.
Qed.
Lemma update_sound f h : keeps_open f -> sound options h -> sound options (update_local_brokers f h).
Proof. intros Hf [H1 H2 H3]. split; [by apply update_members|carry H2|carry H3]. Qed.
Lemma update_follow f ids h : follow ids h -> follow ids (update_local_brokers f h).
Proof. intros [H1 H2]. split; intros id x; setoid_rewrite update_guest; auto. Qed.

Lemma resolve_keeps b routes : lbs_routes (fst (resolve_routes b routes)) = lbs_routes b /\ lbs_closed (fst (resolve_routes b routes)) = lbs_closed b.
Proof.
  revert b. induction routes as [|r routes IH]; intros b; [done|]. cbn [resolve_routes resolve_domain].
  specialize (IH (with_waiters b (map_delete (rd_domain r) (lbs_routeWaiters b)))). by destruct (resolve_routes _ _).
Qed.
Lemma updated_broker b routes : lbs_closed b = false -> lbs_routes (fst (updateLocalBrokerRoutes b routes)) = routes.
Proof. intros H. unfold updateLocalBrokerRoutes. rewrite H. apply resolve_keeps. Qed.
Lemma update_open routes : keeps_open (fun b => updateLocalBrokerRoutes b routes).
Proof. intros b. unfold updateLocalBrokerRoutes. destruct (lbs_closed b) eqn:E; [done|]. rewrite (proj2 (resolve_keeps _ _)). done. Qed.
Lemma change_open b e : lbs_closed (fst (emitLocalBrokerRouteChange b e)) = lbs_closed b.
Proof. unfold emitLocalBrokerRouteChange. destruct (lbs_closed b) eqn:E; [done|]. by destruct (le_type e). Qed.
Lemma changes_open events : keeps_open (fun b => emit_changes b events).
Proof.
  induction events as [|e events IH]; intros b; [done|]. cbn [emit_changes]. pose proof (change_open b e) as He.
  destruct (emitLocalBrokerRouteChange b e) as [b1 x]. specialize (IH b1). cbn in He, IH |- *. destruct (emit_changes b1 events) as [b2 y]. cbn in *. congruence.
Qed.

(** ** Telling everyone *)
Lemma same_export_refl reg : same_export reg reg.
Proof. done. Qed.
Lemma current_now h : current h (getRoutedDomains h).
Proof. exists (registry h). split; [apply same_export_refl|done]. Qed.

Lemma written_snapshot routes (h : host) log id c : (id, c) ∈ remote_controls h ->
  last_snapshot c (log ++ concat (map (fun pc => [he_line pc.2 (ln_routes routes); he_lifecycle lc_routeAdvertised (Some pc.1) (Some role_broker) None]) (remote_controls h)))
  = Some routes.
Proof.
  rewrite last_snapshot_app. generalize (remote_controls h). intros l Hl.
  assert (Forall (fun rs => rs = routes) (omap (snapshot_of c)
    (concat (map (fun pc : jsstring * nat => [he_line pc.2 (ln_routes routes); he_lifecycle lc_routeAdvertised (Some pc.1) (Some role_broker) None]) l)))) as Hall.
  { clear Hl. induction l as [|pc l IH]; [constructor|]. cbn. case_decide; cbn; [by constructor|done]. }
  unfold last_snapshot. destruct (last (omap _ _)) as [rs|] eqn:E.
  - apply last_Some_elem_of in E. rewrite Forall_forall in Hall. by rewrite (Hall _ E).
  - exfalso. apply last_None in E. revert E. clear Hall. induction l as [|pc l IH]; [by apply elem_of_nil in Hl|]. cbn.
    apply elem_of_cons in Hl as [<-|Hl]; cbn; [by rewrite decide_True by done|]. case_decide; [done|]. by apply IH.
Qed.

(** After the route list went out, everyone has it. *)
Lemma advertise_spec h : sound options h ->
  runs advertiseRoutes h (fun _ h' => sound options h' /\ in_sync h' /\ registry h' = registry h /\ (forall ids, follow ids h -> follow ids h') /\ (watched h -> watched h')).
Proof.
  intros Hs. apply runs_modify. set (f := fun b => updateLocalBrokerRoutes b (getRoutedDomains h)).
  assert (sound options (update_local_brokers f h)) as Hu by (apply update_sound; [apply update_open|done]). split_and!.
  - destruct Hu as [U1 U2 U3]. split; [carry U1|carry U2|carry U3].
  - split.
    + intros id c Hc. exists (getRoutedDomains h). split; [|exact (current_now h)]. cbn [upd_routes ho_log write_brokers add_log]. by apply (written_snapshot _ (update_local_brokers f h) _ id).
    + intros id q b Hq Hb. change (map_get id (ho_peers (update_local_brokers f h)) = Some q) in Hq. rewrite updated_peer in Hq.
      destruct (map_get id (ho_peers h)) as [p|] eqn:Ep; [|done]. injection Hq as <-. destruct Hs as [[_ _ Hsh _ _ _] _ _].
      eapply map_get_Forall in Hsh as [_ Hsh]; [|exact Ep]. cbn in Hsh. apply olb_broker in Hb as (b0 & _ & Hc & ->); [|done]. unfold f. rewrite updated_broker by done. exact (current_now h).
  - done.
  - intros ids Hf. apply (update_follow f) in Hf. destruct Hf as [F1 F2]. split; [exact F1|exact F2].
  - done.
Qed.

Context {C : ConsistentCollation} (Hhost : trimmed_id (ro_hostId options)).

Lemma on_routes_similar g h : hr_registry (g (ho_routes h)) = hr_registry (ho_routes h) -> similar h (upd_routes g h).
Proof. intros H. split; try done. Qed.
Lemma federated_runs h (Q : unit -> host -> Prop) : sound options h -> (forall h', similar h h' -> Q tt h') -> runs (advertiseFederatedRoutes options) h Q.
Proof using C Hhost.
  intros [_ _ [Hr _ _]] HQ. eapply runs_part with (a := tt); [|apply HQ, (on_routes_similar (hr_send (snapshots options (ho_routes h)))); done].
  by rewrite (advertiseFederatedRoutes_ok options Hhost).
Qed.

(** ** Lifecycle events *)
Definition generation_valid (g : VerserRouteGeneration) : Prop := trim (rg_generationId g) <> [].
Record event_valid (e : VerserRouteLifecycleEvent) : Prop := {
  ev_target : trim (le_targetId e) <> []; ev_domain : trim (le_domain e) <> []; ev_generation : from_option generation_valid True (le_generation e);
}.
Lemma valid_nonblank s : trimmed_id s -> trim s <> [].
Proof. intros [E H]. by rewrite E. Qed.
Lemma nonempty_id s label : trim s <> [] -> requireNonEmpty s label = Ok (trim s).
Proof. intros H. by apply requireNonEmpty_Ok. Qed.
Lemma generation_Ok s g : generation_valid g ->
  exists g', createVerserRouteGeneration s {| gi_generationId := Some (rg_generationId g); gi_sessionId := rg_sessionId g |} = Ok g' /\ generation_valid g'.
Proof.
  intros H. unfold createVerserRouteGeneration. cbn [gi_generationId default from_option id]. rewrite (proj2 (nonblank_len _)) by done.
  eexists. split; [done|]. unfold generation_valid. cbn [rg_generationId]. by rewrite trim_idem.
Qed.
Lemma route_event_Ok type id d reason g : trimmed_id id -> trim d <> [] -> from_option generation_valid True g ->
  exists e, route_event fresh type id d reason g = Ok e /\ event_valid e.
Proof.
  intros Hid Hd Hg. unfold route_event, createRouteLifecycleEvent. cbn [ei_type ei_reason ei_targetId ei_domain ei_generation]. rewrite find_event_type, find_event_reason.
  cbn [mbind result_bind]. rewrite !nonempty_id by auto using valid_nonblank. cbn [mbind result_bind].
  destruct g as [g|]; cbn [fmap option_fmap option_map].
  - destruct (generation_Ok fresh g Hg) as (g' & -> & Hg'). eexists. split; [done|]. split; cbn [le_targetId le_domain le_generation from_option]; rewrite ?trim_idem; auto using valid_nonblank.
  - eexists. split; [done|]. split; cbn [le_targetId le_domain le_generation from_option]; rewrite ?trim_idem; auto using valid_nonblank.
Qed.

Lemma raw_generation_Ok g : generation_valid g -> exists g', raw_generation fresh (generation_json g) = Ok g'.
Proof.
  intros H. unfold raw_generation. destruct g as [i s]. change (js_opt_member (js "generationId") _) with (JStr i). cbn [nullish].
  unfold throw_if. rewrite (proj2 (nonblank_len i)) by done. cbn [mbind result_bind]. destruct s as [s|]; [|by eexists].
  change (js_opt_member (js "sessionId") _) with (JStr s). by eexists.
Qed.
Lemma raw_event_Ok e : event_valid e -> exists e', raw_event fresh (event_json e) = Ok e'.
Proof.
  intros [Ht Hd Hg]. destruct e as [ty t d r g]. cbn [le_targetId le_domain le_generation] in *. unfold raw_event.
  set (o := event_json _).
  assert (js_opt_member (js "type") o = JStr (event_type_name ty)) as -> by (by destruct r, g).
  assert (js_opt_member (js "targetId") o = JStr t) as -> by (by destruct r, g).
  assert (js_opt_member (js "domain") o = JStr d) as -> by (by destruct r, g).
  assert (js_opt_member (js "reason") o = from_option (fun r => JStr (event_reason_name r)) JUndef r) as -> by (by destruct r, g).
  assert (js_opt_member (js "generation") o = from_option generation_json JUndef g) as -> by (by destruct r, g).
  assert (find (fun t => is_str (event_type_name t) (JStr (event_type_name ty))) VALID_EVENT_TYPES = Some ty) as -> by (by destruct ty).
  unfold require_text. rewrite !nonempty_id by done.
  destruct g as [g|]; cbn [from_option] in *.
  - destruct (raw_generation_Ok g Hg) as (g' & Eg). unfold generation_json in *. destruct r as [r|]; cbn [from_option]; [|cbn [mbind result_bind]; rewrite Eg; by eexists].
    assert (find (fun t => is_str (event_reason_name t) (JStr (event_reason_name r))) VALID_EVENT_REASONS = Some r) as -> by (by destruct r).
    cbn [mbind result_bind]. rewrite Eg. by eexists.
  - destruct r as [r|]; cbn [from_option]; [|by eexists].
    assert (find (fun t => is_str (event_reason_name t) (JStr (event_reason_name r))) VALID_EVENT_REASONS = Some r) as -> by (by destruct r).
    by eexists.
Qed.
Lemma events_Ok {A} (F : A -> result exn VerserRouteLifecycleEvent) l : (forall x, x ∈ l -> exists e, F x = Ok e /\ event_valid e) ->
  exists es, map_res F l = Ok es /\ Forall event_valid es.
Proof.
  induction l as [|x l IH]; intros H; [by exists []|]. destruct (H x) as (e & Ee & He); [by left|]. destruct IH as (es & Ees & Hes); [intros y Hy; apply H; by right|].
  exists (e :: es). cbn. rewrite Ee. cbn. rewrite Ees. split; [done|by constructor].
Qed.
Lemma frame_Ok es : Forall event_valid es -> exists frame, raw_lifecycle_frame fresh (map event_json es) = Ok frame.
Proof.
  intros H. unfold raw_lifecycle_frame. assert (exists k, map_res (raw_event fresh) (map event_json es) = Ok k) as (k & ->); [|by eexists].
  induction H as [|e es He _ (k & IH)]; [by eexists|]. destruct (raw_event_Ok e He) as (e' & Ee). exists (e' :: k). cbn. rewrite Ee. cbn. by rewrite IH.
Qed.

(** The same peers, but for what the local brokers know. *)
Record same_members (a b : host) : Prop := {
  sm_guest : forall id, is_guest b id <-> is_guest a id; sm_waiting : ho_waiting b = ho_waiting a; sm_remote : ho_remote b = ho_remote a;
  sm_h2 : forall id p, rp_transport p = tr_h2 -> map_get id (ho_peers b) = Some p <-> map_get id (ho_peers a) = Some p;
}.
Lemma same_members_refl h : same_members h h.
Proof. by split. Qed.
Lemma same_members_trans a b c : same_members a b -> same_members b c -> same_members a c.
Proof. intros [] []. split; try congruence; [intros id; by rewrite <- sm_guest0|]. intros id p Ht. by rewrite sm_h4, sm_h3. Qed.
Lemma update_same f h : same_members h (update_local_brokers f h).
Proof.
  split; try done; [intros id; apply update_guest|]. intros id q Ht. rewrite updated_peer. destruct (map_get id (ho_peers h)) as [p|]; [|done]. cbn.
  destruct (rp_transport p) eqn:Et; [by rewrite olb_same by (by left)|]. destruct (olb_role f id p) as [_ E]. split; intros [= <-]; congruence.
Qed.
(** What a handler does between a change of the routes and its advertisement. *)
Record told (a b : host) : Prop := {
  tl_sound : sound options a -> sound options b; tl_registry : registry b = registry a; tl_timer : ho_cleanupTimer b = ho_cleanupTimer a; tl_members : same_members a b;
}.
Lemma similar_members a b : similar a b -> same_members a b.
Proof. intros H. split; [intros id; by apply similar_guest|apply H|apply H|]. intros id p _. by rewrite (sim_peers _ _ H). Qed.
Lemma similar_told a b : similar a b -> told a b.
Proof. intros H. split; [by apply similar_sound|apply H|apply H|by apply similar_members]. Qed.
Lemma told_refl h : told h h.
Proof. split; [done..|apply same_members_refl]. Qed.
Lemma told_trans a b c : told a b -> told b c -> told a c.
Proof. intros [] []. split; [auto|congruence|congruence|by eapply same_members_trans]. Qed.
Definition tl_guest a b (H : told a b) := sm_guest _ _ (tl_members _ _ H).
Lemma told_follow ids a b : told a b -> follow ids a -> follow ids b.
Proof. intros Ht [H1 H2]. split; intros id x; rewrite (tl_registry _ _ Ht), (tl_guest _ _ Ht); auto. Qed.
Lemma told_watched a b : told a b -> watched a -> watched b.
Proof. intros Ht H. unfold watched, closing. by rewrite (tl_registry _ _ Ht), (tl_timer _ _ Ht), (sm_waiting _ _ (tl_members _ _ Ht)). Qed.

#[local] Abbreviation events_out := (HostPeers.advertiseRouteLifecycleEvents hostId fresh).
Lemma events_runs es h (Q : unit -> host -> Prop) : Forall event_valid es -> (forall h', told h h' -> Q tt h') -> runs (events_out es) h Q.
Proof.
  intros He HQ. unfold HostPeers.advertiseRouteLifecycleEvents. destruct es as [|e es]; [apply runs_ret, HQ, told_refl|].
  destruct (frame_Ok (e :: es) He) as (frame & Ef). apply runs_bind. eapply runs_lift; [exact Ef|]. apply runs_bind, runs_modify.
  set (h1 := write_brokers _ _).
  assert (told h h1) as H1.
  { split; try done.
    - intros Hs. apply (update_sound (fun b => emit_changes b (e :: es))) in Hs; [|apply changes_open]. destruct Hs as [S1 S2 S3]. split; [carry S1|carry S2|carry S3].
    - pose proof (update_same (fun b => emit_changes b (e :: es)) h) as U. carry U. }
  unfold on_host_routes. eapply runs_part.
  - unfold HostRoutes.advertiseRouteLifecycleEvents. cbn [map]. cbn [map] in Ef. rewrite Ef. reflexivity.
  - apply HQ. eapply told_trans; [exact H1|]. apply similar_told, (on_routes_similar (fun _ => _)). unfold forwardFederationEventsToPeers. by destruct (prop _ _).
Qed.

(** ** Losing a guest *)
Definition set_reg (reg : HostRouteRegistry) (h : host) : host := upd_registry (fun _ => reg) h.
Lemma registry_runs {A} (f : HostRouteRegistry -> result exn A * HostRouteRegistry) h a reg (Q : A -> host -> Prop) :
  f (registry h) = (Ok a, reg) -> Q a (set_reg reg h) -> runs (on_registry f) h Q.
Proof. intros E HQ. by eapply runs_part. Qed.
Lemma set_reg_sound reg h : sound options h -> routes_ok options (set_reg reg h) -> sound options (set_reg reg h).
Proof. intros [H1 H2 H3] H. split; [carry H1|carry H2|exact H]. Qed.

Lemma created_generation s i g : createVerserRouteGeneration s i = Ok g -> generation_valid g.
Proof.
  unfold createVerserRouteGeneration. destruct (_ =? 0) eqn:E; [done|]. intros [= <-]. apply nonblank_len in E. unfold generation_valid. cbn [rg_generationId]. by rewrite trim_idem.
Qed.
Lemma setDegraded_spec now id reg : map_get id (degradedRoutes reg) = None ->
  (map_get id (localRoutes reg) = None /\ RouteRegistry.setDegraded now id reg = (Ok tt, reg)) \/
  exists rs e reg', map_get id (localRoutes reg) = Some rs /\ RouteRegistry.setDegraded now id reg = (Ok tt, reg') /\ generation_valid (de_generation e) /\ de_routes e = rs /\ de_degradedAt e = now /\
    localRoutes reg' = map_delete id (localRoutes reg) /\ degradedRoutes reg' = map_set id e (degradedRoutes reg).
Proof.
  intros Hd. unfold RouteRegistry.setDegraded. destruct (map_get id (localRoutes reg)) as [rs|]; [right|by left]. unfold map_has. rewrite Hd.
  destruct (generation_never_throws (routeGenerationCounter (next_generation reg)) (Some id)) as (g & Eg). rewrite Eg.
  exists rs, {| de_routes := rs; de_degradedAt := now; de_generation := g |}. eexists. split_and!; try done. by eapply created_generation.
Qed.
Lemma degraded_generation h id d g : routes_ok options h -> getRouteGeneration id d (registry h) = Some g -> generation_valid g.
Proof.
  intros [_ _ H]. unfold getRouteGeneration. destruct (map_get id (degradedRoutes (registry h))) as [e|] eqn:E; [|done]. cbn [mbind option_bind].
  destruct (find _ _); [|done]. cbn. intros [= <-]. by eapply map_get_Forall in H as [_ H]; [|exact E].
Qed.
Lemma on_host_domains r : route_on_host options r -> trim (fr_domain r) <> [].
Proof. intros [[_ [E H] _ _ _ _] _ _ _ _ _]. by rewrite E. Qed.

(** A peer that was just removed. *)
Record departed (id : jsstring) (h : host) : Prop := {
  dp_sound : sound options h; dp_follow : follow [id] h; dp_gone : ~ is_guest h id; dp_fresh : map_get id (degradedRoutes (registry h)) = None; dp_valid : trimmed_id id;
}.
Lemma departed_told id a b : told a b -> departed id a -> departed id b.
Proof. intros Ht []. split; [by apply Ht|by eapply told_follow|by rewrite (tl_guest _ _ Ht)|by rewrite (tl_registry _ _ Ht)|done]. Qed.

Lemma degraded_follow id h now : departed id h -> exists reg, RouteRegistry.setDegraded now id (registry h) = (Ok tt, reg) /\
  sound options (set_reg reg h) /\ follow [] (set_reg reg h) /\
  (map_get id (degradedRoutes reg) = None /\ reg = registry h \/ exists e, map_get id (degradedRoutes reg) = Some e /\ de_routes e <> []).
Proof.
  intros [Hs [F1 F2] Hg Hf Hv]. pose proof Hs as [_ _ [R1 R2 R3]]. pose proof (setDegraded_ok options now id _ R1) as Hok.
  destruct (setDegraded_spec now id (registry h) Hf) as [[El ->]|(rs & e & reg & El & E & Hge & <- & _ & Hl & Hd)].
  - exists (registry h). split_and!; [done| | |by left].
    + apply set_reg_sound; [done|]. by destruct Hs as [_ _ H]; carry H.
    + split; intros i x Hi; cbn in Hi |- *; [destruct (decide (i = id)) as [->|]|destruct (decide (i = id)) as [->|]]; try congruence;
        [destruct (F1 _ _ Hi) as [? H]|destruct (F2 _ _ Hi) as [? H]]; (split; [done|]); intros _; apply H; by rewrite list_elem_of_singleton.
  - exists reg. rewrite E in Hok. cbn [snd] in Hok. destruct (F1 _ _ El) as [Hne _]. split_and!; [done| | |].
    + apply set_reg_sound; [done|]. split; cbn; [done|rewrite Hl; by apply map_delete_Forall|rewrite Hd; by apply map_set_Forall].
    + split; intros i x; cbn.
      * rewrite Hl, map_get_delete. case_decide as Hi; [done|]. intros Hx. destruct (F1 _ _ Hx) as [? H]. split; [done|]. intros _. apply H. by rewrite list_elem_of_singleton.
      * rewrite Hd, map_get_set. case_decide as Hi; [intros [= <-]; subst i; by split|]. intros Hx. destruct (F2 _ _ Hx) as [? H]. split; [done|]. intros _. apply H.
        by rewrite list_elem_of_singleton.
    + right. exists e. by rewrite Hd, map_get_set_eq.
Qed.

Lemma degrade_runs now id reason tr h (Q : unit -> host -> Prop) : departed id h ->
  (forall h', sound options h' -> follow [] h' -> (watched h -> watched h') -> same_members h h' -> registry h' = (RouteRegistry.setDegraded now id (registry h)).2 -> Q tt h') ->
  runs (degrade_routes hostId fresh now id reason tr) h Q.
Proof.
  intros Hd HQ. unfold degrade_routes. apply runs_bind, quiet_runs; [quiet_tac|]. intros h1 H1. pose proof (departed_told _ _ _ (similar_told _ _ H1) Hd) as Hd1.
  destruct (degraded_follow id h1 now Hd1) as (reg & E & Hs2 & Hf2 & Hdeg). apply runs_bind. eapply registry_runs; [exact E|]. set (h2 := set_reg reg h1) in *.
  apply runs_bind, quiet_runs; [quiet_tac|]. intros h3 H3. apply runs_bind, quiet_runs; [quiet_tac|]. intros h4 H4. apply runs_bind, quiet_runs; [quiet_tac|]. intros h5 H5.
  apply runs_bind, runs_get. pose proof (similar_trans _ _ _ (similar_trans _ _ _ H3 H4) H5) as H25.
  assert (registry h5 = reg) as Hr by (by rewrite (sim_registry _ _ H25)).
  assert (same_members h h5) as Hm.
  { apply (same_members_trans _ h1); [by apply similar_members|]. apply (same_members_trans _ h2); [by split|by apply similar_members]. }
  apply runs_bind. unfold getDegradedBrokerRoutesForPeer. rewrite Hr. destruct Hdeg as [[-> ->]|(e & Ee & Hne)]; [|rewrite Ee].
  - apply runs_when; [done|]. intros _. apply quiet_runs; [quiet_tac|]. intros h6 H6. pose proof (similar_trans _ _ _ H25 H6) as H26. apply HQ.
    + by eapply similar_sound.
    + by eapply similar_follow.
    + intros Hw. eapply similar_watched; [exact H26|]. by apply (similar_watched _ _ H1).
    + eapply same_members_trans; [exact Hm|by apply similar_members].
    + rewrite (sim_registry _ _ H6), Hr. rewrite <- (sim_registry _ _ H1), E. done.
  - apply runs_when; [intros _|destruct (de_routes e); [done|by unfold len; cbn; intros ?%Z.ltb_ge; lia]]. apply runs_bind, runs_get. rewrite Hr.
    assert (sound options h5) as Hs5 by (by eapply similar_sound).
    destruct (events_Ok (fun r => route_event fresh ev_degraded id (rd_domain r) rs_disconnected (getRouteGeneration id (rd_domain r) reg)) (map broker_route (de_routes e)))
      as (es & Ees & Hes).
    { intros r (fr & -> & Hfr)%list_elem_of_fmap. apply route_event_Ok; [apply Hd| |].
      - assert (route_on_host options fr) as Hon; [|by apply on_host_domains]. destruct Hs5 as [_ _ [[_ _ _ _ _ Hdg _] _ _]]. rewrite Hr in Hdg.
        eapply map_get_Forall in Hdg; [|exact Ee]. cbn in Hdg. by eapply Forall_forall in Hdg.
      - destruct (getRouteGeneration _ _ reg) as [g|] eqn:Eg; [|done]. rewrite <- Hr in Eg. eapply degraded_generation; [apply Hs5|exact Eg]. }
    apply runs_bind. eapply runs_lift; [exact Ees|]. apply runs_bind, events_runs; [done|]. intros h6 H6. apply runs_modify. set (h7 := upd_flags _ _ _ h6).
    apply quiet_runs; [quiet_tac|]. intros h8 H8. assert (sound options h6) as Hs6 by (by apply H6).
    assert (sound options h7) as Hs7 by (destruct Hs6 as [S1 S2 S3]; split; [carry S1|carry S2|carry S3]).
    assert (follow [] h6) as Hf6 by (eapply (told_follow _ h5); [done|by eapply similar_follow]).
    assert (follow [] h7) as Hf7 by carry Hf6.
    apply HQ.
    + by eapply similar_sound.
    + by eapply similar_follow.
    + intros _. eapply similar_watched; [exact H8|]. intros _. by left.
    + apply (same_members_trans _ h5); [exact Hm|]. apply (same_members_trans _ h6); [apply H6|]. apply (same_members_trans _ h7); [by split|by apply similar_members].
    + rewrite (sim_registry _ _ H8). change (registry h7) with (registry h6). rewrite (tl_registry _ _ H6), Hr. rewrite <- (sim_registry _ _ H1), E. done.
Qed.

(** ** The routes of a guest that registers *)
Lemma registration_Ok id d : trimmed_id id -> trim d <> [] ->
  createRoutedDomainRegistration {| rd_targetId := id; rd_domain := d |} = Ok {| rd_targetId := id; rd_domain := trim d |}.
Proof. intros [E H] Hd. apply createRoutedDomainRegistration_Ok. cbn [rd_targetId rd_domain]. by split_and!. Qed.
Lemma local_route_total r : trim (rd_targetId r) <> [] -> trim (rd_domain r) <> [] -> exists fr, local_route options r = Ok fr.
Proof using Hhost.
  intros Ht Hd. unfold local_route. assert (createRoutedDomainRegistration r = Ok {| rd_targetId := trim (rd_targetId r); rd_domain := trim (rd_domain r) |}) as ->
    by (by apply createRoutedDomainRegistration_Ok). cbn [mbind result_bind rd_targetId rd_domain].
  eexists. apply federated_route_reread.
  split; cbn [fr_targetId fr_domain fr_originHostId fr_nextHopHostId fr_hopCount fr_viaHostIds]; try done; [split; [apply trim_idem|done]|split; [apply trim_idem|done]|by apply Forall_singleton].
Qed.
Lemma map_res_total {A B} (F : A -> result exn B) l : (forall x, x ∈ l -> exists y, F x = Ok y) -> exists k, map_res F l = Ok k /\ length k = length l.
Proof.
  induction l as [|x l IH]; intros H; [by exists []|]. destruct (H x) as (y & Ey); [by left|]. destruct IH as (k & Ek & Hk); [intros z Hz; apply H; by right|].
  exists (y :: k). cbn. rewrite Ey. cbn. rewrite Ek. cbn. by rewrite Hk.
Qed.
Lemma new_routes_runs id ds h (Q : unit -> host -> Prop) : trimmed_id id -> domains_valid ds -> sound options h ->
  (forall rs reg, sound options (set_reg reg h) -> rs <> [] -> localRoutes reg = map_set id rs (localRoutes (registry h)) ->
     degradedRoutes reg = degradedRoutes (registry h) -> Q tt (set_reg reg h)) ->
  runs (set_new_routes options id ds) h Q.
Proof using Hhost.
  intros Hid [Hne Hds] Hs HQ. unfold set_new_routes, registrations. rewrite Forall_forall in Hds.
  assert (map_res (fun d => createRoutedDomainRegistration {| rd_targetId := id; rd_domain := d |}) ds = Ok (map (fun d => {| rd_targetId := id; rd_domain := trim d |}) ds)) as E.
  { apply map_res_Ok. clear Hne. induction ds as [|d ds IH]; cbn; constructor; [apply registration_Ok; [done|]; apply Hds; by left|]. apply IH. intros x Hx. apply Hds. by right. }
  apply runs_bind. eapply runs_lift; [exact E|].
  destruct (map_res_total (local_route options) (map (fun d => {| rd_targetId := id; rd_domain := trim d |}) ds)) as (k & Ek & Hk).
  { intros r (d & -> & Hd)%list_elem_of_fmap. apply local_route_total; cbn [rd_targetId rd_domain]; [by apply valid_nonblank|]. rewrite trim_idem. by apply Hds. }
  pose proof Hs as [_ _ [R1 R2 R3]]. pose proof (setLocalRoutes_ok options Hhost id (map (fun d => {| rd_targetId := id; rd_domain := trim d |}) ds) _ R1) as Hok.
  unfold setLocalRoutes in Hok. rewrite Ek in Hok. cbn [snd] in Hok. eapply registry_runs; [unfold setLocalRoutes; by rewrite Ek|].
  apply (HQ k); try done.
  - apply set_reg_sound; [done|]. split; [exact Hok|by apply map_set_Forall|exact R3].
  - rewrite length_map in Hk. destruct ds, k; done.
Qed.

Definition arrived (id : jsstring) (h : host) : Prop := is_guest h id /\ follow [id] h.
Lemma set_reg_members reg h : same_members h (set_reg reg h).
Proof. by split. Qed.
Lemma arrived_follow id rs reg h : arrived id h -> rs <> [] -> localRoutes reg = map_set id rs (localRoutes (registry h)) ->
  degradedRoutes reg = degradedRoutes (registry h) -> map_get id (degradedRoutes (registry h)) = None -> follow [] (set_reg reg h).
Proof.
  intros [Hg [F1 F2]] Hne El Ed Hn. split; intros i x; cbn.
  - rewrite El, map_get_set. case_decide as Hi; [intros [= <-]; subst i; by split|]. intros Hx. destruct (F1 _ _ Hx) as [? H]. split; [done|]. intros _. apply H. by rewrite list_elem_of_singleton.
  - rewrite Ed. intros Hx. destruct (F2 _ _ Hx) as [? H]. split; [done|]. intros _. apply H. rewrite list_elem_of_singleton. intros ->. congruence.
Qed.

Lemma set_of_elem x l : x ∈ set_of l <-> x ∈ l.
Proof.
  unfold set_of. assert (forall k, x ∈ fold_left (fun s y => set_add y s) l k <-> x ∈ k \/ x ∈ l) as H; [|rewrite H, elem_of_nil; tauto].
  induction l as [|y l IH]; intros k; cbn [fold_left]; [rewrite elem_of_nil; tauto|]. rewrite IH, set_add_elem, elem_of_cons. tauto.
Qed.
(** The guest's degraded routes make room for the new ones. *)
Lemma restored_spec id e h : sound options h -> arrived id h -> map_get id (degradedRoutes (registry h)) = Some e ->
  exists reg, restoreRoutes id (registry h) = (Ok true, reg) /\
    let h' := set_reg (removeLocalRoutes id reg) h in
    sound options h' /\ arrived id h' /\ map_get id (degradedRoutes (registry h')) = None /\ (watched h -> watched h').
Proof.
  intros Hs [Hg [F1 F2]] Ee. pose proof Hs as [_ _ [R1 R2 R3]]. pose proof (restoreRoutes_ok options id _ R1) as Hok. unfold restoreRoutes in *. rewrite Ee in *.
  pose proof R1 as [_ _ _ _ _ Hd _]. eapply map_get_Forall in Hd; [|exact Ee]. rewrite (reread_routes options) in * by exact Hd. eexists. split; [done|].
  cbn [snd] in Hok. set (reg := removeLocalRoutes _ _). split_and!.
  - apply set_reg_sound; [done|]. split; cbn.
    + by apply removeLocalRoutes_ok.
    + apply map_delete_Forall, map_set_Forall; [|done]. by eapply map_get_Forall in R3 as [? _]; [|exact Ee].
    + by apply map_delete_Forall.
  - split; [done|]. split; intros i x; cbn; rewrite map_get_delete; case_decide as Hi; try done; [|apply F2]. rewrite map_get_set_ne by done. apply F1.
  - cbn. rewrite map_get_delete. by rewrite decide_True.
  - intros Hw Hne. apply Hw. intros E. apply Hne. cbn. by rewrite E.
Qed.

Lemma added_Ok id ds : trimmed_id id -> (forall d, d ∈ ds -> trim d <> []) -> exists es, added_events fresh id ds = Ok es /\ Forall event_valid es.
Proof. intros Hid Hds. apply events_Ok. intros d Hd. apply route_event_Ok; [done|by apply Hds|done]. Qed.
Lemma stop_timer_runs h (Q : unit -> host -> Prop) : sound options h -> follow [] h ->
  (forall h', sound options h' -> follow [] h' -> (watched h -> watched h') -> same_members h h' -> registry h' = registry h -> Q tt h') ->
  runs (sm_when (no_degraded h) stopDegradedRouteCleanupTimer) h Q.
Proof.
  intros Hs Hf HQ. apply runs_when; intros E; [|apply HQ; [done|done|done|apply same_members_refl|done]]. apply runs_modify. apply HQ.
  - destruct Hs as [S1 S2 S3]. split; [carry S1|carry S2|carry S3].
  - carry Hf.
  - intros _ Hne. exfalso. apply Hne. cbn. unfold no_degraded, hasAnyDegradedRoutes in E. apply negb_true_iff, Z.ltb_ge in E. unfold len in E.
    change (registry (upd_flags (ho_generation h) false (ho_running h) h)) with (registry h). destruct (degradedRoutes (registry h)); [done|]. cbn in E. lia.
  - by split.
  - done.
Qed.

Lemma restore_runs id ds e tr h (Q : unit -> host -> Prop) : trimmed_id id -> domains_valid ds -> sound options h -> arrived id h ->
  map_get id (degradedRoutes (registry h)) = Some e ->
  (forall h', sound options h' -> follow [] h' -> (watched h -> watched h') -> same_members h h' -> Q tt h') ->
  runs (restore_guest options hostId fresh id ds (map broker_route (de_routes e)) tr) h Q.
Proof using Hhost.
  intros Hid Hds Hs Ha Ee HQ. destruct (restored_spec id e h Hs Ha Ee) as (reg & Er & Hs1 & Ha1 & Hn1 & Hw1). unfold restore_guest.
  apply runs_bind. eapply registry_runs; [exact Er|]. apply runs_bind, runs_modify. set (h1 := set_reg (removeLocalRoutes id reg) h) in *.
  change (upd_registry (removeLocalRoutes id) (set_reg reg h)) with h1.
  assert ((0 <? len ds) = true) as -> by (destruct Hds as [Hne _]; destruct ds; [done|]; apply Z.ltb_lt; unfold len; cbn; lia).
  apply runs_bind, (new_routes_runs id); [done..|]. intros rs reg2 Hs2 Hrs El Ed. set (h2 := set_reg reg2 h1) in *.
  assert (follow [] h2) as Hf2 by (by eapply arrived_follow).
  assert (watched h -> watched h2) as Hw2 by (intros Hw Hne; apply (Hw1 Hw); cbn in Hne; by rewrite <- Ed).
  apply runs_bind, runs_get, runs_bind, stop_timer_runs; [done..|]. intros h3 Hs3 Hf3 Hw3 Hm3 Hr3. apply runs_bind, runs_get.
  assert (forall d, d ∈ ds -> trim d <> []) as Hdv by (destruct Hds as [_ H]; by rewrite Forall_forall in H).
  assert (forall d, d ∈ set_of (map rd_domain (map broker_route (de_routes e))) -> trim d <> []) as Hold.
  { intros d. rewrite set_of_elem. rewrite list_elem_of_fmap. intros (r & -> & (fr & -> & Hfr)%list_elem_of_fmap). cbn. destruct Hs as [_ _ [[_ _ _ _ _ Hdg _] _ _]].
    eapply map_get_Forall in Hdg; [|exact Ee]. eapply Forall_forall in Hdg; [|exact Hfr]. by apply on_host_domains. }
  assert (forall d g, getRouteGeneration id d (registry h3) = Some g -> generation_valid g) as Hgen.
  { intros d g H. eapply degraded_generation; [|exact H]. apply Hs3. }
  apply runs_bind. edestruct (events_Ok (fun d => route_event fresh ev_removed id d rs_reconnected None)) as (es1 & E1 & V1);
    [|eapply runs_lift; [exact E1|]].
  { intros d [_ Hd]%list_elem_of_filter. by apply route_event_Ok; [|apply Hold|]. }
  apply runs_bind. edestruct (events_Ok (fun d => route_event fresh ev_changed id d rs_restored (if decide (tr = tr_local) then getRouteGeneration id d (registry h3) else None)))
    as (es2 & E2 & V2); [|eapply runs_lift; [exact E2|]].
  { intros d [_ Hd]%list_elem_of_filter. apply route_event_Ok; [done|by apply Hold|]. case_decide; [|done]. destruct (getRouteGeneration id d (registry h3)) eqn:Eg; [|done]. by eapply Hgen. }
  apply runs_bind. edestruct (added_Ok id) as (es3 & E3 & V3); [done| |eapply runs_lift; [exact E3|]].
  { intros d [_ Hd]%list_elem_of_filter. rewrite set_of_elem in Hd. by apply Hdv. }
  apply runs_bind, events_runs; [by rewrite !Forall_app|]. intros h4 H4. apply quiet_runs; [quiet_tac|]. intros h5 H5. pose proof (told_trans _ _ _ H4 (similar_told _ _ H5)) as H35.
  apply HQ.
  - by apply H35.
  - by eapply told_follow.
  - intros Hw. eapply told_watched; [exact H35|auto].
  - apply (same_members_trans _ h2); [by split|]. apply (same_members_trans _ h3); [done|apply H35].
Qed.

Lemma no_degraded_routes id h : follow [id] h -> (0 <? len (getDegradedBrokerRoutesForPeer id (registry h))) = false -> map_get id (degradedRoutes (registry h)) = None.
Proof.
  intros [_ F]. unfold getDegradedBrokerRoutesForPeer. destruct (map_get id (degradedRoutes (registry h))) as [e|] eqn:E; [|done].
  destruct (F _ _ E) as [Hne _]. destruct (de_routes e); [done|]. unfold len. cbn. intros ?%Z.ltb_ge. lia.
Qed.
Lemma register_runs id ds tr h (Q : unit -> host -> Prop) : trimmed_id id -> domains_valid ds -> sound options h -> arrived id h ->
  (forall h', sound options h' -> follow [] h' -> (watched h -> watched h') -> same_members h h' -> Q tt h') ->
  runs (register_guest_routes options hostId fresh id ds tr) h Q.
Proof using Hhost.
  intros Hid Hds Hs Ha HQ. unfold register_guest_routes. apply runs_bind, runs_get. destruct (0 <? len _) eqn:El.
  - unfold getDegradedBrokerRoutesForPeer in *. destruct (map_get id (degradedRoutes (registry h))) as [e|] eqn:Ee; [|done]. by apply restore_runs.
  - pose proof (no_degraded_routes id h (proj2 Ha) El) as Hn. apply runs_bind, (new_routes_runs id); [done..|]. intros rs reg Hs1 Hrs El1 Ed1. set (h1 := set_reg reg h) in *.
    assert (follow [] h1) as Hf1 by (by eapply arrived_follow). assert (watched h -> watched h1) as Hw1 by (intros Hw Hne; apply Hw; cbn in Hne; by rewrite <- Ed1).
    apply runs_when; intros _; [|apply HQ; [done..|apply set_reg_members]].
    apply runs_bind. destruct (added_Ok id ds) as (es & Ees & Hes); [done|by destruct Hds as [_ H]; rewrite Forall_forall in H|]. eapply runs_lift; [exact Ees|].
    apply events_runs; [done|]. intros h2 H2. apply HQ.
    + by apply H2.
    + by eapply told_follow.
    + intros Hw. eapply told_watched; [exact H2|auto].
    + apply (same_members_trans _ h1); [apply set_reg_members|apply H2].
Qed.

(** ** Changes of the peers *)
Lemma members_add id p h : members_ok h -> map_get id (ho_peers h) = None -> trimmed_id id -> peer_shape p -> ~ remote_broker p ->
  (rp_transport p = tr_h2 -> isFederationPeerIdInUse h id = false) -> members_ok (upd_peers (map_set id p) h).
Proof.
  intros [M1 M2 M3 M4 M5 M6] Hn Hid Hp Hb Hf. split; cbn.
  - by apply map_wf_set.
  - done.
  - by apply map_set_Forall.
  - intros i ms Hms. destruct (M4 i ms Hms) as [G1 G2 (s & q & Hq & Hs) G4]. split; try done. exists s, q. split; [|done]. rewrite map_get_set_ne; [done|]. intros ->. congruence.
  - intros i q. rewrite map_get_set. case_decide; [by intros [= <-]|apply M5].
  - intros i q. rewrite map_get_set. case_decide as Hi; [intros [= <-]; subst i; apply Hf|apply M6].
Qed.
Lemma members_add_broker id p s h : members_ok h -> map_get id (ho_peers h) = None -> trimmed_id id -> member_ok (s, p) -> isFederationPeerIdInUse h id = false ->
  members_ok (upd_remote (map_set id [(s, p)]) (upd_peers (map_set id p) h)).
Proof.
  intros [M1 M2 M3 M4 M5 M6] Hn Hid Hp Hf. pose proof Hp as [[Hr Ht] [Hs Hl]]. cbn in *. split; cbn.
  - by apply map_wf_set.
  - by apply map_wf_set.
  - apply map_set_Forall; [|done]. split; [done|]. unfold peer_shape. cbn. rewrite Ht. split; [by exists s|done].
  - intros i ms. rewrite map_get_set. case_decide as Hi.
    + intros [= <-]. subst i. split.
      * apply NoDup_singleton.
      * by apply Forall_singleton.
      * exists s, p. rewrite map_get_set_eq. cbn. by rewrite decide_True.
      * intros s1 p1 s2 p2. cbn. case_decide; [|done]. case_decide; [|done]. congruence.
    + intros Hms. destruct (M4 i ms Hms) as [G1 G2 (s1 & q & Hq & Hs1) G4]. split; try done. exists s1, q. split; [|done]. by rewrite map_get_set_ne.
  - intros i q. rewrite !map_get_set. case_decide; [by eexists|apply M5].
  - intros i q. rewrite map_get_set. case_decide as Hi; [intros _ _; by subst i|apply M6].
Qed.
Lemma members_join id p s ms lead h : members_ok h -> map_get id (ho_remote h) = Some ms -> map_get id (ho_peers h) = Some lead -> map_get s ms = None -> member_ok (s, p) ->
  is_Some (rp_brokerFingerprint p) -> is_Some (rp_brokerFingerprint lead) -> rp_brokerRegistrationKey p = rp_brokerRegistrationKey lead ->
  members_ok (upd_remote (map_set id (map_set s p ms)) h).
Proof.
  intros [M1 M2 M3 M4 M5 M6] Hms Hl Hns Hp Hfp Hfl Hk. destruct (M4 id ms Hms) as [G1 G2 (sl & lead' & Hlead & Hsl) G4]. rewrite Hl in Hlead. injection Hlead as <-.
  assert (sl <> s) as Hne by (intros ->; congruence).
  assert (forall s1 p1, map_get s1 ms = Some p1 -> is_Some (rp_brokerFingerprint p1) /\ rp_brokerRegistrationKey p1 = rp_brokerRegistrationKey lead) as Hall.
  { intros s1 p1 H1. destruct (decide (s1 = sl)) as [->|Hs1]; [rewrite Hsl in H1; by injection H1 as <-|by eapply G4]. }
  split; cbn; try done.
  - by apply map_wf_set.
  - intros i ms'. rewrite map_get_set. case_decide as Hi; [|apply M4]. intros [= <-]. subst i. split.
    + by apply map_wf_set.
    + by apply map_set_Forall.
    + exists sl, lead. split; [done|]. by rewrite map_get_set_ne.
    + intros s1 p1 s2 p2. rewrite !map_get_set. case_decide as E1; case_decide as E2; try (by subst).
      * intros [= <-] H2 _. split; [done|]. rewrite (proj2 (Hall _ _ H2)). done.
      * intros H1 [= <-] _. destruct (Hall _ _ H1) as [? ->]. by split.
      * apply G4.
  - intros i q Hq Hb. rewrite map_get_set. case_decide; [by eexists|by eapply M5].
Qed.
Lemma members_remove id p h : members_ok h -> map_get id (ho_peers h) = Some p -> ~ remote_broker p -> members_ok (upd_peers (map_delete id) h).
Proof.
  intros [M1 M2 M3 M4 M5 M6] Hp Hb. split; cbn.
  - by apply map_wf_delete.
  - done.
  - by apply map_delete_Forall.
  - intros i ms Hms. destruct (M4 i ms Hms) as [G1 G2 (s & q & Hq & Hs) G4]. split; try done. exists s, q. split; [|done]. rewrite map_get_delete, decide_False; [done|].
    intros ->. rewrite Hp in Hq. injection Hq as <-. eapply map_get_Forall in G2 as [H _]; [|exact Hs]. done.
  - intros i q. rewrite map_get_delete. case_decide; [done|apply M5].
  - intros i q. rewrite map_get_delete. case_decide; [done|apply M6].
Qed.

(** A session leaves the group of its broker; the next one takes its place. *)
Lemma map_get_delete_Some {K V} `{EqDecision K} (k k' : K) (v : V) m : map_get k (map_delete k' m) = Some v -> k <> k' /\ map_get k m = Some v.
Proof. rewrite map_get_delete. by case_decide. Qed.
Lemma members_leave id s lead ms h : members_ok h -> map_get id (ho_remote h) = Some ms -> map_get id (ho_peers h) = Some lead -> is_Some (map_get s ms) ->
  let main := bool_decide (rp_session lead = Some s) in
  match map_delete s ms with
  | [] => members_ok (let h := upd_remote (map_delete id) h in if main then upd_peers (map_delete id) h else h)
  | (s', p') :: _ => members_ok (let h := upd_remote (map_set id (map_delete s ms)) h in if main then upd_peers (map_set id p') h else h)
  end.
Proof.
  intros [M1 M2 M3 M4 M5 M6] Hms Hl [p Hp] main. destruct (M4 id ms Hms) as [G1 G2 (sl & lead' & Hlead & Hsl) G4]. rewrite Hl in Hlead. injection Hlead as <-.
  pose proof (map_get_Forall _ _ _ _ G2 Hsl) as (Hbl & Hses & _). cbn in Hbl, Hses.
  assert (main = bool_decide (sl = s)) as Em by (apply bool_decide_ext; rewrite Hses; naive_solver).
  pose proof (map_wf_delete s ms G1) as W. destruct (map_delete s ms) as [|[s' p'] rest] eqn:Er.
  - assert (sl = s) as ->. { destruct (decide (sl = s)); [done|]. assert (map_get sl (map_delete s ms) = Some lead) as H by (by rewrite map_get_delete, decide_False). by rewrite Er in H. }
    rewrite bool_decide_eq_true_2 in Em by done. rewrite Em. cbv zeta. split; cbn.
    + by apply map_wf_delete.
    + by apply map_wf_delete.
    + by apply map_delete_Forall.
    + intros i ms' [Hi Hg]%map_get_delete_Some. destruct (M4 i ms' Hg) as [K1 K2 (s1 & q & Hq & Hs1) K4]. split; try done. exists s1, q. split; [|done].
      by rewrite map_get_delete, decide_False.
    + intros i q [Hi Hq]%map_get_delete_Some Hb. rewrite map_get_delete, decide_False by done. by eapply M5.
    + intros i q [Hi Hq]%map_get_delete_Some. by apply M6.
  - assert (map_get s' (map_delete s ms) = Some p') as Hs' by (rewrite Er; cbn; by rewrite decide_True).
    pose proof (map_get_delete_Some _ _ _ _ Hs') as [Hne Hs'0]. pose proof (map_get_Forall _ _ _ _ G2 Hs'0) as (Hb' & Hses' & Hlb'). cbn in Hb', Hses', Hlb'.
    assert (forall s1 p1, map_get s1 ((s', p') :: rest) = Some p1 -> map_get s1 ms = Some p1) as Hsub by (intros s1 p1; rewrite <- Er; by intros [_ ?]%map_get_delete_Some).
    assert (Forall member_ok ((s', p') :: rest)) as Hok by (rewrite <- Er; by apply map_delete_Forall).
    assert (forall s1 p1 s2 p2, map_get s1 ((s', p') :: rest) = Some p1 -> map_get s2 ((s', p') :: rest) = Some p2 -> s1 <> s2 ->
      is_Some (rp_brokerFingerprint p1) /\ rp_brokerRegistrationKey p1 = rp_brokerRegistrationKey p2) as Halike.
    { intros s1 p1 s2 p2 H1 H2. apply (G4 s1 p1 s2 p2); by apply Hsub. }
    rewrite Em. destruct (decide (sl = s)) as [->|Hsl'].
    + rewrite bool_decide_eq_true_2 by done. split; cbn.
      * by apply map_wf_set.
      * by apply map_wf_set.
      * apply map_set_Forall; [|done]. split; [by eapply map_get_Forall in M3 as [? _]; [|exact Hl]|]. unfold peer_shape. cbn. destruct Hb' as [_ ->]. split; [by eexists|done].
      * intros i ms'. rewrite !map_get_set. destruct (decide (i = id)) as [Hi|Hi].
        -- intros E. injection E as <-. subst i. split; [done|done| |done]. exists s', p'. split; [by rewrite map_get_set_eq|]. cbn. by rewrite decide_True.
        -- intros Hg. destruct (M4 i ms' Hg) as [K1 K2 (s1 & q & Hq & Hs1) K4]. split; try done. exists s1, q. split; [|done]. by rewrite map_get_set_ne.
      * intros i q. rewrite !map_get_set. destruct (decide (i = id)); [by eexists|apply M5].
      * intros i q. rewrite map_get_set. destruct (decide (i = id)) as [Hi|Hi]; [|apply M6]. intros _ _. subst i. eapply (M6 id lead Hl), Hbl.
    + rewrite bool_decide_eq_false_2 by done. split; cbn; try done.
      * by apply map_wf_set.
      * intros i ms'. rewrite map_get_set. destruct (decide (i = id)) as [Hi|Hi]; [|apply M4]. intros [= <-]. subst i. split; [done|done| |done].
        exists sl, lead. split; [done|]. rewrite <- Er, map_get_delete, decide_False by done. done.
      * intros i q Hq Hb. rewrite map_get_set. destruct (decide (i = id)); [by eexists|by eapply M5].
Qed.

(** Two members of a group, or a peer that stays: what a broker holds. *)
Lemma sync_transfer a b : in_sync a -> registry b = registry a ->
  (forall id c, (id, c) ∈ remote_controls b -> last_snapshot c (ho_log b) = Some (getRoutedDomains b) \/
     (id, c) ∈ remote_controls a /\ last_snapshot c (ho_log b) = last_snapshot c (ho_log a)) ->
  (forall id p x, map_get id (ho_peers b) = Some p -> rp_localBroker p = Some x -> lbs_routes x = getRoutedDomains b \/
     exists p' y, map_get id (ho_peers a) = Some p' /\ rp_localBroker p' = Some y /\ lbs_routes y = lbs_routes x) ->
  in_sync b.
Proof.
  intros [S1 S2] Hr H1 H2. split.
  - intros id c Hc. destruct (H1 id c Hc) as [->|[Hc' ->]]; [eexists; split; [done|apply current_now]|]. destruct (S1 id c Hc') as (rs & E & Hcur). exists rs. split; [done|].
    unfold current. by rewrite Hr.
  - intros id p x Hp Hx. destruct (H2 id p x Hp Hx) as [->|(p' & y & Hp' & Hy & <-)]; [apply current_now|]. unfold current. rewrite Hr. by eapply S2.
Qed.

(** ** Waiting *)
Lemma await_waiting w h : waiting_ok h -> waiting_valid w ->
  (forall id, upstream_of (0%nat, w) = Some id -> id ∈ ho_pendingUpstream h /\ id ∉ omap upstream_of (ho_waiting h)) ->
  waiting_ok (upd_waiting (ho_waiting h ++ [(ho_next h, w)]) (S (ho_next h)) h).
Proof.
  intros [W1 W2 W3 W4 W5] Hw Hu. split; cbn.
  - unfold map_wf, map_keys. rewrite fmap_app. apply NoDup_app. split; [exact W1|]. split; [|apply NoDup_singleton]. intros n (x & -> & Hx)%list_elem_of_fmap ?%list_elem_of_singleton.
    rewrite Forall_forall in W2. specialize (W2 _ Hx). cbn in *. lia.
  - apply Forall_app. split; [|by repeat constructor]. eapply Forall_impl; [exact W2|]. cbn. lia.
  - apply Forall_app. split; [done|by repeat constructor].
  - intros id. rewrite omap_app, elem_of_app. intros [H|H]; [by apply W4|]. cbn in H. destruct (upstream_of (ho_next h, w)) as [i|] eqn:E; [|by apply elem_of_nil in H].
    apply list_elem_of_singleton in H as ->. by apply (Hu i).
  - rewrite omap_app. apply NoDup_app. split; [done|]. cbn. destruct (upstream_of (ho_next h, w)) as [i|] eqn:E; [|split; [by intros ? ? ?%elem_of_nil|constructor]].
    split; [|apply NoDup_singleton]. intros x Hx ->%list_elem_of_singleton. by apply (Hu i) in Hx.
Qed.
Lemma resume_waiting n w h : waiting_ok h -> map_get n (ho_waiting h) = Some w ->
  let h' := upd_waiting (map_delete n (ho_waiting h)) (ho_next h) h in
  waiting_ok h' /\ waiting_valid w /\
  (forall id, upstream_of (n, w) = Some id -> id ∈ ho_pendingUpstream h' /\ id ∉ omap upstream_of (ho_waiting h')).
Proof.
  intros [W1 W2 W3 W4 W5] Hg h'. pose proof (map_get_elem _ _ _ Hg) as Hin.
  assert (forall l, omap upstream_of (map_delete n l) `sublist_of` omap upstream_of l) as Hsub.
  { intros l. unfold map_delete. induction l as [|x l IH]; [done|]. rewrite filter_cons. case_decide; cbn; destruct (upstream_of x); try done; by constructor. }
  split_and!; [split; cbn| |].
  - by apply map_wf_delete.
  - by apply map_delete_Forall.
  - by apply map_delete_Forall.
  - intros id Hid. apply W4. by eapply elem_of_sublist; [|apply Hsub].
  - by eapply sublist_NoDup; [|apply Hsub].
  - rewrite Forall_forall in W3. exact (W3 _ Hin).
  - intros id Hid. split; [apply W4, list_elem_of_omap; by exists (n, w)|]. cbn. intros (x & [Hx Hxin]%list_elem_of_filter & Hu)%list_elem_of_omap.
    revert W5. apply list_elem_of_split in Hin as (l1 & l2 & El). rewrite El in *. rewrite omap_app. cbn. rewrite Hid. rewrite NoDup_app, NoDup_cons. intros (_ & Hd & Hn & _).
    apply elem_of_app in Hxin as [Hxin|Hxin].
    + apply (Hd id); [apply list_elem_of_omap; by exists x|by left].
    + apply elem_of_cons in Hxin as [->|Hxin]; [done|]. apply Hn, list_elem_of_omap. by exists x.
Qed.

(** ** Handlers that keep all of it *)
Definition safe {A} (m : sm host A) : Prop := keeps (fun a b => settled_host options a -> settled_host options b) m.
#[local] Abbreviation settles m h := (wp m (fun _ h' => settled_host options h') h).
Lemma safe_ret {A} (a : A) : safe (mret a).
Proof. intros h H. exact H. Qed.
Lemma safe_throw {A} e : safe (@sm_throw host A e).
Proof. intros h H. exact H. Qed.
Lemma safe_lift {A} (r : result exn A) : safe (sm_lift r).
Proof. intros h H. exact H. Qed.
Lemma safe_guard b e : safe (sm_guard b e).
Proof. intros h H. by destruct b. Qed.
Lemma safe_get {A} (f : host -> A) : safe (sm_get f).
Proof. intros h H. exact H. Qed.
Lemma safe_bind {A B} (m : sm host A) (k : A -> sm host B) : safe m -> (forall a, safe (k a)) -> safe (x ← m; k x).
Proof. apply keeps_bind; auto. Qed.
Lemma safe_when b m : safe m -> safe (sm_when b m).
Proof. intros H. destruct b; [exact H|apply safe_ret]. Qed.
Lemma safe_if {A} c (m n : sm host A) : safe m -> safe n -> safe (sm_if c m n).
Proof. apply keeps_if; auto. Qed.
Lemma safe_quiet m : quiet m -> safe m.
Proof. intros Hq h Hs. destruct (Hq h) as (h' & -> & Hsim). by eapply similar_settled. Qed.
Lemma safe_catch {A} (m : sm host A) (k : exn -> sm host A) : safe m -> (forall e, safe (k e)) -> safe (sm_catch m k).
Proof. apply keeps_catch; auto. Qed.
Lemma settles_runs {A} (m : sm host A) h : runs m h (fun _ h' => settled_host options h') -> settles m h.
Proof. intros H. eapply runs_wp; [exact H|]. auto. Qed.
Lemma serve_safe s m : safe m -> safe (serve_stream s m).
Proof. intros H. apply safe_catch; [exact H|]. intros e. apply safe_bind; [apply safe_quiet; quiet_tac|]. intros _. apply safe_quiet. quiet_tac. Qed.
Lemma similar_safe (g : host -> host) : (forall h, similar h (g h)) -> safe (sm_modify g).
Proof. intros H. by apply safe_quiet, quiet_modify. Qed.

Lemma invalidate_safe : safe invalidateRouteAuthorizations.
Proof. apply safe_quiet. quiet_tac. Qed.
Lemma federated_safe : safe (advertiseFederatedRoutes options).
Proof using C Hhost.
  intros h Hs. destruct (federated_runs h (fun _ h' => settled_host options h')) as (a & h' & -> & H); [apply Hs| |exact H]. intros h' Hsim. by eapply similar_settled.
Qed.
Lemma await_safe w : waiting_valid w -> upstream_of (0%nat, w) = None -> safe (await_with w).
Proof.
  intros Hw Hu h [[S1 S2 S3] Hf Hwt Hsy]. cbn. split.
  - split; [carry S1|by apply await_waiting; [| |rewrite Hu]|carry S3].
  - carry Hf.
  - intros Hne. destruct (Hwt Hne) as [H|H]; [by left|right]. apply Exists_app. by left.
  - destruct Hsy as [Y1 Y2]. split; [exact Y1|exact Y2].
Qed.
Ltac safe_step :=
  match goal with
  | |- safe (mbind _ _) => apply safe_bind; [|intros ?]
  | |- safe (mret _) => apply safe_ret
  | |- safe (sm_throw _) => apply safe_throw
  | |- safe (sm_lift _) => apply safe_lift
  | |- safe (sm_guard _ _) => apply safe_guard
  | |- safe (sm_get _) => apply safe_get
  | |- safe (sm_when _ _) => apply safe_when
  | |- safe (sm_if _ _ _) => apply safe_if
  | |- safe (serve_stream _ _) => apply serve_safe
  | |- safe invalidateRouteAuthorizations => apply invalidate_safe
  | |- safe (advertiseFederatedRoutes _) => apply federated_safe
  | |- safe _ => apply safe_quiet; quiet_tac
  | |- safe (match ?x with _ => _ end) => destruct x
  end.
Ltac safe_tac := repeat safe_step.

Lemma guest_peer_safe id e : safe (guest_peer id e).
Proof. unfold guest_peer. safe_tac. Qed.
Lemma lease_safe s id l : safe (attachGuestLeaseStream s id l).
Proof. unfold attachGuestLeaseStream. safe_tac. apply guest_peer_safe. Qed.
Lemma wsLease_safe s ses id : safe (attachGuestWsLeaseStream s ses id).
Proof. unfold attachGuestWsLeaseStream. safe_tac. apply guest_peer_safe. Qed.
Lemma trackSession_safe s : safe (trackSession s).
Proof. unfold trackSession. safe_tac. apply similar_safe. by intros h. Qed.
Lemma destroyDetached_safe s : safe (destroy_detached_session s).
Proof. unfold destroy_detached_session. safe_tac. Qed.
Lemma revocation_answer_safe s st n m k : safe (revocation_answer s st n m k).
Proof. unfold revocation_answer. safe_tac. Qed.
Lemma revocation_safe s ses id : safe (handleGuestRevocation s ses id).
Proof.
  unfold handleGuestRevocation. safe_tac; try apply revocation_answer_safe. by apply await_safe.
Qed.

(** A guest's control stream. *)
Lemma guest_peer_wp id e h (Post : result exn RegisteredPeer -> host -> Prop) :
  (forall p, map_get id (ho_peers h) = Some p -> rp_role p = role_guest -> Post (Ok p) h) -> Post (Throw e) h -> wp (guest_peer id e) Post h.
Proof.
  intros H1 H2. unfold guest_peer. apply swp_bind, swp_get. destruct (map_get id (ho_peers h)) as [p|] eqn:E; [|by apply swp_throw]. case_decide; [by apply swp_ret, H1|by apply swp_throw].
Qed.
Lemma members_control id p s h : members_ok h -> map_get id (ho_peers h) = Some p -> rp_role p = role_guest -> members_ok (upd_peers (map_set id (with_control p s)) h).
Proof.
  intros [M1 M2 M3 M4 M5 M6] Hp Hr. pose proof (map_get_Forall _ _ _ _ M3 Hp) as [Hid Hsh]. split; cbn.
  - by apply map_wf_set.
  - done.
  - by apply map_set_Forall.
  - intros i ms Hms. destruct (M4 i ms Hms) as [G1 G2 (s1 & q & Hq & Hs) G4]. split; try done. exists s1, q. split; [|done]. rewrite map_get_set_ne; [done|]. intros ->.
    rewrite Hp in Hq. injection Hq as <-. eapply map_get_Forall in G2 as [[Hb _] _]; [|exact Hs]. cbn in Hb. congruence.
  - intros i q. rewrite map_get_set. case_decide; [|apply M5]. intros [= <-] [Hb _]. cbn in Hb. congruence.
  - intros i q. rewrite map_get_set. case_decide as Hi; [|apply M6]. intros [= <-] Ht. subst i. by apply (M6 id p).
Qed.
Lemma follow_peers (g : list (jsstring * RegisteredPeer) -> list (jsstring * RegisteredPeer)) ids h :
  (forall id, is_guest (upd_peers g h) id <-> is_guest h id) -> follow ids h -> follow ids (upd_peers g h).
Proof. intros Hg [H1 H2]. split; intros id x; rewrite Hg; auto. Qed.
Lemma control_safe s id : safe (attachGuestControlStream s id).
Proof.
  intros h Hs. change (settles (attachGuestControlStream s id) h). unfold attachGuestControlStream. apply swp_bind, guest_peer_wp; [|exact Hs]. intros p Hp Hr.
  apply swp_bind, swp_modify. apply settles_runs, quiet_runs; [quiet_tac|]. intros h' H'. eapply similar_settled; [exact H'|]. destruct Hs as [[S1 S2 S3] Hf Hw Hsy].
  pose proof (so_members _ _ {| so_members := S1; so_waiting := S2; so_routes := S3 |}) as [_ _ Hsh _ _ _]. pose proof (map_get_Forall _ _ _ _ Hsh Hp) as [_ Hshape]. split.
  - split; [by apply members_control|carry S2|carry S3].
  - apply follow_peers; [|done]. intros i. unfold is_guest. cbn. rewrite map_get_set. case_decide as Hi; [subst i|done]. split; intros _; eauto.
  - done.
  - apply (sync_transfer h); [done|done| |].
    + intros i c Hc. right. by split.
    + intros i q x. cbn. rewrite map_get_set. case_decide as Hi; [|intros Hq Hx; right; eauto]. intros [= <-] Hx. right. exists p, x. by subst i.
Qed.

(** ** Imported routes *)
Context (Hmax : 0 <= ro_maxFederationHopCount options).
Lemma wp_registry {A} (g : HostRouteRegistry -> result exn A * HostRouteRegistry) h (Post : result exn A -> host -> Prop) :
  Post (g (registry h)).1 (set_reg (g (registry h)).2 h) -> wp (on_registry g) Post h.
Proof. intros H. apply swp_part. unfold wp. exact H. Qed.
Lemma set_reg_same reg h : reg = registry h -> similar h (set_reg reg h).
Proof. intros ->. by split. Qed.
Lemma imported_sound g h : sound options h -> registry_ok options (g (registry h)) -> localRoutes (g (registry h)) = localRoutes (registry h) ->
  degradedRoutes (g (registry h)) = degradedRoutes (registry h) -> sound options (upd_registry g h).
Proof.
  intros Hs Hok Hl Hd. change (upd_registry g h) with (set_reg (g (registry h)) h). apply set_reg_sound; [done|]. destruct Hs as [_ _ [R1 R2 R3]].
  split; change (registry (set_reg (g (registry h)) h)) with (g (registry h)); [done|by rewrite Hl|by rewrite Hd].
Qed.
Lemma imported_follow g ids h : follow ids h -> localRoutes (g (registry h)) = localRoutes (registry h) ->
  degradedRoutes (g (registry h)) = degradedRoutes (registry h) -> follow ids (upd_registry g h).
Proof. intros [F1 F2] Hl Hd. split; intros id x; change (registry (upd_registry g h)) with (g (registry h)); rewrite ?Hl, ?Hd; [apply F1|apply F2]. Qed.
Lemma imported_watched g h : watched h -> degradedRoutes (g (registry h)) = degradedRoutes (registry h) -> watched (upd_registry g h).
Proof. intros Hw Hd Hne. apply Hw. change (registry (upd_registry g h)) with (g (registry h)) in Hne. by rewrite <- Hd. Qed.

(** Whatever changed in the routes, telling everyone makes up for it. *)
Lemma intact_settled h h0 : intact options h -> watched h0 -> (watched h0 -> watched h) -> settled_host options h.
Proof using Type. intros [] Hw H. split; auto. Qed.
Lemma similar_intact a b : similar a b -> intact options a -> intact options b.
Proof using Type. intros Hs []. split; eauto using similar_sound, similar_follow, similar_sync. Qed.
Lemma tell_intact h (Q : unit -> host -> Prop) : sound options h -> follow [] h ->
  (forall h', intact options h' -> (watched h -> watched h') -> same_members h h' -> registry h' = registry h -> Q tt h') -> runs (_ ← advertiseRoutes; advertiseFederatedRoutes options) h Q.
Proof using C Hhost.
  intros Hs Hf HQ. apply runs_bind. set (f := fun b => updateLocalBrokerRoutes b (getRoutedDomains h)).
  assert (same_members h (advertiseRoutes h).2) as Hm by (pose proof (update_same f h) as U; carry U).
  destruct (advertise_spec h Hs) as (a & h1 & E & S1 & S2 & S3 & S4 & S5). rewrite E in Hm. cbn in Hm. exists a, h1. split; [exact E|].
  apply federated_runs; [done|]. intros h2 H2. apply HQ.
  - eapply similar_intact; [exact H2|]. split; auto.
  - intros Hw. eapply similar_watched; [exact H2|auto].
  - eapply same_members_trans; [exact Hm|by apply similar_members].
  - by rewrite (sim_registry _ _ H2).
Qed.
Lemma tell_settles h (Q : unit -> host -> Prop) : sound options h -> follow [] h -> watched h -> (forall h', settled_host options h' -> Q tt h') ->
  runs (_ ← advertiseRoutes; advertiseFederatedRoutes options) h Q.
Proof using C Hhost. intros Hs Hf Hw HQ. apply tell_intact; [done..|]. intros h' Hi Hw' _ _. apply HQ. by eapply intact_settled. Qed.
Lemma changed_intact h (Q : unit -> host -> Prop) : sound options h -> follow [] h ->
  (forall h', intact options h' -> (watched h -> watched h') -> same_members h h' -> Q tt h') -> runs (imported_changed options) h Q.
Proof using C Hhost.
  intros Hs Hf HQ. unfold imported_changed. apply runs_bind, quiet_runs; [quiet_tac|]. intros h1 H1.
  apply tell_intact; [by eapply similar_sound|by eapply similar_follow|]. intros h2 H2 W2 Hm _. apply HQ; [done| |].
  - intros Hw. by apply W2; eapply similar_watched.
  - eapply same_members_trans; [by apply similar_members|done].
Qed.
Lemma removeImported_intact up h (Q : unit -> host -> Prop) : sound options h -> follow [] h ->
  (forall h', intact options h' -> (watched h -> watched h') -> same_members h h' -> Q tt h') -> runs (HostPeers.removeImportedFederatedRoutes options up) h Q.
Proof using C Hhost.
  intros Hs Hf HQ. apply runs_bind, runs_modify. apply changed_intact.
  - apply imported_sound; [done| |done|done]. apply removeImportedRoutes_ok, Hs.
  - by apply imported_follow.
  - intros h' H' W' Hm. apply HQ; [done| |eapply same_members_trans; [|exact Hm]; by split]. intros Hw. by apply W', imported_watched.
Qed.
Lemma runs_safe {A} (m : sm host A) : (forall h, settled_host options h -> runs m h (fun _ h' => settled_host options h')) -> safe m.
Proof. intros H h Hs. destruct (H h Hs) as (a & h' & -> & Hs'). exact Hs'. Qed.
Lemma removeImported_safe up : safe (HostPeers.removeImportedFederatedRoutes options up).
Proof using C Hhost. apply runs_safe. intros h []. apply removeImported_intact; [done..|]. intros h' Hi Hw' _. by eapply intact_settled. Qed.

Lemma import_unchanged up l reg : let '(r, reg') := setImportedRoutes_raw options up l reg in
  localRoutes reg' = localRoutes reg /\ degradedRoutes reg' = degradedRoutes reg /\
  match r with Throw _ => reg' = reg | Ok (_, changed) => changed = false -> same_export reg reg' end.
Proof.
  unfold setImportedRoutes_raw. destruct (fold_res _ _ _) as [[accepted rejected]|e]; [|done]. split_and!; [done..|]. intros Hc%negb_false_iff.
  apply bool_decide_eq_true in Hc. split_and!; [done..|]. intros o. cbn. rewrite map_get_set. destruct (decide (o = up)) as [->|]; [exact Hc|done].
Qed.
Lemma same_export_trans r1 r2 r3 : same_export r1 r2 -> same_export r2 r3 -> same_export r1 r3.
Proof. intros (A1 & A2 & A3) (B1 & B2 & B3). split_and!; [congruence..|]. intros o. by rewrite A3. Qed.
Lemma import_safe up l : safe (HostPeers.setImportedFederatedRoutes options up l).
Proof using C Hhost Hmax.
  intros h Hs. change (settles (HostPeers.setImportedFederatedRoutes options up l) h). unfold HostPeers.setImportedFederatedRoutes. apply swp_bind, wp_registry.
  pose proof Hs as [Hso Hf Hw Hsy]. pose proof (import_unchanged up l (registry h)) as Hi. pose proof (raw_import_ok options Hhost Hmax up l (registry h) ltac:(apply Hso)) as Hok.
  destruct (setImportedRoutes_raw options up l (registry h)) as [[[rejected changed]|e] reg]; cbn [fst snd] in *.
  2: { destruct Hi as (_ & _ & ->). eapply similar_settled; [|exact Hs]. by apply set_reg_same. }
  destruct Hi as (Hl & Hd & Hc). set (h1 := set_reg reg h). assert (sound options h1) as Hs1 by (by apply (imported_sound (fun _ => reg))).
  assert (follow [] h1) as Hf1 by (by apply (imported_follow (fun _ => reg))). assert (watched h1) as Hw1 by (by apply (imported_watched (fun _ => reg))).
  apply settles_runs. apply runs_bind, quiet_runs.
  { apply quiet_emit, Forall_forall. intros x (e & -> & _)%list_elem_of_fmap. done. }
  intros h2 H2. apply runs_bind. destruct changed.
  - apply changed_intact; [by eapply similar_sound|by eapply similar_follow|]. intros h3 H3 W3 _. apply runs_ret. apply (intact_settled h3 h2); [done|by eapply similar_watched|done].
  - apply runs_ret, runs_ret. eapply similar_settled; [exact H2|]. split; try done. destruct Hsy as [Y1 Y2]. split.
    + intros id c Hic. destruct (Y1 id c Hic) as (rs & E & reg0 & He & ->). eexists. split; [exact E|]. exists reg0. split; [|done]. eapply same_export_trans; [exact He|by apply Hc].
    + intros id p b Hp Hb. destruct (Y2 id p b Hp Hb) as (reg0 & He & E). exists reg0. split; [|done]. eapply same_export_trans; [exact He|by apply Hc].
Qed.

(** ** Losing peers *)
Lemma carried_sound h h' : members_ok h' -> sound options h -> ho_waiting h' = ho_waiting h -> ho_next h' = ho_next h ->
  ho_pendingUpstream h' = ho_pendingUpstream h -> registry h' = registry h -> sound options h'.
Proof.
  intros Hm [_ [] []] Ew En Ep Er. split; [exact Hm| |]; split; rewrite ?Ew, ?En, ?Ep, ?Er; assumption.
Qed.
Lemma leader_of h id ms : members_ok h -> map_get id (ho_remote h) = Some ms ->
  exists lead, map_get id (ho_peers h) = Some lead /\ remote_broker lead /\ rp_localBroker lead = None.
Proof.
  intros [_ _ _ M4 _ _] Hms. destruct (M4 id ms Hms) as [G1 G2 (s & p & Hp & Hs) G4]. exists p. split; [done|]. by eapply map_get_Forall in G2 as (? & _ & ?); [|exact Hs].
Qed.
Lemma controls_sub h h' g : (forall id ms m, (id, ms) ∈ ho_remote h' -> m ∈ ms -> exists ms', (id, ms') ∈ ho_remote h /\ m ∈ ms') ->
  (forall s, stream_open h' s = stream_open h s) -> forall c, (g, c) ∈ remote_controls h' -> (g, c) ∈ remote_controls h.
Proof.
  intros H Hs c (ms & m & Hg & Hm & Hc & Ho)%remote_controls_elem. destruct (H _ _ _ Hg Hm) as (ms' & Hg' & Hm'). apply remote_controls_elem. exists ms', m. by rewrite <- Hs.
Qed.
Lemma left_group s ms : match map_delete s ms with [] => True | (s', p') :: _ => forall m, m ∈ map_delete s ms -> m ∈ (ms : list (nat * RegisteredPeer)) end.
Proof. destruct (map_delete s ms) as [|[s' p'] rest] eqn:E; [done|]. rewrite <- E. intros [k v] H. rewrite map_elem_delete in H. by destruct H. Qed.

(** The groups of the other ids stay; the session is in no group of this one. *)
Record left_behind (id : jsstring) (s : nat) (h h' : host) : Prop := {
  lb_others : forall i ms, map_get i (ho_remote h') = Some ms -> i <> id -> map_get i (ho_remote h) = Some ms;
  lb_gone : forall ms, map_get id (ho_remote h') = Some ms -> map_get s ms = None;
  lb_registry : registry h' = registry h;
  lb_guests : forall i p, rp_role p = role_guest -> map_get i (ho_peers h') = Some p <-> map_get i (ho_peers h) = Some p;
}.
Lemma detachSession_runs id s h : settled_host options h -> runs (detachRemoteBrokerSession id s) h (fun _ h' => settled_host options h' /\ left_behind id s h h').
Proof using Type.
  intros Hs. unfold detachRemoteBrokerSession. apply runs_bind, runs_get.
  destruct (map_get id (ho_remote h)) as [ms|] eqn:Ems; [|apply runs_ret; split; [done|split; [done|congruence|done|done]]]. cbn [mbind option_bind].
  destruct (map_get s ms) as [q|] eqn:Eq; [|apply runs_ret; split; [done|split; [done|congruence|done|done]]]. cbn [mbind option_bind].
  pose proof Hs as [Hso Hf Hw Hsy]. pose proof Hso as [Hm _ _]. destruct (leader_of h id ms Hm Ems) as (lead & Hl & [Hlr Hlt] & Hlb). apply runs_bind, runs_get. rewrite Hl.
  pose proof (members_leave id s lead ms h Hm Ems Hl ltac:(by exists q)) as Hleave. cbv zeta in Hleave. pose proof (left_group s ms) as Hsub.
  assert (forall h', members_ok h' -> ho_waiting h' = ho_waiting h -> ho_next h' = ho_next h -> ho_pendingUpstream h' = ho_pendingUpstream h -> registry h' = registry h ->
    ho_cleanupTimer h' = ho_cleanupTimer h -> (forall i, is_guest h' i <-> is_guest h i) -> ho_log h' = ho_log h -> (forall x, stream_open h' x = stream_open h x) ->
    (forall i ms m, (i, ms) ∈ ho_remote h' -> m ∈ ms -> exists ms', (i, ms') ∈ ho_remote h /\ m ∈ ms') ->
    (forall i p b, map_get i (ho_peers h') = Some p -> rp_localBroker p = Some b -> map_get i (ho_peers h) = Some p) -> settled_host options h') as Hall.
  { intros h' A1 A2 A3 A4 A5 A6 A7 A8 A9 A10 A11. split.
    - by eapply carried_sound.
    - destruct Hf as [F1 F2]. split; intros i x; rewrite A5, A7; [apply F1|apply F2].
    - unfold watched, closing in *. by rewrite A5, A6, A2.
    - apply (sync_transfer h); [done|done| |].
      + intros i c Hc. right. rewrite A8. split; [|done]. by eapply controls_sub.
      + intros i p b Hp Hb. right. exists p, b. split_and!; [by eapply A11|done..]. }
  assert (forall i p, map_get i (ho_peers h) = Some p -> rp_role p = role_guest -> i <> id) as Hng by (intros i p Hp Hr ->; congruence).
  assert (map_get s (map_delete s ms) = None) as Hgone by (by rewrite map_get_delete, decide_True).
  assert (forall h', (forall i, i <> id -> map_get i (ho_peers h') = map_get i (ho_peers h)) -> (forall q, map_get id (ho_peers h') = Some q -> rp_role q = role_broker) ->
    forall i p, rp_role p = role_guest -> map_get i (ho_peers h') = Some p <-> map_get i (ho_peers h) = Some p) as Hguests.
  { intros h' G1 G2 i p Hp. destruct (decide (i = id)) as [->|Hne]; [|by rewrite G1]. split; intros Hi; [specialize (G2 _ Hi)|]; congruence. }
  assert (forall h', ho_remote h' = map_delete id (ho_remote h) -> registry h' = registry h -> ho_peers h' = ho_peers h \/ ho_peers h' = map_delete id (ho_peers h) ->
    left_behind id s h h') as Hdel.
  { intros h' E Hr Hp. split; rewrite ?E; [by intros i ms' [_ ?]%map_get_delete_Some|intros ms'; by rewrite map_get_delete, decide_True|done|].
    apply Hguests; [intros i Hi|intros q1]; destruct Hp as [-> | ->]; rewrite ?map_get_delete; [done|by rewrite decide_False|congruence|by rewrite decide_True]. }
  assert (forall h', ho_remote h' = map_set id (map_delete s ms) (ho_remote h) -> registry h' = registry h ->
    ho_peers h' = ho_peers h \/ (exists q, ho_peers h' = map_set id q (ho_peers h) /\ rp_role q = role_broker) -> left_behind id s h h') as Hset.
  { intros h' E Hr Hp. split; rewrite ?E; [intros i ms' Hi Hne; by rewrite map_get_set_ne in Hi|intros ms'; rewrite map_get_set_eq; by intros [= <-]|done|].
    apply Hguests; [intros i Hi|intros q1]; destruct Hp as [-> | (q0 & -> & Hq0)]; rewrite ?map_get_set; [done|by rewrite decide_False|congruence|rewrite decide_True by done; congruence]. }
  apply runs_bind. destruct (map_delete s ms) as [|[s' p'] rest] eqn:Er.
  - apply runs_bind, runs_modify, runs_when; intros Emain; rewrite Emain in Hleave; [apply runs_modify|]; apply quiet_runs; try quiet_tac; intros h' H'; (split; [eapply similar_settled; [exact H'|]; apply Hall; try done|]).
    + intros i. unfold is_guest. cbn. split; intros (p & Hp & Hr); exists p.
      * by apply map_get_delete_Some in Hp as [_ Hp].
      * split; [|done]. rewrite map_get_delete, decide_False; [done|]. by eapply Hng.
    + intros i ms' m Hin Hm'. cbn in Hin. rewrite map_elem_delete in Hin. destruct Hin as [_ Hin]. eauto.
    + intros i p b Hp%map_get_delete_Some _. by destruct Hp.
    + apply Hdel; [apply H'|apply H'|]. rewrite (sim_peers _ _ H'). eauto.
    + intros i ms' m Hin Hm'. cbn in Hin. rewrite map_elem_delete in Hin. destruct Hin as [_ Hin]. eauto.
    + apply Hdel; [apply H'|apply H'|]. rewrite (sim_peers _ _ H'). eauto.
  - assert (forall i ms' m, (i, ms') ∈ map_set id ((s', p') :: rest) (ho_remote h) -> m ∈ ms' -> exists ms0, (i, ms0) ∈ ho_remote h /\ m ∈ ms0) as Hre.
    { intros i ms' m [[-> ->]|Hin]%map_elem_set Hm'; [|eauto]. exists ms. split; [by apply map_get_elem|]. by apply Hsub. }
    assert ((s', p') ∈ ms) as Hin' by (apply Hsub; by left).
    assert (remote_broker p' /\ rp_localBroker p' = None) as [[Hr' _] Hb'].
    { destruct (mo_groups _ Hm id ms Ems) as [_ G2 _ _]. rewrite Forall_forall in G2. by destruct (G2 _ Hin') as (? & _ & ?). }
    apply runs_bind, runs_modify, runs_when; intros Emain; rewrite Emain in Hleave; [apply runs_modify|]; apply quiet_runs; try quiet_tac; intros h' H'; (split; [eapply similar_settled; [exact H'|]; apply Hall; try done|]).
    + intros i. unfold is_guest. cbn. rewrite map_get_set. destruct (decide (i = id)) as [->|]; [|done]. split; intros (p & Hp & Hr); [injection Hp as <-; congruence|]. by destruct (Hng _ _ Hp Hr).
    + intros i p b. cbn. rewrite map_get_set. destruct (decide (i = id)) as [->|]; [|done]. intros [= <-]. congruence.
    + apply Hset; [apply H'|apply H'|]. rewrite (sim_peers _ _ H'). eauto.
    + apply Hset; [apply H'|apply H'|]. rewrite (sim_peers _ _ H'). eauto.
Qed.

Lemma detachSession_safe id s : safe (detachRemoteBrokerSession id s).
Proof using Type. apply runs_safe. intros h Hs. eapply runs_mono; [|by apply detachSession_runs]. by intros [] h' []. Qed.

Lemma departed_removed id p h : sound options h -> follow [] h -> map_get id (ho_peers h) = Some p -> rp_role p = role_guest -> departed id (upd_peers (map_delete id) h).
Proof using Type.
  intros Hs [F1 F2] Hp Hr. pose proof Hs as [Hm _ _]. assert (map_get id (ho_peers (upd_peers (map_delete id) h)) = None) as Hn by (cbn; by rewrite map_get_delete, decide_True).
  assert (forall i, i <> id -> is_guest (upd_peers (map_delete id) h) i <-> is_guest h i) as Hg.
  { intros i Hi. unfold is_guest. cbn. by rewrite map_get_delete, decide_False. }
  split.
  - eapply carried_sound; [|exact Hs|done..]. eapply members_remove; [done..|]. intros [Hb _]. congruence.
  - split; intros i x Hx; [destruct (F1 i x Hx) as [? H]|destruct (F2 i x Hx) as [? H]]; (split; [done|]); intros Hi%not_elem_of_cons; rewrite Hg by tauto; apply H, not_elem_of_nil.
  - intros (q & Hq & _). congruence.
  - change (map_get id (degradedRoutes (registry h)) = None). destruct (map_get id (degradedRoutes (registry h))) as [e|] eqn:E; [|done].
    destruct (F2 _ _ E) as [_ H]. destruct H; [apply not_elem_of_nil|by exists p].
  - by eapply map_get_Forall in Hp; [|apply (mo_shape _ Hm)]; destruct Hp.
Qed.
Lemma removed_broker id p h : settled_host options h -> map_get id (ho_peers h) = Some p -> rp_role p = role_broker -> rp_transport p = tr_local ->
  settled_host options (upd_peers (map_delete id) h).
Proof using Type.
  intros [Hso [F1 F2] Hw Hsy] Hp Hr Ht. pose proof Hso as [Hm _ _]. split.
  - eapply carried_sound; [|exact Hso|done..]. eapply members_remove; [done..|]. intros [_ Hb]. congruence.
  - apply follow_peers; [|by split]. intros i. unfold is_guest. cbn. rewrite map_get_delete. destruct (decide (i = id)) as [->|]; [|done].
    split; intros (q & Hq & Hqr); [done|]. congruence.
  - done.
  - apply (sync_transfer h); [done|done|intros i c Hc; by right|]. intros i q x Hq%map_get_delete_Some Hx. right. exists q, x. by destruct Hq.
Qed.
Lemma map_delete_set {V} (k : jsstring) (v : V) m : map_delete k (map_set k v m) = map_delete k m.
Proof using Type.
  unfold map_delete. induction m as [|[k' v'] m IH]; cbn [map_set].
  - unfold map_set. rewrite filter_cons. by rewrite decide_False by (cbn; by intros []).
  - unfold map_set. fold (map_set k v m). destruct (decide (k = k')) as [->|]; rewrite !filter_cons; cbn [fst]; [|by rewrite IH].
    by rewrite !decide_False by (intros []; done).
Qed.

Lemma detachLocal_safe now id reason : safe (detachLocalPeer options hostId fresh now id reason).
Proof using C Hhost.
  intros h Hs. change (settles (detachLocalPeer options hostId fresh now id reason) h). pose proof Hs as [Hso Hf Hw Hsy]. unfold detachLocalPeer. apply swp_bind, swp_get.
  destruct (map_get id (ho_peers h)) as [p|] eqn:Hp; [|by apply swp_ret]. destruct (bool_decide (rp_transport p = tr_local)) eqn:Et; [|by apply swp_ret]. cbn [negb].
  apply bool_decide_eq_true in Et. pose proof (map_get_Forall _ _ _ _ (mo_shape _ (so_members _ _ Hso)) Hp) as [Hid Hsh]. unfold peer_shape in Hsh. cbn [snd] in Hsh. rewrite Et in Hsh.
  apply settles_runs. cbv zeta. apply runs_bind, runs_modify. set (h1 := upd_peers (map_delete id) h). apply runs_bind. destruct (rp_role p) eqn:Er.
  - rewrite bool_decide_eq_false_2 by done. apply runs_when; [done|]. intros _. pose proof (removed_broker id p h Hs Hp Er Et) as H1. fold h1 in H1.
    apply runs_bind, quiet_runs; [destruct (rp_localBroker p); quiet_tac|]. intros h2 H2. apply runs_bind, quiet_runs; [quiet_tac|]. intros h3 H3.
    apply runs_when; [done|]. intros _. eapply similar_settled; [exact H3|]. by eapply similar_settled.
  - rewrite bool_decide_eq_true_2 by done. apply runs_when; [intros _|done]. apply degrade_runs; [by eapply departed_removed|]. intros h2 S2 F2 W2 M2 _.
    apply runs_bind, quiet_runs; [destruct (rp_localBroker p); quiet_tac|]. intros h3 H3. apply runs_bind, quiet_runs; [quiet_tac|]. intros h4 H4.
    pose proof (similar_trans _ _ _ H3 H4) as H24. apply runs_when; [intros _|done].
    apply tell_settles; [by eapply similar_sound|by eapply similar_follow|eapply similar_watched; [exact H24|auto]|by auto].
Qed.

Lemma brokerClose_safe now id reason : safe (brokerHandle_close options hostId fresh now id reason).
Proof using C Hhost.
  intros h Hs. change (settles (brokerHandle_close options hostId fresh now id reason) h). pose proof Hs as [Hso Hf Hw Hsy]. unfold brokerHandle_close. apply swp_bind, swp_get.
  destruct (map_get id (ho_peers h)) as [p|] eqn:Hp; [|by apply swp_ret]. cbn [mbind option_bind]. destruct (rp_localBroker p) as [b|] eqn:Eb; [|by apply swp_ret]. cbn [mbind option_bind].
  pose proof (map_get_Forall _ _ _ _ (mo_shape _ (so_members _ _ Hso)) Hp) as [Hid Hsh]. unfold peer_shape in Hsh. cbn [snd] in Hsh.
  destruct (rp_transport p) eqn:Et; [by destruct Hsh; congruence|]. rewrite Eb in Hsh. destruct Hsh as (_ & Er & ->).
  destruct (closeLocalBrokerState b reason) as [b' effects]. apply settles_runs, runs_bind, runs_modify. set (q := with_localBroker p b'). set (h1 := upd_peers (map_set id q) h).
  pose proof (removed_broker id p h Hs Hp Er Et) as Hr. apply runs_bind, runs_modify. set (h2 := add_log _ h1).
  unfold detachLocalPeer. apply runs_bind, runs_get. assert (map_get id (ho_peers h2) = Some q) as -> by (cbn; by rewrite map_get_set_eq).
  rewrite bool_decide_eq_true_2 by exact Et. cbn [negb]. apply runs_bind, runs_modify. rewrite bool_decide_eq_false_2 by (change (rp_role q) with (rp_role p); congruence).
  apply runs_bind, runs_when; [done|]. intros _. set (h3 := upd_peers (map_delete id) h2).
  assert (settled_host options h3) as H3.
  { eapply similar_settled; [|exact Hr]. eapply similar_trans; [apply (similar_log [he_broker id effects; he_abortLocalRequests id]); by repeat constructor|].
    split; try done. cbn. apply map_delete_set. }
  apply runs_bind, quiet_runs; [quiet_tac|]. intros h4 H4. apply runs_bind, quiet_runs; [quiet_tac|]. intros h5 H5. apply runs_when; [done|]. intros _.
  eapply similar_settled; [exact H5|]. by eapply similar_settled.
Qed.

Lemma each_safe {A} (g : A -> sm host unit) l : (forall x, safe (g x)) -> safe (sm_each g l).
Proof using Type. intros H. induction l as [|x l IH]; [apply safe_ret|]. apply safe_bind; auto. Qed.
(** The guests of a lost session, [l] of them still to go. *)
Definition guest_of (s : nat) (h : host) (id : jsstring) : Prop := exists p, map_get id (ho_peers h) = Some p /\ rp_role p = role_guest /\ rp_session p = Some s.
Record losing (now : Z) (s : nat) (h0 : host) (l : list (jsstring * RegisteredPeer)) (h : host) : Prop := {
  lo_sound : sound options h; lo_follow : follow [] h; lo_watched : watched h; lo_once : NoDup l.*1; lo_remote : ho_remote h = ho_remote h0;
  lo_here : Forall (fun p => map_get p.1 (ho_peers h) = Some p.2 /\ rp_transport p.2 = tr_h2 /\ rp_role p.2 = role_guest) l;
  lo_rest : forall id p, rp_transport p = tr_h2 -> map_get id (ho_peers h) = Some p -> map_get id (ho_peers h0) = Some p /\ (rp_role p = role_guest -> rp_session p = Some s -> id ∈ l.*1);
  lo_stay : forall id p, rp_transport p = tr_h2 -> map_get id (ho_peers h0) = Some p -> rp_session p <> Some s -> map_get id (ho_peers h) = Some p;
  lo_local : forall id, id ∈ l.*1 -> map_get id (localRoutes (registry h)) = map_get id (localRoutes (registry h0));
  lo_moved : forall id rs, guest_of s h0 id -> id ∉ l.*1 -> map_get id (localRoutes (registry h0)) = Some rs ->
    exists e, map_get id (degradedRoutes (registry h)) = Some e /\ de_routes e = rs /\ de_degradedAt e = now;
}.
Lemma losing_step now s h0 id p k h : losing now s h0 ((id, p) :: k) h ->  rp_session p = Some s ->
  runs (_ ← sm_modify (upd_peers (map_delete id));
        _ ← sm_when (bool_decide (rp_role p = role_guest)) (degrade_routes hostId fresh now id (js "guest-disconnect") tr_h2);
        emitLifecycle lc_disconnected (Some id) (Some (rp_role p)) None) h (fun _ h' => losing now s h0 k h').
Proof using C Hhost.
  intros [S1 F1 W1 N1 R1 L1 X1 Y1 Z1 M1] Hses. apply Forall_cons in L1 as [(Hp & Ht & Hr) Hk]. cbn [fst snd] in *. rewrite fmap_cons, NoDup_cons in N1. destruct N1 as [Hni N1]. cbn [fst] in Hni.
  apply runs_bind, runs_modify. rewrite Hr, bool_decide_eq_true_2 by done. apply runs_bind, runs_when; [intros _|done]. set (h1 := upd_peers (map_delete id) h).
  assert (departed id h1) as Hd by by eapply departed_removed.
  apply degrade_runs; [done|]. intros h2 S2 F2 W2 M2 E2. change (registry h1) with (registry h) in E2. apply quiet_runs; [quiet_tac|]. intros h3 H3.
  assert (forall i q, rp_transport q = tr_h2 -> map_get i (ho_peers h3) = Some q <-> i <> id /\ map_get i (ho_peers h) = Some q) as Hpeers.
  { intros i q Hq. rewrite (sim_peers _ _ H3), (sm_h2 _ _ M2) by done. cbn. rewrite map_get_delete. case_decide; naive_solver. }
  destruct (setDegraded_spec now id (registry h) (dp_fresh _ _ Hd)) as [[El E]|(rs & e & reg & El & E & _ & Hrs & Hnow & Hl & Hdg)]; rewrite E in E2; cbn [snd] in E2.
  all: rewrite <- (sim_registry _ _ H3) in E2; split; [by eapply similar_sound|by eapply similar_follow|eapply similar_watched; [exact H3|by apply W2]|done| | | | | |].
  1, 7: by rewrite (sim_remote _ _ H3), (sm_remote _ _ M2).
  1, 6: apply Forall_forall; intros [i q] Hin; rewrite Forall_forall in Hk; destruct (Hk _ Hin) as (Hq & Hqt & Hqr); cbn in *; split; [|done]; apply Hpeers; [done|]; split; [|done];
    intros ->; apply Hni, list_elem_of_fmap; by exists (id, q).
  1, 5: intros i q Hqt Hq; apply Hpeers in Hq as [Hi Hq]; [|done]; destruct (X1 i q Hqt Hq) as [? H]; (split; [done|]); intros Hqr Hqs; specialize (H Hqr Hqs);
    rewrite fmap_cons, elem_of_cons in H; by destruct H.
  1, 4: intros i q Hqt Hq Hqs; apply Hpeers; [done|]; split; [|by apply Y1]; intros ->; pose proof (Y1 _ _ Hqt Hq Hqs); congruence.
  - intros i Hi. rewrite E2. apply Z1. by right.
  - intros i r Hg Hi Hir. rewrite E2. destruct (decide (i = id)) as [->|Hne]; [|apply M1; [done|rewrite fmap_cons, elem_of_cons; tauto|done]].
    rewrite (Z1 id) in El by (by left). congruence.
  - intros i Hi. rewrite E2, Hl, map_get_delete, decide_False; [apply Z1; by right|]. by intros ->.
  - intros i r Hg Hi Hir. rewrite E2, Hdg, map_get_set. destruct (decide (i = id)) as [->|Hne]; [|apply M1; [done|rewrite fmap_cons, elem_of_cons; tauto|done]].
    exists e. rewrite (Z1 id) in El by (by left). split_and!; congruence.
Qed.

(** What is left of a session that closed. *)
Record session_gone (now : Z) (s : nat) (h h' : host) : Prop := {
  sg_peers : forall id p, map_get id (ho_peers h') = Some p -> rp_session p <> Some s;
  sg_groups : forall id ms, map_get id (ho_remote h') = Some ms -> map_get s ms = None;
  sg_others : forall id p, map_get id (ho_peers h) = Some p -> rp_role p = role_guest -> rp_transport p = tr_h2 -> rp_session p <> Some s -> map_get id (ho_peers h') = Some p;
  sg_degraded : forall id rs, guest_of s h id -> map_get id (localRoutes (registry h)) = Some rs ->
    exists e, map_get id (degradedRoutes (registry h')) = Some e /\ de_routes e = rs /\ de_degradedAt e = now;
}.
Lemma detachAll_runs s ids h : settled_host options h -> runs (sm_each (fun id => detachRemoteBrokerSession id s) ids) h (fun _ h' => settled_host options h' /\
  (forall id ms, map_get id (ho_remote h') = Some ms -> map_get id (ho_remote h) = Some ms \/ map_get s ms = None) /\
  (forall id ms, id ∈ ids -> map_get id (ho_remote h') = Some ms -> map_get s ms = None) /\
  registry h' = registry h /\ (forall id p, rp_role p = role_guest -> map_get id (ho_peers h') = Some p <-> map_get id (ho_peers h) = Some p)).
Proof using Type.
  revert h. induction ids as [|i ids IH]; intros h Hs; cbn [sm_each].
  - apply runs_ret. split_and!; [done|by left| |done|done]. intros id ms H. by apply elem_of_nil in H.
  - apply runs_bind. eapply runs_mono; [|by apply detachSession_runs]. intros [] h1 [H1 [L1 L2 L3 L4]]. eapply runs_mono; [|by apply IH]. intros [] h2 (H2 & M1 & M2 & M3 & M4).
    split_and!; [done| | |congruence|].
    + intros id ms Hm. destruct (M1 id ms Hm) as [Hm1|]; [|by right]. destruct (decide (id = i)) as [->|Hne]; [right; by apply L2|left; by apply L1].
    + intros id ms Hin Hm. destruct (M1 id ms Hm) as [Hm1|]; [|done]. apply elem_of_cons in Hin as [->|Hin]; [by apply L2|by eapply M2].
    + intros id p Hp. by rewrite M4, L4.
Qed.
Lemma lost_guests s h : sound options h ->
  let lost := filter (fun p => rp_session p.2 = Some s /\ ~ (rp_role p.2 = role_broker /\ rp_transport p.2 = tr_h2)) (ho_peers h) in
  Forall (fun p => map_get p.1 (ho_peers h) = Some p.2 /\ rp_transport p.2 = tr_h2 /\ rp_role p.2 = role_guest) lost /\ NoDup lost.*1 /\
  (forall p, p ∈ lost -> rp_session p.2 = Some s) /\ (forall id, guest_of s h id <-> id ∈ lost.*1).
Proof using Type.
  intros Hs lost. pose proof (mo_peers _ (so_members _ _ Hs)) as Hwf. pose proof (mo_shape _ (so_members _ _ Hs)) as Hsh.
  assert (Forall (fun p => map_get p.1 (ho_peers h) = Some p.2 /\ rp_transport p.2 = tr_h2 /\ rp_role p.2 = role_guest) lost) as Hlost.
  { apply Forall_forall. intros [id p] [[Hses Hnb] Hin]%list_elem_of_filter. cbn in *. rewrite Forall_forall in Hsh. destruct (Hsh _ Hin) as [_ Hp]. unfold peer_shape in Hp. cbn in Hp.
    split; [by apply map_elem_get|]. destruct (rp_transport p); [|by destruct Hp; congruence]. split; [done|]. destruct (rp_role p); [by destruct Hnb|done]. }
  split_and!; [done| |by intros p [[H _] _]%list_elem_of_filter|].
  - unfold lost. clear Hlost. unfold map_wf, map_keys in Hwf. clear Hsh. induction (ho_peers h) as [|x l IH]; [done|]. rewrite fmap_cons, NoDup_cons in Hwf. destruct Hwf as [Hx Hl]. rewrite filter_cons.
    case_decide; [|by apply IH]. rewrite fmap_cons, NoDup_cons. split; [|by apply IH]. intros (y & Ey & [_ Hy]%list_elem_of_filter)%list_elem_of_fmap. apply Hx, list_elem_of_fmap. eauto.
  - intros id. split.
    + intros (p & Hp & Hr & Hses). apply list_elem_of_fmap. exists (id, p). split; [done|]. apply list_elem_of_filter. cbn. split; [|by apply map_get_elem]. split; [done|]. intros [? _]. congruence.
    + intros ([i p] & -> & Hin)%list_elem_of_fmap. cbn. pose proof Hin as [[Hses _] _]%list_elem_of_filter. rewrite Forall_forall in Hlost. destruct (Hlost _ Hin) as (H1 & _ & H2). by exists p.
Qed.
Lemma removeSession_runs now s h : settled_host options h ->
  runs (removeSessionPeers options hostId fresh now s) h (fun _ h' => settled_host options h' /\ session_gone now s h h').
Proof using C Hhost.
  intros Hs0. unfold removeSessionPeers. apply runs_bind, runs_get, runs_bind. eapply runs_mono; [|by apply detachAll_runs]. intros [] h0 (Hs & G1 & G2 & G3 & G4).
  pose proof Hs as [Hso Hf Hw Hsy]. apply runs_bind, runs_get. cbv zeta. destruct (lost_guests s h0 Hso) as (Hlost & Hnd & Hses & Hiff). set (lost := filter _ (ho_peers h0)) in *.
  assert (losing now s h0 lost h0) as Hstart.
  { split; try done.
    - intros id p Ht Hp. split; [done|]. intros Hr Hps. apply Hiff. by exists p.
    - intros id rs Hg Hni. by apply Hiff in Hg. }
  assert (forall h1 h2, losing now s h0 [] h1 -> settled_host options h2 -> ho_remote h2 = ho_remote h1 -> registry h2 = registry h1 ->
      (forall id p, rp_transport p = tr_h2 -> map_get id (ho_peers h2) = Some p <-> map_get id (ho_peers h1) = Some p) -> settled_host options h2 /\ session_gone now s h h2) as Hdone.
  { intros h1 h2 [S1 F1 W1 N1 R1 L1 X1 Y1 Z1 M1] H2 E1 E2 E3. split; [done|]. assert (forall id ms, map_get id (ho_remote h2) = Some ms -> map_get s ms = None) as Hgroups.
      { intros id ms. rewrite E1, R1. intros Hm. destruct (G1 id ms Hm) as [Hm0|]; [|done]. eapply G2; [|exact Hm]. apply map_get_elem in Hm0. apply list_elem_of_fmap. by exists (id, ms). }
      split.
      - intros id p Hp Hps. pose proof H2 as [[[_ _ Hsh Hgr Hbr _] _ _] _ _ _]. pose proof (map_get_Forall _ _ _ _ Hsh Hp) as [_ Hshp]. unfold peer_shape in Hshp. cbn in Hshp.
        destruct (rp_transport p) eqn:Et; [|by destruct Hshp; congruence]. destruct (rp_role p) eqn:Er.
        + destruct (Hbr id p Hp) as [ms Hms]; [done|]. destruct (Hgr id ms Hms) as [_ Gm (s1 & q & Hq & Hs1) _]. rewrite Hp in Hq. injection Hq as <-.
          pose proof (map_get_Forall _ _ _ _ Gm Hs1) as (_ & Hses1 & _). cbn in Hses1. rewrite Hps in Hses1. injection Hses1 as <-. rewrite (Hgroups id ms Hms) in Hs1. done.
        + apply E3 in Hp; [|done]. destruct (X1 id p Et Hp) as [_ H]. specialize (H Er Hps). by apply elem_of_nil in H.
      - exact Hgroups.
      - intros id p Hp Hr Ht Hps. apply E3; [done|]. apply Y1; [done| |done]. by apply G4.
      - intros id rs (p & Hp & Hr & Hps) Hl. rewrite E2. apply M1; [|apply not_elem_of_nil|by rewrite G3]. exists p. split; [|done]. by apply G4. }
  destruct lost as [|x0 rest] eqn:El; [by apply runs_bind, runs_ret, runs_ret, (Hdone h0)|]. assert (existsb (fun p => bool_decide (rp_role p.2 = role_guest)) (x0 :: rest) = true) as ->.
  { cbn. apply orb_true_iff. left. apply bool_decide_eq_true. by inversion Hlost as [|? ? (_ & _ & ?) _]. }
  apply runs_bind. apply (runs_each _ _ (fun l h1 => losing now s h0 l h1 /\ forall p, p ∈ l -> rp_session p.2 = Some s)); [done| |].
  - intros [id p] k h1 [L1 K1]. eapply runs_mono; [|apply losing_step; [exact L1|by apply (K1 (id, p)); left]]. intros [] h2 L2. split; [done|]. intros q Hq. apply K1. by right.
  - intros h1 [L1 _]. apply runs_when; [intros _|done]. apply tell_intact; [apply L1|apply L1|]. intros h2 I2 W2 M2 E2.
    apply (Hdone h1); [done|eapply intact_settled; [done|apply L1|done]|apply M2|done|intros id p Ht; by apply M2].
Qed.
Lemma removeSession_safe now s : safe (removeSessionPeers options hostId fresh now s).
Proof using C Hhost. apply runs_safe. intros h Hs. eapply runs_mono; [|by apply removeSession_runs]. by intros [] h' []. Qed.
Lemma sessionClosed_safe now s : safe (session_closed options hostId fresh now s).
Proof using C Hhost.
  unfold session_closed. apply safe_bind; [|intros _; apply removeSession_safe]. apply similar_safe. intros h.
  eapply similar_trans; [apply (similar_streams (ho_closedStreams h) (set_add s (ho_deadSessions h)) (ho_headersSent h)); done|]. by split.
Qed.
Lemma controlClose_safe id s c : safe (handleRemoteBrokerControlClose id s c).
Proof using Type. unfold handleRemoteBrokerControlClose. safe_tac. apply detachSession_safe. Qed.

(** ** Expiry *)
Lemma stop_settles h (Q : unit -> host -> Prop) : settled_host options h -> (forall h', settled_host options h' -> Q tt h') ->
  runs (sm_when (no_degraded h) stopDegradedRouteCleanupTimer) h Q.
Proof using Type.
  intros [Hs Hf Hw Hsy] HQ. apply runs_when; intros E; [|by apply HQ]. apply runs_modify, HQ. split.
  - destruct Hs as [S1 S2 S3]. split; [carry S1|carry S2|carry S3].
  - carry Hf.
  - intros Hne. exfalso. apply Hne. unfold no_degraded, hasAnyDegradedRoutes in E. apply negb_true_iff, Z.ltb_ge in E. unfold len in E.
    change (registry (upd_flags (ho_generation h) false (ho_running h) h)) with (registry h). destruct (degradedRoutes (registry h)); [done|]. cbn in E. lia.
  - destruct Hsy as [Y1 Y2]. split; [exact Y1|exact Y2].
Qed.
Lemma captured_valid h id m d g : routes_ok options h -> map_get id (captured_generations (registry h)) = Some m -> map_get d m = Some g -> generation_valid g.
Proof using Type.
  intros Hr Hm Hg. apply map_get_elem in Hm, Hg. unfold captured_generations in Hm. rewrite list_elem_of_In, in_concat in Hm. destruct Hm as (x & (i & <- & _)%in_map_iff & Hx).
  set (F := fun (m : list (jsstring * VerserRouteGeneration)) r => match getRouteGeneration i (rd_domain r) (registry h) with Some g => map_set (rd_domain r) g m | None => m end) in Hx.
  assert (forall l k, Forall (fun q => generation_valid q.2) k -> Forall (fun q => generation_valid q.2) (fold_left F l k)) as Hall.
  { induction l as [|r l IH]; intros k Hk; [done|]. cbn. apply IH. unfold F. destruct (getRouteGeneration _ _ _) as [g'|] eqn:Eg; [|done].
    apply map_set_Forall; [|done]. by eapply degraded_generation. }
  destruct (0 <? len _); [|done]. destruct Hx as [[= <- <-]|[]].
  specialize (Hall (getDegradedBrokerRoutesForPeer i (registry h)) [] (Forall_nil_2 _)). rewrite Forall_forall in Hall. by apply Hall in Hg.
Qed.
Lemma expired_spec h now t : sound options h -> follow [] h ->
  let '((peers, n, entries), reg) := removeExpiredDegradedRoutes now t (registry h) in
  sound options (set_reg reg h) /\ follow [] (set_reg reg h) /\ (watched h -> watched (set_reg reg h)) /\ (peers = [] -> reg = registry h) /\
  Forall (fun e : jsstring * jsstring => trimmed_id e.1 /\ trim e.2 <> []) entries.
Proof using Type.
  intros Hs [F1 F2]. pose proof Hs as [_ _ [R1 R2 R3]]. pose proof (removeExpired_ok options now t _ R1) as Hok. pose proof R1 as [_ _ _ _ _ Hd _].
  unfold removeExpiredDegradedRoutes in *. set (ex := filter _ _) in *. cbn [snd] in Hok. set (reg := set_degraded _ _) in *.
  assert (forall i e, map_get i (degradedRoutes reg) = Some e -> map_get i (degradedRoutes (registry h)) = Some e) as Hsub.
  { intros i e He%map_get_elem. cbn in He. apply fold_delete_elem in He as [He _]. apply map_elem_get; [apply R1|done]. }
  split_and!.
  - apply set_reg_sound; [done|]. split; [exact Hok|exact R2|]. apply Forall_forall. intros p Hp. cbn in Hp. apply fold_delete_elem in Hp as [Hp _]. by eapply Forall_forall in R3.
  - split; [exact F1|]. intros i e He. apply F2. by apply Hsub.
  - intros Hw Hne. apply Hw. intros E. apply Hne. change (registry (set_reg reg h)) with reg. destruct (degradedRoutes reg) as [|[i e] l] eqn:Er; [done|].
    assert (map_get i (degradedRoutes (registry h)) = Some e) as H by (apply Hsub; cbn; by rewrite decide_True). by rewrite E in H.
  - intros E. unfold reg. rewrite E. cbn. by destruct (registry h).
  - apply Forall_forall. intros [i d]. rewrite list_elem_of_In, in_concat. intros (x & (p & <- & Hp)%in_map_iff & Hx). apply list_elem_of_In, list_elem_of_filter in Hp as [_ Hp].
    apply in_map_iff in Hx as (r & [= <- <-] & Hr). rewrite Forall_forall in R3, Hd. split; [apply (R3 _ Hp)|]. specialize (Hd _ Hp). rewrite Forall_forall in Hd. apply list_elem_of_In in Hr.
    by apply on_host_domains, Hd.
Qed.
Lemma cleanup_safe timeout now : safe (cleanup_check options hostId fresh timeout now).
Proof using C Hhost.
  apply runs_safe. intros h Hs. pose proof Hs as [Hso Hf Hw Hsy]. unfold cleanup_check. apply runs_bind, runs_get, runs_bind.
  pose proof (expired_spec h now timeout Hso Hf) as He. destruct (removeExpiredDegradedRoutes now timeout (registry h)) as [[[peers n] entries] reg] eqn:Ex.
  destruct He as (S1 & F1 & W1 & E1 & V1). eapply registry_runs; [by rewrite Ex|]. set (h1 := set_reg reg h) in *. cbv iota.
  apply runs_bind, quiet_runs; [quiet_tac|]. intros h2 H2. destruct (len peers =? 0) eqn:El.
  - apply runs_bind, runs_get. assert (peers = []) as E by (apply Z.eqb_eq in El; unfold len in El; destruct peers; [done|cbn in El; lia]).
    apply stop_settles; [|auto]. eapply similar_settled; [|exact Hs]. eapply similar_trans; [apply set_reg_same, E1, E|done].
  - apply runs_bind. edestruct (events_Ok (fun entry : jsstring * jsstring => route_event fresh ev_removed entry.1 entry.2 rs_timeout
      (peerGen ← map_get entry.1 (captured_generations (registry h)); map_get entry.2 peerGen)) entries) as (es & Ees & Hes); [|eapply runs_lift; [exact Ees|]].
    { intros [i d] Hin. rewrite Forall_forall in V1. destruct (V1 _ Hin) as [Hi Hd]. cbn [fst snd] in *. apply route_event_Ok; [done..|].
      destruct (map_get i (captured_generations (registry h))) as [m|] eqn:Em; [|done]. cbn [mbind option_bind]. destruct (map_get d m) as [g|] eqn:Eg; [|done].
      eapply captured_valid; [apply Hso|done..]. }
    apply runs_bind, events_runs; [done|]. intros h3 H3. assert (sound options h3) as S3 by (by apply H3; eapply similar_sound).
    assert (follow [] h3) as F3 by (eapply told_follow; [exact H3|by eapply similar_follow]).
    assert (watched h3) as W3 by (eapply told_watched; [exact H3|eapply similar_watched; [exact H2|auto]]).
    apply runs_bind. eapply runs_mono; [|by apply advertise_spec]. intros [] h4 (S4 & Y4 & R4 & F4 & W4).
    apply runs_bind, federated_runs; [done|]. intros h5 H5. apply runs_bind, runs_get, stop_settles; [|auto]. eapply similar_settled; [exact H5|]. split; auto.
Qed.

(** ** Revocation *)
Lemma revoke_spec id ds h : sound options h -> follow [] h ->
  let '((revoked, missing), reg) := RouteRegistry.revokeRoutes id ds (registry h) in
  sound options (set_reg reg h) /\ follow [] (set_reg reg h) /\ (watched h -> watched (set_reg reg h)) /\
  (revoked = [] -> reg = registry h) /\ Forall (fun d => trim d <> []) revoked /\ (revoked <> [] -> trimmed_id id) /\ (forall d, d ∈ missing -> d ∈ ds).
Proof using Type.
  intros Hs [F1 F2]. pose proof Hs as [_ _ [R1 R2 R3]]. pose proof (revokeRoutes_ok options id ds _ R1) as Hok. pose proof R1 as [_ _ _ Hl _ _ _].
  unfold RouteRegistry.revokeRoutes in *. destruct (map_get id (localRoutes (registry h))) as [rs|] eqn:Ers.
  2: { split_and!; try done. apply set_reg_sound; [done|]. carry (so_routes _ _ Hs). }
  destruct (F1 _ _ Ers) as [Hne Hg]. pose proof (map_get_Forall _ _ _ _ R2 Ers) as Hid. pose proof (map_get_Forall _ _ _ _ Hl Ers) as Hon. cbn [fst snd] in Hid, Hon.
  set (rem := filter (fun route => mem_str (fr_domain route) ds = false) rs) in *. set (reg := match rem with [] => _ | _ => _ end) in *. cbn [snd] in Hok.
  assert (localRoutes reg = match rem with [] => map_delete id (localRoutes (registry h)) | _ => map_set id rem (localRoutes (registry h)) end) as El by (unfold reg; by destruct rem).
  assert (degradedRoutes reg = degradedRoutes (registry h)) as Ed by (unfold reg; by destruct rem).
  split_and!.
  - apply set_reg_sound; [done|]. split; [exact Hok| |cbn; by rewrite Ed]. change (registry (set_reg reg h)) with reg. rewrite El. destruct rem; [by apply map_delete_Forall|by apply map_set_Forall].
  - split; intros i x; change (registry (set_reg reg h)) with reg; [|rewrite Ed; apply F2]. rewrite El. destruct rem as [|r0 rem'] eqn:Erem.
    + intros [_ Hx]%map_get_delete_Some. by apply F1.
    + rewrite map_get_set. destruct (decide (i = id)) as [->|]; [|apply F1]. intros E. injection E as <-. by split.
  - intros Hw Hne'. apply Hw. change (registry (set_reg reg h)) with reg in Hne'. by rewrite <- Ed.
  - intros Hrev. assert (rem = rs) as Hrem.
    { apply filter_all_in. intros r Hr. destruct (mem_str (fr_domain r) ds) eqn:Em; [|done]. exfalso. assert (fr_domain r ∈ map fr_domain (filter (fun route => mem_str (fr_domain route) ds = true) rs)) as Hin.
      { apply list_elem_of_fmap. exists r. split; [done|]. by apply list_elem_of_filter. } rewrite Hrev in Hin. by apply elem_of_nil in Hin. }
    unfold reg. rewrite Hrem. destruct rs as [|r0 rs]; [done|]. rewrite map_set_id by done. by destruct (registry h).
  - apply Forall_forall. intros d (r & -> & [_ Hr]%list_elem_of_filter)%list_elem_of_fmap. rewrite Forall_forall in Hon. by apply on_host_domains, Hon.
  - done.
  - by intros d [_ Hd]%list_elem_of_filter.
Qed.

Lemma announce_runs id revoked h (Q : unit -> host -> Prop) : sound options h -> follow [] h -> watched h -> trimmed_id id -> Forall (fun d => trim d <> []) revoked ->
  (forall h', settled_host options h' -> Q tt h') -> runs (announce_revoked options hostId fresh id revoked) h Q.
Proof using C Hhost.
  intros Hs Hf Hw Hid Hr HQ. unfold announce_revoked. apply runs_bind, quiet_runs; [quiet_tac|]. intros h1 H1.
  apply runs_bind. edestruct (events_Ok (fun domain => route_event fresh ev_removed id domain rs_revoked None) revoked) as (es & Ees & Hes); [|eapply runs_lift; [exact Ees|]].
  { intros d Hd. rewrite Forall_forall in Hr. apply route_event_Ok; [done|by apply Hr|done]. }
  apply runs_bind, events_runs; [done|]. intros h2 H2. pose proof (told_trans _ _ _ (similar_told _ _ H1) H2) as H02.
  apply tell_settles; [by apply H02|by eapply told_follow|by eapply told_watched|auto].
Qed.
Lemma positive_nonempty {A} (l : list A) : (0 <? len l) = true -> l <> [].
Proof using Type. by destruct l. Qed.
Lemma zero_empty {A} (l : list A) : (0 <? len l) = false -> l = [].
Proof using Type. destruct l; [done|]. unfold len. cbn. intros ?%Z.ltb_ge. lia. Qed.
Lemma wp_revoke id ds h (Post : result exn (list jsstring * list jsstring) -> host -> Prop) :
  Post (Ok (RouteRegistry.revokeRoutes id ds (registry h)).1) (set_reg (RouteRegistry.revokeRoutes id ds (registry h)).2 h) -> wp (revoke id ds) Post h.
Proof using Type. intros H. unfold revoke. apply wp_registry. by destruct (RouteRegistry.revokeRoutes id ds (registry h)). Qed.
Lemma guestRevoke_safe closed id ds : safe (guestHandle_revokeRoutes options hostId fresh closed id ds).
Proof using C Hhost.
  intros h Hs. change (settles (guestHandle_revokeRoutes options hostId fresh closed id ds) h). pose proof Hs as [Hso Hf Hw Hsy]. unfold guestHandle_revokeRoutes.
  destruct closed; [by apply swp_ret|]. apply swp_bind, wp_revoke. pose proof (revoke_spec id ds h Hso Hf) as Hr.
  destruct (RouteRegistry.revokeRoutes id ds (registry h)) as [[revoked missing] reg]. destruct Hr as (S1 & F1 & W1 & E1 & V1 & I1 & _). cbn [fst snd].
  apply settles_runs, runs_bind, runs_when; intros El.
  - apply announce_runs; auto; [by apply I1, positive_nonempty|]. intros h' H'. by apply runs_ret.
  - apply runs_ret. eapply similar_settled; [apply set_reg_same, E1|exact Hs]. by apply zero_empty.
Qed.

Lemma domains_Ok v l : createGuestRevocationRequest v = Ok l -> Forall (fun d => trim d <> []) l.
Proof using Type.
  unfold createGuestRevocationRequest. destruct v as [| | | | |[|d ds]|]; try done. intros H%map_res_Ok. induction H as [|x y xs ys Hx _ IH]; constructor; [|done].
  destruct x; try done. apply requireNonEmpty_Ok in Hx as [-> Hx]. by rewrite trim_idem.
Qed.
Lemma failed_Ok l : Forall (fun d => trim d <> []) l -> exists r, map_res (fun fd => domain ← requireNonEmpty (dr_domain fd) "revocation failure domain";
  Ok {| dr_domain := domain; dr_error := dr_error fd |}) (map not_found l) = Ok r.
Proof using Type.
  intros H. induction H as [|d l Hd _ (r & IH)]; [by exists []|]. eexists. cbn [map map_res not_found dr_domain]. rewrite nonempty_id by done. cbn [mbind result_bind].
  unfold not_found in IH |- *. rewrite IH. done.
Qed.
Lemma partial_quiet s l : Forall (fun d => trim d <> []) l -> quiet (revocation_answer s 200 "partial" (Some (js "Some domains were not found")) (Some (map not_found l))).
Proof using Type.
  intros H. unfold revocation_answer, createGuestRevocationResponse.
  assert (find (fun s => str_eqb (status_name s) (js "partial")) [status_ack; status_partial; status_error] = Some status_partial) as -> by (by vm_compute).
  destruct l as [|d l]; [cbn [map mbind result_bind]; intros h; apply quiet_respond_json|]. destruct (failed_Ok (d :: l) H) as (r & Er). cbn [map] in Er |- *. rewrite Er.
  cbn [fmap result_fmap mbind result_bind]. intros h. apply quiet_respond_json.
Qed.
Lemma revocationRead_safe id s body : safe (guestRevocation_read options hostId fresh id s body).
Proof using C Hhost.
  intros h Hs. change (settles (guestRevocation_read options hostId fresh id s body) h). unfold guestRevocation_read.
  destruct (text ← body; revocation_domains text) as [domains|e] eqn:Ed; [|by apply revocation_answer_safe]. 
  assert (Forall (fun d => trim d <> []) domains) as Hds.
  { apply bind_Ok_inv in Ed as (text & -> & Ed). unfold revocation_domains in Ed. destruct (json_parse text) as [v|]; [|done]. destruct (js_member _ v); [|done]. by eapply domains_Ok. }
  pose proof Hs as [Hso Hf Hw Hsy]. apply swp_bind, wp_revoke. pose proof (revoke_spec id domains h Hso Hf) as Hr.
  destruct (RouteRegistry.revokeRoutes id domains (registry h)) as [[revoked missing] reg]. destruct Hr as (S1 & F1 & W1 & E1 & V1 & I1 & M1). cbn [fst snd].
  assert (revoked = [] -> settled_host options (set_reg reg h)) as Hnone by (intros E; eapply similar_settled; [apply set_reg_same, E1, E|exact Hs]).
  destruct (len revoked =? len domains); [|destruct (0 <? len revoked) eqn:El].
  - apply settles_runs, runs_bind, quiet_runs; [intros h'; apply quiet_respond_json|]. intros h1 H1. apply runs_when; intros El.
    + apply announce_runs; [by eapply similar_sound|by eapply similar_follow|eapply similar_watched; [exact H1|auto]|by apply I1, positive_nonempty|done|auto].
    + eapply similar_settled; [exact H1|]. by apply Hnone, zero_empty.
  - apply settles_runs, runs_bind, quiet_runs.
    + apply partial_quiet, Forall_forall. intros d Hd. rewrite Forall_forall in Hds. by apply Hds, M1.
    + intros h1 H1. apply announce_runs; [by eapply similar_sound|by eapply similar_follow|eapply similar_watched; [exact H1|auto]|by apply I1, positive_nonempty|done|auto].
  - apply revocation_answer_safe. by apply Hnone, zero_empty.
Qed.

(** ** Admission *)
Lemma peerId_valid s id : createPeerId s = Ok id -> trimmed_id id.
Proof using Type. intros [-> H]%requireNonEmpty_Ok. split; [apply trim_idem|done]. Qed.
Lemma wp_guarded b e h (Post : result exn unit -> host -> Prop) : Post (Throw e) h -> (b = false -> Post (Ok tt) h) -> wp (sm_guard b e) Post h.
Proof using Type. intros H1 H2. by apply swp_guard. Qed.
Lemma local_request_safe s k : (forall g id, trimmed_id id -> safe (k g id)) -> safe (local_request s k).
Proof using Type.
  intros H h Hs. change (settles (local_request s k) h). unfold local_request. apply swp_bind, swp_get, swp_bind, swp_lift. destruct (createPeerId s) as [id|e] eqn:E; [|done].
  apply peerId_valid in E. by apply (safe_bind (sm_get _) _ (safe_get _) (fun taken => safe_bind (sm_guard taken _) _ (safe_guard _ _) (fun _ => H _ id E))).
Qed.
Lemma attachLocalGuest_safe id ds : domains_valid ds -> safe (attachLocalGuest id ds).
Proof using Type. intros Hds. apply local_request_safe. intros g i Hi. by apply await_safe. Qed.
Lemma attachLocalBroker_safe id legacy d : safe (attachLocalBroker id legacy d).
Proof using Type. apply local_request_safe. intros g i Hi. safe_tac. by apply await_safe. Qed.

(** The id is free when a local peer is admitted. *)
Lemma local_admission_wp g id role a h (Post : result exn unit -> host -> Prop) : (forall e h', similar h h' -> Post (Throw e) h') ->
  (map_get id (ho_peers h) = None -> g = ho_generation h -> Post (Ok tt) h) -> wp (local_admission g id role a) Post h.
Proof using Type.
  intros Ht Ho. unfold local_admission. apply swp_bind. destruct a as [|reason].
  - apply swp_ret, swp_bind, swp_get, swp_bind, wp_guarded; [apply Ht, similar_refl|]. intros Eg%negb_false_iff%Z.eqb_eq. apply swp_bind, swp_get, wp_guarded; [apply Ht, similar_refl|].
    unfold map_has. intros E. apply Ho; [|done]. by destruct (map_get id (ho_peers h)).
  - apply swp_bind, swp_modify, swp_throw, Ht, similar_log. by repeat constructor.
Qed.
Lemma arrived_added id p h : follow [] h -> map_get id (ho_peers h) = None -> rp_role p = role_guest -> arrived id (upd_peers (map_set id p) h).
Proof using Type.
  intros [F1 F2] Hn Hr. assert (is_guest (upd_peers (map_set id p) h) id) as Hg by (exists p; split; [cbn; by rewrite map_get_set_eq|done]). split; [done|].
  split; intros i x Hx; [destruct (F1 i x Hx) as [? H]|destruct (F2 i x Hx) as [? H]]; (split; [done|]); rewrite list_elem_of_singleton; intros Hi; unfold is_guest; cbn; rewrite map_get_set_ne by done;
    apply H, not_elem_of_nil.
Qed.
Lemma arrived_similar id a b : similar a b -> arrived id a -> arrived id b.
Proof using Type. intros Hsim [H1 H2]. split; [by rewrite (similar_guest _ _ _ Hsim)|by eapply similar_follow]. Qed.
Lemma added_sound id p h : sound options h -> map_get id (ho_peers h) = None -> trimmed_id id -> peer_shape p -> ~ remote_broker p ->
  (rp_transport p = tr_h2 -> isFederationPeerIdInUse h id = false) -> sound options (upd_peers (map_set id p) h).
Proof using Type. intros Hs Hn Hid Hp Hb Hf. eapply carried_sound; [|exact Hs|done..]. apply members_add; try done. apply Hs. Qed.

Lemma localGuest_safe g id ds l a : trimmed_id id -> domains_valid ds -> safe (attachLocalGuest_decided options hostId fresh g id ds l a).
Proof using C Hhost.
  intros Hid Hds h Hs. change (settles (attachLocalGuest_decided options hostId fresh g id ds l a) h). unfold attachLocalGuest_decided. apply swp_bind, local_admission_wp.
  { intros e h' H'. by eapply similar_settled. }
  intros Hn _. apply swp_bind, wp_quiet; [quiet_tac|]. intros h1 H1. apply swp_bind, swp_lift.
  assert (settled_host options h1) as [So1 F1 W1 Y1] by (by eapply similar_settled). destruct (extractLocalGuestListener id l) as [[]|e]; [|by split].
  assert (map_get id (ho_peers h1) = None) as Hn1 by (by rewrite (sim_peers _ _ H1)). set (p := local_peer role_guest None None).
  apply settles_runs, runs_bind, runs_modify. pose proof (arrived_added id p h1 F1 Hn1 eq_refl) as A2.
  assert (sound options (upd_peers (map_set id p) h1)) as S2 by (apply added_sound; try done; by intros []).
  assert (watched (upd_peers (map_set id p) h1)) as W2 by done. set (h2 := upd_peers _ _) in *.
  apply runs_bind, quiet_runs; [quiet_tac|]. intros h3 H3. apply runs_bind, register_runs; [done|done|by eapply similar_sound|by eapply arrived_similar|]. intros h4 S4 F4 W4 M4.
  apply runs_bind, quiet_runs; [quiet_tac|]. intros h5 H5. apply tell_settles; [by eapply similar_sound|by eapply similar_follow| |auto].
  eapply similar_watched; [exact H5|]. apply W4. by eapply similar_watched.
Qed.

Lemma localBroker_safe g id d a : trimmed_id id -> safe (attachLocalBroker_decided g id d a).
Proof using Type.
  intros Hid h Hs. change (settles (attachLocalBroker_decided g id d a) h). unfold attachLocalBroker_decided. apply swp_bind, local_admission_wp.
  { intros e h' H'. by eapply similar_settled. }
  intros Hn _. apply swp_bind, swp_get. apply settles_runs, runs_bind, quiet_runs; [quiet_tac|]. intros h1 H1. apply runs_bind, runs_modify.
  assert (settled_host options h1) as [So1 F1 W1 Y1] by (by eapply similar_settled). assert (map_get id (ho_peers h1) = None) as Hn1 by (by rewrite (sim_peers _ _ H1)).
  assert (getRoutedDomains h = getRoutedDomains h1) as -> by (unfold getRoutedDomains; by rewrite (sim_registry _ _ H1)).
  set (p := local_peer _ _ _). apply quiet_runs; [quiet_tac|]. intros h2 H2. eapply similar_settled; [exact H2|]. split.
  - apply added_sound; try done. by intros [].
  - apply follow_peers; [|done]. intros i. unfold is_guest. cbn. rewrite map_get_set. destruct (decide (i = id)) as [->|]; [|done].
    split; intros (q & Hq & Hr); [injection Hq as <-; done|congruence].
  - done.
  - apply (sync_transfer h1); [done|done|intros i c Hc; by right|]. intros i q x. cbn. rewrite map_get_set. destruct (decide (i = id)) as [->|]; [|intros Hq Hx; right; eauto].
    intros [= <-] [= <-]. by left.
Qed.

(** ** A remote peer is admitted *)
Definition sync_but (s : nat) (h : host) : Prop :=
  (forall id c, (id, c) ∈ remote_controls h -> c <> s -> exists routes, last_snapshot c (ho_log h) = Some routes /\ current h routes) /\
  (forall id p b, map_get id (ho_peers h) = Some p -> rp_localBroker p = Some b -> current h (lbs_routes b)).
Lemma sync_but_similar s a b : similar a b -> sync_but s a -> sync_but s b.
Proof using Type.
  intros Hs [H1 H2]. pose proof (sim_registry _ _ Hs) as Hr. split.
  - intros id c (ms & m & Hg & Hm & Hc & Ho)%remote_controls_elem. rewrite (sim_log _ _ Hs). unfold current. rewrite Hr. eapply (H1 id), remote_controls_elem.
    rewrite (sim_remote _ _ Hs) in Hg. exists ms, m. split_and!; try done. by apply (sim_streams _ _ Hs).
  - intros id p b'. rewrite (sim_peers _ _ Hs). unfold current. rewrite Hr. apply H2.
Qed.
Lemma registered_settles s h : sound options h -> follow [] h -> watched h -> sync_but s h ->
  settles (routes ← sm_get getRoutedDomains; writeJsonLine s (ln_registered routes)) h.
Proof using Type.
  intros Hs Hf Hw Hsy. apply settles_runs. unfold writeJsonLine. apply runs_bind, runs_get, runs_bind, runs_get, runs_bind, quiet_runs; [quiet_tac|]. intros h1 H1.
  assert (getRoutedDomains h = getRoutedDomains h1) as -> by (unfold getRoutedDomains; by rewrite (sim_registry _ _ H1)).
  assert (sound options h1) as S1 by (by eapply similar_sound). assert (follow [] h1) as F1 by (by eapply similar_follow). assert (watched h1) as W1 by (by eapply similar_watched).
  destruct (sync_but_similar _ _ _ H1 Hsy) as [Y1 Y2]. apply runs_modify. split.
  - destruct S1 as [A1 A2 A3]. split; [carry A1|carry A2|carry A3].
  - carry F1.
  - exact W1.
  - split; [|exact Y2]. intros i c Hc. cbn [ho_log add_log]. rewrite last_snapshot_app. destruct (decide (c = s)) as [->|Hne].
    + exists (getRoutedDomains h1). split; [|exact (current_now h1)]. unfold last_snapshot. cbn. by rewrite decide_True.
    + destruct (Y1 i c Hc Hne) as (rs & E & Hcur). exists rs. split; [|exact Hcur]. unfold last_snapshot at 1. cbn. by rewrite decide_False by congruence.
Qed.

Definition remote_peer (registration : HostRegistration) (stream session : nat) (p : RegisteredPeer) : Prop :=
  rp_role p = hg_role registration /\ rp_transport p = tr_h2 /\ rp_session p = Some session /\ rp_localBroker p = None /\
  (hg_role registration = role_broker -> rp_controlStream p = Some stream).
(** Publishing a broker leaves one stream to be told. *)
Lemma publish_broker_wp id r p stream session h (Post : result exn unit -> host -> Prop) : settled_host options h -> trimmed_id id -> isFederationPeerIdInUse h id = false ->
  remote_peer r stream session p -> hg_role r = role_broker -> (forall e, Post (Throw e) h) ->
  (forall h', sound options h' -> follow [] h' -> watched h' -> sync_but stream h' -> registry h' = registry h -> Post (Ok tt) h') ->
  wp (publish_peer id r p session) Post h.
Proof using Type.
  intros [Hso Hf Hw [Y1 Y2]] Hid Hfed (Hr & Ht & Hses & Hlb & Hc) Hrole Hthrow HP. specialize (Hc Hrole). rewrite Hrole in Hr. unfold publish_peer. apply swp_bind, swp_get.
  destruct (map_get id (ho_peers h)) as [lead|] eqn:El.
  - apply swp_bind, swp_get, swp_bind, wp_guarded; [apply Hthrow|]. unfold refuses_member. rewrite !orb_false_iff, !negb_false_iff, !bool_decide_eq_true.
    intros ((((((_ & Hlr) & Hlt) & Hms) & Hfp) & Hfl) & Hk). destruct (map_get id (ho_remote h)) as [ms|] eqn:Ems; [|done]. cbn [default from_option].
    assert (map_get session ms = None) as Hns by (unfold map_has in Hms; by destruct (map_get session ms)).
    apply swp_modify, HP; try done.
    + eapply carried_sound; [|exact Hso|done..]. by eapply members_join; [apply Hso|..].
    + carry Hf.
    + split; [|exact Y2]. intros i c (ms' & m & Hg & Hm & Hcm & Ho)%remote_controls_elem Hne. cbn in Hg. apply map_elem_set in Hg as [[-> ->]|Hg].
      * destruct m as [k v]. apply map_elem_set in Hm as [[-> ->]|Hm]; [cbn in Hcm; congruence|]. apply (Y1 id), remote_controls_elem. exists ms, (k, v). split_and!; try done. by apply map_get_elem.
      * apply (Y1 i), remote_controls_elem. exists ms', m. by split_and!.
  - rewrite (bool_decide_eq_true_2 _ Hrole). apply swp_bind, swp_modify, swp_modify, HP; try done.
    + eapply carried_sound; [|exact Hso|done..]. apply members_add_broker; try done. apply Hso.
    + destruct Hf as [F1 F2]. assert (forall i, is_guest (upd_remote (map_set id [(session, p)]) (upd_peers (map_set id p) h)) i <-> is_guest h i) as Hg.
      { intros i. unfold is_guest. cbn. rewrite map_get_set. destruct (decide (i = id)) as [->|]; [|done]. split; intros (q & Hq & Hqr); congruence. }
      split; intros i x; rewrite Hg; [apply F1|apply F2].
    + split.
      * intros i c (ms' & m & Hg & Hm & Hcm & Ho)%remote_controls_elem Hne. cbn in Hg. apply map_elem_set in Hg as [[-> ->]|Hg].
        -- apply list_elem_of_singleton in Hm as ->. cbn in Hcm. congruence.
        -- apply (Y1 i), remote_controls_elem. exists ms', m. by split_and!.
      * intros i q b. cbn. rewrite map_get_set. destruct (decide (i = id)) as [->|]; [intros [= <-]; congruence|apply Y2].
Qed.
Lemma publish_guest_wp id r p stream session h (Post : result exn unit -> host -> Prop) : settled_host options h -> trimmed_id id -> isFederationPeerIdInUse h id = false ->
  remote_peer r stream session p -> hg_role r = role_guest -> (forall e, Post (Throw e) h) ->
  (forall h', sound options h' -> arrived id h' -> watched h' -> registry h' = registry h -> Post (Ok tt) h') ->
  wp (publish_peer id r p session) Post h.
Proof using Type.
  intros [Hso Hf Hw _] Hid Hfed (Hr & Ht & Hses & Hlb & _) Hrole Hthrow HP. rewrite Hrole in Hr. unfold publish_peer. apply swp_bind, swp_get.
  destruct (map_get id (ho_peers h)) as [lead|] eqn:El.
  - apply swp_bind, swp_get, swp_bind, wp_guarded; [apply Hthrow|]. unfold refuses_member. rewrite Hrole. done.
  - rewrite bool_decide_eq_false_2 by congruence. apply swp_bind, swp_modify, swp_ret, HP; try done.
    + apply added_sound; try done; [unfold peer_shape; rewrite Ht, Hses; split; [by eexists|done]|]. intros [Hb _]. congruence.
    + by apply arrived_added.
Qed.
Lemma registerPeer_safe stream session r : (hg_role r = role_guest -> domains_valid (hg_routedDomains r)) -> safe (registerPeer stream session r).
Proof using Type.
  intros Hds h Hs. change (settles (registerPeer stream session r) h). unfold registerPeer. apply swp_bind, swp_get, swp_bind, swp_lift. destruct (createPeerId (hg_peerId r)) as [id|e] eqn:E; [|exact Hs].
  apply peerId_valid in E. apply swp_bind, swp_get, swp_bind, wp_guarded; [exact Hs|]. intros _. apply swp_bind, swp_get. cbv zeta. apply swp_bind, wp_guarded; [exact Hs|]. intros _.
  destruct session as [session|]; [|exact Hs]. by apply await_safe.
Qed.
(** ** Federation membership *)
Lemma federation_kept u g p q h : sound options h ->
  (forall i, i ∈ map_keys (u (ho_upstreams h)) \/ i ∈ map_keys (g (ho_inbound h)) \/ i ∈ p (ho_pendingUpstream h) \/ i ∈ map_keys (q (ho_pendingInbound h)) ->
     isFederationPeerIdInUse h i = true \/ map_get i (ho_peers h) = None) ->
  (forall i, i ∈ omap upstream_of (ho_waiting h) -> i ∈ p (ho_pendingUpstream h)) ->
  sound options (upd_federation (u (ho_upstreams h)) (g (ho_inbound h)) (p (ho_pendingUpstream h)) (q (ho_pendingInbound h)) h).
Proof using Type.
  intros [M [W1 W2 W3 W4 W5] R] H1 H2. split; [|by split|carry R]. destruct M as [M1 M2 M3 M4 M5 M6]. split; try done. intros i x Hx Ht. specialize (M6 i x Hx Ht).
  apply not_true_iff_false. intros Hu. unfold isFederationPeerIdInUse in Hu. cbn in Hu, Hx. rewrite !orb_true_iff in Hu. unfold map_has in Hu. rewrite set_has_elem in Hu.
  assert (forall V (m : list (jsstring * V)), (match map_get i m with Some _ => true | None => false end) = true -> i ∈ map_keys m) as Hk.
  { intros V m. destruct (map_get i m) eqn:E; [|done]. intros _. apply map_get_elem in E. apply list_elem_of_fmap. by exists (i, v). }
  destruct (H1 i) as [E|E]; [|congruence..]. destruct Hu as [[[Hu|Hu]|Hu]|Hu]; auto.
Qed.
Lemma key_in_use i h : i ∈ map_keys (ho_upstreams h) \/ i ∈ map_keys (ho_inbound h) \/ i ∈ ho_pendingUpstream h \/ i ∈ map_keys (ho_pendingInbound h) ->
  isFederationPeerIdInUse h i = true.
Proof using Type.
  unfold isFederationPeerIdInUse. rewrite !orb_true_iff, set_has_elem. unfold map_has.
  assert (forall V (m : list (jsstring * V)), i ∈ map_keys m -> (match map_get i m with Some _ => true | None => false end) = true) as Hk.
  { intros V m Hi. destruct (map_get i m) eqn:E; [done|]. by apply map_get_None in E. }
  intros [H|[H|[H|H]]]; apply Hk in H || idtac; tauto.
Qed.
Lemma federation_intact u g p q h : intact options h ->
  (forall i, i ∈ map_keys (u (ho_upstreams h)) \/ i ∈ map_keys (g (ho_inbound h)) \/ i ∈ p (ho_pendingUpstream h) \/ i ∈ map_keys (q (ho_pendingInbound h)) ->
     isFederationPeerIdInUse h i = true \/ map_get i (ho_peers h) = None) ->
  (forall i, i ∈ omap upstream_of (ho_waiting h) -> i ∈ p (ho_pendingUpstream h)) ->
  intact options (upd_federation (u (ho_upstreams h)) (g (ho_inbound h)) (p (ho_pendingUpstream h)) (q (ho_pendingInbound h)) h).
Proof using Type. intros [Hs Hf [Y1 Y2]] H1 H2. split; [by apply federation_kept|carry Hf|by split]. Qed.
(** Leaving out members, or adding one whose id is free. *)
Lemma federation_shrinks u g p q h : intact options h -> map_keys (u (ho_upstreams h)) ⊆ map_keys (ho_upstreams h) -> map_keys (g (ho_inbound h)) ⊆ map_keys (ho_inbound h) ->
  p (ho_pendingUpstream h) ⊆ ho_pendingUpstream h -> map_keys (q (ho_pendingInbound h)) ⊆ map_keys (ho_pendingInbound h) ->
  (forall i, i ∈ omap upstream_of (ho_waiting h) -> i ∈ p (ho_pendingUpstream h)) ->
  intact options (upd_federation (u (ho_upstreams h)) (g (ho_inbound h)) (p (ho_pendingUpstream h)) (q (ho_pendingInbound h)) h).
Proof using Type.
  intros Hi A1 A2 A3 A4 A5. apply federation_intact; [done| |done]. intros i Hin. left. apply key_in_use.
  destruct Hin as [Hin|[Hin|[Hin|Hin]]]; [left; by apply A1|right; left; by apply A2|do 2 right; left; by apply A3|do 3 right; by apply A4].
Qed.
Lemma keys_delete {V} k (m : list (jsstring * V)) : map_keys (map_delete k m) ⊆ map_keys m.
Proof using Type. intros x. rewrite map_keys_delete. by intros [_ H]%list_elem_of_filter. Qed.
Lemma keys_set {V} k v (m : list (jsstring * V)) x : x ∈ map_keys (map_set k v m) -> x = k \/ x ∈ map_keys m.
Proof using Type. unfold map_keys. rewrite !list_elem_of_fmap. intros ([k' v'] & -> & [[-> ->]|H]%map_elem_set); [by left|right; by exists (k', v')]. Qed.
Lemma pending_waits h : sound options h -> forall i, i ∈ omap upstream_of (ho_waiting h) -> i ∈ same (ho_pendingUpstream h).
Proof using Type. intros [_ [] _]. done. Qed.

Lemma links_quiet (x : host_routes -> host_routes) : (forall st, hr_registry (x st) = hr_registry st) -> quiet (sm_modify (upd_routes x)).
Proof using Type. intros H. apply quiet_modify. intros h. by apply on_routes_similar. Qed.
Lemma set_inbound_quiet id open : quiet (set_inbound_link id open).
Proof using Type. by apply links_quiet. Qed.
Lemma settled_intact h : settled_host options h -> intact options h.
Proof using Type. by intros []. Qed.
Lemma settle_intact h h' : settled_host options h -> intact options h' -> (watched h -> watched h') -> settled_host options h'.
Proof using Type. intros [_ _ Hw _] Hi H. by eapply intact_settled. Qed.

Lemma handshake_safe s ses : safe (handleHostFederationStream hostId s ses).
Proof using Type. unfold handleHostFederationStream. safe_tac. by apply await_safe. Qed.
Lemma handshakeRead_safe g s ses body : safe (handshake_read g s ses body).
Proof using Type.
  intros h Hs. change (settles (handshake_read g s ses body) h). unfold handshake_read. apply swp_bind, swp_lift. destruct (match _ with Ok hs => Ok hs | Throw _ => _ end) as [hs|e]; [|exact Hs].
  cbv zeta. apply swp_bind, swp_get, swp_bind, wp_guarded; [exact Hs|]. intros Ht. apply orb_false_iff in Ht as [Hp Hf]. destruct ses as [ses|]; [|exact Hs].
  apply swp_bind, swp_get, swp_bind, swp_modify. apply await_safe; [done..|]. eapply settle_intact; [exact Hs| |done]. apply federation_intact; [by apply settled_intact| |by apply pending_waits, Hs].
  intros i [Hi|[Hi|[Hi|Hi%keys_set]]]; [left; apply key_in_use; tauto..|]. destruct Hi as [->|Hi]; [right|left; apply key_in_use; tauto]. unfold map_has in Hp. by destruct (map_get _ (ho_peers h)).
Qed.
Lemma handshakeDecided_safe g id s ses n d : safe (handshake_decided hostId g id s ses n d).
Proof using Type.
  unfold handshake_decided. apply safe_bind; [apply safe_lift|intros localId]. apply safe_bind; [|intros _].
  { intros h Hs. cbn. case_decide; [|exact Hs]. eapply settle_intact; [exact Hs| |done].
    apply (federation_shrinks same same same (map_delete id)); try done; [by apply settled_intact|apply keys_delete|by apply pending_waits, Hs]. }
  destruct d as [|reason]; [|safe_tac]. apply safe_if; [apply safe_ret|]. intros h Hs. match goal with |- _ (?m h).2 => change (settles m h) end.
  apply swp_bind, swp_get, swp_bind, wp_guarded; [exact Hs|]. intros Hp. apply swp_bind, swp_get, swp_bind, wp_guarded; [exact Hs|]. intros _. apply swp_bind, swp_modify.
  set (h1 := upd_federation _ _ _ _ h). assert (settled_host options h1) as H1.
  { eapply settle_intact; [exact Hs| |done]. apply federation_intact; [by apply settled_intact| |by apply pending_waits, Hs].
    intros i [Hi|[Hi%keys_set|[Hi|Hi]]]; [left; apply key_in_use; tauto| |left; apply key_in_use; tauto..]. destruct Hi as [->|Hi]; [right|left; apply key_in_use; tauto].
    unfold map_has in Hp. by destruct (map_get _ (ho_peers h)). }
  clearbody h1. apply settles_runs, runs_bind, quiet_runs; [apply set_inbound_quiet|]. intros h2 H2. apply runs_bind, quiet_runs; [quiet_tac|]. intros h3 H3.
  apply runs_bind, runs_get, runs_bind, quiet_runs; [quiet_tac|]. intros h4 H4. apply quiet_runs; [quiet_tac|]. intros h5 H5. eauto using similar_settled.
Qed.
Lemma removeInbound_safe id : safe (removeInboundFederationHost options id).
Proof using C Hhost.
  apply runs_safe. intros h Hs. apply runs_if; intros _; [|by apply runs_ret]. apply runs_bind, runs_modify. set (h1 := upd_federation _ _ _ _ h).
  assert (settled_host options h1) as H1.
  { eapply settle_intact; [exact Hs| |done]. apply (federation_shrinks same (map_delete id) same same); try done; [by apply settled_intact|apply keys_delete|by apply pending_waits, Hs]. }
  clearbody h1. apply runs_bind, quiet_runs; [by apply links_quiet|]. intros h2 H2. apply runs_bind, quiet_runs; [quiet_tac|]. intros h3 H3.
  assert (settled_host options h3) as [S3 F3 W3 Y3] by eauto using similar_settled. apply runs_bind, removeImported_intact; [done..|]. intros h4 I4 W4 _.
  apply quiet_runs; [quiet_tac|]. intros h5 H5. eapply similar_settled; [exact H5|]. by eapply intact_settled.
Qed.
Lemma routeStream_safe s ses id : safe (handleHostFederationRouteStream options s ses id).
Proof using Type.
  unfold handleHostFederationRouteStream. safe_tac; [apply safe_quiet, set_inbound_quiet|].
  intros h Hs. unfold on_host_routes, sm_part, HostRoutes.advertise_link. cbn [rl_open rl_remoteHostId]. destruct (route_snapshot _ _ _) as [frame|e]; cbn [fst snd].
  - eapply similar_settled; [|exact Hs]. apply (on_routes_similar (fun _ => _)). done.
  - eapply similar_settled; [|exact Hs]. by apply (on_routes_similar (fun _ => _)).
Qed.

(** ** Upstream links *)
Definition reserved (id : jsstring) (h : host) : Prop := id ∈ ho_pendingUpstream h /\ id ∉ omap upstream_of (ho_waiting h).
Lemma reserved_similar id a b : similar a b -> reserved id a -> reserved id b.
Proof using Type. intros [] H. unfold reserved. by rewrite sim_pendingUpstream0, sim_waiting0. Qed.
Lemma await_upstream w id h : settled_host options h -> waiting_valid w -> upstream_of (0%nat, w) = Some id -> reserved id h -> settles (await_with w) h.
Proof using Type.
  intros [[S1 S2 S3] Hf Hwt [Y1 Y2]] Hw Hu Hr. apply swp_modify. split.
  - split; [carry S1| |carry S3]. apply await_waiting; [done..|]. intros i. rewrite Hu. by intros [= <-].
  - carry Hf.
  - intros Hne. destruct (Hwt Hne) as [H|H]; [by left|right]. apply Exists_app. by left.
  - by split.
Qed.
Lemma connectUpstream_safe id ses pooled connected : safe (connectUpstream hostId id ses pooled connected).
Proof using Type.
  intros h Hs. change (settles (connectUpstream hostId id ses pooled connected) h). unfold connectUpstream. apply swp_bind, swp_lift. destruct (getFederationHostId hostId); [|exact Hs].
  apply swp_bind, swp_lift. destruct (createPeerId id) as [up|e] eqn:E; [|exact Hs]. apply swp_bind, swp_get, swp_bind, wp_guarded; [exact Hs|].
  unfold upstream_taken. rewrite !orb_false_iff. intros ((((_ & Hpend) & Hp) & _) & _). apply swp_bind, swp_modify.
  assert (up ∉ ho_pendingUpstream h) as Hni by (intros Hin%set_has_elem; congruence). pose proof (pending_waits h (se_sound _ _ Hs)) as Hpw.
  set (h1 := upd_federation _ _ _ _ h).
  assert (settled_host options h1) as Hs1.
  { eapply settle_intact; [exact Hs| |done]. apply (federation_intact same same (set_add up) same); [by apply settled_intact| |].
    + intros i [Hi|[Hi|[Hi|Hi]]]; [left; apply key_in_use; tauto..| |left; apply key_in_use; tauto]. apply set_add_elem in Hi as [->|Hi]; [right|left; apply key_in_use; tauto].
      unfold map_has in Hp. by destruct (map_get _ (ho_peers h)).
    + intros i Hi. apply set_add_elem. right. by apply Hpw. }
  apply swp_bind, swp_lift. destruct connected as [[]|e]; [|exact Hs1]. eapply await_upstream; [exact Hs1|done|done|].
  split; cbn; [apply set_add_elem; by left|]. intros Hin. by apply Hni, Hpw.
Qed.
Lemma upstreamSettled_wp id h (Post : result exn unit -> host -> Prop) : settled_host options h -> reserved id h ->
  (forall h', settled_host options h' -> Post (Ok tt) h') -> wp (upstream_settled id) Post h.
Proof using Type.
  intros Hs [_ Hr] HQ. apply swp_modify, HQ. eapply settle_intact; [exact Hs| |done].
  apply (federation_shrinks same same (filter (fun x => x <> id)) same); try done; [by apply settled_intact|by intros x [_ H]%list_elem_of_filter|].
  intros i Hi. apply list_elem_of_filter. split; [by intros ->|]. by apply (pending_waits h (se_sound _ _ Hs)).
Qed.
Lemma upstreamFailed_settles {A} id ses e h : settled_host options h -> reserved id h -> settles (upstream_failed (A := A) id ses e) h.
Proof using Type.
  intros Hs Hr. unfold upstream_failed. apply swp_bind, wp_quiet; [quiet_tac|]. intros h1 H1. apply swp_bind, upstreamSettled_wp; [by eapply similar_settled|by eapply reserved_similar|].
  intros h2 H2. exact H2.
Qed.
Lemma upstreamReady_settles id ses h : settled_host options h -> reserved id h -> settles (upstream_ready options id ses) h.
Proof using C Hhost.
  intros Hs Hr. unfold upstream_ready. apply swp_bind, swp_catch, swp_bind, wp_quiet; [quiet_tac|]. intros h1 H1.
  eapply runs_wp; [apply (federated_runs h1 (fun _ h' => similar h1 h')); [eapply similar_sound; [exact H1|apply Hs]|done]|]. intros [] h2 H2. cbv beta.
  pose proof (similar_trans _ _ _ H1 H2) as H02. apply upstreamSettled_wp; [by eapply similar_settled|by eapply reserved_similar|done].
Qed.
Lemma upstreamConnected_settles id ses pooled a h : settled_host options h -> reserved id h -> settles (upstream_connected options id ses pooled a) h.
Proof using C Hhost.
  intros Hs Hr. unfold upstream_connected. destruct a as [remote|e]; [|by apply upstreamFailed_settles]. apply swp_bind, swp_modify. set (h1 := upd_federation _ _ _ _ h).
  assert (settled_host options h1) as H1.
  { eapply settle_intact; [exact Hs| |done]. apply (federation_intact (map_set id _) same same same); [by apply settled_intact| |by apply pending_waits, Hs].
    intros i [Hi%keys_set|[Hi|[Hi|Hi]]]; left; apply key_in_use; try tauto. destruct Hi as [->|Hi]; [|tauto]. right. right. left. apply Hr. }
  assert (reserved id h1) as R1 by exact Hr. clearbody h1. apply swp_bind, wp_quiet; [by apply links_quiet|]. intros h2 H2.
  pose proof (similar_settled _ _ _ H2 H1) as Hs2. pose proof (reserved_similar _ _ _ H2 R1) as R2. destruct pooled; [by eapply await_upstream|by apply upstreamReady_settles].
Qed.

(** Losing a link works without the timer, too. *)
Lemma sessionClose_intact id h (Q : unit -> host -> Prop) : intact options h -> (forall h', intact options h' -> (watched h -> watched h') -> Q tt h') ->
  runs (handleUpstreamSessionClose options id) h Q.
Proof using C Hhost.
  intros Hi HQ. unfold handleUpstreamSessionClose. apply runs_bind, runs_get. destruct (map_get id (ho_upstreams h)) as [link|]; [|by apply runs_ret, HQ].
  apply runs_bind, runs_modify. set (h1 := upd_federation _ _ _ _ h). assert (intact options h1) as I1.
  { apply (federation_shrinks (map_delete id) same same same); try done; [apply keys_delete|by apply pending_waits, Hi]. }
  assert (watched h -> watched h1) as W1 by done. clearbody h1. apply runs_bind, quiet_runs; [by apply links_quiet|]. intros h2 H2.
  destruct (similar_intact _ _ H2 I1) as [S2 F2 Y2]. apply runs_bind, removeImported_intact; [done..|]. intros h3 I3 W3 _.
  apply quiet_runs; [quiet_tac|]. intros h4 H4. apply HQ; [by eapply similar_intact|]. intros Hw. eapply similar_watched; [exact H4|]. apply W3. eapply similar_watched; [exact H2|auto].
Qed.
Lemma intact_safe m : (forall h (Q : unit -> host -> Prop), intact options h -> (forall h', intact options h' -> (watched h -> watched h') -> Q tt h') -> runs m h Q) -> safe m.
Proof using Type. intros H. apply runs_safe. intros h Hs. apply H; [by apply settled_intact|]. intros h' Hi Hw. by eapply settle_intact. Qed.
Lemma upstreamClose_safe id : safe (handleUpstreamSessionClose options id).
Proof using C Hhost. apply intact_safe. intros h Q. apply sessionClose_intact. Qed.
Lemma upstreamRouteClose_safe id : safe (handleUpstreamRouteStreamClose options id).
Proof using C Hhost. unfold handleUpstreamRouteStreamClose. safe_tac. apply upstreamClose_safe. Qed.
Lemma closeLink_intact id h (Q : unit -> host -> Prop) : intact options h -> (forall h', intact options h' -> (watched h -> watched h') -> Q tt h') ->
  runs (closeUpstreamLink options id) h Q.
Proof using C Hhost.
  intros Hi HQ. unfold closeUpstreamLink. apply runs_bind, runs_get. destruct (map_get id (ho_upstreams h)) as [link|] eqn:El; [|by apply runs_ret, HQ].
  apply runs_bind, runs_modify. set (h1 := upd_federation _ _ _ _ h). assert (intact options h1) as I1.
  { apply (federation_shrinks (map_set id _) same same same); try done; [|by apply pending_waits, Hi]. intros i [->|Hin]%keys_set; [|done].
    apply map_get_elem in El. apply list_elem_of_fmap. by exists (id, link). }
  assert (watched h -> watched h1) as W1 by done. clearbody h1. destruct I1 as [S1 F1 Y1]. apply runs_bind, removeImported_intact; [done..|]. intros h2 I2 W2 _.
  apply runs_bind, quiet_runs; [by apply links_quiet|]. intros h3 H3. apply quiet_runs; [quiet_tac|]. intros h4 H4. pose proof (similar_trans _ _ _ H3 H4) as H24.
  apply HQ; [by eapply similar_intact|]. intros Hw. eapply similar_watched; [exact H24|auto].
Qed.
Lemma closeUpstream_safe id : safe (closeUpstreamLink options id).
Proof using C Hhost. apply intact_safe. intros h Q. apply closeLink_intact. Qed.

(** ** Shutdown *)
Lemma each_quiet {A} (g : A -> sm host unit) l : (forall x, quiet (g x)) -> quiet (sm_each g l).
Proof using Type. intros H. induction l as [|x l IH]; [apply quiet_ret|]. by apply quiet_bind. Qed.
Lemma closed_settled h : waiting_ok h -> ho_peers h = [] -> ho_remote h = [] -> registry h = registry_init -> settled_host options h.
Proof using Type.
  intros Hw Hp Hr Hreg. split.
  - split; [|done|].
    + split; rewrite ?Hp, ?Hr; try done; by apply NoDup_nil_2 || by apply Forall_nil_2.
    + split; rewrite Hreg; [apply registry_init_ok|by apply Forall_nil_2..].
  - split; intros id x; by rewrite Hreg.
  - unfold watched. by rewrite Hreg.
  - split; [|by rewrite Hp]. unfold remote_controls. rewrite Hr. intros id c H. by apply elem_of_nil in H.
Qed.
Lemma closeRest_runs reason h (Q : unit -> host -> Prop) : waiting_ok h -> (forall h', settled_host options h' -> Q tt h') -> runs (close_rest true reason) h Q.
Proof using Type.
  intros Hw HQ. unfold close_rest. apply runs_bind, runs_when; [intros _|done]. apply runs_bind, runs_get. cbv zeta. apply runs_bind, quiet_runs.
  { apply quiet_emit, Forall_forall. intros e. rewrite list_elem_of_In, in_concat. intros (x & (p & <- & _)%in_map_iff & Hx). destruct (rp_localBroker p.2); [|done]. by destruct Hx as [<-|[]]. }
  intros h1 H1. apply runs_bind, quiet_runs.
  { apply quiet_emit, Forall_app. split; [|by repeat constructor]. apply Forall_forall. intros e (c & -> & _)%list_elem_of_fmap. done. }
  intros h2 H2. apply runs_bind, quiet_runs; [apply each_quiet; intros; quiet_tac|]. intros h3 H3.
  assert (waiting_ok h3) as W3.
  { pose proof (similar_trans _ _ _ (similar_trans _ _ _ H1 H2) H3) as []. destruct Hw. split; rewrite ?sim_waiting0, ?sim_next0, ?sim_pendingUpstream0; assumption. }
  apply runs_bind, runs_modify, runs_bind, runs_modify, runs_modify, runs_bind, runs_modify. apply quiet_runs; [quiet_tac|]. intros h4 H4. apply HQ. eapply similar_settled; [exact H4|].
  apply closed_settled; try done. carry W3.
Qed.
Lemma closeLinks_runs links reason h (Q : unit -> host -> Prop) : intact options h -> (forall h', settled_host options h' -> Q tt h') ->
  runs (close_links options links true reason) h Q.
Proof using C Hhost.
  revert h. induction links as [|id links IH]; intros h Hi HQ; cbn [close_links]; [apply closeRest_runs; [apply Hi|done]|].
  apply runs_if; intros _; [|by apply IH]. apply runs_bind, closeLink_intact; [done|]. intros h1 [[S1 S2 S3] F1 [Y1 Y2]] _. apply runs_modify, HQ. split.
  - split; [carry S1|by apply await_waiting|carry S3].
  - carry F1.
  - intros _. right. apply Exists_app. right. by constructor.
  - by split.
Qed.
Lemma close_settles reason h : settled_host options h -> ho_running h = true -> settles (close options reason) h.
Proof using C Hhost.
  intros Hs Hr. unfold close. apply swp_bind, swp_get. rewrite Hr. apply settles_runs, runs_bind, runs_modify, runs_bind, runs_modify. set (h1 := upd_federation _ _ _ _ _).
  assert (intact options h1) as I1.
  { pose proof Hs as [S F _ [Y1 Y2]]. set (h0 := upd_flags _ _ _ h) in *. apply (federation_shrinks same same same (fun _ => []) h0); try done; [|by intros ? ?%elem_of_nil|by apply (pending_waits h)].
    split; [destruct S as [A1 A2 A3]; split; [carry A1|carry A2|carry A3]|carry F|by split]. }
  clearbody h1. apply runs_bind, quiet_runs; [quiet_tac|]. intros h2 H2. apply runs_bind, quiet_runs; [quiet_tac|]. intros h3 H3. apply runs_bind, runs_get, closeLinks_runs; [|done].
  eapply similar_intact; [exact H3|]. by eapply similar_intact.
Qed.
Lemma init_settled routes : hr_registry routes = registry_init -> settled_host options (host_init routes).
Proof using Type.
  intros Hr. apply closed_settled; try done. split; cbn; try done; by apply NoDup_nil_2 || by apply Forall_nil_2 || by intros ? ?%elem_of_nil.
Qed.
Lemma destroy_all l h : exists dead log, sm_each destroy_session l h = (Ok tt, add_log log (upd_streams (ho_closedStreams h) dead (ho_headersSent h) h)) /\
  (forall s, s ∈ l \/ s ∈ ho_deadSessions h -> s ∈ dead).
Proof using Type.
  revert h. induction l as [|s l IH]; intros h; cbn [sm_each].
  - exists (ho_deadSessions h), []. split; [|by intros s [?%elem_of_nil|]]. destruct h. unfold add_log, upd_streams. cbn. by rewrite app_nil_r.
  - destruct (IH (destroy_session s h).2) as (dead & log & E & H). exists dead, (he_destroy_session s :: log). split.
    + change ((_ ← destroy_session s; sm_each destroy_session l) h) with (sm_each destroy_session l (destroy_session s h).2). rewrite E. cbn. unfold add_log, upd_streams. cbn. by rewrite <- app_assoc.
    + intros x Hx. apply H. cbn. rewrite set_add_elem. destruct Hx as [[->|Hx]%elem_of_cons|Hx]; tauto.
Qed.
(** ** Every step of a host *)
Context (mtls : bool) (dnsNames : nat -> list jsstring) (fingerprint : nat -> option jsstring) (degradedRouteTimeoutMs : Z).
Lemma admit_settles id r stream session h : settled_host options h -> trimmed_id id -> isFederationPeerIdInUse h id = false ->
  (hg_role r = role_guest -> domains_valid (hg_routedDomains r)) -> settles (admit_peer options hostId fresh mtls dnsNames fingerprint id r stream session) h.
Proof using C Hhost.
  intros Hs Hid Hfed Hds. unfold admit_peer. cbv zeta. apply swp_bind, swp_lift. set (chk := match _ with Some d => assertBrokerDomainCertificate _ _ _ _ _ | None => Ok tt end).
  destruct chk as [[]|e]; [|exact Hs]. set (p := {| rp_role := _ |}). assert (remote_peer r stream session p) as Hp.
  { split_and!; try done. intros E. cbn. by rewrite bool_decide_eq_true_2. }
  apply swp_bind. destruct (hg_role r) eqn:Er.
  - apply (publish_broker_wp id r p stream); [done..|]. intros h1 S1 F1 W1 Y1 R1. apply swp_bind, wp_quiet; [quiet_tac|]. intros h2 H2.
    rewrite bool_decide_eq_true_2 by done. apply swp_bind, swp_ret.
    by apply registered_settles; [eapply similar_sound|eapply similar_follow|eapply similar_watched|eapply sync_but_similar].
  - apply (publish_guest_wp id r p stream); [done..|]. intros h1 S1 A1 W1 R1. apply swp_bind, wp_quiet; [quiet_tac|]. intros h2 H2.
    rewrite bool_decide_eq_false_2 by done. cbn [negb sm_when]. apply settles_runs, runs_bind, runs_bind, quiet_runs; [quiet_tac|]. intros h3 H3.
    pose proof (similar_trans _ _ _ H2 H3) as H13. apply register_runs; [done|by apply Hds|by eapply similar_sound|by eapply arrived_similar|]. intros h4 S4 F4 W4 _.
    apply runs_bind, runs_get, runs_bind, runs_get, runs_bind, quiet_runs; [quiet_tac|]. intros h5 H5. apply runs_bind, quiet_runs; [quiet_tac|]. intros h6 H6.
    pose proof (similar_trans _ _ _ H5 H6) as H46. apply tell_settles; [by eapply similar_sound|by eapply similar_follow| |auto].
    eapply similar_watched; [exact H46|]. apply W4. by eapply similar_watched.
Qed.
Lemma registered_safe g id r stream session d : trimmed_id id -> (hg_role r = role_guest -> domains_valid (hg_routedDomains r)) ->
  safe (registerPeer_decided options hostId fresh mtls dnsNames fingerprint g id r stream session d).
Proof using C Hhost.
  intros Hid Hds. unfold registerPeer_decided. destruct d as [|reason]; [|safe_tac]. apply safe_if; [apply safe_ret|]. intros h Hs.
  match goal with |- _ (?m h).2 => change (settles m h) end. apply swp_bind, swp_get, swp_bind, wp_guarded; [exact Hs|]. intros Hfed. by apply admit_settles.
Qed.


(** Guests name at least one domain, each not blank; a host is closed when it runs.
    Without that the invariants fail: see [routes_outlive_guest] and
    [blank_domain_takes_id]. *)
Definition event_fits (h : host) (e : host_event) : Prop :=
  match e with
  | hv_register _ _ r => hg_role r = role_guest -> domains_valid (hg_routedDomains r)
  | hv_localGuest _ domains => domains_valid domains
  | hv_close _ => ho_running h = true
  | _ => True
  end.
#[local] Abbreviation step := (host_step options hostId fresh mtls dnsNames fingerprint degradedRouteTimeoutMs).
Lemma resume_settles n a h : settled_host options h -> settles (step (hv_resume n a)) h.
Proof using C Hhost.
  intros Hs. cbn [host_step]. apply swp_bind, swp_get. destruct (map_get n (ho_waiting h)) as [w|] eqn:Ew; [|exact Hs]. destruct (answers w a) eqn:Ea; [|exact Hs].
  apply swp_bind, swp_modify. pose proof Hs as [[S1 S2 S3] Hf Hwt [Y1 Y2]]. destruct (resume_waiting n w h S2 Ew) as (W1 & Hv & Hu). set (h1 := upd_waiting _ _ h) in *.
  assert (intact options h1) as I1 by (split; [split; [carry S1|done|carry S3]|carry Hf|by split]).
  assert ((match w with wt_closeLink _ _ _ _ => False | _ => True end) -> settled_host options h1) as H1.
  { intros Hnc. eapply intact_settled; [done|exact Hwt|]. intros _ Hne. destruct (Hwt Hne) as [H|H]; [by left|right]. apply Exists_exists in H as ([k x] & Hin & Hx). apply Exists_exists.
    exists (k, x). split; [|done]. cbn. rewrite map_elem_delete. split; [|done]. intros ->. apply (map_elem_get _ _ _ (wo_wf _ S2)) in Hin. rewrite Ew in Hin. injection Hin as <-. by destruct w. }
  destruct w; destruct a; try done; cbn [resume] in *; try specialize (H1 I); try (apply serve_safe; [|done]).
  - destruct Hv. by apply registered_safe.
  - destruct Hv. by apply localGuest_safe.
  - by apply localBroker_safe.
  - apply handshakeRead_safe.
  - apply handshakeDecided_safe.
  - apply upstreamConnected_settles; [done|]. exact (Hu _ eq_refl).
  - apply upstreamReady_settles; [done|]. exact (Hu _ eq_refl).
  - by apply revocationRead_safe.
  - cbn in Hv. subst running. apply settles_runs, runs_bind, sessionClose_intact; [done|]. intros h2 I2 _. by apply closeLinks_runs.
Qed.
Lemma step_settles e h : settled_host options h -> event_fits h e -> settled_host options (step e h).2.
Proof using C Hhost Hmax.
  intros Hs He. destruct e; cbn [host_step event_fits] in *.
  - apply similar_safe; [|done]. by intros h1.
  - by apply trackSession_safe.
  - by apply sessionClosed_safe.
  - apply serve_safe; [|done]. by apply registerPeer_safe.
  - by apply attachLocalGuest_safe.
  - by apply attachLocalBroker_safe.
  - by apply resume_settles.
  - apply similar_safe; [|done]. intros h1. apply similar_streams. intros x Hx. apply set_add_elem. by right.
  - by apply controlClose_safe.
  - by apply destroyDetached_safe.
  - apply serve_safe; [|done]. apply control_safe.
  - apply serve_safe; [|done]. apply lease_safe.
  - apply serve_safe; [|done]. apply wsLease_safe.
  - unfold removeWsLease. apply safe_quiet; [|done]. quiet_tac.
  - apply serve_safe; [|done]. apply revocation_safe.
  - unfold guestHandle_close. destruct closed; [done|]. by apply detachLocal_safe.
  - apply safe_bind; [apply guestRevoke_safe|intros; apply safe_ret|done].
  - by apply brokerClose_safe.
  - apply safe_bind; [apply import_safe|intros; apply safe_ret|done].
  - by apply removeImported_safe.
  - apply serve_safe; [|done]. apply handshake_safe.
  - apply serve_safe; [|done]. apply routeStream_safe.
  - by apply removeInbound_safe.
  - by apply connectUpstream_safe.
  - by apply upstreamClose_safe.
  - by apply upstreamRouteClose_safe.
  - by apply closeUpstream_safe.
  - apply safe_if; [apply cleanup_safe|apply safe_ret|done].
  - by apply close_settles.
Qed.

(** ** Histories *)
Fixpoint history_fits (events : list host_event) (h : host) : Prop :=
  match events with [] => True | e :: events => event_fits h e /\ history_fits events (step e h).2 end.
Abbreviation reached events routes := (host_run options hostId fresh mtls dnsNames fingerprint degradedRouteTimeoutMs events (host_init routes)).
Lemma run_settled events h : settled_host options h -> history_fits events h ->
  settled_host options (host_run options hostId fresh mtls dnsNames fingerprint degradedRouteTimeoutMs events h).
Proof using C Hhost Hmax. revert h. induction events as [|e events IH]; intros h Hs; [done|]. intros [He Hf]. cbn. apply IH; [by apply step_settles|done]. Qed.
Lemma reached_settled events routes : hr_registry routes = registry_init -> history_fits events (host_init routes) -> settled_host options (reached events routes).
Proof using C Hhost Hmax. intros Hr Hf. apply run_settled; [by apply init_settled|done]. Qed.

(** C5: a host that starts without routes, in any history in which every guest
    registers with at least one domain and no blank one, and [close] is called only
    while the host runs; the host's own id is trimmed, its hop limit not negative
    and the locale order consistent. Whatever sessions, registrations, policy
    answers and stream ends it sees otherwise, and in whatever order: a broker id
    with remote sessions has a group of them, one of which is its registered peer; a
    second session was only let in with an authenticated certificate and the same
    registration; ids are trimmed, sessions belong to one member, an open local
    broker is a local peer; and no remote peer has the id of a federated host,
    connected or on its way. *)
Theorem broker_groups_invariant events routes : hr_registry routes = registry_init -> history_fits events (host_init routes) ->
  members_ok (reached events routes).
Proof using C Hhost Hmax. intros Hr Hf. by destruct (reached_settled events routes Hr Hf) as [[Hm _ _] _ _ _]. Qed.

(** C6: a host that starts without routes, in any history in which every guest
    registers with at least one domain and no blank one, and [close] is called only
    while the host runs; the host's own id is trimmed, its hop limit not negative
    and the locale order consistent. Then only connected guests have active local
    routes, no connected guest has degraded ones, and as long as any routes are
    degraded the cleanup timer runs (a shutdown stops it and drops them when its
    links are closed). For a guest that registers no domain this fails
    ([routes_outlive_guest]). *)
Theorem guest_routes_invariant events routes : hr_registry routes = registry_init -> history_fits events (host_init routes) ->
  let h := reached events routes in
  (forall id rs, map_get id (localRoutes (registry h)) = Some rs -> rs <> [] /\ is_guest h id) /\
  (forall id e, map_get id (degradedRoutes (registry h)) = Some e -> de_routes e <> [] /\ ~ is_guest h id) /\
  (degradedRoutes (registry h) <> [] -> ho_cleanupTimer h = true \/ closing h).
Proof using C Hhost Hmax.
  intros Hr Hf h. destruct (reached_settled events routes Hr Hf) as [_ [F1 F2] Hw _]. split_and!; [| |exact Hw].
  - intros id rs Hid. destruct (F1 id rs Hid) as [? H]. split; [done|]. apply H, not_elem_of_nil.
  - intros id e Hid. destruct (F2 id e Hid) as [? H]. split; [done|]. apply H, not_elem_of_nil.
Qed.

(** C7: a host that starts without routes, in any history in which every guest
    registers with at least one domain and no blank one, and [close] is called only
    while the host runs; the host's own id is trimmed, its hop limit not negative
    and the locale order consistent. Then after every event the last route list
    written to each open broker control stream, and the snapshot of each local
    broker, is the route list of the registry (up to re-imports that the registry
    reports as unchanged): under these conditions no change of the routes is lost on
    a broker, however handlers interleave, and also when policies refuse or streams
    fail. *)
Theorem brokers_in_sync events routes : hr_registry routes = registry_init -> history_fits events (host_init routes) ->
  in_sync (reached events routes).
Proof using C Hhost Hmax. intros Hr Hf. by destruct (reached_settled events routes Hr Hf). Qed.

(** When a session closes no peer and no group keeps it, the guests of other
    sessions stay, and the routes of its guests are kept as degraded since now. *)
Theorem session_lost events routes now s : hr_registry routes = registry_init -> history_fits events (host_init routes) ->
  exists h', step (hv_sessionClosed now s) (reached events routes) = (Ok tt, h') /\ session_gone now s (reached events routes) h'.
Proof using C Hhost Hmax.
  intros Hr Hf. pose proof (reached_settled events routes Hr Hf) as Hs. set (h := reached events routes) in *. cbn [host_step]. unfold session_closed.
  set (h1 := upd_sessions (filter (fun x => x <> s) (ho_sessions h)) (upd_streams (ho_closedStreams h) (set_add s (ho_deadSessions h)) (ho_headersSent h) h)).
  assert (settled_host options h1) as H1.
  { eapply similar_settled; [|exact Hs]. eapply similar_trans; [apply (similar_streams (ho_closedStreams h) (set_add s (ho_deadSessions h)) (ho_headersSent h)); done|]. by split. }
  destruct (removeSession_runs now s h1 H1) as ([] & h' & E & _ & [G1 G2 G3 G4]). exists h'. split; [exact E|]. by split.
Qed.

(** The generation an admission started in. *)
Definition admission_of (w : waiting) : option Z :=
  match w with wt_register g _ _ _ _ | wt_localGuest g _ _ | wt_localBroker g _ _ | wt_handshake g _ _ _ _ => Some g | _ => None end.
Definition emptied (h : host) : Prop := ho_peers h = [] /\ ho_remote h = [] /\ ho_inbound h = [] /\ registry h = registry_init.
Lemma emptied_similar a b : similar a b -> emptied a -> emptied b.
Proof using Type. intros []. unfold emptied. by rewrite sim_registry0, sim_peers0, sim_remote0, sim_inbound0. Qed.
Lemma serve_empties s m h : wp m (fun _ h' => emptied h') h -> emptied (serve_stream s m h).2.
Proof using Type.
  intros H. change (wp (serve_stream s m) (fun _ h' => emptied h') h). apply swp_catch. eapply swp_mono; [|exact H]. intros [[]|e] h1 H1; [exact H1|].
  apply swp_bind, wp_quiet; [quiet_tac|]. intros h2 H2. apply wp_quiet; [quiet_tac|]. intros h3 H3. eapply emptied_similar; [exact H3|]. by eapply emptied_similar.
Qed.
Lemma late_local g id role h : g < ho_generation h -> (local_admission g id role dc_allow h).2 = h /\ is_ok (local_admission g id role dc_allow h).1 = false.
Proof using Type.
  intros Hg. assert (negb (g =? ho_generation h) = true) as E by (apply negb_true_iff, Z.eqb_neq; lia).
  unfold local_admission, mbind, sm_bind, mret, sm_ret, sm_get, sm_guard. rewrite E. done.
Qed.
Lemma late_then g id role (k : sm host unit) h : g < ho_generation h -> ((_ ← local_admission g id role dc_allow; k) h).2 = h.
Proof using Type. intros Hg. destruct (late_local g id role h Hg) as [E1 E2]. unfold mbind, sm_bind. destruct (local_admission g id role dc_allow h) as [[[]|e] h1]; [done|exact E1]. Qed.
Lemma late_admission w g l h : admission_of w = Some g -> g < ho_generation h -> emptied h ->
  emptied (resume options hostId fresh mtls dnsNames fingerprint w (an_decision dc_allow l) h).2.
Proof using fingerprint dnsNames.
  intros Hw Hg He. assert (forall g, g < ho_generation h -> negb (g =? ho_generation h) = true) as Hstale by (intros x Hx; apply negb_true_iff, Z.eqb_neq; lia).
  destruct w; try done; injection Hw as ->; cbn [resume].
  - apply serve_empties. unfold registerPeer_decided, wp, sm_if. by rewrite Hstale.
  - unfold attachLocalGuest_decided. by rewrite late_then.
  - unfold attachLocalBroker_decided. by rewrite late_then.
  - apply serve_empties. unfold handshake_decided. apply swp_bind, swp_lift. destruct (getFederationHostId hostId); [|exact He]. apply swp_bind, swp_modify.
    set (h1 := if decide _ then _ else _). assert (ho_generation h1 = ho_generation h /\ emptied h1) as [Eg H1] by (unfold h1; case_decide; done).
    unfold wp, sm_if. by rewrite Eg, Hstale.
Qed.

(** C24: a shutdown without links to await empties the host: no peer, group,
    federated host or route is left, every session was destroyed, and an
    admission that was waiting for its policy when the shutdown began publishes
    nothing when the policy allows it later. *)
Theorem shutdown_final reason h : ho_running h = true -> ho_upstreams h = [] ->
  exists h', step (hv_close reason) h = (Ok tt, h') /\ emptied h' /\ ho_running h' = false /\ ho_sessions h' = [] /\
  (forall s, s ∈ ho_sessions h -> s ∈ ho_deadSessions h') /\
  forall w g l, admission_of w = Some g -> g <= ho_generation h -> emptied (resume options hostId fresh mtls dnsNames fingerprint w (an_decision dc_allow l) h').2.
Proof using Type.
  intros Hr Hu.
  assert (exists h', step (hv_close reason) h = (Ok tt, h') /\ emptied h' /\ ho_running h' = false /\ ho_sessions h' = [] /\ (forall s, s ∈ ho_sessions h -> s ∈ ho_deadSessions h') /\
    ho_generation h' = ho_generation h + 1) as (h' & E & He & H1 & H2 & H3 & Hg).
  { cbn [host_step]. unfold close, mbind, sm_bind, sm_get, sm_modify. cbn. rewrite Hr, Hu. cbn.
    unfold close_rest, sm_when, mbind, sm_bind, sm_get, sm_modify, emit. cbn.
    match goal with |- context [sm_each destroy_session ?l ?h0] => destruct (destroy_all l h0) as (dead & log & -> & Hd) end.
    eexists. split; [reflexivity|]. cbn. split_and!; try done. intros s Hs. apply Hd. by left. }
  exists h'. split_and!; try done. intros w g l Hw Hgl. apply (late_admission w g); [done|lia|done].
Qed.
End Advertising.

(** ** Witnesses *)
Definition initial_routes : host_routes :=
  {| hr_registry := registry_init; hr_authorizer := None; upstreamLinks := []; inboundFederationHosts := []; hr_seen := []; federationLifecycleEventIdCounter := 0;
     hr_sent := []; hr_broker_log := []; hr_errors := [] |}.
Definition sample_guest (domains : list jsstring) : HostRegistration := {| hg_peerId := js "g"; hg_role := role_guest; hg_routedDomains := domains; hg_brokerDomain := None |}.
Definition sample_remote_broker : HostRegistration := {| hg_peerId := js "b"; hg_role := role_broker; hg_routedDomains := []; hg_brokerDomain := None |}.
Definition allow : answer := an_decision dc_allow ll_function.
(** A guest and two sessions of a broker come, the guest goes and one session of
    the broker, and a local broker attaches. *)
Definition sample_events : list host_event :=
  [hv_start; hv_session 1; hv_session 2; hv_session 3;
   hv_register 10 (Some 1%nat) (sample_guest [js "d"]); hv_resume 0 allow;
   hv_register 20 (Some 2%nat) sample_remote_broker; hv_register 21 (Some 3%nat) sample_remote_broker; hv_resume 1 allow; hv_resume 2 allow;
   hv_sessionClosed 1000 1; hv_localBroker (js "l") false None; hv_resume 3 allow; hv_sessionClosed 1001 2].
Abbreviation sample_step := (host_step (P := ascii_platform) RouteRegistry.sample_options (Some (js "h1")) (js "gen-f") true (fun _ => []) (fun s => Some (js "fp")) 5000).
Abbreviation reached_host := (host_run (P := ascii_platform) RouteRegistry.sample_options (Some (js "h1")) (js "gen-f") true (fun _ => []) (fun s => Some (js "fp")) 5000 sample_events (host_init initial_routes)).
Lemma sample_fits : history_fits (P := ascii_platform) RouteRegistry.sample_options (Some (js "h1")) (js "gen-f") true (fun _ => []) (fun s => Some (js "fp")) 5000 sample_events (host_init initial_routes).
Proof. vm_compute. repeat split; try done. by repeat constructor. Qed.
Lemma broker_groups_invariant_witness : members_ok reached_host /\ map_keys (ho_remote reached_host) = [js "b"] /\ map_keys (ho_peers reached_host) = [js "b"; js "l"].
Proof.
  split; [|by vm_compute]. apply (broker_groups_invariant (P := ascii_platform)); [apply _|apply RouteRegistry.sample_host|done|done|apply sample_fits].
Defined.
Lemma guest_routes_invariant_witness : ho_cleanupTimer reached_host = true \/ closing reached_host.
Proof.
  apply (guest_routes_invariant (P := ascii_platform) RouteRegistry.sample_options (Some (js "h1")) (js "gen-f") RouteRegistry.sample_host ltac:(done) true (fun _ => []) (fun s => Some (js "fp")) 5000 sample_events initial_routes);
    [done|apply sample_fits|by vm_compute].
Defined.
Lemma brokers_in_sync_witness : in_sync (P := ascii_platform) reached_host /\ remote_controls reached_host = [(js "b", 21%nat)] /\
  last_snapshot 21 (ho_log reached_host) = Some [{| rd_targetId := js "g"; rd_domain := js "d" |}].
Proof.
  split; [|by vm_compute]. apply (brokers_in_sync (P := ascii_platform)); [apply _|apply RouteRegistry.sample_host|done|done|apply sample_fits].
Defined.
Lemma session_lost_witness : exists h', sample_step (hv_sessionClosed 1002 3) reached_host = (Ok tt, h') /\ map_keys (ho_peers h') = [js "l"].
Proof.
  destruct (session_lost (P := ascii_platform) RouteRegistry.sample_options (Some (js "h1")) (js "gen-f") RouteRegistry.sample_host ltac:(done) true (fun _ => []) (fun s => Some (js "fp")) 5000
    sample_events initial_routes 1002 3 eq_refl sample_fits) as (h' & E & _). exists h'. split; [exact E|]. apply (f_equal snd) in E. cbn [snd] in E. rewrite <- E. by vm_compute.
Defined.
Lemma shutdown_final_witness : exists h', sample_step (hv_close (js "bye")) reached_host = (Ok tt, h') /\ emptied h' /\ 3%nat ∈ ho_deadSessions h'.
Proof.
  destruct (shutdown_final (P := ascii_platform) RouteRegistry.sample_options (Some (js "h1")) (js "gen-f") true (fun _ => []) (fun s => Some (js "fp")) 5000 (js "bye") reached_host) as
    (h' & E & He & _ & _ & Hd & _); [by vm_compute|by vm_compute|]. exists h'. split; [exact E|]. split; [exact He|]. apply Hd. apply (bool_decide_unpack _). by vm_compute.
Defined.

(** ** What the code does not guard against *)
(** A guest that registers without domains, leaves and comes back with one stays
    in the degraded map: when it leaves again its routes are not degraded, stay
    active for good and no timer runs. *)
Definition no_domain_events : list host_event :=
  [hv_start; hv_register 1 (Some 1%nat) (sample_guest []); hv_resume 0 allow; hv_sessionClosed 10 1;
   hv_register 2 (Some 2%nat) (sample_guest [js "d"]); hv_resume 1 allow; hv_sessionClosed 20 2].
Lemma routes_outlive_guest :
  let h := host_run (P := ascii_platform) RouteRegistry.sample_options (Some (js "h1")) (js "gen-f") false (fun _ => []) (fun _ => None) 5000 no_domain_events (host_init initial_routes) in
  ho_peers h = [] /\ getRoutedDomains (P := ascii_platform) h = [{| rd_targetId := js "g"; rd_domain := js "d" |}] /\ map_keys (localRoutes (registry h)) = [js "g"] /\ ho_cleanupTimer h = false.
Proof. by vm_compute. Qed.
(** A blank domain of a local guest is refused after the guest was registered:
    the caller gets no handle, yet the id is taken. *)
Lemma blank_domain_takes_id :
  let run := host_run (P := ascii_platform) RouteRegistry.sample_options (Some (js "h1")) (js "gen-f") false (fun _ => []) (fun _ => None) 5000 [hv_start; hv_localGuest (js "g") [[]]] (host_init initial_routes) in
  let '(r, h) := host_step (P := ascii_platform) RouteRegistry.sample_options (Some (js "h1")) (js "gen-f") false (fun _ => []) (fun _ => None) 5000 (hv_resume 0 allow) run in
  is_ok r = false /\ map_keys (ho_peers h) = [js "g"] /\ localRoutes (registry h) = [].
Proof. by vm_compute. Qed.
(** A lease stream is attached to a guest whose session it does not come from. *)
Lemma lease_of_another_session :
  let h := host_run (P := ascii_platform) RouteRegistry.sample_options (Some (js "h1")) (js "gen-f") false (fun _ => []) (fun _ => None) 5000
    [hv_start; hv_register 1 (Some 1%nat) (sample_guest [js "d"]); hv_resume 0 allow; hv_lease 9 (js "g") (js "x")] (host_init initial_routes) in
  existsb (fun e => match e with he_addIdleLease _ _ 9 => true | _ => false end) (ho_log h) = true.
Proof. by vm_compute. Qed.
