(* ===== verification/FederationPool.v ===== *)
(** Request streams between federated hosts (verser2-host
    [node-http2-verser-host.ts]): the streams that inbound hosts offer, the
    requests that wait for one, and the pool an upstream link keeps open.

    A request that asks for a stream is an acquisition, known by a number;
    [fp_settled] records, in order, what each got: a stream of an inbound host, a
    dispatch stream of an upstream link (opened by [FederationHost]), or an error.
    Timers, abort signals and the ends of streams are events of their own. *)
From S2P Require Import Prelude JsNum Utf8 Json Errors Headers Routing FederationHost WaitQueue.

(** ** The pool policy *)
Record NormalizedUpstreamPool := { up_minWaitingStreams : Z; up_maxOpenStreams : Z; up_leaseAcquireTimeoutMs : Z; up_maxQueuedAcquires : Z }.
Definition pool_json (p : NormalizedUpstreamPool) : jsval :=
  JObj [(js "minWaitingStreams", JNum (num_int (up_minWaitingStreams p))); (js "maxOpenStreams", JNum (num_int (up_maxOpenStreams p)));
        (js "leaseAcquireTimeoutMs", JNum (num_int (up_leaseAcquireTimeoutMs p))); (js "maxQueuedAcquires", JNum (num_int (up_maxQueuedAcquires p)))].
(** A field of the policy: a finite integer that is not negative. *)
Definition pool_field (pool : jsval) (name : string) (d : Z) : result exn Z :=
  match js_member (js name) pool with
  | None => Throw (EngineErr TypeError (js name))
  | Some v => match nullish v (JNum (num_int d)) with
              | JNum (num_int z) => if z <? 0 then Throw (verr_js invalid_registration (js "Invalid upstreamPool." ++ js name) []) else Ok z
              | _ => Throw (verr_js invalid_registration (js "Invalid upstreamPool." ++ js name) [])
              end
  end.
#[local] Arguments pool_field pool name%_string d.
Definition validateUpstreamPool (pool : jsval) : result exn (option NormalizedUpstreamPool) :=
  match pool with
  | JUndef => Ok None
  | _ =>
      min ← pool_field pool "minWaitingStreams" 4;
      max ← pool_field pool "maxOpenStreams" 16;
      timeoutMs ← pool_field pool "leaseAcquireTimeoutMs" 5000;
      queued ← pool_field pool "maxQueuedAcquires" 128;
      _ ← throw_if (max <? min) (verr invalid_registration "upstreamPool.maxOpenStreams must be at least minWaitingStreams" []);
      _ ← throw_if (max =? 0) (verr invalid_registration "upstreamPool.maxOpenStreams must be greater than zero" []);
      Ok (Some {| up_minWaitingStreams := min; up_maxOpenStreams := max; up_leaseAcquireTimeoutMs := timeoutMs; up_maxQueuedAcquires := queued |})
  end.

(** ** State *)
(** The request side of an inbound link; the sets exist when it has a policy. *)
Record InboundLink := {
  il_session : nat;
  il_requestStream : option nat; il_requestBusy : bool;
  il_requestStreams : option (list nat); il_requestBusyStreams : option (list nat);
  il_requestPool : option NormalizedUpstreamPool;
}.
Record upstream_view := { uv_remoteHostId : jsstring; uv_closing : bool; uv_session : nat }.
Record FederatedRequestStreamWaiter := { fw_id : nat; fw_hostId : jsstring; fw_pooled : bool; fw_timeoutMs : Z }.
Inductive acquired : Type := aq_stream (stream : nat) | aq_dispatch (upstreamId : jsstring) | aq_failed (e : exn).

Record federation_pool := {
  fp_links : list (jsstring * InboundLink);
  fp_upstreams : list (jsstring * upstream_view);
  fp_deadSessions : list nat;
  fp_closed : list nat; fp_destroyed : list nat;
  fp_listeners : list (nat * (jsstring * bool));   (** the 'close' listener of a stream: its host, and of which kind *)
  fp_waiters : list (jsstring * list FederatedRequestStreamWaiter);
  fp_timers : list nat;
  fp_listening : list nat;                         (** acquisitions with a listener on their abort signal *)
  fp_settled : list (nat * acquired);
  fp_answered : list nat;                          (** streams answered with status 200 *)
  fp_next : nat; fp_nextStream : nat;
}.
Definition fp_init : federation_pool :=
  {| fp_links := []; fp_upstreams := []; fp_deadSessions := []; fp_closed := []; fp_destroyed := []; fp_listeners := []; fp_waiters := [];
     fp_timers := []; fp_listening := []; fp_settled := []; fp_answered := []; fp_next := 0; fp_nextStream := 0 |}.

Definition with_links (l : list (jsstring * InboundLink)) (st : federation_pool) : federation_pool :=
  {| fp_links := l; fp_upstreams := fp_upstreams st; fp_deadSessions := fp_deadSessions st; fp_closed := fp_closed st; fp_destroyed := fp_destroyed st;
     fp_listeners := fp_listeners st; fp_waiters := fp_waiters st; fp_timers := fp_timers st; fp_listening := fp_listening st;
     fp_settled := fp_settled st; fp_answered := fp_answered st; fp_next := fp_next st; fp_nextStream := fp_nextStream st |}.
Definition with_upstreams (l : list (jsstring * upstream_view)) (dead : list nat) (st : federation_pool) : federation_pool :=
  {| fp_links := fp_links st; fp_upstreams := l; fp_deadSessions := dead; fp_closed := fp_closed st; fp_destroyed := fp_destroyed st;
     fp_listeners := fp_listeners st; fp_waiters := fp_waiters st; fp_timers := fp_timers st; fp_listening := fp_listening st;
     fp_settled := fp_settled st; fp_answered := fp_answered st; fp_next := fp_next st; fp_nextStream := fp_nextStream st |}.
Definition with_streams (closed destroyed : list nat) (listeners : list (nat * (jsstring * bool))) (next : nat) (st : federation_pool) : federation_pool :=
  {| fp_links := fp_links st; fp_upstreams := fp_upstreams st; fp_deadSessions := fp_deadSessions st; fp_closed := closed; fp_destroyed := destroyed;
     fp_listeners := listeners; fp_waiters := fp_waiters st; fp_timers := fp_timers st; fp_listening := fp_listening st;
     fp_settled := fp_settled st; fp_answered := fp_answered st; fp_next := fp_next st; fp_nextStream := next |}.
Definition with_answered (l : list nat) (st : federation_pool) : federation_pool :=
  {| fp_links := fp_links st; fp_upstreams := fp_upstreams st; fp_deadSessions := fp_deadSessions st; fp_closed := fp_closed st; fp_destroyed := fp_destroyed st;
     fp_listeners := fp_listeners st; fp_waiters := fp_waiters st; fp_timers := fp_timers st; fp_listening := fp_listening st;
     fp_settled := fp_settled st; fp_answered := l; fp_next := fp_next st; fp_nextStream := fp_nextStream st |}.
Definition with_waiters (q : list (jsstring * list FederatedRequestStreamWaiter)) (st : federation_pool) : federation_pool :=
  {| fp_links := fp_links st; fp_upstreams := fp_upstreams st; fp_deadSessions := fp_deadSessions st; fp_closed := fp_closed st; fp_destroyed := fp_destroyed st;
     fp_listeners := fp_listeners st; fp_waiters := q; fp_timers := fp_timers st; fp_listening := fp_listening st;
     fp_settled := fp_settled st; fp_answered := fp_answered st; fp_next := fp_next st; fp_nextStream := fp_nextStream st |}.
Definition with_acquisitions (timers listening : list nat) (settled : list (nat * acquired)) (next : nat) (st : federation_pool) : federation_pool :=
  {| fp_links := fp_links st; fp_upstreams := fp_upstreams st; fp_deadSessions := fp_deadSessions st; fp_closed := fp_closed st; fp_destroyed := fp_destroyed st;
     fp_listeners := fp_listeners st; fp_waiters := fp_waiters st; fp_timers := timers; fp_listening := listening;
     fp_settled := settled; fp_answered := fp_answered st; fp_next := next; fp_nextStream := fp_nextStream st |}.

Definition is_closed (st : federation_pool) (s : nat) : bool := set_has s (fp_closed st).
Definition is_destroyed (st : federation_pool) (s : nat) : bool := set_has s (fp_destroyed st).
Definition waiters_of (hostId : jsstring) (st : federation_pool) : list FederatedRequestStreamWaiter := default [] (map_get hostId (fp_waiters st)).
Definition put_waiters (hostId : jsstring) (l : list FederatedRequestStreamWaiter) (st : federation_pool) : federation_pool :=
  with_waiters (put_queue hostId l (fp_waiters st)) st.
Definition set_link (hostId : jsstring) (l : InboundLink) (st : federation_pool) : federation_pool := with_links (map_set hostId l (fp_links st)) st.
Definition with_request (stream : option nat) (busy : bool) (l : InboundLink) : InboundLink :=
  {| il_session := il_session l; il_requestStream := stream; il_requestBusy := busy; il_requestStreams := il_requestStreams l;
     il_requestBusyStreams := il_requestBusyStreams l; il_requestPool := il_requestPool l |}.
Definition with_sets (streams busy : option (list nat)) (l : InboundLink) : InboundLink :=
  {| il_session := il_session l; il_requestStream := il_requestStream l; il_requestBusy := il_requestBusy l; il_requestStreams := streams;
     il_requestBusyStreams := busy; il_requestPool := il_requestPool l |}.
Definition with_pool (pool : option NormalizedUpstreamPool) (l : InboundLink) : InboundLink :=
  {| il_session := il_session l; il_requestStream := il_requestStream l; il_requestBusy := il_requestBusy l; il_requestStreams := il_requestStreams l;
     il_requestBusyStreams := il_requestBusyStreams l; il_requestPool := pool |}.

(** ** Acquisitions *)
Definition unavailable (message : string) (hostId : jsstring) (direction : option string) : exn :=
  verr upstream_unavailable message ((js "hostId", JStr hostId) :: match direction with Some d => [(js "direction", JStr (js d))] | None => [] end).
#[local] Arguments unavailable message%_string hostId direction%_string.
Definition acquisition_cancelled (hostId : jsstring) : exn := unavailable "Federated request stream acquisition cancelled" hostId None.
Definition no_stream (hostId : jsstring) : exn := unavailable "Federated request stream unavailable" hostId None.
Definition no_inbound_stream (hostId : jsstring) : exn := unavailable "Federated request stream unavailable" hostId (Some "inbound-federation"%string).

(** The promise of an acquisition is settled; its timer and its abort listener go. *)
Definition settle (id : nat) (o : acquired) (st : federation_pool) : federation_pool :=
  with_acquisitions (filter (fun t => t <> id) (fp_timers st)) (filter (fun t => t <> id) (fp_listening st)) (fp_settled st ++ [(id, o)]) (fp_next st) st.
Definition is_settled (id : nat) (st : federation_pool) : bool := bool_decide (id ∈ (fp_settled st).*1).
Definition remove (w : FederatedRequestStreamWaiter) (st : federation_pool) : federation_pool :=
  put_waiters (fw_hostId w) (filter (fun c => fw_id c <> fw_id w) (waiters_of (fw_hostId w) st)) st.
(** [fail] of a pooled waiter. *)
Definition fail (w : FederatedRequestStreamWaiter) (e : exn) (st : federation_pool) : federation_pool :=
  if is_settled (fw_id w) st then st else settle (fw_id w) (aq_failed e) (remove w st).
(** The timer of a waiter, and the abort of its signal. *)
Definition onTimeout (w : FederatedRequestStreamWaiter) (st : federation_pool) : federation_pool :=
  if fw_pooled w then fail w (no_stream (fw_hostId w)) st
  else settle (fw_id w) (aq_failed (no_inbound_stream (fw_hostId w))) (remove w st).
Definition onAbort (w : FederatedRequestStreamWaiter) (st : federation_pool) : federation_pool := fail w (acquisition_cancelled (fw_hostId w)) st.

(** A waiter is given a stream: [resolvePooled], or [resolveStream]. *)
Definition resolvePooled (w : FederatedRequestStreamWaiter) (s : nat) (st : federation_pool) : federation_pool :=
  if is_settled (fw_id w) st then st
  else settle (fw_id w) (if is_closed st s then aq_failed (no_stream (fw_hostId w)) else aq_stream s) (remove w st).
Definition resolveStream (w : FederatedRequestStreamWaiter) (s : nat) (st : federation_pool) : federation_pool :=
  match map_get (fw_hostId w) (fp_links st) with
  | Some current =>
      if negb (bool_decide (il_requestStream current = Some s)) || is_closed st s then settle (fw_id w) (aq_failed (no_inbound_stream (fw_hostId w))) st
      else settle (fw_id w) (aq_stream s) (set_link (fw_hostId w) (with_request (Some s) true current) st)
  | None => settle (fw_id w) (aq_failed (no_inbound_stream (fw_hostId w))) st
  end.
Definition resolve (w : FederatedRequestStreamWaiter) (s : nat) (st : federation_pool) : federation_pool :=
  if fw_pooled w then resolvePooled w s st else resolveStream w s st.

(** An open stream of the set that no request has. *)
Definition idle_stream (streams : list nat) (busy : option (list nat)) (st : federation_pool) : option nat :=
  head (filter (fun s => negb (match busy with Some b => set_has s b | None => false end) && negb (is_closed st s) && negb (is_destroyed st s) = true) streams).
Definition mark_busy (hostId : jsstring) (link : InboundLink) (s : nat) (st : federation_pool) : federation_pool :=
  set_link hostId (with_sets (il_requestStreams link) (set_add s <$> il_requestBusyStreams link) link) st.
Definition resolveNextFederatedRequestStreamWaiter (hostId : jsstring) (st : federation_pool) : federation_pool :=
  match waiters_of hostId st with
  | [] => st
  | w :: rest =>
      let st := put_waiters hostId rest st in
      match map_get hostId (fp_links st) with
      | Some link =>
          match il_requestPool link, il_requestStreams link with
          | Some _, Some streams =>
              match idle_stream streams (il_requestBusyStreams link) st with
              | None => with_waiters (map_set hostId (w :: rest) (fp_waiters st)) st
              | Some s => resolve w s (mark_busy hostId link s st)
              end
          | _, _ =>
              match il_requestStream link with
              | Some s =>
                  if is_closed st s || il_requestBusy link then settle (fw_id w) (aq_failed (no_inbound_stream hostId)) st
                  else resolve w s (set_link hostId (with_request (Some s) true link) st)
              | None => settle (fw_id w) (aq_failed (no_inbound_stream hostId)) st
              end
          end
      | None => settle (fw_id w) (aq_failed (no_inbound_stream hostId)) st
      end
  end.

Definition fail_waiter (e : exn) (st : federation_pool) (w : FederatedRequestStreamWaiter) : federation_pool :=
  if is_settled (fw_id w) st then st else settle (fw_id w) (aq_failed e) st.
Definition failFederatedRequestStreamWaiters (hostId : jsstring) (message : string) (st : federation_pool) : federation_pool :=
  fold_left (fail_waiter (unavailable message hostId None)) (waiters_of hostId st) (with_waiters (map_delete hostId (fp_waiters st)) st).
#[global] Arguments failFederatedRequestStreamWaiters hostId message%_string st.
Definition failAllFederatedRequestStreamWaiters (message : string) (st : federation_pool) : federation_pool :=
  fold_left (fun st hostId => failFederatedRequestStreamWaiters hostId message st) (map_keys (fp_waiters st)) st.
#[global] Arguments failAllFederatedRequestStreamWaiters message%_string st.

(** A new acquisition: its number. *)
Definition new_acquisition (st : federation_pool) : federation_pool := with_acquisitions (fp_timers st) (fp_listening st) (fp_settled st) (S (fp_next st)) st.
Definition enqueue (w : FederatedRequestStreamWaiter) (listening : bool) (st : federation_pool) : federation_pool :=
  let st := with_acquisitions (fp_timers st ++ [fw_id w]) (fp_listening st ++ (if listening then [fw_id w] else [])) (fp_settled st) (fp_next st) st in
  with_waiters (map_set (fw_hostId w) (waiters_of (fw_hostId w) st ++ [w]) (fp_waiters st)) st.

(** The signal of the request: there is none, it is not aborted, or it is. *)
Inductive abort_signal : Type := sg_none | sg_live | sg_aborted.
Definition usable_upstream (hostId : jsstring) (st : federation_pool) (p : jsstring * upstream_view) : bool :=
  str_eqb (uv_remoteHostId p.2) hostId && negb (uv_closing p.2) && negb (set_has (uv_session p.2) (fp_deadSessions st)).
Definition timeout_of (pool : NormalizedUpstreamPool) (timeoutMs : Z) : Z := Z.min timeoutMs (up_leaseAcquireTimeoutMs pool).

Section Pool.
Context {P : Platform}.
(** [getFederationHostId] of this host. *)
Context (federationHostId : result exn jsstring).

Definition acquireFederatedRequestStream (hostId : jsstring) (timeoutMs : Z) (signal : abort_signal) (st : federation_pool) : federation_pool :=
  let id := fp_next st in
  let st := new_acquisition st in
  let link := map_get hostId (fp_links st) in
  match (l ← link; p ← il_requestPool l; ss ← il_requestStreams l; Some (l, p, ss)) with
  | Some (l, pool, streams) =>
      match idle_stream streams (il_requestBusyStreams l) st with
      | Some s => settle id (aq_stream s) (mark_busy hostId l s st)
      | None =>
          if up_maxQueuedAcquires pool <=? len (waiters_of hostId st)
          then settle id (aq_failed (unavailable "Federated request stream queue is full" hostId None)) st
          else
            let w := {| fw_id := id; fw_hostId := hostId; fw_pooled := true; fw_timeoutMs := timeout_of pool timeoutMs |} in
            match signal with
            | sg_aborted => fail w (acquisition_cancelled hostId) st
            | _ => enqueue w (match signal with sg_live => true | _ => false end) st
            end
      end
  | None =>
      match (l ← link; s ← il_requestStream l; if is_closed st s || il_requestBusy l then None else Some (l, s)) with
      | Some (l, s) => settle id (aq_stream s) (set_link hostId (with_request (Some s) true l) st)
      | None =>
          match head (filter (fun p => usable_upstream hostId st p = true) (fp_upstreams st)), link with
          | Some (upstreamId, _), _ => settle id (match federationHostId with Ok _ => aq_dispatch upstreamId | Throw e => aq_failed e end) st
          | None, None => settle id (aq_failed (unavailable "Federated request stream unavailable" hostId (Some "inbound-or-upstream"%string))) st
          | None, Some _ => enqueue {| fw_id := id; fw_hostId := hostId; fw_pooled := false; fw_timeoutMs := timeoutMs |} false st
          end
      end
  end.
(** [tryAcquireFederatedRequestStream]: an unavailable stream is [undefined]. *)
Definition tryAcquire_answer (a : acquired) : result exn (option acquired) :=
  match a with
  | aq_failed e =>
      let verserError := host_toVerserError e in
      if decide (ve_code verserError = upstream_unavailable) then Ok None else Throw (VerserErr verserError)
  | _ => Ok (Some a)
  end.

(** ** Streams of an inbound host *)
(** [handleHostFederationRequestStream] for a stream of [session]. *)
Definition unregistered_stream (hostId : jsstring) : exn :=
  verr disconnected_target "Federated Host request stream is not registered" [(js "hostId", JStr hostId)].
(** The policy that holds with this stream: the link's, or the one the header names. *)
Definition stream_policy (link : InboundLink) (policyHeader : option jsstring) : result exn (option NormalizedUpstreamPool) :=
  match policyHeader with
  | None => Ok (il_requestPool link)
  | Some text =>
      parsed ← match (match json_parse text with Some v => validateUpstreamPool v | None => Throw (EngineErr SyntaxError text) end) with
               | Ok p => Ok p
               | Throw e => Throw (verr protocol_error "Invalid upstream pool policy" [(js "cause", JStr (getErrorMessage e))])
               end;
      _ ← throw_if (match il_requestPool link with
                    | Some pool => negb (bool_decide (Some (json_text (pool_json pool)) = (json_text ∘ pool_json <$> parsed)))
                    | None => false
                    end) (verr protocol_error "Conflicting upstream pool policy" []);
      Ok parsed
  end.
Definition listen (s : nat) (hostId : jsstring) (pooled : bool) (st : federation_pool) : federation_pool :=
  with_streams (fp_closed st) (fp_destroyed st) (fp_listeners st ++ [(s, (hostId, pooled))]) (fp_nextStream st) st.
Definition respond (s : nat) (st : federation_pool) : federation_pool := with_answered (fp_answered st ++ [s]) st.
Definition handleHostFederationRequestStream (s session : nat) (hostIdHeader : jsstring) (policyHeader : option jsstring) (st : federation_pool)
    : result exn unit * federation_pool :=
  let hostId := trim hostIdHeader in
  match map_get hostId (fp_links st) with
  | Some link =>
      if (len hostId =? 0) || negb (il_session link =? session)%nat then (Throw (unregistered_stream hostId), st)
      else
        match policyHeader, il_requestPool link with
        | None, None =>
            let st := respond s (set_link hostId (with_request (Some s) false link) st) in
            (Ok tt, listen s hostId false (resolveNextFederatedRequestStreamWaiter hostId st))
        | _, _ =>
            match stream_policy link policyHeader with
            | Throw e => (Throw e, st)
            | Ok requestPool =>
                let requestStreams := match requestPool with None => il_requestStreams link | Some _ => Some (default [] (il_requestStreams link)) end in
                let requestBusyStreams := match requestPool with None => il_requestBusyStreams link | Some _ => Some (default [] (il_requestBusyStreams link)) end in
                let link := with_pool requestPool (with_sets (set_add s <$> requestStreams) requestBusyStreams (with_request (Some s) false link)) in
                (Ok tt, listen s hostId true (resolveNextFederatedRequestStreamWaiter hostId (respond s (set_link hostId link st))))
            end
        end
  | None => (Throw (unregistered_stream hostId), st)
  end.
(** The 'close' listeners of such a stream. *)
Definition without (s : nat) (l : list nat) : list nat := filter (fun x => x <> s) l.
Definition request_stream_closed (s : nat) (hostId : jsstring) (pooled : bool) (st : federation_pool) : federation_pool :=
  match map_get hostId (fp_links st) with
  | None => st
  | Some current =>
      let gone := bool_decide (il_requestStream current = Some s) in
      if pooled then
        let current := with_sets (without s <$> il_requestStreams current) (without s <$> il_requestBusyStreams current) current in
        resolveNextFederatedRequestStreamWaiter hostId
          (set_link hostId (with_request (if gone then None else il_requestStream current) false current) st)
      else if gone then set_link hostId (with_request None false current) st else st
  end.

(** The handshake admits a host; its link goes ([removeInboundFederationHost]). *)
Definition admitted (session : nat) : InboundLink :=
  {| il_session := session; il_requestStream := None; il_requestBusy := false; il_requestStreams := None; il_requestBusyStreams := None; il_requestPool := None |}.
Definition remove_link (hostId : jsstring) (st : federation_pool) : federation_pool :=
  if map_has hostId (fp_links st)
  then failFederatedRequestStreamWaiters hostId "Federated Host disconnected" (with_links (map_delete hostId (fp_links st)) st) else st.

(** ** Steps *)
Inductive pool_event : Type :=
  | fe_admit (hostId : jsstring) (session : nat)
  | fe_remove (hostId : jsstring)
  | fe_upstreams (links : list (jsstring * upstream_view)) (dead : list nat)
  | fe_stream (session : nat) (hostId : jsstring) (policy : option jsstring)
  | fe_closing (s : nat) | fe_destroyed (s : nat) | fe_closed (s : nat)
  | fe_acquire (hostId : jsstring) (timeoutMs : Z) (signal : abort_signal)
  | fe_timeout (id : nat) | fe_abort (id : nat)
  | fe_failAll (message : string).
Definition waiter_by (id : nat) (st : federation_pool) : option FederatedRequestStreamWaiter :=
  head (filter (fun w => fw_id w = id) (concat (map snd (fp_waiters st)))).
Definition pool_step (st : federation_pool) (e : pool_event) : federation_pool :=
  match e with
  | fe_admit hostId session => if map_has hostId (fp_links st) then st else set_link hostId (admitted session) st
  | fe_remove hostId => remove_link hostId st
  | fe_upstreams links dead => with_upstreams links dead st
  (** the server hands the host a new stream *)
  | fe_stream session hostId policy =>
      let s := fp_nextStream st in
      (handleHostFederationRequestStream s session hostId policy (with_streams (fp_closed st) (fp_destroyed st) (fp_listeners st) (S s) st)).2
  | fe_closing s => with_streams (set_add s (fp_closed st)) (fp_destroyed st) (fp_listeners st) (fp_nextStream st) st
  | fe_destroyed s => with_streams (fp_closed st) (set_add s (fp_destroyed st)) (fp_listeners st) (fp_nextStream st) st
  | fe_closed s =>
      let st := with_streams (set_add s (fp_closed st)) (fp_destroyed st) (fp_listeners st) (fp_nextStream st) st in
      match map_get s (fp_listeners st) with
      | Some (hostId, pooled) =>
          request_stream_closed s hostId pooled (with_streams (fp_closed st) (fp_destroyed st) (map_delete s (fp_listeners st)) (fp_nextStream st) st)
      | None => st
      end
  | fe_acquire hostId timeoutMs signal => acquireFederatedRequestStream hostId timeoutMs signal st
  | fe_timeout id => match waiter_by id st with Some w => if set_has id (fp_timers st) then onTimeout w st else st | None => st end
  | fe_abort id => match waiter_by id st with Some w => if set_has id (fp_listening st) then onAbort w st else st | None => st end
  | fe_failAll message => failAllFederatedRequestStreamWaiters message st
  end.
Definition pool_run (st : federation_pool) (events : list pool_event) : federation_pool := fold_left pool_step events st.
End Pool.

(** * Theory *)
Abbreviation wids := (WaitQueue.ids fw_id).
Abbreviation queues_ok := (WaitQueue.queue_ok (R := acquired) fw_id fw_hostId).

(** The streams that requests were given. *)
Definition handed (settled : list (nat * acquired)) : list nat := omap (fun p => match p.2 with aq_stream s => Some s | _ => None end) settled.
Definition pooled (l : InboundLink) : bool := bool_decide (is_Some (il_requestPool l)).
(** What a link has to give: an open stream that no request uses. *)
Definition offers (st : federation_pool) (l : InboundLink) (s : nat) : Prop :=
  match il_requestPool l, il_requestStreams l with
  | Some _, Some ss => s ∈ ss /\ (forall bs, il_requestBusyStreams l = Some bs -> s ∉ bs) /\ s ∉ fp_closed st /\ s ∉ fp_destroyed st
  | _, _ => il_requestStream l = Some s /\ il_requestBusy l = false /\ s ∉ fp_closed st
  end.
(** The link knows that the stream is used, when it has it. *)
Definition marked (l : InboundLink) (s : nat) : Prop :=
  match il_requestPool l, il_requestStreams l with
  | Some _, Some ss => s ∈ ss -> exists bs, il_requestBusyStreams l = Some bs /\ s ∈ bs
  | _, _ => il_requestStream l = Some s -> il_requestBusy l = true
  end.
(** The numbers of a policy, as safe integers. *)
Definition safe_number (z : Z) : bool := (0 <=? z) && (z <=? max_safe).
Definition pool_safe (p : NormalizedUpstreamPool) : bool :=
  forallb safe_number [up_minWaitingStreams p; up_maxOpenStreams p; up_leaseAcquireTimeoutMs p; up_maxQueuedAcquires p].
Record link_ok (L : list (nat * (jsstring * bool))) (h : jsstring) (l : InboundLink) : Prop := {
  lk_shape : match il_requestPool l, il_requestStreams l, il_requestBusyStreams l with Some _, Some _, Some _ | None, None, None => True | _, _, _ => False end;
  lk_streams : forall ss s, il_requestStreams l = Some ss -> s ∈ ss -> map_get s L = Some (h, true);
  lk_request : forall s, il_requestStream l = Some s -> map_get s L = Some (h, pooled l);
  lk_stale : pooled l = false -> forall s, map_get s L <> Some (h, true);
  lk_pool : forall p, il_requestPool l = Some p -> pool_safe p = true;
}.
Definition pooled_waiting (l : list FederatedRequestStreamWaiter) : list FederatedRequestStreamWaiter := List.filter fw_pooled l.
Definition queue_bound (l : InboundLink) : Z := match il_requestPool l with Some p => up_maxQueuedAcquires p | None => 0 end.
Record core (L : list (nat * (jsstring * bool))) (st : federation_pool) : Prop := {
  co_queue : queues_ok (fp_waiters st) (fp_timers st) (fp_settled st) (fp_next st);
  co_listening : forall id, id ∈ fp_listening st -> id ∈ fp_timers st;
  co_keys : forall s p, map_get s L = Some p -> (s < fp_nextStream st)%nat;
  co_links : forall h l, map_get h (fp_links st) = Some l -> link_ok L h l;
  co_handed : NoDup (handed (fp_settled st));
  co_known : forall s, s ∈ handed (fp_settled st) -> (s < fp_nextStream st)%nat;
  co_used : forall h l s, map_get h (fp_links st) = Some l -> s ∈ handed (fp_settled st) -> marked l s;
  co_bound : forall h l, map_get h (fp_links st) = Some l -> len (pooled_waiting (waiters_of h st)) <= queue_bound l;
}.
(** No waiter of a host waits while a stream of the host is idle, or without the host. *)
Definition served (st : federation_pool) (h : jsstring) : Prop :=
  waiters_of h st <> [] -> exists l, map_get h (fp_links st) = Some l /\ forall s, ~ offers st l s.
Definition pool_ok (st : federation_pool) : Prop := core (fp_listeners st) st /\ forall h, served st h.

(** ** Links that give a stream away *)
Record link_le (l l' : InboundLink) : Prop := {
  le_pool : il_requestPool l' = il_requestPool l;
  le_streams : il_requestStreams l' = il_requestStreams l;
  le_request : il_requestStream l' = il_requestStream l;
  le_flag : il_requestBusy l = true -> il_requestBusy l' = true;
  le_busy : match il_requestBusyStreams l, il_requestBusyStreams l' with Some b, Some b' => forall s, s ∈ b -> s ∈ b' | None, None => True | _, _ => False end;
}.
Definition links_le (m m' : list (jsstring * InboundLink)) : Prop :=
  forall h, match map_get h m, map_get h m' with Some l, Some l' => link_le l l' | None, None => True | _, _ => False end.

Lemma link_le_refl l : link_le l l.
Proof. split; try done. by destruct (il_requestBusyStreams l). Qed.
Lemma links_le_refl m : links_le m m.
Proof. intros h. destruct (map_get h m); [apply link_le_refl|done]. Qed.
Lemma links_le_set m h l l' : map_get h m = Some l -> link_le l l' -> links_le m (map_set h l' m).
Proof. intros E Hl h'. rewrite map_get_set. destruct (decide (h' = h)) as [->|]; [by rewrite E|apply links_le_refl]. Qed.
Lemma links_le_get m m' h l' : links_le m m' -> map_get h m' = Some l' -> exists l, map_get h m = Some l /\ link_le l l'.
Proof. intros H E. specialize (H h). rewrite E in H. destruct (map_get h m) as [l|]; [by exists l|done]. Qed.

Lemma link_le_ok L h l l' : link_le l l' -> link_ok L h l -> link_ok L h l'.
Proof.
  intros [Hp Hs Hr _ Hb] [Sh St Rq Sl Sp]. split; unfold pooled in *; rewrite ?Hp, ?Hs, ?Hr; try done.
  destruct (il_requestPool l), (il_requestStreams l), (il_requestBusyStreams l), (il_requestBusyStreams l'); done.
Qed.
Lemma link_le_marked l l' s : link_le l l' -> marked l s -> marked l' s.
Proof.
  intros [Hp Hs Hr Hf Hb]. unfold marked. rewrite Hp, Hs, Hr. destruct (il_requestPool l), (il_requestStreams l); try by auto.
  intros Hm Hin. destruct (Hm Hin) as (bs & E & Hbs). rewrite E in Hb. destruct (il_requestBusyStreams l') as [b'|]; [|done]. eauto.
Qed.
Lemma link_le_offers st l l' s : link_le l l' -> offers st l' s -> offers st l s.
Proof.
  intros [Hp Hs Hr Hf Hb]. unfold offers. rewrite Hp, Hs, Hr.
  assert (il_requestBusy l' = false -> il_requestBusy l = false) as Hf' by (destruct (il_requestBusy l); [by rewrite Hf|done]).
  destruct (il_requestPool l), (il_requestStreams l); try (intros (H1 & H2 & H3); by repeat split; auto).
  intros (Hin & Hbs & Ho). repeat split; try tauto. intros bs E Hx. rewrite E in Hb. destruct (il_requestBusyStreams l') as [b'|] eqn:E'; [|done].
  by apply (Hbs b' eq_refl), Hb.
Qed.
Lemma marked_not_offered st l s : marked l s -> offers st l s -> False.
Proof.
  unfold marked, offers. destruct (il_requestPool l), (il_requestStreams l); try (intros Hm (H1 & H2 & _); specialize (Hm H1); congruence).
  intros Hm (H1 & H2 & _). destruct (Hm H1) as (bs & E & Hb). by apply (H2 bs).
Qed.

(** ** Settling acquisitions *)
Lemma handed_app a b : handed (a ++ b) = handed a ++ handed b.
Proof. unfold handed. by rewrite omap_app. Qed.
Lemma handed_failed (f : FederatedRequestStreamWaiter -> exn) l : handed (map (fun w => (fw_id w, aq_failed (f w))) l) = [].
Proof. by induction l. Qed.

(** What a settled acquisition may have been given. *)
Definition fit (L : list (nat * (jsstring * bool))) (m : list (jsstring * InboundLink)) (old : list nat) (o : acquired) : Prop :=
  match o with
  | aq_stream s => s ∉ old /\ exists h l b, map_get h m = Some l /\ marked l s /\ map_get s L = Some (h, b)
  | _ => True
  end.
Lemma fit_handed L m old id o s : fit L m old o -> s ∈ handed [(id, o)] ->
  s ∉ old /\ exists h l b, map_get h m = Some l /\ marked l s /\ map_get s L = Some (h, b).
Proof. destruct o; cbn; rewrite ?elem_of_nil; try done. by intros H ->%list_elem_of_singleton. Qed.

(** A step that changes links only by giving streams away, and settles [xs]. *)
Lemma core_next L st st' xs : core L st ->
  queues_ok (fp_waiters st') (fp_timers st') (fp_settled st') (fp_next st') ->
  (forall id, id ∈ fp_listening st' -> id ∈ fp_timers st') ->
  links_le (fp_links st) (fp_links st') -> fp_settled st' = fp_settled st ++ xs -> fp_nextStream st' = fp_nextStream st ->
  (forall h, len (pooled_waiting (waiters_of h st')) <= Z.max (len (pooled_waiting (waiters_of h st))) (default 0 (queue_bound <$> map_get h (fp_links st)))) ->
  (handed xs = [] \/ exists id o, xs = [(id, o)] /\ fit L (fp_links st') (handed (fp_settled st)) o) -> core L st'.
Proof.
  intros H Hq Hl Hm Hs Hn Hb Hx. destruct H as [_ _ Hk Hlk Hnd Hkn Hu Hbo].
  assert (forall s, s ∈ handed xs -> s ∉ handed (fp_settled st) /\
    exists h l b, map_get h (fp_links st') = Some l /\ marked l s /\ map_get s L = Some (h, b)) as Hnew.
  { intros s Hin. destruct Hx as [E|(id & o & -> & Hf)]; [rewrite E in Hin; by apply elem_of_nil in Hin|by eapply fit_handed]. }
  assert (NoDup (handed xs)) as Hxn.
  { destruct Hx as [->|(id & o & -> & _)]; [constructor|]. destruct o; cbn; [apply NoDup_singleton|constructor|constructor]. }
  split; try done; rewrite ?Hs, ?Hn, ?handed_app; try done.
  - intros h l' E. destruct (links_le_get _ _ _ _ Hm E) as (l & El & Hle). by eapply link_le_ok, Hlk.
  - apply NoDup_app. split; [done|]. split; [|done]. intros s H1 H2. by apply (Hnew s) in H2 as [? _].
  - intros s [?|Hin]%elem_of_app; [by apply Hkn|]. destruct (Hnew s Hin) as (_ & h & l & b & _ & _ & E). by eapply Hk.
  - intros h l' s E Hin. destruct (links_le_get _ _ _ _ Hm E) as (l & El & Hle). apply elem_of_app in Hin as [Hin|Hin].
    + eapply link_le_marked, Hu; done.
    + destruct (Hnew s Hin) as (_ & h2 & l2 & b & E2 & Hm2 & EL). destruct (decide (h2 = h)) as [->|Hne]; [congruence|].
      pose proof (link_le_ok _ _ _ _ Hle (Hlk _ _ El)) as [_ St Rq _ _]. unfold marked.
      destruct (il_requestPool l'), (il_requestStreams l') as [ss|]; intros Hx'; try (apply Rq in Hx'; congruence).
      specialize (St ss s eq_refl Hx'). congruence.
  - intros h l' E. destruct (links_le_get _ _ _ _ Hm E) as (l & El & Hle). specialize (Hb h). specialize (Hbo _ _ El). rewrite El in Hb. cbn in Hb.
    unfold queue_bound in *. rewrite (le_pool _ _ Hle). lia.
Qed.

Lemma waiters_put h l st h' : waiters_of h' (put_waiters h l st) = if decide (h' = h) then l else waiters_of h' st.
Proof. apply put_queue_get. Qed.
Lemma waiters_get h st : waiters_of h st <> [] -> map_get h (fp_waiters st) = Some (waiters_of h st).
Proof. unfold waiters_of. by destruct (map_get h (fp_waiters st)). Qed.
Lemma pooled_waiting_sublist a b : sublist a b -> len (pooled_waiting a) <= len (pooled_waiting b).
Proof.
  intros H. unfold len, pooled_waiting. apply Nat2Z.inj_le. induction H; cbn; [done| |]; case_match; cbn; lia.
Qed.

(** Waiters of [h] leave its queue and are settled. *)
Lemma core_take L st st' h out keep xs : core L st -> waiters_of h st ≡ₚ out ++ keep -> sublist keep (waiters_of h st) ->
  waiters_of h st <> [] -> xs.*1 = wids out ->
  fp_waiters st' = put_queue h keep (fp_waiters st) -> fp_timers st' = filter (fun t => t ∉ wids out) (fp_timers st) ->
  fp_listening st' = filter (fun t => t ∉ wids out) (fp_listening st) ->
  fp_settled st' = fp_settled st ++ xs -> fp_next st' = fp_next st -> fp_nextStream st' = fp_nextStream st ->
  links_le (fp_links st) (fp_links st') ->
  (handed xs = [] \/ exists id o, xs = [(id, o)] /\ fit L (fp_links st') (handed (fp_settled st)) o) -> core L st'.
Proof.
  intros H Hp Hsub Hne Hxs Eq Et El Es En Ens Hm Hx. eapply core_next; [exact H| | |exact Hm|exact Es|exact Ens| |exact Hx].
  - rewrite Eq, Et, Es, En. eapply (queue_put (co_queue _ _ H)); [by apply waiters_get|done|done|done].
  - intros id. rewrite El, Et, !list_elem_of_filter. intros [? Hin]. split; [done|]. by apply (co_listening _ _ H).
  - intros h'. unfold waiters_of at 1. rewrite Eq, put_queue_get. destruct (decide (h' = h)) as [->|]; [|unfold waiters_of; lia].
    pose proof (pooled_waiting_sublist _ _ Hsub). lia.
Qed.

Lemma waiter_in_queue L st h w : core L st -> w ∈ waiters_of h st -> fw_hostId w = h /\ is_settled (fw_id w) st = false.
Proof.
  intros H Hw. assert (waiters_of h st <> []) as Hne by (by intros E; rewrite E in Hw; apply elem_of_nil in Hw).
  destruct (queue_waiting (co_queue _ _ H) _ _ _ (waiters_get _ _ Hne) Hw) as [? ?]. split; [done|]. by apply bool_decide_eq_false.
Qed.

(** The states differ only in the links and the queues. *)
Record same_acquisitions (st st' : federation_pool) : Prop := {
  sa_timers : fp_timers st' = fp_timers st;
  sa_listening : fp_listening st' = fp_listening st;
  sa_settled : fp_settled st' = fp_settled st;
  sa_next : fp_next st' = fp_next st;
  sa_nextStream : fp_nextStream st' = fp_nextStream st;
}.
(** The waiter [w] leaves its queue and is settled. *)
Lemma settle_core L st st' w keep o : core L st -> same_acquisitions st st' ->
  waiters_of (fw_hostId w) st ≡ₚ [w] ++ keep -> sublist keep (waiters_of (fw_hostId w) st) ->
  fp_waiters st' = put_queue (fw_hostId w) keep (fp_waiters st) ->
  links_le (fp_links st) (fp_links st') -> fit L (fp_links st') (handed (fp_settled st)) o -> core L (settle (fw_id w) o st').
Proof.
  intros H [Et El Es En Ens] Hp Hsub Eq Hm Hx.
  apply (core_take L st _ (fw_hostId w) [w] keep [(fw_id w, o)]); cbn [settle with_acquisitions fp_waiters fp_timers fp_listening fp_settled fp_next fp_nextStream fp_links];
    rewrite ?(ids_single fw_id w); try congruence; try done.
  - intros E. rewrite E in Hp. by apply Permutation_nil_cons in Hp.
  - right. by exists (fw_id w), o.
Qed.
Lemma drop_core L st w e : core L st -> w ∈ waiters_of (fw_hostId w) st -> core L (settle (fw_id w) (aq_failed e) (remove w st)).
Proof.
  intros H Hw. apply (settle_core L st _ w (filter (fun c => fw_id c <> fw_id w) (waiters_of (fw_hostId w) st))); try done.
  - apply split_waiter; [apply (queue_ids_NoDup (co_queue _ _ H))|done].
  - apply sublist_filter.
  - apply links_le_refl.
Qed.
Lemma fail_waiting L st w e : core L st -> w ∈ waiters_of (fw_hostId w) st -> fail w e st = settle (fw_id w) (aq_failed e) (remove w st).
Proof. intros H Hw. unfold fail. by destruct (waiter_in_queue _ _ _ _ H Hw) as [_ ->]. Qed.
Lemma drop_served st w o h : (waiters_of (fw_hostId w) st <> [] -> served st (fw_hostId w)) -> served st h -> served (settle (fw_id w) o (remove w st)) h.
Proof.
  intros Hs Hh Hne. unfold waiters_of in Hne. cbn [fp_waiters settle with_acquisitions remove put_waiters with_waiters] in Hne. rewrite put_queue_get in Hne.
  destruct (decide (h = fw_hostId w)) as [->|Hn].
  - assert (waiters_of (fw_hostId w) st <> []) as Hw by (intros E; rewrite E in Hne; done). by destruct (Hs Hw Hw) as (l & E & Ho); exists l.
  - destruct (Hh Hne) as (l & E & Ho). by exists l.
Qed.
Lemma drop_ok st w e : pool_ok st -> w ∈ waiters_of (fw_hostId w) st -> pool_ok (settle (fw_id w) (aq_failed e) (remove w st)).
Proof. intros [Hc Hs] Hw. split; [by apply drop_core|]. intros h. apply drop_served; auto. Qed.

(** ** Giving a stream to the next waiter *)
Lemma link_le_trans a b c : link_le a b -> link_le b c -> link_le a c.
Proof.
  intros [H1 H2 H3 H4 H5] [K1 K2 K3 K4 K5]. split; try congruence; try tauto.
  destruct (il_requestBusyStreams a), (il_requestBusyStreams b), (il_requestBusyStreams c); try done; auto.
Qed.
Lemma links_le_trans m m' m'' : links_le m m' -> links_le m' m'' -> links_le m m''.
Proof.
  intros H K h. specialize (H h). specialize (K h). destruct (map_get h m), (map_get h m'), (map_get h m''); try done. by eapply link_le_trans.
Qed.
Record same_streams (st st' : federation_pool) : Prop := {
  ss_listeners : fp_listeners st' = fp_listeners st;
  ss_closed : fp_closed st' = fp_closed st;
  ss_destroyed : fp_destroyed st' = fp_destroyed st;
}.
Lemma same_streams_refl st : same_streams st st.
Proof. done. Qed.
Lemma same_acquisitions_refl st : same_acquisitions st st.
Proof. done. Qed.
Lemma offers_streams st st' l s : same_streams st st' -> offers st' l s -> offers st l s.
Proof. intros [_ Hc Hd]. unfold offers. by rewrite Hc, Hd. Qed.
Lemma served_le st st' h : links_le (fp_links st) (fp_links st') -> same_streams st st' ->
  (waiters_of h st' <> [] -> waiters_of h st <> []) -> served st h -> served st' h.
Proof.
  intros Hm Hs Hw Hh Hne. destruct (Hh (Hw Hne)) as (l & E & Ho). specialize (Hm h). rewrite E in Hm.
  destruct (map_get h (fp_links st')) as [l'|]; [|done]. exists l'. split; [done|]. intros s Hx.
  by apply (Ho s), (offers_streams _ _ _ _ Hs), (link_le_offers _ _ _ _ Hm).
Qed.

Lemma link_le_busy l s : il_requestStream l = Some s -> link_le l (with_request (Some s) true l).
Proof. intros E. split; try done. cbn. by destruct (il_requestBusyStreams l). Qed.
Lemma link_le_mark l s : link_le l (with_sets (il_requestStreams l) (set_add s <$> il_requestBusyStreams l) l).
Proof. split; try done. cbn. destruct (il_requestBusyStreams l); [|done]. cbn. intros x Hx. apply set_add_elem. by right. Qed.

(** An open idle stream, and when there is none. *)
Lemma idle_stream_spec streams busy st : match idle_stream streams busy st with
  | Some s => s ∈ streams /\ (forall bs, busy = Some bs -> s ∉ bs) /\ s ∉ fp_closed st /\ s ∉ fp_destroyed st
  | None => forall s, s ∈ streams -> (forall bs, busy = Some bs -> s ∉ bs) -> s ∉ fp_closed st -> s ∉ fp_destroyed st -> False
  end.
Proof.
  unfold idle_stream.
  assert (forall s, negb (match busy with Some b => set_has s b | None => false end) && negb (is_closed st s) && negb (is_destroyed st s) = true <->
    ((forall bs, busy = Some bs -> s ∉ bs) /\ s ∉ fp_closed st /\ s ∉ fp_destroyed st)) as Hp.
  { intros s. unfold is_closed, is_destroyed. rewrite !andb_true_iff, !negb_true_iff, <- !not_true_iff_false, !set_has_elem.
    destruct busy as [b|]; [rewrite set_has_elem|]; split; naive_solver. }
  destruct (filter _ streams) as [|s l] eqn:E; cbn [head].
  - intros s Hin Hb Hc Hd. assert (s ∈ filter (fun s => negb (match busy with Some b => set_has s b | None => false end) && negb (is_closed st s) && negb (is_destroyed st s) = true) streams) as Hf.
    { apply list_elem_of_filter. by rewrite Hp. }
    rewrite E in Hf. by apply elem_of_nil in Hf.
  - assert (s ∈ s :: l) as Hs by left. rewrite <- E in Hs. apply list_elem_of_filter in Hs as [Hs Hin]. apply Hp in Hs. tauto.
Qed.

(** A stream that a link has, and that the link knows to be used. *)
Lemma fit_marked L st h l l' s : core L st -> map_get h (fp_links st) = Some l -> offers st l s -> link_le l l' -> marked l' s ->
  forall m, map_get h m = Some l' -> fit L m (handed (fp_settled st)) (aq_stream s).
Proof.
  intros H E Ho Hle Hm m Em. split.
  - intros Hin. exact (marked_not_offered _ _ _ (co_used _ _ H _ _ _ E Hin) Ho).
  - pose proof (co_links _ _ H _ _ E) as [_ St Rq _ _]. exists h, l'. unfold offers in Ho.
    destruct (il_requestPool l), (il_requestStreams l) as [ss|]; destruct Ho as [Hx _].
    all: try (exists (pooled l); by auto). exists true. by eauto.
Qed.

(** The waiter [w], whose queue [rest] is stored already, is given the stream
    [s] of its host or fails; the host knows that [s] is used. *)
Lemma resolve_core L st st' w rest l' s : core L st -> waiters_of (fw_hostId w) st = w :: rest ->
  fp_waiters st' = put_queue (fw_hostId w) rest (fp_waiters st) -> same_acquisitions st st' -> same_streams st st' ->
  links_le (fp_links st) (fp_links st') -> map_get (fw_hostId w) (fp_links st') = Some l' -> s ∉ fp_closed st ->
  fit L (fp_links st') (handed (fp_settled st)) (aq_stream s) ->
  core L (resolve w s st') /\ links_le (fp_links st') (fp_links (resolve w s st')) /\ same_streams st (resolve w s st') /\
    fp_waiters (resolve w s st') = fp_waiters st' /\ fp_nextStream (resolve w s st') = fp_nextStream st.
Proof.
  intros H Hq Eq Ha Hs Hm El Hopen Hfit.
  assert (is_settled (fw_id w) st' = false) as Hset.
  { unfold is_settled. rewrite (sa_settled _ _ Ha). eapply waiter_in_queue; [exact H|rewrite Hq; by left]. }
  assert (is_closed st' s = false) as Hc.
  { unfold is_closed. rewrite (ss_closed _ _ Hs), <- not_true_iff_false, set_has_elem. done. }
  assert (forall st2 o, same_acquisitions st st2 -> fp_waiters st2 = fp_waiters st' -> links_le (fp_links st') (fp_links st2) ->
    fit L (fp_links st2) (handed (fp_settled st)) o -> core L (settle (fw_id w) o st2)) as Hcore.
  { intros st2 o Ha2 Eq2 Hm2 Hf2. apply (settle_core L st st2 w rest o); try done.
    - by rewrite Hq.
    - rewrite Hq. by apply sublist_cons.
    - by rewrite Eq2.
    - by eapply links_le_trans. }
  unfold resolve, resolvePooled, resolveStream. destruct (fw_pooled w) eqn:Ep.
  - rewrite Hset, Hc. assert (fp_waiters (remove w st') = fp_waiters st') as Er.
    { unfold remove, put_waiters, with_waiters, waiters_of. cbn [fp_waiters]. rewrite Eq, put_queue_get, decide_True by done.
      rewrite filter_all_in; [apply put_queue_idem, (co_queue _ _ H)|]. intros x Hx Ex.
      pose proof (queue_ids_NoDup (co_queue _ _ H) (fw_hostId w)) as Hn. change (NoDup (wids (waiters_of (fw_hostId w) st))) in Hn. rewrite Hq in Hn. cbn in Hn. apply NoDup_cons in Hn as [Hn _].
      apply Hn. rewrite <- Ex. by apply list_elem_of_fmap_2. }
    destruct Ha as [? ? ? ? ?], Hs as [? ? ?]. split; [|by repeat split; try apply links_le_refl].
    apply Hcore; try done. apply links_le_refl.
  - rewrite El. destruct (decide (il_requestStream l' = Some s)) as [Er|Er].
    + rewrite bool_decide_eq_true_2, Hc by done. cbn [negb orb].
      assert (links_le (fp_links st') (fp_links (set_link (fw_hostId w) (with_request (Some s) true l') st'))) as Hle by
        by apply (links_le_set _ _ l'), link_le_busy.
      destruct Ha as [? ? ? ? ?], Hs as [? ? ?]. split; [|by repeat split].
      apply Hcore; try done. destruct Hfit as (Hold & h & l & b & E & Hmk & EL). split; [done|].
      specialize (Hle h). rewrite E in Hle. cbn [set_link with_links fp_links] in *.
      destruct (map_get h (map_set _ _ _)) as [l2|] eqn:E2; [|done]. exists h, l2, b. split; [done|]. split; [by eapply link_le_marked|done].
    + rewrite bool_decide_eq_false_2 by done. cbn [negb orb].
      destruct Ha as [? ? ? ? ?], Hs as [? ? ?]. split; [|by repeat split; try apply links_le_refl].
      apply Hcore; try done. apply links_le_refl.
Qed.

(** What a step on the waiters of [h] keeps. *)
Record advance L h (st st' : federation_pool) : Prop := {
  ad_core : core L st';
  ad_streams : same_streams st st';
  ad_next : fp_nextStream st' = fp_nextStream st;
  ad_links : links_le (fp_links st) (fp_links st');
  ad_others : forall h', h' <> h -> waiters_of h' st' = waiters_of h' st;
}.
Lemma advance_refl L h st : core L st -> advance L h st st.
Proof. intros H. by split; try apply links_le_refl. Qed.
Lemma advance_served L h st st' h' : advance L h st st' -> h' <> h -> served st h' -> served st' h'.
Proof. intros [_ Hs _ Hm Ho] Hne. apply served_le; [done|done|]. by rewrite Ho. Qed.
Lemma put_others h l q h' : h' <> h -> default [] (map_get h' (@put_queue FederatedRequestStreamWaiter h l q)) = default [] (map_get h' q).
Proof. intros Hne. by rewrite put_queue_get, decide_False. Qed.
Lemma fail_head L st h w rest e : core L st -> waiters_of h st = w :: rest ->
  advance L h st (settle (fw_id w) (aq_failed e) (put_waiters h rest st)).
Proof.
  intros H Hq. assert (fw_hostId w = h) as <- by (eapply waiter_in_queue; [exact H|rewrite Hq; by left]).
  split; try done; [|apply links_le_refl|by intros h'; apply put_others].
  apply (settle_core L st _ w rest); try done; [by rewrite Hq|rewrite Hq; by apply sublist_cons|apply links_le_refl].
Qed.
Lemma give_head L st st' h w rest l' s : core L st -> waiters_of h st = w :: rest ->
  fp_waiters st' = put_queue h rest (fp_waiters st) -> same_acquisitions st st' -> same_streams st st' ->
  links_le (fp_links st) (fp_links st') -> map_get h (fp_links st') = Some l' -> s ∉ fp_closed st ->
  fit L (fp_links st') (handed (fp_settled st)) (aq_stream s) ->
  advance L h st (resolve w s st') /\ links_le (fp_links st') (fp_links (resolve w s st')).
Proof.
  intros H Hq. assert (fw_hostId w = h) as <- by (eapply waiter_in_queue; [exact H|rewrite Hq; by left]).
  intros Eq Ha Hs Hm El Ho Hf. destruct (resolve_core L st st' w rest l' s) as (Hc & Hle & Hss & Hw & Hn); try done.
  split; [|done]. split; try done; [by eapply links_le_trans|]. intros h' Hne. unfold waiters_of. by rewrite Hw, Eq, put_others.
Qed.

(** A queue whose first waiter was put back. *)
Lemma put_back_core L st h w rest : core L st -> waiters_of h st = w :: rest ->
  advance L h st (with_waiters (map_set h (w :: rest) (put_queue h rest (fp_waiters st))) st).
Proof.
  intros H Hq. assert (map_get h (fp_waiters st) = Some (w :: rest)) as Eg by (rewrite <- Hq; apply waiters_get; by rewrite Hq).
  assert (forall h', waiters_of h' (with_waiters (map_set h (w :: rest) (put_queue h rest (fp_waiters st))) st) = waiters_of h' st) as Hw.
  { intros h'. unfold waiters_of at 1. cbn [with_waiters fp_waiters]. rewrite map_get_set. destruct (decide (h' = h)) as [->|Hne]; [by rewrite Hq|].
    by apply put_others. }
  split; try done; [|apply links_le_refl].
  apply (core_next L st _ []); try done.
  - by apply (queue_put_back (co_queue _ _ H)).
  - apply (co_listening _ _ H).
  - apply links_le_refl.
  - by rewrite app_nil_r.
  - intros h'. rewrite Hw. lia.
  - by left.
Qed.

(** One waiter of [h] is served, and nobody else loses a stream. *)
Lemma resolveNext_ok L st h l : core L st -> map_get h (fp_links st) = Some l ->
  (waiters_of h st <> [] -> forall s s', offers st l s -> offers st l s' -> s = s') ->
  let st' := resolveNextFederatedRequestStreamWaiter h st in advance L h st st' /\ served st' h.
Proof.
  intros H El Hone. unfold resolveNextFederatedRequestStreamWaiter.
  destruct (waiters_of h st) as [|w rest] eqn:Eq; [by split; [apply advance_refl|intros Hne; rewrite Eq in Hne]|].
  specialize (Hone ltac:(done)). cbn [put_waiters with_waiters fp_links]. rewrite El. pose proof (co_links _ _ H _ _ El) as [Sh _ _ _ _].
  assert (forall st', advance L h st st' -> (forall l' s, map_get h (fp_links st') = Some l' -> ~ offers st l' s) -> served st' h) as Hserved.
  { intros st' [_ Hs _ Hm _] Hno Hne. specialize (Hm h). rewrite El in Hm. destruct (map_get h (fp_links st')) as [l'|] eqn:E; [|done].
    exists l'. split; [done|]. intros s Ho. apply (Hno l' s); [done|by apply (offers_streams _ _ _ _ Hs)]. }
  assert (forall s l', offers st l s -> link_le l l' -> marked l' s -> forall l2 s2, link_le l' l2 -> ~ offers st l2 s2) as Hgone.
  { intros s l' Ho Hle Hm l2 s2 Hle2 Ho2. pose proof (link_le_offers _ _ _ _ Hle2 Ho2) as Ho'.
    rewrite (Hone s2 s) in Ho'; [by eapply marked_not_offered| |done]. by eapply link_le_offers. }
  assert (forall l' s, offers st l s -> link_le l l' -> marked l' s -> s ∉ fp_closed st ->
    advance L h st (resolve w s (set_link h l' (put_waiters h rest st))) /\ served (resolve w s (set_link h l' (put_waiters h rest st))) h) as Hgive.
  { intros l' s Ho Hle Hm Hc.
    destruct (give_head L st (set_link h l' (put_waiters h rest st)) h w rest l' s) as [Had Hres]; try done.
    - by eapply links_le_set.
    - cbn. by rewrite map_get_set, decide_True.
    - eapply fit_marked; try done. cbn. by rewrite map_get_set, decide_True.
    - split; [done|]. apply Hserved; [done|]. intros l2 s2 E2. eapply Hgone; try done.
      specialize (Hres h). cbn [set_link with_links fp_links] in Hres. rewrite map_get_set, decide_True, E2 in Hres by done. done. }
  destruct (il_requestPool l) as [p|] eqn:Ep, (il_requestStreams l) as [ss|] eqn:Es; try done.
  - pose proof (idle_stream_spec ss (il_requestBusyStreams l) (put_waiters h rest st)) as Hi.
    change (with_waiters (put_queue h rest (fp_waiters st)) st) with (put_waiters h rest st).
    destruct (idle_stream ss _ (put_waiters h rest st)) as [s|].
    + unfold mark_busy. apply Hgive.
      * unfold offers. by rewrite Ep, Es.
      * apply link_le_mark.
      * unfold marked. cbn. rewrite Ep, Es. intros _. destruct (il_requestBusyStreams l) as [bs|]; [|done]. exists (set_add s bs).
        split; [done|]. apply set_add_elem. by left.
      * apply Hi.
    + assert (advance L h st (with_waiters (map_set h (w :: rest) (put_queue h rest (fp_waiters st))) st)) as Had by by apply put_back_core.
      split; [exact Had|]. apply Hserved; [exact Had|]. intros l' s. cbn. rewrite El. intros [= <-]. unfold offers. rewrite Ep, Es.
      intros (H1 & H2 & H3 & H4). by eapply Hi.
  - destruct (il_requestStream l) as [s|] eqn:Er.
    + change (with_waiters (put_queue h rest (fp_waiters st)) st) with (put_waiters h rest st).
      destruct (is_closed (put_waiters h rest st) s || il_requestBusy l) eqn:Eb.
      * pose proof (fail_head L st h w rest (no_inbound_stream h) H Eq) as Had. split; [exact Had|]. apply Hserved; [exact Had|].
        intros l' s'. cbn. rewrite El. intros [= <-]. unfold offers. rewrite Ep, Er. intros ([= <-] & Hb & Hc).
        rewrite Hb, orb_false_r in Eb. by apply set_has_elem in Eb.
      * apply orb_false_iff in Eb as [Hc Hb]. assert (s ∉ fp_closed st) as Hc'.
        { intros Hin. by rewrite <- not_true_iff_false in Hc; apply Hc, set_has_elem. }
        apply Hgive; [unfold offers; by rewrite Ep| |unfold marked; cbn; by rewrite Ep|done]. by apply link_le_busy.
    + pose proof (fail_head L st h w rest (no_inbound_stream h) H Eq) as Had. split; [exact Had|]. apply Hserved; [exact Had|].
      intros l' s'. cbn. rewrite El. intros [= <-]. unfold offers. rewrite Ep, Er. naive_solver.
Qed.

(** ** Failing the waiters of a host *)
Definition failures (e : exn) (ws : list FederatedRequestStreamWaiter) : list (nat * acquired) := map (fun w => (fw_id w, aq_failed e)) ws.
Lemma failures_handed e ws : handed (failures e ws) = [].
Proof. by induction ws. Qed.
Lemma failures_ids e ws : (failures e ws).*1 = wids ws.
Proof. induction ws; [done|]. cbn. by f_equal. Qed.
Lemma fail_waiter_fold e ws st : NoDup (wids ws) -> (forall w, w ∈ ws -> is_settled (fw_id w) st = false) ->
  fold_left (fail_waiter e) ws st =
  with_acquisitions (filter (fun t => t ∉ wids ws) (fp_timers st)) (filter (fun t => t ∉ wids ws) (fp_listening st)) (fp_settled st ++ failures e ws) (fp_next st) st.
Proof.
  revert st. induction ws as [|w ws IH]; intros st Hn Hs; cbn [fold_left].
  - cbn. rewrite !filter_all_in, app_nil_r by (intros; apply not_elem_of_nil). by destruct st.
  - cbn [WaitQueue.ids map] in Hn. apply NoDup_cons in Hn as [Hw Hn]. unfold fail_waiter at 2. rewrite Hs by (by left). rewrite IH; [|done|].
    + unfold settle, with_acquisitions. cbn. f_equal.
      1,2: rewrite list_filter_filter; apply list_filter_iff; intros x; rewrite not_elem_of_cons; tauto.
      by rewrite <- app_assoc.
    + intros x Hx. pose proof (Hs x ltac:(by right)) as Hxs. unfold is_settled in *. apply bool_decide_eq_false in Hxs. apply bool_decide_eq_false.
      cbn. rewrite fmap_app, elem_of_app. intros [Hin|Hin]; [done|]. apply list_elem_of_singleton in Hin. cbn in Hin.
      apply Hw. rewrite <- Hin. by apply list_elem_of_fmap_2.
Qed.
Lemma failWaiters_closed L st h message : core L st ->
  failFederatedRequestStreamWaiters h message st =
  with_acquisitions (filter (fun t => t ∉ wids (waiters_of h st)) (fp_timers st)) (filter (fun t => t ∉ wids (waiters_of h st)) (fp_listening st))
    (fp_settled st ++ failures (unavailable message h None) (waiters_of h st)) (fp_next st) (with_waiters (map_delete h (fp_waiters st)) st).
Proof.
  intros H. unfold failFederatedRequestStreamWaiters. rewrite fail_waiter_fold; [done|apply (queue_ids_NoDup (co_queue _ _ H))|]. intros w Hw. by destruct (waiter_in_queue _ _ _ _ H Hw).
Qed.
Lemma failWaiters_ok L st h message : core L st ->
  advance L h st (failFederatedRequestStreamWaiters h message st) /\ waiters_of h (failFederatedRequestStreamWaiters h message st) = [].
Proof.
  intros H. rewrite (failWaiters_closed _ _ _ _ H).
  assert (forall h', waiters_of h' (with_waiters (map_delete h (fp_waiters st)) st) = if decide (h' = h) then [] else waiters_of h' st) as Hw.
  { intros h'. unfold waiters_of at 1. cbn [with_waiters fp_waiters]. rewrite map_get_delete. by destruct (decide (h' = h)). }
  split; [|by specialize (Hw h); rewrite decide_True in Hw by done].
  split; try done; [|apply links_le_refl|by intros h' Hne; specialize (Hw h'); rewrite decide_False in Hw by done].
  apply (core_next L st _ (failures (unavailable message h None) (waiters_of h st))); try done.
  - cbn [with_acquisitions with_waiters fp_waiters fp_timers fp_settled fp_next]. pose proof (co_queue _ _ H) as Hq.
    destruct (map_get h (fp_waiters st)) as [l|] eqn:Eg.
    + assert (waiters_of h st = l) as -> by (unfold waiters_of; by rewrite Eg). apply (queue_drop Hq h l); [done|apply failures_ids].
    + assert (waiters_of h st = []) as -> by (unfold waiters_of; by rewrite Eg).
      rewrite map_delete_id, filter_all_in by (done || (intros; apply not_elem_of_nil)). cbn. by rewrite app_nil_r.
  - intros id. cbn. rewrite !list_elem_of_filter. intros [? Hin]. split; [done|]. by apply (co_listening _ _ H).
  - apply links_le_refl.
  - intros h'. specialize (Hw h'). change (waiters_of h' (with_acquisitions _ _ _ _ ?s)) with (waiters_of h' s). rewrite Hw.
    unfold len. destruct (decide (h' = h)); cbn [pooled_waiting List.filter length]; lia.
  - left. apply failures_handed.
Qed.

(** A host that nobody is served by goes. *)
Lemma core_delete L st h : core L st -> core L (with_links (map_delete h (fp_links st)) st).
Proof.
  intros [Hq Hl Hk Hlk Hn Hkn Hu Hb]. split; try done; cbn [with_links fp_links fp_settled].
  - intros h' l. rewrite map_get_delete. destruct (decide (h' = h)); [done|]. apply Hlk.
  - intros h' l s. rewrite map_get_delete. destruct (decide (h' = h)); [done|]. apply Hu.
  - intros h' l. rewrite map_get_delete. destruct (decide (h' = h)); [done|]. apply Hb.
Qed.
Lemma served_empty st h : waiters_of h st = [] -> served st h.
Proof. intros E Hne. by rewrite E in Hne. Qed.
Lemma advance_pool L st st' h : fp_listeners st = L -> (forall h', h' <> h -> served st h') -> advance L h st st' -> served st' h -> pool_ok st'.
Proof.
  intros EL Hs Had Hh. split.
  - rewrite (ss_listeners _ _ (ad_streams _ _ _ _ Had)), EL. apply Had.
  - intros h'. destruct (decide (h' = h)) as [->|Hne]; [done|]. by eapply advance_served, Hs.
Qed.
Lemma failWaiters_pool st h message : pool_ok st -> pool_ok (failFederatedRequestStreamWaiters h message st).
Proof.
  intros [H Hs]. destruct (failWaiters_ok _ _ h message H) as [Had Hw]. apply (advance_pool (fp_listeners st) st _ h); try done. by apply served_empty.
Qed.
Lemma failAll_pool st message : pool_ok st -> pool_ok (failAllFederatedRequestStreamWaiters message st).
Proof.
  unfold failAllFederatedRequestStreamWaiters. generalize (map_keys (fp_waiters st)). intros ks. revert st.
  induction ks as [|k ks IH]; intros st H; [done|]. by apply IH, failWaiters_pool.
Qed.
Lemma remove_link_pool st h : pool_ok st -> pool_ok (remove_link h st).
Proof.
  intros [H Hs]. unfold remove_link. destruct (map_has h (fp_links st)); [|done].
  pose proof (core_delete _ _ h H) as Hd. destruct (failWaiters_ok _ _ h "Federated Host disconnected" Hd) as [Had Hw].
  apply (advance_pool (fp_listeners st) (with_links (map_delete h (fp_links st)) st) _ h); try done; [|by apply served_empty].
  intros h' Hne Hx. destruct (Hs h' Hx) as (l & E & Ho). exists l. split; [|done]. cbn. by rewrite map_get_delete, decide_False.
Qed.

(** ** Acquisitions *)
Lemma settle_new_ok st st' o : pool_ok st ->
  fp_timers st' = fp_timers st -> fp_listening st' = fp_listening st -> fp_settled st' = fp_settled st -> fp_next st' = S (fp_next st) ->
  fp_nextStream st' = fp_nextStream st -> same_streams st st' ->
  queues_ok (fp_waiters st') (fp_timers st) (fp_settled st) (fp_next st) -> (forall h, waiters_of h st' = waiters_of h st) ->
  links_le (fp_links st) (fp_links st') -> fit (fp_listeners st) (fp_links st') (handed (fp_settled st)) o ->
  pool_ok (settle (fp_next st) o st').
Proof.
  intros [H Hs] Et El Es En Ens Hss Hq Hw Hm Hf. split.
  - cbn [settle with_acquisitions fp_listeners]. rewrite (ss_listeners _ _ Hss).
    apply (core_next (fp_listeners st) st _ [(fp_next st, o)]); cbn [settle with_acquisitions fp_waiters fp_timers fp_listening fp_settled fp_next fp_nextStream fp_links];
      try congruence; try done.
    + rewrite Et, Es, En. by apply queue_settle_new.
    + intros id. rewrite El, Et, !list_elem_of_filter. intros [? Hin]. split; [done|]. by apply (co_listening _ _ H).
    + intros h. change (waiters_of h (settle _ _ st')) with (waiters_of h st'). rewrite Hw. lia.
    + right. by exists (fp_next st), o.
  - intros h. apply (served_le st); try done; [by split; apply Hss|]. change (waiters_of h (settle _ _ st')) with (waiters_of h st'). by rewrite Hw.
Qed.
Lemma settle_new_pool st o : pool_ok st -> (forall s, o <> aq_stream s) -> pool_ok (settle (fp_next st) o (new_acquisition st)).
Proof.
  intros H Ho. apply settle_new_ok; try done; [apply (co_queue _ _ (proj1 H))|apply links_le_refl|]. by destruct o; [destruct (Ho stream)|..].
Qed.
Lemma give_new_pool st h l l' s : pool_ok st -> map_get h (fp_links st) = Some l -> offers st l s -> link_le l l' -> marked l' s ->
  pool_ok (settle (fp_next st) (aq_stream s) (set_link h l' (new_acquisition st))).
Proof.
  intros H E Ho Hle Hm. apply settle_new_ok; try done; [apply (co_queue _ _ (proj1 H))|by eapply links_le_set|].
  eapply fit_marked; [apply H|exact E|done|exact Hle|done|]. cbn. by rewrite map_get_set, decide_True.
Qed.
Lemma enqueue_ok st w b l : pool_ok st -> fw_id w = fp_next st -> map_get (fw_hostId w) (fp_links st) = Some l ->
  (forall s, ~ offers st l s) -> (fw_pooled w = true -> len (waiters_of (fw_hostId w) st) < queue_bound l) ->
  pool_ok (enqueue w b (new_acquisition st)).
Proof.
  intros [H Hs] Hid El Hno Hb.
  assert (forall h, waiters_of h (enqueue w b (new_acquisition st)) = if decide (h = fw_hostId w) then waiters_of (fw_hostId w) st ++ [w] else waiters_of h st) as Hw.
  { intros h. unfold waiters_of at 1. cbn. rewrite map_get_set. by destruct (decide (h = fw_hostId w)). }
  split.
  - apply (core_next (fp_listeners st) st _ []); try done.
    + cbn. rewrite Hid. by apply (queue_push (co_queue _ _ H)).
    + intros id. cbn. rewrite !elem_of_app. intros [Hin|Hin]; [left; by apply (co_listening _ _ H)|]. right. by destruct b; [|apply elem_of_nil in Hin].
    + apply links_le_refl.
    + cbn. by rewrite app_nil_r.
    + intros h. rewrite Hw. destruct (decide (h = fw_hostId w)) as [->|]; [|lia]. rewrite El. unfold pooled_waiting. rewrite List.filter_app. cbn.
      unfold len in *. rewrite length_app. destruct (fw_pooled w) eqn:Ep; cbn [length]; [|lia]. specialize (Hb eq_refl).
      pose proof (List.filter_length_le fw_pooled (waiters_of (fw_hostId w) st)). lia.
    + by left.
  - intros h. unfold served. rewrite Hw. destruct (decide (h = fw_hostId w)) as [->|Hne]; [|apply Hs]. intros _. by exists l.
Qed.

Lemma fail_new_pool st w e : pool_ok st -> fw_id w = fp_next st -> pool_ok (fail w e (new_acquisition st)).
Proof.
  intros Hok Hid. pose proof (co_queue _ _ (proj1 Hok)) as Hq. pose proof (queue_fresh Hq) as Hf. rewrite elem_of_app in Hf. unfold fail.
  assert (is_settled (fw_id w) (new_acquisition st) = false) as ->.
  { apply bool_decide_eq_false. rewrite Hid. cbn. tauto. }
  assert (filter (fun c => fw_id c <> fw_id w) (waiters_of (fw_hostId w) st) = waiters_of (fw_hostId w) st) as Hfl.
  { apply filter_all_in. intros x Hx E. apply Hf. left. rewrite <- Hid, <- E. unfold map_items.
    assert (map_get (fw_hostId w) (fp_waiters st) = Some (waiters_of (fw_hostId w) st)) as Eg.
    { apply waiters_get. intros En. rewrite En in Hx. by apply elem_of_nil in Hx. }
    apply list_elem_of_In, in_concat. exists (wids (waiters_of (fw_hostId w) st)). split.
    - apply in_map_iff. exists (fw_hostId w, waiters_of (fw_hostId w) st). split; [done|]. by apply list_elem_of_In, map_get_elem.
    - apply list_elem_of_In. by apply list_elem_of_fmap_2. }
  assert (remove w (new_acquisition st) = put_waiters (fw_hostId w) (waiters_of (fw_hostId w) st) (new_acquisition st)) as ->.
  { unfold remove. change (waiters_of (fw_hostId w) (new_acquisition st)) with (waiters_of (fw_hostId w) st). by rewrite Hfl. }
  rewrite Hid. apply settle_new_ok; try done; [by apply queue_put_same| |apply links_le_refl].
  intros h. rewrite waiters_put. by destruct (decide (h = fw_hostId w)) as [->|].
Qed.

Section PoolTheory.
Context {P : Platform} (federationHostId : result exn jsstring).

(** Every acquisition keeps the pool in order. *)
Lemma acquire_pool h timeoutMs signal st : pool_ok st -> pool_ok (acquireFederatedRequestStream federationHostId h timeoutMs signal st).
Proof using Type.
  intros H. unfold acquireFederatedRequestStream.
  change (fp_links (new_acquisition st)) with (fp_links st). change (fp_upstreams (new_acquisition st)) with (fp_upstreams st).
  change (waiters_of h (new_acquisition st)) with (waiters_of h st).
  assert (forall id, pool_ok (settle (fp_next st) (match federationHostId with Ok _ => aq_dispatch id | Throw e => aq_failed e end) (new_acquisition st))) as Hup
    by (intros id; destruct federationHostId; by apply settle_new_pool).
  destruct (map_get h (fp_links st)) as [l|] eqn:El; cbn [mbind option_bind]; [|destruct (head _) as [[k u]|]; [done|by apply settle_new_pool]].
  pose proof (co_links _ _ (proj1 H) _ _ El) as [Sh _ _ _ _].
  destruct (il_requestPool l) as [p|] eqn:Ep; cbn [mbind option_bind].
  - destruct (il_requestStreams l) as [ss|] eqn:Es; [|done]. destruct (il_requestBusyStreams l) as [bs|] eqn:Eb; [|done]. cbn [mbind option_bind].
    rewrite Eb. pose proof (idle_stream_spec ss (Some bs) (new_acquisition st)) as Hi. destruct (idle_stream ss (Some bs) (new_acquisition st)) as [s|].
    + unfold mark_busy. apply (give_new_pool st h l); [done|done| |apply link_le_mark|].
      * unfold offers. by rewrite Ep, Es, Eb.
      * unfold marked. cbn. rewrite Ep, Es, Eb. intros _. exists (set_add s bs). split; [done|]. apply set_add_elem. by left.
    + destruct (Z.leb_spec (up_maxQueuedAcquires p) (len (waiters_of h st))) as [|Hlt]; [by apply settle_new_pool|].
      assert (forall b, pool_ok (enqueue {| fw_id := fp_next st; fw_hostId := h; fw_pooled := true; fw_timeoutMs := timeout_of p timeoutMs |} b (new_acquisition st))) as He.
      { intros b. apply (enqueue_ok st _ b l); try done; cbn [fw_hostId].
        - intros s. unfold offers. rewrite Ep, Es, Eb. intros (H1 & H2 & H3 & H4). by apply (Hi s).
        - intros _. unfold queue_bound. by rewrite Ep. }
      destruct signal; [done..|]. by apply fail_new_pool.
  - destruct (il_requestStream l) as [s|] eqn:Er; cbn [mbind option_bind];
      [destruct (is_closed (new_acquisition st) s || il_requestBusy l) eqn:Eb|].
    2: { apply orb_false_iff in Eb as [Hc Hb]. apply (give_new_pool st h l); [done|done| |by apply link_le_busy|unfold marked; cbn; by rewrite Ep].
      unfold offers. rewrite Ep, <- not_true_iff_false in *. split; [done|]. split; [by destruct (il_requestBusy l)|]. intros Hin. by apply Hc, set_has_elem. }
    all: destruct (head _) as [[k u]|]; [done|]; apply (enqueue_ok st _ false l); try done; intros s'; unfold offers; rewrite Ep, Er;
      intros (E & Hb & Hc); try done. injection E as <-. rewrite Hb, orb_false_r in Eb. by apply set_has_elem in Eb.
Qed.

(** ** Streams of a host *)
Lemma core_streams L st closed destroyed listeners next : core L st -> (fp_nextStream st <= next)%nat ->
  core L (with_streams closed destroyed listeners next st).
Proof using Type.
  intros [Hq Hl Hk Hlk Hn Hkn Hu Hb] Hle. split; try done.
  - intros s p E. specialize (Hk s p E). cbn. lia.
  - intros s Hin. specialize (Hkn s Hin). cbn. lia.
Qed.
Lemma pool_field_nonneg v name d z : pool_field v name d = Ok z -> 0 <= z.
Proof using Type.
  unfold pool_field. destruct (js_member _ v) as [w|]; [|done]. destruct (nullish w _) as [| | |n| | |]; try done. destruct n; try done.
  destruct (Z.ltb_spec z0 0); [done|]. by intros [= <-].
Qed.
Lemma validated_pool v p : validateUpstreamPool v = Ok p -> v <> JUndef -> exists q, p = Some q /\ 0 <= up_maxQueuedAcquires q.
Proof using Type.
  intros E Hv. unfold validateUpstreamPool in E. destruct v; [done|..].
  all: destruct (pool_field _ "minWaitingStreams" _) as [mn|]; [|done]; cbn [mbind result_bind] in E.
  all: destruct (pool_field _ "maxOpenStreams" _) as [mx|]; [|done]; cbn [mbind result_bind] in E.
  all: destruct (pool_field _ "leaseAcquireTimeoutMs" _) as [tm|]; [|done]; cbn [mbind result_bind] in E.
  all: destruct (pool_field _ "maxQueuedAcquires" _) as [qd|] eqn:Eq; [|done]; cbn [mbind result_bind] in E.
  all: apply pool_field_nonneg in Eq; destruct (mx <? mn), (mx =? 0); cbn in E; try done; injection E as <-; by eexists.
Qed.
Lemma pool_text_inj p q : pool_safe p = true -> pool_safe q = true -> json_text (pool_json p) = json_text (pool_json q) -> p = q.
Proof using Type.
  intros Hp Hq E.
  assert (forall x, pool_safe x = true -> json_parse (json_text (pool_json x)) = Some (pool_json x)) as Hrt.
  { intros x Hx. apply json_parse_text. unfold pool_safe in Hx. cbn [forallb] in Hx. unfold safe_number in Hx.
    cbn [json_plain pool_json forallb map fst snd fmap list_fmap]. unfold is_safe_integer.
    assert (forall z, 0 <= z -> z <= max_safe -> (Z.abs z <=? max_safe) = true) as Hz by (intros; apply Z.leb_le; lia).
    rewrite !Hz by lia. vm_compute. reflexivity. }
  pose proof (eq_trans (eq_sym (Hrt p Hp)) (eq_trans (f_equal json_parse E) (Hrt q Hq))) as H.
  apply (f_equal (fun o => match o with
    | Some (JObj [(_, JNum (num_int a)); (_, JNum (num_int b)); (_, JNum (num_int c)); (_, JNum (num_int d))]) => Some (a, b, c, d)
    | _ => None
    end)) in H. cbn [pool_json] in H. injection H as E1 E2 E3 E4. clear - E1 E2 E3 E4. destruct p, q; cbn in *; congruence.
Qed.

(** A new stream [s] of the host [h], whose link is now [l']. *)
Lemma attach_ok st h l l' b s : pool_ok st -> s = fp_nextStream st -> map_get h (fp_links st) = Some l ->
  link_ok (fp_listeners st ++ [(s, (h, b))]) h l' -> (forall s', s' <> s -> marked l s' -> marked l' s') ->
  (forall s', offers st l' s' -> s' = s \/ offers st l s') -> queue_bound l <= queue_bound l' ->
  pool_ok (listen s h b (resolveNextFederatedRequestStreamWaiter h (respond s (set_link h l'
    (with_streams (fp_closed st) (fp_destroyed st) (fp_listeners st) (S s) st))))).
Proof using Type.
  intros [[Hq Hli Hk Hlk Hn Hkn Hu Hb] Hs] -> El Hl' Hm Ho Hbd. set (s := fp_nextStream st) in *.
  set (st1 := respond s (set_link h l' (with_streams (fp_closed st) (fp_destroyed st) (fp_listeners st) (S s) st))).
  assert (map_get s (fp_listeners st) = None) as Hfr.
  { destruct (map_get s (fp_listeners st)) as [p|] eqn:E; [|done]. specialize (Hk s p E). unfold s in Hk. lia. }
  set (L := fp_listeners st ++ [(s, (h, b))]) in *.
  assert (forall s', map_get s' L = if decide (s' = s) then Some (h, b) else map_get s' (fp_listeners st)) as HL.
  { intros s'. unfold L. by rewrite <- map_set_append, map_get_set. }
  assert (core L st1) as Hc.
  { split; try done.
    - intros s' p E. rewrite HL in E. destruct (decide (s' = s)) as [->|]; cbn; [lia|]. specialize (Hk _ _ E). unfold s. lia.
    - intros h' l2. cbn. rewrite map_get_set. destruct (decide (h' = h)) as [->|Hne]; [by intros [= <-]|]. intros E.
      destruct (Hlk _ _ E) as [Sh St Rq Sl Sp]. split; try done.
      + intros ss x Es Hx. rewrite HL. destruct (decide (x = s)) as [->|]; [|by eapply St]. specialize (St ss s Es Hx). congruence.
      + intros x Hx. rewrite HL. destruct (decide (x = s)) as [->|]; [|by apply Rq]. specialize (Rq s Hx). congruence.
      + intros Hp x. rewrite HL. destruct (decide (x = s)) as [->|]; [congruence|]. by apply Sl.
    - intros x Hx. specialize (Hkn x Hx). cbn. unfold s. lia.
    - intros h' l2 x. cbn. rewrite map_get_set. destruct (decide (h' = h)) as [->|Hne]; [|by apply Hu]. intros [= <-] Hx. apply Hm.
      + specialize (Hkn x Hx). unfold s. lia.
      + by apply (Hu h).
    - intros h' l2. cbn. rewrite map_get_set. destruct (decide (h' = h)) as [->|Hne]; [|by apply Hb]. intros [= <-].
      change (len (pooled_waiting (waiters_of h st)) <= queue_bound l'). specialize (Hb h l El). lia. }
  assert (map_get h (fp_links st1) = Some l') as El1 by (cbn; by rewrite map_get_set, decide_True).
  destruct (resolveNext_ok L st1 h l' Hc El1) as [Had Hsv].
  { intros Hne s1 s2 H1 H2. destruct (Hs h Hne) as (l2 & E2 & Hno). rewrite El in E2. injection E2 as <-.
    destruct (Ho s1 H1) as [->|Hx]; [|by destruct (Hno s1)]. destruct (Ho s2 H2) as [->|Hx]; [done|by destruct (Hno s2)]. }
  assert (forall h', h' <> h -> served st1 h') as Hoth.
  { intros h' Hne Hw. destruct (Hs h' Hw) as (l2 & E2 & Hno). exists l2. split; [|done]. cbn. by rewrite map_get_set, decide_False. }
  fold st1. set (st2 := resolveNextFederatedRequestStreamWaiter h st1) in *.
  assert (fp_listeners (listen s h b st2) = L) as EL by (cbn; by rewrite (ss_listeners _ _ (ad_streams _ _ _ _ Had))).
  split; [rewrite EL; by apply core_streams; [apply Had|]|].
  intros h'. destruct (decide (h' = h)) as [->|Hne]; [apply Hsv|]. by apply (advance_served _ _ _ _ _ Had Hne), Hoth.
Qed.

(** Streams that close, and streams that no host has. *)
Lemma streams_pool st closed destroyed next : pool_ok st -> (forall s, s ∈ fp_closed st -> s ∈ closed) ->
  (forall s, s ∈ fp_destroyed st -> s ∈ destroyed) -> (fp_nextStream st <= next)%nat ->
  pool_ok (with_streams closed destroyed (fp_listeners st) next st).
Proof using Type.
  intros [H Hs] Hc Hd Hn. split; [by apply core_streams|]. intros h Hw. destruct (Hs h Hw) as (l & E & Ho). exists l. split; [done|].
  intros s Hx. apply (Ho s). unfold offers in *. cbn [with_streams fp_closed fp_destroyed] in Hx.
  destruct (il_requestPool l), (il_requestStreams l); naive_solver.
Qed.

(** The policy a header names. *)
Definition policy_safe (policyHeader : option jsstring) : bool :=
  match policyHeader with
  | Some text => match (match json_parse text with Some v => validateUpstreamPool v | None => Ok None end) with Ok (Some p) => pool_safe p | _ => true end
  | None => true
  end.
(** A link keeps its policy; only a host without one gets one. *)
Lemma stream_policy_ok link header p L h : policy_safe header = true -> link_ok L h link -> (header <> None \/ il_requestPool link <> None) ->
  stream_policy link header = Ok p -> exists q, p = Some q /\ pool_safe q = true /\ (forall q', il_requestPool link = Some q' -> q' = q).
Proof using Type.
  intros Hsafe [_ _ _ _ Sp] Hany. unfold stream_policy. destruct header as [text|].
  - unfold policy_safe in Hsafe. destruct (json_parse text) as [v|] eqn:Ev; [|done]. destruct (validateUpstreamPool v) as [r|] eqn:Er; [|done].
    destruct (validated_pool v r Er (json_parse_defined _ _ Ev)) as (q & -> & _). cbn [mbind result_bind].
    destruct (il_requestPool link) as [q'|] eqn:Ep; [|by intros [= <-]; exists q].
    destruct (decide (json_text (pool_json q') = json_text (pool_json q))) as [Et|Et].
    + destruct (throw_if _ _) as [[]|]; [|done]. intros [= <-]. exists q. split; [done|]. split; [done|]. intros q2 [= <-].
      apply pool_text_inj; [by apply Sp|done|done].
    + rewrite bool_decide_eq_false_2; [by cbn|]. intros E. exact (Et (f_equal (default []) E)).
  - destruct Hany as [|Hp]; [done|]. intros [= <-]. destruct (il_requestPool link) as [q|]; [|done]. exists q. split; [done|].
    split; [by apply Sp|]. by intros q' [= <-].
Qed.

Lemma stream_pool st session h header : pool_ok st -> policy_safe header = true ->
  pool_ok (pool_step federationHostId st (fe_stream session h header)).
Proof using Type.
  intros H Hsafe. cbn [pool_step]. set (s := fp_nextStream st). set (st0 := with_streams _ _ _ (S s) st).
  assert (pool_ok st0) as H0 by (apply streams_pool; auto).
  unfold handleHostFederationRequestStream. change (fp_links st0) with (fp_links st). set (hostId := trim h).
  destruct (map_get hostId (fp_links st)) as [l|] eqn:El; [|done]. destruct (_ || _); [done|].
  pose proof (co_links _ _ (proj1 H) _ _ El) as Hl. assert (Hl' := Hl). destruct Hl' as [Sh St Rq Sl Sp].
  assert (map_get s (fp_listeners st) = None) as Hfr.
  { destruct (map_get s (fp_listeners st)) as [p|] eqn:E; [|done]. pose proof (co_keys _ _ (proj1 H) s p E). unfold s in *. lia. }
  assert (forall b s', map_get s' (fp_listeners st ++ [(s, (hostId, b))]) = if decide (s' = s) then Some (hostId, b) else map_get s' (fp_listeners st)) as HL.
  { intros b s'. by rewrite <- map_set_append, map_get_set. }
  assert (header <> None \/ il_requestPool l <> None -> pool_ok (match stream_policy l header with
    | Throw e => (Throw e, st0)
    | Ok requestPool =>
        let requestStreams := match requestPool with None => il_requestStreams l | Some _ => Some (default [] (il_requestStreams l)) end in
        let requestBusyStreams := match requestPool with None => il_requestBusyStreams l | Some _ => Some (default [] (il_requestBusyStreams l)) end in
        let link := with_pool requestPool (with_sets (set_add s <$> requestStreams) requestBusyStreams (with_request (Some s) false l)) in
        (Ok tt, listen s hostId true (resolveNextFederatedRequestStreamWaiter hostId (respond s (set_link hostId link st0))))
    end).2) as Hpolicy.
  { intros Hany. destruct (stream_policy l header) as [p|] eqn:Ep; [|done].
    destruct (stream_policy_ok l header p _ _ Hsafe Hl Hany Ep) as (q & -> & Hq & Hsame). cbn [snd].
    assert (queue_bound l <= up_maxQueuedAcquires q) as Hbd.
    { unfold queue_bound. destruct (il_requestPool l) as [q'|] eqn:Eq; [by rewrite (Hsame q' eq_refl)|]. unfold pool_safe, safe_number in Hq. cbn in Hq. lia. }
    assert (forall x, x ∈ set_add s (default [] (il_requestStreams l)) -> map_get x (fp_listeners st ++ [(s, (hostId, true))]) = Some (hostId, true)) as Hin.
    { intros x [->|Hx]%set_add_elem; rewrite HL; [by rewrite decide_True|]. destruct (decide (x = s)); [done|].
      destruct (il_requestStreams l) as [ss|]; [by eapply St|by apply elem_of_nil in Hx]. }
    apply (attach_ok st hostId l); try done.
    - split; cbn; try done.
      + intros ss x [= <-]. apply Hin.
      + intros x [= <-]. rewrite HL, decide_True by done. done.
      + by intros q2 [= <-].
    - intros x Hx Hm. unfold marked in *. cbn. intros [->|Hin']%set_add_elem; [done|].
      destruct (il_requestPool l) as [q'|], (il_requestStreams l) as [ss|], (il_requestBusyStreams l) as [bs|]; try done;
        try (by apply elem_of_nil in Hin'). by apply Hm.
    - intros x. unfold offers. cbn. intros ([->|Hin']%set_add_elem & Hb & Ho); [by left|]. right.
      destruct (il_requestPool l) as [q'|], (il_requestStreams l) as [ss|], (il_requestBusyStreams l) as [bs|]; try done;
        try (by apply elem_of_nil in Hin'). }
  destruct header as [text|], (il_requestPool l) as [q|] eqn:Eq; try (apply Hpolicy; by (left + right)).
  cbn [snd]. destruct (il_requestStreams l) eqn:Es, (il_requestBusyStreams l) eqn:Eb; try done.
  apply (attach_ok st hostId l); try done.
  - split; unfold pooled; cbn; rewrite ?Eq, ?Es, ?Eb; try done.
    + intros x [= <-]. rewrite HL, decide_True by done. done.
    + intros _ x. rewrite HL. destruct (decide (x = s)); [done|]. apply Sl. unfold pooled. by rewrite Eq.
  - intros x Hx _. unfold marked. cbn. rewrite Eq. by intros [= <-].
  - intros x. unfold offers. cbn. rewrite Eq. intros ([= <-] & _). by left.
Qed.

(** The 'close' listener of [s] ran and is gone. *)
Lemma link_forget L s h l : link_ok L h l -> (forall ss, il_requestStreams l = Some ss -> s ∉ ss) ->
  il_requestStream l <> Some s -> link_ok (map_delete s L) h l.
Proof using Type.
  intros [Sh St Rq Sl Sp] Hss Hrq. split; try done.
  - intros ss x E Hx. rewrite map_get_delete, decide_False; [by eapply St|]. intros ->. by apply (Hss ss).
  - intros x E. rewrite map_get_delete, decide_False; [by apply Rq|]. by intros ->.
  - intros Hp x. rewrite map_get_delete. destruct (decide (x = s)); [done|]. by apply Sl.
Qed.
Lemma forget_core L st s : core L st ->
  (forall h l, map_get h (fp_links st) = Some l -> (forall ss, il_requestStreams l = Some ss -> s ∉ ss) /\ il_requestStream l <> Some s) ->
  core (map_delete s L) st.
Proof using Type.
  intros [Hq Hli Hk Hlk Hn Hkn Hu Hb] Hf. split; try done.
  - intros x p. rewrite map_get_delete. destruct (decide (x = s)); [done|]. apply Hk.
  - intros h l E. destruct (Hf h l E) as [H1 H2]. apply link_forget; auto.
Qed.
(** The link of [h] is stored anew. *)
Lemma update_core L L' st h l l' : core L st -> map_get h (fp_links st) = Some l ->
  (forall s p, map_get s L' = Some p -> (s < fp_nextStream st)%nat) ->
  (forall h' k, h' <> h -> map_get h' (fp_links st) = Some k -> link_ok L' h' k) -> link_ok L' h l' ->
  (forall s, marked l s -> marked l' s) -> queue_bound l <= queue_bound l' -> core L' (set_link h l' st).
Proof using Type.
  intros [Hq Hli Hk Hlk Hn Hkn Hu Hb] El Hk' Ho Hl' Hm Hbd.
  assert (forall h' k, map_get h' (map_set h l' (fp_links st)) = Some k -> h' = h /\ k = l' \/ h' <> h /\ map_get h' (fp_links st) = Some k) as Hset.
  { intros h' k. rewrite map_get_set. destruct (decide (h' = h)); intros E; [left; split; congruence|by right]. }
  split; try done; intros h' k.
  - intros [[-> ->]|[Hne E]]%Hset; [done|by apply Ho].
  - intros x [[-> ->]|[Hne E]]%Hset Hx; [by apply Hm, (Hu h)|by apply (Hu h')].
  - change (waiters_of h' (set_link h l' st)) with (waiters_of h' st). intros [[-> ->]|[Hne E]]%Hset; [|by apply Hb].
    specialize (Hb h l El). lia.
Qed.
Lemma closed_pool st s : pool_ok st -> pool_ok (pool_step federationHostId st (fe_closed s)).
Proof using Type.
  intros H. cbn [pool_step]. set (st0 := with_streams (set_add s (fp_closed st)) (fp_destroyed st) (fp_listeners st) (fp_nextStream st) st).
  assert (pool_ok st0) as H0 by (apply streams_pool; auto; intros x Hx; apply set_add_elem; by right).
  change (fp_listeners st0) with (fp_listeners st). set (L := fp_listeners st).
  destruct (map_get s L) as [[h b]|] eqn:Es; [|done]. set (st1 := with_streams _ _ (map_delete s L) _ st0).
  destruct H0 as [Hc Hs]. change (fp_listeners st0) with L in Hc.
  assert (core L st1) as Hc1 by (by apply core_streams). assert (forall h', served st1 h') as Hs1 by exact Hs.
  assert (forall h' k, map_get h' (fp_links st1) = Some k -> link_ok L h' k) as Hlk by apply Hc1.
  assert (forall h' k, h' <> h -> map_get h' (fp_links st1) = Some k -> (forall ss, il_requestStreams k = Some ss -> s ∉ ss) /\ il_requestStream k <> Some s) as Hoth.
  { intros h' k Hne E. destruct (Hlk _ _ E) as [_ St Rq _ _]. split.
    - intros ss Ess Hin. specialize (St ss s Ess Hin). congruence.
    - intros Er. specialize (Rq s Er). congruence. }
  assert (forall x p, map_get x (map_delete s L) = Some p -> (x < fp_nextStream st1)%nat) as Hkeys.
  { intros x p. rewrite map_get_delete. destruct (decide (x = s)); [done|]. apply Hc1. }
  unfold request_stream_closed. change (map_get h (fp_links st1)) with (map_get h (fp_links st)).
  destruct (map_get h (fp_links st)) as [l|] eqn:El.
  2: { split; [|done]. apply forget_core; [done|]. intros h' k E. apply (Hoth h'); [|done]. intros ->. cbn in E. congruence. }
  pose proof (Hlk h l El) as Hl. assert (Hl2 := Hl). destruct Hl2 as [Sh St Rq Sl Sp].
  assert (forall l', link_ok (map_delete s L) h l' -> (forall x, marked l x -> marked l' x) -> queue_bound l <= queue_bound l' ->
    core (map_delete s L) (set_link h l' st1)) as Hup.
  { intros l' H1 H2 H3. apply (update_core L _ st1 h l); try done. intros h' k Hne E. destruct (Hoth h' k Hne E). by apply link_forget; auto. }
  assert (forall l', (forall x, offers st1 l' x -> offers st1 l x) -> forall h', served (set_link h l' st1) h') as Hserved.
  { intros l' Hsub h' Hw. destruct (Hs1 h' Hw) as (k & E & Hno). cbn [set_link with_links fp_links]. rewrite map_get_set.
    destruct (decide (h' = h)) as [->|]; [|by exists k]. exists l'. split; [done|]. intros x Hx. apply (Hno x).
    assert (k = l) as -> by (change (fp_links st1) with (fp_links st) in E; congruence). by apply Hsub. }
  destruct b.
  - assert (exists p, il_requestPool l = Some p) as [p Ep].
    { destruct (il_requestPool l) as [p|] eqn:Ep; [by exists p|]. destruct (Sl ltac:(unfold pooled; by rewrite Ep) s Es). }
    rewrite Ep in Sh. destruct (il_requestStreams l) as [ss|] eqn:Ess, (il_requestBusyStreams l) as [bs|] eqn:Eb; try done.
    match goal with |- pool_ok (resolveNextFederatedRequestStreamWaiter h (set_link h ?l2 st1)) => set (l' := l2) end.
    assert (core (map_delete s L) (set_link h l' st1)) as Hc2.
    { apply Hup.
      - split; unfold pooled; cbn; rewrite ?Ep, ?Ess, ?Eb; try done.
        + intros ss' x [= <-] [Hx Hin]%list_elem_of_filter. rewrite map_get_delete, decide_False by done. by apply (St ss).
        + intros x. destruct (decide (il_requestStream l = Some s)) as [E|E]; [by rewrite bool_decide_eq_true_2|]. rewrite bool_decide_eq_false_2 by done.
          intros Ex. rewrite map_get_delete, decide_False by congruence. rewrite (Rq x Ex). unfold pooled. by rewrite Ep.
        + intros q [= <-]. by apply Sp.
      - intros x. unfold marked. cbn. rewrite Ep, Ess, Eb. cbn. intros Hm [Hx Hin]%list_elem_of_filter. destruct (Hm Hin) as (bs' & [= <-] & Hb).
        exists (without s bs). split; [done|]. by apply list_elem_of_filter.
      - unfold queue_bound. cbn. by rewrite Ep. }
    assert (forall x, offers st1 l' x -> offers st1 l x) as Hsub.
    { intros x. unfold offers. cbn. rewrite Ep, Ess, Eb. cbn. intros ([Hx Hin]%list_elem_of_filter & Hb & Ho). split; [done|]. split; [|done].
      intros bs' [= <-] Hbs. apply (Hb (without s bs) eq_refl). by apply list_elem_of_filter. }
    assert (map_get h (fp_links (set_link h l' st1)) = Some l') as El' by (cbn; by rewrite map_get_set, decide_True).
    destruct (resolveNext_ok _ _ h l' Hc2 El') as [Had Hsv].
    { intros Hw x y Hx _. destruct (Hserved l' Hsub h Hw) as (k & E & Hno). assert (k = l') as -> by congruence. by destruct (Hno x). }
    apply (advance_pool (map_delete s L) (set_link h l' st1) _ h); try done. intros h' Hne. by apply Hserved.
  - assert (forall ss, il_requestStreams l = Some ss -> s ∉ ss) as Hss by (intros ss E Hin; specialize (St ss s E Hin); congruence).
    destruct (decide (il_requestStream l = Some s)) as [E|E]; [rewrite bool_decide_eq_true_2 by done|rewrite bool_decide_eq_false_2 by done].
    + specialize (Rq s E). assert (pooled l = false) as Hp by congruence. assert (il_requestPool l = None) as Ep.
      { unfold pooled in Hp. apply bool_decide_eq_false in Hp. destruct (il_requestPool l); [by destruct Hp|done]. }
      rewrite Ep in Sh. destruct (il_requestStreams l) as [ss|] eqn:Ess, (il_requestBusyStreams l) as [bs|] eqn:Eb; try done. split.
      * apply Hup; [|by unfold marked; cbn; rewrite Ep|by unfold queue_bound; cbn; rewrite Ep].
        split; unfold pooled; cbn; rewrite ?Ep, ?Ess, ?Eb; try done. intros _ x. rewrite map_get_delete. destruct (decide (x = s)); [done|]. by apply Sl.
      * apply Hserved. intros x. unfold offers. cbn. rewrite Ep. by intros [? _].
    + split; [|done]. apply forget_core; [done|]. intros h' k Ek. destruct (decide (h' = h)) as [->|Hne]; [|by apply (Hoth h')].
      assert (k = l) as -> by (change (fp_links st1) with (fp_links st) in Ek; congruence). done.
Qed.

(** A host that is admitted again: its pooled streams of before are over. *)
Definition admissible (st : federation_pool) (e : pool_event) : bool :=
  match e with
  | fe_admit hostId _ => map_has hostId (fp_links st) || negb (existsb (fun p => bool_decide (p.2 = (hostId, true))) (fp_listeners st))
  | fe_stream _ _ policyHeader => policy_safe policyHeader
  | _ => true
  end.
Fixpoint run_admissible (st : federation_pool) (events : list pool_event) : bool :=
  match events with
  | [] => true
  | e :: events => admissible st e && run_admissible (pool_step federationHostId st e) events
  end.

Lemma admit_pool st h session : pool_ok st -> map_get h (fp_links st) = None -> (forall s, map_get s (fp_listeners st) <> Some (h, true)) ->
  pool_ok (set_link h (admitted session) st).
Proof using Type.
  intros [[Hq Hli Hk Hlk Hn Hkn Hu Hb] Hs] El Hst.
  assert (waiters_of h st = []) as Hw.
  { destruct (waiters_of h st) as [|w q] eqn:E; [done|]. destruct (Hs h) as (l & E' & _); [by rewrite E|congruence]. }
  assert (forall h' k, map_get h' (map_set h (admitted session) (fp_links st)) = Some k -> h' = h /\ k = admitted session \/ h' <> h /\ map_get h' (fp_links st) = Some k) as Hset.
  { intros h' k. rewrite map_get_set. destruct (decide (h' = h)); intros E; [left; split; congruence|by right]. }
  split.
  - split; try done; intros h' k.
    + intros [[-> ->]|[Hne E]]%Hset; [|by apply Hlk]. by split.
    + intros x [[-> ->]|[Hne E]]%Hset; [done|by apply (Hu h')].
    + change (waiters_of h' (set_link h (admitted session) st)) with (waiters_of h' st). intros [[-> ->]|[Hne E]]%Hset; [by rewrite Hw|by apply Hb].
  - intros h' Hne. change (waiters_of h' (set_link h (admitted session) st)) with (waiters_of h' st) in Hne. destruct (Hs h' Hne) as (l & E & Ho).
    exists l. split; [|done]. cbn. rewrite map_get_set, decide_False; [done|]. intros ->. by rewrite Hw in Hne.
Qed.
Lemma waiter_by_in L st id w : core L st -> waiter_by id st = Some w -> w ∈ waiters_of (fw_hostId w) st.
Proof using Type.
  intros H E. unfold waiter_by in E. destruct (filter _ _) as [|x xs] eqn:Ef; [done|]. injection E as ->.
  assert (w ∈ w :: xs) as Hin by left. rewrite <- Ef in Hin. apply list_elem_of_filter in Hin as [_ Hin].
  apply list_elem_of_In, in_concat in Hin as (q & Hq & Hw). apply in_map_iff in Hq as ([k q'] & <- & Hkq). cbn [snd] in Hw.
  apply list_elem_of_In in Hkq, Hw. pose proof (qo_lists _ _ _ _ (co_queue _ _ H)) as Hl. rewrite Forall_forall in Hl.
  destruct (Hl _ Hkq) as [Hg _]. rewrite Forall_forall in Hg. specialize (Hg _ Hw). cbn [fst] in Hg. subst k. unfold waiters_of.
  by rewrite (map_elem_get _ _ _ (qo_wf _ _ _ _ (co_queue _ _ H)) Hkq).
Qed.

Lemma step_pool st e : pool_ok st -> admissible st e = true -> pool_ok (pool_step federationHostId st e).
Proof using Type.
  intros H Ha. destruct e as [h session|h|links dead|session h header|s|s|s|h t sg|id|id|message]; cbn [pool_step].
  - cbn [admissible] in Ha. destruct (map_has h (fp_links st)) eqn:Em; [done|]. apply admit_pool; [done| |].
    + destruct (map_get h (fp_links st)) eqn:E; [|done]. exfalso. rewrite <- not_true_iff_false in Em. apply Em. unfold map_has. by rewrite E.
    + intros s E. cbn [orb] in Ha. apply negb_true_iff in Ha. rewrite <- not_true_iff_false in Ha. apply Ha, existsb_exists.
      exists (s, (h, true)). split; [by apply list_elem_of_In, map_get_elem|]. by apply bool_decide_eq_true_2.
  - by apply remove_link_pool.
  - destruct H as [[] Hs]. split; [by split|exact Hs].
  - by apply stream_pool.
  - apply streams_pool; auto. intros x Hx. apply set_add_elem. by right.
  - apply streams_pool; auto. intros x Hx. apply set_add_elem. by right.
  - by apply closed_pool.
  - by apply acquire_pool.
  - destruct (waiter_by id st) as [w|] eqn:Ew; [|done]. destruct (set_has _ _); [|done]. apply (waiter_by_in (fp_listeners st)) in Ew; [|apply H].
    unfold onTimeout. destruct (fw_pooled w); [|by apply drop_ok]. rewrite (fail_waiting (fp_listeners st)); [by apply drop_ok|apply H|done].
  - destruct (waiter_by id st) as [w|] eqn:Ew; [|done]. destruct (set_has _ _); [|done]. apply (waiter_by_in (fp_listeners st)) in Ew; [|apply H].
    unfold onAbort. rewrite (fail_waiting (fp_listeners st)); [by apply drop_ok|apply H|done].
  - by apply failAll_pool.
Qed.
Lemma init_pool : pool_ok fp_init.
Proof using Type. split; [|by intros h Hw]. split; try done; [apply (queue_init fw_id fw_hostId)|constructor|by intros s Hs; apply elem_of_nil in Hs]. Qed.
Lemma run_pool events : forall st, pool_ok st -> run_admissible st events = true -> pool_ok (pool_run federationHostId st events).
Proof using Type.
  induction events as [|e events IH]; intros st H Ha; [done|]. cbn [run_admissible] in Ha. apply andb_true_iff in Ha as [H1 H2].
  apply IH; [by apply step_pool|done].
Qed.
End PoolTheory.

(** * Properties *)
(** C11: the request streams of federated hosts.  Whatever order hosts come and go,
    streams open and end, requests ask, time out or are aborted in: no stream is
    given to two requests; every request that asked either waits, with an armed
    timer, or was settled exactly once; no request waits while its host has an
    idle stream, nor for a host that is gone; the pooled queue of a host is never
    longer than its policy says.  Policies name safe integers, and a host comes
    back when its former pooled streams are over. *)
Theorem federation_pool_invariant {P : Platform} federationHostId events :
  run_admissible federationHostId fp_init events = true ->
  let st := pool_run federationHostId fp_init events in
  NoDup (handed (fp_settled st)) /\
  map_items wids (fp_waiters st) ++ (fp_settled st).*1 ≡ₚ seq 0 (fp_next st) /\
  fp_timers st ≡ₚ map_items wids (fp_waiters st) /\ (forall id, id ∈ fp_listening st -> id ∈ fp_timers st) /\
  (forall h, waiters_of h st <> [] -> exists l, map_get h (fp_links st) = Some l /\ forall s, ~ offers st l s) /\
  (forall h l p, map_get h (fp_links st) = Some l -> il_requestPool l = Some p -> len (pooled_waiting (waiters_of h st)) <= up_maxQueuedAcquires p).
Proof.
  intros Ha st. destruct (run_pool federationHostId events fp_init init_pool Ha) as [Hc Hs]. fold st in Hc, Hs.
  split; [apply (co_handed _ _ Hc)|]. split; [apply (qo_conserve _ _ _ _ (co_queue _ _ Hc))|].
  split; [apply (qo_timers _ _ _ _ (co_queue _ _ Hc))|]. split; [apply (co_listening _ _ Hc)|]. split; [exact Hs|].
  intros h l p El Ep. pose proof (co_bound _ _ Hc h l El) as Hb. unfold queue_bound in Hb. by rewrite Ep in Hb.
Qed.

#[local] Existing Instance ascii_platform.
Definition sample_hostId : jsstring := js "edge".
(** Two pooled streams, three requests, one of which waits and is served when a
    stream of the host is opened; a stream ends, its host goes. *)
Definition sample_events : list pool_event :=
  [fe_admit sample_hostId 1; fe_stream 1 sample_hostId (Some (json_text (JObj [(js "maxQueuedAcquires", JNum (num_int 2))]))); fe_acquire sample_hostId 1000 sg_none;
   fe_acquire sample_hostId 1000 sg_live; fe_acquire sample_hostId 1000 sg_none; fe_acquire sample_hostId 1000 sg_none;
   fe_stream 1 sample_hostId None; fe_closed 0; fe_remove sample_hostId; fe_closed 1; fe_admit sample_hostId 2].
Lemma federation_pool_invariant_witness :
  run_admissible (Ok (js "hub")) fp_init sample_events = true /\
  (map (fun p => match p.2 with aq_stream s => Some s | _ => None end) (fp_settled (pool_run (Ok (js "hub")) fp_init sample_events)) = [Some 0%nat; None; Some 1%nat; None]) /\
  NoDup (handed (fp_settled (pool_run (Ok (js "hub")) fp_init sample_events))).
Proof.
  split; [by vm_compute|]. split; [by vm_compute|]. apply (federation_pool_invariant (Ok (js "hub")) sample_events). by vm_compute.
Defined.

(** Without the condition on hosts that come back it fails: the 'close' of a
    pooled stream of the former link clears [requestBusy] of the new one, and
    its stream is given to a second request. *)
Definition stale_events : list pool_event :=
  [fe_admit sample_hostId 1; fe_stream 1 sample_hostId (Some (js "{}")); fe_remove sample_hostId; fe_admit sample_hostId 1;
   fe_stream 1 sample_hostId None; fe_acquire sample_hostId 1000 sg_none; fe_closed 0; fe_acquire sample_hostId 1000 sg_none].
Example stale_close_frees_a_stream :
  handed (fp_settled (pool_run (Ok (js "hub")) fp_init stale_events)) = [1%nat; 1%nat].
Proof. by vm_compute. Qed.
