(* ===== verification/VwsOpen.v ===== *)
(** The open frame of a WebSocket that goes from host to host (verser2-host
    [node-http2-verser-host.ts], with the factories of verser-common
    [federation.ts]): its text, what a host requires of it, what it forwards, and
    where a frame can get to in a federation. *)
From S2P Require Import Prelude JsNum Utf8 Json Errors Headers ResponseMetadata Routing FederationCommon Vws FederationHost.

(** ** Errors and frames *)
Definition own_result {A} (r : result exn A) : result negotiation_failure A :=
  match r with Ok a => Ok a | Throw e => Throw (own_error e) end.
Definition vws_error (code : VerserErrorCode) (message : string) (context : VerserErrorContext) : negotiation_failure :=
  own_error (verr code message context).
#[global] Arguments vws_error code message%_string context.

(** The frames as the factories of [federation.ts] build them. *)
Definition versioned (type : string) (rest : list (jsstring * jsval)) : jsval :=
  JObj ([(js "type", JStr (js type)); (js "version", JNum (num_int FEDERATION_VWS_VERSION))] ++ rest).
#[local] Arguments versioned type%_string rest.
Definition optional_field (name : string) (v : option jsstring) : list (jsstring * jsval) :=
  match v with Some s => [(js name, JStr s)] | None => [] end.
#[local] Arguments optional_field name%_string v.
Definition open_fields (o : FederationVwsOpen) : list (jsstring * jsval) :=
  [(js "sourceId", JStr (vo_sourceId o)); (js "targetId", JStr (vo_targetId o)); (js "domain", JStr (vo_domain o)); (js "path", JStr (vo_path o))] ++
  optional_field "protocol" (vo_protocol o) ++
  [(js "originHostId", JStr (vo_originHostId o)); (js "viaHostIds", JArr (map JStr (vo_viaHostIds o))); (js "hopCount", JNum (num_int (vo_hopCount o)))].
Definition open_json (o : FederationVwsOpen) : jsval := versioned "open" (open_fields o).
(** The open frame a guest gets. *)
Definition local_open_json (o : FederationVwsOpen) : jsval :=
  JObj ([(js "type", JStr (js "open")); (js "domain", JStr (vo_domain o)); (js "path", JStr (vo_path o))] ++ optional_field "protocol" (vo_protocol o)).
Definition accept_json (protocol : jsstring) : jsval := versioned "accept" [(js "protocol", JStr protocol)].

Section Failures.
Context {P : Platform}.
(** [createFederationVwsError(failure.message, failure.code)] of [toVerserError(error)]. *)
Definition failure_code (f : negotiation_failure) : jsval :=
  match f with own_error e => JStr (code_name (ve_code (host_toVerserError e))) | peer_error code _ _ => code end.
Definition failure_message (f : negotiation_failure) : jsstring :=
  match f with
  | own_error e => ve_message (host_toVerserError e)
  | peer_error code message context => js "[" ++ to_str code ++ js "] " ++ to_str message ++ contextSuffix context
  end.
Definition failure_context (f : negotiation_failure) : VerserErrorContext :=
  match f with own_error e => ve_context (host_toVerserError e) | peer_error _ _ context => context end.
Definition failure_frame (f : negotiation_failure) : jsval :=
  versioned "error" [(js "message", JStr (failure_message f)); (js "code", failure_code f)].
(** The body of [sendError]. *)
Definition failure_body (f : negotiation_failure) : jsval :=
  JObj [(js "error", JObj [(js "code", failure_code f); (js "message", JStr (failure_message f));
                           (js "context", JObj (obj_of_entries (defined_entries (failure_context f))))])].
End Failures.

(** ** The host's own part of an open frame *)
Record vws_host := { vh_hostId : option jsstring; vh_maxHopCount : option Z; vh_authorizer : bool }.
Section OpenFrames.
Context (H : vws_host).

Definition getFederationHostId : result exn jsstring :=
  match vh_hostId H with
  | Some id => if len (trim id) =? 0 then Throw (verr invalid_registration "Host federation requires a configured hostId" [])
               else createVerserHostId (JStr id)
  | None => Throw (verr invalid_registration "Host federation requires a configured hostId" [])
  end.

Definition vws_protocol_error (message : string) : exn := verr protocol_error message [].
#[local] Arguments vws_protocol_error message%_string.
Definition last_via (n : nat) (via : list jsstring) : option jsstring := reverse via !! n.
Definition index_in (x : jsstring) (l : list jsstring) : option nat := fst <$> list_find (fun y => y = x) l.
Definition validateFederationVwsOpen (open : FederationVwsOpen) (senderHostId : option jsstring) : result exn unit :=
  localHostId ← getFederationHostId;
  let via := vo_viaHostIds open in
  _ ← throw_if (negb (bool_decide (head via = Some (vo_originHostId open)))) (vws_protocol_error "Federation VWS origin/via metadata is invalid");
  _ ← throw_if (negb (bool_decide (NoDup via))) (verr route_loop "Federation VWS route metadata contains a loop" []);
  _ ← throw_if (bool_decide (is_Some senderHostId) && ((len via <? 2) || negb (bool_decide (last_via 0 via = Some localHostId))))
        (verr authorization_denied "Federation VWS destination metadata is not bound to this Host" []);
  _ ← throw_if (match index_in localHostId via with Some i => negb (Z.of_nat i =? len via - 1) | None => false end)
        (verr route_loop "Federation VWS route revisits this Host" [(js "hostId", JStr localHostId)]);
  _ ← throw_if (match senderHostId with Some s => (1 <? len via) && negb (bool_decide (last_via 1 via = Some s)) | None => false end)
        (verr authorization_denied "Federation VWS traversal metadata is not bound to the sender" []);
  _ ← throw_if (negb (vo_hopCount open =? len via - 1)) (vws_protocol_error "Federation VWS hop metadata is invalid");
  throw_if (default 8 (vh_maxHopCount H) <? vo_hopCount open) (verr route_loop "Federation VWS route exceeds maximum hop count" []).

Definition createForwardedFederationVwsOpen (open : FederationVwsOpen) (nextHopHostId : jsstring) : result exn FederationVwsOpen :=
  _ ← validateFederationVwsOpen open None;
  localHostId ← getFederationHostId;
  createFederationVwsOpen (open_json {|
    vo_sourceId := localHostId; vo_targetId := vo_targetId open; vo_domain := vo_domain open; vo_path := vo_path open;
    vo_protocol := vo_protocol open; vo_originHostId := vo_originHostId open;
    vo_viaHostIds := vo_viaHostIds open ++ [nextHopHostId]; vo_hopCount := vo_hopCount open + 1 |}).
End OpenFrames.

(** * Theory *)
(** ** Frames that are read back as they are *)
Record open_ok (o : FederationVwsOpen) : Prop := {
  oo_source : vo_sourceId o <> []; oo_target : vo_targetId o <> []; oo_domain : vo_domain o <> []; oo_path : vo_path o <> [];
  oo_origin : trimmed_id (vo_originHostId o); oo_via : Forall trimmed_id (vo_viaHostIds o); oo_hop : 0 <= vo_hopCount o;
}.
Lemma nonempty_string_Ok v m s : nonempty_string v m = Ok s <-> v = JStr s /\ s <> [].
Proof.
  unfold nonempty_string. split.
  - destruct v as [| | | |[|c t]| |]; try done. by intros [= <-].
  - intros [-> Hs]. by destruct s.
Qed.
Lemma optional_string_Ok v m p : optional_string v m = Ok p <-> v = match p with Some s => JStr s | None => JUndef end.
Proof. unfold optional_string. destruct v, p; split; congruence. Qed.

Lemma createFederationVwsOpen_ok v o : createFederationVwsOpen v = Ok o -> open_ok o.
Proof.
  unfold createFederationVwsOpen. destruct v as [| | | | | |f]; try done. intros E.
  apply bind_Ok_inv in E as (s & [_ Hs]%nonempty_string_Ok & E). apply bind_Ok_inv in E as (t & [_ Ht]%nonempty_string_Ok & E).
  apply bind_Ok_inv in E as (d & [_ Hd]%nonempty_string_Ok & E). apply bind_Ok_inv in E as (p & [_ Hp]%nonempty_string_Ok & E).
  destruct (isValidHopCount _) as [h|] eqn:Eh; [|done]. apply isValidHopCount_Some in Eh as [_ Eh].
  destruct (prop (js "viaHostIds") f) as [| | | | |via|]; try done. apply bind_Ok_inv in E as (pr & _ & E).
  apply bind_Ok_inv in E as (g & [Hg _]%createVerserHostId_Ok & E). apply bind_Ok_inv in E as (l & Hl%map_host_ids_Ok & E).
  injection E as <-. by split.
Qed.
Lemma open_reread o : open_ok o -> createFederationVwsOpen (open_json o) = Ok o.
Proof.
  intros [Hs Ht Hd Hp Hg Hv Hh]. destruct o as [s t d p pr g via h]. cbn [vo_sourceId vo_targetId vo_domain vo_path vo_originHostId vo_viaHostIds vo_hopCount] in *.
  unfold createFederationVwsOpen, open_json, versioned. cbn iota beta. set (f := _ ++ _).
  assert (prop (js "sourceId") f = JStr s) as -> by done. assert (prop (js "targetId") f = JStr t) as -> by done.
  assert (prop (js "domain") f = JStr d) as -> by done. assert (prop (js "path") f = JStr p) as -> by done.
  assert (prop (js "hopCount") f = JNum (num_int h)) as -> by (by destruct pr).
  assert (prop (js "viaHostIds") f = JArr (map JStr via)) as -> by (by destruct pr).
  assert (prop (js "protocol") f = match pr with Some x => JStr x | None => JUndef end) as -> by (by destruct pr).
  assert (prop (js "originHostId") f = JStr g) as -> by (by destruct pr).
  do 4 (rewrite (proj2 (nonempty_string_Ok (JStr _) _ _)) by (split; [reflexivity|assumption]); cbn [mbind result_bind]).
  rewrite (proj2 (isValidHopCount_Some _ h)) by done.
  rewrite (proj2 (optional_string_Ok _ _ pr)) by (by destruct pr). cbn [mbind result_bind]. rewrite createVerserHostId_id by done.
  cbn [mbind result_bind]. by rewrite map_host_ids_id.
Qed.

(** ** What a host requires *)
Section Required.
Context (H : vws_host).
Record open_valid (local : jsstring) (sender : option jsstring) (o : FederationVwsOpen) : Prop := {
  ov_origin : head (vo_viaHostIds o) = Some (vo_originHostId o);
  ov_nodup : NoDup (vo_viaHostIds o);
  ov_sender : forall s, sender = Some s -> exists via, vo_viaHostIds o = via ++ [s; local];
  ov_local : local ∈ vo_viaHostIds o -> last (vo_viaHostIds o) = Some local;
  ov_hop : vo_hopCount o = len (vo_viaHostIds o) - 1;
  ov_max : vo_hopCount o <= default 8 (vh_maxHopCount H);
}.

Lemma last_two_via s local via :
  (1 <? len via) = true /\ last_via 0 via = Some local /\ last_via 1 via = Some s <-> exists l, via = l ++ [s; local].
Proof using Type.
  unfold last_via. split.
  - intros (_ & H0 & H1). exists (reverse (drop 2 (reverse via))). apply (inj reverse). rewrite reverse_app, reverse_involutive.
    destruct (reverse via) as [|x [|y r]]; try done. injection H0 as ->. by injection H1 as ->.
  - intros [l ->]. rewrite reverse_app. unfold len. rewrite length_app. cbn. split; [apply Z.ltb_lt; lia|done].
Qed.
Lemma last_via_last via : last_via 0 via = last via.
Proof using Type. unfold last_via. by rewrite <- (reverse_involutive via) at 2; rewrite last_reverse, head_lookup. Qed.

Lemma local_index local via : NoDup via ->
  match index_in local via with Some i => negb (Z.of_nat i =? len via - 1) | None => false end = false <->
  (local ∈ via -> last via = Some local).
Proof using Type.
  intros Hnd. unfold index_in. destruct (list_find _ via) as [[i x]|] eqn:E; cbn [fmap option_fmap option_map fst].
  - apply list_find_Some in E as (Ei & -> & _). rewrite negb_false_iff, Z.eqb_eq. rewrite last_lookup. unfold len.
    pose proof (lookup_lt_Some _ _ _ Ei). split.
    + intros Hi _. replace (pred (length via)) with i by lia. done.
    + intros Hl. specialize (Hl ltac:(by eapply list_elem_of_lookup_2)). pose proof (NoDup_lookup _ _ _ _ Hnd Ei Hl). lia.
  - apply list_find_None in E. split; [|done]. intros _ Hin. rewrite Forall_forall in E. by apply E in Hin.
Qed.

Lemma validate_Ok local sender o : getFederationHostId H = Ok local ->
  validateFederationVwsOpen H o sender = Ok tt <-> open_valid local sender o.
Proof using Type.
  intros Hid. unfold validateFederationVwsOpen. rewrite Hid. cbn [mbind result_bind]. split.
  - intros E. apply bind_Ok_inv in E as (_ & H1%throw_if_Ok_inv & E). apply bind_Ok_inv in E as (_ & H2%throw_if_Ok_inv & E).
    apply bind_Ok_inv in E as (_ & H3%throw_if_Ok_inv & E). apply bind_Ok_inv in E as (_ & H4%throw_if_Ok_inv & E).
    apply bind_Ok_inv in E as (_ & H5%throw_if_Ok_inv & E). apply bind_Ok_inv in E as (_ & H6%throw_if_Ok_inv & H7%throw_if_Ok_inv).
    rewrite negb_false_iff in H1, H2, H6. apply bool_decide_eq_true in H1, H2. apply Z.eqb_eq in H6. apply Z.ltb_ge in H7.
    split; try done; [|by apply local_index]. intros s ->. cbn in H3. apply orb_false_iff in H3 as [H3 H3']. apply negb_false_iff, bool_decide_eq_true in H3'.
    apply (last_two_via s local). assert ((1 <? len (vo_viaHostIds o)) = true) as Hl by lia. rewrite Hl in H5. cbn in H5.
    by apply negb_false_iff, bool_decide_eq_true in H5.
  - intros [H1 H2 H3 H4 H6 H7]. rewrite (bool_decide_eq_true_2 _ H1), (bool_decide_eq_true_2 _ H2). cbn [negb throw_if mbind result_bind].
    rewrite (proj2 (local_index local (vo_viaHostIds o) H2) H4). rewrite (proj2 (Z.eqb_eq _ _)) by done. rewrite (proj2 (Z.ltb_ge _ _)) by done.
    destruct sender as [s|]; [|done]. destruct (proj2 (last_two_via s local (vo_viaHostIds o)) (H3 s eq_refl)) as (Hl & E0 & E1).
    rewrite Hl, E0, E1. rewrite !bool_decide_eq_true_2 by done. cbn. by rewrite (proj2 (Z.ltb_ge _ 2)) by lia.
Qed.
End Required.

(** ** Forwarding *)
Definition forwarded (local nextHop : jsstring) (o : FederationVwsOpen) : FederationVwsOpen :=
  {| vo_sourceId := local; vo_targetId := vo_targetId o; vo_domain := vo_domain o; vo_path := vo_path o; vo_protocol := vo_protocol o;
     vo_originHostId := vo_originHostId o; vo_viaHostIds := vo_viaHostIds o ++ [nextHop]; vo_hopCount := vo_hopCount o + 1 |}.

Lemma federation_id_trimmed H local : getFederationHostId H = Ok local -> trimmed_id local.
Proof.
  unfold getFederationHostId. destruct (vh_hostId H) as [id|]; [|done]. destruct (_ =? 0); [done|]. by intros [? _]%createVerserHostId_Ok.
Qed.
Lemma forward_Ok H local nextHop o o' : getFederationHostId H = Ok local -> open_ok o -> trimmed_id nextHop ->
  createForwardedFederationVwsOpen H o nextHop = Ok o' <-> open_valid H local None o /\ o' = forwarded local nextHop o.
Proof.
  intros Hid Ho Hn. unfold createForwardedFederationVwsOpen. rewrite <- (validate_Ok H local None o Hid).
  fold (forwarded local nextHop o).
  assert (open_ok (forwarded local nextHop o)) as Hf.
  { destruct Ho as [? ? ? ? ? Hv ?]. apply federation_id_trimmed in Hid as [_ ?]. split; cbn; try done; [by apply Forall_app; split; [|constructor]|lia]. }
  split.
  - intros ([] & Hv & E)%bind_Ok_inv. rewrite Hid in E. cbn [mbind result_bind] in E. fold (forwarded local nextHop o) in E.
    rewrite open_reread in E by done. by injection E as <-.
  - intros [-> ->]. rewrite Hid. cbn [mbind result_bind]. fold (forwarded local nextHop o). by apply open_reread.
Qed.

(** What the next host makes of a forwarded frame: it takes it exactly when the
    frame has not been there before, came from its last host, and has hops left. *)
Lemma forwarded_accepted A B a b o o' : getFederationHostId A = Ok a -> getFederationHostId B = Ok b -> open_ok o ->
  createForwardedFederationVwsOpen A o b = Ok o' ->
  validateFederationVwsOpen B o' (Some a) = Ok tt <->
  last (vo_viaHostIds o) = Some a /\ b ∉ vo_viaHostIds o /\ vo_hopCount o + 1 <= default 8 (vh_maxHopCount B).
Proof.
  intros Ha Hb Ho E. apply (forward_Ok A a b o o' Ha Ho) in E as [[H1 H2 _ H4 H6 H7] ->]; [|by eapply federation_id_trimmed].
  rewrite (validate_Ok B b (Some a) _ Hb). split.
  - intros [_ N2 N3 _ _ N7]. cbn in *. destruct (N3 a eq_refl) as [l El]. change [a; b] with ([a] ++ [b]) in El. rewrite app_assoc in El.
    apply app_inj_tail in El as [El _]. rewrite El. split; [by rewrite last_snoc|]. rewrite <- El. split; [|lia].
    apply NoDup_app in N2 as (_ & Hd & _). intros Hin. apply (Hd b Hin). by left.
  - intros (Hl & Hni & Hm). apply last_Some in Hl as [l El]. split; cbn.
    + rewrite head_lookup in *. destruct (vo_viaHostIds o); [done|exact H1].
    + apply NoDup_app. split; [done|]. split; [|apply NoDup_singleton]. by intros x Hx ->%list_elem_of_singleton.
    + intros s [= <-]. exists l. by rewrite El, <- app_assoc.
    + intros _. by rewrite last_snoc.
    + unfold len in *. rewrite length_app. cbn. lia.
    + lia.
Qed.

(** ** The journey of a frame

    A frame that starts at a host, as the broker's open does, and is forwarded from
    host to host; every host that takes it has checked it. *)
Definition starts_at (a : jsstring) (o : FederationVwsOpen) : Prop :=
  open_ok o /\ vo_originHostId o = a /\ vo_viaHostIds o = [a] /\ vo_hopCount o = 0.
Inductive journey (net : jsstring -> vws_host) : list jsstring -> FederationVwsOpen -> Prop :=
  | journey_start a o : getFederationHostId (net a) = Ok a -> starts_at a o -> journey net [a] o
  | journey_hop visited a b o o' : journey net (visited ++ [a]) o -> getFederationHostId (net b) = Ok b ->
      createForwardedFederationVwsOpen (net a) o b = Ok o' -> validateFederationVwsOpen (net b) o' (Some a) = Ok tt ->
      journey net (visited ++ [a; b]) o'.

Record travelled (net : jsstring -> vws_host) (visited : list jsstring) (o : FederationVwsOpen) : Prop := {
  tr_ok : open_ok o;
  tr_ids : Forall (fun a => getFederationHostId (net a) = Ok a) visited;
  tr_via : vo_viaHostIds o = visited;
  tr_nodup : NoDup visited;
  tr_hops : vo_hopCount o = len visited - 1;
  tr_max : forall i b, visited !! i = Some b -> (0 < i)%nat -> Z.of_nat i <= default 8 (vh_maxHopCount (net b));
  tr_source : forall l a b, visited = l ++ [a; b] -> vo_sourceId o = a;
}.
Lemma journey_travelled net visited o : journey net visited o -> travelled net visited o.
Proof.
  induction 1 as [a o Ha (Ho & Eo & Ev & Eh)|visited a b o o' Hj IH Hb Ef Hv].
  - split; try done; [by repeat constructor|apply NoDup_singleton|..].
    + intros i b Hi. apply lookup_lt_Some in Hi. cbn in Hi. lia.
    + intros l x y E. apply (f_equal length) in E. rewrite length_app in E. cbn in E. lia.
  - destruct IH as [Ho Hids Ev Hnd Hh Hmax _].
    assert (getFederationHostId (net a) = Ok a) as Ha.
    { rewrite Forall_forall in Hids. apply Hids, elem_of_app. right. by left. }
    destruct (proj1 (forwarded_accepted _ _ a b o o' Ha Hb Ho Ef) Hv) as (Hl & Hni & Hm).
    apply (forward_Ok _ a b o o' Ha Ho) in Ef as [_ ->]; [|by eapply federation_id_trimmed].
    assert (visited ++ [a; b] = (visited ++ [a]) ++ [b]) as E by (by rewrite <- app_assoc). rewrite Ev in *. split.
    + destruct Ho. pose proof (federation_id_trimmed _ _ Ha). pose proof (federation_id_trimmed _ _ Hb).
      split; cbn; try done; [by destruct H|rewrite Ev; apply Forall_app; split; [congruence|by constructor]|lia].
    + rewrite E. apply Forall_app. split; [done|by repeat constructor].
    + cbn. by rewrite Ev, E.
    + rewrite E. apply NoDup_app. split; [done|]. split; [|apply NoDup_singleton]. by intros x Hx ->%list_elem_of_singleton.
    + cbn. rewrite E. unfold len in *. rewrite (length_app _ [b]). cbn. lia.
    + intros i x. rewrite E. intros [Hi|[Hi Hx]]%lookup_app_Some Hpos; [by apply Hmax|].
      apply list_lookup_singleton_Some in Hx as [Hx <-]. cbn in Hm. unfold len in *. lia.
    + intros l x y E'. rewrite E in E'. change [x; y] with ([x] ++ [y]) in E'. rewrite app_assoc in E'.
      apply app_inj_tail in E' as [E' _]. by apply app_inj_tail in E' as [_ ->].
Qed.

(** C13: A WebSocket's open frame in a federation, however the hosts are linked: it
    visits no host twice, its via list is the way it went, in order, its hop count
    that way's length, every host that takes it from another is within its own hop
    limit (so the way is no longer than the largest limit on it allows), and from
    the second host on the source it names is the host it came from, never the
    broker. *)
Theorem vws_journey_bounded net visited o :
  journey net visited o ->
  vo_viaHostIds o = visited /\ NoDup visited /\ vo_hopCount o = len visited - 1 /\
  (forall i b, visited !! i = Some b -> (0 < i)%nat -> Z.of_nat i <= default 8 (vh_maxHopCount (net b))) /\
  (forall limit, 0 <= limit -> (forall a, a ∈ visited -> default 8 (vh_maxHopCount (net a)) <= limit) -> len visited <= limit + 1) /\
  (forall l a b, visited = l ++ [a; b] -> vo_sourceId o = a).
Proof.
  intros Hj. destruct (journey_travelled _ _ _ Hj) as [_ _ Hv Hn Hh Hm Hs]. split_and!; try done. intros limit H0 Hlim.
  destruct (Z.leb_spec (len visited) 1) as [|H1]; [lia|]. unfold len in *. destruct (lookup_lt_is_Some_2 visited (length visited - 1)) as [b Hb]; [lia|].
  specialize (Hm _ b Hb). specialize (Hlim b (list_elem_of_lookup_2 _ _ _ Hb)). lia.
Qed.

(** ** The text of an open frame *)
Record open_units (o : FederationVwsOpen) : Prop := {
  ou_source : wf_units (vo_sourceId o); ou_target : wf_units (vo_targetId o); ou_domain : wf_units (vo_domain o); ou_path : wf_units (vo_path o);
  ou_protocol : forall p, vo_protocol o = Some p -> wf_units p; ou_origin : wf_units (vo_originHostId o);
  ou_via : Forall wf_units (vo_viaHostIds o); ou_hops : vo_hopCount o <= max_safe;
}.
Lemma open_frame_line o : open_ok o -> open_units o -> byte_length (json_text (open_json o)) <= VWS_MAX_FRAME_BYTES ->
  decodeVwsFrame (json_text (open_json o)) = Ok (open_json o).
Proof.
  intros Ho [Us Ut Ud Up Upr Ug Uv Uh] Hl. apply decode_line; [|..|exact Hl].
  - exists (js "open"). split; [done|]. destruct o as [s t d p [pr|] g via h]; vm_compute; reflexivity.
  - destruct Ho as [_ _ _ _ _ _ Hh]. destruct o as [s t d p pr g via h].
    cbn [vo_sourceId vo_targetId vo_domain vo_path vo_protocol vo_originHostId vo_viaHostIds vo_hopCount] in Us, Ut, Ud, Up, Upr, Ug, Uv, Uh, Hh.
    assert (forallb json_plain (map JStr via) = true) as Ev.
    { apply forallb_forall. intros v (x & <- & Hx)%in_map_iff. apply wf_units_forallb. apply list_elem_of_In in Hx. rewrite Forall_forall in Uv. by apply Uv. }
    assert (is_safe_integer (num_int h) = true) as Eh by (cbn; apply Z.leb_le; lia).
    destruct pr as [pr|]; cbn [open_json versioned json_plain optional_field open_fields app fmap list_fmap fst snd forallb vo_sourceId vo_targetId vo_domain
      vo_path vo_protocol vo_originHostId vo_viaHostIds vo_hopCount]; rewrite ?(wf_units_forallb pr) by auto; rewrite (wf_units_forallb s), (wf_units_forallb t), (wf_units_forallb d), (wf_units_forallb p), (wf_units_forallb g), Ev, Eh by done;
      vm_compute; reflexivity.
Qed.

(** * Witnesses *)
Module SampleHosts.
Definition net (a : jsstring) : vws_host := {| vh_hostId := Some a; vh_maxHopCount := None; vh_authorizer := true |}.
Definition start : FederationVwsOpen :=
  {| vo_sourceId := js "broker"; vo_targetId := js "guest"; vo_domain := js "guest.example"; vo_path := js "/"; vo_protocol := None;
     vo_originHostId := js "a"; vo_viaHostIds := [js "a"]; vo_hopCount := 0 |}.
Lemma vws_journey_bounded_witness :
  let o := forwarded (js "b") (js "c") (forwarded (js "a") (js "b") start) in
  journey net [js "a"; js "b"; js "c"] o /\ len [js "a"; js "b"; js "c"] <= 8 + 1.
Proof.
  intros o. assert (journey net [js "a"; js "b"; js "c"] o) as Hj.
  { apply (journey_hop net [js "a"] (js "b") (js "c") (forwarded (js "a") (js "b") start) o); [|by vm_compute..].
    apply (journey_hop net [] (js "a") (js "b") start); [|by vm_compute..]. apply journey_start; [by vm_compute|].
    assert (trimmed_id (js "a")) by (split; [by vm_compute|done]). split; [|done]. split; try done. by constructor. }
  split; [exact Hj|]. apply (vws_journey_bounded net _ o Hj); [lia|intros a _; cbn; lia].
Defined.

(** A host forwards a frame to a host it has already been at: it is the other
    host that refuses it. *)
Example forwarded_into_a_loop :
  let o := forwarded (js "a") (js "b") start in
  is_ok (createForwardedFederationVwsOpen (net (js "b")) o (js "a")) = true /\
  validateFederationVwsOpen (net (js "a")) (forwarded (js "b") (js "a") o) (Some (js "b")) =
    Throw (verr route_loop "Federation VWS route metadata contains a loop" []).
Proof. by vm_compute. Qed.
End SampleHosts.
