(* ===== verification/FederationVws.v ===== *)
(** WebSockets through the host (verser2-host [node-http2-verser-host.ts]): the
    open frame of a broker or of another host is checked, a candidate route is
    chosen and authorized, a stream towards it is acquired, the frame is forwarded
    and the answer awaited.

    The functions are computations of [Effects], with an error type of their own:
    an error frame of the peer names its code itself ([negotiation_failure]). *)
From S2P Require Import Prelude JsNum Utf8 Json Errors Headers ResponseMetadata Routing FederationCommon Vws FederationHost VwsOpen Effects BrokerRequests BrokerRouting FederationPool.

(** ** Waiting for a guest's answer: [raceVwsAccept] *)
Inductive race_event : Type := rc_close | rc_error | rc_timeout | rc_line (r : result exn jsstring).
Record race := { rc_result : option (result negotiation_failure jsstring); rc_timer : bool; rc_listening : bool }.
Definition race_start : race := {| rc_result := None; rc_timer := true; rc_listening := true |}.
Section Race.
Context (targetId domain : jsstring) (timeoutMs : Z).
Definition race_context : VerserErrorContext := [(js "targetId", JStr targetId); (js "domain", JStr domain)].
Definition race_outcome (e : race_event) : result negotiation_failure jsstring :=
  match e with
  | rc_close => Throw (vws_error protocol_error "Broker stream closed before WebSocket handshake" race_context)
  | rc_error => Throw (vws_error protocol_error "Broker stream error before WebSocket handshake" race_context)
  | rc_timeout => Throw (vws_error timeout "WebSocket handshake timed out" (race_context ++ [(js "timeoutMs", JNum (num_int timeoutMs))]))
  | rc_line r => own_result r
  end.
(** [settleOnce] with [cleanup]: the timer and both listeners go. *)
Definition race_step (st : race) (e : race_event) : race :=
  match rc_result st with
  | Some _ => st
  | None => {| rc_result := Some (race_outcome e); rc_timer := false; rc_listening := false |}
  end.
Definition raceVwsAccept (evs : list race_event) : race := fold_left race_step evs race_start.
End Race.

(** What the guest's line means: the protocol it accepted. *)
Definition local_accept (offered : option jsstring) (line : jsstring) : result negotiation_failure jsstring :=
  match json_parse line with
  | None => Throw (own_error (EngineErr SyntaxError line))
  | Some frame =>
      match js_member (js "type") frame with
      | None => Throw (own_error (EngineErr TypeError line))
      | Some type =>
          if is_str (js "error") type then
            let code := js_opt_member (js "code") frame in
            Throw (peer_error (match code with JStr _ => code | _ => JStr (js "protocol-error") end)
                     (JStr (to_str (nullish (js_opt_member (js "message") frame) (JStr (js "WebSocket rejected"))))) [])
          else
            match is_str (js "accept") type, js_opt_member (js "protocol") frame with
            | true, JUndef => Ok []
            | true, JStr accepted =>
                if negb (bool_decide (accepted = [])) && negb (bool_decide (accepted = default [] offered))
                then Throw (vws_error protocol_error "Guest accepted an unoffered WebSocket protocol" [])
                else Ok accepted
            | _, _ => Throw (vws_error protocol_error "Malformed VWS accept frame" [])
            end
      end
  end.

(** ** What happens while a WebSocket is opened *)
Inductive vws_io : Type :=
  | wv_authorize (previous next : jsstring) (answer : result negotiation_failure bool)
  | wv_lease (guestId : jsstring) (s : nat)                            (** the first idle lease leaves the list *)
  | wv_reserve (hostId : jsstring) (answer : result negotiation_failure nat)   (** [waitForFederationVwsPool] *)
  | wv_open (upstreamId : jsstring) (answer : result negotiation_failure nat)  (** [openUpstreamFederationVwsStream] *)
  | wv_write (s : nat) (line : jsstring)
  | wv_accept (s : nat) (answer : result negotiation_failure jsstring)
  | wv_negotiate (s : nat) (answer : result negotiation_failure jsval)
  | wv_line (s : nat) (answer : result negotiation_failure jsstring)   (** [readVwsLine] *)
  | wv_close (s : nat)                                                 (** with [NGHTTP2_CANCEL] *)
  | wv_respond (s : nat) (status : Z) (headers : list (jsstring * jsstring))
  | wv_end (s : nat) (text : jsstring)
  | wv_attach (hostId : jsstring) (s : nat)                            (** the acquire stream of an inbound host *)
  | wv_bridge (a b : nat) (framed : bool).
Abbreviation past := (list vws_io).
Abbreviation vws := (eio negotiation_failure vws_io).

Record inbound_vws := { iv_session : nat; iv_stream : option nat }.
Class VwsWorld := {
  vw_closed : past -> nat -> bool;
  vw_destroyed : past -> nat -> bool;
  vw_headersSent : past -> nat -> bool;
  vw_session : past -> nat -> option nat;
  vw_session_gone : past -> nat -> bool;              (** closed or destroyed *)
  vw_aborted : past -> bool;                          (** the source stream closed or failed while the socket is opened *)
  vw_peer : past -> jsstring -> nat -> option PeerInfo;   (** [getPeerForSession] *)
  vw_brokerDomain : past -> jsstring -> option nat -> option jsstring;
  vw_inbound : past -> jsstring -> option inbound_vws;
  vw_upstreams : past -> list (jsstring * upstream_view);
  vw_candidates : past -> jsstring -> jsstring -> list FederatedRouteRegistration;
  vw_leases : past -> jsstring -> list nat;           (** [wsIdleLeases] *)
  vw_authorize : past -> jsstring -> jsstring -> result exn bool;
  vw_reserve : past -> jsstring -> bool -> result exn nat;
  vw_open : past -> jsstring -> jsstring -> result exn nat;
  vw_race : past -> nat -> race_event;                (** what settles the wait for the guest *)
  vw_negotiation : past -> nat -> negotiation_event;  (** what settles the negotiation with the next host *)
  vw_line : past -> nat -> result exn jsstring;
}.

(** An awaited promise. *)
Definition ask {A} (f : past -> result exn A) (event : result negotiation_failure A -> vws_io) : vws A :=
  io_await (fun h => own_result (f h)) event.

Section Opening.
Context {P : Platform} {W : VwsWorld} (H : vws_host).

Record vws_source := { so_stream : nat; so_hostId : option jsstring }.
Record vws_opened := { op_stream : nat; op_protocol : jsstring; op_framed : bool }.

Definition gone (h : past) (s : nat) : bool := vw_closed h s || vw_destroyed h s.
Definition is_h2_broker (session : nat) (p : option PeerInfo) : bool :=
  match p with
  | Some p => str_eqb (pi_role p) (js "broker") && bool_decide (pi_transport p = Some (js "h2")) && bool_decide (pi_session p = Some session)
  | None => false
  end.
Definition isFederationVwsSourceLive (src : vws_source) (open : FederationVwsOpen) (h : past) : result negotiation_failure bool :=
  match vw_session h (so_stream src) with
  | None => Ok false
  | Some session =>
      if vw_aborted h || gone h (so_stream src) || vw_session_gone h session then Ok false
      else
        match so_hostId src with
        | Some hostId =>
            Ok (bool_decide (iv_session <$> vw_inbound h hostId = Some session) ||
                existsb (fun p => str_eqb (uv_remoteHostId p.2) hostId && bool_decide (uv_session p.2 = session) && negb (uv_closing p.2)) (vw_upstreams h))
        | None => peerId ← own_result (createPeerId (vo_sourceId open)); Ok (is_h2_broker session (vw_peer h peerId session))
        end
  end.
Definition createCancelledFederationVwsError (open : FederationVwsOpen) : negotiation_failure :=
  vws_error disconnected_target "Federated WebSocket source disconnected during open"
    [(js "sourceId", JStr (vo_sourceId open)); (js "targetId", JStr (vo_targetId open))].
Definition source_live (src : vws_source) (open : FederationVwsOpen) : vws bool := io_ask (isFederationVwsSourceLive src open).

(** [if (!s.closed && !s.destroyed) s.close(NGHTTP2_CANCEL)] *)
Definition close_unless_gone (s : nat) : vws unit := g ← io_read (fun h => gone h s); io_when (negb g) (io_do (wv_close s)).

Definition is_local (c : FederatedRouteRegistration) : bool := bool_decide (fr_source c = source_local).
Definition needs_authorization (src : vws_source) (c : FederatedRouteRegistration) : bool :=
  vh_authorizer H && (bool_decide (is_Some (so_hostId src)) || negb (is_local c)).
Definition previous_hop (src : vws_source) (open : FederationVwsOpen) (previousHopDomain : option jsstring) : option jsstring :=
  match so_hostId src with Some _ => Some (vo_domain open) | None => previousHopDomain end.
Definition candidate_context (c : FederatedRouteRegistration) : VerserErrorContext :=
  [(js "targetId", JStr (fr_targetId c)); (js "domain", JStr (fr_domain c))].

Definition authorize_candidate (src : vws_source) (open : FederationVwsOpen) (previousHopDomain : option jsstring) (c : FederatedRouteRegistration) : vws unit :=
  match previous_hop src open previousHopDomain with
  | None | Some [] =>
      io_throw (vws_error authorization_denied "Broker VWS has no registered hop domain for federation route authorization"
        [(js "targetId", JStr (vo_targetId open)); (js "domain", JStr (fr_domain c)); (js "sourceId", JStr (vo_sourceId open))])
  | Some previous =>
      allowed ← ask (fun h => vw_authorize h previous (fr_domain c)) (wv_authorize previous (fr_domain c));
      live ← source_live src open;
      if negb live then io_throw (createCancelledFederationVwsError open)
      else if negb allowed then io_throw (vws_error authorization_denied "Federation route authorization denied" (candidate_context c))
      else
        left ← io_read (fun h => vw_candidates h (fr_targetId c) (fr_domain c));
        match left with
        | [] => io_throw (vws_error missing_guest "Federation WebSocket route was removed during authorization" (candidate_context c))
        | _ => mret tt
        end
  end.

Definition usable_link (hostId : jsstring) (h : past) (p : jsstring * upstream_view) : bool :=
  str_eqb (uv_remoteHostId p.2) hostId && negb (uv_closing p.2) && negb (vw_session_gone h (uv_session p.2)).
Definition acquire_destination (c : FederatedRouteRegistration) : vws nat :=
  if is_local c then
    leases ← io_read (fun h => vw_leases h (fr_targetId c));
    match leases with
    | [] => io_throw (vws_error websocket_negotiation_failed "Advertised WebSocket endpoint is unavailable" [(js "targetId", JStr (fr_targetId c))])
    | s :: _ => _ ← io_do (wv_lease (fr_targetId c) s); mret s
    end
  else
    inbound ← io_read (fun h => vw_inbound h (fr_nextHopHostId c));
    match inbound with
    | Some _ => ask (fun h => vw_reserve h (fr_nextHopHostId c) (vw_aborted h)) (wv_reserve (fr_nextHopHostId c))
    | None =>
        upstream ← io_read (fun h => head (filter (fun p => usable_link (fr_nextHopHostId c) h p = true) (vw_upstreams h)));
        match upstream with
        | None => io_throw (vws_error websocket_negotiation_failed "Federation VWS next hop is unavailable" [(js "nextHopHostId", JStr (fr_nextHopHostId c))])
        | Some (upstreamId, _) =>
            localHostId ← io_lift (own_result (getFederationHostId H));
            ask (fun h => vw_open h upstreamId localHostId) (wv_open upstreamId)
        end
    end.

(** The frame for the candidate is written and its answer awaited. *)
Definition forwarded_frame (open : FederationVwsOpen) (c : FederatedRouteRegistration) : result exn jsval :=
  if is_local c then Ok (local_open_json open) else open_json <$> createForwardedFederationVwsOpen H open (fr_nextHopHostId c).
Definition negotiation_context (open : FederationVwsOpen) : VerserErrorContext :=
  [(js "targetId", JStr (vo_targetId open)); (js "domain", JStr (vo_domain open))].
Definition negotiated (open : FederationVwsOpen) (e : negotiation_event) : result negotiation_failure jsval :=
  default (Throw (vws_error timeout "" [])) (readFederationVwsNegotiation (negotiation_context open) [e]).1.
Definition accepted (open : FederationVwsOpen) (e : race_event) : result negotiation_failure jsstring :=
  default (Throw (vws_error timeout "" [])) (rc_result (raceVwsAccept (vo_targetId open) (vo_domain open) 30000 [e])).
Definition negotiate (open : FederationVwsOpen) (c : FederatedRouteRegistration) (s : nat) : vws jsstring :=
  frame ← io_lift (own_result (forwarded_frame open c));
  _ ← io_do (wv_write s (encodeVwsFrame frame));
  if is_local c then
    line ← io_await (fun h => accepted open (vw_race h s)) (wv_accept s);
    io_lift (local_accept (vo_protocol open) line)
  else
    protocol ← io_await (fun h => negotiated open (vw_negotiation h s)) (wv_negotiate s);
    mret (match protocol with JStr p => p | _ => [] end).

(** One turn of the loop. *)
Definition try_candidate (src : vws_source) (open : FederationVwsOpen) (previousHopDomain : option jsstring) (c : FederatedRouteRegistration) : vws vws_opened :=
  let unless_live (s : nat) (k : vws vws_opened) : vws vws_opened :=
    live ← source_live src open;
    if negb live then _ ← close_unless_gone s; io_throw (createCancelledFederationVwsError open) else k in
  _ ← (if needs_authorization src c then authorize_candidate src open previousHopDomain c else mret tt);
  destination ← acquire_destination c;
  unless_live destination
    (protocol ← io_catch (negotiate open c destination) (fun e => _ ← close_unless_gone destination; io_throw e);
     unless_live destination
       (mret {| op_stream := destination; op_protocol := protocol; op_framed := bool_decide (is_Some (so_hostId src)) || negb (is_local c) |})).

(** A candidate that leads back to the source. *)
Definition leads_back (src : vws_source) (c : FederatedRouteRegistration) : bool :=
  negb (is_local c) && bool_decide (Some (fr_nextHopHostId c) = so_hostId src).
Definition no_candidate (open : FederationVwsOpen) : negotiation_failure :=
  vws_error missing_guest "No WebSocket route candidate is available" (negotiation_context open).
Fixpoint vws_candidates (src : vws_source) (open : FederationVwsOpen) (previousHopDomain : option jsstring)
    (cs : list FederatedRouteRegistration) (lastError : option negotiation_failure) : vws vws_opened :=
  match cs with
  | [] => io_throw (default (no_candidate open) lastError)
  | c :: cs =>
      live ← source_live src open;
      if negb live then io_throw (createCancelledFederationVwsError open)
      else if leads_back src c then vws_candidates src open previousHopDomain cs lastError
      else
        outcome ← io_try (try_candidate src open previousHopDomain c);
        match outcome with
        | Ok opened => mret opened
        | Throw e =>
            live ← source_live src open;
            if negb live then io_throw (createCancelledFederationVwsError open)
            else vws_candidates src open previousHopDomain cs (Some e)
        end
  end.
(** [routeFederationVws] with its listeners, whose effect is [vw_aborted]. *)
Definition routeFederationVwsInternal (src : vws_source) (open : FederationVwsOpen) (candidates : list FederatedRouteRegistration)
    (previousHopDomain : option jsstring) : vws vws_opened :=
  live ← source_live src open;
  if negb live then io_throw (createCancelledFederationVwsError open)
  else vws_candidates src open previousHopDomain candidates None.

(** ** The handlers *)
Definition text_or (headers : IncomingHttpHeaders) (name : string) (d : jsstring) : jsstring := header_text_or headers name d.
#[local] Arguments text_or headers name%_string d.
Definition broker_open (sourceId targetId domain protocol path : jsstring) : result exn FederationVwsOpen :=
  createFederationVwsOpen (JObj (
    [(js "sourceId", JStr sourceId); (js "targetId", JStr targetId); (js "domain", JStr domain); (js "path", JStr path)] ++
    (if 0 <? len protocol then [(js "protocol", JStr protocol)] else []) ++
    [(js "originHostId", JStr (default (js "host-local") (vh_hostId H)));
     (js "viaHostIds", JArr (match vh_hostId H with Some id => [JStr id] | None => [] end)); (js "hopCount", JNum (num_int 0))])).

(** The [try] of [handleBrokerWebSocket]. *)
Definition serve_broker (brokerStream : nat) (sourceId : jsstring) (open : FederationVwsOpen) (candidates : list FederatedRouteRegistration)
    (brokerSession : option nat) : vws unit :=
  let src := {| so_stream := brokerStream; so_hostId := None |} in
  io_catch
    (brokerDomain ← io_read (fun h => vw_brokerDomain h sourceId brokerSession);
     result ← routeFederationVwsInternal src open candidates brokerDomain;
     live ← source_live src open;
     if negb live then close_unless_gone (op_stream result)
     else
       _ ← io_do (wv_respond brokerStream 200
             (if 0 <? len (op_protocol result) then [(js "x-verser-ws-protocol", op_protocol result)] else []));
       io_do (wv_bridge brokerStream (op_stream result) (op_framed result)))
    (fun error =>
       open_still ← io_read (fun h => negb (vw_headersSent h brokerStream) && negb (vw_closed h brokerStream));
       destroyed ← io_read (fun h => vw_destroyed h brokerStream);
       io_when (open_still && negb destroyed)
         (_ ← io_do (wv_respond brokerStream 502 [(js "content-type", js "application/json")]);
          io_do (wv_end brokerStream (json_text (failure_body error))))).
Definition unregistered_broker (sourceId : jsstring) : negotiation_failure :=
  vws_error authorization_denied "WebSocket source Broker is not authorized for this session" [(js "sourceId", JStr sourceId)].
Definition no_route (targetId domain : jsstring) : negotiation_failure :=
  vws_error missing_guest "Target route is not available (revoked, degraded, or not found)" [(js "targetId", JStr targetId); (js "domain", JStr domain)].
Definition handleBrokerWebSocket (brokerStream : nat) (headers : IncomingHttpHeaders) : vws unit :=
  targetId ← io_lift (own_result (createPeerId (text_or headers "x-verser-target-id" [])));
  let domain := text_or headers "x-verser-domain" [] in
  let protocol := text_or headers "x-verser-ws-protocol" [] in
  let wsPath := text_or headers "x-verser-ws-path" (js "/") in
  sourceId ← io_lift (own_result (createPeerId (text_or headers "x-verser-source-id" [])));
  brokerSession ← io_read (fun h => vw_session h brokerStream);
  source ← io_read (fun h => match brokerSession with Some session => vw_peer h sourceId session | None => None end);
  if negb (match brokerSession with Some session => is_h2_broker session source | None => false end)
  then io_throw (unregistered_broker sourceId)
  else
    candidates ← io_read (fun h => vw_candidates h targetId domain);
    match candidates with
    | [] => io_throw (no_route targetId domain)
    | _ =>
        open ← io_lift (own_result (broker_open sourceId targetId domain protocol wsPath));
        serve_broker brokerStream sourceId open candidates brokerSession
    end.

(** The open frame of another host, and the answer it gets. *)
Definition read_open (s : nat) (context : VerserErrorContext) : vws FederationVwsOpen :=
  line ← ask (fun h => vw_line h s) (wv_line s);
  frame ← io_lift (own_result (decodeVwsFrame line));
  if is_str (js "open") (js_opt_member (js "type") frame) &&
     match js_opt_member (js "version") frame with JNum n => num_eqb n (num_int FEDERATION_VWS_VERSION) | _ => false end
  then io_lift (own_result (createFederationVwsOpen frame))
  else io_throw (vws_error protocol_error "Invalid federation VWS open frame" context).
Definition serve_open (s : nat) (peerHostId : jsstring) (context : VerserErrorContext) : vws unit :=
  io_catch
    (open ← read_open s context;
     _ ← io_lift (own_result (validateFederationVwsOpen H open (Some peerHostId)));
     candidates ← io_read (fun h => vw_candidates h (vo_targetId open) (vo_domain open));
     result ← routeFederationVwsInternal {| so_stream := s; so_hostId := Some peerHostId |} open candidates None;
     _ ← io_do (wv_write s (encodeVwsFrame (accept_json (op_protocol result))));
     io_do (wv_bridge s (op_stream result) true))
    (fun error =>
       closed ← io_read (fun h => vw_closed h s);
       io_when (negb closed) (io_do (wv_end s (encodeVwsFrame (failure_frame error))))).
Definition handleFederationVwsPeerStream (stream : nat) (peerHostId : jsstring) : vws unit :=
  serve_open stream peerHostId [(js "peerHostId", JStr peerHostId)].

Definition acquire_mode (headers : IncomingHttpHeaders) : bool := is_str (js "acquire") (prop (js "x-verser-federation-vws-mode") headers).
Definition unauthorized_source (hostId : jsstring) : negotiation_failure :=
  vws_error authorization_denied "Federation VWS source is not authorized" [(js "hostId", JStr hostId)].
Definition version_mismatch (hostId : jsstring) : negotiation_failure :=
  vws_error protocol_error "Federation VWS protocol version mismatch" [(js "hostId", JStr hostId)].
Definition right_version (headers : IncomingHttpHeaders) : bool :=
  num_eqb (to_number (nullish (prop (js "x-verser-federation-vws-version") headers) (JNum (num_int 0)))) (num_int FEDERATION_VWS_VERSION).
Definition duplicate_stream : jsstring :=
  json_text (JObj [(js "code", JStr (js "websocket-negotiation-failed")); (js "message", JStr (js "Duplicate federation VWS acquire stream"))]).
Definition handleFederationVwsStream (stream : nat) (headers : IncomingHttpHeaders) : vws unit :=
  let hostId := trim (text_or headers "x-verser-host-id" []) in
  let context := [(js "hostId", JStr hostId)] in
  session ← io_read (fun h => vw_session h stream);
  link ← io_read (fun h => vw_inbound h hostId);
  match link with
  | Some link =>
      if negb (bool_decide (Some (iv_session link) = session))
      then io_throw (unauthorized_source hostId)
      else if negb (right_version headers) then io_throw (version_mismatch hostId)
      else
        taken ← io_read (fun h => match iv_stream link with Some s => negb (gone h s) | None => false end);
        if acquire_mode headers && taken then
          _ ← io_do (wv_respond stream 409 [(js "content-type", js "application/json")]);
          io_do (wv_end stream duplicate_stream)
        else
          _ ← io_do (wv_respond stream 200 [(js "content-type", js "application/x-ndjson")]);
          if acquire_mode headers then io_do (wv_attach hostId stream)
          else serve_open stream hostId context
  | None => io_throw (unauthorized_source hostId)
  end.
End Opening.

(** * Theory *)
Section OpeningTheory.
Context {P : Platform} {W : VwsWorld} (H : vws_host).
Implicit Types (h : past) (src : vws_source) (open : FederationVwsOpen) (c : FederatedRouteRegistration).

(** Streams that were acquired, and how one is given up: it was found closed or
    destroyed, or it was cancelled. *)
Definition acquisition (e : vws_io) : list nat :=
  match e with wv_lease _ s | wv_reserve _ (Ok s) | wv_open _ (Ok s) => [s] | _ => [] end.
Definition acquisitions h : list nat := flat_map acquisition h.
Definition since h0 h : past := drop (length h0) h.
Definition released (s : nat) h : Prop := exists h1 h2, h = h1 ++ h2 /\ (gone h1 s = true \/ exists t, h2 = wv_close s :: t).
(** Everything acquired since [h0] is given up, apart from the stream that is kept. *)
Definition given_up (keep : option nat) h0 h : Prop := forall s, s ∈ acquisitions (since h0 h) -> Some s = keep \/ released s h.

Lemma released_later s h h' : h `prefix_of` h' -> released s h -> released s h'.
Proof using Type.
  intros [t ->] (h1 & h2 & -> & Hr). exists h1, (h2 ++ t). rewrite <- app_assoc. split; [done|].
  destruct Hr as [?|[t' ->]]; [by left|right]. by exists (t' ++ t).
Qed.
Lemma since_app h0 h t : h0 `prefix_of` h -> since h0 (h ++ t) = since h0 h ++ t.
Proof using Type. intros [k ->]. unfold since. by rewrite <- app_assoc, !drop_app_length. Qed.
Lemma acquisitions_app h h' : acquisitions (h ++ h') = acquisitions h ++ acquisitions h'.
Proof using Type. apply flat_map_app. Qed.
Lemma given_up_do keep h0 h e : h0 `prefix_of` h -> acquisition e = [] -> given_up keep h0 h -> given_up keep h0 (h ++ [e]).
Proof using Type.
  intros Hp He Hg s. rewrite since_app by done. rewrite acquisitions_app. cbn. rewrite He, !app_nil_r. intros Hs.
  destruct (Hg s Hs) as [?|?]; [by left|right]. eapply released_later; [by eexists|done].
Qed.
Lemma given_up_take h0 h e s : h0 `prefix_of` h -> acquisition e = [s] -> given_up None h0 h -> given_up (Some s) h0 (h ++ [e]).
Proof using Type.
  intros Hp He Hg x. rewrite since_app by done. rewrite acquisitions_app. cbn. rewrite He, app_nil_r, elem_of_app, list_elem_of_singleton.
  intros [Hx| ->]; [|by left]. destruct (Hg x Hx) as [?|?]; [done|right]. eapply released_later; [by eexists|done].
Qed.
Lemma given_up_all keep s h0 h : keep = Some s -> released s h -> given_up keep h0 h -> given_up None h0 h.
Proof using Type. intros -> Hr Hg x Hx. destruct (Hg x Hx) as [[= ->]|?]; by right. Qed.

(** The authorizer's answer for the pair was the last thing that happened, and the
    candidate's target still has a route under its domain. *)
Definition authorized src open previousHopDomain c h : Prop :=
  needs_authorization H src c = false \/
  exists h1 p, previous_hop src open previousHopDomain = Some p /\ p <> [] /\
    h = h1 ++ [wv_authorize p (fr_domain c) (Ok true)] /\ vw_candidates h (fr_targetId c) (fr_domain c) <> [].
(** The stream was just acquired for the candidate. *)
Definition acquired_for c (s : nat) h : Prop :=
  exists h1 e, h = h1 ++ [e] /\
    if is_local c then e = wv_lease (fr_targetId c) s else e = wv_reserve (fr_nextHopHostId c) (Ok s) \/ exists u, e = wv_open u (Ok s).

Definition opening_allowed src open previousHopDomain (cs : list FederatedRouteRegistration) h0 h (e : vws_io) : Prop :=
  let live := isFederationVwsSourceLive src open h = Ok true in
  let candidate c := c ∈ cs /\ leads_back src c = false in
  match e with
  | wv_authorize p d _ => live /\ p <> [] /\ previous_hop src open previousHopDomain = Some p /\ exists c, candidate c /\ d = fr_domain c
  | wv_lease g s => live /\ exists c, candidate c /\ authorized src open previousHopDomain c h /\ is_local c = true /\
      g = fr_targetId c /\ head (vw_leases h g) = Some s
  | wv_reserve n _ => live /\ exists c, candidate c /\ authorized src open previousHopDomain c h /\ is_local c = false /\ n = fr_nextHopHostId c
  | wv_open u _ => live /\ exists c link, candidate c /\ authorized src open previousHopDomain c h /\ is_local c = false /\
      (u, link) ∈ vw_upstreams h /\ usable_link (fr_nextHopHostId c) h (u, link) = true
  | wv_write s line => live /\ exists c frame, candidate c /\ acquired_for c s h /\ forwarded_frame H open c = Ok frame /\ line = encodeVwsFrame frame
  | wv_accept s _ | wv_negotiate s _ => exists h1 line, h = h1 ++ [wv_write s line]
  | wv_close s => s ∈ acquisitions (since h0 h)
  | _ => False
  end.

Lemma live_total src open h : isFederationVwsSourceLive src open h = Ok true -> forall h', exists b, isFederationVwsSourceLive src open h' = Ok b.
Proof using Type.
  unfold isFederationVwsSourceLive. intros Hl h'. destruct (vw_session h' (so_stream src)) as [s'|]; [|eauto].
  destruct (_ || _ || _); [eauto|]. destruct (so_hostId src); [eauto|].
  destruct (vw_session h (so_stream src)); [|done]. destruct (_ || _ || _) in Hl; [done|].
  destruct (own_result _); [|done]. eauto.
Qed.
Lemma local_accept_offered offered line p : local_accept offered line = Ok p -> p = [] \/ offered = Some p.
Proof using Type.
  unfold local_accept. destruct (json_parse line) as [f|]; [|done]. destruct (js_member _ f) as [t|]; [|done].
  destruct (is_str (js "error") t); [done|]. destruct (is_str (js "accept") t); [|done].
  destruct (js_opt_member (js "protocol") f) as [| | | |a| |]; try done; [intros [= <-]; by left|].
  destruct (bool_decide (a = [])) eqn:E; cbn [negb andb].
  - apply bool_decide_eq_true in E as ->. intros [= <-]. by left.
  - destruct (bool_decide (a = default [] offered)) eqn:E2; [|done]. cbn. intros [= <-]. apply bool_decide_eq_false in E.
    apply bool_decide_eq_true in E2. right. destruct offered; cbn in E2; congruence.
Qed.

Section Opening.
Context (src : vws_source) (open : FederationVwsOpen) (previousHopDomain : option jsstring) (all : list FederatedRouteRegistration) (h0 : past).
Context (Htotal : forall h, exists b, isFederationVwsSourceLive src open h = Ok b).
Abbreviation Q := (opening_allowed src open previousHopDomain all h0).

Lemma close_released {A} keep s h (Post : result negotiation_failure A -> past -> Prop) e :
  h0 `prefix_of` h -> keep = Some s -> s ∈ acquisitions (since h0 h) -> given_up keep h0 h ->
  (forall h', h `prefix_of` h' -> given_up None h0 h' -> Post (Throw e) h') ->
  wp Q (_ ← close_unless_gone s; io_throw e) Post h.
Proof using Type.
  intros Hp Hk Hs Hg HP. unfold close_unless_gone. do 4 wp_step.
  - wp_step; [exact Hs|]. wp_step. apply HP; [by eexists|].
    apply (given_up_all (Some s) s); [done| |rewrite <- Hk; by apply given_up_do].
    exists h, [wv_close s]. split; [done|]. right. by exists [].
  - wp_step. apply HP; [done|]. apply (given_up_all keep s); [done| |done]. exists h, []. rewrite app_nil_r. split; [done|]. left. by apply negb_false_iff.
Qed.

Lemma authorize_spec c h : c ∈ all -> leads_back src c = false -> needs_authorization H src c = true ->
  isFederationVwsSourceLive src open h = Ok true -> h0 `prefix_of` h -> given_up None h0 h ->
  wp Q (authorize_candidate src open previousHopDomain c)
    (fun r h' => given_up None h0 h' /\ (r = Ok tt -> isFederationVwsSourceLive src open h' = Ok true /\ authorized src open previousHopDomain c h')) h.
Proof using Htotal.
  intros Hc Hb Hn Hl Hp Hg. unfold authorize_candidate.
  destruct (previous_hop src open previousHopDomain) as [[|u p]|] eqn:Ep; [by wp_step|..|by wp_step].
  assert (forall a, given_up None h0 (h ++ [wv_authorize (u :: p) (fr_domain c) a])) as Hg' by (intros a; by apply given_up_do).
  unfold ask, source_live. do 2 wp_step; [split_and!; [done|done|exact Ep|by exists c]|].
  destruct (vw_authorize h (u :: p) (fr_domain c)) as [allowed|e] eqn:Ea; cbn [own_result] in *; [|by split].
  do 2 wp_step. match goal with |- context [isFederationVwsSourceLive src open ?x] => destruct (Htotal x) as [b Eb]; rewrite Eb end.
  destruct b; cbn [negb]; [|by wp_step]. destruct allowed; cbn [negb]; [|by wp_step].
  do 2 wp_step. destruct (vw_candidates _ _ _) eqn:Ecs; wp_step; split; try done. intros _. split; [done|]. right.
  exists h, (u :: p). split_and!; try done. by rewrite Ecs.
Qed.

Lemma acquire_spec c h : c ∈ all -> leads_back src c = false -> authorized src open previousHopDomain c h ->
  isFederationVwsSourceLive src open h = Ok true -> h0 `prefix_of` h -> given_up None h0 h ->
  wp Q (acquire_destination H c)
    (fun r h' => match r with
                 | Ok s => given_up (Some s) h0 h' /\ acquired_for c s h' /\ s ∈ acquisitions (since h0 h')
                 | Throw _ => given_up None h0 h' end) h.
Proof using Type.
  intros Hc Hb Ha Hl Hp Hg. unfold acquire_destination. destruct (is_local c) eqn:Elc.
  - do 2 wp_step. destruct (vw_leases h (fr_targetId c)) as [|s ls] eqn:El; [by wp_step|]. do 2 wp_step.
    { split; [done|]. exists c. split_and!; try done. by rewrite El. }
    wp_step. split; [by apply given_up_take|]. split.
    + unfold acquired_for. rewrite Elc. by exists h, (wv_lease (fr_targetId c) s).
    + rewrite since_app, acquisitions_app by done. apply elem_of_app. right. by left.
  - assert (forall (e : result negotiation_failure nat -> vws_io) r, (forall a, acquisition (e (Throw a)) = []) -> (forall s, acquisition (e (Ok s)) = [s]) ->
      (forall s h1, acquired_for c s (h1 ++ [e (Ok s)])) ->
      match r with
      | Ok s => given_up (Some s) h0 (h ++ [e r]) /\ acquired_for c s (h ++ [e r]) /\ s ∈ acquisitions (since h0 (h ++ [e r]))
      | Throw _ => given_up None h0 (h ++ [e r]) end) as Hpost.
    { intros e r He1 He2 He3. destruct r as [s|a]; [|by apply given_up_do]. split; [by apply given_up_take|]. split; [done|].
      rewrite since_app, acquisitions_app by done. apply elem_of_app. right. cbn. rewrite He2. by left. }
    do 2 wp_step. destruct (vw_inbound h (fr_nextHopHostId c)) as [i|] eqn:Ei.
    + unfold ask. wp_step; [split; [done|]; exists c; auto|]. apply (Hpost (wv_reserve (fr_nextHopHostId c))); try done.
      intros s h1. unfold acquired_for. rewrite Elc. eexists h1, _. eauto.
    + do 2 wp_step. destruct (head _) as [[u link]|] eqn:Eu; [|by wp_step].
      apply head_Some_elem_of in Eu as [Eu Hu]%list_elem_of_filter. do 2 wp_step.
      destruct (getFederationHostId H) as [localHostId|e]; cbn [own_result]; [|done].
      unfold ask. wp_step; [split; [done|]; exists c, link; auto 10|]. apply (Hpost (wv_open u)); try done.
      intros s h1. unfold acquired_for. rewrite Elc. eexists h1, _. eauto.
Qed.

Lemma negotiate_spec c s h : c ∈ all -> leads_back src c = false -> acquired_for c s h ->
  isFederationVwsSourceLive src open h = Ok true -> h0 `prefix_of` h -> given_up (Some s) h0 h -> s ∈ acquisitions (since h0 h) ->
  wp Q (negotiate H open c s)
    (fun r h' => h `prefix_of` h' /\ given_up (Some s) h0 h' /\ s ∈ acquisitions (since h0 h') /\
       match r with Ok p => is_local c = true -> p = [] \/ vo_protocol open = Some p | Throw _ => True end) h.
Proof using Type.
  intros Hc Hb Ha Hl Hp Hg Hs.
  assert (forall h' e, h0 `prefix_of` h' -> s ∈ acquisitions (since h0 h') -> s ∈ acquisitions (since h0 (h' ++ [e]))) as Hs'.
  { intros h' e Hp' Hin. rewrite since_app, acquisitions_app by done. apply elem_of_app. by left. }
  unfold negotiate. do 2 wp_step. destruct (forwarded_frame H open c) as [frame|e] eqn:Ef; cbn [own_result]; [|by split_and!].
  assert (h0 `prefix_of` h ++ [wv_write s (encodeVwsFrame frame)]) as Hp1 by (etrans; [done|by eexists]).
  assert (given_up (Some s) h0 (h ++ [wv_write s (encodeVwsFrame frame)])) as Hg1 by (by apply given_up_do).
  do 2 wp_step; [split; [done|]; exists c, frame; auto|].
  destruct (is_local c) eqn:Elc.
  - do 2 wp_step; [by eexists _, _|]. destruct (accepted _ _) as [line|e].
    + wp_step. split; [rewrite <- app_assoc; by eexists|]. split; [by apply given_up_do|]. split; [by apply Hs', Hs'|].
      destruct (local_accept _ _) as [p|e] eqn:Ea; [|done]. intros _. by eapply local_accept_offered.
    + split; [rewrite <- app_assoc; by eexists|]. split; [by apply given_up_do|]. by split; [apply Hs', Hs'|].
  - do 2 wp_step; [by eexists _, _|]. destruct (negotiated _ _) as [p|e].
    + wp_step. split; [rewrite <- app_assoc; by eexists|]. split; [by apply given_up_do|]. by split; [apply Hs', Hs'|].
    + split; [rewrite <- app_assoc; by eexists|]. split; [by apply given_up_do|]. by split; [apply Hs', Hs'|].
Qed.

(** What an opened WebSocket is. *)
Definition opened_ok (o : vws_opened) h' : Prop :=
  isFederationVwsSourceLive src open h' = Ok true /\ op_stream o ∈ acquisitions (since h0 h') /\ given_up (Some (op_stream o)) h0 h' /\
  exists c, c ∈ all /\ leads_back src c = false /\ op_framed o = bool_decide (is_Some (so_hostId src)) || negb (is_local c) /\
    (is_local c = true -> op_protocol o = [] \/ vo_protocol open = Some (op_protocol o)).
Definition opening_result (r : result negotiation_failure vws_opened) h' : Prop :=
  match r with Ok o => opened_ok o h' | Throw _ => given_up None h0 h' end.

Lemma try_candidate_spec c h : c ∈ all -> leads_back src c = false ->
  isFederationVwsSourceLive src open h = Ok true -> h0 `prefix_of` h -> given_up None h0 h ->
  wp Q (try_candidate H src open previousHopDomain c) opening_result h.
Proof using Htotal.
  intros Hc Hb Hl Hp Hg. unfold try_candidate. wp_step.
  eapply (wp_call _ _ (fun r h' => given_up None h0 h' /\ (r = Ok tt -> isFederationVwsSourceLive src open h' = Ok true /\ authorized src open previousHopDomain c h'))).
  { wp_step; [by apply authorize_spec|]. wp_step. split; [done|]. intros _. split; [done|]. by left. }
  intros [[]|e] h1 Hh1 [Hg1 Ha]; [|done]. destruct (Ha eq_refl) as [Hl1 Ha1]. clear Ha. assert (h0 `prefix_of` h1) as Hp1 by (by etrans).
  wp_step. eapply wp_call; [by apply (acquire_spec c)|]. intros [s|e] h2 Hh2; [|done]. intros (Hg2 & Hq & Hs2).
  assert (h0 `prefix_of` h2) as Hp2 by (by etrans). unfold source_live. do 2 wp_step. destruct (Htotal h2) as [b Eb]. rewrite Eb.
  destruct b; cbn [negb]; [|by eapply close_released].
  do 2 wp_step. eapply wp_call; [by apply (negotiate_spec c s)|]. intros [p|e] h3 Hh3 (Hpre & Hg3 & Hs3 & Hpr).
  - assert (h0 `prefix_of` h3) as Hp3 by (by etrans). do 2 wp_step. destruct (Htotal h3) as [b Eb3]. rewrite Eb3.
    destruct b; cbn [negb]; [|by eapply close_released]. wp_step. split_and!; try done. by exists c.
  - eapply close_released; [by etrans|done..].
Qed.

Lemma candidates_spec cs e h : (forall c, c ∈ cs -> c ∈ all) -> h0 `prefix_of` h -> given_up None h0 h ->
  wp Q (vws_candidates H src open previousHopDomain cs e) opening_result h.
Proof using Htotal.
  revert e h. induction cs as [|c cs IH]; intros e h Hall Hp Hg; cbn [vws_candidates]; [by wp_step|].
  assert (c ∈ all) as Hc by (apply Hall; by left). assert (forall x, x ∈ cs -> x ∈ all) as Hall' by (intros x Hx; apply Hall; by right).
  unfold source_live. do 2 wp_step. destruct (Htotal h) as [b Eb]. rewrite Eb. destruct b; cbn [negb]; [|by wp_step].
  destruct (leads_back src c) eqn:El; [by apply IH|]. do 2 wp_step. eapply wp_call; [by apply try_candidate_spec|].
  intros [o|e'] h1 Hh1 Ho; [by wp_step|]. do 2 wp_step. destruct (Htotal h1) as [b Eb1]. rewrite Eb1.
  destruct b; cbn [negb]; [|by wp_step]. apply IH; [done|by etrans|done].
Qed.
End Opening.

(** Opening a WebSocket, whatever happens meanwhile. When the source is not
    live nothing is done. Otherwise a stream towards a candidate is acquired only
    while the source is live, for a candidate that does not lead back to the host
    the frame came from, and right after the authorizer allowed the pair of the
    previous hop and the candidate's domain, where that is needed; what is written
    is the open frame of that candidate, and only to the stream just acquired for
    it. On success the source is live, the stream is one of those acquired, and a
    guest accepted no protocol but the offered one. Every other stream that was
    acquired has been cancelled or was found closed, also when the opening fails. *)
Lemma route_spec src open candidates previousHopDomain h :
  wp (fun h' e => isFederationVwsSourceLive src open h = Ok true /\ opening_allowed src open previousHopDomain candidates h h' e)
    (routeFederationVwsInternal H src open candidates previousHopDomain)
    (fun r h' => opening_result src open candidates h r h' /\ (isFederationVwsSourceLive src open h <> Ok true -> h' = h)) h.
Proof using Type.
  unfold routeFederationVwsInternal, source_live. do 2 wp_step.
  assert (given_up None h h) as Hg by (intros s; unfold since; rewrite drop_all; by intros ?%elem_of_nil).
  destruct (isFederationVwsSourceLive src open h) as [[|]|e] eqn:El; cbn [negb]; [|by wp_step|by split].
  eapply wp_weaken; [by intros ? ? ?; split|]. eapply wp_call; [apply candidates_spec; [by eapply live_total|done|done|done]|].
  by intros r h' _ ?.
Qed.

(** ** A WebSocket that another host opens *)
(** The line holds this open frame. *)
Definition opens (line : jsstring) (open : FederationVwsOpen) : Prop :=
  exists frame, decodeVwsFrame line = Ok frame /\ is_str (js "open") (js_opt_member (js "type") frame) = true /\
    match js_opt_member (js "version") frame with JNum n => num_eqb n (num_int FEDERATION_VWS_VERSION) | _ => false end = true /\ createFederationVwsOpen frame = Ok open.
Definition incoming_allowed (s : nat) (peerHostId : jsstring) h0 h (e : vws_io) : Prop :=
  (exists a, e = wv_line s a /\ h = h0) \/
  (exists open candidates local line, h0 ++ [wv_line s (Ok line)] `prefix_of` h /\ opens line open /\
     getFederationHostId H = Ok local /\ open_valid H local (Some peerHostId) open /\
     candidates = vw_candidates (h0 ++ [wv_line s (Ok line)]) (vo_targetId open) (vo_domain open) /\
     let src := {| so_stream := s; so_hostId := Some peerHostId |} in
     isFederationVwsSourceLive src open (h0 ++ [wv_line s (Ok line)]) = Ok true /\
     (opening_allowed src open None candidates (h0 ++ [wv_line s (Ok line)]) h e \/
      exists o, isFederationVwsSourceLive src open h = Ok true /\ e = wv_write s (encodeVwsFrame (accept_json (op_protocol o))) \/
        exists h1, h = h1 ++ [wv_write s (encodeVwsFrame (accept_json (op_protocol o)))] /\ e = wv_bridge s (op_stream o) true)) \/
  (exists f, e = wv_end s (encodeVwsFrame (failure_frame f)) /\ given_up None h0 h).

(** Bridged to [d] behind the answer [e], with everything else given up. *)
Definition bridged (s d : nat) (e : vws_io) (framed : bool) h0 h' : Prop :=
  (exists h1, h' = h1 ++ [e; wv_bridge s d framed]) /\ d ∈ acquisitions (since h0 h') /\ given_up (Some d) h0 h'.
(** Answered and bridged, or nothing is kept and the failure is told unless the
    stream is closed. *)
Definition told (s : nat) h0 h' : Prop :=
  (exists d protocol, bridged s d (wv_write s (encodeVwsFrame (accept_json protocol))) true h0 h') \/
  given_up None h0 h' /\ ((exists h1 f, h' = h1 ++ [wv_end s (encodeVwsFrame (failure_frame f))]) \/ vw_closed h' s = true).

Lemma given_up_base keep h0 e h : acquisition e = [] -> h0 ++ [e] `prefix_of` h -> given_up keep (h0 ++ [e]) h -> given_up keep h0 h.
Proof using Type.
  intros He [k ->] Hg s. specialize (Hg s). rewrite <- app_assoc in *. unfold since in *. rewrite app_assoc, drop_app_length in Hg.
  rewrite drop_app_length. cbn [app] in *. unfold acquisitions. cbn [flat_map]. rewrite He. by rewrite <- app_assoc in Hg.
Qed.
Lemma since_base h0 e h s : h0 ++ [e] `prefix_of` h -> s ∈ acquisitions (since (h0 ++ [e]) h) -> s ∈ acquisitions (since h0 h).
Proof using Type.
  intros [k ->] Hs. unfold since in *. rewrite drop_app_length in Hs. rewrite <- app_assoc, drop_app_length, acquisitions_app. apply elem_of_app. by right.
Qed.
Lemma given_up_self h : given_up None h h.
Proof using Type. intros s. unfold since. rewrite drop_all. by intros ?%elem_of_nil. Qed.

Lemma read_open_spec (Q : past -> vws_io -> Prop) s context h : (forall a, Q h (wv_line s a)) ->
  wp Q (read_open s context) (fun r h' => exists a, h' = h ++ [wv_line s a] /\ match r with Ok o => open_ok o /\ exists line, a = Ok line /\ opens line o | Throw _ => True end) h.
Proof using Type.
  intros HQ. unfold read_open, ask. do 2 wp_step; [apply HQ|]. destruct (own_result (vw_line h s)) as [line|e]; [|by eexists].
  do 2 wp_step. destruct (decodeVwsFrame line) as [f|e] eqn:Ed; cbn [own_result]; [|by eexists].
  wp_step; wp_step; eexists; split; try done. destruct (createFederationVwsOpen f) as [o|e] eqn:E; cbn [own_result]; [|done].
  split; [by apply createFederationVwsOpen_ok in E|]. exists line. split; [done|]. exists f. split; [done|]. apply andb_true_iff in Heqb as [Ht Hv]. by split_and!.
Qed.

(** The answer that follows an opening. *)
Lemma bridge_spec (Q : past -> vws_io -> Prop) s d framed e h0 h : h0 `prefix_of` h -> acquisition e = [] ->
  d ∈ acquisitions (since h0 h) -> given_up (Some d) h0 h -> Q h e -> Q (h ++ [e]) (wv_bridge s d framed) ->
  wp Q (_ ← io_do e; io_do (wv_bridge s d framed)) (fun (r : result negotiation_failure unit) h' => r = Ok tt /\ bridged s d e framed h0 h') h.
Proof using Type.
  intros Hp He Hd Hg H1 H2. do 2 wp_step; [exact H1|]. wp_step; [exact H2|]. split; [done|].
  assert (h0 `prefix_of` h ++ [e]) by (etrans; [done|by eexists]). split; [exists h; by rewrite <- app_assoc|]. split.
  - rewrite !since_app, !acquisitions_app by done. apply elem_of_app. left. apply elem_of_app. by left.
  - apply given_up_do; [done|done|]. by apply given_up_do.
Qed.

Lemma incoming_kinds s peerHostId h0 h e : incoming_allowed s peerHostId h0 h e -> match e with wv_respond _ _ _ | wv_attach _ _ => False | _ => True end.
Proof using Type.
  by intros [(a & -> & _)|[(o & cs & l & a & _ & _ & _ & _ & _ & _ & [He|(o' & [[_ ->]|(h1 & _ & ->)])])|(f & -> & _)]]; [|destruct e| | |].
Qed.

Lemma serve_open_spec s peerHostId context h :
  wp (incoming_allowed s peerHostId h) (serve_open H s peerHostId context) (fun r h' => r = Ok tt /\ told s h h') h.
Proof using Type.
  unfold serve_open. wp_step.
  eapply (wp_call _ _ (fun r h' => match r with Ok _ => exists d protocol, bridged s d (wv_write s (encodeVwsFrame (accept_json protocol))) true h h'
                                                | Throw _ => given_up None h h' end)).
  - wp_step. eapply wp_call; [apply (read_open_spec _ s context); intros a; left; by exists a|].
    intros [o|e] h1 _ (a & -> & Ho); [|by apply given_up_do, given_up_self]. destruct Ho as [Ho (line & -> & Hopens)]. set (hl := h ++ [wv_line s (Ok line)]).
    assert (h `prefix_of` hl) as Hp by (by eexists). assert (given_up None h hl) as Hg by (apply given_up_do; [done|done|apply given_up_self]).
    do 2 wp_step. destruct (validateFederationVwsOpen H o (Some peerHostId)) as [[]|e] eqn:Ev; cbn [own_result]; [|done].
    assert (exists local, getFederationHostId H = Ok local) as [local El].
    { unfold validateFederationVwsOpen in Ev. destruct (getFederationHostId H) as [local|]; [by exists local|done]. }
    apply (validate_Ok H local) in Ev; [|done]. do 2 wp_step. set (cs := vw_candidates hl _ _). set (src := {| so_stream := s; so_hostId := Some peerHostId |}).
    assert (forall h' e, hl `prefix_of` h' -> isFederationVwsSourceLive src o hl = Ok true ->
      (opening_allowed src o None cs hl h' e \/
       exists o', isFederationVwsSourceLive src o h' = Ok true /\ e = wv_write s (encodeVwsFrame (accept_json (op_protocol o'))) \/
         exists h1, h' = h1 ++ [wv_write s (encodeVwsFrame (accept_json (op_protocol o')))] /\ e = wv_bridge s (op_stream o') true) ->
      incoming_allowed s peerHostId h h' e) as Hal.
    { intros h' e Hpre Hl He. right. left. exists o, cs, local, line. by split_and!. }
    wp_step. eapply wp_call; [apply wp_from; eapply wp_weaken; [|apply (route_spec src o cs None hl)]|].
    { intros h' e [Hl Ha] Hpre. apply Hal; auto. }
    intros [o'|e] h2 Hp2 [Hr Hno].
    + destruct Hr as (Hl & Hin & Hg2 & _). assert (isFederationVwsSourceLive src o hl = Ok true) as Hl0.
      { destruct (isFederationVwsSourceLive src o hl) as [[|]|e] eqn:E; [done|..]; rewrite (Hno ltac:(done)) in Hl; congruence. }
      eapply wp_call; [apply (bridge_spec _ s (op_stream o') true _ h)|]; try done; [by etrans| | | | |].
      * by eapply since_base.
      * by apply (given_up_base _ _ (wv_line s (Ok line))).
      * apply Hal; [done|done|]. right. exists o'. by left.
      * apply Hal; [etrans; [done|by eexists]|done|]. right. exists o'. right. by exists h2.
      * intros r h3 _ [-> Hb]. by exists (op_stream o'), (op_protocol o').
    + by apply (given_up_base _ _ (wv_line s (Ok line))).
  - intros [[]|e] h1 Hp1 Hs; [split; [done|by left]|]. do 2 wp_step. wp_step.
    + wp_step; [right; right; by exists e|]. split; [done|]. right. split; [by apply given_up_do|]. left. by exists h1, e.
    + split; [done|]. right. split; [done|]. right. by apply negb_false_iff.
Qed.

(** Whether the stream named by the inbound host belongs to it. *)
Definition inbound_source (stream : nat) (hostId : jsstring) h : option inbound_vws :=
  match vw_inbound h hostId with
  | Some link => if bool_decide (Some (iv_session link) = vw_session h stream) then Some link else None
  | None => None
  end.
Definition acquire_taken (link : inbound_vws) h : bool := match iv_stream link with Some s => negb (gone h s) | None => false end.
(** C4: A federation stream of another host. A stream that is not of the session of
    the inbound host it names is refused, as is one of another version, and nothing
    else happens. An acquire stream is kept when the host has no open one, and
    refused when it has. On any other stream a line is read; a route is looked for
    only when that line holds an open frame bound to this host and to the sender,
    without a loop and with hops left, and then under the rules of opening for that
    frame, its domain being that of the previous hop. In the end the stream is
    bridged to one acquired stream, after an accept frame, or the error was the last
    thing told unless the stream is closed; every other acquired stream is given up. *)
Theorem federation_vws_safe stream headers h :
  let hostId := trim (header_text_or headers "x-verser-host-id" []) in
  let opened := h ++ [wv_respond stream 200 [(js "content-type", js "application/x-ndjson")]] in
  wp (fun h' e => match e with
      | wv_respond s _ _ => s = stream /\ h' = h
      | wv_attach g s => g = hostId /\ s = stream /\ acquire_mode headers = true /\ h' = opened
      | _ => e = wv_end stream duplicate_stream /\ acquire_mode headers = true \/ acquire_mode headers = false /\ incoming_allowed stream hostId opened h' e
      end)
    (handleFederationVwsStream H stream headers)
    (fun r h' => match inbound_source stream hostId h with
       | None => r = Throw (unauthorized_source hostId) /\ h' = h
       | Some link =>
           if negb (right_version headers) then r = Throw (version_mismatch hostId) /\ h' = h
           else r = Ok tt /\
             if acquire_mode headers then
               h' = if acquire_taken link h then h ++ [wv_respond stream 409 [(js "content-type", js "application/json")]; wv_end stream duplicate_stream]
                    else opened ++ [wv_attach hostId stream]
             else told stream opened h'
       end) h.
Proof using Type.
  intros hostId opened. unfold handleFederationVwsStream, text_or, inbound_source. fold hostId. cbv zeta. do 4 wp_step.
  destruct (vw_inbound h hostId) as [link|]; [|by wp_step]. destruct (bool_decide (Some (iv_session link) = vw_session h stream)); cbn [negb]; [|by wp_step].
  wp_step; [by wp_step|]. do 2 wp_step. fold (acquire_taken link h). destruct (acquire_mode headers) eqn:Em; cbn [andb].
  - destruct (acquire_taken link h).
    + do 2 wp_step; [done|]. wp_step; [by left|]. split; [done|]. by rewrite <- app_assoc.
    + do 2 wp_step; [done|]. by wp_step.
  - do 2 wp_step; [done|]. eapply wp_weaken; [|apply serve_open_spec].
    intros h' e He. pose proof (incoming_kinds _ _ _ _ _ He) as Hk. destruct e; try done; by right.
Qed.

(** ** A WebSocket that a broker opens *)
Definition broker_allowed (stream : nat) (open : FederationVwsOpen) previousHopDomain candidates h0 h (e : vws_io) : Prop :=
  let src := {| so_stream := stream; so_hostId := None |} in
  opening_allowed src open previousHopDomain candidates h0 h e \/
  match e with
  | wv_respond s 200 _ => s = stream /\ isFederationVwsSourceLive src open h = Ok true
  | wv_bridge s d _ => s = stream /\ d ∈ acquisitions (since h0 h)
  | wv_respond s 502 _ => s = stream /\ given_up None h0 h /\ gone h stream = false /\ vw_headersSent h stream = false
  | wv_end s _ => s = stream /\ given_up None h0 h
  | _ => False
  end.

Lemma broker_open_ok sourceId targetId domain protocol path open : broker_open H sourceId targetId domain protocol path = Ok open ->
  open_ok open /\ vo_sourceId open = sourceId /\ vo_targetId open = targetId /\ vo_domain open = domain /\
  (forall local, getFederationHostId H = Ok local -> starts_at local open).
Proof using Type.
  intros E. pose proof (createFederationVwsOpen_ok _ _ E) as Hok. unfold broker_open in E. set (f := _ ++ _) in E.
  assert (prop (js "sourceId") f = JStr sourceId) as E1 by done. assert (prop (js "targetId") f = JStr targetId) as E2 by done.
  assert (prop (js "domain") f = JStr domain) as E3 by done.
  assert (prop (js "originHostId") f = JStr (default (js "host-local") (vh_hostId H))) as E4 by (unfold f; by destruct (0 <? len protocol)).
  assert (prop (js "viaHostIds") f = JArr (match vh_hostId H with Some id => [JStr id] | None => [] end)) as E5 by (unfold f; by destruct (0 <? len protocol)).
  assert (prop (js "hopCount") f = JNum (num_int 0)) as E6 by (unfold f; by destruct (0 <? len protocol)).
  clearbody f. unfold createFederationVwsOpen in E. rewrite E1, E2, E3, E4, E5, E6 in E.
  apply bind_Ok_inv in E as (s & [[= <-] _]%nonempty_string_Ok & E). apply bind_Ok_inv in E as (t & [[= <-] _]%nonempty_string_Ok & E).
  apply bind_Ok_inv in E as (d & [[= <-] _]%nonempty_string_Ok & E). apply bind_Ok_inv in E as (p & _ & E).
  change (isValidHopCount (JNum (num_int 0))) with (Some 0) in E. cbv iota in E.
  apply bind_Ok_inv in E as (pr & _ & E). apply bind_Ok_inv in E as (g & Hg & E). apply bind_Ok_inv in E as (l & Hl & E). injection E as <-.
  split_and!; try done. intros local Hid. unfold getFederationHostId in Hid. revert Hid Hg Hl. destruct (vh_hostId H) as [id|]; [|done].
  destruct (_ =? 0); [done|]. intros Hid Hg Hl. change (createVerserHostId (JStr id) = Ok g) in Hg. assert (g = local) as -> by congruence. cbn [map_res] in Hl. rewrite Hid in Hl.
  injection Hl as <-. by split_and!.
Qed.

(** How the broker's stream ends: answered and bridged; or nothing is kept, and it
    is told the failure, or was gone or answered already, or its source was. *)
Definition answered_broker (stream : nat) open h0 h' : Prop :=
  (exists d hs framed, bridged stream d (wv_respond stream 200 hs) framed h0 h') \/
  given_up None h0 h' /\
    ((exists h1 f, h' = h1 ++ [wv_respond stream 502 [(js "content-type", js "application/json")]; wv_end stream (json_text (failure_body f))]) \/
     gone h' stream = true \/ vw_headersSent h' stream = true \/
     exists h1, h1 `prefix_of` h' /\ isFederationVwsSourceLive {| so_stream := stream; so_hostId := None |} open h1 = Ok false).

Lemma serve_broker_spec stream sourceId open candidates session h :
  wp (broker_allowed stream open (vw_brokerDomain h sourceId session) candidates h)
    (serve_broker H stream sourceId open candidates session) (fun r h' => r = Ok tt /\ answered_broker stream open h h') h.
Proof using Type.
  unfold serve_broker. cbv zeta. set (src := {| so_stream := stream; so_hostId := None |}). wp_step.
  eapply (wp_call _ _ (fun r h' => match r with Ok _ => answered_broker stream open h h' | Throw _ => given_up None h h' end)).
  - do 3 wp_step. eapply wp_call; [eapply wp_weaken; [|apply (route_spec src open candidates _ h)]; intros h' e [_ He]; by left|].
    intros [o|e] h1 Hp [Hr Hno]; [|done]. destruct Hr as (Hl & Hin & Hg & _). unfold source_live. do 2 wp_step. rewrite Hl. cbn [negb].
    eapply wp_call; [apply (bridge_spec _ stream (op_stream o) (op_framed o) _ h); try done; [by right|]; right; split; [done|]|].
    + rewrite since_app, acquisitions_app by done. apply elem_of_app. by left.
    + intros r h' _ [-> Hb]. left. eauto.
  - intros [[]|e] h1 Hp Hs; [done|]. do 5 wp_step.
    + do 2 wp_step.
      * right. split; [done|]. split; [done|]. bools. unfold gone. split; [|done]. by rewrite orb_false_iff.
      * wp_step; [right; split; [done|by apply given_up_do]|]. split; [done|]. right. split.
        -- apply given_up_do; [etrans; [done|by eexists]|done|]. by apply given_up_do.
        -- left. exists h1, e. by rewrite <- app_assoc.
    + split; [done|]. right. split; [done|]. unfold gone. destruct (vw_headersSent h1 stream), (vw_closed h1 stream), (vw_destroyed h1 stream); auto; done.
Qed.

(** Whether the stream's session is that of a registered broker of this id. *)
Definition registered_broker (stream : nat) (sourceId : jsstring) h : bool :=
  match vw_session h stream with Some session => is_h2_broker session (vw_peer h sourceId session) | None => false end.

(** C3: A broker's WebSocket. Unless the stream's session is that of a registered
    broker of the id the stream names, it is refused and nothing happens; the same
    when the target has no route under the domain. Otherwise the open frame, made of
    the headers of the stream, starts its journey at this host, a stream is opened
    under the rules of opening, the previous hop being the broker's own domain, the
    broker is answered 200 only while it is live, and 502 only when nothing is kept;
    in the end it is bridged to one stream, or was told the failure, or was gone. *)
Theorem broker_vws_safe stream headers h :
  let domain := header_text_or headers "x-verser-domain" [] in
  wp (fun h' e => exists sourceId targetId open,
        createPeerId (header_text_or headers "x-verser-source-id" []) = Ok sourceId /\
        createPeerId (header_text_or headers "x-verser-target-id" []) = Ok targetId /\
        registered_broker stream sourceId h = true /\ vw_candidates h targetId domain <> [] /\
        broker_open H sourceId targetId domain (header_text_or headers "x-verser-ws-protocol" []) (header_text_or headers "x-verser-ws-path" (js "/")) = Ok open /\
        vo_sourceId open = sourceId /\ vo_targetId open = targetId /\ vo_domain open = domain /\ open_ok open /\
        (forall local, getFederationHostId H = Ok local -> starts_at local open) /\
        broker_allowed stream open (vw_brokerDomain h sourceId (vw_session h stream)) (vw_candidates h targetId domain) h h' e)
    (handleBrokerWebSocket H stream headers)
    (fun r h' => (is_ok r = false -> h' = h) /\
       forall sourceId targetId, createPeerId (header_text_or headers "x-verser-source-id" []) = Ok sourceId ->
         createPeerId (header_text_or headers "x-verser-target-id" []) = Ok targetId ->
         if negb (registered_broker stream sourceId h) then r = Throw (unregistered_broker sourceId) /\ h' = h
         else match vw_candidates h targetId domain with
              | [] => r = Throw (no_route targetId domain) /\ h' = h
              | _ => forall open,
                  broker_open H sourceId targetId domain (header_text_or headers "x-verser-ws-protocol" []) (header_text_or headers "x-verser-ws-path" (js "/")) = Ok open ->
                  r = Ok tt /\ answered_broker stream open h h'
              end) h.
Proof using Type.
  intros domain. unfold handleBrokerWebSocket, text_or. do 2 wp_step.
  destruct (createPeerId (header_text_or headers "x-verser-target-id" [])) as [targetId|e]; cbn [own_result]; [|by split].
  cbv zeta. do 2 wp_step. destruct (createPeerId (header_text_or headers "x-verser-source-id" [])) as [sourceId|e]; cbn [own_result]; [|by split].
  do 4 wp_step. match goal with |- wp _ (if negb ?b then _ else _) _ _ => assert (b = registered_broker stream sourceId h) as -> by (unfold registered_broker; by destruct (vw_session h stream)) end.
  destruct (registered_broker stream sourceId h) eqn:Er; cbn [negb].
  2: { wp_step. split; [done|]. intros s t [= <-] [= <-]. by rewrite Er. }
  do 2 wp_step. fold domain. destruct (vw_candidates h targetId domain) as [|c cs] eqn:Ec.
  { wp_step. split; [done|]. intros s t [= <-] [= <-]. by rewrite Er, Ec. }
  do 2 wp_step. destruct (broker_open _ _ _ _ _ _) as [open|e] eqn:Eo; cbn [own_result].
  2: { split; [done|]. intros s t [= <-] [= <-]. rewrite Er, Ec. cbn [negb]. intros open E. congruence. }
  pose proof (broker_open_ok _ _ _ _ _ _ Eo) as (Hok & H1 & H2 & H3 & H4).
  eapply wp_call; [eapply wp_weaken; [|apply serve_broker_spec]|].
  - intros h' e He. exists sourceId, targetId, open. rewrite Ec. by split_and!.
  - intros r h' _ [-> Ha]. split; [done|]. intros s t [= <-] [= <-]. rewrite Er, Ec. cbn [negb]. intros open' E. rewrite Eo in E. injection E as <-. done.
Qed.
End OpeningTheory.

(** * Examples *)
Module SampleVws.
Definition host : vws_host := {| vh_hostId := Some (js "hub"); vh_maxHopCount := None; vh_authorizer := true |}.
Definition far : FederatedRouteRegistration :=
  {| fr_targetId := js "g"; fr_domain := js "g.example"; fr_originHostId := js "edge"; fr_nextHopHostId := js "edge";
     fr_hopCount := 1; fr_viaHostIds := [js "edge"]; fr_source := source_upstream |}.
Definition near : FederatedRouteRegistration :=
  {| fr_targetId := js "g"; fr_domain := js "g.example"; fr_originHostId := js "hub"; fr_nextHopHostId := js "hub";
     fr_hopCount := 0; fr_viaHostIds := []; fr_source := source_local |}.
(** A broker on stream 0, session 1, and an inbound host with stream 7; the
    candidates change while the authorizer decides. *)
Definition world (before after : list FederatedRouteRegistration) (answer : jsval) : VwsWorld := {|
  vw_closed := fun _ _ => false; vw_destroyed := fun _ _ => false; vw_headersSent := fun _ _ => false;
  vw_session := fun _ _ => Some 1%nat; vw_session_gone := fun _ _ => false; vw_aborted := fun _ => false;
  vw_peer := fun _ _ _ => Some {| pi_role := js "broker"; pi_transport := Some (js "h2"); pi_session := Some 1%nat; pi_localGuest := false |};
  vw_brokerDomain := fun _ _ _ => Some (js "b.example");
  vw_inbound := fun _ g => if decide (g = js "edge") then Some {| iv_session := 2; iv_stream := Some 7%nat |} else None;
  vw_upstreams := fun _ => []; vw_candidates := fun h _ _ => match h with [] => before | _ => after end;
  vw_leases := fun _ _ => [5%nat]; vw_authorize := fun _ _ _ => Ok true; vw_reserve := fun _ _ _ => Ok 7%nat;
  vw_open := fun _ _ _ => Throw (verr upstream_unavailable "none" []);
  vw_race := fun _ _ => rc_line (Ok (json_text answer)); vw_negotiation := fun _ _ => ne_line (Ok (json_text answer));
  vw_line := fun _ _ => Throw (verr upstream_unavailable "none" []) |}.
Definition headers : IncomingHttpHeaders :=
  [(js "x-verser-source-id", JStr (js "b")); (js "x-verser-target-id", JStr (js "g")); (js "x-verser-domain", JStr (js "g.example"))].
Definition io_name (e : vws_io) : string :=
  match e with
  | wv_authorize _ _ _ => "authorize" | wv_lease _ _ => "lease" | wv_reserve _ _ => "reserve" | wv_open _ _ => "open" | wv_write _ _ => "write"
  | wv_accept _ _ => "accept" | wv_negotiate _ _ => "negotiate" | wv_line _ _ => "line" | wv_close _ => "close"
  | wv_respond _ status _ => if status =? 200 then "200" else "refused" | wv_end _ _ => "end" | wv_attach _ _ => "attach" | wv_bridge _ _ _ => "bridge"
  end.
Definition run before after answer : list string :=
  map io_name (handleBrokerWebSocket (P := ascii_platform) (W := world before after answer) host 0 headers []).2.

Example opens_over_federation : run [far] [far] (accept_json []) = ["authorize"; "reserve"; "write"; "negotiate"; "200"; "bridge"].
Proof. vm_compute. reflexivity. Qed.
Example route_gone : run [far] [] (accept_json []) = ["authorize"; "refused"; "end"].
Proof. vm_compute. reflexivity. Qed.
(** The route to the other host is gone when the authorizer answers, but the guest
    has a route here: the WebSocket is still opened over the route that is gone. *)
Example lost_route_still_used : run [far] [near] (accept_json []) = ["authorize"; "reserve"; "write"; "negotiate"; "200"; "bridge"].
Proof. vm_compute. reflexivity. Qed.
(** A protocol nobody offered is refused from a guest, and taken from a host. *)
Example unoffered_protocol : run [near] [near] (accept_json (js "chat")) = ["lease"; "write"; "accept"; "close"; "refused"; "end"] /\
  run [far] [far] (accept_json (js "chat")) = ["authorize"; "reserve"; "write"; "negotiate"; "200"; "bridge"].
Proof. split; vm_compute; reflexivity. Qed.
(** The code of a guest's error frame is passed on whatever it is. *)
Example foreign_error_code :
  failure_code (P := ascii_platform) (peer_error (JStr (js "teapot")) (JStr (js "no")) []) = JStr (js "teapot") /\
  local_accept None (json_text (JObj [(js "type", JStr (js "error")); (js "code", JStr (js "teapot")); (js "message", JStr (js "no"))])) =
    Throw (peer_error (JStr (js "teapot")) (JStr (js "no")) []).
Proof. split; vm_compute; reflexivity. Qed.
End SampleVws.
