(* ===== verification/VwsPool.v ===== *)
(** The WebSocket streams of inbound hosts (verser2-host
    [node-http2-verser-host.ts]): an inbound host keeps one stream open on which this
    host may open a WebSocket towards it; openings that find it busy wait for the
    next one.

    An opening that asks for a stream is known by a number; [vp_settled] records, in
    order, what each got.  Timers, abort signals and the ends of streams are events
    of their own, as in [FederationPool]. *)
From S2P Require Import Prelude JsNum Utf8 Json Errors FederationPool WaitQueue.

Definition MAX_FEDERATION_VWS_WAITERS : Z := 64.

(** ** State *)
Record vws_link := { vl_session : nat; vl_stream : option nat; vl_busy : bool }.
Record FederatedVwsPoolWaiter := { wt_id : nat; wt_hostId : jsstring; wt_timeoutMs : Z }.
Record vws_pool := {
  vp_links : list (jsstring * vws_link);
  vp_closed : list nat; vp_destroyed : list nat;
  vp_listeners : list (nat * jsstring);            (** the 'close' listener of an acquire stream *)
  vp_waiters : list (jsstring * list FederatedVwsPoolWaiter);
  vp_timers : list nat;
  vp_listening : list nat;                         (** openings with a listener on their abort signal *)
  vp_settled : list (nat * result exn nat);
  vp_next : nat; vp_nextStream : nat;
}.
Definition vp_init : vws_pool :=
  {| vp_links := []; vp_closed := []; vp_destroyed := []; vp_listeners := []; vp_waiters := []; vp_timers := []; vp_listening := [];
     vp_settled := []; vp_next := 0; vp_nextStream := 0 |}.
Definition with_vlinks (l : list (jsstring * vws_link)) (st : vws_pool) : vws_pool :=
  {| vp_links := l; vp_closed := vp_closed st; vp_destroyed := vp_destroyed st; vp_listeners := vp_listeners st; vp_waiters := vp_waiters st;
     vp_timers := vp_timers st; vp_listening := vp_listening st; vp_settled := vp_settled st; vp_next := vp_next st; vp_nextStream := vp_nextStream st |}.
Definition with_vstreams (closed destroyed : list nat) (listeners : list (nat * jsstring)) (next : nat) (st : vws_pool) : vws_pool :=
  {| vp_links := vp_links st; vp_closed := closed; vp_destroyed := destroyed; vp_listeners := listeners; vp_waiters := vp_waiters st;
     vp_timers := vp_timers st; vp_listening := vp_listening st; vp_settled := vp_settled st; vp_next := vp_next st; vp_nextStream := next |}.
Definition with_vwaiters (q : list (jsstring * list FederatedVwsPoolWaiter)) (st : vws_pool) : vws_pool :=
  {| vp_links := vp_links st; vp_closed := vp_closed st; vp_destroyed := vp_destroyed st; vp_listeners := vp_listeners st; vp_waiters := q;
     vp_timers := vp_timers st; vp_listening := vp_listening st; vp_settled := vp_settled st; vp_next := vp_next st; vp_nextStream := vp_nextStream st |}.
Definition with_openings (timers listening : list nat) (settled : list (nat * result exn nat)) (next : nat) (st : vws_pool) : vws_pool :=
  {| vp_links := vp_links st; vp_closed := vp_closed st; vp_destroyed := vp_destroyed st; vp_listeners := vp_listeners st; vp_waiters := vp_waiters st;
     vp_timers := timers; vp_listening := listening; vp_settled := settled; vp_next := next; vp_nextStream := vp_nextStream st |}.

Definition open_stream (st : vws_pool) (s : nat) : bool := negb (set_has s (vp_closed st)) && negb (set_has s (vp_destroyed st)).
Definition vwaiters_of (hostId : jsstring) (st : vws_pool) : list FederatedVwsPoolWaiter := default [] (map_get hostId (vp_waiters st)).
Definition set_vlink (hostId : jsstring) (l : vws_link) (st : vws_pool) : vws_pool := with_vlinks (map_set hostId l (vp_links st)) st.

(** ** Waiting for the stream of a host: [waitForFederationVwsPool] *)
(** [available]: the stream is taken with the asking. *)
Definition idle_vws (hostId : jsstring) (st : vws_pool) : option (vws_link * nat) :=
  link ← map_get hostId (vp_links st);
  s ← vl_stream link;
  if open_stream st s && negb (vl_busy link) then Some (link, s) else None.
Definition take_vws (hostId : jsstring) (link : vws_link) (st : vws_pool) : vws_pool :=
  set_vlink hostId {| vl_session := vl_session link; vl_stream := vl_stream link; vl_busy := true |} st.
Definition vws_unavailable (message : string) (hostId : jsstring) : exn :=
  verr websocket_negotiation_failed message [(js "nextHopHostId", JStr hostId)].
#[local] Arguments vws_unavailable message%_string hostId.
Definition vws_cancelled (hostId : jsstring) : exn :=
  verr stream_failure "Federation VWS acquisition was cancelled" [(js "nextHopHostId", JStr hostId)].

Definition settle_vws (id : nat) (r : result exn nat) (st : vws_pool) : vws_pool :=
  with_openings (filter (fun t => t <> id) (vp_timers st)) (filter (fun t => t <> id) (vp_listening st)) (vp_settled st ++ [(id, r)]) (vp_next st) st.
Definition vws_settled (id : nat) (st : vws_pool) : bool := bool_decide (id ∈ (vp_settled st).*1).
(** The promise takes the stream when there is one, or fails. *)
Definition settle_available (hostId : jsstring) (id : nat) (st : vws_pool) : vws_pool :=
  match idle_vws hostId st with
  | Some (link, s) => settle_vws id (Ok s) (take_vws hostId link st)
  | None => settle_vws id (Throw (vws_unavailable "Federation VWS next hop is unavailable" hostId)) st
  end.
Definition finish (hostId : jsstring) (id : nat) (error : option exn) (st : vws_pool) : vws_pool :=
  if vws_settled id st then st
  else
    let st := with_vwaiters (map_set hostId (filter (fun w => wt_id w <> id) (vwaiters_of hostId st)) (vp_waiters st)) st in
    match error with
    | Some e => settle_vws id (Throw e) st
    | None => settle_available hostId id st
    end.

Definition waitForFederationVwsPool (hostId : jsstring) (timeoutMs : Z) (signal : abort_signal) (st : vws_pool) : vws_pool :=
  let id := vp_next st in
  let queued := vwaiters_of hostId st in
  let st := with_openings (vp_timers st) (vp_listening st) (vp_settled st) (S id) st in
  if MAX_FEDERATION_VWS_WAITERS <=? len queued then settle_vws id (Throw (vws_unavailable "Federation VWS acquisition queue is full" hostId)) st
  else
    match idle_vws hostId st with
    | Some (link, s) => settle_vws id (Ok s) (take_vws hostId link st)
    | None =>
        match signal with
        | sg_aborted => finish hostId id (Some (vws_cancelled hostId)) st
        | _ =>
            let st := with_openings (vp_timers st ++ [id]) (vp_listening st ++ match signal with sg_live => [id] | _ => [] end) (vp_settled st) (vp_next st) st in
            with_vwaiters (map_set hostId (vwaiters_of hostId st ++ [{| wt_id := id; wt_hostId := hostId; wt_timeoutMs := timeoutMs |}]) (vp_waiters st)) st
        end
    end.

Definition resolveFederationVwsWaiters (hostId : jsstring) (error : option exn) (st : vws_pool) : vws_pool :=
  match vwaiters_of hostId st with
  | [] => with_vwaiters (put_queue hostId [] (vp_waiters st)) st
  | w :: rest => finish hostId (wt_id w) error (with_vwaiters (put_queue hostId rest (vp_waiters st)) st)
  end.
(** A waiter is rejected from outside. *)
Definition reject_vws (e : exn) (st : vws_pool) (w : FederatedVwsPoolWaiter) : vws_pool :=
  if vws_settled (wt_id w) st then st else settle_vws (wt_id w) (Throw e) st.
Definition vws_upstream_unavailable (message : string) (context : VerserErrorContext) : exn := verr upstream_unavailable message context.
#[global] Arguments vws_upstream_unavailable message%_string context.
Definition fail_vws_group (e : exn) (st : vws_pool) (hostId : jsstring) : vws_pool :=
  fold_left (reject_vws e) (vwaiters_of hostId st) (with_vwaiters (map_delete hostId (vp_waiters st)) st).
Definition failFederationVwsWaiters (hostId : jsstring) (message : string) (st : vws_pool) : vws_pool :=
  fail_vws_group (vws_upstream_unavailable message [(js "hostId", JStr hostId)]) st hostId.
#[global] Arguments failFederationVwsWaiters hostId message%_string st.
Definition failAllFederationVwsPoolWaiters (message : string) (st : vws_pool) : vws_pool :=
  fold_left (fail_vws_group (vws_upstream_unavailable message [])) (map_keys (vp_waiters st)) st.
#[global] Arguments failAllFederationVwsPoolWaiters message%_string st.

(** ** The acquire stream of an inbound host *)
(** The acquire branch of [handleFederationVwsStream]: the stream [s] of [session]. *)
Definition acquireVwsStream (s session : nat) (hostId : jsstring) (st : vws_pool) : vws_pool :=
  match map_get hostId (vp_links st) with
  | Some link =>
      if negb (vl_session link =? session)%nat then st
      else if match vl_stream link with Some s => open_stream st s | None => false end then st
      else
        let st := set_vlink hostId {| vl_session := vl_session link; vl_stream := Some s; vl_busy := false |} st in
        let st := resolveFederationVwsWaiters hostId None st in
        with_vstreams (vp_closed st) (vp_destroyed st) (vp_listeners st ++ [(s, hostId)]) (vp_nextStream st) st
  | None => st
  end.
Definition vws_stream_closed (s : nat) (hostId : jsstring) (st : vws_pool) : vws_pool :=
  match map_get hostId (vp_links st) with
  | Some current =>
      if bool_decide (vl_stream current = Some s)
      then set_vlink hostId {| vl_session := vl_session current; vl_stream := None; vl_busy := vl_busy current |} st else st
  | None => st
  end.
(** [removeInboundFederationHost] *)
Definition remove_vlink (hostId : jsstring) (st : vws_pool) : vws_pool :=
  if map_has hostId (vp_links st)
  then failFederationVwsWaiters hostId "Federated Host disconnected" (with_vlinks (map_delete hostId (vp_links st)) st) else st.

(** ** Steps *)
Inductive vpool_event : Type :=
  | ve_admit (hostId : jsstring) (session : nat)
  | ve_remove (hostId : jsstring)
  | ve_stream (session : nat) (hostId : jsstring)
  | ve_closing (s : nat) | ve_destroyed (s : nat) | ve_closed (s : nat)
  | ve_wait (hostId : jsstring) (timeoutMs : Z) (signal : abort_signal)
  | ve_timeout (id : nat) | ve_abort (id : nat)
  | ve_failAll (message : string).
Definition vwaiter_by (id : nat) (st : vws_pool) : option FederatedVwsPoolWaiter :=
  head (filter (fun w => wt_id w = id) (concat (map snd (vp_waiters st)))).
Definition vpool_step (st : vws_pool) (e : vpool_event) : vws_pool :=
  match e with
  | ve_admit hostId session =>
      if map_has hostId (vp_links st) then st else set_vlink hostId {| vl_session := session; vl_stream := None; vl_busy := false |} st
  | ve_remove hostId => remove_vlink hostId st
  | ve_stream session hostId =>
      let s := vp_nextStream st in
      acquireVwsStream s session hostId (with_vstreams (vp_closed st) (vp_destroyed st) (vp_listeners st) (S s) st)
  | ve_closing s => with_vstreams (set_add s (vp_closed st)) (vp_destroyed st) (vp_listeners st) (vp_nextStream st) st
  | ve_destroyed s => with_vstreams (vp_closed st) (set_add s (vp_destroyed st)) (vp_listeners st) (vp_nextStream st) st
  | ve_closed s =>
      let st := with_vstreams (set_add s (vp_closed st)) (vp_destroyed st) (vp_listeners st) (vp_nextStream st) st in
      match map_get s (vp_listeners st) with
      | Some hostId => vws_stream_closed s hostId (with_vstreams (vp_closed st) (vp_destroyed st) (map_delete s (vp_listeners st)) (vp_nextStream st) st)
      | None => st
      end
  (** openings wait only for a host that is there *)
  | ve_wait hostId timeoutMs signal => if map_has hostId (vp_links st) then waitForFederationVwsPool hostId timeoutMs signal st else st
  | ve_timeout id =>
      match vwaiter_by id st with
      | Some w => if set_has id (vp_timers st) then finish (wt_hostId w) id (Some (vws_unavailable "Federation VWS next hop is unavailable" (wt_hostId w))) st else st
      | None => st
      end
  | ve_abort id =>
      match vwaiter_by id st with
      | Some w => if set_has id (vp_listening st) then finish (wt_hostId w) id (Some (vws_cancelled (wt_hostId w))) st else st
      | None => st
      end
  | ve_failAll message => failAllFederationVwsPoolWaiters message st
  end.
Definition vpool_run (st : vws_pool) (events : list vpool_event) : vws_pool := fold_left vpool_step events st.

(** * Theory *)
Abbreviation vids := (WaitQueue.ids wt_id).
Abbreviation vqueues_ok := (WaitQueue.queue_ok (R := result exn nat) wt_id wt_hostId).

(** The streams that openings were given. *)
Definition vhanded (settled : list (nat * result exn nat)) : list nat := omap (fun p => match p.2 with Ok s => Some s | _ => None end) settled.
Record vlinks_ok (handed : list nat) (next : nat) (links : list (jsstring * vws_link)) : Prop := {
  vk_known : forall h l s, map_get h links = Some l -> vl_stream l = Some s -> (s < next)%nat /\ (s ∈ handed -> vl_busy l = true);
  vk_unique : forall h h' l l' s, map_get h links = Some l -> map_get h' links = Some l' -> vl_stream l = Some s -> vl_stream l' = Some s -> h = h';
}.
Record vcore (st : vws_pool) : Prop := {
  vc_queue : vqueues_ok (vp_waiters st) (vp_timers st) (vp_settled st) (vp_next st);
  vc_listening : forall id, id ∈ vp_listening st -> id ∈ vp_timers st;
  vc_handed : NoDup (vhanded (vp_settled st));
  vc_known : forall s, s ∈ vhanded (vp_settled st) -> (s < vp_nextStream st)%nat;
  vc_links : vlinks_ok (vhanded (vp_settled st)) (vp_nextStream st) (vp_links st);
  vc_bound : forall h, len (vwaiters_of h st) <= MAX_FEDERATION_VWS_WAITERS;
}.
(** Nobody waits for a host that is gone, or that has an idle stream. *)
Definition vserved (st : vws_pool) (h : jsstring) : Prop :=
  vwaiters_of h st <> [] -> is_Some (map_get h (vp_links st)) /\ idle_vws h st = None.
Definition vpool_ok (st : vws_pool) : Prop := vcore st /\ forall h, vserved st h.

Lemma vhanded_app a b : vhanded (a ++ b) = vhanded a ++ vhanded b.
Proof. apply omap_app. Qed.
Lemma idle_vws_Some h st link s : idle_vws h st = Some (link, s) <->
  map_get h (vp_links st) = Some link /\ vl_stream link = Some s /\ open_stream st s = true /\ vl_busy link = false.
Proof.
  unfold idle_vws. split.
  - destruct (map_get h (vp_links st)) as [l|]; [|done]. cbn. destruct (vl_stream l) as [x|] eqn:Ex; [|done]. cbn.
    destruct (open_stream st x) eqn:Eo; [|done]. destruct (vl_busy l) eqn:Eb; [done|]. intros [= <- <-]. auto.
  - intros (-> & E & Eo & Eb). cbn. rewrite E. cbn. by rewrite Eo, Eb.
Qed.
Lemma idle_take h h' link st : map_get h (vp_links st) = Some link ->
  idle_vws h' (take_vws h link st) = if decide (h' = h) then None else idle_vws h' st.
Proof.
  intros E. unfold idle_vws. cbn [vp_links take_vws set_vlink with_vlinks]. rewrite map_get_set. destruct (decide (h' = h)) as [->|]; [|done].
  cbn. destruct (vl_stream link); [|done]. cbn. by rewrite andb_false_r.
Qed.

(** ** Settling openings *)
Definition bounded (q : list (jsstring * list FederatedVwsPoolWaiter)) : Prop := forall h, len (default [] (map_get h q)) <= MAX_FEDERATION_VWS_WAITERS.
Lemma settle_failed_core st q timers listening xs next : vcore st -> vqueues_ok q timers (vp_settled st ++ xs) next ->
  (forall id, id ∈ listening -> id ∈ timers) -> bounded q -> vhanded xs = [] ->
  vcore (with_vwaiters q (with_openings timers listening (vp_settled st ++ xs) next st)).
Proof.
  intros [_ _ Hh Hk Hl _] Hq Hli Hb Hx. split; cbn [vp_waiters vp_timers vp_settled vp_next vp_listening vp_nextStream vp_links with_vwaiters with_openings];
    rewrite ?vhanded_app, ?Hx, ?app_nil_r; try done.
Qed.
Lemma settle_taken_core st h link s q timers listening id next : vcore st -> idle_vws h st = Some (link, s) ->
  vqueues_ok q timers (vp_settled st ++ [(id, Ok s)]) next -> (forall id, id ∈ listening -> id ∈ timers) -> bounded q ->
  vcore (with_vwaiters q (with_openings timers listening (vp_settled st ++ [(id, Ok s)]) next (take_vws h link st))).
Proof.
  intros [_ _ Hh Hk [Hl1 Hl2] _] (El & Es & _ & Eb)%idle_vws_Some Hq Hli Hb.
  destruct (Hl1 h link s El Es) as [Hlt Hnew]. assert (s ∉ vhanded (vp_settled st)) as Hni by (intros Hin; apply Hnew in Hin; congruence).
  set (link' := {| vl_session := vl_session link; vl_stream := vl_stream link; vl_busy := true |}).
  split; cbn [vp_waiters vp_timers vp_settled vp_next vp_listening vp_nextStream vp_links with_vwaiters with_openings take_vws set_vlink with_vlinks];
    rewrite ?vhanded_app; try done.
  - apply NoDup_app. split; [done|]. split; [|apply NoDup_singleton]. by intros x Hx ->%list_elem_of_singleton.
  - intros x [Hx| ->%list_elem_of_singleton]%elem_of_app; [by apply Hk|done].
  - fold link'. split.
    + intros g l x. rewrite map_get_set. destruct (decide (g = h)) as [->|Hne].
      * intros [= <-] Ex. split; [|done]. cbn in Ex. by eapply Hl1.
      * intros Eg Ex. destruct (Hl1 g l x Eg Ex) as [? Hx]. split; [done|]. intros [Hin| ->%list_elem_of_singleton]%elem_of_app; [by apply Hx|].
        by destruct Hne; eapply Hl2.
    + intros g g' l l' x. rewrite !map_get_set. destruct (decide (g = h)) as [->|], (decide (g' = h)) as [->|]; try done.
      * intros [= <-] Eg' Ex Ex'. by eapply Hl2.
      * intros Eg [= <-] Ex Ex'. by eapply Hl2.
      * apply Hl2.
Qed.

(** An opening [id], whose queue is already without it, is settled by what is available. *)
Lemma settle_available_core st q h id next : vcore st -> bounded q ->
  (forall r, vqueues_ok q (filter (fun t => t <> id) (vp_timers st)) (vp_settled st ++ [(id, r)]) next) ->
  vcore (settle_available h id (with_vwaiters q (with_openings (vp_timers st) (vp_listening st) (vp_settled st) next st))).
Proof.
  intros H Hb Hq. assert (forall x, x ∈ filter (fun t => t <> id) (vp_listening st) -> x ∈ filter (fun t => t <> id) (vp_timers st)) as Hli.
  { intros x [Hx Hin]%list_elem_of_filter. apply list_elem_of_filter. split; [done|]. by apply (vc_listening _ H). }
  unfold settle_available. set (st1 := with_vwaiters _ _). change (idle_vws h st1) with (idle_vws h st).
  destruct (idle_vws h st) as [[link s]|] eqn:Ei.
  - exact (settle_taken_core st h link s q _ _ id next H Ei (Hq _) Hli Hb).
  - exact (settle_failed_core st q _ _ [(id, Throw _)] next H (Hq _) Hli Hb eq_refl).
Qed.

Lemma vwaiter_queue st h w : vcore st -> w ∈ vwaiters_of h st -> map_get h (vp_waiters st) = Some (vwaiters_of h st) /\ wt_hostId w = h /\ vws_settled (wt_id w) st = false.
Proof.
  intros H Hw. assert (map_get h (vp_waiters st) = Some (vwaiters_of h st)) as Eg.
  { unfold vwaiters_of in *. destruct (map_get h (vp_waiters st)); [done|]. by apply elem_of_nil in Hw. }
  destruct (queue_waiting (vc_queue _ H) _ _ _ Eg Hw) as [? ?]. split; [done|]. split; [done|]. by apply bool_decide_eq_false.
Qed.
Lemma bounded_set h l q : bounded q -> len l <= MAX_FEDERATION_VWS_WAITERS -> bounded (map_set h l q).
Proof. intros Hb Hl g. rewrite map_get_set. by destruct (decide (g = h)). Qed.
Lemma bounded_put h l q : bounded q -> len l <= MAX_FEDERATION_VWS_WAITERS -> bounded (put_queue h l q).
Proof. intros Hb Hl g. rewrite put_queue_get. by destruct (decide (g = h)). Qed.
Lemma vcore_bounded st : vcore st -> bounded (vp_waiters st).
Proof. intros H h. apply (vc_bound _ H). Qed.
Lemma sublist_len {A} (a b : list A) : sublist a b -> len a <= len b.
Proof. intros H%sublist_length. unfold len. lia. Qed.

(** A waiter fails. *)
Lemma finish_error_core st h w e : vcore st -> w ∈ vwaiters_of h st -> vcore (finish h (wt_id w) (Some e) st).
Proof.
  intros H Hw. destruct (vwaiter_queue _ _ _ H Hw) as (Eg & _ & Es). unfold finish. rewrite Es.
  set (keep := filter _ _). unfold settle_vws. cbn [vp_timers vp_listening vp_settled vp_next with_vwaiters].
  assert (sublist keep (vwaiters_of h st)) as Hs by apply sublist_filter.
  apply (settle_failed_core st (map_set h keep (vp_waiters st)) _ _ [(wt_id w, Throw e)]); try done.
  - rewrite <- (ids_single wt_id w). apply (queue_take (vc_queue _ H) h (vwaiters_of h st) [w] keep); try done.
    apply split_waiter; [apply (queue_ids_NoDup (vc_queue _ H))|done].
  - intros x [Hx Hin]%list_elem_of_filter. apply list_elem_of_filter. split; [done|]. by apply (vc_listening _ H).
  - apply bounded_set; [by apply vcore_bounded|]. pose proof (sublist_len _ _ Hs). pose proof (vc_bound _ H h). lia.
Qed.

(** The first waiter is taken off the queue and settled by what is available. *)
Lemma resolve_eq st h w rest : vcore st -> vwaiters_of h st = w :: rest ->
  resolveFederationVwsWaiters h None st = settle_available h (wt_id w) (with_vwaiters (map_set h rest (put_queue h rest (vp_waiters st))) st).
Proof.
  intros H E. unfold resolveFederationVwsWaiters. rewrite E. destruct (vwaiter_queue st h w H ltac:(rewrite E; by left)) as (Eg & _ & Es).
  unfold finish. change (vws_settled (wt_id w) (with_vwaiters (put_queue h rest (vp_waiters st)) st)) with (vws_settled (wt_id w) st). rewrite Es.
  unfold vwaiters_of at 1. cbn [vp_waiters with_vwaiters]. rewrite put_queue_get, decide_True by done.
  rewrite filter_all_in; [done|]. intros x Hx Ex. pose proof (queue_ids_NoDup (vc_queue _ H) h) as Hn. fold (vwaiters_of h st) in Hn. rewrite E in Hn.
  cbn in Hn. apply NoDup_cons in Hn as [Hn _]. apply Hn. rewrite <- Ex. apply list_elem_of_fmap. by exists x.
Qed.
Lemma resolve_vcore st h : vcore st -> vcore (resolveFederationVwsWaiters h None st).
Proof.
  intros H. destruct (vwaiters_of h st) as [|w rest] eqn:E.
  - unfold resolveFederationVwsWaiters. rewrite E. pose proof (queue_put_same (vc_queue _ H) h) as Hq. fold (vwaiters_of h st) in Hq. rewrite E in Hq.
    destruct H as [? ? ? ? ? Hb]. split; try done. intros g. unfold vwaiters_of. cbn [vp_waiters with_vwaiters]. rewrite put_queue_get. destruct (decide (g = h)); [done|apply Hb].
  - rewrite (resolve_eq _ _ _ _ H E). destruct (vwaiter_queue st h w H ltac:(rewrite E; by left)) as (Eg & _ & _). rewrite E in Eg.
    assert (len rest <= MAX_FEDERATION_VWS_WAITERS) as Hb.
    { pose proof (vc_bound _ H h) as Hb. rewrite E in Hb. unfold len in *. cbn in Hb. lia. }
    apply (settle_available_core st _ h (wt_id w) (vp_next st) H).
    + apply bounded_set; [|done]. by apply bounded_put; [apply vcore_bounded|].
    + intros r. rewrite <- (ids_single wt_id w).
      pose proof (queue_put (vc_queue _ H) h (w :: rest) [w] rest [(wt_id w, r)] Eg ltac:(done) ltac:(by apply sublist_cons) ltac:(done)) as Hq.
      pose proof (queue_touch Hq h) as Ht. rewrite put_queue_get, decide_True in Ht by done. exact Ht.
Qed.

(** A new opening. *)
Lemma wait_core st h t signal : vcore st -> vcore (waitForFederationVwsPool h t signal st).
Proof.
  intros H. unfold waitForFederationVwsPool. set (id := vp_next st). pose proof (queue_fresh (vc_queue _ H)) as Hf.
  assert (forall x, x ∈ vp_listening st -> x ∈ vp_timers st) as Hli by apply H.
  assert (filter (fun t => t <> id) (vp_listening st) = vp_listening st) as Efl.
  { apply filter_not_in. intros Hin%Hli. apply Hf, elem_of_app. left. by rewrite <- (qo_timers _ _ _ _ (vc_queue _ H)). }
  assert (forall x, x ∈ filter (fun t => t <> id) (vp_listening st) -> x ∈ filter (fun t => t <> id) (vp_timers st)) as Hlf.
  { intros x [Hx Hin]%list_elem_of_filter. apply list_elem_of_filter. split; [done|]. by apply Hli. }
  destruct (MAX_FEDERATION_VWS_WAITERS <=? len (vwaiters_of h st)) eqn:Ef.
  { exact (settle_failed_core st (vp_waiters st) _ _ [(id, Throw _)] (S id) H (queue_settle_new (vc_queue _ H) _) Hlf (vcore_bounded _ H) eq_refl). }
  apply Z.leb_gt in Ef. set (st1 := with_openings _ _ _ _ st). change (idle_vws h st1) with (idle_vws h st).
  destruct (idle_vws h st) as [[link s]|] eqn:Ei.
  { exact (settle_taken_core st h link s (vp_waiters st) _ _ id (S id) H Ei (queue_settle_new (vc_queue _ H) _) Hlf (vcore_bounded _ H)). }
  assert (forall listening, (forall x, x ∈ listening -> x ∈ vp_timers st ++ [id]) ->
    vcore (with_vwaiters (map_set h (vwaiters_of h st ++ [{| wt_id := id; wt_hostId := h; wt_timeoutMs := t |}]) (vp_waiters st))
      (with_openings (vp_timers st ++ [id]) listening (vp_settled st) (S id) st))) as Hq.
  { intros listening Hls. rewrite <- (app_nil_r (vp_settled st)). apply settle_failed_core; try done.
    - rewrite app_nil_r. by apply (queue_push (vc_queue _ H)).
    - apply bounded_set; [by apply vcore_bounded|]. unfold len in *. rewrite length_app. cbn [length]. lia. }
  destruct signal.
  - apply Hq. rewrite app_nil_r. intros x Hx. apply elem_of_app. left. by apply Hli.
  - apply Hq. intros x [Hx|Hx]%elem_of_app; apply elem_of_app; [left; by apply Hli|by right].
  - unfold finish. assert (vws_settled id st1 = false) as ->.
    { apply bool_decide_eq_false. intros Hin. apply Hf, elem_of_app. by right. }
    change (vwaiters_of h st1) with (vwaiters_of h st). rewrite filter_all_in.
    2: { intros x Hx E. destruct (vwaiter_queue _ _ _ H Hx) as (Eg & _). apply Hf, elem_of_app. left. fold id. rewrite <- E.
         unfold map_items. apply list_elem_of_In, in_concat. exists (vids (vwaiters_of h st)). split.
         - apply in_map_iff. exists (h, vwaiters_of h st). split; [done|]. by apply list_elem_of_In, map_get_elem.
         - apply list_elem_of_In. apply list_elem_of_fmap. by exists x. }
    apply (settle_failed_core st (map_set h (vwaiters_of h st) (vp_waiters st)) _ _ [(id, Throw _)] (S id)); try done.
    + apply (queue_touch (queue_settle_new (vc_queue _ H) _)).
    + apply bounded_set; [by apply vcore_bounded|apply H].
Qed.

(** The waiters of a host all fail. *)
Lemma reject_fold e l st : NoDup (vids l) -> (forall w, w ∈ l -> vws_settled (wt_id w) st = false) ->
  fold_left (reject_vws e) l st =
  with_openings (filter (fun t => t ∉ vids l) (vp_timers st)) (filter (fun t => t ∉ vids l) (vp_listening st)) (vp_settled st ++ map (fun w => (wt_id w, Throw e)) l) (vp_next st) st.
Proof.
  revert st. induction l as [|w l IH]; intros st Hn Hs; cbn [fold_left map].
  - rewrite !filter_all_in by (intros; apply not_elem_of_nil). rewrite app_nil_r. by destruct st.
  - cbn in Hn. apply NoDup_cons in Hn as [Hw Hn]. unfold reject_vws at 2. rewrite Hs by by left. rewrite IH; [|done|].
    + unfold settle_vws. cbn [vp_timers vp_listening vp_settled vp_next with_openings]. rewrite <- !app_assoc. unfold with_openings. cbn. f_equal.
      * rewrite list_filter_filter. apply list_filter_iff. intros x. cbn. rewrite not_elem_of_cons. tauto.
      * rewrite list_filter_filter. apply list_filter_iff. intros x. cbn. rewrite not_elem_of_cons. tauto.
    + intros x Hx. specialize (Hs x ltac:(by right)). apply bool_decide_eq_false in Hs. apply bool_decide_eq_false.
      cbn [settle_vws with_openings vp_settled]. rewrite fmap_app. intros [?|Hin%list_elem_of_singleton]%elem_of_app; [done|]. cbn in Hin.
      apply Hw. rewrite <- Hin. apply list_elem_of_fmap. by exists x.
Qed.
Lemma vhanded_failed (e : exn) l : vhanded (map (fun w => (wt_id w, Throw e)) l) = [].
Proof. by induction l. Qed.
Lemma fail_group_core st h e : vcore st -> vcore (fail_vws_group e st h).
Proof.
  intros H. unfold fail_vws_group. pose proof (queue_ids_NoDup (vc_queue _ H) h) as Hn. fold (vwaiters_of h st) in Hn.
  rewrite reject_fold; [|exact Hn|by intros w Hw; destruct (vwaiter_queue _ _ _ H Hw) as (_ & _ & ?)].
  cbn [vp_timers vp_listening vp_settled vp_next with_vwaiters].
  refine (settle_failed_core st (map_delete h (vp_waiters st)) (filter (fun t => t ∉ vids (vwaiters_of h st)) (vp_timers st))
    (filter (fun t => t ∉ vids (vwaiters_of h st)) (vp_listening st)) (map (fun w => (wt_id w, Throw e)) (vwaiters_of h st)) (vp_next st) H _ _ _ (vhanded_failed _ _)).
  - destruct (map_get h (vp_waiters st)) as [l|] eqn:Eg.
    + assert (vwaiters_of h st = l) as -> by (unfold vwaiters_of; by rewrite Eg). apply (queue_drop (vc_queue _ H) h l); [done|].
      unfold vids, WaitQueue.ids. rewrite <- list_fmap_compose. done.
    + assert (vwaiters_of h st = []) as -> by (unfold vwaiters_of; by rewrite Eg). cbn [map]. rewrite app_nil_r, filter_all_in by (intros; apply not_elem_of_nil).
      rewrite map_delete_id by done. apply H.
  - intros x [Hx Hin]%list_elem_of_filter. apply list_elem_of_filter. split; [done|]. by apply (vc_listening _ H).
  - intros g. rewrite map_get_delete. destruct (decide (g = h)); [done|apply H].
Qed.

(** ** Nobody waits for nothing *)
Lemma vserved_mono st st' h : (vwaiters_of h st' <> [] -> vwaiters_of h st <> []) ->
  (is_Some (map_get h (vp_links st)) -> is_Some (map_get h (vp_links st'))) -> (idle_vws h st = None -> idle_vws h st' = None) ->
  vserved st h -> vserved st' h.
Proof. intros Hw Hl Hi Hs Hne. destruct (Hs (Hw Hne)) as [? ?]. auto. Qed.

Lemma settle_available_view st h id h' :
  vp_waiters (settle_available h id st) = vp_waiters st /\
  (is_Some (map_get h' (vp_links st)) -> is_Some (map_get h' (vp_links (settle_available h id st)))) /\
  (idle_vws h' st = None -> idle_vws h' (settle_available h id st) = None) /\
  idle_vws h (settle_available h id st) = None.
Proof.
  unfold settle_available. destruct (idle_vws h st) as [[link s]|] eqn:Ei; [|done].
  assert (map_get h (vp_links st) = Some link) as El by (by apply idle_vws_Some in Ei as [? _]).
  split; [done|]. split; [|split].
  - cbn. rewrite map_get_set. by destruct (decide (h' = h)).
  - intros Hn. change (idle_vws h' (take_vws h link st) = None). rewrite idle_take by done. by destruct (decide (h' = h)).
  - change (idle_vws h (take_vws h link st) = None). rewrite idle_take by done. by rewrite decide_True.
Qed.
Lemma vwaiters_set h l st h' : vwaiters_of h' (with_vwaiters (map_set h l (vp_waiters st)) st) = if decide (h' = h) then l else vwaiters_of h' st.
Proof. unfold vwaiters_of. cbn [vp_waiters with_vwaiters]. rewrite map_get_set. by destruct (decide (h' = h)). Qed.

(** A stream is attached, and the first waiter, if any, has it. *)
Lemma resolve_served st h : vcore st -> is_Some (map_get h (vp_links st)) -> (forall h', h' <> h -> vserved st h') ->
  forall h', vserved (resolveFederationVwsWaiters h None st) h'.
Proof.
  intros H Hl Hs h'. destruct (vwaiters_of h st) as [|w rest] eqn:E.
  - unfold resolveFederationVwsWaiters. rewrite E. intros Hne. unfold vwaiters_of in Hne. cbn [vp_waiters with_vwaiters] in Hne. rewrite put_queue_get in Hne.
    destruct (decide (h' = h)) as [->|Hn]; [done|]. exact (Hs h' Hn Hne).
  - rewrite (resolve_eq _ _ _ _ H E). set (st1 := with_vwaiters _ st).
    assert (forall g, g <> h -> vwaiters_of g st1 = vwaiters_of g st) as Ew.
    { intros g Hg. unfold vwaiters_of. cbn [vp_waiters with_vwaiters st1]. by rewrite map_get_set, decide_False, put_queue_get, decide_False by done. }
    destruct (settle_available_view st1 h (wt_id w) h') as (E1 & E2 & E3 & E4). destruct (decide (h' = h)) as [->|Hn].
    + intros _. split; [by apply E2|done].
    + apply (vserved_mono st); [|exact E2|exact E3|by apply Hs]. unfold vwaiters_of at 1. rewrite E1. by rewrite <- (Ew h' Hn).
Qed.
Lemma finish_error_served st h w e h' : vcore st -> w ∈ vwaiters_of h st -> vserved st h' -> vserved (finish h (wt_id w) (Some e) st) h'.
Proof.
  intros H Hw Hs. destruct (vwaiter_queue _ _ _ H Hw) as (_ & _ & Es). unfold finish. rewrite Es. apply (vserved_mono st); try done.
  set (st1 := with_vwaiters _ st). change (vwaiters_of h' (settle_vws (wt_id w) (Throw e) st1)) with (vwaiters_of h' st1). unfold st1. rewrite vwaiters_set.
  destruct (decide (h' = h)) as [->|]; [|done]. intros Hne E. by rewrite E in Hne.
Qed.
Lemma wait_served st h t signal : vcore st -> is_Some (map_get h (vp_links st)) -> (forall h', vserved st h') ->
  forall h', vserved (waitForFederationVwsPool h t signal st) h'.
Proof.
  intros H Hl Hs h'. unfold waitForFederationVwsPool. destruct (_ <=? _); [exact (Hs h')|].
  set (st1 := with_openings _ _ _ _ st). change (idle_vws h st1) with (idle_vws h st).
  destruct (idle_vws h st) as [[link s]|] eqn:Ei.
  - assert (map_get h (vp_links st) = Some link) as El by (by apply idle_vws_Some in Ei as [? _]).
    apply (vserved_mono st); [done| | |apply Hs].
    + cbn. rewrite map_get_set. by destruct (decide (h' = h)).
    + intros Hn. change (idle_vws h' (take_vws h link st) = None). rewrite idle_take by done. by destruct (decide (h' = h)).
  - assert (forall q, (vwaiters_of h' (with_vwaiters (map_set h q (vp_waiters st)) st) <> [] -> is_Some (map_get h' (vp_links st)) /\ idle_vws h' st = None)) as Hq.
    { intros q. rewrite vwaiters_set. destruct (decide (h' = h)) as [->|]; [by intros _|]. apply Hs. }
    destruct signal; [exact (Hq _)|exact (Hq _)|]. unfold finish. destruct (vws_settled _ _); [exact (Hs h')|exact (Hq _)].
Qed.
Lemma fail_group_waiters st h e h' : vcore st -> vwaiters_of h' (fail_vws_group e st h) = if decide (h' = h) then [] else vwaiters_of h' st.
Proof.
  intros H. unfold fail_vws_group. rewrite reject_fold; [|exact (queue_ids_NoDup (vc_queue _ H) h)|by intros w Hw; destruct (vwaiter_queue _ _ _ H Hw) as (_ & _ & ?)].
  unfold vwaiters_of. cbn [vp_waiters with_vwaiters with_openings]. rewrite map_get_delete. by destruct (decide (h' = h)).
Qed.
Lemma fail_group_rest st h e h' : vcore st -> vp_links (fail_vws_group e st h) = vp_links st /\ idle_vws h' (fail_vws_group e st h) = idle_vws h' st.
Proof.
  intros H. unfold fail_vws_group. by rewrite reject_fold; [|exact (queue_ids_NoDup (vc_queue _ H) h)|by intros w Hw; destruct (vwaiter_queue _ _ _ H Hw) as (_ & _ & ?)].
Qed.
Lemma fail_group_pool st h e : vpool_ok st -> vpool_ok (fail_vws_group e st h).
Proof.
  intros [H Hs]. split; [by apply fail_group_core|]. intros h'. destruct (fail_group_rest st h e h' H) as [E1 E2].
  apply (vserved_mono st); [|by rewrite E1|by rewrite E2|apply Hs]. rewrite fail_group_waiters by done. by destruct (decide (h' = h)).
Qed.

(** ** Steps *)
Lemma links_pool st links : vcore st -> vlinks_ok (vhanded (vp_settled st)) (vp_nextStream st) links -> vcore (with_vlinks links st).
Proof. intros [] Hl. by split. Qed.
Lemma vstreams_pool st closed destroyed listeners : (forall s, s ∈ vp_closed st -> s ∈ closed) -> (forall s, s ∈ vp_destroyed st -> s ∈ destroyed) ->
  vpool_ok st -> vpool_ok (with_vstreams closed destroyed listeners (vp_nextStream st) st).
Proof.
  intros Hc Hd [[] Hs]. split; [by split|]. intros h. apply (vserved_mono st); [done|done| |apply Hs].
  intros Hi. destruct (idle_vws h (with_vstreams _ _ _ _ st)) as [[link s]|] eqn:E; [|done]. apply idle_vws_Some in E as (E1 & E2 & E3 & E4).
  assert (idle_vws h st = Some (link, s)) as E; [|congruence]. apply idle_vws_Some. split_and!; try done.
  unfold open_stream in *. cbn in E3. rewrite andb_true_iff, !negb_true_iff, <- !not_true_iff_false, !set_has_elem in *. naive_solver.
Qed.
Lemma set_link_ok handed next links h l : vlinks_ok handed next links ->
  (forall s, vl_stream l = Some s -> (s < next)%nat /\ (s ∈ handed -> vl_busy l = true) /\
     forall h' l', h' <> h -> map_get h' links = Some l' -> vl_stream l' <> Some s) -> vlinks_ok handed next (map_set h l links).
Proof.
  intros [H1 H2] Hl. split.
  - intros g k s. rewrite map_get_set. destruct (decide (g = h)); [|apply H1]. intros [= <-] Es. by destruct (Hl s Es) as (? & ? & _).
  - intros g g' k k' s. rewrite !map_get_set. destruct (decide (g = h)) as [->|], (decide (g' = h)) as [->|]; try done.
    + intros [= <-] Ek Es Es'. destruct (Hl s Es) as (_ & _ & Hn). by destruct (Hn g' k').
    + intros Ek [= <-] Es Es'. destruct (Hl s Es') as (_ & _ & Hn). by destruct (Hn g k).
    + apply H2.
Qed.
Lemma attach_pool st session h : vpool_ok st ->
  vpool_ok (acquireVwsStream (vp_nextStream st) session h (with_vstreams (vp_closed st) (vp_destroyed st) (vp_listeners st) (S (vp_nextStream st)) st)).
Proof.
  intros [H Hs]. set (st1 := with_vstreams _ _ _ (S _) st). assert (vcore st1) as H1.
  { destruct H as [Hq Hl Hh Hk [K1 K2] Hb]. split; try done.
    - intros s Hin. pose proof (Hk s Hin). cbn. lia.
    - split; [|exact K2]. intros g l s Eg Es. destruct (K1 g l s Eg Es). cbn. split; [lia|done]. }
  assert (vpool_ok st1) as Hok1 by (by split).
  unfold acquireVwsStream. change (vp_links st1) with (vp_links st). destruct (map_get h (vp_links st)) as [link|] eqn:El; [|done].
  destruct (negb _); [done|]. destruct (match vl_stream link with Some s => _ | None => false end) eqn:Et; [done|].
  set (link' := {| vl_session := vl_session link; vl_stream := Some (vp_nextStream st); vl_busy := false |}).
  assert (vcore (set_vlink h link' st1)) as H2.
  { apply links_pool; [done|]. apply set_link_ok; [apply H1|]. intros s [= <-]. split; [cbn; lia|]. split.
    - intros Hin. apply (vc_known _ H) in Hin. lia.
    - intros h' l' _ El' Es. destruct (vk_known _ _ _ (vc_links _ H) h' l' _ El' Es). lia. }
  assert (is_Some (map_get h (vp_links (set_vlink h link' st1)))) as Hsome by (cbn; rewrite map_get_set, decide_True; by eauto).
  assert (forall h', h' <> h -> vserved (set_vlink h link' st1) h') as Hs2.
  { intros h' Hn. apply (vserved_mono st); [done| | |apply Hs].
    - cbn. by rewrite map_get_set, decide_False.
    - unfold idle_vws. cbn. by rewrite map_get_set, decide_False. }
  pose proof (resolve_vcore _ h H2) as H3. pose proof (resolve_served _ h H2 Hsome Hs2) as Hs3. cbv zeta. by apply vstreams_pool.
Qed.
Lemma closed_vpool st s h : vpool_ok st -> vpool_ok (vws_stream_closed s h st).
Proof.
  intros [H Hs]. unfold vws_stream_closed. destruct (map_get h (vp_links st)) as [l|] eqn:El; [|done]. case_bool_decide as E; [|done].
  set (l' := {| vl_session := vl_session l; vl_stream := None; vl_busy := vl_busy l |}). split.
  - apply links_pool; [done|]. by apply set_link_ok; [apply H|].
  - intros h'. apply (vserved_mono st); [done| | |apply Hs].
    + cbn. rewrite map_get_set. by destruct (decide (h' = h)).
    + unfold idle_vws. cbn. rewrite map_get_set. by destruct (decide (h' = h)).
Qed.
Lemma remove_vpool st h : vpool_ok st -> vpool_ok (remove_vlink h st).
Proof.
  intros [H Hs]. unfold remove_vlink. destruct (map_has h (vp_links st)); [|done]. unfold failFederationVwsWaiters.
  set (st1 := with_vlinks _ st). assert (vcore st1) as H1.
  { apply links_pool; [done|]. destruct (vc_links _ H) as [K1 K2]. split.
    - intros g l s. rewrite map_get_delete. destruct (decide (g = h)); [done|apply K1].
    - intros g g' l l' s. rewrite !map_get_delete. destruct (decide (g = h)), (decide (g' = h)); try done. apply K2. }
  split; [by apply fail_group_core|]. intros h'. intros Hne. rewrite fail_group_waiters in Hne by done.
  destruct (decide (h' = h)) as [->|Hn]; [done|]. destruct (fail_group_rest st1 h (vws_upstream_unavailable "Federated Host disconnected" [(js "hostId", JStr h)]) h' H1) as [E1 E2].
  rewrite E1, E2. destruct (Hs h' Hne) as [Hl Hi]. split.
  - cbn. by rewrite map_get_delete, decide_False.
  - unfold idle_vws in *. cbn. by rewrite map_get_delete, decide_False.
Qed.

Lemma vwaiter_by_in st id w : vcore st -> vwaiter_by id st = Some w -> w ∈ vwaiters_of (wt_hostId w) st /\ wt_id w = id.
Proof.
  intros H E. unfold vwaiter_by in E. apply head_Some_elem_of in E as [Ei Hin]%list_elem_of_filter. split; [|done].
  apply list_elem_of_In, in_concat in Hin as (q & Hq & Hw). apply in_map_iff in Hq as ([k q'] & <- & Hkq). cbn [snd] in Hw.
  apply list_elem_of_In in Hkq, Hw. pose proof (qo_lists _ _ _ _ (vc_queue _ H)) as Hl. rewrite Forall_forall in Hl.
  destruct (Hl _ Hkq) as [Hg _]. rewrite Forall_forall in Hg. specialize (Hg _ Hw). cbn [fst] in Hg. subst k. unfold vwaiters_of.
  by rewrite (map_elem_get _ _ _ (qo_wf _ _ _ _ (vc_queue _ H)) Hkq).
Qed.
Lemma failAll_vpool e keys : forall st, vpool_ok st -> vpool_ok (fold_left (fail_vws_group e) keys st).
Proof. induction keys as [|k keys IH]; intros st H; [done|]. by apply IH, fail_group_pool. Qed.

Lemma step_vpool st e : vpool_ok st -> vpool_ok (vpool_step st e).
Proof.
  intros H. destruct e as [h session|h|session h|s|s|s|h t sg|id|id|message]; cbn [vpool_step].
  - destruct (map_has h (vp_links st)) eqn:Em; [done|]. destruct H as [H Hs].
    assert (map_get h (vp_links st) = None) as El by (unfold map_has in Em; by destruct (map_get h (vp_links st))).
    split; [apply links_pool; [done|]; by apply set_link_ok; [apply H|]|]. intros h'. apply (vserved_mono st); [done| | |apply Hs].
    + cbn. rewrite map_get_set. by destruct (decide (h' = h)).
    + unfold idle_vws. cbn. rewrite map_get_set. by destruct (decide (h' = h)).
  - by apply remove_vpool.
  - by apply attach_pool.
  - apply vstreams_pool; auto. intros x Hx. apply set_add_elem. by right.
  - apply vstreams_pool; auto. intros x Hx. apply set_add_elem. by right.
  - set (st1 := with_vstreams (set_add s (vp_closed st)) (vp_destroyed st) (vp_listeners st) (vp_nextStream st) st).
    assert (vpool_ok st1) as H1 by (apply vstreams_pool; auto; intros x Hx; apply set_add_elem; by right).
    cbv zeta. destruct (map_get s (vp_listeners st1)); [|done]. apply closed_vpool. by apply vstreams_pool.
  - destruct (map_has h (vp_links st)) eqn:Em; [|done]. destruct H as [H Hs]. split; [by apply wait_core|]. apply wait_served; try done.
    unfold map_has in Em. destruct (map_get h (vp_links st)); [by eauto|done].
  - destruct (vwaiter_by id st) as [w|] eqn:Ew; [|done]. destruct (set_has _ _); [|done]. destruct H as [H Hs].
    apply (vwaiter_by_in st) in Ew as [Hw <-]; [|done]. split; [by apply finish_error_core|]. intros h'. by apply finish_error_served.
  - destruct (vwaiter_by id st) as [w|] eqn:Ew; [|done]. destruct (set_has _ _); [|done]. destruct H as [H Hs].
    apply (vwaiter_by_in st) in Ew as [Hw <-]; [|done]. split; [by apply finish_error_core|]. intros h'. by apply finish_error_served.
  - by apply failAll_vpool.
Qed.
Lemma run_vpool events : forall st, vpool_ok st -> vpool_ok (vpool_run st events).
Proof. induction events as [|e events IH]; intros st H; [done|]. apply IH. by apply step_vpool. Qed.
Lemma init_vpool : vpool_ok vp_init.
Proof.
  split; [|by intros h Hw]. split; try done; [apply (queue_init wt_id wt_hostId)|constructor|by intros s Hs; apply elem_of_nil in Hs].
Qed.

(** C12: the WebSocket streams of inbound hosts.  Whatever order hosts come and go,
    streams open and end, openings ask, time out or are aborted in: no stream is
    given to two openings; every opening that asked either waits, with an armed
    timer, or was settled exactly once; no opening waits while its host has an idle
    stream, or for a host that is gone; at most 64 wait for a host. *)
Theorem vws_pool_invariant events :
  let st := vpool_run vp_init events in
  NoDup (vhanded (vp_settled st)) /\
  map_items vids (vp_waiters st) ++ (vp_settled st).*1 ≡ₚ seq 0 (vp_next st) /\
  vp_timers st ≡ₚ map_items vids (vp_waiters st) /\ (forall id, id ∈ vp_listening st -> id ∈ vp_timers st) /\
  (forall h, vwaiters_of h st <> [] -> is_Some (map_get h (vp_links st)) /\ idle_vws h st = None) /\
  (forall h, len (vwaiters_of h st) <= MAX_FEDERATION_VWS_WAITERS).
Proof.
  intros st. destruct (run_vpool events vp_init init_vpool) as [Hc Hs]. fold st in Hc, Hs.
  split; [apply (vc_handed _ Hc)|]. split; [apply (qo_conserve _ _ _ _ (vc_queue _ Hc))|].
  split; [apply (qo_timers _ _ _ _ (vc_queue _ Hc))|]. split; [apply (vc_listening _ Hc)|]. split; [exact Hs|apply (vc_bound _ Hc)].
Qed.

(** Two openings, one stream at a time: the second waits until the host offers its
    next stream; while one is open, another is not taken. *)
Definition vws_sample : list vpool_event :=
  [ve_admit (js "edge") 1; ve_stream 1 (js "edge"); ve_wait (js "edge") 5000 sg_live; ve_wait (js "edge") 5000 sg_live; ve_stream 1 (js "edge");
   ve_closed 0; ve_stream 1 (js "edge"); ve_wait (js "edge") 5000 sg_aborted; ve_remove (js "edge")].
Example vws_sample_settled :
  map (fun p => match p.2 with Ok s => Some s | Throw _ => None end) (vp_settled (vpool_run vp_init vws_sample)) = [Some 0%nat; Some 2%nat; None].
Proof. by vm_compute. Qed.
