(* ===== verification/VwsBridge.v ===== *)
(** Bridging two streams of an open WebSocket (verser2-host
    [node-http2-verser-host.ts], [bridgeWebSocketStreams]): bytes as they come when
    both ends are in the framing of one guest, frame by frame otherwise.

    The bridge is a machine over the events of its two streams.  What [write]
    returned (the buffer is full, or not) comes with the event. *)
From S2P Require Import Prelude JsNum Utf8 Json Errors Vws.

Inductive side : Type := side_A | side_B.
#[export] Instance side_eq_dec : EqDecision side.
Proof. solve_decision. Defined.
Definition other (s : side) : side := match s with side_A => side_B | side_B => side_A end.
(** A value for each stream. *)
Definition sides (V : Type) : Type := V * V.
Definition at_side {V} (p : sides V) (s : side) : V := match s with side_A => p.1 | side_B => p.2 end.
Definition upd {V} (s : side) (v : V) (p : sides V) : sides V := match s with side_A => (v, p.2) | side_B => (p.1, v) end.

(** ** Closing *)
Record ends := { en_closed : sides bool; en_destroyed : sides bool; en_closes : list side }.
Definition ends_start : ends := {| en_closed := (false, false); en_destroyed := (false, false); en_closes := [] |}.
Definition mark_closed (s : side) (e : ends) : ends :=
  {| en_closed := upd s true (en_closed e); en_destroyed := en_destroyed e; en_closes := en_closes e |}.
Definition mark_destroyed (s : side) (e : ends) : ends :=
  {| en_closed := en_closed e; en_destroyed := upd s true (en_destroyed e); en_closes := en_closes e |}.
(** [if (!stream.closed) stream.close(NGHTTP2_NO_ERROR)] *)
Definition close_side (s : side) (e : ends) : ends :=
  if at_side (en_closed e) s then e
  else {| en_closed := upd s true (en_closed e); en_destroyed := en_destroyed e; en_closes := en_closes e ++ [s] |}.
Definition close_both (e : ends) : ends := close_side side_B (close_side side_A e).
Definition side_gone (e : ends) (s : side) : bool := at_side (en_closed e) s || at_side (en_destroyed e) s.

(** ** Bytes as they come: [framed = false] *)
Inductive raw_event : Type :=
  | rv_data (s : side) (chunk : bytes) (full : bool)
  | rv_drain (s : side)
  | rv_over (s : side)                 (** 'end', 'error' or 'close' *)
  | rv_closed (s : side) | rv_destroyed (s : side).   (** the flags change *)
Record raw_bridge := {
  rb_closed : bool;                    (** [rawClosed]; the data listeners are off *)
  rb_ends : ends;
  rb_paused : sides bool;
  rb_drains : sides nat;               (** 'drain' listeners of a stream, each to resume the other *)
  rb_written : sides (list bytes);
}.
Definition raw_start : raw_bridge := {| rb_closed := false; rb_ends := ends_start; rb_paused := (false, false); rb_drains := (0%nat, 0%nat); rb_written := ([], []) |}.
Definition raw_ends (f : ends -> ends) (st : raw_bridge) : raw_bridge :=
  {| rb_closed := rb_closed st; rb_ends := f (rb_ends st); rb_paused := rb_paused st; rb_drains := rb_drains st; rb_written := rb_written st |}.
Definition rawCleanup (st : raw_bridge) : raw_bridge :=
  if rb_closed st then st
  else {| rb_closed := true; rb_ends := close_both (rb_ends st); rb_paused := rb_paused st; rb_drains := rb_drains st; rb_written := rb_written st |}.
(** [rawAtoB] and [rawBtoA]: a chunk of [s] goes to the other stream. *)
Definition raw_forward (s : side) (chunk : bytes) (full : bool) (st : raw_bridge) : raw_bridge :=
  if side_gone (rb_ends st) (other s) then rawCleanup st
  else
    let written := upd (other s) (at_side (rb_written st) (other s) ++ [chunk]) (rb_written st) in
    if full then
      {| rb_closed := rb_closed st; rb_ends := rb_ends st; rb_paused := upd s true (rb_paused st);
         rb_drains := upd (other s) (S (at_side (rb_drains st) (other s))) (rb_drains st); rb_written := written |}
    else {| rb_closed := rb_closed st; rb_ends := rb_ends st; rb_paused := rb_paused st; rb_drains := rb_drains st; rb_written := written |}.
Definition raw_step (st : raw_bridge) (e : raw_event) : raw_bridge :=
  match e with
  | rv_data s chunk full => if rb_closed st then st else raw_forward s chunk full st
  | rv_drain s =>
      match at_side (rb_drains st) s with
      | O => st
      | S _ =>
          {| rb_closed := rb_closed st; rb_ends := rb_ends st;
             rb_paused := if rb_closed st then rb_paused st else upd (other s) false (rb_paused st);
             rb_drains := upd s 0%nat (rb_drains st); rb_written := rb_written st |}
      end
  | rv_over s => rawCleanup st
  | rv_closed s => raw_ends (mark_closed s) st
  | rv_destroyed s => raw_ends (mark_destroyed s) st
  end.
Definition raw_run (events : list raw_event) : raw_bridge := fold_left raw_step events raw_start.

(** ** Frame by frame: [framed = true] *)
(** Where the loop that forwards the frames of a stream is. *)
Inductive forwarding : Type := fw_reading | fw_draining | fw_done.
Inductive frame_event : Type :=
  | fv_line (s : side) (line : result exn jsstring) (full : bool)   (** the read of [s] settles *)
  | fv_drain (s : side)
  | fv_over (s : side)                                             (** 'error' or 'close' *)
  | fv_closed (s : side).
Record frame_bridge := { fb_closed : bool; fb_ends : ends; fb_loops : sides forwarding; fb_written : sides (list jsstring) }.
Definition frame_start : frame_bridge := {| fb_closed := false; fb_ends := ends_start; fb_loops := (fw_reading, fw_reading); fb_written := ([], []) |}.
Definition cleanup (st : frame_bridge) : frame_bridge :=
  if fb_closed st then st
  else {| fb_closed := true; fb_ends := close_both (fb_ends st); fb_loops := fb_loops st; fb_written := fb_written st |}.
Definition set_loop (s : side) (l : forwarding) (st : frame_bridge) : frame_bridge :=
  {| fb_closed := fb_closed st; fb_ends := fb_ends st; fb_loops := upd s l (fb_loops st); fb_written := fb_written st |}.
(** [while (!closed)] *)
Definition loop_again (s : side) (st : frame_bridge) : frame_bridge := set_loop s (if fb_closed st then fw_done else fw_reading) st.
Definition frame_step (st : frame_bridge) (e : frame_event) : frame_bridge :=
  match e with
  | fv_line s line full =>
      match at_side (fb_loops st) s with
      | fw_reading =>
          match (l ← line; decodeVwsFrame l) with
          | Throw _ => set_loop s fw_done (cleanup st)
          | Ok frame =>
              let st := {| fb_closed := fb_closed st; fb_ends := fb_ends st; fb_loops := fb_loops st;
                           fb_written := upd (other s) (at_side (fb_written st) (other s) ++ [encodeVwsFrame frame]) (fb_written st) |} in
              if full then set_loop s fw_draining st else loop_again s st
          end
      | _ => st
      end
  | fv_drain s => match at_side (fb_loops st) (other s) with fw_draining => loop_again (other s) st | _ => st end
  | fv_over s => cleanup st
  | fv_closed s => {| fb_closed := fb_closed st; fb_ends := mark_closed s (fb_ends st); fb_loops := fb_loops st; fb_written := fb_written st |}
  end.
Definition frame_run (events : list frame_event) : frame_bridge := fold_left frame_step events frame_start.

(** * Theory *)
Lemma at_upd {V} s s' (v : V) p : at_side (upd s v p) s' = if decide (s = s') then v else at_side p s'.
Proof. by destruct s, s', p. Qed.
Lemma other_other s : other (other s) = s.
Proof. by destruct s. Qed.
Lemma other_ne s : other s <> s.
Proof. by destruct s. Qed.

(** Each stream is closed by the bridge at most once. *)
Record ends_ok (e : ends) : Prop := { eo_once : NoDup (en_closes e); eo_closed : forall s, s ∈ en_closes e -> at_side (en_closed e) s = true }.
Lemma ends_start_ok : ends_ok ends_start.
Proof. split; [constructor|]. by intros s ?%elem_of_nil. Qed.
Lemma mark_closed_ok s e : ends_ok e -> ends_ok (mark_closed s e).
Proof. intros [H1 H2]. split; [done|]. intros s' Hs. cbn. rewrite at_upd. destruct (decide (s = s')); [done|by apply H2]. Qed.
Lemma mark_destroyed_ok s e : ends_ok e -> ends_ok (mark_destroyed s e).
Proof. intros [H1 H2]. by split. Qed.
Lemma close_side_ok s e : ends_ok e -> ends_ok (close_side s e).
Proof.
  intros [H1 H2]. unfold close_side. destruct (at_side (en_closed e) s) eqn:E; [done|]. split; cbn.
  - apply NoDup_app. split; [done|]. split; [|apply NoDup_singleton]. intros x Hx ->%list_elem_of_singleton. specialize (H2 s Hx). congruence.
  - intros s' [Hs| ->%list_elem_of_singleton]%elem_of_app; rewrite at_upd; [destruct (decide (s = s')); [done|by apply H2]|by rewrite decide_True].
Qed.
Lemma close_side_closed s e s' : at_side (en_closed (close_side s e)) s' = (if decide (s = s') then true else at_side (en_closed e) s').
Proof.
  unfold close_side. destruct (at_side (en_closed e) s) eqn:E; [|apply at_upd]. destruct (decide (s = s')) as [<-|]; [done|done].
Qed.
Lemma close_both_ok e : ends_ok e -> ends_ok (close_both e).
Proof. intros H. by apply close_side_ok, close_side_ok. Qed.
Lemma close_both_closed e s : at_side (en_closed (close_both e)) s = true.
Proof. unfold close_both. rewrite !close_side_closed. by destruct s. Qed.
Lemma mark_keeps s e s' : at_side (en_closed e) s' = true -> at_side (en_closed (mark_closed s e)) s' = true.
Proof. intros H. cbn. rewrite at_upd. by destruct (decide (s = s')). Qed.

(** ** The raw bridge *)
(** What a stream sent, chunk by chunk. *)
Definition received (s : side) (events : list raw_event) : list bytes :=
  omap (fun e => match e with rv_data s' chunk _ => if decide (s' = s) then Some chunk else None | _ => None end) events.
Record raw_ok (events : list raw_event) (st : raw_bridge) : Prop := {
  ro_ends : ends_ok (rb_ends st);
  ro_closed : rb_closed st = true -> forall s, at_side (en_closed (rb_ends st)) s = true;
  ro_prefix : forall s, at_side (rb_written st) (other s) `prefix_of` received s events;
  ro_all : rb_closed st = false -> forall s, at_side (rb_written st) (other s) = received s events;
  ro_paused : forall s, at_side (rb_paused st) s = true -> rb_closed st = true \/ (0 < at_side (rb_drains st) (other s))%nat;
}.
Lemma received_app s events e : received s (events ++ [e]) = received s events ++ received s [e].
Proof. apply omap_app. Qed.
Lemma cleanup_raw events e st : raw_ok events st -> raw_ok (events ++ [e]) (rawCleanup st).
Proof.
  intros [H1 H2 H3 H4 H5]. assert (forall s, at_side (rb_written st) (other s) `prefix_of` received s (events ++ [e])) as Hp.
  { intros s. rewrite received_app. by apply prefix_app_r. }
  unfold rawCleanup. destruct (rb_closed st) eqn:E; [by split; rewrite ?E|]. split; cbn; try done.
  - by apply close_both_ok.
  - intros _ s. apply close_both_closed.
  - by left.
Qed.
(** A step that neither receives nor writes. *)
Lemma quiet_raw events e st st' : raw_ok events st -> (forall s, received s [e] = []) -> rb_written st' = rb_written st -> rb_closed st' = rb_closed st ->
  ends_ok (rb_ends st') -> (forall s, at_side (en_closed (rb_ends st)) s = true -> at_side (en_closed (rb_ends st')) s = true) ->
  (rb_closed st = false -> forall s, at_side (rb_paused st') s = true -> (0 < at_side (rb_drains st') (other s))%nat) -> raw_ok (events ++ [e]) st'.
Proof.
  intros [H1 H2 H3 H4 H5] He Ew Ec Hends Hm Hd. split; rewrite ?Ew, ?Ec; try done.
  - intros E s. by apply Hm, H2.
  - intros s. rewrite received_app, He, app_nil_r. apply H3.
  - intros E s. rewrite received_app, He, app_nil_r. by apply H4.
  - intros s Hs. destruct (rb_closed st); [by left|]. right. by apply Hd.
Qed.
Lemma forward_raw events s chunk full st : raw_ok events st -> rb_closed st = false -> raw_ok (events ++ [rv_data s chunk full]) (raw_forward s chunk full st).
Proof.
  intros H E. unfold raw_forward. destruct (side_gone _ _); [by apply cleanup_raw|]. destruct H as [H1 H2 H3 H4 H5].
  assert (forall s', at_side (upd (other s) (at_side (rb_written st) (other s) ++ [chunk]) (rb_written st)) (other s') = received s' (events ++ [rv_data s chunk full])) as Hw.
  { intros s'. rewrite received_app, at_upd. cbn. rewrite <- (H4 E s'). by destruct s, s'; cbn; rewrite ?app_nil_r. }
  destruct full; split; cbn; try done; try (by intros s'; rewrite Hw); try (intros E'; congruence).
  intros s'. rewrite !at_upd. intros Hp. right. destruct (decide (other s = other s')); [lia|].
  destruct (decide (s = s')) as [->|]; [done|]. destruct (H5 s' Hp); [congruence|done].
Qed.
Lemma step_raw events e st : raw_ok events st -> raw_ok (events ++ [e]) (raw_step st e).
Proof.
  intros H. destruct e as [s chunk full|s|s|s|s]; cbn [raw_step].
  - destruct (rb_closed st) eqn:E; [|by apply forward_raw]. destruct H as [H1 H2 H3 H4 H5]. split; try done; [|congruence].
    intros s'. rewrite received_app. by apply prefix_app_r.
  - destruct (at_side (rb_drains st) s) as [|n] eqn:Ed; [apply (quiet_raw events _ st st); try done; try apply H|].
    + intros E s' Hp. destruct (ro_paused _ _ H s' Hp) as [?|?]; [congruence|done].
    + apply (quiet_raw events _ st); try done; try apply H. cbn. intros E s' Hp. rewrite E in Hp. rewrite at_upd in Hp.
      destruct (decide (other s = s')) as [|Hne]; [done|]. rewrite at_upd. destruct (decide (s = other s')) as [->|].
      * by rewrite other_other in Hne.
      * destruct (ro_paused _ _ H s' Hp); [congruence|done].
  - by apply cleanup_raw.
  - apply (quiet_raw events _ st); try done; try apply H; [apply mark_closed_ok, H|by intros; apply mark_keeps|].
    intros E s' Hp. destruct (ro_paused _ _ H s' Hp); [congruence|done].
  - apply (quiet_raw events _ st); try done; try apply H; [apply mark_destroyed_ok, H|].
    intros E s' Hp. destruct (ro_paused _ _ H s' Hp); [congruence|done].
Qed.
Lemma run_raw events : raw_ok events (raw_run events).
Proof.
  induction events as [|e events IH] using rev_ind.
  - split; try done; [apply ends_start_ok|by intros []|by intros _ []|by intros []].
  - unfold raw_run. rewrite fold_left_app. by apply step_raw.
Qed.

(** The raw bridge of a WebSocket.  Whatever its two streams do: each is sent a
    prefix of the other's chunks, in order and unchanged, and all of them as long
    as the bridge is open; a stream that is paused while the bridge is open waits
    for a drain of the other; the bridge closes a stream at most once, and when it
    is closed both streams are. *)
Theorem raw_bridge_correct events :
  let st := raw_run events in
  (forall s, at_side (rb_written st) (other s) `prefix_of` received s events) /\
  (rb_closed st = false -> forall s, at_side (rb_written st) (other s) = received s events) /\
  (forall s, at_side (rb_paused st) s = true -> rb_closed st = true \/ (0 < at_side (rb_drains st) (other s))%nat) /\
  NoDup (en_closes (rb_ends st)) /\ (rb_closed st = true -> forall s, at_side (en_closed (rb_ends st)) s = true).
Proof. intros st. destruct (run_raw events) as [H1 H2 H3 H4 H5]. split_and!; try done. apply H1. Qed.

(** ** The framed bridge *)
(** The lines read of a stream, as its loop awaits them one after another: up to the
    first that is no frame. *)
Fixpoint frames_of (lines : list (result exn jsstring)) : list jsval :=
  match lines with
  | [] => []
  | line :: lines => match (l ← line; decodeVwsFrame l) with Ok frame => frame :: frames_of lines | Throw _ => [] end
  end.
(** The lines the loop of [s] reads. *)
Fixpoint awaited (s : side) (st : frame_bridge) (events : list frame_event) : list (result exn jsstring) :=
  match events with
  | [] => []
  | e :: events =>
      (match e, at_side (fb_loops st) s with fv_line s' line _, fw_reading => if decide (s' = s) then [line] else [] | _, _ => [] end) ++
      awaited s (frame_step st e) events
  end.

Lemma loops_set s l st s' : at_side (fb_loops (set_loop s l st)) s' = if decide (s = s') then l else at_side (fb_loops st) s'.
Proof. apply at_upd. Qed.
Lemma cleanup_loops st : fb_loops (cleanup st) = fb_loops st /\ fb_written (cleanup st) = fb_written st /\ fb_closed (cleanup st) = true.
Proof. unfold cleanup. by destruct (fb_closed st) eqn:E. Qed.
Lemma done_step s st e : at_side (fb_loops st) s = fw_done ->
  at_side (fb_loops (frame_step st e)) s = fw_done /\ at_side (fb_written (frame_step st e)) (other s) = at_side (fb_written st) (other s).
Proof.
  intros Hd. destruct e as [s' line full|s'|s'|s']; cbn [frame_step].
  - destruct (decide (s' = s)) as [->|Hne]; [by rewrite Hd|]. assert (other s' <> other s) as Hne' by (by destruct s, s').
    destruct (at_side (fb_loops st) s'); [|done..]. destruct (l ← line; decodeVwsFrame l).
    + destruct full; unfold loop_again; rewrite loops_set, decide_False by done; split; try done; cbn; by rewrite at_upd, decide_False.
    + rewrite loops_set, decide_False by done. cbn [set_loop fb_written]. destruct (cleanup_loops st) as (-> & -> & _). done.
  - destruct (decide (other s' = s)) as [->|Hne]; [by rewrite Hd|]. destruct (at_side (fb_loops st) (other s')); try done.
    unfold loop_again. by rewrite loops_set, decide_False.
  - destruct (cleanup_loops st) as (-> & -> & _). done.
  - done.
Qed.
Lemma done_run s events : forall st, at_side (fb_loops st) s = fw_done ->
  awaited s st events = [] /\ at_side (fb_written (fold_left frame_step events st)) (other s) = at_side (fb_written st) (other s).
Proof.
  induction events as [|e events IH]; intros st Hd; [done|]. destruct (done_step s st e Hd) as [Hd' Hw]. destruct (IH _ Hd') as [Ea Ew]. cbn [awaited fold_left].
  rewrite Ea, Ew, Hw, Hd, app_nil_r. split; [by destruct e|done].
Qed.
Lemma written_run s events : forall st,
  at_side (fb_written (fold_left frame_step events st)) (other s) =
  at_side (fb_written st) (other s) ++ map encodeVwsFrame (frames_of (awaited s st events)).
Proof.
  induction events as [|e events IH]; intros st; [by rewrite app_nil_r|]. cbn [fold_left awaited].
  destruct e as [s' line full|s'|s'|s'].
  - cbn [frame_step]. destruct (decide (s' = s)) as [->|Hne].
    + destruct (at_side (fb_loops st) s) eqn:El; [|by rewrite IH..]. cbn [app frames_of].
      destruct (l ← line; decodeVwsFrame l) as [frame|x].
      * rewrite IH. cbn [map]. assert (at_side (fb_written (if full then set_loop s fw_draining _ else loop_again s _)) (other s) =
          at_side (upd (other s) (at_side (fb_written st) (other s) ++ [encodeVwsFrame frame]) (fb_written st)) (other s)) as -> by (by destruct full).
        rewrite at_upd, decide_True by done. by rewrite <- app_assoc.
      * set (st1 := set_loop s fw_done (cleanup st)). destruct (done_run s events st1) as [_ ->]; [unfold st1; by rewrite loops_set, decide_True|].
        cbn [st1 set_loop fb_written]. destruct (cleanup_loops st) as (_ & -> & _). by rewrite app_nil_r.
    + assert (other s' <> other s) as Hne' by (by destruct s, s'). rewrite IH. f_equal.
      * destruct (at_side (fb_loops st) s'); [|done..]. destruct (l ← line; decodeVwsFrame l).
        -- destruct full; cbn; by rewrite at_upd, decide_False.
        -- cbn [set_loop fb_written]. by destruct (cleanup_loops st) as (_ & -> & _).
      * by destruct (at_side (fb_loops st) s).
  - rewrite IH. f_equal. cbn [frame_step]. by destruct (at_side (fb_loops st) (other s')).
  - rewrite IH. cbn [frame_step]. by destruct (cleanup_loops st) as (_ & -> & _).
  - by rewrite IH.
Qed.

Record frame_ok (st : frame_bridge) : Prop := {
  fo_ends : ends_ok (fb_ends st);
  fo_closed : fb_closed st = true -> forall s, at_side (en_closed (fb_ends st)) s = true;
  fo_done : forall s, at_side (fb_loops st) s = fw_done -> fb_closed st = true;
}.
Lemma cleanup_frame st : frame_ok st -> frame_ok (cleanup st).
Proof.
  intros H. unfold cleanup. destruct (fb_closed st); [done|]. destruct H as [H1 H2 H3]. split; cbn; try done; [by apply close_both_ok|].
  intros _ s. apply close_both_closed.
Qed.
Lemma loop_frame s l st : (l = fw_done -> fb_closed st = true) -> frame_ok st -> frame_ok (set_loop s l st).
Proof. intros Hl [H1 H2 H3]. split; try done. intros s'. rewrite loops_set. destruct (decide (s = s')); [exact Hl|apply H3]. Qed.
Lemma step_frame st e : frame_ok st -> frame_ok (frame_step st e).
Proof.
  intros H. assert (forall s st, frame_ok st -> frame_ok (loop_again s st)) as Hl.
  { intros s st' H'. apply loop_frame; [|done]. by destruct (fb_closed st'). }
  destruct e as [s line full|s|s|s]; cbn [frame_step].
  - destruct (at_side (fb_loops st) s); try done. destruct (l ← line; decodeVwsFrame l).
    + assert (forall w, frame_ok {| fb_closed := fb_closed st; fb_ends := fb_ends st; fb_loops := fb_loops st; fb_written := w |}) as Hw by (by intros w; destruct H).
      destruct full; [by apply loop_frame|by apply Hl].
    + apply loop_frame; [intros _; apply cleanup_loops|by apply cleanup_frame].
  - destruct (at_side (fb_loops st) (other s)); try done. by apply Hl.
  - by apply cleanup_frame.
  - destruct H as [H1 H2 H3]. split; try done; [by apply mark_closed_ok|]. cbn. intros E s'. rewrite at_upd. destruct (decide (s = s')); [done|by apply H2].
Qed.
Lemma run_frame events : forall st, frame_ok st -> frame_ok (fold_left frame_step events st).
Proof. induction events as [|e events IH]; intros st H; [done|]. by apply IH, step_frame. Qed.

(** C14: the framed bridge of a WebSocket.  Whatever its two streams do: each is sent
    exactly the frames of the lines the other's loop read, in order, up to the
    first line that is no frame; a loop that has ended has closed the bridge; the
    bridge closes a stream at most once, and when it is closed both streams are. *)
Theorem frame_bridge_correct events :
  let st := frame_run events in
  (forall s, at_side (fb_written st) (other s) = map encodeVwsFrame (frames_of (awaited s frame_start events))) /\
  (forall s, at_side (fb_loops st) s = fw_done -> fb_closed st = true) /\
  NoDup (en_closes (fb_ends st)) /\ (fb_closed st = true -> forall s, at_side (en_closed (fb_ends st)) s = true).
Proof.
  intros st. destruct (run_frame events frame_start) as [H1 H2 H3].
  { split; try done; [apply ends_start_ok|by intros []]. }
  split_and!; try done; [|apply H1]. intros s. unfold st, frame_run. rewrite written_run. by destruct s.
Qed.

(** A frame may be longer when it is forwarded than when it was read. *)
Example forwarded_frame_grows :
  let line := js "{" ++ quote (js "type") ++ js ":" ++ quote (js "ping") ++ js "," ++ quote (js "x") ++ js ":1e20}" in
  ((fun frame => len line <? len (encodeVwsFrame frame) - 1) <$> decodeVwsFrame line) = Ok true.
Proof. vm_compute. reflexivity. Qed.
