(* ===== verification/VerserWebsocket.v ===== *)
(** A WebSocket over VWS/1 (verser2-guest-node [verser-websocket.ts]): the class
    [VerserWebSocket] of the guest and of the broker, over one HTTP/2 stream.

    The stream, the timer, the calls of the program and the continuations of
    promises are events; a list of events is one interleaving.  What
    [stream.write] answers, and what the 'message' listeners answer, are functions
    of the number of the write and of the message: a message has the list of its
    listeners' answers.  What a listener calls while it handles a message are the
    calls (events) between its [l_pending] and its [we_listener]; the lines of a
    chunk behind the message it is handling are then a chunk of their own.  The text of a chunk is what
    the [StringDecoder] returned for it.  Everything the socket does is logged. *)
From S2P Require Import Prelude JsNum Utf8 Json Errors Vws Base64.

Definition MAX_INBOUND_MESSAGES : Z := 64.
Definition MAX_INBOUND_BYTES : Z := VWS_MAX_FRAME_BYTES.
Definition MAX_PRE_ACCEPT_MESSAGES : Z := 64.
Definition MAX_PRE_ACCEPT_BYTES : Z := VWS_MAX_FRAME_BYTES.
Definition MAX_OUTBOUND_MESSAGES : Z := 64.
Definition MAX_OUTBOUND_BYTES : Z := VWS_MAX_FRAME_BYTES.

(** ** Messages and frames *)
Inductive ws_type : Type := t_text | t_binary.
Inductive ws_data : Type := d_string (s : jsstring) | d_buffer (b : bytes).
Definition data_bytes (d : ws_data) : bytes := match d with d_string s => utf8_encode s | d_buffer b => b end.
Definition data_string (d : ws_data) : jsstring := match d with d_string s => s | d_buffer b => utf8_decode b end.
Definition typed_frame (type : string) (fields : list (jsstring * jsval)) : jsval := JObj ((js "type", JStr (js type)) :: fields).
#[global] Arguments typed_frame type%_string fields.
Definition message_frame (data : ws_data) (type : ws_type) : jsval :=
  match type with
  | t_binary => typed_frame "binary" [(js "data", JStr (base64_encode (data_bytes data)))]
  | t_text => typed_frame "text" [(js "data", JStr (data_string data))]
  end.
Definition close_frame (code : Z) (reason : jsstring) : jsval := typed_frame "close" [(js "code", JNum (num_int code)); (js "reason", JStr reason)].
Definition accept_frame (protocol : jsstring) : jsval := typed_frame "accept" [(js "protocol", JStr protocol)].
Definition ping_frame (data : jsstring) : jsval := typed_frame "ping" [(js "data", JStr data)].
Definition pong_frame (data : jsstring) : jsval := typed_frame "pong" [(js "data", JStr data)].
Definition frame_bytes (frame : jsval) : Z := byte_length (json_text frame) + 1.

Definition validateClose (code : jsnum) (reason : jsstring) : result exn Z :=
  match code with
  | num_int z =>
      _ ← throw_if (negb (valid_close_code z)) (NativeErr RangeError (js "Invalid WebSocket close code: " ++ num_to_string code));
      _ ← throw_if (123 <? byte_length reason) (NativeErr RangeError (js "WebSocket close reason exceeds 123 UTF-8 bytes"));
      Ok z
  | _ => Throw (NativeErr RangeError (js "Invalid WebSocket close code: " ++ num_to_string code))
  end.

(** ** State *)
Record ws_entry := { we_frame : jsval; we_bytes : Z; we_promise : nat }.
Record inbound_entry := { ib_data : ws_data; ib_bytes : Z }.
Record bounded_queue (A : Type) := { bq_items : list A; bq_bytes : Z }.
Arguments bq_items {A}. Arguments bq_bytes {A}. Arguments Build_bounded_queue {A}.
Definition bq_empty {A} : bounded_queue A := {| bq_items := []; bq_bytes := 0 |}.

(** What runs when a write is done. *)
Inductive continuation : Type :=
  | k_void                                            (** [void writeLine(..).catch(..)] *)
  | k_call (promise : nat)                            (** the promise of [ping] or [pong] *)
  | k_accept                                          (** the [then] of the accept frame *)
  | k_flush (entry : ws_entry) (rest : list ws_entry) (** [flushNext] *)
  | k_flushed                                         (** the [then] of [drainSendQueue(true)] *)
  | k_pump (entry : ws_entry).                        (** [pumpOutboundQueue] *)
Inductive ws_output : Type :=
  | o_write (frame : jsval) | o_end | o_destroy
  | o_message (n : nat) (data : ws_data) | o_closed (code : Z) (reason : jsstring) | o_error (e : exn) (closeCode : option Z) | o_pong (data : jsstring)
  | o_resolve (promise : nat) | o_reject (promise : nat) (e : exn)
  | o_pause | o_resume.

(** What a listener of 'message' does: it returns, throws, or returns a promise. *)
Inductive listener_answer : Type := l_returns | l_throws (e : exn) | l_pending.
Record runtime := {
  rt_ended : bool;                                    (** [writableEnded] *)
  rt_waiting : list continuation;                     (** writes that wait for 'drain' *)
  rt_ready : list (continuation * option exn);        (** settled writes whose continuation has not run *)
  rt_promises : nat; rt_writes : nat; rt_delivered : nat;
  rt_listening : option (nat * ws_data * list listener_answer);  (** the message whose listener is awaited, and the listeners after it *)
  rt_log : list ws_output;
}.
Record websocket := {
  protocol : jsstring; closeSent : bool; destroyed : bool; accepted : bool; acceptWritten : bool;
  sendQueue : bounded_queue ws_entry;
  outboundQueue : bounded_queue ws_entry; writingOutbound : bool;
  inboundQueue : bounded_queue inbound_entry; processingInbound : bool;
  closeTimer : bool; lineBuffer : jsstring; rt : runtime;
}.
Definition runtime_init : runtime :=
  {| rt_ended := false; rt_waiting := []; rt_ready := []; rt_promises := 0; rt_writes := 0; rt_delivered := 0; rt_listening := None; rt_log := [] |}.
(** The constructor. *)
Definition websocket_init (proto : jsstring) (alreadyAccepted : bool) : websocket :=
  {| protocol := proto; closeSent := false; destroyed := false; accepted := alreadyAccepted; acceptWritten := alreadyAccepted;
     sendQueue := bq_empty; outboundQueue := bq_empty; writingOutbound := false; inboundQueue := bq_empty; processingInbound := false;
     closeTimer := false; lineBuffer := []; rt := runtime_init |}.

Definition set_flags (sent dead : bool) (st : websocket) : websocket :=
  {| protocol := protocol st; closeSent := sent; destroyed := dead; accepted := accepted st; acceptWritten := acceptWritten st; sendQueue := sendQueue st;
     outboundQueue := outboundQueue st; writingOutbound := writingOutbound st; inboundQueue := inboundQueue st; processingInbound := processingInbound st;
     closeTimer := closeTimer st; lineBuffer := lineBuffer st; rt := rt st |}.
Definition set_accepted (proto : jsstring) (done written : bool) (st : websocket) : websocket :=
  {| protocol := proto; closeSent := closeSent st; destroyed := destroyed st; accepted := done; acceptWritten := written; sendQueue := sendQueue st;
     outboundQueue := outboundQueue st; writingOutbound := writingOutbound st; inboundQueue := inboundQueue st; processingInbound := processingInbound st;
     closeTimer := closeTimer st; lineBuffer := lineBuffer st; rt := rt st |}.
Definition set_sendQueue (q : bounded_queue ws_entry) (st : websocket) : websocket :=
  {| protocol := protocol st; closeSent := closeSent st; destroyed := destroyed st; accepted := accepted st; acceptWritten := acceptWritten st; sendQueue := q;
     outboundQueue := outboundQueue st; writingOutbound := writingOutbound st; inboundQueue := inboundQueue st; processingInbound := processingInbound st;
     closeTimer := closeTimer st; lineBuffer := lineBuffer st; rt := rt st |}.
Definition set_outbound (q : bounded_queue ws_entry) (writing : bool) (st : websocket) : websocket :=
  {| protocol := protocol st; closeSent := closeSent st; destroyed := destroyed st; accepted := accepted st; acceptWritten := acceptWritten st; sendQueue := sendQueue st;
     outboundQueue := q; writingOutbound := writing; inboundQueue := inboundQueue st; processingInbound := processingInbound st;
     closeTimer := closeTimer st; lineBuffer := lineBuffer st; rt := rt st |}.
Definition set_inbound (q : bounded_queue inbound_entry) (processing : bool) (st : websocket) : websocket :=
  {| protocol := protocol st; closeSent := closeSent st; destroyed := destroyed st; accepted := accepted st; acceptWritten := acceptWritten st; sendQueue := sendQueue st;
     outboundQueue := outboundQueue st; writingOutbound := writingOutbound st; inboundQueue := q; processingInbound := processing;
     closeTimer := closeTimer st; lineBuffer := lineBuffer st; rt := rt st |}.
Definition set_reading (timer : bool) (buffer : jsstring) (st : websocket) : websocket :=
  {| protocol := protocol st; closeSent := closeSent st; destroyed := destroyed st; accepted := accepted st; acceptWritten := acceptWritten st; sendQueue := sendQueue st;
     outboundQueue := outboundQueue st; writingOutbound := writingOutbound st; inboundQueue := inboundQueue st; processingInbound := processingInbound st;
     closeTimer := timer; lineBuffer := buffer; rt := rt st |}.
Definition set_rt (r : runtime) (st : websocket) : websocket :=
  {| protocol := protocol st; closeSent := closeSent st; destroyed := destroyed st; accepted := accepted st; acceptWritten := acceptWritten st; sendQueue := sendQueue st;
     outboundQueue := outboundQueue st; writingOutbound := writingOutbound st; inboundQueue := inboundQueue st; processingInbound := processingInbound st;
     closeTimer := closeTimer st; lineBuffer := lineBuffer st; rt := r |}.
Definition push_log (l : list ws_output) (r : runtime) : runtime :=
  {| rt_ended := rt_ended r; rt_waiting := rt_waiting r; rt_ready := rt_ready r; rt_promises := rt_promises r; rt_writes := rt_writes r;
     rt_delivered := rt_delivered r; rt_listening := rt_listening r; rt_log := rt_log r ++ l |}.
Definition with_continuations (waiting : list continuation) (ready : list (continuation * option exn)) (r : runtime) : runtime :=
  {| rt_ended := rt_ended r; rt_waiting := waiting; rt_ready := ready; rt_promises := rt_promises r; rt_writes := rt_writes r;
     rt_delivered := rt_delivered r; rt_listening := rt_listening r; rt_log := rt_log r |}.
Definition with_counts (ended : bool) (promises writes delivered : nat) (r : runtime) : runtime :=
  {| rt_ended := ended; rt_waiting := rt_waiting r; rt_ready := rt_ready r; rt_promises := promises; rt_writes := writes;
     rt_delivered := delivered; rt_listening := rt_listening r; rt_log := rt_log r |}.
Definition with_listening (l : option (nat * ws_data * list listener_answer)) (r : runtime) : runtime :=
  {| rt_ended := rt_ended r; rt_waiting := rt_waiting r; rt_ready := rt_ready r; rt_promises := rt_promises r; rt_writes := rt_writes r;
     rt_delivered := rt_delivered r; rt_listening := l; rt_log := rt_log r |}.
Definition log_all (l : list ws_output) (st : websocket) : websocket := set_rt (push_log l (rt st)) st.
Definition emit (o : ws_output) (st : websocket) : websocket := log_all [o] st.
Definition ready (k : continuation) (r : option exn) (st : websocket) : websocket :=
  set_rt (with_continuations (rt_waiting (rt st)) (rt_ready (rt st) ++ [(k, r)]) (rt st)) st.
(** A new promise: its number. *)
Definition new_promise (st : websocket) : websocket :=
  set_rt (with_counts (rt_ended (rt st)) (S (rt_promises (rt st))) (rt_writes (rt st)) (rt_delivered (rt st)) (rt st)) st.

Inductive write_answer : Type := w_more | w_full | w_throws (e : exn).

Section Websocket.
Context (accepts : nat -> write_answer) (listeners : nat -> list listener_answer).

(** ** Writing *)
Definition writeLine (frame : jsval) (k : continuation) (st : websocket) : websocket :=
  let n := rt_writes (rt st) in
  let st := set_rt (with_counts (rt_ended (rt st)) (rt_promises (rt st)) (S n) (rt_delivered (rt st)) (rt st)) st in
  match accepts n with
  | w_more => ready k None (emit (o_write frame) st)
  | w_full => let st := emit (o_write frame) st in set_rt (with_continuations (rt_waiting (rt st) ++ [k]) (rt_ready (rt st)) (rt st)) st
  | w_throws e => ready k (Some e) st
  end.
Definition endStream (st : websocket) : websocket :=
  if rt_ended (rt st) then st
  else emit o_end (set_rt (with_counts true (rt_promises (rt st)) (rt_writes (rt st)) (rt_delivered (rt st)) (rt st)) st).
(** The writes that wait are settled: 'drain', 'error' or 'close' of the stream. *)
Definition settle_writes (r : option exn) (st : websocket) : websocket :=
  set_rt (with_continuations [] (rt_ready (rt st) ++ map (fun k => (k, r)) (rt_waiting (rt st))) (rt st)) st.

Definition rejections (e : exn) (l : list ws_entry) : list ws_output := map (fun x => o_reject (we_promise x) e) l.
Definition failOutboundQueue (e : exn) (st : websocket) : websocket :=
  log_all (rejections e (bq_items (outboundQueue st))) (set_outbound bq_empty (writingOutbound st) st).
(** [drainSendQueue(false)]. *)
Definition discardSendQueue (st : websocket) : websocket :=
  log_all (rejections (plainError "WebSocket closed before accept") (bq_items (sendQueue st))) (set_sendQueue bq_empty st).

Definition pump_loop (st : websocket) : websocket :=
  match destroyed st, bq_items (outboundQueue st) with
  | false, entry :: rest =>
      writeLine (we_frame entry) (k_pump entry) (set_outbound {| bq_items := rest; bq_bytes := bq_bytes (outboundQueue st) |} true st)
  | _, _ => set_outbound (outboundQueue st) false st
  end.
Definition pumpOutboundQueue (st : websocket) : websocket := if writingOutbound st then st else pump_loop st.
(** [flushNext]. *)
Definition flushNext (queue : list ws_entry) (st : websocket) : websocket :=
  match queue with
  | [] => ready k_flushed None st
  | entry :: rest => writeLine (we_frame entry) (k_flush entry rest) st
  end.
(** A continuation runs. *)
Definition resume (k : continuation) (r : option exn) (st : websocket) : websocket :=
  match k with
  | k_void => st
  | k_call p => emit (match r with None => o_resolve p | Some e => o_reject p e end) st
  | k_accept =>
      match r with
      | None => flushNext (bq_items (sendQueue st)) (set_sendQueue bq_empty (set_accepted (protocol st) (accepted st) true st))
      | Some _ => st
      end
  | k_flush entry rest =>
      match r with
      | None => flushNext rest (emit (o_resolve (we_promise entry)) st)
      | Some e => ready k_flushed None (log_all (rejections e (entry :: rest)) st)
      end
  | k_flushed => pumpOutboundQueue st
  | k_pump entry =>
      let q := {| bq_items := bq_items (outboundQueue st); bq_bytes := Z.max 0 (bq_bytes (outboundQueue st) - we_bytes entry) |} in
      match r with
      | None => pump_loop (emit (o_resolve (we_promise entry)) (set_outbound q (writingOutbound st) st))
      | Some e => log_all (rejections e (entry :: bq_items (outboundQueue st))) (set_outbound bq_empty false st)
      end
  end.

(** ** Closing *)
Definition close (code : jsnum) (reason : jsstring) (st : websocket) : result exn unit * websocket :=
  if closeSent st || destroyed st then (Ok tt, st)
  else
    match validateClose code reason with
    | Throw e => (Throw e, st)
    | Ok z =>
        let st := failOutboundQueue (plainError "WebSocket is closing") (set_flags true (destroyed st) st) in
        let st := if accepted st then st else discardSendQueue st in
        let st := writeLine (close_frame z reason) k_void st in
        (Ok tt, set_reading true (lineBuffer st) st)
    end.
Definition handleProtocolFault (e : exn) (closeCode : Z) (closeReason : jsstring) (st : websocket) : websocket :=
  (close (num_int closeCode) closeReason (emit (o_error e (Some closeCode)) st)).2.
(** The stream ended or was closed. *)
Definition stream_over (st : websocket) : websocket :=
  let st := set_reading false (lineBuffer st) st in
  if destroyed st then st
  else
    let st := failOutboundQueue (plainError "WebSocket closed") (set_flags (closeSent st) true st) in
    emit (o_closed 1006 []) (if accepted st then st else discardSendQueue st).
Definition close_timeout (st : websocket) : websocket :=
  let st := set_reading false (lineBuffer st) st in
  if destroyed st then st
  else
    let st := failOutboundQueue (plainError "WebSocket close timed out") (set_flags (closeSent st) true st) in
    emit (o_closed 1006 (js "close handshake timeout")) (emit o_destroy (endStream st)).
Definition terminate (st : websocket) : websocket :=
  if destroyed st then st
  else emit (o_closed 1006 (js "terminated")) (emit o_destroy (failOutboundQueue (plainError "WebSocket terminated") (set_flags (closeSent st) true st))).

(** ** Calls of the program *)
Definition entry_of (frame : jsval) (p : nat) : ws_entry := {| we_frame := frame; we_bytes := frame_bytes frame; we_promise := p |}.
Definition push_entry (e : ws_entry) (q : bounded_queue ws_entry) : bounded_queue ws_entry :=
  {| bq_items := bq_items q ++ [e]; bq_bytes := bq_bytes q + we_bytes e |}.
Definition queue_full (q : bounded_queue ws_entry) (bytes maxMessages maxBytes : Z) : bool :=
  (maxMessages <=? len (bq_items q)) || (maxBytes <? bq_bytes q + bytes).
Definition send (data : ws_data) (type : ws_type) (st : websocket) : websocket :=
  let p := rt_promises (rt st) in
  let st := new_promise st in
  if closeSent st || destroyed st then emit (o_resolve p) st
  else
    let frame := message_frame data type in
    let bytes := frame_bytes frame in
    if VWS_MAX_FRAME_BYTES <? bytes
    then emit (o_resolve p) (handleProtocolFault (plainError "VWS message exceeds maximum size (1048576 bytes)") 1009 (js "message too large") st)
    else if negb (accepted st) then
      if queue_full (sendQueue st) bytes MAX_PRE_ACCEPT_MESSAGES MAX_PRE_ACCEPT_BYTES
      then let e := plainError "VWS pre-accept send queue exceeded" in emit (o_reject p e) (handleProtocolFault e 1009 (js "message queue too large") st)
      else set_sendQueue (push_entry (entry_of frame p) (sendQueue st)) st
    else
      if queue_full (outboundQueue st) bytes MAX_OUTBOUND_MESSAGES MAX_OUTBOUND_BYTES
      then let e := plainError "VWS outbound send queue exceeded" in emit (o_reject p e) (handleProtocolFault e 1009 (js "message queue too large") st)
      else
        let st := set_outbound (push_entry (entry_of frame p) (outboundQueue st)) (writingOutbound st) st in
        if acceptWritten st then pumpOutboundQueue st else st.
Definition getBufferedAmount (st : websocket) : Z := bq_bytes (outboundQueue st).
Definition ping (data : jsstring) (st : websocket) : websocket :=
  let p := rt_promises (rt st) in
  let st := new_promise st in
  if closeSent st || destroyed st then emit (o_resolve p) st
  else if VWS_MAX_FRAME_BYTES <? byte_length data + 40
  then let e := plainError "VWS ping exceeds maximum size" in emit (o_reject p e) (handleProtocolFault e 1009 (js "message too large") st)
  else writeLine (ping_frame data) (k_call p) st.
Definition pong (data : jsstring) (st : websocket) : websocket :=
  let p := rt_promises (rt st) in
  let st := new_promise st in
  if closeSent st || destroyed st then emit (o_resolve p) st else writeLine (pong_frame data) (k_call p) st.
Definition sendAccept (proto : option jsstring) (st : websocket) : websocket :=
  if destroyed st then discardSendQueue st
  else
    let proto := default (protocol st) proto in
    writeLine (accept_frame proto) k_accept (set_accepted proto true (acceptWritten st) st).

(** ** Receiving *)
Definition inbound_done (st : websocket) : websocket :=
  let st := set_inbound (inboundQueue st) false st in
  match destroyed st, bq_items (inboundQueue st) with false, [] => emit o_resume st | _, _ => st end.
Definition delivered_one (st : websocket) : websocket :=
  set_rt (with_counts (rt_ended (rt st)) (rt_promises (rt st)) (rt_writes (rt st)) (S (rt_delivered (rt st))) (rt st)) st.
Definition handler_failed (e : exn) (st : websocket) : websocket := inbound_done (handleProtocolFault e 1011 (js "message handler failure") st).
(** [for (const listener of listeners)]: the listeners of message [n] that are
    still to be called.  [destroyed] is not looked at between them. *)
Inductive delivery : Type := dl_done | dl_failed (e : exn) | dl_waits (todo : list listener_answer).
Fixpoint call_listeners (n : nat) (data : ws_data) (todo : list listener_answer) (st : websocket) : delivery * websocket :=
  match todo with
  | [] => (dl_done, st)
  | answer :: todo =>
      let st := emit (o_message n data) st in
      match answer with
      | l_returns => call_listeners n data todo st
      | l_throws e => (dl_failed e, st)
      | l_pending => (dl_waits todo, st)
      end
  end.
Definition set_listening (l : option (nat * ws_data * list listener_answer)) (st : websocket) : websocket := set_rt (with_listening l (rt st)) st.
(** The loop of [processInboundQueue] over the messages in the queue. *)
Fixpoint process_loop (items : list inbound_entry) (st : websocket) : websocket :=
  match items with
  | [] => inbound_done st
  | entry :: rest =>
      if destroyed st then inbound_done st
      else
        let n := rt_delivered (rt st) in
        let st := set_inbound {| bq_items := rest; bq_bytes := bq_bytes (inboundQueue st) - ib_bytes entry |} true st in
        match call_listeners n (ib_data entry) (listeners n) (delivered_one st) with
        | (dl_done, st) => process_loop rest st
        | (dl_failed e, st) => handler_failed e st
        | (dl_waits todo, st) => set_listening (Some (n, ib_data entry, todo)) st
        end
  end.
Definition processInboundQueue (st : websocket) : websocket :=
  if processingInbound st then st else process_loop (bq_items (inboundQueue st)) (set_inbound (inboundQueue st) true st).
(** The promise of the listener that is awaited is settled. *)
Definition listener_settled (r : option exn) (st : websocket) : websocket :=
  match rt_listening (rt st) with
  | None => st
  | Some (n, data, todo) =>
      let st := set_listening None st in
      match r with
      | Some e => handler_failed e st
      | None =>
          match call_listeners n data todo st with
          | (dl_done, st) => process_loop (bq_items (inboundQueue st)) st
          | (dl_failed e, st) => handler_failed e st
          | (dl_waits todo, st) => set_listening (Some (n, data, todo)) st
          end
      end
  end.
Definition enqueueInbound (data : ws_data) (bytes : Z) (st : websocket) : websocket :=
  if (MAX_INBOUND_BYTES <? bytes) || (MAX_INBOUND_MESSAGES <=? len (bq_items (inboundQueue st))) || (MAX_INBOUND_BYTES <? bq_bytes (inboundQueue st) + bytes)
  then handleProtocolFault (plainError "VWS inbound message queue exceeded") 1009 (js "message too large") st
  else
    processInboundQueue (emit o_pause
      (set_inbound {| bq_items := bq_items (inboundQueue st) ++ [{| ib_data := data; ib_bytes := bytes |}]; bq_bytes := bq_bytes (inboundQueue st) + bytes |}
         (processingInbound st) st)).
Definition invalid_frame (message : string) (st : websocket) : websocket := handleProtocolFault (plainError message) 1002 (js "protocol error") st.
#[local] Arguments invalid_frame message%_string st.
Definition frame_type (o : list (jsstring * jsval)) : option VwsFrameType :=
  match prop (js "type") o with JStr t => find (fun x => str_eqb (frame_type_name x) t) frame_types | _ => None end.
Definition handleFrame (o : list (jsstring * jsval)) (st : websocket) : websocket :=
  match frame_type o with
  | Some f_text =>
      match prop (js "data") o with
      | JStr s => enqueueInbound (d_string s) (byte_length s) st
      | _ => invalid_frame "Invalid VWS text frame" st
      end
  | Some f_binary =>
      match prop (js "data") o with
      | JStr s => if is_base64 s then enqueueInbound (d_buffer (base64_decode s)) (len (base64_decode s)) st else invalid_frame "Invalid VWS binary frame" st
      | _ => invalid_frame "Invalid VWS binary frame" st
      end
  | Some f_ping =>
      match prop (js "data") o with
      | JUndef => writeLine (pong_frame []) k_void st
      | JStr s => writeLine (pong_frame s) k_void st
      | _ => invalid_frame "Invalid VWS ping frame" st
      end
  | Some f_pong =>
      match prop (js "data") o with
      | JUndef => emit (o_pong []) st
      | JStr s => emit (o_pong s) st
      | _ => invalid_frame "Invalid VWS pong frame" st
      end
  | Some f_close =>
      match prop (js "code") o with
      | JNum (num_int _ as code) =>
          match (match prop (js "reason") o with JStr r => Some r | JUndef => Some [] | _ => None end) with
          | None => invalid_frame "Invalid VWS close frame" st
          | Some reason =>
              match validateClose code reason with
              | Throw e => handleProtocolFault e 1002 (js "protocol error") st
              | Ok z =>
                  let st := set_reading false (lineBuffer st) (set_flags (closeSent st) true st) in
                  let st := emit (o_closed z reason) st in
                  endStream (if closeSent st then st else writeLine (close_frame z reason) k_void st)
              end
          end
      | _ => invalid_frame "Invalid VWS close frame" st
      end
  | Some f_error =>
      match prop (js "message") o with
      | JStr m => emit (o_error (NativeErr GenericError m) None) st
      | _ => invalid_frame "Invalid VWS error frame" st
      end
  | Some f_open | Some f_accept => handleProtocolFault (NativeErr GenericError (js "Unexpected VWS " ++ to_str (prop (js "type") o) ++ js " frame")) 1002 (js "protocol error") st
  | None => invalid_frame "Unknown VWS frame type" st
  end.

Definition frame_too_large : exn := plainError "VWS frame exceeds maximum size (1048576 bytes)".
(** Every turn takes a line off the buffer: a fuel above its length is enough. *)
Fixpoint incoming_loop (fuel : nat) (st : websocket) : websocket :=
  match fuel with
  | O => st
  | S fuel =>
      if destroyed st then st
      else
        match index_of [10] (lineBuffer st) with
        | None =>
            if VWS_MAX_FRAME_BYTES <? byte_length (lineBuffer st)
            then handleProtocolFault frame_too_large 1009 (js "frame too large") (set_reading (closeTimer st) [] st)
            else st
        | Some idx =>
            let line := take idx (lineBuffer st) in
            let st := set_reading (closeTimer st) (drop (S idx) (lineBuffer st)) st in
            if VWS_MAX_FRAME_BYTES <? byte_length line then handleProtocolFault frame_too_large 1009 (js "frame too large") st
            else
              match decodeVwsFrame line with
              | Ok (JObj o) => incoming_loop fuel (handleFrame o st)
              | Ok _ => st
              | Throw e => handleProtocolFault e 1002 (js "protocol error") st
              end
        end
  end.
Definition processIncoming (chunk : jsstring) (st : websocket) : websocket :=
  if destroyed st then st
  else
    let buffer := lineBuffer st ++ chunk in
    incoming_loop (S (length buffer)) (set_reading (closeTimer st) buffer st).

(** ** Events *)
Inductive ws_event : Type :=
  | we_data (chunk : jsstring) | we_end | we_close | we_error (e : exn) | we_drain
  | we_send (data : ws_data) (type : ws_type) | we_ping (data : jsstring) | we_pong (data : jsstring)
  | we_closing (code : jsnum) (reason : jsstring) | we_terminate | we_accept (proto : option jsstring)
  | we_timer | we_listener (r : option exn) | we_microtask.
Definition clear_line (st : websocket) : websocket := if destroyed st then st else set_reading (closeTimer st) [] st.
Definition microtask (st : websocket) : websocket :=
  match rt_ready (rt st) with
  | [] => st
  | (k, r) :: rest => resume k r (set_rt (with_continuations (rt_waiting (rt st)) rest (rt st)) st)
  end.
Definition ws_step (st : websocket) (e : ws_event) : websocket :=
  match e with
  | we_data chunk => processIncoming chunk st
  | we_end => stream_over (clear_line st)
  | we_close => settle_writes (Some (plainError "VWS stream closed while writing")) (stream_over st)
  | we_error e => settle_writes (Some e) (if destroyed st then st else emit (o_error e None) st)
  | we_drain => settle_writes None st
  | we_send data type => send data type st
  | we_ping data => ping data st
  | we_pong data => pong data st
  | we_closing code reason => (close code reason st).2
  | we_terminate => terminate st
  | we_accept proto => sendAccept proto st
  | we_timer => if closeTimer st then close_timeout st else st
  | we_listener r => listener_settled r st
  | we_microtask => microtask st
  end.
Definition ws_run (st : websocket) (events : list ws_event) : websocket := fold_left ws_step events st.
End Websocket.

(** * Theory *)

(** ** Reading the log *)
Definition kind_of (frame : jsval) : option VwsFrameType := match frame with JObj o => frame_type o | _ => None end.
Definition is_message (frame : jsval) : bool := match kind_of frame with Some f_text | Some f_binary => true | _ => false end.
Definition is_kind (t : VwsFrameType) (frame : jsval) : bool := match kind_of frame with Some t' => str_eqb (frame_type_name t) (frame_type_name t') | None => false end.
Definition settled (log : list ws_output) : list nat := omap (fun o => match o with o_resolve p | o_reject p _ => Some p | _ => None end) log.
Definition written (log : list ws_output) : list jsval := omap (fun o => match o with o_write f => Some f | _ => None end) log.
Definition messages (log : list ws_output) : list jsval := filter (fun f => is_message f = true) (written log).
Definition closings (log : list ws_output) : list jsval := filter (fun f => is_kind f_close f = true) (written log).
Definition closed_events (log : list ws_output) : list (Z * jsstring) := omap (fun o => match o with o_closed c r => Some (c, r) | _ => None end) log.
Definition closes (log : list ws_output) : nat := length (closed_events log).
Definition delivered (log : list ws_output) : list ws_data := omap (fun o => match o with o_message _ d => Some d | _ => None end) log.
#[global] Instance ws_data_eq_dec : EqDecision ws_data.
Proof. solve_decision. Defined.
(** The message that was handed to a listener last. *)
Fixpoint current (cur : option (nat * ws_data)) (log : list ws_output) : option (nat * ws_data) :=
  match log with [] => cur | o_message n d :: log => current (Some (n, d)) log | _ :: log => current cur log end.
(** A listener is handed the message that is being delivered, or, before the
    end, a message with a higher number: the next one from the queue. *)
Definition next_message (closed : bool) (cur : option (nat * ws_data)) (n : nat) (d : ws_data) : bool :=
  bool_decide (cur = Some (n, d)) || negb closed && match cur with Some (m, _) => (m <? n)%nat | None => true end.
(** The socket closes once.  After it, no message is taken from the queue: only
    the message being delivered is still handed to its remaining listeners. *)
Fixpoint orderly (closed : bool) (cur : option (nat * ws_data)) (log : list ws_output) : bool :=
  match log with
  | [] => true
  | o_closed _ _ :: log => negb closed && orderly true cur log
  | o_message n d :: log => next_message closed cur n d && orderly closed (Some (n, d)) log
  | _ :: log => orderly closed cur log
  end.
(** The accept frame comes before every message. *)
Fixpoint accept_first (frames : list jsval) : bool :=
  match frames with
  | [] => true
  | f :: frames => is_kind f_accept f || negb (is_message f) && accept_first frames
  end.
Definition has_accept (frames : list jsval) : bool := existsb (is_kind f_accept) frames.

Lemma settled_promises_app a b : settled (a ++ b) = settled a ++ settled b.
Proof. apply omap_app. Qed.
Lemma written_app a b : written (a ++ b) = written a ++ written b.
Proof. apply omap_app. Qed.
Lemma messages_app a b : messages (a ++ b) = messages a ++ messages b.
Proof. unfold messages. by rewrite written_app, filter_app. Qed.
Lemma closings_app a b : closings (a ++ b) = closings a ++ closings b.
Proof. unfold closings. by rewrite written_app, filter_app. Qed.
Lemma closes_app a b : closes (a ++ b) = (closes a + closes b)%nat.
Proof. unfold closes, closed_events. by rewrite omap_app, length_app. Qed.
Lemma delivered_app a b : delivered (a ++ b) = delivered a ++ delivered b.
Proof. apply omap_app. Qed.
Lemma has_accept_app a b : has_accept (a ++ b) = has_accept a || has_accept b.
Proof. apply existsb_app. Qed.
Lemma accept_first_app a b : accept_first (a ++ b) = accept_first a && (has_accept a || accept_first b).
Proof.
  induction a as [|f a IH]; [done|]. cbn [app accept_first has_accept existsb]. rewrite IH. unfold has_accept. destruct (is_kind f_accept f) eqn:E; [done|].
  destruct (is_message f); done.
Qed.
Lemma current_app a : forall cur b, current cur (a ++ b) = current (current cur a) b.
Proof. induction a as [|o a IH]; intros cur b; [done|]. destruct o; apply IH. Qed.
Lemma orderly_app a : forall c cur b, orderly c cur (a ++ b) = orderly c cur a && orderly (c || negb (closes a =? 0)%nat) (current cur a) b.
Proof.
  induction a as [|o a IH]; intros c cur b; [by rewrite orb_false_r|]. destruct o; cbn [app orderly current]; rewrite IH; try done; rewrite <- andb_assoc; try done.
  by destruct c.
Qed.
(** An output that is neither a message nor the end. *)
Definition plain_output (o : ws_output) : bool := match o with o_message _ _ | o_closed _ _ => false | _ => true end.
Lemma orderly_snoc o log : plain_output o = true -> orderly false None (log ++ [o]) = orderly false None log /\ current None (log ++ [o]) = current None log.
Proof. intros Ho. rewrite orderly_app, current_app. split; destruct o; try done; apply andb_true_r. Qed.

(** ** The invariant *)
Definition cnt (p : nat) (l : list nat) : nat := count_occ Nat.eq_dec l p.
Lemma cnt_app p a b : cnt p (a ++ b) = (cnt p a + cnt p b)%nat.
Proof. apply count_occ_app. Qed.
Definition k_entries (k : continuation) : list ws_entry := match k with k_flush e rest => e :: rest | k_pump e => [e] | _ => [] end.
Definition k_ids (k : continuation) : list nat := match k with k_call p => [p] | _ => map we_promise (k_entries k) end.
Definition pumping (k : continuation) : list ws_entry := match k with k_pump e => [e] | _ => [] end.
Definition open_accept (k : continuation) : bool := match k with k_accept => true | _ => false end.
Definition needs_accept (k : continuation) : bool := match k with k_flush _ _ | k_flushed | k_pump _ => true | _ => false end.
Definition conts (st : websocket) : list continuation := rt_waiting (rt st) ++ map fst (rt_ready (rt st)).
Definition entry_ok (e : ws_entry) : Prop := is_message (we_frame e) = true /\ we_bytes e = frame_bytes (we_frame e).
Definition total (l : list ws_entry) : Z := foldr (fun e n => we_bytes e + n) 0 l.
Definition in_total (l : list inbound_entry) : Z := foldr (fun e n => ib_bytes e + n) 0 l.
Definition log_of (st : websocket) : list ws_output := rt_log (rt st).

(** What the socket hands to its listeners: the log is orderly, and the message
    whose listener is awaited is the one that was handed out last. *)
Definition delivery_ok (st : websocket) : Prop :=
  orderly false None (log_of st) = true /\ (forall m d, current None (log_of st) = Some (m, d) -> (m < rt_delivered (rt st))%nat) /\
  (forall n d todo, rt_listening (rt st) = Some (n, d, todo) -> current None (log_of st) = Some (n, d) /\ processingInbound st = true).
Definition inbound_ok (e : inbound_entry) : Prop := ib_bytes e = len (data_bytes (ib_data e)).
Lemma inbound_nonneg e : inbound_ok e -> 0 <= ib_bytes e.
Proof. intros ->. apply len_nonneg. Qed.

(** [owed]: promises that the running code has to settle; [start]: the
    handshake was done before; [sent]: the messages of the program so far;
    [pend]: 1 while the 'close' event is about to be emitted. *)
Record ws_ok (start : bool) (sent : list jsval) (pend : nat) (owed : list nat) (st : websocket) : Prop := {
  wo_promises : forall p, (cnt p (settled (log_of st)) + cnt p (map we_promise (bq_items (sendQueue st))) + cnt p (map we_promise (bq_items (outboundQueue st))) +
    cnt p (concat (map k_ids (conts st))) + cnt p owed)%nat = if decide (p < rt_promises (rt st))%nat then 1%nat else 0%nat;
  wo_pump : length (concat (map pumping (conts st))) = if writingOutbound st then 1%nat else 0%nat;
  wo_entries : Forall entry_ok (bq_items (sendQueue st) ++ bq_items (outboundQueue st) ++ concat (map k_entries (conts st)));
  wo_send : len (bq_items (sendQueue st)) <= MAX_PRE_ACCEPT_MESSAGES /\ bq_bytes (sendQueue st) = total (bq_items (sendQueue st)) /\ bq_bytes (sendQueue st) <= MAX_PRE_ACCEPT_BYTES;
  wo_out : len (bq_items (outboundQueue st)) <= MAX_OUTBOUND_MESSAGES /\ bq_bytes (outboundQueue st) <= MAX_OUTBOUND_BYTES /\
    (bq_bytes (outboundQueue st) = total (bq_items (outboundQueue st)) + total (concat (map pumping (conts st))) \/
     outboundQueue st = bq_empty /\ (closeSent st || destroyed st) = true);
  wo_in : len (bq_items (inboundQueue st)) <= MAX_INBOUND_MESSAGES /\ bq_bytes (inboundQueue st) = in_total (bq_items (inboundQueue st)) /\ bq_bytes (inboundQueue st) <= MAX_INBOUND_BYTES /\
    Forall inbound_ok (bq_items (inboundQueue st));
  wo_close : (closes (log_of st) + pend)%nat = (if destroyed st then 1 else 0)%nat /\ delivery_ok st;
  wo_closing : (length (closings (log_of st)) <= 1)%nat /\ (closeSent st || destroyed st = false -> closings (log_of st) = []);
  wo_timer : (closeTimer st = true -> closeSent st = true) /\ (closeSent st = true -> destroyed st = false -> closeTimer st = true);
  wo_accept : start = false -> accept_first (written (log_of st)) = true /\ (acceptWritten st = true -> has_accept (written (log_of st)) = true) /\
    (forall k, k ∈ conts st -> needs_accept k = true -> acceptWritten st = true) /\
    (k_accept ∈ rt_waiting (rt st) \/ (k_accept, None) ∈ rt_ready (rt st) -> has_accept (written (log_of st)) = true) /\
    (acceptWritten st = false -> writingOutbound st = false);
  wo_start : start = true -> accepted st = true /\ acceptWritten st = true /\ bq_items (sendQueue st) = [] /\ (forall e rest, k_flush e rest ∉ conts st) /\
    sublist (messages (log_of st) ++ map we_frame (bq_items (outboundQueue st))) sent;
}.

Lemma cnt_snoc p l q : cnt p (l ++ [q]) = (cnt p l + if decide (q = p) then 1 else 0)%nat.
Proof. rewrite cnt_app. unfold cnt at 2. cbn. destruct (Nat.eq_dec q p), (decide (q = p)); done. Qed.
Lemma cnt_cons p q l : cnt p (q :: l) = ((if decide (q = p) then 1 else 0) + cnt p l)%nat.
Proof. unfold cnt. cbn. destruct (Nat.eq_dec q p), (decide (q = p)); done. Qed.
Lemma total_app a b : total (a ++ b) = total a + total b.
Proof. induction a as [|x a IH]; [done|]. cbn [app total foldr]. unfold total in *. lia. Qed.
Lemma in_total_app a b : in_total (a ++ b) = in_total a + in_total b.
Proof. induction a as [|x a IH]; [done|]. cbn [app in_total foldr]. unfold in_total in *. lia. Qed.

Lemma frame_bytes_nonneg f : 0 <= frame_bytes f.
Proof. unfold frame_bytes, byte_length. pose proof (len_nonneg (utf8_encode (json_text f))). lia. Qed.
Lemma entry_nonneg e : entry_ok e -> 0 <= we_bytes e.
Proof. intros [_ ->]. apply frame_bytes_nonneg. Qed.
Lemma queued_nonneg l : Forall entry_ok l -> 0 <= total l.
Proof. induction 1 as [|x l Hx%entry_nonneg Hl IH]; [done|]. cbn. unfold total in *. lia. Qed.

Section Invariant.
Context (start : bool) (sent : list jsval) (pend : nat).
Abbreviation ok := (ws_ok start sent pend).

(** An output that concerns no promise, no frame and no message. *)
Definition silent (o : ws_output) : bool :=
  match o with o_write _ | o_message _ _ | o_closed _ _ | o_resolve _ | o_reject _ _ => false | _ => true end.
Lemma silent_log o log : silent o = true -> settled (log ++ [o]) = settled log /\ written (log ++ [o]) = written log /\ messages (log ++ [o]) = messages log /\
  closings (log ++ [o]) = closings log /\ closes (log ++ [o]) = closes log.
Proof.
  intros Hs. rewrite settled_promises_app, written_app, messages_app, closings_app, closes_app.
  assert (settled [o] = [] /\ written [o] = [] /\ messages [o] = [] /\ closings [o] = [] /\ closes [o] = 0%nat)
    as (-> & -> & -> & -> & Hc) by (by destruct o).
  by rewrite !app_nil_r, Hc, Nat.add_0_r.
Qed.
Lemma delivery_emit o st : plain_output o = true -> delivery_ok st -> delivery_ok (emit o st).
Proof.
  unfold delivery_ok, log_of. intros Ho (D1 & D2 & D3). cbn [emit log_all set_rt push_log rt rt_log rt_delivered rt_listening].
  by destruct (orderly_snoc o (rt_log (rt st)) Ho) as [-> ->].
Qed.
Lemma closed_delivery c r st : closes (log_of st) = 0%nat -> delivery_ok st -> delivery_ok (emit (o_closed c r) st).
Proof.
  unfold delivery_ok, log_of. intros H0 (D1 & D2 & D3). cbn [emit log_all set_rt push_log rt rt_log rt_delivered rt_listening].
  rewrite orderly_app, current_app, D1, H0. done.
Qed.
(** A listener is handed a message: the next one, or the one under way. *)
Lemma message_delivery n d st : delivery_ok st -> (destroyed st = false -> closes (log_of st) = 0%nat) -> (n < rt_delivered (rt st))%nat ->
  rt_listening (rt st) = None -> current None (log_of st) = Some (n, d) \/ destroyed st = false /\ (forall m x, current None (log_of st) = Some (m, x) -> (m < n)%nat) ->
  delivery_ok (emit (o_message n d) st).
Proof.
  unfold delivery_ok, log_of. intros (D1 & D2 & D3) Hc Hn Hl Hcur. cbn [emit log_all set_rt push_log rt rt_log rt_delivered rt_listening].
  rewrite orderly_app, current_app, D1. cbn [orderly current]. unfold next_message. split; [|split].
  - destruct Hcur as [->|[Hd Hcur]]; [by rewrite bool_decide_eq_true_2|]. rewrite (Hc Hd), andb_true_r. cbn. apply orb_true_iff. right.
    destruct (current None _) as [[m x]|]; [|done]. apply Nat.ltb_lt. by eapply Hcur.
  - by intros m x [= <- <-].
  - intros m x todo. by rewrite Hl.
Qed.
Lemma emit_ok owed o st : silent o = true -> ok owed st -> ok owed (emit o st).
Proof.
  intros Hs [Hp Hu He Hsq Ho Hi Hc Hcl Ht Ha Hst]. destruct (silent_log o (log_of st) Hs) as (E1 & E2 & E3 & E4 & E5).
  assert (delivery_ok (emit o st)) as Hd by (apply delivery_emit; [by destruct o|apply Hc]).
  split; unfold log_of, conts in *; cbn [emit log_all set_rt push_log rt rt_log] in *; rewrite ?E1, ?E2, ?E3, ?E4, ?E5; try done.
  by split; [apply Hc|].
Qed.
Lemma settle_promise_ok owed p o st : o = o_resolve p \/ (exists e, o = o_reject p e) -> ok (p :: owed) st -> ok owed (emit o st).
Proof.
  intros Hs [Hp Hu He Hsq Ho Hi Hc Hcl Ht Ha Hst].
  assert (settled [o] = [p] /\ written [o] = [] /\ messages [o] = [] /\ closings [o] = [] /\ closes [o] = 0%nat /\ plain_output o = true)
    as (E1 & E2 & E3 & E4 & E5 & E6) by (by destruct Hs as [->|[e ->]]).
  pose proof (delivery_emit o st E6 (proj2 Hc)) as Hd.
  split; unfold log_of, conts in *; cbn [emit log_all set_rt push_log rt rt_log rt_waiting rt_ready] in *;
    rewrite ?settled_promises_app, ?written_app, ?messages_app, ?closings_app, ?closes_app, ?E1, ?E2, ?E3, ?E4, ?E5, ?app_nil_r, ?Nat.add_0_r; try done.
  - intros q. specialize (Hp q). rewrite cnt_snoc. rewrite cnt_cons in Hp. cbn in Hp |- *. lia.
  - split; [apply Hc|done].
Qed.
Lemma rejections_ok owed e l st : ok (map we_promise l ++ owed) st -> ok owed (log_all (rejections e l) st).
Proof.
  revert st. induction l as [|x l IH]; intros st H; cbn [rejections map].
  - unfold log_all, push_log, set_rt. cbn. rewrite app_nil_r. by destruct st as [? ? ? ? ? ? ? ? ? ? ? ? []].
  - assert (log_all (o_reject (we_promise x) e :: rejections e l) st = log_all (rejections e l) (emit (o_reject (we_promise x) e) st)) as E.
    { unfold log_all, emit, log_all, push_log, set_rt. cbn. by rewrite <- app_assoc. }
    unfold rejections in E |- *. rewrite E. apply IH. eapply settle_promise_ok; [by right; eexists|exact H].
Qed.

Lemma owed_perm o o' st : o ≡ₚ o' -> ok o st -> ok o' st.
Proof using Type.
  intros Ho [Hp Hu He Hsq Hou Hi Hc Hcl Ht Ha Hst]. split; try done. intros p. rewrite <- (Hp p). f_equal. unfold cnt. symmetry. by apply Permutation_count_occ.
Qed.

(** ** Writing *)
Definition wait (k : continuation) (st : websocket) : websocket :=
  set_rt (with_continuations (rt_waiting (rt st) ++ [k]) (rt_ready (rt st)) (rt st)) st.
(** A continuation is added: its promises are no longer owed. *)
Lemma add_cont_ok owed k r st st' : ok (k_ids k ++ owed) st -> st' = ready k r st \/ st' = wait k st /\ r = None -> pumping k = [] ->
  Forall entry_ok (k_entries k) -> (start = true -> forall e rest, k <> k_flush e rest) ->
  (start = false -> needs_accept k = true -> acceptWritten st = true) -> (start = false -> k = k_accept -> r = None -> has_accept (written (log_of st)) = true) ->
  ok owed st'.
Proof using Type.
  intros [Hp Hu He Hsq Ho Hi Hc Hcl Ht Ha Hst] Hst' Hpk Hek Hfl Hna Hac.
  assert (conts st' = rt_waiting (rt st) ++ k :: map fst (rt_ready (rt st)) \/ conts st' = conts st ++ [k]) as Hk.
  { unfold conts. destruct Hst' as [->|[-> _]]; cbn; [right; by rewrite map_app, <- app_assoc|left; by rewrite <- app_assoc]. }
  assert (forall A (f : continuation -> list A), concat (map f (conts st')) ≡ₚ f k ++ concat (map f (conts st))) as Hperm.
  { intros A f. destruct Hk as [->| ->].
    - rewrite map_app, concat_app. cbn [map concat]. unfold conts. rewrite map_app, concat_app. apply Permutation_app_swap_app.
    - rewrite map_app, concat_app. cbn [map concat]. rewrite app_nil_r. apply Permutation_app_comm. }
  assert (forall x, x ∈ conts st' <-> x = k \/ x ∈ conts st) as Hin.
  { intros x. unfold conts in *. destruct Hk as [->| ->]; rewrite ?elem_of_app, ?elem_of_cons, ?elem_of_nil; tauto. }
  assert (concat (map pumping (conts st')) = concat (map pumping (conts st))) as Epk.
  { destruct Hk as [->| ->]; unfold conts; rewrite !map_app, !concat_app; cbn [map concat]; by rewrite Hpk, ?app_nil_r. }
  assert (forall p, cnt p (concat (map k_ids (conts st'))) = (cnt p (k_ids k) + cnt p (concat (map k_ids (conts st))))%nat) as Hcnt.
  { intros p. rewrite <- cnt_app. unfold cnt. by apply Permutation_count_occ, Hperm. }
  assert (Forall entry_ok (concat (map k_entries (conts st')))) as Hent.
  { rewrite !Forall_app in He. rewrite (Hperm _ k_entries), Forall_app. tauto. }
  destruct Hst' as [->|[-> ->]].
  all: split; unfold log_of in *; cbn [ready wait set_rt with_continuations rt rt_log rt_waiting rt_ready rt_promises closeSent destroyed accepted acceptWritten sendQueue outboundQueue
    inboundQueue writingOutbound processingInbound closeTimer] in *; try done.
  all: try (intros p; specialize (Hp p); rewrite cnt_app in Hp; rewrite Hcnt; lia).
  all: try (by rewrite Epk).
  all: try (rewrite !Forall_app in He |- *; tauto).
  all: try (intros E; destruct (Hst E) as (H1 & H2 & H3 & H4 & H5); repeat split; try done; intros e rest [Hx|Hx]%Hin; [by apply (Hfl E e rest)|by apply (H4 e rest)]).
  all: intros E; destruct (Ha E) as (A1 & A2 & A3 & A4 & A5); repeat split; try done; try tauto.
  1,3: intros x [->|Hx]%Hin Hn; [by apply Hna|by apply (A3 x)].
  - intros [Hx|Hx]; [apply A4; by left|]. apply elem_of_app in Hx as [Hx|[= <- <-]%list_elem_of_singleton]; [apply A4; by right|by apply Hac].
  - intros [Hx|Hx]; [|apply A4; by right]. apply elem_of_app in Hx as [Hx| <-%list_elem_of_singleton]; [apply A4; by left|by apply Hac].
Qed.
(** A frame is written. *)
Lemma frame_ok_log owed f st : ok owed st -> (is_kind f_close f = true -> closings (log_of st) = [] /\ closeSent st || destroyed st = true) ->
  (is_message f = true -> (start = false -> has_accept (written (log_of st)) = true) /\
    (start = true -> sublist (messages (log_of st) ++ f :: map we_frame (bq_items (outboundQueue st))) sent)) ->
  ok owed (emit (o_write f) st).
Proof using Type.
  intros [Hp Hu He Hsq Ho Hi Hc Hcl Ht Ha Hst] Hclose Hmsg. pose proof (delivery_emit (o_write f) st eq_refl (proj2 Hc)) as Hdel.
  split; unfold log_of, conts in *; cbn [emit log_all set_rt push_log rt rt_log rt_waiting rt_ready] in *;
    rewrite ?settled_promises_app, ?written_app, ?messages_app, ?closings_app, ?closes_app, ?Nat.add_0_r; cbn [settled omap list_omap written app]; rewrite ?app_nil_r; try done.
  - split; [|exact Hdel]. destruct Hc as [Hc _]. exact Hc.
  - unfold closings at 2 4. cbn [written omap list_omap]. rewrite filter_cons. destruct (decide (is_kind f_close f = true)) as [E|E].
    + destruct (Hclose E) as [-> Hd]. cbn. split; [done|]. by rewrite Hd.
    + cbn [filter list_filter]. rewrite app_nil_r. done.
  - intros E. destruct (Ha E) as (A1 & A2 & A3 & A4 & A5). rewrite accept_first_app, A1, has_accept_app. cbn [accept_first has_accept existsb].
    split; [|split; [intros Hx; by rewrite (A2 Hx)|]]; [|split; [done|]; split; [intros Hx; by rewrite (A4 Hx)|done]].
    destruct (is_message f) eqn:Em; [rewrite (proj1 (Hmsg eq_refl) E)|]; cbn; [done|]. by rewrite !orb_true_r.
  - intros E. destruct (Hst E) as (H1 & H2 & H3 & H4 & H5). repeat split; try done.
    unfold messages at 2. cbn [written omap list_omap]. rewrite filter_cons. destruct (decide (is_message f = true)) as [Em|Em].
    + cbn [filter list_filter]. rewrite <- app_assoc. by apply (proj2 (Hmsg Em) E).
    + cbn [filter list_filter]. by rewrite app_nil_r.
Qed.
Lemma count_ok owed ended n d st : ok owed st -> (rt_delivered (rt st) <= d)%nat -> ok owed (set_rt (with_counts ended (rt_promises (rt st)) n d (rt st)) st).
Proof using Type.
  intros [Hp Hu He Hsq Ho Hi (Hc & D1 & D2 & D3) Hcl Ht Ha Hst] Hle. split; try done. split; [done|]. split; [done|]. split; [|done].
  intros m x Hx. specialize (D2 m x Hx). cbn. lia.
Qed.
Lemma write_ok accepts owed f k st : ok (k_ids k ++ owed) st -> pumping k = [] -> Forall entry_ok (k_entries k) ->
  (start = true -> forall e rest, k <> k_flush e rest) -> (start = false -> needs_accept k = true -> acceptWritten st = true) ->
  (k = k_accept -> is_kind f_accept f = true) ->
  (is_kind f_close f = true -> closings (log_of st) = [] /\ closeSent st || destroyed st = true) ->
  (is_message f = true -> (start = false -> has_accept (written (log_of st)) = true) /\
    (start = true -> sublist (messages (log_of st) ++ f :: map we_frame (bq_items (outboundQueue st))) sent)) ->
  ok owed (writeLine accepts f k st).
Proof using Type.
  intros H Hpk Hek Hfl Hna Hac Hclose Hmsg. unfold writeLine.
  pose proof (count_ok _ (rt_ended (rt st)) (S (rt_writes (rt st))) (rt_delivered (rt st)) st H (Nat.le_refl _)) as H1. set (st1 := set_rt _ st) in *.
  assert (k = k_accept -> has_accept (written (log_of (emit (o_write f) st1))) = true) as Hacc.
  { intros Ek. unfold log_of. cbn [emit log_all set_rt push_log rt rt_log]. rewrite written_app, has_accept_app. cbn [written omap list_omap has_accept existsb].
    rewrite (Hac Ek). by rewrite !orb_true_r. }
  destruct (accepts (rt_writes (rt st))) as [| |e].
  - apply (add_cont_ok owed k None (emit (o_write f) st1)); try done; [by apply frame_ok_log|by left|by intros _ Hk _; apply Hacc].
  - apply (add_cont_ok owed k None (emit (o_write f) st1)); try done; [by apply frame_ok_log|by right|by intros _ Hk _; apply Hacc].
  - apply (add_cont_ok owed k (Some e) st1); try done. by left.
Qed.

(** ** Queues that are given up *)
Lemma drop_outbound_ok owed w st : ok owed st -> closeSent st || destroyed st = true \/ writingOutbound st = false -> w = writingOutbound st ->
  ok (map we_promise (bq_items (outboundQueue st)) ++ owed) (set_outbound bq_empty w st).
Proof using Type.
  intros H Hd ->. assert (writingOutbound st = false -> concat (map pumping (conts st)) = []) as Hnp.
  { intros Hw. pose proof (wo_pump _ _ _ _ _ H) as Hu. rewrite Hw in Hu. by apply nil_length_inv. }
  destruct H as [Hp Hu He Hsq Ho Hi Hc Hcl Ht Ha Hst].
  split; unfold log_of, conts in *; cbn [set_outbound rt bq_items bq_empty outboundQueue sendQueue closeSent destroyed map] in *; try done.
  - intros p. specialize (Hp p). rewrite cnt_app. cbn. lia.
  - rewrite !Forall_app in He |- *. naive_solver.
  - split; [done|]. split; [done|]. destruct Hd as [Hd|Hd]; [by right|]. left. by rewrite (Hnp Hd).
  - intros E. destruct (Hst E) as (H1 & H2 & H3 & H4 & H5). repeat split; try done. rewrite app_nil_r. etrans; [|exact H5]. by apply sublist_inserts_r.
Qed.
Lemma failOutbound_ok owed e st : ok owed st -> closeSent st || destroyed st = true -> ok owed (failOutboundQueue e st).
Proof using Type. intros H Hd. apply rejections_ok. apply drop_outbound_ok; auto. Qed.
Lemma drop_send_ok owed st : ok owed st -> ok (map we_promise (bq_items (sendQueue st)) ++ owed) (set_sendQueue bq_empty st).
Proof using Type.
  intros [Hp Hu He Hsq Ho Hi Hc Hcl Ht Ha Hst].
  split; unfold log_of, conts in *; cbn [set_sendQueue rt bq_items bq_bytes bq_empty outboundQueue sendQueue closeSent destroyed map] in *; try done.
  - intros p. specialize (Hp p). rewrite cnt_app. cbn. lia.
  - rewrite !Forall_app in He |- *. naive_solver.
  - intros E. by destruct (Hst E) as (H1 & H2 & H3 & H4 & H5).
Qed.
Lemma discard_ok owed st : ok owed st -> ok owed (discardSendQueue st).
Proof using Type. intros H. apply rejections_ok. by apply drop_send_ok. Qed.

(** ** The pump *)
Lemma no_pumping owed st : ok owed st -> writingOutbound st = false -> concat (map pumping (conts st)) = [].
Proof using Type. intros H Hw. pose proof (wo_pump _ _ _ _ _ H) as Hu. rewrite Hw in Hu. by apply nil_length_inv. Qed.
(** A message that was taken from the queue is being written. *)
Lemma add_pump_ok owed e r st st' q : ok (we_promise e :: owed) st -> writingOutbound st = false ->
  st' = set_outbound q true (ready (k_pump e) r st) \/ st' = set_outbound q true (wait (k_pump e) st) ->
  bq_items q = bq_items (outboundQueue st) -> bq_bytes q = total (bq_items q) + we_bytes e -> bq_bytes q <= MAX_OUTBOUND_BYTES ->
  entry_ok e -> (start = false -> acceptWritten st = true) -> ok owed st'.
Proof using Type.
  intros H Hw Hst' Hqi Hqb Hqm He' Hna. pose proof (no_pumping _ _ H Hw) as Hnp. destruct H as [Hp Hu He Hsq Ho Hi Hc Hcl Ht Ha Hst].
  assert (exists a b, conts st = a ++ b /\ conts st' = a ++ k_pump e :: b) as (a & b & Ek & Ek').
  { unfold conts. destruct Hst' as [->| ->]; cbn; [exists (conts st), []|exists (rt_waiting (rt st)), (map fst (rt_ready (rt st)))];
      unfold conts; by rewrite ?app_nil_r, ?map_app, <- ?app_assoc. }
  assert (forall A (f : continuation -> list A), concat (map f (conts st')) ≡ₚ f (k_pump e) ++ concat (map f (conts st))) as Hperm.
  { intros A f. rewrite Ek, Ek', !map_app, !concat_app. cbn [map concat]. apply Permutation_app_swap_app. }
  assert (concat (map pumping (conts st')) = [e]) as Epk.
  { apply Permutation_singleton_r. rewrite (Hperm _ pumping), Hnp. done. }
  assert (forall p, cnt p (concat (map k_ids (conts st'))) = (cnt p [we_promise e] + cnt p (concat (map k_ids (conts st))))%nat) as Hcnt.
  { intros p. rewrite <- cnt_app. unfold cnt. by apply Permutation_count_occ, (Hperm _ k_ids). }
  assert (Forall entry_ok (concat (map k_entries (conts st')))) as Hent.
  { rewrite !Forall_app in He. rewrite (Hperm _ k_entries), Forall_app. split; [by constructor|tauto]. }
  assert (forall x, x ∈ conts st' <-> x = k_pump e \/ x ∈ conts st) as Hin.
  { intros x. rewrite Ek, Ek', !elem_of_app, elem_of_cons. tauto. }
  assert (outboundQueue st' = q /\ writingOutbound st' = true /\ log_of st' = log_of st /\ rt_promises (rt st') = rt_promises (rt st) /\
    (k_accept ∈ rt_waiting (rt st') -> k_accept ∈ rt_waiting (rt st)) /\ ((k_accept, None) ∈ rt_ready (rt st') -> (k_accept, None) ∈ rt_ready (rt st))) as (E1 & E2 & E3 & E4 & E5 & E6).
  { destruct Hst' as [->| ->]; cbn; repeat split; try done; intros [Hx|Hx]%elem_of_app; try done; by apply list_elem_of_singleton in Hx. }
  assert (sendQueue st' = sendQueue st /\ inboundQueue st' = inboundQueue st /\ destroyed st' = destroyed st /\ closeSent st' = closeSent st /\ closeTimer st' = closeTimer st /\
    accepted st' = accepted st /\ acceptWritten st' = acceptWritten st) as (F1 & F2 & F3 & F4 & F5 & F6 & F7) by (by destruct Hst' as [->| ->]).
  split; rewrite ?E1, ?E2, ?E3, ?E4, ?F1, ?F2, ?F3, ?F4, ?F5, ?F6, ?F7, ?Epk, ?Hqi; try done.
  - intros p. specialize (Hp p). rewrite Hcnt. rewrite cnt_cons in Hp. rewrite cnt_cons. cbn in *. lia.
  - rewrite !Forall_app in He |- *. tauto.
  - split; [apply Ho|]. split; [done|]. left. rewrite Hqb, Hqi. cbn. lia.
  - split; [apply Hc|]. destruct Hst' as [->| ->]; apply Hc.
  - intros E. destruct (Ha E) as (A1 & A2 & A3 & A4 & A5). repeat split; try done.
    + intros k [->|Hk]%Hin Hn; [by apply Hna|by apply (A3 k)].
    + intros [Hx|Hx]; apply A4; auto.
    + intros Hx. rewrite (Hna E) in Hx. done.
  - intros E. destruct (Hst E) as (H1 & H2 & H3 & H4 & H5). repeat split; try done. intros x rest [Hx|Hx]%Hin; [done|by apply (H4 x rest)].
Qed.
(** A message is taken from the queue. *)
Lemma take_ok owed e rest st : ok owed st -> writingOutbound st = false -> bq_items (outboundQueue st) = e :: rest ->
  let st' := set_outbound {| bq_items := rest; bq_bytes := bq_bytes (outboundQueue st) - we_bytes e |} false st in
  ok (we_promise e :: owed) st' /\ entry_ok e /\ bq_bytes (outboundQueue st) = total rest + we_bytes e /\
  (start = true -> sublist (messages (log_of st') ++ we_frame e :: map we_frame rest) sent).
Proof using Type.
  intros H Hw Eq st'. pose proof (no_pumping _ _ H Hw) as Hnp. destruct H as [Hp Hu He Hsq Ho Hi Hc Hcl Ht Ha Hst].
  rewrite Hnp in Ho. destruct Ho as (O1 & O2 & [O3|[O3 _]]); [|by rewrite O3 in Eq]. rewrite Eq in O3. cbn in O3.
  assert (entry_ok e) as Hee. { rewrite Eq in He. rewrite !Forall_app in He. destruct He as (_ & He & _). by apply Forall_cons in He as [? _]. }
  assert (bq_bytes (outboundQueue st) = total rest + we_bytes e) as Hb by (unfold total in *; lia).
  split; [|split; [done|split; [done|]]].
  - unfold st'. split; unfold log_of, conts in *; cbn [set_outbound rt bq_items bq_bytes outboundQueue sendQueue inboundQueue closeSent destroyed writingOutbound accepted acceptWritten closeTimer] in *;
      rewrite ?Eq in *; try done.
    + intros p. specialize (Hp p). cbn [map] in Hp. rewrite !cnt_cons in *. lia.
    + by rewrite Hnp.
    + rewrite !Forall_app in He |- *. destruct He as (? & He & ?). apply Forall_cons in He as [? ?]. done.
    + rewrite Hnp. unfold len in *. cbn [length] in O1. pose proof (entry_nonneg e Hee). split; [lia|]. split; [lia|]. left. cbn. lia.
    + intros E. destruct (Ha E) as (A1 & A2 & A3 & A4 & A5). repeat split; try done.
    + intros E. destruct (Hst E) as (H1 & H2 & H3 & H4 & H5). repeat split; try done. etrans; [|exact H5]. apply sublist_app; [done|]. cbn. by apply sublist_cons.
  - intros E. destruct (Hst E) as (H1 & H2 & H3 & H4 & H5). by rewrite Eq in H5.
Qed.
Lemma pump_loop_ok accepts owed st : ok owed (set_outbound (outboundQueue st) false st) -> (start = false -> acceptWritten st = true) ->
  ok owed (pump_loop accepts st).
Proof using Type.
  intros H Hna. unfold pump_loop. destruct (destroyed st); [done|]. destruct (bq_items (outboundQueue st)) as [|e rest] eqn:Eq; [done|].
  destruct (take_ok owed e rest _ H eq_refl Eq) as (H1 & He & Hb & Hf). cbn [set_outbound outboundQueue] in *.
  set (st0 := set_outbound {| bq_items := rest; bq_bytes := bq_bytes (outboundQueue st) - we_bytes e |} false (set_outbound (outboundQueue st) false st)) in *.
  pose proof (count_ok _ (rt_ended (rt st)) (S (rt_writes (rt st))) (rt_delivered (rt st)) st0 H1 (Nat.le_refl _)) as H2. set (st1 := set_rt _ st0) in *.
  assert (bq_bytes (outboundQueue st) <= MAX_OUTBOUND_BYTES) as Hm by (apply (wo_out _ _ _ _ _ H)).
  set (q := {| bq_items := rest; bq_bytes := bq_bytes (outboundQueue st) |}).
  assert (ok (we_promise e :: owed) (emit (o_write (we_frame e)) st1)) as H3.
  { apply frame_ok_log; [done| |].
    - intros Hx. destruct He as [He _]. unfold is_message, is_kind in *. by destruct (kind_of (we_frame e)) as [[]|].
    - intros _. split; [|exact Hf]. intros E. apply (proj1 (proj2 (wo_accept _ _ _ _ _ H E))). by apply Hna. }
  unfold writeLine. cbn [set_outbound rt]. destruct (accepts (rt_writes (rt st))) as [| |x].
  - by apply (add_pump_ok owed e None (emit (o_write (we_frame e)) st1) _ q); try done; left.
  - by apply (add_pump_ok owed e None (emit (o_write (we_frame e)) st1) _ q); try done; right.
  - by apply (add_pump_ok owed e (Some x) st1 _ q); try done; left.
Qed.
Lemma pump_ok accepts owed st : ok owed st -> (start = false -> acceptWritten st = true) -> ok owed (pumpOutboundQueue accepts st).
Proof using Type.
  intros H Hna. unfold pumpOutboundQueue. destruct (writingOutbound st) eqn:Ew; [done|]. apply pump_loop_ok; [|done].
  assert (set_outbound (outboundQueue st) false st = st) as -> by (destruct st; cbn in *; by subst). done.
Qed.
End Invariant.

(** ** Frames of the socket *)
Lemma close_frame_kinds z r : is_kind f_close (close_frame z r) = true /\ is_message (close_frame z r) = false.
Proof. done. Qed.
Lemma accept_frame_kinds p : is_kind f_accept (accept_frame p) = true /\ is_kind f_close (accept_frame p) = false /\ is_message (accept_frame p) = false.
Proof. done. Qed.
Lemma ping_frame_kinds d : is_kind f_close (ping_frame d) = false /\ is_message (ping_frame d) = false.
Proof. done. Qed.
Lemma pong_frame_kinds d : is_kind f_close (pong_frame d) = false /\ is_message (pong_frame d) = false.
Proof. done. Qed.
Lemma message_frame_kinds d t : is_kind f_close (message_frame d t) = false /\ is_message (message_frame d t) = true.
Proof. by destruct t. Qed.

Section Continuations.
Context (start : bool) (sent : list jsval).
Abbreviation ok := (ws_ok start sent).

(** ** Continuations *)
Definition popped (rest : list (continuation * option exn)) (st : websocket) : websocket :=
  set_rt (with_continuations (rt_waiting (rt st)) rest (rt st)) st.
Lemma pop_facts pend owed k r rest st : ok pend owed st -> rt_ready (rt st) = (k, r) :: rest ->
  Forall entry_ok (k_entries k) /\ (start = false -> needs_accept k = true -> acceptWritten st = true) /\
  (start = false -> k = k_accept -> r = None -> has_accept (written (log_of st)) = true) /\ (start = true -> forall e l, k <> k_flush e l) /\
  (forall A (f : continuation -> list A), concat (map f (conts st)) ≡ₚ f k ++ concat (map f (conts (popped rest st)))) /\ (forall x, x ∈ conts (popped rest st) -> x ∈ conts st).
Proof using Type.
  intros [Hp Hu He Hsq Ho Hi Hc Hcl Ht Ha Hst] Er.
  assert (conts st = rt_waiting (rt st) ++ k :: map fst rest) as Ek by (unfold conts; by rewrite Er).
  assert (k ∈ conts st) as Hk by (rewrite Ek; apply elem_of_app; right; left).
  assert (forall A (f : continuation -> list A), concat (map f (conts st)) ≡ₚ f k ++ concat (map f (conts (popped rest st)))) as Hperm.
  { intros A f. rewrite Ek. unfold conts. cbn. rewrite !map_app, !concat_app. cbn [map concat]. apply Permutation_app_swap_app. }
  split; [rewrite !Forall_app in He; rewrite (Hperm _ k_entries), Forall_app in He; tauto|].
  split; [intros E; by apply (Ha E)|]. split; [|split; [|split; [exact Hperm|]]].
  - intros E -> ->. apply (Ha E). right. rewrite Er. left.
  - intros E e l ->. destruct (Hst E) as (_ & _ & _ & H & _). by apply (H e l).
  - intros x Hx. rewrite Ek. unfold conts in Hx. cbn in Hx. rewrite elem_of_app in Hx |- *. rewrite elem_of_cons. tauto.
Qed.
Lemma pop_ok pend owed k r rest st : ok pend owed st -> rt_ready (rt st) = (k, r) :: rest -> pumping k = [] -> ok pend (k_ids k ++ owed) (popped rest st).
Proof using Type.
  intros H Er Hpk. destruct (pop_facts _ _ _ _ _ _ H Er) as (_ & _ & _ & _ & Hperm & Hin). destruct H as [Hp Hu He Hsq Ho Hi Hc Hcl Ht Ha Hst].
  assert (Permutation (concat (map pumping (conts st))) (concat (map pumping (conts (popped rest st))))) as Epk by (rewrite (Hperm _ pumping), Hpk; done).
  assert (concat (map pumping (conts st)) = concat (map pumping (conts (popped rest st)))) as Epk'.
  { pose proof (Permutation_length Epk) as El. rewrite Hu in El. destruct (concat (map pumping (conts st))) as [|x [|y l]] eqn:E1.
    - by apply Permutation_nil_l in Epk.
    - by apply Permutation_singleton_l in Epk.
    - cbn in Hu. by destruct (writingOutbound st). }
  assert (forall p, cnt p (concat (map k_ids (conts st))) = (cnt p (k_ids k) + cnt p (concat (map k_ids (conts (popped rest st)))))%nat) as Hcnt.
  { intros p. rewrite <- cnt_app. unfold cnt. by apply Permutation_count_occ, Hperm. }
  rewrite Epk' in Hu, Ho. split; try done.
  - intros p. specialize (Hp p). rewrite Hcnt in Hp. rewrite cnt_app. set (C := concat (map k_ids (conts (popped rest st)))) in *. unfold log_of in *.
    cbn [popped set_rt with_continuations rt rt_log sendQueue outboundQueue rt_promises] in *. lia.
  - rewrite !Forall_app in He |- *. rewrite (Hperm _ k_entries), Forall_app in He. tauto.
  - intros E. destruct (Ha E) as (A1 & A2 & A3 & A4 & A5). repeat split; try done.
    + intros x Hx. by apply A3, Hin.
    + intros [Hx|Hx]; apply A4; [by left|right; rewrite Er; by right].
  - intros E. destruct (Hst E) as (H1 & H2 & H3 & H4 & H5). repeat split; try done. intros e l Hx. by apply (H4 e l), Hin.
Qed.
Lemma pop_pump_ok pend owed e r rest st : ok pend owed st -> rt_ready (rt st) = (k_pump e, r) :: rest ->
  let q := {| bq_items := bq_items (outboundQueue st); bq_bytes := Z.max 0 (bq_bytes (outboundQueue st) - we_bytes e) |} in
  ok pend (we_promise e :: owed) (set_outbound q false (popped rest st)).
Proof using Type.
  intros H Er q. destruct (pop_facts _ _ _ _ _ _ H Er) as (Hee & _ & _ & _ & Hperm & Hin). destruct H as [Hp Hu He Hsq Ho Hi Hc Hcl Ht Ha Hst].
  apply Forall_cons in Hee as [Hee%entry_nonneg _].
  assert (concat (map pumping (conts (popped rest st))) = [] /\ concat (map pumping (conts st)) = [e]) as [Epk Epk'].
  { pose proof (Permutation_length (Hperm _ pumping)) as El. rewrite Hu in El. cbn [pumping app length] in El.
    assert (concat (map pumping (conts (popped rest st))) = []) as E by (apply nil_length_inv; destruct (writingOutbound st); lia).
    split; [done|]. apply Permutation_singleton_r. by rewrite (Hperm _ pumping), E. }
  assert (forall p, cnt p (concat (map k_ids (conts st))) = (cnt p [we_promise e] + cnt p (concat (map k_ids (conts (popped rest st)))))%nat) as Hcnt.
  { intros p. rewrite <- cnt_app. unfold cnt. by apply Permutation_count_occ, (Hperm _ k_ids). }
  split; cbn [set_outbound outboundQueue bq_items bq_bytes q sendQueue inboundQueue writingOutbound closeSent destroyed]; try done.
  - intros p. specialize (Hp p). rewrite Hcnt in Hp. change (conts (set_outbound q false (popped rest st))) with (conts (popped rest st)).
    set (C := concat (map k_ids (conts (popped rest st)))) in *. rewrite cnt_cons in Hp |- *. unfold log_of in *.
    cbn [popped set_rt with_continuations rt rt_log sendQueue outboundQueue rt_promises set_outbound bq_items] in *. change (cnt p []) with 0%nat in *.
    lia.
  - change (conts (set_outbound q false (popped rest st))) with (conts (popped rest st)). by rewrite Epk.
  - change (conts (set_outbound q false (popped rest st))) with (conts (popped rest st)). rewrite !Forall_app in He |- *. rewrite (Hperm _ k_entries), Forall_app in He. tauto.
  - change (conts (set_outbound q false (popped rest st))) with (conts (popped rest st)). rewrite Epk. rewrite Epk' in Ho. cbn in Ho.
    rewrite !Forall_app in He. destruct He as (_ & He & _).
    pose proof (queued_nonneg _ He) as Ht0.
    destruct Ho as (O1 & O2 & O3). split; [done|]. split; [unfold MAX_OUTBOUND_BYTES, VWS_MAX_FRAME_BYTES in *; lia|].
    destruct O3 as [O3|[O3 O4]]; [left; cbn; lia|]. right. split; [|done]. unfold q. rewrite O3. cbn. unfold bq_empty. f_equal. lia.
  - intros E. destruct (Ha E) as (A1 & A2 & A3 & A4 & A5). repeat split; try done.
    + intros x Hx. by apply A3, Hin.
    + intros [Hx|Hx]; apply A4; [by left|right; rewrite Er; by right].
  - intros E. destruct (Hst E) as (H1 & H2 & H3 & H4 & H5). repeat split; try done. intros x l Hx. by apply (H4 x l), Hin.
Qed.
End Continuations.

Section Steps.
Context (accepts : nat -> write_answer) (listeners : nat -> list listener_answer).
Context (start : bool) (sent : list jsval).
Abbreviation ok := (ws_ok start sent).

(** A frame of the socket itself, that settles nothing. *)
Lemma write_plain_ok pend owed f k st : ok pend (k_ids k ++ owed) st -> (k = k_void \/ exists p, k = k_call p) ->
  is_kind f_close f = false -> is_message f = false -> ok pend owed (writeLine accepts f k st).
Proof using Type. intros H Hk Hc Hm. apply write_ok; try done; try (by destruct Hk as [->|[p ->]]); congruence. Qed.

(** The close frame is sent. *)
Lemma closing_flag_ok owed st : ok 0 owed st -> closeSent st || destroyed st = false ->
  ok 0 owed (set_reading true (lineBuffer st) (set_flags true (destroyed st) st)).
Proof using Type.
  intros [Hp Hu He Hsq Ho Hi Hc Hcl Ht Ha Hst] Hf. split; unfold log_of, conts in *; cbn in *; try done.
  - destruct Ho as (H1 & H2 & [H3|[H3 H4]]); [by repeat split; try left|]. split; [done|]. split; [done|]. by right.
  - by split; [apply Hcl|].
Qed.
Lemma close_state code reason z st : closeSent st || destroyed st = false -> validateClose code reason = Ok z ->
  (close accepts code reason st).2 =
  (let st := failOutboundQueue (plainError "WebSocket is closing") (set_reading true (lineBuffer st) (set_flags true (destroyed st) st)) in
   writeLine accepts (close_frame z reason) k_void (if accepted st then st else discardSendQueue st)).
Proof using Type.
  intros Hf Hv. unfold close. rewrite Hf, Hv. cbn [snd].
  change (accepted (failOutboundQueue _ (set_flags _ _ st))) with (accepted st). change (accepted (failOutboundQueue _ (set_reading _ _ (set_flags _ _ st)))) with (accepted st).
  unfold writeLine. destruct (accepted st); cbn [rt failOutboundQueue discardSendQueue log_all set_rt push_log set_outbound set_flags set_reading rt_writes set_sendQueue];
    by destruct (accepts _).
Qed.
Lemma close_ok owed code reason st : ok 0 owed st -> ok 0 owed (close accepts code reason st).2.
Proof using Type.
  intros H. destruct (closeSent st || destroyed st) eqn:Hf; [unfold close; by rewrite Hf|].
  destruct (validateClose code reason) as [z|e] eqn:Hv; [|unfold close; by rewrite Hf, Hv].
  rewrite (close_state _ _ z) by done. cbv zeta. pose proof (wo_closing _ _ _ _ _ H) as [_ Hno]. specialize (Hno Hf).
  pose proof (closing_flag_ok owed st H Hf) as H1. set (st1 := set_reading true _ _) in *.
  assert (ok 0 owed (failOutboundQueue (plainError "WebSocket is closing") st1)) as H2 by (by apply failOutbound_ok).
  set (st2 := failOutboundQueue _ st1) in *.
  assert (closings (log_of st2) = []) as Hc2.
  { unfold st2, failOutboundQueue, log_of. cbn [log_all set_rt push_log rt rt_log set_outbound]. rewrite closings_app.
    change (rt_log (rt st1)) with (log_of st). rewrite Hno. by induction (bq_items (outboundQueue st1)). }
  apply write_ok; try done.
  - destruct (accepted st2); [done|]. by apply discard_ok.
  - intros _. destruct (accepted st2); [by rewrite Hc2|]. split; [|done].
    unfold discardSendQueue, log_of. cbn [log_all set_rt push_log rt rt_log set_sendQueue]. rewrite closings_app. change (rt_log (rt st2)) with (log_of st2). rewrite Hc2.
    by induction (bq_items (sendQueue st2)).
Qed.
Lemma fault_ok owed e c r st : ok 0 owed st -> ok 0 owed (handleProtocolFault accepts e c r st).
Proof using Type. intros H. by apply close_ok, emit_ok. Qed.

(** ** Continuations run *)
Lemma ready_flushed_ok owed st : ok 0 owed st -> (start = false -> acceptWritten st = true) -> ok 0 owed (ready k_flushed None st).
Proof using Type. intros H Hna. apply (add_cont_ok start sent 0 owed k_flushed None st); try done; [by left|by intros E _; apply Hna]. Qed.
Lemma flushNext_ok owed items st : ok 0 (map we_promise items ++ owed) st -> Forall entry_ok items -> (start = false -> acceptWritten st = true) ->
  (start = true -> items = []) -> ok 0 owed (flushNext accepts items st).
Proof using Type.
  intros H Hi Hna Hst. destruct items as [|e rest]; cbn [flushNext]; [by apply ready_flushed_ok|].
  apply Forall_cons in Hi as [He Hr]. apply write_ok; try done.
  - by constructor.
  - intros E. discriminate (Hst E).
  - intros E _. by apply Hna.
  - intros Hx. destruct He as [He _]. unfold is_message, is_kind in *. by destruct (kind_of (we_frame e)) as [[]|].
  - intros _. split; [|intros E; by discriminate (Hst E)]. intros E. apply (proj1 (proj2 (wo_accept _ _ _ _ _ H E))). by apply Hna.
Qed.
Lemma microtask_ok st : ok 0 [] st -> ok 0 [] (microtask accepts st).
Proof using Type.
  intros H. unfold microtask. destruct (rt_ready (rt st)) as [|[k r] rest] eqn:Er; [done|]. fold (popped rest st).
  destruct (pop_facts _ _ _ _ _ _ _ _ H Er) as (Hek & Hna & Hac & Hfl & _).
  destruct k as [|p| |e l| |e]; cbn [resume].
  - by apply (pop_ok start sent 0 [] k_void r).
  - eapply settle_promise_ok; [|by apply (pop_ok start sent 0 [] (k_call p) r)]. destruct r; eauto.
  - pose proof (pop_ok start sent 0 [] k_accept r rest st H Er eq_refl) as H1. cbn in H1. destruct r as [e|]; [done|].
    set (st1 := popped rest st) in *.
    assert (ok 0 [] (set_accepted (protocol st1) (accepted st1) true st1)) as H2.
    { destruct H1 as [Hp Hu He Hsq Ho Hi Hc Hcl Ht Ha Hst]. split; try done; intros E.
      - destruct (Ha E) as (A1 & A2 & A3 & A4 & A5). repeat split; try done. intros _. by apply Hac.
      - destruct (Hst E) as (B1 & B2 & B3 & B4 & B5). by repeat split. }
    apply flushNext_ok; [by apply (drop_send_ok start sent 0 [] _ H2)| |done|].
    + pose proof (wo_entries _ _ _ _ _ H2) as He. rewrite !Forall_app in He. apply He.
    + intros E. apply (wo_start _ _ _ _ _ H2 E).
  - pose proof (pop_ok start sent 0 [] (k_flush e l) r rest st H Er eq_refl) as H1. cbn in H1. apply Forall_cons in Hek as [He Hl].
    assert (start = false) as Es by (destruct start; [by destruct (Hfl eq_refl e l)|done]).
    destruct r as [x|].
    + apply ready_flushed_ok; [|intros E; by apply Hna]. apply rejections_ok. cbn. by rewrite app_nil_r in H1 |- *.
    + apply flushNext_ok; [|done|intros E; by apply Hna|intros E; congruence]. eapply settle_promise_ok; [by left|]. by rewrite app_nil_r in H1 |- *.
  - apply pump_ok; [by apply (pop_ok start sent 0 [] k_flushed r)|]. intros E. by apply Hna.
  - pose proof (pop_pump_ok start sent 0 [] e r rest st H Er) as H1. cbv zeta in H1. set (st1 := popped rest st) in *. destruct r as [x|].
    + apply rejections_ok. cbn [map].
      pose proof (drop_outbound_ok start sent 0 _ false _ H1 (or_intror eq_refl) eq_refl) as H2.
      eapply owed_perm; [|exact H2]. rewrite app_nil_r. cbn. apply (Permutation_app_comm _ [we_promise e]).
    + apply pump_loop_ok; [|intros E; by apply Hna].
      exact (settle_promise_ok start sent 0 [] (we_promise e) (o_resolve (we_promise e)) _ (or_introl eq_refl) H1).
Qed.

(** ** The end *)
Lemma destroy_flag_ok owed t lb st : ok 0 owed st -> destroyed st = false -> (t = true -> closeTimer st = true) ->
  ok 1 owed (set_flags (closeSent st) true (set_reading t lb st)).
Proof using Type.
  intros [Hp Hu He Hsq Ho Hi Hc Hcl Ht Ha Hst] Hd Htm. split; unfold log_of, conts in *; cbn in *; try done.
  - destruct Ho as (H1 & H2 & [H3|[H3 H4]]); split; try done; split; try done; [by left|right]. by rewrite orb_true_r.
  - rewrite Hd in Hc. split; [|apply Hc]. lia.
  - split; [apply Hcl|]. by rewrite orb_true_r.
  - split; [intros E; by apply Ht, Htm|done].
Qed.
Lemma closed_event_ok owed c r st : ok 1 owed st -> ok 0 owed (emit (o_closed c r) st).
Proof using Type.
  intros [Hp Hu He Hsq Ho Hi Hc Hcl Ht Ha Hst].
  split; unfold log_of, conts in *; cbn [emit log_all set_rt push_log rt rt_log rt_waiting rt_ready] in *;
    rewrite ?settled_promises_app, ?written_app, ?messages_app, ?closings_app, ?closes_app; cbn [settled omap list_omap written app]; rewrite ?app_nil_r; try done.
  destruct Hc as [Hc Hor]. change (closes [o_closed c r]) with 1%nat. split; [cbn in *; lia|].
  assert (closes (rt_log (rt st)) = 0%nat) as H0 by (destruct (destroyed st); lia). by apply closed_delivery.
Qed.
Lemma quiet_destroyed_ok owed st : ok 0 owed st -> destroyed st = true -> ok 0 owed (set_reading false (lineBuffer st) st).
Proof using Type. intros [Hp Hu He Hsq Ho Hi Hc Hcl Ht Ha Hst] Hd. split; try done. split; [done|]. cbn. congruence. Qed.
Lemma stream_over_ok owed st : ok 0 owed st -> ok 0 owed (stream_over st).
Proof using Type.
  intros H. unfold stream_over. change (destroyed (set_reading _ _ st)) with (destroyed st). destruct (destroyed st) eqn:Ed; [by apply quiet_destroyed_ok|].
  apply closed_event_ok. pose proof (destroy_flag_ok owed false (lineBuffer st) st H Ed ltac:(done)) as H1.
  change (set_flags (closeSent (set_reading false (lineBuffer st) st)) true _) with (set_flags (closeSent st) true (set_reading false (lineBuffer st) st)).
  set (st1 := set_flags _ _ _) in *. assert (ok 1 owed (failOutboundQueue (plainError "WebSocket closed") st1)) as H2.
  { apply failOutbound_ok; [done|]. cbn. by rewrite orb_true_r. }
  destruct (accepted _); [done|]. by apply discard_ok.
Qed.
Lemma endStream_ok pend owed st : ok pend owed st -> ok pend owed (endStream st).
Proof using Type. intros H. unfold endStream. destruct (rt_ended (rt st)); [done|]. apply emit_ok; [done|]. by apply count_ok. Qed.
Lemma close_timeout_ok owed st : ok 0 owed st -> ok 0 owed (close_timeout st).
Proof using Type.
  intros H. unfold close_timeout. change (destroyed (set_reading _ _ st)) with (destroyed st). destruct (destroyed st) eqn:Ed; [by apply quiet_destroyed_ok|].
  apply closed_event_ok, emit_ok; [done|]. apply endStream_ok. pose proof (destroy_flag_ok owed false (lineBuffer st) st H Ed ltac:(done)) as H1.
  apply failOutbound_ok; [exact H1|]. cbn. by rewrite orb_true_r.
Qed.
Lemma terminate_ok owed st : ok 0 owed st -> ok 0 owed (terminate st).
Proof using Type.
  intros H. unfold terminate. destruct (destroyed st) eqn:Ed; [done|]. apply closed_event_ok, emit_ok; [done|].
  pose proof (destroy_flag_ok owed (closeTimer st) (lineBuffer st) st H Ed ltac:(done)) as H1.
  apply failOutbound_ok; [by destruct st|]. cbn. by rewrite orb_true_r.
Qed.
Lemma settle_writes_ok owed r st : ok 0 owed st -> ok 0 owed (settle_writes r st).
Proof using Type.
  intros [Hp Hu He Hsq Ho Hi Hc Hcl Ht Ha Hst].
  assert (conts (settle_writes r st) ≡ₚ conts st) as Hperm.
  { unfold conts, settle_writes. cbn. rewrite map_app, map_map. cbn [fst]. rewrite map_id. apply Permutation_app_comm. }
  assert (forall A (f : continuation -> list A), concat (map f (conts (settle_writes r st))) ≡ₚ concat (map f (conts st))) as Hf.
  { intros A f. rewrite <- !flat_map_concat_map. by apply Permutation_flat_map. }
  assert (forall x, x ∈ conts (settle_writes r st) <-> x ∈ conts st) as Hin by (intros x; by rewrite Hperm).
  assert (concat (map pumping (conts (settle_writes r st))) = concat (map pumping (conts st))) as Epk.
  { pose proof (Hf _ pumping) as Hp'. pose proof (Permutation_length Hp') as El. rewrite Hu in El. destruct (concat (map pumping (conts st))) as [|x [|y l]] eqn:E1.
    - by apply Permutation_nil_r in Hp'.
    - by apply Permutation_singleton_r in Hp'.
    - cbn in Hu. by destruct (writingOutbound st). }
  assert (forall p, cnt p (concat (map k_ids (conts (settle_writes r st)))) = cnt p (concat (map k_ids (conts st)))) as Hcnt.
  { intros p. unfold cnt. by apply Permutation_count_occ, Hf. }
  split; rewrite ?Epk; try done.
  - intros p. by rewrite Hcnt.
  - rewrite !Forall_app in He |- *. rewrite (Hf _ k_entries). tauto.
  - intros E. destruct (Ha E) as (A1 & A2 & A3 & A4 & A5). repeat split; try done.
    + intros k Hk. by apply A3, Hin.
    + cbn. intros [Hx|Hx]; [by apply elem_of_nil in Hx|]. apply elem_of_app in Hx as [Hx|Hx]; [by apply A4; right|].
      apply list_elem_of_fmap in Hx as (y & [= <- _] & Hy). apply A4. by left.
  - intros E. destruct (Hst E) as (H1 & H2 & H3 & H4 & H5). repeat split; try done. intros e l Hx. by apply (H4 e l), Hin.
Qed.

(** ** Calls *)
Lemma new_promise_ok owed st : ok 0 owed st -> ok 0 (rt_promises (rt st) :: owed) (new_promise st).
Proof using Type.
  intros [Hp Hu He Hsq Ho Hi Hc Hcl Ht Ha Hst]. split; try done. intros p. specialize (Hp p). rewrite cnt_cons.
  change (log_of (new_promise st)) with (log_of st). change (sendQueue (new_promise st)) with (sendQueue st). change (outboundQueue (new_promise st)) with (outboundQueue st).
  change (conts (new_promise st)) with (conts st). change (rt_promises (rt (new_promise st))) with (S (rt_promises (rt st))).
  destruct (decide (p < rt_promises (rt st))%nat), (decide (p < S (rt_promises (rt st)))%nat), (decide (rt_promises (rt st) = p)); lia.
Qed.
Lemma ping_ok st d : ok 0 [] st -> ok 0 [] (ping accepts d st).
Proof using Type.
  intros H%new_promise_ok. unfold ping. set (st1 := new_promise st) in *. destruct (_ || _); [eapply settle_promise_ok; [by left|exact H]|].
  destruct (_ <? _); [eapply settle_promise_ok; [right; by eexists|by apply fault_ok]|]. apply write_plain_ok; try done. eauto.
Qed.
Lemma pong_ok st d : ok 0 [] st -> ok 0 [] (pong accepts d st).
Proof using Type.
  intros H%new_promise_ok. unfold pong. set (st1 := new_promise st) in *. destruct (_ || _); [eapply settle_promise_ok; [by left|exact H]|].
  apply write_plain_ok; try done. eauto.
Qed.
Lemma sendAccept_ok proto st : ok 0 [] st -> ok 0 [] (sendAccept accepts proto st).
Proof using Type.
  intros H. unfold sendAccept. destruct (destroyed st); [by apply discard_ok|]. apply write_ok; try done.
  destruct H as [Hp Hu He Hsq Ho Hi Hc Hcl Ht Ha Hst]. split; try done. intros E. destruct (Hst E) as (H1 & H2 & H3 & H4 & H5). by repeat split.
Qed.
End Steps.

(** ** Sending *)
Lemma sent_mono start sent sent' pend owed st : sublist sent sent' -> ws_ok start sent pend owed st -> ws_ok start sent' pend owed st.
Proof.
  intros Hs [Hp Hu He Hsq Ho Hi Hc Hcl Ht Ha Hst]. split; try done. intros E. destruct (Hst E) as (H1 & H2 & H3 & H4 & H5). repeat split; try done. by etrans.
Qed.
Lemma queue_not_full q b m n : queue_full q b m n = false -> len (bq_items q) < m /\ bq_bytes q + b <= n.
Proof. unfold queue_full. intros H. lia. Qed.
Lemma push_send_ok sent owed f p st : ws_ok false sent 0 (p :: owed) st -> is_message f = true ->
  queue_full (sendQueue st) (frame_bytes f) MAX_PRE_ACCEPT_MESSAGES MAX_PRE_ACCEPT_BYTES = false ->
  ws_ok false sent 0 owed (set_sendQueue (push_entry (entry_of f p) (sendQueue st)) st).
Proof.
  intros [Hp Hu He Hsq Ho Hi Hc Hcl Ht Ha Hst] Hf [Hl Hb]%queue_not_full.
  split; unfold log_of, conts in *; cbn [set_sendQueue push_entry entry_of rt bq_items bq_bytes outboundQueue sendQueue] in *; try done.
  - intros q. specialize (Hp q). rewrite map_app, cnt_app. cbn [map we_promise entry_of]. rewrite !cnt_cons in *. change (cnt q []) with 0%nat. lia.
  - rewrite !Forall_app in He. destruct He as (H1 & H2 & H3). repeat (apply Forall_app; split); try done. by repeat constructor.
  - rewrite total_app. unfold len in *. rewrite length_app. cbn. split; [lia|]. split; [|done]. destruct Hsq as (_ & -> & _). lia.
Qed.
Lemma push_out_ok start sent owed f p st : ws_ok start sent 0 (p :: owed) st -> is_message f = true -> closeSent st || destroyed st = false ->
  queue_full (outboundQueue st) (frame_bytes f) MAX_OUTBOUND_MESSAGES MAX_OUTBOUND_BYTES = false ->
  ws_ok start (sent ++ [f]) 0 owed (set_outbound (push_entry (entry_of f p) (outboundQueue st)) (writingOutbound st) st).
Proof.
  intros [Hp Hu He Hsq Ho Hi Hc Hcl Ht Ha Hst] Hf Hd [Hl Hb]%queue_not_full.
  split; unfold log_of, conts in *; cbn [set_outbound push_entry entry_of rt bq_items bq_bytes outboundQueue sendQueue closeSent destroyed] in *; try done.
  - intros q. specialize (Hp q). rewrite map_app, cnt_app. cbn [map we_promise entry_of]. rewrite !cnt_cons in *. change (cnt q []) with 0%nat. lia.
  - rewrite !Forall_app in He. destruct He as (H1 & H2 & H3). repeat (apply Forall_app; split); try done. by repeat constructor.
  - unfold len in *. rewrite length_app. cbn. split; [lia|]. split; [done|]. destruct Ho as (_ & _ & [Ho|[_ Ho]]); [|congruence].
    left. rewrite total_app. cbn. lia.
  - intros E. destruct (Hst E) as (H1 & H2 & H3 & H4 & H5). repeat split; try done. rewrite map_app, app_assoc. by apply sublist_app.
Qed.
Lemma send_ok accepts start sent d t st : ws_ok start sent 0 [] st -> ws_ok start (sent ++ [message_frame d t]) 0 [] (send accepts d t st).
Proof.
  intros H%new_promise_ok. pose proof (sent_mono _ _ (sent ++ [message_frame d t]) _ _ _ ltac:(by apply sublist_inserts_r) H) as H'.
  destruct (message_frame_kinds d t) as [_ Hm]. unfold send. set (p := rt_promises (rt st)) in *. set (st1 := new_promise st) in *.
  destruct (closeSent st1 || destroyed st1) eqn:Hf; [eapply settle_promise_ok; [by left|exact H']|]. cbv zeta.
  destruct (_ <? _); [eapply settle_promise_ok; [by left|by apply fault_ok]|]. destruct (accepted st1) eqn:Ea; cbn [negb].
  - destruct (queue_full _ _ _ _) eqn:Eq; [eapply settle_promise_ok; [right; by eexists|by apply fault_ok]|].
    pose proof (push_out_ok _ _ _ _ _ _ H Hm Hf Eq) as H2. destruct (acceptWritten _) eqn:Ew; [|done]. by apply pump_ok.
  - assert (start = false) as ->. { destruct start; [|done]. destruct (wo_start _ _ _ _ _ H eq_refl) as [? _]. congruence. }
    destruct (queue_full _ _ _ _) eqn:Eq; [eapply settle_promise_ok; [right; by eexists|by apply fault_ok]|]. by apply push_send_ok.
Qed.

(** ** Receiving *)
Section Receiving.
Context (accepts : nat -> write_answer) (listeners : nat -> list listener_answer) (start : bool) (sent : list jsval).
Abbreviation ok := (ws_ok start sent 0 []).

Definition queue_in_ok (q : bounded_queue inbound_entry) : Prop :=
  len (bq_items q) <= MAX_INBOUND_MESSAGES /\ bq_bytes q = in_total (bq_items q) /\ bq_bytes q <= MAX_INBOUND_BYTES /\ Forall inbound_ok (bq_items q).
Lemma set_inbound_ok q b st : ok st -> queue_in_ok q -> b = true \/ b = processingInbound st \/ rt_listening (rt st) = None -> ok (set_inbound q b st).
Proof using Type.
  intros [Hp Hu He Hsq Ho Hi (Hc & D1 & D2 & D3) Hcl Ht Ha Hst] Hq Hb. split; try done. split; [done|]. split; [done|]. split; [done|].
  intros n d todo Hl. destruct (D3 n d todo Hl) as [H1 H2]. split; [done|]. destruct Hb as [->|[->|Hb]]; [done|done|]. cbn in Hl. congruence.
Qed.
(** Message [n] is being delivered. *)
Definition handing (n : nat) (d : ws_data) (st : websocket) : Prop :=
  rt_listening (rt st) = None /\ (n < rt_delivered (rt st))%nat /\
  (current None (log_of st) = Some (n, d) \/ destroyed st = false /\ (forall m x, current None (log_of st) = Some (m, x) -> (m < n)%nat)).
Lemma message_ok n d st : ok st -> handing n d st -> ok (emit (o_message n d) st) /\ handing n d (emit (o_message n d) st) /\ current None (log_of (emit (o_message n d) st)) = Some (n, d).
Proof using Type.
  intros [Hp Hu He Hsq Ho Hi Hc Hcl Ht Ha Hst] (Hl & Hn & Hcur). assert (current None (log_of (emit (o_message n d) st)) = Some (n, d)) as Hcu.
  { unfold log_of. cbn [emit log_all set_rt push_log rt rt_log]. by rewrite current_app. }
  split; [|by split; [split; [done|split; [done|by left]]|]].
  assert (delivery_ok (emit (o_message n d) st)) as Hdel.
  { apply message_delivery; try done; [apply Hc|]. intros Hd. destruct Hc as [Hc _]. rewrite Hd in Hc. lia. }
  split; unfold log_of, conts in *; cbn [emit log_all set_rt push_log rt rt_log rt_waiting rt_ready] in *;
    rewrite ?settled_promises_app, ?written_app, ?messages_app, ?closings_app, ?closes_app; cbn [settled omap list_omap written app]; rewrite ?app_nil_r; try done.
  change (closes [o_message n d]) with 0%nat. rewrite Nat.add_0_r. split; [apply Hc|done].
Qed.
Lemma listening_ok l st : ok st -> (forall n d todo, l = Some (n, d, todo) -> current None (log_of st) = Some (n, d) /\ processingInbound st = true) -> ok (set_listening l st).
Proof using Type. intros [Hp Hu He Hsq Ho Hi (Hc & D1 & D2 & D3) Hcl Ht Ha Hst] Hl. by split. Qed.
Lemma call_listeners_ok n d todo : forall st, ok st -> handing n d st ->
  let '(r, st') := call_listeners n d todo st in
  ok st' /\ bq_items (inboundQueue st') = bq_items (inboundQueue st) /\ processingInbound st' = processingInbound st /\ rt_listening (rt st') = None /\
  (forall left, r = dl_waits left -> current None (log_of st') = Some (n, d)).
Proof using Type.
  induction todo as [|a todo IH]; intros st H Hh; cbn [call_listeners]; [by destruct Hh|]. destruct (message_ok n d st H Hh) as (H1 & H2 & H3).
  destruct a; [|by split; [|destruct Hh]..]. exact (IH _ H1 H2).
Qed.
Lemma inbound_done_ok st : ok st -> rt_listening (rt st) = None -> ok (inbound_done st).
Proof using Type.
  intros H Hl. unfold inbound_done. assert (ok (set_inbound (inboundQueue st) false st)) as H1 by (apply set_inbound_ok; [done|apply H|auto]).
  destruct (destroyed _); [done|]. destruct (bq_items _); [|done]. by apply emit_ok.
Qed.
Lemma fault_listening e c r st : rt_listening (rt (handleProtocolFault accepts e c r st)) = rt_listening (rt st).
Proof using Type.
  unfold handleProtocolFault, close. destruct (_ || _); [done|]. destruct (validateClose _ r); [|done]. cbn [snd]. unfold writeLine.
  by destruct (accepted _), (accepts _).
Qed.
Lemma handler_failed_ok e st : ok st -> rt_listening (rt st) = None -> ok (handler_failed accepts e st).
Proof using Type. intros H Hl. apply inbound_done_ok; [by apply fault_ok|]. by rewrite fault_listening. Qed.
Lemma process_loop_ok items : forall st, ok st -> bq_items (inboundQueue st) = items -> rt_listening (rt st) = None -> ok (process_loop accepts listeners items st).
Proof using Type.
  induction items as [|e rest IH]; intros st H Eq Hl; cbn [process_loop]; [by apply inbound_done_ok|].
  destruct (destroyed st) eqn:Ed; [by apply inbound_done_ok|].
  assert (queue_in_ok {| bq_items := rest; bq_bytes := bq_bytes (inboundQueue st) - ib_bytes e |}) as Hq.
  { destruct (wo_in _ _ _ _ _ H) as (I1 & I2 & I3 & I4). rewrite Eq in *. apply Forall_cons in I4 as [I4 I5]. pose proof (inbound_nonneg e I4). unfold len in *. cbn in I1, I2.
    split; [cbn; unfold len; lia|]. split; [cbn; unfold in_total in *; lia|]. split; [cbn; lia|done]. }
  set (st1 := delivered_one _). assert (ok st1) as H1 by (apply count_ok; [apply set_inbound_ok; auto|cbn; lia]).
  destruct (wo_close _ _ _ _ _ H) as (_ & _ & D2 & _).
  pose proof (call_listeners_ok (rt_delivered (rt st)) (ib_data e) (listeners (rt_delivered (rt st))) st1 H1) as Hcall.
  destruct (call_listeners _ _ _ st1) as [r st2]. destruct Hcall as (H2 & Eq2 & Hpr & Hl2 & Hw).
  { split; [done|]. split; [cbn; lia|]. by right. }
  destruct r as [|x|todo]; [by apply IH|by apply handler_failed_ok|]. apply listening_ok; [done|]. intros n d l [= <- <- <-]. split; [by eapply Hw|by rewrite Hpr].
Qed.
Lemma listener_settled_ok r st : ok st -> ok (listener_settled accepts listeners r st).
Proof using Type.
  intros H. unfold listener_settled. destruct (rt_listening (rt st)) as [[[n d] todo]|] eqn:El; [|done].
  destruct (wo_close _ _ _ _ _ H) as (_ & _ & D2 & D3). destruct (D3 _ _ _ El) as [D4 D5].
  assert (ok (set_listening None st)) as H1 by by apply listening_ok. destruct r; [by apply handler_failed_ok|].
  pose proof (call_listeners_ok n d todo (set_listening None st) H1) as Hcall. destruct (call_listeners _ _ _ _) as [a st2]. destruct Hcall as (H2 & _ & Hpr & Hl2 & Hw).
  { split; [done|]. split; [by eapply D2|]. by left. }
  destruct a as [|x|left]; [by apply process_loop_ok|by apply handler_failed_ok|]. apply listening_ok; [done|]. intros m x l [= <- <- <-]. split; [by eapply Hw|by rewrite Hpr].
Qed.
Lemma not_processing st : delivery_ok st -> processingInbound st = false -> rt_listening (rt st) = None.
Proof using Type. intros (_ & _ & D3) Hp. destruct (rt_listening (rt st)) as [[[n d] todo]|]; [|done]. destruct (D3 _ _ _ eq_refl). congruence. Qed.
Lemma enqueueInbound_ok d b st : ok st -> b = len (data_bytes d) -> ok (enqueueInbound accepts listeners d b st).
Proof using Type.
  intros H Hb. unfold enqueueInbound. destruct (_ || _) eqn:Ef; [by apply fault_ok|].
  assert (ok (emit o_pause (set_inbound {| bq_items := bq_items (inboundQueue st) ++ [{| ib_data := d; ib_bytes := b |}]; bq_bytes := bq_bytes (inboundQueue st) + b |}
     (processingInbound st) st))) as H1.
  { apply emit_ok; [done|]. apply set_inbound_ok; [done| |auto]. pose proof (len_nonneg (data_bytes d)). destruct (wo_in _ _ _ _ _ H) as (I1 & I2 & I3 & I4). split; [|split; [|split]]; cbn.
    - unfold len in *. rewrite length_app. cbn. lia.
    - rewrite in_total_app, I2. cbn. lia.
    - lia.
    - apply Forall_app. split; [done|]. by constructor. }
  unfold processInboundQueue. destruct (processingInbound _) eqn:Epr; [done|]. apply process_loop_ok; [apply set_inbound_ok; [done|apply H1|by left]|done|].
  exact (not_processing st (proj2 (wo_close _ _ _ _ _ H)) Epr).
Qed.
Lemma close_received_ok z r st : ok st -> destroyed st = false ->
  ok (endStream (let st := emit (o_closed z r) (set_reading false (lineBuffer st) (set_flags (closeSent st) true st)) in
    if closeSent st then st else writeLine accepts (close_frame z r) k_void st)).
Proof using Type.
  intros H Hd. apply endStream_ok. cbv zeta.
  assert (ok (emit (o_closed z r) (set_reading false (lineBuffer st) (set_flags (closeSent st) true st)))) as H1.
  { apply closed_event_ok. exact (destroy_flag_ok start sent [] false (lineBuffer st) st H Hd ltac:(done)). }
  change (closeSent (emit (o_closed z r) (set_reading false (lineBuffer st) (set_flags (closeSent st) true st)))) with (closeSent st).
  destruct (closeSent st) eqn:Ec; [done|]. apply write_ok; try done. intros _. split; [|apply orb_true_r].
  unfold log_of. cbn [emit log_all set_rt push_log rt rt_log set_reading set_flags]. rewrite closings_app. destruct (wo_closing _ _ _ _ _ H) as [_ Hn]. unfold log_of in Hn. rewrite Hn by (by rewrite Ec, Hd). done.
Qed.
Lemma handleFrame_ok o st : ok st -> destroyed st = false -> ok (handleFrame accepts listeners o st).
Proof using Type.
  intros H Hd. unfold handleFrame, invalid_frame. destruct (frame_type o) as [[]|]; try (by apply fault_ok).
  - destruct (prop _ _); try (by apply fault_ok). by apply enqueueInbound_ok.
  - destruct (prop _ _) as [| | | |s| |]; try (by apply fault_ok). destruct (is_base64 s); [|by apply fault_ok]. by apply enqueueInbound_ok.
  - destruct (prop _ _); try (by apply fault_ok); by apply write_plain_ok; try done; left.
  - destruct (prop _ _); try (by apply fault_ok); by apply emit_ok.
  - destruct (prop _ _) as [| | |[]| | |]; try (by apply fault_ok). destruct (match prop _ _ with JStr r => Some r | JUndef => Some [] | _ => None end) as [r|]; [|by apply fault_ok].
    destruct (validateClose _ r) as [z'|e]; [|by apply fault_ok]. by apply close_received_ok.
  - destruct (prop _ _); try (by apply fault_ok). by apply emit_ok.
Qed.
Lemma set_reading_ok lb st : ok st -> ok (set_reading (closeTimer st) lb st).
Proof using Type. intros []. by split. Qed.
Lemma incoming_ok fuel : forall st, ok st -> ok (incoming_loop accepts listeners fuel st).
Proof using Type.
  induction fuel as [|fuel IH]; intros st H; cbn [incoming_loop]; [done|]. destruct (destroyed st) eqn:Ed; [done|].
  destruct (index_of _ _) as [idx|].
  - set (st1 := set_reading _ _ st). assert (ok st1) as H1 by (by apply set_reading_ok). destruct (_ <? _); [by apply fault_ok|].
    destruct (decodeVwsFrame _) as [[]|]; try done; [|by apply fault_ok]. apply IH. by apply handleFrame_ok.
  - destruct (_ <? _); [|done]. by apply fault_ok, set_reading_ok.
Qed.
Lemma processIncoming_ok chunk st : ok st -> ok (processIncoming accepts listeners chunk st).
Proof using Type. intros H. unfold processIncoming. destruct (destroyed st); [done|]. by apply incoming_ok, set_reading_ok. Qed.
End Receiving.

(** ** Every step *)
Definition sent_by (events : list ws_event) : list jsval := omap (fun e => match e with we_send d t => Some (message_frame d t) | _ => None end) events.
Lemma ws_init_ok proto start : ws_ok start [] 0 [] (websocket_init proto start).
Proof.
  split; try done.
  - split; [done|]. split; [done|]. by left.
  - split; [cbn; lia|done].
  - intros ->. repeat split; try done.
    + intros k Hk. by apply elem_of_nil in Hk.
    + intros [Hx|Hx]; by apply elem_of_nil in Hx.
  - intros ->. repeat split; try done. intros e l Hx. by apply elem_of_nil in Hx.
Qed.
Lemma ws_step_ok accepts listeners start sent st e : ws_ok start sent 0 [] st -> ws_ok start (sent ++ sent_by [e]) 0 [] (ws_step accepts listeners st e).
Proof.
  intros H. destruct e as [c| | |x| |d t|d|d|c r| |p| |r|]; cbn [sent_by omap list_omap ws_step]; rewrite ?app_nil_r.
  - by apply processIncoming_ok.
  - apply stream_over_ok. unfold clear_line. destruct (destroyed st); [done|]. by apply set_reading_ok.
  - by apply settle_writes_ok, stream_over_ok.
  - apply settle_writes_ok. destruct (destroyed st); [done|]. by apply emit_ok.
  - by apply settle_writes_ok.
  - by apply send_ok.
  - by apply ping_ok.
  - by apply pong_ok.
  - by apply close_ok.
  - by apply terminate_ok.
  - by apply sendAccept_ok.
  - destruct (closeTimer st); [by apply close_timeout_ok|done].
  - by apply listener_settled_ok.
  - by apply microtask_ok.
Qed.
Lemma ws_run_ok accepts listeners start events : forall sent st, ws_ok start sent 0 [] st -> ws_ok start (sent ++ sent_by events) 0 [] (ws_run accepts listeners st events).
Proof.
  induction events as [|e events IH]; intros sent st H; cbn [ws_run fold_left]; [by rewrite app_nil_r|].
  change (sent_by (e :: events)) with (sent_by ([e] ++ events)). unfold sent_by at 1. rewrite omap_app, app_assoc. by apply IH, ws_step_ok.
Qed.

(** ** Flags only rise *)
Record rises (st st' : websocket) : Prop := {
  ri_sent : closeSent st = true -> closeSent st' = true;
  ri_dead : destroyed st = true -> destroyed st' = true;
}.
#[global] Instance rises_preorder : PreOrder rises.
Proof. split; [done|]. intros a b c [H1 H2] [H3 H4]. split; auto. Qed.
Section Rising.
Context (accepts : nat -> write_answer) (listeners : nat -> list listener_answer).
Lemma write_flags f k st : closeSent (writeLine accepts f k st) = closeSent st /\ destroyed (writeLine accepts f k st) = destroyed st.
Proof using Type. unfold writeLine. by destruct (accepts _). Qed.
Lemma write_rises f k st : rises st (writeLine accepts f k st).
Proof using Type. destruct (write_flags f k st) as [H1 H2]. split; congruence. Qed.
Lemma close_rises code r st : rises st (close accepts code r st).2.
Proof using Type.
  destruct (closeSent st || destroyed st) eqn:Hf; [unfold close; rewrite Hf; by split|].
  apply orb_false_iff in Hf as [H1 H2]. split; congruence.
Qed.
Lemma fault_rises e c r st : rises st (handleProtocolFault accepts e c r st).
Proof using Type. unfold handleProtocolFault. etrans; [|apply close_rises]. by split. Qed.
Lemma emit_rises o st st' : rises st st' -> rises st (emit o st').
Proof using Type. intros [H1 H2]. by split. Qed.
Lemma pump_loop_rises st : rises st (pump_loop accepts st).
Proof using Type. unfold pump_loop. destruct (destroyed st) eqn:Ed; [by split|]. destruct (bq_items _); [by split|]. etrans; [|apply write_rises]. by split. Qed.
Lemma pump_rises st : rises st (pumpOutboundQueue accepts st).
Proof using Type. unfold pumpOutboundQueue. destruct (writingOutbound st); [done|apply pump_loop_rises]. Qed.
Lemma flushNext_rises q st : rises st (flushNext accepts q st).
Proof using Type. destruct q; [by split|apply write_rises]. Qed.
Lemma microtask_rises st : rises st (microtask accepts st).
Proof using Type.
  unfold microtask. destruct (rt_ready (rt st)) as [|[k r] rest]; [done|]. set (st1 := set_rt _ st). assert (rises st st1) as H1 by (by split).
  etrans; [exact H1|]. destruct k as [|p| |e l| |e]; cbn [resume]; try by split.
  - destruct r; [by split|]. etrans; [|apply flushNext_rises]. by split.
  - destruct r; [by split|]. etrans; [|apply flushNext_rises]. by split.
  - apply pump_rises.
  - destruct r; [by split|]. etrans; [|apply pump_loop_rises]. by split.
Qed.
Lemma inbound_done_rises st : rises st (inbound_done st).
Proof using Type. unfold inbound_done. destruct (destroyed (set_inbound _ false st)) eqn:E; [by split|]. destruct (bq_items (inboundQueue _)); by split. Qed.
Lemma handler_failed_rises e st : rises st (handler_failed accepts e st).
Proof using Type. unfold handler_failed. etrans; [apply fault_rises|apply inbound_done_rises]. Qed.
Lemma call_listeners_rises n d todo : forall st, rises st (call_listeners n d todo st).2.
Proof using Type. induction todo as [|[] todo IH]; intros st; cbn [call_listeners]; try by split. etrans; [|apply IH]. by split. Qed.
Lemma process_loop_rises items : forall st, rises st (process_loop accepts listeners items st).
Proof using Type.
  induction items as [|e rest IH]; intros st; cbn [process_loop]; [apply inbound_done_rises|]. destruct (destroyed st) eqn:Ed; [apply inbound_done_rises|].
  set (st1 := delivered_one _). assert (rises st st1) as H1 by (by split). pose proof (call_listeners_rises (rt_delivered (rt st)) (ib_data e) (listeners (rt_delivered (rt st))) st1) as H2.
  destruct (call_listeners _ _ _ st1) as [r st2]. cbn in H2. etrans; [exact H1|]. etrans; [exact H2|]. destruct r; [apply IH|apply handler_failed_rises|by split].
Qed.
Lemma endStream_rises st : rises st (endStream st).
Proof using Type. unfold endStream. destruct (rt_ended _); by split. Qed.
Lemma enqueueInbound_rises d b st : rises st (enqueueInbound accepts listeners d b st).
Proof using Type.
  unfold enqueueInbound. destruct (_ || _); [apply fault_rises|]. unfold processInboundQueue. destruct (processingInbound _); [by split|].
  etrans; [|apply process_loop_rises]. by split.
Qed.
Lemma handleFrame_rises o st : rises st (handleFrame accepts listeners o st).
Proof using Type.
  unfold handleFrame, invalid_frame. destruct (frame_type o) as [[]|]; try apply fault_rises.
  - destruct (prop _ _); try apply fault_rises. apply enqueueInbound_rises.
  - destruct (prop _ _) as [| | | |s| |]; try apply fault_rises. destruct (is_base64 s); [apply enqueueInbound_rises|apply fault_rises].
  - destruct (prop _ _); try apply fault_rises; apply write_rises.
  - destruct (prop _ _); try apply fault_rises; by split.
  - destruct (prop _ _) as [| | |[]| | |]; try apply fault_rises. destruct (match prop _ _ with JStr r => Some r | JUndef => Some [] | _ => None end) as [r|]; [|apply fault_rises].
    destruct (validateClose _ r); [|apply fault_rises]. etrans; [|apply endStream_rises]. set (st1 := emit _ _). assert (rises st st1) as H1 by (by split).
    destruct (closeSent st1); [done|]. etrans; [exact H1|apply write_rises].
  - destruct (prop _ _); try apply fault_rises. by split.
Qed.
Lemma incoming_rises fuel : forall st, rises st (incoming_loop accepts listeners fuel st).
Proof using Type.
  induction fuel as [|fuel IH]; intros st; cbn [incoming_loop]; [done|]. destruct (destroyed st); [done|]. destruct (index_of _ _).
  - set (st1 := set_reading _ _ st). assert (rises st st1) as H1 by (by split). destruct (_ <? _); [etrans; [exact H1|apply fault_rises]|].
    destruct (decodeVwsFrame _) as [[]|]; try done; [|etrans; [exact H1|apply fault_rises]]. etrans; [exact H1|]. etrans; [apply handleFrame_rises|apply IH].
  - destruct (_ <? _); [|done]. etrans; [|apply fault_rises]. by split.
Qed.
Lemma stream_over_rises st : rises st (stream_over st).
Proof using Type. unfold stream_over. change (destroyed (set_reading _ _ st)) with (destroyed st). destruct (destroyed st) eqn:E; [by split|]. destruct (accepted _); split; try done; congruence. Qed.
Lemma send_rises d t st : rises st (send accepts d t st).
Proof using Type.
  unfold send. set (st1 := new_promise st). assert (rises st st1) as H1 by (by split). destruct (_ || _); [by split|]. cbv zeta.
  destruct (_ <? _); [apply emit_rises; etrans; [exact H1|apply fault_rises]|]. destruct (negb _); destruct (queue_full _ _ _ _);
    try (apply emit_rises; etrans; [exact H1|apply fault_rises]); [by split|].
  set (st2 := set_outbound _ _ st1). assert (rises st st2) as H2 by (by split). destruct (acceptWritten st2); [etrans; [exact H2|apply pump_rises]|done].
Qed.
Lemma ws_step_rises st e : rises st (ws_step accepts listeners st e).
Proof using Type.
  destruct e as [c| | |x| |d t|d|d|c r| |p| |r|]; cbn [ws_step].
  - unfold processIncoming. destruct (destroyed st); [done|]. etrans; [|apply incoming_rises]. by split.
  - etrans; [|apply stream_over_rises]. unfold clear_line. destruct (destroyed st); by split.
  - etrans; [apply stream_over_rises|by split].
  - destruct (destroyed st) eqn:E; by split.
  - by split.
  - apply send_rises.
  - unfold ping. set (st1 := new_promise st). assert (rises st st1) as H1 by (by split). destruct (_ || _); [by split|].
    destruct (_ <? _); [apply emit_rises; etrans; [exact H1|apply fault_rises]|]. etrans; [exact H1|apply write_rises].
  - unfold pong. set (st1 := new_promise st). assert (rises st st1) as H1 by (by split). destruct (_ || _); [by split|]. etrans; [exact H1|apply write_rises].
  - apply close_rises.
  - unfold terminate. destruct (destroyed st) eqn:E; [done|]. split; [done|congruence].
  - unfold sendAccept. destruct (destroyed st); [by split|]. etrans; [|apply write_rises]. by split.
  - destruct (closeTimer st); [|done]. unfold close_timeout. change (destroyed (set_reading _ _ st)) with (destroyed st). destruct (destroyed st) eqn:E; [by split|].
    apply emit_rises, emit_rises. etrans; [|apply endStream_rises]. split; [done|congruence].
  - unfold listener_settled. destruct (rt_listening (rt st)) as [[[n d] todo]|]; [|done]. set (st1 := set_listening None st). assert (rises st st1) as H1 by (by split).
    etrans; [exact H1|]. destruct r; [apply handler_failed_rises|]. pose proof (call_listeners_rises n d todo st1) as H2. destruct (call_listeners _ _ _ st1) as [a st2]. cbn in H2.
    etrans; [exact H2|]. destruct a; [apply process_loop_rises|apply handler_failed_rises|by split].
  - apply microtask_rises.
Qed.
Lemma ws_run_rises events : forall st, rises st (ws_run accepts listeners st events).
Proof using Type. induction events as [|e events IH]; intros st; [done|]. cbn [ws_run fold_left]. etrans; [apply ws_step_rises|apply IH]. Qed.
End Rising.

(** ** The fuel of the line loop *)
Section Lines.
Context (accepts : nat -> write_answer) (listeners : nat -> list listener_answer).
Lemma write_line_buffer f k st : lineBuffer (writeLine accepts f k st) = lineBuffer st.
Proof using Type. unfold writeLine. by destruct (accepts _). Qed.
Lemma close_buffer code r st : lineBuffer (close accepts code r st).2 = lineBuffer st.
Proof using Type.
  unfold close. destruct (_ || _); [done|]. destruct (validateClose code r); [|done]. cbn [snd set_reading lineBuffer]. rewrite write_line_buffer.
  by destruct (accepted _).
Qed.
Lemma fault_buffer e c r st : lineBuffer (handleProtocolFault accepts e c r st) = lineBuffer st.
Proof using Type. unfold handleProtocolFault. by rewrite close_buffer. Qed.
Lemma inbound_done_buffer st : lineBuffer (inbound_done st) = lineBuffer st.
Proof using Type. unfold inbound_done. destruct (destroyed _); [done|]. by destruct (bq_items (inboundQueue _)). Qed.
Lemma call_listeners_buffer n d todo : forall st, lineBuffer (call_listeners n d todo st).2 = lineBuffer st.
Proof using Type. induction todo as [|[] todo IH]; intros st; cbn [call_listeners]; try done. by rewrite IH. Qed.
Lemma process_buffer items : forall st, lineBuffer (process_loop accepts listeners items st) = lineBuffer st.
Proof using Type.
  induction items as [|e rest IH]; intros st; cbn [process_loop]; [apply inbound_done_buffer|]. destruct (destroyed st); [apply inbound_done_buffer|].
  set (st1 := delivered_one _). pose proof (call_listeners_buffer (rt_delivered (rt st)) (ib_data e) (listeners (rt_delivered (rt st))) st1) as H2.
  destruct (call_listeners _ _ _ st1) as [r st2]. cbn [snd] in H2. change (lineBuffer st) with (lineBuffer st1). rewrite <- H2.
  destruct r; [by rewrite IH| |done]. unfold handler_failed. by rewrite inbound_done_buffer, fault_buffer.
Qed.
Lemma enqueue_buffer d b st : lineBuffer (enqueueInbound accepts listeners d b st) = lineBuffer st.
Proof using Type.
  unfold enqueueInbound. destruct (_ || _); [apply fault_buffer|]. unfold processInboundQueue. destruct (processingInbound _); [done|]. by rewrite process_buffer.
Qed.
Lemma handleFrame_buffer o st : lineBuffer (handleFrame accepts listeners o st) = lineBuffer st.
Proof using Type.
  unfold handleFrame, invalid_frame. destruct (frame_type o) as [[]|]; try apply fault_buffer.
  - destruct (prop _ _); try apply fault_buffer. apply enqueue_buffer.
  - destruct (prop _ _) as [| | | |s| |]; try apply fault_buffer. destruct (is_base64 s); [apply enqueue_buffer|apply fault_buffer].
  - destruct (prop _ _); try apply fault_buffer; apply write_line_buffer.
  - destruct (prop _ _); by try apply fault_buffer.
  - destruct (prop _ _) as [| | |[]| | |]; try apply fault_buffer. destruct (match prop _ _ with JStr r => Some r | JUndef => Some [] | _ => None end) as [r|]; [|apply fault_buffer].
    destruct (validateClose _ r); [|apply fault_buffer]. unfold endStream. destruct (rt_ended _), (closeSent _); cbn [emit log_all set_rt lineBuffer]; by rewrite ?write_line_buffer.
  - destruct (prop _ _); by try apply fault_buffer.
Qed.
(** More fuel than the units pending changes nothing: the loop ends by itself. *)
Lemma incoming_fuel fuel : forall fuel' st, (length (lineBuffer st) < fuel)%nat -> (length (lineBuffer st) < fuel')%nat ->
  incoming_loop accepts listeners fuel st = incoming_loop accepts listeners fuel' st.
Proof using Type.
  induction fuel as [|fuel IH]; intros fuel' st H1 H2; [lia|]. destruct fuel' as [|fuel']; [lia|]. cbn [incoming_loop].
  destruct (destroyed st); [done|]. destruct (index_of [10] (lineBuffer st)) as [idx|] eqn:Ei; [|done]. destruct (_ <? _); [done|].
  destruct (decodeVwsFrame _) as [[]|]; try done. apply index_of_single in Ei as [Hi _]. apply lookup_lt_Some in Hi.
  apply IH; rewrite handleFrame_buffer; cbn [set_reading lineBuffer]; rewrite length_drop; lia.
Qed.
End Lines.

(** * Properties *)
Lemma run_state accepts listeners proto start events :
  ws_ok start (sent_by events) 0 [] (ws_run accepts listeners (websocket_init proto start) events).
Proof. apply (ws_run_ok accepts listeners start events []), ws_init_ok. Qed.

Lemma websocket_closes_once_state accepts listeners proto start events :
  let st := ws_run accepts listeners (websocket_init proto start) events in
  closes (log_of st) = (if destroyed st then 1 else 0)%nat /\ orderly false None (log_of st) = true.
Proof.
  intros st. destruct (wo_close _ _ _ _ _ (run_state accepts listeners proto start events)) as (Hc & Hor & _). fold st in Hc, Hor. by rewrite Nat.add_0_r in Hc.
Qed.

(** C15: the promises and queues of a socket, whatever the stream, the peer, the
    listeners and the program do, in any order.  Every promise of [send], [ping]
    or [pong] is in exactly one place: it was settled once, its message waits in
    one of the two send queues, or the write it depends on is under way.  The
    queues hold at most 64 messages and 1 MiB.  Their byte counts are exact: the sum
    over the messages in the queue of the bytes of the frame (of the payload, for
    the inbound queue).  The outbound count, [bufferedAmount], includes the message
    that is being written, until the queue is given up because the socket closes:
    it is empty then, and its count is 0 even while a write is under way. *)
Theorem websocket_invariant accepts listeners proto start events :
  let st := ws_run accepts listeners (websocket_init proto start) events in
  settled (log_of st) ++ map we_promise (bq_items (sendQueue st)) ++ map we_promise (bq_items (outboundQueue st)) ++ concat (map k_ids (conts st))
    ≡ₚ seq 0 (rt_promises (rt st)) /\
  (len (bq_items (sendQueue st)) <= 64 /\ bq_bytes (sendQueue st) = total (bq_items (sendQueue st)) /\ bq_bytes (sendQueue st) <= 1048576) /\
  (len (bq_items (outboundQueue st)) <= 64 /\ 0 <= getBufferedAmount st <= 1048576 /\
     (getBufferedAmount st = total (bq_items (outboundQueue st)) + total (concat (map pumping (conts st))) \/
      outboundQueue st = bq_empty /\ closeSent st || destroyed st = true)) /\
  (len (bq_items (inboundQueue st)) <= 64 /\ bq_bytes (inboundQueue st) = in_total (bq_items (inboundQueue st)) /\ bq_bytes (inboundQueue st) <= 1048576) /\
  Forall (fun e => we_bytes e = frame_bytes (we_frame e)) (bq_items (sendQueue st) ++ bq_items (outboundQueue st) ++ concat (map pumping (conts st))) /\
  Forall (fun e => ib_bytes e = len (data_bytes (ib_data e))) (bq_items (inboundQueue st)).
Proof.
  intros st. pose proof (run_state accepts listeners proto start events) as H. fold st in H. destruct H as [Hp Hu He Hsq Ho Hi Hc Hcl Ht Ha Hst].
  assert (VWS_MAX_FRAME_BYTES = 1048576) as Ev by reflexivity.
  unfold MAX_PRE_ACCEPT_MESSAGES, MAX_PRE_ACCEPT_BYTES, MAX_OUTBOUND_MESSAGES, MAX_OUTBOUND_BYTES, MAX_INBOUND_MESSAGES, MAX_INBOUND_BYTES in *. rewrite Ev in *.
  rewrite !Forall_app in He. destruct He as (Hse & Hout & Hk).
  assert (Forall entry_ok (concat (map pumping (conts st)))) as Hpk.
  { clear - Hk. induction (conts st) as [|k l IH]; [constructor|]. cbn [map concat] in *. apply Forall_app in Hk as [H1 H2].
    apply Forall_app. split; [|by apply IH]. by destruct k. }
  split; [|split; [exact Hsq|split; [|split; [by destruct Hi as (H1 & H2 & H3 & _)|split; [|apply Hi]]]]].
  - apply (Permutation_count_occ Nat.eq_dec). intros p. specialize (Hp p). fold (cnt p (seq 0 (rt_promises (rt st)))).
    change (count_occ Nat.eq_dec ?l p) with (cnt p l). rewrite !cnt_app. change (cnt p []) with 0%nat in Hp.
    transitivity (if decide (p < rt_promises (rt st))%nat then 1%nat else 0%nat); [lia|]. symmetry.
    pose proof (NoDup_count_occ' Nat.eq_dec (seq 0 (rt_promises (rt st)))) as Hn. destruct Hn as [Hn _]. specialize (Hn (seq_NoDup _ _)).
    destruct (decide (p < rt_promises (rt st))%nat) as [Hlt|Hge].
    + apply Hn, in_seq. lia.
    + apply count_occ_not_In. rewrite in_seq. lia.
  - destruct Ho as (O1 & O2 & O3). split; [exact O1|]. split; [|exact O3]. split; [|exact O2]. unfold getBufferedAmount.
    pose proof (queued_nonneg _ Hout). pose proof (queued_nonneg _ Hpk). destruct O3 as [O3|[O3 _]]; [lia|]. rewrite O3. cbn. lia.
  - rewrite !Forall_app. repeat split; (eapply Forall_impl; [eassumption|]); by intros x [_ Hx].
Qed.

(** C16: a socket ends at most once.  The 'close' event is emitted exactly when the
    socket becomes destroyed, and never again.  A listener is handed
    the message being delivered or a later one, never one before it; after 'close'
    no message is taken from the queue: only the remaining listeners of the
    message that was being delivered are still handed it.  At most one close
    frame is ever written, in answer or on the socket's own account. *)
Theorem websocket_closes_once accepts listeners proto start events :
  let st := ws_run accepts listeners (websocket_init proto start) events in
  closes (log_of st) = (if destroyed st then 1 else 0)%nat /\ orderly false None (log_of st) = true /\ (length (closings (log_of st)) <= 1)%nat /\
  (closings (log_of st) <> [] -> closeSent st || destroyed st = true).
Proof.
  intros st. pose proof (run_state accepts listeners proto start events) as H. fold st in H. destruct H as [Hp Hu He Hsq Ho Hi Hc Hcl Ht Ha Hst].
  destruct Hc as (Hc & Hor & _), Hcl as [Hl Hn]. rewrite Nat.add_0_r in Hc. split; [exact Hc|]. split; [exact Hor|]. split; [exact Hl|].
  intros Hne. destruct (closeSent st || destroyed st); [done|]. by rewrite Hn in Hne.
Qed.

(** C17: messages leave in order.  On a socket whose handshake was done before (the
    broker's), the messages written are some of those the program sent, in the
    order it sent them.  On a socket that still has to accept (the guest's), no
    message is written before the accept frame. *)
Theorem websocket_message_order accepts listeners proto start events :
  let st := ws_run accepts listeners (websocket_init proto start) events in
  if start then sublist (messages (log_of st)) (sent_by events) else accept_first (written (log_of st)) = true.
Proof.
  intros st. pose proof (run_state accepts listeners proto start events) as H. fold st in H. destruct start.
  - destruct (wo_start _ _ _ _ _ H eq_refl) as (_ & _ & _ & _ & Hs). etrans; [|exact Hs]. by apply sublist_inserts_r.
  - apply (wo_accept _ _ _ _ _ H eq_refl).
Qed.

(** C18: closing ends.  Once the socket has sent its close frame, it is destroyed,
    with one 'close' event, as soon as the close timer fires, whatever else
    happens before and after. *)
Theorem websocket_close_ends accepts listeners proto start before between after :
  closeSent (ws_run accepts listeners (websocket_init proto start) before) = true ->
  let st := ws_run accepts listeners (websocket_init proto start) (before ++ between ++ we_timer :: after) in
  destroyed st = true /\ closes (log_of st) = 1%nat.
Proof.
  intros Hsent st.
  assert (destroyed st = true) as Hd.
  { unfold st, ws_run. rewrite !fold_left_app. cbn [fold_left].
    set (st1 := fold_left (ws_step accepts listeners) before (websocket_init proto start)) in *.
    set (st2 := fold_left (ws_step accepts listeners) between st1).
    assert (closeSent st2 = true) as H2 by exact (ri_sent _ _ (ws_run_rises accepts listeners between st1) Hsent).
    assert (st2 = ws_run accepts listeners (websocket_init proto start) (before ++ between)) as E2 by (unfold ws_run; by rewrite fold_left_app).
    assert (destroyed (ws_step accepts listeners st2 we_timer) = true) as H3.
    { cbn [ws_step]. pose proof (run_state accepts listeners proto start (before ++ between)) as H. rewrite <- E2 in H.
      destruct (destroyed st2) eqn:Ed.
      - destruct (closeTimer st2); [|done]. unfold close_timeout. change (destroyed (set_reading _ _ st2)) with (destroyed st2). by rewrite Ed.
      - destruct (wo_timer _ _ _ _ _ H) as [_ Ht]. rewrite (Ht H2 Ed). unfold close_timeout. change (destroyed (set_reading _ _ st2)) with (destroyed st2).
        rewrite Ed. apply (ri_dead _ _ (emit_rises _ _ _ (emit_rises o_destroy _ _ (endStream_rises _)))). done. }
    exact (ri_dead _ _ (ws_run_rises accepts listeners after _) H3). }
  split; [exact Hd|]. destruct (websocket_closes_once_state accepts listeners proto start (before ++ between ++ we_timer :: after)) as [Hc _].
  fold st in Hc. by rewrite Hd in Hc.
Qed.

(** ** A message from one end to the other *)
Definition payload (d : ws_data) (t : ws_type) : ws_data := match t with t_text => d_string (data_string d) | t_binary => d_buffer (data_bytes d) end.
Definition payload_ok (d : ws_data) (t : ws_type) : Prop := match t with t_text => wf_units (data_string d) | t_binary => wf_bytes (data_bytes d) end.
Lemma message_plain d t : payload_ok d t -> json_plain (message_frame d t) = true.
Proof.
  intros H. assert (forall s ty, forallb is_unit s = true -> forallb is_unit (js ty) = true -> json_plain (typed_frame ty [(js "data", JStr s)]) = true) as Hp.
  { intros s ty Hs Hty. unfold typed_frame. cbn [json_plain forallb map fst snd fmap list_fmap]. rewrite Hs, Hty. reflexivity. }
  destruct t; apply Hp; try reflexivity; [by apply wf_units_forallb|by apply base64_units].
Qed.
Lemma message_object d t : exists o, message_frame d t = JObj o /\ frame_type o = Some (match t with t_text => f_text | t_binary => f_binary end) /\
  prop (js "data") o = JStr (match t with t_text => data_string d | t_binary => base64_encode (data_bytes d) end) /\ (payload_ok d t -> frame_ok o).
Proof.
  destruct t; (eexists; split; [reflexivity|]; split; [reflexivity|]; split; [reflexivity|]; intros H; eexists; split; [reflexivity|]); [reflexivity|].
  unfold validate_frame. change (find _ frame_types) with (Some f_binary). cbv match. change (prop (js "data") _) with (JStr (base64_encode (data_bytes d))).
  destruct (base64_roundtrip (data_bytes d) H) as [_ ->]. reflexivity.
Qed.

Lemma call_all_return n d k : forall st, call_listeners n d (repeat l_returns k) st = (dl_done, log_all (repeat (o_message n d) k) st).
Proof.
  induction k as [|k IH]; intros st; cbn [repeat call_listeners].
  - unfold log_all, push_log, set_rt. rewrite app_nil_r. by destruct st as [? ? ? ? ? ? ? ? ? ? ? ? []].
  - rewrite IH. unfold emit, log_all, push_log, set_rt. cbn. by rewrite <- app_assoc.
Qed.
Lemma enqueue_idle accepts listeners k d b st : destroyed st = false -> processingInbound st = false -> inboundQueue st = bq_empty ->
  listeners (rt_delivered (rt st)) = repeat l_returns k -> b <= MAX_INBOUND_BYTES ->
  let st' := enqueueInbound accepts listeners d b st in
  log_of st' = log_of st ++ [o_pause] ++ repeat (o_message (rt_delivered (rt st)) d) k ++ [o_resume] /\ lineBuffer st' = lineBuffer st /\ destroyed st' = false /\
  inboundQueue st' = bq_empty.
Proof.
  destruct st as [pr cs ds ac aw sq oq wo iq pi ct lb [en wa re ps ws dl ls lg]]. cbn [destroyed processingInbound inboundQueue rt rt_delivered]. intros -> -> -> Hli Hb.
  assert ((MAX_INBOUND_BYTES <? b) || (MAX_INBOUND_MESSAGES <=? len (@nil inbound_entry)) || (MAX_INBOUND_BYTES <? 0 + b) = false) as Hf.
  { assert (MAX_INBOUND_MESSAGES <=? len (@nil inbound_entry) = false) as -> by reflexivity.
    rewrite (proj2 (Z.ltb_ge MAX_INBOUND_BYTES b)), (proj2 (Z.ltb_ge MAX_INBOUND_BYTES (0 + b))) by exact Hb. reflexivity. }
  unfold enqueueInbound. cbn [inboundQueue bq_items bq_bytes bq_empty]. rewrite Hf. unfold processInboundQueue.
  cbn [processingInbound emit log_all set_rt set_inbound inboundQueue bq_items process_loop destroyed rt push_log rt_delivered app ib_data]. rewrite Hli, call_all_return.
  cbn. unfold log_of. cbn. rewrite <- !app_assoc. repeat split. unfold bq_empty. f_equal. lia.
Qed.

(** C39: a message arrives as it was sent.  The line that [send] writes for a text
    or binary message, read by a socket at the other end that is idle, makes that
    socket hand the very same text or bytes to its listeners, to each once, and
    nothing is left of the line. *)
Theorem websocket_roundtrip accepts listeners k d t st :
  payload_ok d t -> frame_bytes (message_frame d t) <= VWS_MAX_FRAME_BYTES -> len (data_bytes (payload d t)) <= MAX_INBOUND_BYTES ->
  destroyed st = false -> processingInbound st = false -> inboundQueue st = bq_empty -> lineBuffer st = [] ->
  listeners (rt_delivered (rt st)) = repeat l_returns k ->
  let st' := processIncoming accepts listeners (json_text (message_frame d t) ++ [10]) st in
  log_of st' = log_of st ++ [o_pause] ++ repeat (o_message (rt_delivered (rt st)) (payload d t)) k ++ [o_resume] /\ lineBuffer st' = [] /\ destroyed st' = false /\
  inboundQueue st' = bq_empty.
Proof.
  intros Hok Hfb Hib Hd Hp Hq Hl Hli. destruct (message_object d t) as (o & Eo & Hft & Hdata & Hfo). rewrite Eo in *. intros st'.
  assert (byte_length (json_text (JObj o)) <= VWS_MAX_FRAME_BYTES) as Hbl by (unfold frame_bytes in Hfb; lia).
  assert (json_plain (JObj o) = true) as Hpl by (rewrite <- Eo; by apply message_plain).
  assert (10 ∉ json_text (JObj o)) as Hnl by by apply text_ok_not_elem, json_text_ok.
  assert (decodeVwsFrame (json_text (JObj o)) = Ok (JObj o)) as Hdec by (apply decode_line; [by apply Hfo|done..]).
  assert (handleFrame accepts listeners o (set_reading (closeTimer st) [] (set_reading (closeTimer st) (json_text (JObj o) ++ [10]) st)) =
    enqueueInbound accepts listeners (payload d t) (len (data_bytes (payload d t))) (set_reading (closeTimer st) [] (set_reading (closeTimer st) (json_text (JObj o) ++ [10]) st))) as Hh.
  { unfold handleFrame. rewrite Hft. destruct t; rewrite Hdata; [done|]. destruct (base64_roundtrip _ Hok) as [-> ->]. done. }
  subst st'. unfold processIncoming. rewrite Hd, Hl. cbn [app incoming_loop]. change (destroyed (set_reading _ _ st)) with (destroyed st). rewrite Hd.
  change (lineBuffer (set_reading _ ?b st)) with b.
  assert (index_of [10] (json_text (JObj o) ++ [10]) = Some (length (json_text (JObj o)))) as ->.
  { apply index_of_single. rewrite lookup_app_r, Nat.sub_diag by lia. split; [done|]. by rewrite take_app_length. }
  rewrite take_app_length. rewrite (proj2 (Z.ltb_ge _ _)) by exact Hbl. rewrite Hdec.
  replace (drop (S (length (json_text (JObj o)))) (json_text (JObj o) ++ [10])) with (@nil Z) by (symmetry; apply drop_ge; rewrite length_app; cbn; lia).
  change (closeTimer (set_reading _ _ st)) with (closeTimer st). rewrite Hh.
  set (st1 := set_reading (closeTimer st) [] _).
  destruct (enqueue_idle accepts listeners k (payload d t) (len (data_bytes (payload d t))) st1 Hd Hp Hq Hli Hib) as (E1 & E2 & E3 & E4).
  assert (length (json_text (JObj o) ++ [10]) = S (length (json_text (JObj o)))) as -> by (rewrite length_app; cbn; lia).
  cbn [incoming_loop]. rewrite E3, E2. change (lineBuffer st1) with (@nil Z). change (index_of [10] []) with (@None nat). cbv match. change (VWS_MAX_FRAME_BYTES <? byte_length []) with false.
  cbv match. rewrite E1, E2, E3, E4. done.
Qed.

Definition idle_socket : websocket := websocket_init [] true.
Lemma websocket_roundtrip_witness :
  delivered (log_of (processIncoming (fun _ => w_more) (fun _ => [l_returns]) (json_text (message_frame (d_buffer [0; 255; 16]) t_binary) ++ [10]) idle_socket)) = [d_buffer [0; 255; 16]].
Proof.
  destruct (websocket_roundtrip (fun _ => w_more) (fun _ => [l_returns]) 1 (d_buffer [0; 255; 16]) t_binary idle_socket) as (H & _).
  - vm_compute. repeat constructor.
  - vm_compute. discriminate.
  - vm_compute. discriminate.
  - reflexivity.
  - reflexivity.
  - reflexivity.
  - reflexivity.
  - reflexivity.
  - rewrite H. reflexivity.
Defined.
Lemma websocket_close_ends_witness :
  destroyed (ws_run (fun _ => w_full) (fun _ => [l_returns]) (websocket_init [] true) ([we_closing (num_int 1000) []] ++ [we_send (d_string (js "a")) t_text] ++ we_timer :: [we_end])) = true.
Proof.
  destruct (websocket_close_ends (fun _ => w_full) (fun _ => [l_returns]) [] true [we_closing (num_int 1000) []] [we_send (d_string (js "a")) t_text] [we_end]) as [H _].
  - reflexivity.
  - exact H.
Defined.

(** ** Where the socket does not keep what it means to *)
Definition text (s : string) : ws_event := we_send (d_string (js s)) t_text.
#[local] Arguments text s%_string.
Definition full_at (l : list nat) (n : nat) : write_answer := if bool_decide (n ∈ l) then w_full else w_more.
Definition texts (log : list ws_output) : list jsval := map (fun f => match f with JObj [_; (_, v)] => v | _ => JUndef end) (messages log).
(** A message sent while the queue of the handshake is still being written
    overtakes the messages in that queue. *)
Example message_overtakes :
  texts (log_of (ws_run (full_at [1%nat]) (fun _ => [l_returns]) (websocket_init [] false)
    [text "a"; text "b"; we_accept None; we_microtask; text "c"; we_drain; we_microtask; we_microtask; we_microtask])) = [JStr (js "a"); JStr (js "c"); JStr (js "b")].
Proof. by vm_compute. Qed.
(** A message of that queue is written after the close frame. *)
Example message_after_close :
  let log := written (log_of (ws_run (full_at [1%nat]) (fun _ => [l_returns]) (websocket_init [] false)
    [text "a"; text "b"; we_accept None; we_microtask; we_closing (num_int 1000) []; we_drain; we_microtask; we_microtask])) in
  map kind_of log = [Some f_accept; Some f_text; Some f_close; Some f_text].
Proof. by vm_compute. Qed.
(** The accept frame is written after a close frame, and a ping before it. *)
Example accept_after_close :
  map kind_of (written (log_of (ws_run (fun _ => w_more) (fun _ => [l_returns]) (websocket_init [] false) [we_ping []; we_closing (num_int 1000) []; we_accept None]))) =
    [Some f_ping; Some f_close; Some f_accept].
Proof. by vm_compute. Qed.
(** The close frame of the peer leaves the messages that wait: their promises are
    never settled, whatever the stream does afterwards. *)
Example close_strands_message :
  let st := ws_run (full_at [0%nat]) (fun _ => [l_returns]) (websocket_init [] true)
    [text "a"; text "b"; we_data (json_text (close_frame 1000 []) ++ [10]); we_drain; we_microtask; we_microtask; we_end; we_close; we_microtask] in
  settled (log_of st) = [0%nat] /\ map we_promise (bq_items (outboundQueue st)) = [1%nat] /\ conts st = [].
Proof. by vm_compute. Qed.
(** Messages that came before the close frame are not delivered when a listener
    was still busy. *)
Example close_drops_message :
  delivered (log_of (ws_run (fun _ => w_more) (fun _ => [l_pending]) (websocket_init [] true)
    [we_data (json_text (message_frame (d_string (js "a")) t_text) ++ [10] ++ json_text (message_frame (d_string (js "b")) t_text) ++ [10] ++
       json_text (close_frame 1000 []) ++ [10]); we_listener None])) = [d_string (js "a")].
Proof. by vm_compute. Qed.
(** A second listener gets the message after 'close': the first one was awaited
    while the peer's close frame came. *)
Example message_after_closed :
  log_of (ws_run (fun _ => w_more) (fun _ => [l_pending; l_returns]) (websocket_init [] true)
    [we_data (json_text (message_frame (d_string (js "a")) t_text) ++ [10]); we_data (json_text (close_frame 1000 []) ++ [10]); we_listener None]) =
    [o_pause; o_message 0 (d_string (js "a")); o_closed 1000 []; o_write (close_frame 1000 []); o_end; o_message 0 (d_string (js "a"))].
Proof. by vm_compute. Qed.
(** A failed listener leaves the stream paused while messages wait, so that the
    answer to the close frame is not read. *)
Example failed_listener_stays_paused :
  let st := ws_run (fun _ => w_more) (fun _ => [l_pending]) (websocket_init [] true)
    [we_data (json_text (message_frame (d_string (js "a")) t_text) ++ [10] ++ json_text (message_frame (d_string (js "b")) t_text) ++ [10]);
     we_listener (Some (plainError "broken"))] in
  closeSent st = true /\ destroyed st = false /\ o_pause ∈ log_of st /\ o_resume ∉ log_of st.
Proof. split; [by vm_compute|]. split; [by vm_compute|]. vm_compute. set_solver. Qed.
