(* ===== verification/NodeRoutes.v ===== *)
(** The routes a broker of the Node package knows (verser2-guest-node
    [http2-verser-broker.ts]): its snapshot, the promises that wait for a domain,
    and the changes its listeners are told, from the control frames of the host.

    The listeners run inside the handling of a frame.  What they do is a parameter,
    given the changes they were told so far: the domains they begin to wait for, and
    an exception if one of them throws. *)
From S2P Require Import Prelude JsNum Utf8 Json Errors Routing RouteLifecycle LocalBroker StateError.

(** ** Control frames *)
Record broker_event := {
  be_type : jsstring; be_route : RoutedDomainRegistration; be_reason : option jsstring; be_generation : option VerserRouteGeneration;
}.
Inductive control_frame : Type :=
  | cf_routes (routes : list RoutedDomainRegistration)
  | cf_lifecycle (events : list broker_event)
  | cf_other.

(** A frame as the handler takes it.  [None]: a value whose fields do not have the
    types the source declares for them. *)
Definition frame_string (name : string) (o : list (jsstring * jsval)) : option jsstring :=
  match prop (js name) o with JStr s => Some s | _ => None end.
#[local] Arguments frame_string name%_string o.
Definition frame_optional (name : string) (o : list (jsstring * jsval)) : option (option jsstring) :=
  match prop (js name) o with JStr s => Some (Some s) | JUndef => Some None | _ => None end.
#[local] Arguments frame_optional name%_string o.
Definition frame_route (v : jsval) : option RoutedDomainRegistration :=
  match v with
  | JObj o =>
      t ← frame_string "targetId" o; d ← frame_string "domain" o;
      Some {| rd_targetId := t; rd_domain := d |}
  | _ => None
  end.
Definition frame_generation (v : jsval) : option (option VerserRouteGeneration) :=
  match v with
  | JUndef => Some None
  | JObj o =>
      g ← frame_optional "generationId" o; s ← frame_optional "sessionId" o;
      Some (Some {| rg_generationId := default [] g; rg_sessionId := s |})
  | _ => None
  end.
Definition frame_event (v : jsval) : option broker_event :=
  match v with
  | JObj o =>
      t ← frame_string "type" o; r ← frame_route v; reason ← frame_optional "reason" o;
      generation ← frame_generation (prop (js "generation") o);
      Some {| be_type := t; be_route := r; be_reason := reason; be_generation := generation |}
  | _ => None
  end.
Definition control_frame_of (frame : jsval) : option control_frame :=
  match frame with
  | JObj o =>
      match prop (js "routes") o with
      | JArr routes => cf_routes <$> mapM frame_route routes
      | _ =>
          match prop (js "type") o, prop (js "events") o with
          | JStr t, JArr events => if str_eqb t (js "route-lifecycle") then cf_lifecycle <$> mapM frame_event events else Some cf_other
          | _, _ => Some cf_other
          end
      end
  | _ => None
  end.

(** ** State *)
Record route_change := {
  ch_type : jsstring; ch_route : RoutedDomainRegistration; ch_reason : option jsstring; ch_generation : option VerserRouteGeneration;
}.
(** What a listener is told, and the snapshot it can read then. *)
Definition told : Type := list RoutedDomainRegistration * route_change.
Record route_view := {
  rv_routes : list RoutedDomainRegistration;
  rv_waiters : list (jsstring * list nat);      (** by domain; a promise is a number *)
  rv_nextWait : nat;
  rv_resolved : list nat;
  rv_told : list told;
}.
Definition rv_init : route_view := {| rv_routes := []; rv_waiters := []; rv_nextWait := 0; rv_resolved := []; rv_told := [] |}.
Definition with_snapshot (routes : list RoutedDomainRegistration) (v : route_view) : route_view :=
  {| rv_routes := routes; rv_waiters := rv_waiters v; rv_nextWait := rv_nextWait v; rv_resolved := rv_resolved v; rv_told := rv_told v |}.
Definition tell (c : route_change) (v : route_view) : route_view :=
  {| rv_routes := rv_routes v; rv_waiters := rv_waiters v; rv_nextWait := rv_nextWait v; rv_resolved := rv_resolved v;
     rv_told := rv_told v ++ [(rv_routes v, c)] |}.

(** ** Operations *)
Definition waitForRoute (domain : jsstring) (v : route_view) : route_view :=
  if existsb (fun route => str_eqb (rd_domain route) domain) (rv_routes v)
  then {| rv_routes := rv_routes v; rv_waiters := rv_waiters v; rv_nextWait := S (rv_nextWait v);
          rv_resolved := rv_resolved v ++ [rv_nextWait v]; rv_told := rv_told v |}
  else {| rv_routes := rv_routes v; rv_waiters := map_set domain (waiters_of domain (rv_waiters v) ++ [rv_nextWait v]) (rv_waiters v);
          rv_nextWait := S (rv_nextWait v); rv_resolved := rv_resolved v; rv_told := rv_told v |}.

Definition resolveRouteWaiters (domain : jsstring) (v : route_view) : route_view :=
  {| rv_routes := rv_routes v; rv_waiters := map_delete domain (rv_waiters v); rv_nextWait := rv_nextWait v;
     rv_resolved := rv_resolved v ++ waiters_of domain (rv_waiters v); rv_told := rv_told v |}.

(** [targetId\u0000domain] *)
Definition route_key (r : RoutedDomainRegistration) : jsstring := rd_targetId r ++ [0] ++ rd_domain r.
Definition routes_by_key (routes : list RoutedDomainRegistration) : list (jsstring * RoutedDomainRegistration) :=
  fold_left (fun m r => map_set (route_key r) r m) routes [].
Definition snapshot_change (type : string) (r : RoutedDomainRegistration) : route_change :=
  {| ch_type := js type; ch_route := r; ch_reason := None; ch_generation := None |}.
#[global] Arguments snapshot_change type%_string r.

Definition is_type (type : string) (e : broker_event) : bool := str_eqb (be_type e) (js type).
#[global] Arguments is_type type%_string e.
Definition apply_event (e : broker_event) (v : route_view) : route_view :=
  if is_type "added" e || is_type "changed" e then
    resolveRouteWaiters (rd_domain (be_route e)) (with_snapshot (put_route (be_route e) (rv_routes v)) v)
  else if is_type "removed" e then with_snapshot (drop_route (be_route e) (rv_routes v)) v
  else if is_type "degraded" e then with_snapshot (add_route (be_route e) (rv_routes v)) v
  else v.
Definition event_change (e : broker_event) : route_change :=
  {| ch_type := be_type e; ch_route := be_route e; ch_reason := be_reason e; ch_generation := be_generation e |}.

Section Broker.
Context (listener : list told -> list jsstring * option exn).

(** [routeChangeEmitter.emit('route-change', …)]: the exception of a listener
    leaves [emit]. *)
Definition emit_change (c : route_change) : sm route_view unit :=
  _ ← sm_modify (tell c);
  past ← sm_get rv_told;
  _ ← sm_modify (fun v => fold_left (fun v d => waitForRoute d v) (listener past).1 v);
  match (listener past).2 with Some e => sm_throw e | None => mret tt end.

Definition handleControlFrame (frame : control_frame) : sm route_view unit :=
  match frame with
  | cf_routes routes =>
      oldRoutes ← sm_get (fun v => routes_by_key (rv_routes v));
      let newRouteMap := routes_by_key routes in
      _ ← sm_modify (fun v => fold_left (fun v r => resolveRouteWaiters (rd_domain r) v) routes (with_snapshot routes v));
      _ ← sm_each (fun p => sm_when (negb (map_has p.1 newRouteMap)) (emit_change (snapshot_change "removed" p.2))) oldRoutes;
      sm_each (fun p => sm_when (negb (map_has p.1 oldRoutes)) (emit_change (snapshot_change "added" p.2))) newRouteMap
  | cf_lifecycle events => sm_each (fun e => _ ← sm_modify (apply_event e); emit_change (event_change e)) events
  | cf_other => mret tt
  end.
End Broker.

(** * Theory *)
(** ** Waiting promises *)
Record waits_ok (v : route_view) : Prop := {
  wo_wf : map_wf (rv_waiters v);
  wo_conserve : map_items (fun l : list nat => l) (rv_waiters v) ++ rv_resolved v ≡ₚ seq 0 (rv_nextWait v);
}.
(** Nobody waits for a domain that is in the snapshot. *)
Definition waits_served (v : route_view) : Prop := forall d, d ∈ map rd_domain (rv_routes v) -> map_get d (rv_waiters v) = None.

Lemma wait_keeps_routes d v : rv_routes (waitForRoute d v) = rv_routes v /\ rv_told (waitForRoute d v) = rv_told v.
Proof. unfold waitForRoute. by destruct (existsb _ _). Qed.
Lemma waits_keep_routes ds v : rv_routes (fold_left (fun v d => waitForRoute d v) ds v) = rv_routes v /\ rv_told (fold_left (fun v d => waitForRoute d v) ds v) = rv_told v.
Proof.
  revert v. induction ds as [|d ds IH]; intros v; [done|]. cbn [fold_left]. destruct (IH (waitForRoute d v)) as [-> ->]. apply wait_keeps_routes.
Qed.
Lemma wait_ok d v : waits_ok v -> waits_ok (waitForRoute d v).
Proof.
  intros [Hw Hc]. unfold waitForRoute. destruct (existsb _ _); split; cbn [rv_waiters rv_resolved rv_nextWait]; try done.
  - by rewrite app_assoc, Hc, seq_S.
  - by apply map_wf_set.
  - pose proof (pending_add d (rv_nextWait v) (rv_waiters v)) as Hp. change (concat (map snd ?m)) with (map_items (fun l : list nat => l) m) in Hp.
    rewrite Hp, seq_S, <- Hc. cbn [plus]. solve_Permutation.
Qed.
Lemma view_wait_served d v : waits_served v -> waits_served (waitForRoute d v).
Proof.
  intros H d'. destruct (wait_keeps_routes d v) as [-> _]. intros Hd. specialize (H d' Hd). unfold waitForRoute. destruct (existsb _ _) eqn:Ex; [done|].
  cbn [rv_waiters]. rewrite map_get_set. destruct (decide (d' = d)) as [->|]; [|done]. exfalso.
  rewrite <- not_true_iff_false, existsb_exists in Ex. apply Ex. apply list_elem_of_fmap in Hd as (r & -> & Hr).
  exists r. split; [by apply list_elem_of_In|apply str_eqb_refl].
Qed.
Lemma resolve_ok d v : waits_ok v -> waits_ok (resolveRouteWaiters d v).
Proof.
  intros [Hw Hc]. split; cbn [rv_waiters rv_resolved rv_nextWait resolveRouteWaiters]; [by apply map_wf_delete|]. rewrite <- Hc.
  rewrite <- (map_items_delete (fun l : list nat => l) d (rv_waiters v)) by done. unfold items_at, waiters_of.
  destruct (map_get d (rv_waiters v)); cbn [default from_option id]; solve_Permutation.
Qed.
Lemma resolve_get d v d' : map_get d' (rv_waiters (resolveRouteWaiters d v)) = if decide (d' = d) then None else map_get d' (rv_waiters v).
Proof. cbn. by rewrite map_get_delete. Qed.
Lemma resolve_all routes v : let v' := fold_left (fun v r => resolveRouteWaiters (rd_domain r) v) routes v in
  rv_routes v' = rv_routes v /\ rv_told v' = rv_told v /\ (waits_ok v -> waits_ok v') /\
  forall d, map_get d (rv_waiters v') = if decide (d ∈ map rd_domain routes) then None else map_get d (rv_waiters v).
Proof.
  revert v. induction routes as [|r routes IH]; intros v; cbn [fold_left map].
  - by split_and!.
  - destruct (IH (resolveRouteWaiters (rd_domain r) v)) as (-> & -> & H3 & H4). split_and!; try done; [intros H; by apply H3, resolve_ok|].
    intros d. rewrite H4, resolve_get. destruct (decide (d ∈ map rd_domain routes)) as [Hd|Hd].
    + by rewrite decide_True by (by right).
    + destruct (decide (d = rd_domain r)) as [->|Hne]; [by rewrite decide_True by left|]. rewrite decide_False; [done|]. set_solver.
Qed.
Lemma with_snapshot_ok routes v : waits_ok v -> waits_ok (with_snapshot routes v).
Proof. by intros []. Qed.
Lemma apply_event_ok e v : waits_ok v -> waits_ok (apply_event e v).
Proof. intros H. unfold apply_event. repeat case_match; try apply resolve_ok; try apply with_snapshot_ok; done. Qed.
Lemma apply_event_served e v : is_type "degraded" e = false -> waits_served v -> waits_served (apply_event e v).
Proof.
  intros Hd H. unfold apply_event. destruct (is_type "added" e || is_type "changed" e); [|destruct (is_type "removed" e); [|by rewrite Hd]].
  - intros d. cbn [rv_routes resolveRouteWaiters with_snapshot]. rewrite resolve_get. intros (r & -> & Hr)%list_elem_of_fmap.
    destruct (decide (rd_domain r = rd_domain (be_route e))); [done|]. apply put_route_elem in Hr as [Hr| ->]; [|done].
    apply H. by apply list_elem_of_fmap_2.
  - intros d. cbn [rv_routes rv_waiters with_snapshot]. intros (r & -> & [Hr _]%drop_route_elem)%list_elem_of_fmap. apply H. by apply list_elem_of_fmap_2.
Qed.

(** An invariant that every part of an operation keeps, also when it throws. *)
Abbreviation maintains I m := (keeps (fun s s' => I s -> I s') m).
Section Waiting.
Context (listener : list told -> list jsstring * option exn) (I : route_view -> Prop).
Context (I_wait : forall d v, I v -> I (waitForRoute d v)) (I_tell : forall c v, I v -> I (tell c v)).
#[local] Set Default Proof Using "Type*".
Lemma I_refl (s : route_view) : I s -> I s.
Proof. done. Qed.
Lemma I_trans (a b c : route_view) : (I a -> I b) -> (I b -> I c) -> I a -> I c.
Proof. auto. Qed.
Lemma emit_maintains c : maintains I (emit_change listener c).
Proof.
  unfold emit_change. apply (keeps_bind _ I_refl I_trans); [apply (keeps_modify _ I_refl I_trans); auto|]. intros _.
  apply (keeps_bind _ I_refl I_trans); [apply (keeps_get _ I_refl I_trans)|]. intros past. apply (keeps_bind _ I_refl I_trans).
  - apply (keeps_modify _ I_refl I_trans). generalize (listener past).1. intros ds. induction ds as [|d ds IH]; intros v H; [done|]. by apply IH, I_wait.
  - intros _. destruct (listener past).2; [apply (keeps_throw _ I_refl I_trans)|apply (keeps_ret _ I_refl I_trans)].
Qed.
Lemma frame_maintains frame :
  match frame with
  | cf_routes routes => forall v, I v -> I (fold_left (fun v r => resolveRouteWaiters (rd_domain r) v) routes (with_snapshot routes v))
  | cf_lifecycle events => forall e v, e ∈ events -> I v -> I (apply_event e v)
  | cf_other => True
  end -> maintains I (handleControlFrame listener frame).
Proof.
  destruct frame as [routes|events|]; intros H; cbn [handleControlFrame]; [| |apply (keeps_ret _ I_refl I_trans)].
  - apply (keeps_bind _ I_refl I_trans); [apply (keeps_get _ I_refl I_trans)|]. intros old. apply (keeps_bind _ I_refl I_trans); [by apply (keeps_modify _ I_refl I_trans)|]. intros _.
    apply (keeps_bind _ I_refl I_trans); [|intros _]; apply (keeps_each _ I_refl I_trans); intros p _; apply (keeps_when _ I_refl I_trans); intros _; apply emit_maintains.
  - apply (keeps_each _ I_refl I_trans). intros e He. apply (keeps_bind _ I_refl I_trans); [apply (keeps_modify _ I_refl I_trans); intros s Hs; by apply H|]. intros _. apply emit_maintains.
Qed.
End Waiting.

(** ** The snapshot replayed from what the listeners were told *)
Definition replay_change (s : list RoutedDomainRegistration) (c : route_change) : list RoutedDomainRegistration :=
  if str_eqb (ch_type c) (js "added") || str_eqb (ch_type c) (js "changed") || str_eqb (ch_type c) (js "degraded") then add_route (ch_route c) s
  else if str_eqb (ch_type c) (js "removed") then drop_route (ch_route c) s else s.
Definition replay (log : list told) : list RoutedDomainRegistration := fold_left replay_change (map snd log) [].
Lemma replay_snoc log t : replay (log ++ [t]) = replay_change (replay log) t.2.
Proof. unfold replay. by rewrite map_app, fold_left_app. Qed.
Lemma replay_added log s r x : x ∈ replay (log ++ [(s, snapshot_change "added" r)]) <-> x ∈ replay log \/ x = r.
Proof. rewrite replay_snoc. apply add_route_elem. Qed.
Lemma replay_removed log s r x : x ∈ replay (log ++ [(s, snapshot_change "removed" r)]) <-> x ∈ replay log /\ x <> r.
Proof. rewrite replay_snoc. apply drop_route_elem. Qed.

(** Ids without the separator have keys of their own. *)
Definition keyable (r : RoutedDomainRegistration) : Prop := 0 ∉ rd_targetId r.
Lemma route_key_inj r r' : keyable r -> keyable r' -> route_key r = route_key r' -> r = r'.
Proof.
  destruct r as [t d], r' as [t' d']. unfold keyable, route_key. cbn. revert t'. induction t as [|c t IH]; intros [|c' t'] H H' E; cbn [app] in E.
  - by injection E as ->.
  - injection E as Ec _. subst c'. exfalso. apply H'. by left.
  - injection E as Ec _. subst c. exfalso. apply H. by left.
  - injection E as Ec E. subst c'. apply not_elem_of_cons in H as [_ H], H' as [_ H'].
    specialize (IH t' H H' E). by injection IH as -> ->.
Qed.
Lemma by_key_elem routes : Forall keyable routes ->
  map_wf (routes_by_key routes) /\ (forall p, p ∈ routes_by_key routes -> p.1 = route_key p.2) /\ forall r, r ∈ (routes_by_key routes).*2 <-> r ∈ routes.
Proof.
  unfold routes_by_key. assert (forall routes m, Forall keyable routes -> map_wf m -> Forall (fun p => p.1 = route_key p.2 /\ keyable p.2) m ->
    let m' := fold_left (fun m r => map_set (route_key r) r m) routes m in
    map_wf m' /\ (forall p, p ∈ m' -> p.1 = route_key p.2) /\ forall r, r ∈ m'.*2 <-> r ∈ routes \/ r ∈ m.*2) as Hg.
  { clear. induction routes as [|r routes IH]; intros m Hk Hw Hm; cbn [fold_left].
    - rewrite Forall_forall in Hm. split_and!; [done|intros p Hp; by apply Hm|]. intros r. rewrite elem_of_nil. tauto.
    - apply Forall_cons in Hk as [Hr Hk]. edestruct (IH (map_set (route_key r) r m)) as (H1 & H2 & H3); [done|by apply map_wf_set|by apply map_set_Forall|].
      split_and!; [done|done|]. intros x. rewrite H3, elem_of_cons. assert (x ∈ (map_set (route_key r) r m).*2 <-> x = r \/ x ∈ m.*2) as ->; [|tauto].
      rewrite Forall_forall in Hm. rewrite !list_elem_of_fmap. split.
      + intros ([k y] & -> & Hy). apply map_elem_iff in Hy; [|by apply map_wf_set]. rewrite map_get_set in Hy. destruct (decide (k = route_key r)).
        * left. by injection Hy as ->.
        * right. exists (k, y). split; [done|]. by apply map_get_elem.
      + assert (forall k y, (k, y) ∈ map_set (route_key r) r m <-> (if decide (k = route_key r) then Some r else map_get k m) = Some y) as Hs.
        { intros k y. rewrite map_elem_iff by by apply map_wf_set. by rewrite map_get_set. }
        intros [->|([k y] & -> & Hy)].
        * exists (route_key r, r). split; [done|]. apply Hs. by rewrite decide_True.
        * destruct (Hm _ Hy) as [He Hk']. cbn in He, Hk'. exists (k, y). split; [done|]. apply Hs. destruct (decide (k = route_key r)) as [E|_].
          -- f_equal. apply route_key_inj; [done|done|by rewrite <- E].
          -- by apply map_elem_get. }
  intros H. destruct (Hg routes [] H (map_wf_nil) ltac:(constructor)) as (H1 & H2 & H3). split_and!; try done.
  intros r. rewrite H3. cbn. rewrite elem_of_nil. tauto.
Qed.
Lemma by_key_has routes r : Forall keyable routes -> keyable r -> map_has (route_key r) (routes_by_key routes) = true <-> r ∈ routes.
Proof.
  intros Hk Hr. destruct (by_key_elem routes Hk) as (Hw & Hp & He). unfold map_has. split.
  - destruct (map_get (route_key r) _) as [x|] eqn:E; [|done]. intros _. apply map_get_elem in E. pose proof (Hp _ E) as Ek. cbn in Ek.
    assert (x ∈ routes) as Hx by (apply He; apply list_elem_of_fmap; by exists (route_key r, x)).
    rewrite Forall_forall in Hk. assert (r = x) as -> by by apply route_key_inj; [|apply Hk|]. done.
  - intros Hin. apply He in Hin. apply list_elem_of_fmap in Hin as ([k x] & E & Hx). cbn in E. subst x. pose proof (Hp _ Hx) as Ek. cbn in Ek. subst k.
    by rewrite (map_elem_get _ _ _ Hw Hx).
Qed.
Lemma by_key_NoDup routes : Forall keyable routes -> NoDup (routes_by_key routes).*2.
Proof.
  intros Hk. destruct (by_key_elem routes Hk) as (Hw & Hp & _). unfold map_wf, map_keys in Hw.
  assert ((routes_by_key routes).*1 = route_key <$> (routes_by_key routes).*2) as E.
  { revert Hp. generalize (routes_by_key routes). intros m Hp. rewrite <- list_fmap_compose. apply list_fmap_ext. intros i x Hx. apply Hp. by eapply list_elem_of_lookup_2. }
  rewrite E in Hw. by apply NoDup_fmap_1 in Hw.
Qed.

(** The snapshot is what the changes add up to. *)
Definition synced (v : route_view) : Prop := forall r, r ∈ rv_routes v <-> r ∈ replay (rv_told v).
(** What a listener can read when it is told of a change. *)
Definition told_ok (t : told) : Prop :=
  (ch_type t.2 = js "removed" -> ch_route t.2 ∉ t.1) /\
  (ch_type t.2 = js "added" \/ ch_type t.2 = js "changed" \/ ch_type t.2 = js "degraded" -> ch_route t.2 ∈ t.1).
Definition frame_keyable (frame : control_frame) : Prop :=
  match frame with
  | cf_routes routes => Forall keyable routes
  | cf_lifecycle events => Forall (fun e => keyable (be_route e)) events
  | cf_other => True
  end.
Record view_ok (v : route_view) : Prop := { vo_keyable : Forall keyable (rv_routes v); vo_synced : synced v; vo_told : Forall told_ok (rv_told v) }.

Lemma snapshot_told_ok routes r : (r ∉ routes -> told_ok (routes, snapshot_change "removed" r)) /\ (r ∈ routes -> told_ok (routes, snapshot_change "added" r)).
Proof. split; intros H; split; cbn; try done; intros [?|[?|?]]; done. Qed.
Lemma apply_event_spec e v r : r ∈ rv_routes (apply_event e v) <-> r ∈ replay_change (rv_routes v) (event_change e).
Proof.
  unfold apply_event, replay_change, event_change, is_type. cbn [ch_type ch_route].
  destruct (str_eqb (be_type e) (js "added")); cbn [orb]; [cbn; by rewrite put_route_elem, add_route_elem|].
  destruct (str_eqb (be_type e) (js "changed")); cbn [orb]; [cbn; by rewrite put_route_elem, add_route_elem|].
  destruct (str_eqb (be_type e) (js "removed")) eqn:Er.
  - apply str_eqb_eq in Er. rewrite Er. done.
  - by destruct (str_eqb (be_type e) (js "degraded")).
Qed.
Lemma replay_change_ext s s' c r : (forall x, x ∈ s <-> x ∈ s') -> r ∈ replay_change s c <-> r ∈ replay_change s' c.
Proof.
  intros H. unfold replay_change. destruct (_ || _ || _); [by rewrite !add_route_elem, H|]. destruct (str_eqb _ _); [by rewrite !drop_route_elem, H|done].
Qed.
Lemma event_told_ok e v : told_ok (rv_routes (apply_event e v), event_change e).
Proof.
  unfold told_ok, event_change. cbn [fst snd ch_type ch_route]. rewrite apply_event_spec. unfold replay_change, event_change. cbn [ch_type ch_route]. split.
  - intros ->. change (be_route e ∉ drop_route (be_route e) (rv_routes v)). rewrite drop_route_elem. tauto.
  - intros [-> | [-> | -> ] ]; change (be_route e ∈ add_route (be_route e) (rv_routes v)); rewrite add_route_elem; by right.
Qed.

Section Quiet.
Context (listener : list told -> list jsstring * option exn).
Context (quiet : forall past, (listener past).2 = None).
#[local] Set Default Proof Using "Type*".

Lemma emit_runs c v (Q : unit -> route_view -> Prop) :
  (forall v', rv_routes v' = rv_routes v -> rv_told v' = rv_told v ++ [(rv_routes v, c)] -> Q tt v') -> runs (emit_change listener c) v Q.
Proof.
  intros HQ. unfold emit_change. apply runs_bind, runs_modify. cbn beta. apply runs_bind, runs_get. cbn beta. apply runs_bind, runs_modify. cbn beta.
  rewrite quiet. apply runs_ret. destruct (waits_keep_routes (listener (rv_told (tell c v))).1 (tell c v)) as [H1 H2]. by apply HQ.
Qed.

(** One pass over the keys of a snapshot, telling of those the other lacks. *)
Lemma diff_runs type (other : list (jsstring * RoutedDomainRegistration)) items v routes (I : list RoutedDomainRegistration -> list told -> Prop) (Q : unit -> route_view -> Prop) :
  rv_routes v = routes -> I items.*2 (rv_told v) ->
  (forall p k log, p ∈ items -> I (p.2 :: k) log -> if map_has p.1 other then I k log else I k (log ++ [(routes, snapshot_change type p.2)])) ->
  (forall v', rv_routes v' = routes -> I [] (rv_told v') -> Q tt v') ->
  runs (sm_each (fun p => sm_when (negb (map_has p.1 other)) (emit_change listener (snapshot_change type p.2))) items) v Q.
Proof.
  intros Hr Hi Hs HQ. apply (runs_each _ _ (fun k v' => rv_routes v' = routes /\ I k.*2 (rv_told v') /\ forall p, p ∈ k -> p ∈ items)).
  - done.
  - intros p k v' (H1 & H2 & H3). specialize (Hs p k.*2 (rv_told v')). apply runs_when.
    + intros Hm%negb_true_iff. rewrite Hm in Hs. apply emit_runs. intros v'' E1 E2. rewrite E2, E1, H1. split; [done|]. split; [|intros x Hx; apply H3; by right].
      apply Hs; [apply H3; by left|done].
    + intros Hm%negb_false_iff. rewrite Hm in Hs. split; [done|]. split; [|intros x Hx; apply H3; by right]. apply Hs; [apply H3; by left|done].
  - intros v' (H1 & H2 & _). by apply HQ.
Qed.

Lemma frame_runs frame v : view_ok v -> frame_keyable frame ->
  runs (handleControlFrame listener frame) v (fun _ v' => view_ok v' /\ match frame with cf_routes routes => rv_routes v' = routes | _ => True end).
Proof.
  intros [Hk Hs Ht] Hf. destruct frame as [routes|events|]; cbn [handleControlFrame]; [| |by apply runs_ret].
  - apply runs_bind, runs_get. cbn beta. set (old := rv_routes v) in *. apply runs_bind, runs_modify. cbn beta.
    destruct (resolve_all routes (with_snapshot routes v)) as (Er & El & _). cbn [rv_routes rv_told with_snapshot] in Er, El.
    pose proof (by_key_elem old Hk) as (_ & Hpo & Heo). pose proof (by_key_elem routes Hf) as (_ & Hpn & Hen).
    assert (forall p, p ∈ routes_by_key old -> map_has p.1 (routes_by_key routes) = true <-> p.2 ∈ routes) as Hnew.
    { intros p Hp. rewrite (Hpo p Hp). apply by_key_has; [done|]. rewrite Forall_forall in Hk. apply Hk, Heo, list_elem_of_fmap. by exists p. }
    assert (forall p, p ∈ routes_by_key routes -> map_has p.1 (routes_by_key old) = true <-> p.2 ∈ old) as Hold.
    { intros p Hp. rewrite (Hpn p Hp). apply by_key_has; [done|]. cbn in Hf. rewrite Forall_forall in Hf. apply Hf, Hen, list_elem_of_fmap. by exists p. }
    apply runs_bind.
    apply (diff_runs _ _ _ _ routes (fun k log => NoDup k /\ (forall r, r ∈ replay log <-> r ∈ old /\ (r ∈ k \/ r ∈ routes)) /\ Forall told_ok log)).
    { done. }
    { rewrite El. split; [by apply by_key_NoDup|]. split; [|done]. intros r. rewrite <- (Hs r), Heo. tauto. }
    { intros p k log Hp (Hn & Hr & Hl). apply NoDup_cons in Hn as [Hpk Hn]. specialize (Hnew p Hp). destruct (map_has _ _).
      - split; [done|]. split; [|done]. intros r. rewrite Hr, elem_of_cons. assert (r = p.2 -> r ∈ routes) by (intros ->; by apply Hnew). tauto.
      - assert (p.2 ∉ routes) as Hpr by (intros H%Hnew; done). split; [done|]. split.
        + intros r. rewrite replay_removed, Hr, elem_of_cons. assert (r = p.2 -> r ∉ k /\ r ∉ routes) by by intros ->. tauto.
        + apply Forall_app. split; [done|]. constructor; [by apply snapshot_told_ok|constructor]. }
    intros v1 Er1 (_ & Hr1 & Hl1).
    apply (diff_runs _ _ _ _ routes (fun k log => NoDup k /\ (forall r, r ∈ k -> r ∈ routes) /\ (forall r, r ∈ replay log <-> r ∈ routes /\ (r ∈ old \/ r ∉ k)) /\ Forall told_ok log)).
    { done. }
    { split; [by apply by_key_NoDup|]. split; [intros r; by rewrite Hen|]. split; [|done]. intros r. rewrite Hr1, Hen, elem_of_nil. tauto. }
    { intros p k log Hp (Hn & Hin & Hr & Hl). apply NoDup_cons in Hn as [Hpk Hn]. specialize (Hold p Hp).
      assert (p.2 ∈ routes) as Hpr by (apply Hin; by left). assert (forall r, r ∈ k -> r ∈ routes) as Hin' by (intros r Hrk; apply Hin; by right).
      destruct (map_has _ _).
      - split_and!; try done. intros r. rewrite Hr, not_elem_of_cons. assert (r = p.2 -> r ∈ old) by (intros ->; by apply Hold).
        destruct (decide (r = p.2)); tauto.
      - split_and!; try done.
        + intros r. rewrite replay_added, Hr, not_elem_of_cons. destruct (decide (r = p.2)) as [->|]; tauto.
        + apply Forall_app. split; [done|]. constructor; [by apply snapshot_told_ok|constructor]. }
    intros v2 Er2 (_ & _ & Hr2 & Hl2). split; [|done]. split; [by rewrite Er2| |done]. intros r. rewrite Er2, Hr2, elem_of_nil. tauto.
  - cbn in Hf. apply (runs_each _ _ (fun k v' => view_ok v' /\ Forall (fun e => keyable (be_route e)) k)); [done| |by intros v' [H _]].
    intros e k v' [[Hk' Hs' Ht'] Hke]. apply Forall_cons in Hke as [He Hke]. apply runs_bind, runs_modify. cbn beta. apply emit_runs.
    intros v'' E1 E2. split; [|done].
    assert (rv_told (apply_event e v') = rv_told v') as Etold by (unfold apply_event; repeat case_match; done).
    rewrite Etold in E2. split.
    + rewrite E1. apply Forall_forall. intros r Hr. apply apply_event_spec in Hr. unfold replay_change in Hr. cbn [event_change ch_type ch_route] in Hr.
      rewrite Forall_forall in Hk'. destruct (_ || _ || _); [|destruct (str_eqb _ _)].
      * apply add_route_elem in Hr as [Hr| ->]; [by apply Hk'|done].
      * apply drop_route_elem in Hr as [Hr _]. by apply Hk'.
      * by apply Hk'.
    + intros r. rewrite E1, E2, replay_snoc, apply_event_spec. cbn [snd]. by apply replay_change_ext.
    + rewrite E2. apply Forall_app. split; [done|]. constructor; [apply event_told_ok|constructor].
Qed.
End Quiet.

Lemma view_init : view_ok rv_init.
Proof. by split; [constructor| |constructor]. Qed.

(** ** Runs *)
Inductive route_op : Type := ro_wait (domain : jsstring) | ro_frame (frame : control_frame).
Section Runs.
Context (listener : list told -> list jsstring * option exn).
Definition view_step (v : route_view) (op : route_op) : route_view :=
  match op with ro_wait d => waitForRoute d v | ro_frame frame => (handleControlFrame listener frame v).2 end.
Definition view_run (ops : list route_op) : route_view := fold_left view_step ops rv_init.

Lemma step_waits op v : waits_ok v -> waits_ok (view_step v op).
Proof.
  intros H. destruct op as [d|frame]; cbn [view_step]; [by apply wait_ok|]. revert H. apply (frame_maintains listener waits_ok wait_ok).
  - by intros c v' [].
  - destruct frame; [|intros e v' _; apply apply_event_ok|done]. intros v' H. by apply resolve_all, with_snapshot_ok.
Qed.
Definition not_degraded (op : route_op) : Prop := match op with ro_frame (cf_lifecycle events) => Forall (fun e => is_type "degraded" e = false) events | _ => True end.
Lemma step_served op v : not_degraded op -> waits_served v -> waits_served (view_step v op).
Proof.
  intros Hd H. destruct op as [d|frame]; cbn [view_step]; [by apply view_wait_served|]. revert H. apply (frame_maintains listener waits_served view_wait_served); [done|].
  destruct frame as [routes|events|]; [| |done].
  - intros v' _ d. destruct (resolve_all routes (with_snapshot routes v')) as (-> & _ & _ & Hg). rewrite Hg. cbn [rv_routes with_snapshot]. intros Hin. by rewrite decide_True.
  - intros e v' He. apply apply_event_served. cbn in Hd. rewrite Forall_forall in Hd. by apply Hd.
Qed.
Lemma run_waits ops : forall v, waits_ok v -> waits_ok (fold_left view_step ops v) /\ (Forall not_degraded ops -> waits_served v -> waits_served (fold_left view_step ops v)).
Proof.
  induction ops as [|op ops IH]; intros v H; [done|]. cbn [fold_left]. destruct (IH _ (step_waits op v H)) as [H1 H2]. split; [done|].
  intros [Hd Hds]%Forall_cons Hs. apply H2; [done|]. by apply step_served.
Qed.
Lemma run_view ops : (forall past, (listener past).2 = None) -> Forall (fun op => match op with ro_frame f => frame_keyable f | _ => True end) ops ->
  forall v, view_ok v -> view_ok (fold_left view_step ops v).
Proof.
  intros Hq. induction ops as [|op ops IH]; intros Hk v H; [done|]. apply Forall_cons in Hk as [Hf Hk]. cbn [fold_left]. apply IH; [done|].
  destruct op as [d|frame]; cbn [view_step].
  - destruct H as [H1 H2 H3]. unfold synced in H2. destruct (wait_keeps_routes d v) as [E1 E2]. split; unfold synced; by rewrite ?E1, ?E2.
  - destruct (frame_runs listener Hq frame v H Hf) as (a & v' & E & H' & _). by rewrite E.
Qed.
End Runs.

(** C20: a broker of the Node package, whatever control frames it reads, as long as
    the target ids and domains in them hold no U+0000 (the separator of the key by
    which the code compares routes, lemma [SampleRoutes.keys_collide]), and
    whatever its listeners wait for, as long as none throws: the changes the
    listeners were told, played from the empty snapshot, give exactly the routes
    the broker knows; at every change the snapshot already shows it; and right
    after a snapshot frame the routes are the host's. *)
Theorem node_routes_replayed listener ops routes :
  (forall past, (listener past).2 = None) ->
  Forall (fun op => match op with ro_frame f => frame_keyable f | _ => True end) ops -> Forall keyable routes ->
  let v := view_run listener ops in
  (forall r, r ∈ rv_routes v <-> r ∈ replay (rv_told v)) /\ Forall told_ok (rv_told v) /\
  rv_routes (view_run listener (ops ++ [ro_frame (cf_routes routes)])) = routes.
Proof.
  intros Hq Hk Hr v. pose proof (run_view listener ops Hq Hk rv_init view_init) as Hv. fold (view_run listener ops) in Hv. fold v in Hv.
  pose proof (vo_synced _ Hv) as Hs. pose proof (vo_told _ Hv) as Ht. split_and!; [done|done|].
  unfold view_run. rewrite fold_left_app. fold (view_run listener ops). fold v. cbn [fold_left view_step].
  destruct (frame_runs listener Hq (cf_routes routes) v Hv Hr) as (a & v' & E & _ & H'). by rewrite E.
Qed.

(** The promises of [waitForRoute], whatever the listeners do: each is resolved at
    most once or pending; unless the host marked a route degraded, nobody waits for
    a domain that is in the snapshot. *)
Theorem node_waits_correct listener ops :
  let v := view_run listener ops in
  NoDup (rv_resolved v) /\
  (forall w, (w < rv_nextWait v)%nat <-> w ∈ map_items (fun l : list nat => l) (rv_waiters v) \/ w ∈ rv_resolved v) /\
  (forall w, w ∈ map_items (fun l : list nat => l) (rv_waiters v) -> w ∉ rv_resolved v) /\
  (Forall not_degraded ops -> forall d, d ∈ map rd_domain (rv_routes v) -> waiters_of d (rv_waiters v) = []).
Proof.
  intros v. destruct (run_waits listener ops rv_init) as [[Hw Hc] Hs]; [split; [constructor|done]|]. fold (view_run listener ops) in Hw, Hc, Hs. fold v in Hw, Hc, Hs.
  assert (NoDup (map_items (fun l : list nat => l) (rv_waiters v) ++ rv_resolved v)) as Hn by (rewrite Hc; apply NoDup_seq).
  apply NoDup_app in Hn as (_ & Hd & Hn). split_and!; [done| |done|].
  - intros w. rewrite <- elem_of_app, Hc, elem_of_seq. lia.
  - intros H d Hd'. unfold waiters_of. by rewrite (Hs H ltac:(by intros ? ?%elem_of_nil) d Hd').
Qed.

(** ** The frames of the host *)
Lemma frame_route_json r : frame_route (route_json r) = Some r.
Proof. by destruct r. Qed.
Lemma mapM_json {A} (f : jsval -> option A) (g : A -> jsval) l : (forall x, f (g x) = Some x) -> mapM f (map g l) = Some l.
Proof. intros H. induction l as [|x l IH]; [done|]. cbn. rewrite H. cbn. by rewrite IH. Qed.
Definition event_of (e : VerserRouteLifecycleEvent) : broker_event :=
  {| be_type := event_type_name (le_type e); be_route := event_route e; be_reason := event_reason_name <$> le_reason e; be_generation := le_generation e |}.
Lemma frame_event_json e : frame_event (event_json e) = Some (event_of e).
Proof. destruct e as [t i d [r|] [[g [s|]]|]]; reflexivity. Qed.
(** What the host writes for its brokers is what they read. *)
Lemma routes_frame_read routes : control_frame_of (createBrokerRoutesControlFrame routes) = Some (cf_routes routes).
Proof. unfold control_frame_of, createBrokerRoutesControlFrame. change (prop (js "routes") _) with (JArr (map route_json routes)). cbv match. by rewrite (mapM_json _ _ _ frame_route_json). Qed.
Lemma lifecycle_frame_read `{Platform} fresh inputs frame events : createBrokerRouteLifecycleControlFrame fresh inputs = Ok frame ->
  map_res (createRouteLifecycleEvent fresh) inputs = Ok events -> control_frame_of frame = Some (cf_lifecycle (map event_of events)).
Proof.
  unfold createBrokerRouteLifecycleControlFrame. intros E Ees. rewrite Ees in E. cbn [mbind result_bind] in E. injection E as <-.
  change (cf_lifecycle <$> mapM frame_event (map event_json events) = Some (cf_lifecycle (map event_of events))).
  assert (mapM frame_event (map event_json events) = Some (map event_of events)) as ->; [|done].
  clear. induction events as [|e events IH]; [done|]. cbn [map]. unfold mapM in *. by rewrite frame_event_json, IH.
Qed.

(** ** Witnesses and observations *)
Module SampleRoutes.
Definition route (t d : string) : RoutedDomainRegistration := {| rd_targetId := js t; rd_domain := js d |}.
Definition silent (past : list told) : list jsstring * option exn := ([], None).
Definition event (t : string) (r : RoutedDomainRegistration) : broker_event := {| be_type := js t; be_route := r; be_reason := None; be_generation := None |}.
(** Two routes with one key: no listener is told that one replaced the other. *)
Example keys_collide :
  let a := {| rd_targetId := js "a" ++ [0] ++ js "b"; rd_domain := js "c" |} in
  let b := {| rd_targetId := js "a"; rd_domain := js "b" ++ [0] ++ js "c" |} in
  let v := view_run silent [ro_frame (cf_routes [a]); ro_frame (cf_routes [b])] in
  rv_routes v = [b] /\ replay (rv_told v) = [a].
Proof. by vm_compute. Qed.
Definition ops : list route_op :=
  [ro_wait (js "b.example"); ro_frame (cf_routes [route "g" "a.example"]); ro_frame (cf_lifecycle [event "removed" (route "g" "a.example"); event "added" (route "h" "b.example")])].
Lemma node_routes_replayed_witness :
  rv_routes (view_run silent ops) = [route "h" "b.example"] /\ rv_resolved (view_run silent ops) = [0%nat] /\
  (forall r, r ∈ rv_routes (view_run silent ops) <-> r ∈ replay (rv_told (view_run silent ops))).
Proof.
  split; [by vm_compute|]. split; [by vm_compute|].
  assert (forall t d, mem_str [0] [js t] = false -> forallb (fun c => negb (c =? 0)) (js t) = true -> keyable (route t d)) as Hk.
  { intros t d _ H. unfold keyable. cbn. intros Hin. apply list_elem_of_In in Hin. rewrite forallb_forall in H. by specialize (H 0 Hin). }
  refine (proj1 (node_routes_replayed silent ops [] (fun _ => eq_refl) _ ltac:(constructor))).
  unfold ops. repeat constructor; cbn [frame_keyable]; repeat constructor; by apply Hk.
Defined.

(** A route marked degraded enters the snapshot, and whoever waits for its domain
    stays pending although a new wait is resolved at once. *)
Example degraded_strands :
  let v := view_run silent [ro_wait (js "a.example"); ro_frame (cf_lifecycle [event "degraded" (route "g" "a.example")]); ro_wait (js "a.example")] in
  rv_resolved v = [1%nat] /\ waiters_of (js "a.example") (rv_waiters v) = [0%nat].
Proof. by vm_compute. Qed.
(** A listener that throws hides the rest of a frame: the snapshot has two routes,
    the listeners were told of one. *)
Definition throwing (past : list told) : list jsstring * option exn := ([], Some (EngineErr TypeError [])).
Example listener_hides_routes :
  let v := view_run throwing [ro_frame (cf_routes [route "g" "a.example"; route "g" "b.example"])] in
  (length (rv_routes v), length (rv_told v)) = (2%nat, 1%nat).
Proof. by vm_compute. Qed.
End SampleRoutes.
