(* ===== verification/NodeBroker.v ===== *)
(** The connection of a broker of the Node package (verser2-guest-node
    [http2-verser-broker.ts]): connecting, registering, reading control frames, and
    closing.

    A call of [connect] or [close] is known by a number, in order; the session a
    [connect] opens has the number of its call.  What the sessions and streams do
    are events; [connect] is cut at its two [await]s. *)
From S2P Require Import Prelude JsNum Utf8 Json Errors Headers Vws Routing StateError WaitQueue NodeRoutes.

Record broker_options := { bo_brokerId : jsstring; bo_brokerDomain : option jsstring }.

Inductive connection_effect : Type :=
  | nx_open (s : nat)
  | nx_register (s : nat) (request : jsval)      (** the registration is written and the stream ended *)
  | nx_destroy (s : nat)
  | nx_end_control (s : nat)                     (** [controlStream.close()] *)
  | nx_destroy_control (s : nat)                 (** the frame reader gives up *)
  | nx_settled (call : nat) (r : result exn unit)
  | nx_uncaught (e : exn).                       (** an 'error' event without a listener *)

Record node_broker := {
  nb_session : option nat;
  nb_control : option nat;                 (** [controlStream], by its session *)
  nb_view : route_view;
  nb_connecting : list nat;                (** calls that await 'connect' *)
  nb_registering : list nat;               (** calls in [waitForRegistration], in the order of their 'frame' listeners *)
  nb_closing : list (nat * nat);           (** [close] calls that await the end of a session *)
  nb_closed : list nat; nb_destroyed : list nat;   (** the flags of the sessions *)
  nb_over : list nat;                      (** sessions whose 'close' was emitted *)
  nb_streams : list nat;                   (** sessions whose control stream is open *)
  nb_next : nat;
  nb_log : list connection_effect;
}.
Definition nb_init : node_broker :=
  {| nb_session := None; nb_control := None; nb_view := rv_init; nb_connecting := []; nb_registering := []; nb_closing := []; nb_closed := [];
     nb_destroyed := []; nb_over := []; nb_streams := []; nb_next := 0; nb_log := [] |}.
Definition with_link (session control : option nat) (st : node_broker) : node_broker :=
  {| nb_session := session; nb_control := control; nb_view := nb_view st; nb_connecting := nb_connecting st; nb_registering := nb_registering st;
     nb_closing := nb_closing st; nb_closed := nb_closed st; nb_destroyed := nb_destroyed st; nb_over := nb_over st; nb_streams := nb_streams st;
     nb_next := nb_next st; nb_log := nb_log st |}.
Definition with_view (v : route_view) (st : node_broker) : node_broker :=
  {| nb_session := nb_session st; nb_control := nb_control st; nb_view := v; nb_connecting := nb_connecting st; nb_registering := nb_registering st;
     nb_closing := nb_closing st; nb_closed := nb_closed st; nb_destroyed := nb_destroyed st; nb_over := nb_over st; nb_streams := nb_streams st;
     nb_next := nb_next st; nb_log := nb_log st |}.
Definition with_calls (connecting registering : list nat) (closing : list (nat * nat)) (next : nat) (st : node_broker) : node_broker :=
  {| nb_session := nb_session st; nb_control := nb_control st; nb_view := nb_view st; nb_connecting := connecting; nb_registering := registering;
     nb_closing := closing; nb_closed := nb_closed st; nb_destroyed := nb_destroyed st; nb_over := nb_over st; nb_streams := nb_streams st;
     nb_next := next; nb_log := nb_log st |}.
Definition with_ends (closed destroyed over streams : list nat) (st : node_broker) : node_broker :=
  {| nb_session := nb_session st; nb_control := nb_control st; nb_view := nb_view st; nb_connecting := nb_connecting st; nb_registering := nb_registering st;
     nb_closing := nb_closing st; nb_closed := closed; nb_destroyed := destroyed; nb_over := over; nb_streams := streams;
     nb_next := nb_next st; nb_log := nb_log st |}.
Definition nb_do (l : list connection_effect) (st : node_broker) : node_broker :=
  {| nb_session := nb_session st; nb_control := nb_control st; nb_view := nb_view st; nb_connecting := nb_connecting st; nb_registering := nb_registering st;
     nb_closing := nb_closing st; nb_closed := nb_closed st; nb_destroyed := nb_destroyed st; nb_over := nb_over st; nb_streams := nb_streams st;
     nb_next := nb_next st; nb_log := nb_log st ++ l |}.
Definition not_of (s : nat) (l : list nat) : list nat := filter (fun x => x <> s) l.

Section Broker.
Context {P : Platform} (options : broker_options) (listener : list told -> list jsstring * option exn).

(** The session of a failed [connect] is destroyed and forgotten. *)
Definition forget (s : nat) (st : node_broker) : node_broker :=
  if bool_decide (nb_session st = Some s) then with_link None None st else st.
Definition connect_failed (s : nat) (e : exn) (st : node_broker) : node_broker :=
  let st := with_calls (not_of s (nb_connecting st)) (not_of s (nb_registering st)) (nb_closing st) (nb_next st) st in
  let st := with_ends (nb_closed st) (set_add s (nb_destroyed st)) (nb_over st) (nb_streams st) st in
  nb_do [nx_destroy s; nx_settled s (Throw e)] (forget s st).

(** [connect], up to its first [await].  [opened]: reading the TLS options and
    [http2.connect] may throw. *)
Definition usable (st : node_broker) : bool :=
  match nb_session st with Some s => negb (set_has s (nb_closed st)) && negb (set_has s (nb_destroyed st)) | None => false end.
Definition connect (opened : result exn unit) (st : node_broker) : node_broker :=
  let call := nb_next st in
  let st := with_calls (nb_connecting st) (nb_registering st) (nb_closing st) (S call) st in
  if usable st then nb_do [nx_settled call (Ok tt)] st
  else match opened with
       | Throw e => nb_do [nx_settled call (Throw e)] st
       | Ok _ =>
           let st := with_calls (nb_connecting st ++ [call]) (nb_registering st) (nb_closing st) (nb_next st) st in
           nb_do [nx_open call] (with_link (Some call) (nb_control st) st)
       end.

(** [register]: [requested] is what [session.request] did. *)
Definition registered_domain : result exn (option jsstring) :=
  match bo_brokerDomain options with
  | None => Ok None
  | Some d =>
      let brokerDomain := normalizeVerserRouteDomain d in
      if len brokerDomain =? 0 then Throw (verr invalid_registration "brokerDomain must be a non-empty domain" [(js "brokerId", JStr (bo_brokerId options))])
      else Ok (Some brokerDomain)
  end.
Definition registration_json (brokerDomain : option jsstring) : jsval :=
  JObj ([(js "peerId", JStr (bo_brokerId options)); (js "role", JStr (js "broker"))] ++
        match brokerDomain with Some d => [(js "brokerDomain", JStr d)] | None => [] end).
Definition register (s : nat) (requested : result exn unit) (st : node_broker) : node_broker :=
  match requested with
  | Throw e => connect_failed s e st
  | Ok _ =>
      let st := with_ends (nb_closed st) (nb_destroyed st) (nb_over st) (set_add s (nb_streams st)) (with_link (nb_session st) (Some s) st) in
      match registered_domain with
      | Throw e => connect_failed s e st
      | Ok d => nb_do [nx_register s (registration_json d)] (with_calls (not_of s (nb_connecting st)) (nb_registering st ++ [s]) (nb_closing st) (nb_next st) st)
      end
  end.
Definition registration_closed : exn := verr invalid_registration "Broker registration stream closed" [].

(** A control frame, on whatever session: handled, then ['frame'] is emitted to
    every registration that waits. *)
Definition frame_read (s : nat) (frame : control_frame) (st : node_broker) : node_broker :=
  let '(r, v) := handleControlFrame listener frame (nb_view st) in
  let st := with_view v st in
  match r with
  | Ok _ => nb_do (map (fun c => nx_settled c (Ok tt)) (nb_registering st)) (with_calls (nb_connecting st) [] (nb_closing st) (nb_next st) st)
  | Throw _ => nb_do [nx_destroy_control s] (with_ends (nb_closed st) (nb_destroyed st) (nb_over st) (not_of s (nb_streams st)) st)
  end.

(** [close]: [already] is [session.closed] after the session was destroyed. *)
Definition close (already : bool) (st : node_broker) : node_broker :=
  let call := nb_next st in
  let st := with_calls (nb_connecting st) (nb_registering st) (nb_closing st) (S call) st in
  match nb_session st with
  | None => nb_do [nx_settled call (Ok tt)] st
  | Some s =>
      let st := nb_do (match nb_control st with Some c => [nx_end_control c] | None => [] end ++ [nx_destroy s]) (with_link None (nb_control st) st) in
      let st := with_ends (nb_closed st) (set_add s (nb_destroyed st)) (nb_over st) (nb_streams st) st in
      if already || set_has s (nb_closed st) then nb_do [nx_settled call (Ok tt)] st
      else with_calls (nb_connecting st) (nb_registering st) (nb_closing st ++ [(call, s)]) (nb_next st) st
  end.
Definition settle_closes (done : nat * nat -> bool) (st : node_broker) : node_broker :=
  nb_do (map (fun p => nx_settled p.1 (Ok tt)) (filter (fun p => done p = true) (nb_closing st)))
    (with_calls (nb_connecting st) (nb_registering st) (filter (fun p => done p = false) (nb_closing st)) (nb_next st) st).

(** The ['close'] event of a session: the listeners of [connect], of the
    registration, and of [close]. *)
Definition session_closed (s : nat) (st : node_broker) : node_broker :=
  let st := forget s (with_ends (set_add s (nb_closed st)) (set_add s (nb_destroyed st)) (set_add s (nb_over st)) (not_of s (nb_streams st)) st) in
  let st := if set_has s (nb_registering st) then connect_failed s registration_closed st else st in
  settle_closes (fun p => bool_decide (p.2 = s)) st.

(** ** Steps *)
Inductive link_event : Type :=
  | nv_connect (opened : result exn unit)
  | nv_connected (s : nat) (requested : result exn unit)
  | nv_session_error (s : nat) (e : exn) | nv_session_close (s : nat)
  | nv_stream_error (s : nat) (e : exn) | nv_stream_close (s : nat)
  | nv_frame (s : nat) (frame : control_frame)
  | nv_closing (s : nat) | nv_destroying (s : nat)     (** the flags of a session change *)
  | nv_close (already : bool) | nv_close_timeout (call : nat)
  | nv_wait (domain : jsstring).
Definition error_event (s : nat) (e : exn) (listening : list nat) (st : node_broker) : node_broker :=
  if set_has s listening then connect_failed s e st else nb_do [nx_uncaught e] st.
(** The session an event is of. *)
Definition event_session (ev : link_event) : option nat :=
  match ev with
  | nv_connected s _ | nv_session_error s _ | nv_session_close s | nv_stream_error s _ | nv_stream_close s | nv_frame s _ | nv_closing s | nv_destroying s => Some s
  | _ => None
  end.
Definition nb_handle (st : node_broker) (ev : link_event) : node_broker :=
  match ev with
  | nv_connect opened => connect opened st
  | nv_connected s requested => if set_has s (nb_connecting st) && negb (set_has s (nb_over st)) then register s requested st else st
  | nv_session_error s e => error_event s e (nb_connecting st ++ nb_registering st) st
  | nv_session_close s => if set_has s (nb_over st) then st else session_closed s st
  | nv_stream_error s e => error_event s e (nb_registering st) st
  | nv_stream_close s =>
      let st := with_ends (nb_closed st) (nb_destroyed st) (nb_over st) (not_of s (nb_streams st)) st in
      if set_has s (nb_registering st) then connect_failed s registration_closed st else st
  | nv_frame s frame => if set_has s (nb_streams st) then frame_read s frame st else st
  | nv_closing s => with_ends (set_add s (nb_closed st)) (nb_destroyed st) (nb_over st) (nb_streams st) st
  | nv_destroying s => with_ends (nb_closed st) (set_add s (nb_destroyed st)) (nb_over st) (nb_streams st) st
  | nv_close already => close already st
  | nv_close_timeout call => settle_closes (fun p => bool_decide (p.1 = call)) st
  | nv_wait d => with_view (waitForRoute d (nb_view st)) st
  end.
Definition nb_step (st : node_broker) (ev : link_event) : node_broker :=
  match event_session ev with Some s => if (s <? nb_next st)%nat then nb_handle st ev else st | None => nb_handle st ev end.
Definition nb_run (events : list link_event) : node_broker := fold_left nb_step events nb_init.
End Broker.

(** * Theory *)
Definition settled_of (e : connection_effect) : option (nat * result exn unit) := match e with nx_settled c r => Some (c, r) | _ => None end.
Definition nb_settled (st : node_broker) : list (nat * result exn unit) := omap settled_of (nb_log st).
Definition nb_pending (st : node_broker) : list nat := nb_connecting st ++ nb_registering st ++ (nb_closing st).*1.
Definition registered_in (s : nat) (log : list connection_effect) : Prop := exists request, nx_register s request ∈ log.

(** [nb_ok] without what it says of ended sessions. *)
Record nb_core (st : node_broker) : Prop := {
  nc_calls : nb_pending st ++ (nb_settled st).*1 ≡ₚ seq 0 (nb_next st);
  nc_known : forall s, s ∈ nb_over st \/ nb_session st = Some s \/ nx_open s ∈ nb_log st -> (s < nb_next st)%nat;
  nc_sent : forall s, s ∈ nb_registering st -> registered_in s (nb_log st);
  nc_open : forall s, s ∈ nb_connecting st \/ s ∈ nb_registering st \/ nb_session st = Some s -> nx_open s ∈ nb_log st;
  nc_closing : forall c, c ∈ (nb_closing st).*1 -> nx_open c ∉ nb_log st;
  nc_connected : forall s, (s, Ok tt) ∈ nb_settled st -> nx_open s ∈ nb_log st -> registered_in s (nb_log st);
  nc_failed : forall s e, (s, Throw e) ∈ nb_settled st -> nx_open s ∈ nb_log st -> nx_destroy s ∈ nb_log st /\ nb_session st <> Some s;
}.
Definition over_ok (st : node_broker) : Prop := forall s, s ∈ nb_over st -> s ∉ nb_registering st /\ nb_session st <> Some s.
Definition nb_ok (st : node_broker) : Prop := nb_core st /\ over_ok st.
Lemma nb_do_settled l st : nb_settled (nb_do l st) = nb_settled st ++ omap settled_of l.
Proof. unfold nb_settled. cbn. apply omap_app. Qed.
Lemma settled_fresh st : nb_core st -> nb_next st ∉ nb_pending st ++ (nb_settled st).*1.
Proof. intros H. rewrite (nc_calls _ H), elem_of_seq. lia. Qed.
Lemma calls_NoDup st : nb_core st -> NoDup (nb_pending st ++ (nb_settled st).*1).
Proof. intros H. rewrite (nc_calls _ H). apply NoDup_seq. Qed.
Lemma registered_later s l l' : registered_in s l -> registered_in s (l ++ l').
Proof. intros [r H]. exists r. apply elem_of_app. by left. Qed.

(** What a step changes, seen from the invariant. *)
Lemma core_step st st' log xs :
  nb_core st -> nb_log st' = nb_log st ++ log -> omap settled_of log = xs -> (forall s, nx_open s ∉ log) ->
  nb_pending st' ++ xs.*1 ≡ₚ nb_pending st -> nb_next st' = nb_next st ->
  (forall s, s ∈ nb_over st' -> s ∈ nb_over st \/ (s < nb_next st)%nat) ->
  (forall s, nb_session st' = Some s -> nb_session st = Some s) ->
  (forall s, s ∈ nb_registering st' -> s ∈ nb_registering st \/ s ∈ nb_connecting st /\ registered_in s log) ->
  (forall s, s ∈ nb_connecting st' -> s ∈ nb_connecting st) ->
  (forall c, c ∈ (nb_closing st').*1 -> c ∈ (nb_closing st).*1) ->
  (forall s, (s, Ok tt) ∈ xs -> s ∈ nb_registering st \/ s ∈ (nb_closing st).*1) ->
  (forall s e, (s, Throw e) ∈ xs -> nx_destroy s ∈ log /\ nb_session st' <> Some s) -> nb_core st'.
Proof.
  intros [H1 H2 H3 H4 H5 H6 H7] El Ex Ho Hp En Hov Hs Hr Hc Hcl Hok Hth.
  assert (nb_settled st' = nb_settled st ++ xs) as Es by (unfold nb_settled; by rewrite El, omap_app, Ex).
  assert (forall s, nx_open s ∈ nb_log st' <-> nx_open s ∈ nb_log st) as Eo by (intros s; rewrite El, elem_of_app; specialize (Ho s); tauto).
  split.
  - rewrite Es, fmap_app, En, <- H1, <- Hp. solve_Permutation.
  - intros s. rewrite En, Eo. intros [[H|H]%Hov|[H%Hs|H]]; [apply H2; tauto|done|apply H2; tauto|apply H2; tauto].
  - intros s [H|[_ H]]%Hr; rewrite El; [by apply registered_later, H3|]. destruct H as [r H]. exists r. apply elem_of_app. by right.
  - intros s. rewrite Eo. intros [H%Hc|[[H|[H _]]%Hr|H%Hs]]; apply H4; tauto.
  - intros c H%Hcl. rewrite Eo. by apply H5.
  - intros s. rewrite Es, Eo, elem_of_app, El. intros [H|H%Hok] Hop; apply registered_later; [by apply H6|]. destruct H as [H|H]; [by apply H3|]. by destruct (H5 s H).
  - intros s e. rewrite Es, Eo, elem_of_app, El. intros [H|H] Hop.
    + destruct (H7 s e H Hop) as [Hd Hn]. split; [apply elem_of_app; by left|]. by intros E%Hs.
    + destruct (Hth s e H) as [Hd Hn]. split; [apply elem_of_app; by right|done].
Qed.
Lemma not_of_perm s (l : list nat) : NoDup l -> s ∈ l -> s :: not_of s l ≡ₚ l.
Proof.
  intros Hn Hs. symmetry. pose proof (WaitQueue.split_waiter (fun x : nat => x) s l) as H. unfold WaitQueue.ids in H. rewrite map_id in H. by apply H.
Qed.
Lemma not_of_notin s (l : list nat) : s ∉ l -> not_of s l = l.
Proof. apply WaitQueue.filter_not_in. Qed.
Lemma not_of_elem s x (l : list nat) : x ∈ not_of s l <-> x <> s /\ x ∈ l.
Proof. unfold not_of. by rewrite list_elem_of_filter. Qed.

Lemma forget_session s st : nb_session (forget s st) = if bool_decide (nb_session st = Some s) then None else nb_session st.
Proof. unfold forget. by destruct (bool_decide _). Qed.
Lemma forget_ne s st : nb_session (forget s st) <> Some s.
Proof. rewrite forget_session. case_bool_decide; naive_solver. Qed.
Lemma forget_Some s st x : nb_session (forget s st) = Some x -> nb_session st = Some x.
Proof. rewrite forget_session. by destruct (bool_decide _). Qed.
Lemma forget_rest s st : nb_log (forget s st) = nb_log st /\ nb_connecting (forget s st) = nb_connecting st /\ nb_registering (forget s st) = nb_registering st /\
  nb_closing (forget s st) = nb_closing st /\ nb_next (forget s st) = nb_next st /\ nb_over (forget s st) = nb_over st.
Proof. unfold forget. by destruct (bool_decide _). Qed.

Lemma connect_failed_parts s e st : let st' := connect_failed s e st in
  nb_log st' = nb_log st ++ [nx_destroy s; nx_settled s (Throw e)] /\ nb_connecting st' = not_of s (nb_connecting st) /\
  nb_registering st' = not_of s (nb_registering st) /\ nb_closing st' = nb_closing st /\ nb_next st' = nb_next st /\ nb_over st' = nb_over st /\
  nb_session st' <> Some s /\ (forall x, nb_session st' = Some x -> nb_session st = Some x).
Proof.
  unfold connect_failed. cbn zeta. set (st1 := with_ends _ _ _ _ _). destruct (forget_rest s st1) as (E1 & E2 & E3 & E4 & E5 & E6).
  cbn [nb_do nb_log nb_connecting nb_registering nb_closing nb_next nb_over nb_session].
  rewrite E1, E2, E3, E4, E5, E6. split_and!; try done; [apply forget_ne|]. intros x Hx. by apply forget_Some in Hx.
Qed.
Lemma connect_failed_core s e st : nb_core st -> s ∈ nb_connecting st ++ nb_registering st -> nb_core (connect_failed s e st).
Proof.
  intros H Hs. destruct (connect_failed_parts s e st) as (El & Ec & Er & Ecl & En & Eo & Hne & Hse).
  pose proof (calls_NoDup st H) as Hn. unfold nb_pending in Hn. rewrite <- !app_assoc, (app_assoc (nb_connecting st)) in Hn. apply NoDup_app in Hn as (Hn & _ & _).
  eapply (core_step st _ _ [(s, Throw e)] H El); try done.
  - intros x. rewrite !elem_of_cons, elem_of_nil. by intros [?|[?|?]].
  - unfold nb_pending. rewrite Ec, Er, Ecl. pose proof (not_of_perm s _ Hn Hs) as Hp. unfold not_of in *. rewrite filter_app in Hp.
    rewrite (app_assoc (nb_connecting st)), <- Hp. cbn [fmap list_fmap fst]. solve_Permutation.
  - intros x. rewrite Eo. by left.
  - intros x. rewrite Er, not_of_elem. tauto.
  - intros x. rewrite Ec, not_of_elem. tauto.
  - by rewrite Ecl.
  - intros x. rewrite list_elem_of_singleton. by intros [=].
  - intros x e'. rewrite list_elem_of_singleton. intros [= -> ->]. split; [by left|done].
Qed.
Lemma connect_failed_over s e st : over_ok st -> over_ok (connect_failed s e st).
Proof.
  intros H x. destruct (connect_failed_parts s e st) as (_ & _ & -> & _ & _ & -> & _ & Hse). intros [Hr Hx]%H. rewrite not_of_elem. split; [tauto|].
  by intros E%Hse.
Qed.
Lemma connect_failed_ok s e st : nb_ok st -> s ∈ nb_connecting st ++ nb_registering st -> nb_ok (connect_failed s e st).
Proof. intros [H1 H2] Hs. split; [by apply connect_failed_core|by apply connect_failed_over]. Qed.

(** Changes the invariant does not see. *)
Lemma unseen st st' : nb_log st' = nb_log st -> nb_connecting st' = nb_connecting st -> nb_registering st' = nb_registering st -> nb_closing st' = nb_closing st ->
  nb_next st' = nb_next st -> nb_over st' = nb_over st -> nb_session st' = nb_session st -> nb_ok st -> nb_ok st'.
Proof.
  intros E1 E2 E3 E4 E5 E6 E7 [H1 H2]. split.
  - eapply (core_step st st' [] [] H1); unfold nb_pending; rewrite ?E1, ?E2, ?E3, ?E4, ?E5, ?E6, ?E7; cbn [fmap list_fmap]; rewrite ?app_nil_r; try done; try tauto;
      intros *; rewrite ?elem_of_nil; tauto.
  - unfold over_ok. by rewrite E3, E6, E7.
Qed.

(** A new call that is settled at once. *)
Lemma call_settled r st : nb_ok st ->
  nb_ok (nb_do [nx_settled (nb_next st) r] (with_calls (nb_connecting st) (nb_registering st) (nb_closing st) (S (nb_next st)) st)).
Proof.
  intros [H Ho]. pose proof H as [H1 H2 H3 H4 H5 H6 H7]. split; [|done]. split; cbn [nb_log nb_next nb_over nb_session nb_connecting nb_registering nb_closing nb_do with_calls].
  - rewrite nb_do_settled, fmap_app, app_assoc. change (nb_pending (nb_do _ _)) with (nb_pending st). change (nb_settled (with_calls _ _ _ _ st)) with (nb_settled st).
    by rewrite H1, seq_S.
  - intros s. rewrite elem_of_app, list_elem_of_singleton. intros Hs. enough (s < nb_next st)%nat by lia. apply H2. destruct Hs as [?|[?|[?|[=]]]]; tauto.
  - intros s Hs. by apply registered_later, H3.
  - intros s Hs. apply elem_of_app. left. by apply H4.
  - intros c Hc. rewrite elem_of_app, list_elem_of_singleton. intros [E|[=]]. by apply (H5 c Hc).
  - intros s. rewrite nb_do_settled, !elem_of_app. cbn [omap list_omap settled_of]. rewrite !list_elem_of_singleton. intros [Hs|[= -> _]] [Hop|[=]].
    + apply registered_later. by apply H6.
    + specialize (H2 (nb_next st)). assert (nb_next st < nb_next st)%nat; [|lia]. apply H2. by right; right.
  - intros s e. rewrite nb_do_settled, !elem_of_app. cbn [omap list_omap settled_of]. rewrite !list_elem_of_singleton. intros [Hs|[= -> _]] [Hop|[=]].
    + destruct (H7 s e Hs Hop). tauto.
    + specialize (H2 (nb_next st)). assert (nb_next st < nb_next st)%nat; [|lia]. apply H2. by right; right.
Qed.
(** A new call of [close] that waits for the end of a session. *)
Lemma call_waiting s st : nb_ok st ->
  nb_ok (with_calls (nb_connecting st) (nb_registering st) (nb_closing st ++ [(nb_next st, s)]) (S (nb_next st)) st).
Proof.
  intros [H Ho]. pose proof H as [H1 H2 H3 H4 H5 H6 H7]. split; [|done].
  assert (nx_open (nb_next st) ∉ nb_log st) as Hno by (intros Hi; specialize (H2 _ (or_intror (or_intror Hi))); lia).
  split; try done; cbn [nb_log nb_next nb_over nb_session nb_connecting nb_registering nb_closing with_calls].
  - change (nb_settled (with_calls _ _ _ _ _)) with (nb_settled st). unfold nb_pending. cbn [nb_connecting nb_registering nb_closing with_calls].
    rewrite fmap_app, seq_S, <- H1. unfold nb_pending. cbn. solve_Permutation.
  - intros x Hx. enough (x < nb_next st)%nat by lia. by apply H2.
  - intros c. rewrite fmap_app, elem_of_app. cbn [fmap list_fmap fst]. rewrite list_elem_of_singleton. intros [Hi| ->]; [by apply H5|done].
Qed.
Lemma connect_ok opened st : nb_ok st -> nb_ok (connect opened st).
Proof.
  intros H. unfold connect. change (usable (with_calls _ _ _ _ st)) with (usable st). destruct (usable st); [by apply call_settled|].
  destruct opened as [[]|e]; [|by apply call_settled]. destruct H as [H Ho]. pose proof H as [H1 H2 H3 H4 H5 H6 H7].
  pose proof (settled_fresh st H) as Hf. apply not_elem_of_app in Hf as [Hf1 Hf2]. unfold nb_pending in Hf1. rewrite !not_elem_of_app in Hf1.
  assert (nb_next st ∉ nb_over st) as Hfo by (intros Hi; specialize (H2 _ (or_introl Hi)); lia).
  split; [split|]; cbn [nb_log nb_next nb_over nb_session nb_connecting nb_registering nb_closing nb_do with_calls with_link].
  - rewrite nb_do_settled. change (nb_settled (with_link _ _ _)) with (nb_settled st). rewrite app_nil_r, seq_S, <- H1. unfold nb_pending. cbn. solve_Permutation.
  - intros s. rewrite elem_of_app, list_elem_of_singleton. intros [Hs|[[= <-]|[Hs|[= ->]]]]; try lia; enough (s < nb_next st)%nat by lia; apply H2; tauto.
  - intros s Hs. by apply registered_later, H3.
  - intros s. rewrite !elem_of_app, !list_elem_of_singleton. intros [[Hs| ->]|[Hs|[= ->]]]; try (by right); left; apply H4; tauto.
  - intros c Hc. rewrite elem_of_app, list_elem_of_singleton. intros [E|[= ->]]; [by apply (H5 c Hc)|tauto].
  - intros s. rewrite nb_do_settled, app_nil_r. change (nb_settled (with_link _ _ _)) with (nb_settled st). rewrite elem_of_app, list_elem_of_singleton.
    intros Hs [Hop|[= ->]]; [by apply registered_later, H6|]. exfalso. apply Hf2, list_elem_of_fmap. eexists. split; [|exact Hs]. done.
  - intros s e. rewrite nb_do_settled, app_nil_r. change (nb_settled (with_link _ _ _)) with (nb_settled st). rewrite !elem_of_app, !list_elem_of_singleton.
    intros Hs [Hop|[= ->]].
    + destruct (H7 s e Hs Hop) as [Hd Hne]. split; [by left|]. intros [= <-]. specialize (H2 _ (or_intror (or_intror Hop))). lia.
    + exfalso. apply Hf2, list_elem_of_fmap. eexists. split; [|exact Hs]. done.
  - intros s Hs. cbn [nb_over nb_registering nb_session nb_do with_calls with_link] in *. split; [by apply Ho|]. intros [= <-]. done.
Qed.
Lemma nb_close_ok already st : nb_ok st -> nb_ok (close already st).
Proof.
  intros H. unfold close. cbn [nb_session with_calls]. destruct (nb_session st) as [s|] eqn:Es; [|by apply call_settled]. cbn zeta.
  set (log := match nb_control _ with Some c => _ | None => _ end ++ _).
  assert (omap settled_of log = [] /\ forall x, nx_open x ∉ log) as [Hl1 Hl2].
  { unfold log. destruct (nb_control _); split; try done; intros x; rewrite elem_of_app, ?list_elem_of_singleton, ?elem_of_nil; naive_solver. }
  clearbody log.
  (* the session is let go, and the call is settled or waits *)
  set (st1 := nb_do log (with_link None (nb_control st) st)).
  assert (nb_ok st1) as Hok1.
  { destruct H as [H Ho]. split.
    - eapply (core_step st st1 log [] H); try done; try tauto.
      + by rewrite app_nil_r.
      + intros *; rewrite ?elem_of_nil; tauto.
      + intros *; rewrite ?elem_of_nil; tauto.
    - intros x Hx. split; [by apply Ho|done]. }
  destruct (already || _) eqn:Ea; rewrite ?Ea.
  - eapply unseen; [..|apply (call_settled (Ok tt) st1 Hok1)]; done.
  - eapply unseen; [..|apply (call_waiting s st1 Hok1)]; done.
Qed.

Lemma fst_settled {A B} (f : A -> nat) (r : B) l : (map (fun x => (f x, r)) l).*1 = map f l.
Proof. induction l as [|x l IH]; [done|]. change (f x :: (map (fun x => (f x, r)) l).*1 = f x :: map f l). by rewrite IH. Qed.
Lemma settle_closes_core done st : nb_core st -> nb_core (settle_closes done st).
Proof.
  intros H. eapply (core_step st _ _ (map (fun p => (p.1, Ok tt)) (filter (fun p => done p = true) (nb_closing st))) H); try reflexivity; try tauto.
  - cbn. induction (filter _ _) as [|p l IH]; [easy|]. cbn. by rewrite IH.
  - intros s Hs. apply list_elem_of_fmap in Hs as (p & [=] & _).
  - unfold nb_pending. cbn [nb_connecting nb_registering nb_closing settle_closes nb_do with_calls].
    assert (filter (fun p => done p = true) (nb_closing st) ++ filter (fun p => done p = false) (nb_closing st) ≡ₚ nb_closing st) as Hp.
    { clear. induction (nb_closing st) as [|p l IH]; [easy|]. destruct (done p) eqn:E.
      - rewrite filter_cons_True, filter_cons_False by congruence. cbn. by rewrite IH.
      - rewrite filter_cons_False, filter_cons_True by congruence. rewrite <- Permutation_middle. by rewrite IH. }
    rewrite <- Hp at 3. rewrite fmap_app.
    rewrite (fst_settled (fst : nat * nat -> nat)). change (map fst ?l) with (l.*1).
    solve_Permutation.
  - intros c. cbn [nb_closing settle_closes nb_do with_calls]. rewrite !list_elem_of_fmap. intros (p & -> & [_ Hp]%list_elem_of_filter). by exists p.
  - intros s Hs. right. apply list_elem_of_fmap in Hs as (p & [= ->] & [_ Hp]%list_elem_of_filter). apply list_elem_of_fmap. by exists p.
  - intros s e Hs. apply list_elem_of_fmap in Hs as (p & [=] & _).
Qed.
Lemma settle_closes_ok done st : nb_ok st -> nb_ok (settle_closes done st).
Proof. intros [H1 H2]. split; [by apply settle_closes_core|done]. Qed.

Lemma session_closed_ok s st : nb_ok st -> (s < nb_next st)%nat -> nb_ok (session_closed s st).
Proof.
  intros [H Ho] Hs. unfold session_closed. cbn zeta. set (st1 := forget s _).
  assert (nb_registering st1 = nb_registering st /\ nb_over st1 = set_add s (nb_over st)) as [Er1 Eo1].
  { unfold st1. edestruct forget_rest as (_ & _ & -> & _ & _ & ->). done. }
  assert (nb_core st1) as H1.
  { edestruct (forget_rest s (with_ends (set_add s (nb_closed st)) (set_add s (nb_destroyed st)) (set_add s (nb_over st)) (not_of s (nb_streams st)) st)) as (E1 & E2 & E3 & E4 & E5 & E6).
    fold st1 in E1, E2, E3, E4, E5, E6. eapply (core_step st st1 [] [] H); try done.
    - by rewrite E1, app_nil_r.
    - intros *; rewrite ?elem_of_nil; tauto.
    - unfold nb_pending. by rewrite E2, E3, E4, app_nil_r.
    - intros x. rewrite E6. cbn. rewrite set_add_elem. intros [->|Hx]; [by right|by left].
    - intros x Hx. by apply forget_Some in Hx.
    - intros x. rewrite E3. by left.
    - intros x. by rewrite E2.
    - intros c. by rewrite E4.
    - intros *; rewrite ?elem_of_nil; tauto.
    - intros *; rewrite ?elem_of_nil; tauto. }
  (* nothing registers on the session afterwards *)
  apply settle_closes_ok.
  assert (forall st2, nb_over st2 = nb_over st1 -> (forall x, x ∈ nb_registering st2 -> x ∈ nb_registering st /\ x <> s) ->
    (forall x, nb_session st2 = Some x -> nb_session st = Some x /\ x <> s) -> over_ok st2) as Hov.
  { intros st2 E Hr Hse x. rewrite E, Eo1, set_add_elem. intros Hx. split.
    - intros [Hxr Hne]%Hr. destruct Hx as [->|Hx]; [done|]. by apply (proj1 (Ho x Hx)).
    - intros [Hxs Hne]%Hse. destruct Hx as [->|Hx]; [done|]. by apply (proj2 (Ho x Hx)). }
  assert (forall x, nb_session st1 = Some x -> nb_session st = Some x /\ x <> s) as Hse1.
  { intros x Hx. split; [by apply forget_Some in Hx|]. intros ->. by apply forget_ne in Hx. }
  destruct (set_has s (nb_registering st1)) eqn:Eh.
  - apply bool_decide_eq_true in Eh. split.
    + apply connect_failed_core; [done|]. apply elem_of_app. by right.
    + destruct (connect_failed_parts s registration_closed st1) as (_ & _ & Er & _ & _ & Eo & _ & Hs2). apply Hov; [done| |].
      * intros x. rewrite Er, not_of_elem, Er1. tauto.
      * intros x Hx. by apply Hse1, Hs2.
  - apply bool_decide_eq_false in Eh. rewrite Er1 in Eh. split; [done|]. apply Hov; [done| |done]. intros x. rewrite Er1. intros Hx. split; [done|]. by intros ->.
Qed.

Section Steps.
Context {P : Platform} (options : broker_options) (listener : list told -> list jsstring * option exn).
Lemma register_ok s requested st : nb_ok st -> s ∈ nb_connecting st -> s ∉ nb_over st -> nb_ok (register options s requested st).
Proof using Type.
  intros H Hs Ho. unfold register. destruct requested as [[]|e]; [|apply connect_failed_ok; [done|apply elem_of_app; by left]]. cbn zeta.
  set (st1 := with_ends _ _ _ _ _). assert (nb_ok st1) as H1 by (eapply (unseen st); try done).
  destruct (registered_domain options) as [d|e]; [|apply connect_failed_ok; [done|apply elem_of_app; by left]].
  destruct H1 as [H1 Ho1]. pose proof (calls_NoDup st1 H1) as Hn. unfold nb_pending in Hn. rewrite <- !app_assoc in Hn. apply NoDup_app in Hn as (Hn & _ & _). split.
  - eapply (core_step st1 _ [nx_register s (registration_json options d)] [] H1); try done.
    + intros x. rewrite list_elem_of_singleton. by intros [=].
    + unfold nb_pending. cbn [nb_connecting nb_registering nb_closing nb_do with_calls]. pose proof (not_of_perm s (nb_connecting st1) Hn Hs) as Hp. revert Hp. change (nb_connecting st1) with (nb_connecting st).
      intros Hp. rewrite <- Hp at 2. cbn [fmap list_fmap]. solve_Permutation.
    + intros x Hx. by left.
    + intros x. cbn [nb_registering nb_do with_calls]. rewrite elem_of_app, list_elem_of_singleton. intros [Hx| ->]; [by left|]. right. split; [done|].
      exists (registration_json options d). by left.
    + intros x. cbn [nb_connecting nb_do with_calls]. rewrite not_of_elem. by intros [_ ?].
    + intros x Hx. by apply elem_of_nil in Hx.
    + intros x e Hx. by apply elem_of_nil in Hx.
  - intros x Hx. destruct (Ho1 x Hx) as [Hr Hse]. split; [|done]. cbn [nb_registering nb_do with_calls]. rewrite elem_of_app, list_elem_of_singleton.
    intros [?| ->]; [by apply Hr|done].
Qed.
Lemma frame_read_ok s frame st : nb_ok st -> nb_ok (frame_read listener s frame st).
Proof using Type.
  intros H. unfold frame_read. destruct (handleControlFrame listener frame (nb_view st)) as [r v]. destruct r as [[]|e].
  - set (st1 := with_view v st). assert (nb_ok st1) as [H1 Ho1] by (eapply (unseen st); try done). split.
    + eapply (core_step st1 _ _ (map (fun c => (c, Ok tt)) (nb_registering st1)) H1); try reflexivity; try tauto.
      * induction (nb_registering st1) as [|c l IH]; [easy|]. cbn. by rewrite IH.
      * intros x Hx. apply list_elem_of_fmap in Hx as (c & [=] & _).
      * unfold nb_pending. cbn [nb_connecting nb_registering nb_closing nb_do with_calls].
        rewrite (fst_settled (fun c : nat => c)), map_id.
        solve_Permutation.
      * intros x Hx. by apply elem_of_nil in Hx.
      * intros x Hx. left. apply list_elem_of_fmap in Hx as (c & [= ->] & Hc). done.
      * intros x e Hx. apply list_elem_of_fmap in Hx as (c & [=] & _).
    + intros x Hx. destruct (Ho1 x Hx) as [_ Hse]. split; [by intros ?%elem_of_nil|done].
  - destruct H as [H Ho]. split; [|done]. eapply (core_step st _ [nx_destroy_control s] [] H); try done; try tauto.
    + intros x. rewrite list_elem_of_singleton. by intros [=].
    + unfold nb_pending. by rewrite app_nil_r.
    + intros *; rewrite ?elem_of_nil; tauto.
    + intros *; rewrite ?elem_of_nil; tauto.
Qed.
Lemma error_event_ok s e listening st : nb_ok st -> (forall x, x ∈ listening -> x ∈ nb_connecting st ++ nb_registering st) -> nb_ok (error_event s e listening st).
Proof using Type.
  intros H Hl. unfold error_event. destruct (set_has s listening) eqn:Eh; [apply connect_failed_ok; [done|]; apply Hl; by apply bool_decide_eq_true in Eh|].
  destruct H as [H Ho]. split; [|done]. eapply (core_step st _ [nx_uncaught e] [] H); try done; try tauto.
  - intros x. rewrite list_elem_of_singleton. by intros [=].
  - unfold nb_pending. by rewrite app_nil_r.
  - intros *; rewrite ?elem_of_nil; tauto.
  - intros *; rewrite ?elem_of_nil; tauto.
Qed.
Lemma nb_step_ok st ev : nb_ok st -> nb_ok (nb_step options listener st ev).
Proof using Type.
  intros H. unfold nb_step.
  assert (match event_session ev with Some s => (s < nb_next st)%nat | None => True end -> nb_ok (nb_handle options listener st ev)) as Hh.
  { destruct ev as [opened|s requested|s e|s|s e|s|s frame|s|s|already|call|d]; cbn [event_session nb_handle]; intros Hs.
    - by apply connect_ok.
    - destruct (set_has s (nb_connecting st)) eqn:E1; [|done]. destruct (set_has s (nb_over st)) eqn:E2; [done|]. cbn.
      apply bool_decide_eq_true in E1. apply bool_decide_eq_false in E2. by apply register_ok.
    - by apply error_event_ok.
    - destruct (set_has s (nb_over st)); [done|]. by apply session_closed_ok.
    - apply error_event_ok; [done|]. intros x Hx. apply elem_of_app. by right.
    - cbn zeta. set (st1 := with_ends _ _ _ _ _). assert (nb_ok st1) as H1 by (eapply (unseen st); try done).
      destruct (set_has s (nb_registering st1)) eqn:E; [|done]. apply connect_failed_ok; [done|]. apply elem_of_app. right. by apply bool_decide_eq_true in E.
    - destruct (set_has s (nb_streams st)); [|done]. by apply frame_read_ok.
    - eapply (unseen st); try done.
    - eapply (unseen st); try done.
    - by apply nb_close_ok.
    - by apply settle_closes_ok.
    - eapply (unseen st); try done. }
  destruct (event_session ev) as [s|]; [|by apply Hh]. destruct (Nat.ltb_spec s (nb_next st)); [by apply Hh|done].
Qed.
Lemma nb_run_ok events : nb_ok (nb_run options listener events).
Proof using Type.
  unfold nb_run. assert (forall st, nb_ok st -> nb_ok (fold_left (nb_step options listener) events st)) as Hg.
  { induction events as [|ev events IH]; intros st H; [done|]. by apply IH, nb_step_ok. }
  apply Hg. split; [split; try done; cbn; intros *; rewrite ?elem_of_nil; naive_solver|]. by intros x ?%elem_of_nil.
Qed.
End Steps.

(** ** The routes of a connection *)
Section Views.
Context {P : Platform} (options : broker_options) (listener : list told -> list jsstring * option exn).
Lemma settle_closes_view done st : nb_view (settle_closes done st) = nb_view st.
Proof using Type. done. Qed.
Lemma forget_view s st : nb_view (forget s st) = nb_view st.
Proof using Type. unfold forget. by destruct (bool_decide _). Qed.
Lemma connect_failed_view s e st : nb_view (connect_failed s e st) = nb_view st.
Proof using Type. unfold connect_failed. cbn [nb_view nb_do]. by rewrite forget_view. Qed.
Lemma handle_view st ev : exists ops, nb_view (nb_handle options listener st ev) = fold_left (view_step listener) ops (nb_view st).
Proof using Type.
  destruct ev as [opened|s requested|s e|s|s e|s|s frame|s|s|already|call|d]; cbn [nb_handle].
  7: { destruct (set_has s (nb_streams st)); [|by exists []]. exists [ro_frame frame]. unfold frame_read. cbn [fold_left view_step].
       destruct (handleControlFrame listener frame (nb_view st)) as [[[]|e] v]; done. }
  11: by exists [ro_wait d].
  all: exists []; cbn [fold_left].
  - unfold connect. change (usable (with_calls _ _ _ _ st)) with (usable st). destruct (usable st); [done|]. by destruct opened.
  - destruct (_ && _); [|done]. unfold register. destruct requested; [|apply connect_failed_view]. destruct (registered_domain options); [done|]. by rewrite connect_failed_view.
  - unfold error_event. destruct (set_has _ _); [apply connect_failed_view|done].
  - destruct (set_has _ _); [done|]. unfold session_closed. rewrite settle_closes_view. destruct (set_has s (nb_registering _)); rewrite ?connect_failed_view, forget_view; done.
  - unfold error_event. destruct (set_has _ _); [apply connect_failed_view|done].
  - cbn zeta. destruct (set_has _ _); [by rewrite connect_failed_view|done].
  - done.
  - done.
  - unfold close. cbn [nb_session with_calls]. destruct (nb_session st); [|done]. cbn zeta. by destruct (_ || _).
  - done.
Qed.
Lemma run_view_ops events : exists ops, nb_view (nb_run options listener events) = view_run listener ops.
Proof using Type.
  unfold nb_run, view_run. change rv_init with (nb_view nb_init). generalize nb_init. induction events as [|ev events IH]; intros st; [by exists []|].
  cbn [fold_left]. destruct (IH (nb_step options listener st ev)) as [ops ->].
  assert (exists ops', nb_view (nb_step options listener st ev) = fold_left (view_step listener) ops' (nb_view st)) as [ops' ->].
  { unfold nb_step. destruct (event_session ev) as [s|]; [|apply handle_view]. destruct (s <? nb_next st)%nat; [apply handle_view|by exists []]. }
  exists (ops' ++ ops). by rewrite fold_left_app.
Qed.
End Views.

(** C19: the connection of a Node broker, whatever its sessions and streams do and
    however [connect] and [close] are called.  Every call is settled at most once
    or still waits; no registration waits on a session that has ended, and no ended
    session is kept; a [connect] that opened a session succeeds only when its
    registration was sent, and when it fails the session is destroyed and not kept;
    and the routes are those of a run of control frames and waits. *)
Theorem node_broker_correct `{Platform} options listener events :
  let st := nb_run options listener events in
  NoDup (nb_settled st).*1 /\
  (forall c, (c < nb_next st)%nat <-> c ∈ nb_pending st \/ c ∈ (nb_settled st).*1) /\ (forall c, c ∈ nb_pending st -> c ∉ (nb_settled st).*1) /\
  (forall s, s ∈ nb_over st -> s ∉ nb_registering st /\ nb_session st <> Some s) /\
  (forall s, nx_open s ∈ nb_log st -> (s, Ok tt) ∈ nb_settled st -> registered_in s (nb_log st)) /\
  (forall s e, nx_open s ∈ nb_log st -> (s, Throw e) ∈ nb_settled st -> nx_destroy s ∈ nb_log st /\ nb_session st <> Some s) /\
  (exists ops, nb_view st = view_run listener ops).
Proof.
  intros st. destruct (nb_run_ok options listener events) as [Hc Ho]. fold st in Hc, Ho. pose proof (calls_NoDup st Hc) as Hn.
  apply NoDup_app in Hn as (_ & Hd & Hn). split_and!; [done| |done|done| | |apply run_view_ops].
  - intros c. rewrite <- elem_of_app, (nc_calls st Hc), elem_of_seq. lia.
  - intros s Hop Hs. by apply (nc_connected st Hc).
  - intros s e Hop Hs. by apply (nc_failed st Hc) in Hs.
Qed.

(** ** What the host makes of the registration *)
Lemma registration_read `{Platform} options d : wf_units (bo_brokerId options) -> match d with Some d => wf_units d | None => True end ->
  parseRegistrationRequest (json_text (registration_json options d)) =
    match d with
    | None => Ok {| rr_peerId := bo_brokerId options; rr_role := role_broker; rr_routedDomains := JArr []; rr_brokerDomain := None |}
    | Some d =>
        if len (normalizeVerserRouteDomain d) =? 0
        then Throw (verr invalid_registration "brokerDomain must be a non-empty domain" [(js "peerId", JStr (bo_brokerId options))])
        else Ok {| rr_peerId := bo_brokerId options; rr_role := role_broker; rr_routedDomains := JArr []; rr_brokerDomain := Some (normalizeVerserRouteDomain d) |}
    end.
Proof.
  intros Hi Hd. unfold parseRegistrationRequest.
  assert (json_plain (registration_json options d) = true) as Hp.
  { unfold registration_json. destruct d as [d|]; cbn [json_plain forallb map fst snd fmap list_fmap app]; rewrite ?(Vws.wf_units_forallb _ Hi), ?(Vws.wf_units_forallb _ Hd); reflexivity. }
  rewrite json_parse_text by done. destruct d as [d|]; [|reflexivity].
  change (js_member (js "role") (registration_json options (Some d))) with (Some (JStr (js "broker"))).
  change (role_of (JStr (js "broker"))) with (Some role_broker). cbv match zeta.
  change (js_opt_member (js "brokerDomain") (registration_json options (Some d))) with (JStr d).
  change (or_empty (js_opt_member (js "peerId") (registration_json options (Some d)))) with (bo_brokerId options).
  change (match registration_json options (Some d) with JObj o => map_has (js "brokerHopDomain") o | _ => false end) with false.
  cbn [throw_if mbind result_bind Headers.is_nullish negb andb]. change (bool_decide (role_broker = role_broker)) with true. cbn [negb].
  by destruct (len (normalizeVerserRouteDomain d) =? 0).
Qed.

(** ** Observations *)
Module SampleBroker.
Definition platform : Platform :=
  {| url_hostname := Some; locale_compare := fun _ _ => Eq; unicode_lower := id; unicode_upper := id; engine_message := fun _ s => s |}.
#[local] Existing Instance platform.
Definition options : broker_options := {| bo_brokerId := js "b"; bo_brokerDomain := None |}.
Definition run (events : list link_event) : node_broker := nb_run options (fun _ => ([], None)) events.
Definition outcome (st : node_broker) : list nat * list (nat * bool) :=
  (nb_pending st, map (fun p => (p.1, match p.2 with Ok _ => true | Throw _ => false end)) (nb_settled st)).

(** A broker that is closed while it connects: its session ends without an error,
    and the promise of [connect] stays open. *)
Example close_strands_connect : outcome (run [nv_connect (Ok tt); nv_close false; nv_session_close 0]) = ([0%nat], [(1%nat, true)]).
Proof. by vm_compute. Qed.
(** A second [connect] succeeds while the first has not even a connection. *)
Example connect_returns_early : outcome (run [nv_connect (Ok tt); nv_connect (Ok tt)]) = ([0%nat], [(1%nat, true)]).
Proof. by vm_compute. Qed.
(** An error of the session after the registration meets no listener. *)
Example error_uncaught :
  nb_log (run [nv_connect (Ok tt); nv_connected 0 (Ok tt); nv_frame 0 cf_other; nv_session_error 0 (EngineErr TypeError [])])
  = [nx_open 0; nx_register 0 (registration_json options None); nx_settled 0 (Ok tt); nx_uncaught (EngineErr TypeError [])].
Proof. by vm_compute. Qed.
(** A frame of the session before completes the registration on the new one. *)
Example former_frame_registers :
  outcome (run [nv_connect (Ok tt); nv_connected 0 (Ok tt); nv_frame 0 cf_other; nv_closing 0; nv_connect (Ok tt); nv_connected 1 (Ok tt); nv_frame 0 cf_other])
  = ([], [(0%nat, true); (1%nat, true)]).
Proof. by vm_compute. Qed.
End SampleBroker.
