(* ===== verification/ReplayBody.v ===== *)
(** The body of a broker request, kept for a redirect (verser2-guest-node
    [http2-verser-broker.ts], [createReplayableRequestBody]).

    An array of chunks is copied up to the limit.  A stream is read by a tee: its
    chunks go on to the request and, up to the limit, are kept.  The machine runs
    over the events of the stream, of the tee, and the calls of [abort]. *)
From S2P Require Import Prelude JsNum Utf8.

Definition total (chunks : list bytes) : Z := len (concat chunks).

(** ** An array of chunks *)
Fixpoint keep_chunks (limit totalBytes : Z) (kept chunks : list bytes) : option (list bytes) :=
  match chunks with
  | [] => Some kept
  | chunk :: chunks =>
      let totalBytes := totalBytes + len chunk in
      if limit <? totalBytes then None else keep_chunks limit totalBytes (kept ++ [chunk]) chunks
  end.
Definition replay_chunks (limit : Z) (chunks : list bytes) : option (list bytes) := keep_chunks limit 0 [] chunks.

(** ** A stream *)
Record replay_body := {
  rb_totalBytes : Z; rb_replayable : bool; rb_replayChunks : list bytes;
  rb_decisions : list (option (list bytes));    (** what [resolveReplayBody] was called with *)
  rb_sourceEnded : bool; rb_sourceAborted : bool; rb_streamError : bool;
  rb_flowing : bool;                            (** the listeners for 'data' and 'end' *)
  rb_guarded : bool;                            (** the listener for 'error' *)
  rb_sourceDestroyed : bool;
  rb_paused : bool; rb_drains : nat;            (** 'drain' listeners on the tee *)
  rb_written : list bytes;                      (** what the tee was given *)
  rb_teeEnded : bool; rb_teeDestroyed : bool;
}.
Definition replay_start : replay_body :=
  {| rb_totalBytes := 0; rb_replayable := true; rb_replayChunks := []; rb_decisions := []; rb_sourceEnded := false; rb_sourceAborted := false;
     rb_streamError := false; rb_flowing := true; rb_guarded := true; rb_sourceDestroyed := false; rb_paused := false; rb_drains := 0;
     rb_written := []; rb_teeEnded := false; rb_teeDestroyed := false |}.

Definition with_kept (totalBytes : Z) (replayable : bool) (chunks : list bytes) (st : replay_body) : replay_body :=
  {| rb_totalBytes := totalBytes; rb_replayable := replayable; rb_replayChunks := chunks; rb_decisions := rb_decisions st;
     rb_sourceEnded := rb_sourceEnded st; rb_sourceAborted := rb_sourceAborted st; rb_streamError := rb_streamError st; rb_flowing := rb_flowing st;
     rb_guarded := rb_guarded st; rb_sourceDestroyed := rb_sourceDestroyed st; rb_paused := rb_paused st; rb_drains := rb_drains st;
     rb_written := rb_written st; rb_teeEnded := rb_teeEnded st; rb_teeDestroyed := rb_teeDestroyed st |}.
Definition with_source (ended aborted error flowing guarded destroyed : bool) (st : replay_body) : replay_body :=
  {| rb_totalBytes := rb_totalBytes st; rb_replayable := rb_replayable st; rb_replayChunks := rb_replayChunks st; rb_decisions := rb_decisions st;
     rb_sourceEnded := ended; rb_sourceAborted := aborted; rb_streamError := error; rb_flowing := flowing;
     rb_guarded := guarded; rb_sourceDestroyed := destroyed; rb_paused := rb_paused st; rb_drains := rb_drains st;
     rb_written := rb_written st; rb_teeEnded := rb_teeEnded st; rb_teeDestroyed := rb_teeDestroyed st |}.
Definition with_tee (paused : bool) (drains : nat) (written : list bytes) (ended destroyed : bool) (st : replay_body) : replay_body :=
  {| rb_totalBytes := rb_totalBytes st; rb_replayable := rb_replayable st; rb_replayChunks := rb_replayChunks st; rb_decisions := rb_decisions st;
     rb_sourceEnded := rb_sourceEnded st; rb_sourceAborted := rb_sourceAborted st; rb_streamError := rb_streamError st; rb_flowing := rb_flowing st;
     rb_guarded := rb_guarded st; rb_sourceDestroyed := rb_sourceDestroyed st; rb_paused := paused; rb_drains := drains;
     rb_written := written; rb_teeEnded := ended; rb_teeDestroyed := destroyed |}.

(** The flag [replayDecisionSettled] is that a decision was made. *)
Definition settleReplayDecision (replayBody : option (list bytes)) (st : replay_body) : replay_body :=
  match rb_decisions st with
  | _ :: _ => st
  | [] =>
      {| rb_totalBytes := rb_totalBytes st; rb_replayable := rb_replayable st; rb_replayChunks := rb_replayChunks st; rb_decisions := [replayBody];
         rb_sourceEnded := rb_sourceEnded st; rb_sourceAborted := rb_sourceAborted st; rb_streamError := rb_streamError st; rb_flowing := rb_flowing st;
         rb_guarded := rb_guarded st; rb_sourceDestroyed := rb_sourceDestroyed st; rb_paused := rb_paused st; rb_drains := rb_drains st;
         rb_written := rb_written st; rb_teeEnded := rb_teeEnded st; rb_teeDestroyed := rb_teeDestroyed st |}
  end.

(** [full]: the tee's [write] returned false. *)
Definition onData (limit : Z) (chunk : bytes) (full : bool) (st : replay_body) : replay_body :=
  let totalBytes := rb_totalBytes st + len chunk in
  let st := if limit <? totalBytes then with_kept totalBytes false [] st
            else with_kept totalBytes (rb_replayable st) (if rb_replayable st then rb_replayChunks st ++ [chunk] else rb_replayChunks st) st in
  with_tee (full || rb_paused st) (if full then S (rb_drains st) else rb_drains st) (rb_written st ++ [chunk]) (rb_teeEnded st) (rb_teeDestroyed st) st.
Definition abortSource (st : replay_body) : replay_body :=
  if rb_sourceAborted st || rb_sourceEnded st then st
  else
    let st := with_source (rb_sourceEnded st) true (rb_streamError st) false (rb_guarded st) (rb_sourceDestroyed st) st in
    let st := settleReplayDecision None st in
    with_source (rb_sourceEnded st) (rb_sourceAborted st) (rb_streamError st) (rb_flowing st) (rb_guarded st) true st.
Definition onEnd (st : replay_body) : replay_body :=
  let st := with_source true (rb_sourceAborted st) (rb_streamError st) false false (rb_sourceDestroyed st) st in
  let st := with_tee (rb_paused st) (rb_drains st) (rb_written st) true (rb_teeDestroyed st) st in
  settleReplayDecision (if rb_replayable st then Some (rb_replayChunks st) else None) st.
Definition onError (st : replay_body) : replay_body :=
  let st := with_source (rb_sourceEnded st) true true false false (rb_sourceDestroyed st) st in
  let st := with_tee (rb_paused st) (rb_drains st) (rb_written st) (rb_teeEnded st) true st in
  settleReplayDecision None st.
Definition abort (st : replay_body) : replay_body :=
  let st := abortSource st in with_tee (rb_paused st) (rb_drains st) (rb_written st) (rb_teeEnded st) true st.
(** [getReplayBody]: [None] while the promise is open. *)
Definition getReplayBody (st : replay_body) : option (option (list bytes)) :=
  if rb_streamError st then Some None else head (rb_decisions st).

Inductive replay_event : Type :=
  | re_data (chunk : bytes) (full : bool) | re_end | re_error | re_sourceClose
  | re_teeDrain | re_teeClose | re_abort.
Definition replay_step (limit : Z) (st : replay_body) (e : replay_event) : replay_body :=
  match e with
  | re_data chunk full => if rb_flowing st then onData limit chunk full st else st
  | re_end => if rb_flowing st then onEnd st else st
  | re_error => if rb_guarded st then onError st else st
  (* the listener [abortSource] put on 'close' *)
  | re_sourceClose =>
      if rb_sourceDestroyed st then with_source (rb_sourceEnded st) (rb_sourceAborted st) (rb_streamError st) (rb_flowing st) false (rb_sourceDestroyed st) st else st
  | re_teeDrain => with_tee (match rb_drains st with O => rb_paused st | S _ => false end) 0 (rb_written st) (rb_teeEnded st) (rb_teeDestroyed st) st
  | re_teeClose => abortSource st
  | re_abort => abort st
  end.
Definition replay_run (limit : Z) (events : list replay_event) : replay_body := fold_left (replay_step limit) events replay_start.

(** * Theory *)
(** The chunks the source gave, up to its end, error, or abortion. *)
Fixpoint received (events : list replay_event) : list bytes :=
  match events with
  | [] => []
  | re_data chunk _ :: events => chunk :: received events
  | (re_end | re_error | re_teeClose | re_abort) :: _ => []
  | (re_sourceClose | re_teeDrain) :: events => received events
  end.
(** The event that settles the matter. *)
Fixpoint outcome (events : list replay_event) : option replay_event :=
  match events with
  | [] => None
  | (re_end | re_error | re_teeClose | re_abort) as e :: _ => Some e
  | _ :: events => outcome events
  end.
Definition decision (limit : Z) (events : list replay_event) : option (option (list bytes)) :=
  match outcome events with
  | None => None
  | Some re_end => Some (replay_chunks limit (received events))
  | Some _ => Some None
  end.

Lemma total_snoc chunks chunk : total (chunks ++ [chunk]) = total chunks + len chunk.
Proof. unfold total, len. rewrite concat_app, length_app. cbn. rewrite app_nil_r. lia. Qed.
Lemma total_nonneg chunks : 0 <= total chunks.
Proof. unfold total, len. lia. Qed.
Lemma body_total_app a b : total (a ++ b) = total a + total b.
Proof. unfold total, len. rewrite concat_app, length_app. lia. Qed.
Lemma total_cons c b : total (c :: b) = len c + total b.
Proof. unfold total, len. cbn. rewrite length_app. lia. Qed.
Lemma keep_chunks_spec limit chunks : forall t kept, t = total kept ->
  keep_chunks limit t kept chunks = if decide (chunks = [] \/ total (kept ++ chunks) <= limit) then Some (kept ++ chunks) else None.
Proof.
  induction chunks as [|c chunks IH]; intros t kept ->; cbn [keep_chunks].
  - rewrite decide_True by by left. by rewrite app_nil_r.
  - rewrite IH by by rewrite total_snoc. rewrite <- app_assoc. cbn [app]. rewrite body_total_app, total_cons. pose proof (total_nonneg chunks).
    destruct (Z.ltb_spec limit (total kept + len c)).
    + rewrite decide_False; [done|]. intros [?|?]; [done|lia].
    + destruct (decide (total kept + (len c + total chunks) <= limit)) as [Hle|Hgt].
      * by rewrite !decide_True by by right.
      * rewrite (decide_False (P := c :: chunks = [] \/ _)) by (intros [?|?]; [done|lia]).
        destruct chunks as [|c' chunks]; [change (total []) with 0 in Hgt; lia|].
        rewrite decide_False; [done|]. intros [?|?]; [done|lia].
Qed.
(** What is kept is the whole body, when it is within the limit. *)
Lemma replay_chunks_spec limit chunks : 0 <= limit -> replay_chunks limit chunks = if decide (total chunks <= limit) then Some chunks else None.
Proof.
  intros Hl. unfold replay_chunks. rewrite keep_chunks_spec by done. cbn [app].
  destruct (decide (total chunks <= limit)); [by rewrite decide_True by by right|]. rewrite decide_False; [done|].
  intros [->|?]; [|done]. change (total []) with 0 in n. lia.
Qed.
Lemma replay_chunks_snoc limit chunks chunk : replay_chunks limit (chunks ++ [chunk]) =
  match replay_chunks limit chunks with Some kept => if limit <? total chunks + len chunk then None else Some (kept ++ [chunk]) | None => None end.
Proof.
  unfold replay_chunks. rewrite !keep_chunks_spec by done. cbn [app]. rewrite total_snoc. assert (0 <= len chunk) by (unfold len; lia).
  destruct (Z.ltb_spec limit (total chunks + len chunk)).
  - rewrite decide_False; [by destruct (decide _)|]. intros [?|?]; [by destruct chunks|lia].
  - by rewrite !decide_True by (right; lia).
Qed.
Lemma replay_chunks_Some limit chunks kept : replay_chunks limit chunks = Some kept -> kept = chunks /\ total chunks <= Z.max 0 limit.
Proof.
  unfold replay_chunks. rewrite keep_chunks_spec by done. cbn [app]. destruct (decide _) as [Hd|]; [|done]. intros [= <-]. split; [done|].
  destruct Hd as [->|?]; [change (total []) with 0|]; lia.
Qed.
Lemma replay_chunks_None limit chunks : replay_chunks limit chunks = None -> limit < total chunks.
Proof. unfold replay_chunks. rewrite keep_chunks_spec by done. cbn [app]. destruct (decide _) as [|Hd]; [done|]. intros _. lia. Qed.

Lemma outcome_snoc events e : outcome (events ++ [e]) = match outcome events with Some o => Some o | None => outcome [e] end.
Proof. induction events as [|e' events IH]; [done|]. cbn [app]. destruct e'; cbn [outcome]; try done. Qed.
Lemma received_snoc events e : received (events ++ [e]) =
  match outcome events, e with None, re_data chunk _ => received events ++ [chunk] | _, _ => received events end.
Proof.
  induction events as [|e' events IH]; [by destruct e|]. cbn [app]. destruct e'; cbn [received outcome]; try done; rewrite IH; destruct (outcome events), e; done.
Qed.

Definition kept_by (limit : Z) (st : replay_body) : Prop := total (rb_replayChunks st) <= Z.max 0 limit.
Record under_way (limit : Z) (chunks : list bytes) (st : replay_body) : Prop := {
  uw_flowing : rb_flowing st = true; uw_guarded : rb_guarded st = true;
  uw_flags : rb_sourceEnded st = false /\ rb_sourceAborted st = false /\ rb_streamError st = false /\ rb_sourceDestroyed st = false /\ rb_teeEnded st = false;
  uw_open : rb_decisions st = [];
  uw_written : rb_written st = chunks; uw_total : rb_totalBytes st = total chunks;
  uw_kept : replay_chunks limit chunks = if rb_replayable st then Some (rb_replayChunks st) else None;
}.
Record over (o : replay_event) (chunks : list bytes) (d : option (list bytes)) (st : replay_body) : Prop := {
  ov_flowing : rb_flowing st = false; ov_decided : rb_decisions st = [d]; ov_written : rb_written st = chunks;
  ov_ended : d <> None -> rb_sourceEnded st = true;
  ov_end : rb_teeEnded st = match o with re_end => true | _ => false end;
  ov_stopped : rb_sourceAborted st || rb_sourceEnded st = true;
  ov_guarded : rb_sourceEnded st = true -> rb_guarded st = false;
  ov_error : rb_streamError st = true -> d = None;
  ov_destroyed : match o with re_teeClose | re_abort => rb_sourceDestroyed st = true | _ => True end;
}.
Definition replay_ok (limit : Z) (events : list replay_event) (st : replay_body) : Prop :=
  kept_by limit st /\
  match outcome events with
  | None => under_way limit (received events) st
  | Some o => over o (received events) (match o with re_end => replay_chunks limit (received events) | _ => None end) st
  end.

Lemma kept_of limit chunks (b : bool) k : replay_chunks limit chunks = (if b then Some k else None) -> (b = false -> k = []) -> total k <= Z.max 0 limit.
Proof. intros H Hb. destruct b; [by apply replay_chunks_Some in H as [-> ?]|]. rewrite Hb by done. change (total []) with 0. lia. Qed.
Lemma data_under_way limit chunks chunk full st : kept_by limit st -> under_way limit chunks st ->
  kept_by limit (onData limit chunk full st) /\ under_way limit (chunks ++ [chunk]) (onData limit chunk full st).
Proof.
  intros Hkb [Hf Hg Hfl Ho Hw Ht Hk]. assert (0 <= len chunk) by (unfold len; lia).
  assert (replay_chunks limit (chunks ++ [chunk]) = if limit <? total chunks + len chunk then None else if rb_replayable st then Some (rb_replayChunks st ++ [chunk]) else None) as Hs.
  { rewrite replay_chunks_snoc, Hk. destruct (rb_replayable st); [done|]. by destruct (_ <? _). }
  unfold onData. cbn zeta. rewrite Ht. unfold kept_by. destruct (Z.ltb_spec limit (total chunks + len chunk)) as [Hlt|Hge].
  - split; [cbn; change (total []) with 0; lia|]. split; cbn; try done; [by rewrite Hw|by rewrite total_snoc].
  - split.
    + cbn. destruct (rb_replayable st); [|done]. by apply replay_chunks_Some in Hs as [<- ?].
    + split; cbn; try done; [by rewrite Hw|by rewrite total_snoc|]. rewrite Hs. by destruct (rb_replayable st).
Qed.
(** Nothing of a settled body changes but who is told to stop. *)
Lemma over_decided o chunks d st r : over o chunks d st -> settleReplayDecision r st = st.
Proof. intros H. unfold settleReplayDecision. by rewrite (ov_decided _ _ _ _ H). Qed.
Lemma over_step limit o chunks d st e : (o = re_error \/ o <> re_end -> d = None) -> over o chunks d st -> over o chunks d (replay_step limit st e).
Proof.
  intros Hdn H. destruct e; cbn [replay_step]; rewrite ?(ov_flowing _ _ _ _ H); try done.
  - destruct (rb_guarded st) eqn:Eg; [|done]. unfold onError. cbn zeta. set (st1 := with_tee _ _ _ _ _ _). assert (over o chunks d st1) as H1; [|by rewrite (over_decided o chunks d)].
    destruct H as [Hf Hd Hw He Hen Hst Hg Her Hde]. assert (d = None) as ->.
    { destruct d; [|done]. specialize (He ltac:(done)). specialize (Hg He). congruence. }
    split; done.
  - destruct (rb_sourceDestroyed st) eqn:Ed; [|done]. destruct H as [Hf Hd Hw He Hen Hst Hg Her Hde]. split; try done. by destruct o.
  - destruct H. by split.
  - unfold abortSource. by rewrite (ov_stopped _ _ _ _ H).
  - unfold abort, abortSource. rewrite (ov_stopped _ _ _ _ H). destruct H. by split.
Qed.
Lemma step_kept limit e st : rb_flowing st = false -> kept_by limit st -> kept_by limit (replay_step limit st e).
Proof.
  intros Hf H. unfold kept_by in *. destruct e; cbn [replay_step]; rewrite ?Hf; try done.
  - destruct (rb_guarded st); [|done]. unfold onError, settleReplayDecision. by destruct (rb_decisions _).
  - by destruct (rb_sourceDestroyed st).
  - unfold abortSource, settleReplayDecision. destruct (_ || _); [done|]. by destruct (rb_decisions _).
  - unfold abort, abortSource, settleReplayDecision. destruct (_ || _); [done|]. by destruct (rb_decisions _).
Qed.
Lemma step_replay limit events st e : replay_ok limit events st -> replay_ok limit (events ++ [e]) (replay_step limit st e).
Proof.
  intros [Hkb H]. unfold replay_ok. rewrite outcome_snoc, received_snoc. destruct (outcome events) as [o|] eqn:Eo.
  - split; [by apply step_kept; [destruct H|]|]. apply over_step; [|done]. intros [->|Hne]; [done|]. by destruct o.
  - destruct e as [chunk full| | | | | |]; cbn [replay_step outcome].
    + rewrite (uw_flowing _ _ _ H). by apply data_under_way.
    + rewrite (uw_flowing _ _ _ H). destruct H as [Hf Hg (H1 & H2 & H3 & H4 & H5) Ho Hw Ht Hk]. unfold onEnd, settleReplayDecision, kept_by in *. cbn. rewrite Ho.
      split; [done|]. split; cbn; rewrite ?H2, ?H3; try done. by rewrite Hk.
    + rewrite (uw_guarded _ _ _ H). destruct H as [Hf Hg (H1 & H2 & H3 & H4 & H5) Ho Hw Ht Hk]. unfold onError, settleReplayDecision, kept_by in *. cbn. rewrite Ho.
      split; [done|]. by split.
    + destruct H as [Hf Hg (H1 & H2 & H3 & H4 & H5) Ho Hw Ht Hk]. rewrite H4. split; [done|]. by split.
    + split; [done|]. destruct H. by split.
    + destruct H as [Hf Hg (H1 & H2 & H3 & H4 & H5) Ho Hw Ht Hk]. unfold abortSource, settleReplayDecision, kept_by in *. rewrite H1, H2. cbn. rewrite Ho. cbn.
      split; [done|]. split; cbn; rewrite ?H1, ?H3; done.
    + destruct H as [Hf Hg (H1 & H2 & H3 & H4 & H5) Ho Hw Ht Hk]. unfold abort, abortSource, settleReplayDecision, kept_by in *. rewrite H1, H2. cbn. rewrite Ho. cbn.
      split; [done|]. split; cbn; rewrite ?H1, ?H3; done.
Qed.
Lemma run_replay limit events : replay_ok limit events (replay_run limit events).
Proof.
  induction events as [|e events IH] using rev_ind.
  - split; [unfold kept_by; cbn; change (total []) with 0; lia|]. by split.
  - unfold replay_run. rewrite fold_left_app. by apply step_replay.
Qed.

(** C23: a request body kept for a redirect, whatever its stream, the tee and the
    request do.  The decision is made at most once: when the source ends it is what
    the copying of an array gives for all chunks received (all of them, or nothing
    beyond the limit); when the source fails or is given up first, that the body
    cannot be sent again.  The request gets every chunk received, in order, and an
    end only at the end of the source; never more than the limit is kept; and a
    source that is given up is destroyed. *)
Theorem replay_body_correct limit events :
  let st := replay_run limit events in
  getReplayBody st = decision limit events /\ (length (rb_decisions st) <= 1)%nat /\
  rb_written st = received events /\ (rb_teeEnded st = true <-> outcome events = Some re_end) /\
  total (rb_replayChunks st) <= Z.max 0 limit /\
  (outcome events = Some re_teeClose \/ outcome events = Some re_abort -> rb_sourceDestroyed st = true).
Proof.
  intros st. destruct (run_replay limit events) as [Hkb H]. fold st in Hkb, H. unfold decision. destruct (outcome events) as [o|] eqn:Eo.
  - destruct H as [Hf Hd Hw He Hen Hst Hg Her Hde]. split_and!; try done.
    + unfold getReplayBody. rewrite Hd. cbn [head]. destruct (rb_streamError st) eqn:Es; destruct o; try done; by rewrite (Her eq_refl).
    + by rewrite Hd.
    + rewrite Hen. destruct o; naive_solver.
    + destruct o; naive_solver.
  - destruct H as [Hf Hg (H1 & H2 & H3 & H4 & H5) Ho Hw Ht Hk]. split_and!; try done.
    + unfold getReplayBody. by rewrite H3, Ho.
    + rewrite Ho. cbn. lia.
    + rewrite H5. naive_solver.
    + by intros [?|?].
Qed.

(** ** Observations *)
(** A body that is over the limit already is decided only at its end: until then a
    redirect that could not be followed anyway waits for the rest of the body. *)
Example over_limit_waits :
  getReplayBody (replay_run 1 [re_data [1; 2; 3] false]) = None /\
  getReplayBody (replay_run 1 [re_data [1; 2; 3] false; re_end]) = Some None.
Proof. by vm_compute. Qed.
