(* ===== verification/BrokerExchange.v ===== *)
(** One request of a Node broker on its session, and the opening of a WebSocket
    (verser2-guest-node [http2-verser-broker.ts], [requestOnce] and [webSocket]).

    Each is a promise settled by the events of an HTTP/2 stream, of the request
    body and of the abort signal; the machines run over those events. *)
From S2P Require Import Prelude JsNum Utf8 Json Errors Headers ResponseMetadata Http2Headers.

(** What a promise is rejected with: an error of the source, or the error
    [createAbortError] makes of the reason of the signal. *)
Inductive request_error : Type := qe_failed (e : exn) | qe_aborted.

(** ** The request *)
(** An iterable body may abort the signal while it is read: [abortAt] is the chunk
    at which the loop finds it aborted. *)
Inductive request_body : Type := qb_none | qb_chunks (chunks : list bytes) (abortAt : option nat) | qb_stream.
Record broker_request := {
  br_targetId : jsstring; br_routeDomain : option jsstring; br_method : jsstring; br_path : jsstring;
  br_headers : HeaderRecord; br_body : request_body;
}.
Record exchange_options := { xo_brokerId : jsstring; xo_leaseAcquireTimeoutMs : option jsnum }.
Definition exchange_id (options : exchange_options) (requestCounter : Z) : jsstring := xo_brokerId options ++ js "-" ++ num_to_string (num_int requestCounter).
Definition requestHeaders (options : exchange_options) (requestId : jsstring) (request : broker_request) : list (jsstring * jsstring) :=
  [(js ":method", js "POST"); (js ":path", js "/verser/request"); (js "x-verser-request-id", requestId);
   (js "x-verser-source-id", xo_brokerId options); (js "x-verser-target-id", br_targetId request)] ++
  match br_routeDomain request with Some d => [(js "x-verser-route-domain", d)] | None => [] end ++
  [(js "x-verser-method", br_method request); (js "x-verser-path", br_path request);
   (js "x-verser-headers", json_text (JObj (map (fun p => (p.1, JStr p.2)) (br_headers request))))] ++
  match xo_leaseAcquireTimeoutMs options with Some n => [(js "x-verser-lease-acquire-timeout-ms", num_to_string n)] | None => [] end.

(** ** The response *)
Record broker_response := {
  bp_requestId : jsstring; bp_statusCode : jsnum; bp_headers : HeaderRecord; bp_statusText : option jsstring; bp_headerPairs : option (list VerserHeaderPair);
}.
Definition response_metadata_values (headers : VerserHeaders) : option (list jsstring) :=
  match prop VERSER_RESPONSE_METADATA_HEADER headers with
  | JUndef => None
  | JArr l => Some (map to_str l)
  | v => Some [to_str v]
  end.
Definition legacy_headers (headers : VerserHeaders) : HeaderRecord :=
  filter (fun p => p.1 <> VERSER_RESPONSE_METADATA_HEADER) (stripHttp2PseudoHeaders headers).

Section Exchange.
Context {P : Platform}.
Definition application (requestId : jsstring) (status : Z) (headers : VerserHeaders) (metadata : option VerserResponseMetadata) : result exn broker_response :=
  match metadata with
  | None => Ok {| bp_requestId := requestId; bp_statusCode := num_int status; bp_headers := legacy_headers headers; bp_statusText := None; bp_headerPairs := None |}
  | Some m =>
      flat ← flattenVerserHeaderPairs (rm_headers m);
      Ok {| bp_requestId := requestId; bp_statusCode := rm_statusCode m; bp_headers := flat; bp_statusText := rm_statusText m; bp_headerPairs := Some (rm_headers m) |}
  end.

(** *** The machine *)
Inductive exchange_effect : Type :=
  | xe_write (chunk : bytes) | xe_end | xe_close (code : string) | xe_pipe | xe_unpipe | xe_destroy_body.
#[export] Instance exchange_effect_eq_dec : EqDecision exchange_effect.
Proof. solve_decision. Defined.
Record exchange := {
  xc_requestId : jsstring; xc_targetId : jsstring; xc_piped : bool;   (** the body is a stream *)
  xc_aborted : bool;                       (** [signal.aborted] *)
  xc_settled : bool;
  xc_promise : option (result request_error broker_response);
  xc_reading : bool;                       (** the error body is collected *)
  xc_closed : bool;                        (** the stream is closed or destroyed *)
  xc_over : bool;                          (** its 'close' was emitted *)
  xc_bodyDone : bool;                      (** the body is destroyed or ended *)
  xc_bodyGuarded : bool;                   (** the 'error' listener on the body *)
  xc_effects : list exchange_effect;
}.
Definition with_promise (settled : bool) (promise : option (result request_error broker_response)) (reading : bool) (st : exchange) : exchange :=
  {| xc_requestId := xc_requestId st; xc_targetId := xc_targetId st; xc_piped := xc_piped st; xc_aborted := xc_aborted st; xc_settled := settled;
     xc_promise := promise; xc_reading := reading; xc_closed := xc_closed st; xc_over := xc_over st; xc_bodyDone := xc_bodyDone st;
     xc_bodyGuarded := xc_bodyGuarded st; xc_effects := xc_effects st |}.
Definition with_flags (aborted closed over bodyDone guarded : bool) (effects : list exchange_effect) (st : exchange) : exchange :=
  {| xc_requestId := xc_requestId st; xc_targetId := xc_targetId st; xc_piped := xc_piped st; xc_aborted := aborted; xc_settled := xc_settled st;
     xc_promise := xc_promise st; xc_reading := xc_reading st; xc_closed := closed; xc_over := over; xc_bodyDone := bodyDone;
     xc_bodyGuarded := guarded; xc_effects := xc_effects st ++ effects |}.
(** Settling a promise that is settled does nothing. *)
Definition fulfil (r : result request_error broker_response) (st : exchange) : exchange :=
  match xc_promise st with Some _ => st | None => with_promise (xc_settled st) (Some r) (xc_reading st) st end.
Definition settleReject (e : exn) (st : exchange) : exchange :=
  if xc_settled st then st
  else fulfil (Throw (if xc_aborted st then qe_aborted else qe_failed e)) (with_promise true (xc_promise st) (xc_reading st) st).
Definition close_stream (code : string) (st : exchange) : exchange :=
  with_flags (xc_aborted st) true (xc_over st) (xc_bodyDone st) (xc_bodyGuarded st) [xe_close code] st.
#[global] Arguments close_stream code%_string st.

Definition cleanupBodyPipe (st : exchange) : exchange :=
  if xc_bodyDone st then with_flags (xc_aborted st) (xc_closed st) (xc_over st) true false [xe_unpipe] st
  else with_flags (xc_aborted st) (xc_closed st) (xc_over st) true (xc_bodyGuarded st) [xe_unpipe; xe_destroy_body] st.
Definition bodyErrorListener (e : exn) (st : exchange) : exchange :=
  let st := cleanupBodyPipe st in
  let st := if xc_closed st then st else close_stream "NGHTTP2_CANCEL" st in
  settleReject e st.

(** [settleReject(createAbortError(request.signal.reason))]. *)
Definition settleAborted (st : exchange) : exchange :=
  if xc_settled st then st else fulfil (Throw qe_aborted) (with_promise true (xc_promise st) (xc_reading st) st).
(** The chunks of an iterable body are written, until the signal is aborted. *)
Fixpoint send_chunks (chunks : list bytes) (abortAt : option nat) (st : exchange) : exchange :=
  match chunks, abortAt with
  | [], _ => with_flags (xc_aborted st) (xc_closed st) (xc_over st) (xc_bodyDone st) (xc_bodyGuarded st) [xe_end] st
  | _ :: _, Some O => settleAborted (close_stream "NGHTTP2_CANCEL" (with_flags true (xc_closed st) (xc_over st) (xc_bodyDone st) (xc_bodyGuarded st) [] st))
  | chunk :: chunks, _ =>
      send_chunks chunks (Nat.pred <$> abortAt)
        (with_flags (xc_aborted st) (xc_closed st) (xc_over st) (xc_bodyDone st) (xc_bodyGuarded st) [xe_write chunk] st)
  end.
(** After [session.request]: the body is sent. *)
Definition exchange_start (requestId : jsstring) (request : broker_request) : exchange :=
  let piped := match br_body request with qb_stream => true | _ => false end in
  let st := {| xc_requestId := requestId; xc_targetId := br_targetId request; xc_piped := piped; xc_aborted := false; xc_settled := false; xc_promise := None;
     xc_reading := false; xc_closed := false; xc_over := false; xc_bodyDone := false; xc_bodyGuarded := piped; xc_effects := [] |} in
  match br_body request with
  | qb_none => with_flags false false false false false [xe_end] st
  | qb_chunks chunks abortAt => send_chunks chunks abortAt st
  | qb_stream => with_flags false false false false true [xe_pipe] st
  end.

Definition closed_early (st : exchange) : exn := verr stream_failure "Stream closed before response headers" [(js "targetId", JStr (xc_targetId st))].
Definition reset_by_peer (st : exchange) (rstCode : Z) : exn :=
  verr stream_failure "Stream was reset by remote peer" [(js "targetId", JStr (xc_targetId st)); (js "rstCode", JStr (num_to_string (num_int rstCode)))].

Inductive exchange_event : Type :=
  | xv_abort                                           (** the signal is aborted *)
  | xv_response (status : Z) (headers : VerserHeaders) (** [status]: the number of [:status] *)
  | xv_error_body (r : result exn bytes)               (** [buffer(stream)] is settled *)
  | xv_error (e : exn) | xv_closing | xv_close (rstCode : option Z)
  | xv_body_error (e : exn) | xv_body_done | xv_body_close.
Definition on_response (status : Z) (headers : VerserHeaders) (st : exchange) : exchange :=
  match classifyVerserResponseMetadata status (xc_requestId st) (response_metadata_values headers) with
  | Throw e => settleReject e (close_stream "NGHTTP2_PROTOCOL_ERROR" st)
  | Ok transport_error => with_promise (xc_settled st) (xc_promise st) true st
  | Ok (application_response metadata) =>
      let st := with_promise true (xc_promise st) (xc_reading st) st in
      match application (xc_requestId st) status headers metadata with
      | Ok response => fulfil (Ok response) st
      | Throw e => settleReject e (close_stream "NGHTTP2_PROTOCOL_ERROR" st)
      end
  end.
Definition on_error_body (r : result exn bytes) (st : exchange) : exchange :=
  let st := with_promise (xc_settled st) (xc_promise st) false st in
  match r with
  | Throw e => settleReject e st
  | Ok body => match verserErrorFromResponseBody body (xc_targetId st) with Ok e => settleReject (VerserErr e) st | Throw e => settleReject e st end
  end.
Definition on_close (rstCode : option Z) (st : exchange) : exchange :=
  let st := with_flags (xc_aborted st) true true (xc_bodyDone st) (xc_bodyGuarded st) [] st in
  let st := settleReject (closed_early st) st in
  if xc_piped st then
    let st := cleanupBodyPipe st in
    match rstCode with
    | Some code => if code =? 0 then st else settleReject (reset_by_peer st code) st
    | None => st
    end
  else st.
Definition exchange_step (st : exchange) (ev : exchange_event) : exchange :=
  match ev with
  | xv_abort => with_flags true (xc_closed st) (xc_over st) (xc_bodyDone st) (xc_bodyGuarded st) [] st
  | xv_response status headers => if xc_over st then st else on_response status headers st
  | xv_error_body r => if xc_reading st then on_error_body r st else st
  | xv_error e => settleReject e st
  | xv_closing => with_flags (xc_aborted st) true (xc_over st) (xc_bodyDone st) (xc_bodyGuarded st) [] st
  | xv_close rstCode => if xc_over st then st else on_close rstCode st
  | xv_body_error e =>
      if xc_bodyGuarded st then bodyErrorListener e (with_flags (xc_aborted st) (xc_closed st) (xc_over st) (xc_bodyDone st) false [] st) else st
  | xv_body_done => with_flags (xc_aborted st) (xc_closed st) (xc_over st) true (xc_bodyGuarded st) [] st
  (* the listener [cleanupBodyPipe] put on 'close' *)
  | xv_body_close => if bool_decide (xe_destroy_body ∈ xc_effects st) then with_flags (xc_aborted st) (xc_closed st) (xc_over st) true false [] st else st
  end.
Definition exchange_run (requestId : jsstring) (request : broker_request) (events : list exchange_event) : exchange :=
  fold_left exchange_step events (exchange_start requestId request).

(** [requestOnce], up to the stream: [Throw] when the promise is rejected at once.
    [requested] is what [session.request] did, [aborted] the signal at the call. *)
Definition requestOnce (options : exchange_options) (connected aborted : bool) (requested : result exn unit) (requestCounter : Z) (request : broker_request)
    : Z * result request_error exchange :=
  if aborted then (requestCounter, Throw qe_aborted)
  else if negb connected then (requestCounter, Throw (qe_failed (verr disconnected_target "Broker is not connected" [])))
  else
    let requestCounter := requestCounter + 1 in
    (requestCounter, match requested with
                     | Throw e => Throw (qe_failed e)
                     | Ok _ => Ok (exchange_start (exchange_id options requestCounter) request)
                     end).
End Exchange.

(** * Theory *)
Section Theory.
Context {P : Platform} {C : CaseMapping}.

(** A response the broker hands out: of its own request, and either plain or with
    metadata that validates. *)
Definition good_response (requestId : jsstring) (r : broker_response) : Prop :=
  bp_requestId r = requestId /\
  match bp_headerPairs r with
  | None => exists status, bp_statusCode r = num_int status /\ status < 400
  | Some pairs =>
      exists m, metadata_ok m /\ rm_requestId m = requestId /\ bp_statusCode r = rm_statusCode m /\ pairs = rm_headers m /\
        bp_headers r = obj_of_entries pairs /\ bp_statusText r = rm_statusText m
  end.
Lemma flatten_ok pairs : Forall normal_pair pairs -> flattenVerserHeaderPairs pairs = Ok (obj_of_entries pairs).
Proof using C. intros H. unfold flattenVerserHeaderPairs. by rewrite normalizeHeaderPairs_values, normalize_pairs_id. Qed.
(** A classified response is handed out: nothing throws once the promise counts as settled. *)
Lemma application_ok requestId status headers metadata :
  classifyVerserResponseMetadata status requestId (response_metadata_values headers) = Ok (application_response metadata) ->
  exists r, application requestId status headers metadata = Ok r /\ good_response requestId r.
Proof using C.
  intros E. pose proof (classification_correct status requestId (response_metadata_values headers)) as Hc. rewrite E in Hc. destruct metadata as [m|].
  - destruct Hc as (text & _ & _ & Hm & Hid & _ & _). unfold application. rewrite (flatten_ok _ (ok_pairs _ Hm)). cbn [mbind result_bind].
    eexists. split; [done|]. split; [done|]. cbn. by exists m.
  - destruct Hc as [Hs _]. eexists. split; [done|]. split; [done|]. by exists status.
Qed.

Record exchange_ok (requestId : jsstring) (st : exchange) : Prop := {
  ek_id : xc_requestId st = requestId;
  ek_settled : xc_settled st = true <-> is_Some (xc_promise st);
  ek_over : xc_over st = true -> xc_settled st = true /\ (xc_piped st = true -> xc_bodyDone st = true /\ xe_unpipe ∈ xc_effects st);
  ek_good : forall r, xc_promise st = Some (Ok r) -> good_response requestId r;
}.
Lemma unsettled requestId st : exchange_ok requestId st -> xc_settled st = false -> xc_promise st = None.
Proof using Type.
  intros [_ H _ _] Es. destruct (xc_promise st); [|done]. assert (xc_settled st = true) by (apply H; by eexists). congruence.
Qed.
Lemma ok_flags requestId a c b g l st : exchange_ok requestId st -> (xc_bodyDone st = true -> b = true) -> exchange_ok requestId (with_flags a c (xc_over st) b g l st).
Proof using Type.
  intros [H1 H2 H3 H4] Hb. split; try done. cbn. intros Ho. destruct (H3 Ho) as [Hs Hp]. split; [done|]. intros Hq. destruct (Hp Hq) as [Hd Hu].
  split; [by apply Hb|]. apply elem_of_app. by left.
Qed.
Lemma ok_reject requestId e st : exchange_ok requestId st -> exchange_ok requestId (settleReject e st) /\ xc_settled (settleReject e st) = true.
Proof using Type.
  intros H. pose proof H as [H1 H2 H3 H4]. unfold settleReject. destruct (xc_settled st) eqn:Es; [done|]. pose proof (unsettled _ _ H Es) as Hn.
  unfold fulfil. cbn [xc_promise with_promise]. rewrite Hn. split; [|done]. split; try done; cbn.
  intros Ho. split; [done|]. by apply H3.
Qed.
Lemma reject_same e st : xc_requestId (settleReject e st) = xc_requestId st /\ xc_piped (settleReject e st) = xc_piped st.
Proof using Type. unfold settleReject, fulfil. destruct (xc_settled st); [done|]. cbn [xc_promise with_promise]. by destruct (xc_promise st). Qed.
Lemma ok_reading requestId b st : exchange_ok requestId st -> exchange_ok requestId (with_promise (xc_settled st) (xc_promise st) b st).
Proof using Type. by intros []. Qed.
Lemma ok_cleanup requestId st : exchange_ok requestId st ->
  exchange_ok requestId (cleanupBodyPipe st) /\ xc_bodyDone (cleanupBodyPipe st) = true /\ xe_unpipe ∈ xc_effects (cleanupBodyPipe st).
Proof using Type.
  intros H. unfold cleanupBodyPipe. destruct (xc_bodyDone st); (split; [by apply ok_flags|]); (split; [done|]); cbn; apply elem_of_app; right; by left.
Qed.
Lemma ok_response requestId status headers st : exchange_ok requestId st -> exchange_ok requestId (on_response status headers st).
Proof using C.
  intros H. unfold on_response. rewrite (ek_id _ _ H). destruct (classifyVerserResponseMetadata _ _ _) as [[metadata|]|e] eqn:Ec.
  - cbn [xc_requestId with_promise]. rewrite (ek_id _ _ H). destruct (application_ok _ _ _ _ Ec) as (r & -> & Hr). unfold fulfil. cbn [xc_promise with_promise].
    destruct H as [H1 H2 H3 H4]. destruct (xc_promise st) as [p|] eqn:Ep.
    + split; cbn; try done; try (by rewrite Ep); intros Ho; split; [done|by apply H3].
    + split; cbn; try done; [intros Ho; split; [done|by apply H3]|by intros r' [= <-]].
  - by apply ok_reading.
  - apply ok_reject, ok_flags; done.
Qed.
Lemma ok_close requestId rst st : exchange_ok requestId st -> exchange_ok requestId (on_close rst st).
Proof using Type.
  intros H. unfold on_close. cbn zeta. set (st0 := with_flags _ _ _ _ _ _ st).
  (* settled first: [close] is the last event of the stream *)
  assert (xc_settled (settleReject (closed_early st0) st0) = true /\ (xc_settled (settleReject (closed_early st0) st0) = true <-> is_Some (xc_promise (settleReject (closed_early st0) st0))) /\
    (forall r, xc_promise (settleReject (closed_early st0) st0) = Some (Ok r) -> good_response requestId r)) as (Hs & Hp & Hg).
  { pose proof (unsettled _ _ H) as Hn. destruct H as [H1 H2 H3 H4]. unfold settleReject. change (xc_settled st0) with (xc_settled st).
    destruct (xc_settled st) eqn:Es; [split_and!; [exact Es|split; [intros _; by apply H2|intros _; exact Es]|exact H4]|]. specialize (Hn eq_refl).
    unfold fulfil. cbn [xc_promise with_promise]. change (xc_promise st0) with (xc_promise st). rewrite Hn. cbn. split; [done|]. split; [split; [intros _; by eexists|done]|by intros r]. }
  set (st1 := settleReject _ st0) in *. assert (xc_requestId st1 = requestId /\ xc_piped st1 = xc_piped st) as [Hid Hpp].
  { rewrite <- (ek_id _ _ H). exact (reject_same (closed_early st0) st0). }
  clearbody st1. clear st0. destruct (xc_piped st1) eqn:Epi.
  - assert (exchange_ok requestId (cleanupBodyPipe st1)) as Hok.
    { unfold cleanupBodyPipe. destruct (xc_bodyDone st1); split; cbn; try done; intros _; (split; [done|]); intros _; (split; [done|]); apply elem_of_app; right; by left. }
    destruct rst as [code|]; [|done]. destruct (code =? 0); [done|]. by apply ok_reject.
  - split; try done. intros _. split; [done|]. by rewrite Epi.
Qed.
Lemma exchange_step_ok requestId ev st : exchange_ok requestId st -> exchange_ok requestId (exchange_step st ev).
Proof using C.
  intros H. destruct ev; cbn [exchange_step].
  - by apply ok_flags.
  - destruct (xc_over st); [done|]. by apply ok_response.
  - destruct (xc_reading st); [|done]. unfold on_error_body. cbn zeta. pose proof (ok_reading _ false _ H) as H'.
    destruct r as [body|e]; [|by apply ok_reject]. destruct (verserErrorFromResponseBody _ _); by apply ok_reject.
  - by apply ok_reject.
  - by apply ok_flags.
  - destruct (xc_over st); [done|]. by apply ok_close.
  - destruct (xc_bodyGuarded st); [|done]. unfold bodyErrorListener. cbn zeta.
    set (st1 := with_flags _ _ _ _ _ _ st). assert (exchange_ok requestId st1) as H1 by by apply ok_flags.
    apply ok_reject. destruct (ok_cleanup _ _ H1) as (H2 & _). destruct (xc_closed (cleanupBodyPipe st1)); [done|]. by apply ok_flags.
  - by apply ok_flags.
  - destruct (bool_decide _); [|done]. by apply ok_flags.
Qed.
Lemma ok_aborted requestId st : exchange_ok requestId st -> exchange_ok requestId (settleAborted st).
Proof using Type.
  intros H. pose proof H as [H1 H2 H3 H4]. unfold settleAborted. destruct (xc_settled st) eqn:Es; [done|]. pose proof (unsettled _ _ H Es) as Hn.
  unfold fulfil. cbn [xc_promise with_promise]. rewrite Hn. split; try done; cbn. intros Ho. split; [done|]. by apply H3.
Qed.
Lemma send_chunks_ok requestId chunks : forall abortAt st, exchange_ok requestId st -> exchange_ok requestId (send_chunks chunks abortAt st).
Proof using Type.
  induction chunks as [|chunk chunks IH]; intros abortAt st H; cbn [send_chunks]; [by apply ok_flags|].
  destruct abortAt as [[|n]|]; [|apply IH; by apply ok_flags..].
  apply ok_aborted. set (st1 := with_flags true _ _ _ _ _ st). assert (exchange_ok requestId st1) as H1 by by apply ok_flags.
  by apply (ok_flags requestId (xc_aborted st1) true (xc_bodyDone st1) (xc_bodyGuarded st1) _ st1).
Qed.
Lemma start_ok requestId request : exchange_ok requestId (exchange_start requestId request).
Proof using Type.
  unfold exchange_start. destruct (br_body request); [|apply send_chunks_ok|]; (split; try done; cbn; split; [done|by intros [? ?]]).
Qed.
Lemma run_exchange_ok requestId events : forall st, exchange_ok requestId st -> exchange_ok requestId (fold_left exchange_step events st).
Proof using C. induction events as [|ev events IH]; intros st H; [done|]. by apply IH, exchange_step_ok. Qed.

(** What the promise was settled with stays; a signal that is aborted stays so, and
    decides what a later rejection is. *)
Record later (st st' : exchange) : Prop := {
  la_promise : forall r, xc_promise st = Some r -> xc_promise st' = Some r;
  la_aborted : xc_aborted st = true -> xc_aborted st' = true;
  la_reject : xc_aborted st = true -> forall e, xc_promise st' = Some (Throw e) -> xc_promise st = None -> e = qe_aborted;
}.
Lemma later_refl st : later st st.
Proof using Type. split; try done. congruence. Qed.
Lemma exchange_later_trans a b c : later a b -> later b c -> later a c.
Proof using Type.
  intros [H1 H2 H3] [H4 H5 H6]. split; auto. intros Ha e He Hn. destruct (xc_promise b) as [r|] eqn:Eb; [|by apply H6; auto].
  pose proof (H4 r eq_refl) as E. rewrite He in E. injection E as <-. by apply H3.
Qed.
Lemma later_same st st' : xc_promise st' = xc_promise st -> (xc_aborted st = true -> xc_aborted st' = true) -> later st st'.
Proof using Type. intros E Ha. split; [by rewrite E|done|]. intros _ e. rewrite E. congruence. Qed.
Lemma later_reject e st : later st (settleReject e st).
Proof using Type.
  unfold settleReject. destruct (xc_settled st); [apply later_refl|]. unfold fulfil. cbn [xc_promise with_promise]. destruct (xc_promise st) as [r|] eqn:Ep.
  - by apply later_same.
  - split; try done; [congruence|]. cbn. intros Ha e'. destruct (xc_aborted st); [|done]. congruence.
Qed.
Lemma later_fulfil r st : later st (fulfil (Ok r) st).
Proof using Type.
  unfold fulfil. destruct (xc_promise st) eqn:Ep; [apply later_refl|]. split; cbn; congruence.
Qed.
Lemma later_cleanup st : later st (cleanupBodyPipe st).
Proof using Type. unfold cleanupBodyPipe. destruct (xc_bodyDone st); by apply later_same. Qed.
Lemma later_flags c o b g l st : later st (with_flags (xc_aborted st) c o b g l st).
Proof using Type. by apply later_same. Qed.
Lemma later_step st ev : later st (exchange_step st ev).
Proof using Type.
  destruct ev; cbn [exchange_step]; try (by apply later_same).
  - destruct (xc_over st); [apply later_refl|]. unfold on_response. destruct (classifyVerserResponseMetadata _ _ _) as [[metadata|]|e].
    + destruct (application _ _ _ _) as [r|e].
      * eapply exchange_later_trans; [|apply later_fulfil]. by apply later_same.
      * eapply exchange_later_trans; [|apply later_reject]. by apply later_same.
    + by apply later_same.
    + eapply exchange_later_trans; [|apply later_reject]. by apply later_same.
  - destruct (xc_reading st); [|apply later_refl]. unfold on_error_body. destruct r as [body|e]; [destruct (verserErrorFromResponseBody _ _)|];
      (eapply exchange_later_trans; [|apply later_reject]); by apply later_same.
  - apply later_reject.
  - destruct (xc_over st); [apply later_refl|]. unfold on_close. eapply exchange_later_trans; [apply later_flags|].
    eapply exchange_later_trans; [apply later_reject|]. cbn zeta. destruct (xc_piped _); [|apply later_refl].
    eapply exchange_later_trans; [apply later_cleanup|]. destruct rstCode as [code|]; [|apply later_refl]. destruct (code =? 0); [apply later_refl|apply later_reject].
  - destruct (xc_bodyGuarded st); [|apply later_refl]. unfold bodyErrorListener. cbn zeta. eapply exchange_later_trans; [apply later_flags|].
    eapply exchange_later_trans; [apply later_cleanup|]. eapply exchange_later_trans; [|apply later_reject]. destruct (xc_closed _); [apply later_refl|by apply later_same].
  - destruct (bool_decide _); [by apply later_same|apply later_refl].
Qed.
Lemma later_run events : forall st, later st (fold_left exchange_step events st).
Proof using Type. induction events as [|ev events IH]; intros st; [apply later_refl|]. cbn. eapply exchange_later_trans; [apply later_step|apply IH]. Qed.

(** C21: one request of a Node broker, whatever its stream, its body and its signal
    do.  It counts as settled exactly when its promise is; the end of the stream
    settles it, and then a body that was piped is off the stream and ended or
    destroyed; a response handed out is of this request, and plain below 400 or
    with metadata that validates and agrees; what the promise was settled with
    stays, and after an abort it can only be rejected with the abort error. *)
Theorem request_once_correct requestId request events events' :
  let st := exchange_run requestId request events in
  let st' := exchange_run requestId request (events ++ events') in
  (xc_settled st = true <-> is_Some (xc_promise st)) /\
  (xc_over st = true -> is_Some (xc_promise st) /\ (xc_piped st = true -> xc_bodyDone st = true /\ xe_unpipe ∈ xc_effects st)) /\
  (forall r, xc_promise st = Some (Ok r) -> good_response requestId r) /\
  (forall r, xc_promise st = Some r -> xc_promise st' = Some r) /\
  (xc_aborted st = true -> xc_promise st = None -> forall e, xc_promise st' = Some (Throw e) -> e = qe_aborted).
Proof using C.
  intros st st'. pose proof (run_exchange_ok requestId events _ (start_ok requestId request)) as [H1 H2 H3 H4]. fold (exchange_run requestId request events) in H1, H2, H3, H4.
  fold st in H1, H2, H3, H4. assert (later st st') as [L1 L2 L3].
  { unfold st', exchange_run. rewrite fold_left_app. apply later_run. }
  split; [exact H2|]. split; [|split; [exact H4|split; [exact L1|]]].
  - intros Ho. destruct (H3 Ho) as [Hs Hp]. split; [by apply H2|done].
  - intros Ha Hn e He. by apply L3.
Qed.
End Theory.

(** ** Opening a WebSocket: [webSocket] *)
Record ws_request := { wq_targetId : jsstring; wq_domain : jsstring; wq_protocol : option jsstring; wq_path : option jsstring }.
Definition given (name : string) (v : option jsstring) : list (jsstring * jsstring) := match v with Some (c :: s) => [(js name, c :: s)] | _ => [] end.
#[local] Arguments given name%_string v.
Definition ws_headers (brokerId : jsstring) (r : ws_request) : list (jsstring * jsstring) :=
  [(js ":method", js "POST"); (js ":path", js "/verser/websocket"); (js "x-verser-target-id", wq_targetId r); (js "x-verser-domain", wq_domain r);
   (js "x-verser-source-id", brokerId)] ++ given "x-verser-ws-protocol" (wq_protocol r) ++ given "x-verser-ws-path" (wq_path r).
Definition maxErrorBodyBytes : Z := 64 * 1024.
(** What it was settled with: the protocol of the WebSocket made of the stream. *)
Record handshake := {
  hk_settled : option (result exn jsstring);
  hk_status : option Z;                        (** of a refusal, whose body is collected *)
  hk_chunks : list bytes; hk_bodyBytes : Z;
}.
Definition handshake_start : handshake := {| hk_settled := None; hk_status := None; hk_chunks := []; hk_bodyBytes := 0 |}.
Definition settleOnce (r : result exn jsstring) (st : handshake) : handshake :=
  match hk_settled st with
  | Some _ => st
  | None => {| hk_settled := Some r; hk_status := hk_status st; hk_chunks := hk_chunks st; hk_bodyBytes := hk_bodyBytes st |}
  end.
Inductive handshake_event : Type :=
  | hv_response (status : Z) (protocol : jsstring) | hv_data (chunk : bytes) | hv_end | hv_error (e : exn) | hv_close.
Section Handshake.
Context {P : Platform} (request : ws_request).
Definition refusal (status : Z) (body : bytes) : exn :=
  match verserErrorFromResponseBody body (wq_targetId request) with
  | Ok parsed =>
      VerserErr (createVerserError (ve_code parsed) (ve_message parsed)
        (obj_assign (js "status") (JNum (num_int (if bool_decide (ve_code parsed = missing_guest) then 404 else status)))
          (obj_assign (js "domain") (JStr (wq_domain request)) (ve_context parsed))))
  | Throw _ =>
      verr_js (if status =? 404 then missing_guest else protocol_error) (js "WebSocket request failed with status " ++ num_to_string (num_int status))
        [(js "targetId", JStr (wq_targetId request)); (js "domain", JStr (wq_domain request))]
  end.
Definition collect (chunk : bytes) (st : handshake) : handshake :=
  if hk_bodyBytes st <? maxErrorBodyBytes then
    let bounded := take (Z.to_nat (maxErrorBodyBytes - hk_bodyBytes st)) chunk in
    {| hk_settled := hk_settled st; hk_status := hk_status st; hk_chunks := hk_chunks st ++ [bounded]; hk_bodyBytes := hk_bodyBytes st + len bounded |}
  else st.
Definition handshake_step (st : handshake) (ev : handshake_event) : handshake :=
  match ev with
  | hv_response status protocol =>
      if status =? 200 then settleOnce (Ok protocol) st
      else {| hk_settled := hk_settled st; hk_status := Some status; hk_chunks := []; hk_bodyBytes := 0 |}
  | hv_data chunk => match hk_status st with Some _ => collect chunk st | None => st end
  | hv_end => match hk_status st with Some status => settleOnce (Throw (refusal status (concat (hk_chunks st)))) st | None => st end
  | hv_error e => settleOnce (Throw e) st
  | hv_close => settleOnce (Throw (verr protocol_error "WebSocket stream closed before handshake response" [(js "targetId", JStr (wq_targetId request))])) st
  end.
Definition handshake_run (events : list handshake_event) : handshake := fold_left handshake_step events handshake_start.

Definition body_ok (st : handshake) : Prop := hk_bodyBytes st = len (concat (hk_chunks st)) /\ hk_bodyBytes st <= maxErrorBodyBytes.
Lemma collect_ok chunk st : body_ok st -> body_ok (collect chunk st).
Proof using Type.
  intros [H1 H2]. unfold collect. destruct (Z.ltb_spec (hk_bodyBytes st) maxErrorBodyBytes); [|done]. unfold body_ok. cbn [hk_bodyBytes hk_chunks].
  rewrite concat_app. cbn [concat]. rewrite app_nil_r. unfold len in *. rewrite length_app, length_take. lia.
Qed.
Lemma settleOnce_body r st : body_ok st -> body_ok (settleOnce r st).
Proof using Type. unfold settleOnce. by destruct (hk_settled st). Qed.
Lemma settleOnce_stays r st x : hk_settled st = Some x -> hk_settled (settleOnce r st) = Some x.
Proof using Type. unfold settleOnce. intros E. rewrite E. exact E. Qed.
Lemma handshake_step_ok ev st : body_ok st -> body_ok (handshake_step st ev) /\ forall x, hk_settled st = Some x -> hk_settled (handshake_step st ev) = Some x.
Proof using Type.
  intros H. destruct ev; cbn [handshake_step].
  - destruct (status =? 200); [split; [by apply settleOnce_body|intros x; apply settleOnce_stays]|]. split; [|done]. split; [done|]. cbn. unfold maxErrorBodyBytes. lia.
  - destruct (hk_status st); [|done]. split; [by apply collect_ok|]. unfold collect. by destruct (_ <? _).
  - destruct (hk_status st); [|done]. split; [by apply settleOnce_body|intros x; apply settleOnce_stays].
  - split; [by apply settleOnce_body|intros x; apply settleOnce_stays].
  - split; [by apply settleOnce_body|intros x; apply settleOnce_stays].
Qed.
Lemma handshake_run_ok events : forall st, body_ok st ->
  body_ok (fold_left handshake_step events st) /\ forall x, hk_settled st = Some x -> hk_settled (fold_left handshake_step events st) = Some x.
Proof using Type.
  induction events as [|ev events IH]; intros st H; [done|]. cbn [fold_left]. destruct (handshake_step_ok ev st H) as [H1 H2]. destruct (IH _ H1) as [H3 H4]. auto.
Qed.
(** The opening of a WebSocket by a Node broker: settled once and for all, at the
    latest when the stream closes; at most 64 KiB of a refusal are collected. *)
Theorem handshake_correct events events' :
  let st := handshake_run events in
  (forall r, hk_settled st = Some r -> hk_settled (handshake_run (events ++ events')) = Some r) /\
  is_Some (hk_settled (handshake_run (events ++ hv_close :: events'))) /\
  len (concat (hk_chunks st)) <= maxErrorBodyBytes.
Proof using Type.
  intros st. assert (body_ok handshake_start) as H0 by (split; [done|cbn; unfold maxErrorBodyBytes; lia]).
  destruct (handshake_run_ok events _ H0) as [[Hb1 Hb2] _]. fold (handshake_run events) in Hb1, Hb2. fold st in Hb1, Hb2.
  assert (forall evs, handshake_run (events ++ evs) = fold_left handshake_step evs st) as Ea by (intros evs; unfold handshake_run; by rewrite fold_left_app).
  split_and!.
  - intros r Hr. rewrite Ea. by apply handshake_run_ok.
  - rewrite Ea. cbn [fold_left handshake_step]. set (st1 := settleOnce _ st).
    assert (is_Some (hk_settled st1)) as [x Hx] by (unfold st1, settleOnce; destruct (hk_settled st) eqn:E; [by rewrite E|by eexists]).
    exists x. apply handshake_run_ok; [|done]. by apply settleOnce_body.
  - by rewrite <- Hb1.
Qed.
End Handshake.

(** ** Observations *)
Module SampleExchange.
(** The code of a reset is never told: the first ['close'] listener has settled the
    promise when the one that looks at the code runs. *)
Definition request : broker_request :=
  {| br_targetId := js "g"; br_routeDomain := None; br_method := js "POST"; br_path := js "/"; br_headers := []; br_body := qb_stream |}.
(** A body that aborts the signal at its second chunk. *)
Example abort_between_chunks :
  let st := exchange_start (js "b-1") {| br_targetId := js "g"; br_routeDomain := None; br_method := js "POST"; br_path := js "/"; br_headers := [];
    br_body := qb_chunks [[1]; [2]; [3]] (Some 1%nat) |} in
  xc_promise st = Some (Throw qe_aborted) /\ xc_effects st = [xe_write [1]; xe_close "NGHTTP2_CANCEL"].
Proof. by vm_compute. Qed.
Example reset_untold :
  xc_promise (exchange_run (P := ascii_platform) (js "b-1") request [xv_close (Some 8)]) =
  Some (Throw (qe_failed (verr stream_failure "Stream closed before response headers" [(js "targetId", JStr (js "g"))]))).
Proof. by vm_compute. Qed.
(** An aborted request whose stream then ends. *)
Lemma request_once_correct_witness :
  let st := exchange_run (P := ascii_platform) (js "b-1") request [xv_body_done; xv_abort] in
  let st' := exchange_run (P := ascii_platform) (js "b-1") request ([xv_body_done; xv_abort] ++ [xv_close (Some 8)]) in
  xc_promise st' = Some (Throw qe_aborted) /\ xc_over st' = true /\ (forall e, xc_promise st' = Some (Throw e) -> e = qe_aborted).
Proof.
  split; [by vm_compute|]. split; [by vm_compute|]. intros e He.
  pose proof (@request_once_correct ascii_platform ascii_platform_case (js "b-1") request [xv_body_done; xv_abort] [xv_close (Some 8)]) as H.
  apply H; [by vm_compute|by vm_compute|exact He].
Defined.
End SampleExchange.
