(* ===== verification/BrokerRedirects.v ===== *)
(** Following redirects inside the broker (verser2-guest-node
    [http2-verser-broker.ts], [request] and [requestWithInternalRedirects]): a 307 or
    308 to a domain the broker has a route for is requested from that route, with
    the body that was kept.

    A request is a computation of [Effects].  The answers of [requestOnce]
    ([BrokerExchange]) and of the kept body ([ReplayBody]), the routes ([NodeRoutes])
    and the signal are read from a world that may change at every step. *)
From S2P Require Import Prelude JsNum Utf8 Json Errors Headers ResponseMetadata Routing BrokerExchange Effects.

Inductive redirect_event : Type :=
  | rd_request (request : broker_request) (answer : result request_error broker_response)
  | rd_replay (answer : result request_error (option (list bytes)))
  | rd_destroy                       (** the body of the last response is destroyed *)
  | rd_abort_body.                   (** [replayableBody.abort()] *)
Abbreviation past := (list redirect_event).
Abbreviation redirecting := (eio request_error redirect_event).

Record redirect_url := { ru_hostname : jsstring; ru_path : jsstring }.   (** [pathname] and [search] *)
Class RedirectWorld := {
  rw_aborted : past -> bool;
  rw_connected : past -> bool;
  rw_routes : past -> list RoutedDomainRegistration;
  rw_once : past -> broker_request -> result request_error broker_response;
  rw_replay : past -> option (option (list bytes));                    (** the kept body; [None]: an abort came first *)
  rw_url : jsstring -> jsstring -> option redirect_url;                (** [new URL(location, `http://verser.invalid${path}`)] *)
}.

Definition DEFAULT_INTERNAL_REDIRECT_REPLAY_BUFFER_BYTES : Z := 16 * 1024.
Definition DEFAULT_MAX_INTERNAL_REDIRECTS : Z := 3.

Section Redirects.
Context {P : Platform} {W : RedirectWorld}.

Definition is_redirect (response : broker_response) : bool := num_eqb (bp_statusCode response) (num_int 307) || num_eqb (bp_statusCode response) (num_int 308).
Definition response_location (response : broker_response) : option jsstring := map_get (js "location") (bp_headers response).
Definition resolveInternalRedirect (routes : list RoutedDomainRegistration) (response : broker_response) (requestPath : jsstring)
    : option (RoutedDomainRegistration * redirect_url) :=
  if negb (is_redirect response) then None
  else
    location ← response_location response;
    url ← rw_url location requestPath;
    if str_eqb (ru_hostname url) (js "verser.invalid") then None
    else route ← resolveRouteForUrl routes (ru_hostname url); Some (route, url).

Definition awaitReplayOrAbort : redirecting (option (list bytes)) :=
  aborted ← io_read rw_aborted;
  if aborted : bool then io_throw qe_aborted else io_await (fun h => match rw_replay h with Some body => Ok body | None => Throw qe_aborted end) rd_replay.

Definition redirected (request : broker_request) (route : RoutedDomainRegistration) (url : redirect_url) (body : list bytes) : broker_request :=
  {| br_targetId := rd_targetId route; br_routeDomain := Some (rd_domain route); br_method := br_method request; br_path := ru_path url;
     br_headers := br_headers request; br_body := qb_chunks body None |}.
Definition limit_exceeded (maxInternalRedirects : Z) (response : broker_response) : request_error :=
  qe_failed (verr protocol_error "Broker internal redirect limit exceeded"
    [(js "maxInternalRedirects", JNum (num_int maxInternalRedirects));
     (js "redirectLocation", match response_location response with Some l => JStr l | None => JUndef end)]).
Definition unless_aborted (response : bool) (k : redirecting broker_response) : redirecting broker_response :=
  aborted ← io_read rw_aborted;
  if aborted : bool then _ ← io_when response (io_do rd_destroy); io_throw qe_aborted else k.

(** [remaining] is [maxInternalRedirects - hopCount]. *)
Fixpoint requestWithInternalRedirects (maxInternalRedirects : Z) (remaining : nat) (request : broker_request) : redirecting broker_response :=
  unless_aborted false
    (response ← io_await (fun h => rw_once h request) (rd_request request);
     unless_aborted true
       (redirectTarget ← io_read (fun h => resolveInternalRedirect (rw_routes h) response (br_path request));
        match redirectTarget with
        | None => mret response
        | Some (route, url) =>
            match remaining with
            | O => _ ← io_do rd_destroy; io_throw (limit_exceeded maxInternalRedirects response)
            | S remaining =>
                replayBody ← awaitReplayOrAbort;
                unless_aborted true
                  (match replayBody with
                   | None => mret response
                   | Some body => _ ← io_do rd_destroy; requestWithInternalRedirects maxInternalRedirects remaining (redirected request route url body)
                   end)
            end
        end)).

(** [request]: [body] is the body as it is sent the first time. *)
Definition request (maxInternalRedirects : Z) (input : broker_request) (headers : VerserHeaders) : redirecting broker_response :=
  aborted ← io_read rw_aborted;
  if aborted : bool then io_throw qe_aborted
  else
    headers ← io_lift (match validateLocalHeaders headers with Ok v => Ok (flattenVerserHeaders v) | Throw e => Throw (qe_failed e) end);
    connected ← io_read rw_connected;
    if negb connected then io_throw (qe_failed (verr disconnected_target "Broker is not connected" []))
    else
      let first := {| br_targetId := br_targetId input; br_routeDomain := br_routeDomain input; br_method := br_method input; br_path := br_path input;
                      br_headers := headers; br_body := br_body input |} in
      io_catch (requestWithInternalRedirects maxInternalRedirects (Z.to_nat maxInternalRedirects) first)
        (fun e => _ ← io_do rd_abort_body; io_throw e).

(** * Theory *)
Definition is_request (e : redirect_event) : Prop := match e with rd_request _ _ => True | _ => False end.
#[export] Instance is_request_dec e : Decision (is_request e).
Proof. destruct e; apply _. Defined.
Definition requests (h : past) : nat := length (filter is_request h).
Lemma requests_app h k : requests (h ++ k) = (requests h + requests k)%nat.
Proof using Type. unfold requests. by rewrite filter_app, length_app. Qed.

Lemma requests_request h q a : requests (h ++ [rd_request q a]) = S (requests h).
Proof using Type. rewrite requests_app. change (requests [rd_request q a]) with 1%nat. lia. Qed.
Lemma requests_other h e : ~ is_request e -> requests (h ++ [e]) = requests h.
Proof using Type. intros H. rewrite requests_app. assert (requests [e] = 0%nat) as ->; [|lia]. unfold requests. by rewrite filter_cons_False. Qed.

(** A request that follows a redirect: the response to the one before leads to a
    route the broker has, the body was kept, and that response is destroyed. *)
Definition follows (h : past) (q : broker_request) : Prop :=
  exists h1 q0 response route url body,
    h = h1 ++ [rd_request q0 (Ok response); rd_replay (Ok (Some body)); rd_destroy] /\
    is_redirect response = true /\ (exists location, response_location response = Some location /\ rw_url location (br_path q0) = Some url) /\
    route ∈ rw_routes (h1 ++ [rd_request q0 (Ok response)]) /\ rd_domain route = ru_hostname url /\
    q = redirected q0 route url body.
(** Requests never change their method and headers. *)
Definition same_request (q q' : broker_request) : Prop := br_method q' = br_method q /\ br_headers q' = br_headers q.
Definition redirect_allowed (first : broker_request) (h0 h : past) (e : redirect_event) : Prop :=
  match e with
  | rd_request q answer => answer = rw_once h q /\ rw_aborted h = false /\ same_request first q /\ (h = h0 /\ q = first \/ follows h q)
  | _ => True
  end.
Definition redirect_result (r : result request_error broker_response) (h : past) : Prop :=
  match r with
  | Ok response => exists h1 q rest, h = h1 ++ rd_request q (Ok response) :: rest /\ (rest = [] \/ rest = [rd_replay (Ok None)])
  | Throw e => e = qe_aborted \/ last h = Some rd_destroy \/ exists q, last h = Some (rd_request q (Throw e))
  end.

Lemma redirect_target routes response path route url : resolveInternalRedirect routes response path = Some (route, url) ->
  is_redirect response = true /\ (exists location, response_location response = Some location /\ rw_url location path = Some url) /\
  route ∈ routes /\ rd_domain route = ru_hostname url.
Proof using Type.
  unfold resolveInternalRedirect. destruct (is_redirect response); [|done]. cbn [negb]. destruct (response_location response) as [location|] eqn:El; [|done]. cbn [mbind option_bind].
  destruct (rw_url location path) as [u|] eqn:Eu; [|done]. cbn [mbind option_bind]. destruct (str_eqb (ru_hostname u) (js "verser.invalid")); [done|].
  unfold resolveRouteForUrl, resolveRouteForHostname. destruct (find _ routes) as [r|] eqn:Ef; [|done]. cbn. intros [= <- <-].
  apply find_some in Ef as [Hin He]. apply str_eqb_eq in He. split; [done|]. split; [by exists location|]. split; [by apply list_elem_of_In|done].
Qed.
Section Spec.
Context (Q : past -> redirect_event -> Prop) (Hother : forall h e, ~ is_request e -> Q h e).
Definition redirect_post (h : past) (remaining : nat) (r : result request_error broker_response) (h' : past) : Prop :=
  redirect_result r h' /\ (requests h' <= requests h + S remaining)%nat.
(** The end of a turn whose request was answered with [response]. *)
Lemma destroyed_post h0 remaining h e : (requests h <= requests h0 + S remaining)%nat -> redirect_post h0 remaining (Throw e) (h ++ [rd_destroy]).
Proof using Type.
  intros H. split; [|by rewrite requests_other by by intros []]. right. left. apply last_snoc.
Qed.
Lemma turn_spec q h remaining (m : broker_response -> redirecting broker_response) :
  (rw_aborted h = false -> Q h (rd_request q (rw_once h q))) ->
  (forall response, rw_once h q = Ok response ->
     wp Q (m response) (redirect_post h remaining) (h ++ [rd_request q (Ok response)])) ->
  wp Q (unless_aborted false (response ← io_await (fun h => rw_once h q) (rd_request q); unless_aborted true (m response)))
    (redirect_post h remaining) h.
Proof using Hother.
  intros Hq Hm. unfold unless_aborted. do 2 wp_step. wp_step.
  - do 2 wp_step; [done|]. wp_step. split; [by left|lia].
  - do 2 wp_step; [by apply Hq|]. destruct (rw_once h q) as [response|e] eqn:E.
    + do 2 wp_step. wp_step; [|by apply Hm]. do 2 wp_step; [|done]. wp_step; [apply Hother; exact id|]. wp_step.
      apply destroyed_post. rewrite requests_request. lia.
    + split; [|rewrite requests_request; lia]. right. right. exists q. apply last_snoc.
Qed.
End Spec.

Lemma redirects_spec max remaining first h0 : forall q h, same_request first q -> (h = h0 /\ q = first \/ follows h q) ->
  wp (redirect_allowed first h0) (requestWithInternalRedirects max remaining q) (redirect_post h remaining) h.
Proof using Type.
  assert (forall h e, ~ is_request e -> redirect_allowed first h0 h e) as Hother by (intros h []; try done; by intros []).
  induction remaining as [|remaining IH]; intros q h Hs Hq; cbn [requestWithInternalRedirects]; apply turn_spec; try done; intros response Er; do 2 wp_step;
    (destruct (resolveInternalRedirect _ response (br_path q)) as [[route url]|] eqn:Et;
       [|wp_step; split; [exists h, q, []; split; [done|by left]|rewrite requests_request; lia]]).
  - do 2 wp_step; [apply Hother; exact id|]. wp_step. apply destroyed_post. rewrite requests_request. lia.
  - wp_step. unfold awaitReplayOrAbort. do 2 wp_step. wp_step; [wp_step; split; [by left|rewrite requests_request; lia]|].
    wp_step; [apply Hother; exact id|]. set (h1 := h ++ [rd_request q (Ok response)]) in *.
    assert (requests h1 = S (requests h)) as Er1 by apply requests_request.
    assert (forall r, requests (h1 ++ [rd_replay r]) = S (requests h)) as Er2 by (intros r; rewrite requests_other; [done|by intros []]).
    destruct (rw_replay h1) as [replayBody|] eqn:Ep; [|split; [by left|rewrite Er2; lia]].
    unfold unless_aborted. do 2 wp_step. wp_step.
    { do 2 wp_step; [|done]. wp_step; [apply Hother; exact id|]. wp_step. apply destroyed_post. rewrite Er2. lia. }
    destruct replayBody as [body|].
    + do 2 wp_step; [apply Hother; exact id|]. eapply wp_call; [apply IH|].
      * by destruct Hs.
      * right. exists h, q, response, route, url, body. destruct (redirect_target _ _ _ _ _ Et) as (T1 & T2 & T3 & T4). split; [unfold h1; by rewrite <- !app_assoc|done].
      * intros r h' _ [H1 H2]. split; [done|]. rewrite requests_other, Er2 in H2 by by intros []. lia.
    + wp_step. split; [|rewrite Er2; lia]. exists h, q, [rd_replay (Ok None)]. split; [unfold h1; by rewrite <- app_assoc|by right].
Qed.

(** C22: a request of a Node broker with its redirects, whatever the streams, the
    routes and the signal do meanwhile.  At most one request more than the redirect
    limit is sent, each while the signal is not aborted and with the method and the
    validated headers of the first; each but the first answers a 307 or 308 to the
    one before, goes to a route the broker has for the host of the location, with
    the kept body, after that response was destroyed.  What is returned is the last
    response, untouched; a failure after the start gives up the request's body. *)
Theorem redirects_correct max input headers h :
  wp (fun h' e => match e with
                  | rd_request _ _ => exists validated, validateLocalHeaders headers = Ok validated /\
                      redirect_allowed {| br_targetId := br_targetId input; br_routeDomain := br_routeDomain input; br_method := br_method input;
                                          br_path := br_path input; br_headers := flattenVerserHeaders validated; br_body := br_body input |} h h' e
                  | _ => True
                  end)
    (request max input headers)
    (fun r h' => (requests h' <= requests h + S (Z.to_nat max))%nat /\
       match r with Ok _ => redirect_result r h' | Throw _ => h' = h \/ last h' = Some rd_abort_body end) h.
Proof using Type.
  unfold request. do 2 wp_step. wp_step; [wp_step; split; [lia|by left]|]. do 2 wp_step.
  destruct (validateLocalHeaders headers) as [validated|e] eqn:Ev; [|split; [lia|by left]]. do 2 wp_step. wp_step; [wp_step; split; [lia|by left]|].
  cbv zeta. wp_step. set (first := {| br_targetId := _ |}). eapply wp_weaken with (Q := redirect_allowed first h).
  { intros h' [q a| | |]; try done. intros H. exists validated. by split. }
  eapply wp_call; [apply redirects_spec; [done|by left]|]. intros r h' Hpre [H1 H2]. destruct r as [response|e]; [done|].
  do 2 wp_step; [done|]. wp_step. split; [by rewrite requests_other by by intros []|]. right. apply last_snoc.
Qed.
End Redirects.

(** ** A request that is redirected once *)
Module SampleRedirects.
Definition response (status : Z) (headers : HeaderRecord) : broker_response :=
  {| bp_requestId := js "b-1"; bp_statusCode := num_int status; bp_headers := headers; bp_statusText := None; bp_headerPairs := None |}.
Definition world : RedirectWorld := {|
  rw_aborted := fun _ => false; rw_connected := fun _ => true;
  rw_routes := fun _ => [{| rd_targetId := js "g2"; rd_domain := js "b.example" |}];
  rw_once := fun _ q => Ok (if str_eqb (br_path q) (js "/old") then response 307 [(js "location", js "http://b.example/new")] else response 200 []);
  rw_replay := fun _ => Some (Some [[1; 2]]);
  rw_url := fun _ _ => Some {| ru_hostname := js "b.example"; ru_path := js "/new" |};
|}.
Definition first : broker_request :=
  {| br_targetId := js "g"; br_routeDomain := None; br_method := js "POST"; br_path := js "/old"; br_headers := []; br_body := qb_stream |}.
Definition run (max : Z) : bool * list (option (jsstring * request_body)) :=
  let '(r, t) := request (P := ascii_platform) (W := world) max first [] [] in
  (match r with Ok _ => true | Throw _ => false end, map (fun e => match e with rd_request q _ => Some (br_targetId q, br_body q) | _ => None end) t).
Example follows_one : run 3 = (true, [Some (js "g", qb_stream); None; None; Some (js "g2", qb_chunks [[1; 2]] None)]).
Proof. by vm_compute. Qed.
Example limit_reached : run 0 = (false, [Some (js "g", qb_stream); None; None]).
Proof. by vm_compute. Qed.
End SampleRedirects.
