(* ===== verification/NodeGuest.v ===== *)
(** The connection of a guest of the Node package (verser2-guest-node
    [http2-verser-node-guest.ts]): connecting, registering, the pools of lease
    streams it keeps open for requests and for WebSockets, and closing.

    A call of [connect] or [close] is known by its number; the session a [connect]
    opens has the number of its call.  Leases and WebSocket leases are objects
    known by the order in which they were opened.  What sessions and streams do are
    events; [connect] is cut at its [await]s.  Streams are opened on sessions that
    are neither closed nor destroyed, where [session.request] does not throw;
    listeners of lifecycle events run as events of their own. *)
From S2P Require Import Prelude JsNum Utf8 Json Errors Routing.

Inductive lease_state : Type := ls_opening | ls_waiting | ls_active.
#[export] Instance lease_state_eq_dec : EqDecision lease_state.
Proof. solve_decision. Defined.
(** [GuestLeaseStream] with its stream and its timer. *)
Record guest_lease := {
  gl_session : nat; gl_state : lease_state;
  gl_armed : bool;      (** the timer of [leaseAcquireTimeoutMs] *)
  gl_answered : bool;   (** 'response' was emitted *)
  gl_over : bool;       (** 'close' was emitted *)
}.
Record ws_lease := { wl_session : nat; wl_answered : bool; wl_over : bool }.

Record guest_options := {
  go_guestId : jsstring; go_routedDomains : option (list jsstring);
  go_minWaitingStreams : option jsnum; go_maxOpenStreams : option jsnum; go_leaseAcquireTimeoutMs : option jsnum;
}.
Inductive guest_event : Type :=
  | ge_connected | ge_disconnected | ge_registered | ge_error (e : VerserError) | ge_closed (reason : jsstring).
Inductive guest_effect : Type :=
  | gx_open (s : nat) | gx_register (s : nat) (payload : jsval) | gx_control (s : nat) | gx_end_control (s : nat)
  | gx_lease (k s : nat) | gx_close_lease (k : nat)
  | gx_ws (w s : nat) | gx_close_ws (w : nat)
  | gx_close_session (s : nat) | gx_event (e : guest_event).

(** A call, up to the [await] it is at. *)
Inductive guest_call : Type :=
  | gc_connecting                              (** of the session with its number *)
  | gc_registering                             (** awaits the answer to its registration *)
  | gc_closing (s : nat) (reason : jsstring)
  | gc_settled (r : result exn unit).
Record attachments := {
  at_listener : bool; at_attachedDomain : option jsstring;
  at_wsHandler : bool; at_nativeWsHandler : bool; at_wsDomain : option jsstring;
}.
Record node_guest := {
  ng_attached : attachments;
  ng_session : option nat; ng_controlStream : option nat; ng_closing : bool;
  ng_leaseStreams : list nat; ng_leases : list guest_lease;
  ng_wsLeaseStreams : list nat; ng_wsLeases : list ws_lease;
  ng_closed : list nat;                        (** sessions that are [closed] or [destroyed] *)
  ng_over : list nat;                          (** sessions whose 'close' was emitted *)
  ng_calls : list guest_call;
  ng_log : list guest_effect;
}.
Definition ng_init : node_guest :=
  {| ng_attached := {| at_listener := false; at_attachedDomain := None; at_wsHandler := false; at_nativeWsHandler := false; at_wsDomain := None |};
     ng_session := None; ng_controlStream := None; ng_closing := false; ng_leaseStreams := []; ng_leases := []; ng_wsLeaseStreams := [];
     ng_wsLeases := []; ng_closed := []; ng_over := []; ng_calls := []; ng_log := [] |}.
Definition ng_attach (a : attachments) (st : node_guest) : node_guest :=
  {| ng_attached := a; ng_session := ng_session st; ng_controlStream := ng_controlStream st; ng_closing := ng_closing st;
     ng_leaseStreams := ng_leaseStreams st; ng_leases := ng_leases st; ng_wsLeaseStreams := ng_wsLeaseStreams st; ng_wsLeases := ng_wsLeases st;
     ng_closed := ng_closed st; ng_over := ng_over st; ng_calls := ng_calls st; ng_log := ng_log st |}.
Definition ng_link (session control : option nat) (closing : bool) (st : node_guest) : node_guest :=
  {| ng_attached := ng_attached st; ng_session := session; ng_controlStream := control; ng_closing := closing;
     ng_leaseStreams := ng_leaseStreams st; ng_leases := ng_leases st; ng_wsLeaseStreams := ng_wsLeaseStreams st; ng_wsLeases := ng_wsLeases st;
     ng_closed := ng_closed st; ng_over := ng_over st; ng_calls := ng_calls st; ng_log := ng_log st |}.
Definition ng_pool (streams : list nat) (leases : list guest_lease) (st : node_guest) : node_guest :=
  {| ng_attached := ng_attached st; ng_session := ng_session st; ng_controlStream := ng_controlStream st; ng_closing := ng_closing st;
     ng_leaseStreams := streams; ng_leases := leases; ng_wsLeaseStreams := ng_wsLeaseStreams st; ng_wsLeases := ng_wsLeases st;
     ng_closed := ng_closed st; ng_over := ng_over st; ng_calls := ng_calls st; ng_log := ng_log st |}.
Definition ng_ws_pool (streams : list nat) (leases : list ws_lease) (st : node_guest) : node_guest :=
  {| ng_attached := ng_attached st; ng_session := ng_session st; ng_controlStream := ng_controlStream st; ng_closing := ng_closing st;
     ng_leaseStreams := ng_leaseStreams st; ng_leases := ng_leases st; ng_wsLeaseStreams := streams; ng_wsLeases := leases;
     ng_closed := ng_closed st; ng_over := ng_over st; ng_calls := ng_calls st; ng_log := ng_log st |}.
Definition ng_ends (closed over : list nat) (st : node_guest) : node_guest :=
  {| ng_attached := ng_attached st; ng_session := ng_session st; ng_controlStream := ng_controlStream st; ng_closing := ng_closing st;
     ng_leaseStreams := ng_leaseStreams st; ng_leases := ng_leases st; ng_wsLeaseStreams := ng_wsLeaseStreams st; ng_wsLeases := ng_wsLeases st;
     ng_closed := closed; ng_over := over; ng_calls := ng_calls st; ng_log := ng_log st |}.
Definition ng_with_calls (calls : list guest_call) (st : node_guest) : node_guest :=
  {| ng_attached := ng_attached st; ng_session := ng_session st; ng_controlStream := ng_controlStream st; ng_closing := ng_closing st;
     ng_leaseStreams := ng_leaseStreams st; ng_leases := ng_leases st; ng_wsLeaseStreams := ng_wsLeaseStreams st; ng_wsLeases := ng_wsLeases st;
     ng_closed := ng_closed st; ng_over := ng_over st; ng_calls := calls; ng_log := ng_log st |}.
Definition ng_do (l : list guest_effect) (st : node_guest) : node_guest :=
  {| ng_attached := ng_attached st; ng_session := ng_session st; ng_controlStream := ng_controlStream st; ng_closing := ng_closing st;
     ng_leaseStreams := ng_leaseStreams st; ng_leases := ng_leases st; ng_wsLeaseStreams := ng_wsLeaseStreams st; ng_wsLeases := ng_wsLeases st;
     ng_closed := ng_closed st; ng_over := ng_over st; ng_calls := ng_calls st; ng_log := ng_log st ++ l |}.

(** [attach], [attachWebSocket], [attachNativeWebSocket]; [listener]: whether the
    server has a request listener. *)
Section Guest.
Context {P : Platform} (options : guest_options).

Definition attach (listener : bool) (domain : option jsstring) (st : node_guest) : result exn node_guest :=
  if negb listener then
    Throw (verr local_handler_failure "Attached HTTP server has no request listener" [(js "guestId", JStr (go_guestId options))])
  else
    let a := ng_attached st in
    Ok (ng_attach {| at_listener := true; at_attachedDomain := Some (default (go_guestId options) domain);
                     at_wsHandler := at_wsHandler a; at_nativeWsHandler := at_nativeWsHandler a; at_wsDomain := at_wsDomain a |} st).
Definition attachWebSocket (domain : option jsstring) (st : node_guest) : node_guest :=
  let a := ng_attached st in
  ng_attach {| at_listener := at_listener a; at_attachedDomain := at_attachedDomain a; at_wsHandler := true;
               at_nativeWsHandler := at_nativeWsHandler a; at_wsDomain := Some (default (go_guestId options) domain) |} st.
Definition attachNativeWebSocket (domain : option jsstring) (st : node_guest) : node_guest :=
  let a := ng_attached st in
  ng_attach {| at_listener := at_listener a; at_attachedDomain := at_attachedDomain a; at_wsHandler := at_wsHandler a;
               at_nativeWsHandler := true; at_wsDomain := Some (default (go_guestId options) domain) |} st.

Definition getRoutedDomains (st : node_guest) : list jsstring :=
  let a := ng_attached st in
  let domains := match at_attachedDomain a with Some d => [d] | None => [] end in
  let domains := match at_wsDomain a with
                 | Some d => if bool_decide (d ∈ domains) then domains else domains ++ [d]
                 | None => domains
                 end in
  match domains with [] => default [] (go_routedDomains options) | _ => domains end.

(** ** The pool of lease streams *)
(** [Math.max(0, Math.floor(…))] *)
Definition stream_limit (n : jsnum) : jsnum :=
  match n with
  | num_int z => num_int (Z.max 0 z)
  | num_frac m e => num_int (Z.max 0 (m / 2 ^ Z.pos e))
  | num_inf true => num_int 0
  | n => n
  end.
Definition normalizedMinWaitingStreams : jsnum := stream_limit (default (num_int 1) (go_minWaitingStreams options)).
Definition normalizedMaxOpenStreams : jsnum := stream_limit (default (num_int 16) (go_maxOpenStreams options)).
Definition below (n : Z) (limit : jsnum) : bool :=
  match limit with num_int z => n <? z | num_frac m e => n * 2 ^ Z.pos e <? m | num_inf neg => negb neg | num_nan => false end.

Definition is_connected (st : node_guest) : bool := match ng_session st with Some s => negb (set_has s (ng_closed st)) | None => false end.
Definition countLeases (state : lease_state) (st : node_guest) : Z :=
  len (filter (fun k => gl_state <$> ng_leases st !! k = Some state) (ng_leaseStreams st)).
Definition openLeaseStream (s : nat) (st : node_guest) : node_guest :=
  let k := length (ng_leases st) in
  let lease := {| gl_session := s; gl_state := ls_opening; gl_armed := bool_decide (is_Some (go_leaseAcquireTimeoutMs options));
                  gl_answered := false; gl_over := false |} in
  ng_do [gx_lease k s] (ng_pool (set_add k (ng_leaseStreams st)) (ng_leases st ++ [lease]) st).
Definition wants_lease (st : node_guest) : bool :=
  below (countLeases ls_waiting st + countLeases ls_opening st) normalizedMinWaitingStreams &&
  below (len (ng_leaseStreams st)) normalizedMaxOpenStreams.
Fixpoint open_leases (fuel : nat) (s : nat) (st : node_guest) : node_guest :=
  match fuel with
  | O => st
  | S fuel => if wants_lease st then open_leases fuel s (openLeaseStream s st) else st
  end.
(** The turns of the loop: each opens one stream. *)
Definition pool_fuel : nat :=
  match normalizedMinWaitingStreams, normalizedMaxOpenStreams with
  | num_int m, _ => Z.to_nat m
  | _, num_int m => Z.to_nat m
  | _, _ => O
  end.
Definition maintainLeasePool (st : node_guest) : node_guest :=
  match ng_session st with
  | None => st
  | Some s => if ng_closing st || set_has s (ng_closed st) then st else open_leases pool_fuel s st
  end.
Definition closeLeaseStreams (st : node_guest) : node_guest :=
  ng_do (map gx_close_lease (ng_leaseStreams st)) (ng_pool [] (ng_leases st) st).

(** ** The pool of WebSocket leases *)
Definition openWsLeaseStream (s : nat) (st : node_guest) : node_guest :=
  let w := length (ng_wsLeases st) in
  ng_do [gx_ws w s] (ng_ws_pool (set_add w (ng_wsLeaseStreams st)) (ng_wsLeases st ++ [{| wl_session := s; wl_answered := false; wl_over := false |}]) st).
Definition maintainWsLeasePool (st : node_guest) : node_guest :=
  if negb (at_wsHandler (ng_attached st) || at_nativeWsHandler (ng_attached st)) || ng_closing st then st
  else match ng_session st with
       | None => st
       | Some s => if set_has s (ng_closed st) then st
                   else if len (ng_wsLeaseStreams st) <? 4 then openWsLeaseStream s st else st
       end.
Definition delete_ws (w : nat) (st : node_guest) : node_guest :=
  ng_ws_pool (filter (fun x => x <> w) (ng_wsLeaseStreams st)) (ng_wsLeases st) st.
Definition closeWsLeaseStreams (st : node_guest) : node_guest :=
  ng_do (map gx_close_ws (ng_wsLeaseStreams st)) (ng_ws_pool [] (ng_wsLeases st) st).

(** ** Calls *)
Definition emitLifecycle (e : guest_event) (st : node_guest) : node_guest := ng_do [gx_event e] st.
(** [toVerserError] of error-utils.ts *)
Definition guest_error (e : exn) : VerserError :=
  match e with VerserErr e => e | _ => createVerserError protocol_error (getErrorMessage e) [(js "guestId", JStr (js "unknown"))] end.
Definition emit_error (e : exn) (st : node_guest) : node_guest := emitLifecycle (ge_error (guest_error e)) st.
(** A call goes on; a settled one stays as it is. *)
Definition set_call (c : nat) (state : guest_call) (st : node_guest) : node_guest :=
  ng_with_calls (alter (fun old => match old with gc_settled _ => old | _ => state end) c (ng_calls st)) st.
Definition settle (c : nat) (r : result exn unit) (st : node_guest) : node_guest := set_call c (gc_settled r) st.
Definition new_call (state : guest_call) (st : node_guest) : node_guest := ng_with_calls (ng_calls st ++ [state]) st.

(** [connect], up to its first [await].  [opened]: reading the TLS options and
    [http2.connect] may throw. *)
Definition connect (opened : result exn unit) (st : node_guest) : node_guest :=
  if is_connected st then new_call (gc_settled (Ok tt)) st
  else match opened with
       | Throw e => new_call (gc_settled (Throw e)) st
       | Ok _ => let s := length (ng_calls st) in
                 ng_do [gx_open s] (ng_link (Some s) (ng_controlStream st) false (new_call gc_connecting st))
       end.
Definition not_connected : exn := verr disconnected_target "Guest is not connected" [(js "guestId", JStr (go_guestId options))].
Definition registration (st : node_guest) : jsval :=
  JObj [(js "peerId", JStr (go_guestId options)); (js "role", JStr (js "guest")); (js "routedDomains", JArr (map JStr (getRoutedDomains st)))].
(** [register] uses the session of the guest, whatever session the call opened. *)
Definition connected (c : nat) (requested : result exn unit) (st : node_guest) : node_guest :=
  let st := emitLifecycle ge_connected st in
  match ng_session st, requested with
  | None, _ => settle c (Throw not_connected) st
  | _, Throw e => settle c (Throw e) st
  | Some s, Ok _ => ng_do [gx_register s (registration st)] (set_call c gc_registering st)
  end.
Definition not_registered : exn := verr invalid_registration "Host did not register Guest" [(js "guestId", JStr (go_guestId options))].
(** [control]: opening the control stream may throw.  The session [connect] opened
    has the call's number. *)
Definition registered (c : nat) (answer : result exn jsstring) (control : result exn unit) (st : node_guest) : node_guest :=
  match (body ← answer; parseRegistrationResponse body (go_guestId options) (js "guestId")) with
  | Throw e => settle c (Throw e) st
  | Ok response =>
      if negb (is_str (js "registered") (js_opt_member (js "status") response)) then settle c (Throw not_registered) st
      else
        let st := emitLifecycle ge_registered st in
        match control with
        | Throw e => settle c (Throw e) st
        | Ok _ =>
            let st := ng_do [gx_control c] (ng_link (ng_session st) (Some c) (ng_closing st) st) in
            settle c (Ok tt) (maintainWsLeasePool (maintainLeasePool st))
        end
  end.

Definition close (reason : jsstring) (st : node_guest) : node_guest :=
  match ng_session st with
  | None => new_call (gc_settled (Ok tt)) st
  | Some s =>
      let st := ng_link (ng_session st) (ng_controlStream st) true st in
      let st := ng_do (match ng_controlStream st with Some c => [gx_end_control c] | None => [] end) st in
      let st := closeWsLeaseStreams (closeLeaseStreams st) in
      let st := ng_do [gx_close_session s] (ng_ends (set_add s (ng_closed st)) (ng_over st) st) in
      new_call (gc_closing s reason) st
  end.

(** ['error'] of a session: the listener of [connect], and what awaits the session
    with [once]. *)
Definition session_error (s : nat) (e : exn) (st : node_guest) : node_guest :=
  let st := emit_error e st in
  ng_with_calls (imap (fun c call => match call with
                                     | gc_connecting => if bool_decide (c = s) then gc_settled (Throw e) else call
                                     | gc_closing s' _ => if bool_decide (s' = s) then gc_settled (Throw e) else call
                                     | _ => call
                                     end) (ng_calls st)) st.
(** ['close'] of a session: every session clears the pools. *)
Definition closed_reasons (s : nat) (calls : list guest_call) : list jsstring :=
  omap (fun call => match call with gc_closing s' reason => if bool_decide (s' = s) then Some reason else None | _ => None end) calls.
Definition session_close (s : nat) (st : node_guest) : node_guest :=
  let st := ng_ends (set_add s (ng_closed st)) (set_add s (ng_over st)) st in
  let st := ng_link None (ng_controlStream st) (ng_closing st) st in
  let st := emitLifecycle ge_disconnected (ng_ws_pool [] (ng_wsLeases st) (ng_pool [] (ng_leases st) st)) in
  let reasons := closed_reasons s (ng_calls st) in
  let st := ng_with_calls (map (fun call => match call with
                                            | gc_closing s' _ => if bool_decide (s' = s) then gc_settled (Ok tt) else call
                                            | _ => call
                                            end) (ng_calls st)) st in
  ng_do (map (fun reason => gx_event (ge_closed reason)) reasons) st.

(** ** The listeners of a lease *)
Definition set_lease (k : nat) (state : lease_state) (armed answered over : bool) (st : node_guest) : node_guest :=
  ng_pool (ng_leaseStreams st) (alter (fun l => {| gl_session := gl_session l; gl_state := state; gl_armed := armed; gl_answered := answered; gl_over := over |}) k (ng_leases st)) st.
Definition lease_response (k : nat) (l : guest_lease) (status : Z) (st : node_guest) : node_guest :=
  if status =? 200 then maintainLeasePool (set_lease k ls_waiting false true (gl_over l) st)
  else ng_do [gx_close_lease k] (set_lease k (gl_state l) false true (gl_over l) st).
Definition lease_timeout (k : nat) (l : guest_lease) (timeoutMs : jsnum) (st : node_guest) : node_guest :=
  let error := createVerserError timeout (js "Lease stream was not accepted before timeout")
                 [(js "guestId", JStr (go_guestId options)); (js "leaseId", JStr (go_guestId options ++ js "-lease-" ++ num_to_string (num_int (Z.of_nat k + 1))));
                  (js "timeoutMs", JNum timeoutMs)] in
  ng_do [gx_event (ge_error error); gx_close_lease k] (set_lease k (gl_state l) false (gl_answered l) (gl_over l) st).
Definition lease_close (k : nat) (l : guest_lease) (st : node_guest) : node_guest :=
  let st := set_lease k (gl_state l) false (gl_answered l) true st in
  let st := ng_pool (filter (fun x => x <> k) (ng_leaseStreams st)) (ng_leases st) st in
  if ng_closing st then st else maintainLeasePool st.
Definition lease_error (k : nat) (l : guest_lease) (e : exn) (st : node_guest) : node_guest :=
  emit_error e (set_lease k (gl_state l) false (gl_answered l) (gl_over l) st).
(** [handleLeaseStream] goes on with the metadata of a request, or is rejected. *)
Definition lease_metadata (k : nat) (l : guest_lease) (st : node_guest) : node_guest :=
  set_lease k ls_active (gl_armed l) (gl_answered l) (gl_over l) st.
Definition lease_failed (k : nat) (e : exn) (st : node_guest) : node_guest :=
  if ng_closing st then st else ng_do [gx_close_lease k] (emit_error e st).

(** ** The listeners of a WebSocket lease *)
Definition set_ws (w : nat) (answered over : bool) (st : node_guest) : node_guest :=
  ng_ws_pool (ng_wsLeaseStreams st) (alter (fun l => {| wl_session := wl_session l; wl_answered := answered; wl_over := over |}) w (ng_wsLeases st)) st.
Definition ws_response (w : nat) (l : ws_lease) (status : Z) (st : node_guest) : node_guest :=
  let st := set_ws w true (wl_over l) st in
  if negb (status =? 200) then ng_do [gx_close_ws w] (delete_ws w st) else maintainWsLeasePool st.
Definition ws_close (w : nat) (l : ws_lease) (st : node_guest) : node_guest :=
  let st := delete_ws w (set_ws w (wl_answered l) true st) in
  if ng_closing st then st else maintainWsLeasePool st.
Definition ws_failed (w : nat) (e : exn) (st : node_guest) : node_guest :=
  if ng_closing st then st else maintainWsLeasePool (ng_do [gx_close_ws w] (delete_ws w (emit_error e st))).

(** ** Steps *)
Inductive guest_input : Type :=
  | gv_attach (listener : bool) (domain : option jsstring) | gv_attachWebSocket (domain : option jsstring) | gv_attachNativeWebSocket (domain : option jsstring)
  | gv_connect (opened : result exn unit)
  | gv_connected (c : nat) (requested : result exn unit)
  | gv_registered (c : nat) (answer : result exn jsstring) (control : result exn unit)
  | gv_close (reason : jsstring)
  | gv_session_error (s : nat) (e : exn) | gv_session_closing (s : nat) | gv_session_close (s : nat)
  | gv_lease_response (k : nat) (status : Z) | gv_lease_timeout (k : nat) | gv_lease_close (k : nat) | gv_lease_error (k : nat) (e : exn)
  | gv_lease_metadata (k : nat) | gv_lease_failed (k : nat) (e : exn)
  | gv_ws_response (w : nat) (status : Z) | gv_ws_close (w : nat) | gv_ws_error (w : nat) (e : exn)
  | gv_ws_failed (w : nat) (e : exn)        (** [handleWsLeaseStream] is rejected *)
  | gv_ws_refused (w : nat)                 (** … or the handler refuses the WebSocket *)
  | gv_ws_accepted (w : nat).
Definition on_lease (k : nat) (ok : guest_lease -> bool) (f : guest_lease -> node_guest -> node_guest) (st : node_guest) : node_guest :=
  match ng_leases st !! k with Some l => if ok l then f l st else st | None => st end.
Definition on_ws (w : nat) (ok : ws_lease -> bool) (f : ws_lease -> node_guest -> node_guest) (st : node_guest) : node_guest :=
  match ng_wsLeases st !! w with Some l => if ok l then f l st else st | None => st end.
Definition is_call (c : nat) (state : guest_call -> bool) (st : node_guest) : bool :=
  match ng_calls st !! c with Some call => state call | None => false end.
Definition opened_sessions (st : node_guest) : list nat := omap (fun e => match e with gx_open s => Some s | _ => None end) (ng_log st).
Definition on_session (s : nat) (f : node_guest -> node_guest) (st : node_guest) : node_guest := if set_has s (opened_sessions st) then f st else st.
Definition guest_step (st : node_guest) (ev : guest_input) : node_guest :=
  match ev with
  | gv_attach listener domain => match attach listener domain st with Ok st' => st' | Throw _ => st end
  | gv_attachWebSocket domain => attachWebSocket domain st
  | gv_attachNativeWebSocket domain => attachNativeWebSocket domain st
  | gv_connect opened => connect opened st
  | gv_connected c requested =>
      if is_call c (fun call => match call with gc_connecting => true | _ => false end) st && negb (set_has c (ng_over st)) then connected c requested st else st
  | gv_registered c answer control =>
      if is_call c (fun call => match call with gc_registering => true | _ => false end) st then registered c answer control st else st
  | gv_close reason => close reason st
  | gv_session_error s e => on_session s (session_error s e) st
  | gv_session_closing s => on_session s (fun st => ng_ends (set_add s (ng_closed st)) (ng_over st) st) st
  | gv_session_close s => on_session s (fun st => if set_has s (ng_over st) then st else session_close s st) st
  | gv_lease_response k status => on_lease k (fun l => negb (gl_answered l) && negb (gl_over l)) (fun l => lease_response k l status) st
  | gv_lease_timeout k =>
      match go_leaseAcquireTimeoutMs options with Some ms => on_lease k gl_armed (fun l => lease_timeout k l ms) st | None => st end
  | gv_lease_close k => on_lease k (fun l => negb (gl_over l)) (lease_close k) st
  | gv_lease_error k e => on_lease k (fun _ => true) (fun l => lease_error k l e) st
  | gv_lease_metadata k => on_lease k (fun l => gl_answered l && bool_decide (gl_state l = ls_waiting)) (lease_metadata k) st
  | gv_lease_failed k e => on_lease k (fun _ => true) (fun _ => lease_failed k e) st
  | gv_ws_response w status => on_ws w (fun l => negb (wl_answered l) && negb (wl_over l)) (fun l => ws_response w l status) st
  | gv_ws_close w => on_ws w (fun l => negb (wl_over l)) (ws_close w) st
  | gv_ws_error w e => emit_error e st
  | gv_ws_failed w e => on_ws w wl_answered (fun _ => ws_failed w e) st
  | gv_ws_refused w => on_ws w wl_answered (fun _ => ng_do [gx_close_ws w]) st
  | gv_ws_accepted w => on_ws w wl_answered (fun _ => maintainWsLeasePool) st
  end.
Definition guest_run (events : list guest_input) : node_guest := fold_left guest_step events ng_init.
End Guest.

(** * Theory *)
Lemma below_mono n m l : below n l = true -> m <= n -> below m l = true.
Proof. destruct l as [z|q e|[]|]; cbn; intros H Hm; try done; [lia|]. assert (0 < 2 ^ Z.pos e) by lia. nia. Qed.

(** What the pools keep: the streams of the map are distinct, open and within the
    limit; only a stream that waits for its answer has a timer. *)
Record leases_ok (max : jsnum) (streams : list nat) (leases : list guest_lease) : Prop := {
  lo_nodup : NoDup streams;
  lo_open : forall k, k ∈ streams -> exists l, leases !! k = Some l /\ gl_over l = false;
  lo_max : streams = [] \/ below (len streams - 1) max = true;
  lo_timer : forall k l, leases !! k = Some l -> gl_armed l = true -> gl_answered l = false /\ gl_over l = false;
}.
Record ws_ok (streams : list nat) (leases : list ws_lease) : Prop := {
  wo_nodup : NoDup streams;
  wo_open : forall w, w ∈ streams -> exists l, leases !! w = Some l /\ wl_over l = false;
  wo_max : len streams <= 4;
}.

Lemma leases_remove max streams leases streams' : leases_ok max streams leases -> NoDup streams' -> (forall k, k ∈ streams' -> k ∈ streams) ->
  len streams' <= len streams -> leases_ok max streams' leases.
Proof.
  intros [H1 H2 H3 H4] Hn Hs Hl. split; [done|auto| |done]. destruct streams' as [|x t]; [by left|right].
  destruct H3 as [->|H3]; [by specialize (Hs x ltac:(by left)); apply elem_of_nil in Hs|]. eapply below_mono; [exact H3|lia].
Qed.
Lemma filter_len `{forall x, Decision (Q x)} (l : list nat) : len (filter Q l) <= len l.
Proof. unfold len. pose proof (length_filter Q l). lia. Qed.
Lemma leases_filter Q `{forall x, Decision (Q x)} max streams leases : leases_ok max streams leases -> leases_ok max (filter Q streams) leases.
Proof.
  intros H1. eapply leases_remove; [exact H1|by apply NoDup_filter, (lo_nodup _ _ _ H1)|by intros k [_ ?]%list_elem_of_filter|apply filter_len].
Qed.
Lemma leases_clear max streams leases : leases_ok max streams leases -> leases_ok max [] leases.
Proof. intros H. eapply leases_remove; [exact H|constructor|by intros k ?%elem_of_nil|unfold len; cbn; lia]. Qed.
Lemma leases_set max streams leases k l f : leases_ok max streams leases -> leases !! k = Some l ->
  (gl_over (f l) = true -> k ∉ streams) -> (gl_armed (f l) = true -> gl_answered (f l) = false /\ gl_over (f l) = false) ->
  leases_ok max streams (alter f k leases).
Proof.
  intros [H1 H2 H3 H4] Hk Ho Ht. split; [done| |done|].
  - intros j Hj. destruct (H2 j Hj) as (l' & Hl & Hv). destruct (decide (j = k)) as [->|Hn].
    + rewrite list_lookup_alter_eq, Hk. eexists. split; [reflexivity|]. apply not_true_is_false. intros E. by apply (Ho E).
    + rewrite list_lookup_alter_ne by done. eauto.
  - intros j l'. destruct (decide (j = k)) as [->|Hn]; [rewrite list_lookup_alter_eq, Hk; intros [= <-]; auto|rewrite list_lookup_alter_ne by done; apply H4].
Qed.
Lemma ws_filter Q `{forall x, Decision (Q x)} streams leases : ws_ok streams leases -> ws_ok (filter Q streams) leases.
Proof.
  intros [H1 H2 H3]. split; [by apply NoDup_filter|intros w [_ Hw]%list_elem_of_filter; auto|]. pose proof (filter_len (Q := Q) streams). lia.
Qed.
Lemma ws_set streams leases w l f : ws_ok streams leases -> leases !! w = Some l -> (wl_over (f l) = true -> w ∉ streams) -> ws_ok streams (alter f w leases).
Proof.
  intros [H1 H2 H3] Hw Ho. split; [done| |done]. intros j Hj. destruct (H2 j Hj) as (l' & Hl & Hv). destruct (decide (j = w)) as [->|Hn].
  - rewrite list_lookup_alter_eq, Hw. eexists. split; [reflexivity|]. apply not_true_is_false. intros E. by apply (Ho E).
  - rewrite list_lookup_alter_ne by done. eauto.
Qed.
Lemma ws_clear streams leases : ws_ok streams leases -> ws_ok [] leases.
Proof. intros [H1 H2 H3]. split; [constructor|by intros w ?%elem_of_nil|unfold len; cbn; lia]. Qed.

Lemma filter_agree {A} Q1 Q2 `{forall x : A, Decision (Q1 x)} `{forall x : A, Decision (Q2 x)} (l : list A) :
  (forall x, x ∈ l -> Q1 x <-> Q2 x) -> filter Q1 l = filter Q2 l.
Proof.
  induction l as [|x l IH]; intros E; [done|]. rewrite !filter_cons, IH by (intros y Hy; apply E; by right).
  pose proof (E x ltac:(by left)). case_decide; case_decide; tauto.
Qed.

Section Theory.
Context {P : Platform} (options : guest_options).
Let min := normalizedMinWaitingStreams options.
Let max := normalizedMaxOpenStreams options.

Record core_ok (st : node_guest) : Prop := {
  cr_leases : leases_ok max (ng_leaseStreams st) (ng_leases st);
  cr_ws : ws_ok (ng_wsLeaseStreams st) (ng_wsLeases st);
  cr_session : forall s, ng_session st = Some s -> is_Some (ng_calls st !! s);
}.
(** The pool of a session that is up: enough streams, or no room for more. *)
Definition full (size : Z) : Prop := below size min = false \/ below size max = false.
Definition up (s : nat) (st : node_guest) : Prop :=
  ng_session st = Some s /\ ng_closing st = false /\ s ∉ ng_closed st /\ ng_calls st !! s = Some (gc_settled (Ok tt)).
Definition full_ok (st : node_guest) : Prop := forall s, up s st -> full (len (ng_leaseStreams st)).

(** ** Filling the pools *)
Definition ready (st : node_guest) : Z := countLeases ls_waiting st + countLeases ls_opening st.
Lemma count_nonneg state st : 0 <= countLeases state st.
Proof. unfold countLeases, len. lia. Qed.
Lemma ready_size st : ready st <= len (ng_leaseStreams st).
Proof.
  unfold ready, countLeases, len. induction (ng_leaseStreams st) as [|k t IH]; [cbn; lia|]. rewrite !filter_cons.
  case_decide as Ew; case_decide as Eo; cbn [length]; try lia. rewrite Ew in Eo. discriminate.
Qed.
Lemma count_ext state st streams leases : (forall k, k ∈ streams -> leases !! k = ng_leases st !! k) ->
  countLeases state (ng_pool streams leases st) = len (filter (fun k => gl_state <$> ng_leases st !! k = Some state) streams).
Proof. intros H. unfold countLeases. cbn. f_equal. apply filter_agree. intros k Hk. by rewrite H. Qed.
Lemma lease_fresh st : core_ok st -> length (ng_leases st) ∉ ng_leaseStreams st.
Proof. intros H Hk. destruct (lo_open _ _ _ (cr_leases _ H) _ Hk) as (l & Hl%lookup_lt_Some & _). lia. Qed.
Lemma ws_fresh st : core_ok st -> length (ng_wsLeases st) ∉ ng_wsLeaseStreams st.
Proof. intros H Hk. destruct (wo_open _ _ (cr_ws _ H) _ Hk) as (l & Hl%lookup_lt_Some & _). lia. Qed.
Lemma set_add_new k (l : list nat) : k ∉ l -> set_add k l = l ++ [k].
Proof. intros H. unfold set_add. by rewrite decide_False. Qed.

Lemma open_lease_size s st : core_ok st -> len (ng_leaseStreams (openLeaseStream options s st)) = len (ng_leaseStreams st) + 1.
Proof. intros H. cbn. rewrite set_add_new by by apply lease_fresh. rewrite len_app. unfold len. cbn. lia. Qed.
Lemma open_lease_ready s st : core_ok st -> ready (openLeaseStream options s st) = ready st + 1.
Proof.
  intros H. pose proof (lease_fresh _ H) as Hf. unfold ready, openLeaseStream. rewrite set_add_new by done.
  assert (forall state, countLeases state (ng_do [gx_lease (length (ng_leases st)) s] (ng_pool (ng_leaseStreams st ++ [length (ng_leases st)])
    (ng_leases st ++ [{| gl_session := s; gl_state := ls_opening; gl_armed := bool_decide (is_Some (go_leaseAcquireTimeoutMs options)); gl_answered := false; gl_over := false |}]) st)) =
    countLeases state st + (if decide (state = ls_opening) then 1 else 0)) as E.
  { intros state. unfold countLeases. cbn [ng_leaseStreams ng_leases ng_do ng_pool]. rewrite filter_app, len_app. f_equal.
    - f_equal. apply filter_agree. intros k Hk. destruct (lo_open _ _ _ (cr_leases _ H) _ Hk) as (l & Hl & _).
      by rewrite lookup_app_l by by eapply lookup_lt_Some.
    - rewrite filter_cons, filter_nil, lookup_app_r, Nat.sub_diag by lia. cbn. destruct state; reflexivity. }
  rewrite !E. destruct (decide (ls_waiting = ls_opening)); [done|]. rewrite decide_True by done. lia.
Qed.
Lemma open_lease_core s st : core_ok st -> wants_lease options st = true -> core_ok (openLeaseStream options s st).
Proof.
  intros H Hw. pose proof (lease_fresh _ H) as Hf. pose proof (open_lease_size s st H) as Hsize. destruct H as [[H1 H2 H3 H4] Hws Hs].
  unfold wants_lease in Hw. apply andb_true_iff in Hw as [_ Hw]. split; [|done|done]. split.
  - cbn. by apply set_add_NoDup.
  - intros k [->|Hk]%set_add_elem; cbn; [rewrite lookup_app_r, Nat.sub_diag by lia; by eexists|].
    destruct (H2 k Hk) as (l & Hl & Ho). exists l. by rewrite lookup_app_l by by eapply lookup_lt_Some.
  - right. rewrite Hsize. by replace (len (ng_leaseStreams st) + 1 - 1) with (len (ng_leaseStreams st)) by lia.
  - intros k l. cbn. intros [Hl|[_ Hl]]%lookup_app_Some; [eauto|]. apply list_lookup_singleton_Some in Hl as [_ <-]. by split.
Qed.

(** Only the pool and the log change. *)
Record pool_only (st st' : node_guest) : Prop := {
  po_session : ng_session st' = ng_session st; po_closing : ng_closing st' = ng_closing st; po_closed : ng_closed st' = ng_closed st;
  po_calls : ng_calls st' = ng_calls st;
}.
Lemma open_leases_spec fuel s : forall st, core_ok st -> let st' := open_leases options fuel s st in
  core_ok st' /\ pool_only st st' /\
  (below (ready st + Z.of_nat fuel) min = false \/ below (len (ng_leaseStreams st) + Z.of_nat fuel) max = false -> wants_lease options st' = false).
Proof.
  induction fuel as [|fuel IH]; intros st H.
  - cbn. split_and!; [done|by split|]. rewrite !Z.add_0_r. unfold wants_lease, ready, min, max. intros [->| ->]; [done|apply andb_false_r].
  - cbn [open_leases]. destruct (wants_lease options st) eqn:Ew; [|split_and!; [done|by split|done]].
    destruct (IH (openLeaseStream options s st) (open_lease_core s st H Ew)) as (H1 & [E1 E2 E3 E4] & H3).
    split_and!; [done|by split|]. intros Hf. apply H3. rewrite open_lease_size, open_lease_ready by done.
    by replace (ready st + 1 + Z.of_nat fuel) with (ready st + Z.of_nat (S fuel)) by lia;
      replace (len (ng_leaseStreams st) + 1 + Z.of_nat fuel) with (len (ng_leaseStreams st) + Z.of_nat (S fuel)) by lia.
Qed.

(** The loop of the source ends unless both limits are infinite. *)
Definition limited : Prop := min <> num_inf false \/ max <> num_inf false.
Lemma stream_limit_cases n : (exists z, stream_limit n = num_int z /\ 0 <= z) \/ stream_limit n = num_inf false \/ stream_limit n = num_nan.
Proof. destruct n as [z|m e|[]|]; cbn; eauto 6 with lia. Qed.
Lemma min_cases : (exists z, min = num_int z /\ 0 <= z) \/ min = num_inf false \/ min = num_nan.
Proof. apply stream_limit_cases. Qed.
Lemma max_cases : (exists z, max = num_int z /\ 0 <= z) \/ max = num_inf false \/ max = num_nan.
Proof. apply stream_limit_cases. Qed.
Lemma pool_fuel_enough st : limited -> core_ok st ->
  below (ready st + Z.of_nat (pool_fuel options)) min = false \/ below (len (ng_leaseStreams st) + Z.of_nat (pool_fuel options)) max = false.
Proof.
  intros Hl H. pose proof (count_nonneg ls_waiting st). pose proof (count_nonneg ls_opening st). unfold ready, pool_fuel. fold min max.
  assert (0 <= len (ng_leaseStreams st)) by (unfold len; lia).
  destruct min_cases as [(m & Em & Hm)|[Em|Em]]; rewrite Em; [left; cbn [below]; apply Z.ltb_ge; lia| |by left].
  destruct max_cases as [(n & En & Hn)|[En|En]]; rewrite En; [right; cbn [below]; apply Z.ltb_ge; lia| |by right]. destruct Hl; congruence.
Qed.
Lemma wants_full st : wants_lease options st = false -> full (len (ng_leaseStreams st)).
Proof.
  unfold wants_lease. intros [H|H]%andb_false_iff; [left|by right]. apply not_true_is_false. intros Hb. change (below (ready st) min = false) in H.
  by rewrite (below_mono _ _ _ Hb (ready_size st)) in H.
Qed.
Definition live (s : nat) (st : node_guest) : Prop := ng_session st = Some s /\ ng_closing st = false /\ s ∉ ng_closed st.
Lemma maintain_lease_ok st : limited -> core_ok st -> let st' := maintainLeasePool options st in
  core_ok st' /\ pool_only st st' /\ (forall s, live s st -> wants_lease options st' = false).
Proof.
  intros Hl H. unfold maintainLeasePool. destruct (ng_session st) as [s|] eqn:Es; [|split_and!; [done|by split|intros s (E & _); congruence]].
  destruct (ng_closing st || set_has s (ng_closed st)) eqn:Ec.
  - split_and!; [done|by split|]. intros s' (E & Ecl & Hc). rewrite Es in E. injection E as <-. rewrite Ecl in Ec. by apply set_has_elem in Ec.
  - destruct (open_leases_spec (pool_fuel options) s st H) as (H1 & H2 & H3). split_and!; [done|done|]. intros s' _.
    apply H3, pool_fuel_enough; done.
Qed.
Lemma maintain_ws_ok st : core_ok st -> let st' := maintainWsLeasePool st in
  core_ok st' /\ pool_only st st' /\ ng_leaseStreams st' = ng_leaseStreams st.
Proof.
  intros H. unfold maintainWsLeasePool. repeat case_match; try (split_and!; [done|by split|done]).
  split_and!; [|by split|done]. pose proof (ws_fresh _ H) as Hf. destruct H as [Hl [W1 W2 W3] Hs]. split; [done| |done]. split.
  - cbn. by apply set_add_NoDup.
  - intros k [->|Hk]%set_add_elem; cbn; [rewrite lookup_app_r, Nat.sub_diag by lia; by eexists|].
    destruct (W2 k Hk) as (l & Hl' & Ho). exists l. by rewrite lookup_app_l by by eapply lookup_lt_Some.
  - cbn [ng_wsLeaseStreams openWsLeaseStream ng_do ng_ws_pool]. rewrite set_add_new, len_app by done. unfold len in *. cbn [length]. lia.
Qed.

(** ** Steps *)
Definition inv (st : node_guest) : Prop := core_ok st /\ full_ok st.
Lemma inv_rest st st' : inv st -> ng_leaseStreams st' = ng_leaseStreams st -> ng_leases st' = ng_leases st ->
  ng_wsLeaseStreams st' = ng_wsLeaseStreams st -> ng_wsLeases st' = ng_wsLeases st -> ng_session st' = ng_session st ->
  (ng_closing st' = false -> ng_closing st = false) -> (forall s, s ∈ ng_closed st -> s ∈ ng_closed st') ->
  (forall s call, ng_calls st !! s = Some call -> exists call', ng_calls st' !! s = Some call' /\ (call' = gc_settled (Ok tt) -> call = call')) -> inv st'.
Proof.
  intros [[H1 H2 H3] Hf] E1 E2 E3 E4 E5 E6 E7 E8. split; [split; rewrite ?E1, ?E2, ?E3, ?E4, ?E5; [done|done|]|].
  - intros s Hs. destruct (H3 s Hs) as [call Hc]. destruct (E8 _ _ Hc) as (call' & Hc' & _). by eexists.
  - intros s (Hs & Hc & Hn & Hok). rewrite E1. apply (Hf s). rewrite E5 in Hs. split_and!; [done|auto|auto|].
    destruct (H3 s Hs) as [call Hcall]. destruct (E8 _ _ Hcall) as (call' & Hc' & Hx). rewrite Hok in Hc'. injection Hc' as <-. by rewrite Hcall, Hx.
Qed.
Lemma calls_same {A} (l : list A) s call : l !! s = Some call -> exists call', l !! s = Some call' /\ (forall Q : A -> Prop, Q call' -> Q call).
Proof. eauto. Qed.
Lemma inv_do l st : inv st -> inv (ng_do l st).
Proof. intros H. eapply inv_rest; [exact H|..]; eauto. Qed.
Lemma inv_attach a st : inv st -> inv (ng_attach a st).
Proof. intros H. eapply inv_rest; [exact H|..]; eauto. Qed.
Lemma inv_ends s over st : inv st -> inv (ng_ends (set_add s (ng_closed st)) over st).
Proof. intros H. eapply inv_rest; [exact H|..]; eauto. intros s' Hs. apply set_add_elem. by right. Qed.
Lemma inv_set_call c state st : state <> gc_settled (Ok tt) -> inv st -> inv (set_call c state st).
Proof.
  intros Hn H. eapply inv_rest; [exact H|..]; eauto. intros s call Hs. cbn. destruct (decide (s = c)) as [->|Hc].
  - rewrite list_lookup_alter_eq, Hs. destruct call; (eexists; split; [done|by intros]).
  - rewrite list_lookup_alter_ne by done. eauto.
Qed.
Lemma inv_new_call state st : inv st -> inv (new_call state st).
Proof. intros H. eapply inv_rest; [exact H|..]; eauto. intros s call Hs. exists call. cbn. by rewrite lookup_app_l by by eapply lookup_lt_Some. Qed.

Lemma over_out st k l : core_ok st -> ng_leases st !! k = Some l -> gl_over l = true -> k ∉ ng_leaseStreams st.
Proof. intros H Hl Ho Hk. destruct (lo_open _ _ _ (cr_leases _ H) _ Hk) as (l' & Hl' & Ho'). congruence. Qed.
Lemma ws_over_out st w l : core_ok st -> ng_wsLeases st !! w = Some l -> wl_over l = true -> w ∉ ng_wsLeaseStreams st.
Proof. intros H Hl Ho Hk. destruct (wo_open _ _ (cr_ws _ H) _ Hk) as (l' & Hl' & Ho'). congruence. Qed.
(** A lease that stays in the map, or out of it. *)
Lemma set_lease_inv k l state armed answered st : inv st -> ng_leases st !! k = Some l ->
  (armed = true -> answered = false /\ gl_over l = false) -> inv (set_lease k state armed answered (gl_over l) st).
Proof.
  intros [H Hf] Hl Ha. split; [|done]. pose proof (over_out st k l H Hl). destruct H as [H1 H2 H3]. split; [|done|done].
  by eapply leases_set.
Qed.
Lemma close_lease_core k l st : core_ok st -> ng_leases st !! k = Some l ->
  core_ok (ng_pool (filter (fun x => x <> k) (ng_leaseStreams st)) (ng_leases (set_lease k (gl_state l) false (gl_answered l) true st)) st).
Proof.
  intros [H1 H2 H3] Hl. split; [|done|done]. eapply leases_set; [by apply leases_filter|exact Hl| |by intros].
  intros _ [Hn _]%list_elem_of_filter. by apply Hn.
Qed.
Lemma delete_ws_inv w st : inv st -> inv (delete_ws w st).
Proof. intros [[H1 H2 H3] Hf]. split; [|done]. split; [done| |done]. by apply ws_filter. Qed.
Lemma set_ws_inv w l answered st : inv st -> ng_wsLeases st !! w = Some l -> inv (set_ws w answered (wl_over l) st).
Proof.
  intros [H Hf] Hl. split; [|done]. pose proof (ws_over_out st w l H Hl). destruct H as [H1 H2 H3]. split; [done| |done]. by eapply ws_set.
Qed.
Lemma close_ws_inv w l st : inv st -> ng_wsLeases st !! w = Some l -> inv (delete_ws w (set_ws w (wl_answered l) true st)).
Proof.
  intros [[H1 H2 H3] Hf] Hl. split; [|done]. split; [done| |done]. eapply ws_set; [by apply ws_filter|exact Hl|].
  intros _ [Hn _]%list_elem_of_filter. by apply Hn.
Qed.
Lemma maintain_inv st : limited -> core_ok st -> inv (maintainLeasePool options st).
Proof.
  intros Hl H. destruct (maintain_lease_ok st Hl H) as (H1 & [E1 E2 E3 E4] & H3). split; [done|]. intros s (U1 & U2 & U3 & U4).
  apply wants_full, (H3 s). by rewrite E1, E2, E3 in *.
Qed.
Lemma maintain_ws_inv st : inv st -> inv (maintainWsLeasePool st).
Proof.
  intros [H Hf]. destruct (maintain_ws_ok st H) as (H1 & [E1 E2 E3 E4] & H3). split; [done|]. intros s (U1 & U2 & U3 & U4).
  rewrite H3. apply (Hf s). by rewrite E1, E2, E3, E4 in *.
Qed.

Lemma registered_inv c answer control st : limited -> inv st -> inv (registered options c answer control st).
Proof.
  intros Hl H. unfold registered. destruct (body ← answer; _) as [response|e]; [|by apply inv_set_call].
  case_match; [by apply inv_set_call|]. destruct control as [u|e]; [|by apply inv_set_call, inv_do].
  set (st1 := ng_do [gx_control c] _). assert (inv st1) as [H1 _].
  { apply inv_do. eapply inv_rest; [exact H|..]; eauto. }
  destruct (maintain_lease_ok st1 Hl H1) as (H2 & [E1 E2 E3 E4] & F2).
  destruct (maintain_ws_ok _ H2) as ([W1 W2 W3] & [G1 G2 G3 G4] & F3). split; [split; [done|done|]|].
  - intros s Hs. cbn. destruct (W3 s Hs) as [call Hc]. destruct (decide (s = c)) as [->|Hn]; [rewrite list_lookup_alter_eq, Hc; by eexists|by rewrite list_lookup_alter_ne by done].
  - intros s (U1 & U2 & U3 & _). cbn in *. rewrite F3. apply wants_full, (F2 s). unfold live. by rewrite G1, G2, G3, ?E1, ?E2, ?E3 in *.
Qed.
Lemma session_close_inv s st : inv st -> inv (session_close s st).
Proof.
  intros [[H1 H2 H3] Hf]. split.
  - split; cbn; [by eapply leases_clear|by eapply ws_clear|done].
  - intros s' (E & _). discriminate.
Qed.
Lemma session_error_inv s e st : inv st -> inv (session_error s e st).
Proof.
  intros H. eapply inv_rest; [exact H|..]; eauto. intros s' call Hs. cbn. rewrite list_lookup_imap, Hs. eexists. split; [done|].
  intros E. repeat case_match; congruence.
Qed.
Lemma connected_inv c requested st : inv st -> inv (connected options c requested st).
Proof. intros H. unfold connected. repeat case_match; repeat first [apply inv_do | apply inv_set_call]; done. Qed.
Lemma connect_inv opened st : inv st -> inv (connect opened st).
Proof.
  intros H. unfold connect. destruct (is_connected st); [by apply inv_new_call|]. destruct opened; [|by apply inv_new_call].
  apply inv_do. destruct H as [[H1 H2 H3] Hf]. split; [split; [done|done|]|]; cbn.
  - intros s [= <-]. rewrite lookup_app_r, Nat.sub_diag by lia. by eexists.
  - intros s (E & _ & _ & Ec). cbn in *. injection E as <-. rewrite lookup_app_r, Nat.sub_diag in Ec by lia. discriminate.
Qed.
Lemma close_inv reason st : inv st -> inv (close reason st).
Proof.
  intros H. unfold close. destruct (ng_session st) as [s|] eqn:Es; [|by apply inv_new_call].
  apply inv_new_call, inv_do. destruct H as [[H1 H2 H3] Hf]. split; [split; cbn; [by eapply leases_clear|by eapply ws_clear|rewrite <- Es; exact H3]|].
  intros s' (_ & E & _). discriminate.
Qed.

(** Every event keeps the pools. *)
Lemma on_lease_inv k ok f st : (forall l, ng_leases st !! k = Some l -> ok l = true -> inv (f l st)) -> inv st -> inv (on_lease k ok f st).
Proof. intros Hf H. unfold on_lease. repeat case_match; auto. Qed.
Lemma on_ws_inv w ok f st : (forall l, ng_wsLeases st !! w = Some l -> ok l = true -> inv (f l st)) -> inv st -> inv (on_ws w ok f st).
Proof. intros Hf H. unfold on_ws. repeat case_match; auto. Qed.
Lemma on_session_inv s f st : (inv st -> inv (f st)) -> inv st -> inv (on_session s f st).
Proof. unfold on_session. case_match; auto. Qed.
Lemma guest_step_inv st ev : limited -> inv st -> inv (guest_step options st ev).
Proof.
  intros Hl H. destruct ev; cbn [guest_step].
  - unfold attach. destruct listener; [by apply inv_attach|done].
  - by apply inv_attach.
  - by apply inv_attach.
  - by apply connect_inv.
  - case_match; [by apply connected_inv|done].
  - case_match; [by apply registered_inv|done].
  - by apply close_inv.
  - apply on_session_inv; [apply session_error_inv|done].
  - apply on_session_inv; [apply inv_ends|done].
  - apply on_session_inv; [|done]. case_match; [done|apply session_close_inv].
  - apply on_lease_inv; [|done]. intros l Hk _. unfold lease_response. case_match; [|apply inv_do; by apply set_lease_inv].
    apply maintain_inv; [done|]. by apply set_lease_inv.
  - case_match; [|done]. apply on_lease_inv; [|done]. intros l Hk _. apply inv_do. by apply set_lease_inv.
  - apply on_lease_inv; [|done]. intros l Hk _. unfold lease_close. pose proof (close_lease_core k l st (proj1 H) Hk) as Hc.
    cbn [ng_closing ng_pool set_lease]. destruct (ng_closing st) eqn:E; [|by apply maintain_inv].
    split; [done|]. intros s (_ & E' & _). cbn in E'. congruence.
  - apply on_lease_inv; [|done]. intros l Hk _. apply inv_do. by apply set_lease_inv.
  - apply on_lease_inv; [|done]. intros l Hk [Ha _]%andb_true_iff. apply set_lease_inv; [done|done|]. intros Hr.
    destruct (lo_timer _ _ _ (cr_leases _ (proj1 H)) _ _ Hk Hr). congruence.
  - apply on_lease_inv; [|done]. intros l Hk _. unfold lease_failed. case_match; [done|]. by apply inv_do, inv_do.
  - apply on_ws_inv; [|done]. intros l Hk _. unfold ws_response. case_match; [apply inv_do, delete_ws_inv|apply maintain_ws_inv]; by apply set_ws_inv.
  - apply on_ws_inv; [|done]. intros l Hk _. unfold ws_close. pose proof (close_ws_inv w l st H Hk). case_match; [done|by apply maintain_ws_inv].
  - by apply inv_do.
  - apply on_ws_inv; [|done]. intros l Hk _. unfold ws_failed. case_match; [done|]. by apply maintain_ws_inv, inv_do, delete_ws_inv, inv_do.
  - apply on_ws_inv; [|done]. intros l Hk _. by apply inv_do.
  - apply on_ws_inv; [|done]. intros l Hk _. by apply maintain_ws_inv.
Qed.
Lemma guest_init_inv : inv ng_init.
Proof.
  split; [split; [split|split|]|]; cbn.
  1, 5: by constructor. 1, 4: by intros k ?%elem_of_nil. 3, 4: done.
  - by left.
  - done.
  - intros s (E & _). discriminate.
Qed.
Lemma guest_run_inv events : limited -> inv (guest_run options events).
Proof.
  intros Hl. unfold guest_run. generalize guest_init_inv. generalize ng_init. induction events as [|ev events IH]; [done|].
  intros st H. cbn. apply IH. by apply guest_step_inv.
Qed.

(** ** Calls and closing *)
Definition no_open (l : list guest_effect) : Prop := Forall (fun e => match e with gx_open _ => False | _ => True end) l.
(** A closed guest opens nothing. *)
Record calm (st st' : node_guest) : Prop := {
  cm_closing : ng_closing st' = ng_closing st;
  cm_log : exists l, ng_log st' = ng_log st ++ l /\ no_open l;
  cm_quiet : ng_closing st = true -> ng_leaseStreams st' ⊆ ng_leaseStreams st /\ ng_wsLeaseStreams st' ⊆ ng_wsLeaseStreams st /\
             length (ng_leases st') = length (ng_leases st) /\ length (ng_wsLeases st') = length (ng_wsLeases st);
}.
Lemma calm_same st st' : ng_closing st' = ng_closing st -> ng_log st' = ng_log st -> ng_leaseStreams st' = ng_leaseStreams st ->
  ng_wsLeaseStreams st' = ng_wsLeaseStreams st -> length (ng_leases st') = length (ng_leases st) -> length (ng_wsLeases st') = length (ng_wsLeases st) -> calm st st'.
Proof.
  intros E1 E2 E3 E4 E5 E6. split; [done| |by rewrite E3, E4]. exists []. rewrite app_nil_r. by split; [|constructor].
Qed.
Lemma calm_trans a b c : calm a b -> calm b c -> calm a c.
Proof.
  intros [E1 (l1 & L1 & N1) Q1] [E2 (l2 & L2 & N2) Q2]. split; [congruence| |].
  - exists (l1 ++ l2). rewrite L2, L1, app_assoc. by split; [|apply Forall_app].
  - intros H. destruct (Q1 H) as (A1 & A2 & A3 & A4). rewrite <- E1 in H. destruct (Q2 H) as (B1 & B2 & B3 & B4).
    split_and!; [set_solver|set_solver|congruence|congruence].
Qed.
Lemma calm_do l st : no_open l -> calm st (ng_do l st).
Proof. intros H. split; [done|by exists l|done]. Qed.
Lemma calm_set_call c state st : calm st (set_call c state st).
Proof. by apply calm_same. Qed.
Lemma calm_set_lease k state armed answered over st : calm st (set_lease k state armed answered over st).
Proof. apply calm_same; cbn; try done. apply length_alter. Qed.
Lemma calm_set_ws w answered over st : calm st (set_ws w answered over st).
Proof. apply calm_same; cbn; try done. apply length_alter. Qed.
Lemma calm_pool streams st : streams ⊆ ng_leaseStreams st -> calm st (ng_pool streams (ng_leases st) st).
Proof. intros H. split; [done| |done]. exists []. cbn. rewrite app_nil_r. by split; [|constructor]. Qed.
Lemma calm_ws_pool streams st : streams ⊆ ng_wsLeaseStreams st -> calm st (ng_ws_pool streams (ng_wsLeases st) st).
Proof. intros H. split; [done| |done]. exists []. cbn. rewrite app_nil_r. by split; [|constructor]. Qed.
Lemma calm_delete_ws w st : calm st (delete_ws w st).
Proof. apply calm_ws_pool. intros x [_ Hx]%list_elem_of_filter. done. Qed.
Lemma open_leases_log fuel s : forall st, exists l, ng_log (open_leases options fuel s st) = ng_log st ++ l /\ no_open l /\ ng_closing (open_leases options fuel s st) = ng_closing st.
Proof.
  assert (forall st : node_guest, exists l, ng_log st = ng_log st ++ l /\ no_open l /\ ng_closing st = ng_closing st) as Hr.
  { intros st. exists []. rewrite app_nil_r. split_and!; [done|constructor|done]. }
  induction fuel as [|fuel IH]; intros st; cbn [open_leases]; [done|]. destruct (wants_lease options st); [|done].
  destruct (IH (openLeaseStream options s st)) as (l & -> & Hn & ->). eexists. cbn. rewrite <- app_assoc. split_and!; [done| |done]. by repeat constructor.
Qed.
Lemma calm_maintain st : calm st (maintainLeasePool options st).
Proof.
  unfold maintainLeasePool. destruct (ng_session st); [|by apply calm_same]. destruct (ng_closing st) eqn:Ec; [by apply calm_same|]. cbn [orb].
  case_match; [by apply calm_same|]. destruct (open_leases_log (pool_fuel options) n st) as (l & E & Hn & Hc).
  split; [congruence|by exists l|congruence].
Qed.
Lemma calm_maintain_ws st : calm st (maintainWsLeasePool st).
Proof.
  unfold maintainWsLeasePool. destruct (ng_closing st) eqn:Ec; [rewrite orb_true_r; by apply calm_same|].
  repeat case_match; try by apply calm_same. split; [done| |congruence]. eexists. split; [done|by repeat constructor].
Qed.
Lemma maintain_calls st : ng_calls (maintainLeasePool options st) = ng_calls st.
Proof.
  assert (forall fuel s st, ng_calls (open_leases options fuel s st) = ng_calls st) as H.
  { induction fuel as [|fuel IH]; intros s st'; cbn [open_leases]; [done|]. case_match; [by rewrite IH|done]. }
  unfold maintainLeasePool. repeat case_match; done.
Qed.
Lemma maintain_ws_calls st : ng_calls (maintainWsLeasePool st) = ng_calls st.
Proof. unfold maintainWsLeasePool. repeat case_match; done. Qed.

(** What is known of a call: only a registered guest has connected. *)
Definition did_register (log : list guest_effect) : Prop := exists s payload, gx_register s payload ∈ log.
Definition call_ok (log : list guest_effect) (c : nat) (call : guest_call) : Prop :=
  match call with
  | gc_connecting => gx_open c ∈ log
  | gc_registering => gx_open c ∈ log /\ did_register log
  | gc_closing _ _ => gx_open c ∉ log
  | gc_settled (Ok _) => gx_open c ∈ log -> did_register log /\ gx_control c ∈ log
  | gc_settled (Throw _) => True
  end.
Record calls_ok (st : node_guest) : Prop := {
  co_calls : forall c call, ng_calls st !! c = Some call -> call_ok (ng_log st) c call;
  co_open : forall c, gx_open c ∈ ng_log st -> (c < length (ng_calls st))%nat;
}.
Lemma no_open_elem l c : no_open l -> gx_open c ∉ l.
Proof. intros H Hc. unfold no_open in H. rewrite Forall_forall in H. exact (H _ Hc). Qed.
Lemma call_ok_later log l c call : call_ok log c call -> gx_open c ∉ l -> call_ok (log ++ l) c call.
Proof.
  unfold call_ok, did_register. intros H Hn. destruct call as [| | |[]]; rewrite ?elem_of_app; [by left| |tauto| |done].
  - destruct H as [H (s & p & Hp)]. split; [by left|]. exists s, p. rewrite elem_of_app. by left.
  - intros [Ho|Ho]; [|done]. destruct (H Ho) as [(s & p & Hp) Hc]. split; [|by left]. exists s, p. rewrite elem_of_app. by left.
Qed.
(** A call settled stays as it is; the others may go on. *)
Definition calls_step (log : list guest_effect) (calls calls' : list guest_call) : Prop :=
  length calls' = length calls /\
  forall c call', calls' !! c = Some call' -> exists call, calls !! c = Some call /\ (call' = call \/ ((forall r, call <> gc_settled r) /\ (call_ok log c call -> call_ok log c call'))).
Lemma calls_step_refl log calls : calls_step log calls calls.
Proof. split; [done|]. intros c call Hc. exists call. by split; [|left]. Qed.
Definition kept (calls calls' : list guest_call) : Prop := forall c r, calls !! c = Some (gc_settled r) -> calls' !! c = Some (gc_settled r).
Lemma calls_step_kept log calls calls' : calls_step log calls calls' -> kept calls calls'.
Proof.
  intros [Hl Hs] c r Hc. destruct (calls' !! c) as [call'|] eqn:E.
  - destruct (Hs c call' E) as (call & Ec & [->|[Hn _]]); rewrite Hc in Ec; injection Ec as <-; [done|by destruct (Hn r)].
  - apply lookup_lt_Some in Hc. apply lookup_ge_None in E. lia.
Qed.
Lemma calm_calls st st' : calm st st' -> calls_step (ng_log st') (ng_calls st) (ng_calls st') -> calls_ok st -> calls_ok st' /\ kept (ng_calls st) (ng_calls st').
Proof.
  intros [_ (l & E & Hn) _] Hs [H1 H2]. split; [|by eapply calls_step_kept]. destruct Hs as [Hl Hs]. split.
  - intros c call' Hc. destruct (Hs c call' Hc) as (call & Ec & Hx).
    assert (call_ok (ng_log st') c call) as Hok by (rewrite E; apply call_ok_later; [by apply H1|by apply no_open_elem]).
    destruct Hx as [->|[_ Hx]]; auto.
  - intros c. rewrite E, elem_of_app, Hl. intros [Hc|Hc]; [by apply H2|by apply (no_open_elem _ _ Hn) in Hc].
Qed.
Lemma calls_step_set log c state st : (forall call, ng_calls st !! c = Some call -> (forall r, call <> gc_settled r) -> call_ok log c call -> call_ok log c state) ->
  calls_step log (ng_calls st) (ng_calls (set_call c state st)).
Proof.
  intros H. split; [apply length_alter|]. intros c' call'. cbn. destruct (decide (c' = c)) as [->|Hn].
  - rewrite list_lookup_alter_eq. destruct (ng_calls st !! c) as [call|] eqn:E; [|done]. intros [= <-]. exists call. split; [done|].
    destruct call; [right|right|right|by left]; (split; [done|by apply H]).
  - rewrite list_lookup_alter_ne by done. intros Hc. exists call'. by split; [|left].
Qed.

Lemma calls_step_eq log st st' : ng_calls st' = ng_calls st -> calls_step log (ng_calls st) (ng_calls st').
Proof. intros ->. apply calls_step_refl. Qed.
Create HintDb guest.
#[local] Hint Resolve calm_set_call calm_set_lease calm_set_ws calm_delete_ws calm_maintain calm_maintain_ws calls_step_refl : guest.
#[local] Hint Extern 1 (no_open _) => (by repeat constructor) : guest.
Lemma calm_emit e st : calm st (emit_error e st).
Proof. apply calm_do. by repeat constructor. Qed.
#[local] Hint Resolve calm_do calm_emit : guest.

Lemma connected_calm c requested st : calm st (connected options c requested st).
Proof.
  unfold connected. destruct (ng_session st), requested; (eapply calm_trans; [by apply (calm_do [gx_event ge_connected]); eauto with guest|]);
    cbn [ng_session emitLifecycle ng_do]; repeat case_match; try apply calm_set_call.
  all: eapply calm_trans; [apply calm_set_call|eauto with guest].
Qed.
Lemma calls_new st st' call l : calls_ok st -> ng_calls st' = ng_calls st ++ [call] -> ng_log st' = ng_log st ++ l ->
  (forall c, gx_open c ∈ l -> c = length (ng_calls st)) -> call_ok (ng_log st') (length (ng_calls st)) call -> calls_ok st' /\ kept (ng_calls st) (ng_calls st').
Proof.
  intros [H1 H2] Ec El Ho Hc. split; [split|].
  - intros c call'. rewrite Ec. intros [Hl|[Hl Hx]]%lookup_app_Some.
    + rewrite El. apply call_ok_later; [by apply H1|]. intros Hx%Ho. apply lookup_lt_Some in Hl. lia.
    + apply list_lookup_singleton_Some in Hx as [Hz ->]. by replace c with (length (ng_calls st)) by lia.
  - intros c. rewrite El, Ec, elem_of_app, length_app. cbn. intros [Hc'%H2|Hc'%Ho]; lia.
  - intros c r Hl. rewrite Ec. by apply lookup_app_l_Some.
Qed.
Lemma open_fresh st : calls_ok st -> gx_open (length (ng_calls st)) ∉ ng_log st.
Proof. intros H Hc%(co_open _ H). lia. Qed.
Lemma connect_calls opened st : calls_ok st -> calls_ok (connect opened st) /\ kept (ng_calls st) (ng_calls (connect opened st)).
Proof.
  intros H. pose proof (open_fresh _ H) as Hf. unfold connect.
  destruct (is_connected st); [|destruct opened as [u|e]].
  - refine (calls_new st (new_call _ st) (gc_settled (Ok tt)) [] H eq_refl _ _ _); cbn; [by rewrite app_nil_r|by intros c ?%elem_of_nil|done].
  - eapply (calls_new st _ gc_connecting [gx_open (length (ng_calls st))] H); [reflexivity|reflexivity|by intros c [= ->]%list_elem_of_singleton|].
    cbn. rewrite elem_of_app. right. by left.
  - refine (calls_new st (new_call _ st) (gc_settled (Throw e)) [] H eq_refl _ _ _); cbn; [by rewrite app_nil_r|by intros c ?%elem_of_nil|done].
Qed.
Lemma close_calm_log reason st s : ng_session st = Some s -> exists l, ng_log (close reason st) = ng_log st ++ l /\ no_open l /\
  ng_calls (close reason st) = ng_calls st ++ [gc_closing s reason].
Proof.
  intros Es. unfold close. rewrite Es. eexists. cbn. rewrite <- !app_assoc. split_and!; [done| |done].
  unfold no_open. repeat (apply Forall_app; split); rewrite ?Forall_map; try (by apply Forall_true); [by case_match; repeat constructor|by repeat constructor].
Qed.
Lemma close_calls reason st : calls_ok st -> calls_ok (close reason st) /\ kept (ng_calls st) (ng_calls (close reason st)).
Proof.
  intros H. pose proof (open_fresh _ H) as Hf. destruct (ng_session st) as [s|] eqn:Es.
  - destruct (close_calm_log reason st s Es) as (l & E & Hn & Ec). eapply calls_new; [exact H|exact Ec|exact E| |].
    + intros c Hc. by apply (no_open_elem _ _ Hn) in Hc.
    + rewrite E. cbn. rewrite elem_of_app. intros [?|Hc]; [done|]. by apply (no_open_elem _ _ Hn) in Hc.
  - unfold close. rewrite Es. refine (calls_new st (new_call _ st) (gc_settled (Ok tt)) [] H eq_refl _ _ _); cbn; [by rewrite app_nil_r|by intros c ?%elem_of_nil|done].
Qed.
Lemma session_error_calls s e st : calls_ok st -> calls_ok (session_error s e st) /\ kept (ng_calls st) (ng_calls (session_error s e st)).
Proof.
  intros H. apply calm_calls; [by apply (calm_trans _ _ _ (calm_emit e st)), calm_same| |done]. split; [apply length_imap|].
  intros c call'. cbn. rewrite list_lookup_imap. intros (call & Hc & ->)%fmap_Some. exists call. split; [done|].
  repeat case_match; try (by left); right; done.
Qed.
Lemma session_close_calm s st : calm st (session_close s st).
Proof.
  split; [done| |].
  - eexists. cbn. rewrite <- !app_assoc. split; [done|]. unfold no_open. constructor; [done|]. rewrite Forall_map. by apply Forall_true.
  - intros _. cbn. split_and!; try done; intros x ?%elem_of_nil; done.
Qed.
Lemma session_close_calls s st : calls_ok st -> calls_ok (session_close s st) /\ kept (ng_calls st) (ng_calls (session_close s st)).
Proof.
  intros H. apply calm_calls; [apply session_close_calm| |done]. split; [apply length_map|].
  intros c call'. cbn. rewrite list_lookup_fmap. intros (call & Hc & ->)%fmap_Some. exists call. split; [done|].
  repeat case_match; try (by left); right; split; [done|]. cbn. tauto.
Qed.
Lemma connected_calls c requested st : ng_calls st !! c = Some gc_connecting -> calls_ok st ->
  calls_ok (connected options c requested st) /\ kept (ng_calls st) (ng_calls (connected options c requested st)).
Proof.
  intros Hc H. apply calm_calls; [apply connected_calm| |done]. unfold connected. cbn [ng_session emitLifecycle ng_do].
  repeat case_match; try (apply (calls_step_set _ c _ (emitLifecycle ge_connected st)); done).
  apply (calls_step_set _ c _ (emitLifecycle ge_connected st)). cbn [ng_calls emitLifecycle ng_do]. rewrite Hc. intros call [= <-] _ Ho.
  split; [done|]. eexists _, _. cbn [ng_log ng_do]. rewrite elem_of_app. right. by left.
Qed.
Lemma registered_calls c answer control st : ng_calls st !! c = Some gc_registering -> calls_ok st ->
  calls_ok (registered options c answer control st) /\ kept (ng_calls st) (ng_calls (registered options c answer control st)) /\ calm st (registered options c answer control st).
Proof.
  intros Hc H. assert (forall st', calm st st' -> calls_step (ng_log st') (ng_calls st) (ng_calls st') -> calls_ok st' /\ kept (ng_calls st) (ng_calls st') /\ calm st st') as K.
  { intros st' H1 H2. destruct (calm_calls _ _ H1 H2 H). done. }
  unfold registered. destruct (body ← answer; _) as [response|e]; [|apply K; [apply calm_set_call|by apply calls_step_set]].
  case_match; [apply K; [apply calm_set_call|by apply calls_step_set]|]. destruct control as [u|e].
  2: { apply K; [eapply calm_trans; [apply (calm_do [gx_event ge_registered]); by repeat constructor|apply calm_set_call]|].
       by apply (calls_step_set _ c _ (emitLifecycle ge_registered st)). }
  set (st1 := ng_do [gx_control c] _). assert (calm st st1) as C1.
  { eapply calm_trans; [apply (calm_do [gx_event ge_registered]); by repeat constructor|]. split; [done| |done]. eexists. split; [done|by repeat constructor]. }
  pose proof (maintain_calls st1) as E1. pose proof (maintain_ws_calls (maintainLeasePool options st1)) as E2.
  set (st2 := maintainWsLeasePool (maintainLeasePool options st1)) in *. assert (calm st1 st2) as C2 by (eapply calm_trans; [apply calm_maintain|apply calm_maintain_ws]).
  assert (ng_calls st2 = ng_calls st) as E by (rewrite E2, E1; done).
  apply K; [eapply calm_trans; [exact C1|]; eapply calm_trans; [exact C2|apply calm_set_call]|]. rewrite <- E. apply calls_step_set.
  rewrite E, Hc. intros call [= <-] _ [Ho Hr]. cbn. intros _. split; [done|].
  destruct (cm_log _ _ C2) as (l & -> & _). rewrite elem_of_app. left. cbn. rewrite elem_of_app. right. by left.
Qed.

(** The steps that leave the calls alone. *)
Definition still (st st' : node_guest) : Prop := calm st st' /\ ng_calls st' = ng_calls st.
Lemma still_refl st : still st st.
Proof. split; [by apply calm_same|done]. Qed.
Lemma still_trans b a c : still a b -> still b c -> still a c.
Proof. intros [H1 E1] [H2 E2]. split; [by eapply calm_trans|congruence]. Qed.
Lemma still_maintain st st' : still st st' -> still st (maintainLeasePool options st').
Proof. intros H. apply (still_trans st'); [done|]. split; [apply calm_maintain|apply maintain_calls]. Qed.
Lemma still_maintain_ws st st' : still st st' -> still st (maintainWsLeasePool st').
Proof. intros H. apply (still_trans st'); [done|]. split; [apply calm_maintain_ws|apply maintain_ws_calls]. Qed.
Lemma still_do l st st' : no_open l -> still st st' -> still st (ng_do l st').
Proof. intros Hl H. apply (still_trans st'); [done|]. split; [by apply calm_do|done]. Qed.
Lemma still_lease k state armed answered over st : still st (set_lease k state armed answered over st).
Proof. split; [apply calm_set_lease|done]. Qed.
Lemma still_ws w answered over st : still st (set_ws w answered over st).
Proof. split; [apply calm_set_ws|done]. Qed.
Lemma still_delete_ws w st st' : still st st' -> still st (delete_ws w st').
Proof. intros H. apply (still_trans st'); [done|]. split; [apply calm_delete_ws|done]. Qed.
Lemma lease_close_still k l st : still st (lease_close options k l st).
Proof.
  unfold lease_close. set (st1 := set_lease _ _ _ _ _ st). set (st2 := ng_pool _ _ st1).
  assert (still st st2). { apply (still_trans st1); [apply still_lease|]. split; [|done]. apply calm_pool. intros x [_ Hx]%list_elem_of_filter. done. }
  case_match; [done|by apply still_maintain].
Qed.
Create HintDb still.
#[local] Hint Resolve still_refl still_maintain still_maintain_ws still_do still_lease still_ws still_delete_ws lease_close_still : still.
#[local] Hint Extern 1 (no_open _) => (by repeat constructor) : still.
Lemma on_lease_still k ok f st : (forall l, still st (f l st)) -> still st (on_lease k ok f st).
Proof. intros H. unfold on_lease. repeat case_match; auto with still. Qed.
Lemma on_ws_still w ok f st : (forall l, still st (f l st)) -> still st (on_ws w ok f st).
Proof. intros H. unfold on_ws. repeat case_match; auto with still. Qed.

Definition call_event (ev : guest_input) : bool :=
  match ev with gv_connect _ | gv_connected _ _ | gv_registered _ _ _ | gv_close _ | gv_session_error _ _ | gv_session_close _ => true | _ => false end.
Lemma guest_step_still st ev : call_event ev = false -> still st (guest_step options st ev).
Proof.
  intros He. destruct ev; try discriminate; cbn [guest_step].
  all: try (apply on_lease_still; intros l); try (apply on_ws_still; intros l); try (split; [by apply calm_same|done]).
  - unfold attach. destruct listener; split; (done || by apply calm_same).
  - unfold on_session. case_match; split; (done || by apply calm_same).
  - unfold lease_response. case_match; auto with still.
  - case_match; [|apply still_refl]. apply on_lease_still. intros l. unfold lease_timeout. auto with still.
  - auto with still.
  - unfold lease_error, emit_error, emitLifecycle. auto with still.
  - unfold lease_metadata. auto with still.
  - unfold lease_failed, emit_error, emitLifecycle. case_match; auto with still.
  - unfold ws_response. case_match; auto with still.
  - unfold ws_close. case_match; auto with still.
  - unfold emit_error, emitLifecycle. auto with still.
  - unfold ws_failed, emit_error, emitLifecycle. case_match; auto 6 with still.
  - auto with still.
  - auto with still.
Qed.
Lemma guest_step_calls st ev : calls_ok st -> calls_ok (guest_step options st ev) /\ kept (ng_calls st) (ng_calls (guest_step options st ev)).
Proof.
  intros H. destruct (call_event ev) eqn:He.
  2: { destruct (guest_step_still st ev He) as [H1 H2]. apply calm_calls; [done|by apply calls_step_eq|done]. }
  assert (kept (ng_calls st) (ng_calls st)) as Hr by (by intros c r).
  destruct ev; try discriminate; cbn [guest_step].
  - by apply connect_calls.
  - unfold is_call. repeat case_match; try done; simplify_eq/=. by apply connected_calls.
  - unfold is_call. repeat case_match; try done; simplify_eq/=. destruct (registered_calls c answer control st) as (K1 & K2 & _); done.
  - by apply close_calls.
  - unfold on_session. case_match; [by apply session_error_calls|done].
  - unfold on_session. repeat case_match; try done. by apply session_close_calls.
Qed.
Lemma guest_step_calm st ev : (forall opened, ev <> gv_connect opened) -> (forall reason, ev <> gv_close reason) -> calls_ok st -> calm st (guest_step options st ev).
Proof.
  intros H1 H2 H. destruct (call_event ev) eqn:He; [|by apply guest_step_still].
  destruct ev; try discriminate; cbn [guest_step].
  - by destruct (H1 opened).
  - case_match; [apply connected_calm|by apply calm_same].
  - unfold is_call. repeat case_match; try (by apply calm_same). simplify_eq/=. by apply registered_calls.
  - by destruct (H2 reason).
  - unfold on_session. case_match; [|by apply calm_same]. by apply (calm_trans _ _ _ (calm_emit e st)), calm_same.
  - unfold on_session. repeat case_match; try (by apply calm_same). apply session_close_calm.
Qed.

(** Closing empties the pools, and they stay empty until the next [connect]. *)
Definition quiet (st : node_guest) : Prop := ng_closing st = true -> ng_leaseStreams st = [] /\ ng_wsLeaseStreams st = [].
Lemma calm_quiet st st' : calm st st' -> quiet st -> quiet st'.
Proof.
  intros [E _ Q] H Hc. rewrite E in Hc. destruct (H Hc) as [E1 E2]. destruct (Q Hc) as (Q1 & Q2 & _). rewrite E1 in Q1. rewrite E2 in Q2.
  split; apply elem_of_nil_inv; intros x Hx; [apply Q1 in Hx|apply Q2 in Hx]; by apply elem_of_nil in Hx.
Qed.
Lemma guest_step_quiet st ev : calls_ok st -> quiet st -> quiet (guest_step options st ev).
Proof.
  intros H Hq. destruct ev as [| | |opened| | |reason| | | | | | | | | | | | | | |] eqn:E;
    try (apply (calm_quiet st); [by apply guest_step_calm|done]); cbn [guest_step].
  - unfold connect. repeat case_match; done.
  - unfold close. case_match; [|done]. by intros.
Qed.
Lemma closed_step st ev : calls_ok st -> ng_closing st = true -> (forall opened, ev <> gv_connect opened) ->
  length (ng_leases (guest_step options st ev)) = length (ng_leases st) /\ length (ng_wsLeases (guest_step options st ev)) = length (ng_wsLeases st).
Proof.
  intros H Hc Hn. assert ((exists reason, ev = gv_close reason) \/ forall reason, ev <> gv_close reason) as [[reason ->]|He] by (destruct ev; eauto; right; congruence).
  - cbn. unfold close. case_match; done.
  - pose proof (guest_step_calm st ev Hn He H) as Hcalm. by destruct (cm_quiet _ _ Hcalm Hc) as (_ & _ & ? & ?).
Qed.
Record guest_ok (st : node_guest) : Prop := { gk_inv : inv st; gk_calls : calls_ok st; gk_quiet : quiet st }.
Lemma guest_run_ok events : limited -> guest_ok (guest_run options events).
Proof.
  intros Hl. unfold guest_run. assert (guest_ok ng_init) as H0.
  { split; [apply guest_init_inv| |done]. split; cbn; [done|by intros c ?%elem_of_nil]. }
  revert H0. generalize ng_init. induction events as [|ev events IH]; [done|].
  intros st [H1 H2 H3]. cbn. apply IH. split; [by apply guest_step_inv|by apply guest_step_calls|by apply guest_step_quiet].
Qed.
Lemma guest_run_app events events' : guest_run options (events ++ events') = fold_left (guest_step options) events' (guest_run options events).
Proof. apply fold_left_app. Qed.
Lemma guest_run_kept events events' : limited -> kept (ng_calls (guest_run options events)) (ng_calls (guest_run options (events ++ events'))).
Proof.
  intros Hl. rewrite guest_run_app. pose proof (gk_calls _ (guest_run_ok events Hl)) as H. revert H. generalize (guest_run options events).
  induction events' as [|ev events' IH]; [by intros st _ c r|]. intros st H. destruct (guest_step_calls st ev H) as [H1 H2].
  intros c r Hc. cbn. apply (IH _ H1). by apply H2.
Qed.
End Theory.

(** The guest of the Node package, whatever its sessions and streams do and
    however its operations are called, unless both limits are infinite.  The lease
    streams it keeps are distinct, open and within the limit, those for WebSockets
    at most four, and only a stream without an answer has a timer; while its session
    is up it keeps as many lease streams as it was told, or has no room for more.
    Calls settle once, and a [connect] that opened a session succeeds only after a
    registration was sent.  A closed guest keeps no stream and opens none until it
    connects again. *)
Theorem node_guest_correct `{Platform} options events events' ev (Hl : limited options) :
  let st := guest_run options events in
  leases_ok (normalizedMaxOpenStreams options) (ng_leaseStreams st) (ng_leases st) /\ ws_ok (ng_wsLeaseStreams st) (ng_wsLeases st) /\
  (forall s, up s st -> full options (len (ng_leaseStreams st))) /\
  (forall c r, ng_calls st !! c = Some (gc_settled r) -> ng_calls (guest_run options (events ++ events')) !! c = Some (gc_settled r)) /\
  (forall s, gx_open s ∈ ng_log st -> ng_calls st !! s = Some (gc_settled (Ok tt)) -> did_register (ng_log st) /\ gx_control s ∈ ng_log st) /\
  (ng_closing st = true -> ng_leaseStreams st = [] /\ ng_wsLeaseStreams st = [] /\
    ((forall opened, ev <> gv_connect opened) -> length (ng_leases (guest_step options st ev)) = length (ng_leases st) /\
                                                 length (ng_wsLeases (guest_step options st ev)) = length (ng_wsLeases st))).
Proof.
  intros st. pose proof (guest_run_ok options events Hl) as [[[H1 H2 H3] H4] H5 H6]. fold st in H1, H2, H3, H4, H5, H6.
  split_and!; [done|done|done|by apply guest_run_kept| |].
  - intros s Ho Hc. by apply (co_calls _ H5 _ _ Hc).
  - intros Hc. destruct (H6 Hc) as [E1 E2]. split_and!; [done|done|]. intros Hn. by apply closed_step.
Qed.

(** * Samples *)
Module SampleGuest.
#[local] Existing Instance ascii_platform.
Definition options : guest_options :=
  {| go_guestId := js "g"; go_routedDomains := Some [js "g.example"]; go_minWaitingStreams := None; go_maxOpenStreams := None; go_leaseAcquireTimeoutMs := None |}.
Definition accepted : result exn jsstring := Ok (json_text (JObj [(js "status", JStr (js "registered"))])).
Definition start : list guest_input := [gv_connect (Ok tt); gv_connected 0 (Ok tt); gv_registered 0 accepted (Ok tt); gv_lease_response 0 200].
Lemma node_guest_correct_witness :
  let st := guest_run options start in
  ng_leaseStreams st = [0%nat] /\ is_connected st = true /\ (forall s, up s st -> full options (len (ng_leaseStreams st))).
Proof.
  split; [by vm_compute|]. split; [by vm_compute|].
  assert (limited options) as Hl by (left; discriminate).
  destruct (node_guest_correct options start [] (gv_close []) Hl) as (_ & _ & Hf & _). exact Hf.
Defined.

(** With the default options a guest keeps one stream for requests.  When a request
    takes it no other is opened: nothing waits until the request is over. *)
Example active_lease_not_replaced :
  let st := guest_run options (start ++ [gv_lease_metadata 0]) in
  (ng_leaseStreams st, countLeases ls_waiting st, countLeases ls_opening st) = ([0%nat], 0, 0).
Proof. by vm_compute. Qed.
(** A [connect] right after [close]: the end of the old session clears the new one,
    and the registration fails. *)
Example former_session_clears :
  let st := guest_run options (start ++ [gv_close (js "bye"); gv_connect (Ok tt); gv_session_close 0; gv_connected 2 (Ok tt)]) in
  (ng_session st, ng_calls st !! 2%nat) = (None, Some (gc_settled (Throw (not_connected options)))).
Proof. by vm_compute. Qed.
(** A refused registration leaves the session in place: the next [connect] succeeds
    at once, without a registration or a lease. *)
Example refused_then_connected :
  let st := guest_run options [gv_connect (Ok tt); gv_connected 0 (Ok tt); gv_registered 0 (Throw (not_registered options)) (Ok tt); gv_connect (Ok tt)] in
  (ng_calls st !! 1%nat, ng_leaseStreams st) = (Some (gc_settled (Ok tt)), []).
Proof. by vm_compute. Qed.
(** A session that ends before it is connected, without an error, leaves the call
    of [connect] open. *)
Example close_strands_connect_of_guest :
  let st := guest_run options [gv_connect (Ok tt); gv_close (js "bye"); gv_session_close 0] in
  ng_calls st = [gc_connecting; gc_settled (Ok tt)].
Proof. by vm_compute. Qed.
(** Each accepted WebSocket lease opens another, up to four idle ones. *)
Example four_idle_ws_leases :
  ng_wsLeaseStreams (guest_run options (gv_attachWebSocket None :: start ++ [gv_ws_response 0 200; gv_ws_response 1 200; gv_ws_response 2 200; gv_ws_response 3 200])) =
  [0%nat; 1%nat; 2%nat; 3%nat].
Proof. by vm_compute. Qed.
(** A refused lease is opened again as soon as its stream is closed. *)
Example refused_lease_reopened :
  let refused k := [gv_lease_response k 503; gv_lease_close k] in
  length (ng_leases (guest_run options ([gv_connect (Ok tt); gv_connected 0 (Ok tt); gv_registered 0 accepted (Ok tt)] ++ refused 0%nat ++ refused 1%nat ++ refused 2%nat))) = 4%nat.
Proof. by vm_compute. Qed.
End SampleGuest.
