(* ===== verification/MinimalHttp.v ===== *)
(** The response object a handler of the Node guest writes to (verser2-guest-node
    [minimal-http.ts], [MinimalServerResponse]): buffered, or streamed to a lease.

    Its header functions are those of an in-process guest (local-peers.ts), so the
    definitions of [LocalGuest] for single headers are used; chunks are bytes.
    Listeners run where the source emits, in the order of the effects. *)
From S2P Require Import Prelude JsNum Utf8 Json Errors Headers ResponseMetadata Routing Envelope Effects BrokerRequests BrokerRouting LocalGuest.

Record MinimalServerResponse := {
  ms_statusCode : jsnum; ms_statusMessage : option jsstring;
  ms_headers : list (jsstring * stored_value); ms_headerPairs : list VerserHeaderPair;
  ms_finished : bool; ms_destroyedState : bool;
  ms_chunks : list bytes; ms_bufferedResponseBytes : Z;
  ms_responseStarted : bool; ms_commitFailed : bool; ms_outputErrorEmitted : bool;
}.
Definition minimal_response : MinimalServerResponse :=
  {| ms_statusCode := num_int 200; ms_statusMessage := None; ms_headers := []; ms_headerPairs := []; ms_finished := false; ms_destroyedState := false;
     ms_chunks := []; ms_bufferedResponseBytes := 0; ms_responseStarted := false; ms_commitFailed := false; ms_outputErrorEmitted := false |}.
(** Events it emits and what it does to the output. *)
Inductive minimal_effect : Type :=
  | mf_error (e : exn) | mf_finish | mf_close | mf_drain
  | mf_write (b : bytes) | mf_end.

Definition ms_head (statusCode : jsnum) (statusMessage : option jsstring) (s : header_state) (r : MinimalServerResponse) : MinimalServerResponse :=
  {| ms_statusCode := statusCode; ms_statusMessage := statusMessage; ms_headers := s.1; ms_headerPairs := s.2; ms_finished := ms_finished r;
     ms_destroyedState := ms_destroyedState r; ms_chunks := ms_chunks r; ms_bufferedResponseBytes := ms_bufferedResponseBytes r;
     ms_responseStarted := ms_responseStarted r; ms_commitFailed := ms_commitFailed r; ms_outputErrorEmitted := ms_outputErrorEmitted r |}.
Definition ms_flags (finished destroyed started failed errored : bool) (r : MinimalServerResponse) : MinimalServerResponse :=
  {| ms_statusCode := ms_statusCode r; ms_statusMessage := ms_statusMessage r; ms_headers := ms_headers r; ms_headerPairs := ms_headerPairs r;
     ms_finished := finished; ms_destroyedState := destroyed; ms_chunks := ms_chunks r; ms_bufferedResponseBytes := ms_bufferedResponseBytes r;
     ms_responseStarted := started; ms_commitFailed := failed; ms_outputErrorEmitted := errored |}.
Definition ms_buffer (chunks : list bytes) (size : Z) (r : MinimalServerResponse) : MinimalServerResponse :=
  {| ms_statusCode := ms_statusCode r; ms_statusMessage := ms_statusMessage r; ms_headers := ms_headers r; ms_headerPairs := ms_headerPairs r;
     ms_finished := ms_finished r; ms_destroyedState := ms_destroyedState r; ms_chunks := chunks; ms_bufferedResponseBytes := size;
     ms_responseStarted := ms_responseStarted r; ms_commitFailed := ms_commitFailed r; ms_outputErrorEmitted := ms_outputErrorEmitted r |}.

(** [requestId], [output !== undefined] and [maxResponseBytes] of the constructor. *)
Section Minimal.
Context {P : Platform} (requestId : option jsstring) (output : bool) (maxResponseBytes : Z).

Definition headers_of (r : MinimalServerResponse) : header_state := (ms_headers r, ms_headerPairs r).
Definition setHeader (r : MinimalServerResponse) (name : jsstring) (value : jsval) : result exn MinimalServerResponse :=
  '(normalizedName, normalizedValue) ← normalizeResponseHeader name value;
  Ok (ms_head (ms_statusCode r) (ms_statusMessage r) (setResponseHeader (headers_of r) normalizedName normalizedValue) r).
Definition getHeader (r : MinimalServerResponse) (name : jsstring) : option stored_value := map_get (to_lower name) (ms_headers r).
Definition appendHeader (r : MinimalServerResponse) (name : jsstring) (value : jsval) : result exn MinimalServerResponse :=
  '(normalizedName, values) ← normalizeResponseHeaderValues name value;
  Ok (ms_head (ms_statusCode r) (ms_statusMessage r)
        (map_set normalizedName (appended (getHeader r normalizedName) values) (ms_headers r),
         ms_headerPairs r ++ pairs_of normalizedName values) r).
Definition writeHead (r : MinimalServerResponse) (statusCode : jsnum) (statusMessageOrHeaders : head_argument) (headers : option ResponseHeaders)
    : result exn MinimalServerResponse :=
  let responseHeaders := match statusMessageOrHeaders with
                         | ha_headers h => default h headers
                         | _ => default (rh_record []) headers
                         end in
  _ ← requireFinalResponseStatusCode statusCode;
  _ ← match statusMessageOrHeaders with ha_text t => validateHeaderValue (js "statusMessage") t | _ => Ok tt end;
  next ← write_headers (headers_of r) responseHeaders;
  Ok (ms_head statusCode (match statusMessageOrHeaders with ha_text t => Some t | _ => ms_statusMessage r end) next r).

Definition createCanonicalResponse (r : MinimalServerResponse) (requestId : jsstring) : result exn RoutedResponseEnvelope :=
  _ ← match ms_statusMessage r with Some m => validateHeaderValue (js "statusMessage") m | None => Ok tt end;
  createRoutedResponseEnvelope
    {| rs_requestId := requestId; rs_statusCode := ms_statusCode r; rs_headers := [];
       rs_statusText := ms_statusMessage r; rs_headerPairs := Some (ms_headerPairs r) |}.
(** The flag is set before the envelope is encoded. *)
Definition startStreamingResponse (r : MinimalServerResponse) : MinimalServerResponse * result exn (list minimal_effect) :=
  if negb output || ms_responseStarted r then (r, Ok [])
  else match createCanonicalResponse r (default [] requestId) with
       | Throw e => (r, Throw e)
       | Ok response =>
           (ms_flags (ms_finished r) (ms_destroyedState r) true (ms_commitFailed r) (ms_outputErrorEmitted r) r,
            b ← encodeVerserEnvelope env_response (JObj (response_fields response)); Ok [mf_write b])
       end.
Definition commitResponse (r : MinimalServerResponse) : MinimalServerResponse * list minimal_effect * bool :=
  if ms_commitFailed r then (r, [], false)
  else
    let '(r, started) := if output then startStreamingResponse r
                         else (r, match requestId with Some id => _ ← createCanonicalResponse r id; Ok [] | None => Ok [] end) in
    match started with
    | Ok effects => (r, effects, true)
    | Throw e => (ms_flags (ms_finished r) (ms_destroyedState r) (ms_responseStarted r) true (ms_outputErrorEmitted r) r, [mf_error e], false)
    end.
Definition over_limit (responseBytes : Z) : exn :=
  verr local_handler_failure "Response body bytes exceed limit"
    [(js "responseBytes", JNum (num_int responseBytes)); (js "maxResponseBytes", JNum (num_int maxResponseBytes))].
(** [accepted]: the output's [write] returned true. *)
Definition write (r : MinimalServerResponse) (chunk : bytes) (accepted : bool) : MinimalServerResponse * list minimal_effect * result exn bool :=
  if ms_destroyedState r || ms_finished r then (r, [], Ok false)
  else
    let '(r, effects, committed) := commitResponse r in
    if negb committed then (r, effects, Ok false)
    else if output then (r, effects ++ [mf_write chunk], Ok accepted)
    else
      let size := ms_bufferedResponseBytes r + len chunk in
      if maxResponseBytes <? size then (ms_buffer (ms_chunks r) size r, effects ++ [mf_error (over_limit size)], Throw (over_limit size))
      else (ms_buffer (ms_chunks r ++ [chunk]) size r, effects, Ok true).
Definition flushHeaders (r : MinimalServerResponse) : MinimalServerResponse * list minimal_effect := fst (commitResponse r).
Definition finish (r : MinimalServerResponse) : MinimalServerResponse * list minimal_effect :=
  (ms_flags true (ms_destroyedState r || negb output) (ms_responseStarted r) (ms_commitFailed r) (ms_outputErrorEmitted r) r,
   (if output then [mf_end] else []) ++ [mf_finish] ++ (if output then [] else [mf_close])).
(** [end]: [Throw] when writing the last chunk throws. *)
Definition end_response (r : MinimalServerResponse) (chunk : option bytes) (accepted : bool) : MinimalServerResponse * list minimal_effect * result exn unit :=
  if ms_finished r || ms_destroyedState r || ms_commitFailed r then (r, [], Ok tt)
  else
    let '(r, effects, go) := match chunk with
                             | Some c => let '(r, effects, w) := write r c accepted in (r, effects, (fun _ => negb (ms_commitFailed r)) <$> w)
                             | None => let '(r, effects, committed) := commitResponse r in (r, effects, Ok committed)
                             end in
    match go with
    | Throw e => (r, effects, Throw e)
    | Ok false => (r, effects, Ok tt)
    | Ok true => let '(r, t) := finish r in (r, effects ++ t, Ok tt)
    end.
Definition toDispatchResponse (r : MinimalServerResponse) (requestId : jsstring) : result exn (RoutedResponseEnvelope * bytes) :=
  (fun e => (e, concat (ms_chunks r))) <$> createCanonicalResponse r requestId.

(** The listeners on the output. *)
Definition emitOutputError (e : exn) (r : MinimalServerResponse) : MinimalServerResponse * list minimal_effect :=
  if ms_outputErrorEmitted r then (r, [])
  else (ms_flags (ms_finished r) (ms_destroyedState r) (ms_responseStarted r) (ms_commitFailed r) true r, [mf_error e]).
Definition output_closed (rstCode : Z) : exn :=
  verr stream_failure "Output stream was closed by remote peer"
    [(js "requestId", JStr (default [] requestId)); (js "rstCode", JStr (num_to_string (num_int rstCode)))].
Definition output_close (rstCode : option Z) (r : MinimalServerResponse) : MinimalServerResponse * list minimal_effect :=
  let '(r, t) := if ms_destroyedState r then (r, [])
                 else (ms_flags (ms_finished r) true (ms_responseStarted r) (ms_commitFailed r) (ms_outputErrorEmitted r) r, [mf_close]) in
  match rstCode with
  | Some code => if negb (ms_finished r) && negb (code =? 0) then let '(r, t') := emitOutputError (output_closed code) r in (r, t ++ t') else (r, t)
  | None => (r, t)
  end.

(** What the handler and the output do, call by call; a call that throws leaves
    what it has done. *)
Inductive minimal_op : Type :=
  | mo_setHeader (name : jsstring) (value : jsval) | mo_appendHeader (name : jsstring) (value : jsval)
  | mo_writeHead (statusCode : jsnum) (argument : head_argument) (headers : option ResponseHeaders)
  | mo_status (statusCode : jsnum) (statusMessage : option jsstring)
  | mo_write (chunk : bytes) (accepted : bool) | mo_flushHeaders | mo_end (chunk : option bytes) (accepted : bool)
  | mo_outputDrain | mo_outputError (e : exn) | mo_outputClose (rstCode : option Z).
Definition kept_or (r : MinimalServerResponse) (m : result exn MinimalServerResponse) : MinimalServerResponse * list minimal_effect :=
  match m with Ok r' => (r', []) | Throw _ => (r, []) end.
Definition minimal_step (r : MinimalServerResponse) (op : minimal_op) : MinimalServerResponse * list minimal_effect :=
  match op with
  | mo_setHeader name value => kept_or r (setHeader r name value)
  | mo_appendHeader name value => kept_or r (appendHeader r name value)
  | mo_writeHead statusCode argument headers => kept_or r (writeHead r statusCode argument headers)
  | mo_status statusCode statusMessage => (ms_head statusCode statusMessage (headers_of r) r, [])
  | mo_write chunk accepted => fst (write r chunk accepted)
  | mo_flushHeaders => flushHeaders r
  | mo_end chunk accepted => fst (end_response r chunk accepted)
  (* the listeners of the constructor *)
  | mo_outputDrain => if output then (r, [mf_drain]) else (r, [])
  | mo_outputError e => if output then emitOutputError e r else (r, [])
  | mo_outputClose rstCode => if output then output_close rstCode r else (r, [])
  end.
Fixpoint minimal_run (r : MinimalServerResponse) (ops : list minimal_op) : MinimalServerResponse * list minimal_effect :=
  match ops with
  | [] => (r, [])
  | op :: ops => let '(r, e) := minimal_step r op in let '(r, e') := minimal_run r ops in (r, e ++ e')
  end.
End Minimal.

(** * Theory *)
Section Theory.
Context {P : Platform} (requestId : option jsstring) (output : bool) (maxResponseBytes : Z).

(** What reaches the output. *)
Definition to_output (e : minimal_effect) : bool := match e with mf_write _ | mf_end => true | _ => false end.
Definition sent (log : list minimal_effect) : list minimal_effect := filter (fun e => to_output e = true) log.
#[export] Instance mf_finish_dec (e : minimal_effect) : Decision (e = mf_finish).
Proof. destruct e; (by left) || (by right). Defined.
Definition finishes (log : list minimal_effect) : nat := length (filter (fun e => e = mf_finish) log).
Lemma sent_app a b : sent (a ++ b) = sent a ++ sent b.
Proof. apply filter_app. Qed.
Lemma finishes_app a b : finishes (a ++ b) = (finishes a + finishes b)%nat.
Proof. unfold finishes. by rewrite filter_app, length_app. Qed.
(** The envelope of a response that was valid when it was sent. *)
Definition envelope_of (b : bytes) : Prop :=
  exists r response, headers_inv (headers_of r) /\ createCanonicalResponse r (default [] requestId) = Ok response /\
                     encodeVerserEnvelope env_response (JObj (response_fields response)) = Ok b.
Definition stream_of (finished : bool) (l : list minimal_effect) : Prop :=
  exists b chunks, envelope_of b /\ l = mf_write b :: map mf_write chunks ++ (if finished then [mf_end] else []).
Record minimal_inv (r : MinimalServerResponse) (log : list minimal_effect) : Prop := {
  mi_headers : headers_inv (headers_of r);
  mi_finish : finishes log = if ms_finished r then 1%nat else 0%nat;
  mi_sent : if output && ms_responseStarted r && negb (ms_commitFailed r) then stream_of (ms_finished r) (sent log) else sent log = [];
  mi_output : output = true -> ms_finished r = true -> ms_responseStarted r = true /\ ms_commitFailed r = false;
  mi_buffer : 0 <= len (concat (ms_chunks r)) <= ms_bufferedResponseBytes r /\ len (concat (ms_chunks r)) <= Z.max 0 maxResponseBytes;
}.
Lemma minimal_inv_init : minimal_inv minimal_response [].
Proof. split; cbn; try done; [split; [apply map_wf_nil|done|constructor]|by rewrite andb_false_r|unfold len; cbn; lia]. Qed.

(** Effects that do not reach the output. *)
Lemma minimal_inv_more r log t : minimal_inv r log -> sent t = [] -> finishes t = 0%nat -> minimal_inv r (log ++ t).
Proof.
  intros [H1 H2 H4 H5 H6] Hs Hf. split; [done| | |done|done].
  - by rewrite finishes_app, Hf, H2, Nat.add_0_r.
  - by rewrite sent_app, Hs, app_nil_r.
Qed.
Lemma minimal_inv_head r log code message s : minimal_inv r log -> headers_inv s -> minimal_inv (ms_head code message s r) log.
Proof. intros [H1 H2 H4 H5 H6] Hs. split; try done. by destruct s. Qed.
Lemma minimal_inv_flags r log destroyed errored : minimal_inv r log ->
  minimal_inv (ms_flags (ms_finished r) destroyed (ms_responseStarted r) (ms_commitFailed r) errored r) log.
Proof. intros [H1 H2 H4 H5 H6]. by split. Qed.
Lemma minimal_inv_kept r log m r' t : minimal_inv r log -> (forall x, m = Ok x -> minimal_inv x log) -> kept_or r m = (r', t) -> minimal_inv r' (log ++ t).
Proof. intros Hr Hm. unfold kept_or. destruct m; intros [= <- <-]; rewrite app_nil_r; auto. Qed.

Lemma commit_minimal r log r' t ok : minimal_inv r log -> commitResponse requestId output r = (r', t, ok) ->
  minimal_inv r' (log ++ t) /\ ms_finished r' = ms_finished r /\ ms_commitFailed r' = negb ok /\ (output = true -> ok = true -> ms_responseStarted r' = true) /\
  ms_chunks r' = ms_chunks r /\ ms_bufferedResponseBytes r' = ms_bufferedResponseBytes r.
Proof.
  intros Hr. unfold commitResponse. destruct (ms_commitFailed r) eqn:Ec.
  { intros [= <- <- <-]. rewrite app_nil_r. split_and!; try done. }
  assert (forall started e, sent log = [] -> (output = true -> ms_finished r = false) ->
    minimal_inv (ms_flags (ms_finished r) (ms_destroyedState r) started true (ms_outputErrorEmitted r) r) (log ++ [mf_error e])) as Hfail.
  { intros started e Hs Hn. apply minimal_inv_more; [|done|done]. destruct Hr as [H1 H2 H4 H5 H6]. split; cbn; try done; [by rewrite andb_false_r|].
    intros Ho Hf. rewrite Hn in Hf; done. }
  pose proof (mi_sent _ _ Hr) as Hsent. rewrite Ec in Hsent. cbn [negb] in Hsent. rewrite andb_true_r in Hsent.
  pose proof (mi_output _ _ Hr) as Hout. destruct (output) eqn:Eo.
  - unfold startStreamingResponse. cbn [negb orb]. destruct (ms_responseStarted r) eqn:Es.
    + intros [= <- <- <-]. rewrite app_nil_r. split_and!; done.
    + cbn [andb] in Hsent. assert (ms_finished r = false) as Hf by (destruct (ms_finished r); [by destruct (Hout eq_refl eq_refl)|done]).
      destruct (createCanonicalResponse r (default [] requestId)) as [response|e] eqn:Er.
      2: { intros [= <- <- <-]. split_and!; try done. by apply Hfail. }
      destruct (encodeVerserEnvelope env_response (JObj (response_fields response))) as [b|e] eqn:Eb; cbn [mbind result_bind].
      2: { intros [= <- <- <-]. split_and!; try done. by apply Hfail. }
      intros [= <- <- <-]. split_and!; try done. destruct Hr as [H1 H2 H4 H5 H6]. split; cbn; try done.
      * by rewrite finishes_app, H2, Nat.add_0_r.
      * rewrite Eo, Ec, Hf, sent_app, Hsent. exists b, []. split; [|done]. by exists r, response.
  - cbn [andb] in Hsent. destruct requestId as [id|].
    + destruct (createCanonicalResponse r id) as [response|e]; cbn [mbind result_bind]; intros [= <- <- <-].
      * rewrite app_nil_r. split_and!; done.
      * split_and!; try done. by apply Hfail.
    + intros [= <- <- <-]. rewrite app_nil_r. split_and!; done.
Qed.

Lemma write_minimal r log chunk accepted r' t w : minimal_inv r log -> write requestId output maxResponseBytes r chunk accepted = (r', t, w) ->
  minimal_inv r' (log ++ t) /\ ms_finished r' = ms_finished r /\
  (ms_finished r = false -> forall x, w = Ok x -> ms_commitFailed r' = false -> ms_destroyedState r = false -> output = true -> ms_responseStarted r' = true).
Proof.
  intros Hr. unfold write. destruct (ms_destroyedState r || ms_finished r) eqn:Ed.
  { intros [= <- <- <-]. rewrite app_nil_r. split_and!; try done. intros Hf _ _ _ Hd. by rewrite Hf, Hd in Ed. }
  apply orb_false_iff in Ed as [Ed Hf]. destruct (commitResponse requestId output r) as [[r1 e1] ok] eqn:E.
  destruct (commit_minimal r log r1 e1 ok Hr E) as (H1 & Hf1 & Hc & Hs & Hch & Hb). destruct ok; cbn [negb] in *.
  2: { intros [= <- <- <-]. split_and!; [done|congruence|]. intros _ _ _ Hx. congruence. }
  destruct output eqn:Eo.
  - intros [= <- <- <-]. rewrite app_assoc. split_and!; [|congruence|auto]. destruct H1 as [A1 A2 A4 A5 A6]. split; try done.
    + by rewrite finishes_app, A2, Nat.add_0_r.
    + rewrite Eo, Hs, Hc, Hf1 in * by done. cbn [andb negb] in *. destruct A4 as (b & chunks & Hb' & Hl). exists b, (chunks ++ [chunk]).
      split; [done|]. rewrite sent_app, Hl, map_app. cbn. by rewrite Hf, !app_nil_r.
  - destruct (maxResponseBytes <? _) eqn:El; intros [= <- <- <-].
    + rewrite app_assoc. split_and!; [|done|done]. apply minimal_inv_more; [|done|done]. destruct H1 as [A1 A2 A4 A5 A6]. split; try done. cbn.
      rewrite Hb in *. assert (0 <= len chunk) by (unfold len; lia). lia.
    + split_and!; [|done|done]. destruct H1 as [A1 A2 A4 A5 A6]. split; try done. cbn. rewrite Hb, concat_app, len_app in *. cbn [concat]. rewrite app_nil_r.
      assert (0 <= len chunk) by (unfold len; lia). lia.
Qed.
Lemma finish_minimal r log r' t : minimal_inv r log -> ms_finished r = false -> ms_commitFailed r = false -> (output = true -> ms_responseStarted r = true) ->
  finish output r = (r', t) -> minimal_inv r' (log ++ t).
Proof.
  intros [H1 H2 H4 H5 H6] Hf Hc Hs. unfold finish. intros [= <- <-]. rewrite Hf in H2. split; cbn; try done; [| |by intros; split; auto].
  - rewrite finishes_app, H2. by destruct output.
  - rewrite Hf, Hc in *. cbn [negb] in *. rewrite andb_true_r in *. destruct output eqn:Eo; cbn [andb] in *.
    + rewrite Hs in * by done. destruct H4 as (b & chunks & Hb & Hl). exists b, chunks. split; [done|]. rewrite sent_app, Hl. cbn. by rewrite app_nil_r.
    + by rewrite sent_app, H4.
Qed.
Lemma end_minimal r log chunk accepted r' t w : minimal_inv r log -> end_response requestId output maxResponseBytes r chunk accepted = (r', t, w) -> minimal_inv r' (log ++ t).
Proof.
  intros Hr. unfold end_response. destruct (ms_finished r || ms_destroyedState r || ms_commitFailed r) eqn:Ed; [intros [= <- <- <-]; by rewrite app_nil_r|].
  apply orb_false_iff in Ed as [[Hf Hd]%orb_false_iff Hc]. destruct chunk as [c|].
  - destruct (write requestId output maxResponseBytes r c accepted) as [[r1 e1] w1] eqn:Ew. destruct (write_minimal r log c accepted r1 e1 w1 Hr Ew) as (H1 & Hf1 & Hs).
    destruct w1 as [x|e]; cbn [fmap result_fmap]; [|by intros [= <- <- <-]]. destruct (ms_commitFailed r1) eqn:Ec; [by intros [= <- <- <-]|]. cbn [negb].
    destruct (finish output r1) as [r2 e2] eqn:E2. intros [= <- <- <-]. rewrite app_assoc. eapply finish_minimal; [done|congruence|done| |exact E2]. by apply (Hs Hf x).
  - destruct (commitResponse requestId output r) as [[r1 e1] ok] eqn:Ew. destruct (commit_minimal r log r1 e1 ok Hr Ew) as (H1 & Hf1 & Hc1 & Hs & _).
    destruct ok; [|by intros [= <- <- <-]]. destruct (finish output r1) as [r2 e2] eqn:E2. intros [= <- <- <-]. rewrite app_assoc.
    eapply finish_minimal; [done|congruence|done| |exact E2]. auto.
Qed.
Lemma output_error_minimal e r log r' t : minimal_inv r log -> emitOutputError e r = (r', t) -> minimal_inv r' (log ++ t).
Proof.
  intros Hr. unfold emitOutputError. destruct (ms_outputErrorEmitted r); intros [= <- <-]; [by rewrite app_nil_r|].
  apply minimal_inv_more; [by apply minimal_inv_flags|done|done].
Qed.
Lemma output_close_minimal code r log r' t : minimal_inv r log -> output_close requestId code r = (r', t) -> minimal_inv r' (log ++ t).
Proof.
  intros Hr. unfold output_close. destruct (if ms_destroyedState r then _ else _) as [r1 t1] eqn:E1.
  assert (minimal_inv r1 (log ++ t1)) as H1.
  { destruct (ms_destroyedState r); injection E1 as <- <-; [by rewrite app_nil_r|]. apply minimal_inv_more; [by apply minimal_inv_flags|done|done]. }
  destruct code as [c|]; [|by intros [= <- <-]]. destruct (negb (ms_finished r1) && negb (c =? 0)); [|by intros [= <- <-]].
  destruct (emitOutputError _ r1) as [r2 t2] eqn:E2. intros [= <- <-]. rewrite app_assoc. by eapply output_error_minimal.
Qed.
Lemma minimal_step_inv r log op r' t : minimal_inv r log -> minimal_step requestId output maxResponseBytes r op = (r', t) -> minimal_inv r' (log ++ t).
Proof.
  intros Hr E. pose proof (mi_headers _ _ Hr) as Hh. destruct op as [name value|name value|code a hs|code m|chunk acc| |chunk acc| |e|code]; cbn in E.
  - eapply minimal_inv_kept; [done| |exact E]. intros x ([n v] & H & Hx)%bind_Ok_inv. apply Ok_inj in Hx as <-.
    apply normalize_header_Ok in H as (-> & Hv & Hn & Hval). apply minimal_inv_head; [done|]. by apply set_header_inv.
  - eapply minimal_inv_kept; [done| |exact E]. intros x ([n v] & H & Hx)%bind_Ok_inv. apply Ok_inj in Hx as <-.
    apply normalize_values_Ok in H as (-> & -> & Hn & Hval). apply minimal_inv_head; [done|].
    unfold getHeader. rewrite (normal_name_lower _ Hn). by apply (append_header_inv (headers_of r)).
  - eapply minimal_inv_kept; [done| |exact E]. intros x Hx. unfold writeHead in Hx.
    apply bind_Ok_inv in Hx as (c & _ & Hx). apply bind_Ok_inv in Hx as (u & _ & Hx). apply bind_Ok_inv in Hx as (s & Hs & Hx).
    apply Ok_inj in Hx as <-. apply write_headers_spec in Hs as [H1 _]; [|done]. by apply minimal_inv_head.
  - injection E as <- <-. rewrite app_nil_r. by apply minimal_inv_head.
  - destruct (write _ _ _ _ _ _) as [[r1 e1] w] eqn:Ew. injection E as <- <-. by eapply write_minimal.
  - unfold flushHeaders in E. destruct (commitResponse requestId output r) as [[r1 e1] ok] eqn:E1. injection E as <- <-.
    by eapply commit_minimal.
  - destruct (end_response _ _ _ _ _ _) as [[r1 e1] w] eqn:Ew. injection E as <- <-. by eapply end_minimal.
  - destruct output; injection E as <- <-; [by apply minimal_inv_more|by rewrite app_nil_r].
  - destruct output; [by eapply output_error_minimal|]. injection E as <- <-. by rewrite app_nil_r.
  - destruct output; [by eapply output_close_minimal|]. injection E as <- <-. by rewrite app_nil_r.
Qed.

Lemma minimal_run_inv ops r log r' t : minimal_inv r log -> minimal_run requestId output maxResponseBytes r ops = (r', t) -> minimal_inv r' (log ++ t).
Proof.
  revert r log t. induction ops as [|op ops IH]; intros r log t Hr E; cbn in E.
  - injection E as <- <-. by rewrite app_nil_r.
  - destruct (minimal_step _ _ _ r op) as [r1 e1] eqn:E1. destruct (minimal_run _ _ _ r1 ops) as [r2 e2] eqn:E2. injection E as <- <-.
    rewrite app_assoc. eapply IH; [|exact E2]. by eapply minimal_step_inv.
Qed.

(** The response of a guest's handler, whatever the handler calls and its output
    does.  Map and pairs agree name by name, with valid lower-case names and valid
    values; 'finish' is emitted once, when the response is finished.  Streamed, it
    sends nothing or one envelope of a valid response, then the chunks, and the end
    once finished; buffered, it sends nothing and keeps no more than its limit. *)
Theorem minimal_response_correct ops :
  let r := (minimal_run requestId output maxResponseBytes minimal_response ops).1 in
  let effects := (minimal_run requestId output maxResponseBytes minimal_response ops).2 in
  (forall n, normal_name n -> from_option stored_list [] (getHeader r n) = values_for n (ms_headerPairs r)) /\ Forall normal_pair (ms_headerPairs r) /\
  finishes effects = (if ms_finished r then 1%nat else 0%nat) /\
  (if output then sent effects = [] \/ stream_of (ms_finished r) (sent effects)
   else sent effects = [] /\ len (concat (ms_chunks r)) <= Z.max 0 maxResponseBytes).
Proof.
  destruct (minimal_run requestId output maxResponseBytes minimal_response ops) as [r effects] eqn:E. cbn.
  destruct (minimal_run_inv _ _ _ _ _ minimal_inv_init E) as [[Hwf Ha Hn] H2 H4 H5 H6]. cbn [app] in *. split_and!; [|done|done|].
  - intros n Hname. unfold getHeader. rewrite (normal_name_lower n Hname). symmetry. apply Ha.
  - destruct output; [|by split; [|lia]]. cbn [andb] in H4. destruct (ms_responseStarted r && negb (ms_commitFailed r)); auto.
Qed.
End Theory.
