(* ===== verification/GuestDispatch.v ===== *)
(** A request at a guest of the Node package (verser2-guest-node
    [http2-verser-node-guest.ts]): [dispatchLeasedRequest] over a lease stream,
    [dispatchRoutedRequest] in memory, and [handleWsLeaseStream].

    The handler's calls on its response, its end and what the lease stream does are
    events; the response's own listeners run before the dispatch's, as they were
    installed before.  A stream that was ended or closed drops what is written
    later; the error it then reports is an event. *)
From S2P Require Import Prelude JsNum Utf8 Json Errors Headers ResponseMetadata Routing Envelope Effects BrokerRequests BrokerRouting LocalGuest MinimalHttp NodeGuest.

Definition NO_ERROR : Z := 0.
Definition CANCEL : Z := 8.
Inductive dispatch_note : Type :=
  | dn_started | dn_completed | dn_error (e : VerserError)   (** lifecycle events *)
  | dn_cancel                                               (** [lease.stream.close(NGHTTP2_CANCEL)] *)
  | dn_request_error (e : exn)                              (** emitted on the handler's request *)
  | dn_uncaught (e : exn).                                  (** a throw out of a listener *)
(** The request: the fields of its metadata that are looked at. *)
Record guest_request := { gq_requestId : jsstring; gq_leaseId : jsstring; gq_path : jsstring }.

Record lease_dispatch := {
  gd_response : MinimalServerResponse;
  gd_wire : list bytes; gd_ended : bool; gd_over : bool; gd_rstCode : option Z;      (** the lease stream *)
  gd_completed : bool; gd_transportTerminated : bool; gd_selfCancelled : bool; gd_requestFailureNotified : bool;
  gd_running : bool;        (** the listener's call has not returned *)
  gd_awaited : bool;        (** it returned a promise that is not settled *)
  gd_aborted : bool;        (** 'aborted' was emitted *)
  gd_resolved : bool; gd_log : list dispatch_note;
}.
Definition gd_with_response (r : MinimalServerResponse) (st : lease_dispatch) : lease_dispatch :=
  {| gd_response := r; gd_wire := gd_wire st; gd_ended := gd_ended st; gd_over := gd_over st; gd_rstCode := gd_rstCode st; gd_completed := gd_completed st;
     gd_transportTerminated := gd_transportTerminated st; gd_selfCancelled := gd_selfCancelled st; gd_requestFailureNotified := gd_requestFailureNotified st;
     gd_running := gd_running st; gd_awaited := gd_awaited st; gd_aborted := gd_aborted st; gd_resolved := gd_resolved st; gd_log := gd_log st |}.
Definition gd_stream (wire : list bytes) (ended over : bool) (rstCode : option Z) (st : lease_dispatch) : lease_dispatch :=
  {| gd_response := gd_response st; gd_wire := wire; gd_ended := ended; gd_over := over; gd_rstCode := rstCode; gd_completed := gd_completed st;
     gd_transportTerminated := gd_transportTerminated st; gd_selfCancelled := gd_selfCancelled st; gd_requestFailureNotified := gd_requestFailureNotified st;
     gd_running := gd_running st; gd_awaited := gd_awaited st; gd_aborted := gd_aborted st; gd_resolved := gd_resolved st; gd_log := gd_log st |}.
Definition gd_flags (completed terminated cancelled notified resolved : bool) (st : lease_dispatch) : lease_dispatch :=
  {| gd_response := gd_response st; gd_wire := gd_wire st; gd_ended := gd_ended st; gd_over := gd_over st; gd_rstCode := gd_rstCode st; gd_completed := completed;
     gd_transportTerminated := terminated; gd_selfCancelled := cancelled; gd_requestFailureNotified := notified;
     gd_running := gd_running st; gd_awaited := gd_awaited st; gd_aborted := gd_aborted st; gd_resolved := resolved; gd_log := gd_log st |}.
Definition gd_calling (running awaited aborted : bool) (st : lease_dispatch) : lease_dispatch :=
  {| gd_response := gd_response st; gd_wire := gd_wire st; gd_ended := gd_ended st; gd_over := gd_over st; gd_rstCode := gd_rstCode st; gd_completed := gd_completed st;
     gd_transportTerminated := gd_transportTerminated st; gd_selfCancelled := gd_selfCancelled st; gd_requestFailureNotified := gd_requestFailureNotified st;
     gd_running := running; gd_awaited := awaited; gd_aborted := aborted; gd_resolved := gd_resolved st; gd_log := gd_log st |}.
Definition gd_note (n : dispatch_note) (st : lease_dispatch) : lease_dispatch :=
  {| gd_response := gd_response st; gd_wire := gd_wire st; gd_ended := gd_ended st; gd_over := gd_over st; gd_rstCode := gd_rstCode st; gd_completed := gd_completed st;
     gd_transportTerminated := gd_transportTerminated st; gd_selfCancelled := gd_selfCancelled st; gd_requestFailureNotified := gd_requestFailureNotified st;
     gd_running := gd_running st; gd_awaited := gd_awaited st; gd_aborted := gd_aborted st; gd_resolved := gd_resolved st; gd_log := gd_log st ++ [n] |}.

Section Dispatch.
Context {P : Platform} (guestId : jsstring) (request : guest_request).

(** ** Over a lease stream *)
Definition gd_write (b : bytes) (st : lease_dispatch) : lease_dispatch :=
  if gd_ended st then st else gd_stream (gd_wire st ++ [b]) false (gd_over st) (gd_rstCode st) st.
Definition gd_end (st : lease_dispatch) : lease_dispatch := gd_stream (gd_wire st) true (gd_over st) (gd_rstCode st) st.
Definition gd_cancel (st : lease_dispatch) : lease_dispatch :=
  gd_note dn_cancel (gd_stream (gd_wire st) true (gd_over st) (match gd_rstCode st with Some c => Some c | None => Some CANCEL end) st).

Definition local_failure (e : exn) : VerserError :=
  let failure := createVerserError local_handler_failure (getErrorMessage e)
                   [(js "guestId", JStr guestId); (js "requestId", JStr (gq_requestId request)); (js "path", JStr (gq_path request))] in
  match e with VerserErr v => if bool_decide (ve_code v = protocol_error) then v else failure | _ => failure end.
Definition failure_envelope (code : VerserErrorCode) (message : jsstring) (context : VerserErrorContext) : result exn bytes :=
  encodeVerserEnvelope env_error
    (JObj [(js "requestId", JStr (gq_requestId request)); (js "code", JStr (code_name code)); (js "message", JStr message); (js "context", JObj context)]).
Definition complete (st : lease_dispatch) : lease_dispatch :=
  if gd_completed st then st else gd_flags true (gd_transportTerminated st) (gd_selfCancelled st) (gd_requestFailureNotified st) true st.
Definition resolve (st : lease_dispatch) : lease_dispatch :=
  gd_flags (gd_completed st) (gd_transportTerminated st) (gd_selfCancelled st) (gd_requestFailureNotified st) true st.
(** A failure of the handler: the response under way is cancelled, or an error
    envelope sent instead. *)
Definition fail_response (e : VerserError) (st : lease_dispatch) : lease_dispatch :=
  let st := gd_note (dn_error e) st in
  if ms_responseStarted (gd_response st) then
    resolve (gd_cancel (gd_flags (gd_completed st) (gd_transportTerminated st) true (gd_requestFailureNotified st) (gd_resolved st) st))
  else match failure_envelope (ve_code e) (ve_message e) (ve_context e) with
       | Throw x => gd_note (dn_uncaught x) st
       | Ok b => resolve (gd_end (gd_write b st))
       end.
Definition reset (st : lease_dispatch) : bool := match gd_rstCode st with Some c => negb (c =? NO_ERROR) | None => false end.
(** The listener on the response's 'error'. *)
Definition on_response_error (e : exn) (st : lease_dispatch) : lease_dispatch :=
  let st := if reset st then gd_flags (gd_completed st) true (gd_selfCancelled st) (gd_requestFailureNotified st) (gd_resolved st) st else st in
  if gd_completed st || gd_transportTerminated st then gd_note (dn_error (guest_error e)) st
  else fail_response (local_failure e) (gd_flags true (gd_transportTerminated st) (gd_selfCancelled st) (gd_requestFailureNotified st) (gd_resolved st) st).
(** What the response emits, and what it does to the stream. *)
Definition response_effect (st : lease_dispatch) (e : minimal_effect) : lease_dispatch :=
  match e with
  | mf_write b => gd_write b st
  | mf_end => gd_end st
  | mf_finish => complete (gd_note dn_completed st)
  | mf_error e => on_response_error e st
  | mf_close | mf_drain => st
  end.
Definition response_call (op : minimal_op) (st : lease_dispatch) : lease_dispatch :=
  let '(r, effects) := minimal_step (Some (gq_requestId request)) true 0 (gd_response st) op in
  fold_left response_effect effects (gd_with_response r st).

Definition notify_request (e : exn) (st : lease_dispatch) : lease_dispatch :=
  gd_note (dn_request_error e) (gd_flags (gd_completed st) (gd_transportTerminated st) (gd_selfCancelled st) true (gd_resolved st) st).
Definition terminated (st : lease_dispatch) : lease_dispatch :=
  gd_flags (gd_completed st) true (gd_selfCancelled st) (gd_requestFailureNotified st) (gd_resolved st) st.
Definition on_aborted (st : lease_dispatch) : lease_dispatch :=
  if gd_selfCancelled st || gd_requestFailureNotified st then st
  else
    let st := terminated st in
    match gd_rstCode st with
    | Some rst =>
        if rst =? NO_ERROR then st
        else notify_request (verr stream_failure "Request stream was cancelled by the remote peer"
               [(js "requestId", JStr (gq_requestId request)); (js "leaseId", JStr (gq_leaseId request)); (js "rstCode", JStr (num_to_string (num_int rst)))]) st
    | None => st
    end.
Definition on_close (st : lease_dispatch) : lease_dispatch :=
  let st := if negb (ms_finished (gd_response st)) && negb (gd_selfCancelled st) then
              let st := terminated st in
              if gd_requestFailureNotified st then st
              else notify_request (verr stream_failure "Request transport closed before response completion"
                     [(js "requestId", JStr (gq_requestId request)); (js "leaseId", JStr (gq_leaseId request))]) st
            else st in
  complete st.

Definition dispatch_start : lease_dispatch :=
  {| gd_response := minimal_response; gd_wire := []; gd_ended := false; gd_over := false; gd_rstCode := None; gd_completed := false;
     gd_transportTerminated := false; gd_selfCancelled := false; gd_requestFailureNotified := false; gd_running := true; gd_awaited := false;
     gd_aborted := false; gd_resolved := false; gd_log := [dn_started] |}.
Inductive lease_event : Type :=
  | lv_call (op : minimal_op)                     (** the handler uses its response *)
  | lv_throw (e : exn) | lv_return (promise : bool) | lv_reject (e : exn)
  | lv_reset (rstCode : Z)                        (** the code of the stream is known *)
  | lv_aborted | lv_drain | lv_stream_error (e : exn) | lv_close.
Definition handler_op (op : minimal_op) : bool := match op with mo_outputDrain | mo_outputError _ | mo_outputClose _ => false | _ => true end.
Definition lease_event_step (st : lease_dispatch) (ev : lease_event) : lease_dispatch :=
  match ev with
  | lv_call op => if handler_op op then response_call op st else st
  | lv_throw e => if gd_running st then fail_response (local_failure e) (gd_calling false false (gd_aborted st) st) else st
  | lv_return promise => if gd_running st then gd_calling false promise (gd_aborted st) st else st
  (* [observeListenerResult] *)
  | lv_reject e => if gd_awaited st then on_response_error e (gd_calling false false (gd_aborted st) st) else st
  | lv_reset code => match gd_rstCode st with Some _ => st | None => gd_stream (gd_wire st) (gd_ended st) (gd_over st) (Some code) st end
  | lv_aborted => if gd_aborted st then st else on_aborted (gd_calling (gd_running st) (gd_awaited st) true st)
  | lv_drain => response_call mo_outputDrain st
  | lv_stream_error e => response_call (mo_outputError e) st
  | lv_close => if gd_over st then st
                else on_close (response_call (mo_outputClose (gd_rstCode st)) (gd_stream (gd_wire st) true true (gd_rstCode st) st))
  end.
Definition lease_run (events : list lease_event) : lease_dispatch := fold_left lease_event_step events dispatch_start.

(** [dispatchLeasedRequest] up to the call of the listener: without one, what the
    stream is ended with. *)
Definition dispatchLeasedRequest (listener : bool) (headers : VerserHeaders) : result exn (bytes + lease_dispatch) :=
  if negb listener then
    inl <$> failure_envelope local_handler_failure (js "No local HTTP handler is attached")
              [(js "guestId", JStr guestId); (js "requestId", JStr (gq_requestId request))]
  else _ ← validateVerserHeaders headers; Ok (inr dispatch_start).

(** ** In memory *)
Record routed_dispatch := {
  ro_response : MinimalServerResponse; ro_settled : bool; ro_promise : option (result exn (RoutedResponseEnvelope * bytes));
  ro_running : bool; ro_awaited : bool; ro_log : list dispatch_note;
}.
Definition ro_set (r : MinimalServerResponse) (settled : bool) (promise : option (result exn (RoutedResponseEnvelope * bytes))) (running awaited : bool)
    (log : list dispatch_note) : routed_dispatch :=
  {| ro_response := r; ro_settled := settled; ro_promise := promise; ro_running := running; ro_awaited := awaited; ro_log := log |}.
Definition ro_fulfil (p : result exn (RoutedResponseEnvelope * bytes)) (st : routed_dispatch) : routed_dispatch :=
  ro_set (ro_response st) (ro_settled st) (match ro_promise st with Some q => Some q | None => Some p end) (ro_running st) (ro_awaited st) (ro_log st).
Definition ro_settle (st : routed_dispatch) : routed_dispatch := ro_set (ro_response st) true (ro_promise st) (ro_running st) (ro_awaited st) (ro_log st).
Definition ro_note (n : dispatch_note) (st : routed_dispatch) : routed_dispatch :=
  ro_set (ro_response st) (ro_settled st) (ro_promise st) (ro_running st) (ro_awaited st) (ro_log st ++ [n]).
Definition ro_error (e : exn) (st : routed_dispatch) : routed_dispatch :=
  if ro_settled st then ro_note (dn_error (guest_error e)) st else ro_fulfil (Throw e) (ro_settle st).
Definition ro_effect (st : routed_dispatch) (e : minimal_effect) : routed_dispatch :=
  match e with
  | mf_error e => ro_error e st
  | mf_finish =>
      let st := ro_settle st in
      match toDispatchResponse (ro_response st) (gq_requestId request) with
      | Throw e => ro_note (dn_uncaught e) st
      | Ok response => ro_fulfil (Ok response) (ro_note dn_completed st)
      end
  | _ => st
  end.
Section Routed.
Context (maxResponseBytes : Z).
Definition ro_start : routed_dispatch := ro_set minimal_response false None true false [dn_started].
Definition routed_step (st : routed_dispatch) (ev : lease_event) : routed_dispatch :=
  match ev with
  | lv_call op =>
      if handler_op op then
        let '(r, effects) := minimal_step (Some (gq_requestId request)) false maxResponseBytes (ro_response st) op in
        fold_left ro_effect effects (ro_set r (ro_settled st) (ro_promise st) (ro_running st) (ro_awaited st) (ro_log st))
      else st
  | lv_throw e =>
      if ro_running st then
        let verserError := local_failure e in
        ro_fulfil (Throw (VerserErr verserError)) (ro_note (dn_error verserError) (ro_set (ro_response st) (ro_settled st) (ro_promise st) false false (ro_log st)))
      else st
  | lv_return promise => if ro_running st then ro_set (ro_response st) (ro_settled st) (ro_promise st) false promise (ro_log st) else st
  | lv_reject e => if ro_awaited st then ro_error e (ro_set (ro_response st) (ro_settled st) (ro_promise st) false false (ro_log st)) else st
  | _ => st
  end.
Definition routed_run (events : list lease_event) : routed_dispatch := fold_left routed_step events ro_start.
End Routed.
Definition dispatchRoutedRequest (listener : bool) (envelope : RoutedRequestEnvelope) : result exn routed_dispatch :=
  _ ← createRoutedRequestEnvelope envelope;
  if negb listener then
    Ok (ro_set minimal_response false
          (Some (Throw (verr local_handler_failure "No local HTTP handler is attached" [(js "guestId", JStr guestId); (js "requestId", JStr (gq_requestId request))])))
          false false [])
  else Ok ro_start.
End Dispatch.

(** ** A WebSocket lease *)
Record ws_open := { wo_domain : jsstring; wo_path : jsstring; wo_protocol : jsstring }.
(** What the handler answers, once settled. *)
Inductive ws_answer : Type :=
  | wa_undefined | wa_null | wa_false
  | wa_result (protocol : option jsval)      (** an object, with the value of its property [protocol] *)
  | wa_throws (e : exn).
Inductive ws_outcome : Type :=
  | wx_accepted (protocol : option jsstring)
  | wx_refused (frame : jsval) (event : option VerserError)   (** an error frame is written and the stream closed *)
  | wx_failed (e : exn).                                      (** the promise is rejected *)
Section WsLease.
Context {P : Platform} (guestId : jsstring).
Definition optional_text (v : jsval) (otherwise : jsstring) : option jsstring := match v with JUndef => Some otherwise | JStr s => Some s | _ => None end.
Definition read_ws_open (line : jsstring) : result exn ws_open :=
  match json_parse line with
  | None => Throw (EngineErr SyntaxError line)
  | Some frame =>
      match js_member (js "type") frame with
      | None => Throw (EngineErr TypeError line)
      | Some type =>
          if negb (is_str (js "open") type) then Throw (verr_js protocol_error (js "Expected VWS open frame, got " ++ to_str type) [])
          else match js_opt_member (js "domain") frame, optional_text (js_opt_member (js "path") frame) (js "/"), optional_text (js_opt_member (js "protocol") frame) [] with
               | JStr domain, Some path, Some protocol => Ok {| wo_domain := domain; wo_path := path; wo_protocol := protocol |}
               | _, _, _ => Throw (verr protocol_error "Malformed VWS open frame" [])
               end
      end
  end.
Definition ws_error_frame (e : VerserError) : jsval :=
  JObj [(js "type", JStr (js "error")); (js "code", JStr (code_name (ve_code e))); (js "message", JStr (ve_message e)); (js "context", JObj (ve_context e))].
Definition ws_unavailable (open : ws_open) : VerserError :=
  createVerserError missing_guest (js "WebSocket endpoint is unavailable")
    [(js "guestId", JStr guestId); (js "domain", JStr (wo_domain open)); (js "path", JStr (wo_path open)); (js "status", JNum (num_int 404))].
(** The answer [null] is replaced by [undefined] before it is looked at. *)
Definition decide_ws (native : bool) (open : ws_open) (answer : ws_answer) : ws_outcome :=
  let accept (protocol : option jsval) :=
    match protocol with
    | None | Some JUndef => wx_accepted None
    | Some (JStr p) => if negb (bool_decide (p = [])) && negb (bool_decide (p = wo_protocol open)) then
                         wx_failed (verr protocol_error "Guest-selected WebSocket subprotocol was not offered by the Broker" [])
                       else wx_accepted (Some p)
    | Some _ => wx_failed (verr protocol_error "Malformed WebSocket accept protocol" [])
    end in
  match answer with
  | wa_throws e => if native then wx_refused (ws_error_frame (guest_error e)) (Some (guest_error e)) else wx_failed e
  | wa_false => wx_refused (ws_error_frame (ws_unavailable open)) None
  | wa_undefined | wa_null => accept (Some (JStr (wo_protocol open)))
  | wa_result (Some protocol) => accept (Some protocol)
  | wa_result None => accept (Some (JStr (wo_protocol open)))
  end.
Definition handleWsLeaseStream (native : bool) (line : jsstring) (handler : ws_open -> ws_answer) : ws_outcome :=
  match read_ws_open line with Throw e => wx_failed e | Ok open => decide_ws native open (handler open) end.
End WsLease.

(** * Theory *)
Section Theory.
Context {P : Platform} (guestId : jsstring) (request : guest_request).
Let rid := Some (gq_requestId request).

(** What a lease stream carries: nothing, an error envelope alone, or the envelope
    of a response and what follows it. *)
Definition wire_ok (wire : list bytes) : Prop :=
  wire = [] \/ (exists code message context b, failure_envelope request code message context = Ok b /\ wire = [b]) \/
  exists b chunks, envelope_of rid b /\ wire = b :: chunks.
Definition count_notes (Q : dispatch_note -> bool) (log : list dispatch_note) : nat := length (filter (fun n => Q n = true) log).
#[local] Arguments count_notes : simpl never.
#[local] Arguments sent : simpl never.
#[local] Arguments finishes : simpl never.
Definition is_completed (n : dispatch_note) : bool := match n with dn_completed => true | _ => false end.
Definition is_request_error (n : dispatch_note) : bool := match n with dn_request_error _ => true | _ => false end.
Definition gave_up (log : list dispatch_note) : Prop := exists e, dn_uncaught e ∈ log.
Lemma count_snoc Q log n : count_notes Q (log ++ [n]) = (count_notes Q log + if Q n then 1 else 0)%nat.
Proof. unfold count_notes. rewrite filter_app, length_app, filter_cons, filter_nil. destruct (Q n); reflexivity. Qed.

(** The wire follows what the response has sent, [log], until the stream is ended. *)
Record wire_inv (log : list minimal_effect) (st : lease_dispatch) : Prop := {
  wi_open : gd_ended st = false -> map mf_write (gd_wire st) = sent log;
  wi_wire : wire_ok (gd_wire st);
  wi_completed : count_notes is_completed (gd_log st) = finishes log;
}.
Record flags_inv (st : lease_dispatch) : Prop := {
  fi_completed : gd_completed st = true -> gd_resolved st = true \/ gave_up (gd_log st);
  fi_cancelled : gd_selfCancelled st = true -> ms_responseStarted (gd_response st) = true;
  fi_notified : count_notes is_request_error (gd_log st) = if gd_requestFailureNotified st then 1%nat else 0%nat;
}.
Lemma gave_up_later log n : gave_up log -> gave_up (log ++ [n]).
Proof. intros [e He]. exists e. rewrite elem_of_app. by left. Qed.

(** ** The wire *)
Lemma sent_prefix_ok w log t f : map mf_write w = sent log -> sent (log ++ t) = [] \/ stream_of rid f (sent (log ++ t)) -> wire_ok w.
Proof.
  intros Hw. rewrite sent_app. intros [[Hn _]%app_eq_nil|(b & chunks & Hb & Hs)].
  - left. rewrite Hn in Hw. by apply fmap_nil_inv in Hw.
  - rewrite <- Hw in Hs. destruct w as [|b' w]; [by left|]. right. right. cbn in Hs. injection Hs as <- _. by exists b', w.
Qed.
Lemma minimal_sent r log : minimal_inv rid true 0 r log -> sent log = [] \/ stream_of rid (ms_finished r) (sent log).
Proof. intros [_ _ H _ _]. cbn [andb] in H. destruct (ms_responseStarted r && negb (ms_commitFailed r)); auto. Qed.
Lemma not_started_sent r log t : minimal_inv rid true 0 r (log ++ t) -> ms_responseStarted r = false -> sent log = [].
Proof. intros [_ _ H _ _] Hs. rewrite Hs, sent_app in H. cbn [andb] in H. by apply app_eq_nil in H as [? _]. Qed.

Lemma fail_wire e log t st : minimal_inv rid true 0 (gd_response st) (log ++ t) -> wire_inv log st -> wire_inv log (fail_response request e st).
Proof.
  intros Hm [H1 H2 H3]. unfold fail_response. destruct (ms_responseStarted (gd_response (gd_note _ st))) eqn:Es.
  - split; [done|done|]. cbn. by rewrite !count_snoc, H3, !Nat.add_0_r.
  - cbn in Es. destruct (failure_envelope _ _ _ _) as [b|x] eqn:Eb.
    + unfold gd_write. cbn [gd_ended gd_note]. destruct (gd_ended st) eqn:Ee; (split; [done| |cbn; by rewrite count_snoc, H3, Nat.add_0_r]); cbn; [done|].
      pose proof (H1 eq_refl) as Hw. rewrite (not_started_sent _ _ _ Hm Es) in Hw. apply fmap_nil_inv in Hw. rewrite Hw. right. left. by eexists _, _, _, b.
    + split; [done|done|]. cbn. by rewrite !count_snoc, H3, !Nat.add_0_r.
Qed.
Lemma error_wire e log t st : minimal_inv rid true 0 (gd_response st) (log ++ t) -> wire_inv log st -> wire_inv log (on_response_error guestId request e st).
Proof.
  intros Hm H. unfold on_response_error. destruct (reset st).
  - cbn [gd_transportTerminated gd_flags]. rewrite orb_true_r. destruct H as [H1 H2 H3]. split; [done|done|]. cbn. by rewrite count_snoc, H3, Nat.add_0_r.
  - destruct (gd_completed st || gd_transportTerminated st).
    + destruct H as [H1 H2 H3]. split; [done|done|]. cbn. by rewrite count_snoc, H3, Nat.add_0_r.
    + apply (fail_wire _ _ t); [done|]. destruct H as [H1 H2 H3]. by split.
Qed.
Lemma fail_response_same e st : gd_response (fail_response request e st) = gd_response st.
Proof. unfold fail_response, gd_write. repeat case_match; done. Qed.
Lemma error_response_same e st : gd_response (on_response_error guestId request e st) = gd_response st.
Proof. unfold on_response_error. destruct (reset st); case_match; rewrite ?fail_response_same; done. Qed.
Lemma effect_response_same e st : gd_response (response_effect guestId request st e) = gd_response st.
Proof.
  destruct e; cbn; try done; [apply error_response_same| |]; unfold complete, gd_write; case_match; done.
Qed.
Lemma effect_wire e log t st : minimal_inv rid true 0 (gd_response st) (log ++ e :: t) -> wire_inv log st -> wire_inv (log ++ [e]) (response_effect guestId request st e).
Proof.
  intros Hm H. assert (sent [e] = [] -> finishes [e] = 0%nat -> wire_inv (log ++ [e]) st) as Hsame.
  { intros Hs Hf. destruct H as [H1 H2 H3]. split; [intros He; rewrite sent_app, Hs, app_nil_r; auto|done|]. by rewrite finishes_app, Hf, Nat.add_0_r. }
  destruct e as [x| | | |b|]; cbn [response_effect]; try by apply Hsame.
  - eapply (error_wire _ _ t); [|by apply Hsame]. by rewrite <- app_assoc.
  - destruct H as [H1 H2 H3]. unfold complete. cbn [gd_completed gd_note].
    assert (count_notes is_completed (gd_log st ++ [dn_completed]) = finishes (log ++ [mf_finish])) as Hc by (rewrite count_snoc, H3, finishes_app; reflexivity).
    assert (sent (log ++ [mf_finish]) = sent log) as Hs by (rewrite sent_app; apply app_nil_r).
    destruct (gd_completed st); split; rewrite ?Hs; done.
  - unfold gd_write. destruct (gd_ended st) eqn:Ee.
    + destruct H as [H1 H2 H3]. split; [congruence|done|]. rewrite finishes_app, H3, Nat.add_0_r. reflexivity.
    + destruct H as [H1 H2 H3]. assert (map mf_write (gd_wire st ++ [b]) = sent (log ++ [mf_write b])) as Hw by (rewrite map_app, H1, sent_app by done; reflexivity).
      split; cbn; [done| |rewrite finishes_app, H3, Nat.add_0_r; reflexivity].
      eapply (sent_prefix_ok _ _ t); [exact Hw|]. rewrite <- app_assoc. cbn. by apply minimal_sent.
  - destruct H as [H1 H2 H3]. split; [done|done|]. cbn. rewrite finishes_app, H3, Nat.add_0_r. reflexivity.
Qed.
Lemma effects_wire t : forall log st, minimal_inv rid true 0 (gd_response st) (log ++ t) -> wire_inv log st ->
  wire_inv (log ++ t) (fold_left (response_effect guestId request) t st) /\ gd_response (fold_left (response_effect guestId request) t st) = gd_response st.
Proof.
  induction t as [|e t IH]; intros log st Hm H; [by rewrite app_nil_r|]. cbn [fold_left].
  destruct (IH (log ++ [e]) (response_effect guestId request st e)) as [H1 H2].
  - by rewrite effect_response_same, <- app_assoc.
  - by eapply effect_wire.
  - rewrite <- app_assoc in H1. split; [done|]. by rewrite H2, effect_response_same.
Qed.
Definition on_wire (st : lease_dispatch) : Prop := exists log, minimal_inv rid true 0 (gd_response st) log /\ wire_inv log st.
Lemma call_wire op st : on_wire st -> on_wire (response_call guestId request op st).
Proof.
  intros (log & Hm & H). unfold response_call. fold rid. destruct (minimal_step rid true 0 (gd_response st) op) as [r t] eqn:E.
  pose proof (minimal_step_inv _ _ _ _ _ _ _ _ Hm E) as Hm'. destruct (effects_wire t log (gd_with_response r st)) as [H1 H2]; [done|by destruct H|].
  exists (log ++ t). by rewrite H2.
Qed.
Lemma on_wire_same st st' : gd_response st' = gd_response st -> gd_wire st' = gd_wire st -> (gd_ended st' = false -> gd_ended st = false) ->
  count_notes is_completed (gd_log st') = count_notes is_completed (gd_log st) -> on_wire st -> on_wire st'.
Proof. intros E1 E2 E3 E4 (log & Hm & [H1 H2 H3]). exists log. rewrite E1. split; [done|]. split; rewrite ?E2, ?E4; auto. Qed.
Lemma on_close_wire st : on_wire st -> on_wire (on_close request st).
Proof.
  intros H. unfold on_close, complete, notify_request, terminated. eapply on_wire_same; [| | | |exact H].
  all: repeat case_match; cbn; rewrite ?count_snoc, ?Nat.add_0_r; done.
Qed.
Lemma step_wire ev st : on_wire st -> on_wire (lease_event_step guestId request st ev).
Proof.
  intros H. assert (forall x running awaited, on_wire (gd_calling running awaited x st)) as Hc by (intros *; by eapply on_wire_same; [| | | |exact H]).
  destruct ev as [op|e|promise|e|code| | |e|]; cbn [lease_event_step].
  - case_match; [by apply call_wire|done].
  - case_match; [|done]. destruct (Hc (gd_aborted st) false false) as (log & Hm & Hw). exists log. rewrite fail_response_same. split; [done|].
    apply (fail_wire _ _ []); [by rewrite app_nil_r|done].
  - case_match; done.
  - case_match; [|done]. destruct (Hc (gd_aborted st) false false) as (log & Hm & Hw). exists log. rewrite error_response_same. split; [done|].
    apply (error_wire _ _ []); [by rewrite app_nil_r|done].
  - case_match; [done|]. by eapply on_wire_same; [| | | |exact H].
  - case_match; [done|]. unfold on_aborted, terminated, notify_request. eapply on_wire_same; [| | | |exact H].
    all: repeat case_match; cbn; rewrite ?count_snoc, ?Nat.add_0_r; done.
  - by apply call_wire.
  - by apply call_wire.
  - case_match; [done|]. apply on_close_wire, call_wire. by eapply on_wire_same; [| | | |exact H].
Qed.

(** ** The flags *)
Lemma flags_note n st : is_request_error n = false -> flags_inv st -> flags_inv (gd_note n st).
Proof.
  intros Hn [H1 H2 H3]. split; cbn; [|done|by rewrite count_snoc, Hn, H3, Nat.add_0_r].
  intros Hc. destruct (H1 Hc); [by left|right; by apply gave_up_later].
Qed.
Lemma flags_same st st' : gd_log st' = gd_log st -> gd_requestFailureNotified st' = gd_requestFailureNotified st ->
  (gd_selfCancelled st' = true -> ms_responseStarted (gd_response st') = true) ->
  (gd_completed st' = true -> gd_resolved st' = true \/ gave_up (gd_log st')) -> flags_inv st -> flags_inv st'.
Proof. intros E1 E2 E3 E4 [H1 H2 H3]. split; rewrite ?E1, ?E2; auto. by rewrite <- E1. Qed.
Lemma fail_flags e st : (gd_selfCancelled st = true -> ms_responseStarted (gd_response st) = true) ->
  count_notes is_request_error (gd_log st) = (if gd_requestFailureNotified st then 1%nat else 0%nat) -> flags_inv (fail_response request e st).
Proof.
  intros H2 H3. unfold fail_response. destruct (ms_responseStarted (gd_response (gd_note _ st))) eqn:Es.
  - split; cbn; [by left|done|by rewrite !count_snoc, H3, !Nat.add_0_r].
  - destruct (failure_envelope _ _ _ _) as [b|x].
    + unfold gd_write. cbn [gd_ended gd_note]. destruct (gd_ended st); split; cbn; try by rewrite count_snoc, H3, Nat.add_0_r. all: auto.
    + split; cbn; [intros _; right; exists x; rewrite elem_of_app; right; by left|done|by rewrite !count_snoc, H3, !Nat.add_0_r].
Qed.
Lemma error_flags e st : flags_inv st -> flags_inv (on_response_error guestId request e st).
Proof.
  intros H. unfold on_response_error. set (st1 := if reset st then _ else st).
  assert (flags_inv st1) as H1 by (unfold st1; destruct (reset st); [eapply flags_same; [| | | |exact H]; by destruct H|done]).
  case_match; [by apply flags_note|]. destruct H1 as [A1 A2 A3]. by apply fail_flags.
Qed.
Lemma effect_flags e st : flags_inv st -> flags_inv (response_effect guestId request st e).
Proof.
  intros H. destruct e; cbn [response_effect]; try done.
  - by apply error_flags.
  - pose proof (flags_note dn_completed st eq_refl H) as H1. unfold complete. case_match; [done|]. eapply flags_same; [| | | |exact H1]; [done|done|apply H1|by left].
  - unfold gd_write. case_match; [done|]. eapply flags_same; [| | | |exact H]; by destruct H.
  - eapply flags_same; [| | | |exact H]; by destruct H.
Qed.
Lemma commit_started r : ms_responseStarted r = true -> commitResponse rid true r = (r, [], negb (ms_commitFailed r)).
Proof. intros Hs. unfold commitResponse, startStreamingResponse. rewrite Hs. cbn. by destruct (ms_commitFailed r). Qed.
Lemma write_started r chunk accepted : ms_responseStarted r = true -> (write rid true 0 r chunk accepted).1.1 = r.
Proof. intros Hs. unfold write. rewrite commit_started by done. destruct (_ || _); [done|]. by destruct (negb _). Qed.
Lemma end_started r chunk accepted : ms_responseStarted r = true -> ms_responseStarted (end_response rid true 0 r chunk accepted).1.1 = true.
Proof.
  intros Hs. unfold end_response. destruct (_ || _ || _); [done|]. destruct chunk as [c|].
  - pose proof (write_started r c accepted Hs) as Hw. destruct (write rid true 0 r c accepted) as [[r1 e1] w]. cbn in Hw. subst r1. by destruct w as [x|e]; cbn; [destruct (ms_commitFailed r)|].
  - rewrite commit_started by done. by destruct (ms_commitFailed r).
Qed.
Lemma minimal_started r op : ms_responseStarted r = true -> ms_responseStarted (minimal_step rid true 0 r op).1 = true.
Proof.
  intros Hs. destruct op; cbn [minimal_step]; unfold kept_or; try done.
  1-3: unfold setHeader, appendHeader, writeHead; destruct (_ ≫= _) as [x|e] eqn:E; [|done].
  1-3: repeat (apply bind_Ok_inv in E as (? & _ & E)); repeat case_match; injection E as <-; done.
  - by rewrite write_started.
  - unfold flushHeaders. by rewrite commit_started.
  - by apply end_started.
  - unfold emitOutputError. by case_match.
  - unfold output_close, emitOutputError. repeat case_match; simplify_eq/=; done.
Qed.

Lemma effects_flags t : forall st, flags_inv st -> flags_inv (fold_left (response_effect guestId request) t st).
Proof. induction t as [|e t IH]; intros st H; [done|]. apply IH. by apply effect_flags. Qed.
Lemma call_flags op st : flags_inv st -> flags_inv (response_call guestId request op st).
Proof.
  intros H. unfold response_call. fold rid. pose proof (minimal_started (gd_response st) op) as Hs.
  destruct (minimal_step rid true 0 (gd_response st) op) as [r t]. apply effects_flags. destruct H as [H1 H2 H3]. split; cbn; auto.
Qed.
Lemma notify_flags e st : gd_requestFailureNotified st = false -> flags_inv st -> flags_inv (notify_request e st).
Proof.
  intros Hn [H1 H2 H3]. split; cbn; [|done|by rewrite count_snoc, H3, Hn].
  intros Hc. destruct (H1 Hc); [by left|right; by apply gave_up_later].
Qed.
Lemma on_close_flags st : flags_inv st -> flags_inv (on_close request st) /\ gd_completed (on_close request st) = true.
Proof.
  intros H. unfold on_close. set (st1 := if _ && _ then _ else st). assert (flags_inv st1) as H1.
  { unfold st1. case_match; [|done]. assert (flags_inv (terminated st)) as Ht by (eapply flags_same; [| | | |exact H]; by destruct H).
    destruct (gd_requestFailureNotified (terminated st)) eqn:E; [done|]. by apply notify_flags. }
  unfold complete. destruct (gd_completed st1) eqn:E; [done|]. split; [|done]. eapply flags_same; [| | | |exact H1]; [done|done|apply H1|by left].
Qed.
Lemma step_flags ev st : flags_inv st -> flags_inv (lease_event_step guestId request st ev).
Proof.
  intros H. assert (forall x running awaited, flags_inv (gd_calling running awaited x st)) as Hc by (intros *; eapply flags_same; [| | | |exact H]; by destruct H).
  destruct ev as [op|e|promise|e|code| | |e|]; cbn [lease_event_step].
  - case_match; [by apply call_flags|done].
  - case_match; [|done]. destruct H as [H1 H2 H3]. by apply fail_flags.
  - case_match; done.
  - case_match; [|done]. by apply error_flags.
  - case_match; [done|]. eapply flags_same; [| | | |exact H]; by destruct H.
  - case_match; [done|]. unfold on_aborted. case_match; [done|]. assert (flags_inv (terminated (gd_calling (gd_running st) (gd_awaited st) true st))) as Ht.
    { eapply flags_same; [| | | |exact H]; by destruct H. }
    destruct (gd_rstCode _); [|done]. case_match; [done|]. apply notify_flags; [|done]. cbn in *. by destruct (gd_selfCancelled st).
  - by apply call_flags.
  - by apply call_flags.
  - case_match; [done|]. apply on_close_flags, call_flags. eapply flags_same; [| | | |exact H]; by destruct H.
Qed.

(** ** The end of the stream *)
Definition keeps (st st' : lease_dispatch) : Prop := (gd_completed st = true -> gd_completed st' = true) /\ gd_over st' = gd_over st.
Lemma keeps_trans a b c : keeps a b -> keeps b c -> keeps a c.
Proof. intros [H1 E1] [H2 E2]. split; [auto|congruence]. Qed.
Lemma fail_keeps e st : keeps st (fail_response request e st).
Proof. unfold fail_response, gd_write. repeat case_match; done. Qed.
Lemma error_keeps e st : keeps st (on_response_error guestId request e st).
Proof.
  unfold on_response_error. destruct (reset st); case_match; try done; (eapply keeps_trans; [|apply fail_keeps]); by split.
Qed.
Lemma effect_keeps e st : keeps st (response_effect guestId request st e).
Proof. destruct e; cbn [response_effect]; try done; [apply error_keeps| |]; unfold complete, gd_write; by case_match. Qed.
Lemma call_keeps op st : keeps st (response_call guestId request op st).
Proof.
  unfold response_call. destruct (minimal_step _ _ _ _ op) as [r t]. assert (keeps st (gd_with_response r st)) as H by done. revert H.
  generalize (gd_with_response r st). induction t as [|e t IH]; intros st' H; [done|]. cbn. apply IH. eapply keeps_trans; [exact H|apply effect_keeps].
Qed.
Lemma step_over ev st : (gd_over st = true -> gd_completed st = true) -> gd_over (lease_event_step guestId request st ev) = true ->
  gd_completed (lease_event_step guestId request st ev) = true.
Proof.
  intros H. assert (forall st', keeps st st' -> gd_over st' = true -> gd_completed st' = true) as Hk by (intros st' [K1 ->]; auto).
  destruct ev as [op|e|promise|e|code| | |e|]; cbn [lease_event_step].
  - apply Hk. case_match; [apply call_keeps|done].
  - apply Hk. case_match; [|done]. eapply keeps_trans; [|apply fail_keeps]. done.
  - apply Hk. by case_match.
  - apply Hk. case_match; [|done]. eapply keeps_trans; [|apply error_keeps]. done.
  - apply Hk. by case_match.
  - apply Hk. unfold on_aborted, notify_request, terminated. by repeat case_match.
  - apply Hk, call_keeps.
  - apply Hk, call_keeps.
  - case_match; [auto|]. intros _. unfold on_close, complete. by repeat case_match.
Qed.
Record dispatch_ok (st : lease_dispatch) : Prop := { do_wire : on_wire st; do_flags : flags_inv st; do_over : gd_over st = true -> gd_completed st = true }.
Lemma lease_run_ok events : dispatch_ok (lease_run guestId request events).
Proof.
  unfold lease_run. assert (dispatch_ok dispatch_start) as H0.
  { split; [|by split|done]. exists []. split; [apply minimal_inv_init|]. split; [done|by left|done]. }
  revert H0. generalize dispatch_start. induction events as [|ev events IH]; [done|]. intros st [H1 H2 H3]. cbn. apply IH.
  split; [by apply step_wire|by apply step_flags|by apply step_over].
Qed.
End Theory.

(** A request over a lease stream, whatever the handler calls, throws or
    rejects, and whatever the stream does.  The stream carries nothing, or the
    error envelope of the request alone, or the envelope of a valid response and
    what the handler wrote after it; completion is told once, when the response is
    finished; the handler's request fails at most once; the stream is cancelled by
    the dispatch only behind a response head; and when the stream is over the
    dispatch is settled. *)
Theorem lease_dispatch_correct `{Platform} guestId request events :
  let st := lease_run guestId request events in
  wire_ok request (gd_wire st) /\
  count_notes is_completed (gd_log st) = (if ms_finished (gd_response st) then 1%nat else 0%nat) /\
  (count_notes is_request_error (gd_log st) <= 1)%nat /\
  (gd_selfCancelled st = true -> ms_responseStarted (gd_response st) = true) /\
  (gd_over st = true -> gd_resolved st = true \/ gave_up (gd_log st)).
Proof.
  intros st. destruct (lease_run_ok guestId request events) as [(log & Hm & [H1 H2 H3]) [F1 F2 F3] Ho]. fold st in Hm, H1, H2, H3, F1, F2, F3, Ho.
  split_and!; [done| |rewrite F3; by destruct (gd_requestFailureNotified st); lia|done|auto]. rewrite H3. apply Hm.
Qed.

(** ** In memory *)
Section Routed.
Context {P : Platform} (guestId : jsstring) (request : guest_request) (maxResponseBytes : Z).
Let id := gq_requestId request.

Definition good_result (p : result exn (RoutedResponseEnvelope * bytes)) : Prop :=
  match p with
  | Ok (response, body) => len body <= Z.max 0 maxResponseBytes /\ exists r, headers_inv (headers_of r) /\ createCanonicalResponse r id = Ok response
  | Throw _ => True
  end.
Lemma canonical_head r r' : ms_statusCode r' = ms_statusCode r -> ms_statusMessage r' = ms_statusMessage r -> ms_headerPairs r' = ms_headerPairs r ->
  createCanonicalResponse r' id = createCanonicalResponse r id.
Proof. intros E1 E2 E3. unfold createCanonicalResponse. by rewrite E1, E2, E3. Qed.
Lemma commit_canonical r r' t ok : commitResponse (Some id) false r = (r', t, ok) ->
  createCanonicalResponse r' id = createCanonicalResponse r id /\ mf_finish ∉ t /\ (ok = true -> exists response, createCanonicalResponse r id = Ok response).
Proof.
  unfold commitResponse. destruct (ms_commitFailed r).
  - intros [= <- <- <-]. split_and!; [done|by intros ?%elem_of_nil|done].
  - destruct (createCanonicalResponse r id) as [response|e] eqn:E; cbn [mbind result_bind]; intros [= <- <- <-]; split_and!; try done; eauto.
    + by intros ?%elem_of_nil.
    + by intros ?%list_elem_of_singleton.
Qed.
Lemma write_canonical r chunk accepted r' t w : write (Some id) false maxResponseBytes r chunk accepted = (r', t, w) ->
  createCanonicalResponse r' id = createCanonicalResponse r id /\ mf_finish ∉ t /\
  (ms_destroyedState r || ms_finished r = false -> forall x, w = Ok x -> ms_commitFailed r' = false -> exists response, createCanonicalResponse r id = Ok response).
Proof.
  unfold write. destruct (ms_destroyedState r || ms_finished r); [intros [= <- <- <-]; split_and!; [done|by intros ?%elem_of_nil|done]|].
  destruct (commitResponse (Some id) false r) as [[r1 t1] ok] eqn:E. destruct (commit_canonical _ _ _ _ E) as (H1 & H2 & H3).
  assert (ms_commitFailed r1 = negb ok) as Hok.
  { unfold commitResponse in E. destruct (ms_commitFailed r) eqn:Ec; [by injection E as <- <- <-|].
    destruct (createCanonicalResponse r id); cbn [mbind result_bind] in E; by injection E as <- <- <-. }
  destruct ok; cbn [negb].
  - destruct (maxResponseBytes <? _); intros [= <- <- <-]; split_and!; auto; try done.
    intros [?|?%list_elem_of_singleton]%elem_of_app; done.
  - intros [= <- <- <-]. split_and!; [done|done|]. intros _ x _ Hc. by rewrite Hc in Hok.
Qed.
Lemma finish_canonical r op : mf_finish ∈ (minimal_step (Some id) false maxResponseBytes r op).2 ->
  exists response, createCanonicalResponse (minimal_step (Some id) false maxResponseBytes r op).1 id = Ok response.
Proof.
  destruct op as [name value|name value|code a hs|code m|chunk acc| |chunk acc| |e|code]; cbn [minimal_step]; unfold kept_or; try (by intros ?%elem_of_nil).
  1-3: by case_match; intros ?%elem_of_nil.
  - destruct (write _ _ _ _ _ _) as [[r1 t] w] eqn:E. destruct (write_canonical _ _ _ _ _ _ E) as (_ & H & _). done.
  - unfold flushHeaders. destruct (commitResponse _ _ r) as [[r1 t] ok] eqn:E. destruct (commit_canonical _ _ _ _ E) as (_ & H & _). done.
  - unfold end_response. destruct (ms_finished r || ms_destroyedState r || ms_commitFailed r) eqn:Ed; [by intros ?%elem_of_nil|].
    apply orb_false_iff in Ed as [[Ef Ed]%orb_false_iff _]. destruct chunk as [c|].
    + destruct (write _ _ _ _ _ _) as [[r1 t] w] eqn:E. destruct (write_canonical _ _ _ _ _ _ E) as (Hc & H & Hx). destruct w as [x|e]; cbn [fmap result_fmap]; [|done].
      destruct (ms_commitFailed r1) eqn:Er; [done|]. intros _. rewrite <- Hc in Hx. rewrite Ed, Ef in Hx. cbn. exact (Hx eq_refl x eq_refl eq_refl).
    + destruct (commitResponse _ _ r) as [[r1 t] ok] eqn:E. destruct (commit_canonical _ _ _ _ E) as (Hc & H & Hx). destruct ok; [|done].
      intros _. rewrite <- Hc in Hx. cbn. exact (Hx eq_refl).
Qed.

Record routed_ok (st : routed_dispatch) : Prop := {
  rk_response : exists log, minimal_inv (Some id) false maxResponseBytes (ro_response st) log;
  rk_promise : forall p, ro_promise st = Some p -> good_result p;
  rk_finished : ms_finished (ro_response st) = true -> is_Some (ro_promise st);
}.
Definition settled_stays (st st' : routed_dispatch) : Prop := forall p, ro_promise st = Some p -> ro_promise st' = Some p.
Lemma fulfil_promise p st : ro_promise (ro_fulfil p st) = Some (default p (ro_promise st)).
Proof. unfold ro_fulfil. cbn. by destruct (ro_promise st). Qed.
Lemma ro_effect_spec e st : headers_inv (headers_of (ro_response st)) -> len (concat (ms_chunks (ro_response st))) <= Z.max 0 maxResponseBytes ->
  (forall p, ro_promise st = Some p -> good_result p) ->
  ro_response (ro_effect request st e) = ro_response st /\ settled_stays st (ro_effect request st e) /\
  (forall p, ro_promise (ro_effect request st e) = Some p -> good_result p) /\
  (e = mf_finish -> (exists response, createCanonicalResponse (ro_response st) id = Ok response) -> is_Some (ro_promise (ro_effect request st e))).
Proof.
  intros Hh Hl Hp. assert (forall p st', good_result p -> ro_promise st' = ro_promise st -> ro_response st' = ro_response st ->
    ro_response (ro_fulfil p st') = ro_response st /\ settled_stays st (ro_fulfil p st') /\ (forall q, ro_promise (ro_fulfil p st') = Some q -> good_result q) /\
    is_Some (ro_promise (ro_fulfil p st'))) as Hful.
  { intros p st' Hg E1 E2. split_and!; [done| | |rewrite fulfil_promise; by eexists].
    - intros q Hq. by rewrite fulfil_promise, E1, Hq.
    - intros q. rewrite fulfil_promise, E1. intros [= <-]. destruct (ro_promise st) as [q'|]; [by apply Hp|done]. }
  assert (settled_stays st st) as Hst by (by intros p).
  destruct e as [x| | | |b|]; cbn [ro_effect]; try by (split_and!).
  - unfold ro_error. destruct (ro_settled st); [by split_and!|]. destruct (Hful (Throw x) (ro_settle st)) as (A1 & A2 & A3 & _); done.
  - unfold toDispatchResponse. cbn [ro_settle ro_set ro_response]. fold id. destruct (createCanonicalResponse (ro_response st) id) as [response|x] eqn:E; cbn [fmap result_fmap].
    + destruct (Hful (Ok (response, concat (ms_chunks (ro_response st)))) (ro_note dn_completed (ro_settle st))) as (A1 & A2 & A3 & A4); [|done|done|by split_and!].
      split; [done|]. by eexists.
    + split_and!; try done. intros _ [response Hr]. congruence.
Qed.
Lemma ro_fold_spec t : forall st, headers_inv (headers_of (ro_response st)) -> len (concat (ms_chunks (ro_response st))) <= Z.max 0 maxResponseBytes ->
  (forall p, ro_promise st = Some p -> good_result p) -> let st' := fold_left (ro_effect request) t st in
  ro_response st' = ro_response st /\ settled_stays st st' /\ (forall p, ro_promise st' = Some p -> good_result p) /\
  (mf_finish ∈ t -> (exists response, createCanonicalResponse (ro_response st) id = Ok response) -> is_Some (ro_promise st')).
Proof.
  induction t as [|e t IH]; intros st Hh Hl Hp; cbn [fold_left]; [split_and!; [done|by intros p|done|by intros ?%elem_of_nil]|].
  destruct (ro_effect_spec e st Hh Hl Hp) as (A1 & A2 & A3 & A4). destruct (IH (ro_effect request st e)) as (B1 & B2 & B3 & B4); [by rewrite A1|by rewrite A1|done|].
  split_and!; [congruence|intros p Hq; auto|done|]. intros [<-|Hin]%elem_of_cons Hr.
  - destruct (A4 eq_refl Hr) as [p Hq]. eexists. by apply B2.
  - apply B4; [done|]. by rewrite A1.
Qed.
Lemma routed_step_ok st ev : routed_ok st -> routed_ok (routed_step guestId request maxResponseBytes st ev) /\ settled_stays st (routed_step guestId request maxResponseBytes st ev).
Proof.
  intros H. assert (forall st', ro_response st' = ro_response st -> ro_promise st' = ro_promise st -> routed_ok st' /\ settled_stays st st') as Hsame.
  { intros st' E1 E2. destruct H as [H1 H2 H3]. split; [split; rewrite ?E1, ?E2; done|]. intros p. by rewrite E2. }
  assert (forall p st', good_result p -> ro_promise st' = ro_promise st -> ro_response st' = ro_response st -> routed_ok (ro_fulfil p st') /\ settled_stays st (ro_fulfil p st')) as Hful.
  { intros p st' Hg E1 E2. destruct H as [H1 H2 H3]. split; [split|].
    - cbn. by rewrite E2.
    - intros q. rewrite fulfil_promise, E1. intros [= <-]. destruct (ro_promise st) as [q'|]; [by apply H2|done].
    - intros _. rewrite fulfil_promise. by eexists.
    - intros q Hq. by rewrite fulfil_promise, E1, Hq. }
  destruct ev as [op|e|promise|e|code| | |e|]; cbn [routed_step]; try by apply Hsame.
  - case_match; [|by apply Hsame]. destruct H as [(log & Hm) H2 H3]. pose proof (finish_canonical (ro_response st) op) as Hfin. fold id.
    destruct (minimal_step (Some id) false maxResponseBytes (ro_response st) op) as [r t] eqn:E. cbn in Hfin.
    pose proof (minimal_step_inv _ _ _ _ _ _ _ _ Hm E) as Hm'. pose proof (mi_headers _ _ _ _ _ Hm') as Hh. pose proof (mi_buffer _ _ _ _ _ Hm') as [_ Hb].
    destruct (ro_fold_spec t (ro_set r (ro_settled st) (ro_promise st) (ro_running st) (ro_awaited st) (ro_log st)) Hh Hb H2) as (B1 & B2 & B3 & B4).
    split; [split; [exists (log ++ t); by rewrite B1|done|]|done]. rewrite B1. cbn. intros Hf. destruct (ms_finished (ro_response st)) eqn:Ef.
    + destruct (H3 eq_refl) as [p Hq]. eexists. by apply B2.
    + assert (mf_finish ∈ t) as Hin; [|by apply B4, Hfin]. pose proof (mi_finish _ _ _ _ _ Hm') as Hn. pose proof (mi_finish _ _ _ _ _ Hm) as Hn0.
      rewrite finishes_app, Hf, Hn0, Ef in Hn. cbn in Hn. unfold finishes in Hn. destruct (filter (fun e => e = mf_finish) t) as [|e l] eqn:Ex; [done|].
      assert (e ∈ filter (fun e => e = mf_finish) t) as [-> Hin]%list_elem_of_filter by (rewrite Ex; by left). done.
  - case_match; [|by apply Hsame]. by apply Hful.
  - case_match; by apply Hsame.
  - case_match; [|by apply Hsame]. unfold ro_error. cbn [ro_settled ro_set]. destruct (ro_settled st); [by apply Hsame|by apply Hful].
Qed.
Lemma routed_run_ok events : forall st, routed_ok st ->
  routed_ok (fold_left (routed_step guestId request maxResponseBytes) events st) /\ settled_stays st (fold_left (routed_step guestId request maxResponseBytes) events st).
Proof.
  induction events as [|ev events IH]; intros st H; cbn [fold_left]; [split; [done|by intros p]|]. destruct (routed_step_ok st ev H) as [H1 H2].
  destruct (IH _ H1) as [H3 H4]. split; [done|]. intros p Hp. auto.
Qed.

(** A request in memory: its promise settles once; it is resolved with a response
    that validates, of the request's id, and a body within the limit; and once the
    response is finished it is settled. *)
Theorem routed_dispatch_correct events events' :
  let st := routed_run guestId request maxResponseBytes events in
  let st' := routed_run guestId request maxResponseBytes (events ++ events') in
  (forall p, ro_promise st = Some p -> good_result p /\ ro_promise st' = Some p) /\
  (ms_finished (ro_response st) = true -> is_Some (ro_promise st)).
Proof.
  intros st st'. assert (routed_ok ro_start) as H0 by (split; [exists []; apply minimal_inv_init|done|done]).
  destruct (routed_run_ok events _ H0) as [H1 _]. fold (routed_run guestId request maxResponseBytes events) in H1. fold st in H1.
  destruct (routed_run_ok events' st H1) as [_ H2]. split; [|apply H1]. intros p Hp. split; [by apply (rk_promise _ H1)|].
  unfold st', routed_run. rewrite fold_left_app. by apply H2.
Qed.
End Routed.

(** ** WebSocket leases *)
(** An opened WebSocket has a protocol the broker offered, or none, and is accepted
    only when the handler did not refuse it. *)
Theorem ws_lease_correct `{Platform} guestId native line handler :
  match handleWsLeaseStream guestId native line handler with
  | wx_accepted protocol => exists open, read_ws_open line = Ok open /\ default [] protocol ∈ [[]; wo_protocol open] /\
                              handler open <> wa_false /\ forall e, handler open <> wa_throws e
  | wx_refused _ _ => exists open, read_ws_open line = Ok open /\ (handler open = wa_false \/ exists e, native = true /\ handler open = wa_throws e)
  | wx_failed _ => True
  end.
Proof.
  unfold handleWsLeaseStream. destruct (read_ws_open line) as [open|e] eqn:E; [|done]. unfold decide_ws.
  destruct (handler open) as [| | |protocol|e] eqn:Eh; try (rewrite (bool_decide_eq_true_2 (wo_protocol open = wo_protocol open)) by done; rewrite andb_false_r).
  - exists open. rewrite Eh. split_and!; try done. set_solver.
  - exists open. rewrite Eh. split_and!; try done. set_solver.
  - exists open. by split; [|left].
  - assert (forall p, (if negb (bool_decide (p = [])) && negb (bool_decide (p = wo_protocol open)) then False else True) -> p ∈ [[]; wo_protocol open]) as Hp.
    { intros p Hp. repeat case_bool_decide; cbn in Hp; try done; subst; set_solver. }
    destruct protocol as [[| | | |p| |]|]; try done.
    + exists open. rewrite Eh. split_and!; try done. set_solver.
    + specialize (Hp p). destruct (negb _ && negb _); [done|]. exists open. rewrite Eh. by split_and!; auto.
    + exists open. rewrite Eh. split_and!; try done. set_solver.
  - destruct native; [|done]. exists open. split; [done|]. right. eauto.
Qed.

(** * Samples *)
Module SampleDispatch.
#[local] Existing Instance ascii_platform.
Definition request : guest_request := {| gq_requestId := js "r-1"; gq_leaseId := js "g-lease-1"; gq_path := js "/" |}.
Definition boom : exn := NativeErr RangeError (js "boom").
Definition notes (events : list lease_event) : list dispatch_note * bool * bool :=
  let st := lease_run (js "g") request events in (filter (fun n => (match n with dn_error _ => false | _ => true end) = true) (gd_log st), gd_completed st, gd_selfCancelled st).
(** A handler that throws behind the end of its response cancels the finished
    response; one whose promise is rejected there does not. *)
Example throw_cancels_finished : notes [lv_call (mo_end (Some [1]) true); lv_throw boom] = ([dn_started; dn_completed; dn_cancel], true, true).
Proof. by vm_compute. Qed.
Example reject_keeps_finished : notes [lv_call (mo_end (Some [1]) true); lv_return true; lv_reject boom] = ([dn_started; dn_completed], true, false).
Proof. by vm_compute. Qed.
(** An answer [null] accepts the WebSocket. *)
Example null_accepts :
  handleWsLeaseStream (js "g") false (json_text (JObj [(js "type", JStr (js "open")); (js "domain", JStr (js "a.example"))])) (fun _ => wa_null) = wx_accepted (Some []).
Proof. by vm_compute. Qed.
End SampleDispatch.
