(* ===== verification/UpstreamPool.v ===== *)
(** The streams an upstream link keeps open (verser2-host
    [node-http2-verser-host.ts]): the pool of request streams, the single request
    stream of a link without a pool, and the stream for WebSockets.

    Links are objects known by the order in which they were made; the table of the
    host leads from an upstream id to the current one.  Streams are known by the
    order in which they were opened.  What is awaited is a wait with a number, and
    its answer an event; serving a request is [BrokerRouting]'s part, here the
    event that it is over. *)
From S2P Require Import Prelude JsNum Utf8 Json Errors Routing FederationPool.

(** [openingRequestStreams]: no promise, one whose loop awaits a stream, or one
    that is settled but not cleared yet. *)
Inductive opening_phase : Type := op_none | op_awaits | op_settled.
#[export] Instance opening_phase_eq_dec : EqDecision opening_phase.
Proof. solve_decision. Defined.
Record UpstreamLink := {
  uk_upstreamId : jsstring; uk_pool : option NormalizedUpstreamPool;
  uk_requestStream : nat; uk_requestStreams : list nat; uk_activeRequestStreams : list nat;
  uk_opening : opening_phase;
  uk_vwsStream : option nat; uk_vwsBusy : bool;
  uk_closing : bool;
  uk_down : bool;           (** its session is closed or destroyed *)
  uk_connecting : bool;     (** [connectUpstream] awaits its first streams *)
}.
Record upstream_stream := {
  ut_upstreamId : jsstring;
  ut_request : bool;                (** a request stream, not one for WebSockets *)
  ut_readable : option nat;         (** the link its 'readable' listener marks *)
  ut_served : bool; ut_closed : bool;
  ut_onClose : bool;                (** the 'close' listener that replenishes *)
}.
Inductive stream_wait : Type :=
  | sw_pool (l : nat) | sw_request (l : nat) (upstreamId : jsstring) | sw_vws (l : nat) | sw_vwsAgain (l : nat) (upstreamId : jsstring).
Inductive upstream_effect : Type :=
  | uf_error (e : exn) | uf_connected (upstreamId : jsstring) | uf_disconnected (upstreamId : jsstring) | uf_closed (upstreamId : jsstring)
  | uf_removeImports (upstreamId : jsstring) | uf_destroy (l : nat) | uf_closeRoute (l : nat) | uf_closeStream (s : nat) | uf_cancelStream (s : nat).
Record upstreams := {
  uh_links : list UpstreamLink; uh_table : list (jsstring * nat); uh_streams : list upstream_stream;
  uh_waits : list (nat * stream_wait); uh_next : nat; uh_log : list upstream_effect;
}.
Definition uh_init : upstreams := {| uh_links := []; uh_table := []; uh_streams := []; uh_waits := []; uh_next := 0; uh_log := [] |}.
Definition uh_set (links : list UpstreamLink) (table : list (jsstring * nat)) (st : upstreams) : upstreams :=
  {| uh_links := links; uh_table := table; uh_streams := uh_streams st; uh_waits := uh_waits st; uh_next := uh_next st; uh_log := uh_log st |}.
Definition uh_set_streams (streams : list upstream_stream) (st : upstreams) : upstreams :=
  {| uh_links := uh_links st; uh_table := uh_table st; uh_streams := streams; uh_waits := uh_waits st; uh_next := uh_next st; uh_log := uh_log st |}.
Definition uh_await (w : stream_wait) (st : upstreams) : upstreams :=
  {| uh_links := uh_links st; uh_table := uh_table st; uh_streams := uh_streams st; uh_waits := uh_waits st ++ [(uh_next st, w)]; uh_next := S (uh_next st); uh_log := uh_log st |}.
Definition uh_answered (id : nat) (st : upstreams) : upstreams :=
  {| uh_links := uh_links st; uh_table := uh_table st; uh_streams := uh_streams st; uh_waits := filter (fun w => w.1 <> id) (uh_waits st);
     uh_next := uh_next st; uh_log := uh_log st |}.
Definition uh_do (l : list upstream_effect) (st : upstreams) : upstreams :=
  {| uh_links := uh_links st; uh_table := uh_table st; uh_streams := uh_streams st; uh_waits := uh_waits st; uh_next := uh_next st; uh_log := uh_log st ++ l |}.
Definition on_link (l : nat) (f : UpstreamLink -> UpstreamLink) (st : upstreams) : upstreams := uh_set (alter f l (uh_links st)) (uh_table st) st.

Definition uk_streams (request : nat) (all active : list nat) (k : UpstreamLink) : UpstreamLink :=
  {| uk_upstreamId := uk_upstreamId k; uk_pool := uk_pool k; uk_requestStream := request; uk_requestStreams := all; uk_activeRequestStreams := active;
     uk_opening := uk_opening k; uk_vwsStream := uk_vwsStream k; uk_vwsBusy := uk_vwsBusy k; uk_closing := uk_closing k; uk_down := uk_down k; uk_connecting := uk_connecting k |}.
Definition uk_open (opening : opening_phase) (k : UpstreamLink) : UpstreamLink :=
  {| uk_upstreamId := uk_upstreamId k; uk_pool := uk_pool k; uk_requestStream := uk_requestStream k; uk_requestStreams := uk_requestStreams k;
     uk_activeRequestStreams := uk_activeRequestStreams k; uk_opening := opening; uk_vwsStream := uk_vwsStream k; uk_vwsBusy := uk_vwsBusy k;
     uk_closing := uk_closing k; uk_down := uk_down k; uk_connecting := uk_connecting k |}.
Definition uk_vws (s : nat) (k : UpstreamLink) : UpstreamLink :=
  {| uk_upstreamId := uk_upstreamId k; uk_pool := uk_pool k; uk_requestStream := uk_requestStream k; uk_requestStreams := uk_requestStreams k;
     uk_activeRequestStreams := uk_activeRequestStreams k; uk_opening := uk_opening k; uk_vwsStream := Some s; uk_vwsBusy := false;
     uk_closing := uk_closing k; uk_down := uk_down k; uk_connecting := uk_connecting k |}.
Definition uk_flags (closing down connecting : bool) (k : UpstreamLink) : UpstreamLink :=
  {| uk_upstreamId := uk_upstreamId k; uk_pool := uk_pool k; uk_requestStream := uk_requestStream k; uk_requestStreams := uk_requestStreams k;
     uk_activeRequestStreams := uk_activeRequestStreams k; uk_opening := uk_opening k; uk_vwsStream := uk_vwsStream k; uk_vwsBusy := uk_vwsBusy k;
     uk_closing := closing; uk_down := down; uk_connecting := connecting |}.
Definition usable (k : UpstreamLink) : bool := negb (uk_closing k) && negb (uk_down k).
Definition current (upstreamId : jsstring) (st : upstreams) : option (nat * UpstreamLink) :=
  l ← map_get upstreamId (uh_table st); k ← uh_links st !! l; Some (l, k).

(** ** The loss of a link *)
Definition handleUpstreamSessionClose (upstreamId : jsstring) (st : upstreams) : upstreams :=
  match current upstreamId st with
  | None => st
  | Some (_, k) => uh_do [uf_removeImports upstreamId; (if uk_closing k then uf_closed else uf_disconnected) upstreamId] (uh_set (uh_links st) (map_delete upstreamId (uh_table st)) st)
  end.
Definition take_down (l : nat) (st : upstreams) : upstreams := on_link l (fun k => uk_flags (uk_closing k) true (uk_connecting k) k) st.
Definition handleUpstreamRouteStreamClose (upstreamId : jsstring) (st : upstreams) : upstreams :=
  match current upstreamId st with
  | None => st
  | Some (l, k) => handleUpstreamSessionClose upstreamId (if uk_down k then st else uh_do [uf_destroy l] (take_down l st))
  end.
Definition is_closed (s : nat) (st : upstreams) : bool := match uh_streams st !! s with Some t => ut_closed t | None => true end.
(** [closeUpstreamLink], up to the end of the session; the link is the handle's.
    Closing a route stream that is closed already does nothing. *)
Definition closeUpstreamLink (l : nat) (st : upstreams) : upstreams :=
  match uh_links st !! l with
  | None => st
  | Some k =>
      if negb (map_has (uk_upstreamId k) (uh_table st)) then st
      else
        let st := uh_do [uf_removeImports (uk_upstreamId k); uf_closeRoute l] (on_link l (fun k => uk_flags true (uk_down k) (uk_connecting k) k) st) in
        let st := uh_do (map uf_closeStream (filter (fun s => is_closed s st = false) (uk_requestStream k :: filter (fun s => s <> uk_requestStream k) (uk_requestStreams k)))) st in
        uh_do [uf_destroy l] (take_down l st)
  end.

(** ** The pool *)
Definition wants_stream (k : UpstreamLink) : bool :=
  match uk_pool k with
  | Some pool => usable k && (len (uk_requestStreams k) <? up_maxOpenStreams pool) &&
                 (len (uk_requestStreams k) - len (uk_activeRequestStreams k) <? up_minWaitingStreams pool)
  | None => false
  end.
(** A turn of the loop: it awaits a stream, or is done. *)
Definition pool_turn (l : nat) (st : upstreams) : upstreams :=
  match uh_links st !! l with
  | None => st
  | Some k => if wants_stream k then uh_await (sw_pool l) (on_link l (uk_open op_awaits) st) else on_link l (uk_open op_settled) st
  end.
Definition maintainUpstreamRequestPool (l : nat) (st : upstreams) : upstreams :=
  match uh_links st !! l with
  | None => st
  | Some k => match uk_pool k with
              | None => st
              | Some _ => if bool_decide (uk_opening k = op_none) then pool_turn l st else st
              end
  end.
Definition new_stream (request : bool) (upstreamId : jsstring) (readable : option nat) (st : upstreams) : upstreams :=
  uh_set_streams (uh_streams st ++ [{| ut_upstreamId := upstreamId; ut_request := request; ut_readable := readable; ut_served := false; ut_closed := false;
                                       ut_onClose := negb request |}]) st.
(** [handleUpstreamRequestStream]: the listener marks the link the id leads to. *)
Definition handleUpstreamRequestStream (upstreamId : jsstring) (st : upstreams) : upstreams :=
  new_stream true upstreamId (match current upstreamId st with Some (l, k) => match uk_pool k with Some _ => Some l | None => None end | None => None end) st.
Definition replenishUpstreamRequestStream (upstreamId : jsstring) (s : nat) (st : upstreams) : upstreams :=
  match current upstreamId st with
  | None => st
  | Some (l, k) =>
      if negb (usable k) then st
      else match uk_pool k with
           | None => if bool_decide (uk_requestStream k = s) then uh_await (sw_request l upstreamId) st else st
           | Some _ =>
               if set_has s (uk_requestStreams k) then
                 maintainUpstreamRequestPool l
                   (on_link l (fun k => uk_streams (uk_requestStream k) (filter (fun x => x <> s) (uk_requestStreams k)) (filter (fun x => x <> s) (uk_activeRequestStreams k)) k) st)
               else st
           end
  end.
Definition replenishUpstreamVwsStream (upstreamId : jsstring) (s : nat) (st : upstreams) : upstreams :=
  match current upstreamId st with
  | Some (l, k) => if usable k && bool_decide (uk_vwsStream k = Some s) then uh_await (sw_vwsAgain l upstreamId) st else st
  | None => st
  end.
Definition establishUpstreamVwsPool (l : nat) (st : upstreams) : upstreams :=
  match uh_links st !! l with Some k => if usable k then uh_await (sw_vws l) st else st | None => st end.

(** ** Answers *)
Definition id_of (l : nat) (st : upstreams) : jsstring := match uh_links st !! l with Some k => uk_upstreamId k | None => [] end.
Definition use_vws (l : nat) (upstreamId : jsstring) (st : upstreams) : upstreams :=
  on_link l (uk_vws (length (uh_streams st))) (new_stream false upstreamId None st).
Definition answer (w : stream_wait) (opened : result exn unit) (st : upstreams) : upstreams :=
  let s := length (uh_streams st) in
  match w, opened with
  | sw_pool l, Ok _ =>
      let st := on_link l (fun k => uk_streams (uk_requestStream k) (set_add s (uk_requestStreams k)) (uk_activeRequestStreams k) k) st in
      pool_turn l (handleUpstreamRequestStream (id_of l st) st)
  | sw_pool l, Throw e => on_link l (uk_open op_settled) (handleUpstreamRouteStreamClose (id_of l st) (uh_do [uf_error e] st))
  | sw_request l upstreamId, Ok _ =>
      handleUpstreamRequestStream upstreamId (on_link l (fun k => uk_streams s (uk_requestStreams k) (uk_activeRequestStreams k) k) st)
  | sw_request l upstreamId, Throw e => handleUpstreamRouteStreamClose upstreamId (uh_do [uf_error e] st)
  | sw_vws l, Ok _ =>
      match uh_links st !! l with
      | Some k => if usable k then use_vws l (uk_upstreamId k) st else uh_do [uf_cancelStream s] (new_stream false (uk_upstreamId k) None st)
      | None => st
      end
  | sw_vws l, Throw e => st
  | sw_vwsAgain l upstreamId, Ok _ => use_vws l upstreamId st
  | sw_vwsAgain l upstreamId, Throw e => uh_do [uf_error e] st
  end.

(** ** Steps *)
Inductive upstream_event : Type :=
  | ue_link (upstreamId : jsstring) (pool : option NormalizedUpstreamPool)    (** [connectUpstream] has its first streams *)
  | ue_connected (l : nat)                                                    (** … and goes on behind its pool *)
  | ue_answer (wait : nat) (opened : result exn unit)
  | ue_cleared (l : nat)                                                      (** [openingRequestStreams] is cleared *)
  | ue_readable (s : nat) | ue_served (s : nat) | ue_streamClose (s : nat)
  | ue_sessionDown (l : nat) | ue_sessionClose (l : nat) | ue_routeStreamClose (l : nat)
  | ue_close (l : nat) | ue_closed (l : nat).                                 (** a handle is closed; its session has ended *)
Definition add_link (upstreamId : jsstring) (pool : option NormalizedUpstreamPool) (st : upstreams) : upstreams :=
  let l := length (uh_links st) in
  let s := length (uh_streams st) in
  let k := {| uk_upstreamId := upstreamId; uk_pool := pool; uk_requestStream := s; uk_requestStreams := [s]; uk_activeRequestStreams := [];
              uk_opening := op_none; uk_vwsStream := None; uk_vwsBusy := false; uk_closing := false; uk_down := false; uk_connecting := true |} in
  maintainUpstreamRequestPool l (handleUpstreamRequestStream upstreamId (uh_set (uh_links st ++ [k]) (map_set upstreamId l (uh_table st)) st)).
Definition set_stream (s : nat) (readable : option nat) (served closed onClose : bool) (st : upstreams) : upstreams :=
  uh_set_streams (alter (fun t => {| ut_upstreamId := ut_upstreamId t; ut_request := ut_request t; ut_readable := readable; ut_served := served;
                                     ut_closed := closed; ut_onClose := onClose |}) s (uh_streams st)) st.
Definition on_stream (s : nat) (f : upstream_stream -> upstreams) (st : upstreams) : upstreams := match uh_streams st !! s with Some t => f t | None => st end.
Definition on_upstream (l : nat) (f : UpstreamLink -> upstreams) (st : upstreams) : upstreams := match uh_links st !! l with Some k => f k | None => st end.
Definition replenish (t : upstream_stream) (s : nat) (st : upstreams) : upstreams :=
  if ut_request t then replenishUpstreamRequestStream (ut_upstreamId t) s st else replenishUpstreamVwsStream (ut_upstreamId t) s st.
Definition upstream_step (st : upstreams) (ev : upstream_event) : upstreams :=
  match ev with
  | ue_link upstreamId pool => if map_has upstreamId (uh_table st) then st else add_link upstreamId pool st
  | ue_connected l => on_upstream l (fun k =>
      if uk_connecting k && bool_decide (uk_opening k = op_none) then
        uh_do [uf_connected (uk_upstreamId k)] (establishUpstreamVwsPool l (on_link l (fun k => uk_flags (uk_closing k) (uk_down k) false k) st))
      else st) st
  | ue_answer id opened => match find (fun w => (w.1 =? id)%nat) (uh_waits st) with Some w => answer w.2 opened (uh_answered id st) | None => st end
  | ue_cleared l => on_upstream l (fun k => if bool_decide (uk_opening k = op_settled) then on_link l (uk_open op_none) st else st) st
  | ue_readable s => on_stream s (fun t =>
      match ut_readable t with
      | Some l => if ut_closed t then st
                  else maintainUpstreamRequestPool l
                         (on_link l (fun k => uk_streams (uk_requestStream k) (uk_requestStreams k) (set_add s (uk_activeRequestStreams k)) k)
                           (set_stream s None (ut_served t) (ut_closed t) (ut_onClose t) st))
      | None => st
      end) st
  | ue_served s => on_stream s (fun t =>
      if ut_served t || negb (ut_request t) then st
      else if ut_closed t then replenish t s (set_stream s (ut_readable t) true true false st)
      else set_stream s (ut_readable t) true false true st) st
  | ue_streamClose s => on_stream s (fun t =>
      if ut_closed t then st
      else let st := set_stream s (ut_readable t) (ut_served t) true false st in if ut_onClose t then replenish t s st else st) st
  | ue_sessionDown l => take_down l st
  | ue_sessionClose l => on_upstream l (fun k => handleUpstreamSessionClose (uk_upstreamId k) (take_down l st)) st
  | ue_routeStreamClose l => on_upstream l (fun k => handleUpstreamRouteStreamClose (uk_upstreamId k) st) st
  | ue_close l => closeUpstreamLink l st
  | ue_closed l => on_upstream l (fun k => if uk_closing k && uk_down k then handleUpstreamSessionClose (uk_upstreamId k) st else st) st
  end.
Definition upstream_run (events : list upstream_event) : upstreams := fold_left upstream_step events uh_init.

(** * Theory *)
#[export] Instance stream_wait_eq_dec : EqDecision stream_wait.
Proof. solve_decision. Defined.
Definition pool_waits (l : nat) (st : upstreams) : nat := length (filter (fun w : nat * stream_wait => w.2 = sw_pool l) (uh_waits st)).
#[local] Arguments pool_waits : simpl never.
Record link_good (n : nat) (k : UpstreamLink) : Prop := {
  lg_nodup : NoDup (uk_requestStreams k);
  lg_old : forall s, s ∈ uk_requestStreams k -> (s < n)%nat;
  lg_max : forall p, uk_pool k = Some p -> 1 <= up_maxOpenStreams p -> len (uk_requestStreams k) <= up_maxOpenStreams p;
}.
(** One stream is awaited exactly while the loop awaits, and then there is room. *)
Definition phase_ok (waits : nat) (k : UpstreamLink) : Prop :=
  match uk_opening k with
  | op_awaits => waits = 1%nat /\ exists p, uk_pool k = Some p /\ len (uk_requestStreams k) < up_maxOpenStreams p
  | _ => waits = 0%nat
  end.
(** [x]: the link whose loop is between an answer and its next turn. *)
Definition turning (waits : nat) (k : UpstreamLink) : Prop := waits = 0%nat /\ is_Some (uk_pool k).
Record pool_inv (x : option nat) (st : upstreams) : Prop := {
  pi_good : forall l k, uh_links st !! l = Some k -> link_good (length (uh_streams st)) k;
  pi_phase : forall l k, uh_links st !! l = Some k -> if decide (x = Some l) then turning (pool_waits l st) k else phase_ok (pool_waits l st) k;
  pi_new : forall l, (length (uh_links st) <= l)%nat -> pool_waits l st = 0%nat;
  pi_ids : NoDup (uh_waits st).*1;
  pi_next : forall w, w ∈ uh_waits st -> (w.1 < uh_next st)%nat;
}.

Lemma pool_inv_init : pool_inv None uh_init.
Proof. split; cbn; try done; [constructor|by intros w ?%elem_of_nil]. Qed.
Lemma inv_same x st st' : uh_links st' = uh_links st -> length (uh_streams st') = length (uh_streams st) -> uh_waits st' = uh_waits st -> uh_next st' = uh_next st ->
  pool_inv x st -> pool_inv x st'.
Proof. intros E1 E2 E3 E4 [H1 H2 H3 H4 H5]. split; unfold pool_waits in *; rewrite ?E1, ?E2, ?E3, ?E4; done. Qed.
Lemma inv_new_stream x request id readable st : pool_inv x st -> pool_inv x (new_stream request id readable st).
Proof.
  intros [H1 H2 H3 H4 H5]. split; cbn; try done. intros l k Hl. destruct (H1 l k Hl) as [A1 A2 A3]. split; [done| |done].
  intros s Hs. rewrite length_app. pose proof (A2 s Hs). cbn. lia.
Qed.
(** A link that keeps its pool and its phase, and gets no further streams. *)
Lemma inv_link x l f st : pool_inv x st -> (forall k, uh_links st !! l = Some k -> uk_pool (f k) = uk_pool k /\ uk_opening (f k) = uk_opening k /\
    NoDup (uk_requestStreams (f k)) /\ (forall s, s ∈ uk_requestStreams (f k) -> s ∈ uk_requestStreams k) /\ len (uk_requestStreams (f k)) <= len (uk_requestStreams k)) ->
  pool_inv x (on_link l f st).
Proof.
  intros [H1 H2 H3 H4 H5] Hf. split; cbn; try done.
  - intros l' k'. destruct (decide (l' = l)) as [->|Hn]; [|rewrite list_lookup_alter_ne by done; apply H1]. rewrite list_lookup_alter_eq.
    intros (k & Hk & ->)%fmap_Some. destruct (H1 l k Hk) as [A1 A2 A3]. destruct (Hf k Hk) as (E1 & E2 & E3 & E4 & E5).
    split; [done|auto|]. rewrite E1. intros p Hp Hm. specialize (A3 p Hp Hm). lia.
  - intros l' k'. destruct (decide (l' = l)) as [->|Hn]; [|rewrite list_lookup_alter_ne by done; apply H2]. rewrite list_lookup_alter_eq.
    intros (k & Hk & ->)%fmap_Some. destruct (Hf k Hk) as (E1 & E2 & E3 & E4 & E5). pose proof (H2 l k Hk) as Hp. unfold turning, phase_ok, pool_waits in *. cbn.
    case_decide; [by rewrite E1|]. rewrite E2, E1. destruct (uk_opening k); try done. destruct Hp as (Hw & p & Hp & Hlen). split; [done|]. exists p. split; [done|lia].
  - intros l' Hl. rewrite length_alter in Hl. by apply H3.
Qed.
Lemma inv_flags x l closing down connecting st : pool_inv x st -> pool_inv x (on_link l (fun k => uk_flags (closing k) (down k) (connecting k) k) st).
Proof. intros H. apply inv_link; [done|]. intros k Hk. split_and!; [done|done|apply (lg_nodup _ _ (pi_good _ _ H l k Hk))|done|done]. Qed.
Lemma inv_vws x l s st : pool_inv x st -> pool_inv x (on_link l (uk_vws s) st).
Proof. intros H. apply inv_link; [done|]. intros k Hk. split_and!; [done|done|apply (lg_nodup _ _ (pi_good _ _ H l k Hk))|done|done]. Qed.
Lemma inv_request x l g h st : pool_inv x st -> pool_inv x (on_link l (fun k => uk_streams (g k) (uk_requestStreams k) (h k) k) st).
Proof. intros H. apply inv_link; [done|]. intros k Hk. split_and!; [done|done|apply (lg_nodup _ _ (pi_good _ _ H l k Hk))|done|done]. Qed.
Lemma inv_remove x l s g h st : pool_inv x st -> pool_inv x (on_link l (fun k => uk_streams (g k) (filter (fun y => y <> s) (uk_requestStreams k)) (h k) k) st).
Proof.
  intros H. apply inv_link; [done|]. intros k Hk. pose proof (lg_nodup _ _ (pi_good _ _ H l k Hk)). split_and!; [done|done|by apply NoDup_filter| |].
  - by intros y [_ Hy]%list_elem_of_filter.
  - cbn. unfold len. pose proof (length_filter (fun y => y <> s) (uk_requestStreams k)). lia.
Qed.
Lemma waits_await l w st : pool_waits l (uh_await w st) = (pool_waits l st + if decide (w = sw_pool l) then 1 else 0)%nat.
Proof. unfold pool_waits. cbn. rewrite filter_app, length_app, filter_cons, filter_nil. cbn. case_decide; done. Qed.
Lemma await_ids w st : NoDup (uh_waits st).*1 -> (forall w, w ∈ uh_waits st -> (w.1 < uh_next st)%nat) ->
  NoDup (uh_waits (uh_await w st)).*1 /\ (forall w', w' ∈ uh_waits (uh_await w st) -> (w'.1 < uh_next (uh_await w st))%nat).
Proof.
  intros H1 H2. cbn. split.
  - rewrite fmap_app. apply NoDup_app. split_and!; [done| |apply NoDup_singleton]. intros i (w' & -> & Hw)%list_elem_of_fmap Hi%list_elem_of_singleton.
    cbn in Hi. specialize (H2 w' Hw). lia.
  - intros w' [Hw|Hw%list_elem_of_singleton]%elem_of_app; [specialize (H2 w' Hw); lia|subst; cbn; lia].
Qed.
Lemma inv_await x w st : (forall l, w <> sw_pool l) -> pool_inv x st -> pool_inv x (uh_await w st).
Proof.
  intros Hw [H1 H2 H3 H4 H5]. destruct (await_ids w st H4 H5) as [H4' H5']. assert (forall l, pool_waits l (uh_await w st) = pool_waits l st) as E.
  { intros l. rewrite waits_await, decide_False by done. lia. }
  split; [done| |intros l Hl; rewrite E; by apply H3|done|done]. intros l k Hl. rewrite E. by apply H2.
Qed.
(** A turn of the loop ends the exception. *)
Lemma inv_turn l st : pool_inv (Some l) st -> pool_inv None (pool_turn l st).
Proof.
  intros [H1 H2 H3 H4 H5]. unfold pool_turn. destruct (uh_links st !! l) as [k|] eqn:Ek.
  2: { split; try done. intros l' k' Hl'. pose proof (H2 l' k' Hl') as Hp. rewrite decide_False in Hp by congruence. done. }
  pose proof (H2 l k Ek) as Hp. rewrite decide_True in Hp by done. destruct Hp as [Hw [p Hpool]].
  destruct (wants_stream k) eqn:Ew.
  - destruct (await_ids (sw_pool l) (on_link l (uk_open op_awaits) st) H4 H5) as [H4' H5']. split; [| | |done|done].
    + intros l' k'. cbn. destruct (decide (l' = l)) as [->|Hn]; [|rewrite list_lookup_alter_ne by done; apply H1]. rewrite list_lookup_alter_eq, Ek. intros [= <-].
      destruct (H1 l k Ek) as [A1 A2 A3]. by split.
    + intros l' k' Hl'. rewrite waits_await. cbn in Hl'. change (pool_waits l' (on_link l (uk_open op_awaits) st)) with (pool_waits l' st). destruct (decide (l' = l)) as [->|Hn].
      * rewrite list_lookup_alter_eq, Ek in Hl'. injection Hl' as <-. rewrite decide_False by done. rewrite decide_True by done. unfold phase_ok. cbn. rewrite Hw. split; [done|]. exists p. split; [done|].
        unfold wants_stream in Ew. rewrite Hpool in Ew. apply andb_true_iff in Ew as [[_ Ew]%andb_true_iff _]. lia.
      * rewrite list_lookup_alter_ne in Hl' by done. pose proof (H2 l' k' Hl') as Hp. rewrite decide_False in Hp by congruence.
        rewrite decide_False by done. rewrite decide_False, Nat.add_0_r by congruence. done.
    + intros l' Hl'. rewrite waits_await. cbn in Hl'. rewrite length_alter in Hl'. rewrite decide_False by (apply lookup_lt_Some in Ek; intros [= ->]; lia).
      rewrite Nat.add_0_r. by apply H3.
  - split; cbn; try done.
    + intros l' k'. destruct (decide (l' = l)) as [->|Hn]; [|rewrite list_lookup_alter_ne by done; apply H1]. rewrite list_lookup_alter_eq, Ek. intros [= <-].
      destruct (H1 l k Ek) as [A1 A2 A3]. by split.
    + intros l' k'. change (pool_waits l' (on_link l (uk_open op_settled) st)) with (pool_waits l' st). destruct (decide (l' = l)) as [->|Hn].
      * rewrite list_lookup_alter_eq, Ek. intros [= <-]. done.
      * rewrite list_lookup_alter_ne by done. intros Hl'. pose proof (H2 l' k' Hl') as Hp. by rewrite decide_False in Hp by congruence.
    + intros l' Hl'. rewrite length_alter in Hl'. by apply H3.
Qed.
Lemma inv_maintain l st : pool_inv None st -> pool_inv None (maintainUpstreamRequestPool l st).
Proof.
  intros H. unfold maintainUpstreamRequestPool. destruct (uh_links st !! l) as [k|] eqn:Ek; [|done]. destruct (uk_pool k) as [p|] eqn:Ep; [|done].
  case_bool_decide as Eo; [|done]. apply inv_turn. destruct H as [H1 H2 H3 H4 H5]. split; try done. intros l' k' Hl'. pose proof (H2 l' k' Hl') as Hp.
  rewrite decide_False in Hp by done. case_decide as El; [|done]. injection El as <-. rewrite Ek in Hl'. injection Hl' as <-. unfold phase_ok in Hp. rewrite Eo in Hp. by split; [|rewrite Ep].
Qed.
(** An answer takes its wait away. *)
Lemma inv_answer_taken id w st : pool_inv None st -> (id, w) ∈ uh_waits st -> pool_inv (match w with sw_pool l => Some l | _ => None end) (uh_answered id st).
Proof.
  intros [H1 H2 H3 H4 H5] Hin.
  assert (exists a b, uh_waits st = a ++ (id, w) :: b /\ filter (fun w : nat * stream_wait => w.1 <> id) (uh_waits st) = a ++ b) as (a & b & E & Ef).
  { apply list_elem_of_split in Hin as (a & b & E). exists a, b. split; [done|]. rewrite E in H4 |- *. rewrite fmap_app, fmap_cons in H4.
    apply NoDup_app in H4 as (Ha & Hab & [Hb _]%NoDup_cons). rewrite filter_app, filter_cons, decide_False by naive_solver. f_equal.
    - apply filter_all_in. intros [i v] Hi Hx. cbn in Hx. subst i. apply (Hab id); [apply list_elem_of_fmap; by exists (id, v)|by left].
    - apply filter_all_in. intros [i v] Hi Hx. cbn in Hx. subst i. apply Hb. apply list_elem_of_fmap. by exists (id, v). }
  assert (forall l, pool_waits l st = (pool_waits l (uh_answered id st) + if decide (w = sw_pool l) then 1 else 0)%nat) as Ew.
  { intros l. unfold pool_waits. cbn. rewrite Ef, E, !filter_app, filter_cons, !length_app. cbn. case_decide; cbn; lia. }
  split; cbn; try done.
  - intros l k Hl. pose proof (H2 l k Hl) as Hp. rewrite decide_False in Hp by done. unfold phase_ok in Hp. rewrite Ew in Hp. destruct w as [l'|l' i|l'|l' i].
    1: destruct (decide (l = l')) as [->|Hn].
    1: { rewrite decide_True by done. rewrite decide_True in Hp by done. destruct (uk_opening k); [lia| |lia]. destruct Hp as (Hw & p & Hp & _). split; [lia|by eexists]. }
    all: rewrite decide_False by congruence; unfold phase_ok; rewrite decide_False in Hp by congruence; by rewrite Nat.add_0_r in Hp.
  - intros l Hl. specialize (H3 l Hl). rewrite Ew in H3. lia.
  - rewrite Ef. rewrite E in H4. rewrite fmap_app, fmap_cons in H4. rewrite fmap_app. apply NoDup_app in H4 as (Ha & Hab & [Hb Hb']%NoDup_cons).
    apply NoDup_app. split_and!; [done| |done]. intros i Hi Hx. apply (Hab i Hi). by right.
  - intros w' [_ Hw]%list_elem_of_filter. auto.
Qed.
Lemma inv_phase x l phase st : phase <> op_awaits -> pool_inv x st -> (x = Some l \/ x = None /\ forall k, uh_links st !! l = Some k -> uk_opening k <> op_awaits) ->
  pool_inv None (on_link l (uk_open phase) st).
Proof.
  intros Hphase [H1 H2 H3 H4 H5] Hx. split; cbn; try done.
  - intros l' k'. destruct (decide (l' = l)) as [->|Hn]; [|rewrite list_lookup_alter_ne by done; apply H1]. rewrite list_lookup_alter_eq.
    intros (k & Hk & ->)%fmap_Some. destruct (H1 l k Hk) as [A1 A2 A3]. by split.
  - intros l' k' Hl'. rewrite decide_False by done. change (pool_waits l' (on_link l (uk_open phase) st)) with (pool_waits l' st). destruct (decide (l' = l)) as [->|Hn].
    + rewrite list_lookup_alter_eq in Hl'. apply fmap_Some in Hl' as (k & Hk & ->). pose proof (H2 l k Hk) as Hp. unfold phase_ok. cbn.
      destruct Hx as [->|[-> Hx]]; [rewrite decide_True in Hp by done; destruct Hp as [Hp _]|rewrite decide_False in Hp by done; unfold phase_ok in Hp; specialize (Hx k Hk)]; destruct phase; try done; by destruct (uk_opening k).
    + rewrite list_lookup_alter_ne in Hl' by done. pose proof (H2 l' k' Hl') as Hp. destruct Hx as [->|[-> Hx]]; [rewrite decide_False in Hp by congruence; done|by rewrite decide_False in Hp].
  - intros l' Hl'. rewrite length_alter in Hl'. by apply H3.
Qed.
Lemma awaiting_room l id k st : pool_inv None st -> (id, sw_pool l) ∈ uh_waits st -> uh_links st !! l = Some k ->
  exists p, uk_pool k = Some p /\ len (uk_requestStreams k) < up_maxOpenStreams p.
Proof.
  intros H Hin Hk. pose proof (pi_phase _ _ H l k Hk) as Hp. rewrite decide_False in Hp by done. unfold phase_ok in Hp.
  assert (pool_waits l st <> 0%nat) as Hn.
  { unfold pool_waits. intros E%length_zero_iff_nil. assert ((id, sw_pool l) ∈ filter (fun w : nat * stream_wait => w.2 = sw_pool l) (uh_waits st)) as Hx by (apply list_elem_of_filter; by split).
    rewrite E in Hx. by apply elem_of_nil in Hx. }
  destruct (uk_opening k); [done|by destruct Hp|done].
Qed.
Lemma inv_add_stream x l upstreamId readable st : pool_inv x st ->
  (forall k, uh_links st !! l = Some k -> forall p, uk_pool k = Some p -> len (uk_requestStreams k) < up_maxOpenStreams p) -> x = Some l ->
  pool_inv x (new_stream true upstreamId readable
    (on_link l (fun k => uk_streams (uk_requestStream k) (set_add (length (uh_streams st)) (uk_requestStreams k)) (uk_activeRequestStreams k) k) st)).
Proof.
  intros [H1 H2 H3 H4 H5] Hroom ->. split; cbn; try done.
  - intros l' k'. rewrite length_app. cbn. destruct (decide (l' = l)) as [->|Hn].
    + rewrite list_lookup_alter_eq. intros (k & Hk & ->)%fmap_Some. destruct (H1 l k Hk) as [A1 A2 A3]. split; cbn.
      * by apply set_add_NoDup.
      * intros s [->|Hs%A2]%set_add_elem; lia.
      * intros p Hp Hm. unfold set_add. case_decide; [auto|]. rewrite len_app. specialize (Hroom k Hk p Hp). unfold len in *. cbn. lia.
    + rewrite list_lookup_alter_ne by done. intros Hk. destruct (H1 l' k' Hk) as [A1 A2 A3]. split; [done|intros s Hs%A2; lia|done].
  - intros l' k'. destruct (decide (l' = l)) as [->|Hn].
    + rewrite list_lookup_alter_eq. intros (k & Hk & ->)%fmap_Some. pose proof (H2 l k Hk) as Hp. rewrite decide_True in Hp by done. rewrite decide_True by done. exact Hp.
    + rewrite list_lookup_alter_ne by done. intros Hk. exact (H2 l' k' Hk).
  - intros l' Hl'. rewrite length_alter in Hl'. by apply H3.
Qed.
Lemma inv_sessionClose x upstreamId st : pool_inv x st -> pool_inv x (handleUpstreamSessionClose upstreamId st).
Proof. intros H. unfold handleUpstreamSessionClose. destruct (current upstreamId st) as [[l k]|]; [|done]. by eapply inv_same; [| | | |exact H]. Qed.
Lemma inv_routeStreamClose x upstreamId st : pool_inv x st -> pool_inv x (handleUpstreamRouteStreamClose upstreamId st).
Proof.
  intros H. unfold handleUpstreamRouteStreamClose. destruct (current upstreamId st) as [[l k]|]; [|done]. apply inv_sessionClose.
  destruct (uk_down k); [done|]. apply (inv_same _ (take_down l st)); [done..|]. by apply inv_flags.
Qed.
Lemma inv_closeLink l st : pool_inv None st -> pool_inv None (closeUpstreamLink l st).
Proof.
  intros H. unfold closeUpstreamLink. destruct (uh_links st !! l) as [k|]; [|done]. destruct (negb _); [done|]. set (st1 := on_link l (fun k0 => uk_flags true _ _ k0) st).
  assert (pool_inv None st1) as H1 by by apply inv_flags. apply (inv_same _ (take_down l st1)); [done..|]. by apply inv_flags.
Qed.
Lemma inv_replenish t s st : pool_inv None st -> pool_inv None (replenish t s st).
Proof.
  intros H. unfold replenish, replenishUpstreamRequestStream, replenishUpstreamVwsStream. destruct (ut_request t).
  - destruct (current (ut_upstreamId t) st) as [[l k]|]; [|done]. destruct (negb (usable k)); [done|]. destruct (uk_pool k); case_match; try done.
    + by apply inv_maintain, inv_remove.
    + by apply inv_await.
  - destruct (current (ut_upstreamId t) st) as [[l k]|]; [|done]. case_match; [by apply inv_await|done].
Qed.
Lemma inv_use_vws l upstreamId st : pool_inv None st -> pool_inv None (use_vws l upstreamId st).
Proof. intros H. unfold use_vws. by apply inv_vws, inv_new_stream. Qed.
Lemma inv_answer id w opened st : pool_inv None st -> (id, w) ∈ uh_waits st -> pool_inv None (answer w opened (uh_answered id st)).
Proof.
  intros H Hin. pose proof (inv_answer_taken id w st H Hin) as H1. destruct w as [l|l i|l|l i], opened as [u|e]; cbn [answer].
  - apply inv_turn. unfold handleUpstreamRequestStream. apply inv_add_stream; [done| |done]. intros k Hk p Hp. destruct (awaiting_room l id k st H Hin Hk) as (p' & Hp' & Hlen). congruence.
  - eapply inv_phase; [done|by apply inv_routeStreamClose; eapply inv_same; [| | | |exact H1]|by left].
  - unfold handleUpstreamRequestStream. apply inv_new_stream. by apply (inv_request _ _ (fun _ => _) uk_activeRequestStreams).
  - apply inv_routeStreamClose. by eapply inv_same; [| | | |exact H1].
  - destruct (uh_links _ !! l); [|done]. destruct (usable u0); [by apply inv_use_vws|]. eapply inv_same; [| | | |apply (inv_new_stream _ false (uk_upstreamId u0) None), H1]; done.
  - done.
  - by apply inv_use_vws.
  - by eapply inv_same; [| | | |exact H1].
Qed.
Lemma inv_add_link upstreamId pool st : pool_inv None st -> pool_inv None (add_link upstreamId pool st).
Proof.
  intros [H1 H2 H3 H4 H5]. unfold add_link, handleUpstreamRequestStream. apply inv_maintain. split; cbn; try done.
  - intros l k. rewrite length_app. cbn. intros [Hl|[Hl Hk]]%lookup_app_Some.
    + destruct (H1 l k Hl) as [A1 A2 A3]. split; [done|intros s Hs%A2; lia|done].
    + apply list_lookup_singleton_Some in Hk as [_ <-]. split; cbn; [apply NoDup_singleton|intros s ->%list_elem_of_singleton; lia|intros p _ Hm; unfold len; cbn; lia].
  - intros l k [Hl|[Hl Hk]]%lookup_app_Some; [exact (H2 l k Hl)|]. rewrite decide_False by done. apply list_lookup_singleton_Some in Hk as [_ <-]. by apply H3.
  - intros l. rewrite length_app. cbn. intros Hl. apply H3. lia.
Qed.
Lemma upstream_step_inv st ev : pool_inv None st -> pool_inv None (upstream_step st ev).
Proof.
  intros H. assert (forall s rd a b c, pool_inv None (set_stream s rd a b c st)) as Hset by (intros *; eapply inv_same; [| | | |exact H]; try done; apply length_alter).
  destruct ev as [upstreamId pool|l|id opened|l|s|s|s|l|l|l|l|l]; cbn [upstream_step]; unfold on_upstream, on_stream.
  - case_match; [done|by apply inv_add_link].
  - destruct (uh_links st !! l) as [k|]; [|done]. case_match; [|done].
    set (st1 := on_link l (fun k0 => uk_flags _ _ false k0) st). assert (pool_inv None st1) as H1 by by apply inv_flags.
    assert (pool_inv None (establishUpstreamVwsPool l st1)) as H2 by (unfold establishUpstreamVwsPool; repeat case_match; [by apply inv_await|done|done]). by eapply inv_same; [| | | |exact H2].
  - destruct (find _ (uh_waits st)) as [[id' w]|] eqn:E; [|done]. apply find_some in E as [Hin He]. apply Nat.eqb_eq in He. cbn in He. subst id'.
    apply inv_answer; [done|]. by apply list_elem_of_In.
  - destruct (uh_links st !! l) as [k|] eqn:Ek; [|done]. case_bool_decide as Eo; [|done]. eapply (inv_phase None); [done|done|]. right. split; [done|]. intros k' Hk'. congruence.
  - destruct (uh_streams st !! s) as [t|]; [|done]. destruct (ut_readable t) as [l|]; [|done]. destruct (ut_closed t); [done|]. apply inv_maintain.
    by apply (inv_request _ _ uk_requestStream (fun k => set_add s (uk_activeRequestStreams k))).
  - destruct (uh_streams st !! s) as [t|]; [|done]. destruct (_ || _); [done|]. destruct (ut_closed t); [by apply inv_replenish|done].
  - destruct (uh_streams st !! s) as [t|]; [|done]. destruct (ut_closed t); [done|]. destruct (ut_onClose t); [by apply inv_replenish|done].
  - by apply inv_flags.
  - destruct (uh_links st !! l); [|done]. by apply inv_sessionClose, inv_flags.
  - destruct (uh_links st !! l); [|done]. by apply inv_routeStreamClose.
  - by apply inv_closeLink.
  - destruct (uh_links st !! l); [|done]. case_match; [by apply inv_sessionClose|done].
Qed.
Lemma upstream_run_inv events : pool_inv None (upstream_run events).
Proof.
  unfold upstream_run. generalize pool_inv_init. generalize uh_init. induction events as [|ev events IH]; [done|]. intros st H. cbn. apply IH. by apply upstream_step_inv.
Qed.

(** The streams of upstream links, whatever is answered, fails, ends or is closed:
    the request streams of a link are distinct and within its limit; its loop
    awaits exactly one stream while it is open, so it never hangs, and none
    otherwise. *)
Theorem upstream_pool_correct events l k p :
  uh_links (upstream_run events) !! l = Some k -> uk_pool k = Some p -> 1 <= up_maxOpenStreams p ->
  NoDup (uk_requestStreams k) /\ len (uk_requestStreams k) <= up_maxOpenStreams p /\
  pool_waits l (upstream_run events) = if decide (uk_opening k = op_awaits) then 1%nat else 0%nat.
Proof.
  intros Hl Hp Hm. pose proof (upstream_run_inv events) as H. destruct (pi_good _ _ H l k Hl) as [A1 A2 A3]. split_and!; [done|auto|].
  pose proof (pi_phase _ _ H l k Hl) as Hph. rewrite decide_False in Hph by done. unfold phase_ok in Hph. destruct (uk_opening k); [done|by destruct Hph|done].
Qed.

(** * Samples *)
Module SampleUpstream.
Definition pool : NormalizedUpstreamPool := {| up_minWaitingStreams := 2; up_maxOpenStreams := 4; up_leaseAcquireTimeoutMs := 5000; up_maxQueuedAcquires := 128 |}.
Definition up : jsstring := js "up".
(** The link, its number of request streams and whether a stream is awaited. *)
Definition view (events : list upstream_event) (l : nat) : option nat * option nat * nat :=
  let st := upstream_run events in (map_get up (uh_table st), length ∘ uk_requestStreams <$> uh_links st !! l, length (uh_waits st)).
Lemma upstream_pool_correct_witness :
  let st := upstream_run [ue_link up (Some pool); ue_answer 0 (Ok tt)] in
  exists k, uh_links st !! 0%nat = Some k /\ len (uk_requestStreams k) <= 4 /\ len (uk_requestStreams k) = 2.
Proof.
  cbv zeta. destruct (uh_links (upstream_run [ue_link up (Some pool); ue_answer 0 (Ok tt)]) !! 0%nat) as [k|] eqn:E; [|by vm_compute in E].
  exists k. assert (uk_pool k = Some pool) as Hp by (vm_compute in E; injection E as <-; reflexivity).
  split; [reflexivity|]. split; [apply (upstream_pool_correct [ue_link up (Some pool); ue_answer 0 (Ok tt)] 0 k pool E Hp); cbn; lia|vm_compute in E; injection E as <-; reflexivity].
Defined.
(** The handle of a link that was lost, closed after another link took its id,
    removes that link from the table and leaves its session open. *)
Example former_handle_removes :
  let st := upstream_run [ue_link up None; ue_routeStreamClose 0; ue_link up None; ue_close 0; ue_closed 0] in
  (map_get up (uh_table st), uk_down <$> uh_links st !! 1%nat) = (None, Some false).
Proof. by vm_compute. Qed.
(** A link whose pool cannot be filled is removed, and [connectUpstream] still
    succeeds. *)
Example lost_link_connects :
  let st := upstream_run [ue_link up (Some pool); ue_answer 0 (Throw (EngineErr TypeError [])); ue_cleared 0; ue_connected 0] in
  (map_get up (uh_table st), existsb (fun e => match e with uf_connected _ => true | _ => false end) (uh_log st)) = (None, true).
Proof. by vm_compute. Qed.
(** A stream that ends between the end of the loop and the clearing of its promise
    is not replaced. *)
Example end_before_clearing :
  view [ue_link up (Some pool); ue_streamClose 0; ue_answer 0 (Ok tt); ue_served 0; ue_cleared 0] 0 = (Some 0%nat, Some 1%nat, 0%nat).
Proof. by vm_compute. Qed.
End SampleUpstream.
